(* ===== verification/_CoqProject ===== *)
-Q . S2P
Prelude.v
Common.v
RlpEncode.v
RlpDecode.v
RlpCanon.v
Transaction.v
AccessList.v
StateObject.v
Concrete.v
StateDB.v
StateRevert.v
StateBalance.v
Transfer.v
StateEffect.v
EvmWord.v
EvmAnalysis.v
EvmMachine.v
EvmGasTable.v
EvmMemory.v
EvmCall.v
EvmInstr.v
EvmRun.v
EvmLogic.v
EvmGas.v
EvmEffect.v
TeWaka.v
TeWakaVm.v
TeWakaProofs.v
TeWakaSpec.v
TeWakaRun.v
Consensus.v
HeaderPipeline.v
HeaderRlp.v
RawDB.v
RawDBSpec.v
HeaderChain.v
HeaderChainSpec.v
HeaderChainWrite.v
HeaderChainReorg.v
HeaderChainInsert.v
HeaderChainRewind.v
HeaderChainRun.v
HeaderChainTheorems.v
StateTransition.v
EvmLink.v
TxSigning.v
TxExecution.v
Heap.v
TxList.v
TxListSpec.v
TxOrder.v
TxPriced.v
TxPricedSpec.v
TxPool.v
TxPoolLogic.v
TxPoolSpec.v
TxPoolMove.v
TxPoolLimits.v
TxPoolRun.v
TxPoolTheorems.v
TxSchedule.v
TrieEncoding.v
Trie.v
TrieMap.v
TrieSpec.v
TrieHash.v
TrieNode.v
TrieDB.v
TrieFlush.v
Clique.v
CliqueVotes.v
CliqueChain.v
CliqueEngine.v
CliqueSpec.v
