(* ===== verification/Prelude.v ===== *)
(** * go-classzz-v2: a verified model of the core of a blockchain node

    go-classzz-v2 is a node of a proof-of-work chain (or, in private networks,
    of a proof-of-authority one) with an Ethereum style virtual machine and a built-in contract, Te Waka, for staking and for
    converting coins of other chains.  This library models the part of the node
    that decides what a block does to the state, and proves what the node relies
    on.  Definitions follow the Go code function by function and can be
    evaluated; the names are those of the source, with a trailing underscore or a
    prefix where Rocq has the name taken.

    ** The program and the files

    A transaction goes through these parts, each a file or a few:

    - values: bytes, addresses, hashes and checked arithmetic
      (common/bytes.go, common/types.go, common/math) in [Common]; RLP, the
      encoding of everything stored or hashed (rlp/encode.go, rlp/raw.go,
      rlp/decode.go), in [RlpEncode] and [RlpDecode], with the proof that only
      canonical input is accepted in [RlpCanon];
    - transactions (core/types/transaction.go, legacy_tx.go, access_list_tx.go,
      dynamic_fee_tx.go): their data, fees and codings in [Transaction]; signing
      hashes, signers, sender recovery and the caches of a transaction
      (transaction_signing.go, hashing.go) in [TxSigning];
    - waiting transactions (core/tx_list.go, core/tx_noncer.go): [Heap] is
      container/heap of the Go library, [TxList] the nonce-sorted map, the list of
      an account and the virtual nonces, [TxListSpec] the proofs that they are
      sorted lists; [TxOrder] is the order in which the miner takes them
      (transaction.go);
    - the transaction pool (core/tx_pool.go, the price heaps of core/tx_list.go):
      [TxPriced] has account sets, the lookup and the price heaps, with their proofs
      in [TxPricedSpec]; [TxPool] the state of the pool and its operations, each a
      step of a state monad since the code holds the pool's mutex, over a chain that
      is the class [BlockChain]; [TxSchedule] the loop that schedules its background
      runs, over arbitrary sequences of events.  [TxPoolLogic] has the rules for
      steps and the representation of the pool by a pending and a queued list per
      account, [TxPoolSpec] the invariant, adding and removing, [TxPoolMove]
      promotion and demotion, [TxPoolLimits] the limit on pending transactions,
      [TxPoolRun] resets and runs of operations, [TxPoolTheorems] the results;
    - the Merkle Patricia trie (trie/encoding.go, trie/node.go, trie/trie.go,
      trie/hasher.go): [TrieEncoding] has the key encodings, [Trie] the nodes and
      the operations, [TrieMap] and [TrieSpec] the proofs that it is a map in
      canonical form, [TrieHash] the hasher and its proofs; [TrieNode] has the
      nodes at rest, as blobs and as raw nodes, [TrieDB] the memory database of
      trie/database.go with its flush-list, and [TrieFlush] the proofs about it;
    - the state (core/state): [AccessList] (access_list.go), [StateObject] (one
      account with its layered storage caches, state_object.go, and the snapshot
      encoding of accounts), [StateDB] (statedb.go and journal.go).  The tries,
      the code store and the snapshots under them are Go interfaces and here the
      class [Backend], with laws [BackendOk] and the instance of [Concrete].
      [StateRevert], [StateBalance] and [StateEffect] are proofs: reverting,
      balances, and the effects that a caller can undo; [Transfer] is the coin
      transfer of core/evm.go;
    - the virtual machine (core/vm): [EvmWord] (256-bit words, stack, memory),
      [EvmAnalysis] (jump destinations), [EvmMachine] (the records of a frame and
      of the EVM, and the execution monad), [EvmGasTable] (memory sizes and gas),
      [EvmCall] (calls and creations), [EvmInstr] (every instruction and the jump
      tables of every fork), [EvmRun] (the interpreter).  [EvmLogic] has the proof
      rules for executions, [EvmMemory], [EvmGas] and [EvmEffect] the proofs on
      memory price, gas and termination, and effects on the state;
    - the Te Waka contract (core/types/te_waka.go, core/vm/te_waka_impl.go,
      core/vm/te_waka.go): [TeWaka] has its table, stored as an RLP blob in the
      state, [TeWakaVm] the precompile with its handlers, [TeWakaProofs] what each
      handler does, [TeWakaSpec] the protocol as a transition system and
      [TeWakaRun] the guarantees over calls and runs;
    - execution of transactions (core/state_transition.go, core/gaspool.go):
      [StateTransition] applies a message over an EVM that is the class
      [EvmCalls]; [EvmLink] gives the EVM of [EvmCall] and [EvmRun] as the
      instance, and [TxExecution] starts from the message of a transaction;
    - headers (consensus/misc, consensus/ethash): [Consensus] has gas limit, base
      fee, difficulty, verification, sealing and rewards; [HeaderPipeline] the
      goroutines of [VerifyHeaders] as a step relation;
    - the chain database (core/rawdb/schema.go, accessors_chain.go,
      accessors_indexes.go; czzdb/memorydb for store, batches and iterators):
      [HeaderRlp] has the decoder of headers, [RawDB] the keys and the accessors,
      [RawDBSpec] the proof that its header part is a set of typed tables;
    - the header chain (core/headerchain.go, with [InsertHeaderChain] of
      core/blockchain.go, [Commit] of core/genesis.go and [Rollback] of
      light/lightchain.go): [HeaderChain] has the head, the three caches over the
      database, cached lookups, validation and writing of segments with the fork
      choice and the canonical markers, ancestors and [SetHead].
      [HeaderChainSpec] has the invariant, [HeaderChainWrite] the loop over a
      segment, [HeaderChainReorg] the markers, [HeaderChainInsert] the whole
      insertion, [HeaderChainRewind] rewinding, [HeaderChainRun] validation and
      ancestors, [HeaderChainTheorems] the results and a concrete chain;
    - proof of authority (consensus/clique): [Clique] has the voting snapshot of
      snapshot.go, [CliqueVotes] and [CliqueChain] its invariant and the abstract
      ballot it implements, [CliqueEngine] the engine of clique.go (the lookup of
      snapshots through cache, disk and headers, verification, preparation,
      sealing, and the calls of api.go), [CliqueSpec] what the engine promises.

    ** How code is modelled

    Integers are [Z] with their wrap-around written out ([u64], [u256], [i64]);
    a [big.Int] and a [uint256.Int] are the number.  Bytes are [Z] below 256.
    Go maps are [gmap]; slices are lists.  An [(value, error)] pair is [result];
    an explicit panic, a nil dereference and an index out of range are [Panic] of
    [outcome] (or of the monad at hand).  State is passed explicitly, in a state
    and error monad where many calls thread it: [SM] for the decoder, the
    state monad of this file for executions of the EVM and for the clique engine,
    the world monad of [TeWakaVm], [tres] for
    the trie.  Pointers that are shared and written are entries of the state they
    live in: the live objects of the state database, the jump-destination maps
    that frames share.

    Code outside the repository is a parameter with the documented behaviour the
    code relies on: Keccak-256, tries and databases of the state ([Backend],
    [BackendOk]), the arithmetic of holiman/uint256 ([Uint256], [Uint256Ok]), the
    LRU caches ([Lru] with [LruOk], [LruCache] with [LruCacheOk]), ABI coding and elliptic curves ([TwExt],
    [TwExtOk], [Recover], [Ecdsa] with [EcdsaOk]), the order in which Go walks a
    map ([MapOrder]: any permutation).  Parts of the repository that stand behind an interface and are
    not modelled are parameters too: the precompiled contracts of the EVM
    ([Precompiles], with [PrecompilesGas] and [PrecompilesOk]), the proof-of-work
    hash and the chain reader of [Consensus], the chain behind the pool
    ([BlockChain]), the node database under a live trie
    in [Trie], the clean cache and the disk under [TrieDB].  Each group of laws has
    an instance, used by the witnesses.

    ** What is shown

    - Undoing: a revert restores the state after any journaled operations
      ([StateRevert.revert_restores]) up to [eqv], in which balances, nonces, code,
      both kinds of storage, logs, refunds and the access list read alike (lemmas of
      [StateBalance] and [AccessList]); [Empty] is outside it, since an undone Te Waka
      write leaves its key queued (an example shows it).  So a failed call leaves no
      trace, a static call changes nothing that precompiles leave alone, and a failed
      creation costs a nonce ([EvmEffect]); the whole EVM can be reverted over.
    - Termination and gas: a run ends within a round per unit of gas
      ([EvmGas.run_terminates]), memory is paid by its size alone ([EvmMemory]),
      intrinsic gas is exact.
    - Money: a message is accounted for to the last unit, a refused message changes
      nothing, a failing one costs its gas and nothing else ([StateTransition],
      [EvmLink]); besides what its run does, a transaction burns exactly the base fee
      ([TxExecution]); a call of Te Waka neither creates nor
      destroys coins and never overdraws ([TeWakaRun]).
    - Te Waka: every successful call refines a step of the protocol and no foreign
      transaction is converted twice under the same asset type, nor under two known
      types whose contracts differ, across epochs and restarts of the cache; two
      examples show where the code does convert twice.
    - The trie: it refines a finite map; two tries with the same content have the
      same root hash, whatever their history ([TrieSpec], [TrieHash]).  Moving
      nodes from memory to the disk changes no read ([TrieFlush]).
    - Encodings: RLP decodes what it encodes and accepts nothing else
      ([RlpCanon]), the buffered encoder is the recursive one, the bytes of a
      transaction and the transaction determine each other ([Transaction]),
      compact keys decode to the key, the table is loaded as it was saved.
    - Waiting transactions: a signed transaction is bound to its key and to one
      chain ([TxSigning]); the heap, map and cache of an account are a list in nonce
      order, filtering by cost is exact in spite of its shortcut, and a list that
      must have no gaps keeps none ([TxListSpec]); the miner always takes one that
      pays best ([TxOrder]).
    - The pool: every sequence of operations ends, it panics exactly when a reset names
      an unknown head or one without a base fee, and otherwise each known
      transaction is filed exactly once; between reorganisations the pending
      transactions of every account are executable in order from the head; the limit
      on them cuts all accounts to one length, no lower than it must; the scheduler
      runs every request, at the latest when the active run ends ([TxPoolTheorems], [TxSchedule]).  Three examples show what
      does not hold: a gap after a reorganisation, a transaction counted twice, a
      panic for an unknown head.
    - The chain of headers: the byte keys of the schema keep the tables of the
      database apart ([RawDBSpec]); from a committed genesis, insertions, rewinds
      and lookups keep one linked canonical chain with the right difficulties, the
      head follows the fork choice, a rewind removes every fork above its target,
      and the shortcut to an ancestor is the walk along parents
      ([HeaderChainTheorems]).  Headers are those of a class [Play]: well-formed,
      with numbers and difficulties within bounds and no two with the same hash.
      Insertions that replay known headers which would win, and insertions
      interrupted while they write, are left out of the steps: examples show that
      the head then leaves the markers, that an interrupted insertion fills the
      caches, and that [Rollback] leaves markers behind.
    - Consensus: accepted headers form a chain, what is mined verifies, the
      difficulty and the base fee move within their bounds, the concurrent
      verification delivers every verdict in order under every schedule.
    - Clique: the snapshot is an abstract ballot, whatever caches it is computed
      through; a verified seal can be applied; a signer does not sign twice within
      the window and half of the signers can always go on; the node's own blocks
      verify where replays from trusted checkpoints agree ([CliqueChain],
      [CliqueSpec]).
    - Errors: two panics of Te Waka that a transaction can cause are theorems.

    ** Bounds and fuel

    Loops of the source that are not structural take fuel.  The interpreter takes
    one round per unit of gas and one more ([EvmLink.message_fuel]);
    [EvmGas.run_terminates] shows that it is enough, since a round that goes on
    costs gas.  The trie takes [Trie.key_fuel], two steps per nibble of the key and
    two more: each step uses a nibble or loads a node; [TrieSpec.trie_is_a_map]
    shows that it never runs out.  A commit of the trie database takes the height
    of the trie and two more, its [Cap] a step per dirty node; the snapshot lookup
    of clique a round per block, since each goes to the parent; reading a blob takes
    its length, since a node inside a node is shorter.  The loops of a heap take its
    size, since each round goes to a parent or to a child; making room in the pool two
    rounds per entry of the price heaps, which each round takes out or moves on, and
    levelling pending lists a round per transaction.  The walks to a common ancestor
    take the block numbers, and so do the walks of the header chain over its markers
    and its rewind, which the theorems show to be enough.  Slice decoding takes a round per input byte, and
    the decoder is total.  The other fuels are constants of the source (eight bytes
    of a word, 64 bits of an exponent's word) and are explained where they are
    used.

    ** What is not modelled

    The journal file, event feed and tickers of the transaction pool, block assembly, the insertion of blocks with their
    bodies and state, snapshots and their generation, the committer of the trie, node
    iteration and proofs, receipts and blooms, the freezer (a function that is read
    here, absent in the theorems): parts of the chain's own logic, left for extensions
    of this library.  Networking, synchronisation, the services of light clients, RPC, console,
    accounts and key stores, metrics, logging and the command line tools are input
    and output or service plumbing.  The hashing of ethash, the curves and the
    hash functions are arithmetic of their own and parameters here.  Within the
    parts above, tracing, metrics, the trie prefetcher, JSON and text forms are left
    out, clique's [Finalize] (state root and receipts) and status calls too, and the goroutines of the hasher (they fill disjoint slots) are a
    sequential loop. *)
From stdpp Require Export prelude base list gmap strings.
From Stdlib Require Export ZArith Lia.

#[export] Set Default Goal Selector "!".

(** ** Scope and notations of the development *)
Declare Scope go_scope.
Delimit Scope go_scope with go.
Open Scope Z_scope.

(** A Go byte is a [Z] in [0, 256); a byte slice is a list of them. *)
Abbreviation bytes := (list Z) (only parsing).

(** [common.Address] (20 bytes) and [common.Hash] (32 bytes) are kept as the
    big-endian number they spell. *)
Abbreviation address := Z (only parsing).
Abbreviation hash := Z (only parsing).

(** ** Results and panics *)

(** A Go call that returns [(value, error)]. *)
Inductive result (E A : Type) : Type :=
| Ok (a : A)
| Err (e : E).
Arguments Ok {E A} a.
Arguments Err {E A} e.

(** A Go call that may panic (explicit panic, nil dereference, index out of
    range). *)
Inductive outcome (A : Type) : Type :=
| Ret (a : A)
| Panic.
Arguments Ret {A} a.
Arguments Panic {A}.

Definition obind {A B} (m : outcome A) (f : A → outcome B) : outcome B :=
  match m with Ret a => f a | Panic => Panic end.

Definition rbind {E A B} (m : result E A) (f : A → result E B) : result E B :=
  match m with Ok a => f a | Err e => Err e end.

Notation "'do!' x <- m ; k" := (obind m (fun x => k))
  (at level 10, x pattern, m at level 100, k at level 200) : go_scope.
Notation "'try!' x <- m ; k" := (rbind m (fun x => k))
  (at level 10, x pattern, m at level 100, k at level 200) : go_scope.
Open Scope go_scope.

Definition is_ok {E A} (r : result E A) : bool :=
  match r with Ok _ => true | Err _ => false end.

Definition is_ret {A} (o : outcome A) : bool :=
  match o with Ret _ => true | Panic => false end.

Lemma is_ret_some {A} (o : outcome A) : is_ret o = true → ∃ a, o = Ret a.
Proof. destruct o; [by eexists|done]. Qed.

Lemma rbind_ok {E A B} (m : result E A) (f : A → result E B) b :
  rbind m f = Ok b ↔ ∃ a, m = Ok a ∧ f a = Ok b.
Proof. destruct m; simpl; naive_solver. Qed.

Lemma obind_ret {A B} (m : outcome A) (f : A → outcome B) b :
  obind m f = Ret b ↔ ∃ a, m = Ret a ∧ f a = Ret b.
Proof. destruct m; simpl; naive_solver. Qed.

(** ** Machine integers *)

Definition wrap (w x : Z) : Z := x mod 2 ^ w.
Definition u8 (x : Z) : Z := wrap 8 x.
Definition u16 (x : Z) : Z := wrap 16 x.
Definition u64 (x : Z) : Z := wrap 64 x.
Definition u256 (x : Z) : Z := wrap 256 x.
(** Conversion to a signed 64-bit integer: two's complement. *)
Definition i64 (x : Z) : Z := (x + 2 ^ 63) mod 2 ^ 64 - 2 ^ 63.

Definition MaxUint64 : Z := 2 ^ 64 - 1.

Definition in_w (w x : Z) : Prop := 0 ≤ x < 2 ^ w.
Abbreviation is_u8 := (in_w 8).
Abbreviation is_u64 := (in_w 64).
Abbreviation is_u256 := (in_w 256).

#[export] Instance in_w_dec w x : Decision (in_w w x).
Proof. unfold in_w. apply _. Defined.

Create HintDb gozz discriminated.

Lemma wrap_range w x : 0 ≤ w → in_w w (wrap w x).
Proof.
  intros. unfold in_w, wrap. apply Z.mod_pos_bound, Z.pow_pos_nonneg; lia.
Qed.

Lemma wrap_id w x : in_w w x → wrap w x = x.
Proof. intros. by apply Z.mod_small. Qed.

Lemma wrap_wrap w x : 0 ≤ w → wrap w (wrap w x) = wrap w x.
Proof. intros. by apply wrap_id, wrap_range. Qed.

#[export] Hint Resolve wrap_range wrap_id : gozz.

(** Unfold the fixed-width operations to [mod] on literals. *)
Ltac go_unfold :=
  unfold u8, u16, u64, u256, wrap, in_w, i64, MaxUint64 in *.
(** Arithmetic at fixed width: unfold, expose division equations, call [lia]. *)
Ltac go_lia := go_unfold; Z.to_euclidean_division_equations; lia.

(** [big.Int.Cmp]: -1, 0 or 1. *)
Definition big_Cmp (x y : Z) : Z := if x <? y then -1 else if x =? y then 0 else 1.

Lemma Cmp_lt x y : (big_Cmp x y <? 0) = (x <? y).
Proof. unfold big_Cmp. destruct (Z.ltb_spec x y); [done|]. by destruct (x =? y). Qed.

Lemma Cmp_gt x y : (0 <? big_Cmp x y) = (y <? x).
Proof.
  unfold big_Cmp. destruct (Z.ltb_spec x y), (Z.ltb_spec y x), (Z.eqb_spec x y); (done || lia).
Qed.

Lemma Cmp_eq x y : (big_Cmp x y =? 0) = (x =? y).
Proof. unfold big_Cmp. destruct (Z.ltb_spec x y), (Z.eqb_spec x y); (done || lia). Qed.

Lemma Cmp_le_1 x y : 1 <? big_Cmp x y = false.
Proof. unfold big_Cmp. destruct (x <? y); [done|]. by destruct (x =? y). Qed.

(** ** Bytes and big-endian numbers *)

Definition is_byte (b : Z) : Prop := 0 ≤ b < 256.
Definition wf_bytes (l : bytes) : Prop := Forall is_byte l.

#[export] Instance is_byte_dec b : Decision (is_byte b).
Proof. unfold is_byte. apply _. Defined.
#[export] Instance wf_bytes_dec l : Decision (wf_bytes l).
Proof. unfold wf_bytes. apply _. Defined.

(** [new(big.Int).SetBytes(l)]. *)
Definition be_decode (l : bytes) : Z := fold_left (λ acc b, acc * 256 + b) l 0.

(** The [n] low bytes of [z], most significant first. *)
Fixpoint be_fixed (n : nat) (z : Z) : bytes :=
  match n with
  | O => []
  | S n' => be_fixed n' (z / 256) ++ [z mod 256]
  end.

(** Number of bytes of the minimal big-endian form: [(z.BitLen()+7)/8]. *)
Definition bitlen (z : Z) : Z := if z <=? 0 then 0 else Z.log2 z + 1.
Definition nbytes (z : Z) : nat := Z.to_nat ((bitlen z + 7) / 8).

(** [z.Bytes()] of a non-negative [big.Int]. *)
Definition be_min (z : Z) : bytes := be_fixed (nbytes z) z.

Lemma be_decode_app l1 l2 :
  be_decode (l1 ++ l2) = be_decode l1 * 256 ^ Z.of_nat (length l2) + be_decode l2.
Proof.
  induction l2 as [|b l2 IH] using rev_ind.
  - rewrite app_nil_r. unfold be_decode at 3. simpl. lia.
  - rewrite app_assoc. unfold be_decode in *. rewrite !(fold_left_app _ _ [b]), IH.
    cbn [fold_left]. rewrite length_app. cbn [length].
    rewrite Nat2Z.inj_add, Z.pow_add_r by lia. change (256 ^ Z.of_nat 1) with 256. ring.
Qed.

Lemma be_decode_nil : be_decode [] = 0.
Proof. done. Qed.

Lemma be_decode_one b : be_decode [b] = b.
Proof. unfold be_decode. simpl. lia. Qed.

Lemma be_decode_cons b l :
  be_decode (b :: l) = b * 256 ^ Z.of_nat (length l) + be_decode l.
Proof. rewrite <- (be_decode_one b) at 2. by rewrite <- be_decode_app. Qed.

Lemma be_decode_range l :
  wf_bytes l → 0 ≤ be_decode l < 256 ^ Z.of_nat (length l).
Proof.
  induction 1 as [|b l Hb Hl IH].
  - unfold be_decode. simpl. lia.
  - rewrite be_decode_cons. cbn [length]. unfold is_byte in Hb.
    rewrite Nat2Z.inj_succ, Z.pow_succ_r by lia. nia.
Qed.

Lemma length_be_fixed n z : length (be_fixed n z) = n.
Proof.
  revert z. induction n as [|n IH]; intros z; simpl; [done|].
  rewrite length_app, IH. simpl. lia.
Qed.

Lemma wf_be_fixed n z : wf_bytes (be_fixed n z).
Proof.
  revert z. induction n as [|n IH]; intros z; simpl; [constructor|].
  apply Forall_app. split; [apply IH|]. constructor; [|constructor].
  unfold is_byte. apply Z.mod_pos_bound. lia.
Qed.

Lemma be_decode_fixed n z : be_decode (be_fixed n z) = z mod 256 ^ Z.of_nat n.
Proof.
  revert z. induction n as [|n IH]; intros z.
  - simpl. rewrite Z.mod_1_r. done.
  - cbn [be_fixed]. rewrite be_decode_app, IH, be_decode_one.
    change (Z.of_nat (length [z mod 256])) with 1. rewrite Z.pow_1_r.
    rewrite Nat2Z.inj_succ, Z.pow_succ_r by lia.
    rewrite Z.rem_mul_r by (try lia; apply Z.pow_nonzero; lia). lia.
Qed.

Lemma be_fixed_decode l :
  wf_bytes l → be_fixed (length l) (be_decode l) = l.
Proof.
  induction l as [|b l IH] using rev_ind; intros Hwf; [done|].
  apply Forall_app in Hwf as [Hl Hb]. inversion Hb as [|? ? Hb' _]; subst.
  unfold is_byte in Hb'.
  rewrite length_app, be_decode_app, be_decode_one. cbn [length].
  rewrite Nat.add_1_r. cbn [be_fixed]. change (Z.of_nat 1) with 1. rewrite Z.pow_1_r.
  rewrite Z.div_add_l by lia. rewrite (Z.div_small b) by lia. rewrite Z.add_0_r.
  rewrite Z.add_comm, Z.mod_add, (Z.mod_small b) by lia. by rewrite IH.
Qed.

Lemma bitlen_spec z : 0 ≤ z → z < 2 ^ bitlen z ∧ (0 < z → 2 ^ (bitlen z - 1) ≤ z).
Proof.
  intros Hz. unfold bitlen. destruct (Z.leb_spec z 0).
  - split; [simpl; lia|lia].
  - pose proof (Z.log2_spec z ltac:(lia)) as [? ?].
    rewrite Z.add_1_r. split; [lia|]. intros _. by rewrite Z.sub_1_r, Z.pred_succ.
Qed.

Lemma bitlen_nonneg z : 0 ≤ bitlen z.
Proof. unfold bitlen. destruct (z <=? 0); [lia|]. pose proof (Z.log2_nonneg z). lia. Qed.

Lemma nbytes_bound z : 0 ≤ z → z < 256 ^ Z.of_nat (nbytes z).
Proof.
  intros Hz. pose proof (proj1 (bitlen_spec z Hz)). pose proof (bitlen_nonneg z).
  unfold nbytes. rewrite Z2Nat.id by (apply Z.div_pos; lia).
  change 256 with (2 ^ 8). rewrite <- Z.pow_mul_r by (try lia; apply Z.div_pos; lia).
  eapply Z.lt_le_trans; [done|]. apply Z.pow_le_mono_r; [lia|].
  Z.to_euclidean_division_equations. lia.
Qed.

Lemma nbytes_min z : 0 < z → 256 ^ (Z.of_nat (nbytes z) - 1) ≤ z.
Proof.
  intros Hz. pose proof (proj2 (bitlen_spec z ltac:(lia)) Hz).
  pose proof (bitlen_nonneg z). unfold nbytes.
  rewrite Z2Nat.id by (apply Z.div_pos; lia).
  change 256 with (2 ^ 8).
  assert (0 < bitlen z).
  { unfold bitlen. destruct (Z.leb_spec z 0); [lia|]. pose proof (Z.log2_nonneg z). lia. }
  rewrite <- Z.pow_mul_r by (Z.to_euclidean_division_equations; lia).
  eapply Z.le_trans; [|done]. apply Z.pow_le_mono_r; [lia|].
  Z.to_euclidean_division_equations. lia.
Qed.

Lemma be_decode_min z : 0 ≤ z → be_decode (be_min z) = z.
Proof.
  intros Hz. unfold be_min. rewrite be_decode_fixed. apply Z.mod_small.
  split; [done|]. by apply nbytes_bound.
Qed.

Lemma wf_be_min z : wf_bytes (be_min z).
Proof. apply wf_be_fixed. Qed.

Lemma nbytes_le z n : 0 ≤ z < 256 ^ Z.of_nat n → (nbytes z ≤ n)%nat.
Proof.
  intros [Hz Hlt]. destruct (decide (z = 0)) as [->|]; [change (nbytes 0) with 0%nat; lia|].
  pose proof (nbytes_min z ltac:(lia)) as Hm.
  assert (256 ^ (Z.of_nat (nbytes z) - 1) < 256 ^ Z.of_nat n) as Hp by lia.
  apply Z.pow_lt_mono_r_iff in Hp; lia.
Qed.

(** The minimal form of a positive number starts with a non-zero byte. *)
Lemma be_min_head z : 0 < z → ∃ b l, be_min z = b :: l ∧ b ≠ 0.
Proof.
  intros Hz. pose proof (nbytes_min z Hz) as Hm.
  destruct (be_min z) as [|b l] eqn:E.
  - exfalso. pose proof (be_decode_min z ltac:(lia)) as Hd. rewrite E in Hd.
    unfold be_decode in Hd. simpl in Hd. lia.
  - exists b, l. split; [done|]. intros ->.
    pose proof (be_decode_min z ltac:(lia)) as Hd. rewrite E, be_decode_cons in Hd.
    pose proof (wf_be_min z) as Hwf. rewrite E in Hwf. apply Forall_cons in Hwf as [_ Hwf].
    pose proof (be_decode_range l Hwf).
    assert (length (be_min z) = nbytes z) as Hl by apply length_be_fixed.
    rewrite E in Hl. cbn [length] in Hl. rewrite <- Hl in Hm.
    replace (Z.of_nat (S (length l)) - 1) with (Z.of_nat (length l)) in Hm by lia. lia.
Qed.

#[export] Hint Resolve wf_be_fixed wf_be_min : gozz.

(** ** Slices *)

(** [l[i:j]] where the bounds are known to be in range. *)
Definition slice {A} (l : list A) (i j : Z) : list A :=
  take (Z.to_nat (j - i)) (drop (Z.to_nat i) l).

Definition zlen {A} (l : list A) : Z := Z.of_nat (length l).

Lemma zlen_nonneg {A} (l : list A) : 0 ≤ zlen l.
Proof. unfold zlen. lia. Qed.

Lemma zlen_app {A} (l1 l2 : list A) : zlen (l1 ++ l2) = zlen l1 + zlen l2.
Proof. unfold zlen. rewrite length_app. lia. Qed.

Lemma slice_all {A} (l : list A) : slice l 0 (zlen l) = l.
Proof. unfold slice, zlen. rewrite Z.sub_0_r, Nat2Z.id. simpl. by rewrite take_ge. Qed.

Lemma length_slice {A} (l : list A) i j :
  0 ≤ i ≤ j → j ≤ zlen l → zlen (slice l i j) = j - i.
Proof.
  unfold slice, zlen. intros. rewrite length_take, length_drop. lia.
Qed.

Lemma slice_app_l {A} (l1 l2 : list A) i :
  i = zlen l1 → slice (l1 ++ l2) 0 i = l1.
Proof.
  unfold slice, zlen. intros ->. rewrite Z.sub_0_r, Nat2Z.id.
  change (Z.to_nat 0) with 0%nat. rewrite drop_0. apply take_app_length.
Qed.

Lemma slice_app_r {A} (l1 l2 : list A) i j :
  i = zlen l1 → j = zlen l1 + zlen l2 → slice (l1 ++ l2) i j = l2.
Proof.
  unfold slice, zlen. intros -> ->. rewrite Nat2Z.id, drop_app_length.
  rewrite take_ge; [done|]. lia.
Qed.

Lemma slice_app_mid {A} (l1 l2 l3 : list A) i j :
  i = zlen l1 → j = zlen l1 + zlen l2 → slice (l1 ++ l2 ++ l3) i j = l2.
Proof.
  unfold slice, zlen. intros -> ->. rewrite Nat2Z.id, drop_app_length.
  replace (Z.to_nat _) with (length l2) by lia. by rewrite take_app_length.
Qed.

Lemma Forall_slice {A} (P : A → Prop) l i j : Forall P l → Forall P (slice l i j).
Proof. intros. unfold slice. by apply Forall_take, Forall_drop. Qed.

(** ** Bits *)

Lemma testbit_small b n i : 0 ≤ n ≤ i → 0 ≤ b < 2 ^ n → Z.testbit b i = false.
Proof.
  intros ? Hb. rewrite <- (Z.mod_small b (2 ^ n)) by done. by apply Z.mod_pow2_bits_high.
Qed.

Lemma lor_shiftl_add a b n :
  0 ≤ n → 0 ≤ b < 2 ^ n → Z.lor (Z.shiftl a n) b = a * 2 ^ n + b.
Proof.
  intros Hn Hb. rewrite <- Z.add_nocarry_lor.
  - by rewrite Z.shiftl_mul_pow2.
  - apply Z.bits_inj'. intros i Hi. rewrite Z.land_spec, Z.bits_0.
    destruct (Z.lt_ge_cases i n).
    + by rewrite Z.shiftl_spec_low.
    + rewrite (testbit_small b n) by lia. apply andb_false_r.
Qed.

(** ** Stateful code

    A state monad for code that may panic or, in the model, run out of fuel. *)

Inductive xres (A : Type) : Type :=
| XRet (a : A)
| XPanic
| XFuel.
Arguments XRet {A} a.
Arguments XPanic {A}.
Arguments XFuel {A}.

Definition St (S A : Type) : Type := S → xres (A * S).
Definition sret {S A} (a : A) : St S A := λ s, XRet (a, s).
Definition spanic {S A} : St S A := λ _, XPanic.
Definition sbind {S A C} (m : St S A) (f : A → St S C) : St S C := λ s,
  match m s with
  | XRet (a, s) => f a s
  | XPanic => XPanic
  | XFuel => XFuel
  end.
Definition sread {S A} (f : S → A) : St S A := λ s, XRet (f s, s).
Definition smodify {S} (f : S → S) : St S () := λ s, XRet (tt, f s).
(** A value that may be absent: out of range, a nil pointer. *)
Definition sopt {S A} (o : option A) : St S A := match o with Some a => sret a | None => spanic end.
Definition sout {S A} (o : outcome A) : St S A := match o with Ret a => sret a | Panic => spanic end.

Notation "'run!' x <- m ; k" := (sbind m (λ x, k))
  (at level 10, x pattern, m at level 200, k at level 200) : go_scope.

(** A call that also returns an error. *)
Definition stry {S E A C} (m : St S (result E A)) (f : A → St S (result E C)) : St S (result E C) :=
  sbind m (λ r, match r with Ok a => f a | Err e => sret (Err e) end).
Notation "'ok!' x <- m ; k" := (stry m (λ x, k))
  (at level 10, x pattern, m at level 200, k at level 200) : go_scope.
