(* ===== verification/Common.v ===== *)
(** * The [common] and [common/math] packages

    Byte padding and trimming (common/bytes.go), the fixed-width hash and
    address conversions (common/types.go), overflow-checked 64-bit arithmetic
    (common/math/integer.go) and the 256-bit helpers on [big.Int]
    (common/math/big.go).  A [big.Int] is a [Z]; its 64-bit words, as returned
    by [Bits], are little-endian.  [Crypto] has the validity of signature values
    (crypto/crypto.go). *)
From S2P Require Import Prelude.

Module Bytes.

Definition RightPadBytes (s : bytes) (l : Z) : bytes :=
  if l <=? zlen s then s else s ++ replicate (Z.to_nat (l - zlen s)) 0.

Definition LeftPadBytes (s : bytes) (l : Z) : bytes :=
  if l <=? zlen s then s else replicate (Z.to_nat (l - zlen s)) 0 ++ s.

Fixpoint TrimLeftZeroes (s : bytes) : bytes :=
  match s with
  | b :: s' => if b =? 0 then TrimLeftZeroes s' else s
  | [] => []
  end.

(** [for idx := len(s); idx > 0; idx--]: from the end. *)
Definition TrimRightZeroes (s : bytes) : bytes := reverse (TrimLeftZeroes (reverse s)).

(** [Hash.SetBytes]: crops from the left when longer than 32 bytes, otherwise
    fills the low end of a zero array. *)
Definition BytesToHash (b : bytes) : hash :=
  be_decode (if 32 <? zlen b then drop (Z.to_nat (zlen b - 32)) b else b).

Definition BytesToAddress (b : bytes) : address :=
  be_decode (if 20 <? zlen b then drop (Z.to_nat (zlen b - 20)) b else b).

Definition Hash_Bytes (h : hash) : bytes := be_fixed 32 h.
Definition Address_Bytes (a : address) : bytes := be_fixed 20 a.

Lemma length_RightPadBytes s l : zlen (RightPadBytes s l) = Z.max l (zlen s).
Proof.
  unfold RightPadBytes. destruct (Z.leb_spec l (zlen s)); [lia|].
  rewrite zlen_app. unfold zlen at 2. rewrite length_replicate.
  pose proof (zlen_nonneg s). lia.
Qed.

Lemma length_LeftPadBytes s l : zlen (LeftPadBytes s l) = Z.max l (zlen s).
Proof.
  unfold LeftPadBytes. destruct (Z.leb_spec l (zlen s)); [lia|].
  rewrite zlen_app. unfold zlen at 1. rewrite length_replicate.
  pose proof (zlen_nonneg s). lia.
Qed.

Lemma be_decode_zeros n l : be_decode (replicate n 0 ++ l) = be_decode l.
Proof.
  induction n as [|n IH]; [done|]. cbn [replicate app].
  rewrite be_decode_cons, IH. lia.
Qed.

Lemma be_decode_LeftPadBytes s l : be_decode (LeftPadBytes s l) = be_decode s.
Proof. unfold LeftPadBytes. destruct (l <=? _); [done|]. apply be_decode_zeros. Qed.

Lemma TrimLeftZeroes_app s :
  ∃ n, s = replicate n 0 ++ TrimLeftZeroes s.
Proof.
  induction s as [|b s [n IH]]; [by exists 0%nat|]. simpl.
  destruct (Z.eqb_spec b 0) as [->|]; [|by exists 0%nat].
  exists (S n). simpl. by f_equal.
Qed.

Lemma be_decode_TrimLeftZeroes s : be_decode (TrimLeftZeroes s) = be_decode s.
Proof.
  destruct (TrimLeftZeroes_app s) as [n E]. rewrite E at 2.
  by rewrite be_decode_zeros.
Qed.

Lemma TrimLeftZeroes_head s b l : TrimLeftZeroes s = b :: l → b ≠ 0.
Proof.
  induction s as [|c s IH]; simpl; [done|].
  destruct (Z.eqb_spec c 0); [done|]. congruence.
Qed.

Lemma wf_TrimLeftZeroes s : wf_bytes s → wf_bytes (TrimLeftZeroes s).
Proof.
  induction 1 as [|b s]; simpl; [constructor|].
  destruct (b =? 0); [done|by constructor].
Qed.

Lemma nbytes_eq l b t : wf_bytes l → l = b :: t → b ≠ 0 → nbytes (be_decode l) = length l.
Proof.
  intros Hwf -> Hb. pose proof (be_decode_range _ Hwf) as Hr.
  apply Forall_cons in Hwf as [Hb' Hwf]. unfold is_byte in Hb'.
  apply Nat.le_antisymm; [by apply nbytes_le|].
  pose proof (be_decode_range t Hwf). rewrite be_decode_cons in *.
  pose proof (nbytes_bound (b * 256 ^ Z.of_nat (length t) + be_decode t) ltac:(nia)) as Hn.
  assert (256 ^ Z.of_nat (length t) < 256 ^ Z.of_nat (nbytes (b * 256 ^ Z.of_nat (length t) + be_decode t))) as Hp by nia.
  apply Z.pow_lt_mono_r_iff in Hp; cbn [length]; lia.
Qed.

(** Trimming the left zeroes of a big-endian string gives the minimal form of
    the number it spells. *)
Lemma TrimLeftZeroes_be_min s : wf_bytes s → TrimLeftZeroes s = be_min (be_decode s).
Proof.
  intros Hwf. rewrite <- (be_decode_TrimLeftZeroes s).
  pose proof (wf_TrimLeftZeroes s Hwf) as Hw. unfold be_min.
  destruct (TrimLeftZeroes s) as [|b t] eqn:E; [done|].
  pose proof (TrimLeftZeroes_head _ _ _ E) as Hb.
  rewrite (nbytes_eq (b :: t) b t) by done. symmetry. by apply be_fixed_decode.
Qed.

Lemma BytesToHash_Bytes h : 0 ≤ h < 2 ^ 256 → BytesToHash (Hash_Bytes h) = h.
Proof.
  intros. unfold BytesToHash, Hash_Bytes, zlen. rewrite length_be_fixed.
  change (32 <? Z.of_nat 32) with false. cbv iota. rewrite be_decode_fixed. by apply Z.mod_small.
Qed.

Lemma BytesToAddress_Bytes a : 0 ≤ a < 2 ^ 160 → BytesToAddress (Address_Bytes a) = a.
Proof.
  intros. unfold BytesToAddress, Address_Bytes, zlen. rewrite length_be_fixed.
  change (20 <? Z.of_nat 20) with false. cbv iota. rewrite be_decode_fixed. by apply Z.mod_small.
Qed.

Lemma BytesToHash_Bytes_32 b :
  length b = 32%nat → wf_bytes b → Hash_Bytes (BytesToHash b) = b.
Proof.
  intros Hl Hwf. unfold BytesToHash, Hash_Bytes, zlen. rewrite Hl.
  change (32 <? Z.of_nat 32) with false. cbv iota. rewrite <- Hl. by apply be_fixed_decode.
Qed.

Lemma BytesToHash_range b : wf_bytes b → 0 ≤ BytesToHash b < 2 ^ 256.
Proof.
  intros Hwf. unfold BytesToHash. destruct (Z.ltb_spec 32 (zlen b)) as [H|H]; unfold zlen in *.
  - pose proof (be_decode_range (drop (Z.to_nat (Z.of_nat (length b) - 32)) b)
      (Forall_drop _ _ _ Hwf)) as Hr.
    rewrite length_drop in Hr.
    replace (Z.of_nat (length b - Z.to_nat (Z.of_nat (length b) - 32))) with 32 in Hr by lia.
    exact Hr.
  - pose proof (be_decode_range b Hwf) as Hr. split; [lia|].
    eapply Z.lt_le_trans; [apply Hr|]. change (2 ^ 256) with (256 ^ 32).
    apply Z.pow_le_mono_r; lia.
Qed.

Lemma be_fixed_20_inj a b :
  0 ≤ a < 2 ^ 160 → 0 ≤ b < 2 ^ 160 → Address_Bytes a = Address_Bytes b → a = b.
Proof.
  intros Ha Hb E. rewrite <- (BytesToAddress_Bytes a), <- (BytesToAddress_Bytes b) by done.
  by rewrite E.
Qed.

Lemma be_fixed_inj n x y : 0 ≤ x < 256 ^ Z.of_nat n → 0 ≤ y < 256 ^ Z.of_nat n → be_fixed n x = be_fixed n y → x = y.
Proof. intros Hx Hy E%(f_equal be_decode). rewrite !be_decode_fixed, !Z.mod_small in E by lia. done. Qed.
Lemma length_Hash_Bytes h : length (Hash_Bytes h) = 32%nat.
Proof. apply length_be_fixed. Qed.
Lemma Hash_Bytes_inj g h : 0 ≤ g < 2 ^ 256 → 0 ≤ h < 2 ^ 256 → Hash_Bytes g = Hash_Bytes h → g = h.
Proof. intros [] []. by apply (be_fixed_inj 32). Qed.

End Bytes.

Module GoMath.

(** [bits.Sub64], [bits.Add64] and [bits.Mul64] return the low word and the
    borrow, the carry or the high word. *)
Definition SafeSub (x y : Z) : Z * bool := (u64 (x - y), negb (0 <=? x - y)).
Definition SafeAdd (x y : Z) : Z * bool := (u64 (x + y), negb ((x + y) / 2 ^ 64 =? 0)).
Definition SafeMul (x y : Z) : Z * bool := (u64 (x * y), negb ((x * y) / 2 ^ 64 =? 0)).

Definition BigMax (x y : Z) : Z := if x <? y then y else x.
Definition BigMin (x y : Z) : Z := if y <? x then y else x.

Lemma SafeAdd_spec x y :
  is_u64 x → is_u64 y →
  SafeAdd x y = if x + y <=? MaxUint64 then (x + y, false) else (x + y - 2 ^ 64, true).
Proof.
  intros [? ?] [? ?]. unfold SafeAdd, MaxUint64.
  destruct (Z.leb_spec (x + y) (2 ^ 64 - 1)).
  - unfold u64. rewrite wrap_id by (unfold in_w; lia). by rewrite Z.div_small by lia.
  - f_equal; [|destruct (Z.eqb_spec ((x + y) / 2 ^ 64) 0)]; go_lia.
Qed.

Lemma SafeMul_spec x y :
  is_u64 x → is_u64 y →
  (snd (SafeMul x y) = false ↔ x * y ≤ MaxUint64) ∧
  (snd (SafeMul x y) = false → fst (SafeMul x y) = x * y).
Proof.
  intros [? ?] [? ?]. unfold SafeMul, MaxUint64. simpl.
  assert (0 ≤ x * y) by nia.
  destruct (Z.eqb_spec ((x * y) / 2 ^ 64) 0) as [E|E].
  - apply Z.div_small_iff in E; [|lia].
    assert (0 ≤ x * y < 2 ^ 64) by lia. unfold u64, wrap.
    rewrite (Z.mod_small (x * y)) by lia. simpl. split; [split; lia|done].
  - assert (¬ x * y ≤ 2 ^ 64 - 1).
    { intros ?. apply E. apply Z.div_small. lia. }
    simpl. split; [split; done|done].
Qed.

Lemma SafeSub_spec x y :
  is_u64 x → is_u64 y →
  SafeSub x y = if y <=? x then (x - y, false) else (x - y + 2 ^ 64, true).
Proof.
  intros [? ?] [? ?]. unfold SafeSub.
  destruct (Z.leb_spec y x), (Z.leb_spec 0 (x - y)); try lia; f_equal; go_lia.
Qed.

Lemma BigMax_max x y : BigMax x y = Z.max x y.
Proof. unfold BigMax. destruct (Z.ltb_spec x y); lia. Qed.
Lemma BigMin_min x y : BigMin x y = Z.min x y.
Proof. unfold BigMin. destruct (Z.ltb_spec y x); lia. Qed.

(** [x.And(x, tt256m1)]. *)
Definition U256 (x : Z) : Z := Z.land x (2 ^ 256 - 1).

Definition S256 (x : Z) : Z := if x <? 2 ^ 255 then x else x - 2 ^ 256.

Lemma U256_mod x : U256 x = x mod 2 ^ 256.
Proof. unfold U256. change (2 ^ 256 - 1) with (Z.ones 256). by apply Z.land_ones. Qed.

Lemma S256_range x : is_u256 x → - 2 ^ 255 ≤ S256 x < 2 ^ 255 ∧ U256 (S256 x) = x.
Proof.
  intros [? ?]. rewrite U256_mod. unfold S256. destruct (Z.ltb_spec x (2 ^ 255)).
  - rewrite Z.mod_small; lia.
  - split; [lia|]. rewrite <- (Z.mod_add _ 1) by lia. rewrite Z.mod_small; lia.
Qed.

(** The little-endian 64-bit words of [|x|]: [x.Bits()]. *)
Fixpoint le_words (w : Z) (n : nat) (z : Z) : list Z :=
  match n with
  | O => []
  | S n' => z mod 2 ^ w :: le_words w n' (z / 2 ^ w)
  end.
Definition big_Bits (x : Z) : list Z :=
  le_words 64 (Z.to_nat ((bitlen (Z.abs x) + 63) / 64)) (Z.abs x).

(** One bit of the inner loop of [Exp]: [if word&1 == 1] multiply, then square
    the base in place. *)
Fixpoint Exp_word (n : nat) (word result base : Z) : Z * Z :=
  match n with
  | O => (result, base)
  | S n' =>
      let result := if Z.land word 1 =? 1 then U256 (result * base) else result in
      Exp_word n' (Z.shiftr word 1) result (U256 (base * base))
  end.

(** [Exp] returns the power and, because [base.Mul(base, base)] writes through
    the pointer it is given, the value left in [base]. *)
Definition Exp (base exponent : Z) : Z * Z :=
  fold_left (λ st word, Exp_word 64 word (fst st) (snd st)) (big_Bits exponent) (1, base).

(** ** Big-endian output *)

(** One word of [ReadBits]: [for j := 0; j < wordBytes && i > 0; j++]. *)
Fixpoint ReadBits_word (j : nat) (d : Z) (i : nat) (buf : bytes) : nat * bytes :=
  match j, i with
  | S j', S i' => ReadBits_word j' (Z.shiftr d 8) i' (<[i' := u8 d]> buf)
  | _, _ => (i, buf)
  end.

Definition ReadBits (bigint : Z) (buf : bytes) : bytes :=
  snd (fold_left (λ st d, ReadBits_word 8 d (fst st) (snd st))
         (big_Bits bigint) (length buf, buf)).

Definition PaddedBigBytes (bigint : Z) (n : Z) : bytes :=
  if n <=? bitlen (Z.abs bigint) / 8 then be_min (Z.abs bigint)
  else ReadBits bigint (replicate (Z.to_nat n) 0).

Definition U256Bytes (n : Z) : bytes := PaddedBigBytes (U256 n) 32.

(** ** Correctness of exponentiation by squaring *)

Lemma Exp_word_spec n w r b :
  0 ≤ w → is_u256 r →
  is_u256 (fst (Exp_word n w r b)) ∧
  fst (Exp_word n w r b) = (r * b ^ (w mod 2 ^ Z.of_nat n)) mod 2 ^ 256 ∧
  snd (Exp_word n w r b) mod 2 ^ 256 = b ^ (2 ^ Z.of_nat n) mod 2 ^ 256.
Proof.
  revert w r b. induction n as [|n IH]; intros w r b Hw Hr.
  - simpl fst; simpl snd. change (2 ^ Z.of_nat 0) with 1.
    rewrite Z.mod_1_r, Z.pow_0_r, Z.mul_1_r, Z.pow_1_r. by rewrite (Z.mod_small r).
  - cbn [Exp_word]. cbv zeta.
    set (r' := if Z.land w 1 =? 1 then U256 (r * b) else r).
    assert (is_u256 r' ∧ r' = (r * b ^ (w mod 2)) mod 2 ^ 256) as [Hr' Er'].
    { unfold r'. replace (Z.land w 1) with (w mod 2) by (symmetry; apply (Z.land_ones w 1); lia).
      rewrite U256_mod.
      pose proof (Z.mod_pos_bound w 2). destruct (Z.eqb_spec (w mod 2) 1) as [E|E].
      - rewrite E, Z.pow_1_r. split; [|done]. apply Z.mod_pos_bound. lia.
      - replace (w mod 2) with 0 by lia. rewrite Z.pow_0_r, Z.mul_1_r.
        by rewrite (Z.mod_small r). }
    destruct (IH (Z.shiftr w 1) r' (U256 (b * b))) as (H1 & H2 & H3); [|done|].
    { apply Z.shiftr_nonneg; lia. }
    assert (0 < 2 ^ Z.of_nat n) by (apply Z.pow_pos_nonneg; lia).
    split; [done|]. rewrite H2, H3, U256_mod.
    rewrite Nat2Z.inj_succ, Z.pow_succ_r by lia. rewrite Z.shiftr_div_pow2 by lia.
    change (2 ^ 1) with 2. split.
    + rewrite Er', Z.mul_mod_idemp_l by lia. rewrite <- Z.mul_mod_idemp_r by lia.
      rewrite Z.mod_pow_l, Z.mul_mod_idemp_r by lia.
      f_equal. rewrite (Z.rem_mul_r w 2) by lia.
      pose proof (Z.mod_pos_bound w 2). pose proof (Z.mod_pos_bound (w / 2) (2 ^ Z.of_nat n)).
      rewrite Z.pow_add_r, Z.pow_mul_r by lia. rewrite <- Z.pow_2_r. ring.
    + rewrite Z.mod_pow_l. f_equal.
      rewrite Z.pow_mul_r by lia. by rewrite Z.pow_2_r.
Qed.

Lemma Exp_words_spec k n e r b b' :
  0 ≤ e → is_u256 r → b mod 2 ^ 256 = b' mod 2 ^ 256 →
  fst (fold_left (λ st word, Exp_word k word (fst st) (snd st))
         (le_words (Z.of_nat k) n e) (r, b)) =
    (r * b' ^ (e mod 2 ^ (Z.of_nat k * Z.of_nat n))) mod 2 ^ 256.
Proof.
  revert e r b b'. induction n as [|n IH]; intros e r b b' He Hr Hb.
  - rewrite Z.mul_0_r. cbn [le_words fold_left fst]. change (2 ^ 0) with 1.
    rewrite Z.mod_1_r, Z.pow_0_r, Z.mul_1_r. by rewrite Z.mod_small.
  - cbn [le_words fold_left fst snd].
    set (m := 2 ^ Z.of_nat k). assert (0 < m) by (apply Z.pow_pos_nonneg; lia).
    destruct (Exp_word_spec k (e mod m) r b) as (H1 & H2 & H3);
      [apply Z.mod_pos_bound; lia|done|].
    destruct (Exp_word k (e mod m) r b) as [r1 b1]. cbn [fst snd] in *.
    fold m in H2, H3. rewrite Z.mod_mod in H2 by lia.
    rewrite (IH _ _ _ (b' ^ m)); [|apply Z.div_pos; lia|done|].
    2: { rewrite H3, <- (Z.mod_pow_l b), Hb. apply Z.mod_pow_l. }
    rewrite H2, Z.mul_mod_idemp_l by lia.
    replace (Z.of_nat k * Z.of_nat (S n)) with (Z.of_nat k + Z.of_nat k * Z.of_nat n) by lia.
    rewrite Z.pow_add_r by lia. fold m. set (h := 2 ^ (Z.of_nat k * Z.of_nat n)).
    assert (0 < h) by (apply Z.pow_pos_nonneg; lia).
    rewrite (Z.rem_mul_r e m) by lia.
    pose proof (Z.mod_pos_bound e m). pose proof (Z.mod_pos_bound (e / m) h).
    rewrite (Z.pow_add_r b'), (Z.pow_mul_r b') by lia.
    set (p := e mod m) in *. set (q := (b' ^ m) ^ _).
    replace (r * b ^ p * q) with (b ^ p * (r * q)) by ring.
    replace (r * (b' ^ p * q)) with (b' ^ p * (r * q)) by ring.
    rewrite <- (Z.mul_mod_idemp_l (b ^ p)), <- (Z.mul_mod_idemp_l (b' ^ p)) by lia.
    by rewrite <- (Z.mod_pow_l b), Hb, Z.mod_pow_l.
Qed.

Lemma bits_words z : 0 ≤ z → z < 2 ^ (64 * Z.of_nat (Z.to_nat ((bitlen z + 63) / 64))).
Proof.
  intros Hz. pose proof (bitlen_nonneg z). pose proof (proj1 (bitlen_spec z Hz)).
  rewrite Z2Nat.id by (apply Z.div_pos; lia).
  eapply Z.lt_le_trans; [done|]. apply Z.pow_le_mono_r; [lia|].
  Z.to_euclidean_division_equations. lia.
Qed.

Lemma Exp_correct base exponent :
  0 ≤ exponent → fst (Exp base exponent) = base ^ exponent mod 2 ^ 256.
Proof.
  intros He. unfold Exp, big_Bits. rewrite Z.abs_eq by done.
  change 64 with (Z.of_nat 64) at 1.
  rewrite (Exp_words_spec _ _ _ _ _ base) by (done || (unfold in_w; lia)).
  change (Z.of_nat 64) with 64.
  rewrite Z.mul_1_l, (Z.mod_small exponent); [done|]. split; [done|]. by apply bits_words.
Qed.

(** ** Correctness of the padded output *)

(** Write the bytes of [bs] backwards from index [i]. *)
Fixpoint write_back (bs : bytes) (i : nat) (buf : bytes) : nat * bytes :=
  match bs, i with
  | b :: bs', S i' => write_back bs' i' (<[i' := b]> buf)
  | _, _ => (i, buf)
  end.

(** The [n] low bytes of [z], least significant first. *)
Fixpoint le_bytes (n : nat) (z : Z) : bytes :=
  match n with O => [] | S n' => z mod 256 :: le_bytes n' (z / 256) end.

Lemma rev_le_bytes n z : reverse (le_bytes n z) = be_fixed n z.
Proof.
  revert z. induction n as [|n IH]; intros z; [done|].
  cbn [le_bytes be_fixed]. by rewrite reverse_cons, IH.
Qed.

Lemma le_bytes_app m n z :
  le_bytes (m + n) z = le_bytes m z ++ le_bytes n (z / 256 ^ Z.of_nat m).
Proof.
  revert z. induction m as [|m IH]; intros z.
  - simpl. by rewrite Z.div_1_r.
  - cbn [le_bytes Nat.add app]. rewrite IH. f_equal. f_equal. f_equal.
    rewrite Z.div_div by (try lia; apply Z.pow_pos_nonneg; lia).
    by rewrite Nat2Z.inj_succ, Z.pow_succ_r by lia.
Qed.

Lemma length_le_bytes n z : length (le_bytes n z) = n.
Proof. revert z. induction n; intros; simpl; [done|]. by f_equal. Qed.

Lemma take_le_bytes i m z : (i ≤ m)%nat → take i (le_bytes m z) = le_bytes i z.
Proof.
  intros. replace m with (i + (m - i))%nat by lia.
  rewrite le_bytes_app, take_app_le by (rewrite length_le_bytes; lia).
  by rewrite take_ge by (rewrite length_le_bytes; lia).
Qed.

Lemma le_bytes_mod n k z : (n ≤ k)%nat → le_bytes n (z mod 256 ^ Z.of_nat k) = le_bytes n z.
Proof.
  revert k z. induction n as [|n IH]; intros [|k] z ?; try lia; [done|done|].
  cbn [le_bytes]. rewrite Nat2Z.inj_succ, Z.pow_succ_r by lia.
  assert (0 < 256 ^ Z.of_nat k) by (apply Z.pow_pos_nonneg; lia).
  rewrite Z.rem_mul_r by lia. f_equal.
  - rewrite Z.mul_comm, Z.mod_add, Z.mod_mod by lia. done.
  - rewrite Z.add_comm, (Z.mul_comm 256), Z.div_add_l by lia.
    rewrite (Z.div_small (z mod 256)) by (apply Z.mod_pos_bound; lia).
    rewrite Z.add_0_r. apply IH. lia.
Qed.

Lemma ReadBits_word_write_back j d i buf :
  ReadBits_word j d i buf = write_back (le_bytes j d) i buf.
Proof.
  revert d i buf. induction j as [|j IH]; intros d [|i] buf; simpl; try done.
  rewrite IH. by rewrite Z.shiftr_div_pow2 by lia.
Qed.

Lemma write_back_nil i buf : write_back [] i buf = (i, buf).
Proof. done. Qed.

Lemma write_back_app bs1 bs2 i buf :
  write_back (bs1 ++ bs2) i buf =
  write_back bs2 (fst (write_back bs1 i buf)) (snd (write_back bs1 i buf)).
Proof.
  revert i buf. induction bs1 as [|b bs1 IH]; intros [|i] buf; try done; simpl.
  - by destruct bs2.
  - apply IH.
Qed.

Lemma write_back_spec bs i buf :
  (i ≤ length buf)%nat →
  snd (write_back bs i buf) =
    take (i - length bs) buf ++ reverse (take i bs) ++ drop i buf.
Proof.
  revert i buf. induction bs as [|b bs IH]; intros [|i] buf Hi.
  - done.
  - cbn [write_back snd length take]. rewrite Nat.sub_0_r, reverse_nil.
    by rewrite app_nil_l, take_drop.
  - done.
  - cbn [write_back length take]. rewrite IH by (rewrite length_insert; lia).
    rewrite reverse_cons, <- app_assoc. rewrite take_insert_ge by lia.
    f_equal. f_equal. rewrite drop_insert_ge, Nat.sub_diag by lia.
    destruct (drop i buf) as [|c t] eqn:E.
    + apply (f_equal length) in E. rewrite length_drop in E. simpl in E. lia.
    + simpl. f_equal. apply (f_equal (drop 1)) in E. rewrite drop_drop in E.
      rewrite Nat.add_1_r in E. simpl in E. by rewrite E.
Qed.

Lemma le_words_bytes n z :
  concat (map (le_bytes 8) (le_words 64 n z)) = le_bytes (8 * n) z.
Proof.
  revert z. induction n as [|n IH]; intros z; [done|].
  replace (8 * S n)%nat with (8 + 8 * n)%nat by lia. rewrite le_bytes_app.
  cbn [le_words map]. rewrite concat_cons, IH. f_equal.
  change (2 ^ 64) with (256 ^ Z.of_nat 8). by rewrite le_bytes_mod by lia.
Qed.

Lemma ReadBits_fold ws i buf :
  fold_left (λ st d, ReadBits_word 8 d (fst st) (snd st)) ws (i, buf) =
  write_back (concat (map (le_bytes 8) ws)) i buf.
Proof.
  revert i buf. induction ws as [|w ws IH]; intros i buf; [by destruct i|].
  cbn [fold_left map]. rewrite concat_cons, write_back_app. cbn [fst snd].
  rewrite ReadBits_word_write_back.
  by destruct (write_back (le_bytes 8 w) i buf) as [i' buf'] eqn:E; rewrite IH.
Qed.

Lemma be_fixed_zeros n m z :
  0 ≤ z < 256 ^ Z.of_nat m → be_fixed (n + m) z = replicate n 0 ++ be_fixed m z.
Proof.
  intros Hz. rewrite <- !rev_le_bytes, Nat.add_comm, le_bytes_app, reverse_app.
  f_equal. rewrite Z.div_small by done.
  induction n as [|n IH]; [done|]. cbn [le_bytes]. rewrite Z.mod_0_l, Z.div_0_l by lia.
  rewrite reverse_cons, IH. clear. induction n; simpl; [done|]. by f_equal.
Qed.

(** On a zero buffer, [ReadBits] writes the [len(buf)] low bytes. *)
Lemma ReadBits_correct x n :
  0 ≤ x → ReadBits x (replicate n 0) = be_fixed n x.
Proof.
  intros Hx. unfold ReadBits, big_Bits. rewrite Z.abs_eq by done.
  rewrite ReadBits_fold, le_words_bytes.
  set (k := (8 * Z.to_nat ((bitlen x + 63) / 64))%nat).
  rewrite write_back_spec by done. rewrite length_replicate, length_le_bytes.
  rewrite (drop_ge (replicate n 0)) by (by rewrite length_replicate). rewrite app_nil_r.
  rewrite take_replicate.
  destruct (decide (n ≤ k)%nat).
  - replace (n - k)%nat with 0%nat by lia. rewrite take_le_bytes by done.
    simpl. apply rev_le_bytes.
  - rewrite take_ge by (rewrite length_le_bytes; lia). rewrite rev_le_bytes.
    replace (Nat.min (n - k) n) with (n - k)%nat by lia.
    rewrite <- be_fixed_zeros; [f_equal; lia|]. split; [done|].
    pose proof (bits_words x Hx) as Hb.
    eapply Z.lt_le_trans; [exact Hb|]. change 256 with (2 ^ 8).
    rewrite <- Z.pow_mul_r by lia. apply Z.pow_le_mono_r; lia.
Qed.

Lemma PaddedBigBytes_correct x n :
  0 ≤ x → 0 ≤ n → PaddedBigBytes x n = be_fixed (Nat.max (Z.to_nat n) (nbytes x)) x.
Proof.
  intros Hx Hn. unfold PaddedBigBytes. rewrite Z.abs_eq by done.
  pose proof (bitlen_nonneg x).
  assert (Z.of_nat (nbytes x) = (bitlen x + 7) / 8) as En.
  { unfold nbytes. rewrite Z2Nat.id; [done|]. apply Z.div_pos; lia. }
  destruct (Z.leb_spec n (bitlen x / 8)).
  - unfold be_min. f_equal. Z.to_euclidean_division_equations. lia.
  - rewrite ReadBits_correct by done. f_equal. Z.to_euclidean_division_equations. lia.
Qed.

Lemma U256Bytes_correct x : U256Bytes x = be_fixed 32 (x mod 2 ^ 256).
Proof.
  unfold U256Bytes. rewrite U256_mod. pose proof (Z.mod_pos_bound x (2 ^ 256)).
  rewrite PaddedBigBytes_correct by lia. f_equal.
  pose proof (nbytes_le (x mod 2 ^ 256) 32). lia.
Qed.

(** ** Claims *)

(** [math.Exp] computes the power modulo [2^256], for every base and every
    non-negative exponent of any size. *)
Lemma Exp_is_power base exponent :
  0 ≤ exponent → fst (Exp base exponent) = base ^ exponent mod 2 ^ 256.
Proof. apply Exp_correct. Qed.

(** [math.PaddedBigBytes] gives the big-endian form of a non-negative
    number in exactly [n] bytes when it fits, and in its minimal length when
    it does not; the digits are those of the number either way. *)
Lemma PaddedBigBytes_digits x n :
  0 ≤ x → 0 ≤ n →
  zlen (PaddedBigBytes x n) = Z.max n (Z.of_nat (nbytes x)) ∧ be_decode (PaddedBigBytes x n) = x.
Proof.
  intros Hx Hn. rewrite PaddedBigBytes_correct by done. unfold zlen. rewrite length_be_fixed.
  split; [lia|]. rewrite be_decode_fixed. apply Z.mod_small. split; [done|].
  pose proof (nbytes_bound x Hx). eapply Z.lt_le_trans; [done|]. apply Z.pow_le_mono_r; lia.
Qed.

(** The overflow-checked 64-bit operations: the flag is raised exactly when
    the exact result does not fit in a [uint64], and without it the result is
    exact. *)
Lemma Safe_ops_exact x y :
  is_u64 x → is_u64 y →
  (snd (SafeAdd x y) = true ↔ MaxUint64 < x + y) ∧ (snd (SafeAdd x y) = false → fst (SafeAdd x y) = x + y) ∧
  (snd (SafeSub x y) = true ↔ x < y) ∧ (snd (SafeSub x y) = false → fst (SafeSub x y) = x - y) ∧
  (snd (SafeMul x y) = true ↔ MaxUint64 < x * y) ∧ (snd (SafeMul x y) = false → fst (SafeMul x y) = x * y).
Proof.
  intros Hx Hy. rewrite (SafeAdd_spec x y), (SafeSub_spec x y) by done.
  destruct (SafeMul_spec x y Hx Hy) as [M1 M2].
  destruct (Z.leb_spec (x + y) MaxUint64), (Z.leb_spec y x); simpl;
    (split; [split; (done || lia)|]); (split; [done|]); (split; [split; (done || lia)|]); (split; [done|]);
    (split; [|exact M2]); rewrite <- not_false_iff_true, M1; lia.
Qed.

End GoMath.

(** ** Signatures over secp256k1 (crypto/crypto.go) *)
Module Crypto.

Definition secp256k1N : Z := 0xfffffffffffffffffffffffffffffffebaaedce6af48a03bbfd25e8cd0364141.
Definition secp256k1halfN : Z := secp256k1N / 2.

Definition ValidateSignatureValues (v r s : Z) (homestead : bool) : bool :=
  if (r <? 1) || (s <? 1) then false
  else if homestead && (secp256k1halfN <? s) then false
  else (r <? secp256k1N) && (s <? secp256k1N) && ((v =? 0) || (v =? 1)).

(** [crypto.Ecrecover]: the uncompressed public key, a marker byte first. *)
Class Recover := { Ecrecover : bytes → bytes → result string bytes }.

End Crypto.
