(* ===== verification/RlpEncode.v ===== *)
(** * RLP encoding and raw splitting (rlp/encode.go, rlp/raw.go)

    [Encbuf] is the two-part output buffer of rlp/encode.go: string data, and
    list headers kept aside with the offset at which they belong, merged by
    [toBytes].  [gval] is the dynamic shape of a Go value as the reflection
    based writers see it; [write] is the writer that [makeWriter] picks for it.
    [enc] is the textbook recursive encoding of an [item]; the main theorem is
    that the deferred-header buffer renders to it. *)
From S2P Require Import Prelude Common.
Import Common.Bytes Common.GoMath.

Module Enc.

(** ** Headers *)

(** Big-endian output of [i] with the least number of bytes: the bytes that
    [putint] stores at the start of its buffer. *)
Definition putint (i : Z) : bytes :=
  let put := map (λ s, u8 (Z.shiftr i s)) in
  if i <? 2 ^ 8 then put [0]
  else if i <? 2 ^ 16 then put [8; 0]
  else if i <? 2 ^ 24 then put [16; 8; 0]
  else if i <? 2 ^ 32 then put [24; 16; 8; 0]
  else if i <? 2 ^ 40 then put [32; 24; 16; 8; 0]
  else if i <? 2 ^ 48 then put [40; 32; 24; 16; 8; 0]
  else if i <? 2 ^ 56 then put [48; 40; 32; 24; 16; 8; 0]
  else put [56; 48; 40; 32; 24; 16; 8; 0].

(** [for size = 1; ; size++ { if i >>= 8; i == 0 { return size } }]; a 64-bit
    value is zero after eight shifts, so eight rounds are enough. *)
Fixpoint intsize_loop (fuel : nat) (size i : Z) : Z :=
  match fuel with
  | O => size
  | S f => let i := Z.shiftr i 8 in if i =? 0 then size else intsize_loop f (size + 1) i
  end.
Definition intsize (i : Z) : Z := intsize_loop 8 1 i.

Definition headsize (size : Z) : Z := if size <? 56 then 1 else 1 + intsize size.

(** The header bytes; the returned count of the code is their length. *)
Definition puthead (smalltag largetag size : Z) : bytes :=
  if size <? 56 then [u8 (smalltag + size)]
  else u8 (largetag + zlen (putint size)) :: putint size.

(** ** The output buffer *)

Record listhead := Listhead { lh_offset : Z; lh_size : Z }.

Definition listhead_encode (h : listhead) : bytes := puthead 0xC0 0xF7 (lh_size h).

Record encbuf := Encbuf { eb_str : bytes; eb_lheads : list listhead; eb_lhsize : Z }.

Definition encbuf_reset : encbuf := Encbuf [] [] 0.

Definition append_str (b : bytes) (w : encbuf) : encbuf :=
  Encbuf (eb_str w ++ b) (eb_lheads w) (eb_lhsize w).

Definition encbuf_size (w : encbuf) : Z := zlen (eb_str w) + eb_lhsize w.

Definition encodeStringHeader (size : Z) (w : encbuf) : encbuf :=
  if size <? 56 then append_str [u8 (0x80 + size)] w
  else append_str (u8 (0xB7 + zlen (putint size)) :: putint size) w.

Definition encodeString (b : bytes) (w : encbuf) : encbuf :=
  match b with
  | [c] => if c <=? 0x7F then append_str [c] w
           else append_str b (encodeStringHeader (zlen b) w)
  | _ => append_str b (encodeStringHeader (zlen b) w)
  end.

Definition encodeUint (i : Z) (w : encbuf) : encbuf :=
  if i =? 0 then append_str [0x80] w
  else if i <? 128 then append_str [u8 i] w
  else append_str (u8 (0x80 + zlen (putint i)) :: putint i) w.

(** [list] returns the index of the new header. *)
Definition list_ (w : encbuf) : nat * encbuf :=
  (length (eb_lheads w),
   Encbuf (eb_str w) (eb_lheads w ++ [Listhead (zlen (eb_str w)) (eb_lhsize w)]) (eb_lhsize w)).

Definition listEnd (index : nat) (w : encbuf) : encbuf :=
  match eb_lheads w !! index with
  | None => w
  | Some lh =>
      let sz := encbuf_size w - lh_offset lh - lh_size lh in
      Encbuf (eb_str w) (<[index := Listhead (lh_offset lh) sz]> (eb_lheads w))
        (if sz <? 56 then eb_lhsize w + 1 else eb_lhsize w + (1 + intsize sz))
  end.

(** The loop of [toBytes]: string data before each header, the header, and the
    string data after the last one. *)
Fixpoint toBytes_loop (str : bytes) (strpos : Z) (heads : list listhead) : bytes :=
  match heads with
  | [] => drop (Z.to_nat strpos) str
  | h :: hs =>
      let s := slice str strpos (lh_offset h) in
      s ++ listhead_encode h ++ toBytes_loop str (strpos + zlen s) hs
  end.
Definition toBytes (w : encbuf) : bytes := toBytes_loop (eb_str w) 0 (eb_lheads w).

(** ** Writers *)

Definition writeBool (b : bool) (w : encbuf) : encbuf :=
  if b then append_str [0x01] w else append_str [0x80] w.

Definition writeBigInt (i : Z) (w : encbuf) : result string encbuf :=
  if i <? 0 then Err "rlp: cannot encode negative *big.Int"%string
  else
    let bl := bitlen i in
    if bl <=? 64 then Ok (encodeUint i w)
    else
      let length := Z.shiftr (Z.land (bl + 7) (-8)) 3 in
      let w := encodeStringHeader length w in
      Ok (append_str (ReadBits i (replicate (Z.to_nat length) 0)) w).

Definition writeBigIntPtr (p : option Z) (w : encbuf) : result string encbuf :=
  match p with
  | None => Ok (append_str [0x80] w)
  | Some i => writeBigInt i w
  end.

Definition writeLengthOneByteArray (b : Z) (w : encbuf) : encbuf :=
  if b <=? 0x7f then append_str [b] w else append_str [0x81; b] w.

(** [makeByteArrayWriter]: picked by the array length. *)
Definition makeByteArrayWriter (a : bytes) (w : encbuf) : encbuf :=
  match a with
  | [] => append_str [0x80] w
  | [b] => writeLengthOneByteArray b w
  | _ => append_str a (encodeStringHeader (zlen a) w)
  end.

(** The shapes of values handled by [makeWriter]: unsigned integers, booleans,
    [*big.Int], byte slices, byte arrays, lists (slices and structs), and
    pointers, with the kind that stands for nil: a list ([true]) or a string.
    A pointer that is never nil may be left out, and a type with an [EncodeRLP]
    method writes the value it forwards to. *)
Inductive gval :=
| VUint (n : Z)
| VBool (b : bool)
| VBig (p : option Z)
| VBytes (b : bytes)
| VArray (b : bytes)
| VList (l : list gval)
| VPtr (nilList : bool) (p : option gval).

(** [makePtrWriter]: the writer of the element type on what the pointer points
    at, or the empty value of [nilKind]. *)
Definition makePtrWriter {A} (etype_writer : A → encbuf → result string encbuf)
    (nilList : bool) (p : option A) (w : encbuf) : result string encbuf :=
  match p with
  | None =>
      if nilList then let '(lh, w1) := list_ w in Ok (listEnd lh w1)
      else Ok (append_str [0x80] w)
  | Some v => etype_writer v w
  end.

Fixpoint write (v : gval) (w : encbuf) : result string encbuf :=
  match v with
  | VUint n => Ok (encodeUint n w)
  | VBool b => Ok (writeBool b w)
  | VBig p => writeBigIntPtr p w
  | VBytes b => Ok (encodeString b w)
  | VArray b => Ok (makeByteArrayWriter b w)
  | VList l =>
      let '(lh, w1) := list_ w in
      let fix write_elems (l : list gval) (w : encbuf) : result string encbuf :=
        match l with
        | [] => Ok w
        | x :: l' => try! w' <- write x w; write_elems l' w'
        end in
      try! w2 <- write_elems l w1; Ok (listEnd lh w2)
  | VPtr nilList p => makePtrWriter write nilList p w
  end.

Fixpoint write_elems (l : list gval) (w : encbuf) : result string encbuf :=
  match l with
  | [] => Ok w
  | x :: l' => try! w' <- write x w; write_elems l' w'
  end.

Definition EncodeToBytes (v : gval) : result string bytes :=
  try! w <- write v encbuf_reset; Ok (toBytes w).

(** ** Reference encoding *)

Inductive item :=
| Str (b : bytes)
| Lst (l : list item).

Definition enc_str (b : bytes) : bytes :=
  match b with
  | [c] => if c <=? 0x7F then [c] else puthead 0x80 0xB7 1 ++ b
  | _ => puthead 0x80 0xB7 (zlen b) ++ b
  end.

Fixpoint enc (i : item) : bytes :=
  match i with
  | Str b => enc_str b
  | Lst l =>
      let c := concat (map enc l) in
      puthead 0xC0 0xF7 (zlen c) ++ c
  end.

Fixpoint item_of (v : gval) : item :=
  match v with
  | VUint n => Str (be_min n)
  | VBool b => Str (if b then [1] else [])
  | VBig None => Str []
  | VBig (Some i) => Str (be_min i)
  | VBytes b | VArray b => Str b
  | VList l => Lst (map item_of l)
  | VPtr nilList None => if nilList then Lst [] else Str []
  | VPtr _ (Some v) => item_of v
  end.

(** Values that fit their Go types. *)
Fixpoint val_ok (v : gval) : bool :=
  match v with
  | VUint n => bool_decide (is_u64 n)
  | VBool _ => true
  | VBig None => true
  | VBig (Some i) => true
  | VBytes b | VArray b => bool_decide (wf_bytes b)
  | VList l => forallb val_ok l
  | VPtr _ None => true
  | VPtr _ (Some v) => val_ok v
  end.

(** No negative [*big.Int] anywhere. *)
Fixpoint nonneg (v : gval) : bool :=
  match v with
  | VBig (Some i) => 0 <=? i
  | VList l => forallb nonneg l
  | VPtr _ (Some v) => nonneg v
  | _ => true
  end.

(** ** Structural induction through the nested lists *)
Lemma gval_ind' (P : gval → Prop) :
  (∀ n, P (VUint n)) → (∀ b, P (VBool b)) → (∀ p, P (VBig p)) →
  (∀ b, P (VBytes b)) → (∀ b, P (VArray b)) →
  (∀ l, Forall P l → P (VList l)) → (∀ k, P (VPtr k None)) →
  (∀ k v, P v → P (VPtr k (Some v))) → ∀ v, P v.
Proof.
  intros H1 H2 H3 H4 H5 H6 H7 H8. fix IH 1. intros [n|b|p|b|b|l|k [v|]];
    [apply H1|apply H2|apply H3|apply H4|apply H5| |apply H8, IH|apply H7].
  apply H6. induction l as [|x l IHl]; constructor; [apply IH|apply IHl].
Qed.

(** ** Integer output *)

Lemma be_fixed_S_cons n z : be_fixed (S n) z = (z / 256 ^ Z.of_nat n) mod 256 :: be_fixed n z.
Proof.
  revert z. induction n as [|n IH]; intros z.
  - simpl. by rewrite Z.div_1_r.
  - cbn [be_fixed] in *. rewrite IH. cbn [app]. f_equal.
    rewrite Z.div_div by (try lia; apply Z.pow_pos_nonneg; lia).
    by rewrite Nat2Z.inj_succ, Z.pow_succ_r by lia.
Qed.

Lemma putint_be_min i : 0 < i < 2 ^ 64 → putint i = be_min i.
Proof.
  intros Hi. unfold be_min.
  assert (∀ n, (0 < n)%nat → 256 ^ (Z.of_nat n - 1) ≤ i < 256 ^ Z.of_nat n → nbytes i = n) as Hn.
  { intros n Hp [Hlo Hhi]. apply Nat.le_antisymm; [apply nbytes_le; lia|].
    pose proof (nbytes_bound i ltac:(lia)).
    assert (256 ^ (Z.of_nat n - 1) < 256 ^ Z.of_nat (nbytes i)) as Hlt by lia.
    apply Z.pow_lt_mono_r_iff in Hlt; lia. }
  assert (∀ s, 0 ≤ s → u8 (Z.shiftr i s) = (i / 2 ^ s) mod 256) as Hs.
  { intros. unfold u8, wrap. by rewrite Z.shiftr_div_pow2. }
  unfold putint. cbn [map].
  repeat (match goal with |- context [if ?a <? ?b then _ else _] => destruct (Z.ltb_spec a b) end);
    rewrite ?Hs by lia;
    [rewrite (Hn 1%nat) by (simpl; lia)|rewrite (Hn 2%nat) by (simpl; lia)
    |rewrite (Hn 3%nat) by (simpl; lia)|rewrite (Hn 4%nat) by (simpl; lia)
    |rewrite (Hn 5%nat) by (simpl; lia)|rewrite (Hn 6%nat) by (simpl; lia)
    |rewrite (Hn 7%nat) by (simpl; lia)|rewrite (Hn 8%nat) by (simpl; lia)];
    rewrite ?be_fixed_S_cons; done.
Qed.

Lemma zlen_putint i : 1 ≤ zlen (putint i) ≤ 8.
Proof. unfold putint, zlen. repeat case_match; simpl; lia. Qed.

Lemma wf_putint i : wf_bytes (putint i).
Proof.
  unfold putint.
  repeat (match goal with |- context [if ?a <? ?b then _ else _] => destruct (a <? b) end);
    repeat constructor; go_lia.
Qed.

Lemma intsize_putint i : 0 ≤ i < 2 ^ 64 → intsize i = zlen (putint i).
Proof.
  intros Hi. unfold intsize, putint.
  cbn [intsize_loop map]. rewrite !Z.shiftr_shiftr by lia. simpl (8 + _).
  rewrite !Z.shiftr_div_pow2 by lia.
  repeat match goal with |- context [if ?a <? ?b then _ else _] => destruct (Z.ltb_spec a b) end;
  repeat match goal with
    | |- context [if ?a =? 0 then _ else _] =>
        destruct (Z.eqb_spec a 0); [first [reflexivity | exfalso; Z.to_euclidean_division_equations; lia]
                                   |try (exfalso; Z.to_euclidean_division_equations; lia)]
  end; reflexivity.
Qed.

Lemma zlen_puthead s l size : 0 ≤ size < 2 ^ 64 → zlen (puthead s l size) = headsize size.
Proof.
  intros. unfold puthead, headsize. destruct (size <? 56); [done|].
  rewrite intsize_putint by done. unfold zlen. simpl. lia.
Qed.

(** ** Rendering of the deferred headers *)

Definition shift (d : Z) (h : listhead) : listhead := Listhead (d + lh_offset h) (lh_size h).

(** The headers [hs] sit at non-decreasing offsets from [pos] to [len]. *)
Fixpoint placed (pos : Z) (hs : list listhead) (len : Z) : Prop :=
  match hs with
  | [] => pos ≤ len
  | h :: hs' => pos ≤ lh_offset h ∧ placed (lh_offset h) hs' len
  end.

Lemma placed_le pos hs len : placed pos hs len → pos ≤ len.
Proof.
  revert pos. induction hs as [|h hs IH]; intros pos; simpl; [done|].
  intros [? H%IH]. lia.
Qed.

Lemma placed_shift d q hs len :
  placed q hs len → placed (d + q) (map (shift d) hs) (d + len).
Proof.
  revert q. induction hs as [|h hs IH]; intros q; simpl; [lia|].
  intros [? H]. split; [lia|]. by apply IH.
Qed.

Lemma placed_weaken p q hs len : p ≤ q → placed q hs len → placed p hs len.
Proof. destruct hs; simpl; [lia|]. intros ? [? ?]. split; [lia|done]. Qed.

Lemma placed_app pos hs1 len1 d hs2 len2 :
  placed pos hs1 len1 → placed 0 hs2 len2 → d = len1 →
  placed pos (hs1 ++ map (shift d) hs2) (len1 + len2).
Proof.
  intros H1 H2 ->. revert pos H1. induction hs1 as [|h hs1 IH]; intros pos H1; simpl in *.
  - apply (placed_weaken _ (len1 + 0)); [lia|]. by apply placed_shift.
  - destruct H1. split; [done|]. by apply IH.
Qed.

Definition heads_size (hs : list listhead) : Z :=
  foldr (λ h n, headsize (lh_size h) + n) 0 hs.

Lemma heads_size_app a b : heads_size (a ++ b) = heads_size a + heads_size b.
Proof. induction a; simpl; lia. Qed.

Lemma heads_size_shift d hs : heads_size (map (shift d) hs) = heads_size hs.
Proof. induction hs; simpl; lia. Qed.

Lemma zlen_slice_str (str : bytes) pos off :
  0 ≤ pos ≤ off → off ≤ zlen str → pos + zlen (slice str pos off) = off.
Proof. intros. rewrite length_slice by lia. lia. Qed.

Lemma toBytes_loop_shift s1 s2 p hs :
  0 ≤ p → placed p hs (zlen s2) →
  toBytes_loop (s1 ++ s2) (zlen s1 + p) (map (shift (zlen s1)) hs) = toBytes_loop s2 p hs.
Proof.
  revert p. induction hs as [|h hs IH]; intros p Hp Hpl; simpl in *.
  - unfold zlen. rewrite Z2Nat.inj_add, Nat2Z.id by lia.
    by rewrite drop_app_add.
  - destruct Hpl as [Hle Hpl]. pose proof (placed_le _ _ _ Hpl).
    assert (slice (s1 ++ s2) (zlen s1 + p) (zlen s1 + lh_offset h) = slice s2 p (lh_offset h)) as E.
    { unfold slice. f_equal; [f_equal; lia|]. unfold zlen.
      rewrite Z2Nat.inj_add, Nat2Z.id by lia. by rewrite drop_app_add. }
    rewrite E. f_equal. f_equal.
    rewrite <- Z.add_assoc, zlen_slice_str by lia. apply IH; [lia|done].
Qed.

Lemma toBytes_loop_app s1 s2 pos hs1 hs2 :
  0 ≤ pos → placed pos hs1 (zlen s1) → placed 0 hs2 (zlen s2) →
  toBytes_loop (s1 ++ s2) pos (hs1 ++ map (shift (zlen s1)) hs2) =
  toBytes_loop s1 pos hs1 ++ toBytes_loop s2 0 hs2.
Proof.
  revert pos. induction hs1 as [|h hs1 IH]; intros pos Hpos H1 H2; simpl in *.
  - destruct hs2 as [|h hs2]; simpl in *.
    + change (Z.to_nat 0) with 0%nat. rewrite drop_0.
      rewrite drop_app_le; [done|]. unfold zlen in *. lia.
    + destruct H2 as [? H2]. pose proof (placed_le _ _ _ H2).
      assert (slice (s1 ++ s2) pos (zlen s1 + lh_offset h) =
              drop (Z.to_nat pos) s1 ++ slice s2 0 (lh_offset h)) as E.
      { unfold slice, zlen in *. rewrite drop_app_le by lia.
        rewrite take_app_ge by (rewrite length_drop; lia). f_equal.
        rewrite length_drop. f_equal. lia. }
      rewrite E, <- app_assoc. f_equal. f_equal. f_equal.
      rewrite zlen_app. replace (pos + _) with (zlen s1 + lh_offset h).
      * rewrite toBytes_loop_shift by (done || lia). f_equal.
        rewrite length_slice by lia. lia.
      * rewrite length_slice by lia. unfold zlen in *. rewrite length_drop. lia.
  - destruct H1 as [? H1]. pose proof (placed_le _ _ _ H1).
    assert (slice (s1 ++ s2) pos (lh_offset h) = slice s1 pos (lh_offset h)) as E.
    { unfold slice, zlen in *. rewrite drop_app_le by lia.
      rewrite take_app_le; [done|]. rewrite length_drop. lia. }
    rewrite E, <- !app_assoc. f_equal. f_equal.
    rewrite zlen_slice_str by lia. apply IH; [lia|done|done].
Qed.

Lemma zlen_toBytes_loop s pos hs :
  0 ≤ pos → placed pos hs (zlen s) → Forall (λ h, 0 ≤ lh_size h < 2 ^ 64) hs →
  zlen (toBytes_loop s pos hs) = zlen s - pos + heads_size hs.
Proof.
  revert pos. induction hs as [|h hs IH]; intros pos Hpos Hpl Hsz; simpl in *.
  - unfold zlen in *. rewrite length_drop. lia.
  - destruct Hpl as [? Hpl]. pose proof (placed_le _ _ _ Hpl).
    apply Forall_cons in Hsz as [? Hsz].
    rewrite !zlen_app, zlen_slice_str by lia. rewrite IH by (done || lia).
    rewrite length_slice by lia. unfold listhead_encode. rewrite zlen_puthead by done. lia.
Qed.

(** What one writer call adds to the buffer: string data and headers whose
    offsets are relative to the old end, rendering to [out]. *)
Definition adds (f : encbuf → result string encbuf) (out : bytes) : Prop :=
  ∃ s hs, placed 0 hs (zlen s) ∧ Forall (λ h, 0 ≤ lh_size h < 2 ^ 64) hs ∧
    toBytes_loop s 0 hs = out ∧
    ∀ w, f w = Ok (Encbuf (eb_str w ++ s)
                     (eb_lheads w ++ map (shift (zlen (eb_str w))) hs)
                     (eb_lhsize w + heads_size hs)).

Lemma adds_str s (f : encbuf → result string encbuf) :
  (∀ w, f w = Ok (append_str s w)) → adds f s.
Proof.
  intros H. exists s, []. simpl. split; [apply zlen_nonneg|]. split; [done|].
  split; [done|]. intros w. rewrite H. unfold append_str. by rewrite app_nil_r, Z.add_0_r.
Qed.

Lemma append_str_app a b w : append_str b (append_str a w) = append_str (a ++ b) w.
Proof. unfold append_str. simpl. by rewrite app_assoc. Qed.

Lemma encodeStringHeader_puthead size w :
  encodeStringHeader size w = append_str (puthead 0x80 0xB7 size) w.
Proof. unfold encodeStringHeader, puthead. by destruct (size <? 56). Qed.

Lemma encodeString_enc b w : encodeString b w = append_str (enc_str b) w.
Proof.
  unfold encodeString, enc_str. destruct b as [|c [|d b]];
    rewrite ?encodeStringHeader_puthead, ?append_str_app; try done.
  by destruct (c <=? 0x7F).
Qed.

Lemma be_min_small i : 0 < i < 256 → be_min i = [i].
Proof.
  intros. rewrite <- putint_be_min by lia. unfold putint.
  destruct (Z.ltb_spec i (2 ^ 8)); [|lia]. simpl. rewrite Z.shiftr_0_r.
  unfold u8. by rewrite wrap_id by (unfold in_w; lia).
Qed.

Lemma enc_str_long b : (2 ≤ length b)%nat → enc_str b = puthead 0x80 0xB7 (zlen b) ++ b.
Proof. destruct b as [|? [|? ?]]; simpl; [lia|lia|done]. Qed.

Lemma encodeUint_enc i w : is_u64 i → encodeUint i w = append_str (enc_str (be_min i)) w.
Proof.
  intros [? ?]. unfold encodeUint. destruct (Z.eqb_spec i 0) as [->|]; [done|].
  destruct (Z.ltb_spec i 128).
  - rewrite be_min_small by lia. simpl. destruct (Z.leb_spec i 0x7F); [|lia].
    unfold u8. by rewrite wrap_id by (unfold in_w; lia).
  - pose proof (zlen_putint i). rewrite putint_be_min in * by lia.
    f_equal. destruct (be_min i) as [|c [|d b]] eqn:E.
    + unfold zlen in *. simpl in *. lia.
    + assert (c = i) as ->.
      { rewrite <- (be_decode_one c), <- E. apply be_decode_min. lia. }
      simpl. destruct (Z.leb_spec i 0x7F); [lia|done].
    + rewrite enc_str_long by (simpl; lia). unfold puthead.
      destruct (Z.ltb_spec (zlen (c :: d :: b)) 56); [done|lia].
Qed.

Lemma bytelen_shift x : 0 ≤ x → Z.shiftr (Z.land (x + 7) (-8)) 3 = (x + 7) / 8.
Proof.
  intros. change (-8) with (Z.shiftl (-1) 3).
  rewrite Z.shiftr_land, Z.shiftr_shiftl_l by lia. change (3 - 3) with 0.
  rewrite Z.shiftl_0_r, Z.land_m1_r, Z.shiftr_div_pow2 by lia. done.
Qed.

Lemma writeBigInt_enc i w : 0 ≤ i → writeBigInt i w = Ok (append_str (enc_str (be_min i)) w).
Proof.
  intros Hi. unfold writeBigInt. destruct (Z.ltb_spec i 0); [lia|].
  pose proof (proj1 (bitlen_spec i Hi)). pose proof (bitlen_nonneg i).
  destruct (Z.leb_spec (bitlen i) 64).
  - rewrite encodeUint_enc; [done|]. split; [done|].
    eapply Z.lt_le_trans; [done|]. apply Z.pow_le_mono_r; lia.
  - rewrite bytelen_shift by lia. rewrite ReadBits_correct by done.
    assert (Z.to_nat ((bitlen i + 7) / 8) = nbytes i) as E by done.
    rewrite E, encodeStringHeader_puthead, append_str_app. fold (be_min i).
    assert (zlen (be_min i) = (bitlen i + 7) / 8) as El.
    { unfold zlen, be_min. rewrite length_be_fixed. unfold nbytes.
      rewrite Z2Nat.id; [done|]. apply Z.div_pos; lia. }
    rewrite <- El, enc_str_long; [done|]. unfold zlen in El.
    Z.to_euclidean_division_equations. lia.
Qed.

Lemma makeByteArrayWriter_enc b w :
  wf_bytes b → makeByteArrayWriter b w = append_str (enc_str b) w.
Proof.
  intros Hwf. destruct b as [|c [|d b]]; simpl; [done| |].
  - unfold writeLengthOneByteArray. by destruct (c <=? 0x7f).
  - by rewrite encodeStringHeader_puthead, append_str_app.
Qed.

Lemma adds_seq f g a b :
  adds f a → adds g b → adds (λ w, rbind (f w) g) (a ++ b).
Proof.
  intros (s1 & h1 & P1 & Z1 & T1 & F1) (s2 & h2 & P2 & Z2 & T2 & F2).
  exists (s1 ++ s2), (h1 ++ map (shift (zlen s1)) h2).
  split; [rewrite zlen_app; by apply placed_app|].
  split; [apply Forall_app; split; [done|]; by apply Forall_map|].
  split; [rewrite toBytes_loop_app by done; by rewrite T1, T2|].
  intros w. rewrite F1. simpl. rewrite F2. simpl. f_equal. f_equal.
  - by rewrite app_assoc.
  - rewrite map_app, map_map, app_assoc. f_equal. apply map_ext. intros h.
    unfold shift. simpl. f_equal. rewrite zlen_app. lia.
  - rewrite heads_size_app, heads_size_shift. lia.
Qed.

Lemma adds_list f c :
  adds f c → zlen c < 2 ^ 64 →
  adds (λ w, let '(lh, w1) := list_ w in rbind (f w1) (λ w2, Ok (listEnd lh w2)))
    (puthead 0xC0 0xF7 (zlen c) ++ c).
Proof.
  intros (s & hs & P & Zs & T & F) Hc.
  assert (zlen c = zlen s + heads_size hs) as El.
  { rewrite <- T, zlen_toBytes_loop by done. lia. }
  exists s, (Listhead 0 (zlen c) :: hs). simpl.
  split; [done|]. split; [constructor; [|done]; simpl; split; [apply zlen_nonneg|done]|].
  split.
  { change (puthead 0xC0 0xF7 (zlen c) ++ toBytes_loop s 0 hs = puthead 0xC0 0xF7 (zlen c) ++ c).
    by rewrite T. }
  intros w. rewrite F. simpl. unfold listEnd. simpl.
  rewrite <- app_assoc. cbn [app]. rewrite list_lookup_middle by done. simpl. f_equal.
  unfold encbuf_size. simpl. rewrite zlen_app.
  replace (_ - _ - _) with (zlen c) by lia. f_equal.
  - rewrite insert_app_r_alt by lia. rewrite Nat.sub_diag. simpl.
    unfold shift at 2. simpl. by rewrite Z.add_0_r.
  - unfold headsize. destruct (zlen c <? 56); lia.
Qed.

Lemma write_VList l w :
  write (VList l) w =
  (let '(lh, w1) := list_ w in rbind (write_elems l w1) (λ w2, Ok (listEnd lh w2))).
Proof. done. Qed.

Lemma adds_ext f g a : (∀ w, f w = g w) → adds g a → adds f a.
Proof.
  intros E (s & hs & H1 & H2 & H3 & H4). exists s, hs. repeat split; try done.
  intros w. by rewrite E.
Qed.

Lemma write_adds v :
  val_ok v = true → nonneg v = true → zlen (enc (item_of v)) < 2 ^ 64 →
  adds (write v) (enc (item_of v)).
Proof.
  induction v as [n|b|p|b|b|l IH|k|k v IH] using gval_ind'; intros Hok Hnn Hlen.
  - apply adds_str. intros w. simpl. rewrite encodeUint_enc; [done|].
    by apply bool_decide_eq_true in Hok.
  - apply adds_str. intros w. simpl. by destruct b.
  - destruct p as [i|]; apply adds_str; intros w; simpl; [|done].
    apply writeBigInt_enc. simpl in Hnn. lia.
  - apply adds_str. intros w. simpl. by rewrite encodeString_enc.
  - apply adds_str. intros w. simpl. rewrite makeByteArrayWriter_enc; [done|].
    by apply bool_decide_eq_true in Hok.
  - apply (adds_ext _ _ _ (write_VList l)). cbn [item_of enc] in *.
    rewrite zlen_app in Hlen.
    pose proof (zlen_nonneg (puthead 0xC0 0xF7 (zlen (concat (map enc (map item_of l)))))).
    apply adds_list; [|lia].
    assert (zlen (concat (map enc (map item_of l))) < 2 ^ 64) as Hc by lia. clear Hlen H.
    cbn [val_ok nonneg] in *. revert Hok Hnn Hc.
    induction IH as [|x l Hx _ IHl]; intros Hok Hnn Hc; simpl in *.
    + by apply adds_str with (s := []); intros [? ? ?]; unfold append_str; rewrite app_nil_r.
    + apply andb_prop in Hok as [? ?], Hnn as [? ?]. rewrite zlen_app in Hc.
      pose proof (zlen_nonneg (enc (item_of x))).
      pose proof (zlen_nonneg (concat (map enc (map item_of l)))).
      apply adds_seq; [apply Hx; (done || lia)|apply IHl; (done || lia)].
  - destruct k; [|by apply adds_str].
    apply (adds_ext _ _ _ (write_VList [])), (adds_list (write_elems []) []); [|done].
    by apply adds_str with (s := []); intros [? ? ?]; unfold append_str; rewrite app_nil_r.
  - by apply IH.
Qed.

(** The deferred-header buffer renders to the recursive encoding. *)
Lemma EncodeToBytes_enc v :
  val_ok v = true → nonneg v = true → zlen (enc (item_of v)) < 2 ^ 64 →
  EncodeToBytes v = Ok (enc (item_of v)).
Proof.
  intros H1 H2 H3. destruct (write_adds v H1 H2 H3) as (s & hs & P & _ & T & F).
  unfold EncodeToBytes. rewrite F. simpl. unfold toBytes. simpl. f_equal.
  rewrite <- T. f_equal. clear. unfold zlen. simpl. induction hs as [|h hs IH]; [done|].
  simpl. rewrite IH. f_equal. by destruct h.
Qed.

Lemma write_elems_Err l : forallb nonneg l = false → ∀ w,
  Forall (λ v, nonneg v = false → ∀ w, ∃ e, write v w = Err e) l →
  ∃ e, write_elems l w = Err e.
Proof.
  induction l as [|x l IH]; simpl; [done|]. intros Hn w HF.
  apply Forall_cons in HF as [Hx HF].
  destruct (nonneg x) eqn:Ex.
  - destruct (write x w) as [w'|e] eqn:Ew; simpl; [by apply IH|by exists e].
  - destruct (Hx eq_refl w) as [e ->]. by exists e.
Qed.

(** A negative integer anywhere makes the whole encoding fail. *)
Lemma EncodeToBytes_negative v :
  nonneg v = false → ∃ e, EncodeToBytes v = Err e.
Proof.
  intros Hn. assert (∀ w, ∃ e, write v w = Err e) as H.
  { induction v as [| |p| | |l IH| |k v IH] using gval_ind'; intros w; simpl in Hn; try done.
    - destruct p as [i|]; [|done]. simpl. unfold writeBigInt.
      destruct (Z.ltb_spec i 0); [by eexists|lia].
    - rewrite write_VList. destruct (list_ w) as [lh w1].
      destruct (write_elems_Err l Hn w1) as [e He]; [|rewrite He; by exists e].
      eapply Forall_impl; [exact IH|]. naive_solver.
    - by apply IH. }
  unfold EncodeToBytes. destruct (H encbuf_reset) as [e ->]. by exists e.
Qed.

Lemma zlen_puthead_le s l size : 1 ≤ zlen (puthead s l size) ≤ 9.
Proof.
  unfold puthead. destruct (size <? 56); [unfold zlen; simpl; lia|].
  pose proof (zlen_putint size). unfold zlen in *. simpl. lia.
Qed.

Lemma zlen_enc_str_le b : zlen (enc_str b) ≤ zlen b + 9.
Proof.
  assert (∀ n, zlen (puthead 0x80 0xB7 n ++ b) ≤ zlen b + 9) as H.
  { intros n. rewrite zlen_app. pose proof (zlen_puthead_le 0x80 0xB7 n). lia. }
  unfold enc_str. destruct b as [|c [|d b]]; [apply H| |apply H].
  destruct (c <=? 0x7F); [unfold zlen; simpl; lia|apply H].
Qed.

Lemma enc_nonempty i : 0 < zlen (enc i).
Proof.
  destruct i as [b|l]; cbn [enc].
  - unfold enc_str, puthead, zlen. repeat case_match; simpl; lia.
  - rewrite zlen_app. pose proof (zlen_nonneg (concat (map enc l))).
    unfold puthead. destruct (_ <? 56); unfold zlen; simpl; lia.
Qed.

(** ** Claims *)

(** The buffer-based encoder, which writes the payload first and patches
    the list headers in when the output is assembled, yields exactly the
    recursive RLP encoding of the value. *)
Lemma EncodeToBytes_is_rlp v :
  val_ok v = true → nonneg v = true → zlen (enc (item_of v)) < 2 ^ 64 →
  EncodeToBytes v = Ok (enc (item_of v)).
Proof. apply EncodeToBytes_enc. Qed.

(** A negative [*big.Int] anywhere in the value makes the encoder fail. *)
Lemma EncodeToBytes_refuses_negative v :
  nonneg v = false → ∃ e, EncodeToBytes v = Err e.
Proof. apply EncodeToBytes_negative. Qed.

End Enc.

Module Raw.
Import Enc.

Inductive Kind := Byte | String_ | List_.
#[export] Instance Kind_eq_dec : EqDecision Kind.
Proof. solve_decision. Defined.

Inductive rlp_error :=
| ErrUnexpectedEOF | EOF | EOL
| ErrExpectedString | ErrExpectedList | ErrCanonInt | ErrCanonSize
| ErrElemTooLarge | ErrValueTooLarge | ErrMoreThanOneValue
| errNotInList | errNotAtEOL | errUintOverflow
| decodeError (msg : string).

Definition ListSize (contentSize : Z) : Z := u64 (headsize contentSize + contentSize).
Definition IntSize (x : Z) : Z := if x <? 0x80 then 1 else 1 + intsize x.

(** The switch on [slen] spells the big-endian shifts out case by case. *)
Definition readSize (b : bytes) (slen : Z) : result rlp_error Z :=
  if zlen b <? slen then Err ErrUnexpectedEOF
  else
    let s := fold_left (λ s c, Z.lor (Z.shiftl s 8) c) (take (Z.to_nat slen) b) 0 in
    if (s <? 56) || (hd 0 b =? 0) then Err ErrCanonSize else Ok s.

Definition readKind (buf : bytes) : result rlp_error (Kind * Z * Z) :=
  match buf with
  | [] => Err ErrUnexpectedEOF
  | b :: tl =>
      let kts : result rlp_error (Kind * Z * Z) :=
        if b <? 0x80 then Ok (Byte, 0, 1)
        else if b <? 0xB8 then
          let contentsize := b - 0x80 in
          match tl with
          | c :: _ => if (contentsize =? 1) && (c <? 128) then Err ErrCanonSize
                      else Ok (String_, 1, contentsize)
          | [] => Ok (String_, 1, contentsize)
          end
        else if b <? 0xC0 then
          try! cs <- readSize tl (b - 0xB7); Ok (String_, (b - 0xB7) + 1, cs)
        else if b <? 0xF8 then Ok (List_, 1, b - 0xC0)
        else try! cs <- readSize tl (b - 0xF7); Ok (List_, (b - 0xF7) + 1, cs)
      in
      try! x <- kts;
      let '(k, tagsize, contentsize) := x in
      if u64 (zlen buf - tagsize) <? contentsize then Err ErrValueTooLarge
      else Ok (k, tagsize, contentsize)
  end.

Definition Split (b : bytes) : result rlp_error (Kind * bytes * bytes) :=
  try! x <- readKind b;
  let '(k, ts, cs) := x in
  Ok (k, slice b ts (ts + cs), drop (Z.to_nat (ts + cs)) b).

Definition SplitString (b : bytes) : result rlp_error (bytes * bytes) :=
  try! x <- Split b;
  let '(k, content, rest) := x in
  match k with List_ => Err ErrExpectedString | _ => Ok (content, rest) end.

Definition SplitUint64 (b : bytes) : result rlp_error (Z * bytes) :=
  try! x <- SplitString b;
  let '(content, rest) := x in
  match content with
  | [] => Ok (0, rest)
  | [c] => if c =? 0 then Err ErrCanonInt else Ok (c, rest)
  | _ => if 8 <? zlen content then Err errUintOverflow
         else match readSize content (zlen content) with
              | Err _ => Err ErrCanonInt
              | Ok x => Ok (x, rest)
              end
  end.

Definition SplitList (b : bytes) : result rlp_error (bytes * bytes) :=
  try! x <- Split b;
  let '(k, content, rest) := x in
  match k with List_ => Ok (content, rest) | _ => Err ErrExpectedList end.

(** Each round of [CountValues] drops at least one byte, so the length of the
    input bounds the number of rounds. *)
Fixpoint CountValues_loop (fuel : nat) (i : Z) (b : bytes) : result rlp_error Z :=
  match b, fuel with
  | [], _ => Ok i
  | _, O => Ok i
  | _, S f =>
      try! x <- readKind b;
      let '(_, tagsize, size) := x in
      CountValues_loop f (i + 1) (drop (Z.to_nat (tagsize + size)) b)
  end.
Definition CountValues (b : bytes) : result rlp_error Z := CountValues_loop (length b) 0 b.

Definition AppendUint64 (b : bytes) (i : Z) : bytes :=
  if i =? 0 then b ++ [0x80]
  else if i <? 128 then b ++ [u8 i]
  else
    let put := map (λ s, u8 (Z.shiftr i s)) in
    if i <? 2 ^ 8 then b ++ 0x81 :: put [0]
    else if i <? 2 ^ 16 then b ++ 0x82 :: put [8; 0]
    else if i <? 2 ^ 24 then b ++ 0x83 :: put [16; 8; 0]
    else if i <? 2 ^ 32 then b ++ 0x84 :: put [24; 16; 8; 0]
    else if i <? 2 ^ 40 then b ++ 0x85 :: put [32; 24; 16; 8; 0]
    else if i <? 2 ^ 48 then b ++ 0x86 :: put [40; 32; 24; 16; 8; 0]
    else if i <? 2 ^ 56 then b ++ 0x87 :: put [48; 40; 32; 24; 16; 8; 0]
    else b ++ 0x88 :: put [56; 48; 40; 32; 24; 16; 8; 0].

(** ** Lemmas *)

Lemma lor_shift_decode l s :
  wf_bytes l →
  fold_left (λ s c, Z.lor (Z.shiftl s 8) c) l s = fold_left (λ acc b, acc * 256 + b) l s.
Proof.
  intros Hwf. revert s. induction Hwf as [|b l Hb _ IH]; intros s; [done|].
  cbn [fold_left]. rewrite lor_shiftl_add by (try lia; exact Hb). apply IH.
Qed.

Lemma readSize_app s rest :
  56 ≤ s < 2 ^ 64 → readSize (putint s ++ rest) (zlen (putint s)) = Ok s.
Proof.
  intros Hs. unfold readSize. cbv zeta. rewrite zlen_app. pose proof (zlen_nonneg rest).
  destruct (Z.ltb_spec (zlen (putint s) + zlen rest) (zlen (putint s))); [lia|].
  replace (Z.to_nat (zlen (putint s))) with (length (putint s)) by (unfold zlen; lia).
  rewrite take_app_length, lor_shift_decode by apply wf_putint. fold (be_decode (putint s)).
  rewrite putint_be_min, be_decode_min by lia.
  destruct (Z.ltb_spec s 56); [lia|]. simpl.
  destruct (be_min_head s) as (c & l & E & Hc); [lia|]. rewrite E. simpl.
  destruct (Z.eqb_spec c 0); [done|]. done.
Qed.

(** The tag byte of a long header names the number of size bytes. *)
Lemma readKind_long_str s rest :
  56 ≤ s < 2 ^ 64 → s ≤ zlen rest → zlen rest + 9 < 2 ^ 64 →
  readKind (puthead 0x80 0xB7 s ++ rest) = Ok (String_, headsize s, s).
Proof.
  intros Hs Hr Hb. unfold puthead. destruct (Z.ltb_spec s 56); [lia|].
  pose proof (zlen_putint s). cbn [app readKind].
  unfold u8. rewrite wrap_id by (unfold in_w; lia).
  destruct (Z.ltb_spec (0xB7 + zlen (putint s)) 0x80); [lia|].
  destruct (Z.ltb_spec (0xB7 + zlen (putint s)) 0xB8); [lia|].
  destruct (Z.ltb_spec (0xB7 + zlen (putint s)) 0xC0); [|lia].
  replace (0xB7 + zlen (putint s) - 0xB7) with (zlen (putint s)) by lia.
  rewrite readSize_app by done. simpl.
  replace (zlen (_ :: _)) with (1 + zlen (putint s) + zlen rest)
    by (unfold zlen; simpl; rewrite length_app; lia).
  unfold u64. rewrite wrap_id by (unfold in_w; lia).
  destruct (Z.ltb_spec (1 + zlen (putint s) + zlen rest - (zlen (putint s) + 1)) s); [lia|].
  do 3 f_equal. unfold headsize. destruct (Z.ltb_spec s 56); [lia|].
  rewrite intsize_putint by lia. lia.
Qed.

Lemma readKind_short_str s rest :
  0 ≤ s < 56 → s ≤ zlen rest → zlen rest + 9 < 2 ^ 64 →
  (s = 1 → 128 ≤ hd 0 rest) →
  readKind (puthead 0x80 0xB7 s ++ rest) = Ok (String_, 1, s).
Proof.
  intros Hs Hr Hb Hc. unfold puthead. destruct (Z.ltb_spec s 56); [|lia].
  cbn [app readKind]. unfold u8. rewrite wrap_id by (unfold in_w; lia).
  destruct (Z.ltb_spec (0x80 + s) 0x80); [lia|].
  destruct (Z.ltb_spec (0x80 + s) 0xB8); [|lia].
  replace (0x80 + s - 0x80) with s by lia.
  assert (match rest with
          | c :: _ => if (s =? 1) && (c <? 128) then Err ErrCanonSize else Ok (String_, 1, s)
          | [] => Ok (String_, 1, s) end = @Ok rlp_error _ (String_, 1, s)) as ->.
  { destruct rest as [|c rest]; [done|]. simpl in Hc.
    destruct (Z.eqb_spec s 1), (Z.ltb_spec c 128); try done. lia. }
  simpl. replace (zlen (_ :: _)) with (1 + zlen rest) by (unfold zlen; simpl; lia).
  unfold u64. rewrite wrap_id by (unfold in_w; pose proof (zlen_nonneg rest); lia).
  destruct (Z.ltb_spec (1 + zlen rest - 1) s); [lia|done].
Qed.

Lemma readKind_list s rest :
  0 ≤ s < 2 ^ 64 → s ≤ zlen rest → zlen rest + 9 < 2 ^ 64 →
  readKind (puthead 0xC0 0xF7 s ++ rest) = Ok (List_, headsize s, s).
Proof.
  intros Hs Hr Hb. unfold puthead, headsize. destruct (Z.ltb_spec s 56) as [H|H].
  - cbn [app readKind]. unfold u8. rewrite wrap_id by (unfold in_w; lia).
    destruct (Z.ltb_spec (0xC0 + s) 0x80), (Z.ltb_spec (0xC0 + s) 0xB8),
      (Z.ltb_spec (0xC0 + s) 0xC0), (Z.ltb_spec (0xC0 + s) 0xF8); try lia.
    cbn [rbind]. replace (0xC0 + s - 0xC0) with s by lia.
    replace (zlen (_ :: _)) with (1 + zlen rest) by (unfold zlen; simpl; lia).
    unfold u64. rewrite wrap_id by (unfold in_w; pose proof (zlen_nonneg rest); lia).
    destruct (Z.ltb_spec (1 + zlen rest - 1) s); [lia|done].
  - pose proof (zlen_putint s). cbn [app readKind].
    unfold u8. rewrite wrap_id by (unfold in_w; lia).
    destruct (Z.ltb_spec (0xF7 + zlen (putint s)) 0x80),
      (Z.ltb_spec (0xF7 + zlen (putint s)) 0xB8), (Z.ltb_spec (0xF7 + zlen (putint s)) 0xC0),
      (Z.ltb_spec (0xF7 + zlen (putint s)) 0xF8); try lia.
    replace (0xF7 + zlen (putint s) - 0xF7) with (zlen (putint s)) by lia.
    rewrite readSize_app by lia. cbn [rbind].
    replace (zlen (_ :: _)) with (1 + zlen (putint s) + zlen rest)
      by (unfold zlen; simpl; rewrite length_app; lia).
    unfold u64. rewrite wrap_id by (unfold in_w; lia).
    destruct (Z.ltb_spec (1 + zlen (putint s) + zlen rest - (zlen (putint s) + 1)) s); [lia|].
    do 3 f_equal. rewrite intsize_putint by lia. lia.
Qed.

(** The kind and content that [Split] reports for an item. *)
Definition item_kind (i : item) : Kind :=
  match i with
  | Str [c] => if c <=? 0x7F then Byte else String_
  | Str _ => String_
  | Lst _ => List_
  end.
Definition item_content (i : item) : bytes :=
  match i with Str b => b | Lst l => concat (map enc l) end.

Lemma Split_head h c rest k :
  readKind (h ++ c ++ rest) = Ok (k, zlen h, zlen c) →
  Split (h ++ c ++ rest) = Ok (k, c, rest).
Proof.
  intros E. unfold Split. rewrite E. simpl. do 2 f_equal; [f_equal|].
  - by apply slice_app_mid.
  - unfold zlen. rewrite <- Nat2Z.inj_add, Nat2Z.id, app_assoc, <- length_app.
    apply drop_app_length.
Qed.

(** What [Split] sees at the start of an encoded item: its header, its content
    and everything after it. *)
Lemma readKind_enc i rest :
  match i with Str b => wf_bytes b | _ => True end →
  zlen (enc i) + zlen rest + 9 < 2 ^ 64 →
  ∃ h, enc i = h ++ item_content i ∧
    readKind (h ++ item_content i ++ rest) =
      Ok (item_kind i, zlen h, zlen (item_content i)).
Proof.
  intros Hwf Hlen. pose proof (zlen_nonneg rest).
  destruct i as [b|l]; cbn [enc item_content item_kind] in *.
  - destruct b as [|c [|d b]]; cbn [enc_str] in *.
    + exists (puthead 0x80 0xB7 0). split; [done|].
      change (Ok (String_, zlen (puthead 0x80 0xB7 0), zlen [])) with (@Ok rlp_error _ (String_, 1, 0)).
      change (1 + zlen rest + 9 < 2 ^ 64) in Hlen.
      apply readKind_short_str; cbn [app]; lia.
    + apply Forall_cons in Hwf as [Hc _]. unfold is_byte in Hc.
      destruct (Z.leb_spec c 0x7F).
      * exists []. split; [done|]. cbn [app readKind].
        destruct (Z.ltb_spec c 0x80); [|lia]. cbn [rbind].
        replace (zlen (c :: rest)) with (1 + zlen rest) by (unfold zlen; simpl; lia).
        unfold u64. rewrite wrap_id by (unfold in_w, zlen in *; simpl in *; lia).
        destruct (Z.ltb_spec (1 + zlen rest - 0) 1); [lia|done].
      * exists (puthead 0x80 0xB7 1). split; [done|].
        change (zlen (puthead 0x80 0xB7 1)) with 1. change (zlen [c]) with 1.
        rewrite zlen_app in Hlen. change (zlen (puthead 0x80 0xB7 1)) with 1 in Hlen.
        change (zlen [c]) with 1 in Hlen.
        apply readKind_short_str; cbn [app hd]; unfold zlen in *; cbn [length]; lia.
    + set (bb := c :: d :: b) in *. exists (puthead 0x80 0xB7 (zlen bb)). split; [done|].
      rewrite zlen_app in Hlen. pose proof (zlen_nonneg bb).
      assert (2 ≤ zlen bb) by (unfold bb, zlen; simpl; lia).
      pose proof (zlen_nonneg (puthead 0x80 0xB7 (zlen bb))).
      rewrite zlen_puthead by lia.
      destruct (Z.ltb_spec (zlen bb) 56) as [Hs|Hs].
      * rewrite readKind_short_str by (rewrite ?zlen_app; lia).
        unfold headsize. destruct (Z.ltb_spec (zlen bb) 56); [done|lia].
      * rewrite readKind_long_str by (rewrite ?zlen_app; lia). done.
  - exists (puthead 0xC0 0xF7 (zlen (concat (map enc l)))). split; [done|].
    set (c := concat (map enc l)) in *. rewrite zlen_app in Hlen.
    pose proof (zlen_nonneg c). pose proof (zlen_nonneg (puthead 0xC0 0xF7 (zlen c))).
    rewrite zlen_puthead by lia. by rewrite readKind_list by (rewrite ?zlen_app; lia).
Qed.

Lemma Split_enc i rest :
  match i with Str b => wf_bytes b | _ => True end →
  zlen (enc i) + zlen rest + 9 < 2 ^ 64 →
  Split (enc i ++ rest) = Ok (item_kind i, item_content i, rest).
Proof.
  intros H1 H2. destruct (readKind_enc i rest H1 H2) as (h & -> & E).
  rewrite <- app_assoc. by apply Split_head.
Qed.

(** Every value consumes at least one byte. *)
Lemma CountValues_loop_enc l fuel n :
  Forall (λ i, match i with Str b => wf_bytes b | _ => True end) l →
  zlen (concat (map enc l)) + 9 < 2 ^ 64 →
  (length (concat (map enc l)) ≤ fuel)%nat →
  CountValues_loop fuel n (concat (map enc l)) = Ok (n + zlen l).
Proof.
  intros Hwf. revert fuel n. induction Hwf as [|i l Hi Hl IH]; intros fuel n Hlen Hf.
  - simpl. destruct fuel; by rewrite Z.add_0_r.
  - cbn [map] in *. rewrite concat_cons in *. rewrite zlen_app in Hlen.
    pose proof (enc_nonempty i) as Hne.
    destruct (readKind_enc i (concat (map enc l)) Hi ltac:(lia)) as (h & E & R).
    rewrite E in Hf, Hlen, Hne |- *. rewrite <- app_assoc in Hf |- *.
    destruct (h ++ item_content i ++ concat (map enc l)) as [|c t] eqn:Eb.
    { exfalso. rewrite zlen_app in Hne. apply app_eq_nil in Eb as [-> Eb].
      apply app_eq_nil in Eb as [Eb _]. rewrite Eb in Hne. unfold zlen in Hne. simpl in Hne. lia. }
    destruct fuel as [|fuel]; [simpl in Hf; lia|]. cbn [CountValues_loop].
    rewrite R. cbn [rbind]. rewrite <- Eb in *.
    assert (drop (Z.to_nat (zlen h + zlen (item_content i))) (h ++ item_content i ++ concat (map enc l))
            = concat (map enc l)) as ->.
    { unfold zlen. rewrite <- Nat2Z.inj_add, Nat2Z.id, app_assoc, <- length_app.
      apply drop_app_length. }
    rewrite !length_app in Hf. rewrite !zlen_app in Hne, Hlen.
    rewrite IH; [f_equal; unfold zlen; simpl; lia| |]; unfold zlen in *; simpl; lia.
Qed.

Lemma AppendUint64_enc b i : is_u64 i → AppendUint64 b i = b ++ enc_str (be_min i).
Proof.
  intros Hi.
  assert (AppendUint64 b i = b ++ eb_str (encodeUint i encbuf_reset)) as ->.
  { unfold AppendUint64, encodeUint.
    destruct (i =? 0); [done|]. destruct (i <? 128); [done|].
    unfold putint. repeat (match goal with |- context [if ?a <? ?b then _ else _] => destruct (a <? b) end);
      reflexivity. }
  by rewrite encodeUint_enc.
Qed.

Lemma readSize_be_min x :
  56 ≤ x < 2 ^ 64 → readSize (be_min x) (zlen (be_min x)) = Ok x.
Proof.
  intros. rewrite <- putint_be_min by lia. rewrite <- (app_nil_r (putint x)) at 1.
  by apply readSize_app.
Qed.

(** Round trip of the raw integer helpers. *)
Lemma SplitUint64_AppendUint64 i rest :
  is_u64 i → zlen rest + 64 < 2 ^ 64 →
  SplitUint64 (AppendUint64 [] i ++ rest) = Ok (i, rest).
Proof.
  intros Hi Hr. rewrite AppendUint64_enc by done. cbn [app].
  unfold SplitUint64, SplitString.
  assert (zlen (be_min i) ≤ 8) as Hl.
  { unfold zlen, be_min. rewrite length_be_fixed. pose proof (nbytes_le i 8 Hi). lia. }
  change (enc_str (be_min i)) with (enc (Str (be_min i))).
  rewrite Split_enc; [|apply wf_be_min|].
  2: { pose proof (zlen_enc_str_le (be_min i)). cbn [enc]. lia. }
  cbn [rbind item_kind item_content].
  assert (match be_min i with [c] => if c <=? 0x7F then Byte else String_ | _ => String_ end ≠ List_).
  { repeat case_match; done. }
  destruct (match be_min i with [c] => _ | _ => _ end) eqn:Ek; try done; clear Ek H.
  all: cbn [rbind]; destruct Hi as [Hi1 Hi2]; destruct (decide (i = 0)) as [->|Hne]; [done|].
  all: destruct (be_min_head i) as (c & l & E & Hc); [lia|]; rewrite E.
  all: destruct l as [|d l].
  all: try (assert (c = i) as -> by (rewrite <- (be_decode_one c), <- E; apply be_decode_min; lia);
            destruct (Z.eqb_spec i 0); [done|done]).
  all: rewrite <- E; destruct (Z.ltb_spec 8 (zlen (be_min i))); [lia|].
  all: assert (256 ≤ i) by
    (pose proof (nbytes_min i ltac:(lia)) as Hm;
     assert (length (be_min i) = nbytes i) as El by apply length_be_fixed;
     rewrite E in El; simpl in El; rewrite <- El in Hm;
     eapply Z.le_trans; [|exact Hm]; change 256 with (256 ^ 1) at 1; apply Z.pow_le_mono_r; lia).
  all: by rewrite readSize_be_min by lia.
Qed.

(** ** Claims *)

(** [Split] takes the first item of a stream apart: its kind, its payload
    and the rest, for every encoded item and every suffix. *)
Lemma Split_of_enc i rest :
  match i with Str b => wf_bytes b | _ => True end →
  zlen (enc i) + zlen rest + 9 < 2 ^ 64 →
  Split (enc i ++ rest) = Ok (item_kind i, item_content i, rest).
Proof. apply Split_enc. Qed.

(** [SplitUint64] reads back what [AppendUint64] appended, for every
    64-bit integer and every suffix. *)
Lemma SplitUint64_roundtrip i rest :
  is_u64 i → zlen rest + 64 < 2 ^ 64 →
  SplitUint64 (AppendUint64 [] i ++ rest) = Ok (i, rest).
Proof. apply SplitUint64_AppendUint64. Qed.

End Raw.
