(* ===== verification/RlpDecode.v ===== *)
(** * RLP stream decoding (rlp/decode.go)

    [Stream] over a byte slice with an input limit, as [DecodeBytes] sets it up:
    the stack of remaining list sizes, the cached kind of the value ahead and
    its error.  A decoder is a function from a stream to a result and the
    stream it leaves, because [EOL] is caught by the slice and struct decoders
    and decoding goes on.  [gtype] selects the decoder the way [makeDecoder]
    does.  The main theorem is that decoding inverts encoding. *)
From S2P Require Import Prelude Common RlpEncode.
Import Common.Bytes Common.GoMath RlpEncode.Enc RlpEncode.Raw.

Module Dec.

(** [s_kind = None] is the unarmed state [s.kind = -1].  The head of [s_stack]
    is the innermost list. *)
Record Stream := mkStream {
  s_r : bytes;
  s_remaining : Z;
  s_limited : bool;
  s_size : Z;
  s_kinderr : option rlp_error;
  s_stack : list Z;
  s_kind : option Kind;
  s_byteval : Z
}.

Definition SM (A : Type) : Type := Stream → result rlp_error A * Stream.
Definition sret {A} (a : A) : SM A := λ s, (Ok a, s).
Definition serr {A} (e : rlp_error) : SM A := λ s, (Err e, s).
Definition sbind {A B} (m : SM A) (f : A → SM B) : SM B := λ s,
  match m s with
  | (Ok a, s') => f a s'
  | (Err e, s') => (Err e, s')
  end.
Notation "'seq!' x <- m ; k" := (sbind m (fun x => k))
  (at level 10, x pattern, m at level 100, k at level 200) : go_scope.

Definition set_kind (k : option Kind) : SM unit := λ s,
  (Ok tt, mkStream (s_r s) (s_remaining s) (s_limited s) (s_size s) (s_kinderr s)
            (s_stack s) k (s_byteval s)).
(** [s.kind = -1]. *)
Definition rearm : SM unit := set_kind None.

Definition set_size (n : Z) : SM unit := λ s,
  (Ok tt, mkStream (s_r s) (s_remaining s) (s_limited s) n (s_kinderr s)
            (s_stack s) (s_kind s) (s_byteval s)).
Definition set_stack (st : list Z) : SM unit := λ s,
  (Ok tt, mkStream (s_r s) (s_remaining s) (s_limited s) (s_size s) (s_kinderr s)
            st (s_kind s) (s_byteval s)).
Definition set_byteval (b : Z) : SM unit := λ s,
  (Ok tt, mkStream (s_r s) (s_remaining s) (s_limited s) (s_size s) (s_kinderr s)
            (s_stack s) (s_kind s) b).
Definition set_ahead (k : Kind) (n : Z) (e : option rlp_error) : SM unit := λ s,
  (Ok tt, mkStream (s_r s) (s_remaining s) (s_limited s) n e (s_stack s) (Some k) (s_byteval s)).
Definition get : SM Stream := λ s, (Ok s, s).

Definition listLimit (s : Stream) : option Z := head (s_stack s).

Definition willRead (n : Z) : SM unit := λ s0,
  let s := snd (rearm s0) in
  match s_stack s with
  | limit :: st =>
      if limit <? n then (Err ErrElemTooLarge, s)
      else
        let s := snd (set_stack (u64 (limit - n) :: st) s) in
        if s_limited s then
          if s_remaining s <? n then (Err ErrValueTooLarge, s)
          else (Ok tt, mkStream (s_r s) (s_remaining s - n) (s_limited s) (s_size s) (s_kinderr s)
                         (s_stack s) (s_kind s) (s_byteval s))
        else (Ok tt, s)
  | [] =>
      if s_limited s then
        if s_remaining s <? n then (Err ErrValueTooLarge, s)
        else (Ok tt, mkStream (s_r s) (s_remaining s - n) (s_limited s) (s_size s) (s_kinderr s)
                       (s_stack s) (s_kind s) (s_byteval s))
      else (Ok tt, s)
  end.

(** Read [n] bytes from a [bytes.Reader]. *)
Definition take_r (n : nat) : SM bytes := λ s,
  let s' := mkStream (drop n (s_r s)) (s_remaining s) (s_limited s) (s_size s) (s_kinderr s)
              (s_stack s) (s_kind s) (s_byteval s) in
  if (n <=? length (s_r s))%nat then (Ok (take n (s_r s)), s') else (Err ErrUnexpectedEOF, s').

Definition readFull (n : Z) : SM bytes := seq! _ <- willRead n; take_r (Z.to_nat n).

Definition readByte : SM Z := seq! _ <- willRead 1; seq! b <- take_r 1; sret (hd 0 b).

Definition readUint (size : Z) : SM Z :=
  if size =? 0 then seq! _ <- rearm; sret 0
  else if size =? 1 then readByte
  else seq! b <- readFull size;
       if hd 0 b =? 0 then serr ErrCanonSize else sret (be_decode b).

(** [readKind] returns the kind and size with the error; a failing size read
    still reports the kind. *)
Definition readKind_s : Stream → Kind * Z * option rlp_error * Stream := λ s,
  match readByte s with
  | (Err e, s') =>
      let e := match s_stack s', e with
               | [], ErrUnexpectedEOF | [], ErrValueTooLarge => EOF
               | _, _ => e
               end in
      (Byte, 0, Some e, s')
  | (Ok b, s') =>
      let s' := snd (set_byteval 0 s') in
      let sized (k : Kind) (r : result rlp_error Z * Stream) :=
        match r with
        | (Err e, s'') => (k, 0, Some e, s'')
        | (Ok size, s'') => (k, size, if size <? 56 then Some ErrCanonSize else None, s'')
        end in
      if b <? 0x80 then (Byte, 0, None, snd (set_byteval b s'))
      else if b <? 0xB8 then (String_, b - 0x80, None, s')
      else if b <? 0xC0 then sized String_ (readUint (b - 0xB7) s')
      else if b <? 0xF8 then (List_, b - 0xC0, None, s')
      else sized List_ (readUint (b - 0xF7) s')
  end.

Definition Kind_ : SM (Kind * Z) := λ s,
  match s_kind s with
  | Some k => (match s_kinderr s with Some e => Err e | None => Ok (k, s_size s) end, s)
  | None =>
      match listLimit s with
      | Some 0 => (Err EOL, s)
      | lim =>
          let '(k, size, err, s1) := readKind_s s in
          let err :=
            match err with
            | Some e => Some e
            | None =>
                if match lim with Some l => l <? size | None => false end then Some ErrElemTooLarge
                else if s_limited s1 && (s_remaining s1 <? size) then Some ErrValueTooLarge
                else None
            end in
          let s2 := snd (set_ahead k size err s1) in
          (match err with Some e => Err e | None => Ok (k, size) end, s2)
      end
  end.

Definition Bytes_ : SM bytes :=
  seq! (kind, size) <- Kind_;
  match kind with
  | Byte => seq! s <- get; seq! _ <- rearm; sret [s_byteval s]
  | String_ =>
      seq! b <- readFull size;
      if (size =? 1) && (hd 0 b <? 128) then serr ErrCanonSize else sret b
  | List_ => serr ErrExpectedString
  end.

Definition uint (maxbits : Z) : SM Z :=
  seq! (kind, size) <- Kind_;
  match kind with
  | Byte => seq! s <- get;
            if s_byteval s =? 0 then serr ErrCanonInt
            else seq! _ <- rearm; sret (s_byteval s)
  | String_ =>
      if maxbits / 8 <? size then serr errUintOverflow
      else λ s,
        match readUint size s with
        | (Err ErrCanonSize, s') => (Err ErrCanonInt, s')
        | (Err e, s') => (Err e, s')
        | (Ok v, s') => if (0 <? size) && (v <? 128) then (Err ErrCanonSize, s') else (Ok v, s')
        end
  | List_ => serr ErrExpectedString
  end.

Definition Bool_ : SM bool :=
  seq! num <- uint 8;
  if num =? 0 then sret false
  else if num =? 1 then sret true
  else serr (decodeError "rlp: invalid boolean value").

Definition List__ : SM Z :=
  seq! (kind, size) <- Kind_;
  match kind with
  | List_ =>
      seq! s <- get;
      seq! _ <- match s_stack s with
           | limit :: st => set_stack (size :: u64 (limit - size) :: st)
           | [] => set_stack [size]
           end;
      seq! _ <- rearm; seq! _ <- set_size 0; sret size
  | _ => serr ErrExpectedList
  end.

Definition ListEnd : SM unit :=
  seq! s <- get;
  match s_stack s with
  | [] => serr errNotInList
  | limit :: st =>
      if 0 <? limit then serr errNotAtEOL
      else seq! _ <- set_stack st; seq! _ <- rearm; set_size 0
  end.

Definition wrapStreamError (e : rlp_error) : rlp_error :=
  match e with
  | ErrCanonInt => decodeError "non-canonical integer (leading zero bytes)"
  | ErrCanonSize => decodeError "non-canonical size information"
  | ErrExpectedList => decodeError "expected input list"
  | ErrExpectedString => decodeError "expected input string or byte"
  | errUintOverflow => decodeError "input string too long"
  | errNotAtEOL => decodeError "input list has too many elements"
  | e => e
  end.
Definition wrapped {A} (m : SM A) : SM A := λ s,
  match m s with (Err e, s') => (Err (wrapStreamError e), s') | r => r end.

Definition decodeBigInt : SM Z := wrapped (
  seq! (kind, size) <- Kind_;
  seq! buffer <- match kind with
            | List_ => serr ErrExpectedString
            | Byte => seq! s <- get; seq! _ <- rearm; sret [s_byteval s]
            | String_ =>
                if size =? 0 then seq! _ <- rearm; sret []
                else if size <=? 32 then
                  seq! b <- readFull size;
                  if (size =? 1) && (hd 0 b <? 128) then serr ErrCanonSize else sret b
                else readFull size
            end;
  match buffer with
  | 0 :: _ => serr ErrCanonInt
  | _ => sret (be_decode buffer)
  end).

Definition decodeByteArray (n : nat) : SM bytes :=
  seq! (kind, size) <- Kind_;
  match kind with
  | Byte =>
      match n with
      | 1%nat => seq! s <- get; seq! _ <- rearm; sret [s_byteval s]
      | O => serr (decodeError "input string too long")
      | _ => serr (decodeError "input string too short")
      end
  | String_ =>
      if Z.of_nat n <? size then serr (decodeError "input string too long")
      else if size <? Z.of_nat n then serr (decodeError "input string too short")
      else seq! b <- readFull (Z.of_nat n);
           if (size =? 1) && (hd 0 b <? 128) then serr (wrapStreamError ErrCanonSize) else sret b
  | List_ => serr (wrapStreamError ErrExpectedString)
  end.

(** [decodeSliceElems]: until the element decoder reports [EOL]. *)
Fixpoint decodeSliceElems {A} (fuel : nat) (elemdec : SM A) : SM (list A) := λ s,
  match elemdec s with
  | (Err EOL, s') => (Ok [], s')
  | (Err e, s') => (Err e, s')
  | (Ok a, s') =>
      match fuel with
      | O => (Ok [a], s')
      | S f => (seq! l <- decodeSliceElems f elemdec; sret (a :: l)) s'
      end
  end.

(** Every element takes at least one byte of the list, so a list of [size]
    bytes has at most [size] elements. *)
Definition decodeListSlice {A} (elemdec : SM A) : SM (list A) :=
  seq! size <- wrapped List__;
  if size =? 0 then seq! _ <- ListEnd; sret []
  else seq! l <- decodeSliceElems (Z.to_nat size) elemdec;
       seq! _ <- ListEnd; sret l.

(** [makeNilPtrDecoder]: an empty value of the right kind is nil, anything
    else is decoded into the element type. *)
Definition makeNilPtrDecoder {A} (etype_decoder : SM A) (nilList : bool) : SM (option A) :=
  seq! (kind, size) <- wrapped Kind_;
  match kind with
  | Byte => seq! v <- etype_decoder; sret (Some v)
  | _ =>
      if size =? 0 then
        if Bool.eqb (match kind with List_ => true | _ => false end) nilList
        then seq! _ <- rearm; sret None
        else serr (decodeError "wrong kind of empty value")
      else seq! v <- etype_decoder; sret (Some v)
  end.

(** The Go types that occur: unsigned integers of a width, booleans,
    [*big.Int], byte slices and arrays, slices, structs without optional
    fields, pointers with the struct tag [nil]. *)
Inductive gtype :=
| TUint (bits : Z)
| TBool
| TBig
| TBytes
| TArray (n : nat)
| TSlice (t : gtype)
| TStruct (ts : list gtype)
| TPtr (nilList : bool) (t : gtype).

Fixpoint decode (t : gtype) : SM gval :=
  match t with
  | TUint bits => seq! n <- wrapped (uint bits); sret (VUint n)
  | TBool => seq! b <- wrapped Bool_; sret (VBool b)
  | TBig => seq! i <- decodeBigInt; sret (VBig (Some i))
  | TBytes => seq! b <- wrapped Bytes_; sret (VBytes b)
  | TArray n => seq! b <- decodeByteArray n; sret (VArray b)
  | TSlice t => seq! l <- decodeListSlice (decode t); sret (VList l)
  | TStruct ts =>
      seq! _ <- wrapped List__;
      seq! l <- (fix fields (ts : list gtype) : SM (list gval) :=
              match ts with
              | [] => sret []
              | t :: ts' => λ s,
                  match decode t s with
                  | (Err EOL, s') => (Err (decodeError "too few elements"), s')
                  | (Err e, s') => (Err e, s')
                  | (Ok v, s') => (seq! l <- fields ts'; sret (v :: l)) s'
                  end
              end) ts;
      seq! _ <- wrapped ListEnd; sret (VList l)
  | TPtr nilList t => seq! p <- makeNilPtrDecoder (decode t) nilList; sret (VPtr nilList p)
  end.

Fixpoint fields (ts : list gtype) : SM (list gval) :=
  match ts with
  | [] => sret []
  | t :: ts' => λ s,
      match decode t s with
      | (Err EOL, s') => (Err (decodeError "too few elements"), s')
      | (Err e, s') => (Err e, s')
      | (Ok v, s') => (seq! l <- fields ts'; sret (v :: l)) s'
      end
  end.

(** [stream.Reset(r, uint64(len(b)))] on a [bytes.Reader]. *)
Definition Reset (b : bytes) : Stream := mkStream b (zlen b) true 0 None [] None 0.

Definition DecodeBytes (t : gtype) (b : bytes) : result rlp_error gval :=
  match decode t (Reset b) with
  | (Err e, _) => Err e
  | (Ok v, s) => match s_r s with [] => Ok v | _ => Err ErrMoreThanOneValue end
  end.

(** The value of a pointer must not look like nil. *)
Definition item_empty (i : item) : bool :=
  match i with Str [] | Lst [] => true | _ => false end.

(** Values of a type, as the encoder can represent them. *)
Fixpoint has_type (t : gtype) (v : gval) {struct t} : bool :=
  match t, v with
  | TUint bits, VUint n => (0 <=? n) && (n <? 2 ^ bits) && ((bits =? 8) || (bits =? 64))
  | TBool, VBool _ => true
  | TBig, VBig (Some i) => 0 <=? i
  | TBytes, VBytes b => bool_decide (wf_bytes b)
  | TArray n, VArray b => bool_decide (wf_bytes b) && (length b =? n)%nat
  | TSlice t, VList l => forallb (has_type t) l
  | TStruct ts, VList l =>
      (fix go (ts : list gtype) (l : list gval) : bool :=
         match ts, l with
         | [], [] => true
         | t :: ts', v :: l' => has_type t v && go ts' l'
         | _, _ => false
         end) ts l
  | TPtr nilList _, VPtr nilList' None => Bool.eqb nilList nilList'
  | TPtr nilList t, VPtr nilList' (Some v) =>
      Bool.eqb nilList nilList' && has_type t v && negb (item_empty (item_of v))
  | _, _ => false
  end.

Example decode_ex :
  DecodeBytes (TStruct [TUint 64; TBytes; TSlice (TUint 8)])
    (match EncodeToBytes (VList [VUint 1025; VBytes [1;2;3]; VList [VUint 7; VUint 200]]) with
     | Ok b => b | Err _ => [] end)
  = Ok (VList [VUint 1025; VBytes [1;2;3]; VList [VUint 7; VUint 200]]).
Proof. reflexivity. Qed.

(** ** The stream while it reads what the encoder wrote *)

Definition room (n : Z) (stk : list Z) : Prop :=
  match stk with [] => True | l :: _ => n ≤ l < 2 ^ 64 end.
Definition consume (n : Z) (stk : list Z) : list Z :=
  match stk with [] => [] | l :: st => (l - n) :: st end.

Lemma room_le m n stk : m ≤ n → room n stk → room m stk.
Proof. destruct stk; simpl; [done|lia]. Qed.
Lemma room_consume m n stk : 0 ≤ m → room (m + n) stk → room n (consume m stk).
Proof. destruct stk; simpl; [done|lia]. Qed.
Lemma consume_consume m n stk : consume n (consume m stk) = consume (m + n) stk.
Proof. destruct stk; simpl; [done|f_equal; lia]. Qed.

Lemma willRead_ok n r rem sz ke stk k bv :
  0 ≤ n ≤ rem → room n stk →
  willRead n (mkStream r rem true sz ke stk k bv) =
  (Ok tt, mkStream r (rem - n) true sz ke (consume n stk) None bv).
Proof.
  intros Hn Hr. unfold willRead. simpl. destruct stk as [|l st]; simpl in *.
  - by destruct (Z.ltb_spec rem n); [lia|].
  - destruct (Z.ltb_spec l n); [lia|]. simpl. destruct (Z.ltb_spec rem n); [lia|].
    unfold u64. by rewrite wrap_id by (unfold in_w; lia).
Qed.

Lemma readFull_ok n b rest rem sz ke stk k bv :
  n = zlen b → n ≤ rem → room n stk →
  readFull n (mkStream (b ++ rest) rem true sz ke stk k bv) =
  (Ok b, mkStream rest (rem - n) true sz ke (consume n stk) None bv).
Proof.
  intros -> Hn Hr. pose proof (zlen_nonneg b). unfold readFull, sbind.
  rewrite willRead_ok by done. unfold take_r. simpl. unfold zlen. rewrite Nat2Z.id.
  rewrite length_app. destruct (Nat.leb_spec (length b) (length b + length rest)); [|lia].
  by rewrite take_app_length, drop_app_length.
Qed.

Lemma readByte_ok c rest rem sz ke stk k bv :
  1 ≤ rem → room 1 stk →
  readByte (mkStream (c :: rest) rem true sz ke stk k bv) =
  (Ok c, mkStream rest (rem - 1) true sz ke (consume 1 stk) None bv).
Proof.
  intros. unfold readByte, sbind. by rewrite willRead_ok by (done || lia).
Qed.

Lemma readUint_be_min n rest rem sz ke stk k bv :
  0 < n → zlen (be_min n) ≤ rem → room (zlen (be_min n)) stk →
  readUint (zlen (be_min n)) (mkStream (be_min n ++ rest) rem true sz ke stk k bv) =
  (Ok n, mkStream rest (rem - zlen (be_min n)) true sz ke (consume (zlen (be_min n)) stk) None bv).
Proof.
  intros Hn Hrem Hroom. destruct (be_min_head n Hn) as (c & l & E & Hc).
  unfold readUint. destruct (Z.eqb_spec (zlen (be_min n)) 0) as [E0|].
  { rewrite E in E0. unfold zlen in E0. simpl in E0. lia. }
  destruct (Z.eqb_spec (zlen (be_min n)) 1) as [E1|].
  - rewrite E in *. destruct l; [|unfold zlen in E1; simpl in E1; lia].
    cbn [app]. rewrite readByte_ok by (unfold zlen in *; simpl in *; done || lia).
    do 2 f_equal. rewrite <- (be_decode_one c), <- E. apply be_decode_min. lia.
  - unfold sbind. rewrite readFull_ok by done.
    assert ((hd 0 (be_min n) =? 0) = false) as -> by (rewrite E; by apply Z.eqb_neq).
    by rewrite be_decode_min by lia.
Qed.

(** A long header: tag byte, then the size. *)
Lemma readKind_s_long tag n rest rem sz ke stk k bv kd :
  56 ≤ n < 2 ^ 64 → (tag = 0xB7 ∧ kd = String_ ∨ tag = 0xF7 ∧ kd = List_) →
  1 + zlen (putint n) ≤ rem → room (1 + zlen (putint n)) stk →
  readKind_s (mkStream (u8 (tag + zlen (putint n)) :: putint n ++ rest) rem true sz ke stk k bv) =
  (kd, n, None, mkStream rest (rem - (1 + zlen (putint n))) true sz ke
                  (consume (1 + zlen (putint n)) stk) None 0).
Proof.
  intros Hn Htag Hrem Hroom. pose proof (zlen_putint n) as Hp.
  unfold readKind_s. rewrite readByte_ok by (lia || (eapply room_le; [|done]; lia)).
  unfold u8. rewrite wrap_id by (unfold in_w; lia). cbn [set_byteval snd].
  rewrite putint_be_min in * by lia.
  assert (readUint (zlen (be_min n))
    (mkStream (be_min n ++ rest) (rem - 1) true sz ke (consume 1 stk) None 0) =
    (Ok n, mkStream rest (rem - (1 + zlen (be_min n))) true sz ke
             (consume (1 + zlen (be_min n)) stk) None 0)) as ER.
  { rewrite readUint_be_min; [|lia|lia|apply room_consume; (done || lia)].
    rewrite consume_consume. do 2 f_equal. lia. }
  destruct Htag as [[-> ->]|[-> ->]]; cbn [s_r s_remaining s_limited s_size s_kinderr s_stack s_kind].
  - destruct (Z.ltb_spec (0xB7 + zlen (be_min n)) 0x80), (Z.ltb_spec (0xB7 + zlen (be_min n)) 0xB8),
      (Z.ltb_spec (0xB7 + zlen (be_min n)) 0xC0); try lia.
    replace (0xB7 + zlen (be_min n) - 0xB7) with (zlen (be_min n)) by lia.
    rewrite ER. by destruct (Z.ltb_spec n 56); [lia|].
  - destruct (Z.ltb_spec (0xF7 + zlen (be_min n)) 0x80), (Z.ltb_spec (0xF7 + zlen (be_min n)) 0xB8),
      (Z.ltb_spec (0xF7 + zlen (be_min n)) 0xC0), (Z.ltb_spec (0xF7 + zlen (be_min n)) 0xF8); try lia.
    replace (0xF7 + zlen (be_min n) - 0xF7) with (zlen (be_min n)) by lia.
    rewrite ER. by destruct (Z.ltb_spec n 56); [lia|].
Qed.

Definition tags (kd : Kind) : Z * Z :=
  match kd with List_ => (0xC0, 0xF7) | _ => (0x80, 0xB7) end.

Lemma readKind_s_head kd n rest rem sz ke stk k bv :
  kd ≠ Byte → 0 ≤ n < 2 ^ 64 → headsize n ≤ rem → room (headsize n) stk →
  readKind_s (mkStream (puthead (fst (tags kd)) (snd (tags kd)) n ++ rest) rem true sz ke stk k bv) =
  (kd, n, None, mkStream rest (rem - headsize n) true sz ke (consume (headsize n) stk) None 0).
Proof.
  intros Hk Hn. unfold puthead, headsize. destruct (Z.ltb_spec n 56); intros Hrem Hroom.
  - cbn [app]. unfold readKind_s. rewrite readByte_ok by (done || lia).
    unfold u8. rewrite wrap_id by (unfold in_w; destruct kd; simpl; lia).
    cbn [set_byteval snd s_r s_remaining s_limited s_size s_kinderr s_stack s_kind].
    destruct kd; [done|..]; cbn [tags fst snd].
    + destruct (Z.ltb_spec (0x80 + n) 0x80), (Z.ltb_spec (0x80 + n) 0xB8); try lia.
      do 4 f_equal. lia.
    + destruct (Z.ltb_spec (0xC0 + n) 0x80), (Z.ltb_spec (0xC0 + n) 0xB8),
        (Z.ltb_spec (0xC0 + n) 0xC0), (Z.ltb_spec (0xC0 + n) 0xF8); try lia.
      do 4 f_equal. lia.
  - rewrite intsize_putint in * by lia. cbn [app].
    apply readKind_s_long; try lia; [|done]. destruct kd; [done|left|right]; done.
Qed.

(** [Kind] at a value that is not a single byte. *)
Lemma Kind_head kd n rest rem sz ke stk bv :
  kd ≠ Byte → 0 ≤ n < 2 ^ 64 → headsize n + n ≤ rem → room (headsize n + n) stk →
  Kind_ (mkStream (puthead (fst (tags kd)) (snd (tags kd)) n ++ rest) rem true sz ke stk None bv) =
  (Ok (kd, n), mkStream rest (rem - headsize n) true n None (consume (headsize n) stk) (Some kd) 0).
Proof.
  intros Hk Hn Hrem Hroom. unfold Kind_, listLimit. cbn [s_kind s_stack].
  assert (1 ≤ headsize n).
  { rewrite <- (zlen_puthead 0x80 0xB7) by done. apply zlen_puthead_le. }
  assert (head stk ≠ Some 0) as Hz by (destruct stk; simpl in *; [done|]; intros [=]; lia).
  assert (room (headsize n) stk) by (eapply room_le; [|done]; lia).
  rewrite readKind_s_head by (done || lia).
  cbn [set_ahead snd s_r s_remaining s_limited s_size s_kinderr s_stack s_kind s_byteval].
  assert (match head stk with Some l => l <? n | None => false end = false) as E.
  { destruct stk as [|l st]; simpl in *; [done|]. apply Z.ltb_ge. lia. }
  assert (true && (rem - headsize n <? n) = false) as E2 by (simpl; apply Z.ltb_ge; lia).
  destruct (head stk) as [[|p|p]|]; try done; cbv beta iota zeta; rewrite ?E, E2; done.
Qed.

Lemma Kind_byte c rest rem sz ke stk bv :
  0 ≤ c < 0x80 → 1 ≤ rem → room 1 stk →
  Kind_ (mkStream (c :: rest) rem true sz ke stk None bv) =
  (Ok (Byte, 0), mkStream rest (rem - 1) true 0 None (consume 1 stk) (Some Byte) c).
Proof.
  intros Hc Hrem Hroom. unfold Kind_, listLimit. cbn [s_kind s_stack].
  assert (head stk ≠ Some 0) as Hz by (destruct stk; simpl in *; [done|]; intros [=]; lia).
  assert (readKind_s (mkStream (c :: rest) rem true sz ke stk None bv) =
    (Byte, 0, None, mkStream rest (rem - 1) true sz ke (consume 1 stk) None c)) as E.
  { unfold readKind_s. rewrite readByte_ok by done. by destruct (Z.ltb_spec c 0x80); [|lia]. }
  rewrite E.
  assert (match head stk with Some l => l <? 0 | None => false end = false) as El.
  { destruct stk as [|l st]; simpl in *; [done|]. apply Z.ltb_ge. lia. }
  assert (true && (rem - 1 <? 0) = false) as E2 by (simpl; apply Z.ltb_ge; lia).
  destruct (head stk) as [[|p|p]|]; try done; cbv beta iota zeta;
    cbn [s_limited s_remaining]; rewrite ?El, E2; done.
Qed.

Lemma Kind_EOL r rem sz ke st bv :
  Kind_ (mkStream r rem true sz ke (0 :: st) None bv) =
  (Err EOL, mkStream r rem true sz ke (0 :: st) None bv).
Proof. done. Qed.

(** ** Decoders invert writers *)

(** [m] reads exactly the bytes [e] and returns [a], whatever follows. *)
Definition reads {A} (m : SM A) (e : bytes) (a : A) : Prop :=
  ∀ rest rem sz ke stk bv, zlen e ≤ rem < 2 ^ 64 → room (zlen e) stk →
  ∃ sz' ke' bv',
    m (mkStream (e ++ rest) rem true sz ke stk None bv) =
    (Ok a, mkStream rest (rem - zlen e) true sz' ke' (consume (zlen e) stk) None bv').

Lemma reads_map {A B} (m : SM A) (f : A → B) e a :
  reads m e a → reads (seq! x <- m; sret (f x)) e (f a).
Proof.
  intros H rest rem sz ke stk bv H1 H2.
  destruct (H rest rem sz ke stk bv H1 H2) as (sz' & ke' & bv' & E).
  exists sz', ke', bv'. unfold sbind. by rewrite E.
Qed.

Lemma reads_wrapped {A} (m : SM A) e a : reads m e a → reads (wrapped m) e a.
Proof.
  intros H rest rem sz ke stk bv H1 H2.
  destruct (H rest rem sz ke stk bv H1 H2) as (sz' & ke' & bv' & E).
  exists sz', ke', bv'. unfold wrapped. by rewrite E.
Qed.

Lemma enc_str_cases b :
  wf_bytes b →
  (∃ c, b = [c] ∧ 0 ≤ c < 0x80 ∧ enc_str b = [c]) ∨
  (enc_str b = puthead 0x80 0xB7 (zlen b) ++ b ∧ (zlen b = 1 → 128 ≤ hd 0 b)).
Proof.
  intros Hwf. destruct b as [|c [|d b]].
  - right. done.
  - apply Forall_cons in Hwf as [Hc _]. unfold is_byte in Hc.
    cbn [enc_str]. destruct (Z.leb_spec c 0x7F).
    + left. exists c. split; [done|]. split; [lia|done].
    + right. split; [done|]. simpl. lia.
  - right. split; [done|]. unfold zlen. simpl. lia.
Qed.

(** The two ways a string is read: from the tag byte, or [Kind] and then the
    content. *)
Lemma reads_str {A} (f : Kind * Z → SM A) b a :
  wf_bytes b →
  (∀ c rest rem sz ke stk, b = [c] → 0 ≤ c < 0x80 → ∃ sz' ke' bv',
     f (Byte, 0) (mkStream rest rem true sz ke stk (Some Byte) c) =
     (Ok a, mkStream rest rem true sz' ke' stk None bv')) →
  (∀ rest rem sz ke stk, (zlen b = 1 → 128 ≤ hd 0 b) → zlen b ≤ rem → room (zlen b) stk →
     ∃ sz' ke' bv',
     f (String_, zlen b) (mkStream (b ++ rest) rem true sz ke stk (Some String_) 0) =
     (Ok a, mkStream rest (rem - zlen b) true sz' ke' (consume (zlen b) stk) None bv')) →
  reads (sbind Kind_ f) (enc_str b) a.
Proof.
  intros Hwf HB HS rest rem sz ke stk bv Hrem Hroom. unfold sbind.
  destruct (enc_str_cases b Hwf) as [(c & Eb & Hc & E)|[E Hone]]; rewrite E in *.
  - change (zlen [c]) with 1 in *. cbn [app]. rewrite Kind_byte by (done || lia).
    by apply HB.
  - rewrite zlen_app in Hrem, Hroom.
    assert (0 ≤ zlen b < 2 ^ 64) as Hb.
    { pose proof (zlen_nonneg b). pose proof (zlen_puthead_le 0x80 0xB7 (zlen b)). lia. }
    rewrite zlen_puthead in Hrem, Hroom by done.
    rewrite <- app_assoc. change 0x80 with (fst (tags String_)) at 1.
    change 0xB7 with (snd (tags String_)).
    assert (1 ≤ headsize (zlen b)).
    { rewrite <- (zlen_puthead 0x80 0xB7) by lia. apply zlen_puthead_le. }
    rewrite Kind_head by (done || lia).
    destruct (HS rest (rem - headsize (zlen b)) (zlen b) None (consume (headsize (zlen b)) stk))
      as (sz' & ke' & bv' & ES); [done|lia|apply room_consume; (done || lia)|].
    exists sz', ke', bv'. rewrite ES. rewrite consume_consume, zlen_app, zlen_puthead by lia.
    do 2 f_equal. lia.
Qed.

Lemma not_canon_one b : (zlen b = 1 → 128 ≤ hd 0 b) → (zlen b =? 1) && (hd 0 b <? 128) = false.
Proof.
  intros H. destruct (Z.eqb_spec (zlen b) 1); [|done]. simpl. apply Z.ltb_ge. auto.
Qed.

Lemma reads_Bytes b : wf_bytes b → reads Bytes_ (enc_str b) b.
Proof.
  intros Hwf. apply reads_str; [done|..].
  - intros c rest rem sz ke stk -> Hc. by exists sz, ke, c.
  - intros rest rem sz ke stk H1 H2 H3. exists sz, ke, 0. unfold sbind.
    rewrite readFull_ok by done. by rewrite not_canon_one.
Qed.

Lemma be_min_not_small n :
  0 ≤ n → (zlen (be_min n) = 1 → 128 ≤ hd 0 (be_min n)) → 0 < zlen (be_min n) → 128 ≤ n.
Proof.
  intros Hn H1 Hl. destruct (decide (n = 0)) as [->|]; [by vm_compute in Hl|].
  destruct (Z.lt_ge_cases n 256) as [Hs|]; [|lia].
  rewrite be_min_small in H1 by lia. apply H1. done.
Qed.

Lemma zlen_be_min_0 n : 0 ≤ n → zlen (be_min n) = 0 → n = 0.
Proof.
  intros Hn H. destruct (be_min n) as [|? ?] eqn:E; [|unfold zlen in H; simpl in H; lia].
  rewrite <- (be_decode_min n), E by done. done.
Qed.

Lemma zlen_be_min_bits n bits :
  bits = 8 ∨ bits = 64 → 0 ≤ n < 2 ^ bits → zlen (be_min n) ≤ bits / 8.
Proof.
  intros Hb Hn. unfold zlen, be_min. rewrite length_be_fixed.
  destruct Hb as [-> | ->].
  - change (8 / 8) with 1. pose proof (nbytes_le n 1 Hn). lia.
  - change (64 / 8) with 8. pose proof (nbytes_le n 8 Hn). lia.
Qed.

Lemma reads_uint bits n :
  bits = 8 ∨ bits = 64 → 0 ≤ n < 2 ^ bits → reads (uint bits) (enc_str (be_min n)) n.
Proof.
  intros Hb Hn. apply reads_str; [apply wf_be_min|..].
  - intros c rest rem sz ke stk E Hc. exists sz, ke, c. unfold sbind, get. simpl.
    assert (c = n) as -> by (rewrite <- (be_decode_one c), <- E; apply be_decode_min; lia).
    destruct (Z.eqb_spec n 0) as [->|]; [done|done].
  - intros rest rem sz ke stk H1 H2 H3.
    destruct (Z.ltb_spec (bits / 8) (zlen (be_min n))) as [Hlt|_].
    { pose proof (zlen_be_min_bits n bits Hb Hn). lia. }
    destruct (decide (n = 0)) as [->|Hne].
    + change (be_min 0) with (@nil Z) in *. exists sz, ke, 0. simpl.
      rewrite Z.sub_0_r. destruct stk as [|l st]; simpl; [done|]. by rewrite Z.sub_0_r.
    + rewrite readUint_be_min by (done || lia). exists sz, ke, 0.
      destruct (Z.ltb_spec 0 (zlen (be_min n))) as [Hp|]; [|done].
      pose proof (be_min_not_small n ltac:(lia) H1 Hp).
      by destruct (Z.ltb_spec n 128); [lia|].
Qed.

Lemma reads_Bool (b : bool) : reads Bool_ (enc_str (if b then [1] else [])) b.
Proof.
  assert (reads (uint 8) (enc_str (if b then [1] else [])) (if b then 1 else 0)) as H.
  { replace (if b then [1] else []) with (be_min (if b then 1 else 0)) by (by destruct b).
    apply reads_uint; [by left|destruct b; lia]. }
  intros rest rem sz ke stk bv H1 H2.
  destruct (H rest rem sz ke stk bv H1 H2) as (sz' & ke' & bv' & E).
  exists sz', ke', bv'. unfold Bool_, sbind. rewrite E. by destruct b.
Qed.

Lemma reads_BigInt i : 0 ≤ i → reads decodeBigInt (enc_str (be_min i)) i.
Proof.
  intros Hi. apply reads_wrapped, reads_str; [apply wf_be_min|..].
  - intros c rest rem sz ke stk E Hc. exists sz, ke, c. unfold sbind. simpl.
    assert (c = i) as -> by (rewrite <- (be_decode_one c), <- E; apply be_decode_min; lia).
    destruct i as [|p|p]; [by vm_compute in E|done|lia].
  - intros rest rem sz ke stk H1 H2 H3. exists sz, ke, 0.
    assert (match be_min i with 0 :: _ => serr ErrCanonInt | _ => sret (be_decode (be_min i)) end
            = sret i) as EF.
    { rewrite be_decode_min by done. destruct (decide (i = 0)) as [->|]; [done|].
      destruct (be_min_head i) as (c & l & -> & Hc); [lia|]. by destruct c. }
    unfold sbind. destruct (Z.eqb_spec (zlen (be_min i)) 0) as [E0|E0].
    + assert (i = 0) as -> by (by apply zlen_be_min_0). simpl.
      rewrite Z.sub_0_r. destruct stk as [|l st]; simpl; [done|]. by rewrite Z.sub_0_r.
    + destruct (Z.leb_spec (zlen (be_min i)) 32); rewrite readFull_ok by done.
      * rewrite not_canon_one by done. unfold sret at 1. cbv beta iota. by rewrite EF.
      * by rewrite EF.
Qed.

Lemma reads_ByteArray b : wf_bytes b → reads (decodeByteArray (length b)) (enc_str b) b.
Proof.
  intros Hwf. apply reads_str; [done|..].
  - intros c rest rem sz ke stk -> Hc. by exists sz, ke, c.
  - intros rest rem sz ke stk H1 H2 H3. exists sz, ke, 0.
    fold (zlen b). rewrite Z.ltb_irrefl. unfold sbind.
    rewrite readFull_ok by done. by rewrite not_canon_one.
Qed.

(** Opening and closing a list around a reader of its content. *)
Lemma List_ok n rest rem sz ke stk bv :
  0 ≤ n < 2 ^ 64 → headsize n + n ≤ rem < 2 ^ 64 → room (headsize n + n) stk →
  ∃ ke' bv',
  List__ (mkStream (puthead 0xC0 0xF7 n ++ rest) rem true sz ke stk None bv) =
  (Ok n, mkStream rest (rem - headsize n) true 0 ke' (n :: consume (headsize n + n) stk) None bv').
Proof.
  intros Hn Hrem Hroom. exists None, 0. unfold List__, sbind.
  change 0xC0 with (fst (tags List_)) at 1. change 0xF7 with (snd (tags List_)).
  assert (1 ≤ headsize n).
  { rewrite <- (zlen_puthead 0x80 0xB7) by lia. apply zlen_puthead_le. }
  rewrite Kind_head by (done || lia). cbn [get s_stack].
  destruct stk as [|l st]; simpl in *; [done|].
  unfold u64. rewrite wrap_id by (unfold in_w; lia). do 4 f_equal. lia.
Qed.

Lemma ListEnd_ok r rem sz ke st bv :
  ∃ sz', ListEnd (mkStream r rem true sz ke (0 :: st) None bv) =
  (Ok tt, mkStream r rem true sz' ke st None bv).
Proof. by exists 0. Qed.

Lemma decode_EOL t r rem sz ke st bv :
  decode t (mkStream r rem true sz ke (0 :: st) None bv) =
  (Err EOL, mkStream r rem true sz ke (0 :: st) None bv).
Proof. by destruct t. Qed.

(** The slice loop reads element after element until the list is used up. *)
Lemma decodeSliceElems_ok t vs :
  Forall (λ v, reads (decode t) (enc (item_of v)) v) vs →
  ∀ fuel rest rem sz ke st bv,
  (length vs ≤ fuel)%nat →
  zlen (concat (map enc (map item_of vs))) ≤ rem < 2 ^ 64 →
  ∃ sz' ke' bv',
  decodeSliceElems fuel (decode t)
    (mkStream (concat (map enc (map item_of vs)) ++ rest) rem true sz ke
       (zlen (concat (map enc (map item_of vs))) :: st) None bv) =
  (Ok vs, mkStream rest (rem - zlen (concat (map enc (map item_of vs)))) true sz' ke' (0 :: st) None bv').
Proof.
  induction 1 as [|v vs Hv Hvs IH]; intros fuel rest rem sz ke st bv Hf Hrem.
  - exists sz, ke, bv. simpl. change (zlen []) with 0. rewrite Z.sub_0_r.
    destruct fuel; simpl; rewrite decode_EOL; done.
  - cbn [map] in *. rewrite !concat_cons in *. rewrite !zlen_app in *.
    set (c := concat (map enc (map item_of vs))) in *.
    pose proof (zlen_nonneg c). pose proof (zlen_nonneg (enc (item_of v))).
    destruct fuel as [|fuel]; [simpl in Hf; lia|]. cbn [decodeSliceElems].
    rewrite <- app_assoc.
    destruct (Hv (c ++ rest) rem sz ke ((zlen (enc (item_of v)) + zlen c) :: st) bv)
      as (sz1 & ke1 & bv1 & E1); [lia|simpl; lia|].
    rewrite E1. cbn [consume].
    replace (zlen (enc (item_of v)) + zlen c - zlen (enc (item_of v))) with (zlen c) by lia.
    destruct (IH fuel rest (rem - zlen (enc (item_of v))) sz1 ke1 st bv1)
      as (sz2 & ke2 & bv2 & E2); [simpl in Hf; lia|lia|].
    exists sz2, ke2, bv2. unfold sbind. rewrite E2. unfold sret. do 2 f_equal. lia.
Qed.

Lemma length_le_enc vs : (length vs ≤ Z.to_nat (zlen (concat (map enc (map item_of vs)))))%nat.
Proof.
  induction vs as [|v vs IH]; simpl; [lia|]. rewrite zlen_app.
  pose proof (enc_nonempty (item_of v)).
  pose proof (zlen_nonneg (concat (map enc (map item_of vs)))). lia.
Qed.

Lemma reads_list {A} (m : Z → SM A) l a :
  (∀ n rest rem sz ke st bv, n = zlen (concat (map enc (map item_of l))) → n ≤ rem < 2 ^ 64 →
   ∃ sz' ke' bv',
     m n (mkStream (concat (map enc (map item_of l)) ++ rest) rem true sz ke (n :: st) None bv) =
     (Ok a, mkStream rest (rem - n) true sz' ke' st None bv')) →
  reads (sbind (wrapped List__) m) (enc (item_of (VList l))) a.
Proof.
  intros Hm rest rem sz ke stk bv Hrem Hroom. cbn [item_of enc] in *.
  set (c := concat (map enc (map item_of l))) in *.
  assert (0 ≤ zlen c < 2 ^ 64) as Hc.
  { rewrite zlen_app in Hrem. pose proof (zlen_nonneg c).
    pose proof (zlen_puthead_le 0xC0 0xF7 (zlen c)). lia. }
  rewrite zlen_app, zlen_puthead in * by done.
  assert (1 ≤ headsize (zlen c)).
  { rewrite <- (zlen_puthead 0xC0 0xF7) by done. apply zlen_puthead_le. }
  rewrite <- app_assoc. unfold sbind, wrapped.
  destruct (List_ok (zlen c) (c ++ rest) rem sz ke stk bv) as (ke1 & bv1 & E1); [lia|lia|done|].
  rewrite E1.
  destruct (Hm (zlen c) rest (rem - headsize (zlen c)) 0 ke1 (consume (headsize (zlen c) + zlen c) stk) bv1)
    as (sz2 & ke2 & bv2 & E2); [done|lia|].
  exists sz2, ke2, bv2. rewrite E2. do 2 f_equal. lia.
Qed.

Lemma gtype_ind' (P : gtype → Prop) :
  (∀ b, P (TUint b)) → P TBool → P TBig → P TBytes → (∀ n, P (TArray n)) →
  (∀ t, P t → P (TSlice t)) → (∀ ts, Forall P ts → P (TStruct ts)) →
  (∀ k t, P t → P (TPtr k t)) → ∀ t, P t.
Proof.
  intros H1 H2 H3 H4 H5 H6 H7 H8. fix IH 1. intros [b| | | |n|t|ts|k t];
    [apply H1|apply H2|apply H3|apply H4|apply H5|apply H6, IH| |apply H8, IH].
  apply H7. induction ts as [|t ts IHts]; constructor; [apply IH|apply IHts].
Qed.

Lemma fields_ok ts vs :
  Forall2 (λ t v, reads (decode t) (enc (item_of v)) v) ts vs →
  ∀ rest rem sz ke st bv,
  zlen (concat (map enc (map item_of vs))) ≤ rem < 2 ^ 64 →
  ∃ sz' ke' bv',
  fields ts
    (mkStream (concat (map enc (map item_of vs)) ++ rest) rem true sz ke
       (zlen (concat (map enc (map item_of vs))) :: st) None bv) =
  (Ok vs, mkStream rest (rem - zlen (concat (map enc (map item_of vs)))) true sz' ke' (0 :: st) None bv').
Proof.
  induction 1 as [|t v ts vs Hv Hvs IH]; intros rest rem sz ke st bv Hrem.
  - exists sz, ke, bv. simpl. change (zlen []) with 0. by rewrite Z.sub_0_r.
  - cbn [map] in *. rewrite !concat_cons in *. rewrite !zlen_app in *.
    set (c := concat (map enc (map item_of vs))) in *.
    pose proof (zlen_nonneg c). pose proof (zlen_nonneg (enc (item_of v))).
    cbn [fields]. rewrite <- app_assoc.
    destruct (Hv (c ++ rest) rem sz ke ((zlen (enc (item_of v)) + zlen c) :: st) bv)
      as (sz1 & ke1 & bv1 & E1); [lia|simpl; lia|].
    rewrite E1. cbn [consume].
    replace (zlen (enc (item_of v)) + zlen c - zlen (enc (item_of v))) with (zlen c) by lia.
    destruct (IH rest (rem - zlen (enc (item_of v))) sz1 ke1 st bv1)
      as (sz2 & ke2 & bv2 & E2); [lia|].
    exists sz2, ke2, bv2. unfold sbind. rewrite E2. unfold sret. do 2 f_equal. lia.
Qed.

Lemma decode_TStruct ts :
  decode (TStruct ts) =
  sbind (wrapped List__) (λ _, seq! l <- fields ts; seq! _ <- wrapped ListEnd; sret (VList l)).
Proof. done. Qed.

(** [Kind] only looks: a decoder finds the value that was looked at. *)
Lemma Kind_again s x s' : Kind_ s = (Ok x, s') → Kind_ s' = (Ok x, s').
Proof.
  unfold Kind_. destruct (s_kind s) eqn:Ek.
  { intros E. assert (s' = s) as -> by (by inversion E). by rewrite Ek. }
  destruct (readKind_s s) as [[[k n] [e|]] s1]; destruct (listLimit s) as [[|p|p]|];
    try done; case_match; intros [= <- <-]; done.
Qed.

Lemma decode_again t s x s' : Kind_ s = (Ok x, s') → decode t s' = decode t s.
Proof.
  intros E. pose proof (Kind_again _ _ _ E) as E'.
  destruct t; cbn [decode]; unfold wrapped, uint, Bool_, decodeBigInt, Bytes_, decodeByteArray,
    decodeListSlice, makeNilPtrDecoder, List__, uint, wrapped, sbind; rewrite E, E'; try done.
Qed.

Lemma Kind_enc i rest rem sz ke stk bv :
  match i with Str b => wf_bytes b | _ => True end →
  zlen (enc i) ≤ rem < 2 ^ 64 → room (zlen (enc i)) stk →
  ∃ size s', Kind_ (mkStream (enc i ++ rest) rem true sz ke stk None bv) = (Ok (item_kind i, size), s') ∧
    (item_empty i = false → item_kind i = Byte ∨ size ≠ 0).
Proof.
  intros Hwf Hrem Hroom. destruct i as [b|l]; cbn [enc item_kind] in *.
  - destruct (enc_str_cases b Hwf) as [(c & -> & Hc & E)|[E Hone]]; rewrite E in *.
    + change (zlen [c]) with 1 in *. cbn [app]. rewrite Kind_byte by (done || lia).
      destruct (Z.leb_spec c 0x7F); [|lia]. eauto.
    + rewrite zlen_app in *. pose proof (zlen_nonneg b).
      pose proof (zlen_puthead_le 0x80 0xB7 (zlen b)) as Hh.
      assert (zlen b < 2 ^ 64) by lia. rewrite zlen_puthead in Hrem, Hroom, Hh by lia. rewrite <- app_assoc. rewrite (Kind_head String_) by (done || lia).
      exists (zlen b). eexists. split.
      * do 3 f_equal. destruct b as [|c [|d b]]; try done.
        assert (128 ≤ c) by (by apply (Hone eq_refl)). by destruct (Z.leb_spec c 0x7F); [lia|].
      * intros He. right. destruct b; [done|]. unfold zlen. simpl. lia.
  - set (c := concat (map enc l)) in *. rewrite zlen_app in *. pose proof (zlen_nonneg c).
    pose proof (zlen_puthead_le 0xC0 0xF7 (zlen c)) as Hh.
    assert (zlen c < 2 ^ 64) by lia. rewrite zlen_puthead in Hrem, Hroom, Hh by lia.
    rewrite <- app_assoc. rewrite (Kind_head List_) by (done || lia).
    exists (zlen c). eexists. split; [done|]. intros He. right. destruct l as [|i l]; [done|].
    subst c. cbn [map]. rewrite concat_cons, zlen_app. pose proof (enc_nonempty i).
    pose proof (zlen_nonneg (concat (map enc l))). lia.
Qed.

Lemma reads_nil (nilList : bool) {A} (d : SM A) :
  reads (makeNilPtrDecoder d nilList) (enc (if nilList then Lst [] else Str [])) None.
Proof.
  intros rest rem sz ke stk bv Hrem Hroom. unfold makeNilPtrDecoder, sbind, wrapped.
  exists 0, None, 0.
  assert (enc (if nilList then Lst [] else Str []) = puthead (fst (tags (if nilList then List_ else String_)))
    (snd (tags (if nilList then List_ else String_))) 0) as E by (by destruct nilList).
  rewrite E in *.
  assert (zlen (puthead (fst (tags (if nilList then List_ else String_)))
    (snd (tags (if nilList then List_ else String_))) 0) = 1) as E1 by (by destruct nilList).
  rewrite E1 in *. rewrite Kind_head by (first [by destruct nilList | lia | change (headsize 0) with 1; lia | exact Hroom]).
  by destruct nilList.
Qed.

Lemma reads_some (nilList : bool) t v :
  match item_of v with Str b => wf_bytes b | _ => True end →
  item_empty (item_of v) = false → reads (decode t) (enc (item_of v)) v →
  reads (makeNilPtrDecoder (decode t) nilList) (enc (item_of v)) (Some v).
Proof.
  intros Hwf He Hv rest rem sz ke stk bv Hrem Hroom.
  destruct (Hv rest rem sz ke stk bv Hrem Hroom) as (sz' & ke' & bv' & E).
  exists sz', ke', bv'.
  destruct (Kind_enc (item_of v) rest rem sz ke stk bv Hwf Hrem Hroom) as (size & s' & Ek & Hsz).
  pose proof (decode_again t _ _ _ Ek) as Ed. rewrite E in Ed.
  unfold makeNilPtrDecoder, sbind, wrapped. rewrite Ek. cbv beta iota.
  destruct (Hsz He) as [->|Hne]; [by rewrite Ed|]. destruct (Z.eqb_spec size 0); [lia|].
  destruct (item_kind (item_of v)); by rewrite Ed.
Qed.

Lemma val_ok_item v : val_ok v = true → match item_of v with Str b => wf_bytes b | _ => True end.
Proof.
  induction v as [n|b|p|b|b|l IH|k|k v IH] using gval_ind'; simpl; intros H;
    try apply wf_be_min; try (by apply bool_decide_eq_true in H); try done.
  - destruct b; repeat constructor; lia.
  - destruct p; [apply wf_be_min|constructor].
  - by destruct k; [|constructor].
  - by apply IH.
Qed.

Lemma has_type_val_ok t v : has_type t v = true → val_ok v = true ∧ nonneg v = true.
Proof.
  revert v. induction t as [bits| | | |n|t IH|ts IH|k t IH] using gtype_ind'; intros v Hv;
    destruct v as [n'|b|[i|]|b|b|l|k' [v|]]; simpl in Hv; try done; simpl.
  - split; [|done]. apply bool_decide_eq_true. apply andb_prop in Hv as [Hn Hb].
    unfold in_w. apply orb_prop in Hb as [Hb|Hb]; apply Z.eqb_eq in Hb as ->; lia.
  - by apply andb_prop in Hv as [Hv _].
  - rewrite forallb_forall in Hv. split; apply forallb_forall; intros x Hx;
      by apply (IH x), Hv.
  - revert l Hv. induction IH as [|t ts Ht _ IHts]; intros [|v l] Hv; try done. simpl.
    apply andb_prop in Hv as [H1 H2]. apply Ht in H1 as [-> ->]. by apply IHts.
  - apply IH. by apply andb_prop in Hv as [[_ Hv]%andb_prop _].
Qed.

Lemma reads_decode t v : has_type t v = true → reads (decode t) (enc (item_of v)) v.
Proof.
  revert v. induction t as [bits| | | |n|t IH|ts IH|k t IH] using gtype_ind'; intros v Hv.
  - destruct v; simpl in Hv; try done. apply andb_prop in Hv as [Hn Hb].
    apply (reads_map (wrapped (uint bits)) VUint), reads_wrapped, reads_uint; [|lia].
    apply orb_prop in Hb as [?|?]; [left|right]; lia.
  - destruct v; simpl in Hv; try done.
    apply (reads_map (wrapped Bool_) VBool), reads_wrapped, reads_Bool.
  - destruct v as [| |[i|]| | | |]; simpl in Hv; try done.
    apply (reads_map decodeBigInt (λ i, VBig (Some i))), reads_BigInt. lia.
  - destruct v; simpl in Hv; try done. apply bool_decide_eq_true in Hv.
    by apply (reads_map (wrapped Bytes_) VBytes), reads_wrapped, reads_Bytes.
  - destruct v; simpl in Hv; try done. apply andb_prop in Hv as [Hw Hl].
    apply bool_decide_eq_true in Hw. apply Nat.eqb_eq in Hl as <-.
    by apply (reads_map (decodeByteArray _) VArray), reads_ByteArray.
  - destruct v as [| | | | |l|]; simpl in Hv; try done.
    assert (Forall (λ v, reads (decode t) (enc (item_of v)) v) l) as HF.
    { apply Forall_forall. intros x Hx. apply IH. rewrite forallb_forall in Hv.
      apply Hv. by apply list_elem_of_In. }
    apply (reads_map (decodeListSlice (decode t)) VList). apply reads_list.
    intros n rest rem sz ke st bv Hn Hrem. subst n.
    set (c := concat (map enc (map item_of l))) in *.
    destruct (Z.eqb_spec (zlen c) 0) as [E0|E0].
    + pose proof (length_le_enc l) as Hle. fold c in Hle. rewrite E0 in *.
      destruct l; [|simpl in Hle; lia]. destruct (ListEnd_ok rest rem sz ke st bv) as (sz' & E).
      exists sz', ke, bv. unfold sbind. subst c. cbn [map concat app] in *.
      change (zlen []) with 0. rewrite E, Z.sub_0_r. done.
    + destruct (decodeSliceElems_ok t l HF (Z.to_nat (zlen c)) rest rem sz ke st bv)
        as (sz1 & ke1 & bv1 & E1); [apply length_le_enc|done|].
      destruct (ListEnd_ok rest (rem - zlen c) sz1 ke1 st bv1) as (sz' & E).
      exists sz', ke1, bv1. unfold sbind. fold c in E1. rewrite E1, E. done.
  - destruct v as [| | | | |l|]; simpl in Hv; try done.
    assert (Forall2 (λ t v, reads (decode t) (enc (item_of v)) v) ts l) as HF.
    { revert l Hv. induction IH as [|t ts Ht _ IHts]; intros [|v l] Hv; try done; constructor.
      - apply Ht. by apply andb_prop in Hv as [? _].
      - apply IHts. by apply andb_prop in Hv as [_ ?]. }
    rewrite decode_TStruct. apply reads_list.
    intros n rest rem sz ke st bv Hn Hrem. subst n.
    destruct (fields_ok ts l HF rest rem sz ke st bv Hrem) as (sz1 & ke1 & bv1 & E1).
    set (c := concat (map enc (map item_of l))) in *.
    destruct (ListEnd_ok rest (rem - zlen c) sz1 ke1 st bv1) as (sz' & E).
    exists sz', ke1, bv1. unfold sbind, wrapped. rewrite E1, E. done.
  - destruct v as [| | | | | |k' [v|]]; simpl in Hv; try done.
    + apply andb_prop in Hv as [[->%Bool.eqb_prop Hv]%andb_prop He%negb_true_iff].
      cbn [item_of]. apply (reads_map (makeNilPtrDecoder (decode t) k') (VPtr k')), reads_some; [|done|by apply IH].
      by apply val_ok_item, (has_type_val_ok t).
    + apply Bool.eqb_prop in Hv as ->.
      apply (reads_map (makeNilPtrDecoder (decode t) k') (VPtr k')), reads_nil.
Qed.

Lemma DecodeBytes_enc t v :
  has_type t v = true → zlen (enc (item_of v)) < 2 ^ 64 →
  DecodeBytes t (enc (item_of v)) = Ok v.
Proof.
  intros Hv Hlen. unfold DecodeBytes, Reset.
  destruct (reads_decode t v Hv [] (zlen (enc (item_of v))) 0 None [] 0)
    as (sz' & ke' & bv' & E); [lia|done|].
  rewrite app_nil_r in E. by rewrite E.
Qed.

(** Encoding a value of a type succeeds, and decoding at that type gives the
    value back. *)
Lemma rlp_roundtrip t v :
  has_type t v = true → zlen (enc (item_of v)) < 2 ^ 64 →
  ∃ b, EncodeToBytes v = Ok b ∧ DecodeBytes t b = Ok v.
Proof.
  intros Hv Hlen. destruct (has_type_val_ok t v Hv) as [H1 H2].
  exists (enc (item_of v)). split; [by apply EncodeToBytes_enc|by apply DecodeBytes_enc].
Qed.

(** ** Claims *)

(** Encoding a value of a Go type and decoding the bytes into that type
    succeeds and gives the value back: structs, slices, byte arrays, byte
    slices, unsigned integers, booleans, big integers and pointers that may be
    nil, nested in any way. *)
Lemma rlp_decode_encode t v :
  has_type t v = true → zlen (enc (item_of v)) < 2 ^ 64 →
  ∃ b, EncodeToBytes v = Ok b ∧ DecodeBytes t b = Ok v.
Proof. apply rlp_roundtrip. Qed.

End Dec.
