(* ===== verification/RlpCanon.v ===== *)
(** * Only canonical RLP is accepted

    [RlpDecode.Dec.rlp_roundtrip] says that what is encoded is decoded.  Here is
    the other direction: whatever input the decoder accepts at a type is the
    encoding of the value it returns, and that value has the type.  So an
    accepted value has one encoding only, and hashes over encodings identify
    values.  The limits of nested lists are kept modulo [2 ^ 64] on the stack of
    the stream; the proofs show that the check at the end of each list makes
    them exact. *)
From S2P Require Import Prelude Common RlpEncode RlpDecode.
Import Common.Bytes Common.GoMath RlpEncode.Enc RlpEncode.Raw RlpDecode.Dec.

(** ** What a read does to the stream *)

Record stream_ok (k : option Kind) (s : Stream) : Prop := StreamOk {
  so_limited : s_limited s = true;
  so_remaining : s_remaining s = zlen (s_r s);
  so_small : zlen (s_r s) < 2 ^ 64;
  so_bytes : wf_bytes (s_r s);
  so_kind : s_kind s = k;
  so_stack : Forall (λ l, 0 ≤ l < 2 ^ 64) (s_stack s)
}.

(** The innermost limit after [n] more bytes. *)
Definition sub_top (n : Z) (st : list Z) : list Z :=
  match st with [] => [] | l :: st => u64 (l - n) :: st end.

(** Exactly the bytes [e] were read. *)
Definition took (e : bytes) (s s' : Stream) : Prop :=
  s_r s = e ++ s_r s' ∧ s_stack s' = sub_top (zlen e) (s_stack s).

Lemma sub_top_add m n st : sub_top n (sub_top m st) = sub_top (m + n) st.
Proof.
  destruct st as [|l st]; [done|]. cbn. f_equal. unfold u64, wrap.
  rewrite Zminus_mod_idemp_l. f_equal. lia.
Qed.

Lemma sub_top_0 st : Forall (λ l, 0 ≤ l < 2 ^ 64) st → sub_top 0 st = st.
Proof.
  destruct st as [|l st]; [done|]. intros [H _]%Forall_cons. cbn. f_equal.
  rewrite Z.sub_0_r. by apply wrap_id.
Qed.

Lemma sub_top_ok n st : Forall (λ l, 0 ≤ l < 2 ^ 64) st → Forall (λ l, 0 ≤ l < 2 ^ 64) (sub_top n st).
Proof. destruct 1; cbn; constructor; [apply wrap_range; lia|done]. Qed.

Lemma took_nil k s : stream_ok k s → took [] s s.
Proof. intros H. split; [done|]. symmetry. by apply sub_top_0, (so_stack _ _ H). Qed.

Lemma took_app e1 e2 s s1 s2 : took e1 s s1 → took e2 s1 s2 → took (e1 ++ e2) s s2.
Proof.
  intros [R1 S1] [R2 S2]. split; [by rewrite R1, R2, app_assoc|].
  by rewrite S2, S1, sub_top_add, zlen_app.
Qed.

Lemma took_suffix e s s' : took e s s' → zlen (s_r s) = zlen e + zlen (s_r s').
Proof. intros [-> _]. apply zlen_app. Qed.

Lemma took_wf e k s s' : stream_ok k s → took e s s' → wf_bytes e.
Proof. intros H [R _]. pose proof (so_bytes _ _ H) as Hb. rewrite R in Hb. by apply Forall_app in Hb as [? _]. Qed.

Lemma willRead_inv k n s s' :
  stream_ok k s → 0 ≤ n → willRead n s = (Ok tt, s') →
  n ≤ zlen (s_r s) ∧ s_limited s' = true ∧ s_remaining s' = s_remaining s - n ∧ s_r s' = s_r s ∧
  s_stack s' = sub_top n (s_stack s) ∧ s_kind s' = None.
Proof.
  intros [Hl Hr Hs Hb Hk Ht] Hn. unfold willRead. cbn. rewrite Hl. cbn.
  destruct (s_stack s) as [|l st]; cbn.
  - destruct (Z.ltb_spec (s_remaining s) n); [done|]. intros [= <-]. cbn. split_and!; try done. lia.
  - destruct (Z.ltb_spec l n); [done|]. rewrite ?Hl. destruct (Z.ltb_spec (s_remaining s) n); [done|].
    intros [= <-]. cbn. split_and!; try done. lia.
Qed.

Lemma readFull_inv k n s b s' :
  stream_ok k s → 0 ≤ n → readFull n s = (Ok b, s') → zlen b = n ∧ took b s s' ∧ stream_ok None s'.
Proof.
  intros H Hn. unfold readFull, sbind. destruct (willRead n s) as [[[]|e] s1] eqn:E; [|done].
  destruct (willRead_inv _ _ _ _ H Hn E) as (Hle & Hl & Hr & Hs & Ht & Hk).
  unfold take_r. destruct (Nat.leb_spec (Z.to_nat n) (length (s_r s1))); [|done].
  intros [= <- <-]. destruct H as [Hl0 Hr0 Hs0 Hb0 Hk0 Ht0].
  assert (zlen (take (Z.to_nat n) (s_r s1)) = n) as Hz
    by (unfold zlen in *; rewrite length_take, Hs; lia).
  assert (zlen (drop (Z.to_nat n) (s_r s1)) = zlen (s_r s1) - n) as Hd
    by (unfold zlen in *; rewrite length_drop, Hs; lia).
  split; [done|]. split; [split; cbn|constructor; cbn].
  - by rewrite take_drop.
  - by rewrite Hz, Ht.
  - done.
  - rewrite Hr, Hr0, Hd, Hs. done.
  - rewrite Hd, Hs. lia.
  - rewrite Hs. by apply Forall_drop.
  - done.
  - rewrite Ht. by apply sub_top_ok.
Qed.

Lemma readByte_inv k s c s' :
  stream_ok k s → readByte s = (Ok c, s') → is_byte c ∧ took [c] s s' ∧ stream_ok None s'.
Proof.
  intros H E.
  assert (∃ b, readFull 1 s = (Ok b, s') ∧ c = hd 0 b) as (b & Eb & ->).
  { revert E. unfold readByte, readFull, sbind. destruct (willRead 1 s) as [[[]|] s1]; [|done].
    change (Z.to_nat 1) with 1%nat. destruct (take_r 1 s1) as [[b|] s2]; [|done].
    intros [= <- <-]. by exists b. }
  destruct (readFull_inv _ 1 _ _ _ H ltac:(lia) Eb) as (Hz & Ht & Hs).
  destruct b as [|c [|d b]]; try (unfold zlen in Hz; cbn [length] in Hz; lia). cbn in *.
  split; [|done]. pose proof (took_wf _ _ _ _ H Ht) as Hw. by apply Forall_cons in Hw as [? _].
Qed.

Lemma be_min_decode c l : wf_bytes (c :: l) → c ≠ 0 → be_min (be_decode (c :: l)) = c :: l.
Proof. intros Hw Hc. unfold be_min. rewrite (nbytes_eq _ c l) by done. by apply be_fixed_decode. Qed.

(** The bytes of an integer that [readUint] accepts are its minimal form,
    except that a single byte may be zero. *)
Lemma readUint_inv k n s v s' :
  stream_ok k s → 0 < n → readUint n s = (Ok v, s') →
  ∃ b, zlen b = n ∧ took b s s' ∧ stream_ok None s' ∧ v = be_decode b ∧ wf_bytes b ∧
    (b = [0] ∨ b = be_min v).
Proof.
  intros H Hn. unfold readUint. destruct (Z.eqb_spec n 0); [lia|].
  destruct (Z.eqb_spec n 1) as [->|].
  - intros E. destruct (readByte_inv _ _ _ _ H E) as (Hc & Ht & Hs). unfold is_byte in Hc.
    exists [v]. rewrite be_decode_one. split_and!; try done.
    + constructor; [exact Hc|by constructor].
    + destruct (Z.eq_dec v 0) as [->|]; [by left|right]. by rewrite be_min_small by lia.
  - unfold sbind. destruct (readFull n s) as [[b|] s1] eqn:E; [|done].
    destruct (readFull_inv _ n _ _ _ H ltac:(lia) E) as (Hz & Ht & Hs).
    destruct (Z.eqb_spec (hd 0 b) 0) as [|Hh]; [done|]. intros [= <- <-].
    pose proof (took_wf _ _ _ _ H Ht) as Hw. exists b. split_and!; try done.
    right. destruct b as [|c b]; [done|]. by rewrite be_min_decode.
Qed.

(** ** What [Kind] saw *)

(** The header bytes [h] announce a value of kind [k] and size [size]. *)
Definition header (k : Kind) (size : Z) (h : bytes) (s : Stream) : Prop :=
  match k with
  | Byte => size = 0 ∧ h = [s_byteval s] ∧ 0 ≤ s_byteval s < 0x80
  | _ => 0 ≤ size < 2 ^ 64 ∧ h = puthead (fst (tags k)) (snd (tags k)) size
  end.

Lemma took_byteval c s s' bv : took [c] s s' → took [c] s (snd (set_byteval bv s')).
Proof. done. Qed.
Lemma byteval_ok k s bv : stream_ok k s → stream_ok k (snd (set_byteval bv s)).
Proof. by intros []. Qed.

Lemma puthead_long tag n v b :
  (tag = 0xB7 ∨ tag = 0xF7) → 0 < n ≤ 8 → zlen b = n → v = be_decode b → wf_bytes b → 56 ≤ v →
  (b = [0] ∨ b = be_min v) → ∀ small, 56 ≤ v < 2 ^ 64 ∧ puthead small tag v = (tag + n) :: b.
Proof.
  intros Htag Hn Hz Hv Hw H56 Hb small. pose proof (be_decode_range b Hw) as Hr.
  assert (256 ^ Z.of_nat (length b) ≤ 256 ^ 8) by (apply Z.pow_le_mono_r; unfold zlen in Hz; lia).
  assert (v < 2 ^ 64) by (change (2 ^ 64) with (256 ^ 8); lia).
  destruct Hb as [->|Hb]; [rewrite be_decode_one in Hv; lia|].
  split; [lia|]. unfold puthead. destruct (Z.ltb_spec v 56); [lia|].
  rewrite putint_be_min, <- Hb, Hz by lia. unfold u8. rewrite wrap_id by (unfold in_w; lia). done.
Qed.

Lemma readKind_s_inv s k size s1 :
  stream_ok None s → readKind_s s = (k, size, None, s1) →
  ∃ h, took h s s1 ∧ stream_ok None s1 ∧ header k size h s1.
Proof.
  intros H. unfold readKind_s. destruct (readByte s) as [[c|e] s'] eqn:E; [|done].
  destruct (readByte_inv _ _ _ _ H E) as (Hc & Ht & Hs). unfold is_byte in Hc.
  apply (took_byteval _ _ _ 0) in Ht as Ht'. apply (byteval_ok _ _ 0) in Hs as Hs'.
  set (s0 := snd (set_byteval 0 s')) in *.
  destruct (Z.ltb_spec c 0x80).
  { intros [= <- <- <-]. exists [c]. split; [done|]. split; [exact (byteval_ok _ _ c Hs')|]. cbn. split_and!; (done || lia). }
  destruct (Z.ltb_spec c 0xB8).
  { intros [= <- <- <-]. exists [c]. split; [done|]. split; [done|]. split; [lia|]. unfold puthead. cbn [tags fst snd].
    destruct (Z.ltb_spec (c - 0x80) 56); [|lia]. unfold u8. rewrite wrap_id by (unfold in_w; lia).
    f_equal. lia. }
  assert (∀ tag kd, (tag = 0xB7 ∨ tag = 0xF7) → kd ≠ Byte → snd (tags kd) = tag → 0 < c - tag ≤ 8 →
    match readUint (c - tag) s0 with
    | (Err e, s'') => (kd, 0, Some e, s'')
    | (Ok size, s'') => (kd, size, if size <? 56 then Some ErrCanonSize else None, s'')
    end = (k, size, None, s1) → ∃ h, took h s s1 ∧ stream_ok None s1 ∧ header k size h s1) as Hlong.
  { intros tag kd Htag Hkd Htk Hn. destruct (readUint (c - tag) s0) as [[v|e] s''] eqn:Eu; [|done].
    destruct (Z.ltb_spec v 56); [done|]. intros [= <- <- <-].
    destruct (readUint_inv _ (c - tag) _ _ _ Hs' ltac:(lia) Eu) as (b & Hz & Hb & Hs'' & Hv & Hw & Hm).
    destruct (puthead_long tag (c - tag) v b Htag Hn Hz Hv Hw ltac:(lia) Hm (fst (tags kd))) as [Hr Hp].
    exists (c :: b). split; [exact (took_app _ _ _ _ _ Ht' Hb)|]. split; [done|].
    replace (tag + (c - tag)) with c in Hp by lia.
    destruct kd; [done|..]; (split; [lia|]); by rewrite Htk. }
  destruct (Z.ltb_spec c 0xC0).
  { apply Hlong; [by left|done|done|lia]. }
  destruct (Z.ltb_spec c 0xF8).
  { intros [= <- <- <-]. exists [c]. split; [done|]. split; [done|]. split; [lia|]. unfold puthead. cbn [tags fst snd].
    destruct (Z.ltb_spec (c - 0xC0) 56); [|lia]. unfold u8. rewrite wrap_id by (unfold in_w; lia).
    f_equal. lia. }
  apply Hlong; [by right|done|done|lia].
Qed.

Lemma Kind_inv s k size s1 :
  stream_ok None s → Kind_ s = (Ok (k, size), s1) →
  ∃ h, took h s s1 ∧ stream_ok (Some k) s1 ∧ header k size h s1 ∧ size ≤ zlen (s_r s1).
Proof.
  intros H. unfold Kind_. rewrite (so_kind _ _ H).
  assert (match listLimit s with Some 0 => False | _ => True end →
    (let '(k, size, err, s1) := readKind_s s in
     let err := match err with
       | Some e => Some e
       | None =>
           if match listLimit s with Some l => l <? size | None => false end then Some ErrElemTooLarge
           else if s_limited s1 && (s_remaining s1 <? size) then Some ErrValueTooLarge else None
       end in
     (match err with Some e => Err e | None => Ok (k, size) end, snd (set_ahead k size err s1)))
     = (Ok (k, size), s1) →
    ∃ h, took h s s1 ∧ stream_ok (Some k) s1 ∧ header k size h s1 ∧ size ≤ zlen (s_r s1)) as Hmain.
  { intros _. destruct (readKind_s s) as [[[k0 n0] [e|]] s0] eqn:E; [done|].
    destruct (readKind_s_inv _ _ _ _ H E) as (h & Ht & Hs & Hh).
    destruct (match listLimit s with Some l => l <? n0 | None => false end); [done|].
    rewrite (so_limited _ _ Hs). cbn. destruct (Z.ltb_spec (s_remaining s0) n0); [done|].
    intros [= -> -> <-]. exists h. split; [done|]. split; [by destruct Hs|]. split; [done|].
    cbn. rewrite <- (so_remaining _ _ Hs). done. }
  destruct (listLimit s) as [[|p|p]|]; [done|by apply Hmain..].
Qed.

(** ** Decoders that accept only encodings *)

(** What [m] accepts is the encoding [e a] of its result, which satisfies [P]. *)
Definition canon {A} (m : SM A) (P : A → Prop) (e : A → bytes) : Prop :=
  ∀ s a s', stream_ok None s → m s = (Ok a, s') → P a ∧ took (e a) s s' ∧ stream_ok None s'.

Lemma canon_wrapped {A} (m : SM A) P e : canon m P e → canon (wrapped m) P e.
Proof.
  intros H s a s' Hs. unfold wrapped. destruct (m s) as [[x|x] s1] eqn:E; [|done].
  intros [= -> ->]. by apply H.
Qed.

Lemma canon_map {A B} (m : SM A) (f : A → B) P e (P' : B → Prop) e' :
  canon m P e → (∀ a, P a → P' (f a) ∧ e' (f a) = e a) → canon (seq! x <- m; sret (f x)) P' e'.
Proof.
  intros H Hf s b s' Hs. unfold sbind. destruct (m s) as [[x|x] s1] eqn:E; [|done].
  intros [= <- <-]. destruct (H _ _ _ Hs E) as (HP & Ht & Hs1).
  destruct (Hf x HP) as [HP' ->]. done.
Qed.

Lemma rearm_inv k s x s' :
  stream_ok k s → rearm s = (Ok x, s') → took [] s s' ∧ stream_ok None s'.
Proof.
  intros H [= _ <-]. split; [|by destruct H]. by destruct (took_nil _ _ H) as [? ?].
Qed.

Lemma enc_str_byte c : c < 0x80 → enc_str [c] = [c].
Proof. intros H. cbn. by destruct (Z.leb_spec c 0x7F); [|lia]. Qed.

Lemma enc_str_string b : (zlen b = 1 → 128 ≤ hd 0 b) → enc_str b = puthead 0x80 0xB7 (zlen b) ++ b.
Proof.
  intros H. destruct b as [|c [|d b]]; try done. cbn [enc_str].
  assert (128 ≤ c) by (by apply H). by destruct (Z.leb_spec c 0x7F); [lia|].
Qed.

(** The dual of [reads_str]. *)
Lemma canon_str {A} (f : Kind * Z → SM A) (P : A → Prop) e :
  (∀ s a s', 0 ≤ s_byteval s < 0x80 → stream_ok (Some Byte) s → f (Byte, 0) s = (Ok a, s') →
     P a ∧ e a = [s_byteval s] ∧ took [] s s' ∧ stream_ok None s') →
  (∀ size s a s', 0 ≤ size < 2 ^ 64 → stream_ok (Some String_) s → f (String_, size) s = (Ok a, s') →
     ∃ b, P a ∧ e a = puthead 0x80 0xB7 size ++ b ∧ took b s s' ∧ stream_ok None s') →
  (∀ size s a s', f (List_, size) s ≠ (Ok a, s')) →
  canon (sbind Kind_ f) P e.
Proof.
  intros HB HS HL s a s' Hs. unfold sbind. destruct (Kind_ s) as [[[k size]|x] s1] eqn:E; [|done].
  destruct (Kind_inv _ _ _ _ Hs E) as (h & Ht & Hs1 & Hh & Hsz). destruct k; cbn [header] in Hh.
  - destruct Hh as (-> & -> & Hc). intros Ef. destruct (HB _ _ _ Hc Hs1 Ef) as (HP & -> & Ht' & Hs').
    split; [done|]. split; [|done]. exact (took_app _ _ _ _ _ Ht Ht').
  - destruct Hh as [Hr ->]. intros Ef. destruct (HS _ _ _ _ Hr Hs1 Ef) as (b & HP & -> & Ht' & Hs').
    split; [done|]. split; [|done]. exact (took_app _ _ _ _ _ Ht Ht').
  - intros Ef. by apply HL in Ef.
Qed.

Lemma get_byteval {A} (f : Z → A) s a s' :
  sbind get (λ s, sbind rearm (λ _, sret (f (s_byteval s)))) s = (Ok a, s') →
  a = f (s_byteval s) ∧ rearm s = (Ok tt, s').
Proof. unfold sbind. cbn. by intros [= <- <-]. Qed.

Lemma not_canon_inv n b : zlen b = n → (n =? 1) && (hd 0 b <? 128) = false → zlen b = 1 → 128 ≤ hd 0 b.
Proof. intros <- H H1. rewrite H1 in H. cbn in H. lia. Qed.

Lemma canon_Bytes : canon Bytes_ wf_bytes enc_str.
Proof.
  apply canon_str.
  - intros s a s' Hc Hs E. apply (get_byteval (λ c, [c])) in E as [-> E].
    destruct (rearm_inv _ _ _ _ Hs E). rewrite enc_str_byte by lia. split_and!; try done.
    repeat constructor; lia.
  - intros size s a s' Hsz Hs. unfold sbind. destruct (readFull size s) as [[b|] s1] eqn:E; [|done].
    destruct (readFull_inv _ size _ _ _ Hs ltac:(lia) E) as (Hz & Ht & Hs1).
    destruct ((size =? 1) && _) eqn:Ec; [done|]. intros [= <- <-]. exists b.
    pose proof (not_canon_inv _ _ Hz Ec). rewrite enc_str_string, Hz by done.
    split_and!; try done. exact (took_wf _ _ _ _ Hs Ht).
  - done.
Qed.

Lemma canon_ByteArray n :
  canon (decodeByteArray n) (λ b, wf_bytes b ∧ length b = n) enc_str.
Proof.
  apply canon_str.
  - intros s a s' Hc Hs E. destruct n as [|[|n]]; [done| |done].
    apply (get_byteval (λ c, [c])) in E as [-> E].
    destruct (rearm_inv _ _ _ _ Hs E). rewrite enc_str_byte by lia. split_and!; try done.
    repeat constructor; lia.
  - intros size s a s' Hsz Hs. destruct (Z.ltb_spec (Z.of_nat n) size); [done|].
    destruct (Z.ltb_spec size (Z.of_nat n)); [done|]. assert (size = Z.of_nat n) as -> by lia.
    unfold sbind. destruct (readFull (Z.of_nat n) s) as [[b|] s1] eqn:E; [|done].
    destruct (readFull_inv _ (Z.of_nat n) _ _ _ Hs ltac:(lia) E) as (Hz & Ht & Hs1).
    destruct ((_ =? 1) && _) eqn:Ec; [done|]. intros [= <- <-]. exists b.
    pose proof (not_canon_inv _ _ Hz Ec). rewrite enc_str_string, Hz by done.
    split_and!; try done; [exact (took_wf _ _ _ _ Hs Ht)|unfold zlen in Hz; lia].
  - done.
Qed.

Lemma enc_str_be_min v b : b = be_min v → 128 ≤ v → enc_str (be_min v) = puthead 0x80 0xB7 (zlen b) ++ b.
Proof.
  intros -> Hv. apply enc_str_string. intros Hz.
  destruct (be_min v) as [|c [|d l]] eqn:E; try (unfold zlen in Hz; cbn [length] in Hz; lia). cbn.
  rewrite <- (be_decode_one c), <- E, be_decode_min; lia.
Qed.

Lemma canon_uint bits :
  bits = 8 ∨ bits = 64 → canon (uint bits) (λ n, 0 ≤ n < 2 ^ bits) (λ n, enc_str (be_min n)).
Proof.
  intros Hbits. apply canon_str.
  - intros s a s' Hc Hs. unfold sbind, get. destruct (Z.eqb_spec (s_byteval s) 0); [done|].
    intros [= <- <-]. destruct (rearm_inv _ _ tt _ Hs eq_refl).
    rewrite be_min_small, enc_str_byte by lia. split_and!; try done; [lia|].
    destruct Hbits as [-> | ->]; lia.
  - intros size s a s' Hsz Hs. destruct (Z.ltb_spec (bits / 8) size); [done|].
    destruct (readUint size s) as [[v|e] s1] eqn:E; [|by destruct e].
    destruct (Z.eq_dec size 0) as [->|Hne].
    + cbn. intros [= <- <-]. exists []. revert E. cbn. intros [= <- <-].
      destruct (rearm_inv _ _ tt _ Hs eq_refl). split_and!; try done. apply Z.pow_pos_nonneg; lia.
    + destruct (readUint_inv _ size _ _ _ Hs ltac:(lia) E) as (b & Hz & Ht & Hs1 & Hv & Hw & Hm).
      destruct (Z.ltb_spec 0 size); [|lia]. cbn. destruct (Z.ltb_spec v 128); [done|].
      intros [= <- <-]. destruct Hm as [->|Hm]; [rewrite be_decode_one in Hv; lia|].
      exists b. rewrite (enc_str_be_min v b), Hz by done. split_and!; try done; [lia|].
      pose proof (be_decode_range b Hw) as [_ Hr]. rewrite <- Hv in Hr.
      assert (256 ^ Z.of_nat (length b) ≤ 256 ^ (bits / 8)) by (apply Z.pow_le_mono_r; unfold zlen in Hz; lia).
      destruct Hbits as [-> | ->]; [change (2 ^ 8) with (256 ^ (8 / 8))|change (2 ^ 64) with (256 ^ (64 / 8))]; lia.
  - done.
Qed.

Lemma canon_Bool : canon Bool_ (λ _, True) (λ b : bool, enc_str (if b then [1] else [])).
Proof.
  intros s a s' Hs. unfold Bool_, sbind. destruct (uint 8 s) as [[v|] s1] eqn:E; [|done].
  destruct (canon_uint 8 ltac:(by left) _ _ _ Hs E) as (Hv & Ht & Hs1).
  destruct (Z.eqb_spec v 0) as [->|]; [by intros [= <- <-]|].
  destruct (Z.eqb_spec v 1) as [->|]; [by intros [= <- <-]|done].
Qed.

Lemma BigInt_content size s b s1 a s' :
  stream_ok (Some String_) s → 0 < size → readFull size s = (Ok b, s1) → (zlen b = 1 → 128 ≤ hd 0 b) →
  match b with 0 :: _ => serr ErrCanonInt | _ => sret (be_decode b) end s1 = (Ok a, s') →
  ∃ b, 0 ≤ a ∧ enc_str (be_min a) = puthead 0x80 0xB7 size ++ b ∧ took b s s' ∧ stream_ok None s'.
Proof.
  intros Hs Hsz E H1 Ea. destruct (readFull_inv _ size _ _ _ Hs ltac:(lia) E) as (Hz & Ht & Hs1).
  pose proof (took_wf _ _ _ _ Hs Ht) as Hw. pose proof (be_decode_range b Hw) as Hr.
  destruct b as [|c b]; [unfold zlen in Hz; cbn in Hz; lia|].
  assert (c ≠ 0 ∧ a = be_decode (c :: b) ∧ s' = s1) as (Hc & -> & ->).
  { destruct c; [done|..]; by injection Ea as <- <-. }
  exists (c :: b). rewrite be_min_decode by done. rewrite enc_str_string, Hz by done.
  split_and!; (done || lia).
Qed.

Lemma canon_BigInt : canon decodeBigInt (λ i, 0 ≤ i) (λ i, enc_str (be_min i)).
Proof.
  apply canon_wrapped, canon_str.
  - intros s a s' Hc Hs. unfold sbind, get. cbn. destruct (s_byteval s) as [|p|p] eqn:Eb; [done| |lia].
    intros [= <- <-]. destruct (rearm_inv _ _ tt _ Hs eq_refl) as [[Hr Ht] Hk].
    change (be_decode [Z.pos p]) with (Z.pos p). rewrite be_min_small, enc_str_byte by lia.
    rewrite Eb in Hk. split_and!; (done || lia).
  - intros size s a s' Hsz Hs. unfold sbind. destruct (Z.eqb_spec size 0) as [->|Hne].
    { cbn. intros [= <- <-]. exists []. by destruct (rearm_inv _ _ tt _ Hs eq_refl). }
    destruct (Z.leb_spec size 32); destruct (readFull size s) as [[b|] s1] eqn:E; try done;
      destruct (readFull_inv _ size _ _ _ Hs ltac:(lia) E) as (Hz & _).
    + destruct ((size =? 1) && _) eqn:Ec; [done|]. cbn. intros Ea.
      eapply BigInt_content; [done|lia|done|by eapply not_canon_inv|done].
    + intros Ea. eapply BigInt_content; [done|lia|done|lia|done].
  - done.
Qed.

(** ** Lists *)

Lemma List_inv s n s1 :
  stream_ok None s → List__ s = (Ok n, s1) →
  0 ≤ n < 2 ^ 64 ∧ stream_ok None s1 ∧ s_r s = puthead 0xC0 0xF7 n ++ s_r s1 ∧
  s_stack s1 = n :: sub_top (headsize n + n) (s_stack s).
Proof.
  intros Hs. unfold List__, sbind. destruct (Kind_ s) as [[[k size]|x] s0] eqn:E; [|done].
  destruct (Kind_inv _ _ _ _ Hs E) as (h & [Hr Ht] & Hs0 & Hh & Hsz). destruct k; try done.
  destruct Hh as [Hn ->]. rewrite zlen_puthead in Ht by done. cbn [tags fst snd] in Hr.
  assert (∀ st, Forall (λ l, 0 ≤ l < 2 ^ 64) st → stream_ok None (mkStream (s_r s0) (s_remaining s0)
    (s_limited s0) 0 (s_kinderr s0) (size :: st) None (s_byteval s0))) as Hok.
  { intros st Hst. destruct Hs0. constructor; try done. by constructor. }
  cbn [get]. destruct (s_stack s0) as [|l st] eqn:Est; cbn; intros [= <- <-]; cbn.
  - split_and!; try done; try lia; [by apply Hok|]. f_equal. destruct (s_stack s); [done|].
    cbn in Ht. congruence.
  - pose proof (so_stack _ _ Hs0) as Hst. rewrite Est in Hst. apply Forall_cons in Hst as [Hl Hst].
    split_and!; try done; try lia.
    + apply Hok. constructor; [apply wrap_range; lia|done].
    + rewrite <- sub_top_add, <- Ht. done.
Qed.

Lemma ListEnd_inv s x s' :
  stream_ok None s → ListEnd s = (Ok x, s') →
  s_stack s = 0 :: s_stack s' ∧ s_r s' = s_r s ∧ stream_ok None s'.
Proof.
  intros Hs. unfold ListEnd, sbind. cbn [get]. destruct (s_stack s) as [|l st] eqn:E; [done|].
  pose proof (so_stack _ _ Hs) as Hst. rewrite E in Hst. apply Forall_cons in Hst as [Hl Hst].
  destruct (Z.ltb_spec 0 l); [done|]. assert (l = 0) as -> by lia. cbn. intros [= _ <-].
  split; [done|]. split; [done|]. by destruct Hs.
Qed.

Definition items (vs : list gval) : bytes := concat (map enc (map item_of vs)).

(** The end of the list is where the elements end, whatever the arithmetic of
    the limits did in between. *)
Lemma canon_list (m : Z → SM gval) (P : list gval → Prop) (Q : gval → Prop) :
  (∀ n s v s', stream_ok None s → m n s = (Ok v, s') →
     ∃ vs s2, v = VList vs ∧ P vs ∧ took (items vs) s s2 ∧ stream_ok None s2 ∧ ListEnd s2 = (Ok tt, s')) →
  (∀ vs, P vs → Q (VList vs)) →
  canon (sbind (wrapped List__) m) Q (λ v, enc (item_of v)).
Proof.
  intros Hm HQ s v s' Hs. unfold sbind, wrapped. destruct (List__ s) as [[n|x] s1] eqn:E; [|done].
  destruct (List_inv _ _ _ Hs E) as (Hn & Hs1 & Hr & Ht). intros Em.
  destruct (Hm _ _ _ _ Hs1 Em) as (vs & s2 & -> & HP & [Hr2 Ht2] & Hs2 & El).
  destruct (ListEnd_inv _ _ _ Hs2 El) as (Hst & Hr3 & Hs').
  rewrite Ht2, Ht in Hst. cbn in Hst. injection Hst as Hz Hst.
  assert (n = zlen (items vs)) as ->.
  { pose proof (so_small _ _ Hs1) as Hsm. rewrite Hr2, zlen_app in Hsm.
    pose proof (zlen_nonneg (items vs)). pose proof (zlen_nonneg (s_r s2)).
    revert Hz. unfold u64, wrap. intros Hz. apply Z.mod_divide in Hz as [q Hq]; [|done].
    change (2 ^ 64) with 18446744073709551616 in *. assert (q = 0) by nia. lia. }
  split; [by apply HQ|]. split; [|done]. cbn [item_of enc]. fold (items vs). split.
  - rewrite Hr, Hr2, Hr3. by rewrite app_assoc.
  - rewrite <- Hst, zlen_app, zlen_puthead by done. done.
Qed.

(** ** The end of a list *)

(** A decoder reports [EOL] only from its first look at the stream, and then it
    has read nothing. *)
Definition no_eol {A} (m : SM A) : Prop := ∀ s s', m s ≠ (Err EOL, s').

Lemma no_eol_bind {A B} (m : SM A) (f : A → SM B) : no_eol m → (∀ a, no_eol (f a)) → no_eol (sbind m f).
Proof. intros Hm Hf s s'. unfold sbind. destruct (m s) as [[a|e] s1] eqn:E; [apply Hf|]. intros [= -> ->]. by apply Hm in E. Qed.
Lemma no_eol_ret {A} (a : A) : no_eol (sret a).
Proof. by intros s s'. Qed.
Lemma no_eol_err {A} e : e ≠ EOL → no_eol (@serr A e).
Proof. intros He s s' [= ->]. done. Qed.
Lemma no_eol_if {A} (b : bool) (m1 m2 : SM A) : no_eol m1 → no_eol m2 → no_eol (if b then m1 else m2).
Proof. by destruct b. Qed.
Lemma no_eol_rearm : no_eol rearm.
Proof. by intros s s'. Qed.
Lemma no_eol_get : no_eol get.
Proof. by intros s s'. Qed.
Lemma no_eol_readFull n : no_eol (readFull n).
Proof.
  intros s s'. unfold readFull, sbind, willRead, take_r. repeat case_match; try done; naive_solver.
Qed.
Lemma no_eol_ListEnd : no_eol ListEnd.
Proof. intros s s'. unfold ListEnd, sbind. cbn [get]. repeat case_match; done. Qed.
Lemma no_eol_wrapped {A} (m : SM A) : no_eol m → no_eol (wrapped m).
Proof.
  intros H s s'. unfold wrapped. destruct (m s) as [[a|e] s1] eqn:E; [done|].
  destruct e; try done. by apply H in E.
Qed.
Lemma no_eol_readUint n : no_eol (readUint n).
Proof.
  unfold readUint. apply no_eol_if; [apply no_eol_bind; [apply no_eol_rearm|intros; apply no_eol_ret]|].
  apply no_eol_if.
  - intros s s'. unfold readByte, sbind, willRead, take_r. repeat case_match; try done; naive_solver.
  - apply no_eol_bind; [apply no_eol_readFull|]. intros b. apply no_eol_if; [by apply no_eol_err|apply no_eol_ret].
Qed.

Create HintDb eol.
#[local] Hint Resolve no_eol_ret no_eol_err no_eol_rearm no_eol_get no_eol_readFull no_eol_readUint
  no_eol_ListEnd no_eol_if no_eol_bind no_eol_wrapped : eol.

(** [EOL] comes from the first [Kind], which leaves the stream as it was. *)
Definition eol_first {A} (m : SM A) : Prop :=
  ∀ s s', stream_ok None s → m s = (Err EOL, s') → Kind_ s = (Err EOL, s').

Lemma Kind_eol s s' : stream_ok None s → Kind_ s = (Err EOL, s') → s' = s.
Proof.
  intros Hs. unfold Kind_. rewrite (so_kind _ _ Hs).
  assert (∀ k n s1, readKind_s s ≠ (k, n, Some EOL, s1)) as Hk.
  { intros k n s1. unfold readKind_s, readByte, sbind, willRead, take_r.
    pose proof (no_eol_readUint) as Hu. unfold no_eol in Hu.
    repeat case_match; try done; simplify_eq; try done; intros [=]; subst; naive_solver. }
  destruct (readKind_s s) as [[[k n] [e|]] s1] eqn:E; destruct (listLimit s) as [[|p|p]|]; try congruence;
    repeat case_match; try done; intros [= -> _]; exfalso; simplify_eq; by eapply Hk.
Qed.

Lemma eol_first_Kind {A} (f : Kind * Z → SM A) : (∀ x, no_eol (f x)) → eol_first (sbind Kind_ f).
Proof.
  intros Hf s s' Hs. unfold sbind. destruct (Kind_ s) as [[x|e] s1] eqn:E; [|by intros [= -> ->]].
  intros Ef. by apply Hf in Ef.
Qed.

Lemma eol_first_wrapped {A} (m : SM A) : eol_first m → eol_first (wrapped m).
Proof.
  intros H s s' Hs. unfold wrapped. destruct (m s) as [[a|e] s1] eqn:E; [done|].
  destruct e; try done. intros [= ->]. by apply H.
Qed.

Lemma eol_first_bind {A B} (m : SM A) (f : A → SM B) :
  eol_first m → (∀ a, no_eol (f a)) → eol_first (sbind m f).
Proof.
  intros Hm Hf s s' Hs. unfold sbind. destruct (m s) as [[a|e] s1] eqn:E.
  - intros Ef. by apply Hf in Ef.
  - intros [= -> ->]. by apply Hm.
Qed.

Lemma eol_first_List : eol_first List__.
Proof.
  apply eol_first_Kind. intros [[] n]; [by apply no_eol_err|by apply no_eol_err|].
  apply no_eol_bind; [apply no_eol_get|]. intros s. apply no_eol_bind; [by destruct (s_stack s)|].
  intros _. apply no_eol_bind; [apply no_eol_rearm|]. intros _ s0 s'. done.
Qed.

Lemma no_eol_decodeSliceElems {A} (m : SM A) fuel : no_eol (decodeSliceElems fuel m).
Proof.
  induction fuel as [|fuel IH]; intros s s'; cbn; destruct (m s) as [[a|e] s1]; try done; [by destruct e| |by destruct e].
  unfold sbind. destruct (decodeSliceElems fuel m s1) as [[l|e] s2] eqn:E; [done|]. intros [= -> ->]. by apply IH in E.
Qed.

Lemma no_eol_fields ts : no_eol (fields ts).
Proof.
  induction ts as [|t ts IH]; intros s s'; cbn; [done|]. destruct (decode t s) as [[a|e] s1]; [|by destruct e].
  unfold sbind. destruct (fields ts s1) as [[l|e] s2] eqn:E; [done|]. intros [= -> ->]. by apply IH in E.
Qed.

Lemma eol_first_uint bits : eol_first (uint bits).
Proof.
  apply eol_first_Kind. intros [[] n]; [|apply no_eol_if; [by apply no_eol_err|]|by apply no_eol_err].
  - intros s s'. unfold sbind, get. by destruct (_ =? 0).
  - intros s s'. destruct (readUint n s) as [[v|e] s1] eqn:E; [by destruct (_ && _)|].
    destruct e; try done. by apply no_eol_readUint in E.
Qed.

(** A string is read whole, and a single byte in long form refused. *)
Lemma no_eol_string n : no_eol (seq! b <- readFull n;
  if (n =? 1) && (hd 0 b <? 128) then serr ErrCanonSize else sret b).
Proof. apply no_eol_bind; [apply no_eol_readFull|]. intros b. apply no_eol_if; [by apply no_eol_err|apply no_eol_ret]. Qed.

Lemma no_eol_byte {A} (f : Z → A) : no_eol (seq! s <- get; seq! _ <- rearm; sret (f (s_byteval s))).
Proof. by intros s s'. Qed.

Lemma eol_first_Bytes : eol_first Bytes_.
Proof. apply eol_first_Kind. intros [[] n]; [apply (no_eol_byte (λ c, [c]))|apply no_eol_string|by apply no_eol_err]. Qed.

Lemma eol_first_BigInt : eol_first decodeBigInt.
Proof.
  apply eol_first_wrapped, eol_first_Kind. intros [k n]. apply no_eol_bind.
  - destruct k; [apply (no_eol_byte (λ c, [c]))|repeat apply no_eol_if|by apply no_eol_err].
    + by intros s s'.
    + apply no_eol_string.
    + apply no_eol_readFull.
  - intros [|[] l]; first [apply no_eol_ret | by apply no_eol_err].
Qed.

Lemma eol_first_ByteArray n : eol_first (decodeByteArray n).
Proof.
  apply eol_first_Kind. intros [[] m]; [|repeat apply no_eol_if|]; try by apply no_eol_err.
  - destruct n as [|[|n]]; [by apply no_eol_err|apply (no_eol_byte (λ c, [c]))|by apply no_eol_err].
  - apply no_eol_bind; [apply no_eol_readFull|]. intros b. apply no_eol_if; [by apply no_eol_err|apply no_eol_ret].
Qed.

Lemma eol_first_decode t : eol_first (decode t).
Proof.
  induction t as [bits| | | |n|t IH|ts _|k t IH] using gtype_ind'; cbn [decode];
    try (apply eol_first_bind; [|intros; apply no_eol_ret]).
  - apply eol_first_wrapped, eol_first_uint.
  - apply eol_first_wrapped, (eol_first_bind (uint 8)); [apply eol_first_uint|].
    intros a. apply no_eol_if; [apply no_eol_ret|]. apply no_eol_if; [apply no_eol_ret|by apply no_eol_err].
  - apply eol_first_BigInt.
  - apply eol_first_wrapped, eol_first_Bytes.
  - apply eol_first_ByteArray.
  - apply (eol_first_bind (wrapped List__)); [apply eol_first_wrapped, eol_first_List|].
    intros n. apply no_eol_if; (apply no_eol_bind; [|intros; eauto with eol]); [apply no_eol_ListEnd|].
    apply no_eol_decodeSliceElems.
  - apply (eol_first_bind (wrapped List__)); [apply eol_first_wrapped, eol_first_List|].
    intros n. apply no_eol_bind; [apply no_eol_fields|eauto with eol].
  - intros s s' Hs. unfold makeNilPtrDecoder, sbind, wrapped.
    destruct (Kind_ s) as [[[kd n]|e] s1] eqn:E; [|by destruct e; try done; intros [= ->]].
    assert (∀ s2, decode t s1 ≠ (Err EOL, s2)) as Hd.
    { intros s2. rewrite (decode_again t _ _ _ E). intros H. apply IH in H; [congruence|done]. }
    destruct (decode t s1) as [[v|e] s2] eqn:Ed; repeat case_match; try done; congruence.
Qed.

(** ** Whole values *)

(** The widths of integers that occur. *)
Fixpoint type_ok (t : gtype) : bool :=
  match t with
  | TUint bits => (bits =? 8) || (bits =? 64)
  | TSlice t | TPtr _ t => type_ok t
  | TStruct ts => forallb type_ok ts
  | _ => true
  end.

Definition canonical (t : gtype) : Prop := canon (decode t) (λ v, has_type t v = true) (λ v, enc (item_of v)).

Lemma SliceElems_inv t fuel : canonical t → ∀ s vs s',
  stream_ok None s → decodeSliceElems fuel (decode t) s = (Ok vs, s') →
  forallb (has_type t) vs = true ∧ took (items vs) s s' ∧ stream_ok None s'.
Proof.
  intros Ht. induction fuel as [|fuel IH]; intros s vs s' Hs; cbn;
    destruct (decode t s) as [[v|e] s1] eqn:E;
    try (destruct e; try done; intros [= <- <-]; apply eol_first_decode, Kind_eol in E; [|done..]; subst s1;
         split; [done|]; split; [by apply (took_nil None)|done]);
    destruct (Ht _ _ _ Hs E) as (Hv & Hk & Hs1).
  - intros [= <- <-]. cbn. unfold items. cbn. by rewrite Hv, app_nil_r.
  - unfold sbind. destruct (decodeSliceElems fuel (decode t) s1) as [[l|e] s2] eqn:El; [|done].
    intros [= <- <-]. destruct (IH _ _ _ Hs1 El) as (Hl & Hk2 & Hs2). cbn. rewrite Hv, Hl.
    split; [done|]. split; [exact (took_app _ _ _ _ _ Hk Hk2)|done].
Qed.

Lemma fields_inv ts : Forall canonical ts → ∀ s vs s',
  stream_ok None s → fields ts s = (Ok vs, s') →
  has_type (TStruct ts) (VList vs) = true ∧ took (items vs) s s' ∧ stream_ok None s'.
Proof.
  induction 1 as [|t ts Ht _ IH]; intros s vs s' Hs; cbn [fields].
  - intros [= <- <-]. split; [done|]. split; [by apply (took_nil None)|done].
  - destruct (decode t s) as [[v|e] s1] eqn:E; [|by destruct e].
    destruct (Ht _ _ _ Hs E) as (Hv & Hk & Hs1).
    unfold sbind. destruct (fields ts s1) as [[l|e] s2] eqn:El; [|done].
    intros [= <- <-]. destruct (IH _ _ _ Hs1 El) as (Hl & Hk2 & Hs2).
    split; [cbn; rewrite Hv; exact Hl|]. split; [exact (took_app _ _ _ _ _ Hk Hk2)|done].
Qed.

(** The first byte of a value that is not empty is not that of an empty one. *)
Lemma header_not_empty k size h s i rest rest' :
  header k size h s → (k = Byte ∨ size ≠ 0) → h ++ rest = enc i ++ rest' → item_empty i = false.
Proof.
  intros Hh Hne E. destruct (item_empty i) eqn:Ei; [|done]. exfalso.
  assert (∃ c, enc i = [c] ∧ (c = 0x80 ∨ c = 0xC0)) as (c & Ec & Hc).
  { destruct i as [[|]|[|]]; try done; eexists; (split; [done|]); by (left + right). }
  rewrite Ec in E. destruct k; cbn in Hh.
  - destruct Hh as (-> & -> & Hb). injection E as <- _. lia.
  - destruct Hne as [|Hne]; [done|]. destruct Hh as [Hr ->]. unfold puthead in E. pose proof (zlen_putint size).
    destruct (Z.ltb_spec size 56); injection E as E _; unfold u8 in E; rewrite wrap_id in E by (unfold in_w; lia); lia.
  - destruct Hne as [|Hne]; [done|]. destruct Hh as [Hr ->]. unfold puthead in E. pose proof (zlen_putint size).
    destruct (Z.ltb_spec size 56); injection E as E _; unfold u8 in E; rewrite wrap_id in E by (unfold in_w; lia); lia.
Qed.

Lemma canon_ptr nilList t : canonical t → canonical (TPtr nilList t).
Proof.
  intros Ht s v s' Hs. cbn [decode]. unfold makeNilPtrDecoder, sbind, wrapped.
  destruct (Kind_ s) as [[[k n]|e] s1] eqn:E; [|done].
  destruct (Kind_inv _ _ _ _ Hs E) as (h & [Hr Hst] & Hs1 & Hh & Hsz).
  assert (k = Byte ∨ n ≠ 0 →
    match decode t s1 with
    | (Ok a, s') => (Ok (VPtr nilList (Some a)), s') | (Err e, s') => (Err e, s')
    end = (Ok v, s') →
    has_type (TPtr nilList t) v = true ∧ took (enc (item_of v)) s s' ∧ stream_ok None s') as Hsome.
  { rewrite (decode_again t _ _ _ E). intros Hne. destruct (decode t s) as [[a|e] s2] eqn:Ed; [|done].
    intros [= <- <-]. destruct (Ht _ _ _ Hs Ed) as (Ha & Hk & Hs2). split; [|done].
    cbn. rewrite Bool.eqb_reflx, Ha. cbn. destruct Hk as [Hk _]. rewrite Hk in Hr.
    by rewrite (header_not_empty _ _ _ _ _ _ _ Hh Hne (eq_sym Hr)). }
  destruct k; cbn [Bool.eqb].
  - unfold sret. destruct (decode t s1) as [[a|e] s2]; apply Hsome; by left.
  - destruct (Z.eqb_spec n 0) as [->|Hn].
    + destruct nilList; [done|]. cbn. intros [= <- <-]. destruct (rearm_inv _ _ tt _ Hs1 eq_refl) as [_ ?].
      destruct Hh as [_ ->]. split; [done|]. by split; [split|].
    + unfold sret. destruct (decode t s1) as [[a|e] s2]; apply Hsome; by right.
  - destruct (Z.eqb_spec n 0) as [->|Hn].
    + destruct nilList; [|done]. cbn. intros [= <- <-]. destruct (rearm_inv _ _ tt _ Hs1 eq_refl) as [_ ?].
      destruct Hh as [_ ->]. split; [done|]. by split; [split|].
    + unfold sret. destruct (decode t s1) as [[a|e] s2]; apply Hsome; by right.
Qed.

Lemma decode_canonical t : type_ok t = true → canonical t.
Proof.
  induction t as [bits| | | |n|t IH|ts IH|k t IH] using gtype_ind'; intros Hok; cbn [type_ok] in Hok;
    [..|exact (canon_ptr k t (IH Hok))]; unfold canonical; cbn [decode].
  - assert (bits = 8 ∨ bits = 64) as Hb by lia.
    eapply canon_map; [by apply canon_wrapped, canon_uint|]. intros n Hn. split; [|done].
    cbn [has_type]. destruct Hb as [-> | ->]; lia.
  - eapply canon_map; [apply canon_wrapped, canon_Bool|]. done.
  - eapply canon_map; [apply canon_BigInt|]. intros i Hi. split; [|done]. apply Z.leb_le, Hi.
  - eapply canon_map; [apply canon_wrapped, canon_Bytes|]. intros b Hb. split; [|done].
    by apply bool_decide_eq_true_2.
  - eapply canon_map; [apply canon_ByteArray|]. intros b [Hb Hl]. split; [|done]. cbn.
    rewrite bool_decide_eq_true_2 by done. by rewrite Hl, Nat.eqb_refl.
  - assert (canon (sbind (wrapped List__) (λ n, seq! l <- (if n =? 0 then seq! _ <- ListEnd; sret [] else
        seq! l <- decodeSliceElems (Z.to_nat n) (decode t); seq! _ <- ListEnd; sret l); sret (VList l)))
      (λ v, has_type (TSlice t) v = true) (λ v, enc (item_of v))) as H.
    { apply (canon_list _ (λ vs, forallb (has_type t) vs = true)); [|done].
      intros n s v s' Hs. unfold sbind. destruct (Z.eqb_spec n 0).
      - destruct (ListEnd s) as [[[]|?] s1] eqn:E; [|done]. intros [= <- <-]. exists [], s.
        split_and!; try done. by apply (took_nil None).
      - destruct (decodeSliceElems _ _ s) as [[vs|?] s1] eqn:E; [|done].
        destruct (ListEnd s1) as [[[]|?] s2] eqn:El; [|done]. intros [= <- <-].
        destruct (SliceElems_inv t _ (IH Hok) _ _ _ Hs E) as (? & ? & ?). by exists vs, s1. }
    intros s v s' Hs Hd. apply (H s v s' Hs). revert Hd. unfold decodeListSlice, sbind, wrapped.
    destruct (List__ s) as [[n|e] s1]; done.
  - fold fields. apply (canon_list _ (λ vs, has_type (TStruct ts) (VList vs) = true)); [|done].
    intros n s v s' Hs. change (sbind (fields ts) (λ l, seq! _ <- wrapped ListEnd; sret (VList l)) s = (Ok v, s') →
      ∃ vs s2, v = VList vs ∧ has_type (TStruct ts) (VList vs) = true ∧ took (items vs) s s2 ∧ stream_ok None s2 ∧
        ListEnd s2 = (Ok tt, s')).
    unfold sbind, wrapped. destruct (fields ts s) as [[vs|?] s1] eqn:E; [|done].
    destruct (ListEnd s1) as [[[]|?] s2] eqn:El; [|done]. intros [= <- <-].
    destruct (fields_inv ts) with s vs s1 as (? & ? & ?); [|done|done|by exists vs, s1].
    rewrite forallb_forall in Hok. rewrite Forall_forall in IH |- *. intros t Hin. apply IH; [done|].
    by apply Hok, list_elem_of_In.
Qed.

(** What is accepted is the encoding of what is returned. *)
Lemma DecodeBytes_canonical t b v :
  type_ok t = true → wf_bytes b → zlen b < 2 ^ 64 → DecodeBytes t b = Ok v →
  has_type t v = true ∧ enc (item_of v) = b.
Proof.
  intros Ht Hb Hlen. unfold DecodeBytes. destruct (decode t (Reset b)) as [[v'|e] s] eqn:E; [|done].
  destruct (s_r s) eqn:Er; [|done]. intros [= ->].
  assert (stream_ok None (Reset b)) as Hs by (constructor; try done; by constructor).
  destruct (decode_canonical t Ht _ _ _ Hs E) as (Hv & [Hr _] & _).
  split; [done|]. cbn in Hr. by rewrite Er, app_nil_r in Hr.
Qed.

(** Encodings are bytes. *)
Lemma wf_puthead small large size : wf_bytes (puthead small large size).
Proof.
  assert (∀ x, is_byte (u8 x)) as H by (intros x; apply (wrap_range 8); lia).
  unfold puthead. destruct (size <? 56); repeat constructor; try apply H. apply wf_putint.
Qed.

Lemma wf_enc_str b : wf_bytes b → wf_bytes (enc_str b).
Proof.
  intros Hb. unfold enc_str. destruct b as [|c [|d b]]; [|destruct (c <=? 0x7F); [done|]|];
    apply Forall_app; (split; [apply wf_puthead|done]).
Qed.

Lemma wf_enc v : val_ok v = true → wf_bytes (enc (item_of v)).
Proof.
  induction v as [n|b|p|b|b|l IH|k|k v IH] using gval_ind'; cbn [val_ok item_of enc]; intros Hv;
    try (apply wf_enc_str; first [apply wf_be_min | by apply bool_decide_eq_true in Hv]).
  - destruct b; (constructor; [by split|constructor]).
  - destruct p; apply wf_enc_str; [apply wf_be_min|constructor].
  - apply Forall_app. split; [apply wf_puthead|]. induction IH as [|x l Hx _ IHl]; [constructor|].
    cbn [forallb map concat] in *. apply andb_prop in Hv as [H1 H2]. apply Forall_app. split; [by apply Hx|by apply IHl].
  - destruct k; (constructor; [by split|constructor]).
  - by apply IH.
Qed.

(** ** Claims *)

(** C40: the decoder is sound for its types and accepts canonical input only:
    when it accepts [b] at a type, the value it returns has that type, with
    every integer within its width, and encoding the value again gives exactly
    [b].  So no value has two accepted encodings, and the hash of an encoding
    identifies the value: leading zeros, long forms of short sizes, wrong kinds
    of empty values and list sizes that do not add up are all refused. *)
Theorem decoded_is_canonical t b v :
  type_ok t = true → wf_bytes b → zlen b < 2 ^ 64 → DecodeBytes t b = Ok v →
  has_type t v = true ∧ EncodeToBytes v = Ok b.
Proof.
  intros Ht Hb Hl Hd. destruct (DecodeBytes_canonical t b v Ht Hb Hl Hd) as [Hv He].
  split; [done|]. destruct (has_type_val_ok t v Hv). rewrite <- He. apply EncodeToBytes_enc; [done|done|].
  by rewrite He.
Qed.

Lemma decoded_is_canonical_witness :
  let b := [0xC8; 0x82; 4; 1; 0x80; 0xC3; 7; 0x81; 200] in
  let v := VList [VUint 1025; VPtr false None; VList [VBig (Some 7); VBig (Some 200)]] in
  has_type (TStruct [TUint 64; TPtr false (TArray 20); TSlice TBig]) v = true ∧ EncodeToBytes v = Ok b.
Proof.
  apply decoded_is_canonical; [reflexivity| |reflexivity|vm_compute; reflexivity].
  repeat constructor; lia.
Defined.
