(* ===== verification/Transaction.v ===== *)
(** * Transactions (core/types/transaction.go, legacy_tx.go, access_list_tx.go,
    dynamic_fee_tx.go)

    The three kinds of transaction data, their accessors, the derived prices, and
    their binary forms: a legacy transaction is an RLP list, the others are a type
    byte in front of one.  The integers of the data are pointers in Go, nil until
    [copy] fills them in; the records take the type of these fields as a
    parameter, [option Z] before the copy and [Z] in a transaction.  The main
    theorem is that decoding and encoding are inverse to each other. *)
From S2P Require Import Prelude Common RlpEncode RlpDecode RlpCanon.
Import Common.Bytes Common.GoMath RlpEncode.Enc RlpEncode.Raw RlpDecode.Dec.

(** ** Data *)

Definition AccessTuple : Type := address * list hash.
Definition AccessList : Type := list AccessTuple.

Definition StorageKeys (al : AccessList) : Z :=
  fold_left (λ sum tuple, sum + zlen (snd tuple)) al 0.

Record LegacyTx (I : Type) := mkLegacyTx {
  l_Nonce : Z; l_GasPrice : I; l_Gas : Z; l_To : option address; l_Value : I; l_Data : bytes;
  l_V : I; l_R : I; l_S : I }.

Record AccessListTx (I : Type) := mkAccessListTx {
  a_ChainID : I; a_Nonce : Z; a_GasPrice : I; a_Gas : Z; a_To : option address; a_Value : I;
  a_Data : bytes; a_AccessList : AccessList; a_V : I; a_R : I; a_S : I }.

Record DynamicFeeTx (I : Type) := mkDynamicFeeTx {
  d_ChainID : I; d_Nonce : Z; d_GasTipCap : I; d_GasFeeCap : I; d_Gas : Z; d_To : option address;
  d_Value : I; d_Data : bytes; d_AccessList : AccessList; d_V : I; d_R : I; d_S : I }.

Arguments mkLegacyTx {I}. Arguments l_Nonce {I}. Arguments l_GasPrice {I}. Arguments l_Gas {I}.
Arguments l_To {I}. Arguments l_Value {I}. Arguments l_Data {I}. Arguments l_V {I}. Arguments l_R {I}.
Arguments l_S {I}.
Arguments mkAccessListTx {I}. Arguments a_ChainID {I}. Arguments a_Nonce {I}. Arguments a_GasPrice {I}.
Arguments a_Gas {I}. Arguments a_To {I}. Arguments a_Value {I}. Arguments a_Data {I}.
Arguments a_AccessList {I}. Arguments a_V {I}. Arguments a_R {I}. Arguments a_S {I}.
Arguments mkDynamicFeeTx {I}. Arguments d_ChainID {I}. Arguments d_Nonce {I}. Arguments d_GasTipCap {I}.
Arguments d_GasFeeCap {I}. Arguments d_Gas {I}. Arguments d_To {I}. Arguments d_Value {I}.
Arguments d_Data {I}. Arguments d_AccessList {I}. Arguments d_V {I}. Arguments d_R {I}. Arguments d_S {I}.

(** The implementations of the [TxData] interface. *)
Inductive TxData_of (I : Type) :=
| Legacy (tx : LegacyTx I)
| AccessListT (tx : AccessListTx I)
| DynamicFee (tx : DynamicFeeTx I).
Arguments Legacy {I}. Arguments AccessListT {I}. Arguments DynamicFee {I}.
Definition TxData : Type := TxData_of Z.

#[export] Instance LegacyTx_eq_dec : EqDecision (LegacyTx Z).
Proof. solve_decision. Defined.
#[export] Instance AccessListTx_eq_dec : EqDecision (AccessListTx Z).
Proof. solve_decision. Defined.
#[export] Instance DynamicFeeTx_eq_dec : EqDecision (DynamicFeeTx Z).
Proof. solve_decision. Defined.
#[export] Instance TxData_eq_dec : EqDecision TxData.
Proof. solve_decision. Defined.

Definition LegacyTxType : Z := 0.
Definition AccessListTxType : Z := 1.
Definition DynamicFeeTxType : Z := 2.

(** [copy]: every integer is initialised, those that are set are copied. *)
Definition copyInt (p : option Z) : Z := default 0 p.

Definition LegacyTx_copy (tx : LegacyTx (option Z)) : LegacyTx Z :=
  mkLegacyTx (l_Nonce tx) (copyInt (l_GasPrice tx)) (l_Gas tx) (l_To tx) (copyInt (l_Value tx)) (l_Data tx)
    (copyInt (l_V tx)) (copyInt (l_R tx)) (copyInt (l_S tx)).
Definition AccessListTx_copy (tx : AccessListTx (option Z)) : AccessListTx Z :=
  mkAccessListTx (copyInt (a_ChainID tx)) (a_Nonce tx) (copyInt (a_GasPrice tx)) (a_Gas tx) (a_To tx)
    (copyInt (a_Value tx)) (a_Data tx) (a_AccessList tx) (copyInt (a_V tx)) (copyInt (a_R tx)) (copyInt (a_S tx)).
Definition DynamicFeeTx_copy (tx : DynamicFeeTx (option Z)) : DynamicFeeTx Z :=
  mkDynamicFeeTx (copyInt (d_ChainID tx)) (d_Nonce tx) (copyInt (d_GasTipCap tx)) (copyInt (d_GasFeeCap tx))
    (d_Gas tx) (d_To tx) (copyInt (d_Value tx)) (d_Data tx) (d_AccessList tx)
    (copyInt (d_V tx)) (copyInt (d_R tx)) (copyInt (d_S tx)).
Definition copy (tx : TxData_of (option Z)) : TxData :=
  match tx with
  | Legacy t => Legacy (LegacyTx_copy t)
  | AccessListT t => AccessListT (AccessListTx_copy t)
  | DynamicFee t => DynamicFee (DynamicFeeTx_copy t)
  end.

(** ** Signature values that carry a chain id *)

Definition isProtectedV (V : Z) : bool :=
  if bitlen V <=? 8 then
    let v := u64 V in negb (v =? 27) && negb (v =? 28) && negb (v =? 1) && negb (v =? 0)
  else true.

Definition deriveChainId (v : Z) : Z :=
  if bitlen v <=? 64 then
    let v := u64 v in
    if (v =? 27) || (v =? 28) then 0 else u64 (v - 35) / 2
  else (v - 35) / 2.

(** ** Accessors *)

Definition Type_ (tx : TxData) : Z :=
  match tx with Legacy _ => LegacyTxType | AccessListT _ => AccessListTxType | DynamicFee _ => DynamicFeeTxType end.
Definition ChainId (tx : TxData) : Z :=
  match tx with Legacy t => deriveChainId (l_V t) | AccessListT t => a_ChainID t | DynamicFee t => d_ChainID t end.
(** [None] is the nil slice. *)
Definition AccessList_ (tx : TxData) : option AccessList :=
  match tx with Legacy _ => None | AccessListT t => Some (a_AccessList t) | DynamicFee t => Some (d_AccessList t) end.
Definition Data (tx : TxData) : bytes :=
  match tx with Legacy t => l_Data t | AccessListT t => a_Data t | DynamicFee t => d_Data t end.
Definition Gas (tx : TxData) : Z :=
  match tx with Legacy t => l_Gas t | AccessListT t => a_Gas t | DynamicFee t => d_Gas t end.
Definition GasPrice (tx : TxData) : Z :=
  match tx with Legacy t => l_GasPrice t | AccessListT t => a_GasPrice t | DynamicFee t => d_GasFeeCap t end.
Definition GasTipCap (tx : TxData) : Z :=
  match tx with Legacy t => l_GasPrice t | AccessListT t => a_GasPrice t | DynamicFee t => d_GasTipCap t end.
Definition GasFeeCap (tx : TxData) : Z :=
  match tx with Legacy t => l_GasPrice t | AccessListT t => a_GasPrice t | DynamicFee t => d_GasFeeCap t end.
Definition Value (tx : TxData) : Z :=
  match tx with Legacy t => l_Value t | AccessListT t => a_Value t | DynamicFee t => d_Value t end.
Definition Nonce (tx : TxData) : Z :=
  match tx with Legacy t => l_Nonce t | AccessListT t => a_Nonce t | DynamicFee t => d_Nonce t end.
Definition To (tx : TxData) : option address :=
  match tx with Legacy t => l_To t | AccessListT t => a_To t | DynamicFee t => d_To t end.
(** [V], [R] and [S]. *)
Definition RawSignatureValues (tx : TxData) : Z * Z * Z :=
  match tx with
  | Legacy t => (l_V t, l_R t, l_S t)
  | AccessListT t => (a_V t, a_R t, a_S t)
  | DynamicFee t => (d_V t, d_R t, d_S t)
  end.

(** A legacy transaction has no field for the chain id. *)
Definition setSignatureValues (chainID v r s : Z) (tx : TxData) : TxData :=
  match tx with
  | Legacy t =>
      Legacy (mkLegacyTx (l_Nonce t) (l_GasPrice t) (l_Gas t) (l_To t) (l_Value t) (l_Data t) v r s)
  | AccessListT t =>
      AccessListT (mkAccessListTx chainID (a_Nonce t) (a_GasPrice t) (a_Gas t) (a_To t) (a_Value t) (a_Data t)
        (a_AccessList t) v r s)
  | DynamicFee t =>
      DynamicFee (mkDynamicFeeTx chainID (d_Nonce t) (d_GasTipCap t) (d_GasFeeCap t) (d_Gas t) (d_To t)
        (d_Value t) (d_Data t) (d_AccessList t) v r s)
  end.

Definition Protected (tx : TxData) : bool :=
  match tx with Legacy t => isProtectedV (l_V t) | _ => true end.

(** ** Prices *)

Definition Cost (tx : TxData) : Z := GasPrice tx * Gas tx + Value tx.

Definition GasFeeCapCmp (tx other : TxData) : Z := big_Cmp (GasFeeCap tx) (GasFeeCap other).
Definition GasFeeCapIntCmp (tx : TxData) (other : Z) : Z := big_Cmp (GasFeeCap tx) other.
Definition GasTipCapCmp (tx other : TxData) : Z := big_Cmp (GasTipCap tx) (GasTipCap other).
Definition GasTipCapIntCmp (tx : TxData) (other : Z) : Z := big_Cmp (GasTipCap tx) other.

(** The tip and whether the fee cap is below the base fee
    ([ErrGasFeeCapTooLow]). *)
Definition EffectiveGasTip (tx : TxData) (baseFee : option Z) : Z * bool :=
  match baseFee with
  | None => (GasTipCap tx, false)
  | Some baseFee =>
      (BigMin (GasTipCap tx) (GasFeeCap tx - baseFee), big_Cmp (GasFeeCap tx) baseFee =? -1)
  end.
Definition EffectiveGasTipValue (tx : TxData) (baseFee : option Z) : Z := fst (EffectiveGasTip tx baseFee).
Definition EffectiveGasTipCmp (tx other : TxData) (baseFee : option Z) : Z :=
  match baseFee with
  | None => GasTipCapCmp tx other
  | _ => big_Cmp (EffectiveGasTipValue tx baseFee) (EffectiveGasTipValue other baseFee)
  end.
Definition EffectiveGasTipIntCmp (tx : TxData) (other : Z) (baseFee : option Z) : Z :=
  match baseFee with
  | None => GasTipCapIntCmp tx other
  | _ => big_Cmp (EffectiveGasTipValue tx baseFee) other
  end.

(** ** Values and types of the RLP coding *)

Definition addr_val (a : address) : gval := VArray (Address_Bytes a).
(** A pointer to an address: nil is the empty string, from the [nil] tag of the
    struct fields and by default in a list of values. *)
Definition to_val (p : option address) : gval := VPtr false (addr_val <$> p).
Definition tuple_val (t : AccessTuple) : gval :=
  VList [addr_val (fst t); VList (map (λ k, VArray (Hash_Bytes k)) (snd t))].
Definition al_val (al : AccessList) : gval := VList (map tuple_val al).
Definition big_val (i : Z) : gval := VBig (Some i).

Definition to_type : gtype := TPtr false (TArray 20).
Definition al_type : gtype := TSlice (TStruct [TArray 20; TSlice (TArray 32)]).

Definition inner_val (tx : TxData) : gval :=
  match tx with
  | Legacy t =>
      VList [VUint (l_Nonce t); big_val (l_GasPrice t); VUint (l_Gas t); to_val (l_To t); big_val (l_Value t);
        VBytes (l_Data t); big_val (l_V t); big_val (l_R t); big_val (l_S t)]
  | AccessListT t =>
      VList [big_val (a_ChainID t); VUint (a_Nonce t); big_val (a_GasPrice t); VUint (a_Gas t); to_val (a_To t);
        big_val (a_Value t); VBytes (a_Data t); al_val (a_AccessList t); big_val (a_V t); big_val (a_R t);
        big_val (a_S t)]
  | DynamicFee t =>
      VList [big_val (d_ChainID t); VUint (d_Nonce t); big_val (d_GasTipCap t); big_val (d_GasFeeCap t);
        VUint (d_Gas t); to_val (d_To t); big_val (d_Value t); VBytes (d_Data t); al_val (d_AccessList t);
        big_val (d_V t); big_val (d_R t); big_val (d_S t)]
  end.

Definition LegacyTx_type : gtype :=
  TStruct [TUint 64; TBig; TUint 64; to_type; TBig; TBytes; TBig; TBig; TBig].
Definition AccessListTx_type : gtype :=
  TStruct [TBig; TUint 64; TBig; TUint 64; to_type; TBig; TBytes; al_type; TBig; TBig; TBig].
Definition DynamicFeeTx_type : gtype :=
  TStruct [TBig; TUint 64; TBig; TBig; TUint 64; to_type; TBig; TBytes; al_type; TBig; TBig; TBig].

(** Reading a decoded struct. *)
Definition tuple_of (v : gval) : option AccessTuple :=
  match v with
  | VList [VArray a; VList ks] =>
      ks ← mapM (λ k, match k with VArray k => Some (be_decode k) | _ => None end) ks;
      Some (be_decode a, ks)
  | _ => None
  end.
Definition al_of (v : gval) : option AccessList :=
  match v with VList l => mapM tuple_of l | _ => None end.
Definition to_of (v : gval) : option (option address) :=
  match v with
  | VPtr _ None => Some None
  | VPtr _ (Some (VArray a)) => Some (Some (be_decode a))
  | _ => None
  end.

Definition LegacyTx_of (v : gval) : option TxData :=
  match v with
  | VList [VUint n; VBig (Some p); VUint g; t; VBig (Some v); VBytes d; VBig (Some sv); VBig (Some r); VBig (Some s)] =>
      to ← to_of t; Some (Legacy (mkLegacyTx n p g to v d sv r s))
  | _ => None
  end.
Definition AccessListTx_of (v : gval) : option TxData :=
  match v with
  | VList [VBig (Some c); VUint n; VBig (Some p); VUint g; t; VBig (Some v); VBytes d; al;
           VBig (Some sv); VBig (Some r); VBig (Some s)] =>
      to ← to_of t; al ← al_of al; Some (AccessListT (mkAccessListTx c n p g to v d al sv r s))
  | _ => None
  end.
Definition DynamicFeeTx_of (v : gval) : option TxData :=
  match v with
  | VList [VBig (Some c); VUint n; VBig (Some tip); VBig (Some fee); VUint g; t; VBig (Some v); VBytes d; al;
           VBig (Some sv); VBig (Some r); VBig (Some s)] =>
      to ← to_of t; al ← al_of al; Some (DynamicFee (mkDynamicFeeTx c n tip fee g to v d al sv r s))
  | _ => None
  end.

(** ** Binary forms *)

Inductive tx_decode_error :=
| txRlpError (e : rlp_error)
| errEmptyTypedTx
| ErrTxTypeNotSupported.

(** [rlp.DecodeBytes] into a struct; a value of the struct's type can always be
    read ([read_typed]). *)
Definition decode_into (t : gtype) (read : gval → option TxData) (b : bytes) : result tx_decode_error TxData :=
  match DecodeBytes t b with
  | Err e => Err (txRlpError e)
  | Ok v => match read v with Some tx => Ok tx | None => Err ErrTxTypeNotSupported end
  end.

Definition decodeTyped (b : bytes) : result tx_decode_error TxData :=
  match b with
  | [] => Err errEmptyTypedTx
  | c :: b' =>
      if c =? AccessListTxType then decode_into AccessListTx_type AccessListTx_of b'
      else if c =? DynamicFeeTxType then decode_into DynamicFeeTx_type DynamicFeeTx_of b'
      else Err ErrTxTypeNotSupported
  end.

Definition encodeTyped (tx : TxData) : result string bytes :=
  try! b <- EncodeToBytes (inner_val tx); Ok (Type_ tx :: b).

Definition MarshalBinary (tx : TxData) : result string bytes :=
  if Type_ tx =? LegacyTxType then EncodeToBytes (inner_val tx) else encodeTyped tx.

Definition UnmarshalBinary (b : bytes) : result tx_decode_error TxData :=
  if (0 <? zlen b) && (0x7f <? hd 0 b) then decode_into LegacyTx_type LegacyTx_of b
  else decodeTyped b.

(** A transaction inside a list: a typed one is wrapped into a string. *)
Definition EncodeRLP (tx : TxData) : result string bytes :=
  if Type_ tx =? LegacyTxType then EncodeToBytes (inner_val tx)
  else try! b <- encodeTyped tx; EncodeToBytes (VBytes b).

Definition DecodeRLP (s : Stream) : result tx_decode_error TxData * Stream :=
  match Kind_ s with
  | (Err e, s1) => (Err (txRlpError e), s1)
  | (Ok (List_, _), s1) =>
      match decode LegacyTx_type s1 with
      | (Err e, s2) => (Err (txRlpError e), s2)
      | (Ok v, s2) =>
          (match LegacyTx_of v with Some tx => Ok tx | None => Err ErrTxTypeNotSupported end, s2)
      end
  | (Ok (String_, _), s1) =>
      match Bytes_ s1 with
      | (Err e, s2) => (Err (txRlpError e), s2)
      | (Ok b, s2) => (decodeTyped b, s2)
      end
  | (Ok (Byte, _), s1) => (Err (txRlpError ErrExpectedList), s1)
  end.

(** ** Transactions whose fields fit their types *)

Definition addr_ok (a : address) : bool := (0 <=? a) && (a <? 2 ^ 160).
Definition to_ok (p : option address) : bool := match p with None => true | Some a => addr_ok a end.
Definition tuple_ok (t : AccessTuple) : bool :=
  addr_ok (fst t) && forallb (λ k, (0 <=? k) && (k <? 2 ^ 256)) (snd t).
Definition u64_ok (n : Z) : bool := (0 <=? n) && (n <? 2 ^ 64).
Definition bytes_ok (b : bytes) : bool := bool_decide (wf_bytes b).
Definition nn (i : Z) : bool := 0 <=? i.

Definition tx_ok (tx : TxData) : bool :=
  match tx with
  | Legacy t =>
      u64_ok (l_Nonce t) && nn (l_GasPrice t) && u64_ok (l_Gas t) && to_ok (l_To t) && nn (l_Value t) &&
      bytes_ok (l_Data t) && nn (l_V t) && nn (l_R t) && nn (l_S t)
  | AccessListT t =>
      nn (a_ChainID t) && u64_ok (a_Nonce t) && nn (a_GasPrice t) && u64_ok (a_Gas t) && to_ok (a_To t) &&
      nn (a_Value t) && bytes_ok (a_Data t) && forallb tuple_ok (a_AccessList t) &&
      nn (a_V t) && nn (a_R t) && nn (a_S t)
  | DynamicFee t =>
      nn (d_ChainID t) && u64_ok (d_Nonce t) && nn (d_GasTipCap t) && nn (d_GasFeeCap t) && u64_ok (d_Gas t) &&
      to_ok (d_To t) && nn (d_Value t) && bytes_ok (d_Data t) && forallb tuple_ok (d_AccessList t) &&
      nn (d_V t) && nn (d_R t) && nn (d_S t)
  end.

(** ** Values and transactions correspond *)

#[local] Arguments be_decode : simpl never.
#[local] Arguments be_fixed : simpl never.
#[local] Arguments Address_Bytes : simpl never.
#[local] Arguments Hash_Bytes : simpl never.
#[local] Arguments addr_ok : simpl never.
#[local] Arguments Z.ltb : simpl never.
#[local] Arguments Z.leb : simpl never.

Lemma Address_Bytes_decode a : length a = 20%nat → wf_bytes a → Address_Bytes (be_decode a) = a ∧ addr_ok (be_decode a) = true.
Proof.
  intros Hl Hw. split; [unfold Address_Bytes; rewrite <- Hl; by apply be_fixed_decode|].
  pose proof (be_decode_range a Hw) as Hr. rewrite Hl in Hr. change (256 ^ Z.of_nat 20) with (2 ^ 160) in Hr.
  unfold addr_ok. lia.
Qed.
Lemma Hash_Bytes_decode a :
  length a = 32%nat → wf_bytes a →
  Hash_Bytes (be_decode a) = a ∧ (0 <=? be_decode a) && (be_decode a <? 2 ^ 256) = true.
Proof.
  intros Hl Hw. split; [unfold Hash_Bytes; rewrite <- Hl; by apply be_fixed_decode|].
  pose proof (be_decode_range a Hw) as Hr. rewrite Hl in Hr. change (256 ^ Z.of_nat 32) with (2 ^ 256) in Hr. lia.
Qed.
Lemma decode_Address a : addr_ok a = true → be_decode (Address_Bytes a) = a.
Proof. intros H. unfold addr_ok in H. unfold Address_Bytes. rewrite be_decode_fixed. apply Z.mod_small. change (256 ^ Z.of_nat 20) with (2 ^ 160). lia. Qed.
Lemma decode_Hash k : (0 <=? k) && (k <? 2 ^ 256) = true → be_decode (Hash_Bytes k) = k.
Proof. intros H. unfold Hash_Bytes. rewrite be_decode_fixed. apply Z.mod_small. change (256 ^ Z.of_nat 32) with (2 ^ 256). lia. Qed.

Lemma array_typed n z : has_type (TArray n) (VArray (be_fixed n z)) = true.
Proof. cbn [has_type]. rewrite bool_decide_eq_true_2 by apply wf_be_fixed. by rewrite length_be_fixed, Nat.eqb_refl. Qed.

Lemma array_inv n v : has_type (TArray n) v = true → ∃ b, v = VArray b ∧ length b = n ∧ wf_bytes b.
Proof.
  destruct v; cbn; try done. intros [H1%bool_decide_eq_true H2%Nat.eqb_eq]%andb_prop. eauto.
Qed.
Lemma big_inv v : has_type TBig v = true → ∃ i, v = big_val i ∧ nn i = true.
Proof. destruct v as [| |[i|]| | | |]; try done. intros H. by exists i. Qed.
Lemma uint_inv v : has_type (TUint 64) v = true → ∃ n, v = VUint n ∧ u64_ok n = true.
Proof. destruct v; try done. cbn [has_type]. intros [H _]%andb_prop. by eexists. Qed.
Lemma bytes_inv v : has_type TBytes v = true → ∃ b, v = VBytes b ∧ bytes_ok b = true.
Proof. destruct v; try done. intros H. by eexists. Qed.
Lemma uint_typed n : u64_ok n = true → has_type (TUint 64) (VUint n) = true.
Proof. intros H. cbn [has_type]. unfold u64_ok in H. by rewrite H. Qed.

Lemma to_typed p : to_ok p = true → has_type to_type (to_val p) = true ∧ to_of (to_val p) = Some p.
Proof.
  destruct p as [a|]; [|done]. intros H. cbn [to_ok] in H. split.
  - change (Bool.eqb false false && has_type (TArray 20) (addr_val a) && negb (item_empty (item_of (addr_val a))) = true).
    unfold addr_val, Address_Bytes. rewrite array_typed. cbn [item_of].
    destruct (be_fixed 20 a) eqn:E; [|done]. by apply (f_equal length) in E; rewrite length_be_fixed in E.
  - change (Some (Some (be_decode (Address_Bytes a))) = Some (Some a)). by rewrite decode_Address.
Qed.
Lemma to_inv v : has_type to_type v = true → ∃ p, to_of v = Some p ∧ to_val p = v ∧ to_ok p = true.
Proof.
  destruct v as [| | | | | |k [v|]]; try done; cbn [to_type has_type]; intros H.
  - apply andb_prop in H as [[<-%Bool.eqb_prop H]%andb_prop _].
    destruct (array_inv 20 v H) as (b & -> & Hl & Hw). destruct (Address_Bytes_decode b Hl Hw) as [E1 E2].
    exists (Some (be_decode b)). split; [done|]. split; [|done]. change (VPtr false (Some (VArray (Address_Bytes (be_decode b)))) = VPtr false (Some (VArray b))). by rewrite E1.
  - apply Bool.eqb_prop in H as <-. by exists None.
Qed.

Lemma keys_inv l : forallb (has_type (TArray 32)) l = true → ∃ ks,
  mapM (λ k, match k with VArray k => Some (be_decode k) | _ => None end) l = Some ks ∧
  map (λ k, VArray (Hash_Bytes k)) ks = l ∧ forallb (λ k, (0 <=? k) && (k <? 2 ^ 256)) ks = true.
Proof.
  induction l as [|v l IH]; cbn [forallb]; [by exists []|]. intros [Hv Hl]%andb_prop.
  destruct (array_inv 32 v Hv) as (b & -> & Hb & Hw). destruct (Hash_Bytes_decode b Hb Hw) as [E1 E2].
  destruct (IH Hl) as (ks & Em & Ev & Ek). exists (be_decode b :: ks). cbn [mapM]. rewrite Em.
  split; [done|]. cbn [map forallb]. by rewrite E1, Ev, E2, Ek.
Qed.
Lemma keys_typed ks : forallb (λ k, (0 <=? k) && (k <? 2 ^ 256)) ks = true →
  forallb (has_type (TArray 32)) (map (λ k, VArray (Hash_Bytes k)) ks) = true ∧
  mapM (λ k, match k with VArray k => Some (be_decode k) | _ => None end) (map (λ k, VArray (Hash_Bytes k)) ks) = Some ks.
Proof.
  induction ks as [|k ks IH]; cbn [forallb map]; [done|]. intros [Hk [IH1 IH2]%IH]%andb_prop. split.
  - unfold Hash_Bytes. by rewrite array_typed.
  - cbn [mapM]. rewrite IH2, decode_Hash by done. done.
Qed.

Lemma al_of_inv v : has_type al_type v = true →
  ∃ al, al_of v = Some al ∧ al_val al = v ∧ forallb tuple_ok al = true.
Proof.
  destruct v as [| | | | |l|]; try done. unfold al_type. cbn [has_type al_of].
  change (forallb (has_type (TStruct [TArray 20; TSlice (TArray 32)])) l = true →
    ∃ al, mapM tuple_of l = Some al ∧ al_val al = VList l ∧ forallb tuple_ok al = true).
  unfold al_val. induction l as [|v l IH]; [by exists []|]. cbn [forallb]. intros [Hv Hl]%andb_prop.
  destruct (IH Hl) as (al & Em & [= Ev] & Ek).
  destruct v as [| | | | |[|a [|[| | | | |ks|] [|]]]|]; try done; try (by cbn in Hv; rewrite ?andb_false_r in Hv).
  cbn [has_type] in Hv. apply andb_prop in Hv as [Ha [Hks _]%andb_prop].
  destruct (array_inv 20 a Ha) as (b & -> & Hb & Hw). destruct (Address_Bytes_decode b Hb Hw) as [E1 E2].
  destruct (keys_inv ks Hks) as (ks' & Ek1 & Ek2 & Ek3).
  exists ((be_decode b, ks') :: al). cbn [mapM tuple_of]. rewrite Ek1. cbn. rewrite Em. split; [done|].
  split; [|cbn [forallb]; unfold tuple_ok at 1; cbn [fst snd]; by rewrite E2, Ek3, Ek].
  cbn [map]. rewrite Ev. unfold tuple_val, addr_val. cbn. by rewrite E1, Ek2.
Qed.
Lemma al_typed al : forallb tuple_ok al = true →
  has_type al_type (al_val al) = true ∧ al_of (al_val al) = Some al.
Proof.
  unfold al_val, al_type. cbn [has_type al_of]. induction al as [|[a ks] al IH]; [done|]. cbn [forallb map].
  intros [[Ha Hk]%andb_prop [IH1 IH2]%IH]%andb_prop. destruct (keys_typed ks Hk) as [H1 H2]. cbn [fst snd] in *. split.
  - rewrite IH1, andb_true_r.
    change (has_type (TArray 20) (VArray (be_fixed 20 a)) &&
      (forallb (has_type (TArray 32)) (map (λ k, VArray (Hash_Bytes k)) ks) && true) = true).
    by rewrite H1, array_typed.
  - cbn [mapM]. rewrite IH2. cbn. rewrite H2. cbn. by rewrite decode_Address.
Qed.

(** The type a transaction is coded with and the reader of its struct. *)
Definition tx_gtype (tx : TxData) : gtype :=
  match tx with
  | Legacy _ => LegacyTx_type | AccessListT _ => AccessListTx_type | DynamicFee _ => DynamicFeeTx_type
  end.
Definition tx_read (tx : TxData) : gval → option TxData :=
  match tx with Legacy _ => LegacyTx_of | AccessListT _ => AccessListTx_of | DynamicFee _ => DynamicFeeTx_of end.

(** A struct is typed field by field. *)
Lemma struct_cons t ts v vs :
  has_type (TStruct (t :: ts)) (VList (v :: vs)) = has_type t v && has_type (TStruct ts) (VList vs).
Proof. done. Qed.

Lemma struct_inv t ts v :
  has_type (TStruct (t :: ts)) v = true →
  ∃ x vs, v = VList (x :: vs) ∧ has_type t x = true ∧ has_type (TStruct ts) (VList vs) = true.
Proof.
  destruct v as [| | | | |[|x vs]|]; try done. rewrite struct_cons. intros [H1 H2]%andb_prop. by exists x, vs.
Qed.

Lemma struct_nil v : has_type (TStruct []) (VList v) = true → v = [].
Proof. by destruct v. Qed.

#[local] Ltac split_ok H :=
  repeat match type of H with _ && _ = true => let H' := fresh "H" in apply andb_prop in H as [H H'] end.

(** Every transaction is a value of its type, and is read back from it. *)
Lemma inner_val_typed tx :
  tx_ok tx = true → has_type (tx_gtype tx) (inner_val tx) = true ∧ tx_read tx (inner_val tx) = Some tx.
Proof.
  destruct tx as [t|t|t]; cbn [tx_ok tx_gtype inner_val tx_read]; intros H; split_ok H.
  - destruct (to_typed (l_To t)) as [T1 T2]; [done|]. split.
    + unfold LegacyTx_type. rewrite !struct_cons, !uint_typed, T1 by done. cbn. unfold nn, bytes_ok in *.
      by repeat (apply andb_true_intro; split).
    + unfold LegacyTx_of, big_val. rewrite T2. by destruct t.
  - destruct (to_typed (a_To t)) as [T1 T2]; [done|]. destruct (al_typed (a_AccessList t)) as [A1 A2]; [done|]. split.
    + unfold AccessListTx_type. rewrite !struct_cons, !uint_typed, T1, A1 by done. cbn. unfold nn, bytes_ok in *.
      by repeat (apply andb_true_intro; split).
    + unfold AccessListTx_of, big_val. rewrite T2, A2. by destruct t.
  - destruct (to_typed (d_To t)) as [T1 T2]; [done|]. destruct (al_typed (d_AccessList t)) as [A1 A2]; [done|]. split.
    + unfold DynamicFeeTx_type. rewrite !struct_cons, !uint_typed, T1, A1 by done. cbn. unfold nn, bytes_ok in *.
      by repeat (apply andb_true_intro; split).
    + unfold DynamicFeeTx_of, big_val. rewrite T2, A2. by destruct t.
Qed.

(** A conjunction of known tests. *)
#[local] Ltac all_true :=
  repeat match goal with H : ?b = true |- context [?b] => rewrite H; clear H end; reflexivity.

(** Take the typed fields of a struct apart. *)
#[local] Ltac field_inv H :=
  let x := fresh "x" in let vs := fresh "vs" in let Hx := fresh "Hx" in let E := fresh "E" in
  apply struct_inv in H as (x & vs & E & Hx & H); first [injection E as -> | subst];
  first
    [ apply uint_inv in Hx as (? & -> & ?) | apply big_inv in Hx as (? & -> & ?)
    | apply bytes_inv in Hx as (? & -> & ?) | apply to_inv in Hx as (? & ? & <- & ?)
    | apply al_of_inv in Hx as (? & ? & <- & ?) ].

Lemma LegacyTx_inv v : has_type LegacyTx_type v = true →
  ∃ tx, LegacyTx_of v = Some tx ∧ inner_val tx = v ∧ tx_ok tx = true ∧ Type_ tx = LegacyTxType.
Proof.
  unfold LegacyTx_type. intros H. do 9 field_inv H. apply struct_nil in H. subst.
  eexists. unfold LegacyTx_of, big_val. split; [by match goal with E : to_of _ = _ |- _ => rewrite E end|].
  split; [done|]. split; [|done]. cbn [tx_ok l_Nonce l_GasPrice l_Gas l_To l_Value l_Data l_V l_R l_S].
  all_true.
Qed.
Lemma AccessListTx_inv v : has_type AccessListTx_type v = true →
  ∃ tx, AccessListTx_of v = Some tx ∧ inner_val tx = v ∧ tx_ok tx = true ∧ Type_ tx = AccessListTxType.
Proof.
  unfold AccessListTx_type. intros H. do 11 field_inv H. apply struct_nil in H. subst.
  eexists. unfold AccessListTx_of, big_val.
  split; [match goal with E : to_of _ = _, A : al_of _ = _ |- _ => by rewrite E, A end|].
  split; [done|]. split; [|done].
  cbn [tx_ok a_ChainID a_Nonce a_GasPrice a_Gas a_To a_Value a_Data a_AccessList a_V a_R a_S].
  all_true.
Qed.
Lemma DynamicFeeTx_inv v : has_type DynamicFeeTx_type v = true →
  ∃ tx, DynamicFeeTx_of v = Some tx ∧ inner_val tx = v ∧ tx_ok tx = true ∧ Type_ tx = DynamicFeeTxType.
Proof.
  unfold DynamicFeeTx_type. intros H. do 12 field_inv H. apply struct_nil in H. subst.
  eexists. unfold DynamicFeeTx_of, big_val.
  split; [match goal with E : to_of _ = _, A : al_of _ = _ |- _ => by rewrite E, A end|].
  split; [done|]. split; [|done].
  cbn [tx_ok d_ChainID d_Nonce d_GasTipCap d_GasFeeCap d_Gas d_To d_Value d_Data d_AccessList d_V d_R d_S].
  all_true.
Qed.

(** A struct of a transaction that can be coded: the fields fit their types and
    the length of the encoding fits 64 bits. *)
Definition tx_fits (tx : TxData) : Prop :=
  tx_ok tx = true ∧ zlen (enc (item_of (inner_val tx))) < 2 ^ 64 - 16.

Lemma inner_encoded tx : tx_fits tx → EncodeToBytes (inner_val tx) = Ok (enc (item_of (inner_val tx))).
Proof.
  intros [Hok Hl]. destruct (inner_val_typed tx Hok) as [Ht _]. destruct (has_type_val_ok _ _ Ht).
  apply EncodeToBytes_enc; [done|done|lia].
Qed.

Lemma inner_decoded tx :
  tx_fits tx → decode_into (tx_gtype tx) (tx_read tx) (enc (item_of (inner_val tx))) = Ok tx.
Proof.
  intros [Hok Hl]. destruct (inner_val_typed tx Hok) as [Ht Hr]. unfold decode_into.
  by rewrite DecodeBytes_enc, Hr by (done || lia).
Qed.

(** The encoding of a struct starts with a list header. *)
Lemma inner_list tx : ∃ l, item_of (inner_val tx) = Lst l.
Proof. destruct tx; by eexists. Qed.

Lemma enc_Lst_head l : zlen (enc (Lst l)) < 2 ^ 64 → ∃ c t, enc (Lst l) = c :: t ∧ 0xC0 ≤ c.
Proof.
  intros Hl. cbn [enc] in *. set (c := concat (map enc l)) in *. rewrite zlen_app in Hl.
  pose proof (zlen_puthead_le 0xC0 0xF7 (zlen c)). pose proof (zlen_nonneg c).
  unfold puthead. pose proof (zlen_putint (zlen c)). destruct (Z.ltb_spec (zlen c) 56);
    (eexists _, _; split; [done|]); unfold u8; rewrite wrap_id by (unfold in_w; lia); lia.
Qed.

Lemma Unmarshal_Marshal tx :
  tx_fits tx → ∃ b, MarshalBinary tx = Ok b ∧ UnmarshalBinary b = Ok tx.
Proof.
  intros H. pose proof (inner_encoded tx H) as He. pose proof (inner_decoded tx H) as Hd.
  destruct H as [_ Hl]. unfold MarshalBinary, encodeTyped. rewrite He.
  destruct tx as [t|t|t]; eexists; (split; [done|]); unfold UnmarshalBinary.
  - destruct (inner_list (Legacy t)) as [l El]. rewrite El in *.
    destruct (enc_Lst_head l) as (c & r & E & Hc); [lia|]. rewrite E in *.
    replace ((0 <? zlen (c :: r)) && (0x7f <? hd 0 (c :: r))) with true; [done|].
    unfold zlen. cbn [length hd]. by rewrite !(proj2 (Z.ltb_lt _ _)) by lia.
  - cbn [hd]. by rewrite andb_false_r.
  - cbn [hd]. by rewrite andb_false_r.
Qed.

(** Whatever is decoded is encoded back to the same bytes. *)
Lemma decode_into_canonical t read b tx :
  type_ok t = true → wf_bytes b → zlen b < 2 ^ 64 - 16 →
  (∀ v, has_type t v = true → ∃ tx, read v = Some tx ∧ inner_val tx = v ∧ tx_ok tx = true) →
  decode_into t read b = Ok tx → tx_fits tx ∧ enc (item_of (inner_val tx)) = b.
Proof.
  intros Ht Hw Hl Hread. unfold decode_into. destruct (DecodeBytes t b) as [v|e] eqn:E; [|done].
  destruct (DecodeBytes_canonical t b v Ht Hw ltac:(lia) E) as [Hv Hb].
  destruct (Hread v Hv) as (tx' & -> & Hi & Hok). intros [= ->]. unfold tx_fits. rewrite Hi, Hb. done.
Qed.

Lemma decodeTyped_canonical b tx :
  wf_bytes b → zlen b < 2 ^ 64 - 16 → decodeTyped b = Ok tx →
  tx_fits tx ∧ encodeTyped tx = Ok b ∧ Type_ tx ≠ LegacyTxType.
Proof.
  intros Hw Hl. unfold decodeTyped. destruct b as [|c b]; [done|]. apply Forall_cons in Hw as [_ Hw].
  assert (zlen b < 2 ^ 64 - 16) as Hl' by (unfold zlen in *; cbn [length] in Hl; lia).
  assert (∀ t read ty, type_ok t = true → c = ty → ty ≠ LegacyTxType →
    (∀ v, has_type t v = true → ∃ tx, read v = Some tx ∧ inner_val tx = v ∧ tx_ok tx = true ∧ Type_ tx = ty) →
    decode_into t read b = Ok tx → tx_fits tx ∧ encodeTyped tx = Ok (c :: b) ∧ Type_ tx ≠ LegacyTxType) as H.
  { intros t read ty Ht -> Hty Hread Hd.
    destruct (decode_into_canonical t read b tx) as [Hf Hb]; [done..| |done|].
    { intros v Hv. destruct (Hread v Hv) as (x & ? & ? & ? & _). by exists x. }
    assert (Type_ tx = ty) as E.
    { revert Hd. unfold decode_into. destruct (DecodeBytes t b) as [v|e] eqn:Ev; [|done].
      destruct (DecodeBytes_canonical t b v Ht Hw ltac:(lia) Ev) as [Hv _].
      destruct (Hread v Hv) as (x & -> & _ & _ & Hx). by intros [= ->]. }
    split; [done|]. unfold encodeTyped. rewrite inner_encoded, Hb, E by done. split; [done|congruence]. }
  destruct (Z.eqb_spec c AccessListTxType) as [->|].
  { eapply H; [done|reflexivity|done|apply AccessListTx_inv]. }
  destruct (Z.eqb_spec c DynamicFeeTxType) as [->|]; [|done].
  eapply H; [done|reflexivity|done|apply DynamicFeeTx_inv].
Qed.

Lemma Unmarshal_canonical b tx :
  wf_bytes b → zlen b < 2 ^ 64 - 16 → UnmarshalBinary b = Ok tx → tx_fits tx ∧ MarshalBinary tx = Ok b.
Proof.
  intros Hw Hl. unfold UnmarshalBinary. destruct ((0 <? zlen b) && _).
  - intros Hd. destruct (decode_into_canonical LegacyTx_type LegacyTx_of b tx) as [Hf Hb]; [done..| |done|].
    { intros v Hv. destruct (LegacyTx_inv v Hv) as (x & ? & ? & ? & _). by exists x. }
    split; [done|]. assert (Type_ tx = LegacyTxType) as E.
    { revert Hd. unfold decode_into. destruct (DecodeBytes _ b) as [v|e] eqn:Ev; [|done].
      destruct (DecodeBytes_canonical LegacyTx_type b v eq_refl Hw ltac:(lia) Ev) as [Hv _].
      destruct (LegacyTx_inv v Hv) as (x & -> & _ & _ & Hx). by intros [= ->]. }
    unfold MarshalBinary. by rewrite E, inner_encoded, Hb.
  - intros Hd. destruct (decodeTyped_canonical b tx Hw Hl Hd) as (Hf & He & Hty). split; [done|].
    unfold MarshalBinary. by destruct (Z.eqb_spec (Type_ tx) LegacyTxType).
Qed.

Lemma Bytes_again s x s' : Kind_ s = (Ok x, s') → Bytes_ s' = Bytes_ s.
Proof. intros E. pose proof (Kind_again _ _ _ E) as E'. unfold Bytes_, sbind. by rewrite E, E'. Qed.

(** [DecodeRLP] reads what [EncodeRLP] wrote, at any place in a stream. *)
Lemma DecodeRLP_EncodeRLP tx :
  tx_fits tx → ∃ e, EncodeRLP tx = Ok e ∧ zlen e < 2 ^ 64 ∧
  ∀ rest rem sz ke stk bv, zlen e ≤ rem < 2 ^ 64 → room (zlen e) stk →
  ∃ sz' ke' bv', DecodeRLP (mkStream (e ++ rest) rem true sz ke stk None bv) =
    (Ok tx, mkStream rest (rem - zlen e) true sz' ke' (consume (zlen e) stk) None bv').
Proof.
  intros H. pose proof (inner_encoded tx H) as He. pose proof (inner_decoded tx H) as Hd.
  destruct H as [Hok Hl]. destruct (inner_val_typed tx Hok) as [Ht Hr].
  destruct (has_type_val_ok _ _ Ht) as [Hv _]. pose proof (wf_enc _ Hv) as Hw.
  unfold EncodeRLP. destruct (Z.eqb_spec (Type_ tx) LegacyTxType) as [Ety|Ety].
  - destruct tx as [t|t|t]; [|done|done]. exists (enc (item_of (inner_val (Legacy t)))).
    split; [done|]. split; [lia|].
    intros rest rem sz ke stk bv Hrem Hroom.
    destruct (reads_decode LegacyTx_type _ Ht rest rem sz ke stk bv Hrem Hroom) as (sz' & ke' & bv' & E).
    exists sz', ke', bv'. destruct (inner_list (Legacy t)) as [l El]. rewrite El in *.
    destruct (Kind_enc (Lst l) rest rem sz ke stk bv I Hrem Hroom) as (size & s' & Ek & _).
    unfold DecodeRLP. rewrite Ek. cbn [item_kind]. rewrite (decode_again _ _ _ _ Ek), E.
    by cbn [tx_read] in Hr; rewrite Hr.
  - set (b := Type_ tx :: enc (item_of (inner_val tx))) in *.
    assert (wf_bytes b) as Hwb by (apply Forall_cons; split; [destruct tx; split; done|done]).
    exists (enc_str b). unfold encodeTyped. rewrite He. cbn [rbind]. fold b.
    assert (zlen (enc_str b) < 2 ^ 64) as Hlb.
    { pose proof (zlen_enc_str_le b). subst b. unfold zlen in *. cbn [length] in *. lia. }
    split; [apply (EncodeToBytes_enc (VBytes b)); [by apply bool_decide_eq_true|done|done]|]. split; [done|].
    intros rest rem sz ke stk bv Hrem Hroom.
    destruct (reads_Bytes b Hwb rest rem sz ke stk bv Hrem Hroom) as (sz' & ke' & bv' & E).
    exists sz', ke', bv'.
    destruct (Kind_enc (Str b) rest rem sz ke stk bv Hwb Hrem Hroom) as (size & s' & Ek & _).
    assert (item_kind (Str b) = String_) as Eb.
    { subst b. pose proof (enc_nonempty (item_of (inner_val tx))).
      by destruct (enc (item_of (inner_val tx))). }
    cbn [enc] in Ek. unfold DecodeRLP. rewrite Ek, Eb, (Bytes_again _ _ _ Ek), E. f_equal.
    unfold b, decodeTyped. by destruct tx.
Qed.

(** ** Claims *)

(** C32: the binary form of transactions is canonical.  The bytes [b] decode to a
    transaction exactly when its fields fit their types and it encodes to [b]; so
    different bytes never decode to the same transaction, and every transaction
    is decoded back from its encoding, whatever its type.  Inside a list, where
    typed transactions are wrapped into strings, what is written is read back
    too. *)
Theorem tx_coding_is_canonical b tx :
  wf_bytes b → zlen b < 2 ^ 64 - 16 →
  (UnmarshalBinary b = Ok tx ↔ tx_fits tx ∧ MarshalBinary tx = Ok b) ∧
  (tx_fits tx → ∃ e s, EncodeRLP tx = Ok e ∧ DecodeRLP (Reset e) = (Ok tx, s) ∧ s_r s = []).
Proof.
  intros Hw Hl. split; [split|].
  - by apply Unmarshal_canonical.
  - intros [Hf Hm]. destruct (Unmarshal_Marshal tx Hf) as (b' & Hm' & Hu). congruence.
  - intros Hf. destruct (DecodeRLP_EncodeRLP tx Hf) as (e & He & Hle & Hd).
    destruct (Hd [] (zlen e) 0 None [] 0) as (sz & ke & bv & E); [lia|done|].
    rewrite app_nil_r in E. eexists e, _. split; [done|]. split; [exact E|done].
Qed.

Definition demo_tx : TxData :=
  DynamicFee (mkDynamicFeeTx 61 7 2 100 21000 (Some 0xABCD) 5 [1; 2; 3] [(17, [3; 4])] 1 1234 5678).
Definition demo_raw : bytes := match MarshalBinary demo_tx with Ok b => b | Err _ => [] end.

Lemma tx_coding_is_canonical_witness :
  (UnmarshalBinary demo_raw = Ok demo_tx ↔ tx_fits demo_tx ∧ MarshalBinary demo_tx = Ok demo_raw) ∧
  (tx_fits demo_tx → ∃ e s, EncodeRLP demo_tx = Ok e ∧ DecodeRLP (Reset e) = (Ok demo_tx, s) ∧ s_r s = []).
Proof.
  apply tx_coding_is_canonical; [|vm_compute; reflexivity].
  assert (forallb (λ x, (0 <=? x) && (x <? 256)) demo_raw = true) as H by (vm_compute; reflexivity).
  apply Forall_forall. intros x Hx. rewrite forallb_forall in H. apply list_elem_of_In, H in Hx.
  unfold is_byte. lia.
Defined.

Example demo_roundtrip : UnmarshalBinary demo_raw = Ok demo_tx.
Proof. vm_compute. reflexivity. Qed.
