(* ===== verification/AccessList.v ===== *)
(** * The per-transaction access list (core/state/access_list.go)

    An address maps to the index of its slot set in a slice, or to -1 when it
    has no slots.  The journal undoes additions in the opposite order, and
    [DeleteSlot] relies on that order: it truncates the slice.  The lemmas show
    that under the index invariant each deletion is the exact inverse of the
    addition it undoes, and that the structure implements a set of addresses
    and a set of (address, slot) pairs. *)
From S2P Require Import Prelude.

Record accessList := mkAL {
  addresses : gmap address Z;
  slots : list (gset hash)
}.

Definition ContainsAddress (al : accessList) (a : address) : bool :=
  bool_decide (is_Some (addresses al !! a)).

(** [al.slots[idx]] for a Go [int] index: out of range panics. *)
Definition slot_at (al : accessList) (idx : Z) : outcome (gset hash) :=
  if idx <? 0 then Panic
  else match slots al !! Z.to_nat idx with
       | Some m => Ret m
       | None => Panic
       end.

Definition Contains (al : accessList) (a : address) (slot : hash) : outcome (bool * bool) :=
  match addresses al !! a with
  | None => Ret (false, false)
  | Some idx =>
      if idx =? -1 then Ret (true, false)
      else do! m <- slot_at al idx; Ret (true, bool_decide (slot ∈ m))
  end.

Definition newAccessList : accessList := mkAL ∅ [].

Definition AL_Copy (al : accessList) : accessList := mkAL (addresses al) (slots al).

Definition AddAddress (al : accessList) (a : address) : bool * accessList :=
  match addresses al !! a with
  | Some _ => (false, al)
  | None => (true, mkAL (<[a := -1]> (addresses al)) (slots al))
  end.

(** Results: address added, slot added, the list. *)
Definition AddSlot (al : accessList) (a : address) (slot : hash)
    : outcome (bool * bool * accessList) :=
  let fresh addrPresent :=
    Ret (negb addrPresent, true,
         mkAL (<[a := Z.of_nat (length (slots al))]> (addresses al))
              (slots al ++ [{[slot]}])) in
  match addresses al !! a with
  | None => fresh false
  | Some idx =>
      if idx =? -1 then fresh true
      else
        do! slotmap <- slot_at al idx;
        if bool_decide (slot ∈ slotmap) then Ret (false, false, al)
        else Ret (false, true,
                  mkAL (addresses al) (<[Z.to_nat idx := {[slot]} ∪ slotmap]> (slots al)))
  end.

Definition DeleteSlot (al : accessList) (a : address) (slot : hash) : outcome accessList :=
  match addresses al !! a with
  | None => Panic (* reverting slot change, address not present in list *)
  | Some idx =>
      do! slotmap <- slot_at al idx;
      let slotmap := slotmap ∖ {[slot]} in
      if bool_decide (slotmap = ∅) then
        Ret (mkAL (<[a := -1]> (addresses al)) (take (Z.to_nat idx) (slots al)))
      else Ret (mkAL (addresses al) (<[Z.to_nat idx := slotmap]> (slots al)))
  end.

Definition DeleteAddress (al : accessList) (a : address) : accessList :=
  mkAL (delete a (addresses al)) (slots al).

(** ** The index invariant *)

Record al_wf (al : accessList) : Prop := mkALwf {
  wf_idx : ∀ a i, addresses al !! a = Some i → i ≠ -1 →
    ∃ m, slot_at al i = Ret m ∧ m ≠ ∅;
  wf_inj : ∀ a b i, addresses al !! a = Some i → addresses al !! b = Some i → i ≠ -1 → a = b
}.

(** What the list stands for. *)
Definition slots_of (al : accessList) (a : address) : gset hash :=
  match addresses al !! a with
  | Some idx => match slot_at al idx with Ret m => m | Panic => ∅ end
  | None => ∅
  end.

Definition has_addr (al : accessList) (a : address) : Prop := is_Some (addresses al !! a).

Lemma slot_at_app al i m s : slot_at al i = Ret m → slot_at (mkAL (addresses al) (slots al ++ [s])) i = Ret m.
Proof.
  unfold slot_at. simpl. destruct (i <? 0); [done|].
  destruct (slots al !! Z.to_nat i) eqn:E; [|done]. intros [= <-].
  by rewrite (lookup_app_l_Some _ _ _ _ E).
Qed.

Lemma slot_at_new al m addrs :
  slot_at (mkAL addrs (slots al ++ [m])) (Z.of_nat (length (slots al))) = Ret m.
Proof.
  unfold slot_at. simpl. destruct (Z.ltb_spec (Z.of_nat (length (slots al))) 0); [lia|].
  by rewrite Nat2Z.id, list_lookup_middle.
Qed.

Lemma slot_at_addrs al addrs i : slot_at (mkAL addrs (slots al)) i = slot_at al i.
Proof. done. Qed.

Lemma slot_at_range al i m : slot_at al i = Ret m → 0 ≤ i < Z.of_nat (length (slots al)).
Proof.
  unfold slot_at. destruct (Z.ltb_spec i 0); [done|].
  destruct (slots al !! Z.to_nat i) eqn:E; [|done]. intros _.
  apply lookup_lt_Some in E. lia.
Qed.

Lemma slot_at_insert al addrs i j m m' :
  slot_at al i = Ret m →
  slot_at (mkAL addrs (<[Z.to_nat i := m']> (slots al))) j =
  if decide (i = j) then Ret m' else slot_at al j.
Proof.
  intros Hi. pose proof (slot_at_range _ _ _ Hi) as Hr. unfold slot_at. simpl.
  destruct (decide (i = j)) as [->|Hne].
  - destruct (Z.ltb_spec j 0); [lia|].
    by rewrite list_lookup_insert_eq by lia.
  - destruct (Z.ltb_spec j 0); [done|]. by rewrite list_lookup_insert_ne by lia.
Qed.

Lemma al_wf_new : al_wf newAccessList.
Proof. split; intros *; simpl; by rewrite lookup_empty. Qed.

Lemma AddAddress_wf al a : al_wf al → al_wf (snd (AddAddress al a)).
Proof.
  intros Hwf. unfold AddAddress. destruct (addresses al !! a) eqn:E; [done|].
  split; simpl.
  - intros b i Hb Hi. apply lookup_insert_Some in Hb as [[_ <-]|[_ Hb]]; [done|].
    by eapply (wf_idx al).
  - intros b c i Hb Hc Hi.
    apply lookup_insert_Some in Hb as [[_ <-]|[_ Hb]]; [done|].
    apply lookup_insert_Some in Hc as [[_ <-]|[_ Hc]]; [done|].
    by eapply (wf_inj al).
Qed.

Lemma fresh_slot_wf al a slot :
  al_wf al → (addresses al !! a = None ∨ addresses al !! a = Some (-1)) →
  al_wf (mkAL (<[a := Z.of_nat (length (slots al))]> (addresses al)) (slots al ++ [{[slot]}])).
Proof.
  intros Hwf Ha. split; simpl.
  - intros b i Hb Hi. apply lookup_insert_Some in Hb as [[_ <-]|[_ Hb]].
    + exists {[slot]}. split; [apply slot_at_new|set_solver].
    + destruct (wf_idx al Hwf b i Hb Hi) as (m & Hm & Hne). exists m. split; [|done].
      by apply (slot_at_app _ _ _ {[slot]}) in Hm.
  - intros b c i Hb Hc Hi.
    apply lookup_insert_Some in Hb as [[Eb Ei]|[Hb' Hb]];
      apply lookup_insert_Some in Hc as [[Ec Ej]|[Hc' Hc]]; try congruence.
    + destruct (wf_idx al Hwf c _ Hc Hi) as (m & Hm & _). apply slot_at_range in Hm. lia.
    + destruct (wf_idx al Hwf b _ Hb Hi) as (m & Hm & _). apply slot_at_range in Hm. lia.
    + by eapply (wf_inj al).
Qed.

(** [AddSlot] never panics, preserves the invariant, and [DeleteSlot] followed,
    when the address was new, by [DeleteAddress] restores the list exactly. *)
Lemma AddSlot_inverse al a slot :
  al_wf al →
  ∃ ac sc al', AddSlot al a slot = Ret (ac, sc, al') ∧ al_wf al' ∧
    (ac = true → sc = true) ∧
    (if sc then
       do! al1 <- DeleteSlot al' a slot; Ret (if ac then DeleteAddress al1 a else al1)
     else Ret al') = Ret al ∧
    (ac = true ↔ addresses al !! a = None).
Proof.
  intros Hwf. unfold AddSlot.
  assert (∀ present, (addresses al !! a = if present : bool then Some (-1) else None) →
    ∃ ac sc al', Ret (negb present, true,
       mkAL (<[a := Z.of_nat (length (slots al))]> (addresses al)) (slots al ++ [{[slot]}]))
      = Ret (ac, sc, al') ∧ al_wf al' ∧ (ac = true → sc = true) ∧
    (if sc then do! al1 <- DeleteSlot al' a slot; Ret (if ac then DeleteAddress al1 a else al1)
     else Ret al') = Ret al ∧ (ac = true ↔ addresses al !! a = None)) as Hfresh.
  { intros present Hp. eexists _, _, _. split; [done|]. split.
    { apply fresh_slot_wf; [done|]. destruct present; auto. }
    split; [done|]. split.
    - unfold DeleteSlot. cbn [addresses]. rewrite lookup_insert_eq, slot_at_new. cbn [obind].
      rewrite bool_decide_eq_true_2 by set_solver. cbn [obind].
      rewrite Nat2Z.id. cbn [slots addresses]. rewrite take_app_length.
      rewrite insert_insert_eq. destruct present; cbn [negb].
      + rewrite insert_id by done. by destruct al.
      + unfold DeleteAddress. cbn [addresses slots].
        rewrite delete_insert_id by done. by destruct al.
    - rewrite Hp. by destruct present. }
  destruct (addresses al !! a) as [idx|] eqn:Ea; [|by apply (Hfresh false)].
  destruct (Z.eqb_spec idx (-1)) as [->|Hidx]; [by apply (Hfresh true)|].
  destruct (wf_idx al Hwf a idx Ea Hidx) as (m & Hm & Hne). rewrite Hm. cbn [obind].
  destruct (bool_decide_reflect (slot ∈ m)) as [Hin|Hin].
  { by exists false, false, al. }
  eexists _, _, _. split; [done|]. split.
  { split; cbn [addresses slots].
    - intros b i Hb Hi. rewrite (slot_at_insert _ _ _ _ _ _ Hm).
      destruct (decide (idx = i)); [eexists; split; [done|set_solver]|by eapply (wf_idx al)].
    - apply (wf_inj al Hwf). }
  split; [done|]. split; [|done]. unfold DeleteSlot. cbn [addresses]. rewrite Ea.
  rewrite (slot_at_insert _ _ _ _ _ _ Hm), decide_True by done. cbn [obind].
  assert (({[slot]} ∪ m) ∖ {[slot]} = m) as -> by set_solver.
  rewrite bool_decide_eq_false_2 by done. cbn [obind slots addresses].
  rewrite list_insert_insert_eq. rewrite list_insert_id; [by destruct al|].
  unfold slot_at in Hm. destruct (idx <? 0); [done|].
  destruct (slots al !! Z.to_nat idx); [|done]. by injection Hm as ->.
Qed.

Lemma AddAddress_inverse al a :
  fst (AddAddress al a) = true → DeleteAddress (snd (AddAddress al a)) a = al.
Proof.
  unfold AddAddress, DeleteAddress. destruct (addresses al !! a) eqn:E; [done|].
  intros _. simpl. rewrite delete_insert_id by done. by destruct al.
Qed.

(** ** Refinement: a set of addresses and a set of slots per address *)

Lemma Contains_spec al a slot :
  al_wf al →
  Contains al a slot = Ret (bool_decide (has_addr al a), bool_decide (slot ∈ slots_of al a)).
Proof.
  intros Hwf. unfold Contains, has_addr, slots_of.
  destruct (addresses al !! a) as [idx|] eqn:Ea.
  - rewrite (bool_decide_eq_true_2 (is_Some _)) by eauto.
    destruct (Z.eqb_spec idx (-1)) as [->|Hidx].
    + unfold slot_at. simpl. by rewrite bool_decide_eq_false_2 by set_solver.
    + destruct (wf_idx al Hwf a idx Ea Hidx) as (m & Hm & _). by rewrite Hm.
  - rewrite (bool_decide_eq_false_2 (is_Some _)) by (by intros [? [=]]).
    by rewrite bool_decide_eq_false_2 by set_solver.
Qed.

Lemma AddSlot_spec al a slot ac sc al' :
  al_wf al → AddSlot al a slot = Ret (ac, sc, al') →
  (∀ b, has_addr al' b ↔ has_addr al b ∨ b = a) ∧
  (∀ b, slots_of al' b = if decide (b = a) then {[slot]} ∪ slots_of al a else slots_of al b) ∧
  (sc = false ↔ slot ∈ slots_of al a).
Proof.
  intros Hwf. unfold AddSlot.
  assert (∀ present, addresses al !! a = (if present : bool then Some (-1) else None) →
    let al' := mkAL (<[a := Z.of_nat (length (slots al))]> (addresses al)) (slots al ++ [{[slot]}]) in
    (∀ b, has_addr al' b ↔ has_addr al b ∨ b = a) ∧
    (∀ b, slots_of al' b = if decide (b = a) then {[slot]} ∪ slots_of al a else slots_of al b) ∧
    (true = false ↔ slot ∈ slots_of al a)) as Hfresh.
  { intros present Hp al1.
    assert (slots_of al a = ∅) as Hnil by (unfold slots_of; rewrite Hp; by destruct present).
    split; [|split].
    - intros b. unfold has_addr. simpl.
      destruct (decide (b = a)) as [->|Hne]; [rewrite lookup_insert_eq; split; eauto|].
      rewrite lookup_insert_ne by done. split; [auto|by intros [?|?]].
    - intros b. unfold slots_of at 1. cbn [addresses al1].
      destruct (decide (b = a)) as [->|Hne].
      + rewrite lookup_insert_eq. subst al1. rewrite slot_at_new, Hnil. set_solver.
      + rewrite lookup_insert_ne by done. unfold slots_of.
        destruct (addresses al !! b) as [i|] eqn:Eb; [|done].
        destruct (decide (i = -1)) as [->|Hi]; [done|].
        destruct (wf_idx al Hwf b i Eb Hi) as (m & Hm & _).
        pose proof (slot_at_app _ _ _ {[slot]} Hm) as H1.
        change (slot_at al1 i) with (slot_at (mkAL (addresses al) (slots al ++ [{[slot]}])) i).
        by rewrite H1, Hm.
    - rewrite Hnil. set_solver. }
  destruct (addresses al !! a) as [idx|] eqn:Ea.
  2:{ intros [= <- <- <-]. by apply (Hfresh false). }
  destruct (Z.eqb_spec idx (-1)) as [->|Hidx].
  { intros [= <- <- <-]. by apply (Hfresh true). }
  destruct (wf_idx al Hwf a idx Ea Hidx) as (m & Hm & _). rewrite Hm. cbn [obind].
  assert (slots_of al a = m) as Hs by (unfold slots_of; by rewrite Ea, Hm).
  destruct (bool_decide_reflect (slot ∈ m)) as [Hin|Hin]; intros [= <- <- <-].
  - rewrite Hs. split; [|split; [|done]].
    + unfold has_addr. intros b. split; [auto|]. intros [?| ->]; [done|]. eauto.
    + intros b. destruct (decide (b = a)) as [->|]; [|done]. rewrite Hs. set_solver.
  - rewrite Hs. split; [|split; [|by split]].
    + unfold has_addr. simpl. intros b. split; [auto|]. intros [?| ->]; [done|]. eauto.
    + intros b. unfold slots_of. cbn [addresses].
      destruct (addresses al !! b) as [i|] eqn:Eb.
      * rewrite (slot_at_insert _ _ _ _ _ _ Hm). destruct (decide (b = a)) as [->|Hne].
        -- simplify_eq. by rewrite decide_True.
        -- rewrite decide_False; [done|]. intros ->. apply Hne. by eapply (wf_inj al).
      * rewrite decide_False; [done|]. intros ->. congruence.
Qed.

(** ** Claims *)

(** Adding a slot never goes out of range, and undoing exactly what it
    reports, in reverse order (the slot, then the address), gives the access
    list back unchanged; the address is reported as new exactly when it was
    absent. *)
Lemma AddSlot_undone al a slot :
  al_wf al →
  ∃ ac sc al', AddSlot al a slot = Ret (ac, sc, al') ∧ al_wf al' ∧
    (ac = true ↔ addresses al !! a = None) ∧
    (if sc then
       do! al1 <- DeleteSlot al' a slot; Ret (if ac then DeleteAddress al1 a else al1)
     else Ret al') = Ret al.
Proof.
  intros H. destruct (AddSlot_inverse al a slot H) as (ac & sc & al' & E & Hw & _ & Hu & Hn).
  by exists ac, sc, al'.
Qed.

(** The indexed access list implements a map from addresses to sets of
    slots: after [AddSlot] the address is present, its set has gained the slot
    and no other address or set changed, and [Contains] answers membership. *)
Lemma AddSlot_refines_set al a slot ac sc al' :
  al_wf al → AddSlot al a slot = Ret (ac, sc, al') →
  (∀ b, has_addr al' b ↔ has_addr al b ∨ b = a) ∧
  (∀ b, slots_of al' b = if decide (b = a) then {[slot]} ∪ slots_of al a else slots_of al b) ∧
  (∀ b s, Contains al' b s =
     Ret (bool_decide (has_addr al' b), bool_decide (s ∈ slots_of al' b))).
Proof.
  intros Hw E. destruct (AddSlot_spec al a slot ac sc al' Hw E) as (H1 & H2 & _).
  split; [done|]. split; [done|]. intros b s. apply Contains_spec.
  destruct (AddSlot_inverse al a slot Hw) as (ac2 & sc2 & al2 & E2 & Hw2 & _). congruence.
Qed.

