(* ===== verification/StateObject.v ===== *)
(** * State objects (core/state/state_object.go, core/state/snapshot/account.go)

    An account under modification: the consensus data, the lazily opened
    storage trie, the lazily loaded code, and the layered storage caches
    (dirty over pending over origin over the snapshot or the trie), together
    with the Te Waka byte-array storage.  The tries, the code store and the
    snapshot layer are Go interfaces; they are the class [Backend].  The
    second half gives the cache-free reading of an object and proves that the
    caching reads compute it and do not change it. *)
From S2P Require Import Prelude Common RlpEncode RlpDecode.
Import Enc Dec Bytes.

(** ** The interfaces behind the state *)

(** [snapshot.Account]. *)
Record SnapAccount := mkSnapAccount {
  sa_Nonce : Z;
  sa_Balance : Z;
  sa_Root : bytes;
  sa_CodeHash : bytes
}.

(** The [Trie], [Database] and [snapshot.Snapshot] interfaces and Keccak-256.
    A trie is a value: [TryUpdate] gives the changed trie. *)
Class Backend := {
  Trie : Type;
  Snap : Type;
  Keccak256 : bytes → bytes;
  TryGet : Trie → bytes → bytes * option string;
  TryUpdate : Trie → bytes → bytes → Trie * option string;
  TryDelete : Trie → bytes → Trie * option string;
  Trie_Hash : Trie → hash;
  Trie_Commit : Trie → hash * option string;
  OpenTrie : hash → result string Trie;
  OpenStorageTrie : hash → hash → result string Trie;
  EmptyStorageTrie : hash → Trie;
  CopyTrie : Trie → Trie;
  ContractCode : hash → hash → option bytes * option string;
  ContractCodeSize : hash → hash → Z * option string;
  Snap_Account : Snap → hash → result string (option SnapAccount);
  Snap_Storage : Snap → hash → hash → result string bytes
}.

Definition Keccak256Hash `{Backend} (b : bytes) : hash := BytesToHash (Keccak256 b).

(** What the state relies on: hashes have 32 bytes and addresses do not
    collide, opening the empty storage trie succeeds, a copied trie reads like
    the original, the code size is that of the code. *)
Class BackendOk (B : Backend) : Prop := {
  Keccak256_len : ∀ b, length (Keccak256 b) = 32%nat ∧ wf_bytes (Keccak256 b);
  Keccak256_addr_inj : ∀ a b : address, 0 ≤ a < 2 ^ 160 → 0 ≤ b < 2 ^ 160 →
    Keccak256Hash (Address_Bytes a) = Keccak256Hash (Address_Bytes b) → a = b;
  OpenStorageTrie_zero : ∀ h, OpenStorageTrie h 0 = Ok (EmptyStorageTrie h);
  CopyTrie_same : ∀ t, CopyTrie t = t;
  ContractCodeSize_spec : ∀ h c, fst (ContractCodeSize h c) =
    match fst (ContractCode h c) with Some code => zlen code | None => 0 end
}.

Abbreviation Storage := (gmap hash hash).
Abbreviation TeWakaStorage := (gmap hash bytes).

Section Objects.
Context {B : Backend}.

Definition emptyRoot : hash :=
  0x56e81f171bcc55a6ff8345e692c0f86e5b48e01b996cadc001622fb5e363b421.
Definition emptyCodeHash : bytes := Keccak256 [].

Record Account := mkAccount {
  Nonce : Z;
  Balance : Z;
  Root : hash;
  CodeHash : bytes
}.

Record stateObject := mkObj {
  so_address : address;
  so_addrHash : hash;
  so_data : Account;
  so_dbErr : option string;
  so_trie : option Trie;
  so_code : option bytes;
  so_originStorage : Storage;
  so_pendingStorage : Storage;
  so_dirtyStorage : Storage;
  so_fakeStorage : option Storage;
  so_originTeWakaStorage : TeWakaStorage;
  so_dirtyTeWakaStorage : TeWakaStorage;
  so_dirtyCode : bool;
  so_suicided : bool;
  so_deleted : bool
}.

Definition so_set_address (v : address) (o : stateObject) : stateObject :=
  mkObj v (so_addrHash o) (so_data o) (so_dbErr o) (so_trie o) (so_code o) (so_originStorage o)
    (so_pendingStorage o) (so_dirtyStorage o) (so_fakeStorage o) (so_originTeWakaStorage o)
    (so_dirtyTeWakaStorage o) (so_dirtyCode o) (so_suicided o) (so_deleted o).
Definition so_set_addrHash (v : hash) (o : stateObject) : stateObject :=
  mkObj (so_address o) v (so_data o) (so_dbErr o) (so_trie o) (so_code o) (so_originStorage o)
    (so_pendingStorage o) (so_dirtyStorage o) (so_fakeStorage o) (so_originTeWakaStorage o)
    (so_dirtyTeWakaStorage o) (so_dirtyCode o) (so_suicided o) (so_deleted o).
Definition so_set_data (v : Account) (o : stateObject) : stateObject :=
  mkObj (so_address o) (so_addrHash o) v (so_dbErr o) (so_trie o) (so_code o) (so_originStorage o)
    (so_pendingStorage o) (so_dirtyStorage o) (so_fakeStorage o) (so_originTeWakaStorage o)
    (so_dirtyTeWakaStorage o) (so_dirtyCode o) (so_suicided o) (so_deleted o).
Definition so_set_dbErr (v : option string) (o : stateObject) : stateObject :=
  mkObj (so_address o) (so_addrHash o) (so_data o) v (so_trie o) (so_code o) (so_originStorage o)
    (so_pendingStorage o) (so_dirtyStorage o) (so_fakeStorage o) (so_originTeWakaStorage o)
    (so_dirtyTeWakaStorage o) (so_dirtyCode o) (so_suicided o) (so_deleted o).
Definition so_set_trie (v : option Trie) (o : stateObject) : stateObject :=
  mkObj (so_address o) (so_addrHash o) (so_data o) (so_dbErr o) v (so_code o) (so_originStorage o)
    (so_pendingStorage o) (so_dirtyStorage o) (so_fakeStorage o) (so_originTeWakaStorage o)
    (so_dirtyTeWakaStorage o) (so_dirtyCode o) (so_suicided o) (so_deleted o).
Definition so_set_code (v : option bytes) (o : stateObject) : stateObject :=
  mkObj (so_address o) (so_addrHash o) (so_data o) (so_dbErr o) (so_trie o) v (so_originStorage o)
    (so_pendingStorage o) (so_dirtyStorage o) (so_fakeStorage o) (so_originTeWakaStorage o)
    (so_dirtyTeWakaStorage o) (so_dirtyCode o) (so_suicided o) (so_deleted o).
Definition so_set_originStorage (v : Storage) (o : stateObject) : stateObject :=
  mkObj (so_address o) (so_addrHash o) (so_data o) (so_dbErr o) (so_trie o) (so_code o) v
    (so_pendingStorage o) (so_dirtyStorage o) (so_fakeStorage o) (so_originTeWakaStorage o)
    (so_dirtyTeWakaStorage o) (so_dirtyCode o) (so_suicided o) (so_deleted o).
Definition so_set_pendingStorage (v : Storage) (o : stateObject) : stateObject :=
  mkObj (so_address o) (so_addrHash o) (so_data o) (so_dbErr o) (so_trie o) (so_code o)
    (so_originStorage o) v (so_dirtyStorage o) (so_fakeStorage o) (so_originTeWakaStorage o)
    (so_dirtyTeWakaStorage o) (so_dirtyCode o) (so_suicided o) (so_deleted o).
Definition so_set_dirtyStorage (v : Storage) (o : stateObject) : stateObject :=
  mkObj (so_address o) (so_addrHash o) (so_data o) (so_dbErr o) (so_trie o) (so_code o)
    (so_originStorage o) (so_pendingStorage o) v (so_fakeStorage o) (so_originTeWakaStorage o)
    (so_dirtyTeWakaStorage o) (so_dirtyCode o) (so_suicided o) (so_deleted o).
Definition so_set_fakeStorage (v : option Storage) (o : stateObject) : stateObject :=
  mkObj (so_address o) (so_addrHash o) (so_data o) (so_dbErr o) (so_trie o) (so_code o)
    (so_originStorage o) (so_pendingStorage o) (so_dirtyStorage o) v (so_originTeWakaStorage o)
    (so_dirtyTeWakaStorage o) (so_dirtyCode o) (so_suicided o) (so_deleted o).
Definition so_set_originTeWakaStorage (v : TeWakaStorage) (o : stateObject) : stateObject :=
  mkObj (so_address o) (so_addrHash o) (so_data o) (so_dbErr o) (so_trie o) (so_code o)
    (so_originStorage o) (so_pendingStorage o) (so_dirtyStorage o) (so_fakeStorage o) v
    (so_dirtyTeWakaStorage o) (so_dirtyCode o) (so_suicided o) (so_deleted o).
Definition so_set_dirtyTeWakaStorage (v : TeWakaStorage) (o : stateObject) : stateObject :=
  mkObj (so_address o) (so_addrHash o) (so_data o) (so_dbErr o) (so_trie o) (so_code o)
    (so_originStorage o) (so_pendingStorage o) (so_dirtyStorage o) (so_fakeStorage o)
    (so_originTeWakaStorage o) v (so_dirtyCode o) (so_suicided o) (so_deleted o).
Definition so_set_dirtyCode (v : bool) (o : stateObject) : stateObject :=
  mkObj (so_address o) (so_addrHash o) (so_data o) (so_dbErr o) (so_trie o) (so_code o)
    (so_originStorage o) (so_pendingStorage o) (so_dirtyStorage o) (so_fakeStorage o)
    (so_originTeWakaStorage o) (so_dirtyTeWakaStorage o) v (so_suicided o) (so_deleted o).
Definition so_set_suicided (v : bool) (o : stateObject) : stateObject :=
  mkObj (so_address o) (so_addrHash o) (so_data o) (so_dbErr o) (so_trie o) (so_code o)
    (so_originStorage o) (so_pendingStorage o) (so_dirtyStorage o) (so_fakeStorage o)
    (so_originTeWakaStorage o) (so_dirtyTeWakaStorage o) (so_dirtyCode o) v (so_deleted o).
Definition so_set_deleted (v : bool) (o : stateObject) : stateObject :=
  mkObj (so_address o) (so_addrHash o) (so_data o) (so_dbErr o) (so_trie o) (so_code o)
    (so_originStorage o) (so_pendingStorage o) (so_dirtyStorage o) (so_fakeStorage o)
    (so_originTeWakaStorage o) (so_dirtyTeWakaStorage o) (so_dirtyCode o) (so_suicided o) v.

(** The storage maps read with the zero value when a key is missing. *)
Definition sget (st : Storage) (key : hash) : hash := default 0 (st !! key).

Definition set_Nonce (n : Z) (d : Account) := mkAccount n (Balance d) (Root d) (CodeHash d).
Definition set_Balance (b : Z) (d : Account) := mkAccount (Nonce d) b (Root d) (CodeHash d).
Definition set_Root (r : hash) (d : Account) := mkAccount (Nonce d) (Balance d) r (CodeHash d).
Definition set_CodeHash (c : bytes) (d : Account) := mkAccount (Nonce d) (Balance d) (Root d) c.

(** ** Operations of an object *)

Definition empty_ (o : stateObject) : bool :=
  (Nonce (so_data o) =? 0) && (Balance (so_data o) =? 0) &&
  bool_decide (CodeHash (so_data o) = emptyCodeHash) &&
  bool_decide (so_dirtyTeWakaStorage o = ∅).

(** [None] stands for the nil pointer or slice of a field of [Account]. *)
Definition newObject (a : address) (nonce : Z) (balance : option Z) (root : hash)
    (codeHash : option bytes) : stateObject :=
  mkObj a (Keccak256Hash (Address_Bytes a))
    (mkAccount nonce (default 0 balance) (if root =? 0 then emptyRoot else root)
       (default emptyCodeHash codeHash))
    None None None ∅ ∅ ∅ None ∅ ∅ false false false.

Definition Account_val (d : Account) : gval :=
  VList [VUint (Nonce d); VBig (Some (Balance d)); VArray (Hash_Bytes (Root d)); VBytes (CodeHash d)].

Definition Account_type : gtype := TStruct [TUint 64; TBig; TArray 32; TBytes].

Definition EncodeRLP (o : stateObject) : result string bytes := EncodeToBytes (Account_val (so_data o)).

Definition setError (err : option string) (o : stateObject) : stateObject :=
  match so_dbErr o with None => so_set_dbErr err o | Some _ => o end.

Definition markSuicided (o : stateObject) : stateObject := so_set_suicided true o.

(** No prefetcher is running. *)
Definition getTrie (o : stateObject) : Trie * stateObject :=
  match so_trie o with
  | Some t => (t, o)
  | None =>
      match OpenStorageTrie (so_addrHash o) (Root (so_data o)) with
      | Ok t => (t, so_set_trie (Some t) o)
      | Err e =>
          let t := EmptyStorageTrie (so_addrHash o) in
          (t, setError (Some ("can't create storage trie: " +:+ e)) (so_set_trie (Some t) o))
      end
  end.

(** The value of a slot from its stored RLP. *)
Definition slot_value (enc : bytes) : hash * option string :=
  if 0 <? zlen enc then
    match Raw.Split enc with
    | Ok (_, content, _) => (BytesToHash content, None)
    | Err _ => (BytesToHash [], Some "rlp: split")
    end
  else (0, None).

(** [snap] and [destructed] are [s.db.snap] and whether [s.addrHash] is in
    [s.db.snapDestructs]. *)
Definition GetCommittedState (snap : option Snap) (destructed : bool) (o : stateObject) (key : hash)
    : hash * stateObject :=
  match so_fakeStorage o with
  | Some fs => (sget fs key, o)
  | None =>
      match so_pendingStorage o !! key with
      | Some v => (v, o)
      | None =>
          match so_originStorage o !! key with
          | Some v => (v, o)
          | None =>
              let finish enc o :=
                let '(value, err) := slot_value enc in
                let o := match err with Some _ => setError err o | None => o end in
                (value, so_set_originStorage (<[key := value]> (so_originStorage o)) o) in
              let from_trie o :=
                let '(tr, o) := getTrie o in
                match TryGet tr (Hash_Bytes key) with
                | (_, Some err) => (0, setError (Some err) o)
                | (enc, None) => finish enc o
                end in
              match snap with
              | None => from_trie o
              | Some sn =>
                  if destructed then (0, o)
                  else match Snap_Storage sn (so_addrHash o) (Keccak256Hash (Hash_Bytes key)) with
                       | Ok enc => finish enc o
                       | Err _ => from_trie o
                       end
              end
          end
      end
  end.

Definition GetState (snap : option Snap) (destructed : bool) (o : stateObject) (key : hash)
    : hash * stateObject :=
  match so_fakeStorage o with
  | Some fs => (sget fs key, o)
  | None =>
      match so_dirtyStorage o !! key with
      | Some v => (v, o)
      | None => GetCommittedState snap destructed o key
      end
  end.

Definition GetTeWakaState (o : stateObject) (key : hash) : bytes * stateObject :=
  match so_originTeWakaStorage o !! key with
  | Some v => (v, o)
  | None =>
      let '(tr, o) := getTrie o in
      match TryGet tr (Hash_Bytes key) with
      | (value, None) =>
          (value, if negb (zlen value =? 0)
                  then so_set_originTeWakaStorage (<[key := value]> (so_originTeWakaStorage o)) o
                  else o)
      | (value, Some _) => (value, o)
      end
  end.

Definition setStateByteArray (key : hash) (value : bytes) (o : stateObject) : stateObject :=
  let o := so_set_originTeWakaStorage (<[key := value]> (so_originTeWakaStorage o)) o in
  so_set_dirtyTeWakaStorage (<[key := value]> (so_dirtyTeWakaStorage o)) o.

Definition SetStorage (storage : Storage) (o : stateObject) : stateObject :=
  so_set_fakeStorage (Some (storage ∪ default ∅ (so_fakeStorage o))) o.

Definition setState (key value : hash) (o : stateObject) : stateObject :=
  so_set_dirtyStorage (<[key := value]> (so_dirtyStorage o)) o.

Definition setBalance (amount : Z) (o : stateObject) : stateObject :=
  so_set_data (set_Balance amount (so_data o)) o.

Definition setNonce (nonce : Z) (o : stateObject) : stateObject :=
  so_set_data (set_Nonce nonce (so_data o)) o.

Definition setCode (codeHash : hash) (code : option bytes) (o : stateObject) : stateObject :=
  let o := so_set_code code o in
  let o := so_set_data (set_CodeHash (Hash_Bytes codeHash) (so_data o)) o in
  so_set_dirtyCode true o.

Definition Code (o : stateObject) : option bytes * stateObject :=
  match so_code o with
  | Some c => (Some c, o)
  | None =>
      if bool_decide (CodeHash (so_data o) = emptyCodeHash) then (None, o)
      else
        let '(code, err) := ContractCode (so_addrHash o) (BytesToHash (CodeHash (so_data o))) in
        let o := match err with
                 | Some e => setError (Some ("can't load code hash: " +:+ e)) o
                 | None => o
                 end in
        (code, so_set_code code o)
  end.

Definition CodeSize (o : stateObject) : Z * stateObject :=
  match so_code o with
  | Some c => (zlen c, o)
  | None =>
      if bool_decide (CodeHash (so_data o) = emptyCodeHash) then (0, o)
      else
        let '(size, err) := ContractCodeSize (so_addrHash o) (BytesToHash (CodeHash (so_data o))) in
        (size, match err with
               | Some e => setError (Some ("can't load code size: " +:+ e)) o
               | None => o
               end)
  end.

(** No prefetcher is running, so the slots to prefetch are dropped. *)
Definition finalise (o : stateObject) : stateObject :=
  let o := so_set_pendingStorage (so_dirtyStorage o ∪ so_pendingStorage o) o in
  so_set_dirtyStorage ∅ o.

(** One round of the first loop of [updateTrie]; the map is iterated in some
    order, here that of [map_to_list]. [ss] is [s.db.snapStorage]. *)
Definition updateTrie_slot (snap : option Snap) (acc : Trie * stateObject * gmap hash (gmap hash bytes))
    (kv : hash * hash) : Trie * stateObject * gmap hash (gmap hash bytes) :=
  let '(tr, o, ss) := acc in
  let '(key, value) := kv in
  if value =? sget (so_originStorage o) key then acc
  else
    let o := so_set_originStorage (<[key := value]> (so_originStorage o)) o in
    let '(tr, o, v) :=
      if value =? 0 then
        let '(tr, err) := TryDelete tr (Hash_Bytes key) in (tr, setError err o, [])
      else
        let v := match EncodeToBytes (VBytes (TrimLeftZeroes (Hash_Bytes value))) with
                 | Ok v => v | Err _ => [] end in
        let '(tr, err) := TryUpdate tr (Hash_Bytes key) v in (tr, setError err o, v) in
    let ss := match snap with
              | None => ss
              | Some _ =>
                  let storage := default ∅ (ss !! so_addrHash o) in
                  <[so_addrHash o := <[Keccak256Hash (Hash_Bytes key) := v]> storage]> ss
              end in
    (tr, o, ss).

(** One round of the Te Waka loop. *)
Definition updateTrie_tewaka (acc : Trie * stateObject) (kv : hash * bytes) : Trie * stateObject :=
  let '(tr, o) := acc in
  let '(key, value) := kv in
  let o := so_set_dirtyTeWakaStorage (delete key (so_dirtyTeWakaStorage o)) o in
  let '(tr, err) := if zlen value =? 0 then TryDelete tr (Hash_Bytes key)
                    else TryUpdate tr (Hash_Bytes key) value in
  (tr, setError err o).

(** The returned trie is [s.trie], nil when nothing was ever loaded. *)
Definition updateTrie (snap : option Snap) (ss : gmap hash (gmap hash bytes)) (o : stateObject)
    : option Trie * stateObject * gmap hash (gmap hash bytes) :=
  let o := finalise o in
  if bool_decide (so_pendingStorage o = ∅) && bool_decide (so_dirtyTeWakaStorage o = ∅)
  then (so_trie o, o, ss)
  else
    let '(tr, o) := getTrie o in
    let '(tr, o, ss) := fold_left (updateTrie_slot snap) (map_to_list (so_pendingStorage o)) (tr, o, ss) in
    let o := so_set_pendingStorage ∅ o in
    let '(tr, o) := fold_left updateTrie_tewaka (map_to_list (so_dirtyTeWakaStorage o)) (tr, o) in
    (Some tr, so_set_trie (Some tr) o, ss).

Definition updateRoot (snap : option Snap) (ss : gmap hash (gmap hash bytes)) (o : stateObject)
    : stateObject * gmap hash (gmap hash bytes) :=
  match updateTrie snap ss o with
  | (None, o, ss) => (o, ss)
  | (Some tr, o, ss) => (so_set_data (set_Root (Trie_Hash tr) (so_data o)) o, ss)
  end.

Definition CommitTrie (snap : option Snap) (ss : gmap hash (gmap hash bytes)) (o : stateObject)
    : option string * stateObject * gmap hash (gmap hash bytes) :=
  match updateTrie snap ss o with
  | (None, o, ss) => (None, o, ss)
  | (Some tr, o, ss) =>
      match so_dbErr o with
      | Some e => (Some e, o, ss)
      | None =>
          match Trie_Commit tr with
          | (root, None) => (None, so_set_data (set_Root root (so_data o)) o, ss)
          | (_, Some e) => (Some e, o, ss)
          end
      end
  end.

(** The copy starts from [newObject], so the error and the fake storage are
    not copied. *)
Definition deepCopy (o : stateObject) : stateObject :=
  let d := so_data o in
  let c := newObject (so_address o) (Nonce d) (Some (Balance d)) (Root d) (Some (CodeHash d)) in
  let c := match so_trie o with Some t => so_set_trie (Some (CopyTrie t)) c | None => c end in
  let c := so_set_code (so_code o) c in
  let c := so_set_dirtyStorage (so_dirtyStorage o) c in
  let c := so_set_originStorage (so_originStorage o) c in
  let c := so_set_pendingStorage (so_pendingStorage o) c in
  let c := so_set_dirtyTeWakaStorage (so_dirtyTeWakaStorage o) c in
  let c := so_set_originTeWakaStorage (so_originTeWakaStorage o) c in
  let c := so_set_suicided (so_suicided o) c in
  let c := so_set_dirtyCode (so_dirtyCode o) c in
  so_set_deleted (so_deleted o) c.

(** ** Slim accounts of the snapshot layer *)

Definition SlimAccount (nonce balance : Z) (root : hash) (codehash : bytes) : SnapAccount :=
  mkSnapAccount nonce balance
    (if root =? emptyRoot then [] else Hash_Bytes root)
    (if bool_decide (codehash = emptyCodeHash) then [] else codehash).

Definition SnapAccount_val (a : SnapAccount) : gval :=
  VList [VUint (sa_Nonce a); VBig (Some (sa_Balance a)); VBytes (sa_Root a); VBytes (sa_CodeHash a)].
Definition SnapAccount_type : gtype := TStruct [TUint 64; TBig; TBytes; TBytes].

Definition SlimAccountRLP (nonce balance : Z) (root : hash) (codehash : bytes) : outcome bytes :=
  match EncodeToBytes (SnapAccount_val (SlimAccount nonce balance root codehash)) with
  | Ok b => Ret b
  | Err _ => Panic
  end.

Definition SnapAccount_of (v : gval) : option SnapAccount :=
  match v with
  | VList [VUint n; VBig (Some b); VBytes r; VBytes c] => Some (mkSnapAccount n b r c)
  | _ => None
  end.

Definition FullAccount (data : bytes) : option SnapAccount :=
  match DecodeBytes SnapAccount_type data with
  | Ok v =>
      match SnapAccount_of v with
      | Some a =>
          Some (mkSnapAccount (sa_Nonce a) (sa_Balance a)
                  (if zlen (sa_Root a) =? 0 then Hash_Bytes emptyRoot else sa_Root a)
                  (if zlen (sa_CodeHash a) =? 0 then emptyCodeHash else sa_CodeHash a))
      | None => None
      end
  | Err _ => None
  end.

Definition FullAccountRLP (data : bytes) : option bytes :=
  match FullAccount data with
  | Some a => match EncodeToBytes (SnapAccount_val a) with Ok b => Some b | Err _ => None end
  | None => None
  end.

(** ** What an object stands for, caches aside *)

Definition trie_view (o : stateObject) : Trie :=
  match so_trie o with
  | Some t => t
  | None => match OpenStorageTrie (so_addrHash o) (Root (so_data o)) with
            | Ok t => t
            | Err _ => EmptyStorageTrie (so_addrHash o)
            end
  end.

(** A slot read below the caches. *)
Definition backing_slot (snap : option Snap) (destructed : bool) (ah : hash) (tr : Trie) (key : hash)
    : hash :=
  let from_trie := match TryGet tr (Hash_Bytes key) with
                   | (_, Some _) => 0
                   | (enc, None) => fst (slot_value enc)
                   end in
  match snap with
  | None => from_trie
  | Some sn => if destructed then 0
               else match Snap_Storage sn ah (Keccak256Hash (Hash_Bytes key)) with
                    | Ok enc => fst (slot_value enc)
                    | Err _ => from_trie
                    end
  end.

Definition committed_view (snap : option Snap) (destructed : bool) (o : stateObject) (key : hash) : hash :=
  match so_fakeStorage o with
  | Some fs => sget fs key
  | None => match so_pendingStorage o !! key with
            | Some v => v
            | None => match so_originStorage o !! key with
                      | Some v => v
                      | None => backing_slot snap destructed (so_addrHash o) (trie_view o) key
                      end
            end
  end.

Definition state_view (snap : option Snap) (destructed : bool) (o : stateObject) (key : hash) : hash :=
  match so_fakeStorage o with
  | Some fs => sget fs key
  | None => match so_dirtyStorage o !! key with
            | Some v => v
            | None => committed_view snap destructed o key
            end
  end.

Definition tewaka_view (o : stateObject) (key : hash) : bytes :=
  match so_originTeWakaStorage o !! key with
  | Some v => v
  | None => fst (TryGet (trie_view o) (Hash_Bytes key))
  end.

Definition code_view (o : stateObject) : option bytes :=
  match so_code o with
  | Some c => Some c
  | None => if bool_decide (CodeHash (so_data o) = emptyCodeHash) then None
            else fst (ContractCode (so_addrHash o) (BytesToHash (CodeHash (so_data o))))
  end.

(** Two objects whose balance, nonce, code, storage, Te Waka storage and flags
    read the same: the caches, the memoised database error, [dirtyCode] and the
    set of Te Waka keys queued for the trie may differ.  The last is
    visible to [empty], which counts a key queued by an undone write. *)
Record obj_eq (snap : option Snap) (d : bool) (o1 o2 : stateObject) : Prop := mkObjEq {
  oe_address : so_address o1 = so_address o2;
  oe_addrHash : so_addrHash o1 = so_addrHash o2;
  oe_data : so_data o1 = so_data o2;
  oe_fake : so_fakeStorage o1 = so_fakeStorage o2;
  oe_pending : so_pendingStorage o1 = so_pendingStorage o2;
  oe_suicided : so_suicided o1 = so_suicided o2;
  oe_deleted : so_deleted o1 = so_deleted o2;
  oe_trie : trie_view o1 = trie_view o2;
  oe_code : code_view o1 = code_view o2;
  oe_committed : ∀ key, committed_view snap d o1 key = committed_view snap d o2 key;
  oe_state : ∀ key, state_view snap d o1 key = state_view snap d o2 key;
  oe_tewaka : ∀ key, tewaka_view o1 key = tewaka_view o2 key
}.

#[export] Instance obj_eq_equiv snap d : Equivalence (obj_eq snap d).
Proof.
  split.
  - done.
  - intros o1 o2 []. by split.
  - intros o1 o2 o3 [] []. split; intros; etrans; eauto.
Qed.

Lemma setError_views err o :
  so_address (setError err o) = so_address o ∧ so_addrHash (setError err o) = so_addrHash o ∧
  so_data (setError err o) = so_data o ∧ so_trie (setError err o) = so_trie o ∧
  so_code (setError err o) = so_code o ∧ so_originStorage (setError err o) = so_originStorage o ∧
  so_pendingStorage (setError err o) = so_pendingStorage o ∧
  so_dirtyStorage (setError err o) = so_dirtyStorage o ∧
  so_fakeStorage (setError err o) = so_fakeStorage o ∧
  so_originTeWakaStorage (setError err o) = so_originTeWakaStorage o ∧
  so_suicided (setError err o) = so_suicided o ∧ so_deleted (setError err o) = so_deleted o.
Proof. unfold setError. by destruct (so_dbErr o). Qed.

Lemma setError_eq snap d err o : obj_eq snap d (setError err o) o.
Proof.
  unfold setError. destruct (so_dbErr o); [done|]. by split.
Qed.

(** *** Reading computes the view and leaves an equal object *)

Lemma getTrie_spec o :
  fst (getTrie o) = trie_view o ∧
  ∀ snap d, obj_eq snap d (snd (getTrie o)) o ∧ so_trie (snd (getTrie o)) = Some (trie_view o) ∧
    so_originStorage (snd (getTrie o)) = so_originStorage o ∧
    so_originTeWakaStorage (snd (getTrie o)) = so_originTeWakaStorage o.
Proof.
  unfold getTrie, trie_view. destruct (so_trie o) as [t|] eqn:Et; [done|].
  assert (∀ t snap d, trie_view o = t → obj_eq snap d (so_set_trie (Some t) o) o) as Hset.
  { intros t snap d Ht. split; try done.
    - intros key. unfold committed_view. simpl. by rewrite Ht.
    - intros key. unfold state_view, committed_view. simpl. by rewrite Ht.
    - intros key. unfold tewaka_view. simpl. by rewrite Ht. }
  unfold trie_view in Hset. rewrite Et in Hset.
  destruct (OpenStorageTrie (so_addrHash o) (Root (so_data o))) as [t|e]; simpl.
  - split; [done|]. intros snap d. split; [by apply Hset|done].
  - split; [done|]. intros snap d. split.
    + etrans; [apply setError_eq|by apply Hset].
    + unfold setError. by destruct (so_dbErr _).
Qed.

Lemma cache_origin_eq snap d o key v :
  committed_view snap d o key = v →
  so_fakeStorage o = None → so_pendingStorage o !! key = None →
  obj_eq snap d (so_set_originStorage (<[key := v]> (so_originStorage o)) o) o.
Proof.
  intros Hv Hf Hp.
  assert (∀ k, committed_view snap d (so_set_originStorage (<[key := v]> (so_originStorage o)) o) k
               = committed_view snap d o k) as Hc.
  { intros k. destruct (decide (k = key)) as [->|Hne].
    - rewrite Hv. unfold committed_view. simpl. rewrite Hf, Hp. by rewrite lookup_insert_eq.
    - unfold committed_view. simpl. by rewrite lookup_insert_ne. }
  split; try done. intros k. unfold state_view. simpl. by rewrite Hc.
Qed.

Lemma GetCommittedState_spec snap d o key :
  fst (GetCommittedState snap d o key) = committed_view snap d o key ∧
  obj_eq snap d (snd (GetCommittedState snap d o key)) o.
Proof.
  unfold GetCommittedState.
  destruct (so_fakeStorage o) as [fs|] eqn:Ef.
  { split; [|done]. unfold committed_view. by rewrite Ef. }
  destruct (so_pendingStorage o !! key) as [v|] eqn:Ep.
  { split; [|done]. unfold committed_view. by rewrite Ef, Ep. }
  destruct (so_originStorage o !! key) as [v|] eqn:Eo.
  { split; [|done]. unfold committed_view. by rewrite Ef, Ep, Eo. }
  assert (committed_view snap d o key = backing_slot snap d (so_addrHash o) (trie_view o) key) as Hcv.
  { unfold committed_view. by rewrite Ef, Ep, Eo. }
  set (finish := λ enc o, let '(value, err) := slot_value enc in
         let o := match err with Some _ => setError err o | None => o end in
         (value, so_set_originStorage (<[key := value]> (so_originStorage o)) o)).
  assert (∀ enc o', obj_eq snap d o' o → fst (slot_value enc) = committed_view snap d o key →
    fst (finish enc o') = committed_view snap d o key ∧ obj_eq snap d (snd (finish enc o')) o) as Hfin.
  { intros enc o' Ho' Hv. unfold finish. destruct (slot_value enc) as [value err] eqn:Es.
    simpl in Hv. split; [done|].
    assert (∃ o'', o'' = (match err with Some _ => setError err o' | None => o' end) ∧
                   obj_eq snap d o'' o) as (o'' & <- & Ho'').
    { eexists. split; [done|]. destruct err; [|done]. by etrans; [apply setError_eq|]. }
    simpl. etrans; [|exact Ho'']. apply cache_origin_eq.
    - rewrite (oe_committed _ _ _ _ Ho''). done.
    - by rewrite (oe_fake _ _ _ _ Ho'').
    - by rewrite (oe_pending _ _ _ _ Ho''). }
  set (from_trie := λ o, let '(tr, o) := getTrie o in
         match TryGet tr (Hash_Bytes key) with
         | (_, Some err) => (0, setError (Some err) o)
         | (enc, None) => finish enc o
         end).
  assert ((match TryGet (trie_view o) (Hash_Bytes key) with
           | (_, Some _) => 0 | (enc, None) => fst (slot_value enc) end) = committed_view snap d o key →
    fst (from_trie o) = committed_view snap d o key ∧ obj_eq snap d (snd (from_trie o)) o) as Htr.
  { unfold from_trie. destruct (getTrie_spec o) as [H1 H2].
    destruct (getTrie o) as [tr o'] eqn:Eg. simpl in H1, H2. subst tr.
    destruct (H2 snap d) as (Ho' & _). destruct (TryGet (trie_view o) (Hash_Bytes key)) as [enc [err|]].
    - intros <-. split; [done|]. simpl. by etrans; [apply setError_eq|].
    - by apply Hfin. }
  unfold backing_slot in Hcv.
  destruct snap as [sn|]; [|by apply Htr].
  destruct d; [by split|].
  destruct (Snap_Storage sn (so_addrHash o) (Keccak256Hash (Hash_Bytes key))) as [enc|e];
    [by apply Hfin|by apply Htr].
Qed.

Lemma GetState_spec snap d o key :
  fst (GetState snap d o key) = state_view snap d o key ∧
  obj_eq snap d (snd (GetState snap d o key)) o.
Proof.
  unfold GetState, state_view. destruct (so_fakeStorage o); [done|].
  destruct (so_dirtyStorage o !! key); [done|]. apply GetCommittedState_spec.
Qed.

Lemma GetTeWakaState_spec snap d o key :
  fst (GetTeWakaState o key) = tewaka_view o key ∧ obj_eq snap d (snd (GetTeWakaState o key)) o.
Proof.
  unfold GetTeWakaState, tewaka_view.
  destruct (so_originTeWakaStorage o !! key) as [v|] eqn:Eo; [done|].
  destruct (getTrie_spec o) as [H1 H2]. destruct (getTrie o) as [tr o'] eqn:Eg.
  simpl in H1, H2. subst tr. destruct (H2 snap d) as (Ho' & Ht' & _ & Hw').
  destruct (TryGet (trie_view o) (Hash_Bytes key)) as [value [err|]] eqn:Eg'; [done|].
  split; [done|]. simpl. destruct (negb _); [|done]. etrans; [|exact Ho'].
  split; try done. intros k. unfold tewaka_view. simpl. rewrite Hw'.
  destruct (decide (k = key)) as [->|Hne].
  - rewrite lookup_insert_eq, Eo. rewrite (oe_trie _ _ _ _ Ho'). by rewrite Eg'.
  - by rewrite lookup_insert_ne.
Qed.

Lemma Code_spec snap d o :
  fst (Code o) = code_view o ∧ obj_eq snap d (snd (Code o)) o.
Proof.
  unfold Code, code_view. destruct (so_code o) as [c|] eqn:Ec; [done|].
  destruct (bool_decide_reflect (CodeHash (so_data o) = emptyCodeHash)) as [He|He]; [done|].
  destruct (ContractCode _ _) as [code err] eqn:EC. split; [done|]. simpl.
  set (o' := match err with Some e => _ | None => _ end).
  assert (obj_eq snap d o' o) as Ho' by (subst o'; destruct err; [apply setError_eq|done]).
  assert (code_view o' = code) as Hcode.
  { rewrite (oe_code _ _ _ _ Ho'). unfold code_view. rewrite Ec.
    rewrite bool_decide_eq_false_2 by done. by rewrite EC. }
  etrans; [|exact Ho']. split; try done.
  unfold code_view at 1. simpl. rewrite (oe_data _ _ _ _ Ho'), (oe_addrHash _ _ _ _ Ho').
  rewrite bool_decide_eq_false_2, EC, Hcode by done. by destruct code.
Qed.

(** *** Writing respects the view *)

Lemma setBalance_eq snap d x o1 o2 :
  obj_eq snap d o1 o2 → obj_eq snap d (setBalance x o1) (setBalance x o2).
Proof. intros []. split; try done; simpl; congruence. Qed.

Lemma setNonce_eq snap d x o1 o2 :
  obj_eq snap d o1 o2 → obj_eq snap d (setNonce x o1) (setNonce x o2).
Proof. intros []. split; try done; simpl; congruence. Qed.

Lemma setCode_eq snap d h c o1 o2 :
  obj_eq snap d o1 o2 → obj_eq snap d (setCode h c o1) (setCode h c o2).
Proof.
  intros []. split; try done; simpl; try congruence.
  unfold code_view. simpl. by rewrite oe_addrHash0.
Qed.

Lemma setState_eq snap d k v o1 o2 :
  obj_eq snap d o1 o2 → obj_eq snap d (setState k v o1) (setState k v o2).
Proof.
  intros []. split; try done. intros key. specialize (oe_state0 key).
  specialize (oe_committed0 key). unfold state_view in *. simpl in *. rewrite oe_fake0 in *.
  destruct (so_fakeStorage o2); [done|]. destruct (decide (key = k)) as [->|Hne].
  - by rewrite !lookup_insert_eq.
  - by rewrite !lookup_insert_ne.
Qed.

Lemma setStateByteArray_eq snap d k v o1 o2 :
  obj_eq snap d o1 o2 → obj_eq snap d (setStateByteArray k v o1) (setStateByteArray k v o2).
Proof.
  intros []. split; try done. intros key. specialize (oe_tewaka0 key).
  unfold tewaka_view in *. simpl. destruct (decide (key = k)) as [->|Hne].
  - by rewrite !lookup_insert_eq.
  - by rewrite !lookup_insert_ne.
Qed.

Lemma set_suicided_eq snap d b o1 o2 :
  obj_eq snap d o1 o2 → obj_eq snap d (so_set_suicided b o1) (so_set_suicided b o2).
Proof. intros []. by split. Qed.

(** *** Writing the old value back *)

Lemma setBalance_back snap d x o :
  obj_eq snap d (setBalance (Balance (so_data o)) (setBalance x o)) o.
Proof. by destruct o as [? ? []]; split. Qed.

Lemma setNonce_back snap d x o :
  obj_eq snap d (setNonce (Nonce (so_data o)) (setNonce x o)) o.
Proof. by destruct o as [? ? []]; split. Qed.

Lemma setCode_back snap d h c o :
  length (CodeHash (so_data o)) = 32%nat → wf_bytes (CodeHash (so_data o)) →
  obj_eq snap d (setCode (BytesToHash (CodeHash (so_data o))) (code_view o) (setCode h c o)) o.
Proof.
  intros Hl Hwf.
  assert (Hash_Bytes (BytesToHash (CodeHash (so_data o))) = CodeHash (so_data o)) as Hh.
  { by apply BytesToHash_Bytes_32. }
  split; try done.
  - simpl. rewrite Hh. by destruct (so_data o).
  - unfold code_view at 1. simpl. rewrite Hh. destruct (code_view o) eqn:E; [done|].
    unfold code_view in E. destruct (so_code o); [done|].
    destruct (bool_decide _); done.
Qed.

Lemma setState_back snap d k v o :
  so_fakeStorage o = None →
  obj_eq snap d (setState k (state_view snap d o k) (setState k v o)) o.
Proof.
  intros Hf. split; try done. intros key. unfold state_view. simpl. rewrite Hf.
  destruct (decide (key = k)) as [->|Hne].
  - by rewrite !lookup_insert_eq.
  - by rewrite !lookup_insert_ne.
Qed.

Lemma setStateByteArray_back snap d k v o :
  obj_eq snap d (setStateByteArray k (tewaka_view o k) (setStateByteArray k v o)) o.
Proof.
  split; try done. intros key. unfold tewaka_view. simpl.
  destruct (decide (key = k)) as [->|Hne].
  - by rewrite !lookup_insert_eq.
  - by rewrite !lookup_insert_ne.
Qed.

End Objects.
