(* ===== verification/Concrete.v ===== *)
(** * A reference backend

    The interfaces [Trie], [Database] and [Snapshot] implemented by finite
    maps, with a hash that is injective on addresses.  It meets the laws of
    [BackendOk], so the theorems stated over them are not vacuous, and it lets
    the operations be evaluated on concrete states. *)
From S2P Require Import Prelude Common RlpEncode RlpDecode StateObject.
Import Enc Dec Bytes.

(** A 32-byte digest: the string read as a number, modulo a prime below
    [2^256]. *)
Definition toy_digest (b : bytes) : bytes := be_fixed 32 (be_decode b mod (2 ^ 256 - 189)).

Definition map_get (t : gmap bytes bytes) (k : bytes) : bytes * option string := (default [] (t !! k), None).

(** A trie is the map of its keys; its root hash folds the entries. *)
Definition map_hash (t : gmap bytes bytes) : hash :=
  if decide (t = ∅) then 0x56e81f171bcc55a6ff8345e692c0f86e5b48e01b996cadc001622fb5e363b421
  else BytesToHash (toy_digest (concat (map (λ kv, fst kv ++ snd kv) (map_to_list t)))).

#[export] Instance MapBackend : Backend := {|
  Trie := gmap bytes bytes;
  Snap := gmap hash SnapAccount * gmap (hash * hash) bytes;
  Keccak256 := toy_digest;
  TryGet := map_get;
  TryUpdate t k v := (<[k := v]> t, None);
  TryDelete t k := (delete k t, None);
  Trie_Hash := map_hash;
  Trie_Commit t := (map_hash t, None);
  OpenTrie _ := Ok ∅;
  OpenStorageTrie _ _ := Ok ∅;
  EmptyStorageTrie _ := ∅;
  CopyTrie t := t;
  ContractCode _ _ := (None, None);
  ContractCodeSize _ _ := (0, None);
  Snap_Account sn h := Ok (fst sn !! h);
  Snap_Storage sn h k := Ok (default [] (snd sn !! (h, k)))
|}.

Lemma toy_digest_addr a : 0 ≤ a < 2 ^ 160 → BytesToHash (toy_digest (Address_Bytes a)) = a.
Proof.
  intros Ha. unfold toy_digest, Address_Bytes. rewrite be_decode_fixed.
  change (256 ^ Z.of_nat 20) with (2 ^ 160). rewrite (Z.mod_small a) by exact Ha.
  assert (2 ^ 160 < 2 ^ 256 - 189) as Hlt by done.
  rewrite Z.mod_small by lia. apply (BytesToHash_Bytes a). lia.
Qed.

#[export] Instance MapBackendOk : BackendOk MapBackend.
Proof.
  split; try done.
  - intros b. cbn [Keccak256 MapBackend]. split; [exact (length_be_fixed 32 _)|apply wf_be_fixed].
  - intros a b Ha Hb. unfold Keccak256Hash. cbn [Keccak256 MapBackend].
    by rewrite !toy_digest_addr.
Qed.
