(* ===== verification/StateDB.v ===== *)
(** * The state database and its journal
    (core/state/statedb.go, core/state/journal.go)

    [StateDB] keeps the live objects, the logs, the refund counter, the
    preimages, the access list and the undo journal.  A pointer to a live
    object is its entry of [sd_stateObjects]: every method below works on the
    object it just fetched and writes it back.  Metrics are off and no
    prefetcher runs.  A nil dereference, an explicit panic and an index out of
    range are [Panic]. *)
From Stdlib Require Import Sorting.
From S2P Require Import Prelude Common RlpEncode RlpDecode AccessList StateObject.
Import Enc Dec Bytes.

Record Log := mkLog {
  log_Address : address;
  log_Topics : list hash;
  log_Data : bytes;
  log_BlockNumber : Z;
  log_TxHash : hash;
  log_TxIndex : Z;
  log_BlockHash : hash;
  log_Index : Z;
  log_Removed : bool
}.

Record revision := mkRevision { rev_id : Z; rev_journalIndex : nat }.

(** [sort.Search(n, f)]: the binary search of the standard library, with [n]
    rounds, more than the logarithm it needs. *)
Fixpoint sort_Search_go (fuel : nat) (f : nat → bool) (i j : nat) : nat :=
  match fuel with
  | O => i
  | S fuel =>
      if (i <? j)%nat then
        let h := ((i + j) / 2)%nat in
        if f h then sort_Search_go fuel f i h else sort_Search_go fuel f (S h) j
      else i
  end.
Definition sort_Search (n : nat) (f : nat → bool) : nat := sort_Search_go n f 0 n.

Section StateDB.
Context {B : Backend}.

(** ** The journal *)

Inductive journalEntry :=
| createObjectChange (account : address)
| resetObjectChange (prev : stateObject) (prevdestruct : bool)
| suicideChange (account : address) (prev : bool) (prevbalance : Z)
| balanceChange (account : address) (prev : Z)
| nonceChange (account : address) (prev : Z)
| storageChange (account : address) (key prevalue : hash)
| teWakaStorageChange (account : address) (key : hash) (prevalue : bytes)
| codeChange (account : address) (prevcode : option bytes) (prevhash : bytes)
| refundChange (prev : Z)
| addLogChange (txhash : hash)
| addPreimageChange (h : hash)
| touchChange (account : address)
| accessListAddAccountChange (a : address)
| accessListAddSlotChange (a : address) (slot : hash).

Definition dirtied (e : journalEntry) : option address :=
  match e with
  | createObjectChange a | suicideChange a _ _ | balanceChange a _ | nonceChange a _
  | storageChange a _ _ | teWakaStorageChange a _ _ | codeChange a _ _ | touchChange a => Some a
  | resetObjectChange _ _ | refundChange _ | addLogChange _ | addPreimageChange _
  | accessListAddAccountChange _ | accessListAddSlotChange _ _ => None
  end.

(** [entries] in the order they were appended. *)
Record journal := mkJournal {
  entries : list journalEntry;
  dirties : gmap address Z
}.

Definition newJournal : journal := mkJournal [] ∅.

Definition dirty (a : address) (j : journal) : journal :=
  mkJournal (entries j) (<[a := default 0 (dirties j !! a) + 1]> (dirties j)).

Definition append (e : journalEntry) (j : journal) : journal :=
  let j := mkJournal (entries j ++ [e]) (dirties j) in
  match dirtied e with Some a => dirty a j | None => j end.

Definition journal_length (j : journal) : nat := length (entries j).

(** The dirty count taken back by the revert loop. *)
Definition undirty (a : address) (j : journal) : journal :=
  let n := default 0 (dirties j !! a) - 1 in
  mkJournal (entries j) (if n =? 0 then delete a (dirties j) else <[a := n]> (dirties j)).

(** ** The state *)

Record StateDB := mkStateDB {
  sd_originalRoot : hash;
  sd_trie : Trie;
  sd_snap : option Snap;
  sd_snapDestructs : gset hash;
  sd_snapAccounts : gmap hash bytes;
  sd_snapStorage : gmap hash (gmap hash bytes);
  sd_stateObjects : gmap address stateObject;
  sd_stateObjectsPending : gset address;
  sd_stateObjectsDirty : gset address;
  sd_dbErr : option string;
  sd_refund : Z;
  sd_thash : hash;
  sd_txIndex : Z;
  sd_logs : gmap hash (list Log);
  sd_logSize : Z;
  sd_preimages : gmap hash bytes;
  sd_accessList : accessList;
  sd_journal : journal;
  sd_validRevisions : list revision;
  sd_nextRevisionId : Z;
  sd_records : gset (Z * hash)
}.

Definition sd_set_originalRoot (v : hash) (s : StateDB) : StateDB :=
  mkStateDB v (sd_trie s) (sd_snap s) (sd_snapDestructs s) (sd_snapAccounts s) (sd_snapStorage s)
    (sd_stateObjects s) (sd_stateObjectsPending s) (sd_stateObjectsDirty s) (sd_dbErr s)
    (sd_refund s) (sd_thash s) (sd_txIndex s) (sd_logs s) (sd_logSize s) (sd_preimages s)
    (sd_accessList s) (sd_journal s) (sd_validRevisions s) (sd_nextRevisionId s) (sd_records s).
Definition sd_set_trie (v : Trie) (s : StateDB) : StateDB :=
  mkStateDB (sd_originalRoot s) v (sd_snap s) (sd_snapDestructs s) (sd_snapAccounts s)
    (sd_snapStorage s) (sd_stateObjects s) (sd_stateObjectsPending s) (sd_stateObjectsDirty s)
    (sd_dbErr s) (sd_refund s) (sd_thash s) (sd_txIndex s) (sd_logs s) (sd_logSize s)
    (sd_preimages s) (sd_accessList s) (sd_journal s) (sd_validRevisions s) (sd_nextRevisionId s)
    (sd_records s).
Definition sd_set_snap (v : option Snap) (s : StateDB) : StateDB :=
  mkStateDB (sd_originalRoot s) (sd_trie s) v (sd_snapDestructs s) (sd_snapAccounts s)
    (sd_snapStorage s) (sd_stateObjects s) (sd_stateObjectsPending s) (sd_stateObjectsDirty s)
    (sd_dbErr s) (sd_refund s) (sd_thash s) (sd_txIndex s) (sd_logs s) (sd_logSize s)
    (sd_preimages s) (sd_accessList s) (sd_journal s) (sd_validRevisions s) (sd_nextRevisionId s)
    (sd_records s).
Definition sd_set_snapDestructs (v : gset hash) (s : StateDB) : StateDB :=
  mkStateDB (sd_originalRoot s) (sd_trie s) (sd_snap s) v (sd_snapAccounts s) (sd_snapStorage s)
    (sd_stateObjects s) (sd_stateObjectsPending s) (sd_stateObjectsDirty s) (sd_dbErr s)
    (sd_refund s) (sd_thash s) (sd_txIndex s) (sd_logs s) (sd_logSize s) (sd_preimages s)
    (sd_accessList s) (sd_journal s) (sd_validRevisions s) (sd_nextRevisionId s) (sd_records s).
Definition sd_set_snapAccounts (v : gmap hash bytes) (s : StateDB) : StateDB :=
  mkStateDB (sd_originalRoot s) (sd_trie s) (sd_snap s) (sd_snapDestructs s) v (sd_snapStorage s)
    (sd_stateObjects s) (sd_stateObjectsPending s) (sd_stateObjectsDirty s) (sd_dbErr s)
    (sd_refund s) (sd_thash s) (sd_txIndex s) (sd_logs s) (sd_logSize s) (sd_preimages s)
    (sd_accessList s) (sd_journal s) (sd_validRevisions s) (sd_nextRevisionId s) (sd_records s).
Definition sd_set_snapStorage (v : gmap hash (gmap hash bytes)) (s : StateDB) : StateDB :=
  mkStateDB (sd_originalRoot s) (sd_trie s) (sd_snap s) (sd_snapDestructs s) (sd_snapAccounts s) v
    (sd_stateObjects s) (sd_stateObjectsPending s) (sd_stateObjectsDirty s) (sd_dbErr s)
    (sd_refund s) (sd_thash s) (sd_txIndex s) (sd_logs s) (sd_logSize s) (sd_preimages s)
    (sd_accessList s) (sd_journal s) (sd_validRevisions s) (sd_nextRevisionId s) (sd_records s).
Definition sd_set_stateObjects (v : gmap address stateObject) (s : StateDB) : StateDB :=
  mkStateDB (sd_originalRoot s) (sd_trie s) (sd_snap s) (sd_snapDestructs s) (sd_snapAccounts s)
    (sd_snapStorage s) v (sd_stateObjectsPending s) (sd_stateObjectsDirty s) (sd_dbErr s)
    (sd_refund s) (sd_thash s) (sd_txIndex s) (sd_logs s) (sd_logSize s) (sd_preimages s)
    (sd_accessList s) (sd_journal s) (sd_validRevisions s) (sd_nextRevisionId s) (sd_records s).
Definition sd_set_stateObjectsPending (v : gset address) (s : StateDB) : StateDB :=
  mkStateDB (sd_originalRoot s) (sd_trie s) (sd_snap s) (sd_snapDestructs s) (sd_snapAccounts s)
    (sd_snapStorage s) (sd_stateObjects s) v (sd_stateObjectsDirty s) (sd_dbErr s) (sd_refund s)
    (sd_thash s) (sd_txIndex s) (sd_logs s) (sd_logSize s) (sd_preimages s) (sd_accessList s)
    (sd_journal s) (sd_validRevisions s) (sd_nextRevisionId s) (sd_records s).
Definition sd_set_stateObjectsDirty (v : gset address) (s : StateDB) : StateDB :=
  mkStateDB (sd_originalRoot s) (sd_trie s) (sd_snap s) (sd_snapDestructs s) (sd_snapAccounts s)
    (sd_snapStorage s) (sd_stateObjects s) (sd_stateObjectsPending s) v (sd_dbErr s) (sd_refund s)
    (sd_thash s) (sd_txIndex s) (sd_logs s) (sd_logSize s) (sd_preimages s) (sd_accessList s)
    (sd_journal s) (sd_validRevisions s) (sd_nextRevisionId s) (sd_records s).
Definition sd_set_dbErr (v : option string) (s : StateDB) : StateDB :=
  mkStateDB (sd_originalRoot s) (sd_trie s) (sd_snap s) (sd_snapDestructs s) (sd_snapAccounts s)
    (sd_snapStorage s) (sd_stateObjects s) (sd_stateObjectsPending s) (sd_stateObjectsDirty s) v
    (sd_refund s) (sd_thash s) (sd_txIndex s) (sd_logs s) (sd_logSize s) (sd_preimages s)
    (sd_accessList s) (sd_journal s) (sd_validRevisions s) (sd_nextRevisionId s) (sd_records s).
Definition sd_set_refund (v : Z) (s : StateDB) : StateDB :=
  mkStateDB (sd_originalRoot s) (sd_trie s) (sd_snap s) (sd_snapDestructs s) (sd_snapAccounts s)
    (sd_snapStorage s) (sd_stateObjects s) (sd_stateObjectsPending s) (sd_stateObjectsDirty s)
    (sd_dbErr s) v (sd_thash s) (sd_txIndex s) (sd_logs s) (sd_logSize s) (sd_preimages s)
    (sd_accessList s) (sd_journal s) (sd_validRevisions s) (sd_nextRevisionId s) (sd_records s).
Definition sd_set_thash (v : hash) (s : StateDB) : StateDB :=
  mkStateDB (sd_originalRoot s) (sd_trie s) (sd_snap s) (sd_snapDestructs s) (sd_snapAccounts s)
    (sd_snapStorage s) (sd_stateObjects s) (sd_stateObjectsPending s) (sd_stateObjectsDirty s)
    (sd_dbErr s) (sd_refund s) v (sd_txIndex s) (sd_logs s) (sd_logSize s) (sd_preimages s)
    (sd_accessList s) (sd_journal s) (sd_validRevisions s) (sd_nextRevisionId s) (sd_records s).
Definition sd_set_txIndex (v : Z) (s : StateDB) : StateDB :=
  mkStateDB (sd_originalRoot s) (sd_trie s) (sd_snap s) (sd_snapDestructs s) (sd_snapAccounts s)
    (sd_snapStorage s) (sd_stateObjects s) (sd_stateObjectsPending s) (sd_stateObjectsDirty s)
    (sd_dbErr s) (sd_refund s) (sd_thash s) v (sd_logs s) (sd_logSize s) (sd_preimages s)
    (sd_accessList s) (sd_journal s) (sd_validRevisions s) (sd_nextRevisionId s) (sd_records s).
Definition sd_set_logs (v : gmap hash (list Log)) (s : StateDB) : StateDB :=
  mkStateDB (sd_originalRoot s) (sd_trie s) (sd_snap s) (sd_snapDestructs s) (sd_snapAccounts s)
    (sd_snapStorage s) (sd_stateObjects s) (sd_stateObjectsPending s) (sd_stateObjectsDirty s)
    (sd_dbErr s) (sd_refund s) (sd_thash s) (sd_txIndex s) v (sd_logSize s) (sd_preimages s)
    (sd_accessList s) (sd_journal s) (sd_validRevisions s) (sd_nextRevisionId s) (sd_records s).
Definition sd_set_logSize (v : Z) (s : StateDB) : StateDB :=
  mkStateDB (sd_originalRoot s) (sd_trie s) (sd_snap s) (sd_snapDestructs s) (sd_snapAccounts s)
    (sd_snapStorage s) (sd_stateObjects s) (sd_stateObjectsPending s) (sd_stateObjectsDirty s)
    (sd_dbErr s) (sd_refund s) (sd_thash s) (sd_txIndex s) (sd_logs s) v (sd_preimages s)
    (sd_accessList s) (sd_journal s) (sd_validRevisions s) (sd_nextRevisionId s) (sd_records s).
Definition sd_set_preimages (v : gmap hash bytes) (s : StateDB) : StateDB :=
  mkStateDB (sd_originalRoot s) (sd_trie s) (sd_snap s) (sd_snapDestructs s) (sd_snapAccounts s)
    (sd_snapStorage s) (sd_stateObjects s) (sd_stateObjectsPending s) (sd_stateObjectsDirty s)
    (sd_dbErr s) (sd_refund s) (sd_thash s) (sd_txIndex s) (sd_logs s) (sd_logSize s) v
    (sd_accessList s) (sd_journal s) (sd_validRevisions s) (sd_nextRevisionId s) (sd_records s).
Definition sd_set_accessList (v : accessList) (s : StateDB) : StateDB :=
  mkStateDB (sd_originalRoot s) (sd_trie s) (sd_snap s) (sd_snapDestructs s) (sd_snapAccounts s)
    (sd_snapStorage s) (sd_stateObjects s) (sd_stateObjectsPending s) (sd_stateObjectsDirty s)
    (sd_dbErr s) (sd_refund s) (sd_thash s) (sd_txIndex s) (sd_logs s) (sd_logSize s)
    (sd_preimages s) v (sd_journal s) (sd_validRevisions s) (sd_nextRevisionId s) (sd_records s).
Definition sd_set_journal (v : journal) (s : StateDB) : StateDB :=
  mkStateDB (sd_originalRoot s) (sd_trie s) (sd_snap s) (sd_snapDestructs s) (sd_snapAccounts s)
    (sd_snapStorage s) (sd_stateObjects s) (sd_stateObjectsPending s) (sd_stateObjectsDirty s)
    (sd_dbErr s) (sd_refund s) (sd_thash s) (sd_txIndex s) (sd_logs s) (sd_logSize s)
    (sd_preimages s) (sd_accessList s) v (sd_validRevisions s) (sd_nextRevisionId s)
    (sd_records s).
Definition sd_set_validRevisions (v : list revision) (s : StateDB) : StateDB :=
  mkStateDB (sd_originalRoot s) (sd_trie s) (sd_snap s) (sd_snapDestructs s) (sd_snapAccounts s)
    (sd_snapStorage s) (sd_stateObjects s) (sd_stateObjectsPending s) (sd_stateObjectsDirty s)
    (sd_dbErr s) (sd_refund s) (sd_thash s) (sd_txIndex s) (sd_logs s) (sd_logSize s)
    (sd_preimages s) (sd_accessList s) (sd_journal s) v (sd_nextRevisionId s) (sd_records s).
Definition sd_set_nextRevisionId (v : Z) (s : StateDB) : StateDB :=
  mkStateDB (sd_originalRoot s) (sd_trie s) (sd_snap s) (sd_snapDestructs s) (sd_snapAccounts s)
    (sd_snapStorage s) (sd_stateObjects s) (sd_stateObjectsPending s) (sd_stateObjectsDirty s)
    (sd_dbErr s) (sd_refund s) (sd_thash s) (sd_txIndex s) (sd_logs s) (sd_logSize s)
    (sd_preimages s) (sd_accessList s) (sd_journal s) (sd_validRevisions s) v (sd_records s).
Definition sd_set_records (v : gset (Z * hash)) (s : StateDB) : StateDB :=
  mkStateDB (sd_originalRoot s) (sd_trie s) (sd_snap s) (sd_snapDestructs s) (sd_snapAccounts s)
    (sd_snapStorage s) (sd_stateObjects s) (sd_stateObjectsPending s) (sd_stateObjectsDirty s)
    (sd_dbErr s) (sd_refund s) (sd_thash s) (sd_txIndex s) (sd_logs s) (sd_logSize s)
    (sd_preimages s) (sd_accessList s) (sd_journal s) (sd_validRevisions s) (sd_nextRevisionId s)
    v.

(** [New], for a root whose trie opens. *)
Definition New (root : hash) (snap : option Snap) : result string StateDB :=
  try! tr <- OpenTrie root;
  Ok (mkStateDB root tr snap ∅ ∅ ∅ ∅ ∅ ∅ None 0 0 0 ∅ 0 ∅ newAccessList newJournal [] 0 ∅).

Definition sd_setError (err : option string) (s : StateDB) : StateDB :=
  match sd_dbErr s with None => sd_set_dbErr err s | Some _ => s end.

Definition journal_append (e : journalEntry) (s : StateDB) : StateDB :=
  sd_set_journal (append e (sd_journal s)) s.

(** A write through an object pointer: the object is the one in the map. *)
Definition setStateObject (o : stateObject) (s : StateDB) : StateDB :=
  sd_set_stateObjects (<[so_address o := o]> (sd_stateObjects s)) s.

Definition destructed (s : StateDB) (ah : hash) : bool := bool_decide (ah ∈ sd_snapDestructs s).

Definition Account_of (v : gval) : option (Z * Z * hash * bytes) :=
  match v with
  | VList [VUint n; VBig (Some b); VArray r; VBytes c] => Some (n, b, be_decode r, c)
  | _ => None
  end.

(** Loading an account that has no live object: the object, and the database
    error to remember. *)
Definition load_from_trie (tr : Trie) (a : address) : option stateObject * option string :=
  match TryGet tr (Address_Bytes a) with
  | (_, Some e) => (None, Some ("getDeleteStateObject error: " +:+ e))
  | (enc, None) =>
      if zlen enc =? 0 then (None, None)
      else match DecodeBytes Account_type enc with
           | Ok v => match Account_of v with
                     | Some (n, b, r, c) => (Some (newObject a n (Some b) r (Some c)), None)
                     | None => (None, None)
                     end
           | Err _ => (None, None)
           end
  end.

Definition load (snap : option Snap) (tr : Trie) (a : address) : option stateObject * option string :=
  match snap with
  | None => load_from_trie tr a
  | Some sn =>
      match Snap_Account sn (Keccak256Hash (Address_Bytes a)) with
      | Err _ => load_from_trie tr a
      | Ok None => (None, None)
      | Ok (Some acc) =>
          let codeHash := if zlen (sa_CodeHash acc) =? 0 then emptyCodeHash else sa_CodeHash acc in
          let r := BytesToHash (sa_Root acc) in
          let r := if r =? 0 then emptyRoot else r in
          (Some (newObject a (sa_Nonce acc) (Some (sa_Balance acc)) r (Some codeHash)), None)
      end
  end.

Definition getDeletedStateObject (a : address) (s : StateDB) : option stateObject * StateDB :=
  match sd_stateObjects s !! a with
  | Some o => (Some o, s)
  | None =>
      match load (sd_snap s) (sd_trie s) a with
      | (Some o, _) => (Some o, setStateObject o s)
      | (None, Some e) => (None, sd_setError (Some e) s)
      | (None, None) => (None, s)
      end
  end.

Definition getStateObject (a : address) (s : StateDB) : option stateObject * StateDB :=
  match getDeletedStateObject a s with
  | (Some o, s) => (if so_deleted o then None else Some o, s)
  | (None, s) => (None, s)
  end.

(** The new object and the previous one, nil when there was none or it was
    deleted. *)
Definition createObject (a : address) (s : StateDB) : stateObject * option stateObject * StateDB :=
  let '(prev, s) := getDeletedStateObject a s in
  let '(prevdestruct, s) :=
    match sd_snap s, prev with
    | Some _, Some p =>
        let pd := destructed s (so_addrHash p) in
        (pd, if pd then s else sd_set_snapDestructs ({[so_addrHash p]} ∪ sd_snapDestructs s) s)
    | _, _ => (false, s)
    end in
  let newobj := newObject a 0 None 0 None in
  let s := match prev with
           | None => journal_append (createObjectChange a) s
           | Some p => journal_append (resetObjectChange p prevdestruct) s
           end in
  let s := setStateObject newobj s in
  (newobj, match prev with Some p => if so_deleted p then None else Some p | None => None end, s).

Definition GetOrNewStateObject (a : address) (s : StateDB) : stateObject * StateDB :=
  match getStateObject a s with
  | (Some o, s) => (o, s)
  | (None, s) => let '(o, _, s) := createObject a s in (o, s)
  end.

Definition CreateAccount (a : address) (s : StateDB) : StateDB :=
  let '(newObj, prev, s) := createObject a s in
  match prev with
  | Some p => setStateObject (setBalance (Balance (so_data p)) newObj) s
  | None => s
  end.

(** ** Reverting *)

Definition ripemd : address := 3.

(** [s.getStateObject(a).f()]: a nil pointer panics. *)
Definition on_object (a : address) (f : stateObject → stateObject) (s : StateDB) : outcome StateDB :=
  match getStateObject a s with
  | (Some o, s) => Ret (setStateObject (f o) s)
  | (None, _) => Panic
  end.

Definition revert_entry (e : journalEntry) (s : StateDB) : outcome StateDB :=
  match e with
  | createObjectChange a =>
      let s := sd_set_stateObjects (delete a (sd_stateObjects s)) s in
      Ret (sd_set_stateObjectsDirty (sd_stateObjectsDirty s ∖ {[a]}) s)
  | resetObjectChange prev prevdestruct =>
      let s := setStateObject prev s in
      Ret (match sd_snap s with
           | Some _ => if prevdestruct then s
                       else sd_set_snapDestructs (sd_snapDestructs s ∖ {[so_addrHash prev]}) s
           | None => s
           end)
  | suicideChange a prev prevbalance =>
      match getStateObject a s with
      | (Some o, s) => Ret (setStateObject (setBalance prevbalance (so_set_suicided prev o)) s)
      | (None, s) => Ret s
      end
  | touchChange _ => Ret s
  | balanceChange a prev => on_object a (setBalance prev) s
  | nonceChange a prev => on_object a (setNonce prev) s
  | codeChange a prevcode prevhash => on_object a (setCode (BytesToHash prevhash) prevcode) s
  | storageChange a key prevalue => on_object a (setState key prevalue) s
  | teWakaStorageChange a key prevalue => on_object a (setStateByteArray key prevalue) s
  | refundChange prev => Ret (sd_set_refund prev s)
  | addLogChange txhash =>
      let lgs := default [] (sd_logs s !! txhash) in
      do! lgs' <-
        (if (length lgs =? 1)%nat then Ret (delete txhash (sd_logs s))
         else match lgs with
              | [] => Panic
              | _ => Ret (<[txhash := take (length lgs - 1) lgs]> (sd_logs s))
              end);
      Ret (sd_set_logSize (u64 (sd_logSize s - 1)) (sd_set_logs lgs' s))
  | addPreimageChange h => Ret (sd_set_preimages (delete h (sd_preimages s)) s)
  | accessListAddAccountChange a => Ret (sd_set_accessList (DeleteAddress (sd_accessList s) a) s)
  | accessListAddSlotChange a slot =>
      do! al <- DeleteSlot (sd_accessList s) a slot; Ret (sd_set_accessList al s)
  end.

(** The loop of [journal.revert] over the entries it undoes, newest first. *)
Fixpoint undo (es : list journalEntry) (s : StateDB) : outcome StateDB :=
  match es with
  | [] => Ret s
  | e :: es =>
      do! s <- revert_entry e s;
      undo es (match dirtied e with
               | Some a => sd_set_journal (undirty a (sd_journal s)) s
               | None => s
               end)
  end.

Definition journal_revert (snapshot : nat) (s : StateDB) : outcome StateDB :=
  do! s <- undo (reverse (drop snapshot (entries (sd_journal s)))) s;
  if (length (entries (sd_journal s)) <? snapshot)%nat then Panic
  else Ret (sd_set_journal
              (mkJournal (take snapshot (entries (sd_journal s))) (dirties (sd_journal s))) s).

Definition Snapshot (s : StateDB) : Z * StateDB :=
  let id := sd_nextRevisionId s in
  let s := sd_set_nextRevisionId (id + 1) s in
  (id, sd_set_validRevisions
         (sd_validRevisions s ++ [mkRevision id (journal_length (sd_journal s))]) s).

Definition RevertToSnapshot (revid : Z) (s : StateDB) : outcome StateDB :=
  let revs := sd_validRevisions s in
  let idx := sort_Search (length revs)
    (λ i, match revs !! i with Some r => revid <=? rev_id r | None => false end) in
  match revs !! idx with
  | Some r =>
      if negb (rev_id r =? revid) then Panic
      else do! s <- journal_revert (rev_journalIndex r) s;
           Ret (sd_set_validRevisions (take idx revs) s)
  | None => Panic
  end.

(** ** Reading *)

Definition Exist (a : address) (s : StateDB) : bool * StateDB :=
  let '(o, s) := getStateObject a s in (bool_decide (is_Some o), s).

Definition Empty (a : address) (s : StateDB) : bool * StateDB :=
  let '(o, s) := getStateObject a s in
  (match o with Some o => empty_ o | None => true end, s).

Definition GetBalance (a : address) (s : StateDB) : Z * StateDB :=
  let '(o, s) := getStateObject a s in
  (match o with Some o => Balance (so_data o) | None => 0 end, s).

Definition GetNonce (a : address) (s : StateDB) : Z * StateDB :=
  let '(o, s) := getStateObject a s in
  (match o with Some o => Nonce (so_data o) | None => 0 end, s).

Definition GetCodeHash (a : address) (s : StateDB) : hash * StateDB :=
  let '(o, s) := getStateObject a s in
  (match o with Some o => BytesToHash (CodeHash (so_data o)) | None => 0 end, s).

Definition HasSuicided (a : address) (s : StateDB) : bool * StateDB :=
  let '(o, s) := getStateObject a s in
  (match o with Some o => so_suicided o | None => false end, s).

Definition GetCode (a : address) (s : StateDB) : option bytes * StateDB :=
  match getStateObject a s with
  | (Some o, s) => let '(c, o) := Code o in (c, setStateObject o s)
  | (None, s) => (None, s)
  end.

Definition GetCodeSize (a : address) (s : StateDB) : Z * StateDB :=
  match getStateObject a s with
  | (Some o, s) => let '(c, o) := CodeSize o in (c, setStateObject o s)
  | (None, s) => (0, s)
  end.

Definition sd_GetState (a : address) (key : hash) (s : StateDB) : hash * StateDB :=
  match getStateObject a s with
  | (Some o, s) =>
      let '(v, o) := GetState (sd_snap s) (destructed s (so_addrHash o)) o key in
      (v, setStateObject o s)
  | (None, s) => (0, s)
  end.

Definition sd_GetCommittedState (a : address) (key : hash) (s : StateDB) : hash * StateDB :=
  match getStateObject a s with
  | (Some o, s) =>
      let '(v, o) := GetCommittedState (sd_snap s) (destructed s (so_addrHash o)) o key in
      (v, setStateObject o s)
  | (None, s) => (0, s)
  end.

(** Reading creates the account. *)
Definition sd_GetTeWakaState (a : address) (key : hash) (s : StateDB) : bytes * StateDB :=
  let '(o, s) := GetOrNewStateObject a s in
  let '(v, o) := GetTeWakaState o key in
  (v, setStateObject o s).

(** ** Writing *)

Definition AddLog (l : Log) (s : StateDB) : StateDB :=
  let s := journal_append (addLogChange (sd_thash s)) s in
  let l := mkLog (log_Address l) (log_Topics l) (log_Data l) (log_BlockNumber l) (sd_thash s)
             (sd_txIndex s) (log_BlockHash l) (sd_logSize s) (log_Removed l) in
  let s := sd_set_logs (<[sd_thash s := default [] (sd_logs s !! sd_thash s) ++ [l]]> (sd_logs s)) s in
  sd_set_logSize (u64 (sd_logSize s + 1)) s.

Definition AddPreimage (h : hash) (preimage : bytes) (s : StateDB) : StateDB :=
  match sd_preimages s !! h with
  | Some _ => s
  | None =>
      let s := journal_append (addPreimageChange h) s in
      sd_set_preimages (<[h := preimage]> (sd_preimages s)) s
  end.

Definition AddRefund (gas : Z) (s : StateDB) : StateDB :=
  let s := journal_append (refundChange (sd_refund s)) s in
  sd_set_refund (u64 (sd_refund s + gas)) s.

Definition SubRefund (gas : Z) (s : StateDB) : outcome StateDB :=
  let s := journal_append (refundChange (sd_refund s)) s in
  if sd_refund s <? gas then Panic else Ret (sd_set_refund (sd_refund s - gas) s).

(** [stateObject.touch], [SetBalance], [AddBalance] and [SubBalance]. *)
Definition touch (o : stateObject) (s : StateDB) : StateDB :=
  let s := journal_append (touchChange (so_address o)) s in
  if so_address o =? ripemd then sd_set_journal (dirty (so_address o) (sd_journal s)) s else s.

Definition obj_SetBalance (amount : Z) (o : stateObject) (s : StateDB) : StateDB :=
  let s := journal_append (balanceChange (so_address o) (Balance (so_data o))) s in
  setStateObject (setBalance amount o) s.

Definition AddBalance (a : address) (amount : Z) (s : StateDB) : StateDB :=
  let '(o, s) := GetOrNewStateObject a s in
  if amount =? 0 then (if empty_ o then touch o s else s)
  else obj_SetBalance (Balance (so_data o) + amount) o s.

Definition SubBalance (a : address) (amount : Z) (s : StateDB) : StateDB :=
  let '(o, s) := GetOrNewStateObject a s in
  if amount =? 0 then s else obj_SetBalance (Balance (so_data o) - amount) o s.

Definition SetBalance (a : address) (amount : Z) (s : StateDB) : StateDB :=
  let '(o, s) := GetOrNewStateObject a s in obj_SetBalance amount o s.

Definition SetNonce (a : address) (nonce : Z) (s : StateDB) : StateDB :=
  let '(o, s) := GetOrNewStateObject a s in
  let s := journal_append (nonceChange (so_address o) (Nonce (so_data o))) s in
  setStateObject (setNonce nonce o) s.

Definition SetCode (a : address) (code : bytes) (s : StateDB) : StateDB :=
  let '(o, s) := GetOrNewStateObject a s in
  let '(prevcode, o) := Code o in
  let s := setStateObject o s in
  let s := journal_append (codeChange (so_address o) prevcode (CodeHash (so_data o))) s in
  setStateObject (setCode (Keccak256Hash code) (Some code) o) s.

Definition SetState (a : address) (key value : hash) (s : StateDB) : StateDB :=
  let '(o, s) := GetOrNewStateObject a s in
  match so_fakeStorage o with
  | Some fs => setStateObject (so_set_fakeStorage (Some (<[key := value]> fs)) o) s
  | None =>
      let '(prev, o) := GetState (sd_snap s) (destructed s (so_addrHash o)) o key in
      let s := setStateObject o s in
      if prev =? value then s
      else
        let s := journal_append (storageChange (so_address o) key prev) s in
        setStateObject (setState key value o) s
  end.

Definition SetTeWakaState (a : address) (key : hash) (value : bytes) (s : StateDB) : StateDB :=
  let '(o, s) := GetOrNewStateObject a s in
  let '(prev, o) := GetTeWakaState o key in
  let s := setStateObject o s in
  let s := journal_append (teWakaStorageChange (so_address o) key prev) s in
  setStateObject (setStateByteArray key value o) s.

Definition sd_SetStorage (a : address) (storage : Storage) (s : StateDB) : StateDB :=
  let '(o, s) := GetOrNewStateObject a s in setStateObject (SetStorage storage o) s.

Definition Suicide (a : address) (s : StateDB) : bool * StateDB :=
  match getStateObject a s with
  | (None, s) => (false, s)
  | (Some o, s) =>
      let s := journal_append (suicideChange a (so_suicided o) (Balance (so_data o))) s in
      (true, setStateObject (setBalance 0 (markSuicided o)) s)
  end.

Definition AddAddressToAccessList (a : address) (s : StateDB) : StateDB :=
  let '(change, al) := AddAddress (sd_accessList s) a in
  let s := sd_set_accessList al s in
  if change then journal_append (accessListAddAccountChange a) s else s.

Definition AddSlotToAccessList (a : address) (slot : hash) (s : StateDB) : outcome StateDB :=
  do! (change, al) <- AddSlot (sd_accessList s) a slot;
  let '(addrMod, slotMod) := change in
  let s := sd_set_accessList al s in
  let s := if addrMod then journal_append (accessListAddAccountChange a) s else s in
  Ret (if slotMod then journal_append (accessListAddSlotChange a slot) s else s).

(** [PrepareAccessList] over the transaction's access list of (address, keys). *)
Fixpoint add_slots (a : address) (keys : list hash) (s : StateDB) : outcome StateDB :=
  match keys with
  | [] => Ret s
  | key :: keys => do! s <- AddSlotToAccessList a key s; add_slots a keys s
  end.

Fixpoint add_tuples (l : list (address * list hash)) (s : StateDB) : outcome StateDB :=
  match l with
  | [] => Ret s
  | (a, keys) :: l => do! s <- add_slots a keys (AddAddressToAccessList a s); add_tuples l s
  end.

Definition PrepareAccessList (sender : address) (dst : option address) (precompiles : list address)
    (l : list (address * list hash)) (s : StateDB) : outcome StateDB :=
  let s := AddAddressToAccessList sender s in
  let s := match dst with Some d => AddAddressToAccessList d s | None => s end in
  let s := fold_left (λ s a, AddAddressToAccessList a s) precompiles s in
  add_tuples l s.

Definition AddressInAccessList (a : address) (s : StateDB) : bool := ContainsAddress (sd_accessList s) a.
Definition SlotInAccessList (a : address) (slot : hash) (s : StateDB) : outcome (bool * bool) :=
  Contains (sd_accessList s) a slot.

(** The record table of the disk database: outside the journal. *)
Definition HasRecord (atype : Z) (h : hash) (s : StateDB) : bool := bool_decide ((atype, h) ∈ sd_records s).
Definition WriteRecord (atype : Z) (h : hash) (s : StateDB) : StateDB :=
  sd_set_records ({[(atype, h)]} ∪ sd_records s) s.
Definition DeleteRecord (atype : Z) (h : hash) (s : StateDB) : StateDB :=
  sd_set_records (sd_records s ∖ {[(atype, h)]}) s.

(** ** End of a transaction and of a block *)

Definition Prepare (thash : hash) (ti : Z) (s : StateDB) : StateDB :=
  sd_set_accessList newAccessList (sd_set_txIndex ti (sd_set_thash thash s)).

Definition clearJournalAndRefund (s : StateDB) : StateDB :=
  let s := match entries (sd_journal s) with
           | [] => s
           | _ => sd_set_refund 0 (sd_set_journal newJournal s)
           end in
  sd_set_validRevisions [] s.

(** One round of the loop of [Finalise] over [journal.dirties]. *)
Definition finalise_one (deleteEmptyObjects : bool) (s : StateDB) (a : address) : StateDB :=
  match sd_stateObjects s !! a with
  | None => s
  | Some o =>
      let s :=
        if so_suicided o || (deleteEmptyObjects && empty_ o) then
          let s := setStateObject (so_set_deleted true o) s in
          match sd_snap s with
          | Some _ =>
              let s := sd_set_snapDestructs ({[so_addrHash o]} ∪ sd_snapDestructs s) s in
              let s := sd_set_snapAccounts (delete (so_addrHash o) (sd_snapAccounts s)) s in
              sd_set_snapStorage (delete (so_addrHash o) (sd_snapStorage s)) s
          | None => s
          end
        else setStateObject (finalise o) s in
      let s := sd_set_stateObjectsPending ({[a]} ∪ sd_stateObjectsPending s) s in
      sd_set_stateObjectsDirty ({[a]} ∪ sd_stateObjectsDirty s) s
  end.

Definition Finalise (deleteEmptyObjects : bool) (s : StateDB) : StateDB :=
  let s := fold_left (finalise_one deleteEmptyObjects) (map_to_list (dirties (sd_journal s))).*1 s in
  clearJournalAndRefund s.

Definition updateStateObject (o : stateObject) (s : StateDB) : outcome StateDB :=
  match EncodeRLP o with
  | Err _ => Panic
  | Ok data =>
      let '(tr, err) := TryUpdate (sd_trie s) (Address_Bytes (so_address o)) data in
      let s := sd_set_trie tr s in
      let s := match err with
               | Some e => sd_setError (Some ("updateStateObject error: " +:+ e)) s
               | None => s
               end in
      match sd_snap s with
      | Some _ =>
          let d := so_data o in
          do! slim <- SlimAccountRLP (Nonce d) (Balance d) (Root d) (CodeHash d);
          Ret (sd_set_snapAccounts (<[so_addrHash o := slim]> (sd_snapAccounts s)) s)
      | None => Ret s
      end
  end.

Definition deleteStateObject (o : stateObject) (s : StateDB) : StateDB :=
  let '(tr, err) := TryDelete (sd_trie s) (Address_Bytes (so_address o)) in
  let s := sd_set_trie tr s in
  match err with
  | Some e => sd_setError (Some ("deleteStateObject error: " +:+ e)) s
  | None => s
  end.

(** The storage roots first, then the account trie; a pending address without
    an object is a nil dereference. *)
Fixpoint update_roots (l : list address) (s : StateDB) : outcome StateDB :=
  match l with
  | [] => Ret s
  | a :: l =>
      match sd_stateObjects s !! a with
      | None => Panic
      | Some o =>
          if so_deleted o then update_roots l s
          else let '(o, ss) := updateRoot (sd_snap s) (sd_snapStorage s) o in
               update_roots l (setStateObject o (sd_set_snapStorage ss s))
      end
  end.

Fixpoint update_accounts (l : list address) (s : StateDB) : outcome StateDB :=
  match l with
  | [] => Ret s
  | a :: l =>
      match sd_stateObjects s !! a with
      | None => Panic
      | Some o =>
          do! s <- (if so_deleted o then Ret (deleteStateObject o s) else updateStateObject o s);
          update_accounts l s
      end
  end.

Definition IntermediateRoot (deleteEmptyObjects : bool) (s : StateDB) : outcome (hash * StateDB) :=
  let s := Finalise deleteEmptyObjects s in
  let l := elements (sd_stateObjectsPending s) in
  do! s <- update_roots l s;
  do! s <- update_accounts l s;
  let s := sd_set_stateObjectsPending ∅ s in
  Ret (Trie_Hash (sd_trie s), s).

(** [Commit] also hands the dirty code to the disk batch; the codes written
    are returned. The reference counts of the trie database and the snapshot
    tree are outside the model. *)
Fixpoint commit_objects (l : list address) (codes : list (hash * bytes)) (s : StateDB)
    : outcome (option string * list (hash * bytes) * StateDB) :=
  match l with
  | [] => Ret (None, codes, s)
  | a :: l =>
      match sd_stateObjects s !! a with
      | None => Panic
      | Some o =>
          if so_deleted o then commit_objects l codes s
          else
            let '(codes, o) :=
              match so_code o with
              | Some c => if so_dirtyCode o
                          then (codes ++ [(BytesToHash (CodeHash (so_data o)), c)], so_set_dirtyCode false o)
                          else (codes, o)
              | None => (codes, o)
              end in
            let '(err, o, ss) := CommitTrie (sd_snap s) (sd_snapStorage s) o in
            let s := setStateObject o (sd_set_snapStorage ss s) in
            match err with
            | Some e => Ret (Some e, codes, s)
            | None => commit_objects l codes s
            end
      end
  end.

Definition Commit (deleteEmptyObjects : bool) (s : StateDB)
    : outcome (result string hash * list (hash * bytes) * StateDB) :=
  match sd_dbErr s with
  | Some e => Ret (Err ("commit aborted due to earlier error: " +:+ e), [], s)
  | None =>
      do! (_, s) <- IntermediateRoot deleteEmptyObjects s;
      do! (r, s) <- commit_objects (elements (sd_stateObjectsDirty s)) [] s;
      let '(err, codes) := r in
      match err with
      | Some e => Ret (Err e, [], s)
      | None =>
          let s := sd_set_stateObjectsDirty ∅ s in
          let '(root, err) := Trie_Commit (sd_trie s) in
          let s := match sd_snap s with
                   | Some _ => sd_set_snap None (sd_set_snapDestructs ∅
                                 (sd_set_snapAccounts ∅ (sd_set_snapStorage ∅ s)))
                   | None => s
                   end in
          Ret (match err with None => Ok root | Some e => Err e end, codes, s)
      end
  end.

(** ** Copying *)

Definition copy_object (src : StateDB) (a : address) (st : StateDB) : outcome StateDB :=
  match sd_stateObjects st !! a with
  | Some _ => Ret st
  | None => match sd_stateObjects src !! a with
            | Some o => Ret (sd_set_stateObjects (<[a := deepCopy o]> (sd_stateObjects st)) st)
            | None => Panic
            end
  end.

Definition copy_dirty (src : StateDB) (st : StateDB) (a : address) : StateDB :=
  match sd_stateObjects src !! a with
  | Some o =>
      let st := sd_set_stateObjects (<[a := deepCopy o]> (sd_stateObjects st)) st in
      let st := sd_set_stateObjectsDirty ({[a]} ∪ sd_stateObjectsDirty st) st in
      sd_set_stateObjectsPending ({[a]} ∪ sd_stateObjectsPending st) st
  | None => st
  end.

Fixpoint copy_pending (src : StateDB) (l : list address) (st : StateDB) : outcome StateDB :=
  match l with
  | [] => Ret st
  | a :: l => do! st <- copy_object src a st;
              copy_pending src l (sd_set_stateObjectsPending ({[a]} ∪ sd_stateObjectsPending st) st)
  end.

Fixpoint copy_dirties (src : StateDB) (l : list address) (st : StateDB) : outcome StateDB :=
  match l with
  | [] => Ret st
  | a :: l => do! st <- copy_object src a st;
              copy_dirties src l (sd_set_stateObjectsDirty ({[a]} ∪ sd_stateObjectsDirty st) st)
  end.

(** The journal, the revisions, the transaction hash and index, the original
    root and the memoised error start afresh. *)
Definition Copy (s : StateDB) : outcome StateDB :=
  let st := mkStateDB 0 (CopyTrie (sd_trie s)) None ∅ ∅ ∅ ∅ ∅ ∅ None (sd_refund s) 0 0
              ∅ (sd_logSize s) ∅ newAccessList newJournal [] 0 (sd_records s) in
  let st := fold_left (copy_dirty s) (map_to_list (dirties (sd_journal s))).*1 st in
  do! st <- copy_pending s (elements (sd_stateObjectsPending s)) st;
  do! st <- copy_dirties s (elements (sd_stateObjectsDirty s)) st;
  let st := sd_set_logs (sd_logs s) st in
  let st := sd_set_preimages (sd_preimages s) st in
  let st := sd_set_accessList (AL_Copy (sd_accessList s)) st in
  let st := sd_set_snap (sd_snap s) st in
  let st := sd_set_snapDestructs (sd_snapDestructs s) st in
  let st := sd_set_snapAccounts (sd_snapAccounts s) st in
  Ret (sd_set_snapStorage (sd_snapStorage s) st).

End StateDB.
