(* ===== verification/StateRevert.v ===== *)
(** * Reverting to a snapshot restores the state

    The journal entries of every operation undo it: running any sequence of
    operations, snapshots and inner reverts after [Snapshot] and then
    [RevertToSnapshot] gives the state the snapshot was taken of, up to [eqv]:
    what stays are caches filled by reads and the keys of undone Te Waka
    writes. *)
From S2P Require Import Prelude Common RlpEncode RlpDecode AccessList StateObject Concrete StateDB.
Import Bytes.

Section Revert.
Context {B : Backend} {BOk : BackendOk B}.

Definition valid_addr (a : address) : Prop := 0 ≤ a < 2 ^ 160.
Definition ahash (a : address) : hash := Keccak256Hash (Address_Bytes a).

(** The object an address stands for, loaded if it is not live. *)
Definition view (s : StateDB) (a : address) : option stateObject :=
  match sd_stateObjects s !! a with
  | Some o => Some o
  | None => fst (load (sd_snap s) (sd_trie s) a)
  end.

Definition dflag (s : StateDB) (a : address) : bool := destructed s (ahash a).

Definition addr_ok (a : address) (o : stateObject) : Prop := so_address o = a ∧ so_addrHash o = ahash a.

(** Everything but the caches, the journal entries, the revisions and the
    queued Te Waka keys [Empty] looks at (see [revert_leaves_tewaka_key]). The
    explicit dirty mark of the RIPEMD precompile survives a revert. *)
Record eqv (s1 s2 : StateDB) : Prop := mkEqv {
  ev_originalRoot : sd_originalRoot s1 = sd_originalRoot s2;
  ev_trie : sd_trie s1 = sd_trie s2;
  ev_snap : sd_snap s1 = sd_snap s2;
  ev_destructs : sd_snapDestructs s1 = sd_snapDestructs s2;
  ev_accounts : sd_snapAccounts s1 = sd_snapAccounts s2;
  ev_storage : sd_snapStorage s1 = sd_snapStorage s2;
  ev_pending : sd_stateObjectsPending s1 = sd_stateObjectsPending s2;
  ev_dirty : sd_stateObjectsDirty s1 = sd_stateObjectsDirty s2;
  ev_refund : sd_refund s1 = sd_refund s2;
  ev_thash : sd_thash s1 = sd_thash s2;
  ev_txIndex : sd_txIndex s1 = sd_txIndex s2;
  ev_logs : sd_logs s1 = sd_logs s2;
  ev_logSize : sd_logSize s1 = sd_logSize s2;
  ev_preimages : sd_preimages s1 = sd_preimages s2;
  ev_accessList : sd_accessList s1 = sd_accessList s2;
  ev_records : sd_records s1 = sd_records s2;
  ev_dirties : ∀ a, a ≠ ripemd → dirties (sd_journal s1) !! a = dirties (sd_journal s2) !! a;
  ev_views : ∀ a, valid_addr a →
    option_Forall2 (obj_eq (sd_snap s1) (dflag s1 a)) (view s1 a) (view s2 a)
}.

#[export] Instance eqv_equiv : Equivalence eqv.
Proof.
  split.
  - intros s. by split.
  - intros s1 s2 []. split; try done; [by intros b Hb; rewrite ev_dirties0|].
    intros a Ha. specialize (ev_views0 a Ha). unfold dflag, destructed in *.
    rewrite ev_snap0, ev_destructs0 in ev_views0.
    destruct ev_views0; constructor. by symmetry.
  - intros s1 s2 s3 [] []. split; try congruence.
    + intros a Ha. rewrite ev_dirties0 by done. auto.
    + intros a Ha. specialize (ev_views0 a Ha). specialize (ev_views1 a Ha).
      unfold dflag, destructed in *. rewrite <- ev_snap0, <- ev_destructs0 in ev_views1.
      destruct ev_views0 as [o1 o2 H12|]; inversion ev_views1; simplify_eq; constructor.
      by etrans.
Qed.

Definition objs_ok (s : StateDB) : Prop := ∀ a o, valid_addr a → view s a = Some o → addr_ok a o.

Definition entry_ok (e : journalEntry) : Prop :=
  match e with
  | resetObjectChange p _ => valid_addr (so_address p) ∧ addr_ok (so_address p) p
  | _ => match dirtied e with Some a => valid_addr a | None => True end
  end.

(** ** Looking an object up *)

Lemma load_addr snap tr a o : fst (load snap tr a) = Some o → addr_ok a o.
Proof.
  assert (fst (load_from_trie tr a) = Some o → addr_ok a o) as Ht.
  { unfold load_from_trie. destruct (TryGet tr _) as [enc [e|]]; [done|].
    destruct (zlen enc =? 0); [done|]. destruct (Dec.DecodeBytes _ _); [|done].
    destruct (Account_of _) as [[[[? ?] ?] ?]|]; [|done]. by intros [= <-]. }
  unfold load. destruct snap as [sn|]; [|done].
  destruct (Snap_Account sn _) as [[acc|]|]; [|done|done]. by intros [= <-].
Qed.

Lemma view_set o s a :
  view (setStateObject o s) a = if decide (a = so_address o) then Some o else view s a.
Proof.
  unfold view, setStateObject. simpl. destruct (decide (a = so_address o)) as [->|Hne].
  - by rewrite lookup_insert_eq.
  - by rewrite lookup_insert_ne.
Qed.

Lemma dflag_set o s a : dflag (setStateObject o s) a = dflag s a.
Proof. done. Qed.

(** Writing an equal object, or one read from the view, changes nothing. *)
Lemma set_eqv a o o' s :
  view s a = Some o → so_address o' = a → obj_eq (sd_snap s) (dflag s a) o' o →
  eqv (setStateObject o' s) s.
Proof.
  intros Hv Ha Ho. split; try done. intros b Hb. rewrite view_set.
  destruct (decide (b = so_address o')) as [->|Hne].
  - rewrite Ha, Hv. by constructor.
  - destruct (view s b); by constructor.
Qed.

(** Writing related objects at the same address preserves the relation. *)
Lemma set_eqv_cong a o1 o2 s1 s2 :
  eqv s1 s2 → so_address o1 = a → so_address o2 = a → obj_eq (sd_snap s1) (dflag s1 a) o1 o2 →
  eqv (setStateObject o1 s1) (setStateObject o2 s2).
Proof.
  intros [] H1 H2 Ho. split; try done. intros b Hb. rewrite !view_set, H1, H2.
  destruct (decide (b = a)) as [->|Hne]; [by constructor|]. by apply ev_views0.
Qed.

Lemma setError_eqv err s : eqv (sd_setError err s) s.
Proof.
  unfold sd_setError. destruct (sd_dbErr s); [done|]. by split.
Qed.

Lemma getDeleted_spec a s :
  valid_addr a → objs_ok s →
  fst (getDeletedStateObject a s) = view s a ∧
  eqv (snd (getDeletedStateObject a s)) s ∧
  sd_journal (snd (getDeletedStateObject a s)) = sd_journal s ∧
  sd_validRevisions (snd (getDeletedStateObject a s)) = sd_validRevisions s ∧
  sd_nextRevisionId (snd (getDeletedStateObject a s)) = sd_nextRevisionId s ∧
  (∀ b, view (snd (getDeletedStateObject a s)) b = view s b) ∧
  sd_stateObjects (snd (getDeletedStateObject a s)) !! a = view s a.
Proof.
  intros Ha Hok. unfold getDeletedStateObject, view at 1.
  destruct (sd_stateObjects s !! a) as [o|] eqn:E.
  { assert (view s a = Some o) as Hv by (unfold view; by rewrite E).
    simpl. by rewrite E, Hv. }
  assert (view s a = fst (load (sd_snap s) (sd_trie s) a)) as Hv by (unfold view; by rewrite E).
  destruct (load (sd_snap s) (sd_trie s) a) as [[o|] e] eqn:El; simpl in *.
  - destruct (Hok a o Ha Hv) as [Haddr _]. split; [done|]. split; [by apply (set_eqv a o)|].
    do 3 (split; [done|]). split.
    + intros b. rewrite view_set, Haddr. destruct (decide (b = a)) as [->|]; [by rewrite Hv|done].
    + by rewrite Haddr, lookup_insert_eq.
  - rewrite Hv. destruct e as [e|]; simpl; [|by rewrite E].
    split; [done|]. split; [apply setError_eqv|].
    unfold sd_setError. destruct (sd_dbErr s); simpl; by rewrite ?E.
Qed.

Lemma objs_ok_eqv s1 s2 : eqv s1 s2 → objs_ok s2 → objs_ok s1.
Proof.
  intros Hev Hok a o Ha Hv. pose proof (ev_views _ _ Hev a Ha) as H. rewrite Hv in H.
  inversion H as [o1 o2 Ho E1 E2|]; simplify_eq. destruct (Hok a o2 Ha) as [H1 H2]; [done|].
  split; [by rewrite (oe_address _ _ _ _ Ho)|by rewrite (oe_addrHash _ _ _ _ Ho)].
Qed.

(** ** Undoing respects the equivalence *)

Lemma getStateObject_eq a s :
  getStateObject a s =
  (match fst (getDeletedStateObject a s) with
   | Some o => if so_deleted o then None else Some o | None => None end,
   snd (getDeletedStateObject a s)).
Proof. unfold getStateObject. by destruct (getDeletedStateObject a s) as [[o|] s']. Qed.

Definition live (s : StateDB) (a : address) : option stateObject :=
  match view s a with Some o => if so_deleted o then None else Some o | None => None end.

Lemma getStateObject_spec a s :
  valid_addr a → objs_ok s →
  fst (getStateObject a s) = live s a ∧ eqv (snd (getStateObject a s)) s ∧
  sd_journal (snd (getStateObject a s)) = sd_journal s ∧
  sd_validRevisions (snd (getStateObject a s)) = sd_validRevisions s ∧
  sd_nextRevisionId (snd (getStateObject a s)) = sd_nextRevisionId s ∧
  (∀ b, view (snd (getStateObject a s)) b = view s b) ∧
  sd_stateObjects (snd (getStateObject a s)) !! a = view s a.
Proof.
  intros Ha Hok. rewrite getStateObject_eq. simpl.
  destruct (getDeleted_spec a s Ha Hok) as (H1 & H2). by rewrite H1.
Qed.

Lemma live_eqv s1 s2 a :
  eqv s1 s2 → valid_addr a →
  option_Forall2 (obj_eq (sd_snap s1) (dflag s1 a)) (live s1 a) (live s2 a).
Proof.
  intros Hev Ha. unfold live. destruct (ev_views _ _ Hev a Ha) as [o1 o2 Ho|]; [|constructor].
  rewrite <- (oe_deleted _ _ _ _ Ho). destruct (so_deleted o1); by constructor.
Qed.

Lemma live_addr s a o : objs_ok s → valid_addr a → live s a = Some o → addr_ok a o.
Proof.
  intros Hok Ha. unfold live. destruct (view s a) as [o'|] eqn:E; [|done].
  destruct (so_deleted o'); [done|]. intros [= <-]. by apply Hok.
Qed.

Lemma eqv_flags s1 s2 a : eqv s1 s2 → sd_snap s1 = sd_snap s2 ∧ dflag s1 a = dflag s2 a.
Proof. intros []. unfold dflag, destructed. by rewrite ev_snap0, ev_destructs0. Qed.

Lemma objs_ok_set a o s : objs_ok s → addr_ok a o → objs_ok (setStateObject o s).
Proof.
  intros Hok [Ha Hh] b o' Hb. rewrite view_set, Ha.
  destruct (decide (b = a)) as [->|]; [by intros [= <-]|by apply Hok].
Qed.

(** A revert through an object method that respects [obj_eq]. *)
Record obj_fun (f : stateObject → stateObject) : Prop := {
  of_eq : ∀ snap d o1 o2, obj_eq snap d o1 o2 → obj_eq snap d (f o1) (f o2);
  of_addr : ∀ o, so_address (f o) = so_address o ∧ so_addrHash (f o) = so_addrHash o
}.

Lemma set_live_cong a f s1 s2 o1 o2 :
  obj_fun f → valid_addr a → objs_ok s1 → objs_ok s2 → eqv s1 s2 →
  live s1 a = Some o1 → live s2 a = Some o2 →
  eqv (setStateObject (f o1) s1) (setStateObject (f o2) s2) ∧ objs_ok (setStateObject (f o1) s1).
Proof.
  intros [Hf Hfa] Ha Hok1 Hok2 Hev H1 H2.
  destruct (live_addr s1 a o1 Hok1 Ha H1) as [A1 A1'].
  destruct (live_addr s2 a o2 Hok2 Ha H2) as [A2 _].
  pose proof (live_eqv s1 s2 a Hev Ha) as HF. rewrite H1, H2 in HF.
  inversion HF as [x y Ho|]; simplify_eq. split.
  - apply (set_eqv_cong (so_address o1)); [done|apply Hfa|by rewrite (proj1 (Hfa o2))|by apply Hf].
  - apply (objs_ok_set (so_address o1)); [done|]. split; [apply Hfa|by rewrite (proj2 (Hfa o1))].
Qed.

Lemma get_cong a s1 s2 :
  valid_addr a → objs_ok s1 → eqv s1 s2 →
  eqv (snd (getStateObject a s1)) (snd (getStateObject a s2)) ∧
  objs_ok (snd (getStateObject a s1)) ∧ objs_ok (snd (getStateObject a s2)).
Proof.
  intros Ha Hok Hev. assert (objs_ok s2) as Hok2 by (eapply objs_ok_eqv; [by symmetry|done]).
  destruct (getStateObject_spec a s1 Ha Hok) as (_ & E1 & _).
  destruct (getStateObject_spec a s2 Ha Hok2) as (_ & E2 & _).
  split; [|split; by eapply objs_ok_eqv]. etrans; [exact E1|]. etrans; [exact Hev|]. by symmetry.
Qed.

Lemma live_view_eq s1 s2 a : (∀ b, view s1 b = view s2 b) → live s1 a = live s2 a.
Proof. intros H. unfold live. by rewrite H. Qed.

Lemma on_object_cong a f s1 s2 s1' :
  obj_fun f → valid_addr a → objs_ok s1 → eqv s1 s2 →
  on_object a f s1 = Ret s1' →
  ∃ s2', on_object a f s2 = Ret s2' ∧ eqv s1' s2' ∧ objs_ok s1'.
Proof.
  intros Hf Ha Hok1 Hev. unfold on_object.
  assert (objs_ok s2) as Hok2 by (eapply objs_ok_eqv; [by symmetry|done]).
  destruct (get_cong a s1 s2 Ha Hok1 Hev) as (G1 & G2 & G3).
  destruct (getStateObject_spec a s1 Ha Hok1) as (F1 & _ & _ & _ & _ & V1 & _).
  destruct (getStateObject_spec a s2 Ha Hok2) as (F2 & _ & _ & _ & _ & V2 & _).
  destruct (getStateObject a s1) as [r1 t1], (getStateObject a s2) as [r2 t2]; simpl in *.
  pose proof (live_view_eq _ _ a V1) as L1. pose proof (live_view_eq _ _ a V2) as L2.
  pose proof (live_eqv _ _ a G1 Ha) as HL. rewrite L1, L2, <- F1, <- F2 in HL.
  destruct HL as [o1 o2 Ho|]; [|done]. intros [= <-]. eexists. split; [done|].
  apply (set_live_cong a); (done || congruence).
Qed.

Lemma obj_fun_setBalance x : obj_fun (setBalance x).
Proof. split; [intros; by apply setBalance_eq|done]. Qed.
Lemma obj_fun_setNonce x : obj_fun (setNonce x).
Proof. split; [intros; by apply setNonce_eq|done]. Qed.
Lemma obj_fun_setCode h c : obj_fun (setCode h c).
Proof. split; [intros; by apply setCode_eq|done]. Qed.
Lemma obj_fun_setState k v : obj_fun (setState k v).
Proof. split; [intros; by apply setState_eq|done]. Qed.
Lemma obj_fun_setStateByteArray k v : obj_fun (setStateByteArray k v).
Proof. split; [intros; by apply setStateByteArray_eq|done]. Qed.
Lemma obj_fun_suicide b x : obj_fun (λ o, setBalance x (so_set_suicided b o)).
Proof. split; [intros; by apply setBalance_eq, set_suicided_eq|done]. Qed.


(** Changing a field no view depends on. *)
Lemma view_fields s1 s2 :
  sd_stateObjects s1 = sd_stateObjects s2 → sd_snap s1 = sd_snap s2 → sd_trie s1 = sd_trie s2 →
  ∀ a, view s1 a = view s2 a.
Proof. intros H1 H2 H3 a. unfold view. by rewrite H1, H2, H3. Qed.

Lemma revert_create_cong a s1 s2 s1' :
  objs_ok s1 → eqv s1 s2 → revert_entry (createObjectChange a) s1 = Ret s1' →
  ∃ s2', revert_entry (createObjectChange a) s2 = Ret s2' ∧ eqv s1' s2' ∧ objs_ok s1'.
Proof.
  intros Hok Hev [= <-]. eexists. split; [done|]. simpl.
  assert (∀ s b, view (sd_set_stateObjectsDirty (sd_stateObjectsDirty s ∖ {[a]})
      (sd_set_stateObjects (delete a (sd_stateObjects s)) s)) b =
    if decide (b = a) then fst (load (sd_snap s) (sd_trie s) a) else view s b) as Hv.
  { intros s b. unfold view. simpl. destruct (decide (b = a)) as [->|].
    - by rewrite lookup_delete_eq.
    - by rewrite lookup_delete_ne. }
  destruct Hev. split.
  - split; try done; simpl; [by rewrite ev_dirty0|].
    intros b Hb. rewrite !Hv, <- ev_snap0, <- ev_trie0.
    destruct (decide (b = a)); [|by apply ev_views0].
    destruct (fst _); by constructor.
  - intros b o Hb. rewrite Hv. destruct (decide (b = a)) as [->|]; [apply load_addr|by apply Hok].
Qed.

Lemma revert_reset_cong p pd s1 s2 s1' :
  entry_ok (resetObjectChange p pd) → objs_ok s1 → eqv s1 s2 →
  revert_entry (resetObjectChange p pd) s1 = Ret s1' →
  ∃ s2', revert_entry (resetObjectChange p pd) s2 = Ret s2' ∧ eqv s1' s2' ∧ objs_ok s1'.
Proof.
  intros [Hva Hao] Hok Hev [= <-]. eexists. split; [done|]. simpl.
  rewrite <- (ev_snap _ _ Hev).
  assert (eqv (setStateObject p s1) (setStateObject p s2)) as Hset by by apply (set_eqv_cong (so_address p)).
  assert (objs_ok (setStateObject p s1)) as Hoks by by apply (objs_ok_set (so_address p)).
  destruct (sd_snap s1) as [sn|] eqn:Esn; [|done]. destruct pd; [done|]. split; [|done].
  destruct Hset. split; try done; simpl in *; [congruence|].
  intros b Hb. specialize (ev_views0 b Hb).
  change (view (sd_set_snapDestructs _ (setStateObject p s1)) b) with (view (setStateObject p s1) b).
  change (view (sd_set_snapDestructs _ (setStateObject p s2)) b) with (view (setStateObject p s2) b).
  rewrite !view_set in *. destruct (decide (b = so_address p)) as [->|Hne].
  - constructor. done.
  - assert (dflag (sd_set_snapDestructs (sd_snapDestructs s1 ∖ {[so_addrHash p]}) (setStateObject p s1)) b
            = dflag s1 b) as ->; [|done].
    unfold dflag, destructed. simpl. apply bool_decide_ext.
    enough (ahash b ≠ so_addrHash p) by set_solver.
    destruct Hao as [_ ->]. intros E. apply Hne. by eapply Keccak256_addr_inj.
Qed.

Ltac same_views := intros; apply view_fields; reflexivity.

Lemma revert_entry_cong e s1 s2 s1' :
  entry_ok e → objs_ok s1 → eqv s1 s2 → revert_entry e s1 = Ret s1' →
  ∃ s2', revert_entry e s2 = Ret s2' ∧ eqv s1' s2' ∧ objs_ok s1'.
Proof.
  intros He Hok Hev. destruct e as [a|p pd|a b x|a x|a x|a k v|a k v|a c h|x|t|h|a|a|a k]; simpl in He.
  - by apply revert_create_cong.
  - by apply revert_reset_cong.
  - assert (objs_ok s2) as Hok2 by (eapply objs_ok_eqv; [by symmetry|done]).
    pose proof (on_object_cong a (λ o, setBalance x (so_set_suicided b o)) s1 s2) as Hoo.
    unfold on_object in Hoo. simpl. destruct (get_cong a s1 s2 He Hok Hev) as (G1 & G2 & G3).
    destruct (getStateObject_spec a s1 He Hok) as (F1 & _).
    destruct (getStateObject_spec a s2 He Hok2) as (F2 & _).
    pose proof (live_eqv _ _ a Hev He) as HL. rewrite <- F1, <- F2 in HL.
    destruct (getStateObject a s1) as [r1 t1], (getStateObject a s2) as [r2 t2]; simpl in *.
    destruct HL as [o1 o2 Ho|].
    + intros E. by apply (Hoo s1' (obj_fun_suicide b x)).
    + intros [= <-]. by exists t2.
  - by apply on_object_cong; [apply obj_fun_setBalance|..].
  - by apply on_object_cong; [apply obj_fun_setNonce|..].
  - by apply on_object_cong; [apply obj_fun_setState|..].
  - by apply on_object_cong; [apply obj_fun_setStateByteArray|..].
  - by apply on_object_cong; [apply obj_fun_setCode|..].
  - intros [= <-]. eexists. split; [done|]. split; [|done]. destruct Hev. by split.
  - simpl. rewrite <- (ev_logs _ _ Hev), <- (ev_logSize _ _ Hev).
    destruct (if (_ =? 1)%nat then _ else _) as [lgs|]; [|done]. intros [= <-].
    eexists. split; [done|]. split; [|done]. destruct Hev. by split.
  - intros [= <-]. eexists. split; [done|]. split; [|done]. simpl. rewrite <- (ev_preimages _ _ Hev).
    destruct Hev. by split.
  - intros [= <-]. by eexists.
  - intros [= <-]. eexists. split; [done|]. split; [|done]. simpl. rewrite <- (ev_accessList _ _ Hev).
    destruct Hev. by split.
  - simpl. rewrite <- (ev_accessList _ _ Hev). destruct (DeleteSlot _ _ _) as [al|]; [|done].
    intros [= <-]. eexists. split; [done|]. split; [|done]. destruct Hev. by split.
Qed.

Lemma undirty_eqv a s1 s2 :
  eqv s1 s2 →
  eqv (sd_set_journal (undirty a (sd_journal s1)) s1) (sd_set_journal (undirty a (sd_journal s2)) s2).
Proof.
  intros []. split; try done. simpl. intros b Hb. destruct (decide (b = a)) as [->|Hne].
  - rewrite ev_dirties0 by done. destruct (_ =? 0).
    + by rewrite !lookup_delete_eq.
    + by rewrite !lookup_insert_eq.
  - destruct (default 0 (dirties (sd_journal s1) !! a) - 1 =? 0),
      (default 0 (dirties (sd_journal s2) !! a) - 1 =? 0);
      rewrite ?lookup_delete_ne, ?lookup_insert_ne by done; auto.
Qed.

Lemma undo_cong es s1 s2 s1' :
  Forall entry_ok es → objs_ok s1 → eqv s1 s2 → undo es s1 = Ret s1' →
  ∃ s2', undo es s2 = Ret s2' ∧ eqv s1' s2' ∧ objs_ok s1'.
Proof.
  revert s1 s2. induction es as [|e es IH]; simpl; intros s1 s2 Hes Hok Hev Hu.
  - injection Hu as <-. by exists s2.
  - apply Forall_cons in Hes as [He Hes].
    destruct (revert_entry e s1) as [t1|] eqn:E1; [|done]. simpl in Hu.
    destruct (revert_entry_cong e s1 s2 t1 He Hok Hev E1) as (t2 & E2 & Hev' & Hok').
    rewrite E2. simpl. eapply IH; [done|..|exact Hu].
    + by destruct (dirtied e).
    + destruct (dirtied e); [by apply undirty_eqv|done].
Qed.

Lemma undo_app es1 es2 s : undo (es1 ++ es2) s = (do! s <- undo es1 s; undo es2 s).
Proof.
  revert s. induction es1 as [|e es1 IH]; intros s; [done|]. simpl.
  destruct (revert_entry e s); simpl; [|done]. by rewrite IH.
Qed.

(** Undoing leaves the entries and the revisions alone. *)
Lemma get_frame a s :
  entries (sd_journal (snd (getStateObject a s))) = entries (sd_journal s) ∧
  sd_validRevisions (snd (getStateObject a s)) = sd_validRevisions s ∧
  sd_nextRevisionId (snd (getStateObject a s)) = sd_nextRevisionId s.
Proof.
  unfold getStateObject, getDeletedStateObject. destruct (sd_stateObjects s !! a); [done|].
  destruct (load _ _ _) as [[o|] [e|]]; try done. simpl. unfold sd_setError. by destruct (sd_dbErr s).
Qed.

Lemma revert_entry_frame e s s' :
  revert_entry e s = Ret s' →
  entries (sd_journal s') = entries (sd_journal s) ∧ sd_validRevisions s' = sd_validRevisions s ∧
  sd_nextRevisionId s' = sd_nextRevisionId s.
Proof.
  assert (∀ a f, on_object a f s = Ret s' →
    entries (sd_journal s') = entries (sd_journal s) ∧ sd_validRevisions s' = sd_validRevisions s ∧
    sd_nextRevisionId s' = sd_nextRevisionId s) as Hoo.
  { intros a f. unfold on_object. pose proof (get_frame a s) as Hf.
    destruct (getStateObject a s) as [[o|] t]; [|done]. by intros [= <-]. }
  destruct e; simpl; try apply Hoo; try by intros [= <-].
  - intros [= <-]. simpl. destruct (sd_snap s); [|done]. by destruct prevdestruct.
  - pose proof (get_frame account s) as Hf. by destruct (getStateObject account s) as [[o|] t]; intros [= <-].
  - destruct (if (_ =? 1)%nat then _ else _); [|done]. by intros [= <-].
  - destruct (DeleteSlot _ _ _); [|done]. by intros [= <-].
Qed.

Lemma undo_frame es s s' :
  undo es s = Ret s' →
  entries (sd_journal s') = entries (sd_journal s) ∧ sd_validRevisions s' = sd_validRevisions s ∧
  sd_nextRevisionId s' = sd_nextRevisionId s.
Proof.
  revert s. induction es as [|e es IH]; simpl; intros s; [by intros [= <-]|].
  destruct (revert_entry e s) as [t|] eqn:E; [|done]. simpl. intros Hu.
  apply revert_entry_frame in E as (E1 & E2 & E3). apply IH in Hu as (U1 & U2 & U3).
  rewrite U1, U2, U3. by destruct (dirtied e).
Qed.

(** ** The invariant and the undo property of a step *)

Definition obj_ok (a : address) (o : stateObject) : Prop :=
  addr_ok a o ∧ so_fakeStorage o = None ∧
  length (CodeHash (so_data o)) = 32%nat ∧ wf_bytes (CodeHash (so_data o)).

Definition dirties_ok (j : journal) : Prop :=
  ∀ a n, a ≠ ripemd → dirties j !! a = Some n → 1 ≤ n.

Record inv (s : StateDB) : Prop := mkInv {
  inv_al : al_wf (sd_accessList s);
  inv_obj : ∀ a o, valid_addr a → view s a = Some o → obj_ok a o;
  inv_dirty : ∀ a, valid_addr a → a ∈ sd_stateObjectsDirty s → view s a ≠ None;
  inv_dirties : dirties_ok (sd_journal s);
  inv_logs : ∀ h, sd_logs s !! h ≠ Some [];
  inv_logSize : is_u64 (sd_logSize s)
}.

Lemma inv_objs_ok s : inv s → objs_ok s.
Proof. intros Hi a o Ha Hv. by apply (inv_obj s Hi a o Ha Hv). Qed.
Hint Resolve inv_objs_ok : core.

Lemma inv_eqv s1 s2 : eqv s1 s2 → inv s2 → inv s1.
Proof.
  intros Hev []. split.
  - by rewrite (ev_accessList _ _ Hev).
  - intros a o Ha Hv. pose proof (ev_views _ _ Hev a Ha) as H. rewrite Hv in H.
    inversion H as [o1 o2 Ho E1 E2|]; simplify_eq.
    destruct (inv_obj0 a o2 Ha ltac:(done)) as ([? ?] & ? & ? & ?).
    destruct Ho. repeat split; congruence.
  - intros a Ha Hin Hv. rewrite (ev_dirty _ _ Hev) in Hin. apply (inv_dirty0 a Ha Hin).
    pose proof (ev_views _ _ Hev a Ha) as H. rewrite Hv in H. by inversion H.
  - intros a n Ha. rewrite (ev_dirties _ _ Hev) by done. by apply inv_dirties0.
  - intros h. by rewrite (ev_logs _ _ Hev).
  - by rewrite (ev_logSize _ _ Hev).
Qed.

(** [s'] was reached from [s] by journalled changes whose entries undo them. *)
Definition good (s s' : StateDB) : Prop :=
  inv s' ∧ sd_validRevisions s' = sd_validRevisions s ∧ sd_nextRevisionId s' = sd_nextRevisionId s ∧
  ∃ es, entries (sd_journal s') = entries (sd_journal s) ++ es ∧ Forall entry_ok es ∧
  ∃ t, undo (reverse es) s' = Ret t ∧ eqv t s.

Lemma good_read s s' :
  inv s → eqv s' s → entries (sd_journal s') = entries (sd_journal s) →
  sd_validRevisions s' = sd_validRevisions s → sd_nextRevisionId s' = sd_nextRevisionId s →
  good s s'.
Proof.
  intros Hi Hev He Hr Hn. split; [by eapply inv_eqv|]. do 2 (split; [done|]).
  exists []. rewrite app_nil_r. split; [done|]. split; [done|]. by exists s'.
Qed.

Lemma good_refl s : inv s → good s s.
Proof. intros. by apply good_read. Qed.

Lemma good_trans s1 s2 s3 : inv s1 → good s1 s2 → good s2 s3 → good s1 s3.
Proof.
  intros Hi1 (I2 & R2 & N2 & es2 & E2 & K2 & t2 & U2 & V2)
    (I3 & R3 & N3 & es3 & E3 & K3 & t3 & U3 & V3).
  split; [done|]. split; [congruence|]. split; [congruence|].
  exists (es2 ++ es3). split; [by rewrite E3, E2, app_assoc|]. split; [by apply Forall_app|].
  rewrite reverse_app, undo_app, U3. cbn [obind].
  destruct (undo_cong (reverse es2) s2 t3 t2) as (t & Ht & Hev & _); [|auto| |done|].
  - by apply Forall_reverse.
  - by symmetry.
  - exists t. split; [done|]. etrans; [by symmetry|done].
Qed.

Lemma good_inv s s' : good s s' → inv s'.
Proof. by intros []. Qed.
Hint Resolve good_inv good_refl : core.

(** One appended entry. *)
Lemma good_entry s s' e t :
  inv s' → entries (sd_journal s') = entries (sd_journal s) ++ [e] → entry_ok e →
  sd_validRevisions s' = sd_validRevisions s → sd_nextRevisionId s' = sd_nextRevisionId s →
  revert_entry e s' = Ret t →
  eqv (match dirtied e with Some a => sd_set_journal (undirty a (sd_journal t)) t | None => t end) s →
  good s s'.
Proof.
  intros Hi He Hk Hr Hn Hrev Hev. split; [done|]. do 2 (split; [done|]).
  exists [e]. split; [done|]. split; [by constructor|].
  eexists. split; [|exact Hev]. simpl. by rewrite Hrev.
Qed.

Lemma dirty_undirty a j b :
  b ≠ ripemd → dirties_ok j → dirties (undirty a (dirty a j)) !! b = dirties j !! b.
Proof.
  intros Hb Hj. simpl. rewrite lookup_insert_eq. simpl.
  destruct (decide (b = a)) as [->|Hne].
  - destruct (dirties j !! a) as [n|] eqn:E; simpl.
    + pose proof (Hj a n Hb E). destruct (Z.eqb_spec (n + 1 - 1) 0); [lia|].
      rewrite lookup_insert_eq. f_equal. lia.
    + by rewrite lookup_delete_eq.
  - destruct (_ =? 0); rewrite ?lookup_delete_ne, ?lookup_insert_ne by done; done.
Qed.

Lemma append_undirty e a j b :
  dirtied e = Some a → b ≠ ripemd → dirties_ok j →
  dirties (undirty a (append e j)) !! b = dirties j !! b.
Proof.
  intros Hd Hb Hj.
  unfold append. rewrite Hd. exact (dirty_undirty a (mkJournal _ (dirties j)) b Hb Hj).
Qed.

Lemma dirty_ok a j : dirties_ok j → dirties_ok (dirty a j).
Proof.
  intros Hj b n Hb. simpl. destruct (decide (b = a)) as [->|Hne].
  - rewrite lookup_insert_eq. intros [= <-]. destruct (dirties j !! a) as [m|] eqn:E; simpl; [|lia].
    pose proof (Hj a m Hb E). lia.
  - rewrite lookup_insert_ne by done. by apply Hj.
Qed.

Lemma append_ok e j : dirties_ok j → dirties_ok (append e j).
Proof. intros Hj. unfold append. destruct (dirtied e); [by apply dirty_ok|done]. Qed.

Lemma entries_append e j : entries (append e j) = entries j ++ [e].
Proof. unfold append. by destruct (dirtied e). Qed.

Lemma get_live a o s :
  sd_stateObjects s !! a = Some o → so_deleted o = false → getStateObject a s = (Some o, s).
Proof. intros E D. unfold getStateObject, getDeletedStateObject. by rewrite E, D. Qed.

Lemma on_object_live a f o s :
  sd_stateObjects s !! a = Some o → so_deleted o = false →
  on_object a f s = Ret (setStateObject (f o) s).
Proof. intros E D. unfold on_object. by rewrite (get_live a o s E D). Qed.

Lemma view_live a o s : sd_stateObjects s !! a = Some o → view s a = Some o.
Proof. intros E. unfold view. by rewrite E. Qed.

Lemma set_inv a o s :
  inv s → obj_ok a o → inv (setStateObject o s).
Proof.
  intros [] Hok. pose proof (proj1 (proj1 Hok)) as Ha. split; try done.
  - intros b o' Hb. rewrite view_set, Ha. destruct (decide (b = a)) as [->|]; [|by apply inv_obj0].
    by intros [= <-].
  - intros b Hb Hin. rewrite view_set. destruct (decide _); [done|]. by apply inv_dirty0.
Qed.

Lemma journal_inv e s : inv s → inv (journal_append e s).
Proof. intros []. split; try done. simpl. by apply append_ok. Qed.

(** A journalled change of one live object. *)
Lemma good_object s a o o' e f :
  inv s → valid_addr a → sd_stateObjects s !! a = Some o →
  obj_ok a o' → so_address (f o') = a → obj_eq (sd_snap s) (dflag s a) (f o') o →
  dirtied e = Some a → entry_ok e →
  (∀ t, sd_stateObjects t !! a = Some o' → revert_entry e t = Ret (setStateObject (f o') t)) →
  good s (setStateObject o' (journal_append e s)).
Proof.
  intros Hi Ha Ho Hok Hfa Hfo Hd He Hrev. pose proof (proj1 (proj1 Hok)) as Ha'.
  eapply good_entry; [by eapply set_inv; [apply journal_inv|]|simpl; by rewrite entries_append|done..
    |apply Hrev; simpl; by rewrite Ha', lookup_insert_eq|].
  rewrite Hd. split; try done.
  - intros b Hb.
    change (dirties (undirty a (append e (sd_journal s))) !! b = dirties (sd_journal s) !! b).
    by apply append_undirty, (inv_dirties s Hi).
  - intros b Hb. change (view (sd_set_journal _ (setStateObject (f o')
      (setStateObject o' (journal_append e s)))) b)
      with (view (setStateObject (f o') (setStateObject o' (journal_append e s))) b).
    rewrite !view_set, Hfa, Ha'. destruct (decide (b = a)) as [->|].
    + rewrite (view_live a o s Ho). by constructor.
    + change (view (journal_append e s) b) with (view s b). destruct (view s b); by constructor.
Qed.

(** ** Every operation is undone by its entries *)

Lemma newObject_ok a : obj_ok a (newObject a 0 None 0 None).
Proof. destruct (Keccak256_len []). by repeat split. Qed.

Lemma dflag_other a b s p :
  valid_addr a → valid_addr b → b ≠ a → so_addrHash p = ahash a →
  ∀ X, sd_snapDestructs X = {[so_addrHash p]} ∪ sd_snapDestructs s →
  dflag X b = dflag s b.
Proof.
  intros Ha Hb Hne Hp X HX. unfold dflag, destructed. rewrite HX. apply bool_decide_ext.
  enough (ahash b ≠ so_addrHash p) by set_solver.
  rewrite Hp. intros E. apply Hne. by eapply Keccak256_addr_inj.
Qed.

Lemma create_fresh_good a s :
  inv s → valid_addr a → view s a = None →
  good s (setStateObject (newObject a 0 None 0 None) (journal_append (createObjectChange a) s)).
Proof.
  intros Hi Ha Hv.
  assert (sd_stateObjects s !! a = None) as Eo.
  { unfold view in Hv. by destruct (sd_stateObjects s !! a). }
  eapply good_entry; [by eapply set_inv; [apply journal_inv|apply newObject_ok]
    |done..|].
  simpl. split; try done; simpl.
  - assert (a ∉ sd_stateObjectsDirty s) as Hn by (intros H; by apply (inv_dirty s Hi a Ha H)).
    set_solver.
  - intros b Hb. exact (append_undirty (createObjectChange a) a _ b eq_refl Hb (inv_dirties s Hi)).
  - intros b Hb. unfold view. simpl. destruct (decide (b = a)) as [->|Hne].
    + rewrite lookup_delete_eq, Eo. destruct (fst _); by constructor.
    + rewrite lookup_delete_ne, lookup_insert_ne by done.
      destruct (sd_stateObjects s !! b); [by constructor|]. destruct (fst _); by constructor.
Qed.

Lemma create_over_good a s p n :
  obj_ok a n → inv s → valid_addr a → view s a = Some p →
  let pd := match sd_snap s with Some _ => destructed s (so_addrHash p) | None => false end in
  let s1 := match sd_snap s with
            | Some _ => if pd then s else sd_set_snapDestructs ({[so_addrHash p]} ∪ sd_snapDestructs s) s
            | None => s
            end in
  good s (setStateObject n (journal_append (resetObjectChange p pd) s1)).
Proof.
  intros Hn Hi Ha Hv pd s1. pose proof (proj1 (proj1 Hn)) as Hna. destruct (inv_obj s Hi a p Ha Hv) as ([Hpa Hph] & Hrest).
  assert (inv s1) as Hi1.
  { subst s1. destruct (sd_snap s); [|done]. destruct pd; [done|]. destruct Hi. by split. }
  assert (∀ b, view s1 b = view s b) as Hvs.
  { intros b. subst s1. destruct (sd_snap s); [|done]. by destruct pd. }
  assert (∀ b, view (setStateObject p (setStateObject n
      (journal_append (resetObjectChange p pd) s1))) b = view s b) as Hvb.
  { intros b. rewrite !view_set, Hpa, Hna.
    destruct (decide (b = a)) as [->|]; [done|]. rewrite <- Hvs. done. }
  assert (entries (sd_journal s1) = entries (sd_journal s) ∧ sd_validRevisions s1 = sd_validRevisions s ∧
    sd_nextRevisionId s1 = sd_nextRevisionId s) as (He & Hr & Hnx).
  { subst s1. destruct (sd_snap s); [by destruct pd|done]. }
  eapply good_entry; [by eapply set_inv; [apply journal_inv|exact Hn]
    |simpl; by rewrite He|simpl; by rewrite Hpa|done|done|done|].
  assert (∀ X b, option_Forall2 (obj_eq (sd_snap X) (dflag X b)) (view s b) (view s b)) as Hrefl.
  { intros X b. destruct (view s b); by constructor. }
  simpl. subst s1 pd. destruct (sd_snap s) as [sn|] eqn:Es; simpl; rewrite ?Es; simpl.
  - destruct (destructed s (so_addrHash p)) eqn:Ed; simpl; rewrite ?Es; simpl.
    + split; try done. intros b Hb. rewrite Hvb. by apply Hrefl.
    + split; try done.
      * simpl. unfold destructed in Ed. apply bool_decide_eq_false in Ed. set_solver.
      * intros b Hb. change (view (sd_set_snapDestructs ?D ?X) b) with (view X b).
        rewrite Hvb. by apply Hrefl.
  - split; try done. intros b Hb. rewrite Hvb. by apply Hrefl.
Qed.

Lemma createObject_good a s :
  inv s → valid_addr a →
  let '(o, prev, s') := createObject a s in
  good s s' ∧ sd_stateObjects s' !! a = Some o ∧ so_deleted o = false ∧ obj_ok a o ∧
  prev = live s a.
Proof.
  intros Hi Ha. unfold createObject.
  destruct (getDeleted_spec a s Ha (inv_objs_ok s Hi)) as (F & E & J & R & N & V & L).
  destruct (getDeletedStateObject a s) as [prev t] eqn:Eg; simpl in *. subst prev.
  assert (good s t) as Hst by (apply good_read; congruence || done).
  assert (inv t) as Hit by eauto.
  destruct (view s a) as [p|] eqn:Ev.
  - pose proof (create_over_good a t p _ (newObject_ok a) Hit Ha ltac:(by rewrite V)) as Hg. simpl in Hg.
    destruct (sd_snap t); (split; [by eapply good_trans|]);
      (split; [simpl; by rewrite lookup_insert_eq|]); (split; [done|]);
      (split; [apply newObject_ok|]); unfold live; by rewrite Ev.
  - pose proof (create_fresh_good a t Hit Ha ltac:(by rewrite V)) as Hg.
    destruct (sd_snap t); (split; [by eapply good_trans|]);
      (split; [simpl; by rewrite lookup_insert_eq|]); (split; [done|]);
      (split; [apply newObject_ok|]); unfold live; by rewrite Ev.
Qed.

Lemma getStateObject_good a s :
  inv s → valid_addr a →
  good s (snd (getStateObject a s)) ∧ fst (getStateObject a s) = live s a ∧
  (∀ o, fst (getStateObject a s) = Some o →
     sd_stateObjects (snd (getStateObject a s)) !! a = Some o ∧ so_deleted o = false ∧ obj_ok a o).
Proof.
  intros Hi Ha. destruct (getStateObject_spec a s Ha (inv_objs_ok s Hi)) as (F & E & J & R & N & V & L).
  split; [apply good_read; congruence || done|]. split; [done|]. intros o Ho. rewrite F in Ho.
  unfold live in Ho. destruct (view s a) as [o'|] eqn:Ev; [|done].
  destruct (so_deleted o') eqn:Ed; [done|]. injection Ho as ->.
  split; [done|]. split; [done|]. by apply (inv_obj s Hi).
Qed.

Lemma GetOrNew_good a s :
  inv s → valid_addr a →
  good s (snd (GetOrNewStateObject a s)) ∧
  sd_stateObjects (snd (GetOrNewStateObject a s)) !! a = Some (fst (GetOrNewStateObject a s)) ∧
  so_deleted (fst (GetOrNewStateObject a s)) = false ∧ obj_ok a (fst (GetOrNewStateObject a s)).
Proof.
  intros Hi Ha. unfold GetOrNewStateObject.
  destruct (getStateObject_good a s Hi Ha) as (G & _ & L).
  destruct (getStateObject a s) as [[o|] t] eqn:Eg; simpl in *.
  - by destruct (L o eq_refl).
  - pose proof (createObject_good a t (good_inv _ _ G) Ha) as HC.
    destruct (createObject a t) as [[o p] t'] eqn:Ec. destruct HC as (HC1 & HC2 & HC3 & HC4 & _).
    split; [by eapply good_trans|done].
Qed.

(** Caching reads of a live object. *)
Lemma set_read_good a o o' s :
  inv s → valid_addr a → sd_stateObjects s !! a = Some o → so_address o' = a →
  obj_eq (sd_snap s) (dflag s a) o' o → good s (setStateObject o' s).
Proof.
  intros Hi Ha Ho Ha' Heq. apply good_read; try done.
  apply (set_eqv a o); [by apply view_live|done..].
Qed.

Lemma obj_ok_eq snap d a o o' : obj_eq snap d o' o → obj_ok a o → obj_ok a o'.
Proof. intros [] ([] & ? & ? & ?). repeat split; congruence. Qed.

Ltac with_object a s o t :=
  let G := fresh "G" in let L := fresh "L" in let D := fresh "D" in let K := fresh "K" in
  destruct (GetOrNew_good a s) as (G & L & D & K); [done|done|];
  destruct (GetOrNewStateObject a s) as [o t]; cbn [fst snd] in G, L, D, K.

Lemma SetBalance_obj_good a x o s :
  inv s → valid_addr a → sd_stateObjects s !! a = Some o → so_deleted o = false → obj_ok a o →
  good s (obj_SetBalance x o s).
Proof.
  intros Hi Ha Ho Hd Hok. unfold obj_SetBalance. pose proof (proj1 (proj1 Hok)) as Haddr.
  rewrite Haddr. apply (good_object s a o _ _ (setBalance (Balance (so_data o)))); try done.
  - by apply setBalance_back.
  - intros t Ht. simpl. by apply on_object_live.
Qed.

Lemma touch_good a o s :
  inv s → valid_addr a → so_address o = a → good s (touch o s).
Proof.
  intros Hi Ha Haddr. unfold touch. rewrite Haddr.
  set (s' := if a =? ripemd then _ else _).
  assert (entries (sd_journal s') = entries (sd_journal s) ++ [touchChange a]) as He
    by (subst s'; by destruct (a =? ripemd)).
  assert (sd_validRevisions s' = sd_validRevisions s ∧ sd_nextRevisionId s' = sd_nextRevisionId s ∧
    eqv (sd_set_journal (undirty a (sd_journal s')) s') s ∧ inv s') as (Hr & Hn & Hev & Hi').
  { subst s'. destruct (Z.eqb_spec a ripemd) as [->|Hne].
    - do 2 (split; [done|]). split.
      + split; try done. intros b Hb. simpl. destruct (_ =? 0);
          rewrite ?lookup_delete_ne, ?lookup_insert_ne by done; done.
      + destruct Hi. split; try done. simpl. by apply dirty_ok, (append_ok (touchChange ripemd)).
    - do 2 (split; [done|]). split; [|by apply journal_inv]. split; try done.
      intros b Hb. exact (append_undirty (touchChange a) a _ b eq_refl Hb (inv_dirties s Hi)). }
  by eapply good_entry.
Qed.

Lemma AddBalance_good a x s : inv s → valid_addr a → good s (AddBalance a x s).
Proof.
  intros Hi Ha. unfold AddBalance. with_object a s o t.
  destruct (x =? 0); [destruct (empty_ o); [|done]|]; (eapply good_trans; [done|done|]).
  - eapply touch_good; [eauto|done|apply K].
  - eapply SetBalance_obj_good; eauto.
Qed.

Lemma SubBalance_good a x s : inv s → valid_addr a → good s (SubBalance a x s).
Proof.
  intros Hi Ha. unfold SubBalance. with_object a s o t. destruct (x =? 0); [done|].
  eapply good_trans; [done|done|]. eapply SetBalance_obj_good; eauto.
Qed.

Lemma SetBalance_good a x s : inv s → valid_addr a → good s (SetBalance a x s).
Proof.
  intros Hi Ha. unfold SetBalance. with_object a s o t.
  eapply good_trans; [done|done|]. eapply SetBalance_obj_good; eauto.
Qed.

Lemma SetNonce_good a x s : inv s → valid_addr a → good s (SetNonce a x s).
Proof.
  intros Hi Ha. unfold SetNonce. with_object a s o t. eapply good_trans; [done|done|].
  rewrite (proj1 (proj1 K)). apply (good_object t a o _ _ (setNonce (Nonce (so_data o)))); try done; eauto.
  - apply K.
  - by apply setNonce_back.
  - intros u Hu. simpl. by apply on_object_live.
Qed.

Lemma SetCode_good a c s : inv s → valid_addr a → good s (SetCode a c s).
Proof.
  intros Hi Ha. unfold SetCode. with_object a s o t. eapply good_trans; [done|done|].
  destruct (Code_spec (sd_snap t) (dflag t a) o) as [Hc Ho].
  destruct (Code o) as [prevcode o'] eqn:Ec; cbn [fst snd] in *. subst prevcode.
  pose proof (obj_ok_eq _ _ _ _ _ Ho K) as K'. pose proof (proj1 (proj1 K')) as Ha'.
  assert (inv t) as Hit by eauto.
  eapply good_trans; [done|by eapply (set_read_good a o o')|].
  rewrite Ha', <- (oe_code _ _ _ _ Ho).
  eapply (good_object _ a o' _ _ (setCode (BytesToHash (CodeHash (so_data o'))) (code_view o')));
    try done.
  - eapply set_inv; eauto.
  - simpl. by rewrite Ha', lookup_insert_eq.
  - destruct K' as (? & ? & ? & ?). split; [done|]. split; [done|].
    split; [apply (length_be_fixed 32)|apply (wf_be_fixed 32)].
  - destruct K' as (? & ? & ? & ?). by apply setCode_back.
  - intros u Hu. simpl. apply on_object_live; [done|]. simpl. by rewrite (oe_deleted _ _ _ _ Ho).
Qed.

Lemma SetState_good a k v s : inv s → valid_addr a → good s (SetState a k v s).
Proof.
  intros Hi Ha. unfold SetState. with_object a s o t. assert (inv t) as Hit by eauto.
  eapply good_trans; [done|done|]. rewrite (proj1 (proj2 K)), (proj2 (proj1 K)).
  change (destructed t (ahash a)) with (dflag t a).
  destruct (GetState_spec (sd_snap t) (dflag t a) o k) as [Hc Ho].
  destruct (GetState (sd_snap t) (dflag t a) o k) as [prev o'] eqn:Ec; cbn [fst snd] in *. subst prev.
  pose proof (obj_ok_eq _ _ _ _ _ Ho K) as K'. pose proof (proj1 (proj1 K')) as Ha'.
  assert (good t (setStateObject o' t)) as Hg by by eapply (set_read_good a o o').
  destruct (_ =? v); [done|].
  eapply good_trans; [done|exact Hg|]. rewrite Ha', <- (oe_state _ _ _ _ Ho).
  eapply (good_object _ a o' _ _ (setState k (state_view (sd_snap t) (dflag t a) o' k))); try done.
  - eauto.
  - simpl. by rewrite Ha', lookup_insert_eq.
  - apply setState_back. apply K'.
  - intros u Hu. simpl. apply on_object_live; [done|]. simpl. by rewrite (oe_deleted _ _ _ _ Ho).
Qed.

Lemma SetTeWakaState_good a k v s : inv s → valid_addr a → good s (SetTeWakaState a k v s).
Proof.
  intros Hi Ha. unfold SetTeWakaState. with_object a s o t. assert (inv t) as Hit by eauto.
  eapply good_trans; [done|done|].
  destruct (GetTeWakaState_spec (sd_snap t) (dflag t a) o k) as [Hc Ho].
  destruct (GetTeWakaState o k) as [prev o'] eqn:Ec; cbn [fst snd] in *. subst prev.
  pose proof (obj_ok_eq _ _ _ _ _ Ho K) as K'. pose proof (proj1 (proj1 K')) as Ha'.
  assert (good t (setStateObject o' t)) as Hg by by eapply (set_read_good a o o').
  eapply good_trans; [done|exact Hg|]. rewrite Ha', <- (oe_tewaka _ _ _ _ Ho).
  eapply (good_object _ a o' _ _ (setStateByteArray k (tewaka_view o' k))); try done.
  - eauto.
  - simpl. by rewrite Ha', lookup_insert_eq.
  - apply setStateByteArray_back.
  - intros u Hu. simpl. apply on_object_live; [done|]. simpl. by rewrite (oe_deleted _ _ _ _ Ho).
Qed.

Lemma GetTeWakaState_good a k s : inv s → valid_addr a → good s (snd (sd_GetTeWakaState a k s)).
Proof.
  intros Hi Ha. unfold sd_GetTeWakaState. with_object a s o t. assert (inv t) as Hit by eauto.
  destruct (GetTeWakaState_spec (sd_snap t) (dflag t a) o k) as [Hc Ho].
  destruct (GetTeWakaState o k) as [prev o'] eqn:Ec; cbn [fst snd] in *.
  eapply good_trans; [done|done|]. eapply (set_read_good a o o'); try done.
  rewrite (oe_address _ _ _ _ Ho). apply K.
Qed.

(** A read through [getStateObject]. *)
Lemma read_object_good {A} a s (f : StateDB → stateObject → A * stateObject) (d : A) :
  inv s → valid_addr a →
  (∀ t o, obj_ok a o → obj_eq (sd_snap t) (dflag t a) (snd (f t o)) o) →
  good s (snd (match getStateObject a s with
               | (Some o, s) => let '(v, o) := f s o in (v, setStateObject o s)
               | (None, s) => (d, s)
               end)).
Proof.
  intros Hi Ha Hf. destruct (getStateObject_good a s Hi Ha) as (G & _ & L).
  destruct (getStateObject a s) as [[o|] t]; cbn [fst snd] in *; [|done].
  destruct (L o eq_refl) as (L1 & L2 & L3). specialize (Hf t o L3).
  destruct (f t o) as [v o']; cbn [fst snd] in *.
  eapply good_trans; [done|done|]. eapply (set_read_good a o o'); eauto.
  rewrite (oe_address _ _ _ _ Hf). apply L3.
Qed.

Lemma CodeSize_eq snap d o : obj_eq snap d (snd (CodeSize o)) o.
Proof.
  unfold CodeSize. destruct (so_code o); [done|]. destruct (bool_decide _); [done|].
  destruct (ContractCodeSize _ _) as [n [e|]]; [apply setError_eq|done].
Qed.

Lemma GetCode_good a s : inv s → valid_addr a → good s (snd (GetCode a s)).
Proof.
  intros. apply (read_object_good a s (λ _, Code)); [done..|]. intros. apply Code_spec.
Qed.

Lemma GetCodeSize_good a s : inv s → valid_addr a → good s (snd (GetCodeSize a s)).
Proof.
  intros. apply (read_object_good a s (λ _, CodeSize)); [done..|]. intros. apply CodeSize_eq.
Qed.

Lemma GetState_good a k s : inv s → valid_addr a → good s (snd (sd_GetState a k s)).
Proof.
  intros. apply (read_object_good a s
    (λ t o, GetState (sd_snap t) (destructed t (so_addrHash o)) o k)); [done..|].
  intros t o K. rewrite (proj2 (proj1 K)). apply GetState_spec.
Qed.

Lemma GetCommittedState_good a k s : inv s → valid_addr a → good s (snd (sd_GetCommittedState a k s)).
Proof.
  intros. apply (read_object_good a s
    (λ t o, GetCommittedState (sd_snap t) (destructed t (so_addrHash o)) o k)); [done..|].
  intros t o K. rewrite (proj2 (proj1 K)). apply GetCommittedState_spec.
Qed.

Lemma Suicide_good a s : inv s → valid_addr a → good s (snd (Suicide a s)).
Proof.
  intros Hi Ha. unfold Suicide. destruct (getStateObject_good a s Hi Ha) as (G & _ & L).
  destruct (getStateObject a s) as [[o|] t]; cbn [fst snd] in *; [|done].
  destruct (L o eq_refl) as (L1 & L2 & L3). eapply good_trans; [done|done|].
  apply (good_object t a o _ _ (λ o', setBalance (Balance (so_data o)) (so_set_suicided (so_suicided o) o')));
    try done; eauto.
  - apply L3.
  - by destruct o as [? ? []].
  - intros u Hu. simpl. by erewrite get_live.
Qed.

Lemma set_set o1 o2 s : so_address o1 = so_address o2 →
  setStateObject o2 (setStateObject o1 s) = setStateObject o2 s.
Proof.
  intros E. unfold setStateObject, sd_set_stateObjects. simpl. by rewrite E, insert_insert_eq.
Qed.

Lemma CreateAccount_good a s : inv s → valid_addr a → good s (CreateAccount a s).
Proof.
  intros Hi Ha. unfold CreateAccount. pose proof (createObject_good a s Hi Ha) as HC.
  unfold createObject in *.
  destruct (getDeleted_spec a s Ha (inv_objs_ok s Hi)) as (F & E & J & R & N & V & L).
  destruct (getDeletedStateObject a s) as [prev t] eqn:Eg; simpl in F, E, J, R, N, V, L. subst prev.
  assert (good s t) as Hst by (apply good_read; congruence || done).
  destruct (view s a) as [p|] eqn:Ev; [|destruct (sd_snap t); by destruct HC].
  destruct (so_deleted p) eqn:Ed; [destruct (sd_snap t); by destruct HC|]. clear HC.
  pose proof (create_over_good a t p (setBalance (Balance (so_data p)) (newObject a 0 None 0 None))
    (newObject_ok a) ltac:(eauto) Ha ltac:(by rewrite V)) as Hg.
  eapply good_trans; [done|done|]. simpl in Hg.
  destruct (sd_snap t); rewrite set_set by done; exact Hg.
Qed.

(** Operations outside the objects. *)

Lemma AddRefund_good g s : inv s → good s (AddRefund g s).
Proof.
  intros Hi. eapply (good_entry _ _ (refundChange (sd_refund s))); try done.
  destruct Hi. by split.
Qed.

Lemma SubRefund_good g s s' : inv s → SubRefund g s = Ret s' → good s s'.
Proof.
  intros Hi. unfold SubRefund. simpl. destruct (_ <? g); [done|]. intros [= <-].
  eapply (good_entry _ _ (refundChange (sd_refund s))); try done.
  destruct Hi. by split.
Qed.

Lemma AddPreimage_good h b s : inv s → good s (AddPreimage h b s).
Proof.
  intros Hi. unfold AddPreimage. destruct (sd_preimages s !! h) eqn:E; [by apply good_refl|].
  eapply (good_entry _ _ (addPreimageChange h)); try done.
  - destruct Hi. by split.
  - simpl. split; try done. simpl. by rewrite delete_insert_id.
Qed.

Lemma AddLog_good l s : inv s → good s (AddLog l s).
Proof.
  intros Hi. set (th := sd_thash s).
  set (l' := mkLog (log_Address l) (log_Topics l) (log_Data l) (log_BlockNumber l) th
             (sd_txIndex s) (log_BlockHash l) (sd_logSize s) (log_Removed l)).
  set (lgs := default [] (sd_logs s !! th)).
  assert (is_u64 (sd_logSize s)) as Hsz by apply (inv_logSize s Hi).
  assert (∃ t, revert_entry (addLogChange th) (AddLog l s) = Ret t ∧
    t = sd_set_logSize (u64 (u64 (sd_logSize s + 1) - 1)) (sd_set_logs (sd_logs s) (AddLog l s)))
    as (t & Ht & Et).
  { simpl. fold th. rewrite lookup_insert_eq. cbn [from_option]. fold l' lgs. unfold id.
    rewrite length_app, Nat.add_comm. cbn [length Nat.add].
    destruct (sd_logs s !! th) as [l0|] eqn:El; subst lgs; cbn [default] in *.
    - simpl. destruct l0 as [|x l0]; [by apply (inv_logs s Hi) in El|]. simpl.
      eexists. split; [done|]. do 2 f_equal. rewrite insert_insert_eq. apply insert_id.
      rewrite El. f_equal. simpl. f_equal.
      replace (length l0) with (length l0 + 0)%nat by lia. by rewrite take_app_length'.
    - simpl. eexists. split; [done|]. do 2 f_equal. rewrite delete_insert_id by done. done. }
  eapply (good_entry _ _ (addLogChange th)); [..|exact Ht|]; try done.
  - destruct Hi. split; try done.
    + intros h. simpl. destruct (decide (h = sd_thash s)) as [->|].
      * rewrite lookup_insert_eq. intros [= E]. by destruct (default [] _).
      * by rewrite lookup_insert_ne.
    + simpl. unfold u64. apply wrap_range. lia.
  - rewrite Et. simpl. split; try done. simpl. unfold u64, wrap, in_w in *.
    rewrite Zminus_mod_idemp_l. replace (sd_logSize s + 1 - 1) with (sd_logSize s) by lia.
    by apply Z.mod_small.
Qed.

Lemma al_inv al s : inv s → al_wf al → inv (sd_set_accessList al s).
Proof. intros [] Hal. by split. Qed.

Lemma AddAddressToAccessList_good a s : inv s → good s (AddAddressToAccessList a s).
Proof.
  intros Hi. unfold AddAddressToAccessList.
  pose proof (AddAddress_wf (sd_accessList s) a (inv_al s Hi)) as Hwf.
  pose proof (AddAddress_inverse (sd_accessList s) a) as Hinv.
  unfold AddAddress in *. destruct (addresses (sd_accessList s) !! a) eqn:E; cbn [fst snd] in *.
  - by apply good_read.
  - eapply (good_entry _ _ (accessListAddAccountChange a)); try done.
    + by apply journal_inv, al_inv.
    + simpl. split; try done. simpl. by apply Hinv.
Qed.

Lemma AddSlotToAccessList_good a k s :
  inv s → ∃ s', AddSlotToAccessList a k s = Ret s' ∧ good s s'.
Proof.
  intros Hi. unfold AddSlotToAccessList.
  destruct (AddSlot_inverse (sd_accessList s) a k (inv_al s Hi)) as (ac & sc & al & E & Hwf & Hacsc & Hdel & Hac).
  rewrite E. simpl. destruct sc.
  2:{ destruct ac; [by discriminate Hacsc|]. injection Hdel as ->.
      eexists. split; [done|]. by apply good_read. }
  eexists. split; [done|].
  destruct (DeleteSlot al a k) as [al1|] eqn:Ed; [|done]. simpl in Hdel. injection Hdel as Hal.
  destruct ac.
  - split; [by apply journal_inv, journal_inv, al_inv|]. do 2 (split; [done|]).
    exists [accessListAddAccountChange a; accessListAddSlotChange a k].
    split; [simpl; by rewrite <- app_assoc|]. split; [by repeat constructor|].
    simpl. rewrite Ed. simpl. eexists. split; [done|]. by split.
  - eapply (good_entry _ _ (accessListAddSlotChange a k));
      [by apply journal_inv, al_inv|done..|simpl; rewrite Ed; reflexivity|].
    simpl. subst al1. by split.
Qed.

(** ** Running operations, snapshots and inner reverts *)

Inductive op :=
| OAddLog (l : Log)
| OAddPreimage (h : hash) (b : bytes)
| OAddRefund (g : Z)
| OSubRefund (g : Z)
| OAddBalance (a : address) (x : Z)
| OSubBalance (a : address) (x : Z)
| OSetBalance (a : address) (x : Z)
| OSetNonce (a : address) (n : Z)
| OSetCode (a : address) (c : bytes)
| OSetState (a : address) (k v : hash)
| OSetTeWakaState (a : address) (k : hash) (v : bytes)
| OSuicide (a : address)
| OCreateAccount (a : address)
| OAddAddress (a : address)
| OAddSlot (a : address) (k : hash)
| OGetAccount (a : address)
| OGetCode (a : address)
| OGetCodeSize (a : address)
| OGetState (a : address) (k : hash)
| OGetCommittedState (a : address) (k : hash)
| OGetTeWakaState (a : address) (k : hash)
| OSnapshot
| ORevert (id : Z).

(** [OGetAccount] stands for the reads that only fetch the object: [Exist],
    [Empty], [GetBalance], [GetNonce], [GetCodeHash], [HasSuicided]. *)
Definition exec_op (c : op) (s : StateDB) : outcome StateDB :=
  match c with
  | OAddLog l => Ret (AddLog l s)
  | OAddPreimage h b => Ret (AddPreimage h b s)
  | OAddRefund g => Ret (AddRefund g s)
  | OSubRefund g => SubRefund g s
  | OAddBalance a x => Ret (AddBalance a x s)
  | OSubBalance a x => Ret (SubBalance a x s)
  | OSetBalance a x => Ret (SetBalance a x s)
  | OSetNonce a n => Ret (SetNonce a n s)
  | OSetCode a c => Ret (SetCode a c s)
  | OSetState a k v => Ret (SetState a k v s)
  | OSetTeWakaState a k v => Ret (SetTeWakaState a k v s)
  | OSuicide a => Ret (snd (Suicide a s))
  | OCreateAccount a => Ret (CreateAccount a s)
  | OAddAddress a => Ret (AddAddressToAccessList a s)
  | OAddSlot a k => AddSlotToAccessList a k s
  | OGetAccount a => Ret (snd (getStateObject a s))
  | OGetCode a => Ret (snd (GetCode a s))
  | OGetCodeSize a => Ret (snd (GetCodeSize a s))
  | OGetState a k => Ret (snd (sd_GetState a k s))
  | OGetCommittedState a k => Ret (snd (sd_GetCommittedState a k s))
  | OGetTeWakaState a k => Ret (snd (sd_GetTeWakaState a k s))
  | OSnapshot => Ret (snd (Snapshot s))
  | ORevert id => RevertToSnapshot id s
  end.

Fixpoint exec (cs : list op) (s : StateDB) : outcome StateDB :=
  match cs with
  | [] => Ret s
  | c :: cs => do! s <- exec_op c s; exec cs s
  end.

Definition op_addr (c : op) : option address :=
  match c with
  | OAddBalance a _ | OSubBalance a _ | OSetBalance a _ | OSetNonce a _ | OSetCode a _
  | OSetState a _ _ | OSetTeWakaState a _ _ | OSuicide a | OCreateAccount a
  | OGetAccount a | OGetCode a | OGetCodeSize a | OGetState a _ | OGetCommittedState a _
  | OGetTeWakaState a _ => Some a
  | _ => None
  end.

(** Addresses have 20 bytes and no inner revert goes below [base]. *)
Definition op_ok (base : Z) (c : op) : Prop :=
  (∀ a, op_addr c = Some a → valid_addr a) ∧
  match c with ORevert id => base < id | _ => True end.

Lemma exec_op_good base c s s' :
  inv s → op_ok base c → (∀ id, c ≠ ORevert id) → c ≠ OSnapshot → exec_op c s = Ret s' → good s s'.
Proof.
  intros Hi [Ha _] H1 H2. destruct c; simpl in *; try (intros [= <-]);
    try (pose proof (Ha _ eq_refl)); try done; try (by destruct (H1 _ eq_refl)); clear Ha H1.
  - by apply AddLog_good.
  - by apply AddPreimage_good.
  - by apply AddRefund_good.
  - by apply SubRefund_good.
  - by apply AddBalance_good.
  - by apply SubBalance_good.
  - by apply SetBalance_good.
  - by apply SetNonce_good.
  - by apply SetCode_good.
  - by apply SetState_good.
  - by apply SetTeWakaState_good.
  - by apply Suicide_good.
  - by apply CreateAccount_good.
  - by apply AddAddressToAccessList_good.
  - destruct (AddSlotToAccessList_good a k s Hi) as (t & E & G). rewrite E. by intros [= <-].
  - by apply getStateObject_good.
  - by apply GetCode_good.
  - by apply GetCodeSize_good.
  - by apply GetState_good.
  - by apply GetCommittedState_good.
  - by apply GetTeWakaState_good.
Qed.

(** ** The binary search over the revisions *)

Lemma sort_Search_go_spec f k n : 
  (∀ i, (i < k)%nat → f i = false) → (∀ i, (k ≤ i < n)%nat → f i = true) →
  ∀ fuel i j, (i ≤ k ≤ j)%nat → (j ≤ n)%nat → (j - i ≤ fuel)%nat → sort_Search_go fuel f i j = k.
Proof.
  intros Hlo Hhi fuel. induction fuel as [|fuel IH]; intros i j Hk Hj Hf; cbn [sort_Search_go]; [lia|].
  destruct (Nat.ltb_spec i j) as [Hij|Hij]; [|lia].
  assert (i ≤ (i + j) / 2 < j)%nat as Hh.
  { split; [apply Nat.div_le_lower_bound; lia|apply Nat.div_lt_upper_bound; lia]. }
  destruct (f ((i + j) / 2)%nat) eqn:E; apply IH; try lia.
  - destruct (Nat.lt_ge_cases ((i + j) / 2) k) as [H|H]; [|lia]. by rewrite Hlo in E.
  - destruct (Nat.lt_ge_cases ((i + j) / 2) k) as [H|H]; [lia|]. rewrite Hhi in E by lia. done.
Qed.

(** Revision ids grow strictly along the stack. *)
Definition ids_sorted (rs : list revision) : Prop :=
  ∀ i j r1 r2, (i < j)%nat → rs !! i = Some r1 → rs !! j = Some r2 →
  rev_id r1 < rev_id r2 ∧ (rev_journalIndex r1 ≤ rev_journalIndex r2)%nat.

Lemma search_finds rs k r :
  ids_sorted rs → rs !! k = Some r →
  sort_Search (length rs) (λ i, match rs !! i with Some x => rev_id r <=? rev_id x | None => false end) = k.
Proof.
  intros Hs Hk. pose proof (lookup_lt_Some _ _ _ Hk). apply (sort_Search_go_spec _ k (length rs)); try lia.
  - intros i Hi. destruct (rs !! i) as [x|] eqn:Ex; [|done]. apply Z.leb_gt.
    by apply (Hs i k x r).
  - intros i Hi. destruct (lookup_lt_is_Some_2 rs i) as [x Ex]; [lia|]. rewrite Ex. apply Z.leb_le.
    destruct (decide (i = k)) as [->|]; [simplify_eq; lia|].
    enough (rev_id r < rev_id x) by lia. apply (Hs k i r x); [lia|done..].
Qed.

(** A successful search found the requested revision. *)
Lemma RevertToSnapshot_inv revid s s' :
  RevertToSnapshot revid s = Ret s' →
  ∃ k r t, sd_validRevisions s !! k = Some r ∧ rev_id r = revid ∧
    journal_revert (rev_journalIndex r) s = Ret t ∧
    s' = sd_set_validRevisions (take k (sd_validRevisions s)) t.
Proof.
  unfold RevertToSnapshot. set (k := sort_Search _ _).
  destruct (sd_validRevisions s !! k) as [r|] eqn:Ek; [|done].
  destruct (Z.eqb_spec (rev_id r) revid) as [Hr|]; [|done]. simpl.
  destruct (journal_revert _ s) as [t|] eqn:Ej; [|done]. intros [= <-]. by exists k, r, t.
Qed.

(** ** The stack of snapshots taken since [base] *)

(** Undoing the entries above revision [r] leads back to its ghost state. *)
Definition leads_back (s : StateDB) (r : revision) (g : StateDB) : Prop :=
  inv g ∧ (rev_journalIndex r ≤ length (entries (sd_journal s)))%nat ∧
  ∃ t, undo (reverse (drop (rev_journalIndex r) (entries (sd_journal s)))) s = Ret t ∧ eqv t g.

(** [base] are the older revisions; [gs] the states at the newer ones. *)
Record coherent (base : list revision) (gs : list StateDB) (s : StateDB) : Prop := mkCoherent {
  co_inv : inv s;
  co_entries : Forall entry_ok (entries (sd_journal s));
  co_sorted : ids_sorted (sd_validRevisions s);
  co_next : Forall (λ r, rev_id r < sd_nextRevisionId s ∧
                      (rev_journalIndex r ≤ length (entries (sd_journal s)))%nat) (sd_validRevisions s);
  co_back : ∃ rs, sd_validRevisions s = base ++ rs ∧ Forall2 (leads_back s) rs gs
}.

Lemma undo_cong' es s1 s2 s1' g :
  Forall entry_ok es → objs_ok s1 → eqv s2 s1 → undo es s1 = Ret s1' → eqv s1' g →
  ∃ s2', undo es s2 = Ret s2' ∧ eqv s2' g.
Proof.
  intros H1 H2 H3 H4 H5. destruct (undo_cong es s1 s2 s1') as (t & Ht & Hev & _); try done.
  exists t. split; [done|]. etrans; [by symmetry|done].
Qed.

Lemma leads_back_good s s' r g :
  inv s → Forall entry_ok (entries (sd_journal s)) → good s s' → leads_back s r g → leads_back s' r g.
Proof.
  intros Hi Hk (Hi' & _ & _ & es & He & Hes & t & Hu & Hev) (Hg & Hr & u & Hu' & Hevu).
  split; [done|]. rewrite He, length_app. split; [lia|].
  rewrite drop_app_le, reverse_app, undo_app, Hu by done. cbn [obind].
  apply (undo_cong' _ s t u); try done; [|by apply inv_objs_ok].
  by apply Forall_reverse, Forall_drop.
Qed.

Lemma coherent_good base gs s s' : coherent base gs s → good s s' → coherent base gs s'.
Proof.
  intros [Hi Hk Hs Hn (rs & Hrs & Hb)] Hg. pose proof Hg as (Hi' & Hr & Hnx & es & He & Hes & _).
  split; [done| | | |].
  - rewrite He. by apply Forall_app.
  - by rewrite Hr.
  - rewrite Hr, Hnx, He, length_app. eapply Forall_impl; [exact Hn|]. simpl. intros r [? ?]. split; [done|lia].
  - exists rs. rewrite Hr. split; [done|]. eapply Forall2_impl; [exact Hb|].
    intros r g Hl. by apply (leads_back_good s).
Qed.

Lemma coherent_snapshot base gs s :
  coherent base gs s → coherent base (gs ++ [s]) (snd (Snapshot s)).
Proof.
  intros [Hi Hk Hs Hn (rs & Hrs & Hb)]. simpl.
  set (r := mkRevision (sd_nextRevisionId s) (length (entries (sd_journal s)))).
  change (snd (Snapshot s)) with (sd_set_validRevisions (sd_validRevisions s ++ [r])
    (sd_set_nextRevisionId (sd_nextRevisionId s + 1) s)).
  set (s' := sd_set_validRevisions _ _).
  assert (eqv s' s) as Hev by by split.
  split; simpl.
  - by eapply inv_eqv.
  - done.
  - intros i j r1 r2 Hij H1 H2. apply lookup_snoc_Some in H2 as [[Hj H2]|[Hj <-]].
    + apply lookup_snoc_Some in H1 as [[Hi' H1]|[Hi' <-]]; [|lia]. by apply (Hs i j).
    + apply lookup_snoc_Some in H1 as [[Hi' H1]|[Hi' <-]]; [|lia].
      by apply (Forall_lookup_1 _ _ _ _ Hn H1).
  - apply Forall_app. split; [|constructor; [split; [simpl; lia|done]|done]].
    eapply Forall_impl; [exact Hn|]. simpl. intros x [? ?]. split; [lia|done].
  - exists (rs ++ [r]). rewrite app_assoc, Hrs. split; [done|]. apply Forall2_app.
    + eapply Forall2_impl; [exact Hb|]. intros x g (Hg & Hx & t & Hu & Hevt). split; [done|].
      split; [done|]. apply (undo_cong' _ s s' t); try done; [|by apply inv_objs_ok].
      by apply Forall_reverse, Forall_drop.
    + constructor; [|done]. split; [done|]. split; [done|]. simpl. rewrite drop_all.
      simpl. exists s'. done.
Qed.

(** Reverting to revision [r] reaches a state equivalent to its ghost. *)
Lemma leads_back_revert s r g :
  leads_back s r g → ∃ t u, undo (reverse (drop (rev_journalIndex r) (entries (sd_journal s)))) s = Ret u ∧
    journal_revert (rev_journalIndex r) s = Ret t ∧ eqv t g ∧ eqv t u ∧
    entries (sd_journal t) = take (rev_journalIndex r) (entries (sd_journal s)) ∧
    sd_nextRevisionId t = sd_nextRevisionId s.
Proof.
  intros (Hg & Hr & u & Hu & Hev). unfold journal_revert. rewrite Hu. cbn [obind].
  destruct (undo_frame _ _ _ Hu) as (F1 & F2 & F3). rewrite F1.
  destruct (Nat.ltb_spec (length (entries (sd_journal s))) (rev_journalIndex r)); [lia|].
  eexists _, u. split; [done|]. split; [done|].
  assert (eqv (sd_set_journal (mkJournal (take (rev_journalIndex r) (entries (sd_journal s)))
    (dirties (sd_journal u))) u) u) as Heu by by split.
  split; [by etrans|]. by split.
Qed.

(** What an older revision leads back to is reached through a newer one. *)
Lemma leads_back_earlier s s' x r gx u :
  Forall entry_ok (entries (sd_journal s)) → leads_back s x gx →
  (rev_journalIndex x ≤ rev_journalIndex r ≤ length (entries (sd_journal s)))%nat →
  undo (reverse (drop (rev_journalIndex r) (entries (sd_journal s)))) s = Ret u →
  eqv s' u → objs_ok u →
  entries (sd_journal s') = take (rev_journalIndex r) (entries (sd_journal s)) →
  leads_back s' x gx.
Proof.
  intros Hk (Hg & Hx & w & Hw & Hev) Hxr Hu Hs'u Hok He. split; [done|].
  rewrite He, length_take. split; [lia|].
  rewrite <- (take_drop (rev_journalIndex r) (entries (sd_journal s))) in Hw at 1.
  rewrite drop_app_le in Hw by (rewrite length_take; lia).
  rewrite reverse_app, undo_app, Hu in Hw. cbn [obind] in Hw.
  apply (undo_cong' _ u s' w); try done.
  by apply Forall_reverse, Forall_drop, Forall_take.
Qed.

Lemma coherent_revert base gs s k r g :
  coherent base gs s → sd_validRevisions s !! (length base + k)%nat = Some r → gs !! k = Some g →
  ∃ s', RevertToSnapshot (rev_id r) s = Ret s' ∧ eqv s' g ∧ coherent base (take k gs) s'.
Proof.
  intros [Hi Hk Hs Hn (rs & Hrs & Hb)] Hr Hgk. unfold RevertToSnapshot.
  rewrite (search_finds _ _ _ Hs Hr), Hr, Z.eqb_refl. cbn [negb].
  assert (rs !! k = Some r) as Hrk.
  { rewrite Hrs, lookup_app_r in Hr by lia. by replace (length base + k - length base)%nat with k in Hr by lia. }
  pose proof (Forall2_lookup_lr _ _ _ _ _ _ Hb Hrk Hgk) as Hl.
  destruct (leads_back_revert s r g Hl) as (t & u & Hu & Hj & Htg & Htu & Het & Hnt).
  rewrite Hj. cbn [obind]. set (s' := sd_set_validRevisions _ t). exists s'. split; [done|].
  assert (eqv s' t) as Hst by by split.
  assert (eqv s' g) as Hsg by by etrans.
  split; [done|]. destruct Hl as (Hg & Hidx & _). split.
  - by apply (inv_eqv s' g).
  - simpl. rewrite Het. by apply Forall_take.
  - simpl. intros i j r1 r2 Hij H1 H2. apply lookup_take_Some in H1 as [H1 _], H2 as [H2 _].
    by apply (Hs i j).
  - simpl. rewrite Het, Hnt. apply Forall_lookup. intros i x Hx.
    apply lookup_take_Some in Hx as [Hx Hlt]. split; [by apply (Forall_lookup_1 _ _ _ _ Hn Hx)|].
    rewrite length_take. destruct (Hs i _ x r Hlt Hx Hr).
    pose proof (Forall_lookup_1 _ _ _ _ Hn Hx) as [_ ?]. lia.
  - exists (take k rs). split.
    { simpl. rewrite Hrs, take_app_ge by lia. do 2 f_equal. lia. }
    apply Forall2_lookup. intros i. destruct (decide (i < k)%nat) as [Hik|Hik].
    2:{ rewrite !lookup_take_ge by lia. constructor. }
    rewrite !lookup_take_lt by lia. pose proof (proj1 (Forall2_lookup _ _ _) Hb i) as Hbi.
    inversion Hbi as [x gx Hx Ex Egx|]; constructor.
    assert (rev_journalIndex x ≤ rev_journalIndex r)%nat as Hxr.
    { apply (Hs (length base + i)%nat (length base + k)%nat); [lia| |done].
      rewrite Hrs, lookup_app_r by lia. by replace (length base + i - length base)%nat with i by lia. }
    apply (leads_back_earlier s s' x r gx u); [done|done|lia|done|by transitivity t| |done].
    apply (objs_ok_eqv u g); [|by apply inv_objs_ok]. etrans; [by symmetry|done].
Qed.

Lemma coherent_base_id base gs s r0 g0 c :
  coherent base (g0 :: gs) s → op_ok (rev_id r0) c →
  sd_validRevisions s !! length base = Some r0 →
  ∀ id, c = ORevert id → ∀ k r, sd_validRevisions s !! k = Some r → rev_id r = id → (length base < k)%nat.
Proof.
  intros Hc [_ Hb] H0 id -> k r Hk Hid. simpl in Hb.
  destruct (Nat.lt_trichotomy k (length base)) as [H|[->|H]]; [|simplify_eq; lia|done].
  destruct (co_sorted _ _ _ Hc _ _ _ _ H Hk H0). lia.
Qed.

(** Every command keeps the snapshot [r0] at the bottom of the new stack. *)
Lemma exec_op_coherent base gs s s' r0 g0 c :
  coherent base (g0 :: gs) s → sd_validRevisions s !! length base = Some r0 →
  op_ok (rev_id r0) c → exec_op c s = Ret s' →
  ∃ gs', coherent base (g0 :: gs') s' ∧ sd_validRevisions s' !! length base = Some r0.
Proof.
  intros Hc H0 Hop He.
  assert (c = OSnapshot ∨ c ≠ OSnapshot) as [->|Hns] by (destruct c; auto).
  { injection He as <-. exists (gs ++ [s]). split; [by apply (coherent_snapshot base (g0 :: gs) s)|].
    simpl. by apply lookup_app_l_Some. }
  assert ((∃ id, c = ORevert id) ∨ ∀ id, c ≠ ORevert id) as [[id ->]|Hnr] by (destruct c; eauto).
  - destruct (RevertToSnapshot_inv _ _ _ He) as (k & r & t & Hk & Hid & _).
    pose proof (coherent_base_id _ _ _ _ _ _ Hc Hop H0 id eq_refl k r Hk Hid) as Hlt.
    destruct (co_back _ _ _ Hc) as (rs & Hrs & HF).
    destruct (lookup_lt_is_Some_2 (g0 :: gs) (k - length base)) as [g Hg].
    { rewrite <- (Forall2_length _ _ _ HF). apply lookup_lt_Some in Hk. rewrite Hrs, length_app in Hk. lia. }
    destruct (coherent_revert base (g0 :: gs) s (k - length base) r g Hc) as (s2 & E2 & _ & Hc2).
    { by replace (length base + (k - length base))%nat with k by lia. }
    { done. }
    simpl in He. rewrite <- Hid, E2 in He. injection He as <-.
    destruct (k - length base)%nat as [|k'] eqn:Ek; [lia|]. exists (take k' gs). split; [done|].
    destruct (co_back _ _ _ Hc2) as (rs2 & Hrs2 & HF2). rewrite Hrs2, lookup_app_r, Nat.sub_diag by lia.
    destruct (RevertToSnapshot_inv _ _ _ E2) as (k2 & r2 & t2 & Hk2 & Hid2 & _ & ->). simpl in Hrs2.
    pose proof (f_equal (lookup (length base)) Hrs2) as Hl.
    rewrite (lookup_app_r base rs2), Nat.sub_diag in Hl by lia.
    rewrite <- Hl. rewrite lookup_take_lt; [done|].
    by eapply (coherent_base_id _ _ _ _ _ _ Hc Hop H0 id eq_refl k2 r2 Hk2); congruence.
  - assert (good s s') as Hg.
    { eapply exec_op_good; [apply (co_inv _ _ _ Hc)|done..]. }
    exists gs. split; [by eapply coherent_good|]. destruct Hg as (_ & -> & _). done.
Qed.

Lemma exec_coherent base cs gs s s' r0 g0 :
  coherent base (g0 :: gs) s → sd_validRevisions s !! length base = Some r0 →
  Forall (op_ok (rev_id r0)) cs → exec cs s = Ret s' →
  ∃ gs', coherent base (g0 :: gs') s' ∧ sd_validRevisions s' !! length base = Some r0.
Proof.
  revert gs s. induction cs as [|c cs IH]; simpl; intros gs s Hc H0 Hops He.
  - injection He as <-. eauto.
  - apply Forall_cons in Hops as [Hop Hops]. destruct (exec_op c s) as [t|] eqn:Et; [|done].
    destruct (exec_op_coherent base gs s t r0 g0 c Hc H0 Hop Et) as (gs' & Hc' & H0').
    by apply (IH gs' t).
Qed.

(** Journal and revision stack of a state at a transaction boundary or inside
    a call. *)
Record revs_ok (s : StateDB) : Prop := mkRevsOk {
  ro_entries : Forall entry_ok (entries (sd_journal s));
  ro_sorted : ids_sorted (sd_validRevisions s);
  ro_next : Forall (λ r, rev_id r < sd_nextRevisionId s ∧
                      (rev_journalIndex r ≤ length (entries (sd_journal s)))%nat) (sd_validRevisions s)
}.

Lemma snapshot_revert s cs s2 :
  inv s → revs_ok s → Forall (op_ok (fst (Snapshot s))) cs →
  exec cs (snd (Snapshot s)) = Ret s2 →
  ∃ s3, RevertToSnapshot (fst (Snapshot s)) s2 = Ret s3 ∧ eqv s3 s ∧ inv s3 ∧ revs_ok s3.
Proof.
  intros Hi [] Hops He.
  assert (coherent (sd_validRevisions s) [] s) as Hc.
  { split; try done. exists []. rewrite app_nil_r. by split. }
  apply coherent_snapshot in Hc. simpl in Hc.
  destruct (exec_coherent (sd_validRevisions s) cs [] _ s2
    (mkRevision (sd_nextRevisionId s) (journal_length (sd_journal s))) s Hc) as (gs & Hc2 & H2); try done.
  { simpl. by rewrite list_lookup_middle. }
  destruct (coherent_revert (sd_validRevisions s) (s :: gs) s2 0
    (mkRevision (sd_nextRevisionId s) (journal_length (sd_journal s))) s Hc2) as (s3 & E & Hev & Hc3).
  { by rewrite Nat.add_0_r. }
  { done. }
  exists s3. split; [done|]. split; [done|]. destruct Hc3.
  split; [done|]. by constructor.
Qed.

End Revert.

(** ** A concrete state *)

(** The state at the empty root, as [New] builds it. *)
Definition genesis_state : StateDB :=
  match New 0 None with
  | Ok s => s
  | Err _ => mkStateDB 0 (∅ : @Trie MapBackend) None ∅ ∅ ∅ ∅ ∅ ∅ None 0 0 0 ∅ 0 ∅ newAccessList newJournal [] 0 ∅
  end.

Lemma genesis_view a : view genesis_state a = None.
Proof. done. Qed.

Lemma genesis_inv : inv genesis_state.
Proof.
  split; [apply al_wf_new| |done| |done|done].
  - intros a o _ H. by rewrite genesis_view in H.
  - by intros a n _ H.
Qed.

Lemma genesis_revs : revs_ok genesis_state.
Proof. split; [constructor| |constructor]. by intros i j r1 r2 _ H. Qed.

(** ** Claims *)

(** C1: [Snapshot] followed by any sequence of journaled operations (balances,
    nonces, code, storage, Te Waka storage, self-destructs, account creation,
    logs, refunds, preimages, access list, reads that fill caches, nested
    snapshots and reverts) and [RevertToSnapshot] never panics on the revert
    and restores the first state up to [eqv]: balances, nonces, code, storage,
    Te Waka storage, self-destruct marks, logs, refund counter, preimages and
    access list read as before. *)
Theorem revert_restores {B : Backend} {BOk : BackendOk B} s cs s2 :
  inv s → revs_ok s → Forall (op_ok (fst (Snapshot s))) cs →
  exec cs (snd (Snapshot s)) = Ret s2 →
  ∃ s3, RevertToSnapshot (fst (Snapshot s)) s2 = Ret s3 ∧ eqv s3 s ∧ inv s3 ∧ revs_ok s3.
Proof. apply snapshot_revert. Qed.

(** Undoing a Te Waka write leaves its key in the queue for the trie, and an
    account that was empty before the write no longer is. *)
Example revert_leaves_tewaka_key :
  let s := AddBalance 7 0 genesis_state in
  let '(id, s1) := Snapshot s in
  fst (Empty 7 s) = true ∧
  match RevertToSnapshot id (SetTeWakaState 7 5 [1] s1) with
  | Ret s' => fst (Empty 7 s') = false
  | Panic => False
  end.
Proof. vm_compute. split; reflexivity. Qed.

Definition demo_ops : list op :=
  [OAddBalance 7 100; OSetState 7 1 42; OSnapshot; OSetCode 8 [1; 2; 3]; OSuicide 7; OAddSlot 9 3;
   ORevert 1; OSetTeWakaState 7 5 [1; 2]; OCreateAccount 7; OGetCodeSize 8].

Lemma demo_ops_ok : Forall (op_ok 0) demo_ops.
Proof.
  unfold demo_ops.
  repeat (apply Forall_cons_2; [split; [intros a Ha; simpl in Ha; simplify_eq/=; done|done]|]).
  by apply Forall_nil_2.
Qed.

Lemma revert_restores_witness :
  ∃ s2 s3, exec demo_ops (snd (Snapshot genesis_state)) = Ret s2 ∧
    RevertToSnapshot (fst (Snapshot genesis_state)) s2 = Ret s3 ∧ eqv s3 genesis_state.
Proof.
  destruct (is_ret_some (exec demo_ops (snd (Snapshot genesis_state)))) as [s2 E]; [vm_compute; reflexivity|].
  exists s2. destruct (revert_restores genesis_state demo_ops s2 genesis_inv genesis_revs) as (s3 & H1 & H2 & _).
  - exact demo_ops_ok.
  - exact E.
  - exists s3. exact (conj E (conj H1 H2)).
Defined.
