(* ===== verification/StateBalance.v ===== *)
(** * Balances and Te Waka storage under the state operations

    What the balance operations and the Te Waka storage operations do to every
    account's balance, nonce and Te Waka value, and that reads that agree on
    equivalent states agree.  The protocol components use these facts only. *)
From S2P Require Import Prelude Common RlpEncode RlpDecode AccessList StateObject Concrete StateDB StateRevert.
Import Bytes.

Section Balance.
Context {B : Backend} {BOk : BackendOk B}.

Definition bal (s : StateDB) (a : address) : Z :=
  match live s a with Some o => Balance (so_data o) | None => 0 end.
Definition nonce_of (s : StateDB) (a : address) : Z :=
  match live s a with Some o => Nonce (so_data o) | None => 0 end.
Definition tewaka_of (s : StateDB) (a : address) (k : hash) : bytes :=
  match live s a with Some o => tewaka_view o k | None => [] end.

Lemma GetBalance_bal a s : inv s → valid_addr a → fst (GetBalance a s) = bal s a.
Proof.
  intros Hi Ha. unfold GetBalance, bal. destruct (getStateObject_good a s Hi Ha) as (_ & F & _).
  rewrite <- F. by destruct (getStateObject a s).
Qed.

Lemma GetNonce_nonce a s : inv s → valid_addr a → fst (GetNonce a s) = nonce_of s a.
Proof.
  intros Hi Ha. unfold GetNonce, nonce_of. destruct (getStateObject_good a s Hi Ha) as (_ & F & _).
  rewrite <- F. by destruct (getStateObject a s).
Qed.

(** Equivalent states have the same balances, nonces, codes and storage. *)
Lemma eqv_bal s1 s2 a : eqv s1 s2 → valid_addr a → bal s1 a = bal s2 a.
Proof.
  intros Hev Ha. unfold bal. destruct (live_eqv s1 s2 a Hev Ha) as [o1 o2 Ho|]; [|done].
  by rewrite (oe_data _ _ _ _ Ho).
Qed.

Lemma eqv_nonce s1 s2 a : eqv s1 s2 → valid_addr a → nonce_of s1 a = nonce_of s2 a.
Proof.
  intros Hev Ha. unfold nonce_of. destruct (live_eqv s1 s2 a Hev Ha) as [o1 o2 Ho|]; [|done].
  by rewrite (oe_data _ _ _ _ Ho).
Qed.

Lemma eqv_tewaka s1 s2 a k : eqv s1 s2 → valid_addr a → tewaka_of s1 a k = tewaka_of s2 a k.
Proof.
  intros Hev Ha. unfold tewaka_of. destruct (live_eqv s1 s2 a Hev Ha) as [o1 o2 Ho|]; [|done].
  by rewrite (oe_tewaka _ _ _ _ Ho).
Qed.

Lemma eqv_GetCode s1 s2 a :
  eqv s1 s2 → inv s1 → inv s2 → valid_addr a → fst (GetCode a s1) = fst (GetCode a s2).
Proof.
  intros Hev H1 H2 Ha. unfold GetCode.
  destruct (getStateObject_good a s1 H1 Ha) as (_ & F1 & _).
  destruct (getStateObject_good a s2 H2 Ha) as (_ & F2 & _).
  pose proof (live_eqv s1 s2 a Hev Ha) as HL. rewrite <- F1, <- F2 in HL.
  destruct (getStateObject a s1) as [r1 t1], (getStateObject a s2) as [r2 t2]; simpl in *.
  destruct HL as [o1 o2 Ho|]; [|done].
  destruct (Code_spec None false o1) as [C1 _], (Code_spec None false o2) as [C2 _].
  destruct (Code o1), (Code o2). simpl in *. rewrite C1, C2. apply (oe_code _ _ _ _ Ho).
Qed.

Lemma GetState_view a k s :
  inv s → valid_addr a →
  fst (sd_GetState a k s) = match live s a with Some o => state_view (sd_snap s) (dflag s a) o k | None => 0 end.
Proof.
  intros Hi Ha. unfold sd_GetState. destruct (getStateObject_good a s Hi Ha) as (_ & F & L).
  destruct (getStateObject_spec a s Ha (inv_objs_ok s Hi)) as (_ & E & _).
  destruct (eqv_flags _ _ a E) as [E1 E2]. rewrite <- F, <- E1, <- E2.
  destruct (getStateObject a s) as [[o|] t]; [|done]. cbn [fst snd] in *.
  destruct (L o eq_refl) as (_ & _ & K). rewrite (proj2 (proj1 K)).
  change (destructed t (ahash a)) with (dflag t a).
  destruct (GetState_spec (sd_snap t) (dflag t a) o k) as [G _]. by destruct (GetState _ _ o k).
Qed.

Lemma eqv_GetState s1 s2 a k :
  eqv s1 s2 → inv s1 → inv s2 → valid_addr a → fst (sd_GetState a k s1) = fst (sd_GetState a k s2).
Proof.
  intros Hev H1 H2 Ha. rewrite !GetState_view by done. destruct (eqv_flags _ _ a Hev) as [E1 E2].
  pose proof (live_eqv s1 s2 a Hev Ha) as HL. rewrite E1, E2 in *.
  destruct HL as [o1 o2 Ho|]; [|done]. apply (oe_state _ _ _ _ Ho).
Qed.

(** ** One live object replaced *)

Lemma live_set o s b :
  live (setStateObject o s) b =
  if decide (b = so_address o) then (if so_deleted o then None else Some o) else live s b.
Proof. unfold live. rewrite view_set. by destruct (decide _). Qed.

Lemma live_journal e s b : live (journal_append e s) b = live s b.
Proof. done. Qed.

(** The state after [GetOrNewStateObject]: the fetched object is live, an
    absent one counts as balance 0 before and after. *)
Lemma GetOrNew_spec a s :
  inv s → valid_addr a →
  let o := fst (GetOrNewStateObject a s) in
  let t := snd (GetOrNewStateObject a s) in
  inv t ∧ live t a = Some o ∧ so_address o = a ∧ obj_ok a o ∧ so_deleted o = false ∧
  sd_stateObjects t !! a = Some o ∧
  Balance (so_data o) = bal s a ∧ Nonce (so_data o) = nonce_of s a ∧
  (∀ b, b ≠ a → live t b = live s b) ∧
  sd_records t = sd_records s ∧ sd_logs t = sd_logs s ∧
  (live s a = None → o = newObject a 0 None 0 None) ∧
  (live s a ≠ None → live s a = Some o ∧ ∀ b, live t b = live s b).
Proof.
  intros Hi Ha o t. destruct (GetOrNew_good a s Hi Ha) as (G & L & D & K). fold o t in G, L, D, K.
  assert (live t a = Some o) as Hl.
  { unfold live. rewrite (view_live a o t L). by rewrite D. }
  split; [by eapply good_inv|]. split; [done|]. split; [apply K|]. split; [done|]. split; [done|]. split; [done|].
  subst o t. unfold GetOrNewStateObject in *.
  destruct (getStateObject_spec a s Ha (inv_objs_ok s Hi)) as (F & E & J & R & N & V & LL).
  destruct (getStateObject a s) as [[o|] u]; cbn [fst snd] in *.
  - unfold bal, nonce_of. rewrite <- F. do 2 (split; [done|]).
    split; [intros b _; by apply live_view_eq|].
    split; [apply (ev_records _ _ E)|]. split; [apply (ev_logs _ _ E)|]. split; [done|].
    intros _. split; [done|]. intros b. by apply live_view_eq.
  - unfold bal, nonce_of. rewrite <- F. unfold createObject in *.
    destruct (getDeleted_spec a u Ha) as (F' & E' & J' & R' & N' & V' & LL').
    { eapply objs_ok_eqv; [exact E|by apply inv_objs_ok]. }
    destruct (getDeletedStateObject a u) as [prev u'] eqn:Eg. cbn [fst snd] in *.
    assert (sd_records u' = sd_records s ∧ sd_logs u' = sd_logs s) as [Hr Hlg].
    { rewrite (ev_records _ _ E'), (ev_records _ _ E), (ev_logs _ _ E'), (ev_logs _ _ E). done. }
    assert (∀ b, live u' b = live s b) as Hlu.
    { intros b. rewrite (live_view_eq u' u b V'). by apply live_view_eq. }
    destruct (sd_snap u'), prev as [p|]; cbn [fst snd];
      try destruct (destructed u' (so_addrHash p)); cbn [fst snd] in *;
      (split; [done|]; split; [done|]; split;
       [intros b Hb; rewrite live_set; simpl; rewrite decide_False by done; apply Hlu|];
       split; [done|]; split; [done|]; split; [done|]; done).
Qed.

Definition add_at (a : address) (x : Z) (b : address) : Z := if decide (b = a) then x else 0.

Lemma obj_SetBalance_bal a o x t b :
  live t a = Some o → so_address o = a → so_deleted o = false →
  bal (obj_SetBalance x o t) b = if decide (b = a) then x else bal t b.
Proof.
  intros Hl Ha Hd. unfold obj_SetBalance, bal. rewrite live_set. simpl. rewrite Ha, Hd.
  by destruct (decide (b = a)).
Qed.

Lemma AddBalance_bal a x s b :
  inv s → valid_addr a → bal (AddBalance a x s) b = bal s b + add_at a x b.
Proof.
  intros Hi Ha. destruct (GetOrNew_spec a s Hi Ha) as (Hit & Hl & Hao & K & Hd & _ & Hb & _ & Hoth & _).
  unfold AddBalance, add_at. destruct (GetOrNewStateObject a s) as [o t]; cbn [fst snd] in *.
  assert (∀ b, bal t b = bal s b) as Hbt.
  { intros c. destruct (decide (c = a)) as [->|Hne].
    - unfold bal at 1. by rewrite Hl.
    - unfold bal. by rewrite Hoth. }
  destruct (Z.eqb_spec x 0) as [->|Hx].
  - transitivity (bal t b).
    + destruct (empty_ o); [|done]. unfold touch. by destruct (so_address o =? ripemd).
    + rewrite Hbt. destruct (decide (b = a)); lia.
  - rewrite (obj_SetBalance_bal a) by done. destruct (decide (b = a)) as [->|]; [lia|]. rewrite Hbt. lia.
Qed.

Lemma SubBalance_bal a x s b :
  inv s → valid_addr a → bal (SubBalance a x s) b = bal s b - add_at a x b.
Proof.
  intros Hi Ha. destruct (GetOrNew_spec a s Hi Ha) as (Hit & Hl & Hao & K & Hd & _ & Hb & _ & Hoth & _).
  unfold SubBalance, add_at. destruct (GetOrNewStateObject a s) as [o t]; cbn [fst snd] in *.
  assert (∀ b, bal t b = bal s b) as Hbt.
  { intros c. destruct (decide (c = a)) as [->|Hne].
    - unfold bal at 1. by rewrite Hl.
    - unfold bal. by rewrite Hoth. }
  destruct (Z.eqb_spec x 0) as [->|Hx].
  - rewrite Hbt. destruct (decide (b = a)); lia.
  - rewrite (obj_SetBalance_bal a) by done. destruct (decide (b = a)) as [->|]; [lia|]. rewrite Hbt. lia.
Qed.

Lemma SetNonce_bal a n s b : inv s → valid_addr a → bal (SetNonce a n s) b = bal s b.
Proof.
  intros Hi Ha. destruct (GetOrNew_spec a s Hi Ha) as (Hit & Hl & Hao & K & Hd & _ & Hb & _ & Hoth & _).
  unfold SetNonce. destruct (GetOrNewStateObject a s) as [o t]; cbn [fst snd] in *.
  unfold bal at 1. rewrite live_set. simpl. rewrite Hao, Hd. destruct (decide (b = a)) as [->|Hne]; [done|].
  rewrite live_journal. by rewrite Hoth.
Qed.

(** ** Te Waka storage *)

Lemma GetTeWakaState_of a k s :
  inv s → valid_addr a → live s a ≠ None → fst (sd_GetTeWakaState a k s) = tewaka_of s a k.
Proof.
  intros Hi Ha Hex. destruct (GetOrNew_spec a s Hi Ha) as (_ & _ & _ & _ & _ & _ & _ & _ & _ & _ & _ & _ & Hs).
  destruct (Hs Hex) as [Hs' _]. unfold sd_GetTeWakaState, tewaka_of. rewrite Hs'.
  destruct (GetOrNewStateObject a s) as [o t]; cbn [fst snd] in *.
  destruct (GetTeWakaState_spec None false o k) as [H _]. by destruct (GetTeWakaState o k).
Qed.

Lemma SetTeWakaState_spec a k v s :
  inv s → valid_addr a →
  let t := SetTeWakaState a k v s in
  inv t ∧ live t a ≠ None ∧ tewaka_of t a k = v ∧ (∀ b, bal t b = bal s b) ∧
  sd_records t = sd_records s ∧ sd_logs t = sd_logs s.
Proof.
  intros Hi Ha t. assert (inv t) as Hit by (eapply good_inv, SetTeWakaState_good; done).
  split; [done|]. subst t.
  destruct (GetOrNew_spec a s Hi Ha) as (_ & Hl & Hao & K & Hd & _ & Hb & _ & Hoth & Hr & Hlg & _).
  unfold SetTeWakaState. destruct (GetOrNewStateObject a s) as [o u]; cbn [fst snd] in *.
  destruct (GetTeWakaState_spec None false o k) as [_ Ho].
  destruct (GetTeWakaState o k) as [prev o']; cbn [fst snd] in *.
  assert (so_address o' = a) as Ha' by (by rewrite (oe_address _ _ _ _ Ho)).
  assert (so_deleted o' = false) as Hd' by (by rewrite (oe_deleted _ _ _ _ Ho)).
  assert (∀ b, live (setStateObject (setStateByteArray k v o')
      (journal_append (teWakaStorageChange (so_address o') k prev) (setStateObject o' u))) b =
    if decide (b = a) then Some (setStateByteArray k v o') else live s b) as Hlv.
  { intros b. rewrite live_set. simpl. rewrite Ha', Hd'. destruct (decide (b = a)); [done|].
    rewrite live_journal, live_set, Ha', Hd', decide_False by done. by apply Hoth. }
  split; [by rewrite Hlv, decide_True|]. split; [|split; [|by split]].
  - unfold tewaka_of. rewrite Hlv, decide_True by done. unfold tewaka_view. simpl.
    by rewrite lookup_insert_eq.
  - intros b. unfold bal at 1. rewrite Hlv. destruct (decide (b = a)) as [->|]; [|done].
    simpl. by rewrite (oe_data _ _ _ _ Ho).
Qed.

Lemma GetTeWakaState_inv a k s :
  inv s → valid_addr a →
  let t := snd (sd_GetTeWakaState a k s) in
  inv t ∧ (∀ b, bal t b = bal s b) ∧ sd_records t = sd_records s ∧ live t a ≠ None ∧
  (live s a ≠ None → tewaka_of t a k = tewaka_of s a k).
Proof.
  intros Hi Ha t. assert (inv t) as Hit by (eapply good_inv, GetTeWakaState_good; done).
  split; [done|]. subst t.
  destruct (GetOrNew_spec a s Hi Ha) as (_ & Hl & Hao & K & Hd & _ & Hb & _ & Hoth & Hr & Hlg & _ & Hs).
  unfold sd_GetTeWakaState. destruct (GetOrNewStateObject a s) as [o u]; cbn [fst snd] in *.
  destruct (GetTeWakaState_spec None false o k) as [_ Ho].
  destruct (GetTeWakaState o k) as [prev o']; cbn [fst snd] in *.
  assert (so_address o' = a) as Ha' by (by rewrite (oe_address _ _ _ _ Ho)).
  assert (so_deleted o' = false) as Hd' by (by rewrite (oe_deleted _ _ _ _ Ho)).
  assert (∀ b, live (setStateObject o' u) b = if decide (b = a) then Some o' else live s b) as Hlv.
  { intros b. rewrite live_set, Ha', Hd'. destruct (decide (b = a)); [done|]. by apply Hoth. }
  split; [|split; [done|]].
  - intros b. unfold bal at 1. rewrite Hlv. destruct (decide (b = a)) as [->|]; [|done].
    by rewrite (oe_data _ _ _ _ Ho).
  - split; [by rewrite Hlv, decide_True|]. intros Hex. destruct (Hs Hex) as [Hs' _].
    unfold tewaka_of. rewrite Hlv, decide_True, Hs' by done. apply (oe_tewaka _ _ _ _ Ho).
Qed.

Lemma bal_ops_records a x s :
  inv s → valid_addr a →
  sd_records (AddBalance a x s) = sd_records s ∧ sd_records (SubBalance a x s) = sd_records s.
Proof.
  intros Hi Ha. destruct (GetOrNew_spec a s Hi Ha) as (_ & _ & _ & _ & _ & _ & _ & _ & _ & Hr & _).
  unfold AddBalance, SubBalance. destruct (GetOrNewStateObject a s) as [o t]; cbn [fst snd] in *.
  destruct (x =? 0); [|done]. split; [|done]. destruct (empty_ o); [|done].
  unfold touch. by destruct (so_address o =? ripemd).
Qed.

Lemma AddBalance_inv a x s : inv s → valid_addr a → inv (AddBalance a x s).
Proof. intros. by eapply good_inv, AddBalance_good. Qed.
Lemma SubBalance_inv a x s : inv s → valid_addr a → inv (SubBalance a x s).
Proof. intros. by eapply good_inv, SubBalance_good. Qed.
Lemma AddLog_inv l s : inv s → inv (AddLog l s).
Proof. intros. by eapply good_inv, AddLog_good. Qed.
Lemma GetBalance_inv a s : inv s → valid_addr a → inv (snd (GetBalance a s)).
Proof.
  intros Hi Ha. unfold GetBalance. destruct (getStateObject_good a s Hi Ha) as (G & _).
  destruct (getStateObject a s). by eapply good_inv.
Qed.
(** Fetching an object changes neither balances nor storage nor records. *)
Lemma getStateObject_frame a s :
  inv s → valid_addr a →
  let t := snd (getStateObject a s) in
  inv t ∧ (∀ b, live t b = live s b) ∧ sd_records t = sd_records s.
Proof.
  intros Hi Ha. destruct (getStateObject_spec a s Ha (inv_objs_ok s Hi)) as (_ & E & _ & _ & _ & V & _).
  split; [by eapply inv_eqv|]. split; [intros b; by apply live_view_eq|apply (ev_records _ _ E)].
Qed.

Lemma AddLog_bal l s b : bal (AddLog l s) b = bal s b.
Proof. done. Qed.

(** Balance changes keep the Te Waka value of every account that exists. *)
Lemma bal_ops_tewaka a x s b k :
  inv s → valid_addr a → live s b ≠ None →
  tewaka_of (AddBalance a x s) b k = tewaka_of s b k ∧ live (AddBalance a x s) b ≠ None ∧
  tewaka_of (SubBalance a x s) b k = tewaka_of s b k ∧ live (SubBalance a x s) b ≠ None.
Proof.
  intros Hi Ha Hex.
  destruct (GetOrNew_spec a s Hi Ha) as (_ & Hl & Hao & K & Hd & _ & _ & _ & Hoth & _ & _ & _ & Hs).
  unfold AddBalance, SubBalance. destruct (GetOrNewStateObject a s) as [o t]; cbn [fst snd] in *.
  assert (tewaka_of t b k = tewaka_of s b k ∧ live t b ≠ None) as [Ht1 Ht2].
  { unfold tewaka_of. destruct (decide (b = a)) as [->|Hne]; [|by rewrite Hoth].
    destruct (Hs Hex) as [H1 H2]. by rewrite H2. }
  assert (∀ y, tewaka_of (obj_SetBalance y o t) b k = tewaka_of s b k ∧ live (obj_SetBalance y o t) b ≠ None)
    as Hset.
  { intros y. unfold obj_SetBalance, tewaka_of. rewrite live_set. simpl. rewrite Hao, Hd.
    destruct (decide (b = a)) as [->|Hne]; [|split; [exact Ht1|done]].
    split; [|done]. transitivity (tewaka_of t a k); [|exact Ht1]. unfold tewaka_of. by rewrite Hl. }
  destruct (x =? 0); [|naive_solver]. split; [|split; [|done]];
    (destruct (empty_ o); [|done]); unfold touch; by destruct (so_address o =? ripemd).
Qed.

End Balance.

(** ** Claims *)

(** States that [RevertToSnapshot] identifies answer every read the same
    way: balance, nonce, code, storage slot and refund counter. *)
Lemma eqv_same_reads {B : Backend} {BOk : BackendOk B} s1 s2 a k :
  eqv s1 s2 → inv s1 → inv s2 → valid_addr a →
  fst (GetBalance a s1) = fst (GetBalance a s2) ∧ fst (GetNonce a s1) = fst (GetNonce a s2) ∧
  fst (GetCode a s1) = fst (GetCode a s2) ∧ fst (sd_GetState a k s1) = fst (sd_GetState a k s2) ∧
  sd_refund s1 = sd_refund s2.
Proof.
  intros He H1 H2 Ha. rewrite !GetBalance_bal, !GetNonce_nonce by done.
  split; [by apply eqv_bal|]. split; [by apply eqv_nonce|]. split; [by apply eqv_GetCode|].
  split; [by apply eqv_GetState|apply (ev_refund _ _ He)].
Qed.

(** [AddBalance] and [SubBalance] change the balance of the named account
    by exactly the amount, leave every other account alone, and keep the
    state's invariant; the account is created when it is missing. *)
Lemma balance_ops_exact {B : Backend} {BOk : BackendOk B} a x s b :
  inv s → valid_addr a → valid_addr b →
  inv (AddBalance a x s) ∧ inv (SubBalance a x s) ∧
  fst (GetBalance b (AddBalance a x s)) = fst (GetBalance b s) + (if decide (b = a) then x else 0) ∧
  fst (GetBalance b (SubBalance a x s)) = fst (GetBalance b s) - (if decide (b = a) then x else 0).
Proof.
  intros Hi Ha Hb. pose proof (AddBalance_inv a x s Hi Ha) as H1. pose proof (SubBalance_inv a x s Hi Ha) as H2.
  rewrite !GetBalance_bal by done. rewrite AddBalance_bal, SubBalance_bal by done. done.
Qed.

