(* ===== verification/Transfer.v ===== *)
(** * Moving coins between accounts (core/evm.go)

    The transfer functions the block context hands to the EVM. *)
From S2P Require Import Prelude Common AccessList StateObject StateDB StateRevert StateBalance.

Section Transfer.
Context {B : Backend}.

Definition CanTransfer (a : address) (amount : Z) (s : StateDB) : bool * StateDB :=
  let '(have, s) := GetBalance a s in (0 <=? big_Cmp have amount, s).

Definition Transfer (sender recipient : address) (amount : Z) (s : StateDB) : StateDB :=
  AddBalance recipient amount (SubBalance sender amount s).

Context {BOk : BackendOk B}.

Lemma CanTransfer_iff a amount s :
  inv s → valid_addr a → fst (CanTransfer a amount s) = (amount <=? bal s a).
Proof.
  intros Hi Ha. unfold CanTransfer. pose proof (GetBalance_bal a s Hi Ha) as E.
  destruct (GetBalance a s) as [have t]. cbn [fst] in *. subst have. unfold big_Cmp.
  destruct (Z.ltb_spec (bal s a) amount), (Z.eqb_spec (bal s a) amount); cbn;
    destruct (Z.leb_spec amount (bal s a)); (done || lia).
Qed.

Lemma Transfer_bal sender recipient amount s b :
  inv s → valid_addr sender → valid_addr recipient →
  bal (Transfer sender recipient amount s) b = bal s b - add_at sender amount b + add_at recipient amount b.
Proof.
  intros Hi Hs Hr. unfold Transfer.
  by rewrite AddBalance_bal, SubBalance_bal by auto using SubBalance_inv.
Qed.

End Transfer.
