(* ===== verification/StateEffect.v ===== *)
(** * Effects on the state database

    [effect st s s']: the state went from [s] to [s'] by journaled operations,
    balanced snapshots and reverts, so that a snapshot taken before can be
    reverted to; under [st] the two states are related by a preorder of the
    client's choice ([Drift]) that contains "nothing a contract can observe of
    the accounts changed".  The EVM files show that every execution is such an effect. *)
From S2P Require Import Prelude Common AccessList StateObject Concrete StateDB StateRevert StateBalance Transfer.

Section Effect.
Context {B : Backend} {BOk : BackendOk B}.

Definition sound (s : StateDB) : Prop := inv s ∧ revs_ok s.

(** ** Accounts that read the same *)

(** An account that was there is unchanged; a new one is empty. *)
Definition acct_same (s s' : StateDB) (a : address) : Prop :=
  match live s a with
  | Some o => dflag s' a = dflag s a ∧ ∃ o', live s' a = Some o' ∧ obj_eq (sd_snap s) (dflag s a) o' o
  | None => live s' a = None ∨
      ∃ o', live s' a = Some o' ∧ obj_eq (sd_snap s) (dflag s' a) o' (newObject a 0 None 0 None)
  end.

Record unchanged (s s' : StateDB) : Prop := mkUnchanged {
  un_snap : sd_snap s' = sd_snap s;
  un_logs : sd_logs s' = sd_logs s;
  un_refund : sd_refund s' = sd_refund s;
  un_acct : ∀ a, valid_addr a → acct_same s s' a
}.

#[export] Instance unchanged_preorder : PreOrder unchanged.
Proof.
  split.
  - intros s. split; try done. intros a _. unfold acct_same. destruct (live s a) as [o|]; [|by left].
    split; [done|]. by exists o.
  - intros s1 s2 s3 [N1 L1 R1 A1] [N2 L2 R2 A2]. split; try congruence. intros a Ha.
    specialize (A1 a Ha). specialize (A2 a Ha). unfold acct_same in *. rewrite N1 in A2.
    destruct (live s1 a) as [o|].
    + destruct A1 as (D1 & o1 & H1 & E1). rewrite H1, D1 in A2. destruct A2 as (D2 & o2 & H2 & E2).
      split; [congruence|]. exists o2. split; [done|by etrans].
    + destruct A1 as [H1|(o1 & H1 & E1)]; rewrite H1 in A2; [done|].
      destruct A2 as (D2 & o2 & H2 & E2). right. exists o2. rewrite D2. split; [done|by etrans].
Qed.

Lemma eqv_unchanged s s' : eqv s' s → unchanged s s'.
Proof.
  intros Hev. split; [apply (ev_snap _ _ Hev)|apply (ev_logs _ _ Hev)|apply (ev_refund _ _ Hev)|].
  intros a Ha. pose proof (live_eqv s' s a Hev Ha) as H. destruct (eqv_flags _ _ a Hev) as [E1 E2].
  rewrite E1, E2 in H. unfold acct_same. destruct H as [o' o Ho|]; [|by left]. split; [done|]. by exists o'.
Qed.

(** Same objects, same logs and refunds. *)
Lemma same_views_unchanged s s' :
  sd_snap s' = sd_snap s → sd_logs s' = sd_logs s → sd_refund s' = sd_refund s →
  (∀ a, view s' a = view s a) → sd_snapDestructs s' = sd_snapDestructs s → unchanged s s'.
Proof.
  intros H1 H2 H3 Hv Hd. split; [done..|]. intros a Ha. unfold acct_same. rewrite (live_view_eq s' s a Hv).
  destruct (live s a) as [o|]; [|by left]. split; [|by exists o]. unfold dflag, destructed. by rewrite Hd.
Qed.

(** ** Effects *)

(** What an effect keeps where it is static: a preorder on states that every
    unchanged state stays within.  [unchanged] itself is one; so is agreement
    on a single observation, which is the one to take when a precompile may
    write elsewhere. *)
Class Drift := {
  drift : relation StateDB;
  drift_preorder :: PreOrder drift;
  drift_unchanged : ∀ s s', sound s → sound s' → unchanged s s' → drift s s'
}.
Context {D : Drift}.

Definition trace (s s' : StateDB) : Prop :=
  ∃ cs, Forall (op_ok (sd_nextRevisionId s - 1)) cs ∧ exec cs s = Ret s'.

Record effect (st : Prop) (s s' : StateDB) : Prop := mkEffect {
  ef_sound : sound s';
  ef_next : sd_nextRevisionId s ≤ sd_nextRevisionId s';
  ef_trace : trace s s';
  ef_refund : is_u64 (sd_refund s) → is_u64 (sd_refund s');
  ef_static : st → drift s s'
}.

Definition eff (st : Prop) (s s' : StateDB) : Prop := sound s → effect st s s'.

Lemma exec_app cs1 cs2 s : exec (cs1 ++ cs2) s = (do! s <- exec cs1 s; exec cs2 s).
Proof.
  revert s. induction cs1 as [|c cs1 IH]; intros s; [done|]. cbn [app exec].
  destruct (exec_op c s) as [t|]; [apply IH|done].
Qed.

Lemma op_ok_weaken b1 b2 c : b1 ≤ b2 → op_ok b2 c → op_ok b1 c.
Proof. intros Hb [H1 H2]. split; [done|]. destruct c; try done. lia. Qed.

#[export] Instance eff_preorder st : PreOrder (eff st).
Proof.
  split.
  - intros s Hs. split; try done. by exists [].
  - intros s1 s2 s3 H1 H2 Hs. destruct (H1 Hs) as [S1 N1 (cs1 & K1 & E1) R1 U1].
    destruct (H2 S1) as [S2 N2 (cs2 & K2 & E2) R2 U2].
    split; [done|lia| |auto|].
    + exists (cs1 ++ cs2). rewrite exec_app, E1. split; [|done]. apply Forall_app. split; [done|].
      eapply Forall_impl; [exact K2|]. intros c. apply op_ok_weaken. lia.
    + intros Hst. transitivity s2; auto.
Qed.

Lemma eff_weaken (st st' : Prop) s s' : (st' → st) → eff st s s' → eff st' s s'.
Proof. intros Hi H Hs. destruct (H Hs). split; auto. Qed.

Lemma good_revs s s' : revs_ok s → good s s' → revs_ok s'.
Proof.
  intros [K1 K2 K3] (_ & R & N & es & E & Ke & _). split.
  - rewrite E. by apply Forall_app.
  - by rewrite R.
  - rewrite R, N, E. eapply Forall_impl; [exact K3|]. simpl. intros r [H1 H2]. split; [done|].
    rewrite length_app. lia.
Qed.

(** A journaled operation is an effect. *)
Lemma eff_op (c : op) (st : Prop) s s' :
  (∀ a, op_addr c = Some a → valid_addr a) → (∀ id, c ≠ ORevert id) → c ≠ OSnapshot →
  exec_op c s = Ret s' → (is_u64 (sd_refund s) → is_u64 (sd_refund s')) → (inv s → st → unchanged s s') →
  eff st s s'.
Proof.
  intros Ha H1 H2 He Hr Hu [Hi Hrv].
  assert (op_ok (sd_nextRevisionId s - 1) c) as Hok by (split; [done|destruct c; try done; by destruct (H1 id)]).
  pose proof (exec_op_good _ c s s' Hi Hok H1 H2 He) as Hg.
  assert (sound s') as Hs' by (split; [by eapply good_inv|by eapply good_revs]).
  split; [done| | |done|intros Hst; by apply drift_unchanged; auto].
  - destruct Hg as (_ & _ & -> & _). done.
  - exists [c]. split; [by constructor|]. cbn [exec]. by rewrite He.
Qed.

(** An operation that journals nothing is a read. *)
Lemma good_eqv s s' : good s s' → entries (sd_journal s') = entries (sd_journal s) → eqv s' s.
Proof.
  intros (_ & _ & _ & es & E & _ & t & Hu & Ht) E'. rewrite E' in E.
  assert (es = []) as ->; [|by injection Hu as ->].
  rewrite <- (app_nil_r (entries _)) in E at 1. by apply app_inv_head in E.
Qed.

Lemma eff_read (c : op) (st : Prop) s s' :
  (∀ a, op_addr c = Some a → valid_addr a) → (∀ id, c ≠ ORevert id) → c ≠ OSnapshot →
  exec_op c s = Ret s' → entries (sd_journal s') = entries (sd_journal s) → eff st s s'.
Proof.
  intros Ha H1 H2 He Hj Hs.
  assert (op_ok (sd_nextRevisionId s - 1) c) as Hok by (split; [done|destruct c; try done; by destruct (H1 id)]).
  pose proof (good_eqv s s' (exec_op_good _ c s s' (proj1 Hs) Hok H1 H2 He) Hj) as E.
  revert Hs. apply (eff_op c); try done.
  - by rewrite (ev_refund _ _ E).
  - intros _ _. by apply eqv_unchanged.
Qed.

Lemma Snapshot_eqv s : eqv (snd (Snapshot s)) s.
Proof. by split. Qed.

Lemma eff_Snapshot (st : Prop) s : eff st s (snd (Snapshot s)).
Proof.
  intros [Hi [K1 K2 K3]].
  assert (coherent (sd_validRevisions s) [] s) as Hc.
  { split; try done. exists []. rewrite app_nil_r. by split. }
  apply coherent_snapshot in Hc as [I1 I2 I3 I4 _].
  assert (sound (snd (Snapshot s))) as Hs' by by split. split.
  - done.
  - cbn. lia.
  - exists [OSnapshot]. split; [|done]. by repeat constructor.
  - done.
  - intros _. apply drift_unchanged; [by split|done|]. apply eqv_unchanged, Snapshot_eqv.
Qed.

(** ** Balanced snapshot and revert *)

Lemma journal_revert_next n s s' : journal_revert n s = Ret s' → sd_nextRevisionId s' = sd_nextRevisionId s.
Proof.
  unfold journal_revert. destruct (undo _ s) as [t|] eqn:E; [|done]. apply undo_frame in E as (_ & _ & E).
  cbn [obind]. destruct (_ <? _)%nat; [done|]. by intros [= <-].
Qed.

Lemma RevertToSnapshot_next id s s' :
  RevertToSnapshot id s = Ret s' → sd_nextRevisionId s' = sd_nextRevisionId s.
Proof.
  intros H. apply RevertToSnapshot_inv in H as (k & r & t & _ & _ & Ej & ->). by apply journal_revert_next in Ej.
Qed.

(** Whatever happens in between, the revert succeeds and nothing is left. *)
Lemma eff_revert (st : Prop) s s2 :
  sound s → eff st (snd (Snapshot s)) s2 →
  ∃ s3, RevertToSnapshot (fst (Snapshot s)) s2 = Ret s3 ∧ eqv s3 s ∧ effect True s s3.
Proof.
  intros Hs H2. destruct (eff_Snapshot st s Hs) as [S1 _ _ _ _].
  destruct (H2 S1) as [S2 N2 (cs & Kcs & Ecs) _ _]. cbn in N2.
  assert (Forall (op_ok (fst (Snapshot s))) cs) as Kcs'.
  { eapply Forall_impl; [exact Kcs|]. intros c. apply op_ok_weaken. cbn. lia. }
  destruct (snapshot_revert s cs s2 (proj1 Hs) (proj2 Hs) Kcs' Ecs) as (s3 & E3 & V3 & I3 & R3).
  exists s3. split; [done|]. split; [done|]. split; [by split| | | |].
  - rewrite (RevertToSnapshot_next _ _ _ E3). lia.
  - exists (OSnapshot :: cs ++ [ORevert (fst (Snapshot s))]). split.
    + constructor; [by split|]. apply Forall_app. split.
      * eapply Forall_impl; [exact Kcs|]. intros c. apply op_ok_weaken. cbn. lia.
      * apply Forall_singleton. split; [done|]. cbn. lia.
    + cbn [exec exec_op obind]. rewrite exec_app, Ecs. cbn [exec exec_op obind]. by rewrite E3.
  - by rewrite (ev_refund _ _ V3).
  - intros _. apply drift_unchanged; [done|by split|]. by apply eqv_unchanged.
Qed.

(** ** Reads *)

Lemma eff_get (st : Prop) a s : valid_addr a → eff st s (snd (getStateObject a s)).
Proof.
  intros Ha. apply (eff_read (OGetAccount a)); try done; [by intros ? [= <-]|]. apply get_frame.
Qed.

Tactic Notation "account_read" reference(f) constr(a) constr(s) :=
  intros; eapply eq_ind; [by apply (eff_get _ a s)|unfold f; by destruct (getStateObject a s) as [[o|] t]].

Lemma eff_Exist (st : Prop) a s : valid_addr a → eff st s (snd (Exist a s)).
Proof. account_read Exist a s. Qed.
Lemma eff_Empty (st : Prop) a s : valid_addr a → eff st s (snd (Empty a s)).
Proof. account_read Empty a s. Qed.
Lemma eff_GetBalance (st : Prop) a s : valid_addr a → eff st s (snd (GetBalance a s)).
Proof. account_read GetBalance a s. Qed.
Lemma eff_GetNonce (st : Prop) a s : valid_addr a → eff st s (snd (GetNonce a s)).
Proof. account_read GetNonce a s. Qed.
Lemma eff_GetCodeHash (st : Prop) a s : valid_addr a → eff st s (snd (GetCodeHash a s)).
Proof. account_read GetCodeHash a s. Qed.
Lemma eff_HasSuicided (st : Prop) a s : valid_addr a → eff st s (snd (HasSuicided a s)).
Proof. account_read HasSuicided a s. Qed.

Lemma eff_CanTransfer (st : Prop) a x s : valid_addr a → eff st s (snd (CanTransfer a x s)).
Proof.
  intros Ha. unfold CanTransfer. pose proof (eff_GetBalance st a s Ha) as H. by destruct (GetBalance a s).
Qed.

Ltac object_read c a s :=
  intros; apply (eff_read c); try done; [by intros ? [= <-]|]; cbn [exec_op];
  rewrite <- (proj1 (get_frame a s)).

Lemma eff_GetCode (st : Prop) a s : valid_addr a → eff st s (snd (GetCode a s)).
Proof. object_read (OGetCode a) a s. unfold GetCode. destruct (getStateObject a s) as [[o|] t]; [by destruct (Code o)|done]. Qed.
Lemma eff_GetCodeSize (st : Prop) a s : valid_addr a → eff st s (snd (GetCodeSize a s)).
Proof.
  object_read (OGetCodeSize a) a s. unfold GetCodeSize.
  destruct (getStateObject a s) as [[o|] t]; [by destruct (CodeSize o)|done].
Qed.
Lemma eff_GetState (st : Prop) a k s : valid_addr a → eff st s (snd (sd_GetState a k s)).
Proof.
  object_read (OGetState a k) a s. unfold sd_GetState.
  destruct (getStateObject a s) as [[o|] t]; [by destruct (GetState _ _ o k)|done].
Qed.
Lemma eff_GetCommittedState (st : Prop) a k s : valid_addr a → eff st s (snd (sd_GetCommittedState a k s)).
Proof.
  object_read (OGetCommittedState a k) a s. unfold sd_GetCommittedState.
  destruct (getStateObject a s) as [[o|] t]; [by destruct (GetCommittedState _ _ o k)|done].
Qed.

(** ** Writes *)

(** What the object operations leave alone. *)
Lemma get_refund a s : sd_refund (snd (getDeletedStateObject a s)) = sd_refund s.
Proof.
  unfold getDeletedStateObject. destruct (sd_stateObjects s !! a); [done|].
  destruct (load _ _ _) as [[o|] [e|]]; try done. simpl. unfold sd_setError. by destruct (sd_dbErr s).
Qed.
Lemma getStateObject_refund a s : sd_refund (snd (getStateObject a s)) = sd_refund s.
Proof. rewrite getStateObject_eq. apply get_refund. Qed.
Lemma createObject_refund a s : sd_refund (snd (createObject a s)) = sd_refund s.
Proof.
  unfold createObject. pose proof (get_refund a s) as H. destruct (getDeletedStateObject a s) as [prev t].
  cbn [snd] in H. rewrite <- H. destruct (sd_snap t), prev as [p|]; try done. by destruct (destructed t _).
Qed.
Lemma GetOrNew_refund a s : sd_refund (snd (GetOrNewStateObject a s)) = sd_refund s.
Proof.
  unfold GetOrNewStateObject. pose proof (getStateObject_refund a s) as H.
  destruct (getStateObject a s) as [[o|] t]; cbn [snd] in *; [done|].
  pose proof (createObject_refund a t) as H'. destruct (createObject a t) as [[o p] u]. cbn [snd] in *. congruence.
Qed.

Lemma AddBalance_refund a x s : sd_refund (AddBalance a x s) = sd_refund s.
Proof.
  rewrite <- (GetOrNew_refund a s). unfold AddBalance. destruct (GetOrNewStateObject a s) as [o t]. cbn [snd].
  destruct (x =? 0); [|done]. destruct (empty_ o); [|done]. unfold touch. by destruct (_ =? _).
Qed.
Lemma SubBalance_refund a x s : sd_refund (SubBalance a x s) = sd_refund s.
Proof.
  rewrite <- (GetOrNew_refund a s). unfold SubBalance. destruct (GetOrNewStateObject a s) as [o t]. cbn [snd].
  by destruct (x =? 0).
Qed.
Lemma SetCode_refund a c s : sd_refund (SetCode a c s) = sd_refund s.
Proof.
  rewrite <- (GetOrNew_refund a s). unfold SetCode. destruct (GetOrNewStateObject a s) as [o t]. cbn [snd].
  by destruct (Code o).
Qed.
Lemma SetNonce_refund a n s : sd_refund (SetNonce a n s) = sd_refund s.
Proof. rewrite <- (GetOrNew_refund a s). unfold SetNonce. by destruct (GetOrNewStateObject a s) as [o t]. Qed.
Lemma SetState_refund a k v s : sd_refund (SetState a k v s) = sd_refund s.
Proof.
  rewrite <- (GetOrNew_refund a s). unfold SetState. destruct (GetOrNewStateObject a s) as [o t]. cbn [snd].
  destruct (so_fakeStorage o); [done|]. destruct (GetState _ _ o k) as [prev o']. by destruct (prev =? v).
Qed.
Lemma CreateAccount_refund a s : sd_refund (CreateAccount a s) = sd_refund s.
Proof.
  rewrite <- (createObject_refund a s). unfold CreateAccount. by destruct (createObject a s) as [[o [p|]] t].
Qed.
Lemma Suicide_refund a s : sd_refund (snd (Suicide a s)) = sd_refund s.
Proof.
  rewrite <- (getStateObject_refund a s). unfold Suicide. by destruct (getStateObject a s) as [[o|] t].
Qed.

(** Fetching or creating the object leaves the accounts as they were. *)
Lemma create_unchanged a s :
  inv s → valid_addr a → live s a = None →
  unchanged s (snd (createObject a s)) ∧ live (snd (createObject a s)) a = Some (newObject a 0 None 0 None).
Proof.
  intros Hi Ha Hl. unfold createObject.
  destruct (getDeleted_spec a s Ha (inv_objs_ok s Hi)) as (F & E & _ & _ & _ & V & _).
  destruct (getDeletedStateObject a s) as [prev t]; cbn [fst snd] in *.
  assert (unchanged s t) as Hst by by apply eqv_unchanged.
  assert (live t a = None) as Ht by (by rewrite (live_view_eq t s a V)).
  assert (∀ u e, (u = t ∨ ∃ p, prev = Some p ∧ u = sd_set_snapDestructs ({[so_addrHash p]} ∪ sd_snapDestructs t) t) →
    unchanged t (setStateObject (newObject a 0 None 0 None) (journal_append e u)) ∧
    live (setStateObject (newObject a 0 None 0 None) (journal_append e u)) a = Some (newObject a 0 None 0 None)) as Hgo.
  { intros u e Hu.
    assert (∀ b, live (setStateObject (newObject a 0 None 0 None) (journal_append e u)) b =
      if decide (b = a) then Some (newObject a 0 None 0 None) else live t b) as Hlive.
    { intros b. rewrite live_set, live_journal. cbn [so_address newObject so_deleted].
      destruct (decide (b = a)); [done|]. by destruct Hu as [->|(p & _ & ->)]. }
    split; [|by rewrite Hlive, decide_True].
    split; [by destruct Hu as [->|(p & _ & ->)]..|]. intros b Hb. unfold acct_same. rewrite Hlive.
    destruct (decide (b = a)) as [->|Hne].
    - rewrite Ht. right. by exists (newObject a 0 None 0 None).
    - destruct (live t b) as [o|]; [|by left]. split; [|by exists o]. rewrite dflag_set.
      destruct Hu as [->|(p & Hp & ->)]; [done|]. apply (dflag_other a b t p); try done.
      rewrite Hp in F. by destruct (inv_objs_ok s Hi a p Ha (eq_sym F)). }
  destruct (sd_snap t) as [sn|] eqn:Es, prev as [p|]; cbn [fst snd].
  - destruct (destructed t (so_addrHash p)); (split; [etrans; [exact Hst|]|]; apply Hgo; eauto).
  - split; [etrans; [exact Hst|]|]; apply Hgo; eauto.
  - split; [etrans; [exact Hst|]|]; apply Hgo; eauto.
  - split; [etrans; [exact Hst|]|]; apply Hgo; eauto.
Qed.

Lemma GetOrNew_unchanged a s : inv s → valid_addr a → unchanged s (snd (GetOrNewStateObject a s)).
Proof.
  intros Hi Ha. unfold GetOrNewStateObject.
  destruct (getStateObject_spec a s Ha (inv_objs_ok s Hi)) as (F & E & _ & _ & _ & V & _).
  destruct (getStateObject a s) as [[o|] t]; cbn [fst snd] in *; [by apply eqv_unchanged|].
  assert (inv t) as Hit by by eapply inv_eqv.
  destruct (create_unchanged a t Hit Ha) as [H _]; [by rewrite (live_view_eq t s a V)|].
  destruct (createObject a t) as [[o p] u]. cbn [snd] in *. etrans; [by apply eqv_unchanged|exact H].
Qed.

Lemma AddBalance_zero_unchanged a s : inv s → valid_addr a → unchanged s (AddBalance a 0 s).
Proof.
  intros Hi Ha. pose proof (GetOrNew_unchanged a s Hi Ha) as H. unfold AddBalance.
  destruct (GetOrNewStateObject a s) as [o t]. cbn [snd Z.eqb] in *.
  destruct (empty_ o); [|done]. etrans; [exact H|]. unfold touch.
  destruct (_ =? _); by apply same_views_unchanged.
Qed.
Lemma SubBalance_zero_unchanged a s : inv s → valid_addr a → unchanged s (SubBalance a 0 s).
Proof.
  intros Hi Ha. pose proof (GetOrNew_unchanged a s Hi Ha) as H. unfold SubBalance.
  by destruct (GetOrNewStateObject a s) as [o t].
Qed.
Lemma CreateAccount_unchanged a s : inv s → valid_addr a → live s a = None → unchanged s (CreateAccount a s).
Proof.
  intros Hi Ha Hl. destruct (create_unchanged a s Hi Ha Hl) as [H _]. unfold CreateAccount.
  pose proof (createObject_good a s Hi Ha) as Hg. rewrite Hl in Hg.
  destruct (createObject a s) as [[o p] t]. destruct Hg as (_ & _ & _ & _ & ->). exact H.
Qed.

Lemma is_u64_eq x y : x = y → is_u64 y → is_u64 x.
Proof. by intros ->. Qed.

(** The reads before a snapshot, exactly. *)
Lemma CanTransfer_eqv a x s : inv s → valid_addr a → eqv (snd (CanTransfer a x s)) s.
Proof.
  intros Hi Ha. unfold CanTransfer, GetBalance.
  destruct (getStateObject_spec a s Ha (inv_objs_ok s Hi)) as (_ & E & _). by destruct (getStateObject a s).
Qed.
Lemma GetNonce_eqv a s : inv s → valid_addr a → eqv (snd (GetNonce a s)) s.
Proof.
  intros Hi Ha. unfold GetNonce.
  destruct (getStateObject_spec a s Ha (inv_objs_ok s Hi)) as (_ & E & _). by destruct (getStateObject a s).
Qed.
Lemma GetCodeHash_eqv a s : inv s → valid_addr a → eqv (snd (GetCodeHash a s)) s.
Proof.
  intros Hi Ha. unfold GetCodeHash.
  destruct (getStateObject_spec a s Ha (inv_objs_ok s Hi)) as (_ & E & _). by destruct (getStateObject a s).
Qed.
Lemma Exist_live a s : fst (Exist a s) = false → live (snd (Exist a s)) a = None.
Proof.
  unfold Exist, getStateObject, getDeletedStateObject, live. destruct (sd_stateObjects s !! a) as [o|] eqn:Eo.
  { destruct (so_deleted o) eqn:Ed; [|done]. cbn. intros _. rewrite (view_live a o s Eo). by rewrite Ed. }
  pose proof (load_addr (sd_snap s) (sd_trie s) a) as Hload.
  destruct (load (sd_snap s) (sd_trie s) a) as [[o|] e] eqn:El; cbn [fst snd] in *.
  - destruct (Hload o eq_refl) as [Haddr _]. destruct (so_deleted o) eqn:Ed; [|done]. cbn [fst snd]. intros _.
    rewrite view_set, Haddr, decide_True by done. by rewrite Ed.
  - intros _. assert (view s a = None) as Hv by (unfold view; by rewrite Eo, El).
    destruct e; cbn [fst snd]; [|by rewrite Hv]. unfold sd_setError. destruct (sd_dbErr s); [by rewrite Hv|].
    by change (view (sd_set_dbErr ?x s) a) with (view s a); rewrite Hv.
Qed.

Ltac op_tac c := apply (eff_op c); try done; try (by intros ? [= <-]).

Lemma eff_AddBalance (st : Prop) a x s : valid_addr a → (st → x = 0) → eff st s (AddBalance a x s).
Proof.
  intros Ha Hx. op_tac (OAddBalance a x); [apply is_u64_eq, AddBalance_refund|].
  intros Hi Hst. rewrite (Hx Hst). by apply AddBalance_zero_unchanged.
Qed.
Lemma eff_SubBalance (st : Prop) a x s : valid_addr a → (st → x = 0) → eff st s (SubBalance a x s).
Proof.
  intros Ha Hx. op_tac (OSubBalance a x); [apply is_u64_eq, SubBalance_refund|].
  intros Hi Hst. rewrite (Hx Hst). by apply SubBalance_zero_unchanged.
Qed.
Lemma eff_Transfer (st : Prop) a b x s : valid_addr a → valid_addr b → (st → x = 0) → eff st s (Transfer a b x s).
Proof.
  intros Ha Hb Hx. unfold Transfer. transitivity (SubBalance a x s); [by apply eff_SubBalance|by apply eff_AddBalance].
Qed.
Lemma eff_CreateAccount (st : Prop) a s :
  valid_addr a → (st → live s a = None) → eff st s (CreateAccount a s).
Proof.
  intros Ha Hl. op_tac (OCreateAccount a); [apply is_u64_eq, CreateAccount_refund|].
  intros Hi Hst. apply CreateAccount_unchanged; auto.
Qed.
Lemma eff_SetNonce a n s : valid_addr a → eff False s (SetNonce a n s).
Proof. intros Ha. op_tac (OSetNonce a n). apply is_u64_eq, SetNonce_refund. Qed.
Lemma eff_SetCode a c s : valid_addr a → eff False s (SetCode a c s).
Proof. intros Ha. op_tac (OSetCode a c). apply is_u64_eq, SetCode_refund. Qed.
Lemma eff_SetState a k v s : valid_addr a → eff False s (SetState a k v s).
Proof. intros Ha. op_tac (OSetState a k v). apply is_u64_eq, SetState_refund. Qed.
Lemma eff_Suicide a s : valid_addr a → eff False s (snd (Suicide a s)).
Proof. intros Ha. op_tac (OSuicide a). apply is_u64_eq, Suicide_refund. Qed.
Lemma eff_AddLog l s : eff False s (AddLog l s).
Proof. by op_tac (OAddLog l). Qed.
Lemma eff_AddPreimage (st : Prop) h b s : eff st s (AddPreimage h b s).
Proof.
  op_tac (OAddPreimage h b); unfold AddPreimage; (destruct (sd_preimages s !! h); [done|]); [done|].
  intros _ _. by apply same_views_unchanged.
Qed.
Lemma eff_AddRefund g s : eff False s (AddRefund g s).
Proof. op_tac (OAddRefund g). intros _. apply wrap_range. lia. Qed.
Lemma eff_SubRefund g s s' : 0 ≤ g → SubRefund g s = Ret s' → eff False s s'.
Proof.
  intros Hg E. op_tac (OSubRefund g). unfold SubRefund in E. simpl in E.
  destruct (Z.ltb_spec (sd_refund s) g); [done|]. injection E as <-. unfold is_u64, in_w. cbn. lia.
Qed.
Lemma eff_AddAddress (st : Prop) a s : eff st s (AddAddressToAccessList a s).
Proof.
  op_tac (OAddAddress a); unfold AddAddressToAccessList; destruct (AddAddress _ a) as [[|] al]; try done;
    intros _ _; by apply same_views_unchanged.
Qed.
Lemma eff_AddSlot (st : Prop) a k s s' : AddSlotToAccessList a k s = Ret s' → eff st s s'.
Proof.
  intros E. assert (∃ al j, s' = sd_set_journal j (sd_set_accessList al s)) as (al & j & ->).
  { revert E. unfold AddSlotToAccessList. destruct (AddSlot _ a k) as [[[ac sc] al]|]; [|done]. cbn [obind].
    intros [= <-]. exists al. destruct ac, sc; eexists; destruct s; reflexivity. }
  op_tac (OAddSlot a k). intros _ _. by apply same_views_unchanged.
Qed.

(** ** What contracts can see *)

Lemma unchanged_bal s s' a : unchanged s s' → valid_addr a → bal s' a = bal s a ∧ nonce_of s' a = nonce_of s a.
Proof.
  intros [_ _ _ H] Ha. specialize (H a Ha). unfold acct_same, bal, nonce_of in *. destruct (live s a) as [o|].
  - destruct H as (_ & o' & -> & E). by rewrite (oe_data _ _ _ _ E).
  - destruct H as [->|(o' & -> & E)]; [done|]. by rewrite (oe_data _ _ _ _ E).
Qed.

Lemma GetCode_view a s :
  inv s → valid_addr a → fst (GetCode a s) = match live s a with Some o => code_view o | None => None end.
Proof.
  intros Hi Ha. unfold GetCode. destruct (getStateObject_good a s Hi Ha) as (_ & F & _). rewrite <- F.
  destruct (getStateObject a s) as [[o|] t]; [|done]. cbn [fst].
  destruct (Code_spec None false o) as [C _]. by destruct (Code o).
Qed.

Lemma unchanged_code s s' a :
  unchanged s s' → inv s → inv s' → valid_addr a → fst (GetCode a s') = fst (GetCode a s).
Proof.
  intros [_ _ _ H] Hi Hi' Ha. specialize (H a Ha). rewrite !GetCode_view by done. unfold acct_same in H.
  destruct (live s a) as [o|].
  - destruct H as (_ & o' & -> & E). apply (oe_code _ _ _ _ E).
  - destruct H as [->|(o' & -> & E)]; [done|]. rewrite (oe_code _ _ _ _ E). unfold code_view. cbn.
    by rewrite bool_decide_true.
Qed.

Lemma unchanged_state s s' a k :
  unchanged s s' → inv s → inv s' → valid_addr a → live s a ≠ None → fst (sd_GetState a k s') = fst (sd_GetState a k s).
Proof.
  intros [N _ _ H] Hi Hi' Ha Hl. specialize (H a Ha). rewrite !GetState_view by done. unfold acct_same in H.
  destruct (live s a) as [o|]; [|done]. destruct H as (Hd & o' & -> & E). rewrite N, Hd. apply (oe_state _ _ _ _ E).
Qed.

Lemma unchanged_tewaka s s' a k :
  unchanged s s' → valid_addr a → live s a ≠ None → tewaka_of s' a k = tewaka_of s a k.
Proof.
  intros [N _ _ H] Ha Hl. specialize (H a Ha). unfold acct_same, tewaka_of in *.
  destruct (live s a) as [o|]; [|done]. destruct H as (_ & o' & -> & E). apply (oe_tewaka _ _ _ _ E).
Qed.

End Effect.

(** Static effects that change nothing. *)
Definition still_drift `{BOk : BackendOk} : Drift := {|
  drift := unchanged; drift_preorder := unchanged_preorder; drift_unchanged _ _ _ _ H := H
|}.

(** Effects that need not be static are the same for every preorder. *)
Lemma eff_any `{BOk : BackendOk} (D1 D2 : Drift) s s' : @eff _ D1 False s s' → @eff _ D2 False s s'.
Proof. intros H Hs. by destruct (H Hs). Qed.
