(* ===== verification/EvmWord.v ===== *)
(** * Words, stack and memory of the EVM (core/vm/common.go, stack.go, memory.go)

    A [uint256.Int] is a [Z] below [2^256].  Its arithmetic is a third-party
    package: the class [Uint256] with the range of its results as [Uint256Ok];
    conversions (bytes, [uint64], [big.Int]) are the number itself.  The stack
    is a list with its top first; the memory is a byte list with the fee paid
    for it. *)
From S2P Require Import Prelude Common.
Import Bytes.

(** ** 256-bit words *)

Class Uint256 := {
  u_Add : Z → Z → Z;
  u_Sub : Z → Z → Z;
  u_Mul : Z → Z → Z;
  u_Div : Z → Z → Z;
  u_SDiv : Z → Z → Z;
  u_Mod : Z → Z → Z;
  u_SMod : Z → Z → Z;
  u_Exp : Z → Z → Z;
  u_ExtendSign : Z → Z → Z;
  u_Not : Z → Z;
  u_Slt : Z → Z → bool;
  u_Sgt : Z → Z → bool;
  u_And : Z → Z → Z;
  u_Or : Z → Z → Z;
  u_Xor : Z → Z → Z;
  u_Byte : Z → Z → Z;
  u_AddMod : Z → Z → Z → Z;
  u_MulMod : Z → Z → Z → Z;
  u_Lsh : Z → Z → Z;
  u_Rsh : Z → Z → Z;
  u_SRsh : Z → Z → Z
}.

(** Every result is a 256-bit word. *)
Class Uint256Ok (U : Uint256) : Prop := {
  u2_range : ∀ f x y, f ∈ [u_Add; u_Sub; u_Mul; u_Div; u_SDiv; u_Mod; u_SMod; u_Exp; u_ExtendSign;
                            u_And; u_Or; u_Xor; u_Byte; u_Lsh; u_Rsh; u_SRsh] →
    is_u256 x → is_u256 y → is_u256 (f x y);
  u3_range : ∀ f x y z, f ∈ [u_AddMod; u_MulMod] → is_u256 x → is_u256 y → is_u256 z → is_u256 (f x y z);
  u1_range : ∀ x, is_u256 x → is_u256 (u_Not x)
}.

(** [IsUint64], [Uint64] (the low word) and [Uint64WithOverflow]. *)
Definition IsUint64 (x : Z) : bool := x <? 2 ^ 64.
Definition Uint64 (x : Z) : Z := u64 x.
Definition Uint64WithOverflow (x : Z) : Z * bool := (u64 x, negb (IsUint64 x)).
(** [Bytes20] as an address and [SetBytes] of at most 32 low bytes. *)
Definition Bytes20 (x : Z) : address := wrap 160 x.
Definition SetBytes (b : bytes) : Z := u256 (be_decode b).
(** [SetFromBig], [FromBig]: the low 256 bits. *)
Definition FromBig (x : Z) : Z := u256 x.

(** ** common.go *)

Definition calcMemSize64WithUint (off length64 : Z) : Z * bool :=
  if length64 =? 0 then (0, false)
  else
    let '(offset64, overflow) := Uint64WithOverflow off in
    if overflow then (0, true)
    else let val := u64 (offset64 + length64) in (val, val <? offset64).

Definition calcMemSize64 (off l : Z) : Z * bool :=
  if negb (IsUint64 l) then (0, true) else calcMemSize64WithUint off (Uint64 l).

(** [data[start:end]] panics when [start > end]. *)
Definition getData (data : bytes) (start size : Z) : outcome bytes :=
  let length := zlen data in
  let start := if length <? start then length else start in
  let end_ := u64 (start + size) in
  let end_ := if length <? end_ then length else end_ in
  if end_ <? start then Panic else Ret (RightPadBytes (slice data start end_) (i64 size)).

Definition toWordSize (size : Z) : Z :=
  if MaxUint64 - 31 <? size then MaxUint64 / 32 + 1 else u64 (size + 31) / 32.

Definition allZero (b : bytes) : bool := forallb (Z.eqb 0) b.

(** ** stack.go

    The operations that index the stack give [None] out of range, where Go
    panics. *)

Abbreviation Stack := (list Z) (only parsing).

Definition push (d : Z) (st : Stack) : Stack := d :: st.

Definition pop (st : Stack) : option (Z * Stack) :=
  match st with x :: st => Some (x, st) | [] => None end.

(** [swap(n)]: the top with the item at [len-n]. *)
Definition swap (n : Z) (st : Stack) : option Stack :=
  let i := Z.to_nat (n - 1) in
  match st !! i, st !! 0%nat with
  | Some x, Some y => Some (<[0%nat := x]> (<[i := y]> st))
  | _, _ => None
  end.

Definition dup (n : Z) (st : Stack) : option Stack :=
  match st !! Z.to_nat (n - 1) with Some x => Some (push x st) | None => None end.

Definition Back (n : nat) (st : Stack) : option Z := st !! n.
Definition peek (st : Stack) : option Z := Back 0 st.

(** ** memory.go *)

Record Memory := mkMemory { store : bytes; lastGasCost : Z }.

Definition NewMemory : Memory := mkMemory [] 0.
Definition mem_Len (m : Memory) : Z := zlen (store m).

(** [copy(l[offset:], value)] where the destination has [size] bytes. *)
Definition copy_at (offset size : Z) (value l : bytes) : bytes :=
  let v := take (Z.to_nat size) value in
  take (Z.to_nat offset) l ++ v ++ drop (Z.to_nat (offset + zlen v)) l.

(** [store[offset:offset+size]] also panics when the sum wrapped around. *)
Definition mem_Set (offset size : Z) (value : bytes) (m : Memory) : outcome Memory :=
  if 0 <? size then
    let end_ := u64 (offset + size) in
    if (mem_Len m <? end_) || (end_ <? offset) then Panic
    else Ret (mkMemory (copy_at offset size value (store m)) (lastGasCost m))
  else Ret m.

Definition mem_Set32 (offset val : Z) (m : Memory) : outcome Memory :=
  let end_ := u64 (offset + 32) in
  if (mem_Len m <? end_) || (end_ <? offset) then Panic
  else
    let zeroed := copy_at offset 32 (replicate 32 0) (store m) in
    Ret (mkMemory (copy_at offset 32 (be_fixed 32 val) zeroed) (lastGasCost m)).

Definition mem_Resize (size : Z) (m : Memory) : Memory :=
  if mem_Len m <? size
  then mkMemory (store m ++ replicate (Z.to_nat (size - mem_Len m)) 0) (lastGasCost m)
  else m.

(** [GetCopy] and [GetPtr] take signed arguments; a negative or too large
    slice panics (the spare capacity of the store is not modelled). *)
Definition mem_Get (offset size : Z) (m : Memory) : outcome bytes :=
  if size =? 0 then Ret []
  else if offset <? mem_Len m then
    if (size <? 0) || (offset <? 0) || (mem_Len m <? offset + size) then Panic
    else Ret (slice (store m) offset (offset + size))
  else Ret [].
Definition GetCopy := mem_Get.
Definition GetPtr := mem_Get.

(** ** Lemmas *)

Lemma Bytes20_range x : 0 ≤ Bytes20 x < 2 ^ 160.
Proof. apply wrap_range. lia. Qed.

Lemma SetBytes_range b : is_u256 (SetBytes b).
Proof. apply wrap_range. lia. Qed.

Lemma length_copy_at offset size value l :
  0 ≤ offset → 0 ≤ size → offset + size ≤ zlen l → zlen (copy_at offset size value l) = zlen l.
Proof.
  intros. unfold copy_at, zlen in *.
  rewrite !length_app, !length_take, length_drop. lia.
Qed.

Lemma mem_Resize_Len size m : mem_Len (mem_Resize size m) = Z.max size (mem_Len m).
Proof.
  unfold mem_Resize. destruct (Z.ltb_spec (mem_Len m) size); [|lia].
  unfold mem_Len in *; simpl. rewrite zlen_app. unfold zlen at 2. rewrite length_replicate. lia.
Qed.

Lemma mem_Set_Len offset size value m m' :
  is_u64 offset → is_u64 size → mem_Set offset size value m = Ret m' → mem_Len m' = mem_Len m ∧ lastGasCost m' = lastGasCost m.
Proof.
  unfold mem_Set. intros Ho Hz. destruct (Z.ltb_spec 0 size); [|by intros [= <-]].
  destruct (Z.ltb_spec (mem_Len m) (u64 (offset + size))); [done|].
  destruct (Z.ltb_spec (u64 (offset + size)) offset); [done|]. simpl. intros [= <-]. split; [|done].
  unfold mem_Len in *; simpl. unfold copy_at, zlen in *.
  rewrite !length_app, !length_take, length_drop. go_lia.
Qed.

(** ** The documented arithmetic

    An instance of the interface by the definitions its documentation gives;
    used to run the interpreter on concrete code. *)

Definition signed (x : Z) : Z := if x <? 2 ^ 255 then x else x - 2 ^ 256.

#[export] Instance DocUint256 : Uint256 := {|
  u_Add x y := u256 (x + y);
  u_Sub x y := u256 (x - y);
  u_Mul x y := u256 (x * y);
  u_Div x y := u256 (x / y);
  u_SDiv x y := u256 (Z.quot (signed x) (signed y));
  u_Mod x y := if y =? 0 then 0 else u256 (x mod y);
  u_SMod x y := if y =? 0 then 0 else u256 (Z.rem (signed x) (signed y));
  u_Exp x y := u256 (fst (GoMath.Exp x y));
  u_ExtendSign x b := if b <? 31 then
    let w := 8 * (b + 1) in
    u256 (if Z.testbit x (w - 1) then wrap w x - 2 ^ w else wrap w x) else x;
  u_Not x := 2 ^ 256 - 1 - x;
  u_Slt x y := signed x <? signed y;
  u_Sgt x y := signed y <? signed x;
  u_And x y := u256 (Z.land x y);
  u_Or x y := u256 (Z.lor x y);
  u_Xor x y := u256 (Z.lxor x y);
  u_Byte x n := if n <? 32 then u256 (Z.shiftr x (8 * (31 - n)) mod 256) else 0;
  u_AddMod x y m := if m =? 0 then 0 else u256 ((x + y) mod m);
  u_MulMod x y m := if m =? 0 then 0 else u256 ((x * y) mod m);
  u_Lsh x n := u256 (Z.shiftl x n);
  u_Rsh x n := u256 (Z.shiftr x n);
  u_SRsh x n := u256 (Z.shiftr (signed x) n)
|}.

#[export] Instance DocUint256Ok : Uint256Ok DocUint256.
Proof.
  assert (∀ x, is_u256 (u256 x)) as Hr by (intros x; apply wrap_range; lia).
  assert (is_u256 0) as H0 by (split; lia).
  split.
  - intros f x y Hf Hx Hy.
    repeat (apply elem_of_cons in Hf as [->|Hf]); [..|by apply not_elem_of_nil in Hf];
      cbn; repeat case_match; auto.
  - intros f x y z Hf _ _ _.
    repeat (apply elem_of_cons in Hf as [->|Hf]); [..|by apply not_elem_of_nil in Hf];
      cbn; repeat case_match; auto.
  - intros x Hx. cbn. unfold in_w in *. lia.
Qed.
