(* ===== verification/EvmAnalysis.v ===== *)
(** * Jump-destination analysis (core/vm/analysis.go)

    The bit vector that tells opcodes from push data, built eight and sixteen
    bits at a time, and its equivalence with a byte-by-byte scan of the code. *)
From S2P Require Import Prelude.

(** [bitvec]: an index out of range panics. *)
Abbreviation bitvec := (list Z) (only parsing).

Definition PUSH1 : Z := 0x60.
Definition PUSH32 : Z := 0x7f.

Definition bits_lookup : list Z := [0x80; 0x40; 0x20; 0x10; 0x8; 0x4; 0x2; 0x1].

(** [bits[i] |= v] and [bits[i] = v]. *)
Definition or_at (i v : Z) (bits : bitvec) : outcome bitvec :=
  match bits !! Z.to_nat i with
  | Some b => Ret (<[Z.to_nat i := Z.lor b v]> bits)
  | None => Panic
  end.
Definition set_at (i v : Z) (bits : bitvec) : outcome bitvec :=
  match bits !! Z.to_nat i with
  | Some _ => Ret (<[Z.to_nat i := v]> bits)
  | None => Panic
  end.

Definition set1 (pos : Z) (bits : bitvec) : outcome bitvec :=
  or_at (pos / 8) (default 0 (bits_lookup !! Z.to_nat (pos mod 8))) bits.

Definition setN (flag pos : Z) (bits : bitvec) : outcome bitvec :=
  let a := Z.shiftr flag (pos mod 8) in
  do! bits <- or_at (pos / 8) (u8 (Z.shiftr a 8)) bits;
  let b := u8 a in
  if b =? 0 then Ret bits else set_at (pos / 8 + 1) b bits.

Definition set8 (pos : Z) (bits : bitvec) : outcome bitvec :=
  let a := u8 (Z.shiftr 0xFF (pos mod 8)) in
  do! bits <- or_at (pos / 8) a bits;
  set_at (pos / 8 + 1) (Z.lxor 0xFF a) bits.

Definition set16 (pos : Z) (bits : bitvec) : outcome bitvec :=
  let a := u8 (Z.shiftr 0xFF (pos mod 8)) in
  do! bits <- or_at (pos / 8) a bits;
  do! bits <- set_at (pos / 8 + 1) 0xFF bits;
  set_at (pos / 8 + 2) (Z.lxor 0xFF a) bits.

Definition codeSegment (bits : bitvec) (pos : Z) : outcome bool :=
  match bits !! Z.to_nat (pos / 8) with
  | Some b => Ret (Z.land b (Z.shiftr 0x80 (pos mod 8)) =? 0)
  | None => Panic
  end.

(** [setkBitsMask]: the [k] high bits of a [uint16]. *)
Definition bits_mask (k : Z) : Z :=
  if k =? 2 then 0xC000 else if k =? 3 then 0xE000 else if k =? 4 then 0xF000
  else if k =? 5 then 0xF800 else if k =? 6 then 0xFC00 else 0xFE00.

(** [for ; numbits >= w; numbits -= w]; a PUSH has at most 32 bytes. *)
Fixpoint set_chunks (fuel : nat) (w : Z) (set : Z → bitvec → outcome bitvec) (numbits pc : Z) (bits : bitvec)
    : outcome (Z * Z * bitvec) :=
  match fuel with
  | O => Ret (numbits, pc, bits)
  | S fuel =>
      if w <=? numbits then
        do! bits <- set pc bits;
        set_chunks fuel w set (numbits - w) (pc + w) bits
      else Ret (numbits, pc, bits)
  end.

Definition set_push (numbits pc : Z) (bits : bitvec) : outcome (Z * bitvec) :=
  do! (numbits, pc, bits) <-
    (if 8 <=? numbits then
       do! (numbits, pc, bits) <- set_chunks 2 16 set16 numbits pc bits;
       set_chunks 2 8 set8 numbits pc bits
     else Ret (numbits, pc, bits));
  if numbits =? 1 then do! bits <- set1 pc bits; Ret (pc + 1, bits)
  else if (2 <=? numbits) && (numbits <=? 7) then
    do! bits <- setN (bits_mask numbits) pc bits; Ret (pc + numbits, bits)
  else Ret (pc, bits).

(** Each round consumes a byte of code, so [length code] rounds are enough. *)
Fixpoint codeBitmap_loop (fuel : nat) (code : bytes) (pc : Z) (bits : bitvec) : outcome bitvec :=
  match fuel with
  | O => Ret bits
  | S fuel =>
      match code !! Z.to_nat pc with
      | None => Ret bits
      | Some op =>
          let pc := pc + 1 in
          if (op <? PUSH1) || (PUSH32 <? op) then codeBitmap_loop fuel code pc bits
          else
            do! (pc, bits) <- set_push (op - PUSH1 + 1) pc bits;
            codeBitmap_loop fuel code pc bits
      end
  end.

Definition codeBitmapInternal (code : bytes) (bits : bitvec) : outcome bitvec :=
  codeBitmap_loop (length code) code 0 bits.

Definition codeBitmap (code : bytes) : outcome bitvec :=
  codeBitmapInternal code (replicate (Z.to_nat (zlen code / 8 + 1 + 4)) 0).

(** ** The reference: scan byte by byte, skipping push data *)

Fixpoint push_data (skip : nat) (code : bytes) : list bool :=
  match code with
  | [] => []
  | op :: code =>
      match skip with
      | S skip => true :: push_data skip code
      | O => false :: push_data (if (op <? PUSH1) || (PUSH32 <? op) then 0 else Z.to_nat (op - PUSH1 + 1)) code
      end
  end.

(** ** Bits of a bit vector *)

Definition bit (bits : bitvec) (i : Z) : bool :=
  Z.testbit (default 0 (bits !! Z.to_nat (i / 8))) (7 - i mod 8).

Lemma or_at_ret i v bits :
  0 ≤ i < zlen bits → or_at i v bits = Ret (<[Z.to_nat i := Z.lor (default 0 (bits !! Z.to_nat i)) v]> bits).
Proof.
  intros Hi. unfold or_at. destruct (bits !! Z.to_nat i) eqn:E; [done|].
  apply lookup_ge_None in E. unfold zlen in Hi. lia.
Qed.

Lemma set_at_ret i v bits : 0 ≤ i < zlen bits → set_at i v bits = Ret (<[Z.to_nat i := v]> bits).
Proof.
  intros Hi. unfold set_at. destruct (bits !! Z.to_nat i) eqn:E; [done|].
  apply lookup_ge_None in E. unfold zlen in Hi. lia.
Qed.

Lemma bit_insert bits j v i :
  0 ≤ i → 0 ≤ j < zlen bits →
  bit (<[Z.to_nat j := v]> bits) i = if decide (i / 8 = j) then Z.testbit v (7 - i mod 8) else bit bits i.
Proof.
  intros Hi Hj. unfold bit. destruct (decide (i / 8 = j)) as [->|Hne].
  - rewrite list_lookup_insert_eq; [done|]. unfold zlen in Hj. lia.
  - rewrite list_lookup_insert_ne; [done|]. intros E. apply Hne.
    assert (0 ≤ i / 8) by (apply Z.div_pos; lia). lia.
Qed.

Lemma zlen_insert {A} (l : list A) n x : zlen (<[n := x]> l) = zlen l.
Proof. unfold zlen. by rewrite length_insert. Qed.

(** [bits'] adds the bits [pos, pos+n) to [bits]. *)
Definition adds (bits : bitvec) (pos n : Z) (bits' : bitvec) : Prop :=
  zlen bits' = zlen bits ∧ ∀ i, 0 ≤ i → bit bits' i = bit bits i || ((pos <=? i) && (i <? pos + n)).

(** Nothing is set from [pos] on. *)
Definition fresh (bits : bitvec) (pos : Z) : Prop := ∀ i, pos ≤ i → bit bits i = false.

(** The bytes the setters write, checked for every alignment. *)
Definition align_ok (n hi lo : Z → Z) (p : Z) : bool :=
  forallb (λ r : Z, eqb (Z.testbit (hi p) (7 - r)) ((p <=? r) && (r <? p + n p)) &&
                    eqb (Z.testbit (lo p) (7 - r)) (r + 8 <? p + n p)) (seqZ 0 8).

Lemma align_bits n hi lo p r :
  align_ok n hi lo p = true → 0 ≤ r < 8 →
  Z.testbit (hi p) (7 - r) = ((p <=? r) && (r <? p + n p)) ∧ Z.testbit (lo p) (7 - r) = (r + 8 <? p + n p).
Proof.
  unfold align_ok. rewrite forallb_forall. intros H Hr. specialize (H r).
  destruct (andb_prop _ _ (H ltac:(apply list_elem_of_In, elem_of_seqZ; lia))) as [H1 H2].
  by apply eqb_prop in H1, H2.
Qed.

(** Two neighbouring bytes: or into the first, assign the second. *)
Lemma adds_two bits pos n hi lo :
  0 ≤ pos → pos / 8 + 1 < zlen bits → fresh bits pos → n ≤ 8 →
  align_ok (λ _, n) (λ _, hi) (λ _, lo) (pos mod 8) = true →
  adds bits pos n (<[Z.to_nat (pos / 8 + 1) := lo]>
                    (<[Z.to_nat (pos / 8) := Z.lor (default 0 (bits !! Z.to_nat (pos / 8))) hi]> bits)).
Proof.
  intros Hp Hl Hf Hn Hal. split; [by rewrite !zlen_insert|]. intros i Hi.
  assert (0 ≤ pos / 8) by (apply Z.div_pos; lia).
  rewrite bit_insert by (rewrite ?zlen_insert; lia). rewrite bit_insert by lia.
  destruct (align_bits _ _ _ _ (i mod 8) Hal) as [H1 H2]; [apply Z.mod_pos_bound; lia|].
  destruct (decide (i / 8 = pos / 8 + 1)) as [E|E]; [|destruct (decide (i / 8 = pos / 8)) as [E'|E']].
  - rewrite H2, Hf by (Z.to_euclidean_division_equations; lia). rewrite orb_false_l.
    apply eq_true_iff_eq. rewrite andb_true_iff, Z.leb_le, !Z.ltb_lt.
    Z.to_euclidean_division_equations. lia.
  - rewrite Z.lor_spec, H1. unfold bit. rewrite E'. f_equal.
    apply eq_true_iff_eq. rewrite !andb_true_iff, !Z.leb_le, !Z.ltb_lt.
    Z.to_euclidean_division_equations. lia.
  - replace ((pos <=? i) && (i <? pos + n)) with false; [by rewrite orb_false_r|].
    symmetry. apply not_true_iff_false. rewrite andb_true_iff, Z.leb_le, Z.ltb_lt.
    Z.to_euclidean_division_equations. lia.
Qed.

(** The bits fit in the first byte. *)
Lemma adds_one bits pos n hi :
  0 ≤ pos → pos / 8 < zlen bits → pos mod 8 + n ≤ 8 →
  align_ok (λ _, n) (λ _, hi) (λ _, 0) (pos mod 8) = true →
  adds bits pos n (<[Z.to_nat (pos / 8) := Z.lor (default 0 (bits !! Z.to_nat (pos / 8))) hi]> bits).
Proof.
  intros Hp Hl Hn Hal. split; [by rewrite !zlen_insert|]. intros i Hi.
  assert (0 ≤ pos / 8) by (apply Z.div_pos; lia). rewrite bit_insert by lia.
  destruct (align_bits _ _ _ _ (i mod 8) Hal) as [H1 _]; [apply Z.mod_pos_bound; lia|].
  destruct (decide (i / 8 = pos / 8)) as [E'|E'].
  - rewrite Z.lor_spec, H1. unfold bit. rewrite E'. f_equal.
    apply eq_true_iff_eq. rewrite !andb_true_iff, !Z.leb_le, !Z.ltb_lt.
    Z.to_euclidean_division_equations. lia.
  - replace ((pos <=? i) && (i <? pos + n)) with false; [by rewrite orb_false_r|].
    symmetry. apply not_true_iff_false. rewrite andb_true_iff, Z.leb_le, Z.ltb_lt.
    Z.to_euclidean_division_equations. lia.
Qed.

Lemma adds_trans b0 b1 b2 p n m :
  0 ≤ n → 0 ≤ m → adds b0 p n b1 → adds b1 (p + n) m b2 → adds b0 p (n + m) b2.
Proof.
  intros Hn Hm [L1 H1] [L2 H2]. split; [congruence|]. intros i Hi. rewrite H2, H1 by done.
  rewrite <- orb_assoc. f_equal. apply eq_true_iff_eq.
  rewrite orb_true_iff, !andb_true_iff, !Z.leb_le, !Z.ltb_lt. lia.
Qed.

Lemma adds_fresh b0 b1 p n : 0 ≤ p → 0 ≤ n → fresh b0 p → adds b0 p n b1 → fresh b1 (p + n).
Proof.
  intros Hp Hn Hf [_ H] i Hi. rewrite H, Hf by lia.
  rewrite orb_false_l. apply andb_false_iff. right. apply Z.ltb_ge. lia.
Qed.

Lemma adds_none bits p : adds bits p 0 bits.
Proof.
  split; [done|]. intros i Hi. replace ((p <=? i) && (i <? p + 0)) with false; [by rewrite orb_false_r|].
  symmetry. apply not_true_iff_false. rewrite andb_true_iff, Z.leb_le, Z.ltb_lt. lia.
Qed.

(** Case analysis on the alignment of a position. *)
Lemma align_cases p : ∀ P : Z → Prop, Forall P (seqZ 0 8) → P (p mod 8).
Proof.
  intros P H. rewrite Forall_forall in H. apply H, elem_of_seqZ.
  pose proof (Z.mod_pos_bound p 8). lia.
Qed.

Lemma set1_adds pos bits :
  0 ≤ pos → pos / 8 < zlen bits → ∃ b', set1 pos bits = Ret b' ∧ adds bits pos 1 b'.
Proof.
  intros Hp Hl. assert (0 ≤ pos / 8) by (apply Z.div_pos; lia).
  unfold set1. rewrite or_at_ret by lia. eexists; split; [done|].
  apply adds_one; [lia|lia|pose proof (Z.mod_pos_bound pos 8); lia|].
  apply (align_cases pos (λ m, align_ok (λ _, 1) (λ _, default 0 (bits_lookup !! Z.to_nat m)) (λ _, 0) m = true)).
  repeat constructor.
Qed.

Lemma setN_adds n pos bits :
  0 ≤ pos → 2 ≤ n ≤ 7 → pos / 8 + 1 < zlen bits → fresh bits pos →
  ∃ b', setN (bits_mask n) pos bits = Ret b' ∧ adds bits pos n b'.
Proof.
  intros Hp Hn Hl Hf. assert (0 ≤ pos / 8) by (apply Z.div_pos; lia).
  unfold setN. rewrite or_at_ret by lia. cbn [obind].
  set (P := λ n m, align_ok (λ _, n) (λ _, u8 (Z.shiftr (Z.shiftr (bits_mask n) m) 8))
                            (λ _, u8 (Z.shiftr (bits_mask n) m)) m = true ∧
                   (u8 (Z.shiftr (bits_mask n) m) = 0 → m + n ≤ 8)).
  assert (P n (pos mod 8)) as [Hal Hz].
  { apply (align_cases pos (P n)).
    assert (n = 2 ∨ n = 3 ∨ n = 4 ∨ n = 5 ∨ n = 6 ∨ n = 7) as Hc by lia.
    destruct Hc as [->|[->|[->|[->|[->| ->]]]]]; repeat constructor; vm_compute; discriminate. }
  destruct (Z.eqb_spec (u8 (Z.shiftr (bits_mask n) (pos mod 8))) 0) as [Eb|Eb].
  - eexists; split; [done|]. rewrite Eb in Hal. apply adds_one; [lia..| |done]. auto.
  - rewrite set_at_ret by (rewrite zlen_insert; lia). eexists; split; [done|]. apply adds_two; [lia|lia|done|lia|done].
Qed.

Lemma set8_adds pos bits :
  0 ≤ pos → pos / 8 + 1 < zlen bits → fresh bits pos → ∃ b', set8 pos bits = Ret b' ∧ adds bits pos 8 b'.
Proof.
  intros Hp Hl Hf. assert (0 ≤ pos / 8) by (apply Z.div_pos; lia).
  unfold set8. rewrite or_at_ret by lia. cbn [obind]. rewrite set_at_ret by (rewrite zlen_insert; lia).
  eexists; split; [done|]. apply adds_two; [lia|lia|done|lia|].
  apply (align_cases pos (λ m, align_ok (λ _, 8) (λ _, u8 (Z.shiftr 0xFF m))
                                        (λ _, Z.lxor 0xFF (u8 (Z.shiftr 0xFF m))) m = true)).
  repeat constructor.
Qed.

(** Sixteen bits at once are eight bits twice. *)
Lemma set16_eq pos bits :
  0 ≤ pos → pos / 8 + 2 < zlen bits → set16 pos bits = (do! b <- set8 pos bits; set8 (pos + 8) b).
Proof.
  intros Hp Hl. assert (0 ≤ pos / 8) by (apply Z.div_pos; lia).
  unfold set16, set8. replace (pos + 8) with (pos + 1 * 8) by lia.
  rewrite Z.div_add, Z.mod_add by lia. rewrite !or_at_ret by lia. cbn [obind].
  rewrite !set_at_ret by (rewrite ?zlen_insert; lia). cbn [obind].
  rewrite or_at_ret by (rewrite ?zlen_insert; lia). cbn [obind].
  rewrite !set_at_ret by (rewrite ?zlen_insert; lia). do 2 f_equal; [lia|].
  rewrite list_lookup_insert_eq by (rewrite length_insert; unfold zlen in Hl; lia). cbn [default].
  rewrite list_insert_insert_eq. f_equal.
  apply (align_cases pos (λ m, 255 = Z.lor (Z.lxor 255 (u8 (Z.shiftr 255 m))) (u8 (Z.shiftr 255 m)))).
  repeat constructor.
Qed.

Lemma set16_adds pos bits :
  0 ≤ pos → pos / 8 + 2 < zlen bits → fresh bits pos → ∃ b', set16 pos bits = Ret b' ∧ adds bits pos 16 b'.
Proof.
  intros Hp Hl Hf. rewrite set16_eq by done.
  destruct (set8_adds pos bits Hp ltac:(lia) Hf) as (b1 & E1 & A1). rewrite E1. cbn [obind].
  destruct (set8_adds (pos + 8) b1) as (b2 & E2 & A2).
  - lia.
  - rewrite (proj1 A1). Z.to_euclidean_division_equations. lia.
  - eapply adds_fresh; [| |done|done]; lia.
  - exists b2. split; [done|]. by eapply (adds_trans _ _ _ _ 8 8).
Qed.

Lemma set_chunks_adds w set fuel : 0 < w → w mod 8 = 0 →
  (∀ pos bits, 0 ≤ pos → pos / 8 + w / 8 < zlen bits → fresh bits pos →
    ∃ b', set pos bits = Ret b' ∧ adds bits pos w b') →
  ∀ n pc bits, 0 ≤ n < w * (Z.of_nat fuel + 1) → 0 ≤ pc → (pc + n) / 8 < zlen bits → fresh bits pc →
  ∃ b', set_chunks fuel w set n pc bits = Ret (n mod w, pc + (n - n mod w), b') ∧
    adds bits pc (n - n mod w) b' ∧ fresh b' (pc + (n - n mod w)).
Proof.
  intros Hw Hw8 Hset. induction fuel as [|fuel IH]; intros n pc bits Hn Hpc Hl Hf.
  - exists bits. rewrite Z.mod_small by lia. rewrite Z.sub_diag, Z.add_0_r. split; [done|].
    split; [apply adds_none|done].
  - cbn [set_chunks]. destruct (Z.leb_spec w n) as [Hle|Hlt].
    + destruct (Hset pc bits Hpc) as (b1 & E1 & A1).
      { Z.to_euclidean_division_equations. nia. }
      { done. }
      rewrite E1. cbn [obind]. assert (fresh b1 (pc + w)) as Hf1 by (eapply adds_fresh; [| |done|done]; lia).
      destruct (IH (n - w) (pc + w) b1) as (b2 & E2 & A2 & F2); [nia|lia| |done|].
      { rewrite (proj1 A1). by replace (pc + w + (n - w)) with (pc + n) by lia. }
      assert ((n - w) mod w = n mod w) as Hm.
      { replace (n - w) with (n + (-1) * w) by lia. apply Z.mod_add. lia. }
      rewrite Hm in E2, A2, F2. assert (0 ≤ n - w - n mod w).
      { rewrite <- Hm. pose proof (Z.mod_le (n - w) w). lia. }
      exists b2. split; [rewrite E2; do 2 f_equal; f_equal; lia|]. split.
      * replace (n - n mod w) with (w + (n - w - n mod w)) by lia. apply (adds_trans _ b1); [lia|lia|done..].
      * by replace (pc + (n - n mod w)) with (pc + w + (n - w - n mod w)) by lia.
    + exists bits. rewrite Z.mod_small by lia. rewrite Z.sub_diag, Z.add_0_r. split; [done|].
      split; [apply adds_none|done].
Qed.

(** The leading chunks leave fewer than eight bits. *)
Lemma set_push_head n pc bits L :
  1 ≤ n ≤ 32 → 0 ≤ pc ≤ L → zlen bits = L / 8 + 5 → fresh bits pc →
  ∃ b', (if 8 <=? n then
           do! (n, pc, bits) <- set_chunks 2 16 set16 n pc bits; set_chunks 2 8 set8 n pc bits
         else Ret (n, pc, bits)) = Ret (n mod 8, pc + (n - n mod 8), b') ∧
    adds bits pc (n - n mod 8) b' ∧ fresh b' (pc + (n - n mod 8)).
Proof.
  intros Hn Hpc Hl Hf. assert (0 ≤ L / 8) by (apply Z.div_pos; lia).
  destruct (Z.leb_spec 8 n) as [Hge|Hlt].
  2:{ exists bits. rewrite Z.mod_small, Z.sub_diag, Z.add_0_r by lia. split; [done|]. split; [apply adds_none|done]. }
  destruct (set_chunks_adds 16 set16 2 ltac:(lia) eq_refl set16_adds n pc bits) as (b1 & E1 & A1 & F1);
    [lia|lia|rewrite Hl; Z.to_euclidean_division_equations; lia|done|].
  rewrite E1. cbn [obind]. set (n1 := n mod 16) in *.
  assert (0 ≤ n1 < 16 ∧ n1 ≤ n) as Hn1 by (unfold n1; Z.to_euclidean_division_equations; lia).
  destruct (set_chunks_adds 8 set8 2 ltac:(lia) eq_refl set8_adds n1 (pc + (n - n1)) b1) as (b2 & E2 & A2 & F2);
    [lia|lia|rewrite (proj1 A1), Hl; Z.to_euclidean_division_equations; lia|done|].
  assert (n1 mod 8 = n mod 8) as Hm by (unfold n1; Z.to_euclidean_division_equations; lia).
  rewrite Hm in *. assert (0 ≤ n1 - n mod 8) by (rewrite <- Hm; Z.to_euclidean_division_equations; lia).
  replace (pc + (n - n1) + (n1 - n mod 8)) with (pc + (n - n mod 8)) in * by lia.
  exists b2. split; [done|]. split; [|done].
  replace (n - n mod 8) with (n - n1 + (n1 - n mod 8)) by lia. apply (adds_trans _ b1); [lia|lia|done..].
Qed.

Lemma set_push_adds n pc bits L :
  1 ≤ n ≤ 32 → 0 ≤ pc ≤ L → zlen bits = L / 8 + 5 → fresh bits pc →
  ∃ b', set_push n pc bits = Ret (pc + n, b') ∧ adds bits pc n b'.
Proof.
  intros Hn Hpc Hl Hf. unfold set_push.
  destruct (set_push_head n pc bits L Hn Hpc Hl Hf) as (b1 & E1 & A1 & F1). rewrite E1. cbn [obind].
  pose proof (Z.mod_pos_bound n 8 ltac:(lia)) as Hm.
  assert (0 ≤ n - n mod 8) as Hd by (Z.to_euclidean_division_equations; lia).
  assert (∀ b', adds b1 (pc + (n - n mod 8)) (n mod 8) b' → adds bits pc n b') as Htr.
  { intros b' A. pose proof (adds_trans bits b1 b' pc (n - n mod 8) (n mod 8) Hd (proj1 Hm) A1 A) as H.
    by replace (n - n mod 8 + n mod 8) with n in H by lia. }
  destruct (Z.eqb_spec (n mod 8) 1) as [E|E].
  - destruct (set1_adds (pc + (n - n mod 8)) b1) as (b2 & E2 & A2);
      [lia|rewrite (proj1 A1), Hl; Z.to_euclidean_division_equations; lia|].
    rewrite E2. cbn [obind]. exists b2. split; [f_equal; f_equal; lia|]. specialize (Htr b2). rewrite E in Htr, A2. auto.
  - destruct (Z.leb_spec 2 (n mod 8)); [destruct (Z.leb_spec (n mod 8) 7); [|lia]|]; cbn [andb].
    + destruct (setN_adds (n mod 8) (pc + (n - n mod 8)) b1) as (b2 & E2 & A2);
        [lia|lia|rewrite (proj1 A1), Hl; Z.to_euclidean_division_equations; lia|done|].
      rewrite E2. cbn [obind]. exists b2. split; [f_equal; f_equal; lia|]. by apply Htr.
    + exists b1. split; [f_equal; f_equal; lia|]. by replace (n - n mod 8) with n in A1 by lia.
Qed.

(** ** The loop *)

Lemma push_data_drop k code :
  ∀ j, (k ≤ j)%nat → push_data k code !! j = push_data 0 (drop k code) !! (j - k)%nat.
Proof.
  revert code. induction k as [|k IH]; intros code j Hj; [by rewrite drop_0, Nat.sub_0_r|].
  destruct code as [|op code]; [done|]. destruct j as [|j]; [lia|]. simpl. apply IH. lia.
Qed.

Lemma push_data_skip k code j : (j < k)%nat → (j < length code)%nat → push_data k code !! j = Some true.
Proof.
  revert code j. induction k as [|k IH]; intros code j Hj Hc; [lia|].
  destruct code as [|op code]; simpl in Hc; [lia|]. destruct j as [|j]; simpl; [done|]. apply IH; lia.
Qed.

Lemma length_push_data k code : length (push_data k code) = length code.
Proof. revert k. induction code as [|op code IH]; intros [|k]; simpl; [done..| |]; by rewrite IH. Qed.

(** From [pc] on, the loop adds the scan of the remaining code. *)
Lemma codeBitmap_loop_spec code fuel : ∀ pc bits,
  0 ≤ pc → (length code - Z.to_nat pc ≤ fuel)%nat → zlen bits = zlen code / 8 + 5 → fresh bits pc →
  ∃ b', codeBitmap_loop fuel code pc bits = Ret b' ∧ zlen b' = zlen bits ∧
    (∀ i, 0 ≤ i < pc → bit b' i = bit bits i) ∧
    ∀ i, pc ≤ i < zlen code →
      Some (bit b' i) = push_data 0 (drop (Z.to_nat pc) code) !! (Z.to_nat i - Z.to_nat pc)%nat.
Proof.
  induction fuel as [|fuel IH]; intros pc bits Hpc Hfuel Hl Hf.
  { exists bits. do 2 (split; [done|]). split; [done|]. unfold zlen. lia. }
  cbn [codeBitmap_loop]. destruct (code !! Z.to_nat pc) as [op|] eqn:Eop.
  2:{ exists bits. do 3 (split; [done|]). apply lookup_ge_None in Eop. unfold zlen. lia. }
  pose proof (lookup_lt_Some _ _ _ Eop) as Hlt. rewrite (drop_S _ _ _ Eop). cbn [push_data].
  assert (∀ i, pc + 1 ≤ i → ∃ j, (Z.to_nat i - Z.to_nat pc)%nat = S j ∧ Z.of_nat j = i - pc - 1) as Hidx.
  { intros i Hi. exists (Z.to_nat (i - pc - 1)). lia. }
  assert (S (Z.to_nat pc) = Z.to_nat (pc + 1)) as HS by lia. rewrite HS in *.
  destruct ((op <? PUSH1) || (PUSH32 <? op)) eqn:Epush.
  - destruct (IH (pc + 1) bits) as (b' & E & L & K & R); [lia|lia|done|intros i Hi; apply Hf; lia|].
    exists b'. split; [done|]. split; [done|]. split; [intros i Hi; apply K; lia|]. intros i Hi.
    destruct (decide (i = pc)) as [->|Hne].
    + rewrite Nat.sub_diag. simpl. rewrite K, Hf by lia. done.
    + destruct (Hidx i ltac:(lia)) as (j & -> & Hj). cbn. rewrite R by lia. f_equal. lia.
  - apply orb_false_iff in Epush as [Ho1 Ho2]. apply Z.ltb_ge in Ho1, Ho2. unfold PUSH1, PUSH32 in *.
    set (n := op - 0x60 + 1) in *.
    destruct (set_push_adds n (pc + 1) bits (zlen code)) as (b1 & E1 & A1);
      [lia|unfold zlen; lia|done|intros i Hi; apply Hf; lia|]. rewrite E1. cbn [obind].
    destruct (IH (pc + 1 + n) b1) as (b' & E & L & K & R); [lia|lia|by rewrite (proj1 A1)| |].
    { eapply adds_fresh; [| | |exact A1]; [lia..|]. intros i Hi. apply Hf. lia. }
    exists b'. split; [done|]. split; [by rewrite L, (proj1 A1)|].
    assert (∀ i, 0 ≤ i < pc + 1 + n → bit b' i = bit bits i || ((pc + 1 <=? i) && (i <? pc + 1 + n))) as Hb.
    { intros i Hi. rewrite K by lia. apply (proj2 A1). lia. }
    split.
    { intros i Hi. rewrite Hb by lia. replace (pc + 1 <=? i) with false; [by rewrite orb_false_r|].
      symmetry. apply Z.leb_gt. lia. }
    intros i Hi. destruct (decide (i = pc)) as [->|Hne].
    { rewrite Nat.sub_diag. simpl. rewrite Hb, Hf by lia. do 2 f_equal. replace (pc + 1 <=? pc) with false; [done|].
      symmetry. apply Z.leb_gt. lia. }
    destruct (Hidx i ltac:(lia)) as (j & -> & Hj). cbn [lookup list_lookup].
    destruct (decide (i < pc + 1 + n)) as [Hin|Hout].
    + etrans; [|symmetry; apply push_data_skip; [lia|rewrite length_drop; unfold zlen in Hi; lia]].
      rewrite Hb by lia. do 2 f_equal.
      assert ((pc + 1 <=? i) = true ∧ (i <? pc + 1 + n) = true) as [-> ->];
        [|by rewrite orb_true_r]. rewrite Z.leb_le, Z.ltb_lt. lia.
    + etrans; [|symmetry; apply push_data_drop; lia]. rewrite R by lia.
      rewrite drop_drop. f_equal; [lia|]. do 2 f_equal. lia.
Qed.

Lemma codeSegment_bit bits pos :
  0 ≤ pos → pos / 8 < zlen bits → codeSegment bits pos = Ret (negb (bit bits pos)).
Proof.
  intros Hp Hl. assert (0 ≤ pos / 8) by (apply Z.div_pos; lia).
  unfold codeSegment, bit. destruct (bits !! Z.to_nat (pos / 8)) as [b|] eqn:E.
  2:{ apply lookup_ge_None in E. unfold zlen in Hl. lia. }
  f_equal. change (default 0 (Some b)) with b. pose proof (Z.mod_pos_bound pos 8 ltac:(lia)).
  replace (Z.shiftr 128 (pos mod 8)) with (Z.shiftl 1 (7 - pos mod 8)).
  2:{ apply (align_cases pos (λ m, Z.shiftl 1 (7 - m) = Z.shiftr 128 m)). repeat constructor. }
  destruct (Z.testbit b (7 - pos mod 8)) eqn:T; simpl.
  - apply Z.eqb_neq. intros E0. apply (f_equal (λ z, Z.testbit z (7 - pos mod 8))) in E0.
    rewrite Z.land_spec, T, Z.shiftl_spec, Z.sub_diag, Z.bits_0 in E0 by lia. done.
  - apply Z.eqb_eq, Z.bits_inj'. intros i Hi. rewrite Z.land_spec, Z.shiftl_spec, Z.bits_0 by lia.
    destruct (decide (i = 7 - pos mod 8)) as [->|Hne]; [by rewrite T|].
    destruct (decide (i < 7 - pos mod 8)).
    + rewrite (Z.testbit_neg_r 1) by lia. apply andb_false_r.
    + rewrite (testbit_small 1 1) by lia. apply andb_false_r.
Qed.

Lemma fresh_zeros n : fresh (replicate n 0) 0.
Proof.
  intros i Hi. unfold bit. destruct (replicate n 0 !! Z.to_nat (i / 8)) as [b|] eqn:E.
  - apply lookup_replicate in E as [-> _]. apply Z.bits_0.
  - apply Z.bits_0.
Qed.

(** ** Claims *)

(** C23: the word-at-a-time jump-destination analysis never indexes out of its
    bit vector, whatever push ends the code, and classifies every byte of the
    code as the byte-by-byte scan does: opcode or push data. *)
Theorem codeBitmap_is_scan code :
  ∃ bits, codeBitmap code = Ret bits ∧
    ∀ pos, 0 ≤ pos < zlen code →
      ∃ data, push_data 0 code !! Z.to_nat pos = Some data ∧ codeSegment bits pos = Ret (negb data).
Proof.
  unfold codeBitmap, codeBitmapInternal. pose proof (zlen_nonneg code).
  assert (0 ≤ zlen code / 8) by (apply Z.div_pos; lia).
  set (bits0 := replicate _ 0).
  assert (zlen bits0 = zlen code / 8 + 5) as Hl.
  { unfold zlen at 1, bits0. rewrite length_replicate. lia. }
  destruct (codeBitmap_loop_spec code (length code) 0 bits0) as (b' & E & L & _ & R);
    [lia|lia|done|apply fresh_zeros|].
  exists b'. split; [done|]. intros pos Hpos. specialize (R pos Hpos). rewrite drop_0, Nat.sub_0_r in R.
  exists (bit b' pos). split; [by symmetry|]. apply codeSegment_bit; [lia|].
  rewrite L, Hl. Z.to_euclidean_division_equations. lia.
Qed.
