(* ===== verification/EvmMachine.v ===== *)
(** * State of the EVM (core/vm/errors.go, contract.go, evm.go, interpreter.go)

    The records an execution works on: the contract of a frame, the frame
    itself (program counter, stack, memory, contract) and the EVM (state
    database, depth, read-only flag, return data).  Code runs in the state monad
    of the prelude.  The jump-destination
    maps that a contract shares with the contracts it calls are kept in the
    EVM and referred to by index. *)
From S2P Require Import Prelude Common RlpEncode AccessList StateObject StateDB EvmWord EvmAnalysis.
Import Enc Bytes.
Open Scope Z_scope.

(** ** Errors *)

Inductive vm_error :=
| ErrOutOfGas
| ErrCodeStoreOutOfGas
| ErrDepth
| ErrInsufficientBalance
| ErrContractAddressCollision
| ErrExecutionReverted
| ErrMaxCodeSizeExceeded
| ErrInvalidJump
| ErrWriteProtection
| ErrReturnDataOutOfBounds
| ErrGasUintOverflow
| ErrInvalidCode
| ErrSentry
| ErrStackUnderflow (stackLen required : Z)
| ErrStackOverflow (stackLen limit : Z)
| ErrInvalidOpCode (opcode : Z)
| ErrPrecompile (msg : string).

#[export] Instance vm_error_eq_dec : EqDecision vm_error.
Proof. solve_decision. Defined.

(** ** Contracts (contract.go) *)

(** [caller] is needed only for the parent's caller and value when the contract
    is made a delegate; [jumpdests] is an index into the EVM's maps. *)
Record Contract := mkContract {
  ct_CallerAddress : address;
  ct_parent : option (address * option Z);
  ct_self : address;
  ct_jumpdests : nat;
  ct_analysis : option (list Z);
  ct_Code : bytes;
  ct_CodeHash : hash;
  ct_CodeAddr : option address;
  ct_Input : bytes;
  ct_Gas : Z;
  ct_value : option Z
}.

Definition ct_set_CallerAddress (v : address) (o : Contract) : Contract :=
  mkContract v (ct_parent o) (ct_self o) (ct_jumpdests o) (ct_analysis o) (ct_Code o)
    (ct_CodeHash o) (ct_CodeAddr o) (ct_Input o) (ct_Gas o) (ct_value o).
Definition ct_set_parent (v : option (address * option Z)) (o : Contract) : Contract :=
  mkContract (ct_CallerAddress o) v (ct_self o) (ct_jumpdests o) (ct_analysis o) (ct_Code o)
    (ct_CodeHash o) (ct_CodeAddr o) (ct_Input o) (ct_Gas o) (ct_value o).
Definition ct_set_self (v : address) (o : Contract) : Contract :=
  mkContract (ct_CallerAddress o) (ct_parent o) v (ct_jumpdests o) (ct_analysis o) (ct_Code o)
    (ct_CodeHash o) (ct_CodeAddr o) (ct_Input o) (ct_Gas o) (ct_value o).
Definition ct_set_jumpdests (v : nat) (o : Contract) : Contract :=
  mkContract (ct_CallerAddress o) (ct_parent o) (ct_self o) v (ct_analysis o) (ct_Code o)
    (ct_CodeHash o) (ct_CodeAddr o) (ct_Input o) (ct_Gas o) (ct_value o).
Definition ct_set_analysis (v : option (list Z)) (o : Contract) : Contract :=
  mkContract (ct_CallerAddress o) (ct_parent o) (ct_self o) (ct_jumpdests o) v (ct_Code o)
    (ct_CodeHash o) (ct_CodeAddr o) (ct_Input o) (ct_Gas o) (ct_value o).
Definition ct_set_Code (v : bytes) (o : Contract) : Contract :=
  mkContract (ct_CallerAddress o) (ct_parent o) (ct_self o) (ct_jumpdests o) (ct_analysis o) v
    (ct_CodeHash o) (ct_CodeAddr o) (ct_Input o) (ct_Gas o) (ct_value o).
Definition ct_set_CodeHash (v : hash) (o : Contract) : Contract :=
  mkContract (ct_CallerAddress o) (ct_parent o) (ct_self o) (ct_jumpdests o) (ct_analysis o)
    (ct_Code o) v (ct_CodeAddr o) (ct_Input o) (ct_Gas o) (ct_value o).
Definition ct_set_CodeAddr (v : option address) (o : Contract) : Contract :=
  mkContract (ct_CallerAddress o) (ct_parent o) (ct_self o) (ct_jumpdests o) (ct_analysis o)
    (ct_Code o) (ct_CodeHash o) v (ct_Input o) (ct_Gas o) (ct_value o).
Definition ct_set_Input (v : bytes) (o : Contract) : Contract :=
  mkContract (ct_CallerAddress o) (ct_parent o) (ct_self o) (ct_jumpdests o) (ct_analysis o)
    (ct_Code o) (ct_CodeHash o) (ct_CodeAddr o) v (ct_Gas o) (ct_value o).
Definition ct_set_Gas (v : Z) (o : Contract) : Contract :=
  mkContract (ct_CallerAddress o) (ct_parent o) (ct_self o) (ct_jumpdests o) (ct_analysis o)
    (ct_Code o) (ct_CodeHash o) (ct_CodeAddr o) (ct_Input o) v (ct_value o).
Definition ct_set_value (v : option Z) (o : Contract) : Contract :=
  mkContract (ct_CallerAddress o) (ct_parent o) (ct_self o) (ct_jumpdests o) (ct_analysis o)
    (ct_Code o) (ct_CodeHash o) (ct_CodeAddr o) (ct_Input o) (ct_Gas o) v.

(** [ContractRef]: an account or the calling contract. *)
Inductive ContractRef :=
| AccountRef (a : address)
| OfContract (c : Contract).

Definition ref_Address (r : ContractRef) : address :=
  match r with AccountRef a => a | OfContract c => ct_self c end.

Definition UseGas (gas : Z) (c : Contract) : bool * Contract :=
  if ct_Gas c <? gas then (false, c) else (true, ct_set_Gas (ct_Gas c - gas) c).

Definition GetByte (n : Z) (c : Contract) : Z :=
  if n <? zlen (ct_Code c) then default 0 (ct_Code c !! Z.to_nat n) else 0.
Definition GetOp (n : Z) (c : Contract) : Z := GetByte n c.

Definition SetCallCode (addr : option address) (h : hash) (code : bytes) (c : Contract) : Contract :=
  ct_set_CodeAddr addr (ct_set_CodeHash h (ct_set_Code code c)).

(** The type assertion on [caller] panics when it is not a contract. *)
Definition AsDelegate (c : Contract) : option Contract :=
  match ct_parent c with
  | Some (addr, value) => Some (ct_set_value value (ct_set_CallerAddress addr c))
  | None => None
  end.

Section Machine.
Context {B : Backend}.

(** ** The EVM (evm.go, interpreter.go) *)

Record EVM := mkEVM {
  ev_StateDB : StateDB;
  ev_depth : Z;
  ev_callGasTemp : Z;
  ev_readOnly : bool;
  ev_returnData : bytes;
  ev_jumpdests : list (gmap hash (list Z))
}.

Definition ev_set_StateDB (v : StateDB) (o : EVM) : EVM :=
  mkEVM v (ev_depth o) (ev_callGasTemp o) (ev_readOnly o) (ev_returnData o) (ev_jumpdests o).
Definition ev_set_depth (v : Z) (o : EVM) : EVM :=
  mkEVM (ev_StateDB o) v (ev_callGasTemp o) (ev_readOnly o) (ev_returnData o) (ev_jumpdests o).
Definition ev_set_callGasTemp (v : Z) (o : EVM) : EVM :=
  mkEVM (ev_StateDB o) (ev_depth o) v (ev_readOnly o) (ev_returnData o) (ev_jumpdests o).
Definition ev_set_readOnly (v : bool) (o : EVM) : EVM :=
  mkEVM (ev_StateDB o) (ev_depth o) (ev_callGasTemp o) v (ev_returnData o) (ev_jumpdests o).
Definition ev_set_returnData (v : bytes) (o : EVM) : EVM :=
  mkEVM (ev_StateDB o) (ev_depth o) (ev_callGasTemp o) (ev_readOnly o) v (ev_jumpdests o).
Definition ev_set_jumpdests (v : list (gmap hash (list Z))) (o : EVM) : EVM :=
  mkEVM (ev_StateDB o) (ev_depth o) (ev_callGasTemp o) (ev_readOnly o) (ev_returnData o) v.

(** The scope of a running contract, its program counter and the EVM. *)
Record machine := mkMachine {
  m_pc : Z;
  m_stack : list Z;
  m_mem : Memory;
  m_contract : Contract;
  m_evm : EVM
}.

Definition m_set_pc (v : Z) (o : machine) : machine :=
  mkMachine v (m_stack o) (m_mem o) (m_contract o) (m_evm o).
Definition m_set_stack (v : list Z) (o : machine) : machine :=
  mkMachine (m_pc o) v (m_mem o) (m_contract o) (m_evm o).
Definition m_set_mem (v : Memory) (o : machine) : machine :=
  mkMachine (m_pc o) (m_stack o) v (m_contract o) (m_evm o).
Definition m_set_contract (v : Contract) (o : machine) : machine :=
  mkMachine (m_pc o) (m_stack o) (m_mem o) v (m_evm o).
Definition m_set_evm (v : EVM) (o : machine) : machine :=
  mkMachine (m_pc o) (m_stack o) (m_mem o) (m_contract o) v.

Definition V (A : Type) : Type := St EVM A.
Definition X (A : Type) : Type := St machine A.

Definition on_evm {A} (v : V A) : X A := λ m,
  match v (m_evm m) with
  | XRet (a, e) => XRet (a, m_set_evm e m)
  | XPanic => XPanic
  | XFuel => XFuel
  end.

(** Operations of the state database. *)
Definition db_read {A} (f : StateDB → A * StateDB) : V A := λ e,
  let '(a, s) := f (ev_StateDB e) in XRet (a, ev_set_StateDB s e).
Definition db_do (f : StateDB → StateDB) : V () := λ e, XRet (tt, ev_set_StateDB (f (ev_StateDB e)) e).
Definition db_try (f : StateDB → outcome StateDB) : V () := λ e,
  match f (ev_StateDB e) with Ret s => XRet (tt, ev_set_StateDB s e) | Panic => XPanic end.
Definition db_ask {A} (f : StateDB → outcome A) : V A := λ e,
  match f (ev_StateDB e) with Ret a => XRet (a, e) | Panic => XPanic end.

(** Operations of the stack and the memory of the scope. *)
Definition spop : X Z := λ m,
  match pop (m_stack m) with Some (x, st) => XRet (x, m_set_stack st m) | None => XPanic end.
Definition spush (x : Z) : X () := smodify (λ m, m_set_stack (push x (m_stack m)) m).
Definition sback (n : nat) : X Z := run! st <- sread m_stack; sopt (Back n st).
Definition speek : X Z := sback 0.
(** Writing through the pointer that [peek] returns. *)
Definition spoke (x : Z) : X () := λ m,
  match m_stack m with _ :: st => XRet (tt, m_set_stack (x :: st) m) | [] => XPanic end.
Definition smem (f : Memory → outcome Memory) : X () := λ m,
  match f (m_mem m) with Ret mem => XRet (tt, m_set_mem mem m) | Panic => XPanic end.
Definition contract_get {A} (f : Contract → A) : X A := sread (λ m, f (m_contract m)).
Definition contract_do (f : Contract → Contract) : X () := smodify (λ m, m_set_contract (f (m_contract m)) m).
Definition self_addr : X address := contract_get ct_self.
Definition use_gas (gas : Z) : X bool := λ m,
  let '(ok, c) := UseGas gas (m_contract m) in XRet (ok, m_set_contract c m).

(** [NewContract]: a contract called by a contract shares its map. *)
Definition NewContract (caller : ContractRef) (object : address) (value : option Z) (gas : Z) : V Contract := λ e,
  match caller with
  | OfContract p =>
      XRet (mkContract (ct_self p) (Some (ct_CallerAddress p, ct_value p)) object (ct_jumpdests p) None [] 0 None []
              gas value, e)
  | AccountRef a =>
      XRet (mkContract a None object (length (ev_jumpdests e)) None [] 0 None [] gas value,
            ev_set_jumpdests (ev_jumpdests e ++ [∅]) e)
  end.

(** The analysis of the contract's code, from its cache, from the shared map
    (for code with a hash) or computed. *)
Definition get_analysis : X (list Z) := λ m,
  let c := m_contract m in
  let e := m_evm m in
  match ct_analysis c with
  | Some a => XRet (a, m)
  | None =>
      if ct_CodeHash c =? 0 then
        match codeBitmap (ct_Code c) with
        | Panic => XPanic
        | Ret a => XRet (a, m_set_contract (ct_set_analysis (Some a) c) m)
        end
      else
        let dests := default ∅ (ev_jumpdests e !! ct_jumpdests c) in
        match dests !! ct_CodeHash c with
        | Some a => XRet (a, m_set_contract (ct_set_analysis (Some a) c) m)
        | None =>
            match codeBitmap (ct_Code c) with
            | Panic => XPanic
            | Ret a =>
                let e := ev_set_jumpdests (<[ct_jumpdests c := <[ct_CodeHash c := a]> dests]> (ev_jumpdests e)) e in
                XRet (a, m_set_evm e (m_set_contract (ct_set_analysis (Some a) c) m))
            end
        end
  end.

Definition isCode (udest : Z) : X bool := run! a <- get_analysis; sout (codeSegment a udest).

Definition JUMPDEST : Z := 0x5b.

Definition validJumpdest (dest : Z) : X bool :=
  let '(udest, overflow) := Uint64WithOverflow dest in
  run! c <- contract_get id;
  if overflow || (zlen (ct_Code c) <=? udest) then sret false
  else if negb (GetByte udest c =? JUMPDEST) then sret false
  else isCode udest.

End Machine.

(** ** Context of a run *)

(** [BlockContext], [TxContext], the chain identifier and the configuration. *)
Record EvmEnv := mkEvmEnv {
  env_GetHash : Z → hash;
  env_Coinbase : address;
  env_GasLimit : Z;
  env_BlockNumber : Z;
  env_Time : Z;
  env_Difficulty : Z;
  env_BaseFee : option Z;
  env_Origin : address;
  env_GasPrice : Z;
  env_ChainID : option Z;
  env_NoRecursion : bool;
  env_EnablePreimageRecording : bool;
  env_abort : bool
}.

(** The [PrecompiledContract] interface and the table of precompiles. *)
Class Precompiles `{Backend} := {
  precompile : address → option (bytes → Z);
  precompile_Run : address → EvmEnv → Contract → bytes → StateDB → outcome (bytes * option vm_error * StateDB)
}.
