(* ===== verification/EvmGasTable.v ===== *)
(** * Gas schedule (params/protocol_params.go, core/vm/memory_table.go, gas.go, gas_table.go, operations_acl.go)

    The memory an instruction needs and its dynamic gas.  A gas function runs
    on the machine, since it may warm the access list, count a refund or keep
    the gas for a call; its error makes the interpreter report out of gas. *)
From S2P Require Import Prelude Common RlpEncode AccessList StateObject StateDB EvmWord EvmAnalysis EvmMachine.
Import Bytes GoMath.

(** ** Parameters *)

Definition CallValueTransferGas : Z := 9000.
Definition CallNewAccountGas : Z := 25000.
Definition QuadCoeffDiv : Z := 512.
Definition LogDataGas : Z := 8.
Definition CallStipend : Z := 2300.
Definition Sha3Gas : Z := 30.
Definition Sha3WordGas : Z := 6.
Definition SstoreSetGas : Z := 20000.
Definition SstoreResetGas : Z := 5000.
Definition SstoreClearGas : Z := 5000.
Definition SstoreRefundGas : Z := 15000.
Definition SstoreSentryGasEIP2200 : Z := 2300.
Definition SstoreSetGasEIP2200 : Z := 20000.
Definition SstoreResetGasEIP2200 : Z := 5000.
Definition SstoreClearsScheduleRefundEIP2200 : Z := 15000.
Definition ColdAccountAccessCostEIP2929 : Z := 2600.
Definition ColdSloadCostEIP2929 : Z := 2100.
Definition WarmStorageReadCostEIP2929 : Z := 100.
Definition SstoreClearsScheduleRefundEIP3529 : Z := SstoreResetGasEIP2200 - ColdSloadCostEIP2929 + 1900.
Definition JumpdestGas : Z := 1.
Definition CreateDataGas : Z := 200.
Definition CallCreateDepth : Z := 1024.
Definition ExpGas : Z := 10.
Definition LogGas : Z := 375.
Definition CopyGas : Z := 3.
Definition StackLimit : Z := 1024.
Definition LogTopicGas : Z := 375.
Definition CreateGas : Z := 32000.
Definition Create2Gas : Z := 32000.
Definition SelfdestructRefundGas : Z := 24000.
Definition MemoryGas : Z := 3.
Definition CallGasFrontier : Z := 40.
Definition CallGasEIP150 : Z := 700.
Definition BalanceGasFrontier : Z := 20.
Definition BalanceGasEIP150 : Z := 400.
Definition BalanceGasEIP1884 : Z := 700.
Definition ExtcodeSizeGasFrontier : Z := 20.
Definition ExtcodeSizeGasEIP150 : Z := 700.
Definition SloadGasFrontier : Z := 50.
Definition SloadGasEIP150 : Z := 200.
Definition SloadGasEIP1884 : Z := 800.
Definition SloadGasEIP2200 : Z := 800.
Definition ExtcodeHashGasConstantinople : Z := 400.
Definition ExtcodeHashGasEIP1884 : Z := 700.
Definition SelfdestructGasEIP150 : Z := 5000.
Definition ExpByteFrontier : Z := 10.
Definition ExpByteEIP158 : Z := 50.
Definition ExtcodeCopyBaseFrontier : Z := 20.
Definition ExtcodeCopyBaseEIP150 : Z := 700.
Definition CreateBySelfdestructGas : Z := 25000.
Definition MaxCodeSize : Z := 24576.

Definition GasQuickStep : Z := 2.
Definition GasFastestStep : Z := 3.
Definition GasFastStep : Z := 5.
Definition GasMidStep : Z := 8.
Definition GasSlowStep : Z := 10.
Definition GasExtStep : Z := 20.

(** ** Memory sizes (memory_table.go) *)

(** [None] where the stack is too short, which the interpreter excludes. *)
Definition mem_size2 (off len : nat) (st : list Z) : option (Z * bool) :=
  match Back off st, Back len st with
  | Some x, Some y => Some (calcMemSize64 x y)
  | _, _ => None
  end.

Definition memorySha3 := mem_size2 0 1.
Definition memoryCallDataCopy := mem_size2 0 2.
Definition memoryReturnDataCopy := mem_size2 0 2.
Definition memoryCodeCopy := mem_size2 0 2.
Definition memoryExtCodeCopy := mem_size2 1 3.
Definition memoryMLoad (st : list Z) : option (Z * bool) :=
  match Back 0 st with Some x => Some (calcMemSize64WithUint x 32) | None => None end.
Definition memoryMStore8 (st : list Z) : option (Z * bool) :=
  match Back 0 st with Some x => Some (calcMemSize64WithUint x 1) | None => None end.
Definition memoryMStore (st : list Z) : option (Z * bool) :=
  match Back 0 st with Some x => Some (calcMemSize64WithUint x 32) | None => None end.
Definition memoryCreate := mem_size2 1 2.
Definition memoryCreate2 := mem_size2 1 2.

(** The larger of the argument and the return area. *)
Definition mem_size_call (a b c d : nat) (st : list Z) : option (Z * bool) :=
  match mem_size2 a b st with
  | None => None
  | Some (x, true) => Some (0, true)
  | Some (x, false) =>
      match mem_size2 c d st with
      | None => None
      | Some (y, true) => Some (0, true)
      | Some (y, false) => if y <? x then Some (x, false) else Some (y, false)
      end
  end.
Definition memoryCall := mem_size_call 5 6 3 4.
Definition memoryDelegateCall := mem_size_call 4 5 2 3.
Definition memoryStaticCall := mem_size_call 4 5 2 3.
Definition memoryReturn := mem_size2 0 1.
Definition memoryRevert := mem_size2 0 1.
Definition memoryLog := mem_size2 0 1.

(** ** gas.go, gas_table.go *)

Definition callGas (isEip150 : bool) (availableGas base callCost : Z) : result vm_error Z :=
  let gas := let availableGas := u64 (availableGas - base) in availableGas - availableGas / 64 in
  if isEip150 && (negb (IsUint64 callCost) || (gas <? Uint64 callCost)) then Ok gas
  else if negb (IsUint64 callCost) then Err ErrGasUintOverflow
  else Ok (Uint64 callCost).

Definition memoryGasCost (mem : Memory) (newMemSize : Z) : result vm_error (Z * Memory) :=
  if newMemSize =? 0 then Ok (0, mem)
  else if 0x1FFFFFFFE0 <? newMemSize then Err ErrGasUintOverflow
  else
    let newMemSizeWords := toWordSize newMemSize in
    let newMemSize := u64 (newMemSizeWords * 32) in
    if mem_Len mem <? newMemSize then
      let square := u64 (newMemSizeWords * newMemSizeWords) in
      let linCoef := u64 (newMemSizeWords * MemoryGas) in
      let quadCoef := square / QuadCoeffDiv in
      let newTotalFee := u64 (linCoef + quadCoef) in
      Ok (u64 (newTotalFee - lastGasCost mem), mkMemory (store mem) newTotalFee)
    else Ok (0, mem).

Section Gas.
Context {B : Backend}.

Definition gret (g : Z) : X (result vm_error Z) := sret (Ok g).
Definition gfail (e : vm_error) : X (result vm_error Z) := sret (Err e).
(** A result with its overflow flag. *)
Definition checked (r : Z * bool) : X (result vm_error Z) :=
  let '(v, overflow) := r in if overflow then gfail ErrGasUintOverflow else gret v.

Definition mem_gas (memorySize : Z) : X (result vm_error Z) := λ m,
  match memoryGasCost (m_mem m) memorySize with
  | Ok (fee, mem) => XRet (Ok fee, m_set_mem mem m)
  | Err e => XRet (Err e, m)
  end.

Definition memoryCopierGas (stackpos : nat) (memorySize : Z) : X (result vm_error Z) :=
  ok! gas <- mem_gas memorySize;
  run! w <- sback stackpos;
  ok! words <- checked (Uint64WithOverflow w);
  ok! words <- checked (SafeMul (toWordSize words) CopyGas);
  checked (SafeAdd gas words).

Definition gasCallDataCopy := memoryCopierGas 2.
Definition gasCodeCopy := memoryCopierGas 2.
Definition gasExtCodeCopy := memoryCopierGas 3.
Definition gasReturnDataCopy := memoryCopierGas 2.

Definition add_refund (gas : Z) : X () := on_evm (db_do (AddRefund gas)).
Definition sub_refund (gas : Z) : X () := on_evm (db_try (SubRefund gas)).

(** The pre-EIP-2200 rule. *)
Definition gasSStore (memorySize : Z) : X (result vm_error Z) :=
  run! y <- sback 1;
  run! x <- sback 0;
  run! self <- self_addr;
  run! current <- on_evm (db_read (sd_GetState self x));
  if (current =? 0) && negb (y =? 0) then gret SstoreSetGas
  else if negb (current =? 0) && (y =? 0) then
    run! _ <- add_refund SstoreRefundGas; gret SstoreClearGas
  else gret SstoreResetGas.

Definition gasSStoreEIP2200 (memorySize : Z) : X (result vm_error Z) :=
  run! have <- contract_get ct_Gas;
  if have <=? SstoreSentryGasEIP2200 then gfail ErrSentry
  else
    run! y <- sback 1;
    run! x <- sback 0;
    run! self <- self_addr;
    run! current <- on_evm (db_read (sd_GetState self x));
    let value := y in
    if current =? value then gret SloadGasEIP2200
    else
      run! original <- on_evm (db_read (sd_GetCommittedState self x));
      if original =? current then
        if original =? 0 then gret SstoreSetGasEIP2200
        else
          run! _ <- (if value =? 0 then add_refund SstoreClearsScheduleRefundEIP2200 else sret tt);
          gret SstoreResetGasEIP2200
      else
        run! _ <-
          (if negb (original =? 0) then
             if current =? 0 then sub_refund SstoreClearsScheduleRefundEIP2200
             else if value =? 0 then add_refund SstoreClearsScheduleRefundEIP2200 else sret tt
           else sret tt);
        run! _ <-
          (if original =? value then
             if original =? 0 then add_refund (SstoreSetGasEIP2200 - SloadGasEIP2200)
             else add_refund (SstoreResetGasEIP2200 - SloadGasEIP2200)
           else sret tt);
        gret SloadGasEIP2200.

Definition makeGasLog (n : Z) (memorySize : Z) : X (result vm_error Z) :=
  run! s <- sback 1;
  ok! requestedSize <- checked (Uint64WithOverflow s);
  ok! gas <- mem_gas memorySize;
  ok! gas <- checked (SafeAdd gas LogGas);
  ok! gas <- checked (SafeAdd gas (n * LogTopicGas));
  ok! memorySizeGas <- checked (SafeMul requestedSize LogDataGas);
  checked (SafeAdd gas memorySizeGas).

(** [gasSha3] and [gasCreate2]: a word price on the item at [pos]. *)
Definition word_gas (pos : nat) (memorySize : Z) : X (result vm_error Z) :=
  ok! gas <- mem_gas memorySize;
  run! w <- sback pos;
  ok! wordGas <- checked (Uint64WithOverflow w);
  ok! wordGas <- checked (SafeMul (toWordSize wordGas) Sha3WordGas);
  checked (SafeAdd gas wordGas).
Definition gasSha3 := word_gas 1.
Definition gasCreate2 := word_gas 2.

Definition pureMemoryGascost (memorySize : Z) : X (result vm_error Z) := mem_gas memorySize.
Definition gasReturn := pureMemoryGascost.
Definition gasRevert := pureMemoryGascost.
Definition gasMLoad := pureMemoryGascost.
Definition gasMStore8 := pureMemoryGascost.
Definition gasMStore := pureMemoryGascost.
Definition gasCreate := pureMemoryGascost.

(** [gasExpFrontier] and [gasExpEIP158]: a price per byte of the exponent. *)
Definition exp_gas (perByte memorySize : Z) : X (result vm_error Z) :=
  run! e <- sback 1;
  let expByteLen := (bitlen e + 7) / 8 in
  checked (SafeAdd (expByteLen * perByte) ExpGas).
Definition gasExpFrontier := exp_gas ExpByteFrontier.
Definition gasExpEIP158 := exp_gas ExpByteEIP158.

(** The common tail of the call variants: the 63/64 rule, the gas kept for the
    callee. *)
Definition call_gas (gas : Z) : X (result vm_error Z) :=
  run! have <- contract_get ct_Gas;
  run! requested <- sback 0;
  ok! temp <- sret (callGas true have gas requested);
  run! _ <- on_evm (smodify (ev_set_callGasTemp temp));
  checked (SafeAdd gas temp).

Definition gasCall (memorySize : Z) : X (result vm_error Z) :=
  run! v <- sback 2;
  let transfersValue := negb (v =? 0) in
  run! a <- sback 1;
  run! fresh <- (if transfersValue then on_evm (db_read (Empty (Bytes20 a))) else sret false);
  let gas := if fresh then CallNewAccountGas else 0 in
  let gas := if transfersValue then gas + CallValueTransferGas else gas in
  ok! memoryGas <- mem_gas memorySize;
  ok! gas <- checked (SafeAdd gas memoryGas);
  call_gas gas.

Definition gasCallCode (memorySize : Z) : X (result vm_error Z) :=
  ok! memoryGas <- mem_gas memorySize;
  run! v <- sback 2;
  let gas := if negb (v =? 0) then CallValueTransferGas else 0 in
  ok! gas <- checked (SafeAdd gas memoryGas);
  call_gas gas.

Definition gasDelegateCall (memorySize : Z) : X (result vm_error Z) :=
  ok! gas <- mem_gas memorySize; call_gas gas.
Definition gasStaticCall (memorySize : Z) : X (result vm_error Z) :=
  ok! gas <- mem_gas memorySize; call_gas gas.

Definition gasSelfdestruct (memorySize : Z) : X (result vm_error Z) :=
  run! a <- sback 0;
  run! self <- self_addr;
  run! empty <- on_evm (db_read (Empty (Bytes20 a)));
  run! pays <- (if empty then run! b <- on_evm (db_read (GetBalance self)); sret (negb (b =? 0)) else sret false);
  let gas := if pays then SelfdestructGasEIP150 + CreateBySelfdestructGas else SelfdestructGasEIP150 in
  run! dead <- on_evm (db_read (HasSuicided self));
  run! _ <- (if dead then sret tt else add_refund SelfdestructRefundGas);
  gret gas.

(** ** operations_acl.go *)

(** The canary panics when the address is cold, after the slot was added. *)
Definition makeGasSStoreFunc (clearingRefund memorySize : Z) : X (result vm_error Z) :=
  run! have <- contract_get ct_Gas;
  if have <=? SstoreSentryGasEIP2200 then gfail ErrSentry
  else
    run! y <- sback 1;
    run! x <- speek;
    let slot := x in
    run! self <- self_addr;
    run! current <- on_evm (db_read (sd_GetState self slot));
    run! (addrPresent, slotPresent) <- on_evm (db_ask (SlotInAccessList self slot));
    run! cost <-
      (if slotPresent then sret 0
       else
         run! _ <- on_evm (db_try (AddSlotToAccessList self slot));
         if addrPresent then sret ColdSloadCostEIP2929 else spanic);
    let value := y in
    if current =? value then gret (cost + WarmStorageReadCostEIP2929)
    else
      run! original <- on_evm (db_read (sd_GetCommittedState self x));
      if original =? current then
        if original =? 0 then gret (cost + SstoreSetGasEIP2200)
        else
          run! _ <- (if value =? 0 then add_refund clearingRefund else sret tt);
          gret (cost + (SstoreResetGasEIP2200 - ColdSloadCostEIP2929))
      else
        run! _ <-
          (if negb (original =? 0) then
             if current =? 0 then sub_refund clearingRefund
             else if value =? 0 then add_refund clearingRefund else sret tt
           else sret tt);
        run! _ <-
          (if original =? value then
             if original =? 0 then add_refund (SstoreSetGasEIP2200 - WarmStorageReadCostEIP2929)
             else add_refund (SstoreResetGasEIP2200 - ColdSloadCostEIP2929 - WarmStorageReadCostEIP2929)
           else sret tt);
        gret (cost + WarmStorageReadCostEIP2929).
Definition gasSStoreEIP2929 := makeGasSStoreFunc SstoreClearsScheduleRefundEIP2200.
Definition gasSStoreEIP3529 := makeGasSStoreFunc SstoreClearsScheduleRefundEIP3529.

Definition gasSLoadEIP2929 (memorySize : Z) : X (result vm_error Z) :=
  run! slot <- speek;
  run! self <- self_addr;
  run! (_, slotPresent) <- on_evm (db_ask (SlotInAccessList self slot));
  if slotPresent then gret WarmStorageReadCostEIP2929
  else run! _ <- on_evm (db_try (AddSlotToAccessList self slot)); gret ColdSloadCostEIP2929.

Definition addr_warm (addr : address) : X bool := on_evm (sread (λ e, AddressInAccessList addr (ev_StateDB e))).
Definition warm_addr (addr : address) : X () := on_evm (db_do (AddAddressToAccessList addr)).

Definition gasExtCodeCopyEIP2929 (memorySize : Z) : X (result vm_error Z) :=
  ok! gas <- gasExtCodeCopy memorySize;
  run! a <- speek;
  let addr := Bytes20 a in
  run! warm <- addr_warm addr;
  if warm then gret gas
  else
    run! _ <- warm_addr addr;
    checked (SafeAdd gas (ColdAccountAccessCostEIP2929 - WarmStorageReadCostEIP2929)).

Definition gasEip2929AccountCheck (memorySize : Z) : X (result vm_error Z) :=
  run! a <- speek;
  let addr := Bytes20 a in
  run! warm <- addr_warm addr;
  if warm then gret 0
  else
    run! _ <- warm_addr addr;
    gret (ColdAccountAccessCostEIP2929 - WarmStorageReadCostEIP2929).

(** The cold surcharge is taken before the 63/64 rule applies, then given back
    and reported with the rest. *)
Definition makeCallVariantGasCallEIP2929 (oldCalculator : Z → X (result vm_error Z)) (memorySize : Z)
    : X (result vm_error Z) :=
  run! a <- sback 1;
  let addr := Bytes20 a in
  run! warmAccess <- addr_warm addr;
  let coldCost := ColdAccountAccessCostEIP2929 - WarmStorageReadCostEIP2929 in
  if warmAccess then oldCalculator memorySize
  else
    run! _ <- warm_addr addr;
    run! ok <- use_gas coldCost;
    if negb ok then gfail ErrOutOfGas
    else
      ok! gas <- oldCalculator memorySize;
      run! _ <- contract_do (λ c, ct_set_Gas (u64 (ct_Gas c + coldCost)) c);
      gret (u64 (gas + coldCost)).
Definition gasCallEIP2929 := makeCallVariantGasCallEIP2929 gasCall.
Definition gasDelegateCallEIP2929 := makeCallVariantGasCallEIP2929 gasDelegateCall.
Definition gasStaticCallEIP2929 := makeCallVariantGasCallEIP2929 gasStaticCall.
Definition gasCallCodeEIP2929 := makeCallVariantGasCallEIP2929 gasCallCode.

Definition makeSelfdestructGasFn (refundsEnabled : bool) (memorySize : Z) : X (result vm_error Z) :=
  run! a <- speek;
  let address := Bytes20 a in
  run! self <- self_addr;
  run! warm <- addr_warm address;
  run! gas <- (if warm then sret 0 else run! _ <- warm_addr address; sret ColdAccountAccessCostEIP2929);
  run! empty <- on_evm (db_read (Empty address));
  run! pays <- (if empty then run! b <- on_evm (db_read (GetBalance self)); sret (negb (b =? 0)) else sret false);
  let gas := if pays then gas + CreateBySelfdestructGas else gas in
  run! _ <-
    (if refundsEnabled then
       run! dead <- on_evm (db_read (HasSuicided self));
       if dead then sret tt else add_refund SelfdestructRefundGas
     else sret tt);
  gret gas.
Definition gasSelfdestructEIP2929 := makeSelfdestructGasFn true.
Definition gasSelfdestructEIP3529 := makeSelfdestructGasFn false.

End Gas.
