(* ===== verification/EvmMemory.v ===== *)
(** * The price of memory

    The memory of a frame is always a whole number of words, paid for at the
    quadratic price of its size; expanding it costs the difference, whatever
    the order of the expansions, and no step of the computation overflows. *)
From S2P Require Import Prelude Common EvmWord EvmAnalysis EvmMachine EvmGasTable.
Import Bytes GoMath.

Definition words_fee (w : Z) : Z := 3 * w + w * w / 512.

(** A whole number [w] of words, paid for. *)
Definition mem_words (mem : Memory) (w : Z) : Prop :=
  0 ≤ w < 2 ^ 32 ∧ mem_Len mem = 32 * w ∧ lastGasCost mem = words_fee w.
Definition mem_ok (mem : Memory) : Prop := ∃ w, mem_words mem w.

Lemma words_fee_mono w w' : 0 ≤ w ≤ w' → words_fee w ≤ words_fee w'.
Proof.
  intros H. unfold words_fee. assert (w * w ≤ w' * w') by nia.
  assert (w * w / 512 ≤ w' * w' / 512) by (apply Z.div_le_mono; lia). lia.
Qed.

Lemma words_fee_bound w : 0 ≤ w < 2 ^ 32 → 0 ≤ words_fee w < 2 ^ 56.
Proof.
  intros H. unfold words_fee. assert (w * w < 2 ^ 32 * 2 ^ 32) by nia.
  assert (w * w / 512 < 2 ^ 55) by (apply Z.div_lt_upper_bound; lia).
  assert (0 ≤ w * w / 512) by (apply Z.div_pos; nia). lia.
Qed.

Lemma mem_ok_new : mem_ok NewMemory.
Proof. exists 0. split; [lia|]. done. Qed.

Lemma toWordSize_exact n : 0 ≤ n → 32 * n ≤ MaxUint64 - 31 → toWordSize (32 * n) = n.
Proof.
  intros Hn Hm. unfold toWordSize. destruct (Z.ltb_spec (MaxUint64 - 31) (32 * n)); [lia|].
  unfold u64. rewrite wrap_id by (unfold in_w, MaxUint64 in *; lia).
  Z.to_euclidean_division_equations. lia.
Qed.

Lemma toWordSize_nonneg n : 0 ≤ n → 0 ≤ toWordSize n.
Proof.
  intros. unfold toWordSize. destruct (_ <? _); [by vm_compute|].
  apply Z.div_pos; [|lia]. unfold u64, wrap. apply Z.mod_pos_bound. lia.
Qed.

(** Paying for [n] words: the fee is the difference of the prices, and after
    the resize the memory is paid for. *)
Lemma memoryGasCost_spec mem w n fee mem' :
  mem_words mem w → 0 ≤ n → memoryGasCost mem (32 * n) = Ok (fee, mem') →
  store mem' = store mem ∧ fee = words_fee (Z.max w n) - words_fee w ∧ 0 ≤ fee < 2 ^ 56 ∧
  mem_words (mem_Resize (32 * n) mem') (Z.max w n).
Proof.
  intros (Hw & Hl & Hc) Hn. unfold memoryGasCost.
  assert (store mem = store mem ∧ 0 = words_fee w - words_fee w) as Hid by (split; [done|lia]).
  destruct (Z.eqb_spec (32 * n) 0) as [E|E].
  { intros [= <- <-]. rewrite E, Z.max_l by lia. split; [done|]. split; [lia|]. split; [lia|].
    unfold mem_Resize. destruct (Z.ltb_spec (mem_Len mem) 0); [unfold mem_Len, zlen in *; lia|]. by split. }
  destruct (Z.ltb_spec 0x1FFFFFFFE0 (32 * n)) as [Hbig|Hbig]; [done|].
  rewrite toWordSize_exact by (unfold MaxUint64; lia).
  assert (0 ≤ n < 2 ^ 32) as Hn' by lia. pose proof (words_fee_bound n Hn') as Hfn.
  pose proof (words_fee_bound w Hw) as Hfw.
  unfold MemoryGas, QuadCoeffDiv. cbv zeta.
  assert (0 ≤ n * n < 2 ^ 64) as Hsq by nia.
  assert (∀ x, 0 ≤ x < 2 ^ 64 → u64 x = x) as Hid64 by (intros x ?; by apply wrap_id).
  rewrite (Hid64 (n * 32)), (Hid64 (n * n)), (Hid64 (n * 3)) by lia.
  replace (n * 3 + n * n / 512) with (words_fee n) by (unfold words_fee; lia).
  rewrite (Hid64 (words_fee n)), Hl, Hc by lia.
  destruct (Z.ltb_spec (32 * w) (n * 32)) as [Hgrow|Hstay]; intros [= <- <-].
  - rewrite Z.max_r by lia. pose proof (words_fee_mono w n ltac:(lia)). rewrite Hid64 by lia.
    split; [done|]. split; [done|]. split; [lia|]. split; [lia|].
    rewrite mem_Resize_Len. unfold mem_Resize. change (mem_Len (mkMemory (store mem) (words_fee n))) with (mem_Len mem).
    rewrite Hl. destruct (Z.ltb_spec (32 * w) (32 * n)); [|lia]. cbn. split; [lia|done].
  - rewrite Z.max_l by lia. split; [done|]. split; [lia|]. split; [lia|].
    unfold mem_Resize. rewrite Hl. destruct (Z.ltb_spec (32 * w) (32 * n)); [lia|]. by split.
Qed.

(** Writes keep the size and what was paid. *)
Lemma mem_ok_same mem mem' :
  mem_Len mem' = mem_Len mem → lastGasCost mem' = lastGasCost mem → mem_ok mem → mem_ok mem'.
Proof. intros H1 H2 (w & Hw & Hl & Hc). exists w. split; [done|]. by rewrite H1, H2. Qed.

Lemma mem_Set_ok offset size value mem mem' :
  mem_Set (Uint64 offset) (Uint64 size) value mem = Ret mem' → mem_ok mem → mem_ok mem'.
Proof.
  intros H. destruct (mem_Set_Len _ _ _ _ _ (wrap_range 64 offset ltac:(lia)) (wrap_range 64 size ltac:(lia)) H).
  by apply mem_ok_same.
Qed.

Lemma mem_Set32_ok offset v mem mem' : mem_Set32 (Uint64 offset) v mem = Ret mem' → mem_ok mem → mem_ok mem'.
Proof.
  unfold mem_Set32. pose proof (wrap_range 64 offset ltac:(lia)) as Ho.
  destruct (Z.ltb_spec (mem_Len mem) (u64 (Uint64 offset + 32))) as [|Hl]; [done|].
  destruct (Z.ltb_spec (u64 (Uint64 offset + 32)) (Uint64 offset)) as [|Hle]; [done|].
  cbn [orb]. intros [= <-]. apply mem_ok_same; [|done]. unfold mem_Len in *. cbn [store].
  assert (Uint64 offset + 32 ≤ zlen (store mem)) by (unfold Uint64 in *; go_lia).
  unfold Uint64, in_w in *. fold (u64 offset) in Ho.
  rewrite length_copy_at; [apply length_copy_at; lia|lia|lia|]. by rewrite length_copy_at by lia.
Qed.

(** ** Claims *)

(** The interpreter's accesses: pay for [n] words, then resize. *)
Fixpoint touch_words (ns : list Z) (mem : Memory) : result vm_error (Z * Memory) :=
  match ns with
  | [] => Ok (0, mem)
  | n :: ns =>
      try! (fee, mem) <- memoryGasCost mem (32 * n);
      try! (rest, mem) <- touch_words ns (mem_Resize (32 * n) mem);
      Ok (fee + rest, mem)
  end.

Lemma touch_words_total ns : ∀ mem w fee mem',
  mem_words mem w → Forall (λ n, 0 ≤ n) ns → touch_words ns mem = Ok (fee, mem') →
  let w' := fold_left Z.max ns w in mem_words mem' w' ∧ fee = words_fee w' - words_fee w.
Proof.
  induction ns as [|n ns IH]; intros mem w fee mem' Hw Hns; cbn [touch_words fold_left].
  - intros [= <- <-]. split; [done|lia].
  - apply Forall_cons in Hns as [Hn Hns].
    destruct (memoryGasCost mem (32 * n)) as [[f1 m1]|] eqn:E1; [|done]. cbn [rbind].
    destruct (touch_words ns _) as [[f2 m2]|] eqn:E2; [|done]. cbn [rbind]. intros [= <- <-].
    destruct (memoryGasCost_spec _ _ _ _ _ Hw Hn E1) as (_ & F1 & _ & W1).
    destruct (IH _ _ _ _ W1 Hns E2) as [W2 F2]. split; [done|]. lia.
Qed.

(** C24: memory is priced by its final size: whatever accesses a frame makes, in
    whatever order, the fees add up to [3w + w^2/512] for the [w] words it ends
    with, no product or sum of the computation wraps around, and only requests
    beyond [2^32] words are refused. *)
Theorem memory_price_is_path_independent ns :
  Forall (λ n, 0 ≤ n < 2 ^ 32) ns →
  ∃ fee mem, touch_words ns NewMemory = Ok (fee, mem) ∧
    mem_Len mem = 32 * fold_left Z.max ns 0 ∧ fee = words_fee (fold_left Z.max ns 0).
Proof.
  intros Hns.
  assert (∀ ms mem w, mem_words mem w → Forall (λ n, 0 ≤ n < 2 ^ 32) ms → is_ok (touch_words ms mem) = true) as Hok.
  { induction ms as [|n ms IH]; intros mem w Hw Hms; [done|]. cbn [touch_words].
    apply Forall_cons in Hms as [Hn Hms].
    destruct (memoryGasCost mem (32 * n)) as [[f1 m1]|e] eqn:E1.
    - destruct (memoryGasCost_spec _ _ _ _ _ Hw (proj1 Hn) E1) as (_ & _ & _ & W1). cbn [rbind].
      specialize (IH _ _ W1 Hms). by destruct (touch_words ms _) as [[? ?]|].
    - exfalso. revert E1. unfold memoryGasCost. destruct (32 * n =? 0); [done|].
      destruct (Z.ltb_spec 0x1FFFFFFFE0 (32 * n)); [lia|]. cbv zeta. by destruct (mem_Len mem <? _). }
  assert (mem_words NewMemory 0) as H0 by (split; [lia|done]).
  specialize (Hok ns NewMemory 0 H0 Hns). destruct (touch_words ns NewMemory) as [[fee mem]|] eqn:E; [|done].
  exists fee, mem. split; [done|].
  destruct (touch_words_total ns NewMemory 0 fee mem H0) as [(_ & Hl & _) Hf]; [|done|].
  - eapply Forall_impl; [exact Hns|]. intros n Hn. cbn in Hn. lia.
  - split; [done|]. rewrite Hf. change (words_fee 0) with 0. lia.
Qed.

Lemma memory_price_is_path_independent_witness :
  ∃ fee mem, touch_words [1; 100; 3] NewMemory = Ok (fee, mem) ∧ mem_Len mem = 3200 ∧ fee = 319.
Proof.
  destruct (memory_price_is_path_independent [1; 100; 3]) as (fee & mem & H1 & H2 & H3).
  - repeat (apply Forall_cons_2; [lia|]). apply Forall_nil_2.
  - exists fee, mem. split; [exact H1|]. split; [exact H2|]. rewrite H3. vm_compute. reflexivity.
Defined.
