(* ===== verification/EvmCall.v ===== *)
(** * Calls and contract creation (core/vm/evm.go, contracts.go, crypto/crypto.go)

    The entry points of the EVM around a run of the interpreter: guards,
    snapshot, account creation, value transfer, precompiles, revert and what is
    left of the gas.  The interpreter is the section variable [Run]. *)
From S2P Require Import Prelude Common RlpEncode AccessList StateObject StateDB StateRevert StateBalance Transfer.
From S2P Require Import EvmWord EvmAnalysis EvmMachine EvmGasTable.
Import Enc Bytes.

Section Calls.
Context {B : Backend} {P : Precompiles} (env : EvmEnv).

(** [interpreter.Run]: returned data and error; the contract with the gas left. *)
Definition runner : Type := Contract → bytes → bool → V (bytes * option vm_error * Contract).
Context (Run : runner).

(** ** Addresses of new contracts *)

Definition CreateAddress (b : address) (nonce : Z) : address :=
  let data := match EncodeToBytes (VList [VArray (Address_Bytes b); VUint nonce]) with
              | Ok data => data
              | Err _ => []
              end in
  BytesToAddress (drop 12 (Keccak256 data)).

Definition CreateAddress2 (b : address) (salt : Z) (inithash : bytes) : address :=
  BytesToAddress (drop 12 (Keccak256 ([0xff] ++ Address_Bytes b ++ be_fixed 32 salt ++ inithash))).

(** ** Calls *)

Definition RunPrecompiledContract (addr : address) (RequiredGas : bytes → Z) (input : bytes) (suppliedGas : Z)
    (contract : Contract) : V (bytes * Z * option vm_error) :=
  let gasCost := RequiredGas input in
  if suppliedGas <? gasCost then sret ([], 0, Some ErrOutOfGas)
  else λ e,
    match precompile_Run addr env contract input (ev_StateDB e) with
    | Panic => XPanic
    | Ret (output, err, s) => XRet ((output, suppliedGas - gasCost, err), ev_set_StateDB s e)
    end.

(** On an error the state is reverted; only an explicit revert keeps the gas. *)
Definition finish_call (snapshot : Z) (r : bytes * Z * option vm_error) : V (bytes * Z * option vm_error) :=
  let '(ret, gas, err) := r in
  match err with
  | None => sret (ret, gas, None)
  | Some e =>
      run! _ <- db_try (RevertToSnapshot snapshot);
      sret (ret, if decide (e = ErrExecutionReverted) then gas else 0, Some e)
  end.

(** [SetCallCode] with the code and hash the state has for [addr]. *)
Definition load_code (addr : address) (contract : Contract) : V Contract :=
  run! codeHash <- db_read (GetCodeHash addr);
  run! code <- db_read (GetCode addr);
  sret (SetCallCode (Some addr) codeHash (default [] code) contract).

(** The precompile at [addr], or the interpreter on [contract]. *)
Definition run_code (addr : address) (input : bytes) (gas : Z) (readOnly : bool) (pcontract contract : V Contract)
    : V (bytes * Z * option vm_error) :=
  match precompile addr with
  | Some RequiredGas =>
      run! c <- pcontract;
      run! c <- load_code addr c;
      RunPrecompiledContract addr RequiredGas input gas c
  | None =>
      run! c <- contract;
      run! c <- load_code addr c;
      run! (ret, err, c) <- Run c input readOnly;
      sret (ret, ct_Gas c, err)
  end.

Definition call_guards (gas : Z) (k : V (bytes * Z * option vm_error)) : V (bytes * Z * option vm_error) :=
  run! depth <- sread ev_depth;
  if env_NoRecursion env && (0 <? depth) then sret ([], gas, None)
  else if CallCreateDepth <? depth then sret ([], gas, Some ErrDepth)
  else k.

Definition Call (caller : ContractRef) (addr : address) (input : bytes) (gas value : Z)
    : V (bytes * Z * option vm_error) :=
  call_guards gas (
    run! can <- (if value =? 0 then sret true else db_read (CanTransfer (ref_Address caller) value));
    if negb can then sret ([], gas, Some ErrInsufficientBalance)
    else
      run! snapshot <- db_read Snapshot;
      let isPrecompile := bool_decide (is_Some (precompile addr)) in
      run! exists_ <- db_read (Exist addr);
      if negb exists_ && negb isPrecompile && (value =? 0) then sret ([], gas, None)
      else
        run! _ <- (if exists_ then sret tt else db_do (CreateAccount addr));
        run! _ <- db_do (Transfer (ref_Address caller) addr value);
        run! r <-
          (match precompile addr with
           | Some RequiredGas =>
               run! c <- NewContract caller addr (Some value) gas;
               run! c <- load_code addr c;
               RunPrecompiledContract addr RequiredGas input gas c
           | None =>
               run! code <- db_read (GetCode addr);
               match default [] code with
               | [] => sret ([], gas, None)
               | code =>
                   run! c <- NewContract caller addr (Some value) gas;
                   run! codeHash <- db_read (GetCodeHash addr);
                   run! (ret, err, c) <- Run (SetCallCode (Some addr) codeHash code c) input false;
                   sret (ret, ct_Gas c, err)
               end
           end);
        finish_call snapshot r).

Definition CallCode (caller : ContractRef) (addr : address) (input : bytes) (gas value : Z)
    : V (bytes * Z * option vm_error) :=
  call_guards gas (
    run! can <- db_read (CanTransfer (ref_Address caller) value);
    if negb can then sret ([], gas, Some ErrInsufficientBalance)
    else
      run! snapshot <- db_read Snapshot;
      let contract := NewContract caller (ref_Address caller) (Some value) gas in
      run! r <- run_code addr input gas false contract contract;
      finish_call snapshot r).

(** [AsDelegate] applies to interpreted code only. *)
Definition DelegateCall (caller : ContractRef) (addr : address) (input : bytes) (gas : Z)
    : V (bytes * Z * option vm_error) :=
  call_guards gas (
    run! snapshot <- db_read Snapshot;
    let contract := NewContract caller (ref_Address caller) None gas in
    run! r <- run_code addr input gas false contract (run! c <- contract; sopt (AsDelegate c));
    finish_call snapshot r).

(** The zero [AddBalance] touches the account. *)
Definition StaticCall (caller : ContractRef) (addr : address) (input : bytes) (gas : Z)
    : V (bytes * Z * option vm_error) :=
  call_guards gas (
    run! snapshot <- db_read Snapshot;
    run! _ <- db_do (AddBalance addr 0);
    let contract := NewContract caller addr (Some 0) gas in
    run! r <- run_code addr input gas true contract contract;
    finish_call snapshot r).

(** ** Creation *)

(** Store the returned code, if it is acceptable and paid for. *)
Definition deploy (addr : address) (ret : bytes) (err : option vm_error) (c : Contract)
    : V (option vm_error * Contract) :=
  let err := match err with None => if MaxCodeSize <? zlen ret then Some ErrMaxCodeSizeExceeded else None | e => e end in
  let err := match err with
             | None => if (1 <=? zlen ret) && (default 0 (ret !! 0%nat) =? 0xEF) then Some ErrInvalidCode else None
             | e => e
             end in
  match err with
  | Some e => sret (Some e, c)
  | None =>
      let createDataGas := zlen ret * CreateDataGas in
      let '(ok, c) := UseGas createDataGas c in
      if ok then run! _ <- db_do (SetCode addr ret); sret (None, c)
      else sret (Some ErrCodeStoreOutOfGas, c)
  end.

Definition create (caller : ContractRef) (code : bytes) (codeHash : hash) (gas value : Z) (addr : address)
    : V (bytes * address * Z * option vm_error) :=
  run! depth <- sread ev_depth;
  if CallCreateDepth <? depth then sret ([], 0, gas, Some ErrDepth)
  else
    run! can <- db_read (CanTransfer (ref_Address caller) value);
    if negb can then sret ([], 0, gas, Some ErrInsufficientBalance)
    else
      run! nonce <- db_read (GetNonce (ref_Address caller));
      run! _ <- db_do (SetNonce (ref_Address caller) (u64 (nonce + 1)));
      run! _ <- db_do (AddAddressToAccessList addr);
      run! contractHash <- db_read (GetCodeHash addr);
      run! there <- db_read (GetNonce addr);
      if negb (there =? 0) || (negb (contractHash =? 0) && negb (contractHash =? Keccak256Hash [])) then
        sret ([], 0, 0, Some ErrContractAddressCollision)
      else
        run! snapshot <- db_read Snapshot;
        run! _ <- db_do (CreateAccount addr);
        run! _ <- db_do (SetNonce addr 1);
        run! _ <- db_do (Transfer (ref_Address caller) addr value);
        run! c <- NewContract caller addr (Some value) gas;
        let c := SetCallCode (Some addr) codeHash code c in
        if env_NoRecursion env && (0 <? depth) then sret ([], addr, gas, None)
        else
          run! (ret, err, c) <- Run c [] false;
          run! (err, c) <- deploy addr ret err c;
          match err with
          | None => sret (ret, addr, ct_Gas c, None)
          | Some e =>
              run! _ <- db_try (RevertToSnapshot snapshot);
              sret (ret, addr, if decide (e = ErrExecutionReverted) then ct_Gas c else 0, Some e)
          end.

(** The hash of the code is computed by [Create2] only. *)
Definition Create (caller : ContractRef) (code : bytes) (gas value : Z)
    : V (bytes * address * Z * option vm_error) :=
  run! nonce <- db_read (GetNonce (ref_Address caller));
  create caller code 0 gas value (CreateAddress (ref_Address caller) nonce).

Definition Create2 (caller : ContractRef) (code : bytes) (gas endowment salt : Z)
    : V (bytes * address * Z * option vm_error) :=
  let codeHash := Keccak256Hash code in
  create caller code codeHash gas endowment
    (CreateAddress2 (ref_Address caller) salt (Hash_Bytes codeHash)).

End Calls.
