(* ===== verification/EvmInstr.v ===== *)
(** * Instructions and jump tables (core/vm/instructions.go, eips.go, opcodes.go, jump_table.go)

    One definition per instruction, on the machine, and the instruction sets
    built fork by fork as the source builds them.  An instruction gives the
    data it returns and its error. *)
From S2P Require Import Prelude Common AccessList StateObject StateDB EvmWord EvmAnalysis EvmMachine EvmGasTable EvmCall.
Import Bytes.

(** ** Opcodes *)

Definition STOP : Z := 0x00.
Definition ADD : Z := 0x01.
Definition MUL : Z := 0x02.
Definition SUB : Z := 0x03.
Definition DIV : Z := 0x04.
Definition SDIV : Z := 0x05.
Definition MOD : Z := 0x06.
Definition SMOD : Z := 0x07.
Definition ADDMOD : Z := 0x08.
Definition MULMOD : Z := 0x09.
Definition EXP : Z := 0x0a.
Definition SIGNEXTEND : Z := 0x0b.
Definition LT : Z := 0x10.
Definition GT : Z := 0x11.
Definition SLT : Z := 0x12.
Definition SGT : Z := 0x13.
Definition EQ : Z := 0x14.
Definition ISZERO : Z := 0x15.
Definition AND : Z := 0x16.
Definition OR : Z := 0x17.
Definition XOR : Z := 0x18.
Definition NOT : Z := 0x19.
Definition BYTE : Z := 0x1a.
Definition SHL : Z := 0x1b.
Definition SHR : Z := 0x1c.
Definition SAR : Z := 0x1d.
Definition SHA3 : Z := 0x20.
Definition ADDRESS : Z := 0x30.
Definition BALANCE : Z := 0x31.
Definition ORIGIN : Z := 0x32.
Definition CALLER : Z := 0x33.
Definition CALLVALUE : Z := 0x34.
Definition CALLDATALOAD : Z := 0x35.
Definition CALLDATASIZE : Z := 0x36.
Definition CALLDATACOPY : Z := 0x37.
Definition CODESIZE : Z := 0x38.
Definition CODECOPY : Z := 0x39.
Definition GASPRICE : Z := 0x3a.
Definition EXTCODESIZE : Z := 0x3b.
Definition EXTCODECOPY : Z := 0x3c.
Definition RETURNDATASIZE : Z := 0x3d.
Definition RETURNDATACOPY : Z := 0x3e.
Definition EXTCODEHASH : Z := 0x3f.
Definition BLOCKHASH : Z := 0x40.
Definition COINBASE : Z := 0x41.
Definition TIMESTAMP : Z := 0x42.
Definition NUMBER : Z := 0x43.
Definition DIFFICULTY : Z := 0x44.
Definition GASLIMIT : Z := 0x45.
Definition CHAINID : Z := 0x46.
Definition SELFBALANCE : Z := 0x47.
Definition BASEFEE : Z := 0x48.
Definition POP : Z := 0x50.
Definition MLOAD : Z := 0x51.
Definition MSTORE : Z := 0x52.
Definition MSTORE8 : Z := 0x53.
Definition SLOAD : Z := 0x54.
Definition SSTORE : Z := 0x55.
Definition JUMP : Z := 0x56.
Definition JUMPI : Z := 0x57.
Definition PC : Z := 0x58.
Definition MSIZE : Z := 0x59.
Definition GAS : Z := 0x5a.
Definition LOG0 : Z := 0xa0.
Definition CREATE : Z := 0xf0.
Definition CALL : Z := 0xf1.
Definition CALLCODE : Z := 0xf2.
Definition RETURN : Z := 0xf3.
Definition DELEGATECALL : Z := 0xf4.
Definition CREATE2 : Z := 0xf5.
Definition STATICCALL : Z := 0xfa.
Definition REVERT : Z := 0xfd.
Definition SELFDESTRUCT : Z := 0xff.
Definition DUP1 : Z := 0x80.
Definition SWAP1 : Z := 0x90.

Section Instructions.
Context {B : Backend} {U : Uint256} {P : Precompiles} (env : EvmEnv) (Run : runner).

Definition op_result : Type := bytes * option vm_error.
Definition nil_nil : X op_result := sret ([], None).

(** ** Arithmetic, comparison and bits *)

(** [x, y := pop(), peek()] and the result written over [y]. *)
Definition binop (f : Z → Z → Z) : X op_result :=
  run! x <- spop; run! y <- speek; run! _ <- spoke (f x y); nil_nil.
Definition flag (b : bool) : Z := if b then 1 else 0.

Definition opAdd := binop u_Add.
Definition opSub := binop u_Sub.
Definition opMul := binop u_Mul.
Definition opDiv := binop u_Div.
Definition opSdiv := binop u_SDiv.
Definition opMod := binop u_Mod.
Definition opSmod := binop u_SMod.
Definition opExp := binop u_Exp.
Definition opSignExtend := binop (λ back num, u_ExtendSign num back).
Definition opNot : X op_result := run! x <- speek; run! _ <- spoke (u_Not x); nil_nil.
Definition opLt := binop (λ x y, flag (x <? y)).
Definition opGt := binop (λ x y, flag (y <? x)).
Definition opSlt := binop (λ x y, flag (u_Slt x y)).
Definition opSgt := binop (λ x y, flag (u_Sgt x y)).
Definition opEq := binop (λ x y, flag (x =? y)).
Definition opIszero : X op_result := run! x <- speek; run! _ <- spoke (flag (x =? 0)); nil_nil.
Definition opAnd := binop u_And.
Definition opOr := binop u_Or.
Definition opXor := binop u_Xor.
Definition opByte := binop (λ th val, u_Byte val th).
Definition opAddmod : X op_result :=
  run! x <- spop; run! y <- spop; run! z <- speek;
  run! _ <- spoke (if z =? 0 then 0 else u_AddMod x y z); nil_nil.
Definition opMulmod : X op_result :=
  run! x <- spop; run! y <- spop; run! z <- speek; run! _ <- spoke (u_MulMod x y z); nil_nil.
Definition opSHL := binop (λ shift value, if shift <? 256 then u_Lsh value (Uint64 shift) else 0).
Definition opSHR := binop (λ shift value, if shift <? 256 then u_Rsh value (Uint64 shift) else 0).
(** [value.Sign() >= 0]: the sign bit is clear. *)
Definition opSAR := binop (λ shift value,
  if 256 <? shift then if value <? 2 ^ 255 then 0 else 2 ^ 256 - 1
  else u_SRsh value (Uint64 shift)).

Definition opSha3 : X op_result :=
  run! offset <- spop;
  run! size <- speek;
  run! mem <- sread m_mem;
  run! data <- sout (GetPtr (i64 (Uint64 offset)) (i64 (Uint64 size)) mem);
  let h := Keccak256Hash data in
  run! _ <- (if env_EnablePreimageRecording env then on_evm (db_do (AddPreimage h data)) else sret tt);
  run! _ <- spoke h;
  nil_nil.

(** ** Environment *)

Definition pushes (x : Z) : X op_result := run! _ <- spush x; nil_nil.
(** [uint256.FromBig] of a pointer that may be nil. *)
Definition pushes_big (x : option Z) : X op_result := run! v <- sopt x; pushes (FromBig v).

Definition opAddress : X op_result := run! a <- self_addr; pushes a.
Definition opBalance : X op_result :=
  run! slot <- speek;
  run! b <- on_evm (db_read (GetBalance (Bytes20 slot)));
  run! _ <- spoke (FromBig b);
  nil_nil.
Definition opOrigin : X op_result := pushes (env_Origin env).
Definition opCaller : X op_result := run! a <- contract_get ct_CallerAddress; pushes a.
Definition opCallValue : X op_result := run! v <- contract_get ct_value; pushes_big v.
Definition opCallDataLoad : X op_result :=
  run! x <- speek;
  let '(offset, overflow) := Uint64WithOverflow x in
  run! v <- (if overflow then sret 0
             else
               run! input <- contract_get ct_Input;
               run! data <- sout (getData input offset 32);
               sret (SetBytes data));
  run! _ <- spoke v;
  nil_nil.
Definition opCallDataSize : X op_result := run! input <- contract_get ct_Input; pushes (zlen input).

(** An offset beyond [uint64] reads as the largest one. *)
Definition clamp64 (x : Z) : Z := let '(v, overflow) := Uint64WithOverflow x in if overflow then MaxUint64 else v.

(** Copy [length] bytes of [data] from [dataOffset] to the memory. *)
Definition copy_data (data : bytes) (memOffset dataOffset length : Z) : X op_result :=
  run! d <- sout (getData data (clamp64 dataOffset) (Uint64 length));
  run! _ <- smem (mem_Set (Uint64 memOffset) (Uint64 length) d);
  nil_nil.

Definition opCallDataCopy : X op_result :=
  run! memOffset <- spop; run! dataOffset <- spop; run! length <- spop;
  run! input <- contract_get ct_Input;
  copy_data input memOffset dataOffset length.
Definition opReturnDataSize : X op_result := run! d <- on_evm (sread ev_returnData); pushes (zlen d).
Definition opReturnDataCopy : X op_result :=
  run! memOffset <- spop; run! dataOffset <- spop; run! length <- spop;
  run! returnData <- on_evm (sread ev_returnData);
  let '(offset64, overflow) := Uint64WithOverflow dataOffset in
  if overflow then sret ([], Some ErrReturnDataOutOfBounds)
  else
    let end_ := u_Add dataOffset length in
    let '(end64, overflow) := Uint64WithOverflow end_ in
    if overflow || (zlen returnData <? end64) then sret ([], Some ErrReturnDataOutOfBounds)
    else if end64 <? offset64 then spanic
    else
      run! _ <- smem (mem_Set (Uint64 memOffset) (Uint64 length) (slice returnData offset64 end64));
      nil_nil.
Definition opExtCodeSize : X op_result :=
  run! slot <- speek;
  run! n <- on_evm (db_read (GetCodeSize (Bytes20 slot)));
  run! _ <- spoke (u64 n);
  nil_nil.
Definition opCodeSize : X op_result := run! code <- contract_get ct_Code; pushes (zlen code).
Definition opCodeCopy : X op_result :=
  run! memOffset <- spop; run! codeOffset <- spop; run! length <- spop;
  run! code <- contract_get ct_Code;
  copy_data code memOffset codeOffset length.
Definition opExtCodeCopy : X op_result :=
  run! a <- spop;
  run! memOffset <- spop; run! codeOffset <- spop; run! length <- spop;
  run! code <- on_evm (db_read (GetCode (Bytes20 a)));
  copy_data (default [] code) memOffset codeOffset length.
Definition opExtCodeHash : X op_result :=
  run! slot <- speek;
  run! empty <- on_evm (db_read (Empty (Bytes20 slot)));
  run! h <- (if empty then sret 0 else on_evm (db_read (GetCodeHash (Bytes20 slot))));
  run! _ <- spoke h;
  nil_nil.
Definition opGasprice : X op_result := pushes (FromBig (env_GasPrice env)).
Definition opBlockhash : X op_result :=
  run! num <- speek;
  let '(num64, overflow) := Uint64WithOverflow num in
  let upper := u64 (env_BlockNumber env) in
  let lower := if upper <? 257 then 0 else upper - 256 in
  run! _ <- spoke (if overflow then 0
                   else if (lower <=? num64) && (num64 <? upper) then env_GetHash env num64 else 0);
  nil_nil.
Definition opCoinbase : X op_result := pushes (env_Coinbase env).
Definition opTimestamp : X op_result := pushes (FromBig (env_Time env)).
Definition opNumber : X op_result := pushes (FromBig (env_BlockNumber env)).
Definition opDifficulty : X op_result := pushes (FromBig (env_Difficulty env)).
Definition opGasLimit : X op_result := pushes (u64 (env_GasLimit env)).
Definition opSelfBalance : X op_result :=
  run! self <- self_addr; run! b <- on_evm (db_read (GetBalance self)); pushes (FromBig b).
Definition opChainID : X op_result := pushes_big (env_ChainID env).
Definition opBaseFee : X op_result := pushes_big (env_BaseFee env).

(** ** Stack, memory, storage and flow *)

Definition opPop : X op_result := run! _ <- spop; nil_nil.
Definition opMload : X op_result :=
  run! v <- speek;
  run! mem <- sread m_mem;
  run! d <- sout (GetPtr (i64 (Uint64 v)) 32 mem);
  run! _ <- spoke (SetBytes d);
  nil_nil.
Definition opMstore : X op_result :=
  run! mStart <- spop; run! val <- spop; run! _ <- smem (mem_Set32 (Uint64 mStart) val); nil_nil.
Definition opMstore8 : X op_result :=
  run! off <- spop; run! val <- spop;
  run! _ <- smem (λ mem,
    if Uint64 off <? mem_Len mem
    then Ret (mkMemory (<[Z.to_nat (Uint64 off) := u8 (Uint64 val)]> (store mem)) (lastGasCost mem))
    else Panic);
  nil_nil.
Definition opSload : X op_result :=
  run! loc <- speek;
  run! self <- self_addr;
  run! v <- on_evm (db_read (sd_GetState self loc));
  run! _ <- spoke v;
  nil_nil.
Definition opSstore : X op_result :=
  run! loc <- spop; run! val <- spop; run! self <- self_addr;
  run! _ <- on_evm (db_do (SetState self loc val));
  nil_nil.

Definition set_pc (f : Z → Z) : X () := smodify (λ m, m_set_pc (f (m_pc m)) m).
Definition jump_to (pos : Z) : X op_result :=
  run! valid <- validJumpdest pos;
  if negb valid then sret ([], Some ErrInvalidJump)
  else run! _ <- set_pc (λ _, Uint64 pos); nil_nil.
Definition opJump : X op_result := run! pos <- spop; jump_to pos.
Definition opJumpi : X op_result :=
  run! pos <- spop; run! cond <- spop;
  if negb (cond =? 0) then jump_to pos else run! _ <- set_pc (λ pc, u64 (pc + 1)); nil_nil.
Definition opJumpdest : X op_result := nil_nil.
Definition opPc : X op_result := run! pc <- sread m_pc; pushes pc.
Definition opMsize : X op_result := run! mem <- sread m_mem; pushes (mem_Len mem).
Definition opGas : X op_result := run! g <- contract_get ct_Gas; pushes g.

(** ** Creation and calls *)

(** Take all but a 64th of the gas for the new contract. *)
Definition create_gas : X Z :=
  run! gas <- contract_get ct_Gas;
  let gas := gas - gas / 64 in
  run! _ <- use_gas gas;
  sret gas.

Definition give_back (gas : Z) : X () := contract_do (λ c, ct_set_Gas (u64 (ct_Gas c + gas)) c).

(** Push the address or zero, take the gas back, keep the data of a revert. *)
Definition created (r : bytes * address * Z * option vm_error) : X op_result :=
  let '(res, addr, returnGas, suberr) := r in
  run! _ <- spush (match suberr with Some _ => 0 | None => addr end);
  run! _ <- give_back returnGas;
  sret (if decide (suberr = Some ErrExecutionReverted) then (res, None) else ([], None)).

Definition self_ref : X ContractRef := contract_get OfContract.

Definition opCreate : X op_result :=
  run! value <- spop; run! offset <- spop; run! size <- spop;
  run! mem <- sread m_mem;
  run! input <- sout (GetCopy (i64 (Uint64 offset)) (i64 (Uint64 size)) mem);
  run! gas <- create_gas;
  run! caller <- self_ref;
  run! r <- on_evm (Create env Run caller input gas value);
  created r.
Definition opCreate2 : X op_result :=
  run! endowment <- spop; run! offset <- spop; run! size <- spop; run! salt <- spop;
  run! mem <- sread m_mem;
  run! input <- sout (GetCopy (i64 (Uint64 offset)) (i64 (Uint64 size)) mem);
  run! gas <- create_gas;
  run! caller <- self_ref;
  run! r <- on_evm (Create2 env Run caller input gas endowment salt);
  created r.

(** Push success, copy the returned data, take the gas back. *)
Definition called (retOffset retSize : Z) (r : bytes * Z * option vm_error) : X op_result :=
  let '(ret, returnGas, err) := r in
  run! _ <- spush (match err with Some _ => 0 | None => 1 end);
  run! _ <- (if decide (err = None ∨ err = Some ErrExecutionReverted)
             then smem (mem_Set (Uint64 retOffset) (Uint64 retSize) ret) else sret tt);
  run! _ <- give_back returnGas;
  sret (ret, None).

Definition call_args (inOffset inSize : Z) : X bytes :=
  run! mem <- sread m_mem; sout (GetPtr (i64 (Uint64 inOffset)) (i64 (Uint64 inSize)) mem).

(** The stipend comes with a transferred value. *)
Definition with_stipend (gas value : Z) : Z := if value =? 0 then gas else u64 (gas + CallStipend).

Definition opCall : X op_result :=
  run! _ <- spop;
  run! gas <- on_evm (sread ev_callGasTemp);
  run! addr <- spop; run! value <- spop; run! inOffset <- spop; run! inSize <- spop;
  run! retOffset <- spop; run! retSize <- spop;
  run! args <- call_args inOffset inSize;
  run! caller <- self_ref;
  run! r <- on_evm (Call env Run caller (Bytes20 addr) args (with_stipend gas value) value);
  called retOffset retSize r.
Definition opCallCode : X op_result :=
  run! _ <- spop;
  run! gas <- on_evm (sread ev_callGasTemp);
  run! addr <- spop; run! value <- spop; run! inOffset <- spop; run! inSize <- spop;
  run! retOffset <- spop; run! retSize <- spop;
  run! args <- call_args inOffset inSize;
  run! caller <- self_ref;
  run! r <- on_evm (CallCode env Run caller (Bytes20 addr) args (with_stipend gas value) value);
  called retOffset retSize r.
Definition opDelegateCall : X op_result :=
  run! _ <- spop;
  run! gas <- on_evm (sread ev_callGasTemp);
  run! addr <- spop; run! inOffset <- spop; run! inSize <- spop; run! retOffset <- spop; run! retSize <- spop;
  run! args <- call_args inOffset inSize;
  run! caller <- self_ref;
  run! r <- on_evm (DelegateCall env Run caller (Bytes20 addr) args gas);
  called retOffset retSize r.
Definition opStaticCall : X op_result :=
  run! _ <- spop;
  run! gas <- on_evm (sread ev_callGasTemp);
  run! addr <- spop; run! inOffset <- spop; run! inSize <- spop; run! retOffset <- spop; run! retSize <- spop;
  run! args <- call_args inOffset inSize;
  run! caller <- self_ref;
  run! r <- on_evm (StaticCall env Run caller (Bytes20 addr) args gas);
  called retOffset retSize r.

(** [opReturn] and [opRevert] differ in the table only. *)
Definition opReturn : X op_result :=
  run! offset <- spop; run! size <- spop; run! ret <- call_args offset size; sret (ret, None).
Definition opRevert : X op_result :=
  run! offset <- spop; run! size <- spop; run! ret <- call_args offset size; sret (ret, None).
Definition opStop : X op_result := nil_nil.
Definition opSuicide : X op_result :=
  run! beneficiary <- spop;
  run! self <- self_addr;
  run! balance <- on_evm (db_read (GetBalance self));
  run! _ <- on_evm (db_do (AddBalance (Bytes20 beneficiary) balance));
  run! _ <- on_evm (db_read (Suicide self));
  nil_nil.

(** ** Families *)

Fixpoint pop_topics (n : nat) : X (list hash) :=
  match n with
  | O => sret []
  | S n => run! x <- spop; run! l <- pop_topics n; sret (x :: l)
  end.
Definition makeLog (size : Z) : X op_result :=
  run! mStart <- spop; run! mSize <- spop;
  run! topics <- pop_topics (Z.to_nat size);
  run! mem <- sread m_mem;
  run! d <- sout (GetCopy (i64 (Uint64 mStart)) (i64 (Uint64 mSize)) mem);
  run! self <- self_addr;
  run! _ <- on_evm (db_do (AddLog (mkLog self topics d (u64 (env_BlockNumber env)) 0 0 0 0 false)));
  nil_nil.
Definition opPush1 : X op_result :=
  run! code <- contract_get ct_Code;
  run! _ <- set_pc (λ pc, u64 (pc + 1));
  run! pc <- sread m_pc;
  pushes (if pc <? zlen code then default 0 (code !! Z.to_nat pc) else 0).
Definition makePush (size pushByteSize : Z) : X op_result :=
  run! code <- contract_get ct_Code;
  run! pc <- sread m_pc;
  let codeLen := zlen code in
  let startMin := if i64 (u64 (pc + 1)) <? codeLen then i64 (u64 (pc + 1)) else codeLen in
  let endMin := if startMin + pushByteSize <? codeLen then startMin + pushByteSize else codeLen in
  run! _ <- spush (SetBytes (RightPadBytes (slice code startMin endMin) pushByteSize));
  run! _ <- set_pc (λ pc, u64 (pc + size));
  nil_nil.
Definition sstack (f : list Z → option (list Z)) : X () := λ m,
  match f (m_stack m) with Some st => XRet (tt, m_set_stack st m) | None => XPanic end.
Definition makeDup (size : Z) : X op_result := run! _ <- sstack (dup size); nil_nil.
Definition makeSwap (size : Z) : X op_result := run! _ <- sstack (swap (size + 1)); nil_nil.

(** ** Jump tables *)

Record operation := mkOperation {
  execute : X op_result;
  constantGas : Z;
  dynamicGas : option (Z → X (result vm_error Z));
  minStack : Z;
  maxStack : Z;
  memorySize : option (list Z → option (Z * bool));
  halts : bool;
  jumps : bool;
  writes : bool;
  reverts : bool;
  returns : bool
}.

(** [minStack(pops, pushes)] and [maxStack(pops, pushes)]; the flags default to
    false. *)
Definition opn (ex : X op_result) (gas : Z) (dyn : option (Z → X (result vm_error Z))) (pops pushes : Z)
    (msize : option (list Z → option (Z * bool))) : operation :=
  mkOperation ex gas dyn pops (StackLimit + pops - pushes) msize false false false false false.
Definition halting (o : operation) : operation :=
  mkOperation (execute o) (constantGas o) (dynamicGas o) (minStack o) (maxStack o) (memorySize o) true (jumps o)
    (writes o) (reverts o) (returns o).
Definition jumping (o : operation) : operation :=
  mkOperation (execute o) (constantGas o) (dynamicGas o) (minStack o) (maxStack o) (memorySize o) (halts o) true
    (writes o) (reverts o) (returns o).
Definition writing (o : operation) : operation :=
  mkOperation (execute o) (constantGas o) (dynamicGas o) (minStack o) (maxStack o) (memorySize o) (halts o) (jumps o)
    true (reverts o) (returns o).
Definition reverting (o : operation) : operation :=
  mkOperation (execute o) (constantGas o) (dynamicGas o) (minStack o) (maxStack o) (memorySize o) (halts o) (jumps o)
    (writes o) true (returns o).
Definition returning (o : operation) : operation :=
  mkOperation (execute o) (constantGas o) (dynamicGas o) (minStack o) (maxStack o) (memorySize o) (halts o) (jumps o)
    (writes o) (reverts o) true.
Definition set_constantGas (gas : Z) (o : operation) : operation :=
  mkOperation (execute o) gas (dynamicGas o) (minStack o) (maxStack o) (memorySize o) (halts o) (jumps o) (writes o)
    (reverts o) (returns o).
Definition set_dynamicGas (dyn : Z → X (result vm_error Z)) (o : operation) : operation :=
  mkOperation (execute o) (constantGas o) (Some dyn) (minStack o) (maxStack o) (memorySize o) (halts o) (jumps o)
    (writes o) (reverts o) (returns o).

(** A table lists the opcodes it defines; the rest are nil. *)
Definition JumpTable : Type := list (Z * operation).
Definition jt_get (jt : JumpTable) (op : Z) : option operation :=
  match find (λ e, fst e =? op) jt with Some (_, o) => Some o | None => None end.
(** [jt[op] = o] and an assignment to a field of [jt[op]]. *)
Definition jt_set (op : Z) (o : operation) (jt : JumpTable) : JumpTable := (op, o) :: jt.
Definition jt_upd (op : Z) (f : operation → operation) (jt : JumpTable) : JumpTable :=
  map (λ e, if fst e =? op then (fst e, f (snd e)) else e) jt.

Definition newFrontierInstructionSet : JumpTable :=
  [
   (STOP, halting (opn opStop 0 None 0 0 None));
   (ADD, opn opAdd GasFastestStep None 2 1 None);
   (MUL, opn opMul GasFastStep None 2 1 None);
   (SUB, opn opSub GasFastestStep None 2 1 None);
   (DIV, opn opDiv GasFastStep None 2 1 None);
   (SDIV, opn opSdiv GasFastStep None 2 1 None);
   (MOD, opn opMod GasFastStep None 2 1 None);
   (SMOD, opn opSmod GasFastStep None 2 1 None);
   (ADDMOD, opn opAddmod GasMidStep None 3 1 None);
   (MULMOD, opn opMulmod GasMidStep None 3 1 None);
   (EXP, opn opExp 0 (Some gasExpFrontier) 2 1 None);
   (SIGNEXTEND, opn opSignExtend GasFastStep None 2 1 None);
   (LT, opn opLt GasFastestStep None 2 1 None);
   (GT, opn opGt GasFastestStep None 2 1 None);
   (SLT, opn opSlt GasFastestStep None 2 1 None);
   (SGT, opn opSgt GasFastestStep None 2 1 None);
   (EQ, opn opEq GasFastestStep None 2 1 None);
   (ISZERO, opn opIszero GasFastestStep None 1 1 None);
   (AND, opn opAnd GasFastestStep None 2 1 None);
   (XOR, opn opXor GasFastestStep None 2 1 None);
   (OR, opn opOr GasFastestStep None 2 1 None);
   (NOT, opn opNot GasFastestStep None 1 1 None);
   (BYTE, opn opByte GasFastestStep None 2 1 None);
   (SHA3, opn opSha3 Sha3Gas (Some gasSha3) 2 1 (Some memorySha3));
   (ADDRESS, opn opAddress GasQuickStep None 0 1 None);
   (BALANCE, opn opBalance BalanceGasFrontier None 1 1 None);
   (ORIGIN, opn opOrigin GasQuickStep None 0 1 None);
   (CALLER, opn opCaller GasQuickStep None 0 1 None);
   (CALLVALUE, opn opCallValue GasQuickStep None 0 1 None);
   (CALLDATALOAD, opn opCallDataLoad GasFastestStep None 1 1 None);
   (CALLDATASIZE, opn opCallDataSize GasQuickStep None 0 1 None);
   (CALLDATACOPY, opn opCallDataCopy GasFastestStep (Some gasCallDataCopy) 3 0 (Some memoryCallDataCopy));
   (CODESIZE, opn opCodeSize GasQuickStep None 0 1 None);
   (CODECOPY, opn opCodeCopy GasFastestStep (Some gasCodeCopy) 3 0 (Some memoryCodeCopy));
   (GASPRICE, opn opGasprice GasQuickStep None 0 1 None);
   (EXTCODESIZE, opn opExtCodeSize ExtcodeSizeGasFrontier None 1 1 None);
   (EXTCODECOPY, opn opExtCodeCopy ExtcodeCopyBaseFrontier (Some gasExtCodeCopy) 4 0 (Some memoryExtCodeCopy));
   (BLOCKHASH, opn opBlockhash GasExtStep None 1 1 None);
   (COINBASE, opn opCoinbase GasQuickStep None 0 1 None);
   (TIMESTAMP, opn opTimestamp GasQuickStep None 0 1 None);
   (NUMBER, opn opNumber GasQuickStep None 0 1 None);
   (DIFFICULTY, opn opDifficulty GasQuickStep None 0 1 None);
   (GASLIMIT, opn opGasLimit GasQuickStep None 0 1 None);
   (POP, opn opPop GasQuickStep None 1 0 None);
   (MLOAD, opn opMload GasFastestStep (Some gasMLoad) 1 1 (Some memoryMLoad));
   (MSTORE, opn opMstore GasFastestStep (Some gasMStore) 2 0 (Some memoryMStore));
   (MSTORE8, opn opMstore8 GasFastestStep (Some gasMStore8) 2 0 (Some memoryMStore8));
   (SLOAD, opn opSload SloadGasFrontier None 1 1 None);
   (SSTORE, writing (opn opSstore 0 (Some gasSStore) 2 0 None));
   (JUMP, jumping (opn opJump GasMidStep None 1 0 None));
   (JUMPI, jumping (opn opJumpi GasSlowStep None 2 0 None));
   (PC, opn opPc GasQuickStep None 0 1 None);
   (MSIZE, opn opMsize GasQuickStep None 0 1 None);
   (GAS, opn opGas GasQuickStep None 0 1 None);
   (JUMPDEST, opn opJumpdest JumpdestGas None 0 0 None);
   (PUSH1, opn opPush1 GasFastestStep None 0 1 None)]
  ++ map (λ n, (PUSH1 + (n - 1), opn (makePush n n) GasFastestStep None 0 1 None)) (seqZ 2 31)
  ++ map (λ n, (DUP1 + (n - 1), opn (makeDup n) GasFastestStep None n (n + 1) None)) (seqZ 1 16)
  ++ map (λ n, (SWAP1 + (n - 1), opn (makeSwap n) GasFastestStep None (n + 1) (n + 1) None)) (seqZ 1 16)
  ++ map (λ n, (LOG0 + n, writing (opn (makeLog n) 0 (Some (makeGasLog n)) (n + 2) 0 (Some memoryLog)))) (seqZ 0 5)
  ++ [
   (CREATE, returning (writing (opn opCreate CreateGas (Some gasCreate) 3 1 (Some memoryCreate))));
   (CALL, returning (opn opCall CallGasFrontier (Some gasCall) 7 1 (Some memoryCall)));
   (CALLCODE, returning (opn opCallCode CallGasFrontier (Some gasCallCode) 7 1 (Some memoryCall)));
   (RETURN, halting (opn opReturn 0 (Some gasReturn) 2 0 (Some memoryReturn)));
   (SELFDESTRUCT, writing (halting (opn opSuicide 0 (Some gasSelfdestruct) 1 0 None)))].

Definition newHomesteadInstructionSet : JumpTable :=
  jt_set DELEGATECALL (returning (opn opDelegateCall CallGasFrontier (Some gasDelegateCall) 6 1 (Some memoryDelegateCall)))
    newFrontierInstructionSet.

Definition newTangerineWhistleInstructionSet : JumpTable :=
  let jt := newHomesteadInstructionSet in
  let jt := jt_upd BALANCE (set_constantGas BalanceGasEIP150) jt in
  let jt := jt_upd EXTCODESIZE (set_constantGas ExtcodeSizeGasEIP150) jt in
  let jt := jt_upd SLOAD (set_constantGas SloadGasEIP150) jt in
  let jt := jt_upd EXTCODECOPY (set_constantGas ExtcodeCopyBaseEIP150) jt in
  let jt := jt_upd CALL (set_constantGas CallGasEIP150) jt in
  let jt := jt_upd CALLCODE (set_constantGas CallGasEIP150) jt in
  jt_upd DELEGATECALL (set_constantGas CallGasEIP150) jt.

Definition newSpuriousDragonInstructionSet : JumpTable :=
  jt_upd EXP (set_dynamicGas gasExpEIP158) newTangerineWhistleInstructionSet.

Definition newByzantiumInstructionSet : JumpTable :=
  let jt := newSpuriousDragonInstructionSet in
  let jt := jt_set STATICCALL
    (returning (opn opStaticCall CallGasEIP150 (Some gasStaticCall) 6 1 (Some memoryStaticCall))) jt in
  let jt := jt_set RETURNDATASIZE (opn opReturnDataSize GasQuickStep None 0 1 None) jt in
  let jt := jt_set RETURNDATACOPY
    (opn opReturnDataCopy GasFastestStep (Some gasReturnDataCopy) 3 0 (Some memoryReturnDataCopy)) jt in
  jt_set REVERT (returning (reverting (opn opRevert 0 (Some gasRevert) 2 0 (Some memoryRevert)))) jt.

Definition newConstantinopleInstructionSet : JumpTable :=
  let jt := newByzantiumInstructionSet in
  let jt := jt_set SHL (opn opSHL GasFastestStep None 2 1 None) jt in
  let jt := jt_set SHR (opn opSHR GasFastestStep None 2 1 None) jt in
  let jt := jt_set SAR (opn opSAR GasFastestStep None 2 1 None) jt in
  let jt := jt_set EXTCODEHASH (opn opExtCodeHash ExtcodeHashGasConstantinople None 1 1 None) jt in
  jt_set CREATE2 (returning (writing (opn opCreate2 Create2Gas (Some gasCreate2) 4 1 (Some memoryCreate2)))) jt.

Definition enable1344 (jt : JumpTable) : JumpTable := jt_set CHAINID (opn opChainID GasQuickStep None 0 1 None) jt.

Definition enable1884 (jt : JumpTable) : JumpTable :=
  let jt := jt_upd SLOAD (set_constantGas SloadGasEIP1884) jt in
  let jt := jt_upd BALANCE (set_constantGas BalanceGasEIP1884) jt in
  let jt := jt_upd EXTCODEHASH (set_constantGas ExtcodeHashGasEIP1884) jt in
  jt_set SELFBALANCE (opn opSelfBalance GasFastStep None 0 1 None) jt.

Definition enable2200 (jt : JumpTable) : JumpTable :=
  let jt := jt_upd SLOAD (set_constantGas SloadGasEIP2200) jt in
  jt_upd SSTORE (set_dynamicGas gasSStoreEIP2200) jt.

Definition newIstanbulInstructionSet : JumpTable :=
  enable2200 (enable1884 (enable1344 newConstantinopleInstructionSet)).

Definition warm_with (dyn : Z → X (result vm_error Z)) (o : operation) : operation :=
  set_dynamicGas dyn (set_constantGas WarmStorageReadCostEIP2929 o).

Definition enable2929 (jt : JumpTable) : JumpTable :=
  let jt := jt_upd SSTORE (set_dynamicGas gasSStoreEIP2929) jt in
  let jt := jt_upd SLOAD (λ o, set_dynamicGas gasSLoadEIP2929 (set_constantGas 0 o)) jt in
  let jt := jt_upd EXTCODECOPY (warm_with gasExtCodeCopyEIP2929) jt in
  let jt := jt_upd EXTCODESIZE (warm_with gasEip2929AccountCheck) jt in
  let jt := jt_upd EXTCODEHASH (warm_with gasEip2929AccountCheck) jt in
  let jt := jt_upd BALANCE (warm_with gasEip2929AccountCheck) jt in
  let jt := jt_upd CALL (warm_with gasCallEIP2929) jt in
  let jt := jt_upd CALLCODE (warm_with gasCallCodeEIP2929) jt in
  let jt := jt_upd STATICCALL (warm_with gasStaticCallEIP2929) jt in
  let jt := jt_upd DELEGATECALL (warm_with gasDelegateCallEIP2929) jt in
  jt_upd SELFDESTRUCT (λ o, set_dynamicGas gasSelfdestructEIP2929 (set_constantGas SelfdestructGasEIP150 o)) jt.

Definition newBerlinInstructionSet : JumpTable := enable2929 newIstanbulInstructionSet.

Definition enable3529 (jt : JumpTable) : JumpTable :=
  let jt := jt_upd SSTORE (set_dynamicGas gasSStoreEIP3529) jt in
  jt_upd SELFDESTRUCT (set_dynamicGas gasSelfdestructEIP3529) jt.

Definition enable3198 (jt : JumpTable) : JumpTable := jt_set BASEFEE (opn opBaseFee GasQuickStep None 0 1 None) jt.

Definition newLondonInstructionSet : JumpTable := enable3198 (enable3529 newBerlinInstructionSet).

End Instructions.

(** The instructions that make no call, by their definitions. *)
Create HintDb evmops.
#[export] Hint Unfold binop nil_nil pushes pushes_big copy_data jump_to op_result
  opAdd opSub opMul opDiv opSdiv opMod opSmod opExp opSignExtend opNot opLt opGt opSlt opSgt opEq opIszero opAnd
  opOr opXor opByte opAddmod opMulmod opSHL opSHR opSAR opSha3 opAddress opBalance opOrigin opCaller opCallValue
  opCallDataLoad opCallDataSize opCallDataCopy opReturnDataSize opReturnDataCopy opExtCodeSize opCodeSize opCodeCopy
  opExtCodeCopy opExtCodeHash opGasprice opBlockhash opCoinbase opTimestamp opNumber opDifficulty opGasLimit
  opSelfBalance opChainID opBaseFee opPop opMload opMstore opMstore8 opSload opSstore opJump opJumpi opJumpdest opPc
  opMsize opGas opReturn opRevert opStop opSuicide makeLog opPush1 makePush makeDup makeSwap call_args
  speek self_addr contract_get : evmops.

(** Compute the London table down to its entries, keeping the instructions and
    the gas functions folded. *)
Ltac london_entries :=
  lazy [newLondonInstructionSet enable3198 enable3529 newBerlinInstructionSet enable2929 warm_with
    newIstanbulInstructionSet enable2200 enable1884 enable1344 newConstantinopleInstructionSet
    newByzantiumInstructionSet newSpuriousDragonInstructionSet newTangerineWhistleInstructionSet
    newHomesteadInstructionSet newFrontierInstructionSet jt_set jt_upd map app fst snd
    opn halting jumping writing reverting returning set_constantGas set_dynamicGas
    execute constantGas dynamicGas minStack maxStack memorySize halts jumps writes reverts returns
    seqZ fmap list_fmap seq Z.to_nat Pos.to_nat Pos.iter_op Nat.add Init.Nat.add Z.of_nat Pos.of_succ_nat Pos.succ
    Z.eqb Pos.eqb Z.add Pos.add Pos.add_carry Z.sub Z.opp Z.pos_sub Pos.pred_double Z.succ_double Z.pred_double
    Z.double StackLimit
    STOP ADD MUL SUB DIV SDIV MOD SMOD ADDMOD MULMOD EXP SIGNEXTEND LT GT SLT SGT EQ ISZERO AND OR XOR NOT BYTE SHL
    SHR SAR SHA3 ADDRESS BALANCE ORIGIN CALLER CALLVALUE CALLDATALOAD CALLDATASIZE CALLDATACOPY CODESIZE CODECOPY
    GASPRICE EXTCODESIZE EXTCODECOPY RETURNDATASIZE RETURNDATACOPY EXTCODEHASH BLOCKHASH COINBASE TIMESTAMP NUMBER
    DIFFICULTY GASLIMIT CHAINID SELFBALANCE BASEFEE POP MLOAD MSTORE MSTORE8 SLOAD SSTORE JUMP JUMPI PC MSIZE GAS
    JUMPDEST PUSH1 DUP1 SWAP1 LOG0 CREATE CALL CALLCODE RETURN DELEGATECALL CREATE2 STATICCALL REVERT SELFDESTRUCT].

Lemma jt_get_entry {B : Backend} (jt : JumpTable) op o : jt_get jt op = Some o → (op, o) ∈ jt.
Proof.
  unfold jt_get. destruct (find _ jt) as [[op' o']|] eqn:E; [|done]. intros [= ->].
  apply find_some in E as [Hin Heq]. cbn in Heq. apply Z.eqb_eq in Heq. subst op'. by apply list_elem_of_In.
Qed.
