(* ===== verification/EvmRun.v ===== *)
(** * The interpreter loop (core/vm/interpreter.go)

    One round of the loop ([step]), the loop with fuel, and a run of a
    contract.  The fuel bounds the rounds of a frame and of the frames below
    it; [EvmGas] shows that the gas of the contract is always enough of it.
    The tracer hooks are left out. *)
From S2P Require Import Prelude Common AccessList StateObject StateDB EvmWord EvmAnalysis EvmMachine EvmGasTable EvmCall.
From S2P Require Import EvmInstr.
Import GoMath.

Section Interpreter.
Context {B : Backend} {U : Uint256} {P : Precompiles} (env : EvmEnv).

Definition halt (ret : bytes) (err : option vm_error) : X (option op_result) := sret (Some (ret, err)).

(** The memory an operation needs, in whole words. *)
Definition memory_size (o : operation) (st : list Z) : X (result vm_error Z) :=
  match memorySize o with
  | None => sret (Ok 0)
  | Some f =>
      match f st with
      | None => spanic
      | Some (memSize, overflow) =>
          if overflow then gfail ErrGasUintOverflow else checked (SafeMul (toWordSize memSize) 32)
      end
  end.

(** Charge the dynamic gas; false when it cannot be paid. *)
Definition charge_dynamic (o : operation) (size : Z) : X bool :=
  match dynamicGas o with
  | None => sret true
  | Some g => run! r <- g size; match r with Err _ => sret false | Ok cost => use_gas cost end
  end.

(** What follows the execution of an operation. *)
Definition after (o : operation) (r : op_result) : X (option op_result) :=
  let '(res, err) := r in
  run! _ <- (if returns o then on_evm (smodify (ev_set_returnData res)) else sret tt);
  match err with
  | Some e => halt [] (Some e)
  | None =>
      if reverts o then halt res (Some ErrExecutionReverted)
      else if halts o then halt res None
      else
        run! _ <- (if jumps o then sret tt else set_pc (λ pc, u64 (pc + 1)));
        sret None
  end.

(** Is the operation refused in a read-only frame? *)
Definition write_protected (o : operation) (op : Z) (st : list Z) : bool :=
  writes o || ((op =? CALL) && negb (default 0 (Back 2 st) =? 0)).

(** The gas, the memory and the work of an operation the stack allows. *)
Definition perform (o : operation) (st : list Z) : X (option op_result) :=
  run! ok <- use_gas (constantGas o);
  if negb ok then halt [] (Some ErrOutOfGas)
  else
    run! size <- memory_size o st;
    match size with
    | Err e => halt [] (Some e)
    | Ok size =>
        run! ok <- charge_dynamic o size;
        if negb ok then halt [] (Some ErrOutOfGas)
        else
          run! _ <- (if 0 <? size then smem (λ mem, Ret (mem_Resize size mem)) else sret tt);
          run! r <- execute o;
          after o r
    end.

(** One round: [None] continues. *)
Definition step (run : runner) : X (option op_result) :=
  run! c <- contract_get id;
  run! pc <- sread m_pc;
  let op := GetOp pc c in
  match jt_get (newLondonInstructionSet env run) op with
  | None => halt [] (Some (ErrInvalidOpCode op))
  | Some o =>
      run! st <- sread m_stack;
      if zlen st <? minStack o then halt [] (Some (ErrStackUnderflow (zlen st) (minStack o)))
      else if maxStack o <? zlen st then halt [] (Some (ErrStackOverflow (zlen st) (maxStack o)))
      else
        run! readOnly <- on_evm (sread ev_readOnly);
        if readOnly && write_protected o op st then halt [] (Some ErrWriteProtection)
        else perform o st
  end.

(** [in.Run] around the loop: depth, the read-only flag and the return data. *)
Definition enter (body : X op_result) : runner := λ contract input readOnly e,
  let sets := readOnly && negb (ev_readOnly e) in
  let leave (e : EVM) : EVM :=
    let e := if sets then ev_set_readOnly false e else e in
    ev_set_depth (ev_depth e - 1) e in
  let e := ev_set_depth (ev_depth e + 1) e in
  let e := if sets then ev_set_readOnly true e else e in
  let e := ev_set_returnData [] e in
  match ct_Code contract with
  | [] => XRet (([], None, contract), leave e)
  | _ =>
      match body (mkMachine 0 [] NewMemory (ct_set_Input input contract) e) with
      | XRet ((ret, err), m) => XRet ((ret, err, m_contract m), leave (m_evm m))
      | XPanic => XPanic
      | XFuel => XFuel
      end
  end.

(** The loop; every thousandth round looks at the abort flag. *)
Fixpoint loop (fuel : nat) (steps : Z) : X op_result :=
  match fuel with
  | O => λ _, XFuel
  | S fuel =>
      let steps := steps + 1 in
      if (steps mod 1000 =? 0) && env_abort env then sret ([], None)
      else
        run! r <- step (enter (loop fuel 0));
        match r with
        | Some r => sret r
        | None => loop fuel steps
        end
  end.

Definition Run (fuel : nat) : runner := enter (loop fuel 0).

End Interpreter.
