(* ===== verification/EvmLogic.v ===== *)
(** * Reasoning about EVM executions

    [wp x Q s]: the execution [x] started in [s] does not run out of fuel and,
    if it does not panic, ends with [Q]; [wlp x Q s] says nothing of an
    execution that runs out of fuel.  [pres R x]: it relates its start and
    end by the preorder [R].  The rules follow the structure of the code, so
    most instructions are handled by [pres_tac]. *)
From S2P Require Import Prelude Common AccessList StateObject StateDB EvmWord EvmAnalysis EvmMachine.

(** [F] is what running out of fuel counts as. *)
Definition wpg (F : Prop) {S A} (x : St S A) (Q : A → S → Prop) (s : S) : Prop :=
  match x s with
  | XRet (a, s) => Q a s
  | XPanic => True
  | XFuel => F
  end.
Notation wp := (wpg False).
Notation wlp := (wpg True).

Lemma wp_mono {F : Prop} {S A} (x : St S A) (Q Q' : A → S → Prop) s :
  wpg F x Q s → (∀ a s', Q a s' → Q' a s') → wpg F x Q' s.
Proof. unfold wpg. destruct (x s) as [[a s']| |]; auto. Qed.

Lemma wp_ret {F : Prop} {S A} (a : A) (Q : A → S → Prop) s : Q a s → wpg F (sret a) Q s.
Proof. done. Qed.

Lemma wp_read {F : Prop} {S A} (f : S → A) (Q : A → S → Prop) s : Q (f s) s → wpg F (sread f) Q s.
Proof. done. Qed.

Lemma wp_bind {F : Prop} {S A C} (x : St S A) (f : A → St S C) Q s :
  wpg F x (λ a, wpg F (f a) Q) s → wpg F (sbind x f) Q s.
Proof. unfold wpg, sbind. by destruct (x s) as [[a s']| |]. Qed.

Lemma wp_bind_inv {F : Prop} {S A C} (x : St S A) (f : A → St S C) Q s :
  wpg F (sbind x f) Q s → wpg F x (λ a, wpg F (f a) Q) s.
Proof. unfold wpg, sbind. by destruct (x s) as [[a s']| |]. Qed.

Lemma wp_try {F : Prop} {S E A C} (x : St S (result E A)) (f : A → St S (result E C)) Q s :
  wpg F x (λ r s', match r with Ok a => wpg F (f a) Q s' | Err e => Q (Err e) s' end) s → wpg F (stry x f) Q s.
Proof. intros H. apply wp_bind. eapply wp_mono; [exact H|]. by intros [a|e] s' HQ. Qed.

Lemma wp_and {F : Prop} {S A} (x : St S A) (Q1 Q2 : A → S → Prop) s :
  wpg F x Q1 s → wpg F x Q2 s → wpg F x (λ a s', Q1 a s' ∧ Q2 a s') s.
Proof. unfold wpg. by destruct (x s) as [[a s']| |]. Qed.

Definition presg (F : Prop) {S A} (R : S → S → Prop) (x : St S A) : Prop := ∀ s, wpg F x (λ _ s', R s s') s.
Notation pres := (presg False).
Notation lpres := (presg True).

Section Pres.
Context {F : Prop} {S : Type} (R : S → S → Prop) `{!PreOrder R}.

Lemma pres_ret {A} (a : A) : presg F R (sret a).
Proof. intros s. unfold wpg, sret. reflexivity. Qed.
Lemma pres_panic {A} : presg F R (@spanic S A).
Proof. done. Qed.
Lemma pres_read {A} (f : S → A) : presg F R (sread f).
Proof. intros s. unfold wpg, sread. reflexivity. Qed.
Lemma pres_opt {A} (o : option A) : presg F R (sopt o).
Proof. destruct o; [apply pres_ret|apply pres_panic]. Qed.
Lemma pres_out {A} (o : outcome A) : presg F R (sout o).
Proof. destruct o; [apply pres_ret|apply pres_panic]. Qed.
Lemma pres_modify (f : S → S) : (∀ s, R s (f s)) → presg F R (smodify f).
Proof. intros H s. apply H. Qed.
Lemma pres_bind {A C} (x : St S A) (f : A → St S C) : presg F R x → (∀ a, presg F R (f a)) → presg F R (sbind x f).
Proof.
  intros Hx Hf s. apply wp_bind. eapply wp_mono; [apply Hx|]. intros a s' H1.
  eapply wp_mono; [apply Hf|]. intros c s'' H2. by transitivity s'.
Qed.
Lemma pres_try {E A C} (x : St S (result E A)) (f : A → St S (result E C)) :
  presg F R x → (∀ a, presg F R (f a)) → presg F R (stry x f).
Proof. intros Hx Hf. apply pres_bind; [done|]. intros [a|e]; [apply Hf|apply pres_ret]. Qed.

(** Carrying a fact of the start state through a step. *)
Lemma wp_pres {A C} (x : St S A) (f : A → St S C) (Q : C → S → Prop) s :
  presg F R x → (∀ a s', R s s' → wpg F (f a) Q s') → wpg F (sbind x f) Q s.
Proof. intros Hx Hf. apply wp_bind. eapply wp_mono; [apply Hx|]. intros a s' H. by apply Hf. Qed.

End Pres.

(** ** Steps of the machine *)

Section Steps.
Context {F : Prop} {B : Backend}.

Lemma wp_on_evm {A} (v : V A) (Q : A → machine → Prop) m :
  wpg F v (λ a e, Q a (m_set_evm e m)) (m_evm m) → wpg F (on_evm v) Q m.
Proof. unfold wpg, on_evm. by destruct (v (m_evm m)) as [[a e]| |]. Qed.

Lemma wp_spop (Q : Z → machine → Prop) m :
  (∀ x st, m_stack m = x :: st → Q x (m_set_stack st m)) → wpg F spop Q m.
Proof. intros H. unfold wpg, spop. destruct (m_stack m) as [|x st]; cbn; [done|]. by apply H. Qed.

Lemma wp_sback n m (Q : Z → machine → Prop) :
  (∀ x, m_stack m !! n = Some x → Q x m) → wpg F (sback n) Q m.
Proof.
  intros H. unfold wpg, sback, sbind, sread, Back. destruct (m_stack m !! n) as [x|]; cbn; [|done]. by apply H.
Qed.

End Steps.

(** ** Parts of the machine an instruction leaves alone *)

Section Frames.
Context {B : Backend}.

(** [π] does not look at the stack, the program counter or the analysis
    cache. *)
Record frame_blind {T} (π : machine → T) : Prop := {
  fb_pc : ∀ v m, π (m_set_pc v m) = π m;
  fb_stack : ∀ v m, π (m_set_stack v m) = π m;
  fb_analysis : ∀ v m, π (m_set_contract (ct_set_analysis v (m_contract m)) m) = π m;
  fb_jumpdests : ∀ v m, π (m_set_evm (ev_set_jumpdests v (m_evm m)) m) = π m;
  fb_returnData : ∀ v m, π (m_set_evm (ev_set_returnData v (m_evm m)) m) = π m;
  fb_callGasTemp : ∀ v m, π (m_set_evm (ev_set_callGasTemp v (m_evm m)) m) = π m
}.

Context {F : Prop} {T : Type} (π : machine → T) (Hπ : frame_blind π) (R : machine → machine → Prop) `{!PreOrder R}
  (HR : ∀ m m', π m' = π m → R m m').

Lemma pres_spop : presg F R spop.
Proof.
  intros m. unfold wpg, spop. destruct (pop (m_stack m)) as [[x st]|]; [|done]. apply HR, (fb_stack _ Hπ).
Qed.
Lemma pres_spush x : presg F R (spush x).
Proof. apply pres_modify. intros m. apply HR, (fb_stack _ Hπ). Qed.
Lemma pres_sback n : presg F R (sback n).
Proof. apply pres_bind; [done|apply pres_read, _|intros st; apply pres_opt, _]. Qed.
Lemma pres_spoke x : presg F R (spoke x).
Proof. intros m. unfold wpg, spoke. destruct (m_stack m); [done|]. apply HR, (fb_stack _ Hπ). Qed.
Lemma pres_get_analysis : presg F R get_analysis.
Proof.
  intros m. unfold wpg, get_analysis. destruct (ct_analysis (m_contract m)); [reflexivity|].
  destruct (ct_CodeHash (m_contract m) =? 0).
  - destruct (codeBitmap _); [|done]. apply HR, (fb_analysis _ Hπ).
  - destruct (default ∅ _ !! _); [apply HR, (fb_analysis _ Hπ)|].
    destruct (codeBitmap _) as [a|]; [|done]. apply HR.
    set (m1 := m_set_contract _ m).
    transitivity (π m1); [|apply (fb_analysis _ Hπ)]. apply (fb_jumpdests _ Hπ _ m1).
Qed.
Lemma pres_isCode u : presg F R (isCode u).
Proof. apply pres_bind; [done|apply pres_get_analysis|intros a; apply pres_out, _]. Qed.
Lemma pres_validJumpdest d : presg F R (validJumpdest d).
Proof.
  unfold validJumpdest. destruct (Uint64WithOverflow d) as [u ov].
  apply pres_bind; [done|apply pres_read, _|]. intros c.
  destruct (ov || _); [apply pres_ret, _|]. destruct (negb _); [apply pres_ret, _|apply pres_isCode].
Qed.

End Frames.

Create HintDb evm discriminated.
#[export] Hint Resolve pres_ret pres_panic pres_read pres_opt pres_out pres_spop pres_spush pres_sback pres_spoke
  pres_get_analysis pres_validJumpdest : evm.

(** Follow the binds and the case distinctions; leaves go to the hints. *)
Ltac pres_tac :=
  repeat first
    [ solve [eauto 3 with evm typeclass_instances]
    | apply pres_bind; [apply _| |intros ?]
    | apply pres_try; [apply _| |intros ?]
    | progress cbv zeta
    | case_match ].
