(* ===== verification/EvmGas.v ===== *)
(** * Gas and termination of the EVM

    Every round of the interpreter that goes on costs at least one unit of gas,
    a call hands on no more gas than it was charged for, and what comes back is
    at most what was handed on.  So a run ends within as many rounds as the
    contract has gas, and the gas left never exceeds the gas given. *)
From S2P Require Import Prelude Common AccessList StateObject Concrete StateDB StateRevert StateBalance Transfer.
From S2P Require Import EvmWord EvmAnalysis EvmMachine EvmGasTable EvmMemory EvmCall EvmInstr EvmRun EvmLogic.
Import GoMath.

(** ** Relations on machines *)

Section Relations.
Context {B : Backend}.

Definition gas_of (m : machine) : Z := ct_Gas (m_contract m).

(** The gas is unchanged and the memory stays paid for. *)
Definition steady (m m' : machine) : Prop := gas_of m' = gas_of m ∧ (mem_ok (m_mem m) → mem_ok (m_mem m')).
(** Gas, memory and stack are unchanged. *)
Definition quiet (m m' : machine) : Prop := gas_of m' = gas_of m ∧ m_mem m' = m_mem m ∧ m_stack m' = m_stack m.

#[export] Instance steady_preorder : PreOrder steady.
Proof. split; [done|]. intros m1 m2 m3 [E1 H1] [E2 H2]. split; [congruence|auto]. Qed.
#[export] Instance quiet_preorder : PreOrder quiet.
Proof. split; [done|]. intros m1 m2 m3 (?&?&?) (?&?&?). repeat split; congruence. Qed.

(** Work of the EVM proper that needs no fuel. *)
Definition fuelless {A} (v : V A) : Prop := ∀ e, v e ≠ XFuel.

Lemma fuelless_read {A} (f : StateDB → A * StateDB) : fuelless (db_read f).
Proof. intros e. unfold db_read. by destruct (f _). Qed.
Lemma fuelless_do f : fuelless (db_do f).
Proof. done. Qed.
Lemma fuelless_try f : fuelless (db_try f).
Proof. intros e. unfold db_try. by destruct (f _). Qed.
Lemma fuelless_ask {A} (f : StateDB → outcome A) : fuelless (db_ask f).
Proof. intros e. unfold db_ask. by destruct (f _). Qed.
Lemma fuelless_sread {A} (f : EVM → A) : fuelless (sread f).
Proof. done. Qed.
Lemma fuelless_smodify f : fuelless (smodify f).
Proof. done. Qed.

Lemma steady_on_evm {A} (v : V A) : fuelless v → pres steady (on_evm v).
Proof.
  intros Hv m. unfold wpg, on_evm. destruct (v (m_evm m)) as [[a e]| |] eqn:E; [done|done|].
  by apply (Hv (m_evm m)).
Qed.
Lemma quiet_on_evm {A} (v : V A) : fuelless v → pres quiet (on_evm v).
Proof.
  intros Hv m. unfold wpg, on_evm. destruct (v (m_evm m)) as [[a e]| |] eqn:E; [done|done|].
  by apply (Hv (m_evm m)).
Qed.

Definition gas_mem (m : machine) : Z * Memory := (gas_of m, m_mem m).
Lemma gas_mem_blind : frame_blind gas_mem.
Proof. by split. Qed.
Lemma gas_mem_steady m m' : gas_mem m' = gas_mem m → steady m m'.
Proof. unfold gas_mem. intros [= H1 H2]. split; [done|by rewrite H2]. Qed.

Lemma steady_spop : pres steady spop.
Proof. apply (pres_spop gas_mem gas_mem_blind), gas_mem_steady. Qed.
Lemma steady_spush x : pres steady (spush x).
Proof. apply (pres_spush gas_mem gas_mem_blind), gas_mem_steady. Qed.
Lemma steady_sback n : pres steady (sback n).
Proof. apply pres_sback. apply _. Qed.
Lemma steady_spoke x : pres steady (spoke x).
Proof. apply (pres_spoke gas_mem gas_mem_blind), gas_mem_steady. Qed.
Lemma steady_valid d : pres steady (validJumpdest d).
Proof. apply (pres_validJumpdest gas_mem gas_mem_blind); [apply _|apply gas_mem_steady]. Qed.
Lemma steady_set_pc f : pres steady (set_pc f).
Proof. by apply pres_modify. Qed.
Lemma steady_sstack f : pres steady (sstack f).
Proof. intros m. unfold wpg, sstack. by destruct (f (m_stack m)). Qed.
Lemma steady_topics n : pres steady (pop_topics n).
Proof.
  induction n as [|n IH]; cbn [pop_topics]; [apply pres_ret, _|].
  apply pres_bind; [apply _|apply steady_spop|intros x]. apply pres_bind; [apply _|done|intros l; apply pres_ret, _].
Qed.
Lemma steady_smem f : (∀ mem mem', f mem = Ret mem' → mem_ok mem → mem_ok mem') → pres steady (smem f).
Proof.
  intros Hf m. unfold wpg, smem. destruct (f (m_mem m)) eqn:E; [|done]. split; [done|]. by apply Hf.
Qed.
Lemma steady_Set off size v : pres steady (smem (mem_Set (Uint64 off) (Uint64 size) v)).
Proof. apply steady_smem. intros mem mem'. apply mem_Set_ok. Qed.
Lemma steady_Set32 off v : pres steady (smem (mem_Set32 (Uint64 off) v)).
Proof. apply steady_smem. intros mem mem'. apply mem_Set32_ok. Qed.
Lemma steady_store8 off v :
  pres steady (smem (λ mem, if off <? mem_Len mem
    then Ret (mkMemory (<[Z.to_nat off := v]> (store mem)) (lastGasCost mem)) else Panic)).
Proof.
  apply steady_smem. intros mem mem'. destruct (_ <? _); [|done]. intros [= <-].
  apply mem_ok_same; [|done]. unfold mem_Len, zlen. cbn. by rewrite length_insert.
Qed.

Lemma quiet_sback n : pres quiet (sback n).
Proof. apply pres_sback. apply _. Qed.
Lemma quiet_checked r : pres quiet (checked r).
Proof. unfold checked. destruct r as [v [|]]; apply pres_ret, _. Qed.

End Relations.

#[export] Hint Resolve fuelless_read fuelless_do fuelless_try fuelless_ask fuelless_sread fuelless_smodify
  steady_on_evm quiet_on_evm steady_spop steady_spush steady_sback steady_spoke steady_valid steady_set_pc
  steady_sstack steady_topics steady_Set steady_Set32 steady_store8 quiet_sback quiet_checked : evm.

(** ** Dynamic gas *)

Section Dynamic.
Context {B : Backend} {U : Uint256} {P : Precompiles}.

(** The gas function [g] costs at least [k] and pays for the memory. *)
Definition dyn_ok (g : Z → X (result vm_error Z)) (k : Z) : Prop := ∀ n m,
  0 ≤ n → mem_ok (m_mem m) →
  wp (g (32 * n)) (λ r m', gas_of m' = gas_of m ∧
    ∀ cost, r = Ok cost → k ≤ cost ∧ mem_ok (mem_Resize (32 * n) (m_mem m'))) m.

(** The same for an instruction that needs no memory. *)
Definition dyn_ok0 (g : Z → X (result vm_error Z)) (k : Z) : Prop := ∀ m,
  wp (g 0) (λ r m', quiet m m' ∧ ∀ cost, r = Ok cost → k ≤ cost) m.

Lemma SafeAdd_ok x y v : 0 ≤ x → 0 ≤ y → SafeAdd x y = (v, false) → v = x + y ∧ x + y < 2 ^ 64.
Proof.
  unfold SafeAdd. intros Hx Hy [= <- H]. apply negb_false_iff, Z.eqb_eq in H.
  apply Z.div_small_iff in H; [|lia]. unfold u64. rewrite wrap_id by (unfold in_w; lia). lia.
Qed.
Lemma SafeMul_ok x y v : 0 ≤ x → 0 ≤ y → SafeMul x y = (v, false) → v = x * y.
Proof.
  unfold SafeMul. intros Hx Hy [= <- H]. apply negb_false_iff, Z.eqb_eq in H.
  apply Z.div_small_iff in H; [|lia]. apply wrap_id. unfold in_w. nia.
Qed.
Lemma Uint64_ok x v : Uint64WithOverflow x = (v, false) → 0 ≤ v.
Proof. intros [= <- _]. apply wrap_range. lia. Qed.

(** A checked result: exact, or an error with nothing changed. *)
Lemma wp_checked (r : Z * bool) (Q : result vm_error Z → machine → Prop) m :
  (∀ v, r = (v, false) → Q (Ok v) m) → (∀ e, Q (Err e) m) → wp (checked r) Q m.
Proof. intros H1 H2. destruct r as [v [|]]; [apply (H2 ErrGasUintOverflow)|by apply H1]. Qed.

Lemma wp_mem_gas n m (Q : result vm_error Z → machine → Prop) :
  0 ≤ n → mem_ok (m_mem m) →
  (∀ fee m', gas_of m' = gas_of m → m_stack m' = m_stack m → 0 ≤ fee < 2 ^ 56 →
     mem_ok (mem_Resize (32 * n) (m_mem m')) → Q (Ok fee) m') →
  (∀ e, Q (Err e) m) → wp (mem_gas (32 * n)) Q m.
Proof.
  intros Hn (w & Hw) HQ HE. unfold wpg, mem_gas.
  destruct (memoryGasCost (m_mem m) (32 * n)) as [[fee mem]|e] eqn:E; [|apply HE].
  destruct (memoryGasCost_spec _ _ _ _ _ Hw Hn E) as (_ & _ & Hf & Hw').
  apply HQ; [done|done|done|]. by eexists.
Qed.

(** A quiet computation that yields at least the fee it starts from. *)
Definition adds_to (f : Z → X (result vm_error Z)) (k : Z) : Prop := ∀ fee m,
  0 ≤ fee → wp (f fee) (λ r m', quiet m m' ∧ ∀ cost, r = Ok cost → fee + k ≤ cost) m.

Lemma dyn_mem (f : Z → X (result vm_error Z)) k :
  adds_to f k → dyn_ok (λ size, ok! fee <- mem_gas size; f fee) k.
Proof.
  intros Hf n m Hn Hm. apply wp_try, wp_mem_gas; [done|done| |done].
  intros fee m' Hg Hs Hfee Hm'. eapply wp_mono; [apply Hf; lia|].
  intros r m'' [(Q1 & Q2 & Q3) Hc]. split; [congruence|]. intros cost Hcost.
  specialize (Hc cost Hcost). split; [lia|by rewrite Q2].
Qed.

(** Quiet steps: reads, refunds, access list. *)
Ltac quiet_tac := autounfold with evmops; unfold gret, gfail, add_refund, sub_refund, addr_warm, warm_addr; pres_tac.
Ltac qstep := eapply (wp_pres quiet); [solve [quiet_tac]|].

Lemma words_price pos price fee m :
  0 ≤ price → 0 ≤ fee →
  wp (run! w <- sback pos;
      ok! words <- checked (Uint64WithOverflow w);
      ok! words <- checked (SafeMul (toWordSize words) price);
      checked (SafeAdd fee words)) (λ r m', quiet m m' ∧ ∀ cost, r = Ok cost → fee + 0 ≤ cost) m.
Proof.
  intros Hp Hf. qstep. intros w m1 Q1. apply wp_try, wp_checked; [|done]. intros v Hv. apply Uint64_ok in Hv.
  pose proof (toWordSize_nonneg v Hv).
  apply wp_try, wp_checked; [|done]. intros v2 Hv2. apply SafeMul_ok in Hv2; [|lia..].
  apply wp_checked; [|done]. intros c Hc. apply SafeAdd_ok in Hc; [|nia..].
  split; [done|]. intros cost [= <-]. nia.
Qed.

Lemma dyn_copier pos : dyn_ok (memoryCopierGas pos) 0.
Proof. apply (dyn_mem _ 0). intros fee m Hf. by apply words_price. Qed.
Lemma dyn_word pos : dyn_ok (word_gas pos) 0.
Proof. apply (dyn_mem _ 0). intros fee m Hf. by apply words_price. Qed.

Lemma dyn_pure : dyn_ok pureMemoryGascost 0.
Proof.
  intros n m Hn Hm. apply wp_mem_gas; [done|done| |done]. intros fee m' Hg _ Hf Hm'.
  split; [done|]. intros cost [= <-]. split; [lia|done].
Qed.

Lemma dyn_log topics : 0 ≤ topics → dyn_ok (makeGasLog topics) 375.
Proof.
  intros Ht n m Hn Hm. unfold makeGasLog, LogGas, LogTopicGas, LogDataGas.
  qstep. intros s m1 (G1 & M1 & _).
  apply wp_try, wp_checked; [|done]. intros v Hv. apply Uint64_ok in Hv.
  apply wp_try, wp_mem_gas; [done|by rewrite M1| |done]. intros fee m2 G2 _ Hf Hm2.
  rewrite G1 in G2. apply wp_try, wp_checked; [|done]. intros c1 H1. apply SafeAdd_ok in H1; [|lia..].
  apply wp_try, wp_checked; [|done]. intros c2 H2. apply SafeAdd_ok in H2; [|lia..].
  apply wp_try, wp_checked; [|done]. intros c3 H3. apply SafeMul_ok in H3; [|lia..].
  apply wp_checked; [|done]. intros c4 H4. apply SafeAdd_ok in H4; [|lia..].
  split; [done|]. intros cost [= <-]. split; [lia|done].
Qed.

Lemma dyn_extcodecopy : dyn_ok gasExtCodeCopyEIP2929 0.
Proof.
  intros n m Hn Hm. unfold gasExtCodeCopyEIP2929. apply wp_try.
  eapply wp_mono; [by apply dyn_copier|]. intros [gas|e] m1 [G1 H1]; [|done].
  destruct (H1 gas eq_refl) as [Hg Hm1].
  qstep. intros a m2 (G2 & M2 & _).
  qstep. intros warm m3 (G3 & M3 & _).
  destruct warm.
  - split; [congruence|]. intros cost [= <-]. rewrite M3, M2. done.
  - qstep. intros _ m4 (G4 & M4 & _).
    apply wp_checked; [|split; [congruence|done]]. intros c Hc. apply SafeAdd_ok in Hc; [|lia|by vm_compute].
    split; [congruence|]. intros cost [= <-]. rewrite M4, M3, M2. split; [|done].
    unfold ColdAccountAccessCostEIP2929, WarmStorageReadCostEIP2929 in *. lia.
Qed.

(** Gas functions without memory: quiet, and the price on each branch. *)
Lemma dyn0_intro (g : Z → X (result vm_error Z)) k :
  pres quiet (g 0) → (∀ m, wp (g 0) (λ r _, ∀ cost, r = Ok cost → k ≤ cost) m) → dyn_ok0 g k.
Proof. intros H1 H2 m. apply wp_and; [apply H1|apply H2]. Qed.

(** Symbolic execution of a gas function for its result alone. *)
Ltac price_tac :=
  repeat first
    [ progress cbv zeta
    | match goal with |- wp (sret _) _ _ => apply wp_ret end
    | match goal with |- wp spanic _ _ => exact I end
    | match goal with |- wp (gret _) _ _ => apply wp_ret end
    | match goal with |- wp (gfail _) _ _ => apply wp_ret end
    | match goal with |- wp (sbind (sret _) _) _ _ => apply wp_bind end
    | match goal with |- wp (sbind (sbind _ _) _) _ _ => apply wp_bind end
    | match goal with |- wp (sbind spanic _) _ _ => exact I end
    | match goal with |- wp (sbind (if ?b then _ else _) _) _ _ => destruct b eqn:? end
    | eapply (wp_pres quiet); [solve [quiet_tac]|intros ? ? _]
    | match goal with |- wp (sbind _ _) _ _ => apply wp_bind end
    | case_match
    | discriminate
    | intros ? [= <-] ].

Lemma dyn_sstore r : dyn_ok0 (makeGasSStoreFunc r) 100.
Proof.
  apply dyn0_intro.
  - unfold makeGasSStoreFunc. quiet_tac.
  - intros m. unfold makeGasSStoreFunc. price_tac. all: try by vm_compute. all: try lia.
Qed.

Lemma dyn_sload : dyn_ok0 gasSLoadEIP2929 100.
Proof.
  apply dyn0_intro.
  - unfold gasSLoadEIP2929. quiet_tac.
  - intros m. unfold gasSLoadEIP2929. price_tac. all: by vm_compute.
Qed.

Lemma dyn_account : dyn_ok0 gasEip2929AccountCheck 0.
Proof.
  apply dyn0_intro.
  - unfold gasEip2929AccountCheck. quiet_tac.
  - intros m. unfold gasEip2929AccountCheck. price_tac. all: by vm_compute.
Qed.

Lemma dyn_selfdestruct b : dyn_ok0 (makeSelfdestructGasFn b) 0.
Proof.
  apply dyn0_intro.
  - unfold makeSelfdestructGasFn. quiet_tac.
  - intros m. unfold makeSelfdestructGasFn. price_tac. all: by vm_compute.
Qed.

Lemma dyn_exp c : 0 ≤ c → dyn_ok0 (exp_gas c) 10.
Proof.
  intros Hc. apply dyn0_intro.
  - unfold exp_gas. quiet_tac.
  - intros m. unfold exp_gas. qstep. intros e m1 _. cbv zeta. apply wp_checked; [|done].
    intros v Hv cost [= <-]. pose proof (bitlen_nonneg e).
    assert (0 ≤ (bitlen e + 7) / 8) by (apply Z.div_pos; lia).
    apply SafeAdd_ok in Hv; [|nia|by vm_compute]. unfold ExpGas in *. nia.
Qed.

(** ** Gas for calls *)

(** What a call costs covers the gas kept for the callee and [k]. *)
Definition call_ok (g : Z → X (result vm_error Z)) (k : list Z → Z) : Prop := ∀ n m,
  0 ≤ n → mem_ok (m_mem m) → 0 ≤ gas_of m < 2 ^ 64 →
  wp (g (32 * n)) (λ r m', 0 ≤ gas_of m' ≤ gas_of m ∧
    ∀ cost, r = Ok cost → gas_of m' = gas_of m ∧ m_stack m' = m_stack m ∧
      mem_ok (mem_Resize (32 * n) (m_mem m')) ∧
      0 ≤ ev_callGasTemp (m_evm m') ∧ ev_callGasTemp (m_evm m') + k (m_stack m) ≤ cost) m.

(** The same with the bound that makes the cold surcharge fit: the cost is
    within the gas, or below [2^64] by a wide margin. *)
Definition call_ok_tight (g : Z → X (result vm_error Z)) (k : list Z → Z) : Prop := ∀ n m,
  0 ≤ n → mem_ok (m_mem m) → 0 ≤ gas_of m < 2 ^ 64 →
  wp (g (32 * n)) (λ r m', gas_of m' = gas_of m ∧
    ∀ cost, r = Ok cost → m_stack m' = m_stack m ∧
      mem_ok (mem_Resize (32 * n) (m_mem m')) ∧
      0 ≤ ev_callGasTemp (m_evm m') ∧ ev_callGasTemp (m_evm m') + k (m_stack m) ≤ cost ∧
      (cost ≤ gas_of m ∨ cost < 2 ^ 64 - 2 ^ 57)) m.

Lemma callGas_spec have base requested temp :
  0 ≤ have < 2 ^ 64 → 0 ≤ base < 2 ^ 57 → callGas true have base requested = Ok temp →
  0 ≤ temp ∧ (base + temp ≤ have ∨ base + temp < 2 ^ 64 - 2 ^ 57).
Proof.
  intros Hh Hb. unfold callGas. cbn [andb]. cbv zeta.
  set (a := u64 (have - base)). assert (0 ≤ a < 2 ^ 64) as Ha by (apply wrap_range; lia).
  set (g := a - a / 64). assert (0 ≤ g ≤ a ∧ 64 * g ≤ 63 * a + 63) as Hg
    by (unfold g; Z.to_euclidean_division_equations; lia).
  assert (base + g ≤ have ∨ base + g < 2 ^ 64 - 2 ^ 57) as Hbase.
  { destruct (decide (base ≤ have)).
    - left. assert (a = have - base) as Ea by (unfold a; apply wrap_id; unfold in_w; lia). lia.
    - right. lia. }
  destruct (IsUint64 requested) eqn:Eu; cbn [negb orb].
  - unfold IsUint64 in Eu. apply Z.ltb_lt in Eu.
    pose proof (wrap_range 64 requested ltac:(lia)) as Hr. unfold Uint64, u64 in *.
    destruct (Z.ltb_spec g (wrap 64 requested)); intros [= <-].
    + split; [lia|done].
    + unfold in_w in Hr. split; [lia|]. destruct Hbase; [left|right]; lia.
  - intros [= <-]. split; [lia|done].
Qed.

(** The tail of the four call variants. *)
Lemma call_gas_tight base m :
  0 ≤ base < 2 ^ 57 → 0 ≤ gas_of m < 2 ^ 64 →
  wp (call_gas base) (λ r m', quiet m m' ∧
    ∀ cost, r = Ok cost → 0 ≤ ev_callGasTemp (m_evm m') ∧ cost = base + ev_callGasTemp (m_evm m') ∧
      (cost ≤ gas_of m ∨ cost < 2 ^ 64 - 2 ^ 57)) m.
Proof.
  intros Hb Hg. unfold call_gas. apply wp_bind. unfold contract_get, wpg at 1, sread.
  qstep. intros requested m1 Q1. apply wp_try, wp_ret. fold (gas_of m).
  destruct (callGas true (gas_of m) base requested) as [temp|e] eqn:E; [|done].
  destruct (callGas_spec _ _ _ _ Hg Hb E) as [Ht Hbound].
  apply wp_bind. unfold wpg at 1, on_evm, smodify. apply wp_checked.
  - intros v Hv. apply SafeAdd_ok in Hv; [|lia..]. destruct Hv as [-> _]. split; [done|].
    intros cost [= <-]. by cbn.
  - intros e. done.
Qed.

Definition no_value (st : list Z) : Z := 0.
Definition if_value (st : list Z) : Z := if default 0 (st !! 2%nat) =? 0 then 0 else CallValueTransferGas.

Lemma call_memory_only : call_ok_tight gasDelegateCall no_value ∧ call_ok_tight gasStaticCall no_value.
Proof.
  enough (call_ok_tight gasDelegateCall no_value) by done.
  intros n m Hn Hm Hg. apply wp_try, wp_mem_gas; [done|done| |done]. intros fee m1 G1 S1 Hf M1.
  eapply wp_mono; [apply call_gas_tight; [lia|by rewrite G1]|].
  intros r m2 [(G2 & M2 & S2) H2]. split; [congruence|]. intros cost Hcost.
  destruct (H2 cost Hcost) as (T1 & -> & Hb). rewrite G1 in Hb. rewrite M2, S2, S1. unfold no_value.
  do 3 (split; [done|]). split; [lia|done].
Qed.

Lemma call_callcode : call_ok_tight gasCallCode if_value.
Proof.
  intros n m Hn Hm Hg. apply wp_try, wp_mem_gas; [done|done| |done]. intros fee m1 G1 S1 Hf M1.
  apply wp_bind, wp_sback. intros v Hv. rewrite S1 in Hv.
  assert (if_value (m_stack m) = if negb (v =? 0) then CallValueTransferGas else 0) as Hk.
  { unfold if_value. rewrite Hv. cbn. by destruct (v =? 0). }
  assert (0 ≤ if_value (m_stack m) ≤ 9000) as Hkb by (rewrite Hk; by destruct (v =? 0)).
  rewrite <- Hk. apply wp_try, wp_checked; [|done]. intros c Hc. apply SafeAdd_ok in Hc; [|lia..].
  eapply wp_mono; [apply call_gas_tight; [lia|by rewrite G1]|].
  intros r m2 [(G2 & M2 & S2) H2]. split; [congruence|]. intros cost Hcost.
  destruct (H2 cost Hcost) as (T1 & -> & Hb). rewrite G1 in Hb. rewrite M2, S2, S1.
  do 3 (split; [done|]). split; [lia|done].
Qed.

Lemma call_call : call_ok_tight gasCall if_value.
Proof.
  intros n m Hn Hm Hg. apply wp_bind, wp_sback. intros v Hv.
  assert (if_value (m_stack m) = if negb (v =? 0) then CallValueTransferGas else 0) as Hk.
  { unfold if_value. rewrite Hv. cbn. by destruct (v =? 0). }
  assert (0 ≤ if_value (m_stack m) ≤ 9000) as Hkb by (rewrite Hk; by destruct (v =? 0)).
  cbv zeta. qstep. intros a m0 (G0 & M0 & S0). qstep. intros fr m1 (G1 & M1 & S1).
  apply wp_try, wp_mem_gas; [done|by rewrite M1, M0| |intros e; split; [congruence|done]]. intros fee m2 G2 S2 Hf M2.
  set (base := if negb (v =? 0) then _ else _).
  assert (if_value (m_stack m) ≤ base ≤ 34000) as Hbase.
  { unfold base, CallValueTransferGas, CallNewAccountGas in *. rewrite Hk. destruct (v =? 0), fr; cbn [negb]; lia. }
  apply wp_try, wp_checked; [|intros e; split; [congruence|done]]. intros c Hc. apply SafeAdd_ok in Hc; [|lia..].
  eapply wp_mono; [apply call_gas_tight; [lia|congruence]|].
  intros r m3 [(G3 & M3 & S3) H3]. split; [congruence|]. intros cost Hcost.
  destruct (H3 cost Hcost) as (T1 & -> & Hb). rewrite G2, G1, G0 in Hb. rewrite M3, S3, S2, S1, S0.
  do 3 (split; [done|]). split; [lia|done].
Qed.

(** The cold surcharge, taken out and put back. *)
Lemma call_variant g k : (∀ st, 0 ≤ k st) → call_ok_tight g k → call_ok (makeCallVariantGasCallEIP2929 g) k.
Proof.
  intros Hk Hg n m Hn Hm Hgas. unfold makeCallVariantGasCallEIP2929.
  qstep. intros a m0 (G0 & M0 & S0). cbv zeta. qstep. intros warm m1 (G1 & M1 & S1).
  set (cold := ColdAccountAccessCostEIP2929 - WarmStorageReadCostEIP2929). assert (cold = 2500) as Hcold by done.
  destruct warm.
  { eapply wp_mono; [apply Hg; [done|by rewrite M1, M0|congruence]|].
    intros r m2 [G2 H2]. split; [lia|]. intros cost Hcost.
    destruct (H2 cost Hcost) as (S2 & M2 & T & C & _). rewrite S2, S1, S0 in *. rewrite G2, G1, G0. done. }
  qstep. intros _ m2 (G2 & M2 & S2).
  apply wp_bind. unfold wpg at 1, use_gas, UseGas. fold (gas_of m2).
  destruct (Z.ltb_spec (gas_of m2) cold) as [Hlow|Hhigh]; cbn [negb].
  {
    assert (gas_of (m_set_contract (m_contract m2) m2) = gas_of m2) as E by done. split; [rewrite E; lia|done]. }
  apply wp_try. set (m3 := m_set_contract _ m2). assert (gas_of m3 = gas_of m2 - cold) as G3 by done.
  eapply wp_mono; [apply Hg; [done|cbn; by rewrite M2, M1, M0|lia]|].
  intros [gas|e] m4 [G4 H4]; [|split; [lia|done]].
  destruct (H4 gas eq_refl) as (S4 & M4 & T & C & Hb).
  change (m_stack m3) with (m_stack m2) in *. rewrite S2, S1, S0 in S4, C. specialize (Hk (m_stack m)).
  assert (u64 (gas_of m4 + cold) = gas_of m) as Hrest.
  { unfold u64. rewrite wrap_id; [lia|]. unfold in_w. lia. }
  assert (u64 (gas + cold) = gas + cold) as Hsum.
  { apply wrap_id. unfold in_w. lia. }
  apply wp_bind. unfold wpg at 1, contract_do, smodify. fold (gas_of m4). apply wp_ret.
  rewrite Hsum. unfold gas_of at 1 2 3. cbn. fold (gas_of m4). rewrite Hrest. split; [lia|].
  intros cost [= <-]. do 3 (split; [done|]). split; [done|lia].
Qed.

Lemma no_value_nonneg st : 0 ≤ no_value st.
Proof. done. Qed.
Lemma if_value_nonneg st : 0 ≤ if_value st.
Proof. unfold if_value. by destruct (_ =? 0). Qed.

Lemma dyn_calls :
  call_ok gasCallEIP2929 if_value ∧ call_ok gasCallCodeEIP2929 if_value ∧
  call_ok gasDelegateCallEIP2929 no_value ∧ call_ok gasStaticCallEIP2929 no_value.
Proof.
  split; [apply call_variant; [apply if_value_nonneg|apply call_call]|].
  split; [apply call_variant; [apply if_value_nonneg|apply call_callcode]|].
  split; apply call_variant; [done|apply call_memory_only|done|apply call_memory_only].
Qed.

End Dynamic.

(** ** Calls and creations *)

Definition gas_fits (gas : Z) {A} (r : bytes * A * Z * option vm_error) : Prop :=
  let '(_, _, rest, _) := r in 0 ≤ rest ≤ gas.
Definition gas_fits' (gas : Z) (r : bytes * Z * option vm_error) : Prop := let '(_, rest, _) := r in 0 ≤ rest ≤ gas.

(** A precompile's price is a [uint64]. *)
Class PrecompilesGas `{P : Precompiles} : Prop := {
  RequiredGas_u64 : ∀ addr rg input, precompile addr = Some rg → is_u64 (rg input)
}.

Section Calls.
Context {B : Backend} {P : Precompiles} {PG : PrecompilesGas} (env : EvmEnv) (G : Z).

(** A runner that is right for contracts with less than [G] gas. *)
Definition run_ok (run : runner) : Prop := ∀ c input ro e, 0 ≤ ct_Gas c < G →
  wp (run c input ro) (λ r _, 0 ≤ ct_Gas (snd r) ≤ ct_Gas c) e.

Context (run : runner) (Hrun : run_ok run).

Definition any (e e' : EVM) : Prop := True.
#[local] Instance any_preorder : PreOrder any.
Proof. by split. Qed.

Lemma any_fuelless {A} (v : V A) : fuelless v → pres any v.
Proof. intros Hv e. unfold wpg. destruct (v e) as [[a e']| |] eqn:E; [done|done|]. by apply (Hv e). Qed.
Lemma fuelless_new caller a v gas : fuelless (NewContract caller a v gas).
Proof. intros e. by destruct caller. Qed.
Hint Resolve any_fuelless fuelless_new : evm.

(** Steps of the state database before and after the run. *)
Ltac vstep := eapply (wp_pres any); [solve [pres_tac]|intros ? ? _].

Lemma NewContract_gas caller a v gas e : wp (NewContract caller a v gas) (λ c _, ct_Gas c = gas) e.
Proof. by destruct caller. Qed.

Lemma load_code_gas a c e : wp (load_code a c) (λ c' _, ct_Gas c' = ct_Gas c) e.
Proof. unfold load_code. vstep. vstep. done. Qed.

Lemma precompiled_gas a rg input gas c e :
  precompile a = Some rg → 0 ≤ gas → wp (RunPrecompiledContract env a rg input gas c) (λ r _, gas_fits' gas r) e.
Proof.
  intros Hp Hg. pose proof (RequiredGas_u64 a rg input Hp) as [H0 _]. unfold RunPrecompiledContract.
  destruct (Z.ltb_spec gas (rg input)); [by split|].
  unfold wpg. destruct (precompile_Run _ _ _ _ _) as [[[out err] s]|]; [|done]. cbn. lia.
Qed.

Lemma finish_gas id gas r e : 0 ≤ gas → gas_fits' gas r → wp (finish_call id r) (λ r _, gas_fits' gas r) e.
Proof.
  intros Hg. destruct r as [[ret rest] [err|]]; cbn; [|done]. intros Hr. unfold finish_call. vstep.
  apply wp_ret. cbn. destruct (decide _); lia.
Qed.

Lemma run_code_gas a input gas ro pc c e :
  0 ≤ gas < G → (∀ e, wp pc (λ c _, ct_Gas c = gas) e) → (∀ e, wp c (λ c _, ct_Gas c = gas) e) →
  wp (run_code env run a input gas ro pc c) (λ r _, gas_fits' gas r) e.
Proof.
  intros Hg Hpc Hc. unfold run_code. destruct (precompile a) as [rg|] eqn:Ep.
  - apply wp_bind. eapply wp_mono; [apply Hpc|cbv beta]. intros c1 e1 _.
    apply wp_bind. eapply wp_mono; [apply load_code_gas|cbv beta]. intros c2 e2 _. apply precompiled_gas; [done|lia].
  - apply wp_bind. eapply wp_mono; [apply Hc|cbv beta]. intros c1 e1 H1.
    apply wp_bind. eapply wp_mono; [apply load_code_gas|cbv beta]. intros c2 e2 H2.
    apply wp_bind. eapply wp_mono; [apply Hrun; lia|cbv beta]. intros [[ret err] c3] e3 H3. apply wp_ret. cbn in *. lia.
Qed.

Lemma guards_gas gas k e :
  0 ≤ gas → wp k (λ r _, gas_fits' gas r) e → wp (call_guards env gas k) (λ r _, gas_fits' gas r) e.
Proof.
  intros Hg Hk. unfold call_guards. apply wp_bind, wp_read.
  destruct (_ && _); [apply wp_ret; cbn; lia|]. destruct (_ <? _); [apply wp_ret; cbn; lia|exact Hk].
Qed.

(** The tail of a call: run, then finish. *)
Lemma finish_bind gas id x e :
  0 ≤ gas → wp x (λ r _, gas_fits' gas r) e → wp (run! r <- x; finish_call id r) (λ r _, gas_fits' gas r) e.
Proof.
  intros Hg Hx. apply wp_bind. eapply wp_mono; [exact Hx|cbv beta]. intros r e' Hr. by apply finish_gas.
Qed.

Lemma Call_gas caller a input gas value e :
  0 ≤ gas < G → wp (Call env run caller a input gas value) (λ r _, gas_fits' gas r) e.
Proof.
  intros Hg. apply guards_gas; [lia|]. vstep. destruct (negb _); [apply wp_ret; cbn; lia|]. vstep. cbv zeta. vstep.
  destruct (_ && _); [apply wp_ret; cbn; lia|]. vstep. vstep. apply finish_bind; [lia|].
  destruct (precompile a) as [rg|] eqn:Ep.
  - vstep. apply wp_bind. eapply wp_mono; [apply load_code_gas|cbv beta]. intros c2 e2 _.
    apply precompiled_gas; [done|lia].
  - vstep. destruct (default [] _) as [|b code]; [apply wp_ret; cbn; lia|].
    apply wp_bind. eapply wp_mono; [apply NewContract_gas|cbv beta]. intros c e1 Hc. vstep.
    apply wp_bind. eapply wp_mono; [apply Hrun; by rewrite <- Hc in Hg|cbv beta]. intros [[ret err] c3] e3 H3.
    apply wp_ret. cbn in *. lia.
Qed.

Lemma CallCode_gas caller a input gas value e :
  0 ≤ gas < G → wp (CallCode env run caller a input gas value) (λ r _, gas_fits' gas r) e.
Proof.
  intros Hg. apply guards_gas; [lia|]. vstep. destruct (negb _); [apply wp_ret; cbn; lia|]. vstep. cbv zeta.
  apply finish_bind; [lia|]. apply run_code_gas; [done|intros; apply NewContract_gas..].
Qed.

Lemma DelegateCall_gas caller a input gas e :
  0 ≤ gas < G → wp (DelegateCall env run caller a input gas) (λ r _, gas_fits' gas r) e.
Proof.
  intros Hg. apply guards_gas; [lia|]. vstep. cbv zeta.
  apply finish_bind; [lia|]. apply run_code_gas; [done|intros; apply NewContract_gas|]. intros e1.
  apply wp_bind. eapply wp_mono; [apply NewContract_gas|cbv beta]. intros c e2 Hc. unfold AsDelegate.
  by destruct (ct_parent c) as [[? ?]|].
Qed.

Lemma StaticCall_gas caller a input gas e :
  0 ≤ gas < G → wp (StaticCall env run caller a input gas) (λ r _, gas_fits' gas r) e.
Proof.
  intros Hg. apply guards_gas; [lia|]. vstep. vstep. cbv zeta.
  apply finish_bind; [lia|]. apply run_code_gas; [done|intros; apply NewContract_gas..].
Qed.

Lemma deploy_gas a ret err c e :
  0 ≤ ct_Gas c → wp (deploy a ret err c) (λ r _, 0 ≤ ct_Gas (snd r) ≤ ct_Gas c) e.
Proof.
  intros Hc. unfold deploy. cbv zeta. case_match; [apply wp_ret; cbn; lia|]. unfold UseGas. pose proof (zlen_nonneg ret).
  destruct (Z.ltb_spec (ct_Gas c) (zlen ret * CreateDataGas)); [apply wp_ret; cbn; lia|].
  vstep. cbn. unfold CreateDataGas in *. lia.
Qed.

Lemma create_gas_fits caller code h gas value a e :
  0 ≤ gas < G → wp (create env run caller code h gas value a) (λ r _, gas_fits gas r) e.
Proof.
  intros Hg. unfold create. vstep. destruct (_ <? _); [apply wp_ret; cbn; lia|]. vstep. destruct (negb _); [apply wp_ret; cbn; lia|].
  do 5 vstep. destruct (_ || _); [apply wp_ret; cbn; lia|]. do 4 vstep.
  apply wp_bind. eapply wp_mono; [apply NewContract_gas|cbv beta]. intros c e1 Hc. cbv zeta.
  destruct (_ && _); [apply wp_ret; cbn; lia|].
  apply wp_bind. eapply wp_mono; [apply Hrun; cbn; lia|cbv beta]. intros [[ret err] c2] e2 H2. cbn in H2.
  apply wp_bind. eapply wp_mono; [apply deploy_gas; lia|cbv beta]. intros [err2 c3] e3 H3. cbn in H3.
  destruct err2 as [er|]; [|cbn; lia]. vstep. cbn. destruct (decide _); lia.
Qed.

Lemma Create_gas caller code gas value e :
  0 ≤ gas < G → wp (Create env run caller code gas value) (λ r _, gas_fits gas r) e.
Proof. intros Hg. unfold Create. vstep. by apply create_gas_fits. Qed.
Lemma Create2_gas caller code gas value salt e :
  0 ≤ gas < G → wp (Create2 env run caller code gas value salt) (λ r _, gas_fits gas r) e.
Proof. intros Hg. by apply create_gas_fits. Qed.

End Calls.

(** ** The instructions that call *)

Section CallInstructions.
Context {B : Backend} {U : Uint256} {P : Precompiles} {PG : PrecompilesGas} (env : EvmEnv) (G : Z) (HG : G ≤ 2 ^ 64).
Context (run : runner) (Hrun : run_ok G run).

(** Gas [g] comes back on top of what the frame has; the memory stays paid. *)
Definition back (g : Z) (m m' : machine) : Prop :=
  0 ≤ gas_of m' ≤ gas_of m + g ∧ (mem_ok (m_mem m) → mem_ok (m_mem m')).

Lemma give_back_gas g rest m :
  0 ≤ gas_of m → 0 ≤ rest ≤ g → gas_of m + g < 2 ^ 64 → wp (give_back rest) (λ _ m', back g m m') m.
Proof.
  intros Hm Hr Hb. unfold wpg, give_back, contract_do, smodify, back. unfold gas_of at 1. cbn.
  fold (gas_of m). unfold u64. rewrite wrap_id by (unfold in_w; lia). split; [lia|done].
Qed.

Lemma steady_back {A C} (x : X A) (f : A → X C) g m :
  pres steady x → (∀ a m', gas_of m' = gas_of m → wp (f a) (λ _ m'', back g m' m'') m') →
  wp (sbind x f) (λ _ m', back g m m') m.
Proof.
  intros Hx Hf. eapply (wp_pres steady); [exact Hx|]. intros a m' [Hg Hmem].
  eapply wp_mono; [by apply Hf|]. intros c m'' [H1 H2]. rewrite Hg in H1. split; [done|auto].
Qed.

Lemma called_gas off size g r m :
  0 ≤ gas_of m → gas_of m + g < 2 ^ 64 → gas_fits' g r → wp (called off size r) (λ _ m', back g m m') m.
Proof.
  intros Hm Hb. destruct r as [[ret rest] err]. cbn. intros Hr. unfold called.
  apply steady_back; [eauto with evm|]. intros _ m1 G1.
  apply steady_back; [destruct (decide _); [eauto with evm|apply pres_ret, _]|]. intros _ m2 G2.
  apply wp_bind. eapply wp_mono; [apply (give_back_gas g); lia|cbv beta]. intros _ m3 Hb3. by apply wp_ret.
Qed.

(** Run a call of the EVM from the frame, then [called]. *)
Lemma call_tail (v : ContractRef → V (bytes * Z * option vm_error)) off size g m :
  (∀ caller e, wp (v caller) (λ r _, gas_fits' g r) e) → 0 ≤ gas_of m → gas_of m + g < 2 ^ 64 →
  wp (run! caller <- self_ref; run! r <- on_evm (v caller); called off size r) (λ _ m', back g m m') m.
Proof.
  intros Hv Hm Hb. apply wp_bind, wp_read, wp_bind, wp_on_evm. eapply wp_mono; [apply Hv|cbv beta].
  intros r e Hr. by apply (called_gas off size g r (m_set_evm e m)).
Qed.

(** What the interpreter grants a call instruction: the charge covers the
    callee's gas. *)
Definition call_exec (x : X op_result) (k : list Z → Z) : Prop := ∀ m cost,
  0 ≤ gas_of m → 0 ≤ ev_callGasTemp (m_evm m) → ev_callGasTemp (m_evm m) + k (m_stack m) ≤ cost →
  gas_of m + cost < G → wp x (λ _ m', back cost m m') m.

Tactic Notation "pop_tac" ident(x) := apply wp_bind, wp_spop; intros x ? ?; cbn [m_stack m_set_stack m_set_evm] in *.
Ltac steady_tac := autounfold with evmops; pres_tac.

(** After the pops: read the arguments, call. *)
Lemma args_tail (v : bytes → ContractRef → V (bytes * Z * option vm_error)) i n off size g cost m :
  (∀ args caller e, wp (v args caller) (λ r _, gas_fits' g r) e) → g ≤ cost →
  0 ≤ gas_of m → gas_of m + cost < 2 ^ 64 →
  wp (run! args <- call_args i n; run! caller <- self_ref; run! r <- on_evm (v args caller); called off size r)
    (λ _ m', back cost m m') m.
Proof.
  intros Hv Hgc Hm Hb. apply steady_back; [steady_tac|]. intros args m1 G1.
  eapply wp_mono; [apply (call_tail (v args) off size g); [apply Hv|lia|lia]|cbv beta].
  intros _ m2 [H1 H2]. split; [lia|done].
Qed.

Lemma with_stipend_fits st x0 x1 value rest temp cost :
  st = x0 :: x1 :: value :: rest → 0 ≤ temp → temp + if_value st ≤ cost → cost < 2 ^ 64 →
  0 ≤ with_stipend temp value ≤ cost.
Proof.
  intros -> Ht Hc Hb. unfold if_value in Hc. cbn in Hc. unfold with_stipend. destruct (value =? 0); [lia|].
  unfold CallValueTransferGas, CallStipend in *. unfold u64. rewrite wrap_id by (unfold in_w; lia). lia.
Qed.

Lemma opCall_exec : call_exec (opCall env run) if_value.
Proof.
  intros m cost Hm Ht Hc Hb. unfold opCall. pop_tac req. apply wp_bind, wp_on_evm, wp_read.
  pop_tac addr. pop_tac value. pop_tac i. pop_tac n. pop_tac off. pop_tac size. subst.
  pose proof (with_stipend_fits _ _ _ _ _ _ _ H Ht Hc ltac:(lia)) as Hs.
  eapply wp_mono; [apply (args_tail (λ args caller, Call env run caller (Bytes20 addr) args
    (with_stipend (ev_callGasTemp (m_evm m)) value) value) i n off size
    (with_stipend (ev_callGasTemp (m_evm m)) value) cost);
    [intros args caller e; apply (Call_gas env G run Hrun); lia|lia|exact Hm|change (gas_of m + cost < 2 ^ 64); lia]
    |intros ? ? Hk; exact Hk].
Qed.

Lemma opCallCode_exec : call_exec (opCallCode env run) if_value.
Proof.
  intros m cost Hm Ht Hc Hb. unfold opCallCode. pop_tac req. apply wp_bind, wp_on_evm, wp_read.
  pop_tac addr. pop_tac value. pop_tac i. pop_tac n. pop_tac off. pop_tac size. subst.
  pose proof (with_stipend_fits _ _ _ _ _ _ _ H Ht Hc ltac:(lia)) as Hs.
  eapply wp_mono; [apply (args_tail (λ args caller, CallCode env run caller (Bytes20 addr) args
    (with_stipend (ev_callGasTemp (m_evm m)) value) value) i n off size
    (with_stipend (ev_callGasTemp (m_evm m)) value) cost);
    [intros args caller e; apply (CallCode_gas env G run Hrun); lia|lia|exact Hm|change (gas_of m + cost < 2 ^ 64); lia]
    |intros ? ? Hk; exact Hk].
Qed.

Lemma opDelegateCall_exec : call_exec (opDelegateCall env run) no_value.
Proof.
  intros m cost Hm Ht Hc Hb. unfold no_value in Hc. unfold opDelegateCall. pop_tac req.
  apply wp_bind, wp_on_evm, wp_read. pop_tac addr. pop_tac i. pop_tac n. pop_tac off. pop_tac size.
  eapply wp_mono; [apply (args_tail (λ args caller, DelegateCall env run caller (Bytes20 addr) args (ev_callGasTemp (m_evm m)))
    i n off size (ev_callGasTemp (m_evm m)) cost);
    [intros args caller e; apply (DelegateCall_gas env G run Hrun); lia|lia|exact Hm|change (gas_of m + cost < 2 ^ 64); lia]
    |intros ? ? Hk; exact Hk].
Qed.

Lemma opStaticCall_exec : call_exec (opStaticCall env run) no_value.
Proof.
  intros m cost Hm Ht Hc Hb. unfold no_value in Hc. unfold opStaticCall. pop_tac req.
  apply wp_bind, wp_on_evm, wp_read. pop_tac addr. pop_tac i. pop_tac n. pop_tac off. pop_tac size.
  eapply wp_mono; [apply (args_tail (λ args caller, StaticCall env run caller (Bytes20 addr) args (ev_callGasTemp (m_evm m)))
    i n off size (ev_callGasTemp (m_evm m)) cost);
    [intros args caller e; apply (StaticCall_gas env G run Hrun); lia|lia|exact Hm|change (gas_of m + cost < 2 ^ 64); lia]
    |intros ? ? Hk; exact Hk].
Qed.

(** A creation takes all but a 64th of the gas and gets back at most that. *)
Lemma create_tail (v : Z → ContractRef → V (bytes * address * Z * option vm_error)) m :
  (∀ g caller e, 0 ≤ g < G → wp (v g caller) (λ r _, gas_fits g r) e) → 0 ≤ gas_of m < G →
  wp (run! gas <- create_gas; run! caller <- self_ref; run! r <- on_evm (v gas caller); created r)
    (λ _ m', back 0 m m') m.
Proof.
  intros Hv Hm. apply wp_bind. unfold create_gas. apply wp_bind, wp_read. cbv zeta. fold (gas_of m).
  set (g := gas_of m - gas_of m / 64). assert (0 ≤ g ≤ gas_of m) as Hg
    by (unfold g; Z.to_euclidean_division_equations; lia).
  apply wp_bind. unfold wpg at 1, use_gas, UseGas. fold (gas_of m).
  destruct (Z.ltb_spec (gas_of m) g); [lia|]. apply wp_ret, wp_bind, wp_read, wp_bind, wp_on_evm.
  eapply wp_mono; [apply Hv; lia|cbv beta]. intros [[[res addr] rest] err] e Hr. cbn in Hr.
  set (m1 := m_set_evm e _). assert (gas_of m1 = gas_of m - g) as G1 by done.
  assert (m_mem m1 = m_mem m) as M1 by done.
  assert (wp (created (res, addr, rest, err)) (λ _ m', back g m1 m') m1) as Hc.
  { unfold created. apply steady_back; [eauto with evm|]. intros _ m2 G2.
    apply wp_bind. eapply wp_mono; [apply (give_back_gas g); lia|cbv beta]. intros _ m3 Hb. by apply wp_ret. }
  eapply wp_mono; [exact Hc|cbv beta]. intros _ m3 [H1 H2]. split; [lia|by rewrite <- M1].
Qed.

Definition create_exec (x : X op_result) : Prop := ∀ m, 0 ≤ gas_of m < G → wp x (λ _ m', back 0 m m') m.

Tactic Notation "steady_as" ident(a) ident(m) ident(H) := apply steady_back; [solve [steady_tac]|intros a m H].

Lemma opCreate_exec : create_exec (opCreate env run).
Proof.
  intros m Hm. unfold opCreate. steady_as value m1 G1. steady_as offset m2 G2. steady_as size m3 G3.
  steady_as mem m4 G4. steady_as input m5 G5.
  apply (create_tail (λ g caller, Create env run caller input g value)); [|lia].
  intros g caller e Hg. by apply (Create_gas env G run Hrun).
Qed.

Lemma opCreate2_exec : create_exec (opCreate2 env run).
Proof.
  intros m Hm. unfold opCreate2. steady_as value m1 G1. steady_as offset m2 G2. steady_as size m3 G3.
  steady_as salt m4 G4. steady_as mem m5 G5. steady_as input m6 G6.
  apply (create_tail (λ g caller, Create2 env run caller input g value salt)); [|lia].
  intros g caller e Hg. by apply (Create2_gas env G run Hrun).
Qed.

(** ** Entries of the jump table *)

(** Charge, resize, execute: what [perform] does after the constant gas. *)
Definition pay_exec (o : operation) (size : Z) : X (option op_result) :=
  run! ok <- charge_dynamic o size;
  if negb ok then halt [] (Some ErrOutOfGas)
  else
    run! _ <- (if 0 <? size then smem (λ mem, Ret (mem_Resize size mem)) else sret tt);
    run! r <- execute o;
    after o r.

(** An entry spends at least one unit of gas on every round that goes on. *)
Definition entry_ok (o : operation) : Prop :=
  0 ≤ constantGas o ∧ ∀ n m,
    0 ≤ n → (memorySize o = None → n = 0) → 0 ≤ gas_of m → gas_of m + constantGas o < G + 1 → mem_ok (m_mem m) →
    wp (pay_exec o (32 * n)) (λ r m', 0 ≤ gas_of m' ≤ gas_of m ∧
      (r = None → gas_of m' < gas_of m + constantGas o ∧ mem_ok (m_mem m'))) m.

Definition stops (o : operation) : bool := halts o || reverts o.

Lemma after_steady o r m :
  wp (after o r) (λ x m', steady m m' ∧ (x = None → stops o = false)) m.
Proof.
  apply wp_and.
  - revert m. destruct r as [res err]. unfold after, halt. steady_tac.
  - destruct r as [res err]. unfold after, halt, stops. eapply (wp_pres steady); [steady_tac|]. intros _ m1 _.
    destruct err; [done|]. destruct (reverts o); [done|]. destruct (halts o); [done|].
    eapply (wp_pres steady); [steady_tac|]. by intros.
Qed.

(** The memory after the charge is paid for, so it is after the resize. *)
Lemma resize_wp {A} n (f : () → X A) (Q : A → machine → Prop) m :
  0 ≤ n → mem_ok (mem_Resize (32 * n) (m_mem m)) →
  (∀ m', gas_of m' = gas_of m → m_stack m' = m_stack m → m_evm m' = m_evm m → mem_ok (m_mem m') → wp (f tt) Q m') →
  wp (run! x <- (if 0 <? 32 * n then smem (λ mem, Ret (mem_Resize (32 * n) mem)) else sret tt); f x) Q m.
Proof.
  intros Hn Hm Hf. apply wp_bind. destruct (Z.ltb_spec 0 (32 * n)).
  - unfold wpg at 1, smem. by apply Hf.
  - apply wp_ret, Hf; [done..|]. replace n with 0 in Hm by lia. unfold mem_Resize in Hm.
    destruct (Z.ltb_spec (mem_Len (m_mem m)) (32 * 0)); [unfold mem_Len, zlen in *; lia|done].
Qed.

Lemma exec_after o m (Q : option op_result → machine → Prop) :
  pres steady (execute o) → mem_ok (m_mem m) →
  (∀ x m', gas_of m' = gas_of m → mem_ok (m_mem m') → (x = None → stops o = false) → Q x m') →
  wp (run! r <- execute o; after o r) Q m.
Proof.
  intros Hx Hm HQ. eapply (wp_pres steady); [exact Hx|]. intros r m1 [G1 M1].
  eapply wp_mono; [apply after_steady|cbv beta]. intros x m2 [[G2 M2] Hs]. apply HQ; [congruence|auto|done].
Qed.

Lemma entry_plain o :
  dynamicGas o = None → 0 ≤ constantGas o → memorySize o = None → (stops o = false → 0 < constantGas o) →
  pres steady (execute o) → entry_ok o.
Proof.
  intros Hd Hc Hms Hpos Hx. split; [done|]. intros n m Hn Hn0 Hg Hb Hm. rewrite (Hn0 Hms).
  unfold pay_exec, charge_dynamic. rewrite Hd. apply wp_bind, wp_ret. cbn [negb].
  apply wp_bind, wp_ret. apply exec_after; [done|done|].
  intros x m' G1 M1 Hs. split; [lia|]. intros Hx0. specialize (Hpos (Hs Hx0)). split; [lia|done].
Qed.

Lemma charge_wp o g size m (Q : bool → machine → Prop) :
  dynamicGas o = Some g →
  wp (g size) (λ r m1, match r with
                       | Err _ => Q false m1
                       | Ok cost => if gas_of m1 <? cost then Q false m1
                                    else Q true (m_set_contract (ct_set_Gas (gas_of m1 - cost) (m_contract m1)) m1)
                       end) m →
  wp (charge_dynamic o size) Q m.
Proof.
  intros Hd H. unfold charge_dynamic. rewrite Hd. apply wp_bind. eapply wp_mono; [exact H|].
  intros [cost|e] m1; cbv beta; [|done]. unfold wpg, use_gas, UseGas. fold (gas_of m1).
  destruct (gas_of m1 <? cost); [|done]. by destruct m1.
Qed.

Lemma entry_dyn o g k :
  dynamicGas o = Some g → dyn_ok g k → 0 ≤ constantGas o → 0 ≤ k → (stops o = false → 0 < constantGas o + k) →
  pres steady (execute o) → entry_ok o.
Proof.
  intros Hd Hg Hc Hk Hpos Hx. split; [done|]. intros n m Hn _ Hgas Hb Hm. unfold pay_exec.
  apply wp_bind, (charge_wp o g); [done|]. eapply wp_mono; [by apply Hg|cbv beta].
  intros [cost|e] m1 [G1 H1].
  2:{ apply wp_ret. split; [lia|done]. }
  destruct (H1 cost eq_refl) as [Hcost M1]. destruct (Z.ltb_spec (gas_of m1) cost) as [Hlow|Hhigh].
  { apply wp_ret. split; [lia|done]. }
  cbn [negb]. apply resize_wp; [done|exact M1|]. intros m2 G2 _ _ M2.
  change (gas_of (m_set_contract _ _)) with (gas_of m1 - cost) in G2.
  apply exec_after; [done|done|]. intros x m3 G3 M3 Hs. split; [lia|]. intros Hx0.
  specialize (Hpos (Hs Hx0)). split; [lia|done].
Qed.

(** A gas function that needs no memory. *)
Lemma entry_dyn0 o g k :
  dynamicGas o = Some g → dyn_ok0 g k → memorySize o = None → 0 ≤ constantGas o → 0 ≤ k →
  (stops o = false → 0 < constantGas o + k) → pres steady (execute o) → entry_ok o.
Proof.
  intros Hd Hg Hms Hc Hk Hpos Hx. split; [done|]. intros n m Hn Hn0 Hgas Hb Hm. rewrite (Hn0 Hms). unfold pay_exec.
  apply wp_bind, (charge_wp o g); [done|]. eapply wp_mono; [apply Hg|cbv beta].
  intros [cost|e] m1 [(G1 & M1 & _) H1].
  2:{ apply wp_ret. split; [lia|done]. }
  specialize (H1 cost eq_refl). destruct (Z.ltb_spec (gas_of m1) cost) as [Hlow|Hhigh].
  { apply wp_ret. split; [lia|done]. }
  cbn [negb]. apply wp_bind, wp_ret. apply exec_after; [done|cbn; by rewrite M1|].
  intros x m3 G3 M3 Hs. change (gas_of (m_set_contract _ _)) with (gas_of m1 - cost) in G3. split; [lia|]. intros Hx0.
  specialize (Hpos (Hs Hx0)). split; [lia|done].
Qed.

Lemma entry_call o g k :
  dynamicGas o = Some g → call_ok g k → (∀ st, 0 ≤ k st) → 0 < constantGas o → call_exec (execute o) k → entry_ok o.
Proof.
  intros Hd Hg Hk Hc Hx. split; [lia|]. intros n m Hn _ Hgas Hb Hm. unfold pay_exec.
  apply wp_bind, (charge_wp o g); [done|]. eapply wp_mono; [apply Hg; [done|done|lia]|cbv beta].
  intros [cost|e] m1 [G1 H1].
  2:{ apply wp_ret. split; [lia|done]. }
  destruct (H1 cost eq_refl) as (G1' & S1 & M1 & T1 & C1).
  destruct (Z.ltb_spec (gas_of m1) cost) as [Hlow|Hhigh].
  { apply wp_ret. split; [lia|done]. }
  cbn [negb]. apply resize_wp; [done|exact M1|]. intros m2 G2 S2 E2 M2.
  change (gas_of (m_set_contract _ _)) with (gas_of m1 - cost) in G2.
  apply wp_bind. eapply wp_mono; [apply (Hx m2 cost)|cbv beta].
  - lia.
  - rewrite E2. exact T1.
  - rewrite E2, S2. cbn. by rewrite S1.
  - lia.
  - intros r m3 [B1 B2]. eapply wp_mono; [apply after_steady|cbv beta]. intros x m4 [[G4 M4] _].
    split; [lia|]. intros _. split; [lia|auto].
Qed.

Lemma entry_create o g k :
  dynamicGas o = Some g → dyn_ok g k → 0 ≤ k → 0 < constantGas o → create_exec (execute o) → entry_ok o.
Proof.
  intros Hd Hg Hk Hc Hx. split; [lia|]. intros n m Hn _ Hgas Hb Hm. unfold pay_exec.
  apply wp_bind, (charge_wp o g); [done|]. eapply wp_mono; [by apply Hg|cbv beta].
  intros [cost|e] m1 [G1 H1].
  2:{ apply wp_ret. split; [lia|done]. }
  destruct (H1 cost eq_refl) as [Hcost M1]. destruct (Z.ltb_spec (gas_of m1) cost) as [Hlow|Hhigh].
  { apply wp_ret. split; [lia|done]. }
  cbn [negb]. apply resize_wp; [done|exact M1|]. intros m2 G2 _ _ M2.
  change (gas_of (m_set_contract _ _)) with (gas_of m1 - cost) in G2.
  apply wp_bind. eapply wp_mono; [apply Hx; lia|cbv beta]. intros r m3 [B1 B2].
  eapply wp_mono; [apply after_steady|cbv beta]. intros x m4 [[G4 M4] _]. split; [lia|]. intros _. split; [lia|auto].
Qed.

(** Which lemma an entry of the table falls under. *)
Ltac side_tac := unfold stops; cbn; (done || lia || (by vm_compute) || (intros _; by vm_compute)).
Ltac dyn_entry k L := eapply (entry_dyn _ _ k); [reflexivity|apply L|side_tac|side_tac|side_tac|cbn [execute]; steady_tac].
Ltac dyn0_entry k L :=
  eapply (entry_dyn0 _ _ k); [reflexivity|apply L|reflexivity|side_tac|side_tac|side_tac|cbn [execute]; steady_tac].
Ltac call_entry L k E := eapply entry_call; [reflexivity|exact L|apply k|by vm_compute|apply E].
Ltac entry_tac :=
  lazymatch goal with
  | |- entry_ok (mkOperation _ _ None _ _ _ _ _ _ _ _) =>
      apply entry_plain; [done|side_tac|done|side_tac|cbn [execute]; steady_tac]
  | |- entry_ok (mkOperation _ _ (Some ?g) _ _ _ _ _ _ _ _) =>
      lazymatch g with
      | gasCallEIP2929 => call_entry (proj1 dyn_calls) if_value_nonneg opCall_exec
      | gasCallCodeEIP2929 => call_entry (proj1 (proj2 dyn_calls)) if_value_nonneg opCallCode_exec
      | gasDelegateCallEIP2929 => call_entry (proj1 (proj2 (proj2 dyn_calls))) no_value_nonneg opDelegateCall_exec
      | gasStaticCallEIP2929 => call_entry (proj2 (proj2 (proj2 dyn_calls))) no_value_nonneg opStaticCall_exec
      | gasCreate => eapply entry_create; [reflexivity|apply dyn_pure|done|by vm_compute|apply opCreate_exec]
      | gasCreate2 => eapply entry_create; [reflexivity|exact (dyn_word 2)|done|by vm_compute|apply opCreate2_exec]
      | gasSha3 => dyn_entry 0 (dyn_word 1)
      | gasExtCodeCopyEIP2929 => dyn_entry 0 dyn_extcodecopy
      | gasCallDataCopy => dyn_entry 0 (dyn_copier 2)
      | gasCodeCopy => dyn_entry 0 (dyn_copier 2)
      | gasReturnDataCopy => dyn_entry 0 (dyn_copier 2)
      | makeGasLog ?n => dyn_entry 375 (dyn_log n ltac:(lia))
      | gasSStoreEIP3529 => dyn0_entry 100 (dyn_sstore SstoreClearsScheduleRefundEIP3529)
      | gasSLoadEIP2929 => dyn0_entry 100 dyn_sload
      | gasEip2929AccountCheck => dyn0_entry 0 dyn_account
      | gasSelfdestructEIP3529 => dyn0_entry 0 (dyn_selfdestruct false)
      | gasExpEIP158 => dyn0_entry 10 (dyn_exp ExpByteEIP158 ltac:(by vm_compute))
      | _ => dyn_entry 0 dyn_pure
      end
  end.

Lemma london_entries_ok : Forall (λ e, entry_ok (snd e)) (newLondonInstructionSet env run).
Proof. london_entries. repeat (apply Forall_cons_2; [cbn [snd]; solve [entry_tac]|]). apply Forall_nil_2. Qed.

End CallInstructions.

(** ** Rounds and runs *)

Section Runs.
Context {B : Backend} {U : Uint256} {P : Precompiles} {PG : PrecompilesGas} (env : EvmEnv).

Lemma memory_size_wp o st m (Q : result vm_error Z → machine → Prop) :
  (∀ n, 0 ≤ n → (memorySize o = None → n = 0) → Q (Ok (32 * n)) m) → (∀ e, Q (Err e) m) →
  wp (memory_size o st) Q m.
Proof.
  intros H1 H2. unfold memory_size. destruct (memorySize o) as [f|]; [|by apply (H1 0)].
  destruct (f st) as [[size overflow]|]; [|done]. destruct overflow; [apply H2|].
  apply wp_checked; [|apply H2]. intros v Hv.
  assert (0 ≤ toWordSize size) as Hn.
  { unfold toWordSize. destruct (_ <? _); [by vm_compute|]. apply Z.div_pos; [|lia]. apply wrap_range. lia. }
  apply SafeMul_ok in Hv; [|done|lia]. rewrite Hv, Z.mul_comm. by apply H1.
Qed.

Lemma m_set_evm_id (m : machine) : m_set_evm (m_evm m) m = m.
Proof. by destruct m. Qed.

(** A round with [G] gas on a runner that is right below [G]. *)
Lemma step_gas run m :
  run_ok (gas_of m) run → 0 ≤ gas_of m < 2 ^ 64 → mem_ok (m_mem m) →
  wp (step env run) (λ r m', 0 ≤ gas_of m' ≤ gas_of m ∧
    (r = None → gas_of m' < gas_of m ∧ mem_ok (m_mem m'))) m.
Proof.
  intros Hrun Hg Hm. unfold step. apply wp_bind, wp_read, wp_bind, wp_read. cbv zeta.
  destruct (jt_get _ _) as [o|] eqn:Eo; [|split; [lia|done]].
  assert (entry_ok (gas_of m) o) as [Hc Ho].
  { pose proof (london_entries_ok env (gas_of m) ltac:(lia) run Hrun) as Hall.
    rewrite Forall_forall in Hall. apply (Hall _ (jt_get_entry _ _ _ Eo)). }
  apply wp_bind, wp_read. destruct (_ <? minStack o); [split; [lia|done]|].
  destruct (maxStack o <? _); [split; [lia|done]|].
  apply wp_bind, wp_on_evm, wp_read. rewrite m_set_evm_id.
  destruct (_ && _); [split; [lia|done]|]. unfold perform.
  apply wp_bind. unfold wpg at 1, use_gas, UseGas. change (ct_Gas (m_contract m)) with (gas_of m).
  destruct (Z.ltb_spec (gas_of m) (constantGas o)) as [Hlow|Hhigh]; cbn [negb]; [split; [cbn; fold (gas_of m)|done]|].
  { change (0 ≤ gas_of m ≤ gas_of m). lia. }
  set (m1 := m_set_contract _ m). assert (gas_of m1 = gas_of m - constantGas o) as G1 by done.
  apply wp_bind, memory_size_wp; [|intros err; split; [lia|done]]. intros n Hn Hn0.
  eapply wp_mono; [apply (Ho n m1 Hn Hn0); [lia|lia|exact Hm]|cbv beta].
  intros r m2 [H1 H2]. split; [lia|]. intros Hr. destruct (H2 Hr). split; [lia|done].
Qed.

(** As many rounds as there is gas are enough. *)
Lemma loop_gas fuel : ∀ steps m,
  0 ≤ gas_of m < 2 ^ 64 → gas_of m < Z.of_nat fuel → mem_ok (m_mem m) →
  wp (loop env fuel steps) (λ _ m', 0 ≤ gas_of m' ≤ gas_of m) m.
Proof.
  induction fuel as [|fuel IH]; intros steps m Hg Hf Hm; [lia|]. cbn [loop]. cbv zeta.
  destruct (_ && _); [apply wp_ret; lia|]. apply wp_bind.
  eapply wp_mono; [apply step_gas; [|done|done]|cbv beta].
  - intros c input ro e Hc. unfold enter. unfold wpg. cbv zeta.
    destruct (ct_Code c) as [|b code]; [cbn; lia|]. set (m0 := mkMachine _ _ _ _ _).
    assert (gas_of m0 = ct_Gas c) as G0 by done.
    pose proof (IH 0 m0 ltac:(lia) ltac:(lia) mem_ok_new) as H. unfold wpg in H.
    destruct (loop env fuel 0 m0) as [[[ret err] m1]| |]; [|done|done]. cbn. by rewrite G0 in H.
  - intros [r|] m1 [H1 H2]; [apply wp_ret; lia|]. destruct (H2 eq_refl) as [H3 H4].
    eapply wp_mono; [apply IH; [lia|lia|done]|cbv beta]. intros _ m2 H5. lia.
Qed.

Lemma Run_gas fuel c input ro e :
  0 ≤ ct_Gas c < 2 ^ 64 → ct_Gas c < Z.of_nat fuel →
  wp (Run env fuel c input ro) (λ r _, 0 ≤ ct_Gas (snd r) ≤ ct_Gas c) e.
Proof.
  intros Hc Hf. unfold Run, enter, wpg. cbv zeta. destruct (ct_Code c) as [|b code]; [cbn; lia|].
  set (m0 := mkMachine _ _ _ _ _). assert (gas_of m0 = ct_Gas c) as G0 by done.
  pose proof (loop_gas fuel 0 m0 ltac:(lia) ltac:(lia) mem_ok_new) as H. unfold wpg in H.
  destruct (loop env fuel 0 m0) as [[[ret err] m1]| |]; [|done|done]. cbn. by rewrite G0 in H.
Qed.

Lemma Run_ok fuel : Z.of_nat fuel ≤ 2 ^ 64 → run_ok (Z.of_nat fuel) (Run env fuel).
Proof. intros Hf c input ro e Hc. apply Run_gas; lia. Qed.

End Runs.

(** ** Concrete EVM *)

(** No precompiles. *)
#[export] Instance NoPrecompiles : @Precompiles MapBackend :=
  {| precompile _ := None; precompile_Run _ _ _ _ _ := Panic |}.
#[export] Instance NoPrecompilesGas : PrecompilesGas.
Proof. by split. Qed.

Definition demo_env : EvmEnv := mkEvmEnv (λ _, 0) 5 1000000 1 2 3 (Some 7) 9 10 (Some 61) false false false.

(** A contract that calls itself with all its gas, forever:
    [PUSH1 0 x5, ADDRESS, GAS, CALL, PUSH1 0, JUMP]. *)
Definition loop_code : bytes := [0x5b; 0x60; 0; 0x60; 0; 0x60; 0; 0x60; 0; 0x60; 0; 0x30; 0x5a; 0xf1; 0x60; 0; 0x56].
Definition demo_evm : EVM := mkEVM (SetCode 77 loop_code (AddBalance 1 1000 genesis_state)) 0 0 false [] [].

(** ** Claims *)

(** C6: a run of the interpreter always ends: with a round of fuel per unit of
    gas (plus one) neither the frame nor any frame below it runs out of fuel,
    so every loop, every call chain and every creation chain is cut off by
    gas; and the gas left is between zero and the gas given. *)
Theorem run_terminates {B : Backend} {U : Uint256} {P : Precompiles} {PG : PrecompilesGas} env fuel c input ro e :
  is_u64 (ct_Gas c) → ct_Gas c < Z.of_nat fuel →
  Run env fuel c input ro e ≠ XFuel ∧
  ∀ ret err c' e', Run env fuel c input ro e = XRet ((ret, err, c'), e') → 0 ≤ ct_Gas c' ≤ ct_Gas c.
Proof.
  intros Hc Hf. pose proof (Run_gas env fuel c input ro e Hc Hf) as H. unfold wpg in H.
  destruct (Run env fuel c input ro e) as [[[[ret err] c'] e']| |]; [|done|done].
  split; [done|]. by intros ret' err' c'' e'' [= <- <- <- <-].
Qed.

Lemma run_terminates_witness :
  let c := mkContract 1 None 77 0 None loop_code 0 None [] 600 (Some 0) in
  Run demo_env (Z.to_nat 601) c [] false demo_evm ≠ XFuel.
Proof.
  intros c. destruct (run_terminates demo_env (Z.to_nat 601) c [] false demo_evm) as [H _].
  - split; vm_compute; [discriminate|reflexivity].
  - vm_compute. reflexivity.
  - exact H.
Defined.
