(* ===== verification/EvmEffect.v ===== *)
(** * Effects of the EVM on the state

    Every run, call and creation changes the state by journaled operations with
    balanced snapshots, so a call that fails leaves no trace; a read-only frame
    changes nothing that precompiles leave alone.  Partial correctness: executions that panic or
    run out of fuel are left out here ([EvmGas] bounds the fuel). *)
From S2P Require Import Prelude Common AccessList StateObject Concrete StateDB StateRevert StateBalance Transfer StateEffect.
From S2P Require Import EvmWord EvmAnalysis EvmMachine EvmGasTable EvmMemory EvmCall EvmInstr EvmRun EvmLogic EvmGas.
Import GoMath Bytes.

(** ** Contracts and precompiles *)

Definition contract_ok (c : Contract) : Prop :=
  valid_addr (ct_self c) ∧ valid_addr (ct_CallerAddress c) ∧
  match ct_parent c with Some (a, _) => valid_addr a | None => True end.
Definition ref_ok (r : ContractRef) : Prop :=
  match r with AccountRef a => valid_addr a | OfContract c => contract_ok c end.

Lemma ref_Address_ok r : ref_ok r → valid_addr (ref_Address r).
Proof. destruct r; [done|by intros []]. Qed.

(** A precompile works on the state through the journal. *)
Class PrecompilesOk `{BOk : BackendOk} {P : Precompiles} : Prop := {
  precompile_eff : ∀ a rg env c input s out err s',
    precompile a = Some rg → contract_ok c → precompile_Run a env c input s = Ret (out, err, s') →
    eff (D := still_drift) False s s'
}.

(** No precompile takes a sound state out of the chosen preorder. *)
Definition steady `{BOk : BackendOk} {P : Precompiles} {D : Drift} : Prop := ∀ a rg env c input s out err s',
  precompile a = Some rg → contract_ok c → sound s → precompile_Run a env c input s = Ret (out, err, s') → drift s s'.

Section VEffects.
Context {B : Backend} {BOk : BackendOk B} {P : Precompiles} {PO : PrecompilesOk} {Dr : Drift} (env : EvmEnv).

Definition db := @ev_StateDB B.

(** The read-only flag stays and the state has an effect that is static under
    [st]. *)
Definition veff (st : Prop) (e e' : EVM) : Prop := ev_readOnly e' = ev_readOnly e ∧ eff st (db e) (db e').

#[export] Instance veff_preorder st : PreOrder (veff st).
Proof. split; [done|]. intros e1 e2 e3 [R1 E1] [R2 E2]. split; [congruence|by etrans]. Qed.

Lemma veff_weaken (st st' : Prop) e e' : (st' → st) → veff st e e' → veff st' e e'.
Proof. intros Hi [R E]. split; [done|]. by eapply eff_weaken. Qed.

Lemma veff_read {A} (st : Prop) (f : StateDB → A * StateDB) : (∀ s, eff st s (snd (f s))) → lpres (veff st) (db_read f).
Proof. intros H e. unfold wpg, db_read. specialize (H (db e)). unfold db in *. by destruct (f (ev_StateDB e)). Qed.
Lemma veff_do (st : Prop) (f : StateDB → StateDB) : (∀ s, eff st s (f s)) → lpres (veff st) (db_do f).
Proof. intros H e. split; [done|apply H]. Qed.
Lemma veff_try (st : Prop) (f : StateDB → outcome StateDB) :
  (∀ s s', f s = Ret s' → eff st s s') → lpres (veff st) (db_try f).
Proof. intros H e. unfold wpg, db_try. destruct (f (ev_StateDB e)) eqn:E; [|done]. split; [done|by apply H]. Qed.
Lemma veff_ask {A} (st : Prop) (f : StateDB → outcome A) : lpres (veff st) (db_ask f).
Proof. intros e. unfold wpg, db_ask. by destruct (f (ev_StateDB e)). Qed.

(** A runner that has effects only, and none that show in a read-only frame. *)
Definition run_eff (run : runner) : Prop := ∀ c input ro e, contract_ok c →
  wlp (run c input ro) (λ _ e', veff (steady ∧ ro || ev_readOnly e = true) e e') e.

Context (run : runner) (Hrun : run_eff run).

Lemma NewContract_eff (st : Prop) caller a v gas e :
  ref_ok caller → valid_addr a → wlp (NewContract caller a v gas) (λ c e', contract_ok c ∧ veff st e e') e.
Proof. destruct caller as [b|p]; [done|]. intros (H1 & H2 & H3) Ha. done. Qed.

Lemma load_code_eff (st : Prop) a c e :
  valid_addr a → contract_ok c → wlp (load_code a c) (λ c e', contract_ok c ∧ veff st e e') e.
Proof.
  intros Ha Hc. unfold load_code.
  eapply (wp_pres (veff st)); [apply veff_read; intros; by apply eff_GetCodeHash|]. intros h e1 H1.
  eapply (wp_pres (veff st)); [apply veff_read; intros; by apply eff_GetCode|]. intros code e2 H2.
  apply wp_ret. split; [done|by etrans].
Qed.

Lemma precompiled_eff (st : Prop) a rg input gas c :
  (st → steady) → precompile a = Some rg → contract_ok c → lpres (veff st) (RunPrecompiledContract env a rg input gas c).
Proof.
  intros Hst Hp Hc e. unfold RunPrecompiledContract. cbv zeta. destruct (_ <? _); [done|]. unfold wpg.
  destruct (precompile_Run a env c input (ev_StateDB e)) as [[[out err] s]|] eqn:E; [|done]. split; [done|].
  intros Hs. pose proof (precompile_eff a rg env c input _ _ _ _ Hp Hc E Hs) as []. split; try done.
  intros H. by apply (Hst H a rg env c input _ out err).
Qed.

(** The frame flags of the caller, or a read-only run. *)
Lemma run_veff (st : Prop) c input ro e :
  contract_ok c → (st → steady ∧ ro || ev_readOnly e = true) → wlp (run c input ro) (λ _ e', veff st e e') e.
Proof. intros Hc Hst. eapply wp_mono; [by apply Hrun|]. cbv beta. intros _ e'. by apply veff_weaken. Qed.

Lemma run_code_eff (st : Prop) a input gas ro pc c e :
  valid_addr a → (st → steady ∧ ro || ev_readOnly e = true) →
  (∀ e, wlp pc (λ c e', contract_ok c ∧ veff st e e') e) → (∀ e, wlp c (λ c e', contract_ok c ∧ veff st e e') e) →
  wlp (run_code env run a input gas ro pc c) (λ _ e', veff st e e') e.
Proof.
  intros Ha Hst Hpc Hc. unfold run_code. destruct (precompile a) as [rg|] eqn:Ep.
  - apply wp_bind. eapply wp_mono; [apply Hpc|cbv beta]. intros c1 e1 [K1 H1].
    apply wp_bind. eapply wp_mono; [by apply (load_code_eff st)|cbv beta]. intros c2 e2 [K2 H2].
    eapply wp_mono; [apply (precompiled_eff st); [intros H; by destruct (Hst H)|done|done]|cbv beta]. intros _ e3 H3.
    etrans; [exact H1|]. by etrans.
  - apply wp_bind. eapply wp_mono; [apply Hc|cbv beta]. intros c1 e1 [K1 H1].
    apply wp_bind. eapply wp_mono; [by apply (load_code_eff st)|cbv beta]. intros c2 e2 [K2 H2].
    assert (ev_readOnly e2 = ev_readOnly e) as R by (destruct H1, H2; congruence).
    apply wp_bind. eapply wp_mono; [apply (run_veff st); [done|by rewrite R]|cbv beta].
    intros [[ret err] c3] e3 H3. apply wp_ret. etrans; [exact H1|]. by etrans.
Qed.

(** ** Brackets *)

(** What a call promises: an effect, and nothing at all if it fails. *)
Definition call_eff {A} (st : Prop) (err : A → option vm_error) (e : EVM) (r : A) (e' : EVM) : Prop :=
  veff st e e' ∧ (sound (db e) → err r ≠ None → eqv (db e') (db e)).

Lemma veff_trans_eqv (st : Prop) {A} (err : A → option vm_error) e0 e r e' :
  veff st e0 e → (sound (db e0) → eqv (db e) (db e0)) → call_eff st err e r e' → call_eff st err e0 r e'.
Proof.
  intros H0 Hev [H1 H2]. split; [by etrans|]. intros Hs He. destruct (proj2 H0 Hs) as [S1 _ _ _ _].
  transitivity (db e); auto.
Qed.

Definition call_err (r : bytes * Z * option vm_error) : option vm_error := snd r.

Lemma bracket_ok (st : Prop) {A} (err : A → option vm_error) e e2 r :
  err r = None → veff st (ev_set_StateDB (snd (Snapshot (db e))) e) e2 → call_eff st err e r e2.
Proof. intros Hr [R E]. split; [|by rewrite Hr]. split; [done|]. etrans; [apply eff_Snapshot|exact E]. Qed.

(** Steps between the snapshot and the revert leave nothing. *)
Lemma revert_eff (st : Prop) {A} (err : A → option vm_error) r e e2 :
  veff st (ev_set_StateDB (snd (Snapshot (db e))) e) e2 →
  wlp (run! _ <- db_try (RevertToSnapshot (fst (Snapshot (db e)))); sret r) (call_eff st err e) e2.
Proof.
  intros [R E]. apply wp_bind. unfold wpg at 1, db_try.
  destruct (RevertToSnapshot (fst (Snapshot (db e))) (ev_StateDB e2)) as [s3|] eqn:E3; [|done]. apply wp_ret.
  assert (sound (db e) → eqv s3 (db e) ∧ effect True (db e) s3) as H3.
  { intros Hs. destruct (eff_revert st (db e) (db e2) Hs E) as (s3' & E3' & V & F). unfold db in *.
    rewrite E3 in E3'. by injection E3' as <-. }
  split; [|intros Hs _; by apply H3]. split; [done|]. intros Hs. destruct (proj2 (H3 Hs)). split; auto.
Qed.

Lemma finish_eff (st : Prop) e e2 r :
  veff st (ev_set_StateDB (snd (Snapshot (db e))) e) e2 →
  wlp (finish_call (fst (Snapshot (db e))) r) (call_eff st call_err e) e2.
Proof.
  intros H. destruct r as [[ret gas] [er|]]; cbn [finish_call]; [by apply revert_eff|by apply wp_ret, bracket_ok].
Qed.

Lemma wp_snapshot {A} (k : Z → V A) (Q : A → EVM → Prop) e :
  wlp (k (fst (Snapshot (db e)))) Q (ev_set_StateDB (snd (Snapshot (db e))) e) → wlp (sbind (db_read Snapshot) k) Q e.
Proof. done. Qed.

Lemma guards_eff (st : Prop) gas k e :
  wlp k (call_eff st call_err e) e → wlp (call_guards env gas k) (call_eff st call_err e) e.
Proof.
  intros Hk. unfold call_guards. apply wp_bind, wp_read.
  destruct (_ && _); [by apply wp_ret|]. destruct (_ <? _); [by apply wp_ret|exact Hk].
Qed.

(** A read before the bracket leaves the state as it was. *)
Lemma read_eff (st : Prop) {A C} (err : C → option vm_error) (f : StateDB → A * StateDB) (k : A → V C) e :
  (∀ s, eff st s (snd (f s))) → (∀ s, inv s → eqv (snd (f s)) s) →
  (∀ e1, veff st e e1 → db e1 = snd (f (db e)) → wlp (k (fst (f (db e)))) (call_eff st err e1) e1) →
  wlp (sbind (db_read f) k) (call_eff st err e) e.
Proof.
  intros Hf Hev Hk. apply wp_bind. unfold wpg at 1, db_read. unfold db in *.
  specialize (Hf (ev_StateDB e)). specialize (Hev (ev_StateDB e)).
  destruct (f (ev_StateDB e)) as [c t]. cbn [fst snd] in *.
  eapply wp_mono; [apply Hk; by split|]. intros r e'. apply veff_trans_eqv; [by split|].
  intros [Hi _]. by apply Hev.
Qed.

Lemma can_eff (st : Prop) {A} (err : A → option vm_error) a x (b : bool) (k : bool → V A) e :
  valid_addr a →
  (∀ c e1, veff st e e1 → wlp (k c) (call_eff st err e1) e1) →
  wlp (run! can <- (if b then sret true else db_read (CanTransfer a x)); k can) (call_eff st err e) e.
Proof.
  intros Ha Hk. destruct b.
  - apply wp_bind, wp_ret. by apply Hk.
  - apply read_eff; [intros; by apply eff_CanTransfer|intros; by apply CanTransfer_eqv|]. intros e1 H1 _. by apply Hk.
Qed.

Ltac vstep st := eapply (wp_pres (veff st));
  [first [apply veff_read|apply veff_do]; intros;
   auto using eff_GetCode, eff_GetCodeHash, eff_GetNonce, eff_AddAddress, eff_Transfer, eff_AddBalance, ref_Address_ok
  |].

(** The rest of a call after [Exist]: create the account, transfer, run. *)
Lemma call_body_eff (st : Prop) caller a input gas value exists_ e :
  ref_ok caller → valid_addr a → (st → steady ∧ ev_readOnly e = true) → (st → value = 0) →
  (exists_ = false → live (db e) a = None) →
  wlp (run! _ <- (if exists_ then sret tt else db_do (CreateAccount a));
       run! _ <- db_do (Transfer (ref_Address caller) a value);
       match precompile a with
       | Some RequiredGas =>
           run! c <- NewContract caller a (Some value) gas;
           run! c <- load_code a c;
           RunPrecompiledContract env a RequiredGas input gas c
       | None =>
           run! code <- db_read (GetCode a);
           match default [] code with
           | [] => sret ([], gas, None)
           | code =>
               run! c <- NewContract caller a (Some value) gas;
               run! codeHash <- db_read (GetCodeHash a);
               run! (ret, err, c) <- run (SetCallCode (Some a) codeHash code c) input false;
               sret (ret, ct_Gas c, err)
           end
       end) (λ _ e', veff st e e') e.
Proof.
  intros Hr Ha Hst Hv Hl. apply wp_bind.
  eapply (wp_mono _ (λ _ e', veff st e e')).
  { destruct exists_; [by apply wp_ret|]. split; [done|]. apply eff_CreateAccount; [done|].
    intros _. by apply Hl. }
  cbv beta. intros _ e1 H1.
  vstep st. intros _ e2 H2.
  destruct (precompile a) as [rg|] eqn:Ep.
  - apply wp_bind. eapply wp_mono; [by apply (NewContract_eff st)|cbv beta]. intros c e3 [K3 H3].
    apply wp_bind. eapply wp_mono; [by apply (load_code_eff st)|cbv beta]. intros c2 e4 [K4 H4].
    eapply wp_mono; [apply (precompiled_eff st); [intros H; by destruct (Hst H)|done|done]|cbv beta].
    intros _ e5 H5. etrans; [exact H1|]. etrans; [exact H2|]. etrans; [exact H3|]. by etrans.
  - vstep st. intros code e3 H3. destruct (default [] code) as [|b code'].
    { apply wp_ret. etrans; [exact H1|]. by etrans. }
    apply wp_bind. eapply wp_mono; [by apply (NewContract_eff st)|cbv beta]. intros c e4 [K4 H4].
    vstep st. intros h e5 H5.
    assert (veff st e e5) as H05 by (etrans; [exact H1|]; etrans; [exact H2|]; etrans; [exact H3|]; by etrans).
    apply wp_bind. eapply wp_mono; [apply (run_veff st); [done|]|cbv beta].
    + destruct H05 as [-> _]. exact Hst.
    + intros [[ret err] c3] e6 H6. apply wp_ret. by etrans.
Qed.

(** The last bind of a chain moved to the postcondition. *)
Lemma wp_chain {A C D E} (x : V A) (y : V C) (z : V D) (g : D → V E) Q e :
  wlp (run! _ <- x; run! _ <- y; z) (λ d, wlp (g d) Q) e → wlp (run! _ <- x; run! _ <- y; run! d <- z; g d) Q e.
Proof.
  intros H. apply wp_bind_inv in H. apply wp_bind. eapply wp_mono; [exact H|cbv beta]. intros _ e1 H1.
  apply wp_bind_inv in H1. apply wp_bind. eapply wp_mono; [exact H1|cbv beta]. intros _ e2. apply wp_bind.
Qed.

Lemma Call_eff (st : Prop) caller a input gas value e :
  ref_ok caller → valid_addr a → (st → steady ∧ ev_readOnly e = true) → (st → value = 0) →
  wlp (Call env run caller a input gas value) (call_eff st call_err e) e.
Proof.
  intros Hr Ha Hst Hv. apply guards_eff, can_eff; [by apply ref_Address_ok|]. intros can e1 H1.
  destruct (negb can); [by apply wp_ret|]. apply wp_snapshot. set (e2 := ev_set_StateDB _ e1). cbv zeta.
  apply wp_bind. unfold wpg at 1, db_read. pose proof (eff_Exist st a (db e2) Ha) as He.
  pose proof (Exist_live a (db e2)) as Hl.
  change (ev_StateDB e2) with (db e2). destruct (Exist a (db e2)) as [ex t]. cbn [fst snd] in *.
  set (e3 := ev_set_StateDB t e2). assert (veff st e2 e3) as H3 by by split.
  destruct (_ && _); [by apply wp_ret, bracket_ok|].
  apply wp_chain. eapply wp_mono; [apply (call_body_eff st); try done|cbv beta].
  - assert (ev_readOnly e3 = ev_readOnly e) as -> by apply H1. done.
  - intros r e4 H4. apply finish_eff. by etrans.
Qed.

Lemma CallCode_eff (st : Prop) caller a input gas value e :
  ref_ok caller → valid_addr a → (st → steady ∧ ev_readOnly e = true) →
  wlp (CallCode env run caller a input gas value) (call_eff st call_err e) e.
Proof.
  intros Hr Ha Hst. apply guards_eff. pose proof (ref_Address_ok caller Hr) as Hself.
  apply (can_eff st call_err _ value false); [done|]. intros can e1 H1.
  destruct (negb can); [by apply wp_ret|]. apply wp_snapshot. cbv zeta.
  apply wp_bind. eapply wp_mono; [apply (run_code_eff st)|cbv beta].
  - done.
  - cbn. assert (ev_readOnly e1 = ev_readOnly e) as -> by apply H1. done.
  - intros e2. by apply NewContract_eff.
  - intros e2. by apply NewContract_eff.
  - intros r e4 H4. by apply finish_eff.
Qed.

Lemma delegate_eff (st : Prop) caller a gas e :
  ref_ok caller → valid_addr a →
  wlp (run! c <- NewContract caller a None gas; sopt (AsDelegate c)) (λ c e', contract_ok c ∧ veff st e e') e.
Proof.
  intros Hr Ha. apply wp_bind. eapply wp_mono; [by apply (NewContract_eff st)|cbv beta]. intros c e1 [K H].
  unfold AsDelegate. destruct K as (K1 & K2 & K3). destruct (ct_parent c) as [[p v]|] eqn:Ep; [|done].
  apply wp_ret. split; [|done]. split; [done|]. split; [done|]. cbn. by rewrite Ep.
Qed.

Lemma DelegateCall_eff (st : Prop) caller a input gas e :
  ref_ok caller → valid_addr a → (st → steady ∧ ev_readOnly e = true) →
  wlp (DelegateCall env run caller a input gas) (call_eff st call_err e) e.
Proof.
  intros Hr Ha Hst. apply guards_eff. pose proof (ref_Address_ok caller Hr) as Hself.
  apply wp_snapshot. cbv zeta. apply wp_bind. eapply wp_mono; [apply (run_code_eff st)|cbv beta].
  - done.
  - exact Hst.
  - intros e2. by apply NewContract_eff.
  - intros e2. by apply delegate_eff.
  - intros r e4 H4. by apply finish_eff.
Qed.

(** A static call is static whatever the frame of its caller. *)
Lemma StaticCall_eff (st : Prop) caller a input gas e :
  ref_ok caller → valid_addr a → (st → steady) →
  wlp (StaticCall env run caller a input gas) (call_eff st call_err e) e.
Proof.
  intros Hr Ha Hst. apply guards_eff. apply wp_snapshot. vstep st. intros _ e2 H2. cbv zeta.
  apply wp_bind. eapply wp_mono; [apply (run_code_eff st)|cbv beta].
  - done.
  - intros H. split; [auto|done].
  - intros e3. by apply NewContract_eff.
  - intros e3. by apply NewContract_eff.
  - intros r e4 H4. apply finish_eff. by etrans.
Qed.

(** ** Creation *)

Lemma hash_addr_valid data : valid_addr (BytesToAddress (drop 12 (Keccak256 data))).
Proof.
  destruct (Keccak256_len data) as [Hl Hw]. set (l := drop 12 (Keccak256 data)).
  assert (length l = 20%nat) as H20 by (unfold l; rewrite length_drop, Hl; lia).
  assert (wf_bytes l) as Hwl by (unfold l; by apply Forall_drop).
  unfold BytesToAddress, zlen. rewrite H20. cbn. pose proof (be_decode_range l Hwl) as H. by rewrite H20 in H.
Qed.

Definition create_err (r : bytes * address * Z * option vm_error) : option vm_error := snd r.

(** The caller's nonce is taken and the address is warm, nothing else. *)
Definition nonce_taken (self addr : address) (s s' : StateDB) : Prop :=
  ∃ s0, eqv s0 s ∧
    eqv s' (AddAddressToAccessList addr (SetNonce self (u64 (nonce_of s self + 1)) s0)).

Definition create_eff (self addr : address) (e : EVM) (r : bytes * address * Z * option vm_error) (e' : EVM) : Prop :=
  veff False e e' ∧
  (sound (db e) → create_err r ≠ None → eqv (db e') (db e) ∨ nonce_taken self addr (db e) (db e')).

Lemma deploy_eff a ret err c : valid_addr a → lpres (veff False) (deploy a ret err c).
Proof.
  intros Ha e. unfold deploy. cbv zeta. case_match; [by apply wp_ret|]. destruct (UseGas _ c) as [ok c'].
  destruct ok; [|by apply wp_ret]. eapply (wp_pres (veff False)); [apply veff_do; intros; by apply eff_SetCode|].
  intros _ e1 H1. by apply wp_ret.
Qed.

(** Creation after the nonce is taken. *)
Lemma create_rest_eff caller code h gas value addr depth e :
  ref_ok caller → valid_addr addr →
  wlp (run! contractHash <- db_read (GetCodeHash addr);
       run! there <- db_read (GetNonce addr);
       if negb (there =? 0) || (negb (contractHash =? 0) && negb (contractHash =? Keccak256Hash [])) then
         sret ([], 0, 0, Some ErrContractAddressCollision)
       else
         run! snapshot <- db_read Snapshot;
         run! _ <- db_do (CreateAccount addr);
         run! _ <- db_do (SetNonce addr 1);
         run! _ <- db_do (Transfer (ref_Address caller) addr value);
         run! c <- NewContract caller addr (Some value) gas;
         let c := SetCallCode (Some addr) h code c in
         if env_NoRecursion env && (0 <? depth) then sret ([], addr, gas, None)
         else
           run! (ret, err, c) <- run c [] false;
           run! (err, c) <- deploy addr ret err c;
           match err with
           | None => sret (ret, addr, ct_Gas c, None)
           | Some e =>
               run! _ <- db_try (RevertToSnapshot snapshot);
               sret (ret, addr, if decide (e = ErrExecutionReverted) then ct_Gas c else 0, Some e)
           end) (call_eff False create_err e) e.
Proof.
  intros Hr Ha. pose proof (ref_Address_ok caller Hr) as Hself.
  apply read_eff; [intros; by apply eff_GetCodeHash|intros; by apply GetCodeHash_eqv|]. intros e1 _ _.
  apply read_eff; [intros; by apply eff_GetNonce|intros; by apply GetNonce_eqv|]. intros e2 _ _.
  destruct (_ || _); [by apply wp_ret|]. apply wp_snapshot. set (e3 := ev_set_StateDB _ e2).
  eapply (wp_pres (veff False)); [apply veff_do; intros; by apply eff_CreateAccount|]. intros _ e4 H4.
  eapply (wp_pres (veff False)); [apply veff_do; intros; by apply eff_SetNonce|]. intros _ e5 H5.
  eapply (wp_pres (veff False)); [apply veff_do; intros; by apply eff_Transfer|]. intros _ e6 H6.
  apply wp_bind. eapply wp_mono; [by apply (NewContract_eff False)|cbv beta]. intros c e7 [K7 H7]. cbv zeta.
  assert (veff False e3 e7) as H37 by (etrans; [exact H4|]; etrans; [exact H5|]; by etrans).
  destruct (_ && _); [by apply wp_ret, bracket_ok|].
  apply wp_bind. eapply wp_mono; [by apply (run_veff False)|cbv beta]. intros [[ret err] c8] e8 H8.
  eapply (wp_pres (veff False)); [by apply deploy_eff|]. intros [err' c9] e9 H9.
  assert (veff False e3 e9) as H39 by (etrans; [exact H37|]; by etrans).
  destruct err' as [er|]; [by apply revert_eff|by apply wp_ret, bracket_ok].
Qed.

Lemma create_full_eff caller code h gas value addr e :
  ref_ok caller → valid_addr addr →
  wlp (create env run caller code h gas value addr) (create_eff (ref_Address caller) addr e) e.
Proof.
  intros Hr Ha. pose proof (ref_Address_ok caller Hr) as Hself. set (self := ref_Address caller) in *.
  assert (∀ r e', call_eff False create_err e r e' → create_eff self addr e r e') as Hplain.
  { intros r e' [H1 H2]. split; [done|]. intros Hs He. left. auto. }
  unfold create. fold self. apply wp_bind, wp_read. destruct (_ <? _); [by apply wp_ret, Hplain|].
  set (s1 := snd (CanTransfer self value (db e))). set (s2 := snd (GetNonce self s1)).
  assert (eff False (db e) s1) as E1 by by apply eff_CanTransfer.
  assert (eff False s1 s2) as E2 by by apply eff_GetNonce.
  apply wp_bind. unfold wpg at 1, db_read. change (ev_StateDB e) with (db e).
  destruct (CanTransfer self value (db e)) as [can t] eqn:Ecan. cbn [snd] in s1. subst s1.
  destruct (negb can).
  { apply wp_ret, Hplain. split; [by split|]. intros Hs _. cbn. change t with (snd (can, t)). rewrite <- Ecan.
    apply CanTransfer_eqv; [apply Hs|done]. }
  apply wp_bind. unfold wpg at 1, db_read. cbn [ev_StateDB ev_set_StateDB].
  assert (sound (db e) → fst (GetNonce self t) = nonce_of (db e) self) as Hn.
  { intros Hs. destruct (E1 Hs) as [[Hi _] _ _ _ _]. rewrite GetNonce_nonce by done.
    apply eqv_nonce; [|done]. change t with (snd (can, t)). rewrite <- Ecan. apply CanTransfer_eqv; [apply Hs|done]. }
  destruct (GetNonce self t) as [n t2] eqn:En. cbn [fst snd] in s2, Hn. subst s2.
  apply wp_bind. unfold wpg at 1, db_do. apply wp_bind. unfold wpg at 1, db_do. cbn [ev_StateDB ev_set_StateDB].
  set (e4 := ev_set_StateDB _ _). assert (veff False e e4) as H4.
  { split; [done|]. etrans; [exact E1|]. etrans; [exact E2|]. etrans; [by apply (eff_SetNonce self)|apply eff_AddAddress]. }
  eapply wp_mono; [by apply create_rest_eff|]. intros r e' [H5 H6]. split; [by etrans|]. intros Hs He. right.
  exists t2. destruct (E1 Hs) as [S1 _ _ _ _]. split.
  - transitivity t.
    + change t2 with (snd (n, t2)). rewrite <- En. apply GetNonce_eqv; [apply S1|done].
    + change t with (snd (can, t)). rewrite <- Ecan. apply CanTransfer_eqv; [apply Hs|done].
  - rewrite <- (Hn Hs). apply H6; [|done]. by destruct (proj2 H4 Hs).
Qed.

Lemma Create_eff caller code gas value e :
  ref_ok caller →
  wlp (Create env run caller code gas value)
    (λ r e', veff False e e' ∧ (sound (db e) → create_err r ≠ None →
       eqv (db e') (db e) ∨ ∃ addr, nonce_taken (ref_Address caller) addr (db e) (db e'))) e.
Proof.
  intros Hr. pose proof (ref_Address_ok caller Hr) as Hself. unfold Create. apply wp_bind. unfold wpg at 1, db_read.
  change (ev_StateDB e) with (db e). pose proof (eff_GetNonce False _ (db e) Hself) as E.
  pose proof (λ Hi, GetNonce_eqv _ (db e) Hi Hself) as Hev.
  destruct (GetNonce (ref_Address caller) (db e)) as [n t]. cbn [snd] in *.
  eapply wp_mono; [apply create_full_eff; [done|apply hash_addr_valid]|]. intros r e' [H1 H2].
  split; [etrans; [|exact H1]; by split|]. intros Hs He. specialize (Hev (proj1 Hs)).
  destruct (E Hs) as [S1 _ _ _ _]. destruct (H2 S1 He) as [H|(s0 & V0 & V1)].
  - left. by transitivity t.
  - right. eexists. exists s0. split; [by transitivity t|]. cbn [db ev_StateDB ev_set_StateDB] in V1.
    rewrite <- (eqv_nonce t (db e)) by done. exact V1.
Qed.

Lemma Create2_eff caller code gas value salt e :
  ref_ok caller → wlp (Create2 env run caller code gas value salt) (λ _ e', veff False e e') e.
Proof.
  intros Hr. unfold Create2. cbv zeta. eapply wp_mono; [apply create_full_eff; [done|apply hash_addr_valid]|].
  by intros r e' [H1 _].
Qed.

End VEffects.

(** ** Instructions *)

Section XEffects.
Context {B : Backend} {BOk : BackendOk B} {U : Uint256} {P : Precompiles} {PO : PrecompilesOk} {Dr : Drift} (env : EvmEnv).
Context (run : runner) (Hrun : run_eff run).

(** Frames that start with the read-only flag [ro]. *)
Context (ro : bool).
Definition still : Prop := steady ∧ ro = true.

(** From a sound frame to a sound frame, with an effect that is static in a
    read-only one. *)
Definition xeff (m m' : machine) : Prop :=
  contract_ok (m_contract m) → ev_readOnly (m_evm m) = ro →
  contract_ok (m_contract m') ∧ ev_readOnly (m_evm m') = ro ∧ eff still (db (m_evm m)) (db (m_evm m')).

#[export] Instance xeff_preorder : PreOrder xeff.
Proof.
  split; [done|]. intros m1 m2 m3 H1 H2 C1 R1. destruct (H1 C1 R1) as (C2 & R2 & E2).
  destruct (H2 C2 R2) as (C3 & R3 & E3). split; [done|]. split; [done|]. by etrans.
Qed.

(** What [xeff] looks at. *)
Definition core (m : machine) : address * address * option (address * option Z) * StateDB * bool :=
  (ct_self (m_contract m), ct_CallerAddress (m_contract m), ct_parent (m_contract m),
   db (m_evm m), ev_readOnly (m_evm m)).
Lemma core_blind : frame_blind core.
Proof. by split. Qed.
Lemma core_xeff m m' : core m' = core m → xeff m m'.
Proof.
  unfold core, xeff, contract_ok. intros [= -> -> -> -> ->] Hc Hr. split; [done|]. split; [done|]. reflexivity.
Qed.

Lemma wlp_any {S A} (x : St S A) (Q : A → S → Prop) s : (∀ a s', Q a s') → wlp x Q s.
Proof. intros H. unfold wpg. by destruct (x s) as [[a s']| |]. Qed.

Lemma xeff_core {A} (x : X A) :
  (∀ m, match x m with XRet (_, m') => core m' = core m | _ => True end) → lpres xeff x.
Proof.
  intros H m. specialize (H m). unfold wpg. destruct (x m) as [[a m']| |]; [by apply core_xeff|done..].
Qed.

Lemma xeff_on_evm {A} (v : V A) : lpres (veff still) v → lpres xeff (on_evm v).
Proof.
  intros Hv m. unfold wpg, on_evm. specialize (Hv (m_evm m)). unfold wpg in Hv.
  destruct (v (m_evm m)) as [[a e]| |]; [|done..]. intros Hc Hr. destruct Hv as [R E].
  split; [done|]. split; [cbn; congruence|done].
Qed.

Lemma xeff_spop : lpres xeff spop.
Proof. apply (pres_spop core core_blind), core_xeff. Qed.
Lemma xeff_spush x : lpres xeff (spush x).
Proof. apply (pres_spush core core_blind), core_xeff. Qed.
Lemma xeff_sback n : lpres xeff (sback n).
Proof. apply pres_sback, _. Qed.
Lemma xeff_spoke x : lpres xeff (spoke x).
Proof. apply (pres_spoke core core_blind), core_xeff. Qed.
Lemma xeff_valid d : lpres xeff (validJumpdest d).
Proof. apply (pres_validJumpdest core core_blind); [apply _|apply core_xeff]. Qed.
Lemma xeff_set_pc f : lpres xeff (set_pc f).
Proof. by apply xeff_core. Qed.
Lemma xeff_sstack f : lpres xeff (sstack f).
Proof. apply xeff_core. intros m. unfold sstack. by destruct (f (m_stack m)). Qed.
Lemma xeff_smem f : lpres xeff (smem f).
Proof. apply xeff_core. intros m. unfold smem. by destruct (f (m_mem m)). Qed.
Lemma xeff_use_gas g : lpres xeff (use_gas g).
Proof. apply xeff_core. intros m. unfold use_gas, UseGas. by destruct (_ <? _). Qed.
Lemma xeff_give_back g : lpres xeff (give_back g).
Proof. by apply xeff_core. Qed.
Lemma xeff_set_gas (f : Contract → Z) : lpres xeff (contract_do (λ c, ct_set_Gas (f c) c)).
Proof. by apply xeff_core. Qed.
Lemma xeff_checked r : lpres xeff (checked r).
Proof. unfold checked. destruct r as [v [|]]; apply pres_ret, _. Qed.
Lemma xeff_mem_gas n : lpres xeff (mem_gas n).
Proof. apply xeff_core. intros m. unfold mem_gas. by destruct (memoryGasCost _ _) as [[fee mem]|]. Qed.
Lemma xeff_topics n : lpres xeff (pop_topics n).
Proof.
  induction n as [|n IH]; cbn [pop_topics]; [apply pres_ret, _|].
  apply pres_bind; [apply _|apply xeff_spop|intros x]. apply pres_bind; [apply _|done|intros l; apply pres_ret, _].
Qed.

(** The address of the frame is sound. *)
Lemma xeff_self {A} (f : address → X A) : (∀ a, valid_addr a → lpres xeff (f a)) → lpres xeff (sbind self_addr f).
Proof.
  intros Hf m. apply wp_bind, wp_read. destruct (decide (0 ≤ ct_self (m_contract m) < 2 ^ 160)) as [Hd|Hd].
  - by apply Hf.
  - apply wlp_any. intros _ m' (Hc & _). done.
Qed.
Lemma xeff_callvalue {A} (f : EVM → A) : lpres (veff still) (sread f).
Proof. apply pres_read, _. Qed.
Lemma veff_modify (f : EVM → EVM) :
  (∀ e, db (f e) = db e ∧ ev_readOnly (f e) = ev_readOnly e) → lpres (veff still) (smodify f).
Proof. intros H e. destruct (H e) as [E1 E2]. split; [done|]. cbv beta. by rewrite E1. Qed.

Lemma Bytes20_valid x : valid_addr (Bytes20 x).
Proof. apply wrap_range. lia. Qed.

(** Writes only happen in frames that are not read-only. *)
Lemma eff_writing s s' : ro = false → eff False s s' → eff still s s'.
Proof. intros Hro. apply eff_weaken. intros [_ H]. congruence. Qed.

Lemma veff_warm_slot a k : lpres (veff still) (db_try (AddSlotToAccessList a k)).
Proof. apply veff_try. intros s s'. apply eff_AddSlot. Qed.
Lemma veff_sub_refund g : ro = false → 0 ≤ g → lpres (veff still) (db_try (SubRefund g)).
Proof. intros Hro Hg. apply veff_try. intros s s' H. apply eff_writing; [done|]. by apply (eff_SubRefund g). Qed.
Lemma veff_touch0 a : valid_addr a → lpres (veff still) (db_do (AddBalance a 0)).
Proof. intros Ha. apply veff_do. intros s. by apply eff_AddBalance. Qed.
Lemma veff_add a x : ro = false → valid_addr a → lpres (veff still) (db_do (AddBalance a x)).
Proof. intros Hro Ha. apply veff_do. intros s. apply eff_writing; [done|]. by apply eff_AddBalance. Qed.

Create HintDb evmeff discriminated.
#[local] Hint Resolve pres_ret pres_panic pres_read pres_opt pres_out xeff_on_evm xeff_spop xeff_spush xeff_sback
  xeff_spoke xeff_valid xeff_set_pc xeff_sstack xeff_smem xeff_use_gas xeff_give_back xeff_set_gas xeff_checked
  xeff_mem_gas xeff_topics xeff_callvalue Bytes20_valid veff_read veff_do veff_ask veff_warm_slot veff_add
  eff_GetBalance eff_GetNonce eff_GetCode eff_GetCodeHash eff_GetCodeSize eff_GetState eff_GetCommittedState
  eff_Exist eff_Empty eff_HasSuicided eff_AddPreimage eff_AddAddress : evmeff.
#[local] Hint Extern 1 (PreOrder _) => apply _ : evmeff.
#[local] Hint Resolve eff_SetState eff_Suicide eff_AddLog eff_AddRefund veff_sub_refund : evmeff.
#[local] Hint Extern 2 (eff still _ _) => apply eff_writing; [assumption|] : evmeff.
#[local] Hint Extern 1 (0 ≤ _) => by vm_compute : evmeff.

Ltac eff_step :=
  first
    [ solve [eauto 6 with evmeff]
    | apply xeff_self; intros ? ?
    | apply pres_bind; [apply _| |intros ?]
    | apply pres_try; [apply _| |intros ?]
    | progress cbv zeta
    | case_match ].
Ltac eff_tac := try solve [eauto 3 with evmeff]; autounfold with evmops; unfold gret, gfail, add_refund, sub_refund, addr_warm, warm_addr; repeat eff_step.

(** *** Calls from a frame *)

#[local] Instance contract_ok_dec c : Decision (contract_ok c).
Proof.
  unfold contract_ok, valid_addr. apply and_dec; [apply _|]. apply and_dec; [apply _|].
  destruct (ct_parent c) as [[a v]|]; apply _.
Defined.

Lemma xeff_call {A C} (v : ContractRef → V A) (k : A → X C) :
  (∀ caller e, ref_ok caller → ev_readOnly e = ro → wlp (v caller) (λ _ e', veff still e e') e) →
  (∀ r, lpres xeff (k r)) → lpres xeff (run! caller <- self_ref; run! r <- on_evm (v caller); k r).
Proof.
  intros Hv Hk m. destruct (decide (contract_ok (m_contract m))) as [Hc|Hc].
  2:{ apply wlp_any. by intros _ m' ?. }
  destruct (decide (ev_readOnly (m_evm m) = ro)) as [Hr|Hr].
  2:{ apply wlp_any. by intros _ m' _ ?. }
  apply wp_bind, wp_read, wp_bind, wp_on_evm. eapply wp_mono; [by apply Hv|cbv beta]. intros r e1 [R1 E1].
  eapply wp_mono; [apply Hk|cbv beta]. intros _ m2 H2. transitivity (m_set_evm e1 m); [|exact H2].
  intros _ _. split; [done|]. split; [cbn; congruence|done].
Qed.

(** A call of the EVM promises [call_eff]; the frame needs the effect. *)
Lemma call_veff {A} (x : V A) st err e : wlp x (call_eff st err e) e → wlp x (λ _ e', veff st e e') e.
Proof. intros H. eapply wp_mono; [exact H|]. by intros r e' []. Qed.

Lemma xeff_called off size r : lpres xeff (called off size r).
Proof. unfold called. destruct r as [[ret gas] err]. eff_tac. Qed.
Lemma xeff_created r : lpres xeff (created r).
Proof. unfold created. destruct r as [[[res a] gas] err]. eff_tac. Qed.

Lemma still_flag e : ev_readOnly e = ro → still → steady ∧ ev_readOnly e = true.
Proof. intros ->. done. Qed.

(** With a value only in a frame that may write. *)
Lemma opCall_xeff m :
  (ro = true → default 0 (Back 2 (m_stack m)) = 0) → wlp (opCall env run) (λ _ m', xeff m m') m.
Proof.
  intros Hv. unfold opCall.
  apply wp_bind, wp_spop. intros req st1 E1. apply wp_bind, wp_on_evm, wp_read.
  apply wp_bind, wp_spop. intros a st2 E2. apply wp_bind, wp_spop. intros value st3 E3.
  set (m3 := m_set_stack st3 _). assert (xeff m m3) as H3 by by apply core_xeff.
  assert (ro = true → value = 0) as Hv0.
  { intros Hro. specialize (Hv Hro). cbn in E2, E3. subst st1 st2. unfold Back in Hv. by rewrite E1 in Hv. }
  eapply (wp_mono _ (λ _ m', xeff m3 m')); [|intros _ m'; by transitivity m3].
  cut (∀ gas, lpres xeff (run! inOffset <- spop; run! inSize <- spop; run! retOffset <- spop; run! retSize <- spop;
    run! args <- call_args inOffset inSize; run! caller <- self_ref;
    run! r <- on_evm (Call env run caller (Bytes20 a) args gas value); called retOffset retSize r)).
  { intros H. apply H. }
  intros gas. do 5 (apply pres_bind; [apply _|eff_tac|intros ?]).
  apply xeff_call; [|intros; apply xeff_called]. intros caller e Hc Hr. eapply call_veff, Call_eff; try done.
  - apply Bytes20_valid.
  - by apply still_flag.
  - intros [_ Hro]. auto.
Qed.

Lemma opCallCode_xeff : lpres xeff (opCallCode env run).
Proof.
  unfold opCallCode. do 9 (apply pres_bind; [apply _|eff_tac|intros ?]).
  apply xeff_call; [|intros; apply xeff_called]. intros caller e Hc Hr. eapply call_veff, CallCode_eff; try done.
  - apply Bytes20_valid.
  - by apply still_flag.
Qed.
Lemma opDelegateCall_xeff : lpres xeff (opDelegateCall env run).
Proof.
  unfold opDelegateCall. do 8 (apply pres_bind; [apply _|eff_tac|intros ?]).
  apply xeff_call; [|intros; apply xeff_called]. intros caller e Hc Hr. eapply call_veff, DelegateCall_eff; try done.
  - apply Bytes20_valid.
  - by apply still_flag.
Qed.
Lemma opStaticCall_xeff : lpres xeff (opStaticCall env run).
Proof.
  unfold opStaticCall. do 8 (apply pres_bind; [apply _|eff_tac|intros ?]).
  apply xeff_call; [|intros; apply xeff_called]. intros caller e Hc Hr. eapply call_veff, StaticCall_eff; try done.
  - apply Bytes20_valid.
  - by intros [].
Qed.

(** *** Writing instructions *)

Lemma veff_writing {A} (v : V A) e : ro = false → wlp v (λ _ e', veff False e e') e → wlp v (λ _ e', veff still e e') e.
Proof.
  intros Hro H. eapply wp_mono; [exact H|]. intros r e'. apply veff_weaken. intros [_ ?]. congruence.
Qed.

Lemma opCreate_xeff : ro = false → lpres xeff (opCreate env run).
Proof.
  intros Hro. unfold opCreate, create_gas. do 6 (apply pres_bind; [apply _|eff_tac|intros ?]).
  apply xeff_call; [|intros; apply xeff_created]. intros caller e Hc Hr. apply veff_writing; [done|].
  eapply wp_mono; [by apply Create_eff|]. by intros r e' [].
Qed.
Lemma opCreate2_xeff : ro = false → lpres xeff (opCreate2 env run).
Proof.
  intros Hro. unfold opCreate2, create_gas. do 7 (apply pres_bind; [apply _|eff_tac|intros ?]).
  apply xeff_call; [|intros; apply xeff_created]. intros caller e Hc Hr. apply veff_writing; [done|].
  by apply Create2_eff.
Qed.
Lemma opSstore_xeff : ro = false → lpres xeff opSstore.
Proof. intros Hro. eff_tac. Qed.
Lemma opSuicide_xeff : ro = false → lpres xeff opSuicide.
Proof. intros Hro. eff_tac. Qed.
Lemma makeLog_xeff n : ro = false → lpres xeff (makeLog env n).
Proof. intros Hro. unfold makeLog. eff_tac. Qed.
Lemma sstore_gas_xeff n : ro = false → lpres xeff (gasSStoreEIP3529 n).
Proof. intros Hro. unfold gasSStoreEIP3529, makeGasSStoreFunc. eff_tac. Qed.
Lemma selfdestruct_gas_xeff n : ro = false → lpres xeff (gasSelfdestructEIP3529 n).
Proof. intros Hro. unfold gasSelfdestructEIP3529, makeSelfdestructGasFn. eff_tac. Qed.

(** *** Gas functions *)

Lemma call_gas_xeff g : lpres xeff (call_gas g).
Proof.
  unfold call_gas. eff_tac. all: apply xeff_on_evm, veff_modify; by intros e.
Qed.

(** A gas function leaves the stack alone. *)
Definition same_stack (m m' : machine) : Prop := m_stack m' = m_stack m.
#[export] Instance same_stack_preorder : PreOrder same_stack.
Proof. split; [done|]. intros m1 m2 m3 H1 H2. unfold same_stack in *. congruence. Qed.

Lemma stack_keep {A} (x : X A) :
  (∀ m, match x m with XRet (_, m') => m_stack m' = m_stack m | _ => True end) → lpres same_stack x.
Proof. intros H m. specialize (H m). unfold wpg. by destruct (x m) as [[a m']| |]. Qed.
Lemma stack_on_evm {A} (v : V A) : lpres same_stack (on_evm v).
Proof. apply stack_keep. intros m. unfold on_evm. by destruct (v (m_evm m)) as [[a e]| |]. Qed.
Lemma stack_sback n : lpres same_stack (sback n).
Proof. apply pres_sback, _. Qed.
Lemma stack_use_gas g : lpres same_stack (use_gas g).
Proof. apply stack_keep. intros m. unfold use_gas, UseGas. by destruct (_ <? _). Qed.
Lemma stack_set_gas (f : Contract → Z) : lpres same_stack (contract_do (λ c, ct_set_Gas (f c) c)).
Proof. by apply stack_keep. Qed.
Lemma stack_checked r : lpres same_stack (checked r).
Proof. unfold checked. destruct r as [v [|]]; apply pres_ret, _. Qed.
Lemma stack_mem_gas n : lpres same_stack (mem_gas n).
Proof. apply stack_keep. intros m. unfold mem_gas. by destruct (memoryGasCost _ _) as [[fee mem]|]. Qed.
#[local] Hint Resolve stack_on_evm stack_sback stack_use_gas stack_set_gas stack_checked stack_mem_gas : evmeff.

Lemma gasCall_stack n : lpres same_stack (gasCallEIP2929 n).
Proof. unfold gasCallEIP2929, makeCallVariantGasCallEIP2929, gasCall, call_gas. eff_tac. Qed.

(** *** Entries of the jump table *)

Definition entry_eff (op : Z) (o : operation) : Prop :=
  (writes o = true → ro = false) →
  (∀ g n, dynamicGas o = Some g → lpres xeff (g n)) ∧
  (if op =? CALL then o = mkOperation (opCall env run) (constantGas o) (Some gasCallEIP2929) (minStack o) (maxStack o)
     (memorySize o) (halts o) (jumps o) (writes o) (reverts o) (returns o) else lpres xeff (execute o)).

Ltac unfold_gas :=
  unfold gasCallEIP2929, gasCallCodeEIP2929, gasDelegateCallEIP2929, gasStaticCallEIP2929,
    makeCallVariantGasCallEIP2929, gasCall, gasCallCode, gasDelegateCall, gasStaticCall,
    gasCreate2, gasSha3, word_gas, gasCallDataCopy, gasCodeCopy, gasReturnDataCopy, gasExtCodeCopy,
    gasExtCodeCopyEIP2929, memoryCopierGas, gasSLoadEIP2929, gasEip2929AccountCheck, makeGasLog, gasExpEIP158, exp_gas,
    gasReturn, gasRevert, gasMLoad, gasMStore8, gasMStore, gasCreate, pureMemoryGascost.

#[local] Hint Resolve opCallCode_xeff opDelegateCall_xeff opStaticCall_xeff opCreate_xeff opCreate2_xeff
  makeLog_xeff sstore_gas_xeff selfdestruct_gas_xeff call_gas_xeff : evmeff.

Ltac eff_entry :=
  let H := fresh in
  intros H; cbn [writes dynamicGas execute fst snd] in *; try specialize (H eq_refl);
  split; [intros ? ? [=]; subst; unfold_gas; solve [eff_tac]|unfold CALL; cbn [Z.eqb Pos.eqb]; first [reflexivity|solve [eff_tac]]].

Lemma london_entries_eff : Forall (λ e, entry_eff (fst e) (snd e)) (newLondonInstructionSet env run).
Proof.
  london_entries. repeat (apply Forall_cons_2; [solve [eff_entry]|]). apply Forall_nil_2.
Qed.

(** *** A round *)

Lemma xeff_memory_size o st : lpres xeff (memory_size o st).
Proof. unfold memory_size. eff_tac. Qed.
Lemma stack_memory_size o st : lpres same_stack (memory_size o st).
Proof. unfold memory_size. eff_tac. Qed.
Lemma xeff_after o r : lpres xeff (after o r).
Proof. destruct r as [res err]. unfold after, halt. eff_tac. apply xeff_on_evm, veff_modify. by intros e. Qed.

Lemma charge_pres R `{!PreOrder R} o n :
  (∀ g, lpres R (use_gas g)) → (∀ g, dynamicGas o = Some g → lpres R (g n)) → lpres R (charge_dynamic o n).
Proof.
  intros Hu Hg. unfold charge_dynamic. destruct (dynamicGas o) as [g|]; [|apply pres_ret, _].
  apply pres_bind; [apply _|by apply Hg|]. intros [c|e]; [apply Hu|apply pres_ret, _].
Qed.

(** The execution may look at the stack it was checked with. *)
Lemma perform_xeff o st m :
  (∀ g n, dynamicGas o = Some g → lpres xeff (g n)) →
  (∀ m', xeff m m' → ((∀ g n, dynamicGas o = Some g → lpres same_stack (g n)) → m_stack m' = m_stack m) →
     wlp (execute o) (λ _ m'', xeff m' m'') m') →
  wlp (perform o st) (λ _ m', xeff m m') m.
Proof.
  intros Hg Hx. set (calm := ∀ g n, dynamicGas o = Some g → lpres same_stack (g n)).
  set (R := λ m m', xeff m m' ∧ (calm → m_stack m' = m_stack m)).
  assert (PreOrder R) as HR.
  { split; [done|]. intros m1 m2 m3 [H1 S1] [H2 S2]. split; [by etrans|]. intros Hc. rewrite S2, S1; done. }
  assert (∀ {A} (x : X A), lpres xeff x → (calm → lpres same_stack x) → lpres R x) as Hboth.
  { intros A x H1 H2 m0. specialize (H1 m0). unfold wpg in *. specialize (H2). unfold R, lpres, wpg in *.
    destruct (x m0) as [[a m']| |] eqn:E; [|done..]. split; [done|]. intros Hc. specialize (H2 Hc m0). by rewrite E in H2. }
  unfold perform, halt. eapply (wp_pres R); [apply Hboth; eauto with evmeff|]. intros ok m1 H1.
  destruct (negb ok); [by apply wp_ret, H1|].
  eapply (wp_pres R); [apply Hboth; [apply xeff_memory_size|intros _; apply stack_memory_size]|]. intros [size|e] m2 H2.
  2:{ apply wp_ret. transitivity m1; [apply H1|apply H2]. }
  eapply (wp_pres R); [apply Hboth; [|intros Hc]; apply charge_pres; eauto with evmeff typeclass_instances|].
  intros ok' m3 H3. assert (R m m3) as H03 by (etrans; [exact H1|]; by etrans).
  destruct (negb ok'); [by apply wp_ret, H03|].
  eapply (wp_pres R).
  { destruct (0 <? size); [|apply pres_ret, _]. apply Hboth; [apply xeff_smem|intros _].
    apply stack_keep. intros m4. unfold smem. done. }
  intros _ m4 H4. assert (R m m4) as H04 by by etrans.
  apply wp_bind. eapply wp_mono; [apply Hx; apply H04|cbv beta]. intros r m5 H5.
  eapply wp_mono; [apply xeff_after|cbv beta]. intros _ m6 H6. transitivity m4; [apply H04|]. by transitivity m5.
Qed.

Lemma step_xeff m : wlp (step env run) (λ _ m', xeff m m') m.
Proof.
  unfold step. apply wp_bind, wp_read, wp_bind, wp_read. cbv zeta. set (op := GetOp _ _).
  destruct (jt_get _ op) as [o|] eqn:Eo; [|by apply wp_ret].
  assert (entry_eff op o) as Ho.
  { pose proof london_entries_eff as Hall. rewrite Forall_forall in Hall. apply (Hall _ (jt_get_entry _ _ _ Eo)). }
  apply wp_bind, wp_read. destruct (_ <? minStack o); [by apply wp_ret|]. destruct (maxStack o <? _); [by apply wp_ret|].
  apply wp_bind, wp_on_evm, wp_read. assert (m_set_evm (m_evm m) m = m) as -> by by destruct m.
  destruct (decide (ev_readOnly (m_evm m) = ro)) as [Hr|Hr].
  2:{ apply wlp_any. by intros _ m' _ ?. }
  destruct (ev_readOnly (m_evm m) && write_protected o op (m_stack m)) eqn:Ew; [by apply wp_ret|].
  rewrite Hr in Ew. unfold write_protected in Ew.
  destruct Ho as [Hg Hx]. { intros Hw. rewrite Hw in Ew. by destruct ro. }
  apply perform_xeff; [done|]. intros m' H' Hs. destruct (Z.eqb_spec op CALL) as [->|].
  - rewrite Hx. cbn [execute]. apply opCall_xeff. intros Hro. rewrite Hs.
    + rewrite Hro in Ew. cbn in Ew. apply orb_false_iff in Ew as [_ Ew]. apply negb_false_iff, Z.eqb_eq in Ew. exact Ew.
    + rewrite Hx. cbn. intros g n [= <-]. apply gasCall_stack.
  - apply Hx.
Qed.

End XEffects.

(** ** Runs *)

Section RunEffects.
Context {B : Backend} {BOk : BackendOk B} {U : Uint256} {P : Precompiles} {PO : PrecompilesOk} {Dr : Drift} (env : EvmEnv).

Lemma enter_eff (body : X op_result) : (∀ ro m, wlp body (λ _ m', xeff ro m m') m) → run_eff (enter body).
Proof.
  intros Hb c input r e Hc. unfold enter, wpg. cbv zeta.
  set (e1 := ev_set_depth _ e). set (sets := r && negb (ev_readOnly e)).
  set (e2 := if sets then ev_set_readOnly true e1 else e1). set (e3 := ev_set_returnData [] e2).
  assert (ev_readOnly e3 = r || ev_readOnly e) as R3.
  { subst e3 e2 e1 sets. destruct r, (ev_readOnly e) eqn:Er; cbn; by rewrite ?Er. }
  assert (db e3 = db e) as D3 by (subst e3 e2 e1; by destruct sets).
  assert (∀ e', ev_readOnly e' = r || ev_readOnly e →
    ev_readOnly (ev_set_depth (ev_depth (if sets then ev_set_readOnly false e' else e') - 1)
      (if sets then ev_set_readOnly false e' else e')) = ev_readOnly e) as Hleave.
  { intros e' He. subst sets. destruct r, (ev_readOnly e) eqn:Er; cbn in *; congruence. }
  assert (∀ e', db (ev_set_depth (ev_depth (if sets then ev_set_readOnly false e' else e') - 1)
      (if sets then ev_set_readOnly false e' else e')) = db e') as Dleave by (intros e'; by destruct sets).
  destruct (ct_Code c) as [|b code].
  { split; [by apply Hleave|]. rewrite Dleave, D3. reflexivity. }
  specialize (Hb (r || ev_readOnly e) (mkMachine 0 [] NewMemory (ct_set_Input input c) e3)). unfold wpg in Hb.
  destruct (body _) as [[[ret err] m']| |]; [|done..].
  destruct Hb as (_ & R' & E'); [done|done|]. cbn in E'. split; [by apply Hleave|]. rewrite Dleave, <- D3. exact E'.
Qed.

Lemma loop_xeff fuel : ∀ steps ro m, wlp (loop env fuel steps) (λ _ m', xeff ro m m') m.
Proof.
  induction fuel as [|fuel IH]; intros steps ro m; [done|]. cbn [loop]. cbv zeta.
  destruct (_ && _); [by apply wp_ret|]. apply wp_bind. eapply wp_mono; [apply step_xeff, enter_eff, IH|cbv beta].
  intros [r|] m1 H1; [by apply wp_ret|]. eapply wp_mono; [apply (IH _ ro)|cbv beta]. intros _ m2 H2. by transitivity m1.
Qed.

Lemma Run_eff fuel : run_eff (Run env fuel).
Proof. apply enter_eff. intros ro m. apply loop_xeff. Qed.

End RunEffects.

(** ** The message calls together *)

#[local] Existing Instance still_drift.

Inductive call_kind := KCall (value : Z) | KCallCode (value : Z) | KDelegateCall | KStaticCall.

Definition evm_call {B : Backend} {P : Precompiles} (env : EvmEnv) (run : runner) (k : call_kind)
    (caller : ContractRef) (a : address) (input : bytes) (gas : Z) : V (bytes * Z * option vm_error) :=
  match k with
  | KCall value => Call env run caller a input gas value
  | KCallCode value => CallCode env run caller a input gas value
  | KDelegateCall => DelegateCall env run caller a input gas
  | KStaticCall => StaticCall env run caller a input gas
  end.

Section Together.
Context {B : Backend} {BOk : BackendOk B} {U : Uint256} {P : Precompiles} {PO : PrecompilesOk} (env : EvmEnv).

Lemma evm_call_eff fuel k caller a input gas e :
  ref_ok caller → valid_addr a → wlp (evm_call env (Run env fuel) k caller a input gas) (call_eff False call_err e) e.
Proof.
  intros Hr Ha. pose proof (Run_eff env fuel) as Hrun.
  destruct k; [by apply Call_eff|by apply CallCode_eff|by apply DelegateCall_eff|by apply StaticCall_eff].
Qed.

Lemma evm_call_effect fuel k caller a input gas e r e' :
  ref_ok caller → valid_addr a → sound (db e) →
  evm_call env (Run env fuel) k caller a input gas e = XRet (r, e') →
  effect False (db e) (db e') ∧ (call_err r ≠ None → eqv (db e') (db e)).
Proof.
  intros Hr Ha Hs E. pose proof (evm_call_eff fuel k caller a input gas e Hr Ha) as H. unfold wpg in H. rewrite E in H.
  destruct H as [[_ H1] H2]. split; auto.
Qed.

Lemma Exist_true a s : inv s → valid_addr a → fst (Exist a s) = true ↔ live s a ≠ None.
Proof.
  intros Hi Ha. unfold Exist. destruct (getStateObject_spec a s Ha (inv_objs_ok s Hi)) as (F & _).
  destruct (getStateObject a s) as [o t]; cbn [fst] in *. rewrite <- F. by destruct o.
Qed.

Lemma nonce_taken_bal self new s s' b :
  valid_addr self → sound s → nonce_taken self new s s' → valid_addr b → bal s' b = bal s b.
Proof.
  intros Hself [Hi _] (s0 & V0 & V1) Hb. assert (inv s0) as Hi0 by by eapply inv_eqv.
  rewrite (eqv_bal _ _ b V1 Hb). transitivity (bal (SetNonce self (u64 (nonce_of s self + 1)) s0) b).
  - unfold AddAddressToAccessList. by destruct (AddAddress _ new) as [[|] al].
  - rewrite SetNonce_bal by done. by apply eqv_bal.
Qed.

End Together.

(** ** Concrete calls *)

#[export] Instance NoPrecompilesOk : PrecompilesOk.
Proof. by split. Qed.

(** [PUSH1 1, PUSH1 0, SSTORE, PUSH1 0, PUSH1 0, REVERT] *)
Definition revert_code : bytes := [0x60; 1; 0x60; 0; 0x55; 0x60; 0; 0x60; 0; 0xfd].
(** [PUSH1 1, PUSH1 0, SSTORE, STOP] *)
Definition store_code : bytes := [0x60; 1; 0x60; 0; 0x55; 0].
(** [PUSH1 0, SLOAD, STOP] *)
Definition read_code : bytes := [0x60; 0; 0x54; 0].
Definition code_state (code : bytes) : StateDB :=
  AddAddressToAccessList 77 (SetCode 77 code (AddBalance 1 1000 genesis_state)).
Definition code_evm (code : bytes) : EVM := mkEVM (code_state code) 0 0 false [] [].

Lemma code_evm_sound code : sound (db (code_evm code)).
Proof.
  assert (sound genesis_state) as H0 by exact (conj genesis_inv genesis_revs).
  assert (eff False genesis_state (AddBalance 1 1000 genesis_state)) as H1 by (by apply eff_AddBalance).
  destruct (H1 H0) as [H1' _ _ _ _].
  destruct (eff_SetCode 77 code (AddBalance 1 1000 genesis_state) ltac:(done) H1') as [H2 _ _ _ _].
  by destruct (eff_AddAddress False 77 (SetCode 77 code (AddBalance 1 1000 genesis_state)) H2).
Qed.

(** Reading off a result. *)
Definition failed {A} (x : xres ((bytes * Z * option vm_error) * A)) : bool :=
  match x with XRet ((_, _, Some _), _) => true | _ => false end.
Lemma failed_some {A} (x : xres ((bytes * Z * option vm_error) * A)) :
  failed x = true → ∃ ret rest err e, x = XRet ((ret, rest, Some err), e).
Proof. destruct x as [[[[ret rest] [err|]] e]| |]; [|done..]. eauto. Qed.

Definition returned {A} (x : xres A) : bool := match x with XRet _ => true | _ => false end.
Lemma returned_some {A C} (x : xres (A * C)) : returned x = true → ∃ r e, x = XRet (r, e).
Proof. destruct x as [[r e]| |]; [|done..]. eauto. Qed.
Definition create_failed {A} (x : xres ((bytes * address * Z * option vm_error) * A)) : bool :=
  match x with XRet ((_, _, _, Some _), _) => true | _ => false end.
Lemma create_failed_some {A} (x : xres ((bytes * address * Z * option vm_error) * A)) :
  create_failed x = true → ∃ ret addr rest err e, x = XRet ((ret, addr, rest, Some err), e).
Proof. destruct x as [[[[[ret addr] rest] [err|]] e]| |]; [|done..]. eauto 6. Qed.

(** ** Observations *)

(** One thing a reader can ask of the state. *)
Inductive reader :=
  | RBalance (a : address)
  | RNonce (a : address)
  | RCode (a : address)
  | RSlot (a : address) (k : hash)
  | RTeWaka (a : address) (k : hash)
  | RLogs
  | RRefund.

(** The answer is the same in the second state; for the two kinds of storage,
    of an account that exists, which stays. *)
Definition keeps {B : Backend} (rd : reader) (s s' : StateDB) : Prop :=
  match rd with
  | RBalance a => valid_addr a → fst (GetBalance a s') = fst (GetBalance a s)
  | RNonce a => valid_addr a → fst (GetNonce a s') = fst (GetNonce a s)
  | RCode a => valid_addr a → fst (GetCode a s') = fst (GetCode a s)
  | RSlot a k => valid_addr a → fst (Exist a s) = true →
      fst (Exist a s') = true ∧ fst (sd_GetState a k s') = fst (sd_GetState a k s)
  | RTeWaka a k => valid_addr a → fst (Exist a s) = true →
      fst (Exist a s') = true ∧ fst (sd_GetTeWakaState a k s') = fst (sd_GetTeWakaState a k s)
  | RLogs => sd_logs s' = sd_logs s
  | RRefund => sd_refund s' = sd_refund s
  end.

#[local] Instance keeps_preorder {B : Backend} rd : PreOrder (keeps rd).
Proof.
  split.
  - intros s. by destruct rd.
  - intros s1 s2 s3 H1 H2. destruct rd; simpl in *; try congruence.
    1-3: intros Ha; rewrite H2 by done; auto.
    all: intros Ha Hx; destruct (H1 Ha Hx) as [X1 E1], (H2 Ha X1) as [X2 E2]; split; congruence.
Qed.

Lemma unchanged_keeps {B : Backend} {BOk : BackendOk B} rd s s' :
  sound s → sound s' → unchanged s s' → keeps rd s s'.
Proof.
  intros [Hi _] [Hi' _] Hu.
  assert (∀ a, valid_addr a → fst (Exist a s) = true → live s a ≠ None ∧ live s' a ≠ None) as Hl.
  { intros a Ha Hx. assert (live s a ≠ None) as H by by apply Exist_true. split; [done|].
    pose proof (un_acct _ _ Hu a Ha) as Hs. unfold acct_same in Hs. destruct (live s a) as [o|]; [|done].
    destruct Hs as (_ & o' & -> & _). done. }
  destruct rd as [a|a|a|a k|a k| |]; simpl; try (intros Ha).
  - rewrite !GetBalance_bal by done. by apply unchanged_bal.
  - rewrite !GetNonce_nonce by done. by apply unchanged_bal.
  - by apply unchanged_code.
  - intros Hx. destruct (Hl a Ha Hx). split; [by apply Exist_true|by apply unchanged_state].
  - intros Hx. destruct (Hl a Ha Hx). split; [by apply Exist_true|].
    rewrite !GetTeWakaState_of by done. by apply unchanged_tewaka.
  - apply (un_logs _ _ Hu).
  - apply (un_refund _ _ Hu).
Qed.

Definition reader_drift {B : Backend} {BOk : BackendOk B} (rd : reader) : Drift := {|
  drift := keeps rd; drift_preorder := keeps_preorder rd; drift_unchanged := unchanged_keeps rd
|}.

(** ** Claims *)

(** C2: a call of any of the four kinds that ends with an error (out of gas, a
    revert, an invalid instruction, a failed transfer, too deep, a failing
    precompile) leaves a state that reads as before the call: balances,
    nonces, code, storage, logs, refunds, the access list and the Te Waka
    storage are back, whatever nested calls and creations did.  [Empty] is not among
    the readers: an undone Te Waka write can flip it
    ([revert_leaves_tewaka_key]). *)
Theorem failed_call_leaves_no_trace {B : Backend} {BOk : BackendOk B} {U : Uint256} {P : Precompiles}
    {PO : PrecompilesOk} env fuel k caller a input gas e ret rest err e' :
  ref_ok caller → valid_addr a → sound (db e) →
  evm_call env (Run env fuel) k caller a input gas e = XRet ((ret, rest, Some err), e') →
  eqv (db e') (db e) ∧ sound (db e') ∧ ∀ rd, keeps rd (db e) (db e').
Proof.
  intros Hr Ha Hs E. destruct (evm_call_effect env fuel k caller a input gas e _ e' Hr Ha Hs E) as [[] H].
  assert (eqv (db e') (db e)) as V by by apply H.
  split; [done|]. split; [done|]. intros rd. apply unchanged_keeps; [done..|]. by apply eqv_unchanged.
Qed.

Lemma failed_call_leaves_no_trace_witness :
  ∃ ret rest err e',
    evm_call demo_env (Run demo_env 100) (KCall 5) (AccountRef 1) 77 [] 100000 (code_evm revert_code) =
      XRet ((ret, rest, Some err), e') ∧
    eqv (db e') (db (code_evm revert_code)) ∧ keeps (RBalance 77) (db (code_evm revert_code)) (db e').
Proof.
  destruct (failed_some (evm_call demo_env (Run demo_env 100) (KCall 5) (AccountRef 1) 77 [] 100000
    (code_evm revert_code))) as (ret & rest & err & e' & E); [vm_compute; reflexivity|].
  exists ret, rest, err, e'. destruct (failed_call_leaves_no_trace demo_env 100 (KCall 5) (AccountRef 1) 77 [] 100000
    (code_evm revert_code) ret rest err e') as (H & _ & Hk).
  - split; [discriminate|reflexivity].
  - split; [discriminate|reflexivity].
  - apply code_evm_sound.
  - exact E.
  - exact (conj E (conj H (Hk (RBalance 77)))).
Defined.

(** C21: whatever a call does, with whatever outcome, a snapshot taken before it
    can be reverted to after it, and the revert restores the state before, up to
    [eqv]; so a frame that fails takes the calls it made with it. *)
Theorem calls_can_be_undone {B : Backend} {BOk : BackendOk B} {U : Uint256} {P : Precompiles}
    {PO : PrecompilesOk} env fuel k caller a input gas e r e' :
  ref_ok caller → valid_addr a → sound (db e) →
  evm_call env (Run env fuel) k caller a input gas (ev_set_StateDB (snd (Snapshot (db e))) e) = XRet (r, e') →
  ∃ s, RevertToSnapshot (fst (Snapshot (db e))) (db e') = Ret s ∧ eqv s (db e) ∧ sound s.
Proof.
  intros Hr Ha Hs E. destruct (eff_Snapshot False (db e) Hs) as [S1 _ _ _ _].
  destruct (evm_call_effect env fuel k caller a input gas (ev_set_StateDB (snd (Snapshot (db e))) e) r e' Hr Ha S1 E)
    as [H _].
  destruct (eff_revert False (db e) (db e') Hs (λ _, H)) as (s & E3 & V & []). by exists s.
Qed.

Lemma calls_can_be_undone_witness :
  let e := code_evm store_code in
  ∃ r e' s,
    evm_call demo_env (Run demo_env 100) (KCall 5) (AccountRef 1) 77 [] 100000
      (ev_set_StateDB (snd (Snapshot (db e))) e) = XRet (r, e') ∧
    RevertToSnapshot (fst (Snapshot (db e))) (db e') = Ret s ∧ eqv s (db e).
Proof.
  intros e. destruct (returned_some (evm_call demo_env (Run demo_env 100) (KCall 5) (AccountRef 1) 77 [] 100000
    (ev_set_StateDB (snd (Snapshot (db e))) e))) as (r & e' & E); [vm_compute; reflexivity|].
  exists r, e'. destruct (calls_can_be_undone demo_env 100 (KCall 5) (AccountRef 1) 77 [] 100000 e r e')
    as (s & H1 & H2 & _).
  - split; [discriminate|reflexivity].
  - split; [discriminate|reflexivity].
  - apply code_evm_sound.
  - exact E.
  - exists s. exact (conj E (conj H1 H2)).
Defined.

(** C8: a static call changes nothing that precompiles do not change: whatever
    single observation of the state (the balance, the nonce or the code of an
    account, a storage slot or a Te Waka slot of an account that exists, the
    logs, the refund counter) every run of a precompile leaves alone, a static
    call leaves alone too, however deep the calls inside it go and whatever
    the code it runs tries. *)
Theorem static_call_changes_nothing {B : Backend} {BOk : BackendOk B} {U : Uint256} {P : Precompiles}
    {PO : PrecompilesOk} env fuel caller a input gas e r e' rd :
  (∀ b rg env c input s out err s',
     precompile b = Some rg → contract_ok c → sound s →
     precompile_Run b env c input s = Ret (out, err, s') → keeps rd s s') →
  ref_ok caller → valid_addr a → sound (db e) →
  StaticCall env (Run env fuel) caller a input gas e = XRet (r, e') →
  keeps rd (db e) (db e').
Proof.
  intros Hp Hr Ha Hs E.
  pose proof (StaticCall_eff (Dr := reader_drift rd) env (Run env fuel) (Run_eff env fuel) True caller a input gas e
    Hr Ha (λ _, Hp)) as H.
  unfold wpg in H. rewrite E in H. destruct H as [[_ H] _]. destruct (H Hs) as [_ _ _ _ Hd]. exact (Hd I).
Qed.

(** At address 5, a precompile that pays account 9. *)
Definition Paying : Precompiles := {|
  precompile a := if a =? 5 then Some (λ _, 0) else None;
  precompile_Run _ _ _ _ s := Ret ([], None, AddBalance 9 1 s)
|}.

Lemma PayingOk : PrecompilesOk (P := Paying).
Proof.
  split. cbn [precompile_Run Paying]. intros a rg env c input s out err s' _ _ [= _ _ <-]. by apply eff_AddBalance.
Qed.

(** The read-only flag does not stop it. *)
Example precompile_writes_in_static_call :
  match StaticCall (P := Paying) demo_env (Run (P := Paying) demo_env 100) (AccountRef 1) 5 [] 100000
          (code_evm read_code) with
  | XRet (_, e') => fst (GetBalance 9 (db e')) = 1
  | _ => False
  end.
Proof. vm_compute. reflexivity. Qed.

(** Balances change there; the refund counter stays. *)
Lemma static_call_changes_nothing_witness :
  ∃ r e', StaticCall (P := Paying) demo_env (Run (P := Paying) demo_env 100) (AccountRef 1) 5 [] 100000
            (code_evm read_code) = XRet (r, e') ∧
    keeps RRefund (db (code_evm read_code)) (db e').
Proof.
  destruct (returned_some (StaticCall (P := Paying) demo_env (Run (P := Paying) demo_env 100) (AccountRef 1) 5 [] 100000
    (code_evm read_code))) as (r & e' & E); [vm_compute; reflexivity|].
  exists r, e'. split; [exact E|].
  apply (static_call_changes_nothing (P := Paying) (PO := PayingOk) demo_env 100 (AccountRef 1) 5 [] 100000
    (code_evm read_code) r e' RRefund).
  - intros b rg env c input s out err s' _ _ _ H. injection H as _ _ <-. apply AddBalance_refund.
  - split; [discriminate|reflexivity].
  - split; [discriminate|reflexivity].
  - apply code_evm_sound.
  - exact E.
Defined.

(** C22: a creation that fails either changes nothing or leaves the caller's
    nonce advanced by one and the new address in the access list, and nothing
    else: no account, no code, no transferred value. *)
Theorem failed_creation_takes_a_nonce {B : Backend} {BOk : BackendOk B} {U : Uint256} {P : Precompiles}
    {PO : PrecompilesOk} env fuel caller code gas value e ret addr rest err e' :
  ref_ok caller → sound (db e) →
  Create env (Run env fuel) caller code gas value e = XRet ((ret, addr, rest, Some err), e') →
  (eqv (db e') (db e) ∨ ∃ new, nonce_taken (ref_Address caller) new (db e) (db e')) ∧
  ∀ b, valid_addr b → fst (GetBalance b (db e')) = fst (GetBalance b (db e)).
Proof.
  intros Hr Hs E. pose proof (Create_eff env (Run env fuel) (Run_eff env fuel) caller code gas value e Hr) as H.
  unfold wpg in H. rewrite E in H. destruct H as [[_ H] H2]. destruct (H Hs) as [[Hi' _] _ _ _ _].
  pose proof (H2 Hs ltac:(done)) as H3. split; [exact H3|]. intros b Hb. rewrite !GetBalance_bal by (done || apply Hs).
  destruct H3 as [V|(new & V)]; [by apply eqv_bal|by apply (nonce_taken_bal (ref_Address caller) new); try apply ref_Address_ok].
Qed.

(** [INVALID] as creation code. *)
Lemma failed_creation_takes_a_nonce_witness :
  ∃ ret addr rest err e',
    Create demo_env (Run demo_env 100) (AccountRef 1) [0xfe] 100000 7 (code_evm read_code) =
      XRet ((ret, addr, rest, Some err), e') ∧
    fst (GetBalance 1 (db e')) = fst (GetBalance 1 (db (code_evm read_code))).
Proof.
  destruct (create_failed_some (Create demo_env (Run demo_env 100) (AccountRef 1) [0xfe] 100000 7 (code_evm read_code)))
    as (ret & addr & rest & err & e' & E); [vm_compute; reflexivity|].
  exists ret, addr, rest, err, e'.
  destruct (failed_creation_takes_a_nonce demo_env 100 (AccountRef 1) [0xfe] 100000 7 (code_evm read_code)
    ret addr rest err e') as [_ H].
  - split; [discriminate|reflexivity].
  - apply code_evm_sound.
  - exact E.
  - exact (conj E (H 1 ltac:(split; [discriminate|reflexivity]))).
Defined.
