(* ===== verification/TeWaka.v ===== *)
(** * Te Waka: pledges, conversions and used transactions
    (core/types/te_waka.go, core/vm/te_waka_impl.go)

    The Te Waka contract keeps its whole state as one RLP blob in the byte-array
    storage of its account, with a process-wide LRU cache of decoded blobs in
    front of it.  The LRU cache is a third-party package: the class [Lru] with
    the law the code relies on. *)
From S2P Require Import Prelude Common RlpEncode RlpDecode AccessList StateObject Concrete StateDB.
From S2P Require Import StateRevert StateBalance.
Import Enc Dec Bytes.

(** ** Data *)

Record Pledge := mkPledge {
  pl_Address : address;
  pl_PubKey : bytes;
  pl_ToAddress : address;
  pl_StakingAmount : Z;
  pl_CoinBaseAddress : list address
}.

Record ConvertItem := mkConvertItem {
  ci_ID : Z;
  ci_AssetType : Z;
  ci_ConvertType : Z;
  ci_TxHash : hash;
  ci_PubKey : bytes;
  ci_Amount : Z;
  ci_FeeAmount : Z;
  ci_Path : list address;
  ci_RouterAddr : address;
  ci_Slippage : Z;
  ci_IsInsurance : bool;
  ci_Extra : bytes
}.

Record UsedItem := mkUsedItem { ui_Atype : Z; ui_TxHash : hash }.

#[export] Instance UsedItem_eq_dec : EqDecision UsedItem.
Proof. solve_decision. Defined.

Record TeWakaImpl := mkTeWakaImpl {
  PledgeInfos : list Pledge;
  ConvertItems : list ConvertItem;
  UsedItems : list UsedItem
}.

Definition NewTeWakaImpl : TeWakaImpl := mkTeWakaImpl [] [] [].

(** ** RLP *)

Definition addr_val (a : address) : gval := VArray (Address_Bytes a).
Definition hash_val (h : hash) : gval := VArray (Hash_Bytes h).

Definition Pledge_val (p : Pledge) : gval :=
  VList [addr_val (pl_Address p); VBytes (pl_PubKey p); addr_val (pl_ToAddress p);
         VBig (Some (pl_StakingAmount p)); VList (map addr_val (pl_CoinBaseAddress p))].
Definition Pledge_type : gtype := TStruct [TArray 20; TBytes; TArray 20; TBig; TSlice (TArray 20)].

(** [id] and [fee] are given apart: [Hash] encodes a copy that leaves both nil. *)
Definition ConvertItem_fields (id fee : option Z) (pubKey : bytes) (c : ConvertItem) : gval :=
  VList [VBig id; VUint (ci_AssetType c); VUint (ci_ConvertType c); hash_val (ci_TxHash c);
         VBytes pubKey; VBig (Some (ci_Amount c)); VBig fee; VList (map addr_val (ci_Path c));
         addr_val (ci_RouterAddr c); VBig (Some (ci_Slippage c)); VBool (ci_IsInsurance c);
         VBytes (ci_Extra c)].
Definition ConvertItem_val (c : ConvertItem) : gval :=
  ConvertItem_fields (Some (ci_ID c)) (Some (ci_FeeAmount c)) (ci_PubKey c) c.
Definition ConvertItem_type : gtype :=
  TStruct [TBig; TUint 8; TUint 8; TArray 32; TBytes; TBig; TBig; TSlice (TArray 20); TArray 20;
           TBig; TBool; TBytes].

Definition UsedItem_val (u : UsedItem) : gval := VList [VUint (ui_Atype u); hash_val (ui_TxHash u)].
Definition UsedItem_type : gtype := TStruct [TUint 8; TArray 32].

Definition TeWakaImpl_val (t : TeWakaImpl) : gval :=
  VList [VList (map Pledge_val (PledgeInfos t)); VList (map ConvertItem_val (ConvertItems t));
         VList (map UsedItem_val (UsedItems t))].
Definition TeWakaImpl_type : gtype :=
  TStruct [TSlice Pledge_type; TSlice ConvertItem_type; TSlice UsedItem_type].

Definition addr_of (v : gval) : option address :=
  match v with VArray b => Some (be_decode b) | _ => None end.

Definition Pledge_of (v : gval) : option Pledge :=
  match v with
  | VList [a; VBytes pk; t; VBig (Some n); VList cb] =>
      a ← addr_of a; t ← addr_of t; cb ← mapM addr_of cb; Some (mkPledge a pk t n cb)
  | _ => None
  end.

Definition ConvertItem_of (v : gval) : option ConvertItem :=
  match v with
  | VList [VBig (Some id); VUint at_; VUint ct; h; VBytes pk; VBig (Some am); VBig (Some fee);
           VList path; r; VBig (Some sl); VBool ins; VBytes ex] =>
      h ← addr_of h; path ← mapM addr_of path; r ← addr_of r;
      Some (mkConvertItem id at_ ct h pk am fee path r sl ins ex)
  | _ => None
  end.

Definition UsedItem_of (v : gval) : option UsedItem :=
  match v with
  | VList [VUint t; h] => h ← addr_of h; Some (mkUsedItem t h)
  | _ => None
  end.

Definition TeWakaImpl_of (v : gval) : option TeWakaImpl :=
  match v with
  | VList [VList ps; VList cs; VList us] =>
      ps ← mapM Pledge_of ps; cs ← mapM ConvertItem_of cs; us ← mapM UsedItem_of us;
      Some (mkTeWakaImpl ps cs us)
  | _ => None
  end.

Definition EncodeTeWaka (t : TeWakaImpl) : result string bytes := EncodeToBytes (TeWakaImpl_val t).

Definition DecodeTeWaka (data : bytes) : result string TeWakaImpl :=
  match DecodeBytes TeWakaImpl_type data with
  | Ok v => match TeWakaImpl_of v with Some t => Ok t | None => Err "Invalid ImpawnImpl entry RLP" end
  | Err _ => Err "Invalid ImpawnImpl entry RLP"
  end.

(** ** The contract's tables *)

Definition Mortgage (a to : address) (pubKey : bytes) (amount : Z) (cba : list address)
    (t : TeWakaImpl) : TeWakaImpl :=
  mkTeWakaImpl (PledgeInfos t ++ [mkPledge a pubKey to amount cba]) (ConvertItems t) (UsedItems t).

Fixpoint Update_loop (a : address) (cba : list address) (l : list Pledge) : option (list Pledge) :=
  match l with
  | [] => None
  | v :: l =>
      if pl_Address v =? a
      then Some (mkPledge (pl_Address v) (pl_PubKey v) (pl_ToAddress v) (pl_StakingAmount v) cba :: l)
      else l' ← Update_loop a cba l; Some (v :: l')
  end.

Definition Update (a : address) (cba : list address) (t : TeWakaImpl) : bool * TeWakaImpl :=
  match Update_loop a cba (PledgeInfos t) with
  | Some l => (true, mkTeWakaImpl l (ConvertItems t) (UsedItems t))
  | None => (false, t)
  end.

Definition Convert (item : ConvertItem) (t : TeWakaImpl) : TeWakaImpl :=
  mkTeWakaImpl (PledgeInfos t) (ConvertItems t ++ [item]) (UsedItems t).

Fixpoint Confirm_loop (id : Z) (l : list ConvertItem) : list ConvertItem :=
  match l with
  | [] => []
  | v :: l => if ci_ID v =? id then l else v :: Confirm_loop id l
  end.

Definition Confirm (item : ConvertItem) (t : TeWakaImpl) : TeWakaImpl :=
  mkTeWakaImpl (PledgeInfos t) (Confirm_loop (ci_ID item) (ConvertItems t)) (UsedItems t).

Definition GetStakeUser (a : address) (t : TeWakaImpl) : option Pledge :=
  List.find (λ v, pl_Address v =? a) (PledgeInfos t).

Definition GetStakeToAddress (a : address) (t : TeWakaImpl) : option Pledge :=
  List.find (λ v, pl_ToAddress v =? a) (PledgeInfos t).

(** The inner loop breaks at the first match, so a pledge counts once. *)
Definition GetStakingByUser (a : address) (t : TeWakaImpl) : Z :=
  fold_left (λ sum v, if List.existsb (λ v1, a =? v1) (pl_CoinBaseAddress v)
                      then sum + pl_StakingAmount v else sum) (PledgeInfos t) 0.

Definition findItem (item : UsedItem) (t : TeWakaImpl) : bool :=
  List.existsb (λ v, (ui_Atype v =? ui_Atype item) && (ui_TxHash v =? ui_TxHash item)) (UsedItems t).

Definition SetItem (item : UsedItem) (t : TeWakaImpl) : TeWakaImpl :=
  if findItem item t then t
  else mkTeWakaImpl (PledgeInfos t) (ConvertItems t) (UsedItems t ++ [item]).

(** The third-party cache: what [Get] finds was added under that key. *)
Class Lru := {
  Cache : Type;
  Cache_Get : Cache → hash → option TeWakaImpl;
  Cache_Add : hash → TeWakaImpl → Cache → Cache
}.

Class LruOk (L : Lru) : Prop := {
  Cache_Add_Get : ∀ c k v k' v', Cache_Get (Cache_Add k v c) k' = Some v' →
    (k' = k ∧ v' = v) ∨ Cache_Get c k' = Some v'
}.

Section Impl.
Context {B : Backend} {L : Lru}.

Definition RlpHash (v : gval) : hash :=
  match EncodeToBytes v with Ok b => Keccak256Hash b | Err _ => Keccak256Hash [] end.

(** The storage key of the table and the cache key of a blob. *)
Definition tw_key (a : address) : hash := BytesToHash (Address_Bytes a).
Definition data_hash (data : bytes) : hash := RlpHash (VBytes data).

(** [ConvertItem.Hash]: the id, the public key and the fee are left out. *)
Definition ConvertItem_Hash (c : ConvertItem) : hash := RlpHash (ConvertItem_fields None None [] c).

Definition isItemFromDB (item : UsedItem) (s : StateDB) : bool :=
  HasRecord (ui_Atype item) (ui_TxHash item) s.

Definition HasItem (item : UsedItem) (t : TeWakaImpl) (s : StateDB) : bool :=
  if findItem item t then true else isItemFromDB item s.

Definition dumpUsedItems (t : TeWakaImpl) (s : StateDB) : StateDB :=
  fold_left (λ s v, WriteRecord (ui_Atype v) (ui_TxHash v) s) (UsedItems t) s.

Definition KeepItemsByEpoch (t : TeWakaImpl) (s : StateDB) : TeWakaImpl * StateDB :=
  (mkTeWakaImpl (PledgeInfos t) (ConvertItems t) [], dumpUsedItems t s).

(** The state database and the process-wide cache. *)
Record world := mkWorld { w_state : StateDB; w_cache : Cache }.

(** A failed encoding is [log.Crit], which ends the process. The copy put in
    the cache is equal to the saved value. *)
Definition Save (preAddress : address) (t : TeWakaImpl) (w : world) : outcome world :=
  let key := tw_key preAddress in
  match EncodeTeWaka t with
  | Err _ => Panic
  | Ok data =>
      let h := data_hash data in
      let s := SetTeWakaState preAddress key data (w_state w) in
      Ret (mkWorld s (Cache_Add h t (w_cache w)))
  end.

Definition Load (preAddress : address) (w : world) : result string TeWakaImpl * world :=
  let key := tw_key preAddress in
  let '(data, s) := sd_GetTeWakaState preAddress key (w_state w) in
  let w := mkWorld s (w_cache w) in
  if zlen data =? 0 then (Err "Load data = 0", w)
  else
    let h := data_hash data in
    match Cache_Get (w_cache w) h with
    | Some t => (Ok t, w)
    | None =>
        match DecodeTeWaka data with
        | Ok t => (Ok t, mkWorld s (Cache_Add h t (w_cache w)))
        | Err e => (Err e, w)
        end
    end.

Definition TeWaKaAddress : address := 0x746577616b61.
Definition DumpHeight : Z := 50000.

(** [ShiftItems]: the error of [Load] is dropped, so a missing table is
    replaced by an empty one; the deferred [Save] runs last. *)
Definition ShiftItems (height : Z) (w : world) : outcome world :=
  if height mod DumpHeight =? 0 then
    let '(r, w) := Load TeWaKaAddress w in
    let t := match r with Ok t => t | Err _ => NewTeWakaImpl end in
    let '(t, s) := KeepItemsByEpoch t (w_state w) in
    Save TeWaKaAddress t (mkWorld s (w_cache w))
  else Ret w.

End Impl.

(** ** Round trip of the table through RLP *)

Definition pledge_ok (p : Pledge) : Prop :=
  valid_addr (pl_Address p) ∧ wf_bytes (pl_PubKey p) ∧ valid_addr (pl_ToAddress p) ∧
  0 ≤ pl_StakingAmount p ∧ Forall valid_addr (pl_CoinBaseAddress p).

Definition item_ok (c : ConvertItem) : Prop :=
  0 ≤ ci_ID c ∧ is_u8 (ci_AssetType c) ∧ is_u8 (ci_ConvertType c) ∧ is_u256 (ci_TxHash c) ∧
  wf_bytes (ci_PubKey c) ∧ 0 ≤ ci_Amount c ∧ 0 ≤ ci_FeeAmount c ∧ Forall valid_addr (ci_Path c) ∧
  valid_addr (ci_RouterAddr c) ∧ 0 ≤ ci_Slippage c ∧ wf_bytes (ci_Extra c).

Definition used_ok (u : UsedItem) : Prop := is_u8 (ui_Atype u) ∧ is_u256 (ui_TxHash u).

Record table_ok (t : TeWakaImpl) : Prop := mkTableOk {
  to_pledges : Forall pledge_ok (PledgeInfos t);
  to_items : Forall item_ok (ConvertItems t);
  to_used : Forall used_ok (UsedItems t)
}.

Lemma addr_of_addr a : valid_addr a → addr_of (addr_val a) = Some a.
Proof.
  intros Ha. unfold addr_val, Address_Bytes. cbn [addr_of]. rewrite be_decode_fixed.
  f_equal. apply Z.mod_small. exact Ha.
Qed.

Lemma addr_of_hash h : is_u256 h → addr_of (hash_val h) = Some h.
Proof.
  intros Hh. unfold hash_val, Hash_Bytes. cbn [addr_of]. rewrite be_decode_fixed.
  f_equal. apply Z.mod_small. exact Hh.
Qed.

Lemma mapM_addr l : Forall valid_addr l → mapM addr_of (map addr_val l) = Some l.
Proof.
  intros H. apply mapM_Some. induction H; simpl; constructor; [|done]. by apply addr_of_addr.
Qed.

Lemma mapM_val {A} (f : A → gval) (g : gval → option A) (P : A → Prop) l :
  (∀ x, P x → g (f x) = Some x) → Forall P l → mapM g (map f l) = Some l.
Proof. intros Hfg H. apply mapM_Some. induction H; simpl; constructor; auto. Qed.

Lemma has_type_slice {A} (f : A → gval) (P : A → Prop) ty l :
  (∀ x, P x → has_type ty (f x) = true) → Forall P l → has_type (TSlice ty) (VList (map f l)) = true.
Proof. intros Hf H. simpl. induction H; simpl; [done|]. by rewrite Hf. Qed.

Lemma has_type_bytes b : wf_bytes b → has_type TBytes (VBytes b) = true.
Proof. intros. by apply bool_decide_eq_true_2. Qed.
Lemma has_type_big x : 0 ≤ x → has_type TBig (VBig (Some x)) = true.
Proof. intros. by apply Z.leb_le. Qed.
Lemma has_type_addr a : has_type (TArray 20) (addr_val a) = true.
Proof.
  unfold addr_val, Address_Bytes. cbn [has_type]. rewrite bool_decide_eq_true_2 by apply wf_be_fixed.
  by rewrite length_be_fixed.
Qed.
Lemma has_type_hash h : has_type (TArray 32) (hash_val h) = true.
Proof.
  unfold hash_val, Hash_Bytes. cbn [has_type]. rewrite bool_decide_eq_true_2 by apply wf_be_fixed.
  by rewrite length_be_fixed.
Qed.
Lemma has_type_u8 n : is_u8 n → has_type (TUint 8) (VUint n) = true.
Proof.
  intros [H1 H2]. unfold has_type. destruct (Z.leb_spec 0 n), (Z.ltb_spec n (2 ^ 8)); (done || lia).
Qed.

Lemma has_type_struct ts vs :
  Forall2 (λ t v, has_type t v = true) ts vs → has_type (TStruct ts) (VList vs) = true.
Proof. intros H. simpl. induction H; [done|]. rewrite H. by apply IHForall2. Qed.

Lemma Pledge_typed p : pledge_ok p → has_type Pledge_type (Pledge_val p) = true.
Proof.
  intros (H1 & H2 & H3 & H4 & H5). apply has_type_struct.
  repeat constructor; auto using has_type_addr, has_type_bytes, has_type_big.
  by eapply (has_type_slice addr_val); [intros; apply has_type_addr|].
Qed.

Lemma Pledge_roundtrip p : pledge_ok p → Pledge_of (Pledge_val p) = Some p.
Proof.
  intros (H1 & H2 & H3 & H4 & H5). unfold Pledge_of, Pledge_val.
  rewrite (addr_of_addr (pl_Address p)), (addr_of_addr (pl_ToAddress p)) by done. simpl.
  rewrite mapM_addr by done. by destruct p.
Qed.

Lemma ConvertItem_typed c : item_ok c → has_type ConvertItem_type (ConvertItem_val c) = true.
Proof.
  intros (H1 & H2 & H3 & H4 & H5 & H6 & H7 & H8 & H9 & H10 & H11). apply has_type_struct.
  repeat constructor; auto using has_type_addr, has_type_hash, has_type_bytes, has_type_big, has_type_u8.
  by eapply (has_type_slice addr_val); [intros; apply has_type_addr|].
Qed.

Lemma ConvertItem_roundtrip c : item_ok c → ConvertItem_of (ConvertItem_val c) = Some c.
Proof.
  intros (H1 & H2 & H3 & H4 & H5 & H6 & H7 & H8 & H9 & H10 & H11).
  unfold ConvertItem_of, ConvertItem_val, ConvertItem_fields.
  rewrite (addr_of_hash (ci_TxHash c)), (addr_of_addr (ci_RouterAddr c)) by done. simpl.
  rewrite mapM_addr by done. by destruct c.
Qed.

Lemma UsedItem_typed u : used_ok u → has_type UsedItem_type (UsedItem_val u) = true.
Proof.
  intros (H1 & H2). apply has_type_struct. repeat constructor; auto using has_type_hash, has_type_u8.
Qed.

Lemma UsedItem_roundtrip u : used_ok u → UsedItem_of (UsedItem_val u) = Some u.
Proof.
  intros (H1 & H2). unfold UsedItem_of, UsedItem_val. rewrite addr_of_hash by done. by destruct u.
Qed.

Lemma Table_typed t : table_ok t → has_type TeWakaImpl_type (TeWakaImpl_val t) = true.
Proof.
  intros []. apply has_type_struct. repeat constructor; eapply has_type_slice; try done.
  - apply Pledge_typed.
  - apply ConvertItem_typed.
  - apply UsedItem_typed.
Qed.

Lemma Table_of_val t : table_ok t → TeWakaImpl_of (TeWakaImpl_val t) = Some t.
Proof.
  intros []. unfold TeWakaImpl_of, TeWakaImpl_val.
  rewrite (mapM_val Pledge_val Pledge_of pledge_ok) by (done || apply Pledge_roundtrip).
  rewrite (mapM_val ConvertItem_val ConvertItem_of item_ok) by (done || apply ConvertItem_roundtrip).
  rewrite (mapM_val UsedItem_val UsedItem_of used_ok) by (done || apply UsedItem_roundtrip).
  by destruct t.
Qed.

(** The size of the encoded table. *)
Definition table_size (t : TeWakaImpl) : Z := zlen (enc (item_of (TeWakaImpl_val t))).

Lemma Encode_table t :
  table_ok t → table_size t < 2 ^ 64 → EncodeTeWaka t = Ok (enc (item_of (TeWakaImpl_val t))).
Proof.
  intros Ht Hsz. destruct (has_type_val_ok _ _ (Table_typed t Ht)) as [H1 H2].
  by apply EncodeToBytes_enc.
Qed.

Lemma Decode_table t :
  table_ok t → table_size t < 2 ^ 64 → DecodeTeWaka (enc (item_of (TeWakaImpl_val t))) = Ok t.
Proof.
  intros Ht Hsz. unfold DecodeTeWaka. rewrite DecodeBytes_enc by (done || by apply Table_typed).
  by rewrite Table_of_val.
Qed.

(** ** The tables as sets and sums *)

Lemma findItem_spec item t :
  findItem item t = true ↔ item ∈ UsedItems t.
Proof.
  unfold findItem. rewrite existsb_exists. setoid_rewrite andb_true_iff. setoid_rewrite Z.eqb_eq.
  split.
  - intros (v & Hv & E1 & E2). apply list_elem_of_In in Hv. destruct v, item; simpl in *. by subst.
  - intros H. exists item. by rewrite <- list_elem_of_In.
Qed.

Lemma SetItem_spec item t u :
  u ∈ UsedItems (SetItem item t) ↔ u ∈ UsedItems t ∨ u = item.
Proof.
  unfold SetItem. destruct (findItem item t) eqn:E; simpl.
  - apply findItem_spec in E. split; [auto|]. by intros [?| ->].
  - rewrite elem_of_app, list_elem_of_singleton. done.
Qed.

Definition pledges_unique (t : TeWakaImpl) : Prop :=
  NoDup (map pl_Address (PledgeInfos t)) ∧ NoDup (map pl_ToAddress (PledgeInfos t)).

Lemma find_none_not_in {A} (f : A → Z) x l :
  List.find (λ v, f v =? x) l = None ↔ x ∉ map f l.
Proof.
  induction l as [|v l IH]; simpl; [set_solver|].
  destruct (Z.eqb_spec (f v) x) as [->|Hne]; [set_solver|]. rewrite IH. set_solver.
Qed.

Lemma GetStakeUser_None a t : GetStakeUser a t = None ↔ a ∉ map pl_Address (PledgeInfos t).
Proof. apply find_none_not_in. Qed.

Lemma GetStakeToAddress_None a t : GetStakeToAddress a t = None ↔ a ∉ map pl_ToAddress (PledgeInfos t).
Proof. apply find_none_not_in. Qed.

Lemma Mortgage_unique a to pk n cba t :
  pledges_unique t → GetStakeUser a t = None → GetStakeToAddress to t = None →
  pledges_unique (Mortgage a to pk n cba t).
Proof.
  intros [H1 H2] Ha Hto. apply GetStakeUser_None in Ha. apply GetStakeToAddress_None in Hto.
  split; simpl; rewrite map_app; apply NoDup_app; (split; [done|]); simpl.
  - split; [set_solver|apply NoDup_singleton].
  - split; [set_solver|apply NoDup_singleton].
Qed.

Lemma Update_loop_spec a cba l l' :
  Update_loop a cba l = Some l' →
  map pl_Address l' = map pl_Address l ∧ map pl_ToAddress l' = map pl_ToAddress l ∧
  map pl_StakingAmount l' = map pl_StakingAmount l ∧
  ∃ i p, l !! i = Some p ∧ pl_Address p = a ∧
    l' = <[i := mkPledge (pl_Address p) (pl_PubKey p) (pl_ToAddress p) (pl_StakingAmount p) cba]> l.
Proof.
  revert l'. induction l as [|v l IH]; intros l'; simpl; [done|].
  destruct (Z.eqb_spec (pl_Address v) a) as [E|Hne].
  - intros [= <-]. do 3 (split; [done|]). by exists 0%nat, v.
  - destruct (Update_loop a cba l) as [l2|] eqn:El; [|done]. intros [= <-].
    destruct (IH l2 eq_refl) as (H1 & H2 & H3 & i & p & Hi & Hp & ->). simpl.
    rewrite H1, H2, H3. do 3 (split; [done|]). by exists (S i), p.
Qed.

Lemma Update_loop_None a cba l : Update_loop a cba l = None ↔ a ∉ map pl_Address l.
Proof.
  induction l as [|v l IH]; simpl; [set_solver|].
  destruct (Z.eqb_spec (pl_Address v) a) as [<-|Hne]; [set_solver|].
  destruct (Update_loop a cba l); simpl; set_solver.
Qed.

Lemma Update_unique a cba t : pledges_unique t → pledges_unique (snd (Update a cba t)).
Proof.
  intros [H1 H2]. unfold Update. destruct (Update_loop a cba (PledgeInfos t)) as [l|] eqn:E; [|done].
  destruct (Update_loop_spec _ _ _ _ E) as (E1 & E2 & _). split; simpl; congruence.
Qed.

(** The staked amount behind a coinbase. *)
Definition stake_sum (a : address) (l : list Pledge) : Z :=
  foldr (λ p n, (if bool_decide (a ∈ pl_CoinBaseAddress p) then pl_StakingAmount p else 0) + n) 0 l.

Lemma existsb_elem a l : List.existsb (λ v, a =? v) l = bool_decide (a ∈ l).
Proof.
  apply eq_bool_prop_intro. rewrite !Is_true_true. rewrite existsb_exists, bool_decide_eq_true. split.
  - intros (x & Hx & E). apply Z.eqb_eq in E as ->. by apply list_elem_of_In.
  - intros H. exists a. split; [by apply list_elem_of_In|apply Z.eqb_refl].
Qed.

Lemma GetStakingByUser_sum a t : GetStakingByUser a t = stake_sum a (PledgeInfos t).
Proof.
  unfold GetStakingByUser.
  enough (∀ l n, fold_left (λ sum v, if List.existsb (λ v1, a =? v1) (pl_CoinBaseAddress v)
    then sum + pl_StakingAmount v else sum) l n = n + stake_sum a l) as ->; [lia|].
  induction l as [|v l IH]; intros n; simpl; [lia|]. rewrite IH, existsb_elem.
  destruct (bool_decide _); lia.
Qed.

Lemma Confirm_loop_spec id l :
  (id ∉ map ci_ID l ∧ Confirm_loop id l = l) ∨
  (∃ l1 c l2, l = l1 ++ c :: l2 ∧ id ∉ map ci_ID l1 ∧ ci_ID c = id ∧ Confirm_loop id l = l1 ++ l2).
Proof.
  induction l as [|v l IH]; simpl; [left; set_solver|].
  destruct (Z.eqb_spec (ci_ID v) id) as [E|Hne].
  - right. exists [], v, l. split; [done|]. split; [set_solver|done].
  - destruct IH as [[H1 H2]|(l1 & c & l2 & -> & H1 & H2 & H3)].
    + left. rewrite H2. split; [set_solver|done].
    + right. exists (v :: l1), c, l2. rewrite H3. split; [done|]. split; [set_solver|done].
Qed.

(** ** Saving, loading and the cache *)

Section Store.
Context {B : Backend} {BOk : BackendOk B} {L : Lru} {LOk : LruOk L}.

Definition blob (t : TeWakaImpl) : bytes := enc (item_of (TeWakaImpl_val t)).
Definition blob_hash (t : TeWakaImpl) : hash := data_hash (blob t).

(** The tables that occur in a run do not collide. *)
Definition collision_free (P : TeWakaImpl → Prop) : Prop :=
  ∀ t1 t2, P t1 → P t2 → blob_hash t1 = blob_hash t2 → t1 = t2.

(** What the cache holds for a table of the run is that table. *)
Definition cache_ok (P : TeWakaImpl → Prop) (c : Cache) : Prop :=
  ∀ t t', P t → Cache_Get c (blob_hash t) = Some t' → t' = t.

Definition table_fits (t : TeWakaImpl) : Prop := table_ok t ∧ table_size t < 2 ^ 64.

(** The state holds table [t]. *)
Definition stored (a : address) (t : TeWakaImpl) (s : StateDB) : Prop :=
  live s a ≠ None ∧ tewaka_of s a (tw_key a) = blob t.

Lemma blob_nonempty t : zlen (blob t) =? 0 = false.
Proof. apply Z.eqb_neq. pose proof (enc_nonempty (item_of (TeWakaImpl_val t))). unfold blob. lia. Qed.

Lemma cache_ok_add P t c : collision_free P → P t → cache_ok P c → cache_ok P (Cache_Add (blob_hash t) t c).
Proof.
  intros Hcf Ht Hc t0 t' H0 Hg. apply Cache_Add_Get in Hg as [[Hk ->]|Hg]; [|by apply Hc].
  symmetry. by apply Hcf.
Qed.

Lemma Save_spec a t w :
  inv (w_state w) → valid_addr a → table_fits t →
  ∃ w', Save a t w = Ret w' ∧ inv (w_state w') ∧ stored a t (w_state w') ∧
    (∀ b, bal (w_state w') b = bal (w_state w) b) ∧ sd_records (w_state w') = sd_records (w_state w) ∧
    w_cache w' = Cache_Add (blob_hash t) t (w_cache w).
Proof.
  intros Hi Ha [Ht Hsz]. unfold Save. rewrite Encode_table by done. fold (blob t).
  destruct (SetTeWakaState_spec a (tw_key a) (blob t) (w_state w) Hi Ha) as (H1 & H2 & H3 & H4 & H5 & _).
  eexists. split; [reflexivity|]. cbn [w_state w_cache].
  split; [exact H1|]. split; [exact (conj H2 H3)|]. split; [exact H4|]. split; [exact H5|reflexivity].
Qed.

Lemma Load_spec P a t w :
  inv (w_state w) → valid_addr a → table_fits t → P t → collision_free P → cache_ok P (w_cache w) →
  stored a t (w_state w) →
  fst (Load a w) = Ok t ∧ inv (w_state (snd (Load a w))) ∧ stored a t (w_state (snd (Load a w))) ∧
  (∀ b, bal (w_state (snd (Load a w))) b = bal (w_state w) b) ∧
  sd_records (w_state (snd (Load a w))) = sd_records (w_state w) ∧
  cache_ok P (w_cache (snd (Load a w))).
Proof.
  intros Hi Ha [Ht Hsz] HP Hcf Hc [Hex Hst]. unfold Load.
  pose proof (GetTeWakaState_of a (tw_key a) (w_state w) Hi Ha Hex) as Hg.
  destruct (GetTeWakaState_inv a (tw_key a) (w_state w) Hi Ha) as (H1 & H2 & H3 & H4 & H5).
  destruct (sd_GetTeWakaState a (tw_key a) (w_state w)) as [data s].
  cbn [fst snd] in *. rewrite Hst in Hg. subst data. rewrite blob_nonempty. cbn [w_cache].
  change (data_hash (blob t)) with (blob_hash t).
  specialize (H5 Hex). rewrite Hst in H5.
  destruct (Cache_Get (w_cache w) (blob_hash t)) as [t'|] eqn:Ec.
  - apply Hc in Ec as ->; [|done]. cbn [fst snd w_state w_cache].
    split; [done|]. split; [exact H1|]. split; [exact (conj H4 H5)|]. split; [exact H2|].
    by split.
  - unfold blob. rewrite Decode_table by done. cbn [fst snd w_state w_cache].
    split; [done|]. split; [exact H1|]. split; [exact (conj H4 H5)|]. split; [exact H2|].
    split; [exact H3|]. by apply cache_ok_add.
Qed.

(** ** Used items across an epoch *)

Lemma dumpUsedItems_records t s :
  ∀ u, (ui_Atype u, ui_TxHash u) ∈ sd_records (dumpUsedItems t s) ↔
       (ui_Atype u, ui_TxHash u) ∈ sd_records s ∨ u ∈ UsedItems t.
Proof.
  intros u. unfold dumpUsedItems. generalize (UsedItems t) as l. intros l. revert s.
  induction l as [|v l IH]; intros s; simpl; [set_solver|]. rewrite IH. simpl.
  destruct v as [va vh], u as [ua uh]; simpl. rewrite elem_of_cons. split.
  - intros [H|H]; [|auto]. apply elem_of_union in H as [H|H]; [|auto].
    apply elem_of_singleton in H. injection H as -> ->. auto.
  - intros [H|[H|H]]; [left; set_solver| |auto]. injection H as -> ->. left. set_solver.
Qed.

Lemma dumpUsedItems_inv t s :
  inv s → inv (dumpUsedItems t s) ∧ (∀ b, live (dumpUsedItems t s) b = live s b).
Proof.
  unfold dumpUsedItems. generalize (UsedItems t) as l. intros l. revert s.
  induction l as [|v l IH]; intros s Hi; simpl; [done|].
  destruct (IH (WriteRecord (ui_Atype v) (ui_TxHash v) s)) as [H1 H2].
  { destruct Hi. by split. }
  by split.
Qed.

Lemma HasItem_spec u t s :
  HasItem u t s = true ↔ u ∈ UsedItems t ∨ (ui_Atype u, ui_TxHash u) ∈ sd_records s.
Proof.
  unfold HasItem, isItemFromDB, HasRecord. destruct (findItem u t) eqn:E.
  - apply findItem_spec in E. split; auto.
  - rewrite bool_decide_eq_true. split; [auto|]. intros [H|H]; [|done].
    apply findItem_spec in H. congruence.
Qed.

(** The table after an epoch boundary: the used items moved to the records. *)
Definition shifted (t : TeWakaImpl) : TeWakaImpl := mkTeWakaImpl (PledgeInfos t) (ConvertItems t) [].

Lemma ShiftItems_spec P t w height :
  inv (w_state w) → table_fits t → P t → P (shifted t) → collision_free P → cache_ok P (w_cache w) →
  stored TeWaKaAddress t (w_state w) → height mod DumpHeight = 0 → table_fits (shifted t) →
  ∃ w', ShiftItems height w = Ret w' ∧ inv (w_state w') ∧
    stored TeWaKaAddress (shifted t) (w_state w') ∧
    cache_ok P (w_cache w') ∧ (∀ b, bal (w_state w') b = bal (w_state w) b) ∧
    (∀ u, HasItem u (shifted t) (w_state w') = HasItem u t (w_state w)).
Proof.
  intros Hi Ht HP HP' Hcf Hc Hst Hh Ht'. unfold ShiftItems. rewrite Hh. cbn [Z.eqb].
  assert (valid_addr TeWaKaAddress) as Ha by done.
  destruct (Load_spec P TeWaKaAddress t w Hi Ha Ht HP Hcf Hc Hst) as (L1 & L2 & L3 & L4 & L5 & L6).
  destruct (Load TeWaKaAddress w) as [r w1]; cbn [fst snd] in *. subst r. cbn [KeepItemsByEpoch].
  fold (shifted t). destruct (dumpUsedItems_inv t (w_state w1) L2) as [D1 D2].
  destruct (Save_spec TeWaKaAddress (shifted t) (mkWorld (dumpUsedItems t (w_state w1)) (w_cache w1)))
    as (w' & S1 & S2 & S3 & S4 & S5 & S6); [done|done|done|].
  exists w'. split; [done|]. split; [done|]. split; [done|]. split.
  { rewrite S6. by apply cache_ok_add. }
  split.
  { intros b. rewrite S4, <- L4. cbn [w_state]. unfold bal. by rewrite D2. }
  intros u. apply eq_bool_prop_intro. rewrite !Is_true_true, !HasItem_spec, S5.
  cbn [w_state]. rewrite (dumpUsedItems_records t (w_state w1) u), L5. set_solver.
Qed.

End Store.

(** ** A concrete cache and a stored table *)

#[export] Instance MapLru : Lru := {|
  Cache := gmap hash TeWakaImpl;
  Cache_Get c k := c !! k;
  Cache_Add k t c := <[k := t]> c
|}.

#[export] Instance MapLruOk : LruOk MapLru.
Proof.
  split. intros c k v k' v' H. cbn [Cache_Get Cache_Add MapLru] in *.
  apply lookup_insert_Some in H as [[-> ->]|[_ H]]; auto.
Qed.

Definition demo_pledge : Pledge := mkPledge 7 [1; 2; 3] 16 (10 ^ 23) [7; 9].
Definition demo_table : TeWakaImpl := mkTeWakaImpl [demo_pledge] [] [mkUsedItem 1 77].
Definition demo_run (t : TeWakaImpl) : Prop := t = demo_table ∨ t = shifted demo_table.

Lemma demo_table_fits : table_fits demo_table.
Proof.
  split; [|vm_compute; reflexivity]. split; simpl.
  - repeat constructor; simpl; lia.
  - constructor.
  - repeat constructor; simpl; lia.
Qed.

Lemma demo_shifted_fits : table_fits (shifted demo_table).
Proof.
  split; [|vm_compute; reflexivity]. split; simpl.
  - apply (to_pledges _ (proj1 demo_table_fits)).
  - constructor.
  - constructor.
Qed.

Lemma demo_collision_free : collision_free demo_run.
Proof.
  assert (blob_hash demo_table ≠ blob_hash (shifted demo_table)) as Hne by (vm_compute; discriminate).
  intros t1 t2 [->| ->] [->| ->] E; [reflexivity| | |reflexivity].
  - exfalso. exact (Hne E).
  - exfalso. exact (Hne (eq_sym E)).
Qed.

Definition empty_world : world := mkWorld genesis_state (∅ : gmap hash TeWakaImpl).

Lemma empty_cache_ok P : cache_ok P (w_cache empty_world).
Proof.
  intros t t' _ H. cbn [Cache_Get MapLru w_cache empty_world] in H. rewrite lookup_empty in H. discriminate H.
Qed.

Lemma TeWaKaAddress_valid : valid_addr TeWaKaAddress.
Proof. split; unfold TeWaKaAddress; lia. Qed.

(** ** Claims *)

(** Saving the table and loading it gives the table back, whether the LRU
    cache answers or the blob is decoded, and changes no balance and no used
    record; the cache stays sound. *)
Lemma Load_after_Save {B : Backend} {BOk : BackendOk B} {L : Lru} {LOk : LruOk L} P a t w :
  collision_free P → P t → cache_ok P (w_cache w) →
  inv (w_state w) → valid_addr a → table_fits t →
  ∃ w', Save a t w = Ret w' ∧ fst (Load a w') = Ok t ∧ cache_ok P (w_cache (snd (Load a w'))) ∧
    (∀ b, bal (w_state (snd (Load a w'))) b = bal (w_state w) b) ∧
    sd_records (w_state (snd (Load a w'))) = sd_records (w_state w).
Proof.
  intros Hcf HP Hc Hi Ha Ht.
  destruct (Save_spec a t w Hi Ha Ht) as (w' & E & S1 & S2 & S3 & S4 & S5).
  destruct (Load_spec P a t w' S1 Ha Ht HP Hcf) as (L1 & _ & _ & L4 & L5 & L6); [|exact S2|].
  { rewrite S5. apply cache_ok_add; [exact Hcf|exact HP|exact Hc]. }
  exists w'. split; [exact E|]. split; [exact L1|]. split; [exact L6|]. split; [|by rewrite L5].
  intros b. by rewrite L4.
Qed.

(** At an epoch boundary [ShiftItems] moves the used transactions from the
    table to the database records: no used transaction is forgotten and none
    is invented, the pledges and pending conversions stay, and no balance
    changes. *)
Lemma ShiftItems_keeps_used {B : Backend} {BOk : BackendOk B} {L : Lru} {LOk : LruOk L} P t w height :
  collision_free P → P t → P (shifted t) → cache_ok P (w_cache w) →
  inv (w_state w) → table_fits t → table_fits (shifted t) →
  stored TeWaKaAddress t (w_state w) → height mod DumpHeight = 0 →
  ∃ w', ShiftItems height w = Ret w' ∧ inv (w_state w') ∧
    stored TeWaKaAddress (shifted t) (w_state w') ∧
    (∀ b, bal (w_state w') b = bal (w_state w) b) ∧
    (∀ u, HasItem u (shifted t) (w_state w') = HasItem u t (w_state w)).
Proof.
  intros Hcf HP HP' Hc Hi Ht Ht' Hst Hh.
  destruct (ShiftItems_spec P t w height Hi Ht HP HP' Hcf Hc Hst Hh Ht') as (w' & E & H1 & H2 & _ & H4 & H5).
  exists w'. exact (conj E (conj H1 (conj H2 (conj H4 H5)))).
Qed.

Lemma demo_saved :
  ∃ w, Save TeWaKaAddress demo_table empty_world = Ret w ∧ inv (w_state w) ∧
    stored TeWaKaAddress demo_table (w_state w) ∧ cache_ok demo_run (w_cache w).
Proof.
  destruct (Save_spec TeWaKaAddress demo_table empty_world genesis_inv TeWaKaAddress_valid demo_table_fits)
    as (w & E & S1 & S2 & _ & _ & S5).
  exists w. split; [exact E|]. split; [exact S1|]. split; [exact S2|]. rewrite S5.
  apply cache_ok_add; [exact demo_collision_free|left; reflexivity|apply empty_cache_ok].
Qed.

(** The stake behind a coinbase is the sum of the pledges that list it,
    each counted once however often it lists it. *)
Lemma GetStakingByUser_is_sum a t : GetStakingByUser a t = stake_sum a (PledgeInfos t).
Proof. apply GetStakingByUser_sum. Qed.

(** [Confirm] removes exactly one pending conversion, the first with the
    confirmed id, and keeps the order of the others; without one it changes
    nothing. The pledges and the used transactions are untouched. *)
Lemma Confirm_removes_one it t :
  PledgeInfos (Confirm it t) = PledgeInfos t ∧ UsedItems (Confirm it t) = UsedItems t ∧
  ((ci_ID it ∉ map ci_ID (ConvertItems t) ∧ ConvertItems (Confirm it t) = ConvertItems t) ∨
   (∃ l1 c l2, ConvertItems t = l1 ++ c :: l2 ∧ ci_ID it ∉ map ci_ID l1 ∧ ci_ID c = ci_ID it ∧
      ConvertItems (Confirm it t) = l1 ++ l2)).
Proof. split; [done|]. split; [done|]. apply Confirm_loop_spec. Qed.
