(* ===== verification/TeWakaVm.v ===== *)
(** * The Te Waka precompile (core/vm/te_waka.go, core/vm/contracts.go)

    The handlers behind the Te Waka address: staking ([mortgage], [update]),
    cross-chain conversion ([convert], [confirm], [casting]) and the two
    forwarding calls, with their dispatch and gas.  A handler runs in a state
    and error monad over [world]; a nil dereference or an index out of range
    is [Panic].  The ABI codec, elliptic-curve cryptography, the receipts and
    transactions embedded in the binary and the call back into the EVM are the
    class [TwExt]. *)
From Stdlib Require Import Ascii String.
From S2P Require Import Prelude Common RlpEncode RlpDecode AccessList StateObject StateDB.
From S2P Require Import StateRevert StateBalance TeWaka.
Import Enc Dec Bytes Common.Crypto.
Open Scope Z_scope.

(** ** Hexadecimal strings (common/bytes.go) *)

Definition hexval (c : ascii) : option Z :=
  let n := Z.of_nat (nat_of_ascii c) in
  if (48 <=? n) && (n <=? 57) then Some (n - 48)
  else if (97 <=? n) && (n <=? 102) then Some (n - 87)
  else if (65 <=? n) && (n <=? 70) then Some (n - 55)
  else None.

(** [hex.DecodeString] with the error dropped: the bytes before it. *)
Fixpoint Hex2Bytes (s : string) : bytes :=
  match s with
  | String c1 (String c2 s') =>
      match hexval c1, hexval c2 with
      | Some a, Some b => a * 16 + b :: Hex2Bytes s'
      | _, _ => []
      end
  | _ => []
  end.

Definition has0xPrefix (s : string) : bool :=
  String.prefix "0x" s || String.prefix "0X" s.

Definition FromHex (s : string) : bytes :=
  let s := if has0xPrefix s then String.substring 2 (String.length s - 2) s else s in
  let s := if (String.length s mod 2 =? 1)%nat then String "0" s else s in
  Hex2Bytes s.

Definition HexToHash (s : string) : hash := BytesToHash (FromHex s).

Definition hexdigit (n : Z) : ascii :=
  ascii_of_nat (Z.to_nat (if n <? 10 then 48 + n else 55 + n)).

(** [strings.ToUpper(addr.String())]: the checksum case is folded away. *)
Definition upper_addr (a : address) : string :=
  "0X" +:+ foldr (λ b s, String (hexdigit (b / 16)) (String (hexdigit (b mod 16)) s)) EmptyString (Address_Bytes a).

Definition hexdigit_lower (n : Z) : ascii :=
  ascii_of_nat (Z.to_nat (if n <? 10 then 48 + n else 87 + n)).

(** [Hash.String()]. *)
Definition Hash_String (h : hash) : string :=
  "0x" +:+ foldr (λ b s, String (hexdigit_lower (b / 16)) (String (hexdigit_lower (b mod 16)) s)) EmptyString (Hash_Bytes h).

(** A string argument of an event. *)
Definition str_val (s : string) : gval :=
  VBytes (map (λ c, Z.of_nat (nat_of_ascii c)) (list_ascii_of_string s)).

Fixpoint strings_Contains (s sub : string) : bool :=
  String.prefix sub s ||
  match s with EmptyString => false | String _ s' => strings_Contains s' sub end.

Definition upper (c : ascii) : ascii :=
  let n := Z.of_nat (nat_of_ascii c) in
  if (97 <=? n) && (n <=? 122) then ascii_of_nat (Z.to_nat (n - 32)) else c.
Fixpoint strings_ToUpper (s : string) : string :=
  match s with EmptyString => EmptyString | String c s' => String (upper c) (strings_ToUpper s') end.

(** ** Constants *)

Definition ExpandedTxConvert_Czz : Z := 0.
Definition ExpandedTxConvert_ECzz : Z := 1.
Definition ExpandedTxConvert_HCzz : Z := 2.
Definition ExpandedTxConvert_BCzz : Z := 3.
Definition ExpandedTxConvert_OCzz : Z := 4.
Definition ExpandedTxConvert_PCzz : Z := 5.
Definition ExpandedTxConvert_MCzz : Z := 6.
Definition ExpandedTxConvert_GCzz : Z := 7.

Definition baseUnit : Z := 10 ^ 18.
Definition Int10 : Z := 10 ^ 10.
Definition Int1000 : Z := 1000.
Definition MortgageToMin : Z := 257.
Definition MortgageToMax : Z := 356.
Definition mimStakingAmount : Z := 1000000 * baseUnit.
Definition Address0 : address := 0.

(** The map of pool addresses; a missing key reads as the zero address. *)
Definition CoinPools_get (t : Z) : option address :=
  if (1 <=? t) && (t <=? 7) then Some (100 + t) else None.
Definition CoinPools (t : Z) : address := default 0 (CoinPools_get t).

Definition ethPoolAddr : string := "0xa9bDC85F01Aa9E7167E26189596f9a9E2cE67215|".
Definition hecoPoolAddr : string :=
  "0x6a1C9835B7b0943908B25C46D8810bCC9Ab57426|0x15e83ebd7F74dDAb5F9baE06f93dF848862B458E".
Definition bscPoolAddr : string :=
  "0xABe6ED40D861ee39Aa8B21a6f8A554fECb0D32a5|0x8c2eE44fC151B89DD4465be9e59627aCcC12A51F".
Definition oecPoolAddr : string :=
  "0x007c98F9f2c70746a64572E67FBCc41a2b8bba18|0x3b8afE66C371E959A33a975384Fb0572c981c812".
Definition polygonPoolAddr : string := "0xdf10e0Caa2BBe67f7a1E91A3e6660cC1e34e81B9|".
Definition metisPoolAddr : string := "0x007c98F9f2c70746a64572E67FBCc41a2b8bba18|".
Definition gatePoolAddr : string := "0x503C5C292CD5300E4006c447A46DEab216a54fb2|".

Definition burnTopics : hash := 0xa4bd93d5396d36bd742684adb6dbe69f45c14792170e66134569c1adf91d1fb9.
Definition mintTopics : hash := 0xd4b70e0d50bcb13e7654961d68ed7b96f84a2fcc32edde496c210382dc025708.
Definition crossTopics : hash := 0xa7b2921d83c1ae7d5d671011b33435909f492547e4d69136a3c02820dfcb2b3f.
Definition refusedTx : hash := 0xcdde8c184a958fde12c07dadbcd90ca29831b633a371c40a01fdab0511372641.

Definition ErrRpcErr : string := "rpc err".
Definition ErrExecutionReverted : string := "execution reverted".
Definition ErrStakingInvalidInput : string := "invalid input for staking".
Definition ErrTxhashAlreadyInput : string := "verifyConvertEthereumTypeTx txid has already convert".

Definition TeWaKaGas (name : string) : option Z :=
  if String.eqb name "mortgage" then Some 360000
  else if String.eqb name "update" then Some 360000
  else if String.eqb name "convert" then Some 2400000
  else if String.eqb name "confirm" then Some 2400000
  else if String.eqb name "casting" then Some 2400000
  else None.

(** ** Signature values *)

Definition isProtectedV (V : Z) : bool :=
  if bitlen V <=? 8 then
    let v := u64 V in negb (v =? 27) && negb (v =? 28) && negb (v =? 1) && negb (v =? 0)
  else true.

Definition deriveChainId (v : Z) : Z :=
  if bitlen v <=? 64 then
    if (v =? 27) || (v =? 28) then 0 else u64 (v - 35) / 2
  else (v - 35) / 2.

(** The recovery id of a transaction's [V]. *)
Definition plainV (V : Z) : Z :=
  if isProtectedV V then u8 (u64 (u64 V - 35 - 2 * u64 (deriveChainId V))) else u8 V.

(** ** Code and data outside the module *)

Record Receipt := mkReceipt { rc_Status : Z; rc_Logs : list Log }.

Record Transaction := mkTransaction {
  tx_To : option address;
  tx_V : Z; tx_R : Z; tx_S : Z;
  tx_Type : Z;
  tx_ChainId : Z
}.

Record MortgageArgs := mkMortgageArgs {
  ma_PubKey : bytes; ma_ToAddress : address; ma_StakingAmount : Z; ma_CoinBaseAddress : list address }.
Record UpdateArgs := mkUpdateArgs { ua_StakingAmount : Z; ua_CoinBaseAddress : list address }.
Record ConvertArgs := mkConvertArgs { ca_AssetType : Z; ca_TxHash : string }.
Record ConfirmArgs := mkConfirmArgs { fa_ConvertType : Z; fa_TxHash : string }.
Record CastingArgs := mkCastingArgs {
  sa_ConvertType : Z; sa_Amount : Z; sa_Path : list address; sa_PubKey : bytes;
  sa_RouterAddr : address; sa_Slippage : Z; sa_IsInsurance : bool }.
Record CrossArgs := mkCrossArgs {
  xa_id : Z; xa_amounts : Z; xa_burnHash : hash; xa_fromNetworkType : Z; xa_toNetworkType : Z;
  xa_tewaka : address }.
Record BurnLog := mkBurnLog {
  bl_From : address; bl_AmountIn : Z; bl_AmountOut : Z; bl_ConvertType : Z; bl_ToPath : list address;
  bl_ToRouterAddr : address; bl_Slippage : Z; bl_IsInsurance : bool; bl_Extra : bytes }.
Record MintLog := mkMintLog {
  ml_To : address; ml_Mid : Z; ml_Gas : Z; ml_AmountIn : Z; ml_AmountOut : Z }.

Class TwExt := {
  Pub : Type;
  DecompressPubkey : bytes → option Pub;
  UnmarshalPubkey : bytes → option Pub;
  PubkeyToAddress : Pub → address;
  Ecrecover : hash → bytes → option bytes;
  SigHash : Z → Transaction → hash;
  MethodById : bytes → option string;
  Unpack_mortgage : bytes → option MortgageArgs;
  Unpack_update : bytes → option UpdateArgs;
  Unpack_convert : bytes → option ConvertArgs;
  Unpack_confirm : bytes → option ConfirmArgs;
  Unpack_casting : bytes → option CastingArgs;
  Unpack_BurnToken : bytes → option BurnLog;
  Unpack_MintToken : bytes → option MintLog;
  PackEvent : string → list gval → result string bytes;
  EventID : string → hash;
  PackV3 : string → list gval → bytes;
  receiptMap : hash → option Receipt;
  transactionMap : hash → option Transaction
}.

(** What the ABI decoder and key recovery guarantee of their results. *)
Class TwExtOk (X : TwExt) : Prop := {
  PubkeyToAddress_valid : ∀ p, valid_addr (PubkeyToAddress p);
  Ecrecover_bytes : ∀ h sig pk, Ecrecover h sig = Some pk → wf_bytes pk;
  Unpack_mortgage_ok : ∀ b a, Unpack_mortgage b = Some a →
    wf_bytes (ma_PubKey a) ∧ valid_addr (ma_ToAddress a) ∧ 0 ≤ ma_StakingAmount a ∧
    Forall valid_addr (ma_CoinBaseAddress a);
  Unpack_update_ok : ∀ b a, Unpack_update b = Some a →
    0 ≤ ua_StakingAmount a ∧ Forall valid_addr (ua_CoinBaseAddress a);
  Unpack_casting_ok : ∀ b a, Unpack_casting b = Some a →
    0 ≤ sa_ConvertType a ∧ 0 ≤ sa_Amount a ∧ Forall valid_addr (sa_Path a) ∧ wf_bytes (sa_PubKey a) ∧
    valid_addr (sa_RouterAddr a) ∧ 0 ≤ sa_Slippage a;
  Unpack_BurnToken_ok : ∀ b a, Unpack_BurnToken b = Some a →
    0 ≤ bl_AmountIn a ∧ 0 ≤ bl_AmountOut a ∧ 0 ≤ bl_ConvertType a ∧ Forall valid_addr (bl_ToPath a) ∧
    valid_addr (bl_ToRouterAddr a) ∧ 0 ≤ bl_Slippage a ∧ wf_bytes (bl_Extra a)
}.

(** ** The running environment *)

Record ChainConfig := mkChainConfig {
  CIP_2 : option Z; CIP_3 : option Z; CIP_4 : option Z; VerifySwitch : bool }.

Definition isForked (s : option Z) (head : Z) : bool :=
  match s with None => false | Some n => n <=? head end.

Record Evm := mkEvm { evm_config : ChainConfig; evm_BlockNumber : Z }.
Record ContractRef := mkContractRef { c_caller : address; c_self : address }.

Section Handlers.
Context {B : Backend} {L : Lru} {X : TwExt}.

Definition M (A : Type) : Type := world → outcome (result string A * world).
Definition mret {A} (a : A) : M A := λ w, Ret (Ok a, w).
Definition mfail {A} (e : string) : M A := λ w, Ret (Err e, w).
Definition mpanic {A} : M A := λ _, Panic.
Definition mbind {A C} (m : M A) (f : A → M C) : M C := λ w,
  match m w with
  | Ret (Ok a, w) => f a w
  | Ret (Err e, w) => Ret (Err e, w)
  | Panic => Panic
  end.
Notation "'act!' x <- m ; k" := (mbind m (λ x, k))
  (at level 10, x pattern, m at level 200, k at level 200).
Definition guard_ (b : bool) (e : string) : M () := if b then mfail e else mret tt.
Definition of_option {A} (o : option A) (e : string) : M A :=
  match o with Some a => mret a | None => mfail e end.
Definition of_result {A} (r : result string A) : M A :=
  match r with Ok a => mret a | Err e => mfail e end.
Definition state_do (f : StateDB → StateDB) : M () :=
  λ w, Ret (Ok tt, mkWorld (f (w_state w)) (w_cache w)).
Definition state_read {A} (f : StateDB → A * StateDB) : M A :=
  λ w, let '(a, s) := f (w_state w) in Ret (Ok a, mkWorld s (w_cache w)).
Definition do_Load : M TeWakaImpl := λ w, let '(r, w) := Load TeWaKaAddress w in Ret (r, w).
Definition do_Save (t : TeWakaImpl) : M () :=
  λ w, match Save TeWaKaAddress t w with Ret w => Ret (Ok tt, w) | Panic => Panic end.

Definition ValidPubkey (pk : bytes) : bool :=
  match DecompressPubkey pk with
  | Some _ => true
  | None => match UnmarshalPubkey pk with Some _ => true | None => false end
  end.

Definition logN (evm : Evm) (contract : ContractRef) (topics : list hash) (data : bytes) : M () :=
  state_do (AddLog (mkLog (c_self contract) topics data (u64 (evm_BlockNumber evm)) 0 0 0 0 false)).

Definition GenesisLockedBalance (from to : address) (amount : Z) (s : StateDB) : StateDB :=
  AddBalance to amount (SubBalance from amount s).

(** The event at the end of every handler. *)
Definition emit (evm : Evm) (contract : ContractRef) (name : string) (vals : list gval) : M () :=
  act! logData <- of_result (PackEvent name vals);
  logN evm contract [EventID name; BytesToHash (Address_Bytes (c_caller contract))] logData.

Definition insufficient : string := "insufficient funds for gas * price + value".

Definition mortgage (evm : Evm) (contract : ContractRef) (input : bytes) : M () :=
  act! args <- of_option (Unpack_mortgage input) ErrStakingInvalidInput;
  let from := c_caller contract in
  act! tewaka <- do_Load;
  act! _ <- guard_ (big_Cmp (ma_StakingAmount args) mimStakingAmount <? 0) "mortgage StakingAmount";
  act! _ <- guard_ (negb (ValidPubkey (ma_PubKey args))) "mortgage PubKey";
  let ToAddressNum := be_decode (Address_Bytes (ma_ToAddress args)) in
  act! _ <- guard_ ((big_Cmp ToAddressNum MortgageToMin <? 0) && (1 <? big_Cmp ToAddressNum MortgageToMax))
              "mortgage ToAddressNum";
  act! _ <- guard_ (bool_decide (is_Some (GetStakeUser from tewaka))) "mortgage HasStakeUser";
  act! _ <- guard_ (bool_decide (is_Some (GetStakeToAddress (ma_ToAddress args) tewaka)))
              "mortgage HasStakeToAddress";
  act! _ <- guard_ (16 <? zlen (ma_CoinBaseAddress args)) "mortgage CoinBaseAddress";
  let tewaka := Mortgage from (ma_ToAddress args) (ma_PubKey args) (ma_StakingAmount args)
                  (ma_CoinBaseAddress args) tewaka in
  act! _ <- do_Save tewaka;
  act! have <- state_read (GetBalance from);
  act! _ <- guard_ (big_Cmp have (ma_StakingAmount args) <? 0) insufficient;
  act! _ <- state_do (SubBalance from (ma_StakingAmount args));
  act! _ <- state_do (AddBalance (ma_ToAddress args) (ma_StakingAmount args));
  emit evm contract "mortgage"
    [VBytes (ma_PubKey args); addr_val (ma_ToAddress args); VBig (Some (ma_StakingAmount args));
     VList (map addr_val (ma_CoinBaseAddress args))].

(** The two early returns after the transfer carry the nil error of [Load]:
    the handler succeeds without saving. *)
Definition update (evm : Evm) (contract : ContractRef) (input : bytes) : M () :=
  act! args <- of_option (Unpack_update input) ErrStakingInvalidInput;
  let from := c_caller contract in
  act! tewaka <- do_Load;
  act! item <- of_option (GetStakeUser from tewaka) "update GetStakeUser";
  act! _ <-
    (if 0 <? big_Cmp (ua_StakingAmount args) 0 then
       act! _ <- guard_ (big_Cmp (ua_StakingAmount args) mimStakingAmount <? 0) "update StakingAmount";
       act! have <- state_read (GetBalance from);
       act! _ <- guard_ (big_Cmp have (ua_StakingAmount args) <? 0) insufficient;
       act! _ <- state_do (SubBalance from (ua_StakingAmount args));
       state_do (AddBalance (pl_ToAddress item) (ua_StakingAmount args))
     else mret tt);
  if 16 <? zlen (ua_CoinBaseAddress args) then mret tt
  else
    let '(temp, tewaka) := Update from (ua_CoinBaseAddress args) tewaka in
    if negb temp then mret tt
    else
      act! _ <- do_Save tewaka;
      emit evm contract "update"
        [VBig (Some (ua_StakingAmount args)); VList (map addr_val (ua_CoinBaseAddress args))].

(** The first log whose topic is [topic]; [log.Topics[0]] panics on a log
    without topics. *)
Fixpoint find_log (topic : hash) (logs : list Log) : outcome (option Log) :=
  match logs with
  | [] => Ret None
  | l :: logs =>
      match log_Topics l with
      | [] => Panic
      | t :: _ => if t =? topic then Ret (Some l) else find_log topic logs
      end
  end.

Definition lift_outcome {A} (o : outcome A) : M A :=
  λ w, match o with Ret a => Ret (Ok a, w) | Panic => Panic end.

Definition pool_string (convertType : Z) : option string :=
  if convertType =? ExpandedTxConvert_ECzz then Some ethPoolAddr
  else if convertType =? ExpandedTxConvert_HCzz then Some hecoPoolAddr
  else if convertType =? ExpandedTxConvert_BCzz then Some bscPoolAddr
  else if convertType =? ExpandedTxConvert_OCzz then Some oecPoolAddr
  else if convertType =? ExpandedTxConvert_PCzz then Some polygonPoolAddr
  else if convertType =? ExpandedTxConvert_MCzz then Some metisPoolAddr
  else if convertType =? ExpandedTxConvert_GCzz then Some gatePoolAddr
  else None.

(** [extTx] nil, or a transaction without a recipient, is a nil dereference. *)
Definition CheckToAddress (convertType : Z) (extTx : option Transaction) : M () :=
  match pool_string convertType with
  | None => mret tt
  | Some pool =>
      match extTx with
      | Some tx =>
          match tx_To tx with
          | Some to => guard_ (negb (strings_Contains (strings_ToUpper pool) (upper_addr to))) "ToAddress"
          | None => mpanic
          end
      | None => mpanic
      end
  end.

(** The checks shared by the two verifiers: the event data of the embedded
    receipt. *)
Definition receipt_log (topic : hash) (txHash : hash) : M Log :=
  act! receipt <- of_option (receiptMap txHash) "not find";
  act! _ <- guard_ (negb (rc_Status receipt =? 1)) "Status";
  act! _ <- guard_ (zlen (rc_Logs receipt) <? 1) "receipt Logs length is 0";
  act! txLog <- lift_outcome (find_log topic (rc_Logs receipt));
  of_option txLog "txLog is nil".

Definition sig_of (tx : Transaction) : bytes := be_fixed 32 (tx_R tx) ++ be_fixed 32 (tx_S tx) ++ [plainV (tx_V tx)].

(** The literal leaves [ID] and [FeeAmount] nil; the caller sets both before
    anything reads them. *)
Definition verifyConvertEthereumTypeTx (assetType : Z) (txHash : hash) : M ConvertItem :=
  act! txLog <- receipt_log burnTopics txHash;
  act! logs <- of_option (Unpack_BurnToken (log_Data txLog)) "UnpackIntoInterface";
  act! amountPool <- state_read (GetBalance (CoinPools assetType));
  let Amount := if big_Cmp (bl_AmountOut logs) 0 =? 0 then bl_AmountIn logs else bl_AmountOut logs in
  let TxAmount := Amount * Int10 in
  act! _ <- guard_ (0 <? big_Cmp TxAmount amountPool) "tx amount > pool";
  let convertType := u8 (u64 (bl_ConvertType logs)) in
  act! _ <- guard_ (bool_decide (CoinPools_get convertType = None) && negb (convertType =? 0))
              "CoinPools not find";
  act! _ <- guard_ (assetType =? convertType) "AssetType = ConvertType";
  let extTx := transactionMap txHash in
  act! _ <- CheckToAddress assetType extTx;
  match extTx with
  | None => mpanic
  | Some tx =>
      act! _ <- guard_ (negb (ValidateSignatureValues (plainV (tx_V tx)) (tx_R tx) (tx_S tx) false))
                  "invalid transaction v, r, s values";
      act! pk <- of_option (Ecrecover (SigHash (tx_Type tx) tx) (sig_of tx)) "Ecrecover";
      mret (mkConvertItem 0 assetType convertType txHash pk Amount 0 (bl_ToPath logs)
              (bl_ToRouterAddr logs) (bl_Slippage logs) (bl_IsInsurance logs) (bl_Extra logs))
  end.

Definition set_fee (fee : Z) (c : ConvertItem) : ConvertItem :=
  mkConvertItem (ci_ID c) (ci_AssetType c) (ci_ConvertType c) (ci_TxHash c) (ci_PubKey c) (ci_Amount c)
    fee (ci_Path c) (ci_RouterAddr c) (ci_Slippage c) (ci_IsInsurance c) (ci_Extra c).
Definition set_id (id : Z) (c : ConvertItem) : ConvertItem :=
  mkConvertItem id (ci_AssetType c) (ci_ConvertType c) (ci_TxHash c) (ci_PubKey c) (ci_Amount c)
    (ci_FeeAmount c) (ci_Path c) (ci_RouterAddr c) (ci_Slippage c) (ci_IsInsurance c) (ci_Extra c).

(** [new(big.Int).SetBytes(IDHash[:10])]. *)
Definition id_of_hash (h : hash) : Z := be_decode (take 10 (Hash_Bytes h)).

(** Any error of the verifier but [ErrRpcErr] leaves [item] nil, and the next
    line dereferences it. *)
Definition verify_or_panic (m : M ConvertItem) : M ConvertItem := λ w,
  match m w with
  | Ret (Err e, w) => if String.eqb e ErrRpcErr then Ret (Err e, w) else Panic
  | r => r
  end.

Definition convert (evm : Evm) (contract : ContractRef) (input : bytes) : M () :=
  act! args <- of_option (Unpack_convert input) ErrStakingInvalidInput;
  let TxHash := HexToHash (ca_TxHash args) in
  act! tewaka <- do_Load;
  let AssetType := u8 (u64 (ca_AssetType args)) in
  act! used <- state_read (λ s, (HasItem (mkUsedItem AssetType TxHash) tewaka s, s));
  act! _ <- guard_ used ErrTxhashAlreadyInput;
  act! item <- verify_or_panic (verifyConvertEthereumTypeTx AssetType TxHash);
  let Amount := ci_Amount item * Int10 in
  let FeeAmount := Amount / 1000 in
  let item := set_fee (ci_Amount item / 1000) item in
  let item := set_id (id_of_hash (ConvertItem_Hash item)) item in
  act! tewaka <-
    (if ci_ConvertType item =? ExpandedTxConvert_Czz then
       act! pub <- of_option (UnmarshalPubkey (ci_PubKey item)) "invalid public key";
       let toaddress := PubkeyToAddress pub in
       act! _ <- state_do (SubBalance (CoinPools (ci_AssetType item)) Amount);
       act! _ <- state_do (AddBalance toaddress (Amount - FeeAmount));
       act! _ <- state_do (AddBalance Address0 FeeAmount);
       mret tewaka
     else
       act! _ <- state_do (SubBalance (CoinPools (ci_AssetType item)) Amount);
       act! _ <- state_do (AddBalance (CoinPools (ci_ConvertType item)) (Amount - FeeAmount));
       act! _ <- state_do (AddBalance Address0 FeeAmount);
       mret (Convert item tewaka));
  let tewaka := SetItem (mkUsedItem AssetType TxHash) tewaka in
  act! _ <- do_Save tewaka;
  emit evm contract "convert"
    [VBig (Some (ci_ID item)); VBig (Some (ca_AssetType args)); VBig (Some (ci_ConvertType item));
     str_val (Hash_String (ci_TxHash item)); VList (map addr_val (ci_Path item)); addr_val (ci_RouterAddr item);
     VBytes (ci_PubKey item); VBig (Some (ci_Amount item)); VBig (Some (ci_FeeAmount item));
     VBig (Some (ci_Slippage item)); VBool (ci_IsInsurance item); VBytes (ci_Extra item)].

(** Decompressed, or parsed uncompressed. *)
Definition parse_pubkey (pk : bytes) : option Pub :=
  match DecompressPubkey pk with Some p => Some p | None => UnmarshalPubkey pk end.

Definition verifyConfirmEthereumTypeTx (tewaka : TeWakaImpl) (convertType : Z) (txHash : hash)
    (isCip2 : bool) : M ConvertItem :=
  act! _ <- guard_ (txHash =? refusedTx) "not find";
  act! txLog <- receipt_log mintTopics txHash;
  act! logs <- of_option (Unpack_MintToken (log_Data txLog)) "UnpackIntoInterface";
  act! item <- of_option (List.find (λ v, ci_ID v =? ml_Mid logs) (ConvertItems tewaka)) "ConvertItems is null";
  act! _ <- guard_ (negb (ci_ConvertType item =? convertType)) "ConvertType";
  act! _ <-
    (if isCip2 then
       if 0 <? zlen (ci_PubKey item) then
         act! pub <- of_option (parse_pubkey (ci_PubKey item)) "toaddresspuk";
         guard_ (negb (ml_To logs =? PubkeyToAddress pub)) "toaddress"
       else guard_ (negb (ml_To logs =? BytesToAddress (ci_Extra item))) "toaddress"
     else mret tt);
  let amount2 := ci_Amount item - ci_FeeAmount item in
  let amount2 := if ci_AssetType item =? ExpandedTxConvert_Czz then amount2 / Int10 else amount2 in
  act! _ <- guard_ (negb (big_Cmp (ml_AmountIn logs) amount2 =? 0)) "amount";
  let extTx := transactionMap txHash in
  act! _ <- of_option extTx "txjson is nil";
  act! _ <- CheckToAddress convertType extTx;
  mret item.

Definition confirm (evm : Evm) (contract : ContractRef) (input : bytes) : M () :=
  act! args <- of_option (Unpack_confirm input) ErrStakingInvalidInput;
  let TxHash := HexToHash (fa_TxHash args) in
  act! tewaka <- do_Load;
  let ConvertType := u8 (u64 (fa_ConvertType args)) in
  act! used <- state_read (λ s, (HasItem (mkUsedItem ConvertType TxHash) tewaka s, s));
  act! _ <- guard_ used ErrTxhashAlreadyInput;
  let isCip2 := isForked (CIP_2 (evm_config evm)) (evm_BlockNumber evm) in
  act! item <- verifyConfirmEthereumTypeTx tewaka ConvertType TxHash isCip2;
  let tewaka := Confirm item tewaka in
  let tewaka := SetItem (mkUsedItem ConvertType TxHash) tewaka in
  act! _ <- do_Save tewaka;
  emit evm contract "confirm"
    [VBig (Some (ci_ID item)); VBig (Some (ci_AssetType item)); VBig (Some (fa_ConvertType args));
     str_val (fa_TxHash args)].

Definition casting (evm : Evm) (contract : ContractRef) (input : bytes) : M () :=
  act! args <- of_option (Unpack_casting input) ErrStakingInvalidInput;
  let from := c_caller contract in
  act! tewaka <- do_Load;
  let isCip2 := isForked (CIP_2 (evm_config evm)) (evm_BlockNumber evm) in
  act! _ <-
    (if isCip2 && (0 <? zlen (sa_PubKey args)) then
       act! _ <- of_option (parse_pubkey (sa_PubKey args)) "toaddresspuk"; mret tt
     else mret tt);
  let ConvertType := u8 (u64 (sa_ConvertType args)) in
  let extra := if isCip2 then Address_Bytes from else [] in
  let item := mkConvertItem 0 0 ConvertType 0 (sa_PubKey args) (sa_Amount args) 0 (sa_Path args)
                (sa_RouterAddr args) (sa_Slippage args) (sa_IsInsurance args) extra in
  let item := set_fee (ci_Amount item / Int1000) item in
  let IDHash := ConvertItem_Hash item in
  act! Nonce <- state_read (GetNonce from);
  let isCip3 := isForked (CIP_3 (evm_config evm)) (evm_BlockNumber evm) in
  let item := set_id (if isCip3 then id_of_hash IDHash + i64 Nonce else id_of_hash IDHash) item in
  act! have <- state_read (GetBalance from);
  act! _ <- guard_ (big_Cmp have (ci_Amount item) <? 0) insufficient;
  act! _ <- state_do (SubBalance from (sa_Amount args));
  act! _ <- state_do (AddBalance (CoinPools ConvertType) (ci_Amount item - ci_FeeAmount item));
  act! _ <- state_do (AddBalance Address0 (ci_FeeAmount item));
  let tewaka := Convert item tewaka in
  act! _ <- do_Save tewaka;
  emit evm contract "casting"
    [VBig (Some (ci_ID item)); VBig (Some (sa_ConvertType args)); VList (map addr_val (ci_Path item));
     VBytes (ci_PubKey item); VBig (Some (ci_Amount item)); VBig (Some (ci_FeeAmount item));
     addr_val (ci_RouterAddr item); VBig (Some (ci_Slippage item)); VBool (ci_IsInsurance item);
     VBytes (ci_Extra item)].

(** [verifyCrossToMainTxV3] first calls [fromNetworkType.Uint64()]; the callers
    pass it the field of [args] before [args] is unpacked, a nil pointer. What
    follows that call in the verifier is therefore not reached. *)
Definition verifyCrossToMainTxV3 (fromNetworkType : option Z) (rest : Z → M ()) : M () :=
  match fromNetworkType with
  | None => mpanic
  | Some n => rest n
  end.

(** [evm.Call] back into the EVM: caller, callee, input, gas, value. *)
Definition CallBack : Type := address → address → bytes → Z → Z → M ().

(** [UnpackAtomic] into the argument structs of the two forwarding methods:
    their fields are unexported, so [mapArgNamesToStructFields] pairs none of
    the names and the lookup of the first field fails, whatever the input. *)
Definition Unpack_cross (name : string) (input : bytes) : option CrossArgs := None.

Definition crossToMainChainMap (call : CallBack) (evm : Evm) (contract : ContractRef) (input : bytes) : M () :=
  act! _ <- (if VerifySwitch (evm_config evm) then verifyCrossToMainTxV3 None (λ _, mret tt) else mret tt);
  act! args <- of_option (Unpack_cross "crossToMainChainMap" input) ErrStakingInvalidInput;
  let pinput := PackV3 "crossFromMainChain"
    [VBig (Some (xa_id args)); VBig (Some (xa_amounts args)); hash_val (xa_burnHash args);
     VBig (Some (xa_fromNetworkType args))] in
  call (c_caller contract) (xa_tewaka args) pinput 10000000 0.

Definition betweenSideChainCrossMap (call : CallBack) (evm : Evm) (contract : ContractRef) (input : bytes) : M () :=
  act! _ <- (if VerifySwitch (evm_config evm) then verifyCrossToMainTxV3 None (λ _, mret tt) else mret tt);
  act! args <- of_option (Unpack_cross "betweenSideChainCrossMap" input) ErrStakingInvalidInput;
  let pinput := PackV3 "betweenSideChainCrossMap"
    [VBig (Some (xa_id args)); VBig (Some (xa_amounts args)); hash_val (xa_burnHash args);
     VBig (Some (xa_fromNetworkType args)); VBig (Some (xa_toNetworkType args))] in
  call (c_caller contract) (xa_tewaka args) pinput 10000000 0.

(** [RunStaking]; the local [isCip4] of the source is the negation of
    [IsCIP4]. Every error becomes [ErrExecutionReverted]. *)
Definition RunStaking (call : CallBack) (evm : Evm) (contract : ContractRef) (input : bytes) : M () := λ w,
  match MethodById input with
  | None => Ret (Err ErrExecutionReverted, w)
  | Some name =>
      let data := drop 4 input in
      let isCip4 := negb (isForked (CIP_4 (evm_config evm)) (evm_BlockNumber evm)) in
      let gated (m : M ()) : M () := if isCip4 then m else mfail "isCip4 close func" in
      let m : M () :=
        if String.eqb name "mortgage" then mortgage evm contract data
        else if String.eqb name "update" then update evm contract data
        else if String.eqb name "convert" then gated (convert evm contract data)
        else if String.eqb name "confirm" then gated (confirm evm contract data)
        else if String.eqb name "casting" then gated (casting evm contract data)
        else if String.eqb name "crossToMainChainMap" then crossToMainChainMap call evm contract data
        else if String.eqb name "betweenSideChainCrossMap" then betweenSideChainCrossMap call evm contract data
        else mfail ErrStakingInvalidInput in
      match m w with
      | Ret (Ok _, w) => Ret (Ok tt, w)
      | Ret (Err _, w) => Ret (Err ErrExecutionReverted, w)
      | Panic => Panic
      end
  end.

Definition RequiredGas (input : bytes) : Z :=
  match MethodById input with
  | None => 21000
  | Some name => default 21000 (TeWaKaGas name)
  end.

End Handlers.
