(* ===== verification/TeWakaProofs.v ===== *)
(** * What the Te Waka handlers do

    Every handler is followed through the world: the table it leaves in the
    state, the balances it moves, and the transactions it marks as used. *)
From Stdlib Require Import Ascii String.
From S2P Require Import Prelude Common RlpEncode RlpDecode AccessList StateObject StateDB.
From S2P Require Import StateRevert StateBalance TeWaka TeWakaVm.
Import Enc Dec Bytes.
Open Scope Z_scope.

Section Proofs.
Context {B : Backend} {BOk : BackendOk B} {L : Lru} {LOk : LruOk L} {X : TwExt} {XOk : TwExtOk X}.
Context (P : TeWakaImpl → Prop) (Hcf : collision_free P).

(** The world holds table [t]: the state is well formed, the blob is that of
    [t], the cache tells the truth, and [t] is one of the run's tables. *)
Record holds (t : TeWakaImpl) (w : world) : Prop := mkHolds {
  ho_inv : inv (w_state w);
  ho_stored : stored TeWaKaAddress t (w_state w);
  ho_cache : cache_ok P (w_cache w);
  ho_fits : table_fits t;
  ho_run : P t
}.

(** From [w] to [w']: the table becomes [t'], balances move by [d], the disk
    records stay. *)
Record moves (t' : TeWakaImpl) (d : address → Z) (w w' : world) : Prop := mkMoves {
  mv_holds : holds t' w';
  mv_bal : ∀ b, bal (w_state w') b = bal (w_state w) b + d b;
  mv_records : sd_records (w_state w') = sd_records (w_state w)
}.

Definition zero_ (b : address) : Z := 0.
Definition plus_ (d1 d2 : address → Z) (b : address) : Z := d1 b + d2 b.

Lemma moves_refl t w : holds t w → moves t zero_ w w.
Proof. intros H. split; [done| |done]. intros b. unfold zero_. lia. Qed.

Lemma moves_trans t1 t2 d1 d2 w1 w2 w3 :
  moves t1 d1 w1 w2 → moves t2 d2 w2 w3 → moves t2 (plus_ d1 d2) w1 w3.
Proof.
  intros [H1 B1 R1] [H2 B2 R2]. split; [done| |congruence].
  intros b. rewrite B2, B1. unfold plus_. lia.
Qed.

Lemma moves_ext t d d' w w' : (∀ b, d b = d' b) → moves t d w w' → moves t d' w w'.
Proof. intros H [H1 H2 H3]. split; [done| |done]. intros b. by rewrite H2, H. Qed.

(** ** Monad steps *)

Lemma mbind_inv {A C} (m : M A) (f : A → M C) w c w' :
  mbind m f w = Ret (Ok c, w') → ∃ a w1, m w = Ret (Ok a, w1) ∧ f a w1 = Ret (Ok c, w').
Proof. unfold mbind. destruct (m w) as [[[a|e] w1]|]; [eauto|done|done]. Qed.

Lemma mbind_ok {A C} (m : M A) (f : A → M C) w a w1 :
  m w = Ret (Ok a, w1) → mbind m f w = f a w1.
Proof. unfold mbind. by intros ->. Qed.

Lemma mbind_err {A C} (m : M A) (f : A → M C) w e w1 :
  m w = Ret (Err e, w1) → mbind m f w = Ret (Err e, w1).
Proof. unfold mbind. by intros ->. Qed.

Lemma bind_ret {A C} (a : A) (f : A → M C) w : mbind (mret a) f w = f a w.
Proof. done. Qed.
Lemma bind_pass {C} e (f : () → M C) w : mbind (guard_ false e) f w = f tt w.
Proof. done. Qed.
Lemma bind_stop {C} e (f : () → M C) w : mbind (guard_ true e) f w = Ret (Err e, w).
Proof. done. Qed.

Lemma guard_inv b e w u w' : guard_ b e w = Ret (Ok u, w') → b = false ∧ w' = w.
Proof. unfold guard_. destruct b; [done|]. by intros [= <- <-]. Qed.

Lemma of_option_inv {A} (o : option A) e w a w' : of_option o e w = Ret (Ok a, w') → o = Some a ∧ w' = w.
Proof. unfold of_option. destruct o; [|done]. by intros [= <- <-]. Qed.

Lemma of_result_inv {A} (o : result string A) w a w' : of_result o w = Ret (Ok a, w') → o = Ok a ∧ w' = w.
Proof. unfold of_result. destruct o; [|done]. by intros [= <- <-]. Qed.

Lemma do_Load_step t w :
  holds t w → ∃ w1, do_Load w = Ret (Ok t, w1) ∧ moves t zero_ w w1.
Proof.
  intros [Hi Hst Hc Hf HP]. unfold do_Load.
  destruct (Load_spec P TeWaKaAddress t w Hi ltac:(done) Hf HP Hcf Hc Hst) as (L1 & L2 & L3 & L4 & L5 & L6).
  destruct (Load TeWaKaAddress w) as [r w1]; cbn [fst snd] in *. subst r.
  exists w1. split; [done|]. split; [by split| |done]. intros b. rewrite L4. unfold zero_. lia.
Qed.

Lemma do_Save_step t t' w :
  holds t w → table_fits t' → P t' → ∃ w1, do_Save t' w = Ret (Ok tt, w1) ∧ moves t' zero_ w w1.
Proof.
  intros [Hi Hst Hc Hf HP] Hf' HP'. unfold do_Save.
  destruct (Save_spec TeWaKaAddress t' w Hi ltac:(done) Hf') as (w1 & S1 & S2 & S3 & S4 & S5 & S6).
  rewrite S1. exists w1. split; [done|]. split; [|intros b; rewrite S4; unfold zero_; lia|done].
  split; try done. rewrite S6. by apply cache_ok_add.
Qed.

Lemma holds_state t w s :
  holds t w → inv s → live s TeWaKaAddress ≠ None →
  tewaka_of s TeWaKaAddress (tw_key TeWaKaAddress) = tewaka_of (w_state w) TeWaKaAddress (tw_key TeWaKaAddress) →
  holds t (mkWorld s (w_cache w)).
Proof.
  intros [Hi [Hex Hst] Hc Hf HP] Hi' Hex' Htw. split; try done. split; [done|].
  cbn [w_state]. by rewrite Htw.
Qed.

Lemma Add_step t w a x :
  holds t w → valid_addr a →
  ∃ w1, state_do (AddBalance a x) w = Ret (Ok tt, w1) ∧ moves t (add_at a x) w w1.
Proof.
  intros Hh Ha. pose proof Hh as [Hi [Hex Hst] Hc Hf HP]. eexists. split; [reflexivity|].
  destruct (bal_ops_tewaka a x (w_state w) TeWaKaAddress (tw_key TeWaKaAddress) Hi Ha Hex) as (T1 & T2 & _).
  split; cbn [w_state].
  - apply holds_state; [done|by apply AddBalance_inv|done|done].
  - intros b. by apply AddBalance_bal.
  - by apply bal_ops_records.
Qed.

Lemma Sub_step t w a x :
  holds t w → valid_addr a →
  ∃ w1, state_do (SubBalance a x) w = Ret (Ok tt, w1) ∧ moves t (λ b, - add_at a x b) w w1.
Proof.
  intros Hh Ha. pose proof Hh as [Hi [Hex Hst] Hc Hf HP]. eexists. split; [reflexivity|].
  destruct (bal_ops_tewaka a x (w_state w) TeWaKaAddress (tw_key TeWaKaAddress) Hi Ha Hex) as (_ & _ & T1 & T2).
  split; cbn [w_state].
  - apply holds_state; [done|by apply SubBalance_inv|done|done].
  - intros b. rewrite SubBalance_bal by done. lia.
  - by apply bal_ops_records.
Qed.

Lemma get_frame_step t w a s :
  holds t w → valid_addr a → s = snd (getStateObject a (w_state w)) →
  moves t zero_ w (mkWorld s (w_cache w)).
Proof.
  intros Hh Ha ->. pose proof Hh as [Hi [Hex Hst] Hc Hf HP].
  destruct (getStateObject_frame a (w_state w) Hi Ha) as (F1 & F2 & F3). split; cbn [w_state]; [| |done].
  - apply holds_state; [done|done|by rewrite F2|]. unfold tewaka_of. by rewrite F2.
  - intros b. unfold bal, zero_. rewrite F2. lia.
Qed.

Lemma GetBalance_step t w a :
  holds t w → valid_addr a →
  ∃ w1, state_read (GetBalance a) w = Ret (Ok (bal (w_state w) a), w1) ∧ moves t zero_ w w1.
Proof.
  intros Hh Ha. unfold state_read. pose proof (GetBalance_bal a (w_state w) (ho_inv _ _ Hh) Ha) as Hb.
  pose proof (get_frame_step t w a _ Hh Ha eq_refl) as Hm. unfold GetBalance in *.
  destruct (getStateObject a (w_state w)) as [o s]; cbn [fst snd] in *. rewrite Hb. eauto.
Qed.

Lemma GetNonce_step t w a :
  holds t w → valid_addr a →
  ∃ w1, state_read (GetNonce a) w = Ret (Ok (nonce_of (w_state w) a), w1) ∧ moves t zero_ w w1.
Proof.
  intros Hh Ha. unfold state_read. pose proof (GetNonce_nonce a (w_state w) (ho_inv _ _ Hh) Ha) as Hb.
  pose proof (get_frame_step t w a _ Hh Ha eq_refl) as Hm. unfold GetNonce in *.
  destruct (getStateObject a (w_state w)) as [o s]; cbn [fst snd] in *. rewrite Hb. eauto.
Qed.

Lemma emit_step t w evm c name vals data :
  holds t w → PackEvent name vals = Ok data →
  ∃ w1, emit evm c name vals w = Ret (Ok tt, w1) ∧ moves t zero_ w w1.
Proof.
  intros Hh Hp. unfold emit, of_result. rewrite Hp. eexists. split; [reflexivity|].
  pose proof Hh as [Hi [Hex Hst] Hc Hf HP]. split; cbn [w_state]; [| |done].
  - apply holds_state; [done|by apply AddLog_inv|done|done].
  - intros b. rewrite AddLog_bal. unfold zero_. lia.
Qed.

Lemma emit_inv t w evm c name vals u w' :
  holds t w → emit evm c name vals w = Ret (Ok u, w') → moves t zero_ w w'.
Proof.
  intros Hh He. unfold emit in He. apply mbind_inv in He as (data & w1 & H1 & H2).
  apply of_result_inv in H1 as [H1 ->].
  destruct (emit_step t w evm c name vals data Hh H1) as (w2 & E & Hm).
  unfold emit, of_result in E. rewrite H1 in E. unfold mbind in E. simpl in E.
  unfold logN, state_do in *. congruence.
Qed.

Ltac inv_bind H a w1 H1 := apply mbind_inv in H as (a & w1 & H1 & H).
(** [H1] runs a step whose outcome a step lemma gives. *)
Ltac known H1 lem Mv :=
  let wx := fresh "w" in let Ex := fresh "E" in
  destruct lem as (wx & Ex & Mv); rewrite Ex in H1; injection H1 as <- <-.
Ltac inv_guard H := let H1 := fresh "G" in let w1 := fresh "w" in
  apply mbind_inv in H as (? & w1 & H1 & H); apply guard_inv in H1 as [H1 ->].


(** ** Mortgage *)

(** The conditions under which a mortgage is accepted. *)
Definition mortgage_allowed (from : address) (args : MortgageArgs) (t : TeWakaImpl) (have : Z) : bool :=
  (mimStakingAmount <=? ma_StakingAmount args) && ValidPubkey (ma_PubKey args) &&
  bool_decide (GetStakeUser from t = None) &&
  bool_decide (GetStakeToAddress (ma_ToAddress args) t = None) &&
  (zlen (ma_CoinBaseAddress args) <=? 16) && (ma_StakingAmount args <=? have).

Definition mortgaged (from : address) (args : MortgageArgs) (t : TeWakaImpl) : TeWakaImpl :=
  Mortgage from (ma_ToAddress args) (ma_PubKey args) (ma_StakingAmount args) (ma_CoinBaseAddress args) t.

Definition transfer_ (from to : address) (x : Z) (b : address) : Z := add_at to x b - add_at from x b.

Ltac refused w1 := rewrite bind_stop; eexists _, w1; split; [reflexivity|by assumption].
Ltac passed := rewrite bind_pass; cbv beta.

Lemma mortgage_run evm c input args t w data :
  holds t w → valid_addr (c_caller c) → Unpack_mortgage input = Some args →
  table_fits (mortgaged (c_caller c) args t) → P (mortgaged (c_caller c) args t) →
  PackEvent "mortgage" [VBytes (ma_PubKey args); addr_val (ma_ToAddress args);
     VBig (Some (ma_StakingAmount args)); VList (map addr_val (ma_CoinBaseAddress args))] = Ok data →
  if mortgage_allowed (c_caller c) args t (bal (w_state w) (c_caller c)) then
    ∃ w', mortgage evm c input w = Ret (Ok tt, w') ∧
      moves (mortgaged (c_caller c) args t)
        (transfer_ (c_caller c) (ma_ToAddress args) (ma_StakingAmount args)) w w'
  else ∃ e w', mortgage evm c input w = Ret (Err e, w') ∧ ∀ b, bal (w_state w') b = bal (w_state w) b.
Proof.
  intros Hh Hc Hu Hf' HP' Hpack.
  destruct (Unpack_mortgage_ok _ _ Hu) as (A1 & A2 & A3 & A4).
  set (from := c_caller c) in *. unfold mortgage, of_option. rewrite Hu, bind_ret. cbv beta.
  destruct (do_Load_step t w Hh) as (w1 & E1 & M1). erewrite mbind_ok by exact E1. cbv beta.
  assert (∀ b, bal (w_state w1) b = bal (w_state w) b) as Hb1.
  { intros b. rewrite (mv_bal _ _ _ _ M1). unfold zero_. lia. }
  fold from. rewrite Cmp_lt, Cmp_le_1, andb_false_r. unfold mortgage_allowed.
  destruct (Z.ltb_spec (ma_StakingAmount args) mimStakingAmount), (Z.leb_spec mimStakingAmount (ma_StakingAmount args));
    try lia; [refused w1|]. passed.
  destruct (ValidPubkey (ma_PubKey args)); [|refused w1]. cbn [negb andb]. do 2 passed.
  destruct (GetStakeUser from t) as [p|] eqn:EU.
  { rewrite (bool_decide_eq_false_2 (Some p = None)) by done.
    rewrite (bool_decide_eq_true_2 (is_Some (Some p))) by eauto. cbn [andb]. refused w1. }
  rewrite (bool_decide_eq_false_2 (is_Some None)) by (by intros [? [=]]).
  rewrite (bool_decide_eq_true_2 (None = None)) by done. cbn [andb]. passed.
  destruct (GetStakeToAddress (ma_ToAddress args) t) as [p|] eqn:ET.
  { rewrite (bool_decide_eq_false_2 (Some p = None)) by done.
    rewrite (bool_decide_eq_true_2 (is_Some (Some p))) by eauto. cbn [andb]. refused w1. }
  rewrite (bool_decide_eq_false_2 (is_Some None)) by (by intros [? [=]]).
  rewrite (bool_decide_eq_true_2 (None = None)) by done. cbn [andb]. passed.
  destruct (Z.ltb_spec 16 (zlen (ma_CoinBaseAddress args))), (Z.leb_spec (zlen (ma_CoinBaseAddress args)) 16);
    try lia; [refused w1|]. cbn [andb]. passed. fold (mortgaged from args t).
  destruct (do_Save_step t (mortgaged from args t) w1 (mv_holds _ _ _ _ M1) Hf' HP') as (w2 & E2 & M2).
  erewrite mbind_ok by exact E2. cbv beta.
  destruct (GetBalance_step _ w2 from (mv_holds _ _ _ _ M2) Hc) as (w3 & E3 & M3).
  erewrite mbind_ok by exact E3. cbv beta. rewrite (mv_bal _ _ _ _ M2), Hb1, Cmp_lt. unfold zero_ at 1 2. rewrite !Z.add_0_r.
  assert (moves (mortgaged from args t) zero_ w w3) as M13.
  { eapply moves_ext; [|exact (moves_trans _ _ _ _ _ _ _ (moves_trans _ _ _ _ _ _ _ M1 M2) M3)]. done. }
  destruct (Z.ltb_spec (bal (w_state w) from) (ma_StakingAmount args)),
    (Z.leb_spec (ma_StakingAmount args) (bal (w_state w) from)); try lia.
  { rewrite bind_stop. eexists _, w3. split; [reflexivity|]. intros b. rewrite (mv_bal _ _ _ _ M13). unfold zero_. lia. }
  passed.
  destruct (Sub_step _ w3 from (ma_StakingAmount args) (mv_holds _ _ _ _ M13) Hc) as (w4 & E4 & M4).
  erewrite mbind_ok by exact E4. cbv beta.
  destruct (Add_step _ w4 (ma_ToAddress args) (ma_StakingAmount args) (mv_holds _ _ _ _ M4) A2) as (w5 & E5 & M5).
  erewrite mbind_ok by exact E5. cbv beta.
  destruct (emit_step _ w5 evm c _ _ data (mv_holds _ _ _ _ M5) Hpack) as (w6 & E6 & M6).
  exists w6. split; [exact E6|].
  eapply moves_ext; [|exact (moves_trans _ _ _ _ _ _ _ (moves_trans _ _ _ _ _ _ _
    (moves_trans _ _ _ _ _ _ _ M13 M4) M5) M6)].
  intros b. unfold plus_, zero_, transfer_. lia.
Qed.

(** ** Update *)

Definition updated (from : address) (args : UpdateArgs) (t : TeWakaImpl) : TeWakaImpl :=
  if 16 <? zlen (ua_CoinBaseAddress args) then t else snd (Update from (ua_CoinBaseAddress args) t).

Lemma pledge_to_valid t from p : table_fits t → GetStakeUser from t = Some p → valid_addr (pl_ToAddress p).
Proof.
  intros [Ht _] Hg. apply find_some in Hg as [Hin _]. apply list_elem_of_In in Hin.
  pose proof (to_pledges t Ht) as HF. rewrite Forall_forall in HF. by apply HF.
Qed.

Lemma update_ok_inv evm c input args t w w' :
  holds t w → valid_addr (c_caller c) → Unpack_update input = Some args →
  table_fits (updated (c_caller c) args t) → P (updated (c_caller c) args t) →
  update evm c input w = Ret (Ok tt, w') →
  ∃ item, GetStakeUser (c_caller c) t = Some item ∧
    (0 < ua_StakingAmount args →
       mimStakingAmount ≤ ua_StakingAmount args ≤ bal (w_state w) (c_caller c)) ∧
    moves (updated (c_caller c) args t)
      (transfer_ (c_caller c) (pl_ToAddress item) (ua_StakingAmount args)) w w'.
Proof.
  intros Hh Hc Hu Hf' HP' H. destruct (Unpack_update_ok _ _ Hu) as (A1 & A2).
  unfold update, of_option in H. rewrite Hu, bind_ret in H. cbv beta zeta in H.
  set (from := c_caller c) in *.
  inv_bind H t1 w1 H1. known H1 (do_Load_step t w Hh) M1.
  inv_bind H it w2 H2. apply of_option_inv in H2 as [Hg ->].
  assert (valid_addr (pl_ToAddress it)) as Hto by (eapply pledge_to_valid; [apply (ho_fits _ _ Hh)|done]).
  exists it. split; [done|].
  inv_bind H u w3 H3.
  assert ((0 < ua_StakingAmount args →
       mimStakingAmount ≤ ua_StakingAmount args ≤ bal (w_state w) from) ∧
    moves t (transfer_ from (pl_ToAddress it) (ua_StakingAmount args)) w w3) as [Hamt M3].
  { rewrite Cmp_gt in H3. destruct (Z.ltb_spec 0 (ua_StakingAmount args)) as [Hpos|Hpos].
    - inv_guard H3. rewrite Cmp_lt in G. apply Z.ltb_ge in G.
      inv_bind H3 have w4 H4. known H4 (GetBalance_step _ _ from (mv_holds _ _ _ _ M1) Hc) M4.
      inv_guard H3. rewrite Cmp_lt in G0. apply Z.ltb_ge in G0.
      rewrite (mv_bal _ _ _ _ M1) in G0. unfold zero_ in G0.
      inv_bind H3 u1 w5 H5. known H5 (Sub_step _ _ from (ua_StakingAmount args) (mv_holds _ _ _ _ M4) Hc) M5.
      known H3 (Add_step _ _ _ (ua_StakingAmount args) (mv_holds _ _ _ _ M5) Hto) M6.
      split; [lia|].
      eapply moves_ext; [|exact (moves_trans _ _ _ _ _ _ _ (moves_trans _ _ _ _ _ _ _
        (moves_trans _ _ _ _ _ _ _ M1 M4) M5) M6)].
      intros b. unfold plus_, zero_, transfer_. lia.
    - injection H3 as _ <-. split; [lia|]. eapply moves_ext; [|exact M1].
      intros b. unfold zero_, transfer_, add_at. destruct (decide _), (decide _); lia. }
  split; [done|]. unfold updated in *.
  destruct (16 <? zlen (ua_CoinBaseAddress args)); [by injection H as <-|].
  destruct (Update from (ua_CoinBaseAddress args) t) as [temp t'] eqn:EU. cbn [snd] in *.
  destruct temp; cbn [negb] in H.
  - inv_bind H u2 w4 H4. known H4 (do_Save_step _ t' _ (mv_holds _ _ _ _ M3) Hf' HP') M4.
    apply emit_inv with (t := t') in H; [|apply (mv_holds _ _ _ _ M4)].
    eapply moves_ext; [|exact (moves_trans _ _ _ _ _ _ _ (moves_trans _ _ _ _ _ _ _ M3 M4) H)].
    intros b. unfold plus_, zero_. lia.
  - injection H as <-. unfold Update in EU. destruct (Update_loop _ _ _); simplify_eq. done.
Qed.

(** ** Verification of a burn *)

Lemma receipt_log_inv topic h w l w' : receipt_log topic h w = Ret (Ok l, w') →
  w' = w ∧ ∃ r, receiptMap h = Some r ∧ rc_Status r = 1.
Proof.
  intros H. unfold receipt_log in H.
  inv_bind H r w1 H1. apply of_option_inv in H1 as [H1 ->]. inv_guard H. inv_guard H.
  inv_bind H o w2 H2. unfold lift_outcome in H2. destruct (find_log _ _); [|done]. injection H2 as _ ->.
  apply of_option_inv in H as [_ ->]. split; [done|]. exists r. split; [done|].
  apply negb_false_iff, Z.eqb_eq in G. done.
Qed.

Lemma CheckToAddress_inv ct o w u w' : CheckToAddress ct o w = Ret (Ok u, w') → w' = w.
Proof.
  unfold CheckToAddress. destruct (pool_string ct); [|by intros [= _ <-]].
  destruct o as [tx|]; [|done]. destruct (tx_To tx); [|done]. intros H. by apply guard_inv in H as [_ ->].
Qed.

(** A successful check of a known chain puts the recipient among its pools. *)
Lemma CheckToAddress_pool ct pool o w u w' :
  pool_string ct = Some pool → CheckToAddress ct o w = Ret (Ok u, w') →
  ∃ tx to, o = Some tx ∧ tx_To tx = Some to ∧ strings_Contains (strings_ToUpper pool) (upper_addr to) = true.
Proof.
  intros Hp. unfold CheckToAddress. rewrite Hp. destruct o as [tx|]; [|done]. destruct (tx_To tx) as [to|] eqn:E; [|done].
  intros H. apply guard_inv in H as [H _]. exists tx, to. by apply negb_false_iff in H.
Qed.

(** The substrings of length [n] of a string (shorter ones at its end). *)
Fixpoint windows (n : nat) (s : string) : list string :=
  String.substring 0 n s :: match s with EmptyString => [] | String _ s' => windows n s' end.

Lemma strings_Contains_windows s sub : strings_Contains s sub = true → sub ∈ windows (String.length sub) s.
Proof.
  assert (∀ s, String.prefix sub s = true → sub = String.substring 0 (String.length sub) s) as Hp.
  { intros s0 H. by apply String.prefix_correct in H. }
  induction s as [|c s IH]; cbn [strings_Contains windows]; intros [H|H]%orb_true_iff.
  - apply elem_of_cons. left. exact (Hp _ H).
  - done.
  - apply elem_of_cons. left. exact (Hp _ H).
  - right. exact (IH H).
Qed.

Lemma upper_addr_length a : String.length (upper_addr a) = 42%nat.
Proof.
  assert (∀ l, String.length (foldr (λ b s, String (hexdigit (b / 16)) (String (hexdigit (b mod 16)) s)) EmptyString l)
    = (2 * length l)%nat) as Hl by (intros l; induction l; simpl in *; lia).
  change (S (S (String.length (foldr (λ b s, String (hexdigit (b / 16)) (String (hexdigit (b mod 16)) s))
    EmptyString (Address_Bytes a)))) = 42%nat). rewrite Hl. unfold Address_Bytes. by rewrite length_be_fixed.
Qed.

(** The asset types whose contracts on the foreign chain have an address in common. *)
Definition same_pool (a b : Z) : bool :=
  (a =? b) || (a =? ExpandedTxConvert_OCzz) && (b =? ExpandedTxConvert_MCzz)
  || (a =? ExpandedTxConvert_MCzz) && (b =? ExpandedTxConvert_OCzz).

Definition known_types : list Z := [1; 2; 3; 4; 5; 6; 7].

Definition pool_windows (a : Z) : list string :=
  filter (λ s, String.length s = 42%nat) (windows 42 (strings_ToUpper (default EmptyString (pool_string a)))).

Lemma pool_windows_disjoint :
  forallb (λ a, forallb (λ b, same_pool a b ||
    forallb (λ x, negb (existsb (String.eqb x) (pool_windows b))) (pool_windows a)) known_types) known_types = true.
Proof. vm_compute. reflexivity. Qed.

Lemma known_type a : 1 ≤ a ≤ 7 → a ∈ known_types.
Proof.
  intros H. assert (a = 1 ∨ a = 2 ∨ a = 3 ∨ a = 4 ∨ a = 5 ∨ a = 6 ∨ a = 7) as Ha by lia.
  unfold known_types. set_solver.
Qed.

Lemma to_window a tx w u w' :
  1 ≤ a ≤ 7 → CheckToAddress a (Some tx) w = Ret (Ok u, w') →
  ∃ to, tx_To tx = Some to ∧ upper_addr to ∈ pool_windows a.
Proof.
  intros Ha H.
  assert (∃ pool, pool_string a = Some pool) as [pool Hp].
  { apply known_type in Ha. unfold known_types in Ha. rewrite !elem_of_cons in Ha.
    destruct Ha as [->|[->|[->|[->|[->|[->|[->|Ha]]]]]]]; try (by eexists). by apply not_elem_of_nil in Ha. }
  destruct (CheckToAddress_pool _ _ _ _ _ _ Hp H) as (tx' & to & [= <-] & Hto & Hc).
  exists to. split; [done|]. unfold pool_windows. rewrite Hp. apply list_elem_of_filter.
  split; [apply upper_addr_length|]. apply strings_Contains_windows in Hc. by rewrite upper_addr_length in Hc.
Qed.

(** One transaction passes the recipient check of two chains only where their
    contracts share an address. *)
Lemma CheckToAddress_chains a b tx w w1 w2 u1 u2 w1' :
  1 ≤ a ≤ 7 → 1 ≤ b ≤ 7 →
  CheckToAddress a (Some tx) w = Ret (Ok u1, w1) → CheckToAddress b (Some tx) w1' = Ret (Ok u2, w2) →
  same_pool a b = true.
Proof.
  intros Ha Hb H1 H2. destruct (to_window _ _ _ _ _ Ha H1) as (to & E1 & W1).
  destruct (to_window _ _ _ _ _ Hb H2) as (to' & E2 & W2). rewrite E1 in E2. injection E2 as <-.
  pose proof pool_windows_disjoint as Hd. rewrite forallb_forall in Hd.
  specialize (Hd a (proj1 (list_elem_of_In _ _) (known_type a Ha))). rewrite forallb_forall in Hd.
  specialize (Hd b (proj1 (list_elem_of_In _ _) (known_type b Hb))).
  apply orb_true_iff in Hd as [Hd|Hd]; [done|]. rewrite forallb_forall in Hd.
  specialize (Hd _ (proj1 (list_elem_of_In _ _) W1)). apply negb_true_iff in Hd.
  assert (existsb (String.eqb (upper_addr to)) (pool_windows b) = true) as Hx; [|congruence].
  apply existsb_exists. exists (upper_addr to). split; [by apply list_elem_of_In|apply String.eqb_refl].
Qed.

Lemma CoinPools_valid ct : valid_addr (CoinPools ct).
Proof.
  unfold CoinPools, CoinPools_get. destruct ((1 <=? ct) && (ct <=? 7)) eqn:E; [|done].
  apply andb_true_iff in E as [E1 E2]. unfold valid_addr. simpl. lia.
Qed.

Lemma CoinPools_inj a b x :
  CoinPools_get a = Some x → CoinPools_get b = Some x → a = b.
Proof.
  unfold CoinPools_get. destruct ((1 <=? a) && _), ((1 <=? b) && _); intros; simplify_eq; lia.
Qed.

(** What a verified burn guarantees. *)
Record burn_ok (assetType : Z) (txHash : hash) (t : TeWakaImpl) (w : world) (item : ConvertItem) : Prop := {
  bo_asset : ci_AssetType item = assetType;
  bo_hash : ci_TxHash item = txHash;
  bo_types : ci_ConvertType item ≠ assetType;
  bo_convert : ci_ConvertType item = 0 ∨ is_Some (CoinPools_get (ci_ConvertType item));
  bo_amount : 0 ≤ ci_Amount item;
  bo_pool : ci_Amount item * Int10 ≤ bal (w_state w) (CoinPools assetType);
  bo_receipt : ∃ r, receiptMap txHash = Some r ∧ rc_Status r = 1
}.

Lemma verifyConvert_inv assetType txHash t w item w' :
  holds t w → verifyConvertEthereumTypeTx assetType txHash w = Ret (Ok item, w') →
  burn_ok assetType txHash t w item ∧ moves t zero_ w w'.
Proof.
  intros Hh H. unfold verifyConvertEthereumTypeTx in H.
  inv_bind H l w1 H1. apply receipt_log_inv in H1 as [-> Hr].
  inv_bind H logs w1 H1. apply of_option_inv in H1 as [Hlog ->].
  destruct (Unpack_BurnToken_ok _ _ Hlog) as (A1 & A2 & A3 & _).
  inv_bind H pool w2 H2.
  known H2 (GetBalance_step t w (CoinPools assetType) Hh (CoinPools_valid _)) M2.
  cbv zeta in H. inv_guard H. inv_guard H. inv_guard H.
  rewrite Cmp_gt in G. apply Z.ltb_ge in G. apply Z.eqb_neq in G1.
  inv_bind H u w3 H3. apply CheckToAddress_inv in H3 as ->.
  destruct (transactionMap txHash) as [tx|]; [|done]. inv_guard H.
  inv_bind H pk w4 H4. apply of_option_inv in H4 as [Hpk ->]. injection H as <- <-.
  split; [|done]. split; cbn [ci_AssetType ci_TxHash ci_ConvertType ci_Amount]; try done.
  - apply andb_false_iff in G0 as [G0|G0]; [right|left].
    + apply bool_decide_eq_false in G0. by apply not_eq_None_Some.
    + by apply negb_false_iff, Z.eqb_eq in G0.
  - destruct (_ =? 0); done.
Qed.

(** A verified burn passed the recipient check of its asset type. *)
Lemma verifyConvert_to assetType txHash w item w' :
  verifyConvertEthereumTypeTx assetType txHash w = Ret (Ok item, w') →
  ∃ tx w1 w2 u, transactionMap txHash = Some tx ∧ CheckToAddress assetType (Some tx) w1 = Ret (Ok u, w2).
Proof.
  intros H. unfold verifyConvertEthereumTypeTx in H.
  inv_bind H l w1 H1. inv_bind H logs w2 H2. inv_bind H pool w3 H3. cbv zeta in H.
  inv_guard H. inv_guard H. inv_guard H. inv_bind H u w4 H4.
  destruct (transactionMap txHash) as [tx|]; [|done]. by exists tx, w3, w4, u.
Qed.

(** ** Convert *)

(** The stored item: fee and identifier filled in. *)
Definition finish_item (it : ConvertItem) : ConvertItem :=
  let it := set_fee (ci_Amount it / 1000) it in set_id (id_of_hash (ConvertItem_Hash it)) it.

Definition converted (t : TeWakaImpl) (it : ConvertItem) (u : UsedItem) : TeWakaImpl :=
  SetItem u (if ci_ConvertType it =? 0 then t else Convert (finish_item it) t).

(** The receiver of a conversion. *)
Definition receives (it : ConvertItem) (dst : address) : Prop :=
  if ci_ConvertType it =? 0 then ∃ pub, UnmarshalPubkey (ci_PubKey it) = Some pub ∧ dst = PubkeyToAddress pub
  else dst = CoinPools (ci_ConvertType it).

(** Out of the asset's pool; all but a thousandth to the receiver, the fee to
    the zero address. *)
Definition conversion (pool dst : address) (amount : Z) (b : address) : Z :=
  add_at dst (amount - amount / 1000) b + add_at Address0 (amount / 1000) b - add_at pool amount b.

Lemma verify_or_panic_inv m w it w' : verify_or_panic m w = Ret (Ok it, w') → m w = Ret (Ok it, w').
Proof.
  unfold verify_or_panic. destruct (m w) as [[[a|e] w1]|]; try done. by destruct (String.eqb e ErrRpcErr).
Qed.

Lemma pay_step t w pool dst amount (t2 : TeWakaImpl) :
  holds t w → valid_addr pool → valid_addr dst →
  ∃ w1, mbind (state_do (SubBalance pool amount))
      (λ _, mbind (state_do (AddBalance dst (amount - amount / 1000)))
      (λ _, mbind (state_do (AddBalance Address0 (amount / 1000))) (λ _, mret t2))) w = Ret (Ok t2, w1) ∧
    moves t (conversion pool dst amount) w w1.
Proof.
  intros Hh Hp Hd.
  destruct (Sub_step t w pool amount Hh Hp) as (w1 & E1 & M1).
  destruct (Add_step t w1 dst (amount - amount / 1000) (mv_holds _ _ _ _ M1) Hd) as (w2 & E2 & M2).
  destruct (Add_step t w2 Address0 (amount / 1000) (mv_holds _ _ _ _ M2) ltac:(done)) as (w3 & E3 & M3).
  exists w3. erewrite mbind_ok by exact E1. erewrite mbind_ok by exact E2. erewrite mbind_ok by exact E3.
  split; [done|].
  eapply moves_ext; [|exact (moves_trans _ _ _ _ _ _ _ (moves_trans _ _ _ _ _ _ _ M1 M2) M3)].
  intros b. unfold plus_, conversion. lia.
Qed.

Lemma convert_ok_inv evm c input args t w w' :
  holds t w → Unpack_convert input = Some args →
  convert evm c input w = Ret (Ok tt, w') →
  let u := mkUsedItem (u8 (u64 (ca_AssetType args))) (HexToHash (ca_TxHash args)) in
  HasItem u t (w_state w) = false ∧
  ∃ it dst, burn_ok (ui_Atype u) (ui_TxHash u) t w it ∧ receives it dst ∧ valid_addr dst ∧
    (∃ w1 w2, do_Load w = Ret (Ok t, w1) ∧
       verifyConvertEthereumTypeTx (ui_Atype u) (ui_TxHash u) w1 = Ret (Ok it, w2)) ∧
    (table_fits (converted t it u) → P (converted t it u) →
     moves (converted t it u)
       (conversion (CoinPools (ui_Atype u)) dst (ci_Amount it * Int10)) w w').
Proof.
  intros Hh Hu H u. unfold convert, of_option in H. rewrite Hu, bind_ret in H. cbv beta zeta in H.
  inv_bind H t1 w1 H1. known H1 (do_Load_step t w Hh) M1.
  inv_bind H used w2 H2. injection H2 as <- <-. inv_guard H. fold u in G. cbn [w_state] in G.
  assert (HasItem u t (w_state w) = false) as Hnot.
  { unfold HasItem, isItemFromDB, HasRecord in *. by rewrite (mv_records _ _ _ _ M1) in G. }
  split; [done|]. pose proof (mv_holds _ _ _ _ M1) as Hh1.
  assert (moves t zero_ w (mkWorld (w_state w0) (w_cache w0))) as M1' by by destruct w0.
  inv_bind H it w3 H3. apply verify_or_panic_inv in H3.
  destruct (verifyConvert_inv _ _ t _ _ _ (mv_holds _ _ _ _ M1') H3) as [Hburn M3].
  pose proof (moves_trans _ _ _ _ _ _ _ M1' M3) as M13.
  assert (burn_ok (ui_Atype u) (ui_TxHash u) t w it) as Hburn'.
  { destruct Hburn. split; try done. rewrite (mv_bal _ _ _ _ M1') in bo_pool0. unfold zero_ in bo_pool0.
    by rewrite Z.add_0_r in bo_pool0. }
  assert (ci_AssetType it = ui_Atype u) as Hat by apply (bo_asset _ _ _ _ _ Hburn').
  change (set_id _ (set_fee (ci_Amount it / 1000) it)) with (finish_item it) in H.
  change (ci_ConvertType (finish_item it)) with (ci_ConvertType it) in H.
  change (ci_AssetType (finish_item it)) with (ci_AssetType it) in H.
  change (ci_PubKey (finish_item it)) with (ci_PubKey it) in H.
  rewrite Hat in H. unfold ExpandedTxConvert_Czz in H.
  inv_bind H t2 w4 H4.
  assert (∃ dst, receives it dst ∧ valid_addr dst ∧
    t2 = (if ci_ConvertType it =? 0 then t else Convert (finish_item it) t) ∧
    moves t (conversion (CoinPools (ui_Atype u)) dst (ci_Amount it * Int10)) w w4) as (dst & Hrec & Hdst & -> & M4).
  { unfold receives. destruct (ci_ConvertType it =? 0).
    - inv_bind H4 pub w5 H5. apply of_option_inv in H5 as [Hpub ->]. exists (PubkeyToAddress pub).
      split; [eauto|]. split; [apply PubkeyToAddress_valid|].
      destruct (pay_step t w3 (CoinPools (ui_Atype u)) (PubkeyToAddress pub) (ci_Amount it * Int10) t)
        as (w6 & E6 & M6); [apply (mv_holds _ _ _ _ M3)|apply CoinPools_valid|apply PubkeyToAddress_valid|].
      cbv zeta in H4. rewrite E6 in H4. injection H4 as <- <-. split; [done|].
      eapply moves_ext; [|exact (moves_trans _ _ _ _ _ _ _ M13 M6)]. intros b. unfold plus_, zero_. lia.
    - exists (CoinPools (ci_ConvertType it)). split; [done|]. split; [apply CoinPools_valid|].
      destruct (pay_step t w3 (CoinPools (ui_Atype u)) (CoinPools (ci_ConvertType it)) (ci_Amount it * Int10)
        (Convert (finish_item it) t))
        as (w6 & E6 & M6); [apply (mv_holds _ _ _ _ M3)|apply CoinPools_valid|apply CoinPools_valid|].
      rewrite E6 in H4. injection H4 as <- <-. split; [done|].
      eapply moves_ext; [|exact (moves_trans _ _ _ _ _ _ _ M13 M6)]. intros b. unfold plus_, zero_. lia. }
  exists it, dst. split; [done|]. split; [done|]. split; [done|]. split.
  { exists w0, w3. split; [done|]. by destruct w0. }
  intros Hf' HP'.
  inv_bind H u5 w5 H5. fold u in H5. fold (converted t it u) in H5.
  known H5 (do_Save_step _ (converted t it u) _ (mv_holds _ _ _ _ M4) Hf' HP') M5.
  apply emit_inv with (t := converted t it u) in H; [|apply (mv_holds _ _ _ _ M5)].
  eapply moves_ext; [|exact (moves_trans _ _ _ _ _ _ _ (moves_trans _ _ _ _ _ _ _ M4 M5) H)].
  intros b. unfold plus_, zero_. lia.
Qed.

(** A conversion of an unknown transaction takes the node down. *)
Lemma convert_unknown_panics evm c input args t w :
  holds t w → Unpack_convert input = Some args →
  HasItem (mkUsedItem (u8 (u64 (ca_AssetType args))) (HexToHash (ca_TxHash args))) t (w_state w) = false →
  receiptMap (HexToHash (ca_TxHash args)) = None →
  convert evm c input w = Panic.
Proof.
  intros Hh Hu Hnot Hr. unfold convert, of_option at 1. rewrite Hu, bind_ret. cbv beta zeta.
  destruct (do_Load_step t w Hh) as (w1 & E1 & M1). erewrite mbind_ok by exact E1. cbv beta.
  unfold HasItem, isItemFromDB, HasRecord in Hnot. rewrite <- (mv_records _ _ _ _ M1) in Hnot.
  erewrite mbind_ok by reflexivity. cbv beta. unfold HasItem, isItemFromDB, HasRecord. cbn [w_state].
  rewrite Hnot, bind_pass. unfold mbind at 1, verify_or_panic, verifyConvertEthereumTypeTx, receipt_log.
  rewrite Hr. done.
Qed.

(** A transaction already used is refused, without a change of balances. *)
Lemma convert_refuses_used evm c input args t w :
  holds t w → Unpack_convert input = Some args →
  HasItem (mkUsedItem (u8 (u64 (ca_AssetType args))) (HexToHash (ca_TxHash args))) t (w_state w) = true →
  ∃ w', convert evm c input w = Ret (Err ErrTxhashAlreadyInput, w') ∧ moves t zero_ w w'.
Proof.
  intros Hh Hu Hused. unfold convert, of_option at 1. rewrite Hu, bind_ret. cbv beta zeta.
  destruct (do_Load_step t w Hh) as (w1 & E1 & M1). erewrite mbind_ok by exact E1. cbv beta.
  unfold HasItem, isItemFromDB, HasRecord in Hused. rewrite <- (mv_records _ _ _ _ M1) in Hused.
  erewrite mbind_ok by reflexivity. cbv beta. unfold HasItem, isItemFromDB, HasRecord. cbn [w_state].
  rewrite Hused, bind_stop. eexists. split; [reflexivity|]. by destruct w1.
Qed.

(** ** Casting *)

Definition cast_item (evm : Evm) (from : address) (args : CastingArgs) (nonce : Z) : ConvertItem :=
  let isCip2 := isForked (CIP_2 (evm_config evm)) (evm_BlockNumber evm) in
  let isCip3 := isForked (CIP_3 (evm_config evm)) (evm_BlockNumber evm) in
  let it := set_fee (sa_Amount args / Int1000)
    (mkConvertItem 0 0 (u8 (u64 (sa_ConvertType args))) 0 (sa_PubKey args) (sa_Amount args) 0 (sa_Path args)
       (sa_RouterAddr args) (sa_Slippage args) (sa_IsInsurance args)
       (if isCip2 then Address_Bytes from else [])) in
  set_id (if isCip3 then id_of_hash (ConvertItem_Hash it) + i64 nonce else id_of_hash (ConvertItem_Hash it)) it.

Lemma casting_ok_inv evm c input args t w w' :
  holds t w → valid_addr (c_caller c) → Unpack_casting input = Some args →
  casting evm c input w = Ret (Ok tt, w') →
  sa_Amount args ≤ bal (w_state w) (c_caller c) ∧ 0 ≤ sa_Amount args ∧
  ∃ w1, do_Load w = Ret (Ok t, w1) ∧
  let it := cast_item evm (c_caller c) args (nonce_of (w_state w1) (c_caller c)) in
  (table_fits (Convert it t) → P (Convert it t) →
   moves (Convert it t) (conversion (c_caller c) (CoinPools (ci_ConvertType it)) (sa_Amount args)) w w').
Proof.
  intros Hh Hc Hu H. destruct (Unpack_casting_ok _ _ Hu) as (_ & A2 & _).
  unfold casting, of_option at 1 in H. rewrite Hu, bind_ret in H. cbv beta zeta in H.
  set (from := c_caller c) in *.
  inv_bind H t1 w1 H1. known H1 (do_Load_step t w Hh) M1.
  inv_bind H u1 w2 H2.
  assert (w2 = w0) as ->.
  { destruct (_ && _); [|by injection H2 as _ <-]. inv_bind H2 p w3 H3.
    apply of_option_inv in H3 as [_ ->]. by injection H2 as _ <-. }
  inv_bind H n w3 H3. known H3 (GetNonce_step t _ from (mv_holds _ _ _ _ M1) Hc) M3.
  inv_bind H have w4 H4. known H4 (GetBalance_step t _ from (mv_holds _ _ _ _ M3) Hc) M4.
  inv_guard H. rewrite Cmp_lt in G. apply Z.ltb_ge in G. cbn [ci_Amount set_id set_fee] in G.
  rewrite (mv_bal _ _ _ _ M3), (mv_bal _ _ _ _ M1) in G. unfold zero_ in G.
  split; [lia|]. split; [done|]. exists w0. split; [done|]. intros it Hf' HP'.
  inv_bind H u5 w5 H5. known H5 (Sub_step t _ from (sa_Amount args) (mv_holds _ _ _ _ M4) Hc) M5.
  cbn [ci_Amount ci_FeeAmount set_id set_fee] in H.
  inv_bind H u6 w6 H6.
  known H6 (Add_step t _ (CoinPools (u8 (u64 (sa_ConvertType args)))) (sa_Amount args - sa_Amount args / Int1000)
    (mv_holds _ _ _ _ M5) (CoinPools_valid _)) M6.
  inv_bind H u7 w7 H7.
  known H7 (Add_step t _ Address0 (sa_Amount args / Int1000) (mv_holds _ _ _ _ M6) ltac:(done)) M7.
  inv_bind H u8_ w8 H8.
  lazymatch type of H8 with _ ?wx = _ => change (do_Save (Convert it t) wx = Ret (Ok u8_, w8)) in H8 end.
  known H8 (do_Save_step t (Convert it t) _ (mv_holds _ _ _ _ M7) Hf' HP') M8.
  apply emit_inv with (t := Convert it t) in H; [|apply (mv_holds _ _ _ _ M8)].
  eapply moves_ext; [|exact (moves_trans _ _ _ _ _ _ _ (moves_trans _ _ _ _ _ _ _ (moves_trans _ _ _ _ _ _ _
    (moves_trans _ _ _ _ _ _ _ (moves_trans _ _ _ _ _ _ _ (moves_trans _ _ _ _ _ _ _
    (moves_trans _ _ _ _ _ _ _ M1 M3) M4) M5) M6) M7) M8) H)].
  intros b. unfold plus_, zero_, conversion, Int1000. subst it. simpl. lia.
Qed.

(** ** Confirm *)

Lemma verifyConfirm_inv t ct h cip2 w it w' :
  verifyConfirmEthereumTypeTx t ct h cip2 w = Ret (Ok it, w') →
  w' = w ∧ it ∈ ConvertItems t ∧ ci_ConvertType it = ct ∧
  (∃ mid, List.find (λ v, ci_ID v =? mid) (ConvertItems t) = Some it) ∧
  ∃ r, receiptMap h = Some r ∧ rc_Status r = 1.
Proof.
  intros H. unfold verifyConfirmEthereumTypeTx in H. inv_guard H.
  inv_bind H l w1 H1. apply receipt_log_inv in H1 as [-> Hr].
  inv_bind H logs w1 H1. apply of_option_inv in H1 as [Hlog ->].
  inv_bind H cit w1 H1. apply of_option_inv in H1 as [Hx ->]. inv_guard H.
  inv_bind H u w1 H1.
  assert (w1 = w) as ->.
  { destruct cip2; [|by injection H1 as _ <-]. destruct (0 <? _).
    - inv_bind H1 pub w2 H2. apply of_option_inv in H2 as [_ ->]. by apply guard_inv in H1 as [_ ->].
    - by apply guard_inv in H1 as [_ ->]. }
  cbv zeta in H. inv_guard H. inv_bind H y w1 H2. apply of_option_inv in H2 as [Htx ->].
  inv_bind H z w1 H2. apply CheckToAddress_inv in H2 as ->. injection H as <- <-.
  split; [done|]. split; [apply find_some in Hx as [Hx _]; by apply list_elem_of_In|].
  apply negb_false_iff, Z.eqb_eq in G0. split; [done|]. split; [eauto|done].
Qed.

Definition confirmed (t : TeWakaImpl) (it : ConvertItem) (u : UsedItem) : TeWakaImpl := SetItem u (Confirm it t).

Lemma confirm_ok_inv evm c input args t w w' :
  holds t w → Unpack_confirm input = Some args →
  confirm evm c input w = Ret (Ok tt, w') →
  let u := mkUsedItem (u8 (u64 (fa_ConvertType args))) (HexToHash (fa_TxHash args)) in
  HasItem u t (w_state w) = false ∧
  ∃ it, it ∈ ConvertItems t ∧ ci_ConvertType it = ui_Atype u ∧
    (∃ w1 w2, do_Load w = Ret (Ok t, w1) ∧
       verifyConfirmEthereumTypeTx t (ui_Atype u) (ui_TxHash u)
         (isForked (CIP_2 (evm_config evm)) (evm_BlockNumber evm)) w1 = Ret (Ok it, w2)) ∧
    (table_fits (confirmed t it u) → P (confirmed t it u) → moves (confirmed t it u) zero_ w w').
Proof.
  intros Hh Hu H u. unfold confirm, of_option at 1 in H. rewrite Hu, bind_ret in H. cbv beta zeta in H.
  inv_bind H t1 w1 H1. known H1 (do_Load_step t w Hh) M1.
  inv_bind H used w2 H2. injection H2 as <- <-. inv_guard H. fold u in G. cbn [w_state] in G.
  assert (moves t zero_ w (mkWorld (w_state w0) (w_cache w0))) as M1' by by destruct w0.
  split. { unfold HasItem, isItemFromDB, HasRecord in *. by rewrite (mv_records _ _ _ _ M1) in G. }
  inv_bind H it w3 H3. pose proof H3 as Hv. apply verifyConfirm_inv in H3 as (-> & Hin & Hct & _). exists it.
  split; [done|]. split; [done|]. split.
  { exists w0, (mkWorld (w_state w0) (w_cache w0)). split; [done|]. by destruct w0. }
  intros Hf' HP'.
  inv_bind H u5 w5 H5. fold u in H5. fold (confirmed t it u) in H5.
  known H5 (do_Save_step t (confirmed t it u) _ (mv_holds _ _ _ _ M1') Hf' HP') M5.
  apply emit_inv with (t := confirmed t it u) in H; [|apply (mv_holds _ _ _ _ M5)].
  eapply moves_ext; [|exact (moves_trans _ _ _ _ _ _ _ (moves_trans _ _ _ _ _ _ _ M1' M5) H)].
  intros b. unfold plus_, zero_. lia.
Qed.

End Proofs.
