(* ===== verification/TeWakaSpec.v ===== *)
(** * The Te Waka contract as a transition system

    An abstract state has the table, a balance per account and the set of
    used transactions.  The steps say what the protocol allows.  Every
    successful call of the precompile refines a step, and the protocol's
    guarantees are proved on the steps by rule induction. *)
From Stdlib Require Import Ascii String.
From S2P Require Import Prelude Common RlpEncode RlpDecode AccessList StateObject StateDB.
From S2P Require Import StateRevert StateBalance TeWaka TeWakaVm TeWakaProofs.
Import Enc Dec Bytes.
Open Scope Z_scope.

(** ** States and steps *)

Record abs := mkAbs {
  ab_table : TeWakaImpl;
  ab_bal : address → Z;
  ab_used : UsedItem → bool
}.

Section Steps.
Context {X : TwExt}.

Definition moved (a : abs) (d : address → Z) (a' : abs) : Prop := ∀ b, ab_bal a' b = ab_bal a b + d b.
Definition same_used (a a' : abs) : Prop := ∀ u, ab_used a' u = ab_used a u.
Definition marks (a : abs) (u : UsedItem) (a' : abs) : Prop :=
  ab_used a u = false ∧ ∀ v, ab_used a' v = ab_used a v || bool_decide (v = u).

(** A step is labelled with the transaction it uses up, if any. *)
Inductive astep : abs → option UsedItem → abs → Prop :=
| astep_mortgage a a' from args :
    mortgage_allowed from args (ab_table a) (ab_bal a from) = true →
    ab_table a' = mortgaged from args (ab_table a) →
    moved a (transfer_ from (ma_ToAddress args) (ma_StakingAmount args)) a' → same_used a a' →
    astep a None a'
| astep_update a a' from args item :
    GetStakeUser from (ab_table a) = Some item →
    0 ≤ ua_StakingAmount args →
    (0 < ua_StakingAmount args → mimStakingAmount ≤ ua_StakingAmount args ≤ ab_bal a from) →
    ab_table a' = updated from args (ab_table a) →
    moved a (transfer_ from (pl_ToAddress item) (ua_StakingAmount args)) a' → same_used a a' →
    astep a None a'
| astep_convert a a' u pool dst amount :
    pool = CoinPools (ui_Atype u) → 0 ≤ amount → amount ≤ ab_bal a pool → marks a u a' →
    PledgeInfos (ab_table a') = PledgeInfos (ab_table a) →
    moved a (conversion pool dst amount) a' →
    astep a (Some u) a'
| astep_confirm a a' u item :
    item ∈ ConvertItems (ab_table a) → ci_ConvertType item = ui_Atype u → marks a u a' →
    ab_table a' = confirmed (ab_table a) item u → moved a zero_ a' →
    astep a (Some u) a'
| astep_casting a a' from pool item :
    0 ≤ ci_Amount item ≤ ab_bal a from →
    ab_table a' = Convert item (ab_table a) →
    moved a (conversion from pool (ci_Amount item)) a' → same_used a a' →
    astep a None a'
| astep_shift a a' :
    ab_table a' = shifted (ab_table a) → moved a zero_ a' → same_used a a' →
    astep a None a'.

Inductive arun : abs → list UsedItem → abs → Prop :=
| arun_nil a : arun a [] a
| arun_cons a l a1 ls a2 : astep a l a1 → arun a1 ls a2 → arun a (option_list l ++ ls) a2.

(** ** Guarantees *)

(** The total of a set of accounts that contains every account involved. *)
Fixpoint total (accts : list address) (bal : address → Z) : Z :=
  match accts with [] => 0 | a :: l => bal a + total l bal end.

Lemma total_add accts f g : total accts (λ b, f b + g b) = total accts f + total accts g.
Proof. induction accts as [|a l IH]; simpl; [done|]. rewrite IH. lia. Qed.

Lemma total_ext accts f g : (∀ b, f b = g b) → total accts f = total accts g.
Proof. intros H. induction accts as [|a l IH]; simpl; [done|]. by rewrite H, IH. Qed.

Lemma total_zero accts f : (∀ b, b ∈ accts → f b = 0) → total accts f = 0.
Proof.
  induction accts as [|a l IH]; simpl; [done|]. intros H. rewrite H by set_solver.
  rewrite IH; [done|]. intros b Hb. apply H. set_solver.
Qed.

Lemma total_add_at accts a x :
  NoDup accts → total accts (add_at a x) = if decide (a ∈ accts) then x else 0.
Proof.
  intros Hnd. induction Hnd as [|b l Hb Hnd IH]; cbn [total].
  { by rewrite decide_False by set_solver. }
  unfold add_at at 1. destruct (decide (b = a)) as [->|Hne].
  - rewrite decide_True by set_solver. rewrite total_zero; [lia|].
    intros c Hc. unfold add_at. rewrite decide_False; [done|]. by intros ->.
  - rewrite IH. destruct (decide (a ∈ l)), (decide (a ∈ b :: l)); (lia || set_solver).
Qed.

Lemma total_opp accts f : total accts (λ b, - f b) = - total accts f.
Proof. induction accts as [|a l IH]; simpl; [done|]. rewrite IH. lia. Qed.

Lemma transfer_total accts from to x :
  NoDup accts → (∀ b, b ∉ accts → transfer_ from to x b = 0) → total accts (transfer_ from to x) = 0.
Proof.
  intros Hnd Hout.
  rewrite (total_ext accts _ (λ b, add_at to x b + - add_at from x b)) by (intros b; unfold transfer_; lia).
  rewrite total_add, total_opp, !total_add_at by done.
  pose proof (Hout from) as Hf. pose proof (Hout to) as Ht. unfold transfer_, add_at in Hf, Ht.
  rewrite (decide_True _ _ (eq_refl from)) in Hf. rewrite (decide_True _ _ (eq_refl to)) in Ht.
  destruct (decide (to ∈ accts)) as [|Hto], (decide (from ∈ accts)) as [|Hfr]; try lia.
  - specialize (Hf Hfr). destruct (decide (from = to)) as [->|]; [done|lia].
  - specialize (Ht Hto). destruct (decide (to = from)) as [->|]; [done|lia].
Qed.

Lemma conversion_total accts pool dst x :
  NoDup accts → (∀ b, b ∉ accts → conversion pool dst x b = 0) → total accts (conversion pool dst x) = 0.
Proof.
  intros Hnd Hout. set (f := x / 1000) in *.
  rewrite (total_ext accts _ (λ b, (add_at dst (x - f) b + add_at Address0 f b) + - add_at pool x b))
    by (intros b; unfold conversion, f; lia).
  rewrite total_add, total_opp, total_add, !total_add_at by done.
  pose proof (Hout pool) as Hp. pose proof (Hout dst) as Hd. pose proof (Hout Address0) as H0.
  unfold conversion, add_at in Hp, Hd, H0. fold f in Hp, Hd, H0.
  destruct (decide (pool ∈ accts)) as [Ip|Ip], (decide (dst ∈ accts)) as [Id|Id],
    (decide (Address0 ∈ accts)) as [I0|I0]; try lia;
    repeat match goal with
    | H : ?a ∉ accts → _, I : ?a ∉ accts |- _ => specialize (H I)
    | H : ?a ∉ accts → _, I : ?a ∈ accts |- _ => clear H
    end;
    repeat match goal with H : context [decide ?Q] |- _ => destruct (decide Q) end;
    subst; (done || lia).
Qed.

(** Every step moves balances and creates none. *)
Lemma astep_moves a l a' : astep a l a' →
  ∃ d, moved a d a' ∧
    ((∃ from to x, d = transfer_ from to x) ∨ (∃ pool dst x, d = conversion pool dst x) ∨ d = zero_).
Proof. destruct 1; eauto 10. Qed.

Lemma astep_total a l a' accts :
  NoDup accts → astep a l a' → (∀ b, b ∉ accts → ab_bal a' b = ab_bal a b) →
  total accts (ab_bal a') = total accts (ab_bal a).
Proof.
  intros Hnd Hs Hout. destruct (astep_moves _ _ _ Hs) as (d & Hd & Hk).
  assert (∀ b, b ∉ accts → d b = 0) as Hz by (intros b Hb; specialize (Hd b); rewrite Hout in Hd by done; lia).
  rewrite (total_ext accts _ (λ b, ab_bal a b + d b)) by exact Hd. rewrite total_add.
  enough (total accts d = 0) by lia.
  destruct Hk as [(f & t & x & ->)|[(p & t & x & ->)| ->]].
  - by apply transfer_total.
  - by apply conversion_total.
  - by apply total_zero.
Qed.

(** Depositors and deposit addresses stay unique. *)
Lemma astep_unique a l a' : astep a l a' → pledges_unique (ab_table a) → pledges_unique (ab_table a').
Proof.
  destruct 1 as [a a' from args Hal Ht _ _|a a' from args item _ _ _ Ht _ _|a a' u pool dst amt _ _ _ _ Ht _
    |a a' u item _ _ _ Ht _|a a' from pool item _ Ht _ _|a a' Ht _ _]; intros Hu.
  - rewrite Ht. unfold mortgage_allowed in Hal. rewrite !andb_true_iff, !bool_decide_eq_true in Hal.
    apply Mortgage_unique; naive_solver.
  - rewrite Ht. unfold updated. destruct (16 <? _); [done|]. by apply Update_unique.
  - unfold pledges_unique. by rewrite Ht.
  - rewrite Ht. unfold confirmed, SetItem. by destruct (findItem _ _).
  - by rewrite Ht.
  - by rewrite Ht.
Qed.

Lemma astep_used a l a' u : astep a l a' → ab_used a u = true → ab_used a' u = true.
Proof.
  destruct 1 as [? ? ? ? ? ? ? Hs|? ? ? ? ? ? ? ? ? ? Hs|? ? ? ? ? ? ? ? ? [_ Hs] ? ?
    |? ? ? ? ? ? [_ Hs] ? ?|? ? ? ? ? ? ? ? Hs|? ? ? ? Hs]; intros Hu; rewrite Hs; try done; by rewrite Hu.
Qed.

Lemma arun_used a ls a' u : arun a ls a' → ab_used a u = true → ab_used a' u = true.
Proof. induction 1 as [|a l a1 ls a2 Hs Hr IH]; [done|]. intros Hu. by eapply IH, astep_used. Qed.

Lemma astep_label a u a' : astep a (Some u) a' → ab_used a u = false ∧ ab_used a' u = true.
Proof.
  inversion 1 as [| |? ? ? ? ? ? ? ? ? [Hn Hm] ? ?|? ? ? ? ? ? [Hn Hm] ? ?| |]; subst;
    (split; [done|]); rewrite Hm, (bool_decide_eq_true_2 (u = u)) by done; by rewrite orb_true_r.
Qed.

(** No transaction is used up twice in a run. *)
Lemma arun_nodup a ls a' :
  arun a ls a' → NoDup ls ∧ ∀ u, u ∈ ls → ab_used a u = false ∧ ab_used a' u = true.
Proof.
  induction 1 as [a|a l a1 ls a2 Hs Hr [IH1 IH2]]; [split; [constructor|set_solver]|].
  assert (∀ u, u ∈ ls → ab_used a u = false) as Hls.
  { intros u Hu. destruct (IH2 u Hu) as [H1 _]. destruct (ab_used a u) eqn:E; [|done].
    by rewrite (astep_used _ _ _ _ Hs E) in H1. }
  destruct l as [u|]; simpl.
  - destruct (astep_label _ _ _ Hs) as [Hn Hm]. split.
    + constructor; [|done]. intros Hin. destruct (IH2 u Hin). congruence.
    + intros v. rewrite elem_of_cons. intros [->|Hv].
      * split; [done|]. by eapply arun_used.
      * split; [by apply Hls|]. by apply IH2.
  - split; [done|]. intros v Hv. split; [by apply Hls|]. by apply IH2.
Qed.

(** A conversion never overdraws the pool, and a mortgage, an update or a
    casting never overdraws its sender. *)
Lemma astep_solvent a l a' : (∀ b, 0 ≤ ab_bal a b) → astep a l a' → ∀ b, 0 ≤ ab_bal a' b.
Proof.
  intros Hpos Hs b. specialize (Hpos b).
  destruct Hs as [a a' from args Hal _ Hm _|a a' from args item _ H0 Hle _ Hm _|a a' u pool dst amt _ H0 Hle _ _ Hm
    |a a' u item _ _ _ _ Hm|a a' from pool item [H0 Hle] _ Hm _|a a' _ Hm _]; rewrite Hm.
  - unfold mortgage_allowed in Hal. rewrite !andb_true_iff, !Z.leb_le in Hal.
    unfold transfer_, add_at. assert (0 ≤ mimStakingAmount) by done.
    destruct (decide (b = ma_ToAddress args)), (decide (b = from)) as [->|]; lia.
  - unfold transfer_, add_at. destruct (Z.eq_dec (ua_StakingAmount args) 0) as [->|].
    + destruct (decide _), (decide _); lia.
    + destruct Hle as [_ Hle]; [lia|].
      destruct (decide (b = pl_ToAddress item)), (decide (b = from)) as [->|]; lia.
  - unfold conversion, add_at. assert (0 ≤ amt / 1000 ≤ amt) by (split; [apply Z.div_pos; lia|apply Z.div_le_upper_bound; lia]).
    destruct (decide (b = dst)), (decide (b = Address0)), (decide (b = pool)) as [->|]; lia.
  - unfold zero_. lia.
  - unfold conversion, add_at. set (amt := ci_Amount item) in *.
    assert (0 ≤ amt / 1000 ≤ amt) by (split; [apply Z.div_pos; lia|apply Z.div_le_upper_bound; lia]).
    destruct (decide (b = pool)), (decide (b = Address0)), (decide (b = from)) as [->|]; lia.
  - unfold zero_. lia.
Qed.

End Steps.

(** ** Refinement *)

Section Refine.
Context {B : Backend} {BOk : BackendOk B} {L : Lru} {LOk : LruOk L} {X : TwExt} {XOk : TwExtOk X}.
Context (P : TeWakaImpl → Prop) (Hcf : collision_free P).

Definition alpha (t : TeWakaImpl) (w : world) : abs :=
  mkAbs t (bal (w_state w)) (λ u, HasItem u t (w_state w)).

Lemma HasItem_same t t' s s' u :
  UsedItems t' = UsedItems t → sd_records s' = sd_records s → HasItem u t' s' = HasItem u t s.
Proof. intros H1 H2. unfold HasItem, findItem, isItemFromDB, HasRecord. by rewrite H1, H2. Qed.

Lemma moves_same t t' d w w' :
  moves P t' d w w' → UsedItems t' = UsedItems t → same_used (alpha t w) (alpha t' w').
Proof. intros Hm Hu u. apply HasItem_same; [done|apply (mv_records _ _ _ _ _ Hm)]. Qed.

Lemma moves_moved t t' d w w' : moves P t' d w w' → moved (alpha t w) d (alpha t' w').
Proof. intros Hm b. apply (mv_bal _ _ _ _ _ Hm). Qed.

Lemma moves_marks t t0 d w w' u :
  moves P (SetItem u t0) d w w' → UsedItems t0 = UsedItems t → HasItem u t (w_state w) = false →
  marks (alpha t w) u (alpha (SetItem u t0) w').
Proof.
  intros Hm Hu Hn. split; [done|]. intros v. cbn [ab_used alpha]. apply eq_bool_prop_intro.
  rewrite !Is_true_true, orb_true_iff, !HasItem_spec, bool_decide_eq_true, SetItem_spec, Hu.
  rewrite (mv_records _ _ _ _ _ Hm). naive_solver.
Qed.

Lemma Update_used from cba t : UsedItems (snd (Update from cba t)) = UsedItems t.
Proof. unfold Update. by destruct (Update_loop _ _ _). Qed.

(** The table a call leaves, as a function of the call and of the world it
    starts in; the handler's own verifier says which item is meant. *)
Definition next_table (evm : Evm) (c : ContractRef) (name : string) (data : bytes)
    (t : TeWakaImpl) (w : world) : option TeWakaImpl :=
  if String.eqb name "mortgage" then
    args ← Unpack_mortgage data; Some (mortgaged (c_caller c) args t)
  else if String.eqb name "update" then
    args ← Unpack_update data; Some (updated (c_caller c) args t)
  else match do_Load w with
  | Ret (Ok _, w1) =>
      if String.eqb name "convert" then
        args ← Unpack_convert data;
        let u := mkUsedItem (u8 (u64 (ca_AssetType args))) (HexToHash (ca_TxHash args)) in
        match verifyConvertEthereumTypeTx (ui_Atype u) (ui_TxHash u) w1 with
        | Ret (Ok it, _) => Some (converted t it u)
        | _ => None
        end
      else if String.eqb name "confirm" then
        args ← Unpack_confirm data;
        let u := mkUsedItem (u8 (u64 (fa_ConvertType args))) (HexToHash (fa_TxHash args)) in
        match verifyConfirmEthereumTypeTx t (ui_Atype u) (ui_TxHash u)
                (isForked (CIP_2 (evm_config evm)) (evm_BlockNumber evm)) w1 with
        | Ret (Ok it, _) => Some (confirmed t it u)
        | _ => None
        end
      else if String.eqb name "casting" then
        args ← Unpack_casting data;
        Some (Convert (cast_item evm (c_caller c) args (nonce_of (w_state w1) (c_caller c))) t)
      else None
  | _ => None
  end.

(** What a call that returned means: when the table it computes can be stored
    and is one of the run, the new state holds it and a step was taken. *)
Definition refines (t : TeWakaImpl) (w : world) (t' : TeWakaImpl) (w' : world) : Prop :=
  table_fits t' → P t' → holds P t' w' ∧ ∃ l, astep (alpha t w) l (alpha t' w').

Lemma mortgage_refines evm c input t w w' :
  holds P t w → valid_addr (c_caller c) → mortgage evm c input w = Ret (Ok tt, w') →
  ∃ t', next_table evm c "mortgage" input t w = Some t' ∧ refines t w t' w'.
Proof.
  intros Hh Hc H. unfold next_table. cbn [String.eqb Ascii.eqb Bool.eqb].
  destruct (Unpack_mortgage input) as [args|] eqn:Hu.
  2:{ unfold mortgage, of_option in H. by rewrite Hu in H. }
  eexists. split; [reflexivity|]. intros Hf HP.
  destruct (PackEvent "mortgage" [VBytes (ma_PubKey args); addr_val (ma_ToAddress args);
     VBig (Some (ma_StakingAmount args)); VList (map addr_val (ma_CoinBaseAddress args))]) as [data|e] eqn:Hp.
  - pose proof (mortgage_run P Hcf evm c input args t w data Hh Hc Hu Hf HP Hp) as Hr.
    destruct (mortgage_allowed _ _ _ _) eqn:Hal.
    + destruct Hr as (w2 & E & Hm). rewrite E in H. injection H as <-. split; [apply Hm|]. exists None.
      eapply astep_mortgage; [exact Hal|done|by apply moves_moved|by eapply moves_same].
    + destruct Hr as (e & w2 & E & _). congruence.
  - exfalso. unfold mortgage, of_option in H. rewrite Hu, bind_ret in H. cbv beta zeta in H.
    repeat match type of H with mbind _ _ _ = _ => apply mbind_inv in H as (? & ? & _ & H) end.
    unfold emit, of_result in H. rewrite Hp in H. done.
Qed.

Lemma update_refines evm c input t w w' :
  holds P t w → valid_addr (c_caller c) → update evm c input w = Ret (Ok tt, w') →
  ∃ t', next_table evm c "update" input t w = Some t' ∧ refines t w t' w'.
Proof.
  intros Hh Hc H. unfold next_table. cbn [String.eqb Ascii.eqb Bool.eqb].
  destruct (Unpack_update input) as [args|] eqn:Hu.
  2:{ unfold update, of_option in H. by rewrite Hu in H. }
  eexists. split; [reflexivity|]. intros Hf HP.
  destruct (update_ok_inv P Hcf evm c input args t w w' Hh Hc Hu Hf HP H) as (it & Hg & Ha & Hm).
  split; [apply Hm|]. exists None. eapply (astep_update _ _ _ args it); try done.
  - by destruct (Unpack_update_ok _ _ Hu).
  - by apply moves_moved.
  - eapply moves_same; [done|]. unfold updated. destruct (16 <? _); [done|]. apply Update_used.
Qed.

Lemma convert_refines evm c input t w w' :
  holds P t w → convert evm c input w = Ret (Ok tt, w') →
  ∃ t', next_table evm c "convert" input t w = Some t' ∧ refines t w t' w'.
Proof.
  intros Hh H. unfold next_table. cbn [String.eqb Ascii.eqb Bool.eqb].
  destruct (Unpack_convert input) as [args|] eqn:Hu.
  2:{ unfold convert, of_option in H. by rewrite Hu in H. }
  destruct (convert_ok_inv P Hcf evm c input args t w w' Hh Hu H)
    as (Hn & it & dst & Hb & Hr & Hd & (w1 & w2 & -> & Hv) & Hm).
  set (u := mkUsedItem _ _) in *. unfold base.mbind, option_bind. cbv beta zeta. fold u. rewrite Hv.
  eexists. split; [reflexivity|]. intros Hf HP. specialize (Hm Hf HP). split; [apply Hm|]. exists (Some u).
  eapply (astep_convert _ _ u _ dst (ci_Amount it * Int10)); try done.
  - pose proof (bo_amount _ _ _ _ _ Hb). unfold Int10. lia.
  - apply (bo_pool _ _ _ _ _ Hb).
  - eapply moves_marks; [exact Hm| |done]. by destruct (ci_ConvertType it =? 0).
  - cbn [ab_table alpha]. unfold converted, SetItem.
    destruct (ci_ConvertType it =? 0); by destruct (findItem _ _).
  - by apply moves_moved.
Qed.

Lemma confirm_refines evm c input t w w' :
  holds P t w → confirm evm c input w = Ret (Ok tt, w') →
  ∃ t', next_table evm c "confirm" input t w = Some t' ∧ refines t w t' w'.
Proof.
  intros Hh H. unfold next_table. cbn [String.eqb Ascii.eqb Bool.eqb].
  destruct (Unpack_confirm input) as [args|] eqn:Hu.
  2:{ unfold confirm, of_option in H. by rewrite Hu in H. }
  destruct (confirm_ok_inv P Hcf evm c input args t w w' Hh Hu H)
    as (Hn & it & Hin & Hct & (w1 & w2 & -> & Hv) & Hm).
  set (u := mkUsedItem _ _) in *. unfold base.mbind, option_bind. cbv beta zeta. fold u. rewrite Hv.
  eexists. split; [reflexivity|]. intros Hf HP. specialize (Hm Hf HP). split; [apply Hm|]. exists (Some u).
  eapply (astep_confirm _ _ u it); try done; [|by apply moves_moved].
  by eapply moves_marks.
Qed.

Lemma casting_refines evm c input t w w' :
  holds P t w → valid_addr (c_caller c) → casting evm c input w = Ret (Ok tt, w') →
  ∃ t', next_table evm c "casting" input t w = Some t' ∧ refines t w t' w'.
Proof.
  intros Hh Hc H. unfold next_table. cbn [String.eqb Ascii.eqb Bool.eqb].
  destruct (Unpack_casting input) as [args|] eqn:Hu.
  2:{ unfold casting, of_option in H. by rewrite Hu in H. }
  destruct (casting_ok_inv P Hcf evm c input args t w w' Hh Hc Hu H) as (Ha & H0 & w1 & -> & Hm).
  set (it := cast_item evm (c_caller c) args (nonce_of (w_state w1) (c_caller c))) in *.
  unfold base.mbind, option_bind. cbv beta zeta. fold it. eexists. split; [reflexivity|]. intros Hf HP. specialize (Hm Hf HP).
  split; [apply Hm|]. exists None.
  eapply (astep_casting _ _ (c_caller c) _ it); [done|done|by apply moves_moved|by eapply moves_same].
Qed.

(** A successful call of the precompile, the two forwarding methods aside,
    refines a step. *)
Lemma RunStaking_refines call evm c input name t w w' :
  holds P t w → valid_addr (c_caller c) → MethodById input = Some name →
  name ≠ "crossToMainChainMap"%string → name ≠ "betweenSideChainCrossMap"%string →
  RunStaking call evm c input w = Ret (Ok tt, w') →
  ∃ t', next_table evm c name (drop 4 input) t w = Some t' ∧ refines t w t' w'.
Proof.
  intros Hh Hc Hn H1 H2 H. unfold RunStaking in H. rewrite Hn in H. cbv zeta in H.
  match type of H with match ?m w with _ => _ end = _ => destruct (m w) as [[[[]|e] w2]|] eqn:E end;
    [|done|done]. injection H as ->.
  destruct (String.eqb_spec name "mortgage") as [->|]; [by apply mortgage_refines|].
  destruct (String.eqb_spec name "update") as [->|]; [by apply update_refines|].
  destruct (String.eqb_spec name "convert") as [->|];
    [destruct (isForked _ _); cbn [negb] in E; [done|by apply convert_refines]|].
  destruct (String.eqb_spec name "confirm") as [->|];
    [destruct (isForked _ _); cbn [negb] in E; [done|by apply confirm_refines]|].
  destruct (String.eqb_spec name "casting") as [->|];
    [destruct (isForked _ _); cbn [negb] in E; [done|by apply casting_refines]|].
  destruct (String.eqb_spec name "crossToMainChainMap"); [done|].
  destruct (String.eqb_spec name "betweenSideChainCrossMap"); done.
Qed.

Lemma ShiftItems_refines t w height :
  holds P t w → height mod DumpHeight = 0 → table_fits (shifted t) → P (shifted t) →
  ∃ w', ShiftItems height w = Ret w' ∧ holds P (shifted t) w' ∧
    astep (alpha t w) None (alpha (shifted t) w').
Proof.
  intros [Hi Hst Hca Hf HP] Hh Hf' HP'.
  destruct (ShiftItems_spec P t w height Hi Hf HP HP' Hcf Hca Hst Hh Hf') as (w' & E & S1 & S2 & S3 & S4 & S5).
  exists w'. split; [done|]. split; [by split|]. apply astep_shift; [done| |done].
  intros b. cbn [ab_bal alpha]. rewrite S4. unfold zero_. lia.
Qed.

End Refine.
