(* ===== verification/TeWakaRun.v ===== *)
(** * Guarantees of the Te Waka precompile over calls and runs

    The protocol's guarantees, stated on the precompile itself through the
    refinement: what a successful call does to balances and tables, and that
    a foreign transaction is never converted twice, whatever happens between
    the two attempts.  The last part instantiates the interfaces. *)
From Stdlib Require Import Ascii String.
From S2P Require Import Prelude Common RlpEncode RlpDecode AccessList StateObject Concrete StateDB.
From S2P Require Import StateRevert StateBalance TeWaka TeWakaVm TeWakaProofs TeWakaSpec.
Import Enc Dec Bytes.
Open Scope Z_scope.

Section Runs.
Context {B : Backend} {BOk : BackendOk B} {L : Lru} {LOk : LruOk L} {X : TwExt} {XOk : TwExtOk X}.
Context (P : TeWakaImpl → Prop) (Hcf : collision_free P).

(** A successful call of a method other than the two forwarding ones, with the
    table it leaves. *)
Record call_ok (t : TeWakaImpl) (w : world) (t' : TeWakaImpl) (w' : world) : Prop := mkCallOk {
  co_run : ∃ call evm c input name,
    valid_addr (c_caller c) ∧ MethodById input = Some name ∧
    name ≠ "crossToMainChainMap"%string ∧ name ≠ "betweenSideChainCrossMap"%string ∧
    RunStaking call evm c input w = Ret (Ok tt, w') ∧
    next_table evm c name (drop 4 input) t w = Some t';
  co_fits : table_fits t';
  co_P : P t'
}.

Lemma call_step t w t' w' :
  holds P t w → call_ok t w t' w' → holds P t' w' ∧ ∃ l, astep (alpha t w) l (alpha t' w').
Proof.
  intros Hh [(call & evm & c & input & name & Hc & Hn & H1 & H2 & H & Ht) Hf HP].
  destruct (RunStaking_refines P Hcf call evm c input name t w w' Hh Hc Hn H1 H2 H) as (t2 & E & Hr).
  rewrite Ht in E. injection E as <-. by apply Hr.
Qed.

(** A history of the contract: its own calls, epoch shifts, and anything else
    that leaves its storage and the records alone. *)
Inductive history : TeWakaImpl → world → TeWakaImpl → world → Prop :=
| history_refl t w : history t w t w
| history_call t w t1 w1 t2 w2 : call_ok t w t1 w1 → history t1 w1 t2 w2 → history t w t2 w2
| history_shift t w w1 t2 w2 height :
    height mod DumpHeight = 0 → table_fits (shifted t) → P (shifted t) →
    ShiftItems height w = Ret w1 → history (shifted t) w1 t2 w2 → history t w t2 w2
| history_other t w w1 t2 w2 :
    holds P t w1 → sd_records (w_state w1) = sd_records (w_state w) →
    history t w1 t2 w2 → history t w t2 w2.

Lemma history_keeps t w t' w' u :
  history t w t' w' → holds P t w → HasItem u t (w_state w) = true →
  holds P t' w' ∧ HasItem u t' (w_state w') = true.
Proof.
  induction 1 as [t w|t w t1 w1 t2 w2 Hc _ IH|t w w1 t2 w2 height Hh Hf HP E _ IH|t w w1 t2 w2 Ho Hrec _ IH];
    intros Hh0 Hu.
  - exact (conj Hh0 Hu).
  - destruct (call_step _ _ _ _ Hh0 Hc) as [Hh1 [l Hs]]. apply IH; [exact Hh1|].
    exact (astep_used _ _ _ u Hs Hu).
  - destruct (ShiftItems_refines P Hcf t w height Hh0 Hh Hf HP) as (w3 & E3 & Hh3 & Hs).
    rewrite E in E3. injection E3 as <-. apply IH; [exact Hh3|]. exact (astep_used _ _ _ u Hs Hu).
  - apply IH; [exact Ho|]. by rewrite <- Hu; apply HasItem_same.
Qed.

Lemma convert_marks evm c input args t w w' :
  holds P t w → Unpack_convert input = Some args → convert evm c input w = Ret (Ok tt, w') →
  ∀ t', next_table evm c "convert" input t w = Some t' → table_fits t' → P t' →
  holds P t' w' ∧
  HasItem (mkUsedItem (u8 (u64 (ca_AssetType args))) (HexToHash (ca_TxHash args))) t' (w_state w') = true.
Proof.
  intros Hh Hu H t' Ht Hf HP.
  destruct (convert_ok_inv P Hcf evm c input args t w w' Hh Hu H)
    as (_ & it & dst & _ & _ & _ & (w1 & w2 & E1 & Hv) & Hm).
  set (u := mkUsedItem _ _) in *. unfold next_table in Ht. cbn [String.eqb Ascii.eqb Bool.eqb] in Ht.
  rewrite E1, Hu in Ht. unfold base.mbind, option_bind in Ht. cbv beta zeta in Ht. fold u in Ht.
  rewrite Hv in Ht. injection Ht as <-. specialize (Hm Hf HP). split; [apply Hm|].
  apply HasItem_spec. left. unfold converted. rewrite SetItem_spec. by right.
Qed.

(** Two successful conversions of one transaction, under known asset types,
    name chains whose contracts share an address. *)
Lemma convert_chains evm c input args t w w1 evm2 c2 input2 args2 t2 w2 w3 :
  holds P t w → Unpack_convert input = Some args → convert evm c input w = Ret (Ok tt, w1) →
  holds P t2 w2 → Unpack_convert input2 = Some args2 → convert evm2 c2 input2 w2 = Ret (Ok tt, w3) →
  HexToHash (ca_TxHash args2) = HexToHash (ca_TxHash args) →
  1 ≤ u8 (u64 (ca_AssetType args)) ≤ 7 → 1 ≤ u8 (u64 (ca_AssetType args2)) ≤ 7 →
  same_pool (u8 (u64 (ca_AssetType args))) (u8 (u64 (ca_AssetType args2))) = true.
Proof.
  intros Hh Hu H Hh2 Hu2 H2 E Ha Ha2.
  destruct (convert_ok_inv P Hcf _ _ _ _ _ _ _ Hh Hu H) as (_ & it & dst & _ & _ & _ & (v1 & v2 & _ & Hv) & _).
  destruct (convert_ok_inv P Hcf _ _ _ _ _ _ _ Hh2 Hu2 H2) as (_ & it2 & dst2 & _ & _ & _ & (v3 & v4 & _ & Hv2) & _).
  cbn [ui_Atype ui_TxHash] in Hv, Hv2. rewrite E in Hv2.
  apply verifyConvert_to in Hv as (tx & x1 & x2 & u & Htx & C1).
  apply verifyConvert_to in Hv2 as (tx' & x3 & x4 & u' & Htx' & C2).
  rewrite Htx in Htx'. injection Htx' as <-. by eapply CheckToAddress_chains.
Qed.

Lemma same_pool_spec a b :
  same_pool a b = true →
  a = b ∨ (a, b) = (ExpandedTxConvert_OCzz, ExpandedTxConvert_MCzz)
  ∨ (a, b) = (ExpandedTxConvert_MCzz, ExpandedTxConvert_OCzz).
Proof.
  unfold same_pool. rewrite !orb_true_iff, !andb_true_iff, !Z.eqb_eq. naive_solver.
Qed.

End Runs.

(** ** Claims *)

Section Claims.
Context {B : Backend} {BOk : BackendOk B} {L : Lru} {LOk : LruOk L} {X : TwExt} {XOk : TwExtOk X}.

(** C14: the precompile refines the protocol: a successful call, started in a
    world that holds table [t], leaves the world holding the table the call
    computes, and the two abstract states are related by one step of the
    protocol, which says what each method may do to table, balances and used
    transactions. *)
Theorem RunStaking_refines_protocol (P : TeWakaImpl → Prop) call evm c input name t w w' :
  collision_free P → holds P t w → valid_addr (c_caller c) → MethodById input = Some name →
  name ≠ "crossToMainChainMap"%string → name ≠ "betweenSideChainCrossMap"%string →
  RunStaking call evm c input w = Ret (Ok tt, w') →
  ∃ t', next_table evm c name (drop 4 input) t w = Some t' ∧
    (table_fits t' → P t' → holds P t' w' ∧ ∃ l, astep (alpha t w) l (alpha t' w')).
Proof. intros Hcf. by apply RunStaking_refines. Qed.

(** C15: a foreign transaction is converted at most once for an asset type:
    after a conversion of it succeeded, and after any history of further
    calls, epoch shifts and unrelated changes, a second conversion of it under
    the same asset type is refused as already converted and moves no balance;
    and a second conversion under another of the seven known asset types never
    succeeds either, except between OEC and Metis, whose contracts share an
    address.  (Types outside the seven skip the recipient check: see
    [unknown_type_converts_again].) *)
Theorem no_double_conversion (P : TeWakaImpl → Prop) evm c input args t w w1 t1 t2 w2 evm2 c2 input2 args2 :
  collision_free P → holds P t w → Unpack_convert input = Some args →
  convert evm c input w = Ret (Ok tt, w1) →
  next_table evm c "convert" input t w = Some t1 → table_fits t1 → P t1 →
  history P t1 w1 t2 w2 →
  Unpack_convert input2 = Some args2 →
  HexToHash (ca_TxHash args2) = HexToHash (ca_TxHash args) →
  let a1 := u8 (u64 (ca_AssetType args)) in let a2 := u8 (u64 (ca_AssetType args2)) in
  (a2 = a1 →
   ∃ w3, convert evm2 c2 input2 w2 = Ret (Err ErrTxhashAlreadyInput, w3) ∧
     ∀ b, bal (w_state w3) b = bal (w_state w2) b) ∧
  (1 ≤ a1 ≤ 7 → 1 ≤ a2 ≤ 7 →
   (a1, a2) ∉ [(ExpandedTxConvert_OCzz, ExpandedTxConvert_MCzz); (ExpandedTxConvert_MCzz, ExpandedTxConvert_OCzz)] →
   ∀ w3, convert evm2 c2 input2 w2 ≠ Ret (Ok tt, w3)).
Proof.
  intros Hcf Hh Hu H Ht Hf HP Hhist Hu2 E2 a1 a2.
  destruct (convert_marks P Hcf evm c input args t w w1 Hh Hu H t1 Ht Hf HP) as [Hh1 Hused].
  destruct (history_keeps P Hcf _ _ _ _ _ Hhist Hh1 Hused) as [Hh2 Hused2].
  rewrite <- E2 in Hused2. fold a1 in Hused2.
  assert (a2 = a1 → ∃ w3, convert evm2 c2 input2 w2 = Ret (Err ErrTxhashAlreadyInput, w3) ∧
    ∀ b, bal (w_state w3) b = bal (w_state w2) b) as Hsame.
  { intros E1. rewrite <- E1 in Hused2.
    destruct (convert_refuses_used P Hcf evm2 c2 input2 args2 t2 w2 Hh2 Hu2 Hused2) as (w3 & E & Hm).
    exists w3. split; [exact E|]. intros b. rewrite (mv_bal _ _ _ _ _ Hm). unfold zero_. lia. }
  split; [exact Hsame|]. intros Ha1 Ha2 Hne w3 Hw3.
  pose proof (convert_chains P Hcf _ _ _ _ _ _ _ _ _ _ _ _ _ _ Hh Hu H Hh2 Hu2 Hw3 E2 Ha1 Ha2) as Hs.
  apply same_pool_spec in Hs as [Hs|[Hs|Hs]].
  - destruct (Hsame (eq_sym Hs)) as (w4 & E & _). congruence.
  - apply Hne. fold a1 a2 in Hs. rewrite Hs. left.
  - apply Hne. fold a1 a2 in Hs. rewrite Hs. right. left.
Qed.

(** C16: a successful call creates and destroys no coin: over any set of
    accounts outside which nothing changed, the total of the balances is the
    same before and after. *)
Theorem call_conserves_total (P : TeWakaImpl → Prop) t w t' w' accts :
  collision_free P → holds P t w → call_ok P t w t' w' →
  NoDup accts → (∀ b, b ∉ accts → bal (w_state w') b = bal (w_state w) b) →
  total accts (bal (w_state w')) = total accts (bal (w_state w)).
Proof.
  intros Hcf Hh Hc Hnd Hout. destruct (call_step P Hcf _ _ _ _ Hh Hc) as [_ [l Hs]].
  exact (astep_total _ _ _ accts Hnd Hs Hout).
Qed.

(** C17: a successful call never drives a balance negative: a mortgage, an
    update or a casting pays at most what its sender has, a conversion at most
    what its pool has. *)
Theorem call_never_overdraws (P : TeWakaImpl → Prop) t w t' w' :
  collision_free P → holds P t w → call_ok P t w t' w' →
  (∀ b, 0 ≤ bal (w_state w) b) → ∀ b, 0 ≤ bal (w_state w') b.
Proof.
  intros Hcf Hh Hc Hpos. destruct (call_step P Hcf _ _ _ _ Hh Hc) as [_ [l Hs]].
  exact (astep_solvent (alpha t w) _ (alpha t' w') Hpos Hs).
Qed.

(** No two pledges share a depositor or a deposit address, and every
    successful call preserves this. *)
Lemma call_keeps_pledges_unique (P : TeWakaImpl → Prop) t w t' w' :
  collision_free P → holds P t w → call_ok P t w t' w' →
  pledges_unique t → pledges_unique t'.
Proof.
  intros Hcf Hh Hc Hu. destruct (call_step P Hcf _ _ _ _ Hh Hc) as [_ [l Hs]].
  exact (astep_unique _ _ _ Hs Hu).
Qed.

(** [mortgage] on every branch: it succeeds exactly when the amount
    reaches the minimum, the key parses, neither the sender nor the deposit
    address is pledged already, at most 16 coinbases are named and the sender
    has the amount; then the pledge is appended and stored and the amount
    moves from the sender to the deposit address; otherwise it fails and no
    balance changes. *)
Lemma mortgage_behaviour (P : TeWakaImpl → Prop) evm c input args t w data :
  collision_free P → holds P t w → valid_addr (c_caller c) → Unpack_mortgage input = Some args →
  table_fits (mortgaged (c_caller c) args t) → P (mortgaged (c_caller c) args t) →
  PackEvent "mortgage" [VBytes (ma_PubKey args); addr_val (ma_ToAddress args);
     VBig (Some (ma_StakingAmount args)); VList (map addr_val (ma_CoinBaseAddress args))] = Ok data →
  if mortgage_allowed (c_caller c) args t (bal (w_state w) (c_caller c)) then
    ∃ w', mortgage evm c input w = Ret (Ok tt, w') ∧ holds P (mortgaged (c_caller c) args t) w' ∧
      ∀ b, bal (w_state w') b = bal (w_state w) b +
        (if decide (b = ma_ToAddress args) then ma_StakingAmount args else 0) -
        (if decide (b = c_caller c) then ma_StakingAmount args else 0)
  else ∃ e w', mortgage evm c input w = Ret (Err e, w') ∧ ∀ b, bal (w_state w') b = bal (w_state w) b.
Proof.
  intros Hcf Hh Hc Hu Hf HP Hp.
  pose proof (mortgage_run P Hcf evm c input args t w data Hh Hc Hu Hf HP Hp) as Hr.
  destruct (mortgage_allowed _ _ _ _); [|exact Hr]. destruct Hr as (w' & E & Hm).
  exists w'. split; [exact E|]. split; [apply Hm|]. intros b. rewrite (mv_bal _ _ _ _ _ Hm).
  unfold transfer_, add_at. lia.
Qed.

(** [convert] of a transaction that has no embedded receipt and was not
    used before dereferences a nil item: the call panics instead of failing. *)
Lemma convert_without_receipt_panics (P : TeWakaImpl → Prop) evm c input args t w :
  collision_free P → holds P t w → Unpack_convert input = Some args →
  HasItem (mkUsedItem (u8 (u64 (ca_AssetType args))) (HexToHash (ca_TxHash args))) t (w_state w) = false →
  receiptMap (HexToHash (ca_TxHash args)) = None →
  convert evm c input w = Panic.
Proof. intros Hcf. by apply convert_unknown_panics. Qed.

(** With [VerifySwitch] on, the two forwarding methods hand the verifier
    an argument they have not unpacked yet: every call of them panics. *)
Lemma forwarding_panics call evm c input w name :
  VerifySwitch (evm_config evm) = true → MethodById input = Some name →
  name = "crossToMainChainMap"%string ∨ name = "betweenSideChainCrossMap"%string →
  RunStaking call evm c input w = Panic.
Proof.
  intros Hv Hn Hor. unfold RunStaking. rewrite Hn. cbv zeta.
  destruct Hor as [-> | ->]; cbn [String.eqb Ascii.eqb Bool.eqb];
    unfold crossToMainChainMap, betweenSideChainCrossMap; by rewrite Hv.
Qed.

(** With it off they fail on their arguments, so no call of them succeeds. *)
Lemma forwarding_fails call evm c input w name :
  VerifySwitch (evm_config evm) = false → MethodById input = Some name →
  name = "crossToMainChainMap"%string ∨ name = "betweenSideChainCrossMap"%string →
  RunStaking call evm c input w = Ret (Err ErrExecutionReverted, w).
Proof.
  intros Hv Hn Hor. unfold RunStaking. rewrite Hn. cbv zeta.
  destruct Hor as [-> | ->]; cbn [String.eqb Ascii.eqb Bool.eqb];
    unfold crossToMainChainMap, betweenSideChainCrossMap; by rewrite Hv.
Qed.

End Claims.

(** ** A concrete instance *)

Definition demo_log : Log := mkLog 5 [burnTopics] [1] 0 0 0 0 0 false.
Definition demo_tx : Transaction :=
  mkTransaction (Some 0xa9bDC85F01Aa9E7167E26189596f9a9E2cE67215) 37 5 6 0 1.
Definition demo_tx_oec : Transaction :=
  mkTransaction (Some 0x007c98F9f2c70746a64572E67FBCc41a2b8bba18) 37 5 6 0 1.

#[export] Instance DemoExt : TwExt := {|
  Pub := Z;
  DecompressPubkey b := if bool_decide (length b = 1%nat) then Some (be_decode b) else None;
  UnmarshalPubkey b := if bool_decide (length b = 2%nat) then Some (be_decode b) else None;
  PubkeyToAddress p := p mod 2 ^ 160;
  Ecrecover _ _ := Some [1; 2];
  SigHash _ _ := 3;
  MethodById b := match b with
    | 1 :: _ => Some "mortgage"%string
    | 2 :: _ => Some "convert"%string
    | 3 :: _ => Some "crossToMainChainMap"%string
    | _ => None
    end;
  Unpack_mortgage b := match b with [] => None | _ => Some (mkMortgageArgs [4] 300 mimStakingAmount [7]) end;
  Unpack_update _ := None;
  Unpack_convert b := match b with
    | [] => None
    | 9 :: _ => Some (mkConvertArgs 1 "0x99")
    | 8 :: _ => Some (mkConvertArgs 8 "0x4d")
    | 4 :: _ => Some (mkConvertArgs 4 "0x4e")
    | 6 :: _ => Some (mkConvertArgs 6 "0x4e")
    | _ => Some (mkConvertArgs 1 "0x4d")
    end;
  Unpack_confirm _ := None;
  Unpack_casting _ := None;
  Unpack_BurnToken _ := Some (mkBurnLog 0 5000 0 0 [] 0 0 false []);
  Unpack_MintToken _ := None;
  PackEvent _ _ := Ok [];
  EventID _ := 1;
  PackV3 _ _ := [];
  receiptMap h := if (h =? 77) || (h =? 78) then Some (mkReceipt 1 [demo_log]) else None;
  transactionMap h := if h =? 77 then Some demo_tx else if h =? 78 then Some demo_tx_oec else None
|}.

#[export] Instance DemoExtOk : TwExtOk DemoExt.
Proof.
  split; simpl; try done.
  - intros p. apply Z.mod_pos_bound. lia.
  - intros _ _ pk [= <-]. by repeat constructor.
  - intros [|? ?] a; [done|]. intros [= <-]. simpl. by repeat constructor.
  - intros _ a [= <-]. simpl. by repeat constructor.
Qed.

Definition tw_state : StateDB := AddBalance 101 (10 ^ 30) (AddBalance 7 (2 * mimStakingAmount) genesis_state).
Definition tw_start : world := mkWorld tw_state (∅ : gmap hash TeWakaImpl).
Definition tw_world : world :=
  match Save TeWaKaAddress NewTeWakaImpl tw_start with Ret w => w | Panic => tw_start end.

Definition demo_args : MortgageArgs := mkMortgageArgs [4] 300 mimStakingAmount [7].
Definition table_m : TeWakaImpl := mortgaged 7 demo_args NewTeWakaImpl.
Definition table_c : TeWakaImpl := mkTeWakaImpl [] [] [mkUsedItem 1 77].
Definition tw_run (t : TeWakaImpl) : Prop := t = NewTeWakaImpl ∨ t = table_m ∨ t = table_c.

Lemma tw_fits t : tw_run t → table_fits t.
Proof.
  assert (pledge_ok (mkPledge 7 [4] 300 mimStakingAmount [7])) as Hp.
  { split; [split; simpl; lia|]. split; [by apply Forall_singleton|]. split; [split; simpl; lia|].
    split; [done|]. apply Forall_singleton. split; lia. }
  assert (used_ok (mkUsedItem 1 77)) as Hu by (split; split; simpl; lia).
  intros [->|[->| ->]]; (split; [|vm_compute; reflexivity]); split;
    try apply Forall_nil_2; by apply Forall_singleton.
Qed.

Lemma tw_collision_free : collision_free tw_run.
Proof.
  assert (blob_hash NewTeWakaImpl ≠ blob_hash table_m) as H1 by (vm_compute; discriminate).
  assert (blob_hash NewTeWakaImpl ≠ blob_hash table_c) as H2 by (vm_compute; discriminate).
  assert (blob_hash table_m ≠ blob_hash table_c) as H3 by (vm_compute; discriminate).
  intros t1 t2 [->|[->| ->]] [->|[->| ->]] E; try reflexivity; exfalso;
    first [exact (H1 E)|exact (H2 E)|exact (H3 E)|exact (H1 (eq_sym E))|exact (H2 (eq_sym E))|exact (H3 (eq_sym E))].
Qed.

Lemma small_valid a : 0 ≤ a ≤ 1000 → valid_addr a.
Proof. unfold valid_addr. lia. Qed.

Lemma tw_state_inv : inv tw_state.
Proof.
  unfold tw_state. apply AddBalance_inv; [apply AddBalance_inv; [exact genesis_inv|]|]; apply small_valid; lia.
Qed.

Lemma tw_holds : holds tw_run NewTeWakaImpl tw_world.
Proof.
  assert (table_fits NewTeWakaImpl) as Hf by (apply tw_fits; left; reflexivity).
  destruct (Save_spec TeWaKaAddress NewTeWakaImpl tw_start tw_state_inv TeWaKaAddress_valid Hf)
    as (w & E & S1 & S2 & _ & _ & S5).
  unfold tw_world. rewrite E. split; [exact S1|exact S2| |exact Hf|left; reflexivity].
  rewrite S5. apply cache_ok_add; [exact tw_collision_free|left; reflexivity|].
  intros t t' _ H. cbn [Cache_Get MapLru w_cache tw_start] in H. rewrite lookup_empty in H. discriminate H.
Qed.

(** The world a run ends in. *)
Definition after {A} (r : outcome (A * world)) : world := match r with Ret (_, w) => w | Panic => tw_start end.
Definition succeeded (r : outcome (result string () * world)) : bool :=
  match r with Ret (Ok _, _) => true | _ => false end.

Lemma succeeded_after r : succeeded r = true → r = Ret (Ok tt, after r).
Proof. by destruct r as [[[[]|] ?]|]. Qed.

Definition demo_evm : Evm := mkEvm (mkChainConfig None None None true) 5.
Definition demo_ref : ContractRef := mkContractRef 7 TeWaKaAddress.
Definition no_call : CallBack := λ _ _ _ _ _, mfail "depth".
Definition run_m := RunStaking no_call demo_evm demo_ref [1; 0; 0; 0; 1] tw_world.
Definition run_c := convert demo_evm demo_ref [1] tw_world.

Lemma run_m_ok : run_m = Ret (Ok tt, after run_m).
Proof. apply succeeded_after. vm_compute. reflexivity. Qed.
Lemma run_c_ok : run_c = Ret (Ok tt, after run_c).
Proof. apply succeeded_after. vm_compute. reflexivity. Qed.

Lemma next_m : next_table demo_evm demo_ref "mortgage" [1] NewTeWakaImpl tw_world = Some table_m.
Proof. vm_compute. reflexivity. Qed.
Lemma next_c : next_table demo_evm demo_ref "convert" [1] NewTeWakaImpl tw_world = Some table_c.
Proof. vm_compute. reflexivity. Qed.

Lemma call_m : call_ok tw_run NewTeWakaImpl tw_world table_m (after run_m).
Proof.
  split.
  - exists no_call, demo_evm, demo_ref, [1; 0; 0; 0; 1], "mortgage"%string.
    split; [apply small_valid; simpl; lia|]. split; [reflexivity|].
    split; [discriminate|]. split; [discriminate|]. exact (conj run_m_ok next_m).
  - apply tw_fits. right. left. reflexivity.
  - right. left. reflexivity.
Qed.

Lemma run_m_outside b : b ∉ [7; 300] → bal (w_state (after run_m)) b = bal (w_state tw_world) b.
Proof.
  rewrite !not_elem_of_cons. intros (H7 & H300 & _).
  assert (table_fits table_m) as Hf by (apply tw_fits; right; left; reflexivity).
  pose proof (mortgage_run tw_run tw_collision_free demo_evm demo_ref [1] demo_args NewTeWakaImpl tw_world []
    tw_holds (small_valid 7 ltac:(lia)) eq_refl Hf (or_intror (or_introl eq_refl)) eq_refl) as Hr.
  replace (mortgage_allowed _ _ _ _) with true in Hr by (vm_compute; reflexivity).
  destruct Hr as (w' & E & Hm).
  assert (run_m = Ret (Ok tt, w')) as E2.
  { unfold run_m, RunStaking. cbn [MethodById DemoExt String.eqb Ascii.eqb Bool.eqb drop]. by rewrite E. }
  assert (after run_m = w') as -> by exact (f_equal after E2). rewrite (mv_bal _ _ _ _ _ Hm).
  unfold transfer_, add_at. cbn [ma_ToAddress demo_args c_caller demo_ref].
  rewrite (decide_False (P := b = 300)) by exact H300. rewrite (decide_False (P := b = 7)) by exact H7.
  rewrite Z.sub_0_r, Z.add_0_r. reflexivity.
Qed.

(** The same world with coins credited to an account. *)
Definition funded (a : address) (w : world) : world := mkWorld (AddBalance a (10 ^ 30) (w_state w)) (w_cache w).

(** The transaction converted for Ethereum converts again, and pays again, as
    asset type 8: an unknown type skips the check of the recipient and draws
    on the zero address. *)
Example unknown_type_converts_again :
  let w := funded 0 (after run_c) in let w' := after (convert demo_evm demo_ref [8] w) in
  succeeded (convert demo_evm demo_ref [8] w) = true ∧
  bal (w_state w') (be_decode [1; 2]) - bal (w_state w) (be_decode [1; 2]) = 5000 * 10 ^ 10 - 5 * 10 ^ 10.
Proof. vm_compute. split; reflexivity. Qed.

(** OEC and Metis list the same contract address, so one transaction to it
    converts once for each. *)
Example shared_contract_converts_twice :
  let w := funded 106 (funded 104 tw_world) in
  succeeded (convert demo_evm demo_ref [4] w) = true ∧
  succeeded (convert demo_evm demo_ref [6] (after (convert demo_evm demo_ref [4] w))) = true.
Proof. vm_compute. split; reflexivity. Qed.

(** ** Witnesses *)

Lemma RunStaking_refines_protocol_witness :
  ∃ t', next_table demo_evm demo_ref "mortgage" [1] NewTeWakaImpl tw_world = Some t' ∧
    (table_fits t' → tw_run t' → holds tw_run t' (after run_m) ∧
       ∃ l, astep (alpha NewTeWakaImpl tw_world) l (alpha t' (after run_m))).
Proof.
  exact (RunStaking_refines_protocol tw_run no_call demo_evm demo_ref [1; 0; 0; 0; 1] "mortgage"
    NewTeWakaImpl tw_world (after run_m) tw_collision_free tw_holds (small_valid 7 ltac:(lia)) eq_refl
    ltac:(discriminate) ltac:(discriminate) run_m_ok).
Defined.

Lemma no_double_conversion_witness :
  ∃ w2 w3, ShiftItems 50000 (after run_c) = Ret w2 ∧
    convert demo_evm demo_ref [5] w2 = Ret (Err ErrTxhashAlreadyInput, w3).
Proof.
  assert (table_fits table_c) as Hf by (apply tw_fits; right; right; reflexivity).
  assert (tw_run table_c) as HP by (right; right; reflexivity).
  pose proof (convert_marks tw_run tw_collision_free demo_evm demo_ref [1] (mkConvertArgs 1 "0x4d")
    NewTeWakaImpl tw_world (after run_c) tw_holds eq_refl run_c_ok table_c next_c Hf HP) as [Hh _].
  assert (table_fits NewTeWakaImpl) as Hf0 by (apply tw_fits; left; reflexivity).
  destruct (ShiftItems_refines tw_run tw_collision_free table_c (after run_c) 50000 Hh eq_refl Hf0
    (or_introl eq_refl)) as (w2 & E2 & _ & _).
  pose proof (no_double_conversion tw_run demo_evm demo_ref [1] (mkConvertArgs 1 "0x4d") NewTeWakaImpl tw_world
    (after run_c) table_c NewTeWakaImpl w2 demo_evm demo_ref [5] (mkConvertArgs 1 "0x4d")
    tw_collision_free tw_holds eq_refl run_c_ok next_c Hf HP
    (history_shift tw_run table_c (after run_c) w2 NewTeWakaImpl w2 50000 eq_refl Hf0 (or_introl eq_refl) E2
       (history_refl tw_run NewTeWakaImpl w2))
    eq_refl eq_refl) as [Hsame _]. destruct (Hsame eq_refl) as (w3 & E3 & _).
  exists w2, w3. exact (conj E2 E3).
Defined.

Lemma call_conserves_total_witness :
  total [7; 300] (bal (w_state (after run_m))) = total [7; 300] (bal (w_state tw_world)).
Proof.
  exact (call_conserves_total tw_run NewTeWakaImpl tw_world table_m (after run_m) [7; 300]
    tw_collision_free tw_holds call_m ltac:(by apply (bool_decide_unpack _)) run_m_outside).
Defined.

Lemma tw_world_nonneg b : 0 ≤ bal (w_state tw_world) b.
Proof.
  assert (table_fits NewTeWakaImpl) as Hf by (apply tw_fits; left; reflexivity).
  destruct (Save_spec TeWaKaAddress NewTeWakaImpl tw_start tw_state_inv TeWaKaAddress_valid Hf)
    as (w & E & _ & _ & S3 & _ & _).
  unfold tw_world. rewrite E, S3. cbn [w_state tw_start]. unfold tw_state.
  pose proof (small_valid 7 ltac:(lia)) as V7. pose proof (small_valid 101 ltac:(lia)) as V101.
  rewrite AddBalance_bal by (exact V101 || (apply AddBalance_inv; [exact genesis_inv|exact V7])).
  rewrite AddBalance_bal by (exact genesis_inv || exact V7).
  assert (bal genesis_state b = 0) as -> by reflexivity.
  unfold add_at, mimStakingAmount, baseUnit. destruct (decide _), (decide _); lia.
Qed.

Lemma call_never_overdraws_witness : 0 ≤ bal (w_state (after run_m)) 7.
Proof.
  exact (call_never_overdraws tw_run NewTeWakaImpl tw_world table_m (after run_m)
    tw_collision_free tw_holds call_m tw_world_nonneg 7).
Defined.

