(* ===== verification/Consensus.v ===== *)
(** * Header rules of the proof-of-work engine
    (consensus/misc, consensus/ethash, core/types/block.go)

    The gas-limit and base-fee rules, the two difficulty calculators, the
    header and seal verification, the nonce search and the block reward.  The
    chain reader and the proof-of-work hash are parameters. *)
From S2P Require Import Prelude Common RlpEncode StateObject Concrete StateDB TeWaka.
Import Enc Bytes GoMath.

(** ** Headers *)

Record Header := mkHeader {
  hd_ParentHash : hash;
  hd_Coinbase : address;
  hd_Root : hash;
  hd_TxHash : hash;
  hd_ReceiptHash : hash;
  hd_Bloom : bytes;
  hd_Difficulty : Z;
  hd_Number : Z;
  hd_GasLimit : Z;
  hd_GasUsed : Z;
  hd_Time : Z;
  hd_Extra : bytes;
  hd_Nonce : bytes;
  hd_BaseFee : option Z
}.

Definition set_Difficulty (d : Z) (h : Header) : Header :=
  mkHeader (hd_ParentHash h) (hd_Coinbase h) (hd_Root h) (hd_TxHash h) (hd_ReceiptHash h) (hd_Bloom h)
    d (hd_Number h) (hd_GasLimit h) (hd_GasUsed h) (hd_Time h) (hd_Extra h) (hd_Nonce h) (hd_BaseFee h).
Definition set_HeaderNonce (n : bytes) (h : Header) : Header :=
  mkHeader (hd_ParentHash h) (hd_Coinbase h) (hd_Root h) (hd_TxHash h) (hd_ReceiptHash h) (hd_Bloom h)
    (hd_Difficulty h) (hd_Number h) (hd_GasLimit h) (hd_GasUsed h) (hd_Time h) (hd_Extra h) n (hd_BaseFee h).

Definition EncodeNonce (i : Z) : bytes := be_fixed 8 i.
Definition BlockNonce_Uint64 (n : bytes) : Z := be_decode n.

(** The fields a header encodes; the base fee is left out when nil. *)
Definition Header_val (h : Header) : gval :=
  VList ([hash_val (hd_ParentHash h); addr_val (hd_Coinbase h); hash_val (hd_Root h); hash_val (hd_TxHash h);
          hash_val (hd_ReceiptHash h); VArray (hd_Bloom h); VBig (Some (hd_Difficulty h));
          VBig (Some (hd_Number h)); VUint (hd_GasLimit h); VUint (hd_GasUsed h); VUint (hd_Time h);
          VBytes (hd_Extra h); VArray (hd_Nonce h)]
         ++ match hd_BaseFee h with Some b => [VBig (Some b)] | None => [] end).

(** ** Gas limit and base fee *)

Definition GasLimitBoundDivisor : Z := 1024.
Definition MinGasLimit : Z := 5000.
Definition MaximumExtraDataSize : Z := 32.
Definition ElasticityMultiplier : Z := 2.
Definition BaseFeeChangeDenominator : Z := 8.
Definition DifficultyBoundDivisor : Z := 1024.
Definition MinimumDifficulty : Z := 1000.

(** [int64(a) - int64(b)], negated when negative: all at 64 bits. *)
Definition limit_diff (parentGasLimit headerGasLimit : Z) : Z :=
  let diff := i64 (i64 parentGasLimit - i64 headerGasLimit) in
  let diff := if diff <? 0 then i64 (diff * -1) else diff in
  u64 diff.

Definition VerifyGaslimit (parentGasLimit headerGasLimit : Z) : result string () :=
  let limit := parentGasLimit / GasLimitBoundDivisor in
  if limit <=? limit_diff parentGasLimit headerGasLimit then Err "invalid gas limit"%string
  else if headerGasLimit <? MinGasLimit then Err "invalid gas limit below 5000"%string
  else Ok tt.

(** A nil base fee, or a zero gas target with gas used, is a panic. *)
Definition CalcBaseFee (parent : Header) : outcome Z :=
  let parentGasTarget := hd_GasLimit parent / ElasticityMultiplier in
  match hd_BaseFee parent with
  | None => Panic
  | Some baseFee =>
      if hd_GasUsed parent =? parentGasTarget then Ret baseFee
      else if parentGasTarget <? hd_GasUsed parent then
        if parentGasTarget =? 0 then Panic
        else
          let gasUsedDelta := u64 (hd_GasUsed parent - parentGasTarget) in
          let y := baseFee * gasUsedDelta / parentGasTarget in
          let baseFeeDelta := BigMax (y / BaseFeeChangeDenominator) 1 in
          Ret (baseFee + baseFeeDelta)
      else
        let gasUsedDelta := u64 (parentGasTarget - hd_GasUsed parent) in
        let y := baseFee * gasUsedDelta / parentGasTarget in
        let baseFeeDelta := y / BaseFeeChangeDenominator in
        Ret (BigMax (baseFee - baseFeeDelta) 0)
  end.

Definition VerifyEip1559Header (parent header : Header) : outcome (result string ()) :=
  match VerifyGaslimit (hd_GasLimit parent) (hd_GasLimit header) with
  | Err e => Ret (Err e)
  | Ok _ =>
      match hd_BaseFee header with
      | None => Ret (Err "header is missing baseFee"%string)
      | Some bf =>
          do! expected <- CalcBaseFee parent;
          Ret (if bf =? expected then Ok tt else Err "invalid baseFee"%string)
      end
  end.

(** ** Difficulty *)

Definition frontierDurationLimit : Z := 13.
Definition minimumDifficulty : Z := 64.
Definition expDiffPeriodUint : Z := 100000.
Definition difficultyBoundDivisor : Z := 11.

(** [uint256.Int.Lsh]: all bits are lost from 256 on. *)
Definition u256_Lsh (x n : Z) : Z := u256 (Z.shiftl x n).

Definition CalcDifficultyFrontierU256 (time : Z) (parent : Header) : Z :=
  let pDiff := u256 (hd_Difficulty parent) in
  let adjust := Z.shiftr pDiff difficultyBoundDivisor in
  let pDiff := if u64 (time - hd_Time parent) <? frontierDurationLimit
               then u256 (pDiff + adjust) else u256 (pDiff - adjust) in
  let pDiff := if pDiff <? minimumDifficulty then minimumDifficulty else pDiff in
  let periodCount := u64 (u64 (hd_Number parent) + 1) / expDiffPeriodUint in
  if 1 <? periodCount then u256 (pDiff + u256_Lsh 1 (u64 (periodCount - 2))) else pDiff.

Definition MakeDifficultyCalculatorU256 (bombDelay time : Z) (parent : Header) : Z :=
  let bombDelayFromParent := u64 (u64 bombDelay - 1) in
  let x := u64 (time - hd_Time parent) / 9 in
  let c := 1 in
  let xNeg := c <=? x in
  let x := if xNeg then u64 (x - c) else u64 (c - x) in
  let x := if 99 <? x then 99 else x in
  let pDiff := u256 (hd_Difficulty parent) in
  let z := u256 (Z.shiftr pDiff difficultyBoundDivisor * x) in
  let y := if xNeg then u256 (pDiff - z) else u256 (pDiff + z) in
  let y := if y <? minimumDifficulty then minimumDifficulty else y in
  let pNum := u64 (hd_Number parent) in
  if bombDelayFromParent <=? pNum then
    let fakeBlockNumber := u64 (pNum - bombDelayFromParent) in
    if 2 * expDiffPeriodUint <=? fakeBlockNumber then
      u256 (u256_Lsh 1 (u64 (fakeBlockNumber / expDiffPeriodUint - 2)) + y)
    else y
  else y.

Definition allowedFutureBlockTimeSeconds : Z := 15.

(** The calculator in use: [makeDifficultyCalculator] on [big.Int]; [Div] with
    a positive divisor rounds down. *)
Definition calcDifficulty (time : Z) (parent : Header) : Z :=
  let x := 1 - (time - hd_Time parent) / allowedFutureBlockTimeSeconds in
  let x := if x <? -99 then -99 else x in
  let newDifficulty := hd_Difficulty parent + hd_Difficulty parent * x / DifficultyBoundDivisor in
  if newDifficulty <? MinimumDifficulty then MinimumDifficulty else newDifficulty.

(** ** Rewards and the stake factor *)

Definition BlockReward : Z := 100 * 10 ^ 18.
Definition SubsidyReductionInterval : Z := 1000000.
Definition oneMillion : Z := 1000000 * 10 ^ 18.

Definition block_reward (number : Z) : Z :=
  Z.shiftr BlockReward (u64 number / SubsidyReductionInterval).

Definition MakeFactorForMine (amount : option Z) : option Z :=
  match amount with
  | None => None
  | Some a =>
      if (a <=? 0) || (a <? oneMillion) then None
      else Some ((a / oneMillion) ^ 3)
  end.

(** ** Seals *)

Inductive Mode := ModeNormal | ModeShared | ModeTest | ModeFake | ModeFullFake.

(** The engine: its mode, the block number a fake seal fails at, and the
    shared engine it delegates to. *)
Inductive Ethash := mkEthash (PowMode : Mode) (fakeFail : Z) (shared : option Ethash).
Definition PowMode (e : Ethash) : Mode := match e with mkEthash m _ _ => m end.

Inductive header_error :=
| errExtraTooLong | ErrFutureBlock | errOlderBlockTime | errDifficulty | errGasLimitCap | errGasUsed
| errGasLimitBounds | ErrInvalidNumber | errInvalidDifficulty | errInvalidPoW | ErrUnknownAncestor
| ErrInvalidFactors.

Definition is_fake (m : Mode) : bool := match m with ModeFake | ModeFullFake => true | _ => false end.

(** [big.Int.Div]: Euclidean; a zero divisor panics. *)
Definition big_Div (x y : Z) : outcome Z :=
  if y =? 0 then Panic else Ret (if 0 <? y then x / y else - (x / - y)).

(** The difficulty scaled by the stake factor, as the verifier and the miner
    compute it. *)
Definition scaled_difficulty (difficulty : Z) (factor : option Z) : Z :=
  match factor with
  | Some f => if 0 <? f then
                let d := difficulty / f in if d =? 0 then MinimumDifficulty else d
              else difficulty
  | None => difficulty
  end.

Section Seal.
Context {B : Backend}.
(** The memory-hard hash of algorithm.go and its table. *)
Context (HashCZZ : bytes → Z → bytes).

Definition SealHash (h : Header) : hash :=
  RlpHash (VList [hash_val (hd_ParentHash h); addr_val (hd_Coinbase h); hash_val (hd_Root h);
    hash_val (hd_TxHash h); hash_val (hd_ReceiptHash h); VArray (hd_Bloom h);
    VBig (Some (hd_Difficulty h)); VBig (Some (hd_Number h)); VUint (hd_GasLimit h);
    VUint (hd_GasUsed h); VUint (hd_Time h); VBytes (hd_Extra h)]).

Definition Header_Hash (h : Header) : hash := RlpHash (Header_val h).

Definition pow_value (header : Header) (nonce : Z) : Z :=
  be_decode (HashCZZ (Hash_Bytes (SealHash header)) nonce).

Fixpoint verifySeal (ethash : Ethash) (header : Header) (factor : option Z) : outcome (result header_error ()) :=
  match ethash with
  | mkEthash mode fakeFail shared =>
      if is_fake mode then
        Ret (if fakeFail =? u64 (hd_Number header) then Err errInvalidPoW else Ok tt)
      else
        match shared with
        | Some e => verifySeal e header factor
        | None =>
            if hd_Difficulty header <=? 0 then Ret (Err errInvalidDifficulty)
            else
              let result := pow_value header (BlockNonce_Uint64 (hd_Nonce header)) in
              do! target <- big_Div (2 ^ 256) (scaled_difficulty (hd_Difficulty header) factor);
              Ret (if target <? result then Err errInvalidPoW else Ok tt)
        end
  end.

(** [mine] without its abort channel: up to [fuel] nonces from [seed]. *)
Fixpoint mine_loop (fuel : nat) (target nonce : Z) (header : Header) : option Header :=
  match fuel with
  | O => None
  | S fuel =>
      if pow_value header nonce <=? target then Some (set_HeaderNonce (EncodeNonce nonce) header)
      else mine_loop fuel target (u64 (nonce + 1)) header
  end.

Definition mine (fuel : nat) (header : Header) (factor : option Z) (seed : Z) : outcome (option Header) :=
  do! target <- big_Div (2 ^ 256) (scaled_difficulty (hd_Difficulty header) factor);
  Ret (mine_loop fuel target seed header).

(** ** Header verification *)

Definition verifyHeader (ethash : Ethash) (header parent : Header) (seal : bool) (unixNow : Z)
    (factor : option Z) : outcome (result header_error ()) :=
  if MaximumExtraDataSize <? zlen (hd_Extra header) then Ret (Err errExtraTooLong)
  else if u64 (i64 (unixNow + allowedFutureBlockTimeSeconds)) <? hd_Time header then Ret (Err ErrFutureBlock)
  else if hd_Time header <=? hd_Time parent then Ret (Err errOlderBlockTime)
  else if negb (calcDifficulty (hd_Time header) parent =? hd_Difficulty header) then Ret (Err errDifficulty)
  else if 0x7fffffffffffffff <? hd_GasLimit header then Ret (Err errGasLimitCap)
  else if hd_GasLimit header <? hd_GasUsed header then Ret (Err errGasUsed)
  else if (hd_GasLimit parent / GasLimitBoundDivisor <=? limit_diff (hd_GasLimit parent) (hd_GasLimit header))
          || (hd_GasLimit header <? MinGasLimit) then Ret (Err errGasLimitBounds)
  else if negb (hd_Number header - hd_Number parent =? 1) then Ret (Err ErrInvalidNumber)
  else if seal then verifySeal ethash header factor
  else Ret (Ok tt).

Context (GetHeader : hash → Z → option Header).

Definition VerifyHeader (ethash : Ethash) (header : Header) (seal : bool) (unixNow : Z) (factor : option Z)
    : outcome (result header_error ()) :=
  match PowMode ethash with
  | ModeFullFake => Ret (Ok tt)
  | _ =>
      let number := u64 (hd_Number header) in
      match GetHeader (Header_Hash header) number with
      | Some _ => Ret (Ok tt)
      | None =>
          match GetHeader (hd_ParentHash header) (u64 (number - 1)) with
          | None => Ret (Err ErrUnknownAncestor)
          | Some parent => verifyHeader ethash header parent seal unixNow factor
          end
      end
  end.

(** [seals[index]] out of range panics. *)
Definition verifyHeaderWorker (ethash : Ethash) (headers : list Header) (seals : list bool) (index : nat)
    (unixNow : Z) (factor : option Z) : outcome (result header_error ()) :=
  match headers !! index with
  | None => Panic
  | Some header =>
      let parent :=
        match index with
        | O => GetHeader (hd_ParentHash header) (u64 (u64 (hd_Number header) - 1))
        | S i => match headers !! i with
                 | Some p => if Header_Hash p =? hd_ParentHash header then Some p else None
                 | None => None
                 end
        end in
      match parent with
      | None => Ret (Err ErrUnknownAncestor)
      | Some parent =>
          match seals !! index with
          | None => Panic
          | Some seal => verifyHeader ethash header parent seal unixNow factor
          end
      end
  end.

Definition Prepare_header (header : Header) : result header_error Header :=
  match GetHeader (hd_ParentHash header) (u64 (u64 (hd_Number header) - 1)) with
  | None => Err ErrUnknownAncestor
  | Some parent => Ok (set_Difficulty (calcDifficulty (hd_Time header) parent) header)
  end.

End Seal.

(** ** The gas-limit rule *)

Lemma limit_diff_abs a b : 0 ≤ a < 2 ^ 63 → 0 ≤ b < 2 ^ 63 → limit_diff a b = Z.abs (a - b).
Proof.
  intros Ha Hb. unfold limit_diff, i64.
  assert (∀ x, - 2 ^ 63 ≤ x < 2 ^ 63 → (x + 2 ^ 63) mod 2 ^ 64 - 2 ^ 63 = x) as Hid.
  { intros x Hx. rewrite Z.mod_small; lia. }
  rewrite (Hid a), (Hid b), (Hid (a - b)) by lia.
  destruct (Z.ltb_spec (a - b) 0).
  - rewrite Hid by lia. unfold u64, wrap. rewrite Z.mod_small; lia.
  - unfold u64, wrap. rewrite Z.mod_small; lia.
Qed.

(** ** Base fee *)

Lemma CalcBaseFee_bounds parent baseFee :
  hd_BaseFee parent = Some baseFee → 0 ≤ baseFee →
  is_u64 (hd_GasLimit parent) → is_u64 (hd_GasUsed parent) →
  2 ≤ hd_GasLimit parent →
  let target := hd_GasLimit parent / ElasticityMultiplier in
  ∃ fee, CalcBaseFee parent = Ret fee ∧ 0 ≤ fee ∧
    (hd_GasUsed parent = target → fee = baseFee) ∧
    (target < hd_GasUsed parent → baseFee < fee) ∧
    (hd_GasUsed parent < target → fee ≤ baseFee) ∧
    (hd_GasUsed parent ≤ 2 * target →
       baseFee - baseFee / 8 ≤ fee ≤ baseFee + Z.max 1 (baseFee / 8)).
Proof.
  intros Hbf Hpos [HL1 HL2] [HU1 HU2] HL target.
  assert (0 < target) as HT by (unfold target, ElasticityMultiplier; apply Z.div_str_pos; lia).
  assert (target < 2 ^ 64) by (unfold target, ElasticityMultiplier; apply Z.div_lt_upper_bound; lia).
  assert (∀ d, 0 ≤ d ≤ target → baseFee * d / target / BaseFeeChangeDenominator ≤ baseFee / 8) as Hle.
  { intros d Hd. apply Z.div_le_mono; [done|]. apply Z.div_le_upper_bound; [done|]. nia. }
  assert (∀ d, 0 ≤ d → 0 ≤ baseFee * d / target / BaseFeeChangeDenominator) as Hge.
  { intros d Hd. apply Z.div_pos; [|done]. apply Z.div_pos; nia. }
  assert (0 ≤ baseFee / 8 ≤ baseFee) as H8.
  { split; [apply Z.div_pos; lia|apply Z.div_le_upper_bound; lia]. }
  unfold CalcBaseFee. rewrite Hbf. fold target.
  destruct (Z.eqb_spec (hd_GasUsed parent) target) as [E|E].
  { eexists. split; [reflexivity|]. lia. }
  destruct (Z.ltb_spec target (hd_GasUsed parent)) as [Hlt|Hge'].
  - destruct (Z.eqb_spec target 0); [lia|]. eexists. split; [reflexivity|].
    assert (u64 (hd_GasUsed parent - target) = hd_GasUsed parent - target) as ->.
    { unfold u64, wrap. apply Z.mod_small. lia. }
    rewrite BigMax_max. specialize (Hge (hd_GasUsed parent - target) ltac:(lia)).
    specialize (Hle (hd_GasUsed parent - target)). lia.
  - eexists. split; [reflexivity|].
    assert (u64 (target - hd_GasUsed parent) = target - hd_GasUsed parent) as ->.
    { unfold u64, wrap. apply Z.mod_small. lia. }
    rewrite BigMax_max. specialize (Hge (target - hd_GasUsed parent) ltac:(lia)).
    specialize (Hle (target - hd_GasUsed parent) ltac:(lia)). lia.
Qed.

(** ** Difficulty *)

Lemma calcDifficulty_min time parent : MinimumDifficulty ≤ calcDifficulty time parent.
Proof.
  unfold calcDifficulty. cbv zeta.
  match goal with |- _ ≤ (if ?a <? ?b then _ else _) => destruct (Z.ltb_spec a b); lia end.
Qed.

Lemma adjust_range time parent :
  hd_Time parent ≤ time →
  let x := 1 - (time - hd_Time parent) / allowedFutureBlockTimeSeconds in
  -99 ≤ (if x <? -99 then -99 else x) ≤ 1.
Proof.
  intros Ht x. assert (0 ≤ (time - hd_Time parent) / allowedFutureBlockTimeSeconds) by (apply Z.div_pos; [lia|done]).
  unfold x. destruct (Z.ltb_spec (1 - (time - hd_Time parent) / allowedFutureBlockTimeSeconds) (-99)); lia.
Qed.

Lemma calcDifficulty_bounds time parent :
  hd_Time parent ≤ time → MinimumDifficulty ≤ hd_Difficulty parent →
  let d := hd_Difficulty parent in
  Z.max MinimumDifficulty (d - (99 * d + 1023) / 1024) ≤ calcDifficulty time parent ≤ d + d / 1024.
Proof.
  intros Ht Hd d. unfold calcDifficulty. pose proof (adjust_range time parent Ht) as Hx. cbv zeta in Hx |- *.
  set (x := if _ <? -99 then _ else _) in *. fold d. fold d in Hd.
  unfold DifficultyBoundDivisor, MinimumDifficulty in *.
  assert (- ((99 * d + 1023) / 1024) ≤ d * x / 1024).
  { apply Z.div_le_lower_bound; [lia|]. pose proof (Z.mul_div_le (99 * d + 1023) 1024 ltac:(lia)).
    pose proof (Z.mod_pos_bound (99 * d + 1023) 1024 ltac:(lia)).
    pose proof (Z.div_mod (99 * d + 1023) 1024 ltac:(lia)). nia. }
  assert (d * x / 1024 ≤ d / 1024) by (apply Z.div_le_mono; nia).
  assert (0 ≤ d / 1024) by (apply Z.div_pos; lia).
  destruct (Z.ltb_spec (d + d * x / 1024) 1000); lia.
Qed.

Lemma calcDifficulty_antitone t1 t2 parent :
  t1 ≤ t2 → 0 ≤ hd_Difficulty parent → calcDifficulty t2 parent ≤ calcDifficulty t1 parent.
Proof.
  intros Ht Hd. unfold calcDifficulty. cbv zeta.
  assert ((t1 - hd_Time parent) / allowedFutureBlockTimeSeconds ≤ (t2 - hd_Time parent) / allowedFutureBlockTimeSeconds)
    by (apply Z.div_le_mono; [done|lia]).
  set (x1 := if 1 - (t1 - _) / _ <? -99 then _ else _). set (x2 := if 1 - (t2 - _) / _ <? -99 then _ else _).
  assert (x2 ≤ x1) as Hx.
  { unfold x1, x2. destruct (Z.ltb_spec (1 - (t1 - hd_Time parent) / allowedFutureBlockTimeSeconds) (-99)),
      (Z.ltb_spec (1 - (t2 - hd_Time parent) / allowedFutureBlockTimeSeconds) (-99)); lia. }
  assert (hd_Difficulty parent * x2 / DifficultyBoundDivisor ≤ hd_Difficulty parent * x1 / DifficultyBoundDivisor)
    by (apply Z.div_le_mono; [done|nia]).
  repeat match goal with |- context [?a <? ?b] => destruct (Z.ltb_spec a b) end; lia.
Qed.

(** *** The 256-bit calculators compute the published formulas *)

Definition bomb (n : Z) : Z := if 256 <=? n then 0 else 2 ^ n.

Lemma u256_Lsh_bomb n : 0 ≤ n → u256_Lsh 1 n = bomb n.
Proof.
  intros Hn. unfold u256_Lsh, bomb, u256, wrap. rewrite Z.shiftl_1_l.
  destruct (Z.leb_spec 256 n).
  - replace n with (n - 256 + 256) by lia. rewrite Z.pow_add_r by lia. by apply Z.mod_mul.
  - apply Z.mod_small. split; [lia|]. apply Z.pow_lt_mono_r; lia.
Qed.

Lemma shiftr_2048 d : Z.shiftr d difficultyBoundDivisor = d / 2048.
Proof. by rewrite Z.shiftr_div_pow2. Qed.

Lemma u256_small x : 0 ≤ x < 2 ^ 256 → u256 x = x.
Proof. intros. by apply wrap_id. Qed.

(** The Frontier rule: an eleventh-bit adjustment up or down, never below 64,
    plus the exponential term. *)
Lemma Frontier_formula time parent :
  0 ≤ hd_Difficulty parent < 2 ^ 255 → is_u64 time → is_u64 (hd_Time parent) → hd_Time parent ≤ time →
  0 ≤ hd_Number parent < 2 ^ 64 - 1 →
  let d := hd_Difficulty parent in
  let base := Z.max 64 (if time - hd_Time parent <? 13 then d + d / 2048 else d - d / 2048) in
  let period := (hd_Number parent + 1) / 100000 in
  CalcDifficultyFrontierU256 time parent =
    if 1 <? period then u256 (base + bomb (period - 2)) else base.
Proof.
  intros Hd [Ht1 Ht2] [Hp1 Hp2] Hle Hn d base period. unfold CalcDifficultyFrontierU256.
  fold d. rewrite (u256_small d) by (unfold d; lia). rewrite shiftr_2048.
  assert (u64 (time - hd_Time parent) = time - hd_Time parent) as -> by (apply wrap_id; unfold in_w; lia).
  assert (u64 (u64 (hd_Number parent) + 1) = hd_Number parent + 1) as ->.
  { unfold u64. rewrite (wrap_id 64 (hd_Number parent)) by (unfold in_w; lia). apply wrap_id. unfold in_w. lia. }
  assert (0 ≤ d / 2048 ≤ d) as Hq.
  { unfold d. split; [apply Z.div_pos; lia|apply Z.div_le_upper_bound; lia]. }
  rewrite (u256_small (d + d / 2048)), (u256_small (d - d / 2048)) by (unfold d in *; lia).
  unfold frontierDurationLimit, expDiffPeriodUint. fold period.
  replace (if (if _ <? 13 then _ else _) <? minimumDifficulty then _ else _) with base.
  2:{ unfold base, minimumDifficulty. destruct (_ <? 13);
      repeat match goal with |- context [?a <? ?b] => destruct (Z.ltb_spec a b) end; lia. }
  assert (period < 2 ^ 64) by (unfold period; apply Z.div_lt_upper_bound; lia).
  destruct (Z.ltb_spec 1 period); [|done].
  assert (u64 (period - 2) = period - 2) as -> by (apply wrap_id; unfold in_w; lia).
  by rewrite u256_Lsh_bomb by lia.
Qed.

(** The Byzantium rule with a bomb delay. *)
Lemma Byzantium_formula delay time parent :
  0 ≤ hd_Difficulty parent < 2 ^ 255 → is_u64 time → is_u64 (hd_Time parent) → hd_Time parent ≤ time →
  is_u64 (hd_Number parent) → 1 ≤ delay < 2 ^ 64 →
  let d := hd_Difficulty parent in
  let base := Z.max 64 (d + d / 2048 * Z.max (1 - (time - hd_Time parent) / 9) (-99)) in
  let fake := Z.max 0 (hd_Number parent - (delay - 1)) in
  MakeDifficultyCalculatorU256 delay time parent =
    if 200000 <=? fake then u256 (base + bomb (fake / 100000 - 2)) else base.
Proof.
  intros Hd [Ht1 Ht2] [Hp1 Hp2] Hle [Hn1 Hn2] Hdel d base fake. unfold MakeDifficultyCalculatorU256.
  fold d. rewrite (u256_small d) by (unfold d; lia). rewrite shiftr_2048.
  assert (u64 (time - hd_Time parent) = time - hd_Time parent) as -> by (apply wrap_id; unfold in_w; lia).
  assert (u64 (hd_Number parent) = hd_Number parent) as -> by (apply wrap_id; unfold in_w; lia).
  assert (u64 (u64 delay - 1) = delay - 1) as ->.
  { unfold u64. rewrite (wrap_id 64 delay) by (unfold in_w; lia). apply wrap_id. unfold in_w. lia. }
  set (q := (time - hd_Time parent) / 9) in *.
  assert (0 ≤ q < 2 ^ 64) as Hq9.
  { unfold q. split; [apply Z.div_pos; lia|apply Z.div_lt_upper_bound; lia]. }
  set (x := if 1 <=? q then u64 (q - 1) else u64 (1 - q)).
  assert (x = if 1 <=? q then q - 1 else 1 - q) as Hx.
  { unfold x. destruct (Z.leb_spec 1 q); apply wrap_id; unfold in_w; lia. }
  set (x' := if 99 <? x then 99 else x).
  assert (0 ≤ x' ≤ 99 ∧ (if 1 <=? q then - x' else x') = Z.max (1 - q) (-99)) as [Hx' Hadj].
  { unfold x'. rewrite Hx. destruct (Z.leb_spec 1 q);
      repeat match goal with |- context [?a <? ?b] => destruct (Z.ltb_spec a b) end; lia. }
  assert (0 ≤ d / 2048 ∧ 2048 * (d / 2048) ≤ d) as Hq.
  { unfold d. split; [apply Z.div_pos; lia|apply Z.mul_div_le; lia]. }
  assert (0 ≤ d / 2048 * x' ≤ d) as Hz by nia.
  rewrite (u256_small (d / 2048 * x')) by (unfold d in *; lia).
  rewrite (u256_small (d - d / 2048 * x')), (u256_small (d + d / 2048 * x')) by (unfold d in *; lia).
  replace (if (if 1 <=? q then _ else _) <? minimumDifficulty then _ else _) with base.
  2:{ unfold base, minimumDifficulty. rewrite <- Hadj. destruct (Z.leb_spec 1 q);
      repeat match goal with |- context [?a <? ?b] => destruct (Z.ltb_spec a b) end; lia. }
  unfold expDiffPeriodUint, fake. destruct (Z.leb_spec (delay - 1) (hd_Number parent)).
  - assert (u64 (hd_Number parent - (delay - 1)) = hd_Number parent - (delay - 1)) as ->
      by (apply wrap_id; unfold in_w; lia).
    rewrite (Z.max_r 0) by lia. change (2 * 100000) with 200000.
    destruct (Z.leb_spec 200000 (hd_Number parent - (delay - 1))) as [H2|]; [|done].
    set (fk := hd_Number parent - (delay - 1)) in *.
    assert (2 ≤ fk / 100000 < 2 ^ 64).
    { split; [apply Z.div_le_lower_bound; lia|apply Z.div_lt_upper_bound; lia]. }
    assert (u64 (fk / 100000 - 2) = fk / 100000 - 2) as -> by (apply wrap_id; unfold in_w; lia).
    rewrite u256_Lsh_bomb by lia. f_equal. lia.
  - rewrite (Z.max_l 0) by lia. done.
Qed.

(** ** Verified headers *)

(** What [verifyHeader] guarantees of a header and its parent. *)
Record follows (parent header : Header) : Prop := mkFollows {
  fo_number : hd_Number header = hd_Number parent + 1;
  fo_time : hd_Time parent < hd_Time header;
  fo_difficulty : hd_Difficulty header = calcDifficulty (hd_Time header) parent;
  fo_gasUsed : hd_GasUsed header ≤ hd_GasLimit header;
  fo_gasCap : hd_GasLimit header < 2 ^ 63;
  fo_gasMin : MinGasLimit ≤ hd_GasLimit header;
  fo_gasDelta : limit_diff (hd_GasLimit parent) (hd_GasLimit header) < hd_GasLimit parent / GasLimitBoundDivisor;
  fo_extra : zlen (hd_Extra header) ≤ MaximumExtraDataSize
}.

Section Verified.
Context {B : Backend} (HashCZZ : bytes → Z → bytes) (GetHeader : hash → Z → option Header).

Lemma verifyHeader_inv e header parent seal now factor :
  verifyHeader HashCZZ e header parent seal now factor = Ret (Ok tt) →
  follows parent header ∧ hd_Time header ≤ u64 (i64 (now + allowedFutureBlockTimeSeconds)) ∧
  (seal = true → verifySeal HashCZZ e header factor = Ret (Ok tt)).
Proof.
  unfold verifyHeader. intros H.
  repeat match type of H with (if ?b then Ret (Err _) else _) = _ => let E := fresh "E" in destruct b eqn:E; [done|] end.
  rewrite ?Z.ltb_ge, ?Z.leb_gt, ?negb_false_iff, ?Z.eqb_eq, ?orb_false_iff, ?Z.ltb_ge, ?Z.leb_gt in *.
  split; [|split; [done|by intros ->; rewrite H]]. destruct E5 as [E5 E5']. split; (done || lia).
Qed.

(** A list of headers each verified against the one before it. *)
Fixpoint chained (parent : Header) (l : list Header) : Prop :=
  match l with [] => True | h :: l => follows parent h ∧ chained h l end.

Lemma chained_facts parent l :
  chained parent l → MinimumDifficulty ≤ hd_Difficulty parent →
  ∀ i h, l !! i = Some h →
    hd_Number h = hd_Number parent + Z.of_nat i + 1 ∧ hd_Time parent + Z.of_nat i < hd_Time h ∧
    MinimumDifficulty ≤ hd_Difficulty h ∧ MinGasLimit ≤ hd_GasLimit h < 2 ^ 63.
Proof.
  revert parent. induction l as [|h0 l IH]; intros parent Hc Hd i h Hi; [done|].
  destruct Hc as [Hf Hc]. assert (MinimumDifficulty ≤ hd_Difficulty h0) as Hd0.
  { rewrite (fo_difficulty _ _ Hf). apply calcDifficulty_min. }
  pose proof (fo_number _ _ Hf). pose proof (fo_time _ _ Hf).
  destruct i as [|i]; simpl in Hi.
  - injection Hi as <-. pose proof (fo_gasCap _ _ Hf). pose proof (fo_gasMin _ _ Hf). lia.
  - destruct (IH h0 Hc Hd0 i h Hi) as (H1 & H2 & H3 & H4). lia.
Qed.

(** The workers' verdicts on a batch tie it into a chain. *)
Lemma workers_chained e h hs seals now factors parent :
  GetHeader (hd_ParentHash h) (u64 (u64 (hd_Number h) - 1)) = Some parent →
  (∀ i, (i < length (h :: hs))%nat →
     verifyHeaderWorker HashCZZ GetHeader e (h :: hs) seals i now (factors i) = Ret (Ok tt)) →
  chained parent (h :: hs) ∧
  ∀ i a b, (h :: hs) !! i = Some a → (h :: hs) !! S i = Some b → hd_ParentHash b = Header_Hash a.
Proof.
  intros Hp Hall.
  assert (∀ i a b, (h :: hs) !! i = Some a → (h :: hs) !! S i = Some b →
    hd_ParentHash b = Header_Hash a ∧ follows a b) as Hlink.
  { intros i a b Ha Hb. pose proof (lookup_lt_Some _ _ _ Hb) as Hlt. specialize (Hall (S i) Hlt).
    unfold verifyHeaderWorker in Hall. rewrite Hb, Ha in Hall.
    destruct (Z.eqb_spec (Header_Hash a) (hd_ParentHash b)) as [E|]; [|done].
    destruct (seals !! S i); [|done]. apply verifyHeader_inv in Hall as [Hf _]. done. }
  split; [|intros i a b Ha Hb; by apply (Hlink i)].
  assert (follows parent h) as H0.
  { specialize (Hall 0%nat ltac:(simpl; lia)). unfold verifyHeaderWorker in Hall. simpl in Hall. rewrite Hp in Hall.
    destruct seals as [|sl ?]; simpl in Hall; [done|]. by apply verifyHeader_inv in Hall as [Hf _]. }
  split; [done|]. clear - Hlink. revert h Hlink. induction hs as [|h1 hs IH]; intros h Hlink; [done|].
  split; [by apply (Hlink 0%nat h h1)|]. apply IH. intros i a b Ha Hb. by apply (Hlink (S i)).
Qed.

(** ** The miner finds what the verifier accepts *)

Lemma SealHash_nonce n h : SealHash (set_HeaderNonce n h) = SealHash h.
Proof. done. Qed.

Lemma mine_loop_spec fuel target nonce h :
  is_u64 nonce →
  match mine_loop HashCZZ fuel target nonce h with
  | Some h' => ∃ n, is_u64 n ∧ h' = set_HeaderNonce (EncodeNonce n) h ∧ pow_value HashCZZ h n ≤ target
  | None => ∀ k, 0 ≤ k < Z.of_nat fuel → target < pow_value HashCZZ h (u64 (nonce + k))
  end.
Proof.
  revert nonce. induction fuel as [|fuel IH]; intros nonce Hn; simpl; [lia|].
  destruct (Z.leb_spec (pow_value HashCZZ h nonce) target) as [Hle|Hgt]; [eauto|].
  pose proof (wrap_range 64 (nonce + 1) ltac:(lia)) as Hw. specialize (IH _ Hw).
  change (wrap 64 (nonce + 1)) with (u64 (nonce + 1)) in IH.
  destruct (mine_loop HashCZZ fuel target (u64 (nonce + 1)) h); [done|].
  intros k Hk. destruct (Z.eq_dec k 0) as [->|].
  - rewrite Z.add_0_r. unfold u64. by rewrite (wrap_id 64 nonce).
  - specialize (IH (k - 1) ltac:(lia)). unfold u64, wrap in *. rewrite Zplus_mod_idemp_l in IH.
    by replace (nonce + 1 + (k - 1)) with (nonce + k) in IH by lia.
Qed.

Lemma scaled_pos d factor : 0 < d → 0 < scaled_difficulty d factor.
Proof.
  intros Hd. unfold scaled_difficulty. destruct factor as [f|]; [|done].
  destruct (Z.ltb_spec 0 f); [|done]. destruct (Z.eqb_spec (d / f) 0); [done|].
  pose proof (Z.div_pos d f ltac:(lia) ltac:(lia)). lia.
Qed.

Lemma BlockNonce_roundtrip n : is_u64 n → BlockNonce_Uint64 (EncodeNonce n) = n.
Proof.
  intros Hn. unfold BlockNonce_Uint64, EncodeNonce. rewrite be_decode_fixed. by apply Z.mod_small.
Qed.

Lemma mine_sound fuel h factor seed h' mode fakeFail :
  is_u64 seed → 0 < hd_Difficulty h → is_fake mode = false →
  mine HashCZZ fuel h factor seed = Ret (Some h') →
  verifySeal HashCZZ (mkEthash mode fakeFail None) h' factor = Ret (Ok tt).
Proof.
  intros Hs Hd Hm H. unfold mine, big_Div in H. pose proof (scaled_pos _ factor Hd) as Hp.
  destruct (Z.eqb_spec (scaled_difficulty (hd_Difficulty h) factor) 0) as [|Hne]; [lia|]. simpl in H.
  destruct (Z.ltb_spec 0 (scaled_difficulty (hd_Difficulty h) factor)); [|lia].
  set (target := 2 ^ 256 / _) in *. injection H as H.
  pose proof (mine_loop_spec fuel target seed h Hs) as Hl. rewrite H in Hl.
  destruct Hl as (n & Hn & -> & Hle). cbn [verifySeal]. rewrite Hm.
  cbn [hd_Difficulty hd_Nonce set_HeaderNonce]. destruct (Z.leb_spec (hd_Difficulty h) 0); [lia|].
  unfold big_Div. destruct (Z.eqb_spec (scaled_difficulty (hd_Difficulty h) factor) 0); [lia|]. simpl.
  destruct (Z.ltb_spec 0 (scaled_difficulty (hd_Difficulty h) factor)); [|lia]. fold target.
  rewrite BlockNonce_roundtrip by done. unfold pow_value in *. rewrite SealHash_nonce.
  by destruct (Z.ltb_spec target (be_decode (HashCZZ (Hash_Bytes (SealHash h)) n))); [lia|].
Qed.

End Verified.

(** ** Issuance *)

Definition issuance (n : nat) : Z := foldr (λ i acc, block_reward (Z.of_nat i) + acc) 0 (seq 0 n).

Lemma issuance_S n : issuance (S n) = issuance n + block_reward (Z.of_nat n).
Proof.
  unfold issuance. rewrite seq_S, foldr_app. simpl. rewrite Z.add_0_r.
  generalize (block_reward (Z.of_nat n)) as r. generalize (seq 0 n) as l. intros l r.
  induction l as [|i l IH]; simpl; [lia|]. rewrite IH. lia.
Qed.

Lemma half_step k : 0 ≤ k → 2 * Z.shiftr BlockReward (k + 1) ≤ Z.shiftr BlockReward k.
Proof.
  intros Hk. rewrite !Z.shiftr_div_pow2 by lia. rewrite Z.pow_add_r by lia.
  rewrite <- Z.div_div by lia. apply Z.mul_div_le. lia.
Qed.

(** With [r] blocks into epoch [k], what was issued stays below twice the first
    epoch's issue, by at least what is still to come. *)
Lemma issuance_epoch (n : nat) :
  Z.of_nat n < 2 ^ 64 →
  let k := Z.of_nat n / SubsidyReductionInterval in
  let r := Z.of_nat n mod SubsidyReductionInterval in
  issuance n ≤ 2 * SubsidyReductionInterval * BlockReward
               - (2 * SubsidyReductionInterval - r) * Z.shiftr BlockReward k.
Proof.
  induction n as [|n IH]; intros Hn k r; unfold SubsidyReductionInterval in *.
  { assert (k = 0 ∧ r = 0) as [-> ->] by done. rewrite Z.shiftr_0_r. unfold issuance. cbn [seq foldr]. lia. }
  specialize (IH ltac:(lia)). cbv zeta in IH. rewrite issuance_S.
  assert (block_reward (Z.of_nat n) = Z.shiftr BlockReward (Z.of_nat n / 1000000)) as ->.
  { unfold block_reward, SubsidyReductionInterval. do 2 f_equal. apply wrap_id. unfold in_w. lia. }
  set (k0 := Z.of_nat n / 1000000) in *. set (r0 := Z.of_nat n mod 1000000) in *.
  assert (0 ≤ k0) by (apply Z.div_pos; lia).
  pose proof (half_step k0 ltac:(lia)) as Hh.
  assert (Z.of_nat n = 1000000 * k0 + r0 ∧ 0 ≤ r0 < 1000000) as [En Hr0].
  { split; [apply Z.div_mod; lia|apply Z.mod_pos_bound; lia]. }
  assert (0 ≤ Z.shiftr BlockReward (k0 + 1)) by (apply Z.shiftr_nonneg; done).
  destruct (Z.eq_dec r0 999999) as [E|Hne].
  - assert (k = k0 + 1 ∧ r = 0) as [-> ->].
    { subst k r. replace (Z.of_nat (S n)) with ((k0 + 1) * 1000000) by lia.
      split; [by apply Z.div_mul|by apply Z.mod_mul]. }
    nia.
  - assert (k = k0 ∧ r = r0 + 1) as [-> ->].
    { subst k r. replace (Z.of_nat (S n)) with (k0 * 1000000 + (r0 + 1)) by lia.
      split; [rewrite Z.div_add_l by lia; rewrite Z.div_small by lia; lia|].
      rewrite Z.add_comm, Z.mod_add by lia. apply Z.mod_small. lia. }
    nia.
Qed.

Lemma issuance_bounded n :
  Z.of_nat n < 2 ^ 64 → issuance n ≤ 2 * SubsidyReductionInterval * BlockReward.
Proof.
  intros Hn. pose proof (issuance_epoch n Hn) as H. cbv zeta in H.
  pose proof (Z.mod_pos_bound (Z.of_nat n) SubsidyReductionInterval ltac:(done)).
  assert (0 ≤ Z.shiftr BlockReward (Z.of_nat n / SubsidyReductionInterval)) by (apply Z.shiftr_nonneg; done).
  nia.
Qed.

(** ** Claims *)

(** The gas-limit rule, for limits the header cap allows: a header's limit
    is accepted exactly when it differs from the parent's by less than a
    1024th of it and is at least 5000. *)
Lemma VerifyGaslimit_exact a b :
  0 ≤ a < 2 ^ 63 → 0 ≤ b < 2 ^ 63 →
  VerifyGaslimit a b = Ok tt ↔ Z.abs (a - b) < a / 1024 ∧ 5000 ≤ b.
Proof.
  intros Ha Hb. unfold VerifyGaslimit. rewrite limit_diff_abs by done.
  unfold GasLimitBoundDivisor, MinGasLimit.
  destruct (Z.leb_spec (a / 1024) (Z.abs (a - b))); [split; [done|lia]|].
  destruct (Z.ltb_spec b 5000); split; (done || lia).
Qed.

(** The base fee follows the gas used: unchanged at the target, strictly
    higher above it, not higher below it, never negative, and within an eighth
    (or one unit) of the parent's when the block used at most twice the
    target. *)
Lemma base_fee_follows_gas parent baseFee :
  hd_BaseFee parent = Some baseFee → 0 ≤ baseFee →
  is_u64 (hd_GasLimit parent) → is_u64 (hd_GasUsed parent) → 2 ≤ hd_GasLimit parent →
  let target := hd_GasLimit parent / ElasticityMultiplier in
  ∃ fee, CalcBaseFee parent = Ret fee ∧ 0 ≤ fee ∧
    (hd_GasUsed parent = target → fee = baseFee) ∧
    (target < hd_GasUsed parent → baseFee < fee) ∧
    (hd_GasUsed parent < target → fee ≤ baseFee) ∧
    (hd_GasUsed parent ≤ 2 * target →
       baseFee - baseFee / 8 ≤ fee ≤ baseFee + Z.max 1 (baseFee / 8)).
Proof. apply CalcBaseFee_bounds. Qed.

(** A chain of two headers. *)
Definition demo_parent : Header :=
  mkHeader 0 9 0 0 0 [] 100000 41 8000000 7000000 1000 [] (EncodeNonce 0) (Some 1000000000).
Definition demo_header : Header :=
  mkHeader 77 9 0 0 0 [] (calcDifficulty 1010 demo_parent) 42 8007000 100 1010 [] (EncodeNonce 5) None.

(** The difficulty rule in force: the new difficulty is never below the
    minimum, rises by at most a 1024th and falls by at most 99 1024ths of the
    parent's, and a later timestamp never asks for more. *)
Lemma difficulty_bounded parent t1 t2 :
  hd_Time parent ≤ t1 → t1 ≤ t2 → MinimumDifficulty ≤ hd_Difficulty parent →
  let d := hd_Difficulty parent in
  Z.max MinimumDifficulty (d - (99 * d + 1023) / 1024) ≤ calcDifficulty t2 parent ∧
  calcDifficulty t2 parent ≤ calcDifficulty t1 parent ∧ calcDifficulty t1 parent ≤ d + d / 1024.
Proof.
  intros H1 H2 Hd d.
  destruct (calcDifficulty_bounds t1 parent H1 Hd) as [_ U1].
  destruct (calcDifficulty_bounds t2 parent ltac:(lia) Hd) as [L2 _].
  split; [exact L2|]. split; [|exact U1]. apply calcDifficulty_antitone; [done|].
  unfold MinimumDifficulty in Hd. lia.
Qed.

(** The 256-bit Frontier calculator computes the published formula
    [pdiff ± pdiff/2048], at least 64, plus the exponential term, and wraps
    only where that sum exceeds 256 bits. *)
Lemma Frontier_is_formula time parent :
  0 ≤ hd_Difficulty parent < 2 ^ 255 → is_u64 time → is_u64 (hd_Time parent) → hd_Time parent ≤ time →
  0 ≤ hd_Number parent < 2 ^ 64 - 1 →
  let d := hd_Difficulty parent in
  let base := Z.max 64 (if time - hd_Time parent <? 13 then d + d / 2048 else d - d / 2048) in
  let period := (hd_Number parent + 1) / 100000 in
  CalcDifficultyFrontierU256 time parent =
    if 1 <? period then u256 (base + bomb (period - 2)) else base.
Proof. apply Frontier_formula. Qed.

(** The 256-bit Byzantium calculator computes the published formula
    [pdiff + pdiff/2048 * max(1 - dt/9, -99)], at least 64, plus the delayed
    exponential term. *)
Lemma Byzantium_is_formula delay time parent :
  0 ≤ hd_Difficulty parent < 2 ^ 255 → is_u64 time → is_u64 (hd_Time parent) → hd_Time parent ≤ time →
  is_u64 (hd_Number parent) → 1 ≤ delay < 2 ^ 64 →
  let d := hd_Difficulty parent in
  let base := Z.max 64 (d + d / 2048 * Z.max (1 - (time - hd_Time parent) / 9) (-99)) in
  let fake := Z.max 0 (hd_Number parent - (delay - 1)) in
  MakeDifficultyCalculatorU256 delay time parent =
    if 200000 <=? fake then u256 (base + bomb (fake / 100000 - 2)) else base.
Proof. apply Byzantium_formula. Qed.

(** A batch every worker accepts is a chain on its parent: each header
    names its predecessor's hash, numbers are consecutive, times strictly
    increase, every difficulty is at least the minimum and every gas limit is
    in range. *)
Lemma verified_batch_is_chain {B : Backend} HashCZZ GetHeader e h hs seals now factors parent :
  GetHeader (hd_ParentHash h) (u64 (u64 (hd_Number h) - 1)) = Some parent →
  MinimumDifficulty ≤ hd_Difficulty parent →
  (∀ i, (i < length (h :: hs))%nat →
     verifyHeaderWorker HashCZZ GetHeader e (h :: hs) seals i now (factors i) = Ret (Ok tt)) →
  (∀ i a b, (h :: hs) !! i = Some a → (h :: hs) !! S i = Some b →
     hd_ParentHash b = Header_Hash a ∧ hd_Time a < hd_Time b) ∧
  (∀ i a, (h :: hs) !! i = Some a →
     hd_Number a = hd_Number parent + Z.of_nat i + 1 ∧ MinimumDifficulty ≤ hd_Difficulty a ∧
     MinGasLimit ≤ hd_GasLimit a < 2 ^ 63).
Proof.
  intros Hp Hd Hall. destruct (workers_chained HashCZZ GetHeader e h hs seals now factors parent Hp Hall) as [Hc Hl].
  pose proof (chained_facts parent (h :: hs) Hc Hd) as Hf. split.
  - intros i a b Ha Hb. split; [by apply (Hl i)|]. clear Hp Hall Hl Hf Hd.
    revert parent i Hc Ha Hb. induction (h :: hs) as [|x l IH]; intros parent i Hc Ha Hb; [done|].
    destruct Hc as [_ Hc]. destruct i as [|i]; simpl in Ha, Hb; [|by apply (IH x i)].
    destruct l as [|y l]; simpl in Hb; [done|]. injection Ha as <-. injection Hb as <-.
    destruct Hc as [Hf _]. apply (fo_time _ _ Hf).
  - intros i a Ha. destruct (Hf i a Ha) as (H1 & _ & H3 & H4). done.
Qed.

Definition zero_pow (_ : bytes) (_ : Z) : bytes := [0].
Definition demo_reader (h : hash) (n : Z) : option Header := if (h =? 77) && (n =? 41) then Some demo_parent else None.

(** C39: the miner and the verifier agree: a nonce the search returns makes a
    header that [verifySeal] accepts for the same stake factor, and when the
    search gives up, every nonce it tried misses the target. *)
Theorem mined_header_verifies {B : Backend} HashCZZ fuel h factor seed mode fakeFail :
  is_u64 seed → 0 < hd_Difficulty h → is_fake mode = false →
  ∃ r, mine HashCZZ fuel h factor seed = Ret r ∧
    match r with
    | Some h' => verifySeal HashCZZ (mkEthash mode fakeFail None) h' factor = Ret (Ok tt)
    | None => ∀ k, 0 ≤ k < Z.of_nat fuel →
        2 ^ 256 / scaled_difficulty (hd_Difficulty h) factor < pow_value HashCZZ h (u64 (seed + k))
    end.
Proof.
  intros Hs Hd Hm. pose proof (scaled_pos _ factor Hd) as Hp.
  destruct (mine HashCZZ fuel h factor seed) as [r|] eqn:E.
  - exists r. split; [done|]. destruct r as [h'|]; [by eapply mine_sound|].
    unfold mine, big_Div in E. destruct (Z.eqb_spec (scaled_difficulty (hd_Difficulty h) factor) 0); [lia|].
    destruct (Z.ltb_spec 0 (scaled_difficulty (hd_Difficulty h) factor)); [|lia]. injection E as E.
    pose proof (mine_loop_spec HashCZZ fuel (2 ^ 256 / scaled_difficulty (hd_Difficulty h) factor) seed h Hs) as Hl.
    by rewrite E in Hl.
  - unfold mine, big_Div in E. destruct (Z.eqb_spec (scaled_difficulty (hd_Difficulty h) factor) 0); [lia|done].
Qed.

Lemma mined_header_verifies_witness :
  verifySeal zero_pow (mkEthash ModeNormal 0 None) (set_HeaderNonce (EncodeNonce 3) demo_header) (Some 8) = Ret (Ok tt).
Proof.
  destruct (mined_header_verifies zero_pow 4 demo_header (Some 8) 3 ModeNormal 0) as (r & E & H);
    [split; lia|reflexivity|reflexivity|].
  vm_compute in E. injection E as <-. exact H.
Defined.

(** Issuance is bounded: however many blocks are mined, the rewards halve
    every million blocks and their sum never exceeds two million full
    rewards. *)
Lemma issuance_is_bounded n :
  Z.of_nat n < 2 ^ 64 → issuance n ≤ 2 * SubsidyReductionInterval * BlockReward.
Proof. apply issuance_bounded. Qed.

