(* ===== verification/HeaderPipeline.v ===== *)
(** * The concurrent header verification of [VerifyHeaders]
    (consensus/ethash/consensus.go)

    Workers take indices from an unbuffered channel, write their verdict into
    a shared slice and report the index on a buffered channel; a collector
    hands the indices out, marks the reported ones and sends the verdicts in
    order.  The goroutines are a step relation; the abort channel is not
    used. *)
From S2P Require Import Prelude Common StateObject Concrete TeWaka Consensus.

Section Pipeline.
Context {E : Type} (n workers : nat) (verify : nat → E).

(** [pi_work]: indices being verified; [pi_send]: verified, waiting for room in
    [done]; a slot of [errors] never written is nil. *)
Record pipe := mkPipe {
  pi_in : nat;
  pi_work : list nat;
  pi_send : list nat;
  pi_done : list nat;
  pi_errors : gmap nat E;
  pi_checked : gset nat;
  pi_out : nat;
  pi_sent : list (option E);
  pi_returned : bool
}.

Definition start : pipe := mkPipe 0 [] [] [] ∅ ∅ 0 [] false.

(** [for checked[index] = true; checked[out]; out++]. *)
Fixpoint drain (fuel : nat) (checked : gset nat) (errors : gmap nat E) (out : nat) (sent : list (option E))
    : nat * list (option E) * bool :=
  match fuel with
  | O => (out, sent, false)
  | S fuel =>
      if decide (out ∈ checked) then
        let sent := sent ++ [errors !! out] in
        if decide (out = n - 1)%nat then (out, sent, true) else drain fuel checked errors (S out) sent
      else (out, sent, false)
  end.

Inductive step : pipe → pipe → Prop :=
| step_dispatch i wk sd dn er ck out snt :
    (i < n)%nat → (length wk + length sd < workers)%nat →
    step (mkPipe i wk sd dn er ck out snt false) (mkPipe (S i) (wk ++ [i]) sd dn er ck out snt false)
| step_verify i wk1 j wk2 sd dn er ck out snt ret :
    step (mkPipe i (wk1 ++ j :: wk2) sd dn er ck out snt ret)
         (mkPipe i (wk1 ++ wk2) (j :: sd) dn (<[j := verify j]> er) ck out snt ret)
| step_report i wk sd1 j sd2 dn er ck out snt ret :
    (length dn < workers)%nat →
    step (mkPipe i wk (sd1 ++ j :: sd2) dn er ck out snt ret)
         (mkPipe i wk (sd1 ++ sd2) (dn ++ [j]) er ck out snt ret)
| step_collect i wk sd j dn er ck out snt out' snt' ret' :
    drain n ({[j]} ∪ ck) er out snt = (out', snt', ret') →
    step (mkPipe i wk sd (j :: dn) er ck out snt false)
         (mkPipe i wk sd dn er ({[j]} ∪ ck) out' snt' ret').

(** ** Invariant *)

Definition verdicts (k : nat) : list (option E) := (λ i, Some (verify i)) <$> seq 0 k.

Definition pending (s : pipe) : list nat := pi_work s ++ pi_send s ++ pi_done s.

Record ok (s : pipe) : Prop := mkOk {
  ok_in : (pi_in s ≤ n)%nat;
  ok_nodup : NoDup (pending s);
  ok_disj : ∀ i, i ∈ pending s → i ∉ pi_checked s;
  ok_cover : ∀ i, (i < pi_in s)%nat ↔ i ∈ pending s ∨ i ∈ pi_checked s;
  ok_errors : ∀ i, i ∈ pi_send s ++ pi_done s ∨ i ∈ pi_checked s → pi_errors s !! i = Some (verify i);
  ok_sent : pi_sent s = verdicts (if pi_returned s then n else pi_out s);
  ok_out : (pi_out s < n)%nat;
  ok_below : ∀ i, (i < if pi_returned s then n else pi_out s)%nat → i ∈ pi_checked s;
  ok_next : pi_returned s = false → pi_out s ∉ pi_checked s
}.

Lemma verdicts_S k : verdicts (S k) = verdicts k ++ [Some (verify k)].
Proof. unfold verdicts. by rewrite seq_S, fmap_app. Qed.

Lemma drain_spec fuel ck er out snt out' snt' ret' :
  drain fuel ck er out snt = (out', snt', ret') →
  (out < n)%nat → (n - out ≤ fuel)%nat → snt = verdicts out → (∀ i, (i < out)%nat → i ∈ ck) →
  (∀ i, i ∈ ck → er !! i = Some (verify i)) →
  (out' < n)%nat ∧ snt' = verdicts (if ret' then n else out') ∧
  (∀ i, (i < if ret' then n else out')%nat → i ∈ ck) ∧ (ret' = false → out' ∉ ck).
Proof.
  revert out snt. induction fuel as [|fuel IH]; intros out snt H Hout Hf Hs Hb He; simpl in H; [lia|].
  destruct (decide (out ∈ ck)) as [Hin|Hnin].
  2:{ injection H as <- <- <-. done. }
  assert (∀ i, (i < S out)%nat → i ∈ ck) as Hb'.
  { intros i Hi. destruct (decide (i = out)) as [->|]; [done|]. apply Hb. lia. }
  assert (snt ++ [er !! out] = verdicts (S out)) as Hs' by (rewrite He by done; by rewrite verdicts_S, Hs).
  destruct (decide (out = n - 1)%nat) as [->|Hne].
  - injection H as <- <- <-. replace (S (n - 1)) with n in * by lia. done.
  - apply (IH (S out) _ H); (done || lia).
Qed.

(** Facts on lists used by the steps. *)
Lemma elem_middle {A} (x y : A) l1 l2 : x ∈ l1 ++ y :: l2 ↔ x = y ∨ x ∈ l1 ++ l2.
Proof. set_solver. Qed.

Lemma ok_start : (0 < n)%nat → ok start.
Proof.
  intros Hn. split; cbn; [lia|apply NoDup_nil_2|set_solver| | |done|done|lia|set_solver].
  - intros i. split; [lia|set_solver].
  - set_solver.
Qed.

Lemma pending_verify i wk1 j wk2 sd dn er ck out snt ret er' :
  pending (mkPipe i (wk1 ++ wk2) (j :: sd) dn er' ck out snt ret) ≡ₚ
  pending (mkPipe i (wk1 ++ j :: wk2) sd dn er ck out snt ret).
Proof. unfold pending. simpl. solve_Permutation. Qed.

Lemma pending_report i wk sd1 j sd2 dn er ck out snt ret :
  pending (mkPipe i wk (sd1 ++ sd2) (dn ++ [j]) er ck out snt ret) ≡ₚ
  pending (mkPipe i wk (sd1 ++ j :: sd2) dn er ck out snt ret).
Proof. unfold pending. simpl. solve_Permutation. Qed.

Lemma ok_step s s' : ok s → step s s' → ok s'.
Proof.
  intros Hok Hs. destruct Hs as [i wk sd dn er ck out snt Hi Hw|i wk1 j wk2 sd dn er ck out snt ret
    |i wk sd1 j sd2 dn er ck out snt ret Hd|i wk sd j dn er ck out snt out' snt' ret' Hdr];
    destruct Hok as [Hin Hnd Hdj Hcov Her Hsnt Hout Hbel Hnx]; cbn [pi_in pi_work pi_send pi_done pi_errors
      pi_checked pi_out pi_sent pi_returned] in *.
  - assert (i ∉ wk ++ sd ++ dn ∧ i ∉ ck) as [Hfr Hfc].
    { split; intros H; assert (i < i)%nat; (lia || apply Hcov; auto). }
    split; cbn; try done; try lia.
    + unfold pending. cbn. rewrite <- app_assoc. cbn.
      apply (NoDup_Permutation_proper _ (i :: wk ++ sd ++ dn)); [solve_Permutation|].
      constructor; [exact Hfr|exact Hnd].
    + unfold pending. cbn. intros k Hk. rewrite <- app_assoc in Hk. cbn in Hk.
      apply elem_middle in Hk as [->|Hk]; [exact Hfc|]. by apply Hdj.
    + unfold pending. cbn. intros k. rewrite <- app_assoc. cbn. rewrite elem_middle.
      specialize (Hcov k). unfold pending in Hcov. cbn in Hcov.
      assert (k < S i ↔ k < i ∨ k = i)%nat as -> by lia. rewrite Hcov. tauto.
  - pose proof (pending_verify i wk1 j wk2 sd dn er ck out snt ret (<[j := verify j]> er)) as Hp.
    split; cbn; try done.
    + by rewrite Hp.
    + intros k Hk. rewrite Hp in Hk. by apply Hdj.
    + intros k. rewrite Hp. apply Hcov.
    + intros k Hk. destruct (decide (k = j)) as [->|Hne]; [by rewrite lookup_insert_eq|].
      rewrite lookup_insert_ne by done. apply Her. destruct Hk as [Hk|Hk]; [left; set_solver|by right].
  - pose proof (pending_report i wk sd1 j sd2 dn er ck out snt ret) as Hp.
    split; cbn; try done.
    + by rewrite Hp.
    + intros k Hk. rewrite Hp in Hk. by apply Hdj.
    + intros k. rewrite Hp. apply Hcov.
    + intros k Hk. apply Her. destruct Hk as [Hk|Hk]; [left; set_solver|by right].
  - assert (pending (mkPipe i wk sd (j :: dn) er ck out snt false) ≡ₚ
      j :: pending (mkPipe i wk sd dn er ({[j]} ∪ ck) out' snt' ret')) as Hp.
    { unfold pending. cbn. solve_Permutation. }
    rewrite Hp in Hnd. apply NoDup_cons in Hnd as [Hj Hnd].
    assert (∀ k, k ∈ {[j]} ∪ ck → er !! k = Some (verify k)) as Her'.
    { intros k Hk. apply Her. apply elem_of_union in Hk as [Hk|Hk]; [left|by right].
      apply elem_of_singleton in Hk as ->. set_solver. }
    destruct (drain_spec n _ _ _ _ _ _ _ Hdr Hout ltac:(lia) Hsnt) as (D1 & D2 & D3 & D4); [|done|].
    { intros k Hk. apply elem_of_union_r. by apply Hbel. }
    split; cbn; try done.
    + intros k Hk. assert (k ≠ j) by (intros ->; done). specialize (Hdj k). rewrite Hp in Hdj. set_solver.
    + intros k. rewrite Hcov, Hp. set_solver.
    + intros k [Hk|Hk]; [|by apply Her']. apply Her. left. set_solver.
Qed.

(** ** Progress and termination *)

Definition todo (s : pipe) : nat :=
  (4 * (n - pi_in s) + 3 * length (pi_work s) + 2 * length (pi_send s) + length (pi_done s))%nat.

Lemma step_todo s s' : step s s' → todo s = S (todo s').
Proof.
  destruct 1; unfold todo; cbn; rewrite ?length_app; cbn; rewrite ?length_app; lia.
Qed.

Lemma ok_progress s : ok s → (0 < workers)%nat → pi_returned s = false → ∃ s', step s s'.
Proof.
  intros Hok Hw Hr. destruct s as [i wk sd dn er ck out snt ret]. cbn in Hr. subst ret.
  destruct dn as [|j dn].
  2:{ destruct (drain n ({[j]} ∪ ck) er out snt) as [[out' snt'] ret'] eqn:Hd. eexists. by apply step_collect. }
  destruct sd as [|j sd]; [|eexists; apply (step_report i wk [] j sd); cbn; lia].
  destruct wk as [|j wk]; [|eexists; apply (step_verify i [] j wk)].
  destruct Hok as [Hin Hnd Hdj Hcov Her Hsnt Hout Hbel Hnx]. cbn in *.
  destruct (decide (i < n)%nat) as [Hlt|Hge]; [eexists; by apply step_dispatch|].
  exfalso. apply (Hnx eq_refl). destruct (proj1 (Hcov out)) as [H|H]; [lia|set_solver|done].
Qed.

Lemma ok_reachable s : (0 < n)%nat → rtc step start s → ok s.
Proof.
  intros Hn Hs. pose proof (ok_start Hn) as Hok. revert Hok.
  induction Hs as [x|x y z Hxy _ IH]; [done|]. intros Hx. apply IH. by apply (ok_step x y).
Qed.

Lemma nsteps_todo k s s' : nsteps step k s s' → todo s = (k + todo s')%nat.
Proof.
  induction 1 as [s|k s1 s2 s3 H12 _ IH]; [done|]. rewrite (step_todo _ _ H12), IH. lia.
Qed.

End Pipeline.

(** ** Claims *)

(** C38: whatever the scheduling of the workers, the verdicts leave
    [VerifyHeaders] in the order of the headers, each one the worker's own
    (never an unwritten slot): at any moment a prefix of them has been sent,
    the collector returns exactly when all have been, and until then some
    goroutine can move, at most [4n] times in all. *)
Theorem VerifyHeaders_in_order {B : Backend} HashCZZ GetHeader e headers seals now (factors : nat → option Z)
    (workers k : nat) s :
  let n := length headers in
  let verdict i := verifyHeaderWorker HashCZZ GetHeader e headers seals i now (factors i) in
  (0 < n)%nat → (0 < workers)%nat → nsteps (step n workers verdict) k start s →
  (∃ m, (m ≤ n)%nat ∧ pi_sent s = (λ i, Some (verdict i)) <$> seq 0 m ∧ (pi_returned s = true ↔ m = n)) ∧
  (pi_returned s = false → ∃ s', step n workers verdict s s') ∧
  (k ≤ 4 * n)%nat.
Proof.
  intros n verdict Hn Hw Hk.
  assert (ok n verdict s) as Hok by (apply (ok_reachable n workers); [done|by eapply rtc_nsteps_2]).
  split; [|split; [by apply ok_progress|]].
  - exists (if pi_returned s then n else pi_out s). pose proof (ok_out _ _ _ Hok).
    split; [destruct (pi_returned s); lia|]. split; [apply (ok_sent _ _ _ Hok)|].
    destruct (pi_returned s); [done|]. split; [done|lia].
  - pose proof (nsteps_todo _ _ _ _ _ _ Hk) as Ht. unfold todo at 1 in Ht. cbn in Ht. lia.
Qed.

Lemma VerifyHeaders_in_order_witness :
  ∃ s', step 1 2 (λ i, verifyHeaderWorker zero_pow demo_reader (mkEthash ModeNormal 0 None) [demo_header] [true] i
                         1010 None) start s'.
Proof.
  apply (proj1 (proj2 (VerifyHeaders_in_order zero_pow demo_reader (mkEthash ModeNormal 0 None) [demo_header]
    [true] 1010 (λ _, None) 2 0 start ltac:(cbn; lia) ltac:(lia) (nsteps_O _ start)))).
  reflexivity.
Defined.
