(* ===== verification/HeaderRlp.v ===== *)
(** * Decoding block headers (core/types/block.go, rlp/decode.go)

    The struct decoder at [types.Header]: thirteen fields and the base fee,
    which is optional and stays nil when the list ends before it.  A header
    that fits its Go types is decoded from its own encoding, whatever follows
    the encoding in the input. *)
From S2P Require Import Prelude Common RlpEncode RlpDecode StateObject TeWaka Consensus.
Import Enc Raw Bytes Dec.
Open Scope go_scope.

Definition Header_types : list gtype :=
  [TArray 32; TArray 20; TArray 32; TArray 32; TArray 32; TArray 256; TBig; TBig;
   TUint 64; TUint 64; TUint 64; TBytes; TArray 8].

(** The fields of a decoded value; the base fee is the optional one. *)
Definition Header_of (l : list gval) (baseFee : option gval) : option Header :=
  match l with
  | [VArray parent; VArray coinbase; VArray root; VArray txs; VArray receipts; VArray bloom;
     VBig (Some difficulty); VBig (Some number); VUint gasLimit; VUint gasUsed; VUint time;
     VBytes extra; VArray nonce] =>
      Some (mkHeader (BytesToHash parent) (BytesToAddress coinbase) (BytesToHash root) (BytesToHash txs)
        (BytesToHash receipts) bloom difficulty number gasLimit gasUsed time extra nonce
        (match baseFee with Some (VBig b) => b | _ => None end))
  | _ => None
  end.

(** The end of the list at an optional field zeroes the rest. *)
Definition optional_field (t : gtype) : SM (option gval) := λ s,
  match decode t s with
  | (Err EOL, s') => (Ok None, s')
  | (Err e, s') => (Err e, s')
  | (Ok v, s') => (Ok (Some v), s')
  end.

Definition decode_Header : SM Header :=
  seq! _ <- wrapped List__;
  seq! l <- fields Header_types;
  seq! o <- optional_field TBig;
  seq! _ <- wrapped ListEnd;
  match Header_of l o with
  | Some h => sret h
  | None => serr (decodeError "unreachable")
  end.

(** [rlp.Decode] of a header from a [bytes.Reader]: what follows the value is
    not looked at. *)
Definition Decode_Header (b : bytes) : result rlp_error Header := fst (decode_Header (Reset b)).

(** ** Headers that fit their Go types *)

Record header_wf (h : Header) : Prop := mkHeaderWf {
  hw_parent : is_u256 (hd_ParentHash h);
  hw_coinbase : 0 ≤ hd_Coinbase h < 2 ^ 160;
  hw_root : is_u256 (hd_Root h);
  hw_txs : is_u256 (hd_TxHash h);
  hw_receipts : is_u256 (hd_ReceiptHash h);
  hw_bloom : wf_bytes (hd_Bloom h) ∧ length (hd_Bloom h) = 256%nat;
  hw_difficulty : 0 ≤ hd_Difficulty h;
  hw_number : 0 ≤ hd_Number h;
  hw_gas : is_u64 (hd_GasLimit h) ∧ is_u64 (hd_GasUsed h) ∧ is_u64 (hd_Time h);
  hw_extra : wf_bytes (hd_Extra h);
  hw_nonce : wf_bytes (hd_Nonce h) ∧ length (hd_Nonce h) = 8%nat;
  hw_fee : match hd_BaseFee h with Some b => 0 ≤ b | None => True end;
  hw_size : zlen (enc (item_of (Header_val h))) < 2 ^ 64
}.

(** The thirteen fields that are always there. *)
Definition Header_vals (h : Header) : list gval :=
  [hash_val (hd_ParentHash h); addr_val (hd_Coinbase h); hash_val (hd_Root h); hash_val (hd_TxHash h);
   hash_val (hd_ReceiptHash h); VArray (hd_Bloom h); VBig (Some (hd_Difficulty h));
   VBig (Some (hd_Number h)); VUint (hd_GasLimit h); VUint (hd_GasUsed h); VUint (hd_Time h);
   VBytes (hd_Extra h); VArray (hd_Nonce h)].

Definition fee_val (h : Header) : option gval := (λ b, VBig (Some b)) <$> hd_BaseFee h.

Lemma Header_val_split h :
  Header_val h = VList (Header_vals h ++ match fee_val h with Some v => [v] | None => [] end).
Proof. unfold Header_val, fee_val. by destruct (hd_BaseFee h). Qed.

Lemma Header_of_vals h : header_wf h → Header_of (Header_vals h) (fee_val h) = Some h.
Proof.
  intros []. unfold Header_vals, Header_of, hash_val, addr_val, fee_val.
  rewrite !BytesToHash_Bytes, BytesToAddress_Bytes by done. by destruct h as [????????????? []].
Qed.

Lemma Header_vals_typed h : header_wf h → Forall2 (λ t v, has_type t v = true) Header_types (Header_vals h).
Proof.
  intros []. destruct hw_bloom0 as [Hb1 Hb2], hw_nonce0 as [Hn1 Hn2], hw_gas0 as ([] & [] & []).
  assert (∀ n z, has_type (TArray n) (VArray (be_fixed n z)) = true) as Ha.
  { intros n z. cbn. by rewrite bool_decide_true, length_be_fixed, Nat.eqb_refl by apply wf_be_fixed. }
  assert (∀ z, 0 ≤ z → z < 2 ^ 64 → has_type (TUint 64) (VUint z) = true) as Hu.
  { intros z Hz1 Hz2. cbn [has_type]. by rewrite (proj2 (Z.leb_le _ _) Hz1), (proj2 (Z.ltb_lt _ _) Hz2). }
  assert (∀ n b, wf_bytes b → length b = n → has_type (TArray n) (VArray b) = true) as Hw.
  { intros n b Hb <-. cbn. by rewrite bool_decide_true, Nat.eqb_refl. }
  unfold Header_types, Header_vals.
  repeat first [apply List.Forall2_nil | apply List.Forall2_cons]; try apply Ha; try (by apply Hu); try (by apply Hw);
    try (cbn; by apply Z.leb_le); cbn; by apply bool_decide_eq_true.
Qed.

(** The fields of a struct are read one after the other, and what comes after
    them in the list is left. *)
Lemma fields_prefix ts vs :
  Forall2 (λ t v, has_type t v = true) ts vs →
  ∀ c rest rem sz ke st bv,
  let n := zlen (concat (map enc (map item_of vs))) in
  n + zlen c ≤ rem < 2 ^ 64 →
  ∃ sz' ke' bv',
  fields ts (mkStream (concat (map enc (map item_of vs)) ++ c ++ rest) rem true sz ke (n + zlen c :: st) None bv) =
  (Ok vs, mkStream (c ++ rest) (rem - n) true sz' ke' (zlen c :: st) None bv').
Proof.
  induction 1 as [|t v ts vs Hv Hvs IH]; intros c rest rem sz ke st bv n Hrem; subst n.
  - exists sz, ke, bv. cbn. by rewrite Z.sub_0_r.
  - cbn [map] in *. rewrite !concat_cons in *. rewrite !zlen_app in *.
    set (d := concat (map enc (map item_of vs))) in *.
    pose proof (zlen_nonneg d). pose proof (zlen_nonneg c). pose proof (zlen_nonneg (enc (item_of v))).
    cbn [fields]. rewrite <- app_assoc.
    destruct (reads_decode t v Hv (d ++ c ++ rest) rem sz ke ((zlen (enc (item_of v)) + zlen d + zlen c) :: st) bv)
      as (sz1 & ke1 & bv1 & E1); [lia|simpl; lia|].
    rewrite E1. cbn [consume].
    replace (zlen (enc (item_of v)) + zlen d + zlen c - zlen (enc (item_of v))) with (zlen d + zlen c) by lia.
    destruct (IH c rest (rem - zlen (enc (item_of v))) sz1 ke1 st bv1) as (sz2 & ke2 & bv2 & E2); [lia|].
    exists sz2, ke2, bv2. unfold sbind. rewrite E2. unfold sret. do 2 f_equal. lia.
Qed.

Lemma reads_Header h : header_wf h → reads decode_Header (enc (item_of (Header_val h))) h.
Proof.
  intros Hw. pose proof (Header_vals_typed h Hw) as Ht. rewrite Header_val_split.
  apply (reads_list (λ _, seq! l <- fields Header_types; seq! o <- optional_field TBig; seq! _ <- wrapped ListEnd;
    match Header_of l o with Some h => sret h | None => serr (decodeError "unreachable") end)).
  intros n rest rem sz ke st bv En Hrem.
  set (c := match fee_val h with Some v => enc (item_of v) | None => [] end).
  assert (concat (map enc (map item_of (Header_vals h ++ match fee_val h with Some v => [v] | None => [] end)))
    = concat (map enc (map item_of (Header_vals h))) ++ c) as Ec.
  { rewrite !map_app, concat_app. f_equal. subst c. destruct (fee_val h); [|done]. cbn [map concat]. by rewrite app_nil_r. }
  rewrite Ec in *. rewrite zlen_app in En. subst n.
  destruct (fields_prefix _ _ Ht c rest rem sz ke st bv) as (sz1 & ke1 & bv1 & E1); [done|].
  unfold sbind at 1. rewrite <- app_assoc, E1. clear E1.
  assert (∃ sz2 ke2 bv2, optional_field TBig
      (mkStream (c ++ rest) (rem - zlen (concat (map enc (map item_of (Header_vals h))))) true sz1 ke1 (zlen c :: st) None bv1)
    = (Ok (fee_val h), mkStream rest (rem - zlen (concat (map enc (map item_of (Header_vals h)))) - zlen c) true sz2 ke2
         (0 :: st) None bv2)) as (sz2 & ke2 & bv2 & E2).
  { pose proof (zlen_nonneg (concat (map enc (map item_of (Header_vals h))))). unfold optional_field. subst c. unfold fee_val in *.
    destruct (hd_BaseFee h) as [b|] eqn:Eb; cbn [fmap option_fmap option_map] in *.
    - pose proof (hw_fee h Hw) as Hb. rewrite Eb in Hb.
      destruct (reads_decode TBig (VBig (Some b)) ltac:(cbn; lia) rest
        (rem - zlen (concat (map enc (map item_of (Header_vals h))))) sz1 ke1 (zlen (enc (item_of (VBig (Some b)))) :: st) bv1)
        as (sz2 & ke2 & bv2 & E2); [lia|unfold room; lia|].
      rewrite E2. cbn [consume]. rewrite Z.sub_diag. eauto.
    - change (zlen []) with 0 in *. rewrite decode_EOL. cbn [app]. rewrite Z.sub_0_r. eauto. }
  unfold sbind at 1. rewrite E2. clear E2. unfold sbind, wrapped, sret.
  destruct (ListEnd_ok rest (rem - zlen (concat (map enc (map item_of (Header_vals h)))) - zlen c) sz2 ke2 st bv2) as [sz3 E3].
  rewrite E3, Header_of_vals by done. exists sz3, ke2, bv2. do 2 f_equal. lia.
Qed.

Lemma Header_val_ok h : header_wf h → EncodeToBytes (Header_val h) = Ok (enc (item_of (Header_val h))).
Proof.
  intros Hw. pose proof (Header_vals_typed h Hw) as Ht.
  assert (val_ok (Header_val h) = true ∧ nonneg (Header_val h) = true) as [H1 H2].
  { rewrite Header_val_split. cbn [val_ok nonneg]. rewrite !forallb_app.
    assert (forallb val_ok (Header_vals h) = true ∧ forallb nonneg (Header_vals h) = true) as [-> ->].
    { clear Hw. induction Ht as [|t v ts vs Hv _ [IH1 IH2]]; [done|]. cbn [forallb].
      destruct (has_type_val_ok t v Hv) as [-> ->]. done. }
    pose proof (hw_fee h Hw) as Hf. unfold fee_val. destruct (hd_BaseFee h) as [b|]; [|done]. cbn.
    by rewrite (proj2 (Z.leb_le 0 b) Hf). }
  apply EncodeToBytes_enc; [done|done|apply hw_size, Hw].
Qed.

(** A header is decoded from its own encoding, whatever bytes follow it. *)
Lemma Decode_Header_enc h rest :
  header_wf h → zlen (enc (item_of (Header_val h)) ++ rest) < 2 ^ 64 →
  Decode_Header (enc (item_of (Header_val h)) ++ rest) = Ok h.
Proof.
  intros Hw Hl. unfold Decode_Header, Reset.
  destruct (reads_Header h Hw rest (zlen (enc (item_of (Header_val h)) ++ rest)) 0 None [] 0) as (sz & ke & bv & E).
  - rewrite zlen_app in *. pose proof (zlen_nonneg rest). lia.
  - done.
  - by rewrite E.
Qed.
