(* ===== verification/RawDB.v ===== *)
(** * The chain database (core/rawdb/schema.go, accessors_chain.go,
    accessors_indexes.go)

    A key-value store of byte strings with the ancient store beside it, the
    keys of the schema and the accessors over them.  Writers collect into a
    batch that is applied in order; a failure to store or to encode ends the
    process ([log.Crit]) and is [Panic] here.  The store itself is assumed not
    to fail. *)
From stdpp Require Import sorting.
From S2P Require Import Prelude Common RlpEncode RlpDecode StateObject TeWaka Consensus HeaderRlp.
Import Enc Raw Bytes Dec.

(** ** The store *)

(** [Ancient]: the tables of the freezer by name and number. *)
Record Database := mkDatabase {
  db_kv : gmap bytes bytes;
  db_Ancient : string → Z → result string bytes
}.

Definition db_Get (k : bytes) (db : Database) : bytes := default [] (db_kv db !! k).
Definition db_Has (k : bytes) (db : Database) : bool := bool_decide (is_Some (db_kv db !! k)).

(** [data, _ := db.Ancient(kind, number)]. *)
Definition ancient_data (kind : string) (number : Z) (db : Database) : bytes :=
  match db_Ancient db kind number with Ok b => b | Err _ => [] end.

(** [nofreezedb]: no ancient store. *)
Definition errNotSupported : string := "this operation is not supported".
Definition nofreezedb (kv : gmap bytes bytes) : Database := mkDatabase kv (λ _ _, Err errNotSupported).

(** A batch in the order of its writes; [None] deletes. *)
Abbreviation batch := (list (bytes * option bytes)).

Definition Put (k v : bytes) (b : batch) : batch := b ++ [(k, Some v)].
Definition Delete (k : bytes) (b : batch) : batch := b ++ [(k, None)].

Definition kv_apply (kv : gmap bytes bytes) (op : bytes * option bytes) : gmap bytes bytes :=
  match snd op with Some v => <[fst op := v]> kv | None => delete (fst op) kv end.

Definition batch_Write (b : batch) (db : Database) : Database :=
  mkDatabase (fold_left kv_apply b (db_kv db)) (db_Ancient db).

(** Byte strings in the order of the iterator. *)
Fixpoint bytes_leb (a b : bytes) : bool :=
  match a, b with
  | [], _ => true
  | _, [] => false
  | x :: a', y :: b' => if x <? y then true else if y <? x then false else bytes_leb a' b'
  end.
Definition entry_le (p q : bytes * bytes) : Prop := bytes_leb (fst p) (fst q) = true.
#[export] Instance entry_le_dec : RelDecision entry_le.
Proof. intros p q. unfold entry_le. apply _. Defined.

Definition HasPrefix (p k : bytes) : bool := bool_decide (p `prefix_of` k).

(** [NewIterator(prefix, start)]: the keys with the prefix from [start] on, in
    order. *)
Definition NewIterator (prefix start : bytes) (db : Database) : list (bytes * bytes) :=
  merge_sort entry_le (filter (λ kv, HasPrefix prefix (fst kv) = true ∧ bytes_leb (prefix ++ start) (fst kv) = true)
    (map_to_list (db_kv db))).

(** ** The schema *)

Definition ascii_bytes (s : string) : bytes :=
  (λ c, Z.of_nat (Ascii.nat_of_ascii c)) <$> String.list_ascii_of_string s.

Definition headHeaderKey : bytes := ascii_bytes "LastHeader".
Definition headBlockKey : bytes := ascii_bytes "LastBlock".
Definition headFastBlockKey : bytes := ascii_bytes "LastFast".
Definition lastPivotKey : bytes := ascii_bytes "LastPivot".
Definition fastTrieProgressKey : bytes := ascii_bytes "TrieSync".
Definition txIndexTailKey : bytes := ascii_bytes "TransactionIndexTail".
Definition fastTxLookupLimitKey : bytes := ascii_bytes "FastTransactionLookupLimit".

Definition headerPrefix : bytes := ascii_bytes "h".
Definition headerTDSuffix : bytes := ascii_bytes "t".
Definition headerHashSuffix : bytes := ascii_bytes "n".
Definition headerNumberPrefix : bytes := ascii_bytes "H".
Definition blockBodyPrefix : bytes := ascii_bytes "b".
Definition blockReceiptsPrefix : bytes := ascii_bytes "r".
Definition txLookupPrefix : bytes := ascii_bytes "l".
Definition bloomBitsPrefix : bytes := ascii_bytes "B".
Definition SnapshotAccountPrefix : bytes := ascii_bytes "a".
Definition SnapshotStoragePrefix : bytes := ascii_bytes "o".
Definition CodePrefix : bytes := ascii_bytes "c".
Definition configPrefix : bytes := ascii_bytes "classzz-config-".

Definition freezerHeaderTable : string := "headers".
Definition freezerHashTable : string := "hashes".
Definition freezerBodiesTable : string := "bodies".
Definition freezerReceiptTable : string := "receipts".
Definition freezerDifficultyTable : string := "diffs".

Definition encodeBlockNumber (number : Z) : bytes := be_fixed 8 number.

Definition headerKeyPrefix (number : Z) : bytes := headerPrefix ++ encodeBlockNumber number.
Definition headerKey (number : Z) (h : hash) : bytes := headerPrefix ++ encodeBlockNumber number ++ Hash_Bytes h.
Definition headerTDKey (number : Z) (h : hash) : bytes := headerKey number h ++ headerTDSuffix.
Definition headerHashKey (number : Z) : bytes := headerPrefix ++ encodeBlockNumber number ++ headerHashSuffix.
Definition headerNumberKey (h : hash) : bytes := headerNumberPrefix ++ Hash_Bytes h.
Definition blockBodyKey (number : Z) (h : hash) : bytes := blockBodyPrefix ++ encodeBlockNumber number ++ Hash_Bytes h.
Definition blockReceiptsKey (number : Z) (h : hash) : bytes :=
  blockReceiptsPrefix ++ encodeBlockNumber number ++ Hash_Bytes h.
Definition txLookupKey (h : hash) : bytes := txLookupPrefix ++ Hash_Bytes h.
Definition accountSnapshotKey (h : hash) : bytes := SnapshotAccountPrefix ++ Hash_Bytes h.
Definition storageSnapshotKey (a s : hash) : bytes := SnapshotStoragePrefix ++ Hash_Bytes a ++ Hash_Bytes s.
Definition storageSnapshotsKey (a : hash) : bytes := SnapshotStoragePrefix ++ Hash_Bytes a.
Definition bloomBitsKey (bit section : Z) (h : hash) : bytes :=
  bloomBitsPrefix ++ be_fixed 2 bit ++ be_fixed 8 section ++ Hash_Bytes h.
Definition codeKey (h : hash) : bytes := CodePrefix ++ Hash_Bytes h.
Definition configKey (h : hash) : bytes := configPrefix ++ Hash_Bytes h.

Definition IsCodeKey (key : bytes) : bool * bytes :=
  if HasPrefix CodePrefix key && (zlen key =? 32 + zlen CodePrefix) then (true, drop (length CodePrefix) key)
  else (false, []).

(** ** Accessors *)

Section Accessors.
Context {B : Backend}.
Implicit Types (db : Database) (b : batch) (number : Z).

(** The hash stored under a key: nothing reads as the zero hash. *)
Definition read_hash (data : bytes) : hash := match data with [] => 0 | _ => BytesToHash data end.

Definition ReadCanonicalHash db number : hash :=
  let data := ancient_data freezerHashTable number db in
  let data :=
    match data with
    | [] =>
        let data := db_Get (headerHashKey number) db in
        match data with [] => ancient_data freezerHashTable number db | _ => data end
    | _ => data
    end in
  read_hash data.

Definition WriteCanonicalHash (h : hash) number b : batch := Put (headerHashKey number) (Hash_Bytes h) b.
Definition DeleteCanonicalHash number b : batch := Delete (headerHashKey number) b.

Definition ReadAllHashes db number : list hash :=
  let prefix := headerKeyPrefix number in
  (λ kv, BytesToHash (drop (length (fst kv) - 32) (fst kv))) <$>
    filter (λ kv, length (fst kv) = (length prefix + 32)%nat) (NewIterator prefix [] db).

(** The loop over the iterator of [ReadAllCanonicalHashes]. *)
Fixpoint canonical_loop (limit : Z) (last : bytes) (it : list (bytes * bytes)) (numbers : list Z) (hashes : list hash)
    : list Z * list hash :=
  match it with
  | [] => (numbers, hashes)
  | (key, value) :: it =>
      if bytes_leb last key then (numbers, hashes)
      else if (zlen key =? zlen headerPrefix + 8 + 1)
              && bool_decide (drop (length key - 1) key = headerHashSuffix) then
        let numbers := numbers ++ [be_decode (slice key (zlen headerPrefix) (zlen headerPrefix + 8))] in
        let hashes := hashes ++ [BytesToHash value] in
        if limit <=? zlen numbers then (numbers, hashes) else canonical_loop limit last it numbers hashes
      else canonical_loop limit last it numbers hashes
  end.

Definition ReadAllCanonicalHashes db (from to limit : Z) : list Z * list hash :=
  if limit =? 0 then ([], [])
  else canonical_loop limit (headerHashKey to) (NewIterator [] (headerHashKey from) db) [] [].

(** An eight-byte big-endian number. *)
Definition read_uint64 (data : bytes) : option Z := if zlen data =? 8 then Some (be_decode data) else None.

Definition ReadHeaderNumber db (h : hash) : option Z := read_uint64 (db_Get (headerNumberKey h) db).
Definition WriteHeaderNumber (h : hash) number b : batch := Put (headerNumberKey h) (encodeBlockNumber number) b.
Definition DeleteHeaderNumber (h : hash) b : batch := Delete (headerNumberKey h) b.

Definition ReadHeadHeaderHash db : hash := read_hash (db_Get headHeaderKey db).
Definition WriteHeadHeaderHash (h : hash) b : batch := Put headHeaderKey (Hash_Bytes h) b.
Definition ReadHeadBlockHash db : hash := read_hash (db_Get headBlockKey db).
Definition WriteHeadBlockHash (h : hash) b : batch := Put headBlockKey (Hash_Bytes h) b.
Definition ReadHeadFastBlockHash db : hash := read_hash (db_Get headFastBlockKey db).
Definition WriteHeadFastBlockHash (h : hash) b : batch := Put headFastBlockKey (Hash_Bytes h) b.

(** An encoded value, or the end of the process. *)
Definition must_encode (v : gval) : outcome bytes :=
  match EncodeToBytes v with Ok data => Ret data | Err _ => Panic end.

Definition ReadLastPivotNumber db : option Z :=
  match db_Get lastPivotKey db with
  | [] => None
  | data => match DecodeBytes (TUint 64) data with Ok (VUint pivot) => Some pivot | _ => None end
  end.
Definition WriteLastPivotNumber (pivot : Z) b : outcome batch :=
  (do! enc <- must_encode (VUint pivot); Ret (Put lastPivotKey enc b))%go.

Definition ReadFastTrieProgress db : Z :=
  match db_Get fastTrieProgressKey db with [] => 0 | data => u64 (be_decode data) end.
Definition WriteFastTrieProgress (count : Z) b : batch := Put fastTrieProgressKey (be_min count) b.

Definition ReadTxIndexTail db : option Z := read_uint64 (db_Get txIndexTailKey db).
Definition WriteTxIndexTail number b : batch := Put txIndexTailKey (encodeBlockNumber number) b.
Definition ReadFastTxLookupLimit db : option Z := read_uint64 (db_Get fastTxLookupLimitKey db).
Definition WriteFastTxLookupLimit number b : batch := Put fastTxLookupLimitKey (encodeBlockNumber number) b.

Definition ReadHeaderRLP db (h : hash) number : bytes :=
  let frozen := ancient_data freezerHeaderTable number db in
  if (0 <? zlen frozen) && (Keccak256Hash frozen =? h) then frozen
  else
    match db_Get (headerKey number h) db with
    | [] =>
        let frozen := ancient_data freezerHeaderTable number db in
        if (0 <? zlen frozen) && (Keccak256Hash frozen =? h) then frozen else []
    | data => data
    end.

(** [HasHeader], [HasBody] and [HasReceipts] on the key of their table. *)
Definition has_data db (key : bytes) (h : hash) number : bool :=
  match db_Ancient db freezerHashTable number with
  | Ok has => if BytesToHash has =? h then true else db_Has key db
  | Err _ => db_Has key db
  end.
Definition HasHeader db (h : hash) number : bool := has_data db (headerKey number h) h number.

Definition ReadHeader db (h : hash) number : option Header :=
  match ReadHeaderRLP db h number with
  | [] => None
  | data => match Decode_Header data with Ok header => Some header | Err _ => None end
  end.

Definition WriteHeader (header : Header) b : outcome batch :=
  (let h := Header_Hash header in
   let number := u64 (hd_Number header) in
   let b := WriteHeaderNumber h number b in
   do! data <- must_encode (Header_val header);
   Ret (Put (headerKey number h) data b))%go.

Definition deleteHeaderWithoutNumber (h : hash) number b : batch := Delete (headerKey number h) b.
Definition DeleteHeader (h : hash) number b : batch :=
  Delete (headerNumberKey h) (deleteHeaderWithoutNumber h number b).

(** [ReadBodyRLP], [ReadTdRLP] and [ReadReceiptsRLP] on their tables: the
    ancient tables hold canonical data only, so the hash is compared. *)
Definition frozen_data db (table : string) (h : hash) number : option bytes :=
  match ancient_data table number db with
  | [] => None
  | data => if BytesToHash (ancient_data freezerHashTable number db) =? h then Some data else None
  end.
Definition read_data db (table : string) (key : bytes) (h : hash) number : bytes :=
  match frozen_data db table h number with
  | Some data => data
  | None =>
      match db_Get key db with
      | [] => match frozen_data db table h number with Some data => data | None => [] end
      | data => data
      end
  end.

Definition ReadBodyRLP db (h : hash) number : bytes := read_data db freezerBodiesTable (blockBodyKey number h) h number.
Definition ReadCanonicalBodyRLP db number : bytes :=
  match ancient_data freezerBodiesTable number db with
  | [] =>
      match db_Get (blockBodyKey number (ReadCanonicalHash db number)) db with
      | [] => ancient_data freezerBodiesTable number db
      | data => data
      end
  | data => data
  end.
Definition WriteBodyRLP (h : hash) number (rlp : bytes) b : batch := Put (blockBodyKey number h) rlp b.
(** The transactions as the values they are encoded from. *)
Definition Body_val (transactions : list gval) : gval := VList [VList transactions].
Definition WriteBody (h : hash) number (transactions : list gval) b : outcome batch :=
  (do! data <- must_encode (Body_val transactions); Ret (WriteBodyRLP h number data b))%go.
Definition HasBody db (h : hash) number : bool := has_data db (blockBodyKey number h) h number.
Definition DeleteBody (h : hash) number b : batch := Delete (blockBodyKey number h) b.

Definition ReadTdRLP db (h : hash) number : bytes := read_data db freezerDifficultyTable (headerTDKey number h) h number.

(** [rlp.Decode] of a [big.Int] from a [bytes.Reader]. *)
Definition Decode_Big (data : bytes) : option Z := match fst (decodeBigInt (Reset data)) with Ok i => Some i | Err _ => None end.

Definition ReadTd db (h : hash) number : option Z :=
  match ReadTdRLP db h number with [] => None | data => Decode_Big data end.
Definition WriteTd (h : hash) number (td : Z) b : outcome batch :=
  (do! data <- must_encode (VBig (Some td)); Ret (Put (headerTDKey number h) data b))%go.
Definition DeleteTd (h : hash) number b : batch := Delete (headerTDKey number h) b.

Definition HasReceipts db (h : hash) number : bool := has_data db (blockReceiptsKey number h) h number.
Definition ReadReceiptsRLP db (h : hash) number : bytes :=
  read_data db freezerReceiptTable (blockReceiptsKey number h) h number.
(** The receipts in their storage form. *)
Definition WriteReceipts (h : hash) number (receipts : list gval) b : outcome batch :=
  (do! data <- must_encode (VList receipts); Ret (Put (blockReceiptsKey number h) data b))%go.
Definition DeleteReceipts (h : hash) number b : batch := Delete (blockReceiptsKey number h) b.

Definition WriteBlock (header : Header) (transactions : list gval) b : outcome batch :=
  (do! b <- WriteBody (Header_Hash header) (u64 (hd_Number header)) transactions b;
   WriteHeader header b)%go.
Definition DeleteBlock (h : hash) number b : batch :=
  DeleteTd h number (DeleteBody h number (DeleteHeader h number (DeleteReceipts h number b))).
Definition DeleteBlockWithoutNumber (h : hash) number b : batch :=
  DeleteTd h number (DeleteBody h number (deleteHeaderWithoutNumber h number (DeleteReceipts h number b))).

(** ** Common ancestors *)

Definition parent_of db (a : Header) : option Header := ReadHeader db (hd_ParentHash a) (u64 (u64 (hd_Number a) - 1)).

(** [for a.Number.Uint64() > bn { a = parent }], and the same for [b]. *)
Fixpoint lower (fuel : nat) db (n : Z) (a : Header) : xres (option Header) :=
  if n <? u64 (hd_Number a) then
    match fuel with
    | O => XFuel
    | S fuel => match parent_of db a with None => XRet None | Some a => lower fuel db n a end
    end
  else XRet (Some a).

(** [for a.Hash() != b.Hash()]. *)
Fixpoint meet (fuel : nat) db (a b : Header) : xres (option Header) :=
  if Header_Hash a =? Header_Hash b then XRet (Some a)
  else
    match fuel with
    | O => XFuel
    | S fuel =>
        match parent_of db a with
        | None => XRet None
        | Some a => match parent_of db b with None => XRet None | Some b => meet fuel db a b end
        end
    end.

Definition FindCommonAncestor (fuel : nat) db (a b : Header) : xres (option Header) :=
  match lower fuel db (u64 (hd_Number b)) a with
  | XRet (Some a) =>
      match lower fuel db (u64 (hd_Number a)) b with
      | XRet (Some b) => meet fuel db a b
      | r => r
      end
  | r => r
  end.

Definition ReadHeadHeader db : option Header :=
  let h := ReadHeadHeaderHash db in
  if h =? 0 then None
  else match ReadHeaderNumber db h with None => None | Some number => ReadHeader db h number end.

(** The configuration as the bytes of its JSON form. *)
Definition WriteChainConfig (h : hash) (data : bytes) b : batch := Put (configKey h) data b.

(** ** Transaction lookup entries *)

Definition ReadTxLookupEntry db (h : hash) : option Z :=
  let data := db_Get (txLookupKey h) db in
  if zlen data =? 0 then None
  else if zlen data <? 32 then Some (u64 (be_decode data))
  else if zlen data =? 32 then ReadHeaderNumber db (BytesToHash data)
  else
    match DecodeBytes (TStruct [TArray 32; TUint 64; TUint 64]) data with
    | Ok (VList [_; VUint blockIndex; _]) => Some blockIndex
    | _ => None
    end.
Definition writeTxLookupEntry (h : hash) (numberBytes : bytes) b : batch := Put (txLookupKey h) numberBytes b.
Definition WriteTxLookupEntries number (hashes : list hash) b : batch :=
  fold_left (λ b h, writeTxLookupEntry h (be_min number) b) hashes b.
Definition DeleteTxLookupEntry (h : hash) b : batch := Delete (txLookupKey h) b.
Definition DeleteTxLookupEntries (hashes : list hash) b : batch :=
  fold_left (λ b h, DeleteTxLookupEntry h b) hashes b.

End Accessors.
