(* ===== verification/RawDBSpec.v ===== *)
(** * The chain database as typed tables

    The keys of the schema are injective and never coincide, so the header
    part of the store is five independent tables: headers, total difficulties,
    numbers by hash, canonical hashes by number, the head.  The accessors
    refine lookups and updates of these tables, batches refine sequences of
    updates, and keys outside the header schema do not touch them. *)
From stdpp Require Import sorting.
From S2P Require Import Prelude Common RlpEncode RlpDecode StateObject Concrete TeWaka Consensus HeaderRlp RawDB.
Import Enc Raw Bytes Dec.

(** ** Keys *)

Lemma length_encodeBlockNumber n : length (encodeBlockNumber n) = 8%nat.
Proof. apply length_be_fixed. Qed.

Lemma length_headerKey n h : length (headerKey n h) = 41%nat.
Proof. unfold headerKey. by rewrite !length_app, length_encodeBlockNumber, length_Hash_Bytes. Qed.
Lemma length_headerTDKey n h : length (headerTDKey n h) = 42%nat.
Proof. unfold headerTDKey. by rewrite length_app, length_headerKey. Qed.
Lemma length_headerHashKey n : length (headerHashKey n) = 10%nat.
Proof. unfold headerHashKey. by rewrite !length_app, length_encodeBlockNumber. Qed.
Lemma length_headerNumberKey h : length (headerNumberKey h) = 33%nat.
Proof. unfold headerNumberKey. by rewrite !length_app, length_Hash_Bytes. Qed.

Lemma encodeBlockNumber_inj n m : is_u64 n → is_u64 m → encodeBlockNumber n = encodeBlockNumber m → n = m.
Proof. intros [] []. by apply (be_fixed_inj 8). Qed.

Lemma headerKey_inj n g m h :
  is_u64 n → is_u256 g → is_u64 m → is_u256 h → headerKey n g = headerKey m h → n = m ∧ g = h.
Proof.
  intros Hn Hg Hm Hh [_ E]%app_inj_1; [|done].
  apply app_inj_1 in E as [En Eh]; [|by rewrite !length_encodeBlockNumber].
  split; [by apply encodeBlockNumber_inj|by apply Hash_Bytes_inj].
Qed.
Lemma headerTDKey_inj n g m h :
  is_u64 n → is_u256 g → is_u64 m → is_u256 h → headerTDKey n g = headerTDKey m h → n = m ∧ g = h.
Proof. intros Hn Hg Hm Hh [E _]%app_inj_1; [by apply headerKey_inj|by rewrite !length_headerKey]. Qed.
Lemma headerHashKey_inj n m : is_u64 n → is_u64 m → headerHashKey n = headerHashKey m → n = m.
Proof.
  intros Hn Hm [_ E]%app_inj_1; [|done].
  apply app_inj_1 in E as [E _]; [|by rewrite !length_encodeBlockNumber]. by apply encodeBlockNumber_inj.
Qed.
Lemma headerNumberKey_inj g h : is_u256 g → is_u256 h → headerNumberKey g = headerNumberKey h → g = h.
Proof. intros Hg Hh [_ E]%app_inj_1; [|done]. by apply Hash_Bytes_inj. Qed.

Lemma wf_headerKey n h : wf_bytes (headerKey n h).
Proof.
  apply Forall_app. split; [constructor; [cbv; done|constructor]|].
  apply Forall_app. split; apply wf_be_fixed.
Qed.

(** Keys outside the header schema. *)
Definition foreign (k : bytes) : Prop := wf_bytes k ∧ head k ≠ Some 104 ∧ head k ≠ Some 72 ∧ k ≠ headHeaderKey.

(** Bodies, receipts and configurations are under keys of other components. *)
Lemma foreign_app p k : head p ≠ None → head p ≠ Some 104 → head p ≠ Some 72 → head p ≠ Some 76 → wf_bytes p → wf_bytes k →
  foreign (p ++ k).
Proof.
  intros H0 H1 H2 H3 Hp Hk. assert (head (p ++ k) = head p) as E by (by destruct p).
  split; [by apply Forall_app|]. rewrite E. split_and!; [done|done|]. intros E'. apply H3. rewrite <- E, E'. done.
Qed.
Lemma wf_number_hash n h : wf_bytes (encodeBlockNumber n ++ Hash_Bytes h).
Proof. apply Forall_app. split; apply wf_be_fixed. Qed.
Lemma foreign_body n h : foreign (blockBodyKey n h).
Proof. apply foreign_app; [done..|repeat constructor; vm_compute; congruence|apply wf_number_hash]. Qed.
Lemma foreign_receipts n h : foreign (blockReceiptsKey n h).
Proof. apply foreign_app; [done..|repeat constructor; vm_compute; congruence|apply wf_number_hash]. Qed.
Lemma foreign_config h : foreign (configKey h).
Proof. apply foreign_app; [done..|repeat constructor; vm_compute; congruence|apply wf_be_fixed]. Qed.

(** Keys of different tables differ, by length or by the first byte. *)
Definition key_shape (k : bytes) : nat * option Z := (length k, head k).

Lemma shape_neq k k' : key_shape k ≠ key_shape k' → k ≠ k'.
Proof. by intros H ->. Qed.

Lemma shape_headerKey n h : key_shape (headerKey n h) = (41%nat, Some 104).
Proof. unfold key_shape. by rewrite length_headerKey. Qed.
Lemma shape_headerTDKey n h : key_shape (headerTDKey n h) = (42%nat, Some 104).
Proof. unfold key_shape. by rewrite length_headerTDKey. Qed.
Lemma shape_headerHashKey n : key_shape (headerHashKey n) = (10%nat, Some 104).
Proof. unfold key_shape. by rewrite length_headerHashKey. Qed.
Lemma shape_headerNumberKey h : key_shape (headerNumberKey h) = (33%nat, Some 72).
Proof. unfold key_shape. by rewrite length_headerNumberKey. Qed.
Lemma shape_headHeaderKey : key_shape headHeaderKey = (10%nat, Some 76).
Proof. done. Qed.

Ltac key_neq :=
  apply shape_neq;
  rewrite ?shape_headerKey, ?shape_headerTDKey, ?shape_headerHashKey, ?shape_headerNumberKey, ?shape_headHeaderKey;
  discriminate.

(** ** Tables *)

Record tables := mkTables {
  t_headers : gmap (Z * hash) Header;
  t_tds : gmap (Z * hash) Z;
  t_numbers : gmap hash Z;
  t_canon : gmap Z hash;
  t_head : option hash
}.

Inductive table_op :=
| TPutHeader (x : Header)
| TDelHeader (n : Z) (h : hash)
| TPutTd (n : Z) (h : hash) (td : Z)
| TDelTd (n : Z) (h : hash)
| TPutCanon (n : Z) (h : hash)
| TDelCanon (n : Z)
| TPutHead (h : hash).

Definition td_bytes (td : Z) : bytes := enc (item_of (VBig (Some td))).
Definition header_bytes (x : Header) : bytes := enc (item_of (Header_val x)).

Section Spec.
Context {B : Backend} {Bok : BackendOk B}.

Definition t_apply (T : tables) (op : table_op) : tables :=
  match op with
  | TPutHeader x =>
      mkTables (<[(hd_Number x, Header_Hash x) := x]> (t_headers T)) (t_tds T)
        (<[Header_Hash x := hd_Number x]> (t_numbers T)) (t_canon T) (t_head T)
  | TDelHeader n h =>
      mkTables (delete (n, h) (t_headers T)) (t_tds T) (delete h (t_numbers T)) (t_canon T) (t_head T)
  | TPutTd n h td =>
      mkTables (t_headers T) (<[(n, h) := td]> (t_tds T)) (t_numbers T) (t_canon T) (t_head T)
  | TDelTd n h => mkTables (t_headers T) (delete (n, h) (t_tds T)) (t_numbers T) (t_canon T) (t_head T)
  | TPutCanon n h => mkTables (t_headers T) (t_tds T) (t_numbers T) (<[n := h]> (t_canon T)) (t_head T)
  | TDelCanon n => mkTables (t_headers T) (t_tds T) (t_numbers T) (delete n (t_canon T)) (t_head T)
  | TPutHead h => mkTables (t_headers T) (t_tds T) (t_numbers T) (t_canon T) (Some h)
  end.

Definition op_ok (op : table_op) : Prop :=
  match op with
  | TPutHeader x => header_wf x ∧ is_u64 (hd_Number x)
  | TDelHeader n h | TDelTd n h | TPutCanon n h => is_u64 n ∧ is_u256 h
  | TPutTd n h td => is_u64 n ∧ is_u256 h ∧ 0 ≤ td ∧ zlen (td_bytes td) < 2 ^ 64
  | TDelCanon n => is_u64 n
  | TPutHead h => is_u256 h
  end.

(** The store holds the tables under the keys of the schema. *)
Record represents (D : Database) (T : tables) : Prop := mkRepresents {
  rp_ancient : db_Ancient D = db_Ancient (nofreezedb ∅);
  rp_keys : ∀ k v, db_kv D !! k = Some v → wf_bytes k;
  rp_headers : ∀ n h, is_u64 n → is_u256 h → db_kv D !! headerKey n h = header_bytes <$> t_headers T !! (n, h);
  rp_tds : ∀ n h, is_u64 n → is_u256 h → db_kv D !! headerTDKey n h = td_bytes <$> t_tds T !! (n, h);
  rp_numbers : ∀ h, is_u256 h → db_kv D !! headerNumberKey h = encodeBlockNumber <$> t_numbers T !! h;
  rp_canon : ∀ n, is_u64 n → db_kv D !! headerHashKey n = Hash_Bytes <$> t_canon T !! n;
  rp_head : db_kv D !! headHeaderKey = Hash_Bytes <$> t_head T;
  rp_header_wf : ∀ n h x, t_headers T !! (n, h) = Some x → is_u64 n ∧ is_u256 h ∧ header_wf x;
  rp_td_wf : ∀ n h td, t_tds T !! (n, h) = Some td → 0 ≤ td ∧ zlen (td_bytes td) < 2 ^ 64;
  rp_number_wf : ∀ h n, t_numbers T !! h = Some n → is_u64 n;
  rp_canon_wf : ∀ n h, t_canon T !! n = Some h → is_u256 h;
  rp_head_wf : ∀ h, t_head T = Some h → is_u256 h
}.

(** ** Reads *)

Section Reads.
Context (D : Database) (T : tables) (R : represents D T).

Lemma no_ancient kind n : db_Ancient D kind n = Err errNotSupported.
Proof. by rewrite (rp_ancient _ _ R). Qed.
Lemma no_ancient_data kind n : ancient_data kind n D = [].
Proof. unfold ancient_data. by rewrite no_ancient. Qed.

Lemma read_hash_bytes h : is_u256 h → read_hash (Hash_Bytes h) = h.
Proof.
  intros [H1 H2]. unfold read_hash. destruct (Hash_Bytes h) as [|c l] eqn:E.
  - by apply (f_equal length) in E; rewrite length_Hash_Bytes in E.
  - rewrite <- E. by apply BytesToHash_Bytes.
Qed.

Lemma read_hash_match (data : bytes) : match data with [] => [] | _ => data end = data.
Proof. by destruct data. Qed.

Lemma ReadCanonicalHash_spec n : is_u64 n → ReadCanonicalHash D n = default 0 (t_canon T !! n).
Proof.
  intros Hn. unfold ReadCanonicalHash, db_Get. rewrite no_ancient_data, read_hash_match, (rp_canon _ _ R n Hn).
  destruct (t_canon T !! n) as [h|] eqn:E; [|done]. apply read_hash_bytes. by eapply rp_canon_wf.
Qed.

Lemma ReadHeadHeaderHash_spec : ReadHeadHeaderHash D = default 0 (t_head T).
Proof.
  unfold ReadHeadHeaderHash, db_Get. rewrite (rp_head _ _ R).
  destruct (t_head T) as [h|] eqn:E; [|done]. apply read_hash_bytes. by eapply rp_head_wf.
Qed.

Lemma ReadHeaderNumber_spec h : is_u256 h → ReadHeaderNumber D h = t_numbers T !! h.
Proof.
  intros Hh. unfold ReadHeaderNumber, db_Get, read_uint64. rewrite (rp_numbers _ _ R h Hh).
  destruct (t_numbers T !! h) as [n|] eqn:E; [|done].
  change (default [] (encodeBlockNumber <$> Some n)) with (encodeBlockNumber n).
  unfold zlen. rewrite length_encodeBlockNumber. change (Z.of_nat 8 =? 8) with true. cbv iota. apply (rp_number_wf _ _ R) in E as [].
  unfold encodeBlockNumber. rewrite be_decode_fixed, Z.mod_small by done. done.
Qed.

Lemma enc_cons i : ∃ c l, enc i = c :: l.
Proof. pose proof (enc_nonempty i). destruct (enc i) as [|c l]; [done|eauto]. Qed.

Lemma ReadHeader_spec h n : is_u64 n → is_u256 h → ReadHeader D h n = t_headers T !! (n, h).
Proof.
  intros Hn Hh. unfold ReadHeader, ReadHeaderRLP, db_Get. rewrite no_ancient_data, (rp_headers _ _ R) by done.
  destruct (t_headers T !! (n, h)) as [x|] eqn:E; [|done].
  change (default [] (header_bytes <$> Some x)) with (header_bytes x).
  destruct (enc_cons (item_of (Header_val x))) as (c & l & Ec).
  assert (header_wf x) as Hw by (by eapply rp_header_wf).
  pose proof (Decode_Header_enc x [] Hw) as Hd. rewrite app_nil_r in Hd.
  specialize (Hd (hw_size x Hw)). unfold header_bytes. rewrite Ec in *. change (0 <? @zlen Z []) with false. cbn [andb].
  by rewrite Hd.
Qed.

Lemma HasHeader_spec h n : is_u64 n → is_u256 h → HasHeader D h n = bool_decide (is_Some (t_headers T !! (n, h))).
Proof.
  intros Hn Hh. unfold HasHeader, has_data, db_Has. rewrite no_ancient, (rp_headers _ _ R) by done.
  apply bool_decide_ext. apply fmap_is_Some.
Qed.

Lemma Decode_Big_bytes td : 0 ≤ td → zlen (td_bytes td) < 2 ^ 64 → Decode_Big (td_bytes td) = Some td.
Proof.
  intros Ht Hl. unfold Decode_Big, Reset.
  destruct (reads_BigInt td Ht [] (zlen (td_bytes td)) 0 None [] 0) as (sz & ke & bv & E); [unfold td_bytes in *; cbn in *; lia|done|].
  rewrite app_nil_r in E. unfold td_bytes in *. cbn [item_of enc] in *. by rewrite E.
Qed.

Lemma ReadTd_spec h n : is_u64 n → is_u256 h → ReadTd D h n = t_tds T !! (n, h).
Proof.
  intros Hn Hh. unfold ReadTd, ReadTdRLP, read_data, frozen_data, db_Get. rewrite !no_ancient_data, (rp_tds _ _ R) by done.
  destruct (t_tds T !! (n, h)) as [td|] eqn:E; [|done].
  change (default [] (td_bytes <$> Some td)) with (td_bytes td).
  apply (rp_td_wf _ _ R) in E as [H1 H2]. destruct (enc_cons (item_of (VBig (Some td)))) as (c & l & Ec).
  pose proof (Decode_Big_bytes td H1 H2) as Hd. unfold td_bytes in *. by rewrite Ec in *.
Qed.

(** Every hash of a height is found: the keys under the prefix that have the
    length of a header key. *)
Lemma elem_of_NewIterator prefix k v :
  (k, v) ∈ NewIterator prefix [] D ↔ db_kv D !! k = Some v ∧ HasPrefix prefix k = true ∧ bytes_leb (prefix ++ []) k = true.
Proof.
  unfold NewIterator. rewrite (merge_sort_Permutation entry_le), list_elem_of_filter, elem_of_map_to_list. naive_solver.
Qed.

Lemma bytes_leb_prefix p l : bytes_leb p (p ++ l) = true.
Proof. induction p as [|x p IH]; [done|]. cbn. by rewrite Z.ltb_irrefl. Qed.

Lemma ReadAllHashes_spec n h : is_u64 n → is_u256 h →
  h ∈ ReadAllHashes D n ↔ is_Some (t_headers T !! (n, h)).
Proof.
  intros Hn Hh. unfold ReadAllHashes. rewrite list_elem_of_fmap.
  assert (length (headerKeyPrefix n) = 9%nat) as Lp by (unfold headerKeyPrefix; by rewrite length_app, length_encodeBlockNumber).
  assert (∀ b, headerKeyPrefix n ++ b = headerPrefix ++ encodeBlockNumber n ++ b) as Ep.
  { intros b. unfold headerKeyPrefix. by rewrite <- app_assoc. }
  setoid_rewrite list_elem_of_filter. split.
  - intros ([k v] & Eh & Hk & Hit). cbn [fst] in *. apply elem_of_NewIterator in Hit as (Hkv & Hp & _).
    apply bool_decide_eq_true in Hp as [b ->]. rewrite length_app, Lp in Hk.
    assert (length b = 32%nat) as Lb by lia. clear Hk. pose proof (rp_keys _ _ R _ _ Hkv) as Hw. apply Forall_app in Hw as [_ Hw].
    rewrite length_app, Lp, Lb, drop_app_length' in Eh by lia.
    assert (headerKeyPrefix n ++ b = headerKey n h) as Ek.
    { rewrite Ep. unfold headerKey. subst h. unfold Hash_Bytes. do 2 f_equal. symmetry. by apply BytesToHash_Bytes_32. }
    rewrite Ek, (rp_headers _ _ R) in Hkv by done. destruct (t_headers T !! (n, h)); [eauto|done].
  - intros [x Hx]. exists (headerKey n h, header_bytes x). cbn [fst]. rewrite length_headerKey, Lp. split_and!.
    + unfold headerKey. rewrite <- Ep, drop_app_length' by (rewrite Lp; lia). destruct Hh. by rewrite BytesToHash_Bytes.
    + done.
    + apply elem_of_NewIterator. rewrite (rp_headers _ _ R), Hx, app_nil_r by done. unfold headerKey. rewrite <- Ep.
      split_and!; [done|apply bool_decide_eq_true; by eexists|apply bytes_leb_prefix].
Qed.

Lemma ReadAllHashes_u256 n h : h ∈ ReadAllHashes D n → is_u256 h.
Proof.
  unfold ReadAllHashes. rewrite list_elem_of_fmap. intros ([k v] & -> & Hk). apply list_elem_of_filter in Hk as [_ Hit].
  apply elem_of_NewIterator in Hit as (Hkv & _ & _). apply BytesToHash_range, Forall_drop. by eapply (rp_keys _ _ R).
Qed.

End Reads.

(** ** Writes *)

Lemma Header_Hash_u256 x : is_u256 (Header_Hash x).
Proof.
  unfold Header_Hash, RlpHash, Keccak256Hash, BytesToHash.
  destruct (EncodeToBytes _); edestruct Keccak256_len as [Hl Hw];
    rewrite (proj2 (Z.ltb_ge 32 _)) by (unfold zlen; rewrite Hl; lia);
    apply be_decode_range in Hw; rewrite Hl in Hw; exact Hw.
Qed.

Lemma wf_headerTDKey n h : wf_bytes (headerTDKey n h).
Proof. apply Forall_app. split; [apply wf_headerKey|constructor; [cbv; done|constructor]]. Qed.
Lemma wf_headerHashKey n : wf_bytes (headerHashKey n).
Proof.
  apply Forall_app. split; [constructor; [cbv; done|constructor]|].
  apply Forall_app. split; [apply wf_be_fixed|constructor; [cbv; done|constructor]].
Qed.
Lemma wf_headerNumberKey h : wf_bytes (headerNumberKey h).
Proof. apply Forall_app. split; [constructor; [cbv; done|constructor]|apply wf_be_fixed]. Qed.
Lemma wf_headHeaderKey : wf_bytes headHeaderKey.
Proof. repeat (constructor; [cbv; done|]). constructor. Qed.

(** A lookup after an update: at another key, or at the same one. *)
Ltac other_key := rewrite ?lookup_insert_ne, ?lookup_delete_ne by key_neq.
(** A lookup the update did not touch. *)
Ltac keep R :=
  intros;
  lazymatch goal with
  | |- _ !! headerKey _ _ = _ => other_key; by rewrite (rp_headers _ _ R)
  | |- _ !! headerTDKey _ _ = _ => other_key; by rewrite (rp_tds _ _ R)
  | |- _ !! headerNumberKey _ = _ => other_key; by rewrite (rp_numbers _ _ R)
  | |- _ !! headerHashKey _ = _ => other_key; by rewrite (rp_canon _ _ R)
  | |- _ !! headHeaderKey = _ => other_key; by rewrite (rp_head _ _ R)
  | H : t_headers ?T !! _ = Some _ |- _ => exact (rp_header_wf _ T R _ _ _ H)
  | H : t_tds ?T !! _ = Some _ |- _ => exact (rp_td_wf _ T R _ _ _ H)
  | H : t_numbers ?T !! _ = Some _ |- _ => exact (rp_number_wf _ T R _ _ H)
  | H : t_canon ?T !! _ = Some _ |- _ => exact (rp_canon_wf _ T R _ _ H)
  | H : t_head ?T = Some _ |- _ => exact (rp_head_wf _ T R _ H)
  end.
Ltac split_rep R :=
  unfold WriteCanonicalHash, DeleteCanonicalHash, WriteHeadHeaderHash, WriteHeaderNumber, DeleteTd, DeleteHeader,
    deleteHeaderWithoutNumber, Put, Delete;
  split; cbn [app db_kv db_Ancient batch_Write fold_left kv_apply snd fst t_headers t_tds t_numbers t_canon t_head t_apply];
  [apply (rp_ancient _ _ R)| | | | | | | | | | |].

Lemma keys_insert (kv : gmap bytes bytes) k v :
  (∀ k v, kv !! k = Some v → wf_bytes k) → wf_bytes k → ∀ k' v', <[k := v]> kv !! k' = Some v' → wf_bytes k'.
Proof. intros H Hk k' v' [[<- _]|[_ ?]]%lookup_insert_Some; eauto. Qed.
Lemma keys_delete (kv : gmap bytes bytes) k :
  (∀ k v, kv !! k = Some v → wf_bytes k) → ∀ k' v', delete k kv !! k' = Some v' → wf_bytes k'.
Proof. intros H k' v' [_ ?]%lookup_delete_Some; eauto. Qed.

(** Writing under one key of a table that maps keys injectively. *)
Lemma table_insert {K A : Type} `{Countable K} (key : K → bytes) (f : A → bytes) (m : gmap K A)
    (kv : gmap bytes bytes) (P : K → Prop) k a :
  (∀ i, P i → kv !! key i = f <$> m !! i) → (∀ i, P i → key k = key i → k = i) →
  ∀ i, P i → <[key k := f a]> kv !! key i = f <$> <[k := a]> m !! i.
Proof.
  intros Hm Hinj i Hi. destruct (decide (k = i)) as [->|Hne].
  - by rewrite !lookup_insert_eq.
  - rewrite !lookup_insert_ne; [by apply Hm|done|]. intros E. apply Hne. by apply Hinj.
Qed.
Lemma table_delete {K A : Type} `{Countable K} (key : K → bytes) (f : A → bytes) (m : gmap K A)
    (kv : gmap bytes bytes) (P : K → Prop) k :
  (∀ i, P i → kv !! key i = f <$> m !! i) → (∀ i, P i → key k = key i → k = i) →
  ∀ i, P i → delete (key k) kv !! key i = f <$> delete k m !! i.
Proof.
  intros Hm Hinj i Hi. destruct (decide (k = i)) as [->|Hne].
  - by rewrite !lookup_delete_eq.
  - rewrite !lookup_delete_ne; [by apply Hm|done|]. intros E. apply Hne. by apply Hinj.
Qed.


#[local] Opaque headerKey headerTDKey headerHashKey headerNumberKey headHeaderKey header_bytes td_bytes Hash_Bytes
  encodeBlockNumber.

(** A batch carries out a sequence of updates of the tables. *)
Definition carries (b : batch) (ops : list table_op) : Prop :=
  ∀ D T, represents D T → represents (batch_Write b D) (fold_left t_apply ops T).

Lemma carries_nil : carries [] [].
Proof. by intros [] T R. Qed.
Lemma carries_app b1 b2 ops1 ops2 : carries b1 ops1 → carries b2 ops2 → carries (b1 ++ b2) (ops1 ++ ops2).
Proof.
  intros H1 H2 D T R. rewrite fold_left_app. unfold batch_Write. rewrite fold_left_app.
  apply (H2 (batch_Write b1 D)), H1, R.
Qed.

Lemma carries_canon n h : is_u64 n → is_u256 h → carries (WriteCanonicalHash h n []) [TPutCanon n h].
Proof.
  intros Hn Hh D T R. split_rep R; try keep R.
  - apply keys_insert; [apply R|apply wf_headerHashKey].
  - apply (table_insert headerHashKey Hash_Bytes (t_canon T) _ is_u64 n h); [apply R|]. intros i Hi. by apply headerHashKey_inj.
  - intros m g [[<- <-]|[_ ?]]%lookup_insert_Some; [done|by eapply rp_canon_wf].
Qed.
Lemma carries_uncanon n : is_u64 n → carries (DeleteCanonicalHash n []) [TDelCanon n].
Proof.
  intros Hn D T R. split_rep R; try keep R.
  - apply keys_delete, R.
  - apply (table_delete headerHashKey Hash_Bytes (t_canon T) _ is_u64 n); [apply R|]. intros i Hi. by apply headerHashKey_inj.
  - intros m g [_ ?]%lookup_delete_Some. by eapply rp_canon_wf.
Qed.
Lemma carries_head h : is_u256 h → carries (WriteHeadHeaderHash h []) [TPutHead h].
Proof.
  intros Hh D T R. split_rep R; try keep R.
  - apply keys_insert; [apply R|apply wf_headHeaderKey].
  - by rewrite lookup_insert_eq.
  - by intros g [= <-].
Qed.

Lemma headerKey_pair_inj (p q : Z * hash) :
  is_u64 p.1 ∧ is_u256 p.2 → is_u64 q.1 ∧ is_u256 q.2 → headerKey p.1 p.2 = headerKey q.1 q.2 → p = q.
Proof. destruct p, q. cbn. intros [] [] E. apply headerKey_inj in E as [-> ->]; done. Qed.
Lemma headerTDKey_pair_inj (p q : Z * hash) :
  is_u64 p.1 ∧ is_u256 p.2 → is_u64 q.1 ∧ is_u256 q.2 → headerTDKey p.1 p.2 = headerTDKey q.1 q.2 → p = q.
Proof. destruct p, q. cbn. intros [] [] E. apply headerTDKey_inj in E as [-> ->]; done. Qed.

Lemma must_encode_td td : 0 ≤ td → zlen (td_bytes td) < 2 ^ 64 → must_encode (VBig (Some td)) = Ret (td_bytes td).
Proof. intros H1 H2. unfold must_encode. rewrite EncodeToBytes_enc; [done|done|cbn; lia|done]. Qed.
Lemma must_encode_header x : header_wf x → must_encode (Header_val x) = Ret (header_bytes x).
Proof. intros H. unfold must_encode. by rewrite Header_val_ok. Qed.

Lemma carries_td n h td :
  op_ok (TPutTd n h td) → ∃ b, WriteTd h n td [] = Ret b ∧ carries b [TPutTd n h td].
Proof.
  intros (Hn & Hh & H0 & Hl). unfold WriteTd. rewrite must_encode_td by done. eexists. split; [done|].
  intros D T R. split_rep R; try keep R.
  - apply keys_insert; [apply R|apply wf_headerTDKey].
  - intros m g Hm Hg.
    refine (table_insert (λ p, headerTDKey p.1 p.2) td_bytes (t_tds T) _ (λ p, is_u64 p.1 ∧ is_u256 p.2) (n, h) td _ _ (m, g) _); [| |done].
    + intros [] []. keep R.
    + intros i Hi. by apply headerTDKey_pair_inj.
  - intros m g t [[[= <- <-] <-]|[_ ?]]%lookup_insert_Some; [done|by eapply rp_td_wf].
Qed.
Lemma carries_untd n h : is_u64 n → is_u256 h → carries (DeleteTd h n []) [TDelTd n h].
Proof.
  intros Hn Hh D T R. split_rep R; try keep R.
  - apply keys_delete, R.
  - intros m g Hm Hg.
    refine (table_delete (λ p, headerTDKey p.1 p.2) td_bytes (t_tds T) _ (λ p, is_u64 p.1 ∧ is_u256 p.2) (n, h) _ _ (m, g) _); [| |done].
    + intros [] []. keep R.
    + intros i Hi. by apply headerTDKey_pair_inj.
  - intros m g t [_ ?]%lookup_delete_Some. by eapply rp_td_wf.
Qed.

Lemma carries_header x :
  op_ok (TPutHeader x) → ∃ b, WriteHeader x [] = Ret b ∧ carries b [TPutHeader x].
Proof.
  intros [Hw Hn]. unfold WriteHeader. rewrite must_encode_header by done. eexists. split; [done|].
  pose proof (Header_Hash_u256 x) as Hh. unfold u64. rewrite wrap_id by done.
  intros D T R. split_rep R; try keep R.
  - apply keys_insert; [|apply wf_headerKey]. apply keys_insert; [apply R|apply wf_headerNumberKey].
  - intros m g Hm Hg.
    refine (table_insert (λ p, headerKey p.1 p.2) header_bytes (t_headers T) _ (λ p, is_u64 p.1 ∧ is_u256 p.2)
      (hd_Number x, Header_Hash x) x _ _ (m, g) _); [| |done].
    + intros [] []. keep R.
    + intros i Hi. by apply headerKey_pair_inj.
  - intros g Hg. other_key. apply (table_insert headerNumberKey encodeBlockNumber (t_numbers T) _ is_u256); [apply R| |done].
    intros i Hi. by apply headerNumberKey_inj.
  - intros m g y [[[= <- <-] <-]|[_ ?]]%lookup_insert_Some; [done|by eapply rp_header_wf].
  - intros g m [[<- <-]|[_ ?]]%lookup_insert_Some; [done|by eapply rp_number_wf].
Qed.
Lemma carries_unheader n h : is_u64 n → is_u256 h → carries (DeleteHeader h n []) [TDelHeader n h].
Proof.
  intros Hn Hh D T R. split_rep R; try keep R.
  - apply keys_delete, keys_delete, R.
  - intros m g Hm Hg. other_key.
    refine (table_delete (λ p, headerKey p.1 p.2) header_bytes (t_headers T) _ (λ p, is_u64 p.1 ∧ is_u256 p.2) (n, h) _ _ (m, g) _); [| |done].
    + intros [] []. keep R.
    + intros i Hi. by apply headerKey_pair_inj.
  - intros g Hg. apply (table_delete headerNumberKey encodeBlockNumber (t_numbers T) _ is_u256); [| |done].
    + keep R.
    + intros i Hi. by apply headerNumberKey_inj.
  - intros m g y [_ ?]%lookup_delete_Some. by eapply rp_header_wf.
  - intros g m [_ ?]%lookup_delete_Some. by eapply rp_number_wf.
Qed.

(** Keys of other components leave the tables alone. *)
Lemma foreign_neq k : foreign k →
  (∀ n h, k ≠ headerKey n h) ∧ (∀ n h, k ≠ headerTDKey n h) ∧ (∀ h, k ≠ headerNumberKey h) ∧
  (∀ n, k ≠ headerHashKey n) ∧ k ≠ headHeaderKey.
Proof. intros (_ & H1 & H2 & H3). split_and!; try done; intros; intros ->; done. Qed.

Lemma carries_foreign k v : foreign k → carries [(k, v)] [].
Proof.
  intros Hk D T R. pose proof (foreign_neq k Hk) as (N1 & N2 & N3 & N4 & N5). destruct v as [v|].
  - split_rep R; try (intros; rewrite ?lookup_insert_ne by done; keep R).
    apply keys_insert; [apply R|apply Hk].
  - split_rep R; try (intros; rewrite ?lookup_delete_ne by done; keep R).
    apply keys_delete, R.
Qed.

Lemma carries_foreigns c : Forall (λ op, foreign (fst op)) c → carries c [].
Proof.
  induction 1 as [|[k v] c Hk _ IH]; [apply carries_nil|]. change ((k, v) :: c) with ([(k, v)] ++ c).
  apply (carries_app [(k, v)] c [] []); [by apply carries_foreign|done].
Qed.

Lemma carries_put k v b ops : foreign k → carries b ops → carries (Put k v b) ops.
Proof. intros Hk Hb. rewrite <- (app_nil_r ops). apply carries_app; [done|by apply carries_foreign]. Qed.

(** ** The accessors as table operations *)

Definition op_write (op : table_op) (b : batch) : outcome batch :=
  match op with
  | TPutHeader x => WriteHeader x b
  | TDelHeader n h => Ret (DeleteHeader h n b)
  | TPutTd n h td => WriteTd h n td b
  | TDelTd n h => Ret (DeleteTd h n b)
  | TPutCanon n h => Ret (WriteCanonicalHash h n b)
  | TDelCanon n => Ret (DeleteCanonicalHash n b)
  | TPutHead h => Ret (WriteHeadHeaderHash h b)
  end.
Fixpoint write_ops (ops : list table_op) (b : batch) : outcome batch :=
  match ops with [] => Ret b | op :: ops => (do! b <- op_write op b; write_ops ops b)%go end.

Lemma op_write_carries op b ops :
  op_ok op → carries b ops → ∃ b', op_write op b = Ret b' ∧ carries b' (ops ++ [op]).
Proof.
  intros Hop Hb. destruct op; cbn [op_write].
  - destruct (carries_header x Hop) as (c & E & Hc). unfold WriteHeader in *. destruct (must_encode _); [|done].
    cbn [obind] in *. injection E as <-. eexists. split; [done|]. unfold WriteHeaderNumber, Put. rewrite <- app_assoc. by apply carries_app.
  - destruct Hop. eexists. split; [done|]. unfold DeleteHeader, deleteHeaderWithoutNumber, Delete. rewrite <- app_assoc.
    apply carries_app; [done|by apply carries_unheader].
  - destruct (carries_td n h td Hop) as (c & E & Hc). unfold WriteTd in *. destruct (must_encode _); [|done].
    cbn [obind] in *. injection E as <-. eexists. split; [done|]. by apply carries_app.
  - destruct Hop. eexists. split; [done|]. apply carries_app; [done|by apply carries_untd].
  - destruct Hop. eexists. split; [done|]. apply carries_app; [done|by apply carries_canon].
  - eexists. split; [done|]. apply carries_app; [done|by apply carries_uncanon].
  - eexists. split; [done|]. apply carries_app; [done|by apply carries_head].
Qed.

Lemma write_ops_carries ops : ∀ b ops0, Forall op_ok ops → carries b ops0 →
  ∃ b', write_ops ops b = Ret b' ∧ carries b' (ops0 ++ ops).
Proof.
  induction ops as [|op ops IH]; intros b ops0 HF Hb; [exists b; by rewrite app_nil_r|]. inversion HF; subst.
  destruct (op_write_carries op b ops0) as (b1 & E1 & Hb1); [done|done|].
  destruct (IH b1 (ops0 ++ [op])) as (b' & E' & Hb'); [done|done|]. exists b'. cbn [write_ops]. rewrite E1. cbn [obind].
  by rewrite <- app_assoc in Hb'.
Qed.

Definition empty_tables : tables := mkTables ∅ ∅ ∅ ∅ None.

Lemma represents_empty (kv : gmap bytes bytes) :
  (∀ k v, kv !! k = Some v → foreign k) → represents (nofreezedb kv) empty_tables.
Proof.
  intros Hkv. assert (∀ k, (foreign k → False) → kv !! k = None) as Hno.
  { intros k Hk. destruct (kv !! k) eqn:E; [|done]. by destruct (Hk (Hkv _ _ E)). }
  split; cbn; try done; intros; rewrite ?lookup_empty; try (apply Hno; intros Hf%foreign_neq; naive_solver).
  by eapply Hkv.
Qed.

(** ** Claims *)

(** C13: the byte keys of the schema make the header part of the database five
    independent typed tables: whatever other components keep under their own
    keys, any sequence of header, difficulty, number, canonical-hash and head
    writes and deletions goes through, and afterwards every accessor reads
    exactly what the same sequence of updates leaves in the tables: the decoded
    header, its presence, its number, its total difficulty, the canonical hash
    of a number (zero when there is none), the head, and all hashes of a
    height. *)
Theorem database_is_tables (kv : gmap bytes bytes) ops :
  (∀ k v, kv !! k = Some v → foreign k) → Forall op_ok ops →
  ∃ b, write_ops ops [] = Ret b ∧
    let D := batch_Write b (nofreezedb kv) in
    let T := fold_left t_apply ops empty_tables in
    ReadHeadHeaderHash D = default 0 (t_head T) ∧
    ∀ n h, is_u64 n → is_u256 h →
      ReadHeader D h n = t_headers T !! (n, h) ∧
      HasHeader D h n = bool_decide (is_Some (t_headers T !! (n, h))) ∧
      ReadHeaderNumber D h = t_numbers T !! h ∧
      ReadTd D h n = t_tds T !! (n, h) ∧
      ReadCanonicalHash D n = default 0 (t_canon T !! n) ∧
      (h ∈ ReadAllHashes D n ↔ is_Some (t_headers T !! (n, h))).
Proof.
  intros Hkv HF. destruct (write_ops_carries ops [] [] HF carries_nil) as (b & E & Hb). exists b. split; [done|].
  pose proof (Hb _ _ (represents_empty kv Hkv)) as R. cbn [app] in R. intros D T. fold D T in R. split; [by apply ReadHeadHeaderHash_spec|].
  intros n h Hn Hh. split_and!; [by apply ReadHeader_spec|by apply HasHeader_spec|by apply ReadHeaderNumber_spec|by apply ReadTd_spec|
    by apply ReadCanonicalHash_spec|by apply ReadAllHashes_spec].
Qed.

End Spec.

(** Well-formedness of a concrete header, by evaluation. *)
Ltac solve_header_wf := split; try (vm_compute; split; congruence); try (vm_compute; congruence);
  first [ split; [apply (bool_decide_unpack _); vm_compute; exact I|vm_compute; reflexivity]
        | apply (bool_decide_unpack _); vm_compute; exact I
        | (vm_compute; repeat split; congruence) | exact I ].

(** A header is stored with its difficulty and made canonical, another one is
    stored at its height, then both are deleted. *)
Definition sample_header (extra : bytes) : Header :=
  mkHeader 9 7 0 0 0 (repeat 0 256) 300000000 5 8000000 0 1000 extra (repeat 0 8) None.
Definition sample_ops : list table_op :=
  let x := sample_header [1] in
  let y := sample_header [2] in
  [TPutHeader x; TPutTd 5 (Header_Hash x) 700000000; TPutCanon 5 (Header_Hash x); TPutHead (Header_Hash x);
   TPutHeader y; TPutTd 5 (Header_Hash y) 800000000; TDelHeader 5 (Header_Hash x); TDelTd 5 (Header_Hash x); TDelCanon 5].

Lemma sample_ops_ok : Forall op_ok sample_ops.
Proof.
  assert (header_wf (sample_header [1])) by solve_header_wf. assert (header_wf (sample_header [2])) by solve_header_wf.
  unfold sample_ops. cbv zeta. repeat (apply List.Forall_cons; [cbn [op_ok]; split_and?; first [assumption|apply Header_Hash_u256|split; vm_compute; congruence|vm_compute; congruence]|]). apply List.Forall_nil.
Qed.

Lemma database_is_tables_witness :
  ∃ b, write_ops sample_ops [] = Ret b ∧
    let D := batch_Write b (nofreezedb {[[66] := [1]]}) in
    let x := sample_header [1] in
    let y := sample_header [2] in
    ReadHeader D (Header_Hash x) 5 = None ∧ ReadHeader D (Header_Hash y) 5 = Some y ∧ ReadTd D (Header_Hash y) 5 = Some 800000000.
Proof.
  destruct (database_is_tables {[[66] := [1]]} sample_ops) as (b & Eb & _ & HD).
  - intros k v [<- _]%lookup_singleton_Some. repeat constructor; vm_compute; congruence.
  - apply sample_ops_ok.
  - exists b. split; [exact Eb|]. cbv zeta in HD |- *.
    destruct (HD 5 (Header_Hash (sample_header [1]))) as (H1 & _); [split; vm_compute; congruence|apply Header_Hash_u256|].
    destruct (HD 5 (Header_Hash (sample_header [2]))) as (H2 & _ & _ & H3 & _); [split; vm_compute; congruence|apply Header_Hash_u256|].
    split_and!; [rewrite H1|rewrite H2|rewrite H3]; vm_compute; reflexivity.
Defined.
