(* ===== verification/HeaderChain.v ===== *)
(** * The header chain (core/headerchain.go)

    Headers with their total difficulties in the chain database, the canonical
    number-to-hash markers, the head, and three caches in front of the
    database.  [writeHeaders] stores a segment and moves the head when the
    segment is heavier; [SetHead] rewinds; [ValidateHeaderChain] runs the
    engine over a segment.  The coin that breaks ties, the interrupt flag and
    the draws of the random generator are arguments; the caches (a third-party
    package) are an interface.  Metrics and logging are left out. *)
From S2P Require Import Prelude Common RlpEncode StateObject TeWaka Consensus RawDB.
Import Bytes.
Open Scope go_scope.

(** ** Interface of the caches *)

(** A least-recently-used cache of bounded size: looking up may reorder,
    adding may evict; neither invents entries. *)
Class LruCache (A : Type) := {
  lru : Type;
  lru_New : lru;
  lru_Get : hash → lru → option A * lru;
  lru_Contains : hash → lru → bool;
  lru_Add : hash → A → lru → lru;
  lru_Purge : lru → lru
}.
Arguments lru A {_}.
Definition lru_has `{LruCache A} (c : lru A) (k : hash) (v : A) : Prop := fst (lru_Get k c) = Some v.
Class LruCacheOk {A} (L : LruCache A) : Prop := {
  lru_New_empty : ∀ k v, ¬ lru_has lru_New k v;
  lru_Get_keeps : ∀ c k k' v, lru_has (snd (lru_Get k c)) k' v → lru_has c k' v;
  lru_Add_keeps : ∀ c k v k' v', lru_has (lru_Add k v c) k' v' → (k' = k ∧ v' = v) ∨ lru_has c k' v';
  lru_Contains_has : ∀ c k, lru_Contains k c = true → ∃ v, lru_has c k v;
  lru_Purge_empty : ∀ c k v, ¬ lru_has (lru_Purge c) k v
}.

Inductive WriteStatus := NonStatTy | CanonStatTy | SideStatTy.

Inductive chain_error :=
| ErrNoGenesis | ErrUnknownAncestor' | errAborted | errNonContiguous (i : Z) | ErrBannedHash
| errVerify (e : header_error).

Definition BadHashes : list hash :=
  [0x05bef30ef572270f654746da22639a7a0c97dd97a7050b9e252391996aaeb689;
   0x7d05d08cbc596a2e5e4f13b80a743e53e09221b5323c3a61946b20873e58583f].

(** The callbacks of [SetHead]. *)
Abbreviation UpdateFn := (batch → Header → batch * Z * bool).
Abbreviation DelFn := (batch → hash → Z → batch).

Section Chain.
Context {B : Backend} {LH : LruCache Header} {LZ : LruCache Z}.

Record HeaderChain := mkHeaderChain {
  hc_chainDb : Database;
  hc_genesisHeader : Header;
  hc_currentHeader : Header;
  hc_currentHeaderHash : hash;
  hc_headerCache : lru Header;
  hc_tdCache : lru Z;
  hc_numberCache : lru Z
}.

Definition set_db (d : Database) (hc : HeaderChain) : HeaderChain :=
  mkHeaderChain d (hc_genesisHeader hc) (hc_currentHeader hc) (hc_currentHeaderHash hc)
    (hc_headerCache hc) (hc_tdCache hc) (hc_numberCache hc).
Definition set_head (x : Header) (h : hash) (hc : HeaderChain) : HeaderChain :=
  mkHeaderChain (hc_chainDb hc) (hc_genesisHeader hc) x h (hc_headerCache hc) (hc_tdCache hc) (hc_numberCache hc).
Definition set_headerCache (c : lru Header) (hc : HeaderChain) : HeaderChain :=
  mkHeaderChain (hc_chainDb hc) (hc_genesisHeader hc) (hc_currentHeader hc) (hc_currentHeaderHash hc)
    c (hc_tdCache hc) (hc_numberCache hc).
Definition set_tdCache (c : lru Z) (hc : HeaderChain) : HeaderChain :=
  mkHeaderChain (hc_chainDb hc) (hc_genesisHeader hc) (hc_currentHeader hc) (hc_currentHeaderHash hc)
    (hc_headerCache hc) c (hc_numberCache hc).
Definition set_numberCache (c : lru Z) (hc : HeaderChain) : HeaderChain :=
  mkHeaderChain (hc_chainDb hc) (hc_genesisHeader hc) (hc_currentHeader hc) (hc_currentHeaderHash hc)
    (hc_headerCache hc) (hc_tdCache hc) c.

Abbreviation M := (St HeaderChain).

(** ** Lookups *)

Definition GetBlockNumber (h : hash) : M (option Z) := λ hc,
  let '(cached, c) := lru_Get h (hc_numberCache hc) in
  let hc := set_numberCache c hc in
  match cached with
  | Some number => XRet (Some number, hc)
  | None =>
      match ReadHeaderNumber (hc_chainDb hc) h with
      | Some number => XRet (Some number, set_numberCache (lru_Add h number (hc_numberCache hc)) hc)
      | None => XRet (None, hc)
      end
  end.

Definition GetTd (h : hash) (number : Z) : M (option Z) := λ hc,
  let '(cached, c) := lru_Get h (hc_tdCache hc) in
  let hc := set_tdCache c hc in
  match cached with
  | Some td => XRet (Some td, hc)
  | None =>
      match ReadTd (hc_chainDb hc) h number with
      | Some td => XRet (Some td, set_tdCache (lru_Add h td (hc_tdCache hc)) hc)
      | None => XRet (None, hc)
      end
  end.

Definition GetTdByHash (h : hash) : M (option Z) :=
  run! number <- GetBlockNumber h;
  match number with None => sret None | Some number => GetTd h number end.

Definition GetHeader (h : hash) (number : Z) : M (option Header) := λ hc,
  let '(cached, c) := lru_Get h (hc_headerCache hc) in
  let hc := set_headerCache c hc in
  match cached with
  | Some x => XRet (Some x, hc)
  | None =>
      match ReadHeader (hc_chainDb hc) h number with
      | Some x => XRet (Some x, set_headerCache (lru_Add h x (hc_headerCache hc)) hc)
      | None => XRet (None, hc)
      end
  end.

Definition GetHeaderByHash (h : hash) : M (option Header) :=
  run! number <- GetBlockNumber h;
  match number with None => sret None | Some number => GetHeader h number end.

Definition hc_HasHeader (h : hash) (number : Z) (hc : HeaderChain) : bool :=
  if lru_Contains h (hc_numberCache hc) || lru_Contains h (hc_headerCache hc) then true
  else HasHeader (hc_chainDb hc) h number.

Definition GetHeaderByNumber (number : Z) : M (option Header) := λ hc,
  let h := ReadCanonicalHash (hc_chainDb hc) number in
  if h =? 0 then XRet (None, hc) else GetHeader h number hc.

Definition GetCanonicalHash (number : Z) (hc : HeaderChain) : hash := ReadCanonicalHash (hc_chainDb hc) number.
Definition CurrentHeader (hc : HeaderChain) : Header := hc_currentHeader hc.
Definition SetCurrentHeader (head : Header) (hc : HeaderChain) : HeaderChain := set_head head (Header_Hash head) hc.
Definition SetGenesis (head : Header) (hc : HeaderChain) : HeaderChain :=
  mkHeaderChain (hc_chainDb hc) head (hc_currentHeader hc) (hc_currentHeaderHash hc)
    (hc_headerCache hc) (hc_tdCache hc) (hc_numberCache hc).

(** The genesis header field is nil until it is found; [CurrentHeader] starts
    at it. *)
Definition NewHeaderChain (db : Database) (zero : Header) : xres (result chain_error HeaderChain) :=
  let hc := mkHeaderChain db zero zero 0 lru_New lru_New lru_New in
  match GetHeaderByNumber 0 hc with
  | XRet (None, _) => XRet (Err ErrNoGenesis)
  | XRet (Some g, hc) =>
      let hc := set_head g 0 (SetGenesis g hc) in
      let head := ReadHeadBlockHash db in
      match (if head =? 0 then XRet (None, hc) else GetHeaderByHash head hc) with
      | XRet (chead, hc) =>
          let current := default g chead in
          XRet (Ok (set_head current (Header_Hash current) hc))
      | XPanic => XPanic
      | XFuel => XFuel
      end
  | XPanic => XPanic
  | XFuel => XFuel
  end.

(** ** Writing a segment *)

(** The variables of [writeHeaders] across its loop. *)
Record wvars := mkWvars {
  wv_batch : batch;
  wv_newTD : Z;
  wv_inserted : list (Z * hash);
  wv_firstInserted : Z;
  wv_parentKnown : bool;
  wv_lastHeader : option Header;
  wv_lastHash : hash;
  wv_lastNumber : Z
}.

(** The hash of a header: the next one names it. *)
Definition segment_hash (header : Header) (rest : list Header) : hash :=
  match rest with next :: _ => hd_ParentHash next | [] => Header_Hash header end.

(** The caches of a header that is stored. *)
Definition cache_header (h : hash) (number td : Z) (x : Header) (hc : HeaderChain) : HeaderChain :=
  mkHeaderChain (hc_chainDb hc) (hc_genesisHeader hc) (hc_currentHeader hc) (hc_currentHeaderHash hc)
    (lru_Add h x (hc_headerCache hc)) (lru_Add h td (hc_tdCache hc)) (lru_Add h number (hc_numberCache hc)).

Fixpoint write_loop (i : Z) (headers : list Header) (w : wvars) : M wvars :=
  match headers with
  | [] => sret w
  | header :: rest =>
      let h := segment_hash header rest in
      let number := u64 (hd_Number header) in
      let newTD := wv_newTD w + hd_Difficulty header in
      run! alreadyKnown <- sread (λ hc, wv_parentKnown w && hc_HasHeader h number hc);
      if alreadyKnown then
        write_loop (i + 1) rest
          (mkWvars (wv_batch w) newTD (wv_inserted w) (wv_firstInserted w) true (Some header) h number)
      else
        run! b <- sout (WriteTd h number newTD (wv_batch w));
        run! b <- sout (WriteHeader header b);
        run! _ <- smodify (cache_header h number newTD header);
        write_loop (i + 1) rest
          (mkWvars b newTD (wv_inserted w ++ [(number, h)])
             (if wv_firstInserted w <? 0 then i else wv_firstInserted w) false (Some header) h number)
  end.

(** [Delete any canonical number assignments above the new head]. *)
Fixpoint delete_above (fuel : nat) (i : Z) (b : batch) (hc : HeaderChain) : xres batch :=
  if ReadCanonicalHash (hc_chainDb hc) i =? 0 then XRet b
  else
    match fuel with
    | O => XFuel
    | S fuel => delete_above fuel (u64 (i + 1)) (DeleteCanonicalHash i b) hc
    end.

(** [Overwrite any stale canonical number assignments], going backwards. *)
Fixpoint overwrite_stale (fuel : nat) (headHash : hash) (headNumber : Z) (headHeader : option Header) (b : batch)
    : M batch :=
  run! canonical <- sread (λ hc, ReadCanonicalHash (hc_chainDb hc) headNumber);
  if canonical =? headHash then sret b
  else
    match fuel with
    | O => λ _, XFuel
    | S fuel =>
        let b := WriteCanonicalHash headHash headNumber b in
        run! x <- sopt headHeader;
        let headHash := hd_ParentHash x in
        let headNumber := u64 (u64 (hd_Number x) - 1) in
        run! headHeader <- GetHeader headHash headNumber;
        overwrite_stale fuel headHash headNumber headHeader b
    end.

Definition mark (number : Z) (h : hash) (b : batch) : batch := WriteHeadHeaderHash h (WriteCanonicalHash h number b).

(** The canonical markers of a segment that becomes canonical. *)
Definition write_markers (fuel : nat) (first : Header) (headers : list Header) (w : wvars) : M () :=
  run! chainAlreadyCanon <- sread (λ hc, hd_ParentHash first =? hc_currentHeaderHash hc);
  run! b <-
    (if chainAlreadyCanon then sret []
     else
       run! b <- (λ hc, match delete_above fuel (u64 (wv_lastNumber w + 1)) [] hc with
                        | XRet b => XRet (b, hc) | XPanic => XPanic | XFuel => XFuel end);
       let headNumber := u64 (u64 (hd_Number first) - 1) in
       run! headHeader <- GetHeader (hd_ParentHash first) headNumber;
       run! b <- overwrite_stale fuel (hd_ParentHash first) headNumber headHeader b;
       sret (fold_left (λ b x, mark (u64 (hd_Number x)) (Header_Hash x) b)
         (take (Z.to_nat (wv_firstInserted w)) headers) b));
  let b := fold_left (λ b nh, mark (fst nh) (snd nh) b) (wv_inserted w) b in
  smodify (λ hc, set_db (batch_Write b (hc_chainDb hc)) hc).

(** [reorg]: a heavier chain, or on a tie the shorter one, or the coin. *)
Definition wants_reorg (newTD localTD lastNumber head : Z) (coin : bool) : bool :=
  (0 <? big_Cmp newTD localTD)
  || ((big_Cmp newTD localTD =? 0) && ((lastNumber <? head) || ((lastNumber =? head) && coin))).

(** [if reorg]: the markers, then the head in memory. *)
Definition choose (fuel : nat) (first : Header) (headers : list Header) (w : wvars) (reorg : bool) : M () :=
  if reorg then
    run! _ <- write_markers fuel first headers w;
    run! lastHeader <- sopt (wv_lastHeader w);
    smodify (set_head lastHeader (wv_lastHash w))
  else sret tt.

Record headerWriteResult := mkWriteResult {
  wr_status : WriteStatus;
  wr_ignored : Z;
  wr_imported : Z;
  wr_lastHash : hash;
  wr_lastHeader : option Header
}.
Definition no_result : headerWriteResult := mkWriteResult NonStatTy 0 0 0 None.

Definition writeHeaders (fuel : nat) (interrupt coin : bool) (headers : list Header)
    : M (headerWriteResult * option chain_error) :=
  match headers with
  | [] => sret (no_result, None)
  | first :: _ =>
      let parentNumber := u64 (u64 (hd_Number first) - 1) in
      run! ptd <- GetTd (hd_ParentHash first) parentNumber;
      match ptd with
      | None => sret (no_result, Some ErrUnknownAncestor')
      | Some ptd =>
          run! w <- write_loop 0 headers (mkWvars [] ptd [] (-1) true None (hd_ParentHash first) parentNumber);
          if interrupt then sret (no_result, Some errAborted)
          else
            run! _ <- smodify (λ hc, set_db (batch_Write (wv_batch w) (hc_chainDb hc)) hc);
            run! head <- sread (λ hc, u64 (hd_Number (CurrentHeader hc)));
            run! current <- sread hc_currentHeaderHash;
            run! localTD <- GetTd current head;
            run! localTD <- sopt localTD;
            let reorg := wants_reorg (wv_newTD w) localTD (wv_lastNumber w) head coin in
            run! _ <- choose fuel first headers w reorg;
            let status := if reorg then CanonStatTy else SideStatTy in
            let status := match wv_inserted w with [] => NonStatTy | _ => status end in
            sret (mkWriteResult status (zlen headers - zlen (wv_inserted w)) (zlen (wv_inserted w))
                    (wv_lastHash w) (wv_lastHeader w), None)
      end
  end.

(** The interrupt flag is read before and, by [writeHeaders], once more. *)
Definition InsertHeaderChain (fuel : nat) (interrupt interrupt' coin : bool) (chain : list Header)
    : M (WriteStatus * option chain_error) :=
  if interrupt then sret (NonStatTy, Some errAborted)
  else
    run! r <- writeHeaders fuel interrupt' coin chain;
    sret (wr_status (fst r), snd r).

(** ** Validating a segment *)

(** [Do a sanity check that the provided chain is actually ordered and
    linked]: the index of the pair, and the error. *)
Fixpoint sanity_loop (i : Z) (prev : Header) (rest : list Header) : option (Z * chain_error) :=
  match rest with
  | [] => None
  | x :: rest =>
      if negb (u64 (hd_Number x) =? u64 (u64 (hd_Number prev) + 1)) then Some (0, errNonContiguous i)
      else if bool_decide (hd_ParentHash x ∈ BadHashes) then Some (i - 1, ErrBannedHash)
      else if match rest with [] => bool_decide (Header_Hash x ∈ BadHashes) | _ => false end
      then Some (i, ErrBannedHash)
      else sanity_loop (i + 1) x rest
  end.

(** [seals[index] = true]. *)
Definition set_seal (index : Z) (seals : list bool) : outcome (list bool) :=
  if (0 <=? index) && (index <? zlen seals) then Ret (<[Z.to_nat index := true]> seals) else Panic.

(** The loop that draws one header in each stretch of [checkFreq]; [Intn]
    panics on a bound that is not positive. *)
Fixpoint seal_loop (n : nat) (i : Z) (checkFreq : Z) (intn : Z → Z) (seals : list bool) : outcome (list bool) :=
  match n with
  | O => Ret seals
  | S n =>
      if checkFreq <=? 0 then Panic
      else
        let index := i * checkFreq + intn i in
        let index := if zlen seals <=? index then zlen seals - 1 else index in
        do! seals <- set_seal index seals;
        seal_loop n (i + 1) checkFreq intn seals
  end.

Definition pick_seals (len checkFreq : Z) (intn : Z → Z) : outcome (list bool) :=
  let seals := repeat false (Z.to_nat len) in
  if checkFreq =? 0 then Ret seals
  else
    do! seals <- seal_loop (Z.to_nat (Z.quot len checkFreq + 1)) 0 checkFreq intn seals;
    set_seal (zlen seals - 1) seals.

(** Waiting for the verdicts, in the order of the headers. *)
Fixpoint await (i : nat) (verdicts : list (outcome (result header_error ()))) (interrupts : nat → bool)
    : outcome (Z * option chain_error) :=
  match verdicts with
  | [] => Ret (0, None)
  | v :: verdicts =>
      if interrupts i then Ret (0, Some errAborted)
      else
        do! r <- v;
        match r with
        | Err e => Ret (Z.of_nat i, Some (errVerify e))
        | Ok _ => await (S i) verdicts interrupts
        end
  end.

Definition ValidateHeaderChain (verify : list Header → list bool → M (list (outcome (result header_error ()))))
    (intn : Z → Z) (interrupts : nat → bool) (chain : list Header) (checkFreq : Z) : M (Z * option chain_error) :=
  match match chain with [] => None | first :: rest => sanity_loop 1 first rest end with
  | Some (i, e) => sret (i, Some e)
  | None =>
      run! seals <- sout (pick_seals (zlen chain) checkFreq intn);
      run! verdicts <- verify chain seals;
      sout (await 0 verdicts interrupts)
  end.

(** The engine of the chain: the verdicts of ethash, with the parent of the
    first header looked up through the header chain.  A header's own entry is
    not looked up here. *)
Definition ethash_verify (HashCZZ : bytes → Z → bytes) (e : Ethash) (now : Z) (factors : nat → option Z)
    (chain : list Header) (seals : list bool) : M (list (outcome (result header_error ()))) :=
  match PowMode e, chain with
  | ModeFullFake, _ | _, [] => sret ((λ _, Ret (Ok tt)) <$> chain)
  | _, first :: _ =>
      run! parent <- GetHeader (hd_ParentHash first) (u64 (u64 (hd_Number first) - 1));
      sret ((λ i, verifyHeaderWorker HashCZZ (λ _ _, parent) e chain seals i now (factors i)) <$> seq 0 (length chain))
  end.

(** [BlockChain.InsertHeaderChain] and [LightChain.InsertHeaderChain]: validate,
    then insert. *)
Definition validate_and_insert (verify : list Header → list bool → M (list (outcome (result header_error ()))))
    (fuel : nat) (intn : Z → Z) (interrupts : nat → bool) (interrupt interrupt' coin : bool) (chain : list Header)
    (checkFreq : Z) : M (Z * option chain_error) :=
  run! v <- ValidateHeaderChain verify intn interrupts chain checkFreq;
  match snd v with
  | Some _ => sret v
  | None =>
      run! r <- InsertHeaderChain fuel interrupt interrupt' coin chain;
      sret (0, snd r)
  end.

(** ** Ancestors *)

(** [for i := 0; i < max; i++]. *)
Fixpoint hashes_loop (n : nat) (header : Header) (chain : list hash) : M (list hash) :=
  match n with
  | O => sret chain
  | S n =>
      let next := hd_ParentHash header in
      run! x <- GetHeader next (u64 (u64 (hd_Number header) - 1));
      match x with
      | None => sret chain
      | Some x => if hd_Number x =? 0 then sret (chain ++ [next]) else hashes_loop n x (chain ++ [next])
      end
  end.

Definition GetBlockHashesFromHash (h : hash) (max : Z) : M (list hash) :=
  run! header <- GetHeaderByHash h;
  match header with None => sret [] | Some header => hashes_loop (Z.to_nat max) header [] end.

(** The loop of [GetAncestor]; the last component is [*maxNonCanonical]. *)
Fixpoint ancestor_loop (ancestor : nat) (h : hash) (number maxNC : Z) : M (hash * Z * Z) :=
  match ancestor with
  | O => sret (h, number, maxNC)
  | S ancestor' =>
      run! canonical <- sread (λ hc, ReadCanonicalHash (hc_chainDb hc) number);
      if canonical =? h then
        let number := u64 (number - Z.of_nat ancestor) in
        run! ancestorHash <- sread (λ hc, ReadCanonicalHash (hc_chainDb hc) number);
        sret (ancestorHash, number, maxNC)
      else if maxNC =? 0 then sret (0, 0, maxNC)
      else
        run! header <- GetHeader h number;
        match header with
        | None => sret (0, 0, maxNC - 1)
        | Some x => ancestor_loop ancestor' (hd_ParentHash x) (u64 (number - 1)) (maxNC - 1)
        end
  end.

Definition GetAncestor (h : hash) (number ancestor maxNC : Z) : M (hash * Z * Z) :=
  if number <? ancestor then sret (0, 0, maxNC)
  else if ancestor =? 1 then
    run! header <- GetHeader h number;
    match header with
    | Some x => sret (hd_ParentHash x, u64 (number - 1), maxNC)
    | None => sret (0, 0, maxNC)
    end
  else ancestor_loop (Z.to_nat ancestor) h number maxNC.

(** ** Rewinding *)

(** [for n := num + 1; len(ReadAllHashes(n)) > 0; n++], newest first. *)
Fixpoint numbers_above (fuel : nat) (n : Z) (db : Database) (nums : list Z) : xres (list Z) :=
  match ReadAllHashes db n with
  | [] => XRet nums
  | _ => match fuel with O => XFuel | S fuel => numbers_above fuel (u64 (n + 1)) db (n :: nums) end
  end.

Definition delete_hash (delFn : option DelFn) (num : Z) (b : batch) (h : hash) : batch :=
  let b := match delFn with Some f => f b h num | None => b end in
  DeleteTd h num (DeleteHeader h num b).

Definition delete_number (delFn : option DelFn) (db : Database) (hdr : Header) (b : batch) (num : Z) : batch :=
  let hashes := match ReadAllHashes db num with [] => [Header_Hash hdr] | hashes => hashes end in
  DeleteCanonicalHash num (fold_left (delete_hash delFn num) hashes b).

(** [Update head first]: what the callback writes, and the target it forces. *)
Definition update_heads (updateFn : option UpdateFn) (parent : Header) (head : Z) : batch * Z :=
  match updateFn with
  | None => ([], head)
  | Some f =>
      let '(mb, newHead, force) := f [] parent in
      (mb, if force && (newHead <? head) then newHead else head)
  end.

Fixpoint rewind (fuel : nat) (head : Z) (updateFn : option UpdateFn) (delFn : option DelFn) (origin : bool) (b : batch)
    : M batch :=
  run! hdr <- sread CurrentHeader;
  let num := u64 (hd_Number hdr) in
  if num <=? head then sret b
  else
    match fuel with
    | O => λ _, XFuel
    | S fuel' =>
        run! parent <- GetHeader (hd_ParentHash hdr) (u64 (num - 1));
        run! genesis <- sread hc_genesisHeader;
        let parent := default genesis parent in
        let parentHash := Header_Hash parent in
        let '(markerBatch, head) := update_heads updateFn parent head in
        let markerBatch := WriteHeadHeaderHash parentHash markerBatch in
        run! _ <- smodify (λ hc, set_head parent parentHash (set_db (batch_Write markerBatch (hc_chainDb hc)) hc));
        run! nums <- (λ hc, if origin then
                              match numbers_above fuel (u64 (num + 1)) (hc_chainDb hc) [] with
                              | XRet nums => XRet (nums, hc) | XPanic => XPanic | XFuel => XFuel
                              end
                            else XRet ([], hc));
        run! b <- sread (λ hc, fold_left (delete_number delFn (hc_chainDb hc) hdr) (nums ++ [num]) b);
        rewind fuel' head updateFn delFn false b
    end.

Definition SetHead (fuel : nat) (head : Z) (updateFn : option UpdateFn) (delFn : option DelFn) : M () :=
  run! b <- rewind fuel head updateFn delFn true [];
  smodify (λ hc,
    mkHeaderChain (batch_Write b (hc_chainDb hc)) (hc_genesisHeader hc) (hc_currentHeader hc) (hc_currentHeaderHash hc)
      (lru_Purge (hc_headerCache hc)) (lru_Purge (hc_tdCache hc)) (lru_Purge (hc_numberCache hc))).

(** [LightChain.Rollback] (light/lightchain.go): the loop from the last hash
    down; a missing parent would be a nil head. *)
Fixpoint rollback_loop (chain : list hash) (b : batch) : M batch :=
  match chain with
  | [] => sret b
  | h :: chain =>
      run! head <- sread CurrentHeader;
      if Header_Hash head =? h then
        let b := WriteHeadHeaderHash (hd_ParentHash head) b in
        run! parent <- GetHeader (hd_ParentHash head) (u64 (u64 (hd_Number head) - 1));
        run! parent <- sopt parent;
        run! _ <- smodify (SetCurrentHeader parent);
        rollback_loop chain b
      else rollback_loop chain b
  end.
Definition Rollback (chain : list hash) : M () :=
  run! b <- rollback_loop (reverse chain) [];
  smodify (λ hc, set_db (batch_Write b (hc_chainDb hc)) hc).

End Chain.
