(* ===== verification/HeaderChainSpec.v ===== *)
(** * What the header chain keeps

    Over the typed tables of the database: every stored header has its parent
    and a total difficulty that is its parent's plus its own; the canonical
    markers are one linked chain from the genesis to the head and nothing
    above it; the caches hold entries of the database only.  The lookups give
    the tables' entries whatever the caches evicted. *)
From S2P Require Import Prelude Common RlpEncode RlpDecode StateObject TeWaka Consensus HeaderRlp RawDB RawDBSpec HeaderChain.
Import Enc Bytes.
Open Scope go_scope.

#[global] Opaque headerKey headerTDKey headerHashKey headerNumberKey headHeaderKey.

(** The headers in play: well formed, within the bounds of [SanityCheck], of
    positive difficulty above the genesis, and without hash collisions. *)
Class Play {B : Backend} := mkPlay {
  in_play : Header → Prop;
  genesis : Header;
  pl_wf : ∀ x, in_play x → header_wf x;
  pl_number : ∀ x, in_play x → 0 ≤ hd_Number x < 2 ^ 64 - 1;
  pl_difficulty : ∀ x, in_play x → 0 ≤ hd_Difficulty x < 2 ^ 80 ∧ (hd_Number x ≠ 0 → 0 < hd_Difficulty x);
  pl_hash : ∀ x, in_play x → Header_Hash x ≠ 0;
  pl_inj : ∀ x y, in_play x → in_play y → Header_Hash x = Header_Hash y → x = y;
  pl_genesis : in_play genesis ∧ hd_Number genesis = 0
}.

Abbreviation stored T x := (t_headers T !! (hd_Number x, Header_Hash x) = Some x).
Abbreviation td_of T x := (t_tds T !! (hd_Number x, Header_Hash x)).

Section Spec.
Context {B : Backend} {Bok : BackendOk B} {Hplay : Play}.
Context {LH : LruCache Header} {LHok : LruCacheOk LH} {LZ : LruCache Z} {LZok : LruCacheOk LZ}.
Implicit Types (T : tables) (hc : HeaderChain) (x y : Header) (h : hash) (n : Z).

(** ** Invariants of the tables *)

(** [y] is the parent of [x]. *)
Definition child_of x y : Prop := hd_ParentHash x = Header_Hash y ∧ hd_Number x = hd_Number y + 1.

Record tab_inv T : Prop := mkTabInv {
  ti_genesis : stored T genesis ∧ td_of T genesis = Some (hd_Difficulty genesis);
  ti_header : ∀ n h x, t_headers T !! (n, h) = Some x → in_play x ∧ Header_Hash x = h ∧ hd_Number x = n;
  ti_number : ∀ h n, t_numbers T !! h = Some n ↔ is_Some (t_headers T !! (n, h));
  ti_td_dom : ∀ n h, is_Some (t_tds T !! (n, h)) → is_Some (t_headers T !! (n, h));
  ti_td : ∀ x, stored T x → x = genesis ∨
    ∃ y ptd, stored T y ∧ child_of x y ∧ td_of T y = Some ptd ∧ td_of T x = Some (ptd + hd_Difficulty x);
  ti_bound : ∀ x td, stored T x → td_of T x = Some td → 0 ≤ td < (hd_Number x + 1) * 2 ^ 80
}.

(** The head [x] and the markers below it. *)
Record canon_inv T x : Prop := mkCanonInv {
  ci_stored : stored T x;
  ci_head : t_canon T !! hd_Number x = Some (Header_Hash x);
  ci_marker : t_head T = Some (Header_Hash x);
  ci_link : ∀ n h, t_canon T !! n = Some h → n ≤ hd_Number x ∧
    ∃ y, t_headers T !! (n, h) = Some y ∧ (n ≠ 0 → t_canon T !! (n - 1) = Some (hd_ParentHash y))
}.

Definition childless T x : Prop := ∀ y, stored T y → ¬ child_of y x.

Record cache_inv hc T : Prop := mkCacheInv {
  ca_header : ∀ k x, lru_has (hc_headerCache hc) k x → t_headers T !! (hd_Number x, k) = Some x;
  ca_td : ∀ k td, lru_has (hc_tdCache hc) k td → ∃ n, t_tds T !! (n, k) = Some td;
  ca_number : ∀ k n, lru_has (hc_numberCache hc) k n → t_numbers T !! k = Some n
}.

(** Two chains that differ in their caches at most. *)
Definition same hc hc' : Prop :=
  hc_chainDb hc' = hc_chainDb hc ∧ hc_genesisHeader hc' = hc_genesisHeader hc ∧
  hc_currentHeader hc' = hc_currentHeader hc ∧ hc_currentHeaderHash hc' = hc_currentHeaderHash hc.

Lemma same_refl hc : same hc hc.
Proof. done. Qed.
Lemma same_chain_trans hc1 hc2 hc3 : same hc1 hc2 → same hc2 hc3 → same hc1 hc3.
Proof. intros (?&?&?&?) (?&?&?&?). repeat split; congruence. Qed.

Record backed hc T : Prop := mkBacked {
  bk_rep : represents (hc_chainDb hc) T;
  bk_tab : tab_inv T;
  bk_cache : cache_inv hc T
}.

Record chain_ok hc T : Prop := mkChainOk {
  ok_backed : backed hc T;
  ok_canon : canon_inv T (hc_currentHeader hc);
  ok_hash : hc_currentHeaderHash hc = Header_Hash (hc_currentHeader hc);
  ok_genesis : hc_genesisHeader hc = genesis;
  ok_tip : childless T (hc_currentHeader hc)
}.

(** ** Facts about stored headers *)

Section Facts.
Context T (HT : tab_inv T).

Lemma stored_P x : stored T x → in_play x.
Proof. apply HT. Qed.

Lemma stored_at n h x : t_headers T !! (n, h) = Some x → stored T x ∧ n = hd_Number x ∧ h = Header_Hash x.
Proof. intros H. destruct (ti_header T HT n h x H) as (_ & <- & <-). done. Qed.

Lemma same_header x y : stored T x → in_play y → Header_Hash x = Header_Hash y → x = y.
Proof. intros H1 H2 E. apply (pl_inj); [by apply stored_P|done|done]. Qed.

Lemma number_u64 x : in_play x → is_u64 (hd_Number x).
Proof. intros H. pose proof (pl_number x H). split; lia. Qed.

Lemma u64_number x : in_play x → u64 (hd_Number x) = hd_Number x.
Proof. intros H. by apply wrap_id, number_u64. Qed.

Lemma stored_parent x : stored T x → hd_Number x ≠ 0 → ∃ y, stored T y ∧ child_of x y.
Proof.
  intros Hx Hn. destruct (ti_td T HT x Hx) as [->|(y & ? & Hy & Hc & _)]; [|eauto].
  by destruct (pl_genesis).
Qed.

Lemma stored_zero x : stored T x → hd_Number x = 0 → x = genesis.
Proof.
  intros Hx Hn. destruct (ti_td T HT x Hx) as [->|(y & ? & Hy & [_ Hc] & _)]; [done|].
  pose proof (pl_number y (stored_P y Hy)). lia.
Qed.

Lemma stored_td x : stored T x → ∃ td, td_of T x = Some td.
Proof. intros Hx. destruct (ti_td T HT x Hx) as [->|(?&?&_&_&_&?)]; [|eauto]. destruct (ti_genesis T HT); eauto. Qed.

Lemma child_unique x y y' : child_of x y → child_of x y' → stored T y → in_play y' → y = y'.
Proof. intros [H1 _] [H2 _] Hy Hy'. apply same_header; [done|done|congruence]. Qed.

Lemma td_child x y td ptd :
  stored T x → stored T y → child_of x y → td_of T x = Some td → td_of T y = Some ptd → td = ptd + hd_Difficulty x.
Proof.
  intros Hx Hy Hc Ht Hp. destruct (ti_td T HT x Hx) as [->|(z & ptd' & Hz & Hcz & Hp' & Ht')].
  - destruct Hc as [_ Hc], (pl_genesis) as [_ E]. pose proof (pl_number y (stored_P y Hy)). lia.
  - assert (z = y) as -> by (eapply child_unique; eauto using stored_P). congruence.
Qed.

End Facts.

(** ** Lookups *)

Lemma backed_same hc hc' T : backed hc T → same hc hc' → cache_inv hc' T → backed hc' T.
Proof. intros [] (E & _) Hc. split; [by rewrite E|done|done]. Qed.
Lemma chain_ok_same hc hc' T : chain_ok hc T → same hc hc' → cache_inv hc' T → chain_ok hc' T.
Proof.
  intros [] Hs Hc. pose proof (backed_same _ _ _ ok_backed0 Hs Hc). destruct Hs as (_ & E1 & E2 & E3).
  split; rewrite ?E1, ?E2, ?E3; done.
Qed.

Lemma GetHeader_spec hc T h n :
  backed hc T → is_u64 n → is_u256 h →
  ∃ r hc', GetHeader h n hc = XRet (r, hc') ∧ same hc hc' ∧ cache_inv hc' T ∧
    (∀ x, t_headers T !! (n, h) = Some x → r = Some x) ∧ (∀ x, r = Some x → stored T x ∧ Header_Hash x = h).
Proof.
  intros [HR HT HC] Hn Hh. unfold GetHeader. destruct (lru_Get h (hc_headerCache hc)) as [cached c] eqn:E.
  assert (∀ k x, lru_has c k x → t_headers T !! (hd_Number x, k) = Some x) as Hc.
  { intros k x Hk. apply (ca_header _ _ HC). apply lru_Get_keeps with (k := h). by rewrite E. }
  destruct cached as [x|].
  - assert (t_headers T !! (hd_Number x, h) = Some x) as Hx by (apply (ca_header _ _ HC); unfold lru_has; by rewrite E).
    destruct (stored_at T HT _ _ _ Hx) as (Hs & _ & Eh).
    exists (Some x), (set_headerCache c hc). split_and!; try done.
    + by destruct HC.
    + intros y Hy. f_equal. destruct (stored_at T HT _ _ _ Hy) as (Hsy & _ & Ehy).
      eapply same_header; [done|done|by eapply stored_P|congruence].
    + intros y [= <-]. done.
  - cbn [set_headerCache hc_chainDb]. rewrite (ReadHeader_spec _ T HR) by done.
    destruct (t_headers T !! (n, h)) as [x|] eqn:Ex.
    + destruct (stored_at T HT _ _ _ Ex) as (Hs & -> & ->). eexists _, _. split_and!; [done|done| |by intros|].
      * split; [|apply HC|apply HC]. cbn. intros k y [[-> ->]|?]%lru_Add_keeps; [done|by apply Hc].
      * intros y [= <-]. done.
    + eexists _, _. split_and!; [done|done| |done|done]. by destruct HC.
Qed.

Lemma GetTd_spec hc T h n :
  backed hc T → is_u64 n → is_u256 h →
  ∃ r hc', GetTd h n hc = XRet (r, hc') ∧ same hc hc' ∧ cache_inv hc' T ∧
    (∀ td, t_tds T !! (n, h) = Some td → r = Some td) ∧ (∀ td, r = Some td → ∃ m, t_tds T !! (m, h) = Some td).
Proof.
  intros [HR HT HC] Hn Hh. unfold GetTd. destruct (lru_Get h (hc_tdCache hc)) as [cached c] eqn:E.
  assert (∀ k td, lru_has c k td → ∃ m, t_tds T !! (m, k) = Some td) as Hc.
  { intros k x Hk. apply (ca_td _ _ HC). apply lru_Get_keeps with (k := h). by rewrite E. }
  destruct cached as [td|].
  - destruct (ca_td _ _ HC h td) as [m Hm]; [unfold lru_has; by rewrite E|].
    exists (Some td), (set_tdCache c hc). split_and!; try done.
    + by destruct HC.
    + intros td' Ht. destruct (ti_td_dom T HT n h) as [x Hx]; [eauto|]. destruct (ti_td_dom T HT m h) as [y Hy]; [eauto|].
      destruct (stored_at T HT _ _ _ Hx) as (Hsx & -> & Eh). destruct (stored_at T HT _ _ _ Hy) as (Hsy & -> & Eh').
      assert (x = y) as <- by (eapply same_header; [done|done|by eapply stored_P|congruence]). congruence.
    + intros t [= <-]. eauto.
  - cbn [set_tdCache hc_chainDb]. rewrite (ReadTd_spec _ T HR) by done.
    destruct (t_tds T !! (n, h)) as [td|] eqn:Ex.
    + eexists _, _. split_and!; [done|done| |by intros|].
      * split; [apply HC| |apply HC]. cbn. intros k y [[-> ->]|?]%lru_Add_keeps; [eauto|by apply Hc].
      * intros y [= <-]. eauto.
    + eexists _, _. split_and!; [done|done| |done|done]. by destruct HC.
Qed.

Lemma GetBlockNumber_spec hc T h :
  backed hc T → is_u256 h →
  ∃ hc', GetBlockNumber h hc = XRet (t_numbers T !! h, hc') ∧ same hc hc' ∧ cache_inv hc' T.
Proof.
  intros [HR HT HC] Hh. unfold GetBlockNumber. destruct (lru_Get h (hc_numberCache hc)) as [cached c] eqn:E.
  assert (∀ k n, lru_has c k n → t_numbers T !! k = Some n) as Hc.
  { intros k x Hk. apply (ca_number _ _ HC). apply lru_Get_keeps with (k := h). by rewrite E. }
  destruct cached as [n|].
  - assert (t_numbers T !! h = Some n) as -> by (apply (ca_number _ _ HC); unfold lru_has; by rewrite E).
    eexists. split_and!; [done|done|]. by destruct HC.
  - cbn [set_numberCache hc_chainDb]. rewrite (ReadHeaderNumber_spec _ T HR) by done.
    destruct (t_numbers T !! h) as [n|] eqn:Ex.
    + eexists. split_and!; [done|done|]. split; [apply HC|apply HC|].
      cbn. intros k y [[-> ->]|?]%lru_Add_keeps; [done|by apply Hc].
    + eexists. split_and!; [done|done|]. by destruct HC.
Qed.

Lemma HasHeader_hc hc T x :
  backed hc T → in_play x → hc_HasHeader (Header_Hash x) (hd_Number x) hc = true ↔ stored T x.
Proof.
  intros [HR HT HC] Hx. unfold hc_HasHeader. pose proof (Header_Hash_u256 x). pose proof (number_u64 x Hx).
  assert (∀ n y, t_headers T !! (n, Header_Hash x) = Some y → stored T x) as Hk.
  { intros n y Hy. destruct (stored_at T HT _ _ _ Hy) as (Hs & _ & E). by rewrite <- (same_header T HT y x Hs Hx). }
  split.
  - destruct (lru_Contains _ (hc_numberCache hc)) eqn:E1; cbn [orb].
    { intros _. apply lru_Contains_has in E1 as [n Hn]. apply (ca_number _ _ HC), (ti_number T HT) in Hn as [y Hy]. eauto. }
    destruct (lru_Contains _ (hc_headerCache hc)) eqn:E2.
    { intros _. apply lru_Contains_has in E2 as [y Hy]. apply (ca_header _ _ HC) in Hy. eauto. }
    rewrite (HasHeader_spec _ T HR) by done. intros [y Hy]%bool_decide_eq_true. eauto.
  - intros Hs. destruct (_ || _); [done|]. rewrite (HasHeader_spec _ T HR) by done. apply bool_decide_eq_true. eauto.
Qed.

Lemma canon_read hc T n : backed hc T → is_u64 n → ReadCanonicalHash (hc_chainDb hc) n = default 0 (t_canon T !! n).
Proof. intros Hb Hn. by apply ReadCanonicalHash_spec; [apply Hb|]. Qed.

(** A marker reads as the zero hash when there is none. *)
Lemma canon_read_zero hc T x n :
  backed hc T → canon_inv T x → is_u64 n → ReadCanonicalHash (hc_chainDb hc) n = 0 ↔ t_canon T !! n = None.
Proof.
  intros Hb Hc Hn. rewrite (canon_read hc T n Hb Hn). destruct (t_canon T !! n) as [h|] eqn:E; cbn; [|done].
  split; [|done]. intros ->. destruct (ci_link T x Hc n 0 E) as (_ & y & Hy & _).
  destruct (stored_at T (bk_tab _ _ Hb) _ _ _ Hy) as (Hs & _ & E0).
  destruct (pl_hash y); [eapply stored_P; [apply Hb|done]|done].
Qed.
Lemma canon_read_is hc T x y :
  backed hc T → canon_inv T x → in_play y →
  ReadCanonicalHash (hc_chainDb hc) (hd_Number y) = Header_Hash y ↔ t_canon T !! hd_Number y = Some (Header_Hash y).
Proof.
  intros Hb Hc Hy. rewrite (canon_read hc T) by (done || by apply number_u64).
  destruct (t_canon T !! hd_Number y) as [h|] eqn:E; cbn; [naive_solver|]. split; [|done].
  intros E0. by destruct (pl_hash y Hy).
Qed.

(** ** Storing headers *)

Definition put T x td : tables := t_apply (t_apply T (TPutTd (hd_Number x) (Header_Hash x) td)) (TPutHeader x).

(** What storing one header changes. *)
Record stores T x td T' : Prop := mkStores {
  so_old : ∀ z, stored T z → stored T' z ∧ td_of T' z = td_of T z;
  so_new : stored T' x ∧ td_of T' x = Some td;
  so_only : ∀ z, stored T' z → stored T z ∨ z = x;
  so_canon : t_canon T' = t_canon T;
  so_head : t_head T' = t_head T
}.

Lemma fresh_hash T x n : tab_inv T → in_play x → t_headers T !! (hd_Number x, Header_Hash x) = None →
  t_headers T !! (n, Header_Hash x) = None.
Proof.
  intros HT Hx Hf. destruct (t_headers T !! (n, Header_Hash x)) as [z|] eqn:E; [|done].
  destruct (stored_at T HT _ _ _ E) as (Hs & _ & Eh). rewrite <- (same_header T HT z x Hs Hx) in Hf by done. congruence.
Qed.

Lemma put_stores T x td : tab_inv T → in_play x → t_headers T !! (hd_Number x, Header_Hash x) = None → stores T x td (put T x td).
Proof.
  intros HT Hx Hf. split; cbn.
  - intros z Hz. assert ((hd_Number x, Header_Hash x) ≠ (hd_Number z, Header_Hash z)) by congruence.
    by rewrite !lookup_insert_ne.
  - by rewrite !lookup_insert_eq.
  - intros z [[_ ->]|[_ ?]]%lookup_insert_Some; auto.
  - done.
  - done.
Qed.

Lemma put_inv T x y ptd :
  tab_inv T → in_play x → child_of x y → stored T y → td_of T y = Some ptd →
  t_headers T !! (hd_Number x, Header_Hash x) = None → tab_inv (put T x (ptd + hd_Difficulty x)).
Proof.
  intros HT Hx Hc Hy Hp Hf. set (td := ptd + hd_Difficulty x). pose proof (put_stores T x td HT Hx Hf) as HS.
  assert (x ≠ genesis) as Hxg by (intros ->; destruct (ti_genesis T HT) as [E _]; congruence).
  destruct (pl_difficulty x Hx) as [Hd _]. pose proof (ti_bound T HT y ptd Hy Hp) as Hb.
  split.
  - destruct (ti_genesis T HT) as [G1 G2]. destruct (so_old _ _ _ _ HS genesis G1) as [? ->]. done.
  - intros n h z Hz. cbn in Hz. apply lookup_insert_Some in Hz as [[[= <- <-] <-]|[_ ?]]; [done|by apply HT].
  - intros h n. cbn. destruct (decide (Header_Hash x = h)) as [<-|Hne].
    + rewrite lookup_insert_eq. destruct (decide (hd_Number x = n)) as [<-|Hn].
      * rewrite lookup_insert_eq. split; eauto.
      * rewrite lookup_insert_ne by congruence. rewrite (fresh_hash T x n HT Hx Hf). split; [congruence|by intros []].
    + rewrite !lookup_insert_ne by congruence. apply HT.
  - intros n h. cbn. destruct (decide ((hd_Number x, Header_Hash x) = (n, h))) as [<-|Hne].
    + rewrite !lookup_insert_eq. eauto.
    + rewrite !lookup_insert_ne by done. apply HT.
  - intros z [Hz| ->]%(so_only _ _ _ _ HS).
    + destruct (ti_td T HT z Hz) as [->|(w & p & Hw & Hcw & Hpw & Hz')]; [by left|right].
      destruct (so_old _ _ _ _ HS w Hw) as [? E1]. destruct (so_old _ _ _ _ HS z Hz) as [? E2].
      exists w, p. by rewrite E1, E2.
    + right. destruct (so_old _ _ _ _ HS y Hy) as [? E]. exists y, ptd. rewrite E. split_and!; try done; apply HS.
  - intros z t [Hz| ->]%(so_only _ _ _ _ HS) Ht.
    + destruct (so_old _ _ _ _ HS z Hz) as [_ E]. rewrite E in Ht. by apply HT.
    + destruct (so_new _ _ _ _ HS) as [_ E]. rewrite E in Ht. injection Ht as <-. destruct Hc as [_ ->].
      destruct Hb, Hd. split; [lia|]. replace ((hd_Number y + 1 + 1) * 2 ^ 80) with ((hd_Number y + 1) * 2 ^ 80 + 2 ^ 80) by lia. lia.
Qed.

(** Nothing is stored above a header that was not there. *)
Lemma put_childless T x td : tab_inv T → in_play x → t_headers T !! (hd_Number x, Header_Hash x) = None →
  childless (put T x td) x.
Proof.
  intros HT Hx Hf z [Hz| ->]%(so_only _ _ _ _ (put_stores T x td HT Hx Hf)) Hc.
  - destruct (stored_parent T HT z Hz) as (w & Hw & Hcw).
    { destruct Hc as [_ ->]. pose proof (pl_number x Hx). lia. }
    rewrite (child_unique T HT z w x Hcw Hc Hw Hx) in Hw. congruence.
  - destruct Hc as [_ E]. lia.
Qed.

(** A segment on top of [y]. *)
Fixpoint segment y (hs : list Header) : Prop :=
  match hs with [] => True | x :: hs => in_play x ∧ child_of x y ∧ segment x hs end.

(** The next header of a segment is not stored above a childless one. *)
Lemma childless_fresh T x hs : tab_inv T → childless T x → segment x hs →
  ∀ z, head hs = Some z → t_headers T !! (hd_Number z, Header_Hash z) = None.
Proof.
  intros HT Hcl Hs z Hz. destruct hs as [|v hs]; [done|]. injection Hz as ->. destruct Hs as (Hv & Hcv & _).
  destruct (t_headers T !! (hd_Number z, Header_Hash z)) as [u|] eqn:Eu; [|done].
  destruct (stored_at T HT _ _ _ Eu) as (Hsu & _ & Ev). destruct (Hcl u Hsu). by rewrite (same_header T HT u z Hsu Hv).
Qed.

Fixpoint put_all (td : Z) (hs : list Header) T : tables :=
  match hs with [] => T | x :: hs => put_all (td + hd_Difficulty x) hs (put T x (td + hd_Difficulty x)) end.
Fixpoint put_ops (td : Z) (hs : list Header) : list table_op :=
  match hs with
  | [] => []
  | x :: hs =>
      TPutTd (hd_Number x) (Header_Hash x) (td + hd_Difficulty x) :: TPutHeader x :: put_ops (td + hd_Difficulty x) hs
  end.
Lemma put_ops_all td hs : ∀ T, fold_left t_apply (put_ops td hs) T = put_all td hs T.
Proof. revert td. induction hs as [|x hs IH]; intros td T; [done|apply IH]. Qed.

Definition weight (hs : list Header) : Z := fold_right (λ x s, hd_Difficulty x + s) 0 hs.
Definition top y (hs : list Header) : Header := default y (last hs).

Lemma top_cons y x hs : top y (x :: hs) = top x hs.
Proof. unfold top. rewrite last_cons. by destruct (last hs). Qed.

(** What storing a segment changes. *)
Record stores_all T td y (hs : list Header) T' : Prop := mkStoresAll {
  sa_inv : tab_inv T';
  sa_old : ∀ z, stored T z → stored T' z ∧ td_of T' z = td_of T z;
  sa_new : Forall (λ x, stored T' x) hs;
  sa_only : ∀ z, stored T' z → stored T z ∨ z ∈ hs;
  sa_top : stored T' (top y hs) ∧ td_of T' (top y hs) = Some (td + weight hs);
  sa_tip : hs ≠ [] → childless T' (top y hs);
  sa_canon : t_canon T' = t_canon T;
  sa_head : t_head T' = t_head T
}.

Lemma put_all_stores hs : ∀ T y td,
  tab_inv T → segment y hs → stored T y → td_of T y = Some td →
  (∀ x, head hs = Some x → t_headers T !! (hd_Number x, Header_Hash x) = None) →
  stores_all T td y hs (put_all td hs T).
Proof.
  induction hs as [|x hs IH]; intros T y td HT Hs Hy Htd Hf.
  - split; try done; [auto|]. cbn. by rewrite Z.add_0_r.
  - destruct Hs as (Hx & Hc & Hs). specialize (Hf x eq_refl). cbn [put_all]. set (td' := td + hd_Difficulty x).
    pose proof (put_stores T x td' HT Hx Hf) as HS. pose proof (put_inv T x y td HT Hx Hc Hy Htd Hf) as HT'.
    fold td' in HT'. pose proof (put_childless T x td' HT Hx Hf) as Hcl.
    destruct (so_new _ _ _ _ HS) as [Hnx Htx].
    destruct (IH (put T x td') x td' HT' Hs Hnx Htx) as [I1 I2 I3 I4 I5 I6 I7 I8].
    { by apply (childless_fresh _ x). }
    rewrite <- (top_cons y) in *. split; try done.
    + intros z Hz. destruct (so_old _ _ _ _ HS z Hz) as [Hz' E]. destruct (I2 z Hz') as [? E']. by rewrite E', E.
    + constructor; [by apply I2|done].
    + intros z [[?| ->]%(so_only _ _ _ _ HS)|?]%I4; [by left|right; left|right; by right].
    + destruct I5 as [? ->]. split; [done|]. f_equal. unfold td'.
      change (weight (x :: hs)) with (hd_Difficulty x + weight hs). lia.
    + intros _. destruct hs as [|w hs]; [apply Hcl|by apply I6].
Qed.

End Spec.
