(* ===== verification/HeaderChainWrite.v ===== *)
(** * Writing a segment of headers

    [writeHeaders] skips the headers it knows, stores the rest with their
    total difficulties, and when the segment wins the fork choice installs it
    as the canonical chain: markers above its end are deleted, stale ones below
    its start are overwritten back to the fork point. *)
From S2P Require Import Prelude Common RlpEncode RlpDecode StateObject TeWaka Consensus HeaderRlp RawDB RawDBSpec HeaderChain.
From S2P Require Import HeaderChainSpec.
Import Enc Bytes.
Open Scope go_scope.

Section Write.
Context {B : Backend} {Bok : BackendOk B} {Hplay : Play}.
Context {LH : LruCache Header} {LHok : LruCacheOk LH} {LZ : LruCache Z} {LZok : LruCacheOk LZ}.
Implicit Types (T : tables) (hc : HeaderChain) (x y : Header) (h : hash) (n : Z) (w : wvars).

(** ** One header into the batch *)

Lemma td_bytes_small td : 0 ≤ td < 2 ^ 256 → zlen (td_bytes td) < 2 ^ 64.
Proof.
  intros Ht. unfold td_bytes. cbn [item_of enc]. pose proof (zlen_enc_str_le (be_min td)) as H.
  pose proof (nbytes_le td 32 Ht). unfold zlen in H at 2. unfold be_min in H at 2. rewrite length_be_fixed in H.
  assert (Z.of_nat (nbytes td) ≤ 32) by lia. assert (41 < 2 ^ 64) by done. lia.
Qed.

Lemma carries_store b ops x td :
  carries b ops → in_play x → 0 ≤ td < 2 ^ 256 →
  ∃ b1 b2, WriteTd (Header_Hash x) (hd_Number x) td b = Ret b1 ∧ WriteHeader x b1 = Ret b2 ∧
    carries b2 (ops ++ [TPutTd (hd_Number x) (Header_Hash x) td; TPutHeader x]).
Proof.
  intros Hb Hx Ht. pose proof (number_u64 x Hx) as Hn. pose proof (Header_Hash_u256 x) as Hh.
  destruct (carries_td (hd_Number x) (Header_Hash x) td) as (c1 & E1 & C1); [split_and!; try done; [apply Ht|by apply td_bytes_small]|].
  destruct (carries_header x) as (c2 & E2 & C2); [split; [by apply pl_wf|done]|].
  unfold WriteTd, WriteHeader in *.
  destruct (must_encode (VBig (Some td))) as [d1|]; [|done]. destruct (must_encode (Header_val x)) as [d2|]; [|done].
  cbn [obind] in *. injection E1 as <-. injection E2 as <-. eexists _, _. split_and!; [done|done|].
  replace (ops ++ [TPutTd (hd_Number x) (Header_Hash x) td; TPutHeader x])
    with ((ops ++ [TPutTd (hd_Number x) (Header_Hash x) td]) ++ [TPutHeader x]) by (by rewrite <- app_assoc).
  unfold WriteHeaderNumber, Put in *. rewrite <- app_assoc. apply carries_app; [by apply carries_app|done].
Qed.

Lemma cache_put hc T x td :
  cache_inv hc T → tab_inv T → in_play x → t_headers T !! (hd_Number x, Header_Hash x) = None →
  cache_inv (cache_header (Header_Hash x) (hd_Number x) td x hc) (put T x td).
Proof.
  intros [H1 H2 H3] HT Hx Hf. split; cbn; intros k v [[-> ->]|Hk]%lru_Add_keeps.
  - by rewrite lookup_insert_eq.
  - rewrite lookup_insert_ne; [by apply H1|]. intros [= _ <-]. apply H1 in Hk. by rewrite (fresh_hash T x _ HT Hx Hf) in Hk.
  - eexists. by rewrite lookup_insert_eq.
  - destruct (H2 k v Hk) as [n Hn]. exists n. rewrite lookup_insert_ne; [done|]. intros [= _ <-].
    destruct (ti_td_dom T HT n (Header_Hash x)) as [z Hz]; [eauto|]. by rewrite (fresh_hash T x _ HT Hx Hf) in Hz.
  - by rewrite lookup_insert_eq.
  - apply H3 in Hk. rewrite lookup_insert_ne; [done|]. intros <-. apply (ti_number T HT) in Hk as [z Hz].
    by rewrite (fresh_hash T x _ HT Hx Hf) in Hz.
Qed.

Lemma segment_hash_ok x hs : segment x hs → segment_hash x hs = Header_Hash x.
Proof. destruct hs as [|z hs]; [done|]. by intros (_ & [E _] & _). Qed.

Lemma td_range T x td : tab_inv T → stored T x → td_of T x = Some td → 0 ≤ td < 2 ^ 144.
Proof.
  intros HT Hx Ht. pose proof (ti_bound T HT x td Hx Ht) as Hb. pose proof (pl_number x (stored_P T HT x Hx)) as Hn.
  split; [lia|]. apply Z.lt_le_trans with ((hd_Number x + 1) * 2 ^ 80); [lia|].
  change (2 ^ 144) with (2 ^ 64 * 2 ^ 80). apply Z.mul_le_mono_nonneg_r; lia.
Qed.

(** ** The loop over new headers *)

Definition pairs (hs : list Header) : list (Z * hash) := (λ x, (hd_Number x, Header_Hash x)) <$> hs.

(** The variables after a segment [hs] of new headers. *)
Record wrote y (hs : list Header) w w' : Prop := mkWrote {
  wo_td : wv_newTD w' = wv_newTD w + weight hs;
  wo_inserted : wv_inserted w' = wv_inserted w ++ pairs hs;
  wo_last : hs ≠ [] → wv_lastHeader w' = Some (top y hs) ∧ wv_lastHash w' = Header_Hash (top y hs) ∧
    wv_lastNumber w' = hd_Number (top y hs)
}.

Lemma wrote_cons y x hs w w1 w' :
  wrote y [x] w w1 → wrote x hs w1 w' → (hs = [] → w' = w1) → wrote y (x :: hs) w w'.
Proof.
  intros [A1 A2 A3] [B1 B2 B3] Hn. cbn in A1. split.
  - rewrite B1, A1. change (weight (x :: hs)) with (hd_Difficulty x + weight hs). lia.
  - rewrite B2, A2, <- app_assoc. done.
  - intros _. rewrite top_cons. destruct hs as [|z hs]; [rewrite (Hn eq_refl); by apply A3|by apply B3].
Qed.

Lemma write_loop_new hs : ∀ i y T hc w ops,
  tab_inv T → segment y hs → stored T y → td_of T y = Some (wv_newTD w) →
  (∀ x, head hs = Some x → t_headers T !! (hd_Number x, Header_Hash x) = None) →
  cache_inv hc T → wv_parentKnown w = false ∨ hs = [] → carries (wv_batch w) ops →
  (0 ≤ wv_firstInserted w) →
  ∃ w' hc', write_loop i hs w hc = XRet (w', hc') ∧ same hc hc' ∧ cache_inv hc' (put_all (wv_newTD w) hs T) ∧
    carries (wv_batch w') (ops ++ put_ops (wv_newTD w) hs) ∧ wrote y hs w w' ∧
    wv_firstInserted w' = wv_firstInserted w ∧ (hs = [] → w' = w).
Proof.
  induction hs as [|x hs IH]; intros i y T hc w ops HT Hs Hy Htd Hf Hca Hk Hb H0.
  - exists w, hc. rewrite app_nil_r. split_and!; try done. split; [cbn; lia|by rewrite app_nil_r|done].
  - destruct Hs as (Hx & Hc & Hs). specialize (Hf x eq_refl). destruct Hk as [Hk|]; [|done].
    pose proof (put_inv T x y _ HT Hx Hc Hy Htd Hf) as HT'.
    set (td := wv_newTD w + hd_Difficulty x) in *. pose proof (put_stores T x td HT Hx Hf) as HS.
    destruct (so_new _ _ _ _ HS) as [Hnx Htx].
    assert (0 ≤ td < 2 ^ 256) as Hr.
    { pose proof (td_range _ x td HT' Hnx Htx) as [? Hlt]. split; [done|]. eapply Z.lt_trans; [exact Hlt|done]. }
    destruct (carries_store (wv_batch w) ops x td Hb Hx Hr) as (b1 & b2 & E1 & E2 & Hb2).
    cbn [write_loop]. rewrite (segment_hash_ok x hs Hs). unfold u64. rewrite !(wrap_id 64 _ (number_u64 x Hx)).
    fold td. unfold sbind at 1, sread. rewrite Hk. cbn [andb]. unfold sbind, sout. rewrite E1. cbn [sret].
    rewrite E2. cbn [sret smodify].
    set (w1 := mkWvars _ _ _ _ _ _ _ _). set (hc1 := cache_header _ _ _ _ _).
    assert (wrote y [x] w w1) as Hw1.
    { split; [cbn; fold td; lia|done|done]. }
    destruct (IH (i + 1) x (put T x td) hc1 w1 (ops ++ [TPutTd (hd_Number x) (Header_Hash x) td; TPutHeader x])
      HT' Hs Hnx Htx) as (w' & hc' & E & Hsm & Hca' & Hb' & Hw' & Hfi & Hnil).
    { apply (childless_fresh _ x); [done|by apply put_childless|done]. }
    { by apply cache_put. }
    { by left. }
    { done. }
    { cbn. destruct (Z.ltb_spec (wv_firstInserted w) 0); [lia|done]. }
    exists w', hc'. rewrite E. split_and!; try done.
    + rewrite <- app_assoc in Hb'. done.
    + by apply (wrote_cons y x hs w w1).
    + rewrite Hfi. cbn. destruct (Z.ltb_spec (wv_firstInserted w) 0); [lia|done].
Qed.

(** ** The whole loop: headers that are known, then new ones *)

Definition start_vars y (td : Z) : wvars := mkWvars [] td [] (-1) true None (Header_Hash y) (hd_Number y).

Lemma write_loop_spec hs : ∀ i y T hc w,
  backed hc T → segment y hs → stored T y → td_of T y = Some (wv_newTD w) → 0 ≤ i →
  wv_parentKnown w = true → wv_batch w = [] → wv_firstInserted w = -1 →
  ∃ known new w' hc',
    hs = known ++ new ∧ Forall (λ x, stored T x) known ∧
    (∀ x, head new = Some x → t_headers T !! (hd_Number x, Header_Hash x) = None) ∧
    td_of T (top y known) = Some (wv_newTD w + weight known) ∧
    write_loop i hs w hc = XRet (w', hc') ∧ same hc hc' ∧
    let td := wv_newTD w + weight known in
    cache_inv hc' (put_all td new T) ∧ carries (wv_batch w') (put_ops td new) ∧
    wv_newTD w' = td + weight new ∧ wv_inserted w' = wv_inserted w ++ pairs new ∧
    wv_firstInserted w' = (if new then -1 else i + zlen known) ∧
    (hs ≠ [] → wv_lastHeader w' = Some (top y hs) ∧ wv_lastHash w' = Header_Hash (top y hs) ∧
      wv_lastNumber w' = hd_Number (top y hs)).
Proof.
  induction hs as [|x hs IH]; intros i y T hc w Hbk Hs Hy Htd Hi Hk Hb Hfi.
  - exists [], [], w, hc. cbn [app weight fold_right put_all put_ops]. cbv zeta. rewrite Hb, Hfi, !Z.add_0_r.
    split_and!; try done; [apply Hbk|apply carries_nil|cbn; by rewrite app_nil_r].
  - pose proof (bk_tab _ _ Hbk) as HT. destruct Hs as (Hx & Hc & Hs).
    set (td := wv_newTD w + hd_Difficulty x). destruct (hc_HasHeader (Header_Hash x) (hd_Number x) hc) eqn:Eh.
    + apply (HasHeader_hc hc T x Hbk Hx) in Eh as Hsx. destruct (stored_td T HT x Hsx) as [t Ht].
      assert (t = td) as -> by exact (td_child T HT x y t _ Hsx Hy Hc Ht Htd).
      set (w1 := mkWvars (wv_batch w) td (wv_inserted w) (wv_firstInserted w) true (Some x) (Header_Hash x) (hd_Number x)).
      destruct (IH (i + 1) x T hc w1 Hbk Hs Hsx Ht) as (known & new & w' & hc' & E1 & F1 & F2 & F3 & F4 & F5 & G1 & G2 & G3 & G4 & G5 & G6);
        [lia|done|done|done|].
      assert (wv_newTD w1 + weight known = wv_newTD w + weight (x :: known)) as Ew.
      { cbn [wv_newTD w1]. change (weight (x :: known)) with (hd_Difficulty x + weight known). unfold td. lia. }
      rewrite Ew in *. exists (x :: known), new, w', hc'. rewrite top_cons. cbv zeta. split_and!; try done.
      * by rewrite E1.
      * by constructor.
      * cbn [write_loop]. rewrite (segment_hash_ok x hs Hs). unfold u64. rewrite !(wrap_id 64 _ (number_u64 x Hx)).
        unfold sbind at 1, sread. rewrite Hk, Eh. exact F4.
      * rewrite G5. destruct new; [done|]. unfold zlen. cbn [length]. lia.
      * intros _. rewrite top_cons. destruct hs as [|z hs]; [|by apply G6].
        symmetry in E1. apply app_nil in E1 as [-> ->]. cbn in F4. injection F4 as <- <-. done.
    + assert (t_headers T !! (hd_Number x, Header_Hash x) = None) as Hf.
      { destruct (t_headers T !! (hd_Number x, Header_Hash x)) as [z|] eqn:Ez; [|done]. destruct (stored_at T HT _ _ _ Ez) as (Hz & _ & E).
        assert (z = x) as -> by (apply (same_header T HT); [done|done|by rewrite <- E]).
        apply (HasHeader_hc hc T x Hbk Hx) in Hz. congruence. }
      pose proof (put_inv T x y _ HT Hx Hc Hy Htd Hf) as HT'. fold td in HT'.
      pose proof (put_stores T x td HT Hx Hf) as HS. destruct (so_new _ _ _ _ HS) as [Hnx Htx].
      assert (0 ≤ td < 2 ^ 256) as Hr.
      { pose proof (td_range _ x td HT' Hnx Htx) as [? Hlt]. split; [done|]. eapply Z.lt_trans; [exact Hlt|done]. }
      destruct (carries_store [] [] x td carries_nil Hx Hr) as (b1 & b2 & E1 & E2 & Hb2).
      set (w1 := mkWvars b2 td (wv_inserted w ++ [(hd_Number x, Header_Hash x)]) i false (Some x) (Header_Hash x) (hd_Number x)).
      destruct (write_loop_new hs (i + 1) x (put T x td) (cache_header (Header_Hash x) (hd_Number x) td x hc) w1
        _ HT' Hs Hnx Htx (childless_fresh _ x hs HT' (put_childless T x td HT Hx Hf) Hs)
        (cache_put hc T x td (bk_cache _ _ Hbk) HT Hx Hf) (or_introl eq_refl) Hb2 Hi)
        as (w' & hc' & E & Hsm & Hca' & Hb' & [Hw1 Hw2 Hw3] & Hfi' & Hnil).
      exists [], (x :: hs), w', hc'. change (weight []) with 0. cbv zeta. rewrite Z.add_0_r. split_and!; try done.
      * by intros z [= <-].
      * cbn [write_loop]. rewrite (segment_hash_ok x hs Hs). unfold u64. rewrite !(wrap_id 64 _ (number_u64 x Hx)).
        unfold sbind at 1, sread. rewrite Hk, Eh, Hb, Hfi. cbn [andb]. fold td. unfold sbind, sout. rewrite E1.
        cbn [sret]. rewrite E2. exact E.
      * rewrite Hw1. change (weight (x :: hs)) with (hd_Difficulty x + weight hs). cbn [wv_newTD w1]. unfold td. lia.
      * rewrite Hw2. cbn [wv_inserted w1]. by rewrite <- app_assoc.
      * rewrite Hfi'. change (i = i + 0). lia.
      * intros _. rewrite top_cons. destruct hs as [|z hs]; [by rewrite (Hnil eq_refl)|by apply Hw3].
Qed.

End Write.
