(* ===== verification/HeaderChainReorg.v ===== *)
(** * Moving the canonical chain

    The marker updates of [writeHeaders] over the tables: a segment that starts
    above a canonical header becomes the end of the canonical chain, and what
    was above it is gone.  [InsertHeaderChain] keeps the invariant. *)
From S2P Require Import Prelude Common RlpEncode RlpDecode StateObject TeWaka Consensus HeaderRlp RawDB RawDBSpec HeaderChain.
From S2P Require Import HeaderChainSpec HeaderChainWrite.
Import Enc Bytes.
Open Scope go_scope.

Section Reorg.
Context {B : Backend} {Bok : BackendOk B} {Hplay : Play}.
Context {LH : LruCache Header} {LHok : LruCacheOk LH} {LZ : LruCache Z} {LZok : LruCacheOk LZ}.
Implicit Types (T : tables) (hc : HeaderChain) (x y z : Header) (h : hash) (n : Z).

(** ** Segments *)

Lemma segment_app y hs1 hs2 : segment y (hs1 ++ hs2) ↔ segment y hs1 ∧ segment (top y hs1) hs2.
Proof.
  revert y. induction hs1 as [|x hs1 IH]; intros y; [cbn; naive_solver|]. cbn [app segment]. rewrite IH, top_cons. naive_solver.
Qed.
Lemma top_app y hs1 hs2 : top y (hs1 ++ hs2) = top (top y hs1) hs2.
Proof. unfold top. rewrite last_app. by destruct (last hs2). Qed.

Lemma segment_Forall y hs : segment y hs → Forall in_play hs.
Proof. revert y. induction hs as [|x hs IH]; intros y; [done|]. intros (? & _ & ?). constructor; eauto. Qed.

Lemma segment_numbers y hs : segment y hs →
  (∀ z, z ∈ hs → hd_Number y < hd_Number z ≤ hd_Number (top y hs)) ∧
  (∀ n, hd_Number y < n ≤ hd_Number (top y hs) → ∃ z, z ∈ hs ∧ hd_Number z = n) ∧
  hd_Number (top y hs) = hd_Number y + zlen hs.
Proof.
  revert y. induction hs as [|x hs IH]; intros y.
  - intros _. unfold top, zlen. cbn. split_and!; [by intros z ?%elem_of_nil|lia|lia].
  - intros (_ & [_ E] & Hs). destruct (IH x Hs) as (H1 & H2 & H3). rewrite top_cons.
    assert (zlen (x :: hs) = zlen hs + 1) as Ez by (unfold zlen; cbn [length]; lia). pose proof (zlen_nonneg hs). split_and!.
    + intros z [->|Hz]%elem_of_cons; [lia|]. specialize (H1 z Hz). lia.
    + intros n Hn. destruct (decide (n = hd_Number x)) as [->|]; [exists x; split; [left|done]|].
      destruct (H2 n) as (z & Hz & <-); [lia|]. exists z. split; [by right|done].
    + lia.
Qed.

Lemma segment_pred y hs z : segment y hs → z ∈ hs → child_of z y ∨ ∃ z', z' ∈ hs ∧ child_of z z'.
Proof.
  revert y. induction hs as [|x hs IH]; intros y; [by intros _ ?%elem_of_nil|].
  intros (_ & Hc & Hs) [->|Hz]%elem_of_cons; [by left|right].
  destruct (IH x Hs Hz) as [?|(z' & Hz' & ?)]; [exists x; split; [left|done]|exists z'; split; [by right|done]].
Qed.

Lemma segment_unique y hs z z' : segment y hs → z ∈ hs → z' ∈ hs → hd_Number z = hd_Number z' → z = z'.
Proof.
  revert y. induction hs as [|x hs IH]; intros y; [by intros _ ?%elem_of_nil|]. intros (_ & _ & Hs) H1 H2 E.
  destruct (segment_numbers x hs Hs) as (Hn & _). apply elem_of_cons in H1, H2.
  destruct H1 as [->|H1], H2 as [->|H2]; [done| | |by eapply IH].
  - specialize (Hn z' H2). lia.
  - specialize (Hn z H1). lia.
Qed.

Lemma top_in y hs : hs ≠ [] → top y hs ∈ hs.
Proof.
  intros Hn. unfold top. destruct (last hs) as [z|] eqn:E; [by apply last_Some_elem_of|]. by apply last_None in E.
Qed.

(** ** Marker updates *)

Definition dels (l : list Z) : list table_op := TDelCanon <$> l.
Definition puts (hs : list Header) : list table_op := (λ z, TPutCanon (hd_Number z) (Header_Hash z)) <$> hs.
Definition marks (hs : list Header) : list table_op :=
  hs ≫= λ z, [TPutCanon (hd_Number z) (Header_Hash z); TPutHead (Header_Hash z)].

(** Same headers, difficulties and numbers. *)
Definition markers_only T T' : Prop :=
  t_headers T' = t_headers T ∧ t_tds T' = t_tds T ∧ t_numbers T' = t_numbers T.

Lemma markers_only_trans T1 T2 T3 : markers_only T1 T2 → markers_only T2 T3 → markers_only T1 T3.
Proof. intros (?&?&?) (?&?&?). repeat split; congruence. Qed.

Lemma dels_spec l : ∀ T, let T' := fold_left t_apply (dels l) T in
  markers_only T T' ∧ t_head T' = t_head T ∧
  ∀ n h, t_canon T' !! n = Some h ↔ n ∉ l ∧ t_canon T !! n = Some h.
Proof.
  induction l as [|i l IH]; intros T; cbv zeta.
  - split_and!; [done|done|]. intros n h. split; [intros ?; split; [apply not_elem_of_nil|done]|by intros [_ ?]].
  - cbn [dels fmap list_fmap fold_left]. destruct (IH (t_apply T (TDelCanon i))) as (H1 & H2 & H3). split_and!; [done|done|].
    intros n h. rewrite H3. cbn [t_apply t_canon]. rewrite lookup_delete_Some, not_elem_of_cons. naive_solver.
Qed.

(** Markers set for headers of distinct heights. *)
Definition marked (hs : list Header) T T' : Prop :=
  markers_only T T' ∧
  ∀ n h, t_canon T' !! n = Some h ↔
    (∃ z, z ∈ hs ∧ hd_Number z = n ∧ Header_Hash z = h) ∨ (∀ z, z ∈ hs → hd_Number z ≠ n) ∧ t_canon T !! n = Some h.

Lemma marked_nil T : marked [] T T.
Proof.
  split; [done|]. intros n h. split.
  - intros H. right. split; [by intros z ?%elem_of_nil|done].
  - intros [(z & ?%elem_of_nil & _)|[_ H]]; done.
Qed.
Lemma marked_cons x hs T T1 T' :
  markers_only T T1 → t_canon T1 = <[hd_Number x := Header_Hash x]> (t_canon T) →
  (∀ z, z ∈ hs → hd_Number z ≠ hd_Number x) → marked hs T1 T' → marked (x :: hs) T T'.
Proof.
  intros H1 E1 Hd [H2 H3]. split; [by eapply markers_only_trans|]. intros n h. rewrite H3, E1.
  setoid_rewrite elem_of_cons. rewrite lookup_insert_Some. split.
  - intros [(z & ? & ? & ?)|[Hn [[<- <-]|[Hne Hc]]]]; [eauto 6|eauto 6|]. right. split; [|done].
    intros z [->|Hz]; [done|by apply Hn].
  - intros [(z & [->|Hz] & <- & <-)|[Hn Hc]]; [right; split; [done|by left]|eauto|].
    right. split; [by auto|right]. split; [apply Hn; by left|done].
Qed.

(** No two headers of one height. *)
Fixpoint heights_distinct (hs : list Header) : Prop :=
  match hs with [] => True | x :: hs => (∀ z, z ∈ hs → hd_Number z ≠ hd_Number x) ∧ heights_distinct hs end.

Lemma segment_distinct y hs : segment y hs → heights_distinct hs.
Proof.
  revert y. induction hs as [|x hs IH]; intros y; [done|]. intros (_ & _ & Hs). split; [|by eapply IH].
  intros z Hz. destruct (segment_numbers x hs Hs) as (Hn & _). specialize (Hn z Hz). lia.
Qed.
Lemma distinct_snoc hs x : heights_distinct hs → (∀ z, z ∈ hs → hd_Number z ≠ hd_Number x) → heights_distinct (hs ++ [x]).
Proof.
  induction hs as [|y hs IH]; intros H Hx; [by split; [intros z ?%elem_of_nil|]|]. destruct H as [H1 H2]. split.
  - intros z [Hz|Hz]%elem_of_app; [by apply H1|]. apply list_elem_of_singleton in Hz as ->. apply not_eq_sym, Hx. by left.
  - apply IH; [done|]. intros z Hz. apply Hx. by right.
Qed.
Lemma distinct_reverse hs : heights_distinct hs → heights_distinct (reverse hs).
Proof.
  induction hs as [|x hs IH]; [done|]. intros [H1 H2]. rewrite reverse_cons. apply distinct_snoc; [by apply IH|].
  intros z Hz. rewrite elem_of_reverse in Hz. exact (H1 z Hz).
Qed.

Lemma puts_marked hs : ∀ T, heights_distinct hs →
  marked hs T (fold_left t_apply (puts hs) T) ∧ t_head (fold_left t_apply (puts hs) T) = t_head T.
Proof.
  induction hs as [|x hs IH]; intros T Hd; [split; [apply marked_nil|done]|]. destruct Hd as [H1 H2].
  cbn [puts fmap list_fmap fold_left]. destruct (IH (t_apply T (TPutCanon (hd_Number x) (Header_Hash x))) H2) as [H3 H4].
  split; [|exact H4]. eapply marked_cons; [| | |exact H3]; done.
Qed.
Lemma marks_marked hs : ∀ T, heights_distinct hs →
  marked hs T (fold_left t_apply (marks hs) T) ∧
  t_head (fold_left t_apply (marks hs) T) = match last hs with Some z => Some (Header_Hash z) | None => t_head T end.
Proof.
  induction hs as [|x hs IH]; intros T Hd; [split; [apply marked_nil|done]|]. destruct Hd as [H1 H2].
  cbn [marks mbind list_bind app fold_left].
  set (T1 := t_apply (t_apply T (TPutCanon (hd_Number x) (Header_Hash x))) (TPutHead (Header_Hash x))).
  destruct (IH T1 H2) as [H3 H4]. split.
  - eapply marked_cons; [| | |exact H3]; done.
  - rewrite last_cons. fold (marks hs) in *. rewrite H4. by destruct (last hs).
Qed.

Lemma tab_inv_markers T T' : tab_inv T → markers_only T T' → tab_inv T'.
Proof. intros [] (E1 & E2 & E3). split; rewrite ?E1, ?E2, ?E3; done. Qed.
Lemma childless_markers T T' x : childless T x → markers_only T T' → childless T' x.
Proof. intros H (E1 & _ & _) y. rewrite E1. apply H. Qed.
Lemma cache_inv_markers hc T T' : cache_inv hc T → markers_only T T' → cache_inv hc T'.
Proof. intros [] (E1 & E2 & E3). split; rewrite ?E1, ?E2, ?E3; done. Qed.

(** ** The canonical chain *)

Lemma canon_stored T x n h : tab_inv T → canon_inv T x → t_canon T !! n = Some h →
  ∃ y, stored T y ∧ hd_Number y = n ∧ Header_Hash y = h ∧ n ≤ hd_Number x.
Proof.
  intros HT HC E. destruct (ci_link T x HC n h E) as (Hle & y & Hy & _).
  destruct (stored_at T HT _ _ _ Hy) as (Hs & -> & ->). eauto.
Qed.

Lemma canon_full T x n : tab_inv T → canon_inv T x → 0 ≤ n ≤ hd_Number x → is_Some (t_canon T !! n).
Proof.
  intros HT HC Hn. replace n with (hd_Number x - Z.of_nat (Z.to_nat (hd_Number x - n))) by lia.
  assert (Z.of_nat (Z.to_nat (hd_Number x - n)) ≤ hd_Number x) as Hk by lia. revert Hk.
  induction (Z.to_nat (hd_Number x - n)) as [|k IH]; intros Hk.
  - rewrite Z.sub_0_r. rewrite (ci_head T x HC). eauto.
  - destruct IH as [h Hh]; [lia|]. destruct (ci_link T x HC _ h Hh) as (_ & y & _ & Hl).
    replace (hd_Number x - Z.of_nat (S k)) with (hd_Number x - Z.of_nat k - 1) by lia. rewrite Hl by lia. eauto.
Qed.

Lemma canon_zero T x y : tab_inv T → canon_inv T x → stored T y → hd_Number y = 0 →
  t_canon T !! hd_Number y = Some (Header_Hash y).
Proof.
  intros HT HC Hy E0. pose proof (pl_number x (stored_P T HT x (ci_stored T x HC))).
  destruct (canon_full T x 0 HT HC) as [h Hh]; [lia|]. destruct (canon_stored T x 0 h HT HC Hh) as (z & Hz & En & <- & _).
  rewrite E0, Hh. by rewrite (stored_zero T HT z Hz En), (stored_zero T HT y Hy E0).
Qed.

Lemma canon_install T T' x j hs (l : list Z) :
  tab_inv T → canon_inv T x → t_canon T !! hd_Number j = Some (Header_Hash j) →
  segment j hs → hs ≠ [] → Forall (λ z, stored T z) hs →
  markers_only T T' → t_head T' = Some (Header_Hash (top j hs)) →
  (∀ n h, t_canon T' !! n = Some h ↔ (∃ z, z ∈ hs ∧ hd_Number z = n ∧ Header_Hash z = h) ∨
     (∀ z, z ∈ hs → hd_Number z ≠ n) ∧ n ∉ l ∧ t_canon T !! n = Some h) →
  (∀ n, n ∈ l ↔ hd_Number (top j hs) < n ≤ hd_Number x) →
  canon_inv T' (top j hs).
Proof.
  intros HT HC Hj Hs Hne Hst (E1 & _ & _) Hhd Hc Hl. destruct (segment_numbers j hs Hs) as (Hn1 & Hn2 & _).
  rewrite List.Forall_forall in Hst. pose proof (Hn1 _ (top_in j hs Hne)) as Htj.
  assert (∀ n h, n ≤ hd_Number j → t_canon T !! n = Some h → t_canon T' !! n = Some h) as Hbelow.
  { intros n h Hn Hh. apply Hc. right. split_and!; [|rewrite Hl; lia|done]. intros z Hz. specialize (Hn1 z Hz). lia. }
  split.
  - rewrite E1. apply Hst, list_elem_of_In, top_in, Hne.
  - apply Hc. left. eauto using top_in.
  - done.
  - intros n h [(z & Hz & <- & <-)|(Hz & Hln & Hh)]%Hc.
    + split; [by apply Hn1|]. exists z. rewrite E1. split; [by apply Hst, list_elem_of_In|]. intros Hn0.
      destruct (segment_pred j hs z Hs Hz) as [[Ep En]|(z' & Hz' & Ep & En)]; rewrite Ep.
      * apply Hbelow; [lia|]. by rewrite En, Z.add_simpl_r.
      * apply Hc. left. exists z'. split_and!; [done|lia|done].
    + assert (n ≤ hd_Number j) as Hnj.
      { destruct (decide (n ≤ hd_Number j)) as [|Hgt]; [done|exfalso].
        destruct (decide (n ≤ hd_Number (top j hs))) as [Hle|Hgt'].
        - destruct (Hn2 n) as (z & Hz1 & Hz2); [lia|]. by eapply Hz.
        - apply Hln, Hl. destruct (ci_link T x HC n h Hh). lia. }
      split; [lia|]. destruct (ci_link T x HC n h Hh) as (_ & y & Hy & Hlk). exists y. rewrite E1. split; [done|].
      intros Hn0. apply Hbelow; [lia|by apply Hlk].
Qed.

(** ** The two marker loops *)

Lemma delete_above_spec fuel : ∀ i b ops hc T x,
  backed hc T → canon_inv T x → 0 ≤ i < 2 ^ 64 → hd_Number x + 1 - i ≤ Z.of_nat fuel → carries b ops →
  ∃ b', delete_above fuel i b hc = XRet b' ∧ carries b' (ops ++ dels (seqZ i (hd_Number x + 1 - i))).
Proof.
  induction fuel as [|fuel IH]; intros i b ops hc T x Hbk HC Hi Hf Hb; pose proof (bk_tab _ _ Hbk) as HT;
    pose proof (pl_number x (stored_P T HT x (ci_stored T x HC))) as Hx.
  all: assert (is_u64 i) as Hu by (split; lia).
  all: cbn [delete_above]; destruct (Z.eqb_spec (ReadCanonicalHash (hc_chainDb hc) i) 0) as [E|E].
  all: rewrite (canon_read_zero hc T x i Hbk HC Hu) in E.
  - exists b. split; [done|]. rewrite seqZ_nil by lia. by rewrite app_nil_r.
  - destruct E. destruct (t_canon T !! i) eqn:Ec; [|done]. destruct (ci_link T x HC i _ Ec). lia.
  - exists b. split; [done|]. assert (hd_Number x < i).
    { destruct (decide (hd_Number x < i)); [done|]. destruct (canon_full T x i HT HC) as [? ?]; [lia|congruence]. }
    rewrite seqZ_nil by lia. by rewrite app_nil_r.
  - assert (i ≤ hd_Number x) as Hix.
    { destruct (t_canon T !! i) eqn:Ec; [|done]. by destruct (ci_link T x HC i _ Ec). }
    unfold u64. rewrite wrap_id by (split; lia).
    destruct (IH (i + 1) (DeleteCanonicalHash i b) (ops ++ [TDelCanon i]) hc T x Hbk HC) as (b' & E' & Hb'); [lia|lia| |].
    { apply carries_app; [done|by apply carries_uncanon]. }
    exists b'. split; [done|]. rewrite (seqZ_cons i) by lia. rewrite <- app_assoc in Hb'. unfold Z.succ, Z.pred.
    by replace (hd_Number x + 1 - i + -1) with (hd_Number x + 1 - (i + 1)) by lia.
Qed.

(** Going back from [y] to the canonical chain. *)
Lemma overwrite_stale_spec fuel : ∀ y b ops hc T x,
  backed hc T → canon_inv T x → stored T y → hd_Number y ≤ Z.of_nat fuel → carries b ops →
  ∃ path j b' hc',
    overwrite_stale fuel (Header_Hash y) (hd_Number y) (Some y) b hc = XRet (b', hc') ∧ same hc hc' ∧ cache_inv hc' T ∧
    carries b' (ops ++ puts path) ∧ segment j (reverse path) ∧ top j (reverse path) = y ∧
    Forall (λ z, stored T z) path ∧ t_canon T !! hd_Number j = Some (Header_Hash j).
Proof.
  induction fuel as [|fuel IH]; intros y b ops hc T x Hbk HC Hy Hf Hb; pose proof (bk_tab _ _ Hbk) as HT;
    pose proof (stored_P T HT y Hy) as HyP; pose proof (pl_number y HyP) as Hyn.
  all: cbn [overwrite_stale]; unfold sbind at 1, sread.
  all: destruct (Z.eqb_spec (ReadCanonicalHash (hc_chainDb hc) (hd_Number y)) (Header_Hash y)) as [E|E].
  all: rewrite (canon_read_is hc T x y Hbk HC HyP) in E.
  1, 3: exists [], y, b, hc; rewrite app_nil_r; split_and!; try done; apply Hbk.
  - destruct E. apply (canon_zero T x y HT HC Hy). lia.
  - assert (hd_Number y ≠ 0) as Hn0 by (intros E0; apply E; by apply (canon_zero T x y HT HC Hy)).
    destruct (stored_parent T HT y Hy Hn0) as (z & Hz & Ep & En). pose proof (stored_P T HT z Hz) as HzP.
    unfold sbind at 1, sopt, sret. rewrite Ep. unfold u64. rewrite (wrap_id 64 (hd_Number y)) by (by apply number_u64).
    replace (wrap 64 (hd_Number y - 1)) with (hd_Number z).
    2: { rewrite En, Z.add_simpl_r. symmetry. by apply wrap_id, number_u64. }
    destruct (GetHeader_spec hc T (Header_Hash z) (hd_Number z) Hbk (number_u64 z HzP) (Header_Hash_u256 z))
      as (r & hc1 & E1 & Hs1 & Hc1 & Hr & _).
    unfold sbind at 1. rewrite E1, (Hr z Hz).
    destruct (IH z (WriteCanonicalHash (Header_Hash y) (hd_Number y) b) (ops ++ puts [y]) hc1 T x
      (backed_same _ _ _ Hbk Hs1 Hc1) HC Hz) as (path & j & b' & hc' & E' & Hs' & Hc' & Hb' & Hsg & Ht & Hst & Hj).
    { lia. }
    { apply carries_app; [done|apply carries_canon; [by apply number_u64|apply Header_Hash_u256]]. }
    exists (y :: path), j, b', hc'. rewrite reverse_cons, segment_app, top_app, Ht. split_and!; try done.
    + by eapply same_chain_trans.
    + by rewrite <- app_assoc in Hb'.
    + by constructor.
Qed.

(** ** The markers of a winning segment *)

Lemma carries_mark b ops z : in_play z → carries b ops → carries (mark (hd_Number z) (Header_Hash z) b) (ops ++ marks [z]).
Proof.
  intros Hz Hb. unfold mark. replace (ops ++ marks [z]) with
    ((ops ++ [TPutCanon (hd_Number z) (Header_Hash z)]) ++ [TPutHead (Header_Hash z)]) by (by rewrite <- app_assoc).
  pose proof (Header_Hash_u256 z). apply carries_app; [|by apply carries_head].
  apply carries_app; [done|]. apply carries_canon; [by apply number_u64|done].
Qed.

Lemma marks_app l1 l2 : marks (l1 ++ l2) = marks l1 ++ marks l2.
Proof. apply bind_app. Qed.

Lemma carries_known hs : ∀ b ops, Forall in_play hs → carries b ops →
  carries (fold_left (λ b z, mark (u64 (hd_Number z)) (Header_Hash z) b) hs b) (ops ++ marks hs).
Proof.
  induction hs as [|z hs IH]; intros b ops Hp Hb; [by rewrite app_nil_r|]. inversion Hp; subst.
  change (marks (z :: hs)) with (marks [z] ++ marks hs). rewrite app_assoc. cbn [fold_left]. apply IH; [done|].
  unfold u64. rewrite wrap_id by (by apply number_u64). by apply carries_mark.
Qed.
Lemma carries_inserted hs : ∀ b ops, Forall in_play hs → carries b ops →
  carries (fold_left (λ b nh, mark (fst nh) (snd nh) b) (pairs hs) b) (ops ++ marks hs).
Proof.
  induction hs as [|z hs IH]; intros b ops Hp Hb; [by rewrite app_nil_r|]. inversion Hp; subst.
  change (marks (z :: hs)) with (marks [z] ++ marks hs). rewrite app_assoc. cbn [pairs fmap list_fmap fold_left].
  apply IH; [done|]. by apply carries_mark.
Qed.

(** Deleting, overwriting and marking, as one change of the markers. *)
Lemma markers_compose T l path j hs :
  segment j (reverse path ++ hs) → segment (top j (reverse path)) hs →
  let T' := fold_left t_apply (dels l ++ puts path ++ marks hs) T in
  markers_only T T' ∧
  (∀ n h, t_canon T' !! n = Some h ↔
     (∃ z, z ∈ reverse path ++ hs ∧ hd_Number z = n ∧ Header_Hash z = h) ∨
     (∀ z, z ∈ reverse path ++ hs → hd_Number z ≠ n) ∧ n ∉ l ∧ t_canon T !! n = Some h) ∧
  (hs ≠ [] → t_head T' = Some (Header_Hash (top (top j (reverse path)) hs))).
Proof.
  intros Hs Hs2 T'. unfold T'. rewrite !fold_left_app. apply segment_app in Hs as Hs1. destruct Hs1 as [Hs1 _].
  destruct (dels_spec l T) as (D1 & D2 & D3). set (T1 := fold_left t_apply (dels l) T) in *.
  assert (heights_distinct path) as Hd.
  { rewrite <- (reverse_involutive path). by eapply distinct_reverse, segment_distinct. }
  destruct (puts_marked path T1 Hd) as [[P1 P2] P3]. set (T2 := fold_left t_apply (puts path) T1) in *.
  destruct (marks_marked hs T2 (segment_distinct _ _ Hs2)) as [[M1 M2] M3]. split_and!.
  - by eapply markers_only_trans; [|eapply markers_only_trans].
  - intros n h. rewrite M2, P2, D3. setoid_rewrite elem_of_app. setoid_rewrite elem_of_reverse. split.
    + intros [(z & Hz & <- & <-)|[Hn [(z & Hz & <- & <-)|[Hn2 Hc]]]]; [eauto 6|eauto 6|].
      right. split; [|done]. intros z [Hz|Hz]; auto.
    + intros [(z & [Hz|Hz] & <- & <-)|(Hn & Hl & Hc)]; [|left; eauto|].
      * right. split; [|eauto 6]. intros z' Hz' E.
        assert (z' = z) as ->.
        { apply (segment_unique j (reverse path ++ hs)); [done|apply elem_of_app; by right| |done].
          apply elem_of_app. left. by apply elem_of_reverse_2. }
        destruct (segment_numbers _ _ Hs1) as (Hb1 & _). destruct (segment_numbers _ _ Hs2) as (Hb2 & _).
        specialize (Hb1 z (elem_of_reverse_2 _ _ Hz)). specialize (Hb2 z Hz'). lia.
      * right. split; [by auto|]. right. split; [by auto|done].
  - intros Hne. rewrite M3. unfold top at 1. destruct (last hs) eqn:E; [done|by apply last_None in E].
Qed.

(** Only the database moves. *)
Definition same_but_db hc hc' : Prop :=
  hc_genesisHeader hc' = hc_genesisHeader hc ∧ hc_currentHeader hc' = hc_currentHeader hc ∧
  hc_currentHeaderHash hc' = hc_currentHeaderHash hc.

Lemma backed_write hc T b ops :
  backed hc T → carries b ops → markers_only T (fold_left t_apply ops T) →
  backed (set_db (batch_Write b (hc_chainDb hc)) hc) (fold_left t_apply ops T).
Proof.
  intros [HR HT HC] Hb Hm. split; [by apply Hb|by eapply tab_inv_markers|].
  eapply cache_inv_markers; [|exact Hm]. by destruct HC.
Qed.

Lemma write_markers_spec fuel hc T x p first rest known new w :
  backed hc T → canon_inv T x → hc_currentHeaderHash hc = Header_Hash x →
  stored T p → segment p (first :: rest) → first :: rest = known ++ new → new ≠ [] →
  Forall (λ z, stored T z) (first :: rest) → (p = x → known = []) →
  wv_lastNumber w = hd_Number (top p (first :: rest)) → wv_inserted w = pairs new →
  wv_firstInserted w = zlen known → hd_Number x ≤ Z.of_nat fuel → hd_Number p ≤ Z.of_nat fuel →
  ∃ hc' T', write_markers fuel first (first :: rest) w hc = XRet (tt, hc') ∧ same_but_db hc hc' ∧
    backed hc' T' ∧ markers_only T T' ∧ canon_inv T' (top p (first :: rest)).
Proof.
  intros Hbk HC Hh Hp Hs Ekn Hne Hst Hpx Hln Hin Hfi Hf1 Hf2. pose proof (bk_tab _ _ Hbk) as HT.
  pose proof (stored_P T HT p Hp) as HpP. pose proof (segment_Forall _ _ Hs) as HF.
  pose proof Hs as (HfP & [Ep En] & Hs').
  unfold write_markers. unfold sbind at 1, sread. rewrite Hh, Ep, Hin, Hfi.
  assert (hd_Number p < hd_Number (top p (first :: rest)) < 2 ^ 64 - 1) as Htop.
  { destruct (segment_numbers _ _ Hs) as (Hb & _). pose proof (top_in p (first :: rest) ltac:(done)) as Hti.
    split; [by apply Hb|]. apply pl_number. by eapply List.Forall_forall; [|apply list_elem_of_In]. }
  pose proof (pl_number p HpP) as Hpn. rewrite Ekn in HF. apply Forall_app in HF as [HFk HFn].
  destruct (Z.eqb_spec (Header_Hash p) (Header_Hash x)) as [E|E].
  - assert (p = x) as -> by (by eapply (same_header T HT); [|by eapply stored_P; [|apply HC]|]).
    specialize (Hpx eq_refl). subst known. cbn [app] in Ekn. rewrite Ekn in *.
    unfold sbind at 1, sret. cbv beta iota. unfold smodify. eexists _, _. split; [done|].
    pose proof (carries_inserted new [] [] HFn carries_nil) as Hb. cbn [app] in Hb.
    destruct (markers_compose T [] [] x new) as (M1 & M2 & M3); [done|done|]. cbn [app dels puts fmap list_fmap] in M1, M2, M3.
    split_and!; [done|by apply backed_write|done|].
    apply (canon_install T _ x x new []); try done; [apply HC|by apply M3|].
    intros n. split; [by intros ?%elem_of_nil|lia].
  - destruct (delete_above_spec fuel (u64 (wv_lastNumber w + 1)) [] [] hc T x Hbk HC) as (b1 & E1 & Hb1).
    { apply wrap_range. lia. }
    { unfold u64. rewrite wrap_id by (split; lia). lia. }
    { apply carries_nil. }
    unfold sbind at 1. unfold sbind at 1. rewrite E1. cbv beta iota.
    assert (u64 (wv_lastNumber w + 1) = wv_lastNumber w + 1) as Eu by (apply wrap_id; split; lia). rewrite Eu in Hb1.
    replace (u64 (u64 (hd_Number first) - 1)) with (hd_Number p).
    2: { unfold u64. rewrite (wrap_id 64 (hd_Number first)) by (by apply number_u64). rewrite En, Z.add_simpl_r.
         symmetry. by apply wrap_id, number_u64. }
    destruct (GetHeader_spec hc T (Header_Hash p) (hd_Number p) Hbk (number_u64 p HpP) (Header_Hash_u256 p))
      as (r & hc1 & Eg & Hs1 & Hc1 & Hr & _).
    unfold sbind at 1. rewrite Eg, (Hr p Hp).
    destruct (overwrite_stale_spec fuel p b1 _ hc1 T x (backed_same _ _ _ Hbk Hs1 Hc1) HC Hp Hf2 Hb1)
      as (path & j & b2 & hc2 & E2 & Hs2 & Hc2 & Hb2 & Hsg & Ht & Hpst & Hj).
    unfold sbind at 1. rewrite E2. unfold sret at 1. cbv beta iota. unfold smodify.
    replace (take (Z.to_nat (zlen known)) (first :: rest)) with known.
    2: { rewrite Ekn. unfold zlen. by rewrite Nat2Z.id, take_app_length. }
    pose proof (same_chain_trans _ _ _ Hs1 Hs2) as Hs12.
    pose proof (carries_inserted new _ _ HFn (carries_known known b2 _ HFk Hb2)) as Hb.
    rewrite <- !app_assoc, <- marks_app, <- Ekn in Hb. cbn [app] in Hb.
    destruct (markers_compose T (seqZ (wv_lastNumber w + 1) (hd_Number x + 1 - (wv_lastNumber w + 1))) path j (first :: rest))
      as (M1 & M2 & M3).
    { apply segment_app. rewrite Ht. done. }
    { by rewrite Ht. }
    rewrite Ht in M3. eexists _, _. split; [done|]. split_and!.
    + destruct Hs12 as (_ & ? & ? & ?). done.
    + apply backed_write; [|exact Hb|exact M1]. by eapply backed_same; [|exact Hs12|].
    + done.
    + rewrite <- Ht, <- top_app in M3 |- *.
      apply (canon_install T _ x j (reverse path ++ first :: rest) (seqZ (wv_lastNumber w + 1) (hd_Number x + 1 - (wv_lastNumber w + 1)))); try done.
      * apply segment_app. by rewrite Ht.
      * by destruct (reverse path).
      * apply Forall_app. split; [by apply Forall_reverse|done].
      * by apply M3.
      * intros n. rewrite elem_of_seqZ, top_app, Ht, Hln. lia.
Qed.

End Reorg.
