(* ===== verification/HeaderChainInsert.v ===== *)
(** * Inserting headers keeps the chain

    [writeHeaders] as a whole: the segment is stored with its total
    difficulties, the head moves exactly when the fork choice says so, and the
    canonical markers again lead from the genesis to the head.  The one input
    that is excluded is a segment of headers that are all known already and
    would win without being the head. *)
From S2P Require Import Prelude Common RlpEncode RlpDecode StateObject TeWaka Consensus HeaderRlp RawDB RawDBSpec HeaderChain.
From S2P Require Import HeaderChainSpec HeaderChainWrite HeaderChainReorg.
Import Enc Bytes.
Open Scope go_scope.

Section Insert.
Context {B : Backend} {Bok : BackendOk B} {Hplay : Play}.
Context {LH : LruCache Header} {LHok : LruCacheOk LH} {LZ : LruCache Z} {LZok : LruCacheOk LZ}.
Implicit Types (T : tables) (hc : HeaderChain) (x y z : Header) (h : hash) (n : Z).

(** ** Difficulties along a segment *)

Lemma segment_td_le T y hs : tab_inv T → segment y hs → stored T y → Forall (λ z, stored T z) hs →
  ∀ z t t', z = y ∨ z ∈ hs → td_of T z = Some t → td_of T (top y hs) = Some t' → t ≤ t'.
Proof.
  intros HT. revert y. induction hs as [|x hs IH]; intros y Hs Hy Hst z t t' Hz Ht Ht'.
  - destruct Hz as [->|Hz]; [|by apply elem_of_nil in Hz]. unfold top in Ht'. cbn in Ht'. assert (t = t') by congruence. lia.
  - destruct Hs as (HxP & Hc & Hs). inversion Hst as [|? ? Hx Hst']; subst. rewrite top_cons in Ht'.
    specialize (IH x Hs Hx Hst'). destruct Hz as [->|[->|Hz]%elem_of_cons].
    + destruct (stored_td T HT x Hx) as [tx Htx]. pose proof (td_child T HT x y _ _ Hx Hy Hc Htx Ht) as E.
      destruct (pl_difficulty x HxP) as [Hd _]. pose proof (IH x tx t' (or_introl eq_refl) Htx Ht'). lia.
    + apply (IH x t t' (or_introl eq_refl) Ht Ht').
    + apply (IH z t t' (or_intror Hz) Ht Ht').
Qed.

(** ** What storing leaves alone *)

Lemma canon_inv_mono T T' x :
  canon_inv T x → tab_inv T → (∀ z, stored T z → stored T' z) → t_canon T' = t_canon T → t_head T' = t_head T → canon_inv T' x.
Proof.
  intros [H1 H2 H3 H4] HT Hm Ec Eh. split; rewrite ?Ec, ?Eh; [by apply Hm|done|done|].
  intros n h Hn. destruct (H4 n h Hn) as (Hle & y & Hy & Hl). split; [done|]. exists y. split; [|done].
  destruct (stored_at T HT _ _ _ Hy) as (Hs & -> & ->). by apply Hm.
Qed.

Lemma canon_down T x y hs :
  tab_inv T → canon_inv T x → segment y hs → stored T y → Forall (λ z, stored T z) hs →
  t_canon T !! hd_Number (top y hs) = Some (Header_Hash (top y hs)) → t_canon T !! hd_Number y = Some (Header_Hash y).
Proof.
  intros HT HC. revert y. induction hs as [|z hs IH]; intros y; [done|]. intros (HzP & [Ep En] & Hs) Hy Hst Ht.
  inversion Hst as [|? ? Hz Hst']; subst. rewrite top_cons in Ht. pose proof (IH z Hs Hz Hst' Ht) as Hcz.
  destruct (ci_link T x HC _ _ Hcz) as (_ & z' & Hz' & Hl). assert (z' = z) as -> by congruence.
  pose proof (pl_number y (stored_P T HT y Hy)). rewrite En, Z.add_simpl_r, Ep in Hl. apply Hl. lia.
Qed.

(** ** A segment that is all known and ends in the head *)

Lemma write_markers_known fuel hc T x p first rest w :
  backed hc T → canon_inv T x → hc_currentHeaderHash hc = Header_Hash x → childless T x →
  stored T p → segment p (first :: rest) → Forall (λ z, stored T z) (first :: rest) → top p (first :: rest) = x →
  wv_lastNumber w = hd_Number x → wv_inserted w = [] → wv_firstInserted w = -1 → hd_Number x ≤ Z.of_nat fuel →
  ∃ hc', write_markers fuel first (first :: rest) w hc = XRet (tt, hc') ∧ same_but_db hc hc' ∧ backed hc' T.
Proof.
  intros Hbk HC Hh Htip Hp Hs Hst Htop Hln Hin Hfi Hf. pose proof (bk_tab _ _ Hbk) as HT.
  pose proof (stored_P T HT p Hp) as HpP. pose proof Hs as (HfP & [Ep En] & Hs').
  pose proof (pl_number x (stored_P T HT x (ci_stored T x HC))) as Hxn.
  unfold write_markers. unfold sbind at 1, sread. rewrite Hh, Ep, Hin, Hfi.
  destruct (Z.eqb_spec (Header_Hash p) (Header_Hash x)) as [E|E].
  { assert (p = x) as -> by (by eapply (same_header T HT); [|by eapply stored_P; [|apply HC]|]).
    inversion Hst as [|? ? Hf1 _]; subst. by destruct (Htip first Hf1). }
  assert (u64 (wv_lastNumber w + 1) = wv_lastNumber w + 1) as Eu by (apply wrap_id; split; lia). rewrite Eu.
  destruct (delete_above_spec fuel (wv_lastNumber w + 1) [] [] hc T x Hbk HC) as (b1 & E1 & Hb1);
    [lia|lia|apply carries_nil|].
  unfold sbind at 1. unfold sbind at 1. rewrite E1. cbv beta iota.
  replace (u64 (u64 (hd_Number first) - 1)) with (hd_Number p).
  2: { unfold u64. rewrite (wrap_id 64 (hd_Number first)) by (by apply number_u64). rewrite En, Z.add_simpl_r.
       symmetry. by apply wrap_id, number_u64. }
  destruct (GetHeader_spec hc T (Header_Hash p) (hd_Number p) Hbk (number_u64 p HpP) (Header_Hash_u256 p))
    as (r & hc1 & Eg & Hs1 & Hc1 & Hr & _).
  unfold sbind at 1. rewrite Eg, (Hr p Hp). pose proof (backed_same _ _ _ Hbk Hs1 Hc1) as Hbk1.
  assert (t_canon T !! hd_Number p = Some (Header_Hash p)) as Hcp.
  { eapply canon_down; try done. rewrite Htop. apply HC. }
  assert (overwrite_stale fuel (Header_Hash p) (hd_Number p) (Some p) b1 hc1 = XRet (b1, hc1)) as Eo.
  { destruct fuel; cbn [overwrite_stale]; unfold sbind, sread;
      rewrite (proj2 (canon_read_is hc1 T x p Hbk1 HC HpP) Hcp), Z.eqb_refl; done. }
  unfold sbind at 1. rewrite Eo. unfold sret, smodify. cbn [Z.to_nat take fold_left].
  eexists. split; [done|]. split; [by destruct Hs1 as (_ & ? & ? & ?)|].
  rewrite seqZ_nil, app_nil_r in Hb1 by lia. by apply (backed_write hc1 T b1 []).
Qed.

(** ** [writeHeaders] *)

Definition linked_chain (hs : list Header) : Prop :=
  match hs with [] => True | x :: hs => in_play x ∧ segment x hs end.
(** The first header is one above its parent, if the parent is known. *)
Definition attaches T x : Prop := 0 < hd_Number x ∧ ∀ y, stored T y → Header_Hash y = hd_ParentHash x → child_of x y.

(** The result of a segment [hs] over a chain with head [x] and its
    difficulty [td]. *)
Record inserted T x (hs : list Header) (coin : bool) T' x' : Prop := mkInserted {
  in_old : ∀ z, stored T z → stored T' z ∧ td_of T' z = td_of T z;
  in_new : Forall (λ z, stored T' z) hs;
  in_only : ∀ z, stored T' z → stored T z ∨ z ∈ hs;
  in_choice : ∃ td td', td_of T x = Some td ∧ td_of T' (top x hs) = Some td' ∧
    x' = if wants_reorg td' td (hd_Number (top x hs)) (hd_Number x) coin then top x hs else x;
  in_le : ∀ z t td', z ∈ hs → td_of T' z = Some t → td_of T' (top x hs) = Some td' → t ≤ td'
}.

(** Known already, as heavy as the head, and not the head: left out. *)
Definition replayed T x (hs : list Header) : Prop :=
  Forall (λ z, stored T z) hs ∧ top x hs ≠ x ∧
  ∃ t t', td_of T (top x hs) = Some t ∧ td_of T x = Some t' ∧ t' ≤ t.

Lemma Forall_top (Q : Header → Prop) y hs : Forall Q hs → hs ≠ [] → Q (top y hs).
Proof. intros HF Hn. rewrite Forall_forall in HF. by apply HF, top_in. Qed.
Lemma backed_set_head hc T x h : backed hc T → backed (set_head x h hc) T.
Proof. intros [HR HT []]. split; [done|done|by split]. Qed.

Lemma top_irrel x y hs : hs ≠ [] → top x hs = top y hs.
Proof. intros Hn. unfold top. destruct (last hs) eqn:E; [done|]. by apply last_None in E. Qed.

Lemma wants_reorg_gt td' td n m coin : td < td' → wants_reorg td' td n m coin = true.
Proof. intros H. unfold wants_reorg. rewrite Cmp_gt. by rewrite (proj2 (Z.ltb_lt td td') H). Qed.
Lemma wants_reorg_lt td' td n m coin : td' < td → wants_reorg td' td n m coin = false.
Proof.
  intros H. unfold wants_reorg. rewrite Cmp_gt, Cmp_eq. rewrite (proj2 (Z.ltb_ge td td')) by lia.
  by rewrite (proj2 (Z.eqb_neq td' td)) by lia.
Qed.
Lemma wants_reorg_le td' td n m coin : wants_reorg td' td n m coin = true → td ≤ td'.
Proof. intros H. destruct (Z.le_gt_cases td td'); [done|]. by rewrite wants_reorg_lt in H. Qed.
Lemma wants_reorg_ge td' td n m coin : wants_reorg td' td n m coin = false → td' ≤ td.
Proof. intros H. destruct (Z.le_gt_cases td' td); [done|]. by rewrite wants_reorg_gt in H. Qed.

(** The state between the two batches: the segment is stored, the markers are
    as before. *)
Record staged hc T p (first : Header) (rest known new : list Header) (w : wvars) hc' T' : Prop := mkStaged {
  sg_parent : stored T p ∧ segment p (first :: rest) ∧ first :: rest = known ++ new ∧ Forall (λ z, stored T z) known;
  sg_same : same_but_db hc hc';
  sg_backed : backed hc' T';
  sg_stores : stores_all T (wv_newTD w - weight new) (top p known) new T';
  sg_w : wv_inserted w = pairs new ∧ wv_firstInserted w = (if new then -1 else zlen known) ∧
    wv_lastHeader w = Some (top p (first :: rest)) ∧ wv_lastHash w = Header_Hash (top p (first :: rest)) ∧
    wv_lastNumber w = hd_Number (top p (first :: rest))
}.

Lemma parent_found hc T first rest :
  backed hc T → linked_chain (first :: rest) → attaches T first →
  ∃ r hc1, GetTd (hd_ParentHash first) (u64 (u64 (hd_Number first) - 1)) hc = XRet (r, hc1) ∧ same hc hc1 ∧ cache_inv hc1 T ∧
    match r with
    | None => ∀ y, stored T y → Header_Hash y ≠ hd_ParentHash first
    | Some ptd => ∃ p, stored T p ∧ td_of T p = Some ptd ∧ segment p (first :: rest) ∧
        Header_Hash p = hd_ParentHash first ∧ hd_Number p = u64 (u64 (hd_Number first) - 1)
    end.
Proof.
  intros Hbk [HfP Hs] [Hn0 Hat]. pose proof (bk_tab _ _ Hbk) as HT. pose proof (pl_number first HfP) as Hn.
  assert (u64 (u64 (hd_Number first) - 1) = hd_Number first - 1) as ->.
  { unfold u64. rewrite (wrap_id 64 (hd_Number first)) by (by apply number_u64). apply wrap_id. split; lia. }
  destruct (GetTd_spec hc T (hd_ParentHash first) (hd_Number first - 1) Hbk) as (r & hc1 & E & Hs1 & Hc1 & H1 & H2);
    [split; lia|by apply hw_parent, pl_wf|].
  exists r, hc1. split_and!; try done. destruct r as [ptd|].
  - destruct (H2 ptd eq_refl) as [m Hm]. destruct (ti_td_dom T HT m (hd_ParentHash first)) as [p Hp]; [eauto|].
    destruct (stored_at T HT _ _ _ Hp) as (Hps & -> & Eh). pose proof (Hat p Hps (eq_sym Eh)) as Hc.
    exists p. rewrite Eh in Hm. split_and!; try done. destruct Hc. lia.
  - intros y Hy Ey. destruct (Hat y Hy Ey) as [E1 E2]. destruct (stored_td T HT y Hy) as [t Ht].
    specialize (H1 t). rewrite E1, E2, Z.add_simpl_r in H1. by specialize (H1 Ht).
Qed.

Lemma write_stage hc T p ptd first rest :
  backed hc T → stored T p → td_of T p = Some ptd → segment p (first :: rest) →
  ∃ known new w hc1 T', write_loop 0 (first :: rest) (mkWvars [] ptd [] (-1) true None (Header_Hash p) (hd_Number p)) hc = XRet (w, hc1) ∧
    staged hc T p first rest known new w (set_db (batch_Write (wv_batch w) (hc_chainDb hc1)) hc1) T'.
Proof.
  intros Hbk Hp Hptd Hs. pose proof (bk_tab _ _ Hbk) as HT.
  destruct (write_loop_spec (first :: rest) 0 p T hc (start_vars p ptd) Hbk Hs Hp Hptd (Z.le_refl 0) eq_refl eq_refl eq_refl)
    as (known & new & w & hc1 & E1 & F1 & F2 & F3 & F4 & F5 & G1 & G2 & G3 & G4 & G5 & G6).
  cbv zeta in *. specialize (G6 ltac:(done)). cbn [wv_newTD start_vars] in *. set (td := ptd + weight known) in *.
  rewrite E1 in Hs. apply segment_app in Hs as Hs2. destruct Hs2 as [Hs1 Hs2].
  assert (stored T (top p known)) as Htk.
  { destruct known as [|k known]; [done|]. by apply (Forall_top (λ x, stored T x)). }
  pose proof (put_all_stores new T (top p known) td HT Hs2 Htk F3 F2) as HSA.
  exists known, new, w, hc1, (put_all td new T). split; [exact F4|]. split.
  - rewrite <- E1 in Hs. done.
  - by destruct F5 as (_ & ? & ? & ?).
  - split; [|apply HSA|by destruct G1]. cbn [set_db hc_chainDb]. rewrite (proj1 F5), <- put_ops_all. apply G2, Hbk.
  - replace (wv_newTD w - weight new) with td by lia. done.
  - rewrite G4, G5. split_and!; try done; apply G6.
Qed.

(** What the staged state keeps of the old one. *)
Record staged_facts T T' x p (hs : list Header) (w : wvars) (td : Z) : Prop := mkStagedFacts {
  sf_canon : canon_inv T' x;
  sf_new : Forall (λ z, stored T' z) hs;
  sf_last : td_of T' (top p hs) = Some (wv_newTD w);
  sf_head : td_of T' x = Some td
}.

Lemma staged_ok hc T p first rest known new w hc' T' td :
  chain_ok hc T → staged hc T p first rest known new w hc' T' → td_of T (hc_currentHeader hc) = Some td →
  staged_facts T T' (hc_currentHeader hc) p (first :: rest) w td.
Proof.
  intros [Hbk HC _ _ _] [(Hp & Hs & Ekn & Hkn) _ Hbk' HSA _] Htd. pose proof (bk_tab _ _ Hbk) as HT. split.
  - apply (canon_inv_mono T); [done|done| |apply HSA|apply HSA]. intros z Hz. by apply HSA.
  - rewrite Ekn. apply Forall_app. split; [|apply HSA]. eapply Forall_impl; [exact Hkn|]. intros z Hz. by apply HSA.
  - rewrite Ekn, top_app. destruct (sa_top _ _ _ _ _ HSA) as [_ ->]. f_equal. lia.
  - destruct (sa_old _ _ _ _ _ HSA _ (ci_stored T _ HC)) as [_ ->]. done.
Qed.

(** The head stays: nothing was stored above it. *)
Lemma choose_stay hc T p first rest known new w hc' T' td n m coin :
  chain_ok hc T → staged hc T p first rest known new w hc' T' → td_of T (hc_currentHeader hc) = Some td →
  wants_reorg (wv_newTD w) td n m coin = false → chain_ok hc' T'.
Proof.
  intros Hok Hst Htd Hr. destruct (staged_ok _ _ _ _ _ _ _ _ _ _ _ Hok Hst Htd) as [F1 F2 F3 F4].
  destruct Hok as [Hbk HC Hh Hg Htip]. destruct Hst as [(Hp & Hs & Ekn & Hkn) (S1 & S2 & S3) Hbk' HSA _].
  pose proof (bk_tab _ _ Hbk') as HT'. split; rewrite ?S1, ?S2, ?S3; try done.
  intros z Hz' Hc. destruct (sa_only _ _ _ _ _ HSA z Hz') as [Hz|Hz]; [by apply (Htip z)|].
  destruct (stored_td T' HT' z Hz') as [t Ht]. pose proof (td_child T' HT' z _ _ _ Hz' (ci_stored _ _ F1) Hc Ht F4) as Et.
  assert (z ∈ first :: rest) as Hin by (rewrite Ekn; apply elem_of_app; by right).
  assert (stored T' p) as Hp' by (by apply HSA).
  pose proof (segment_td_le T' p _ HT' Hs Hp' F2 z t _ (or_intror Hin) Ht F3) as Hle.
  destruct (pl_difficulty z (stored_P T' HT' z Hz')) as [_ Hd]. destruct Hc as [_ Hc].
  pose proof (pl_number _ (stored_P T' HT' _ (ci_stored _ _ F1))). apply wants_reorg_ge in Hr. lia.
Qed.

(** A segment without a new header wins only if it ends in the head. *)
Lemma choose_known hc T p first rest known w hc' T' td n m coin fuel :
  chain_ok hc T → staged hc T p first rest known [] w hc' T' → td_of T (hc_currentHeader hc) = Some td →
  wants_reorg (wv_newTD w) td n m coin = true →
  ¬ replayed T (hc_currentHeader hc) (first :: rest) → hd_Number (hc_currentHeader hc) ≤ Z.of_nat fuel →
  ∃ hc'', choose fuel first (first :: rest) w true hc' = XRet (tt, hc'') ∧ chain_ok hc'' T' ∧
    hc_currentHeader hc'' = top (hc_currentHeader hc) (first :: rest).
Proof.
  intros Hok Hst Htd Hr Hrep Hf. destruct (staged_ok _ _ _ _ _ _ _ _ _ _ _ Hok Hst Htd) as [F1 F2 F3 F4].
  destruct Hok as [Hbk HC Hh Hg Htip]. destruct Hst as [(Hp & Hs & Ekn & Hkn) (S1 & S2 & S3) Hbk' HSA (W1 & W2 & W3 & W4 & W5)].
  set (x := hc_currentHeader hc) in *. rewrite app_nil_r in Ekn. rewrite <- Ekn in Hkn.
  rewrite (top_irrel x p) in * by done.
  assert (top p (first :: rest) = x) as Etop.
  { destruct (decide (Header_Hash (top p (first :: rest)) = Header_Hash x)) as [E|Hne].
    - eapply (same_header T' (bk_tab _ _ Hbk')); [by apply (Forall_top (λ z, stored T' z))| |done].
      eapply stored_P; [|apply HC]. apply Hbk.
    - exfalso. apply Hrep. split; [done|]. rewrite (top_irrel x p) by done. split; [by intros E; rewrite E in Hne|].
      exists (wv_newTD w), td. split_and!; [|done|by eapply wants_reorg_le].
      destruct (sa_old _ _ _ _ _ HSA (top p (first :: rest))) as [_ <-]; [|done]. by apply (Forall_top (λ z, stored T z)). }
  assert (childless T' x) as Htip'.
  { intros z [Hz|Hz]%(sa_only _ _ _ _ _ HSA); [by apply Htip|by apply elem_of_nil in Hz]. }
  destruct (write_markers_known fuel hc' T' x p first rest w) as (hc2 & E2 & (U1 & U2 & U3) & Hbk2); try done.
  { by rewrite S3. } { by apply HSA. } { by rewrite W5, Etop. }
  unfold choose, sbind at 1. rewrite E2. unfold sbind, sopt. rewrite W3, W4, Etop. unfold sret, smodify.
  eexists. split; [done|]. split; [|done]. split; try done; [by apply backed_set_head|]. cbn. by rewrite U1, S1.
Qed.

(** A segment with a new header that wins becomes the end of the chain. *)
Lemma choose_new hc T p first rest known new w hc' T' td fuel :
  chain_ok hc T → staged hc T p first rest known new w hc' T' → td_of T (hc_currentHeader hc) = Some td → new ≠ [] →
  hd_Number (hc_currentHeader hc) ≤ Z.of_nat fuel → hd_Number first ≤ Z.of_nat fuel + 1 →
  ∃ hc'' T'', choose fuel first (first :: rest) w true hc' = XRet (tt, hc'') ∧ chain_ok hc'' T'' ∧ markers_only T' T'' ∧
    hc_currentHeader hc'' = top (hc_currentHeader hc) (first :: rest).
Proof.
  intros Hok Hst Htd Hne Hf1 Hf2. destruct (staged_ok _ _ _ _ _ _ _ _ _ _ _ Hok Hst Htd) as [F1 F2 F3 F4].
  destruct Hok as [Hbk HC Hh Hg Htip]. destruct Hst as [(Hp & Hs & Ekn & Hkn) (S1 & S2 & S3) Hbk' HSA (W1 & W2 & W3 & W4 & W5)].
  set (x := hc_currentHeader hc) in *. rewrite (top_irrel x p) in * by done.
  destruct (write_markers_spec fuel hc' T' x p first rest known new w) as (hc2 & T2 & E2 & (U1 & U2 & U3) & Hbk2 & Hmo & HC2);
    try done.
  { by rewrite S3. } { by apply HSA. }
  { intros ->. destruct known as [|k known]; [done|]. inversion Hkn as [|? ? Hk _]; subst.
    injection Ekn as -> _. destruct Hs as (_ & Hc & _). by destruct (Htip k Hk). }
  { rewrite W2. by destruct new. } { destruct Hs as (_ & [_ ?] & _). lia. }
  unfold choose, sbind at 1. rewrite E2. unfold sbind, sopt. rewrite W3, W4. unfold sret, smodify.
  eexists _, T2. split; [done|]. split_and!; [|done|done].
  split; try done; [by apply backed_set_head|cbn; by rewrite U1, S1|].
  eapply childless_markers; [|exact Hmo]. cbn. rewrite Ekn, top_app. by apply HSA.
Qed.

Lemma choose_ok hc T p first rest known new w hc' T' fuel coin td :
  chain_ok hc T → staged hc T p first rest known new w hc' T' → td_of T (hc_currentHeader hc) = Some td →
  ¬ replayed T (hc_currentHeader hc) (first :: rest) →
  hd_Number (hc_currentHeader hc) ≤ Z.of_nat fuel → hd_Number first ≤ Z.of_nat fuel + 1 →
  let x := hc_currentHeader hc in
  let reorg := wants_reorg (wv_newTD w) td (wv_lastNumber w) (hd_Number x) coin in
  ∃ hc'' T'', choose fuel first (first :: rest) w reorg hc' = XRet (tt, hc'') ∧ chain_ok hc'' T'' ∧
    markers_only T' T'' ∧ hc_currentHeader hc'' = if reorg then top x (first :: rest) else x.
Proof.
  intros Hok Hst Htd Hrep Hf1 Hf2 x reorg. destruct reorg eqn:Er.
  - destruct new as [|nw new].
    + destruct (choose_known _ _ _ _ _ _ _ _ _ _ _ _ _ _ Hok Hst Htd Er Hrep Hf1) as (hc2 & E & H1 & H2). by exists hc2, T'.
    + eapply choose_new; done.
  - exists hc', T'. split; [done|]. split; [by eapply choose_stay|]. split; [done|]. apply Hst.
Qed.

Lemma writeHeaders_ok fuel coin first rest hc T :
  let x := hc_currentHeader hc in
  let hs := first :: rest in
  chain_ok hc T → linked_chain hs → attaches T first → ¬ replayed T x hs →
  hd_Number x ≤ Z.of_nat fuel → hd_Number first ≤ Z.of_nat fuel + 1 →
  ∃ r hc', writeHeaders fuel false coin hs hc = XRet (r, hc') ∧
    match snd r with
    | Some e => e = ErrUnknownAncestor' ∧ (∀ y, stored T y → Header_Hash y ≠ hd_ParentHash first) ∧
        same hc hc' ∧ chain_ok hc' T
    | None => ∃ T', chain_ok hc' T' ∧ inserted T x hs coin T' (hc_currentHeader hc')
    end.
Proof.
  intros x hs Hok Hl Hat Hrep Hf1 Hf2. subst hs. unfold writeHeaders.
  destruct (parent_found hc T first rest (ok_backed _ _ Hok) Hl Hat) as (r & hc1 & E1 & Hs1 & Hc1 & Hr).
  unfold sbind at 1. rewrite E1. pose proof (chain_ok_same _ _ _ Hok Hs1 Hc1) as Hok1.
  assert (hc_currentHeader hc1 = x) as Ex by (by destruct Hs1 as (_ & _ & -> & _)).
  destruct r as [ptd|]; [|by eexists _, _]. destruct Hr as (p & Hp & Hptd & Hseg & Ep & En). rewrite <- Ep, <- En.
  destruct (write_stage hc1 T p ptd first rest (ok_backed _ _ Hok1) Hp Hptd Hseg) as (known & new & w & hc2 & T2 & E2 & Hst).
  unfold sbind at 1. rewrite E2. unfold sbind at 1, smodify. set (hc3 := set_db _ hc2) in *.
  pose proof Hst as [_ (S1 & S2 & S3) Hbk3 HSA _]. unfold sbind at 1, sread, CurrentHeader. unfold sbind at 1. rewrite S2, S3, Ex.
  rewrite (ok_hash _ _ Hok1), Ex. pose proof (ok_canon _ _ Hok1) as HC. rewrite Ex in HC.
  pose proof (stored_P T (bk_tab _ _ (ok_backed _ _ Hok1)) x (ci_stored _ _ HC)) as HxP.
  destruct (stored_td T (bk_tab _ _ (ok_backed _ _ Hok1)) x (ci_stored _ _ HC)) as [td Htd].
  unfold u64. rewrite (wrap_id 64 (hd_Number x)) by (by apply number_u64).
  destruct (GetTd_spec hc3 T2 (Header_Hash x) (hd_Number x) Hbk3 (number_u64 x HxP) (Header_Hash_u256 x))
    as (r & hc4 & E4 & Hs4 & Hc4 & Hr & _).
  unfold sbind at 1. rewrite E4, (Hr td) by (destruct (sa_old _ _ _ _ _ HSA x (ci_stored _ _ HC)) as [_ ->]; done).
  unfold sbind at 1, sopt, sret at 1.
  assert (staged hc1 T p first rest known new w hc4 T2) as Hst4.
  { destruct Hst as [? _ _ ? ?]. split; try done; [|by eapply backed_same].
    destruct Hs4 as (_ & U1 & U2 & U3). repeat split; congruence. }
  destruct (choose_ok hc1 T p first rest known new w hc4 T2 fuel coin td Hok1 Hst4) as (hc5 & T5 & E5 & Hok5 & Hmo & Ecur);
    try (rewrite Ex; done); [done|].
  rewrite Ex in E5, Ecur. unfold sbind at 1. rewrite E5. eexists _, hc5. split; [reflexivity|]. cbn [snd].
  destruct (staged_ok _ _ _ _ _ _ _ _ _ _ _ Hok1 Hst4 ltac:(by rewrite Ex)) as [F1 F2 F3 F4]. rewrite Ex in F1, F4.
  exists T5. split; [done|]. destruct Hmo as (M1 & M2 & _).
  assert (∀ z, stored T5 z ↔ stored T2 z) as Hst5 by (intros z; by rewrite M1).
  rewrite (top_irrel x p) in Ecur by done. destruct Hst4 as [(Hp' & Hs' & Ekn & Hkn) _ _ _ (_ & _ & _ & _ & W5)].
  rewrite W5 in Ecur. split; rewrite ?M1, ?M2; rewrite ?(top_irrel x p) by done.
  - apply HSA.
  - done.
  - intros z [Hz|Hz]%(sa_only _ _ _ _ _ HSA); [by left|right]. rewrite Ekn. apply elem_of_app. by right.
  - by exists td, (wv_newTD w).
  - intros z t t' Hz. apply (segment_td_le T2 p); [apply HSA|done|by apply HSA|done|by right].
Qed.

End Insert.
