(* ===== verification/HeaderChainRewind.v ===== *)
(** * Rewinding the chain

    [SetHead] walks the head down to the target, collects the deletion of
    every header above it on all forks, and applies it at the end.  The chain
    that is left satisfies the invariant, with the canonical ancestor as
    head. *)
From S2P Require Import Prelude Common RlpEncode RlpDecode StateObject TeWaka Consensus HeaderRlp RawDB RawDBSpec HeaderChain.
From S2P Require Import HeaderChainSpec HeaderChainWrite HeaderChainReorg HeaderChainInsert.
Import Enc Bytes.
Open Scope go_scope.

Section Rewind.
Context {B : Backend} {Bok : BackendOk B} {Hplay : Play}.
Context {LH : LruCache Header} {LHok : LruCacheOk LH} {LZ : LruCache Z} {LZok : LruCacheOk LZ}.
Implicit Types (T X : tables) (hc : HeaderChain) (x y z : Header) (h : hash) (n : Z) (nums : list Z).

(** ** Dropping whole heights *)

Definition drop_ops n (hashes : list hash) : list table_op :=
  (hashes ≫= λ h, [TDelHeader n h; TDelTd n h]) ++ [TDelCanon n].

Record dropped nums T X : Prop := mkDropped {
  dr_headers : ∀ n h, t_headers X !! (n, h) = if decide (n ∈ nums) then None else t_headers T !! (n, h);
  dr_tds : ∀ n h, t_tds X !! (n, h) = if decide (n ∈ nums) then None else t_tds T !! (n, h);
  dr_numbers : ∀ h n, t_numbers X !! h = Some n ↔ n ∉ nums ∧ t_numbers T !! h = Some n;
  dr_canon : ∀ n, t_canon X !! n = if decide (n ∈ nums) then None else t_canon T !! n
}.

Lemma drop_lookup {A} (M : gmap (Z * hash) A) n g (hashes : list hash) m h :
  (if decide (m = n ∧ h ∈ hashes) then None else delete (n, g) M !! (m, h)) =
  if decide (m = n ∧ h ∈ g :: hashes) then None else M !! (m, h).
Proof.
  destruct (decide (m = n ∧ h ∈ hashes)) as [[-> Hin]|Hn].
  { rewrite decide_True; [done|]. split; [done|by right]. }
  destruct (decide ((n, g) = (m, h))) as [[= -> ->]|Hne].
  { rewrite lookup_delete_eq, decide_True; [done|]. split; [done|left]. }
  rewrite lookup_delete_ne by done. destruct (decide (m = n ∧ h ∈ g :: hashes)) as [[-> [->|?]%elem_of_cons]|]; naive_solver.
Qed.

(** The updates of one height, hash after hash. *)
Lemma drop_hashes_spec n (hashes : list hash) : ∀ X,
  let X' := fold_left t_apply (hashes ≫= λ h, [TDelHeader n h; TDelTd n h]) X in
  (∀ m h, t_headers X' !! (m, h) = if decide (m = n ∧ h ∈ hashes) then None else t_headers X !! (m, h)) ∧
  (∀ m h, t_tds X' !! (m, h) = if decide (m = n ∧ h ∈ hashes) then None else t_tds X !! (m, h)) ∧
  (∀ h, t_numbers X' !! h = if decide (h ∈ hashes) then None else t_numbers X !! h) ∧
  t_canon X' = t_canon X ∧ t_head X' = t_head X.
Proof.
  induction hashes as [|g hashes IH]; intros X; cbv zeta.
  - split_and!; try done; intros; rewrite decide_False; try done; rewrite elem_of_nil; naive_solver.
  - cbn [mbind list_bind app fold_left]. set (X1 := t_apply (t_apply X (TDelHeader n g)) (TDelTd n g)).
    destruct (IH X1) as (I1 & I2 & I3 & I4 & I5). split_and!; try done.
    + intros m h. rewrite I1. apply drop_lookup.
    + intros m h. rewrite I2. apply drop_lookup.
    + intros h. rewrite I3. subst X1. cbn. destruct (decide (h ∈ hashes)) as [Hin|Hn].
      { rewrite decide_True; [done|by right]. }
      destruct (decide (g = h)) as [->|Hne].
      { rewrite lookup_delete_eq, decide_True; [done|left]. }
      rewrite lookup_delete_ne by done. rewrite decide_False; [done|]. by intros [->|?]%elem_of_cons.
Qed.

Lemma dropped_step nums T X n (hashes : list hash) :
  tab_inv T → dropped nums T X → (∀ h, h ∈ hashes ↔ is_Some (t_headers T !! (n, h))) →
  dropped (nums ++ [n]) T (fold_left t_apply (drop_ops n hashes) X) ∧
  t_head (fold_left t_apply (drop_ops n hashes) X) = t_head X.
Proof.
  intros HT [D1 D2 D3 D4] Hh. unfold drop_ops. rewrite fold_left_app.
  destruct (drop_hashes_spec n hashes X) as (I1 & I2 & I3 & I4 & I5). set (X1 := fold_left _ _ X) in *. cbn [fold_left].
  assert (∀ m, m ∈ nums ++ [n] ↔ m ∈ nums ∨ m = n) as Hin by (intros m; by rewrite elem_of_app, list_elem_of_singleton).
  split; [|done]. split; cbn.
  - intros m h. rewrite I1, D1. destruct (decide (m ∈ nums ++ [n])) as [[?| ->]%Hin|Hn].
    + destruct (decide _); [done|]. by rewrite decide_True.
    + destruct (decide (n = n ∧ h ∈ hashes)) as [|Hno]; [done|]. destruct (decide (n ∈ nums)); [done|].
      apply eq_None_not_Some. rewrite <- Hh. naive_solver.
    + rewrite Hin in Hn. rewrite decide_False by naive_solver. by rewrite decide_False by naive_solver.
  - intros m h. rewrite I2, D2. destruct (decide (m ∈ nums ++ [n])) as [[?| ->]%Hin|Hn].
    + destruct (decide _); [done|]. by rewrite decide_True.
    + destruct (decide (n = n ∧ h ∈ hashes)) as [|Hno]; [done|]. destruct (decide (n ∈ nums)); [done|].
      apply eq_None_not_Some. intros Hs%(ti_td_dom T HT). apply Hno. split; [done|by apply Hh].
    + rewrite Hin in Hn. rewrite decide_False by naive_solver. by rewrite decide_False by naive_solver.
  - intros h m. rewrite I3, Hin. destruct (decide (h ∈ hashes)) as [Hm|Hm].
    + split; [done|]. intros [Hn Hnum]. apply (ti_number T HT) in Hnum as [z Hz]. apply Hh in Hm as [z' Hz'].
      destruct (stored_at T HT _ _ _ Hz) as (Hs & -> & E). destruct (stored_at T HT _ _ _ Hz') as (Hs' & -> & E').
      destruct Hn. right. f_equal. eapply (same_header T HT); [done|by eapply stored_P|congruence].
    + rewrite D3. split; [|naive_solver]. intros [Hn Hnum]. split; [|done]. intros [?| ->]; [done|].
      apply Hm, Hh. by apply (ti_number T HT).
  - intros m. rewrite lookup_delete. rewrite I4, D4. destruct (decide (m ∈ nums ++ [n])) as [[?| ->]%Hin|Hn].
    + destruct (decide _); [done|]. by rewrite decide_True.
    + by rewrite decide_True.
    + rewrite Hin in Hn. rewrite decide_False by naive_solver. by rewrite decide_False by naive_solver.
Qed.

Lemma dropped_nil T : dropped [] T T.
Proof. split; intros; rewrite ?decide_False by apply not_elem_of_nil; try done. split; [intros ?; split; [apply not_elem_of_nil|done]|by intros []]. Qed.

(** ** The heights above the head *)

Definition height T n : Prop := ∃ z, stored T z ∧ hd_Number z = n.

(** Heights are contiguous: ancestors are stored. *)
Lemma height_down T n m : tab_inv T → height T n → 0 ≤ m ≤ n → height T m.
Proof.
  intros HT Hn Hm. replace m with (n - Z.of_nat (Z.to_nat (n - m))) by lia.
  assert (Z.of_nat (Z.to_nat (n - m)) ≤ n) as Hk by lia. revert Hk.
  induction (Z.to_nat (n - m)) as [|k IH]; intros Hk; [by rewrite Z.sub_0_r|].
  destruct IH as (z & Hz & En); [lia|]. destruct (stored_parent T HT z Hz) as (y & Hy & _ & Ey); [lia|].
  exists y. split; [done|lia].
Qed.

Lemma ReadAllHashes_nil hc T n : backed hc T → is_u64 n → ReadAllHashes (hc_chainDb hc) n = [] → ¬ height T n.
Proof.
  intros [HR HT _] Hn E (z & Hz & <-). assert (Header_Hash z ∈ ReadAllHashes (hc_chainDb hc) (hd_Number z)) as Hin.
  { apply (ReadAllHashes_spec _ T HR); [done|apply Header_Hash_u256|eauto]. }
  rewrite E in Hin. by apply elem_of_nil in Hin.
Qed.
Lemma ReadAllHashes_elem hc T n h : backed hc T → is_u64 n →
  h ∈ ReadAllHashes (hc_chainDb hc) n ↔ is_Some (t_headers T !! (n, h)).
Proof.
  intros [HR HT _] Hn. split.
  - intros Hin. pose proof (ReadAllHashes_u256 _ T HR n h Hin). by apply (ReadAllHashes_spec _ T HR).
  - intros [z Hz]. destruct (stored_at T HT _ _ _ Hz) as (_ & -> & ->).
    apply (ReadAllHashes_spec _ T HR); [done|apply Header_Hash_u256|eauto].
Qed.
Lemma ReadAllHashes_cons hc T n h l : backed hc T → is_u64 n → ReadAllHashes (hc_chainDb hc) n = h :: l → height T n.
Proof.
  intros Hbk Hn E. assert (h ∈ ReadAllHashes (hc_chainDb hc) n) as Hin by (rewrite E; left).
  apply (ReadAllHashes_elem hc T n h Hbk Hn) in Hin as [z Hz].
  destruct (stored_at T (bk_tab _ _ Hbk) _ _ _ Hz) as (Hs & -> & _). by exists z.
Qed.

Lemma numbers_above_spec fuel : ∀ n hc T acc,
  backed hc T → 0 ≤ n < 2 ^ 64 → (∀ z, stored T z → hd_Number z < n + Z.of_nat fuel) →
  ∃ nums, numbers_above fuel n (hc_chainDb hc) acc = XRet (nums ++ acc) ∧ ∀ m, m ∈ nums ↔ n ≤ m ∧ height T m.
Proof.
  induction fuel as [|fuel IH]; intros n hc T acc Hbk Hn Hf; pose proof (bk_tab _ _ Hbk) as HT.
  all: assert (is_u64 n) as Hu by (split; lia).
  all: cbn [numbers_above]; destruct (ReadAllHashes (hc_chainDb hc) n) as [|g l] eqn:E.
  1, 3: apply (ReadAllHashes_nil hc T n Hbk Hu) in E; exists []; split; [done|].
  1, 2: intros m; split; [by intros ?%elem_of_nil|]; intros [Hle Hh]; destruct E;
    apply (height_down T m); [done|done|lia].
  all: pose proof (ReadAllHashes_cons hc T n g l Hbk Hu E) as Hh.
  - destruct Hh as (z & Hz & <-). specialize (Hf z Hz). lia.
  - destruct Hh as (z & Hz & Ez). pose proof (pl_number z (stored_P T HT z Hz)).
    unfold u64. rewrite wrap_id by (split; lia).
    destruct (IH (n + 1) hc T (n :: acc) Hbk) as (nums & En & Hm); [lia|intros y Hy; specialize (Hf y Hy); lia|].
    exists (nums ++ [n]). rewrite <- app_assoc. split; [done|]. intros m. rewrite elem_of_app, list_elem_of_singleton, Hm. split.
    + intros [[? ?]| ->]; [split; [lia|done]|]. split; [lia|by exists z].
    + intros [Hle Hh]. destruct (decide (m = n)) as [->|]; [by right|left]. split; [lia|done].
Qed.

(** ** The deletions of a rewind *)

(** Callbacks write below keys of their own: bodies, receipts, head markers of
    other chains. *)
Definition foreign_writes (b b' : batch) : Prop := ∃ c, b' = b ++ c ∧ Forall (λ op, foreign (fst op)) c.
Definition del_ok (delFn : option DelFn) : Prop :=
  match delFn with Some f => ∀ b h n, foreign_writes b (f b h n) | None => True end.
Definition update_ok (updateFn : option UpdateFn) : Prop :=
  match updateFn with Some f => ∀ b x, foreign_writes b (fst (fst (f b x))) ∧ 0 ≤ snd (fst (f b x)) | None => True end.

Lemma carries_writes b b' ops : foreign_writes b b' → carries b ops → carries b' ops.
Proof.
  intros (c & -> & Hc) Hb. rewrite <- (app_nil_r ops). apply carries_app; [done|by apply carries_foreigns].
Qed.

Lemma carries_delete_hashes delFn n (hashes : list hash) : ∀ b ops,
  del_ok delFn → is_u64 n → Forall is_u256 hashes → carries b ops →
  carries (fold_left (delete_hash delFn n) hashes b) (ops ++ (hashes ≫= λ h, [TDelHeader n h; TDelTd n h])).
Proof.
  induction hashes as [|h hashes IH]; intros b ops Hd Hn Hh Hb; [by rewrite app_nil_r|]. inversion Hh; subst.
  cbn [fold_left mbind list_bind]. rewrite app_assoc. apply IH; [done|done|done|]. unfold delete_hash.
  assert (carries (match delFn with Some f => f b h n | None => b end) ops) as Hb'.
  { destruct delFn as [f|]; [|done]. by eapply carries_writes. }
  change [TDelHeader n h; TDelTd n h] with ([TDelHeader n h] ++ [TDelTd n h]). rewrite app_assoc.
  unfold DeleteTd, DeleteHeader, deleteHeaderWithoutNumber, Delete.
  apply carries_app; [|by apply carries_untd]. rewrite <- app_assoc. apply carries_app; [done|by apply carries_unheader].
Qed.

Definition all_drops (db : Database) nums : list table_op := nums ≫= λ n, drop_ops n (ReadAllHashes db n).

Lemma carries_delete_numbers delFn hc T hdr nums : ∀ b ops,
  backed hc T → del_ok delFn → Forall (λ n, is_u64 n ∧ height T n) nums → carries b ops →
  carries (fold_left (delete_number delFn (hc_chainDb hc) hdr) nums b) (ops ++ all_drops (hc_chainDb hc) nums).
Proof.
  induction nums as [|n nums IH]; intros b ops Hbk Hd Hn Hb; [by rewrite app_nil_r|]. inversion Hn as [|? ? [Hu Hh] Hn']; subst.
  cbn [fold_left all_drops mbind list_bind]. rewrite app_assoc. apply IH; [done|done|done|]. unfold delete_number, drop_ops.
  assert (match ReadAllHashes (hc_chainDb hc) n with [] => [Header_Hash hdr] | _ => ReadAllHashes (hc_chainDb hc) n end
    = ReadAllHashes (hc_chainDb hc) n) as E.
  { destruct (ReadAllHashes (hc_chainDb hc) n) eqn:E; [|done]. by apply (ReadAllHashes_nil hc T n Hbk Hu) in E. }
  replace (match ReadAllHashes (hc_chainDb hc) n with [] => [Header_Hash hdr] | h :: l => h :: l end)
    with (ReadAllHashes (hc_chainDb hc) n) by (symmetry; rewrite <- E at 2; by destruct (ReadAllHashes (hc_chainDb hc) n)).
  rewrite app_assoc. unfold DeleteCanonicalHash, Delete. apply carries_app; [|by apply carries_uncanon].
  apply carries_delete_hashes; [done|done| |done]. apply Forall_forall. intros h Hin.
  by eapply ReadAllHashes_u256; [apply Hbk|].
Qed.

(** Tables that differ in the head marker at most. *)
Definition agree T X : Prop := markers_only T X ∧ t_canon X = t_canon T.

Definition drops (ops : list table_op) nums T : Prop :=
  ∀ X, agree T X → dropped nums T (fold_left t_apply ops X) ∧ t_head (fold_left t_apply ops X) = t_head X.

Lemma drops_nil T : drops [] [] T.
Proof. intros X ((E1 & E2 & E3) & E4). split; [|done]. cbn [fold_left]. destruct (dropped_nil T). split; rewrite ?E1, ?E2, ?E3, ?E4; done. Qed.

Lemma drops_app ops nums T hc nums' :
  tab_inv T → backed hc T → Forall is_u64 nums' → drops ops nums T →
  drops (ops ++ all_drops (hc_chainDb hc) nums') (nums ++ nums') T.
Proof.
  intros HT Hbk. revert ops nums. induction nums' as [|n nums' IH]; intros ops nums Hu Hd; [by rewrite !app_nil_r|].
  inversion Hu as [|? ? Hn Hu']; subst. cbn [all_drops mbind list_bind]. rewrite app_assoc.
  change (n :: nums') with ([n] ++ nums'). rewrite (app_assoc nums). apply IH; [done|]. intros X HX.
  destruct (Hd X HX) as [H1 H2]. rewrite fold_left_app.
  destruct (dropped_step nums T _ n (ReadAllHashes (hc_chainDb hc) n) HT H1) as [H3 H4]; [|by rewrite H4].
  intros h. by apply ReadAllHashes_elem.
Qed.

Lemma drops_agree ops nums T T' : drops ops nums T → agree T T' → drops ops nums T'.
Proof.
  intros Hd ((E1 & E2 & E3) & E4) X ((F1 & F2 & F3) & F4).
  destruct (Hd X) as [[D1 D2 D3 D4] Hh]; [repeat split; congruence|]. split; [|done].
  split; rewrite ?E1, ?E2, ?E3, ?E4; done.
Qed.

(** ** The loop *)

Definition links T : Prop := ∀ n h, t_canon T !! n = Some h →
  ∃ y, t_headers T !! (n, h) = Some y ∧ (n ≠ 0 → t_canon T !! (n - 1) = Some (hd_ParentHash y)).

(** Before an iteration: the head is canonical, the batch drops the heights
    above it (none before the first iteration). *)
Record rewinding hc T (origin : bool) (b : batch) (ops : list table_op) nums : Prop := mkRewinding {
  rw_backed : backed hc T;
  rw_links : links T;
  rw_cur : stored T (hc_currentHeader hc);
  rw_canon : t_canon T !! hd_Number (hc_currentHeader hc) = Some (Header_Hash (hc_currentHeader hc));
  rw_marker : t_head T = Some (Header_Hash (hc_currentHeader hc));
  rw_hash : hc_currentHeaderHash hc = Header_Hash (hc_currentHeader hc);
  rw_genesis : hc_genesisHeader hc = genesis;
  rw_carries : carries b ops;
  rw_drops : drops ops nums T;
  rw_nums : if origin then nums = [] else ∀ m, m ∈ nums ↔ hd_Number (hc_currentHeader hc) < m ∧ height T m
}.

(** The head marker of an iteration, with what the callback writes. *)
Lemma marker_step hc T p mb :
  backed hc T → carries mb [] →
  let T' := t_apply T (TPutHead (Header_Hash p)) in
  backed (set_head p (Header_Hash p) (set_db (batch_Write (WriteHeadHeaderHash (Header_Hash p) mb) (hc_chainDb hc)) hc)) T' ∧ agree T T'.
Proof.
  intros Hbk Hmb T'. assert (agree T T') as Ha by done. split; [|done]. apply backed_set_head.
  apply (backed_write hc T _ [TPutHead (Header_Hash p)]); [done| |apply Ha].
  apply (carries_app mb _ []); [done|]. apply carries_head, Header_Hash_u256.
Qed.

Lemma update_heads_ok updateFn p head mb head1 : update_ok updateFn → 0 ≤ head → update_heads updateFn p head = (mb, head1) →
  carries mb [] ∧ 0 ≤ head1 ≤ head ∧ (updateFn = None → head1 = head).
Proof.
  intros Hu H0. unfold update_heads. destruct updateFn as [f|].
  - destruct (Hu [] p) as [Hw Hn0]. pose proof (carries_writes [] _ [] Hw carries_nil) as Hc.
    destruct (f [] p) as [[mb' nh] force]. cbn in *. intros [= <- <-]. split; [done|]. split; [|done].
    destruct force; cbn [andb]; [|lia]. destruct (Z.ltb_spec nh head); lia.
  - intros [= <- <-]. split; [apply carries_nil|]. split; [lia|done].
Qed.

Lemma agree_height T T' n : agree T T' → height T' n ↔ height T n.
Proof. intros ((E & _) & _). unfold height. by rewrite E. Qed.

(** The deletions of one iteration: the heights above at first, then the
    head's own. *)
Lemma delete_step delFn hc T T' c p (origin : bool) b ops nums nums' (hdr : Header) :
  backed hc T' → agree T T' → del_ok delFn → carries b ops → drops ops nums T → stored T c → hd_Number c = hd_Number p + 1 →
  (if origin then nums = [] else ∀ m, m ∈ nums ↔ hd_Number c < m ∧ height T m) →
  (if origin then ∀ m, m ∈ nums' ↔ hd_Number c + 1 ≤ m ∧ height T' m else nums' = []) →
  let ops' := ops ++ all_drops (hc_chainDb hc) (nums' ++ [hd_Number c]) in
  carries (fold_left (delete_number delFn (hc_chainDb hc) hdr) (nums' ++ [hd_Number c]) b) ops' ∧
  drops ops' (nums ++ nums' ++ [hd_Number c]) T' ∧
  ∀ m, m ∈ nums ++ nums' ++ [hd_Number c] ↔ hd_Number p < m ∧ height T' m.
Proof.
  intros Hbk Ha Hdel Hb Hdr Hc En Hn Hn' ops'. pose proof (bk_tab _ _ Hbk) as HT'.
  assert (height T' (hd_Number c)) as Hhc by (apply (agree_height T T'); [done|by exists c]).
  assert (∀ m, height T' m → is_u64 m) as Hu64.
  { intros m (z & Hz & <-). apply number_u64. by eapply stored_P. }
  assert (Forall (λ n, is_u64 n ∧ height T' n) (nums' ++ [hd_Number c])) as HF.
  { apply Forall_forall. intros m. rewrite elem_of_app, list_elem_of_singleton. intros [Hm| ->]; [|by auto].
    destruct origin; [|subst nums'; by apply elem_of_nil in Hm]. apply Hn' in Hm as [_ Hm]. auto. }
  split_and!.
  - by apply (carries_delete_numbers delFn hc T').
  - apply drops_app; [done|done| |by eapply drops_agree]. eapply Forall_impl; [exact HF|]. by intros m [].
  - intros m. rewrite !elem_of_app, list_elem_of_singleton. destruct origin.
    + subst nums. rewrite elem_of_nil, Hn'. split.
      * intros [[]|[[? ?]| ->]]; split; [lia|done|lia|done].
      * intros [Hlt Hh]. right. destruct (decide (m = hd_Number c)); [by right|left]. split; [lia|done].
    + subst nums'. rewrite elem_of_nil, Hn, <- (agree_height T T' m Ha). split.
      * intros [[? ?]|[[]| ->]]; split; [lia|done|lia|done].
      * intros [Hlt Hh]. destruct (decide (m = hd_Number c)); [right; by right|left]. split; [lia|done].
Qed.

Lemma above_step (origin : bool) fuel hc T c :
  backed hc T → in_play c → (origin = true → ∀ z, stored T z → hd_Number z ≤ Z.of_nat fuel) →
  ∃ nums',
    (if origin then
       match numbers_above fuel (u64 (hd_Number c + 1)) (hc_chainDb hc) [] with
       | XRet nums => XRet (nums, hc) | XPanic => XPanic | XFuel => XFuel end
     else XRet ([], hc)) = XRet (nums', hc) ∧
    (if origin then ∀ m, m ∈ nums' ↔ hd_Number c + 1 ≤ m ∧ height T m else nums' = []).
Proof.
  intros Hbk Hc Ho. destruct origin; [|by exists []]. pose proof (pl_number c Hc). unfold u64. rewrite wrap_id by (split; lia).
  destruct (numbers_above_spec fuel (hd_Number c + 1) hc T [] Hbk) as (nums' & E' & Hm'); [lia| |].
  - intros z Hz. specialize (Ho eq_refl z Hz). lia.
  - rewrite E', app_nil_r. by exists nums'.
Qed.

(** One iteration. *)
Lemma rewind_step fuel updateFn delFn head (origin : bool) b ops nums hc T :
  update_ok updateFn → del_ok delFn → rewinding hc T origin b ops nums → 0 ≤ head < hd_Number (hc_currentHeader hc) →
  (origin = true → ∀ z, stored T z → hd_Number z ≤ Z.of_nat (S fuel)) →
  ∃ head1 b1 ops1 nums1 hc1 T1,
    rewind (S fuel) head updateFn delFn origin b hc = rewind fuel head1 updateFn delFn false b1 hc1 ∧
    rewinding hc1 T1 false b1 ops1 nums1 ∧ agree T T1 ∧
    hd_Number (hc_currentHeader hc1) = hd_Number (hc_currentHeader hc) - 1 ∧
    0 ≤ head1 ≤ head ∧ (updateFn = None → head1 = head).
Proof.
  intros Hu Hd [Hbk Hlk Hc Hcn Hmk Hhs Hg Hca Hdr Hnm] Hh Ho. pose proof (bk_tab _ _ Hbk) as HT.
  set (c := hc_currentHeader hc) in *. pose proof (stored_P T HT c Hc) as HcP. pose proof (pl_number c HcP) as Hcr.
  cbn [rewind]. unfold sbind at 1, sread, CurrentHeader. fold c. rewrite (u64_number c HcP).
  rewrite (proj2 (Z.leb_gt (hd_Number c) head)) by lia.
  destruct (stored_parent T HT c Hc ltac:(lia)) as (p & Hp & Ep & En). pose proof (stored_P T HT p Hp) as HpP.
  rewrite Ep. replace (u64 (hd_Number c - 1)) with (hd_Number p).
  2: { rewrite En, Z.add_simpl_r. symmetry. by apply wrap_id, number_u64. }
  destruct (GetHeader_spec hc T (Header_Hash p) (hd_Number p) Hbk (number_u64 p HpP) (Header_Hash_u256 p))
    as (r & hc1 & E1 & Hs1 & Hc1 & Hr & _).
  unfold sbind at 1. rewrite E1, (Hr p Hp). unfold sbind at 1. change (default (hc_genesisHeader hc1) (Some p)) with p.
  pose proof (backed_same _ _ _ Hbk Hs1 Hc1) as Hbk1. destruct (update_heads updateFn p head) as [mb head1] eqn:Eu.
  destruct (update_heads_ok updateFn p head mb head1 Hu ltac:(lia) Eu) as (Hmb & Hh1 & Hh1').
  destruct (marker_step hc1 T p mb Hbk1 Hmb) as [Hbk2 Ha]. unfold sbind at 1, smodify.
  set (hc2 := set_head p _ _) in *.
  set (T2 := t_apply T (TPutHead (Header_Hash p))) in *.
  destruct (above_step origin (S fuel) hc2 T2 c Hbk2 HcP Ho) as (nums' & En' & Hn').
  unfold sbind at 1. cbv beta. rewrite En'. unfold sbind at 1.
  destruct (delete_step delFn hc2 T T2 c p origin b ops nums nums' c Hbk2 Ha Hd Hca Hdr Hc En Hnm Hn') as (Hca' & Hdr' & Hnm').
  eexists head1, _, _, _, hc2, T2. split; [reflexivity|]. split_and!; try done; try lia; [|cbn; lia].
  split; [exact Hbk2|done|done| |done|done| |exact Hca'|exact Hdr'|exact Hnm'].
  - destruct (Hlk _ _ Hcn) as (y & Hy & Hy'). assert (y = c) as -> by congruence. cbn. rewrite <- Ep.
    replace (hd_Number p) with (hd_Number c - 1) by lia. apply Hy'. lia.
  - cbn. by destruct Hs1 as (_ & -> & _).
Qed.

Lemma agree_trans T1 T2 T3 : agree T1 T2 → agree T2 T3 → agree T1 T3.
Proof. intros [H1 E1] [H2 E2]. split; [by eapply markers_only_trans|congruence]. Qed.

Lemma rewind_spec fuel updateFn delFn : update_ok updateFn → del_ok delFn → ∀ head (origin : bool) b ops nums hc T,
  rewinding hc T origin b ops nums → 0 ≤ head → hd_Number (hc_currentHeader hc) ≤ Z.of_nat fuel →
  (origin = true → ∀ z, stored T z → hd_Number z ≤ Z.of_nat fuel) → head < hd_Number (hc_currentHeader hc) ∨ origin = false →
  ∃ b' hc' T' ops' nums', rewind fuel head updateFn delFn origin b hc = XRet (b', hc') ∧
    rewinding hc' T' false b' ops' nums' ∧ agree T T' ∧
    hd_Number (hc_currentHeader hc') ≤ head ∧
    (updateFn = None → hd_Number (hc_currentHeader hc') = Z.min head (hd_Number (hc_currentHeader hc))).
Proof.
  intros Hu Hd. induction fuel as [|fuel IH]; intros head origin b ops nums hc T HW H0 Hf Ho Hor.
  all: destruct (Z.leb_spec (hd_Number (hc_currentHeader hc)) head) as [Hle|Hgt]; [destruct Hor as [|Hor]; [lia|]|].
  1, 3: exists b, hc, T, ops, nums; rewrite Hor in *; split_and!; try done; [|lia].
  1, 2: cbn [rewind]; unfold sbind at 1, sread, CurrentHeader;
    rewrite u64_number by (eapply stored_P; [apply (rw_backed _ _ _ _ _ _ HW)|apply (rw_cur _ _ _ _ _ _ HW)]);
    by rewrite (proj2 (Z.leb_le _ head)) by lia.
  - lia.
  - destruct (rewind_step fuel updateFn delFn head origin b ops nums hc T Hu Hd HW ltac:(lia) Ho)
      as (head1 & b1 & ops1 & nums1 & hc1 & T1 & E1 & HW1 & Ha1 & En1 & Hh1 & Hh1').
    destruct (IH head1 false b1 ops1 nums1 hc1 T1 HW1) as (b' & hc' & T' & ops' & nums' & E' & HW' & Ha' & Hle & Hex);
      [lia|lia|done|by right|].
    exists b', hc', T', ops', nums'. rewrite E1. split_and!; try done; [by eapply agree_trans|lia|].
    intros Hnone. rewrite (Hex Hnone), (Hh1' Hnone). lia.
Qed.

(** ** [SetHead] *)

Lemma tab_inv_dropped nums T X c :
  tab_inv T → dropped nums T X → (∀ m, m ∈ nums ↔ hd_Number c < m ∧ height T m) → in_play c →
  tab_inv X ∧ (∀ z, stored X z ↔ stored T z ∧ hd_Number z ≤ hd_Number c).
Proof.
  intros HT [D1 D2 D3 D4] Hn Hc. pose proof (pl_number c Hc) as Hcr.
  assert (∀ z, stored X z ↔ stored T z ∧ hd_Number z ≤ hd_Number c) as Hst.
  { intros z. rewrite D1. split.
    - destruct (decide _) as [|Hno]; [done|]. intros Hz. split; [done|]. apply Z.le_ngt. intros Hlt. apply Hno, Hn.
      split; [done|by exists z].
    - intros [Hz Hle]. rewrite decide_False; [done|]. intros [? _]%Hn. lia. }
  assert (∀ z, stored X z → td_of X z = td_of T z) as Htd.
  { intros z [_ Hle]%Hst. rewrite D2, decide_False; [done|]. intros [? _]%Hn. lia. }
  split; [|done]. split.
  - destruct (ti_genesis T HT) as [G1 G2]. assert (stored X genesis) as HG.
    { apply Hst. split; [done|]. destruct pl_genesis as [_ ->]. lia. }
    split; [done|]. by rewrite Htd.
  - intros n h z. rewrite D1. destruct (decide _); [done|]. apply HT.
  - intros h n. rewrite D3, (ti_number T HT), D1. destruct (decide (n ∈ nums)); [|naive_solver]. split; [naive_solver|by intros []].
  - intros n h. rewrite D2, D1. destruct (decide _); [by intros []|apply HT].
  - intros z Hz. pose proof (proj1 (Hst z) Hz) as [Hz' Hle].
    destruct (ti_td T HT z Hz') as [->|(y & p & Hy & Hcy & Hp & Ht)]; [by left|right].
    assert (stored X y) as Hy' by (apply Hst; split; [done|]; destruct Hcy; lia).
    exists y, p. by rewrite !Htd.
  - intros z t Hz Ht. rewrite (Htd z Hz) in Ht. apply Hst in Hz as [Hz _]. by apply HT.
Qed.

Definition purged hc : HeaderChain :=
  mkHeaderChain (hc_chainDb hc) (hc_genesisHeader hc) (hc_currentHeader hc) (hc_currentHeaderHash hc)
    (lru_Purge (hc_headerCache hc)) (lru_Purge (hc_tdCache hc)) (lru_Purge (hc_numberCache hc)).

Lemma purged_cache hc T : cache_inv (purged hc) T.
Proof. split; cbn; intros k v Hk; by destruct (lru_Purge_empty _ _ _ Hk). Qed.

(** The batch of the rewind turns the tables into those of the new chain. *)
Lemma rewound hc T b ops nums :
  rewinding hc T false b ops nums →
  ∃ X, chain_ok (purged (set_db (batch_Write b (hc_chainDb hc)) hc)) X ∧
    ∀ z, stored X z ↔ stored T z ∧ hd_Number z ≤ hd_Number (hc_currentHeader hc).
Proof.
  intros [Hbk Hlk Hc Hcn Hmk Hhs Hg Hca Hdr Hnm]. pose proof (bk_tab _ _ Hbk) as HT. set (c := hc_currentHeader hc) in *.
  destruct (Hdr T) as [HD Hh]; [done|]. set (X := fold_left t_apply ops T) in *.
  destruct (tab_inv_dropped nums T X c HT HD Hnm (stored_P T HT c Hc)) as [HX Hst]. exists X. split; [|done].
  assert (∀ n h, t_canon X !! n = Some h ↔ t_canon T !! n = Some h ∧ n ≤ hd_Number c) as Hcx.
  { intros n h. rewrite (dr_canon _ _ _ HD). split.
    - destruct (decide _) as [|Hno]; [done|]. intros Hn. split; [done|]. apply Z.le_ngt. intros Hlt. apply Hno, Hnm. split; [done|].
      destruct (Hlk n h Hn) as (y & Hy & _). destruct (stored_at T HT _ _ _ Hy) as (Hs & -> & _). by exists y.
    - intros [Hn Hle]. rewrite decide_False; [done|]. intros [? _]%Hnm. lia. }
  split; try done.
  - split; [|done|apply purged_cache]. cbn. apply Hca, Hbk.
  - cbn. fold c. split.
    + by apply Hst.
    + by apply Hcx.
    + by rewrite Hh.
    + intros n h [Hn Hle]%Hcx. split; [done|]. destruct (Hlk n h Hn) as (y & Hy & Hl). exists y.
      destruct (stored_at T HT _ _ _ Hy) as (Hs & -> & ->). split; [by apply Hst|]. intros Hn0. apply Hcx. split; [by apply Hl|lia].
  - cbn. fold c. intros z [_ Hle]%Hst [_ E]. lia.
Qed.

Lemma SetHead_ok fuel head updateFn delFn hc T :
  chain_ok hc T → update_ok updateFn → del_ok delFn → 0 ≤ head → (∀ z, stored T z → hd_Number z ≤ Z.of_nat fuel) →
  let x := hc_currentHeader hc in
  ∃ hc' T', SetHead fuel head updateFn delFn hc = XRet (tt, hc') ∧ chain_ok hc' T' ∧
    let x' := hc_currentHeader hc' in
    t_canon T !! hd_Number x' = Some (Header_Hash x') ∧
    hd_Number x' ≤ head ∧ (updateFn = None → hd_Number x' = Z.min head (hd_Number x)) ∧
    ∀ z, stored T' z ↔ stored T z ∧ (hd_Number x ≤ head ∨ hd_Number z ≤ hd_Number x').
Proof.
  intros Hok Hu Hd H0 Hf x. pose proof Hok as [Hbk HC Hh Hg Htip]. pose proof (bk_tab _ _ Hbk) as HT. fold x in HC, Hh, Htip.
  assert (rewinding hc T true [] [] []) as HW.
  { split; try done; try apply HC; [|apply carries_nil|apply drops_nil]. intros n h Hn. by destruct (ci_link T x HC n h Hn). }
  unfold SetHead, sbind at 1. destruct (Z.le_gt_cases (hd_Number x) head) as [Hle|Hgt].
  - assert (rewind fuel head updateFn delFn true [] hc = XRet ([], hc)) as ->.
    { destruct fuel; cbn [rewind]; unfold sbind at 1, sread, CurrentHeader; fold x;
        rewrite u64_number by (eapply stored_P; [exact HT|apply HC]); by rewrite (proj2 (Z.leb_le _ head)). }
    unfold smodify. eexists _, T. split; [done|]. split_and!; cbn; fold x; try done; [|apply HC|lia|naive_solver].
    split; try done. destruct Hbk as [HR _ _]. split; [by destruct (hc_chainDb hc)|done|].
    apply (purged_cache (set_db (batch_Write [] (hc_chainDb hc)) hc)).
  - destruct (rewind_spec fuel updateFn delFn Hu Hd head true [] [] [] hc T HW H0) as (b & hc1 & T1 & ops & nums & E & HW1 & Ha & Hle & Hex);
      [by apply Hf, HC|done|by left|].
    rewrite E. unfold smodify. destruct (rewound hc1 T1 b ops nums HW1) as (X & HX & Hst).
    eexists _, X. split; [done|]. destruct Ha as ((E1 & _) & E4). split_and!; [exact HX| | | |].
    + cbn. rewrite <- E4. apply HW1.
    + done.
    + done.
    + intros z. rewrite Hst, E1. cbn. split; [naive_solver|]. intros [? [?|?]]; [lia|done].
Qed.

End Rewind.
