(* ===== verification/HeaderChainRun.v ===== *)
(** * Headers from the network

    Validation with the ethash engine ties a segment together and to its
    parent, which is what insertion needs; ancestors by number are those of
    the parent links; a fresh database with the genesis starts the chain. *)
From S2P Require Import Prelude Common RlpEncode RlpDecode StateObject TeWaka Consensus HeaderRlp RawDB RawDBSpec HeaderChain.
From S2P Require Import HeaderChainSpec HeaderChainWrite HeaderChainReorg HeaderChainInsert HeaderChainRewind.
Import Enc Bytes.
Open Scope go_scope.

(** ** Verdicts *)

Section Verdicts.
Context {B : Backend} (HashCZZ : bytes → Z → bytes).

Lemma verifySeal_returns e header factor : ∃ r, verifySeal HashCZZ e header factor = Ret r.
Proof.
  revert e. fix IH 1. intros [mode fakeFail shared]. cbn [verifySeal]. destruct (is_fake mode); [eauto|].
  destruct shared as [e|]; [apply IH|]. destruct (Z.leb_spec (hd_Difficulty header) 0); [eauto|].
  pose proof (scaled_pos (hd_Difficulty header) factor ltac:(lia)) as Hs. unfold big_Div.
  destruct (Z.eqb_spec (scaled_difficulty (hd_Difficulty header) factor) 0); [lia|]. cbn. eauto.
Qed.

Lemma verifyHeader_returns e header parent seal now factor : ∃ r, verifyHeader HashCZZ e header parent seal now factor = Ret r.
Proof.
  unfold verifyHeader. do 8 match goal with |- ∃ r, (if ?b then _ else _) = _ => destruct b; [eauto|] end.
  destruct seal; [apply verifySeal_returns|eauto].
Qed.

Lemma worker_returns GetHeader e headers seals i now factor :
  (i < length headers)%nat → length seals = length headers →
  ∃ r, verifyHeaderWorker HashCZZ GetHeader e headers seals i now factor = Ret r.
Proof.
  intros Hi Hl. unfold verifyHeaderWorker. destruct (lookup_lt_is_Some_2 headers i Hi) as [x ->].
  destruct (match i with O => _ | S j => _ end) as [p|]; [|eauto].
  destruct (lookup_lt_is_Some_2 seals i) as [s ->]; [lia|]. apply verifyHeader_returns.
Qed.
End Verdicts.

Lemma await_ok vs interrupts : ∀ i,
  Forall (λ v, ∃ r, v = Ret r) vs → ∃ r, await i vs interrupts = Ret r ∧ (snd r = None → Forall (λ v, v = Ret (Ok tt)) vs).
Proof.
  induction vs as [|v vs IH]; intros i HF; [by exists (0, None)|]. inversion HF as [|? ? [r ->] HF']; subst. cbn [await].
  destruct (interrupts i); [by eexists|]. cbn [obind]. destruct r as [[]|e]; [|by eexists].
  destruct (IH (S i) HF') as (r & -> & Hr). exists r. split; [done|]. intros E. constructor; [done|by apply Hr].
Qed.

(** Seals to check are picked inside the slice. *)
Lemma set_seal_ok index seals : 0 ≤ index < zlen seals → ∃ seals', set_seal index seals = Ret seals' ∧ length seals' = length seals.
Proof.
  intros H. unfold set_seal. rewrite (proj2 (Z.leb_le 0 index)), (proj2 (Z.ltb_lt index _)) by lia. cbn [andb].
  eexists. split; [done|]. apply length_insert.
Qed.
Lemma seal_loop_ok n checkFreq intn : ∀ i seals,
  0 ≤ i → 0 < checkFreq → (∀ i, 0 ≤ intn i < checkFreq) → seals ≠ [] →
  ∃ seals', seal_loop n i checkFreq intn seals = Ret seals' ∧ length seals' = length seals.
Proof.
  induction n as [|n IH]; intros i seals Hi Hc Hr Hs; [by exists seals|]. cbn [seal_loop].
  rewrite (proj2 (Z.leb_gt checkFreq 0)) by lia. specialize (Hr i) as Hri.
  assert (0 < zlen seals) by (destruct seals; [done|unfold zlen; cbn [length]; lia]).
  set (index := if zlen seals <=? i * checkFreq + intn i then zlen seals - 1 else i * checkFreq + intn i).
  assert (0 ≤ index < zlen seals) as Hix.
  { subst index. destruct (Z.leb_spec (zlen seals) (i * checkFreq + intn i)); [lia|]. split; [|lia].
    pose proof (Z.mul_nonneg_nonneg i checkFreq). lia. }
  destruct (set_seal_ok index seals Hix) as (s1 & -> & L1). cbn [obind].
  destruct (IH (i + 1) s1) as (s2 & -> & L2); [lia|done|done|by destruct s1, seals|]. exists s2. split; [done|lia].
Qed.

Lemma pick_seals_ok len checkFreq intn :
  0 < len → 0 ≤ checkFreq → (0 < checkFreq → ∀ i, 0 ≤ intn i < checkFreq) →
  ∃ seals, pick_seals len checkFreq intn = Ret seals ∧ zlen seals = len.
Proof.
  intros Hl Hc Hr. unfold pick_seals.
  assert (zlen (repeat false (Z.to_nat len)) = len) as Lr by (unfold zlen; rewrite repeat_length; lia).
  destruct (Z.eqb_spec checkFreq 0); [eauto|].
  destruct (seal_loop_ok (Z.to_nat (Z.quot len checkFreq + 1)) checkFreq intn 0 (repeat false (Z.to_nat len))) as (s1 & -> & L1);
    [lia|lia|apply Hr; lia| |].
  { intros E. rewrite E in Lr. change (0 = len) in Lr. lia. }
  cbn [obind]. assert (zlen s1 = len) as L1' by (unfold zlen in *; lia).
  destruct (set_seal_ok (zlen s1 - 1) s1) as (s2 & -> & L2); [lia|]. exists s2. split; [done|]. unfold zlen in *. lia.
Qed.

Section Run.
Context {B : Backend} {Bok : BackendOk B} {Hplay : Play}.
Context {LH : LruCache Header} {LHok : LruCacheOk LH} {LZ : LruCache Z} {LZok : LruCacheOk LZ}.
Implicit Types (T : tables) (hc : HeaderChain) (x y z : Header) (h : hash) (n : Z).

(** ** Validation *)

Lemma chained_segment p hs :
  Forall in_play hs → chained p hs → (∀ x, head hs = Some x → hd_ParentHash x = Header_Hash p) →
  (∀ i a b, hs !! i = Some a → hs !! S i = Some b → hd_ParentHash b = Header_Hash a) → segment p hs.
Proof.
  revert p. induction hs as [|x hs IH]; intros p HF Hc Hh Hl; [done|]. inversion HF; subst. destruct Hc as [Hf Hc].
  split_and!; [done|split; [by apply Hh|apply Hf]|]. apply IH; [done|done| |].
  - intros y Hy. apply (Hl 0%nat x y); [done|]. by destruct hs; [|injection Hy as ->].
  - intros i a b Ha Hb. by apply (Hl (S i)).
Qed.

(** What the engine accepts is a linked segment on its parent. *)
Lemma accepted_segment HashCZZ e now factors hc T first rest seals :
  backed hc T → Forall in_play (first :: rest) → PowMode e ≠ ModeFullFake → length seals = length (first :: rest) →
  ∃ vs hc1, ethash_verify HashCZZ e now factors (first :: rest) seals hc = XRet (vs, hc1) ∧ same hc hc1 ∧ cache_inv hc1 T ∧
    Forall (λ v, ∃ r, v = Ret r) vs ∧
    (Forall (λ v, v = Ret (Ok tt)) vs → linked_chain (first :: rest) ∧ attaches T first).
Proof.
  intros Hbk HF Hm Hl. pose proof (bk_tab _ _ Hbk) as HT. inversion HF as [|? ? HfP HF']; subst.
  destruct (GetHeader_spec hc T (hd_ParentHash first) (u64 (u64 (hd_Number first) - 1)) Hbk) as (r & hc1 & E1 & Hs1 & Hc1 & _ & Hr);
    [apply wrap_range; lia|by apply hw_parent, pl_wf|].
  set (vs := (λ i, verifyHeaderWorker HashCZZ (λ _ _, r) e (first :: rest) seals i now (factors i)) <$> seq 0 (length (first :: rest))).
  exists vs, hc1. split_and!; [|done|done| |].
  - unfold ethash_verify. destruct (PowMode e); try done; unfold sbind; rewrite E1; done.
  - apply Forall_fmap, Forall_seq. intros i Hi. apply worker_returns; [lia|done].
  - intros Hok. apply Forall_fmap in Hok. rewrite Forall_seq in Hok.
    assert (∀ i, (i < length (first :: rest))%nat →
      verifyHeaderWorker HashCZZ (λ _ _, r) e (first :: rest) seals i now (factors i) = Ret (Ok tt)) as Hw.
    { intros i Hi. apply Hok. lia. }
    destruct r as [p|].
    2: { specialize (Hw 0%nat ltac:(cbn; lia)). by cbn in Hw. }
    destruct (workers_chained HashCZZ (λ _ _, Some p) e first rest seals now factors p eq_refl Hw) as [Hch Hlk].
    destruct (Hr p eq_refl) as [Hp Eh].
    pose proof (chained_segment p (first :: rest) HF Hch ltac:(by intros x [= <-]) Hlk) as Hs.
    split; [by destruct Hs as (? & _ & ?)|]. destruct Hs as (_ & Hc & _). split.
    + destruct Hc as [_ ->]. pose proof (pl_number p (stored_P T HT p Hp)). lia.
    + intros y Hy Ey. by rewrite <- (same_header T HT p y Hp (stored_P T HT y Hy)) by congruence.
Qed.

Lemma validated HashCZZ e now factors intn interrupts checkFreq hc T first rest :
  backed hc T → Forall in_play (first :: rest) → PowMode e ≠ ModeFullFake →
  0 ≤ checkFreq → (0 < checkFreq → ∀ i, 0 ≤ intn i < checkFreq) →
  ∃ r hc1, ValidateHeaderChain (ethash_verify HashCZZ e now factors) intn interrupts (first :: rest) checkFreq hc = XRet (r, hc1) ∧
    same hc hc1 ∧ cache_inv hc1 T ∧ (snd r = None → linked_chain (first :: rest) ∧ attaches T first).
Proof.
  intros Hbk HF Hm Hc Hr. unfold ValidateHeaderChain. destruct (sanity_loop 1 first rest) as [[i err]|].
  { exists (i, Some err), hc. split_and!; try done. apply Hbk. }
  destruct (pick_seals_ok (zlen (first :: rest)) checkFreq intn) as (seals & Es & Ls); [unfold zlen; cbn [length]; lia|done|done|].
  unfold sbind at 1, sout. rewrite Es. cbn [sret].
  destruct (accepted_segment HashCZZ e now factors hc T first rest seals Hbk HF Hm) as (vs & hc1 & Ev & Hs1 & Hc1 & HR & Hlk).
  { unfold zlen in Ls. lia. }
  unfold sbind at 1. rewrite Ev. destruct (await_ok vs interrupts 0 HR) as (r & Er & Hok). rewrite Er.
  exists r, hc1. split_and!; try done. intros Hn. by apply Hlk, Hok.
Qed.

(** ** Ancestors *)

(** Following the parent links. *)
Fixpoint anc T (k : nat) x : option Header :=
  match k with
  | O => Some x
  | S k => match t_headers T !! (hd_Number x - 1, hd_ParentHash x) with Some p => anc T k p | None => None end
  end.

Lemma anc_parent T x k : tab_inv T → stored T x → 0 < hd_Number x →
  ∃ p, stored T p ∧ child_of x p ∧ anc T (S k) x = anc T k p.
Proof.
  intros HT Hx Hn. destruct (stored_parent T HT x Hx ltac:(lia)) as (p & Hp & Ep & En). exists p. split_and!; try done.
  cbn [anc]. replace (hd_Number x - 1) with (hd_Number p) by lia. by rewrite Ep, Hp.
Qed.

Lemma anc_total T k : tab_inv T → ∀ x, stored T x → Z.of_nat k ≤ hd_Number x →
  ∃ y, anc T k x = Some y ∧ stored T y ∧ hd_Number y = hd_Number x - Z.of_nat k.
Proof.
  intros HT. induction k as [|k IH]; intros x Hx Hk; [exists x; split_and!; try done; lia|].
  destruct (anc_parent T x k HT Hx ltac:(lia)) as (p & Hp & [_ En] & ->).
  destruct (IH p Hp ltac:(lia)) as (y & Hy & Hsy & Hny). exists y. split_and!; try done. lia.
Qed.

Lemma anc_canon T c k : tab_inv T → canon_inv T c → ∀ x y, stored T x → Z.of_nat k ≤ hd_Number x →
  t_canon T !! hd_Number x = Some (Header_Hash x) → anc T k x = Some y → t_canon T !! hd_Number y = Some (Header_Hash y).
Proof.
  intros HT HC. induction k as [|k IH]; intros x y Hx Hk Hcx Ha; [by injection Ha as <-|].
  destruct (anc_parent T x k HT Hx ltac:(lia)) as (p & Hp & [Ep En] & E). rewrite E in Ha.
  eapply (IH p); [done|lia| |done]. destruct (ci_link T c HC _ _ Hcx) as (_ & x' & Hx' & Hl).
  assert (x' = x) as -> by congruence. rewrite Ep in Hl. replace (hd_Number p) with (hd_Number x - 1) by lia. apply Hl. lia.
Qed.

Lemma ancestor_loop_spec k : ∀ hc T x maxNC,
  chain_ok hc T → stored T x → Z.of_nat k ≤ hd_Number x → 0 ≤ maxNC →
  ∃ y a m mx hc', anc T k x = Some y ∧ ancestor_loop k (Header_Hash x) (hd_Number x) maxNC hc = XRet ((a, m, mx), hc') ∧
    same hc hc' ∧ cache_inv hc' T ∧ ((a, m) = (Header_Hash y, hd_Number y) ∨ (a, m) = (0, 0) ∧ maxNC < Z.of_nat k).
Proof.
  induction k as [|k IH]; intros hc T x maxNC Hok Hx Hk Hm; pose proof (ok_backed _ _ Hok) as Hbk; pose proof (bk_tab _ _ Hbk) as HT.
  { exists x, (Header_Hash x), (hd_Number x), maxNC, hc. split_and!; try done; [apply Hbk|by left]. }
  destruct (anc_total T (S k) HT x Hx Hk) as (y & Hy & Hsy & Hny). exists y.
  pose proof (stored_P T HT x Hx) as HxP. pose proof (ok_canon _ _ Hok) as HC. pose proof (stored_P T HT y Hsy) as HyP.
  cbn [ancestor_loop]. unfold sbind at 1, sread.
  destruct (Z.eqb_spec (ReadCanonicalHash (hc_chainDb hc) (hd_Number x)) (Header_Hash x)) as [E|E].
  - apply (canon_read_is hc T _ x Hbk HC HxP) in E. pose proof (anc_canon T _ (S k) HT HC x y Hx Hk E Hy) as Hcy.
    unfold sbind at 1. rewrite <- Hny, u64_number by done.
    eexists _, _, _, hc. split; [done|]. split; [reflexivity|]. split_and!; [done|apply Hbk|]. left.
    by rewrite (proj2 (canon_read_is hc T _ y Hbk HC HyP) Hcy).
  - destruct (Z.eqb_spec maxNC 0) as [->|Hm0]; [eexists _, _, _, hc; split; [done|]; split; [reflexivity|]; split_and!;
      [done|apply Hbk|right; split; [done|lia]]|].
    destruct (anc_parent T x k HT Hx ltac:(lia)) as (p & Hp & [Ep En] & Ea). rewrite Ea in Hy.
    destruct (GetHeader_spec hc T (Header_Hash x) (hd_Number x) Hbk (number_u64 x HxP) (Header_Hash_u256 x))
      as (r & hc1 & E1 & Hs1 & Hc1 & Hr & _).
    unfold sbind at 1. rewrite E1, (Hr x Hx), Ep. replace (hd_Number x - 1) with (hd_Number p) by lia.
    rewrite (u64_number p (stored_P T HT p Hp)).
    destruct (IH hc1 T p (maxNC - 1) (chain_ok_same _ _ _ Hok Hs1 Hc1) Hp ltac:(lia) ltac:(lia))
      as (y' & a & m & mx & hc' & Ey' & E' & Hs' & Hc' & Hres).
    assert (y' = y) as -> by congruence. exists a, m, mx, hc'. rewrite Ea. split_and!; try done; [by eapply same_chain_trans|].
    destruct Hres as [?|[? ?]]; [by left|right; split; [done|lia]].
Qed.

Lemma GetAncestor_spec hc T x k maxNC :
  chain_ok hc T → stored T x → 0 ≤ k ≤ hd_Number x → 0 ≤ maxNC →
  ∃ y a m mx hc', anc T (Z.to_nat k) x = Some y ∧ GetAncestor (Header_Hash x) (hd_Number x) k maxNC hc = XRet ((a, m, mx), hc') ∧
    same hc hc' ∧ cache_inv hc' T ∧ ((a, m) = (Header_Hash y, hd_Number y) ∨ (a, m) = (0, 0) ∧ maxNC < k).
Proof.
  intros Hok Hx Hk Hm. pose proof (ok_backed _ _ Hok) as Hbk. pose proof (bk_tab _ _ Hbk) as HT.
  unfold GetAncestor. rewrite (proj2 (Z.ltb_ge _ _)) by lia. destruct (Z.eqb_spec k 1) as [->|Hk1].
  - pose proof (stored_P T HT x Hx) as HxP. destruct (anc_parent T x 0 HT Hx ltac:(lia)) as (p & Hp & [Ep En] & Ea).
    destruct (GetHeader_spec hc T (Header_Hash x) (hd_Number x) Hbk (number_u64 x HxP) (Header_Hash_u256 x))
      as (r & hc1 & E1 & Hs1 & Hc1 & Hr & _).
    unfold sbind. rewrite E1, (Hr x Hx), Ep. replace (hd_Number x - 1) with (hd_Number p) by lia.
    rewrite (u64_number p (stored_P T HT p Hp)). exists p. eexists _, _, _, hc1.
    split; [exact Ea|]. split; [reflexivity|]. split_and!; try done. by left.
  - destruct (ancestor_loop_spec (Z.to_nat k) hc T x maxNC Hok Hx ltac:(lia) Hm) as (y & a & m & mx & hc' & H1 & H2 & H3 & H4 & H5).
    exists y, a, m, mx, hc'. rewrite Z2Nat.id in H5 by lia. done.
Qed.

(** The hashes below a header, newest first. *)
Lemma hashes_loop_spec (n : nat) : ∀ hc T x (acc : list hash),
  backed hc T → stored T x → 0 < hd_Number x →
  ∃ l hc', hashes_loop n x acc hc = XRet (acc ++ l, hc') ∧ same hc hc' ∧ cache_inv hc' T ∧
    length l = Nat.min n (Z.to_nat (hd_Number x)) ∧
    ∀ i h, l !! i = Some h → ∃ y, anc T (S i) x = Some y ∧ h = Header_Hash y.
Proof.
  induction n as [|n IH]; intros hc T x acc Hbk Hx Hn; pose proof (bk_tab _ _ Hbk) as HT.
  { exists [], hc. rewrite app_nil_r. split_and!; try done. apply Hbk. }
  pose proof (stored_P T HT x Hx) as HxP. destruct (stored_parent T HT x Hx ltac:(lia)) as (p & Hp & Ep & En).
  pose proof (stored_P T HT p Hp) as HpP. pose proof (pl_number p HpP) as Hpn. cbn [hashes_loop]. rewrite (u64_number x HxP), Ep.
  replace (hd_Number x - 1) with (hd_Number p) by lia. rewrite (u64_number p HpP).
  destruct (GetHeader_spec hc T (Header_Hash p) (hd_Number p) Hbk (number_u64 p HpP) (Header_Hash_u256 p))
    as (r & hc1 & E1 & Hs1 & Hc1 & Hr & _).
  assert (∀ k, anc T (S k) x = anc T k p) as Ea.
  { intros k. cbn [anc]. replace (hd_Number x - 1) with (hd_Number p) by lia. by rewrite Ep, Hp. }
  unfold sbind at 1. rewrite E1, (Hr p Hp). destruct (Z.eqb_spec (hd_Number p) 0) as [E0|E0].
  - exists [Header_Hash p], hc1. split_and!; try done; [cbn [length]; lia|].
    intros [|i] h [= <-]. exists p. by rewrite Ea.
  - destruct (IH hc1 T p (acc ++ [Header_Hash p]) (backed_same _ _ _ Hbk Hs1 Hc1) Hp ltac:(lia)) as (l & hc' & E' & Hs' & Hc' & Hl & Hi).
    exists (Header_Hash p :: l), hc'. rewrite E', <- app_assoc. split_and!; try done; [by eapply same_chain_trans|cbn [length]; lia|].
    intros [|i] h Hh; [injection Hh as <-; exists p; by rewrite Ea|]. rewrite Ea. by apply Hi.
Qed.

End Run.
