(* ===== verification/HeaderChainTheorems.v ===== *)
(** * The header chain: claims

    From a database with the genesis, any sequence of verified insertions,
    rewinds and lookups keeps one linked canonical chain from the genesis to
    the head, with total difficulties that add up.  Statements are over what
    the accessors of the database read. *)
From S2P Require Import Prelude Common RlpEncode RlpDecode StateObject Concrete TeWaka Consensus HeaderRlp RawDB RawDBSpec.
From S2P Require Import HeaderChain HeaderChainSpec HeaderChainWrite HeaderChainReorg HeaderChainInsert HeaderChainRewind HeaderChainRun.
Import Enc Bytes.
Open Scope go_scope.

(** [Genesis.Commit] (core/genesis.go) for the header that [ToBlock] made: a
    nil difficulty is encoded like zero; the block has no transactions and no
    receipts; the configuration is given in its JSON form. *)
Definition genesis_Commit {B : Backend} (config : bytes) (difficulty : option Z) (g : Header) (b : batch)
    : outcome (result string batch) :=
  if negb (hd_Number g =? 0) then Ret (Err "can't commit genesis block with number > 0"%string)
  else
    let h := Header_Hash g in
    let number := u64 (hd_Number g) in
    do! b <- WriteTd h number (default 0 difficulty) b;
    do! b <- WriteBlock g [] b;
    do! b <- WriteReceipts h number [] b;
    let b := WriteCanonicalHash h number b in
    let b := WriteHeadHeaderHash h (WriteHeadFastBlockHash h (WriteHeadBlockHash h b)) in
    Ret (Ok (WriteChainConfig h config b)).

Section Theorems.
Context {B : Backend} {Bok : BackendOk B} {Hplay : Play}.
Context {LH : LruCache Header} {LHok : LruCacheOk LH} {LZ : LruCache Z} {LZok : LruCacheOk LZ}.
Implicit Types (T : tables) (hc : HeaderChain) (x y z : Header) (h : hash) (n : Z).

(** ** What the chain holds, as the accessors read it *)

Definition known hc z : Prop := ReadHeader (hc_chainDb hc) (Header_Hash z) (hd_Number z) = Some z.
Definition total_difficulty hc z : option Z := ReadTd (hc_chainDb hc) (Header_Hash z) (hd_Number z).
Definition canonical hc n : hash := ReadCanonicalHash (hc_chainDb hc) n.

Record chain_good hc : Prop := mkChainGood {
  cg_head : let x := hc_currentHeader hc in
    known hc x ∧ hc_currentHeaderHash hc = Header_Hash x ∧ ReadHeadHeaderHash (hc_chainDb hc) = Header_Hash x ∧
    canonical hc (hd_Number x) = Header_Hash x;
  cg_chain : ∀ n, 0 ≤ n ≤ hd_Number (hc_currentHeader hc) →
    ∃ y, known hc y ∧ hd_Number y = n ∧ canonical hc n = Header_Hash y ∧ (n ≠ 0 → canonical hc (n - 1) = hd_ParentHash y);
  cg_genesis : canonical hc 0 = Header_Hash genesis;
  cg_above : ∀ n, hd_Number (hc_currentHeader hc) < n < 2 ^ 64 → canonical hc n = 0;
  cg_td : ∀ x, in_play x → known hc x →
    x = genesis ∧ total_difficulty hc x = Some (hd_Difficulty x) ∨
    ∃ y td, known hc y ∧ child_of x y ∧ total_difficulty hc y = Some td ∧
      total_difficulty hc x = Some (td + hd_Difficulty x)
}.

Lemma known_stored hc T x : backed hc T → in_play x → known hc x ↔ stored T x.
Proof.
  intros [HR _ _] Hx. unfold known. by rewrite (ReadHeader_spec _ T HR _ _ (number_u64 x Hx) (Header_Hash_u256 x)).
Qed.
Lemma stored_known hc T x : backed hc T → stored T x → known hc x.
Proof. intros Hbk Hx. apply (known_stored hc T x Hbk); [|done]. eapply stored_P; [apply Hbk|done]. Qed.
Lemma td_read hc T x : backed hc T → in_play x → total_difficulty hc x = td_of T x.
Proof. intros [HR _ _] Hx. apply (ReadTd_spec _ T HR _ _ (number_u64 x Hx) (Header_Hash_u256 x)). Qed.

Lemma chain_ok_good hc T : chain_ok hc T → chain_good hc.
Proof.
  intros [Hbk HC Hh Hg Htip]. pose proof (bk_tab _ _ Hbk) as HT. set (x := hc_currentHeader hc) in *.
  pose proof (stored_P T HT x (ci_stored T x HC)) as HxP. pose proof (pl_number x HxP) as Hxn.
  assert (∀ n h, is_u64 n → t_canon T !! n = Some h → canonical hc n = h) as Hcr.
  { intros n h Hn E. unfold canonical. by rewrite (canon_read hc T n Hbk Hn), E. }
  split; fold x; cbv zeta.
  - split_and!; [by eapply stored_known; [|apply HC]|done| |apply Hcr; [by apply number_u64|apply HC]].
    rewrite (ReadHeadHeaderHash_spec _ T (bk_rep _ _ Hbk)). by rewrite (ci_marker T x HC).
  - intros n Hn. destruct (canon_full T x n HT HC Hn) as [h Hh']. destruct (canon_stored T x n h HT HC Hh') as (y & Hy & En & Eh & _).
    exists y. split_and!; [by eapply stored_known|done|apply Hcr; [split; lia|by rewrite Eh]|].
    intros Hn0. destruct (ci_link T x HC n h Hh') as (_ & y' & Hy' & Hl). apply Hcr; [split; lia|].
    assert (y' = y) as <- by (rewrite <- En, <- Eh in Hy'; congruence). by apply Hl.
  - apply Hcr; [done|]. destruct pl_genesis as [_ E0]. rewrite <- E0.
    apply (canon_zero T x genesis HT HC); [apply HT|done].
  - intros n Hn. apply (canon_read_zero hc T x n Hbk HC); [split; lia|]. destruct (t_canon T !! n) eqn:E; [|done].
    destruct (ci_link T x HC n _ E). lia.
  - intros z HzP Hz. apply (known_stored hc T z Hbk HzP) in Hz.
    destruct (ti_td T HT z Hz) as [->|(y & p & Hy & Hc & Hp & Ht)].
    + left. split; [done|]. rewrite (td_read hc T _ Hbk HzP). apply HT.
    + right. exists y, p. pose proof (stored_P T HT y Hy). rewrite !(td_read hc T) by done.
      split_and!; try done. by eapply stored_known.
Qed.

(** ** Steps *)

(** A segment that is known, at least as heavy as the head, and not the head. *)
Definition replay hc (hs : list Header) : Prop :=
  Forall (known hc) hs ∧ top (hc_currentHeader hc) hs ≠ hc_currentHeader hc ∧
  ∃ t t', total_difficulty hc (top (hc_currentHeader hc) hs) = Some t ∧
    total_difficulty hc (hc_currentHeader hc) = Some t' ∧ t' ≤ t.

(** An engine that verifies, and draws inside their bound. *)
Definition verifies (e : Ethash) (checkFreq : Z) (intn : Z → Z) : Prop :=
  PowMode e ≠ ModeFullFake ∧ 0 ≤ checkFreq ∧ (0 < checkFreq → ∀ i, 0 ≤ intn i < checkFreq).

Definition enough (fuel : nat) hc (first : Header) : Prop :=
  hd_Number (hc_currentHeader hc) ≤ Z.of_nat fuel ∧ hd_Number first ≤ Z.of_nat fuel + 1.

(** The steps that keep the chain canonical.  The code also allows two that do
    not, which are left out: an insertion of a segment that is a [replay], and
    one interrupted inside [writeHeaders] (the interrupt flag may stop an
    insertion before that, and during validation).  Lookups, rewinds and
    fuel that covers the numbers in play complete the list. *)
Inductive hstep : HeaderChain → HeaderChain → Prop :=
| step_insert HashCZZ e now factors fuel intn interrupts interrupt coin first rest checkFreq r hc hc' :
    verifies e checkFreq intn → Forall in_play (first :: rest) → ¬ replay hc (first :: rest) → enough fuel hc first →
    validate_and_insert (ethash_verify HashCZZ e now factors) fuel intn interrupts interrupt false coin (first :: rest)
      checkFreq hc = XRet (r, hc') → hstep hc hc'
| step_rewind fuel head updateFn delFn hc hc' :
    update_ok updateFn → del_ok delFn → 0 ≤ head → (∀ z, in_play z → known hc z → hd_Number z ≤ Z.of_nat fuel) →
    SetHead fuel head updateFn delFn hc = XRet (tt, hc') → hstep hc hc'
| step_header h n r hc hc' : is_u64 n → is_u256 h → GetHeader h n hc = XRet (r, hc') → hstep hc hc'
| step_td h n r hc hc' : is_u64 n → is_u256 h → GetTd h n hc = XRet (r, hc') → hstep hc hc'
| step_number h r hc hc' : is_u256 h → GetBlockNumber h hc = XRet (r, hc') → hstep hc hc'.

Lemma replayed_replay hc T hs : chain_ok hc T → Forall in_play hs → replayed T (hc_currentHeader hc) hs → replay hc hs.
Proof.
  intros Hok HF (H1 & H2 & t & t' & H3 & H4 & H5). pose proof (ok_backed _ _ Hok) as Hbk.
  pose proof (bk_tab _ _ Hbk) as HT. assert (in_play (hc_currentHeader hc)) as Hx by (exact (stored_P T HT _ (ci_stored _ _ (ok_canon _ _ Hok)))).
  split; [eapply Forall_impl; [exact H1|intros z Hz; by eapply stored_known]|]. split; [done|]. exists t, t'.
  rewrite !(td_read hc T) by (done || (destruct hs as [|y l]; [done|by apply (Forall_top in_play)])). done.
Qed.

Lemma insert_step HashCZZ e now factors fuel intn interrupts interrupt coin first rest checkFreq hc T :
  chain_ok hc T → verifies e checkFreq intn → Forall in_play (first :: rest) → ¬ replay hc (first :: rest) → enough fuel hc first →
  ∃ r hc', validate_and_insert (ethash_verify HashCZZ e now factors) fuel intn interrupts interrupt false coin (first :: rest)
      checkFreq hc = XRet (r, hc') ∧
    match snd r with
    | Some _ => same hc hc' ∧ chain_ok hc' T
    | None => ∃ T', chain_ok hc' T' ∧ inserted T (hc_currentHeader hc) (first :: rest) coin T' (hc_currentHeader hc')
    end.
Proof.
  intros Hok (Hm & Hc & Hr) HF Hrep [Hf1 Hf2]. unfold validate_and_insert.
  destruct (validated HashCZZ e now factors intn interrupts checkFreq hc T first rest (ok_backed _ _ Hok) HF Hm Hc Hr)
    as (r & hc1 & E1 & Hs1 & Hc1 & Hv).
  unfold sbind at 1. rewrite E1. pose proof (chain_ok_same _ _ _ Hok Hs1 Hc1) as Hok1.
  destruct (snd r) as [err|] eqn:Er; [exists r, hc1; rewrite Er; done|]. destruct (Hv eq_refl) as [Hl Hat].
  assert (hc_currentHeader hc1 = hc_currentHeader hc) as Ecur by (by destruct Hs1 as (_ & _ & -> & _)).
  unfold sbind at 1, InsertHeaderChain. destruct interrupt; [by eexists _, hc1|].
  destruct (writeHeaders_ok fuel coin first rest hc1 T Hok1 Hl Hat) as (r2 & hc2 & E2 & Hres).
  { rewrite Ecur. intros Hre. by eapply Hrep, replayed_replay. } { by rewrite Ecur. } { done. }
  unfold sbind at 1. rewrite E2. eexists _, hc2. split; [reflexivity|]. cbn [snd]. rewrite Ecur in Hres.
  destruct (snd r2) as [err|]; [|done]. destruct Hres as (_ & _ & Hs2 & Hok2). split; [by eapply same_chain_trans|done].
Qed.

Lemma hstep_ok hc hc' T : hstep hc hc' → chain_ok hc T → ∃ T', chain_ok hc' T'.
Proof.
  intros Hs Hok. pose proof (ok_backed _ _ Hok) as Hbk.
  destruct Hs as [HashCZZ e now factors fuel intn interrupts interrupt coin first rest cf r hc hc' H1 H2 H3 H4 E
    |fuel head u d hc hc' H1 H2 H3 H4 E|h n r hc hc' H1 H2 E|h n r hc hc' H1 H2 E|h r hc hc' H1 E].
  - destruct (insert_step HashCZZ e now factors fuel intn interrupts interrupt coin first rest cf hc T Hok H1 H2 H3 H4)
      as (r' & hc2 & E2 & Hres). rewrite E in E2. injection E2 as <- <-. destruct (snd r); [by destruct Hres; eauto|].
    destruct Hres as (T' & ? & _). eauto.
  - destruct (SetHead_ok fuel head u d hc T Hok H1 H2 H3) as (hc2 & T' & E2 & Hok2 & _).
    { intros z Hz. apply H4; [eapply stored_P; [apply Hbk|done]|by eapply stored_known]. }
    rewrite E in E2. injection E2 as <-. eauto.
  - destruct (GetHeader_spec hc T h n Hbk H1 H2) as (? & hc2 & E2 & Hs & Hc & _). rewrite E in E2. injection E2 as <- <-.
    exists T. by eapply chain_ok_same.
  - destruct (GetTd_spec hc T h n Hbk H1 H2) as (? & hc2 & E2 & Hs & Hc & _). rewrite E in E2. injection E2 as <- <-.
    exists T. by eapply chain_ok_same.
  - destruct (GetBlockNumber_spec hc T h Hbk H1) as (hc2 & E2 & Hs & Hc). rewrite E in E2. injection E2 as _ <-.
    exists T. by eapply chain_ok_same.
Qed.

Lemma hsteps_ok hc hc' : rtc hstep hc hc' → (∃ T, chain_ok hc T) → ∃ T, chain_ok hc' T.
Proof. induction 1 as [|hc1 hc2 hc3 Hs _ IH]; [done|]. intros [T Hok]. apply IH. by eapply hstep_ok. Qed.

(** ** The start *)

Lemma genesis_batch config kv :
  (∀ k v, kv !! k = Some v → foreign k) →
  ∃ b T, genesis_Commit config (Some (hd_Difficulty genesis)) genesis [] = Ret (Ok b) ∧
    let D := batch_Write b (nofreezedb kv) in
    represents D T ∧ ReadHeadBlockHash D = Header_Hash genesis ∧
    t_headers T = {[(0, Header_Hash genesis) := genesis]} ∧ t_tds T = {[(0, Header_Hash genesis) := hd_Difficulty genesis]} ∧
    t_numbers T = {[Header_Hash genesis := 0]} ∧ t_canon T = {[0 := Header_Hash genesis]} ∧ t_head T = Some (Header_Hash genesis).
Proof.
  intros Hkv. destruct pl_genesis as [HP E0]. pose proof (Header_Hash_u256 genesis) as Hh. set (h := Header_Hash genesis) in *.
  pose proof (pl_difficulty genesis HP) as [Hd _]. set (d := hd_Difficulty genesis) in *.
  destruct (op_write_carries (TPutTd 0 h d) [] []) as (b1 & E1 & C1); [|apply carries_nil|].
  { split_and!; [done|done|lia|apply td_bytes_small; lia]. }
  set (b1' := WriteBodyRLP h 0 [193; 192] b1).
  destruct (op_write_carries (TPutHeader genesis) b1' [TPutTd 0 h d]) as (b2 & E2 & C2).
  { split; [by apply pl_wf|by apply number_u64]. } { by apply carries_put; [apply foreign_body|]. }
  set (b3 := WriteHeadBlockHash h (WriteCanonicalHash h 0 (Put (blockReceiptsKey 0 h) [192] b2))).
  set (b4 := WriteChainConfig h config (WriteHeadHeaderHash h (WriteHeadFastBlockHash h b3))).
  assert (carries b4 ((([TPutTd 0 h d] ++ [TPutHeader genesis]) ++ [TPutCanon 0 h]) ++ [TPutHead h])) as C4.
  { apply carries_put; [apply foreign_config|]. apply carries_app; [|by apply carries_head].
    do 2 (apply carries_put; [repeat constructor; vm_compute; done|]). apply carries_app; [|by apply carries_canon].
    by apply carries_put; [apply foreign_receipts|]. }
  exists b4, (fold_left t_apply ((([TPutTd 0 h d] ++ [TPutHeader genesis]) ++ [TPutCanon 0 h]) ++ [TPutHead h]) empty_tables).
  cbv zeta. split_and!; [|exact (C4 _ _ (represents_empty kv Hkv))| |cbn; by rewrite E0|done|cbn; by rewrite E0|done|done].
  - unfold genesis_Commit, WriteBlock. fold h d. rewrite E0. change (u64 0) with 0. cbn [Z.eqb negb default from_option id op_write] in *.
    unfold id. rewrite E1. cbn [obind]. unfold WriteBody. change (must_encode (Body_val [])) with (Ret [193; 192]). cbn [obind].
    fold b1'. rewrite E2. cbn [obind]. unfold WriteReceipts. change (must_encode (VList [])) with (Ret [192]). done.
  - unfold ReadHeadBlockHash, db_Get, b4, b3, WriteChainConfig, WriteHeadHeaderHash, WriteHeadFastBlockHash, WriteHeadBlockHash, Put.
    cbn [batch_Write db_kv]. rewrite !fold_left_app. cbn [fold_left kv_apply fst snd].
    rewrite !lookup_insert_ne, lookup_insert_eq by done. by apply read_hash_bytes.
Qed.

Lemma genesis_tab T :
  t_headers T = {[(0, Header_Hash genesis) := genesis]} → t_tds T = {[(0, Header_Hash genesis) := hd_Difficulty genesis]} →
  t_numbers T = {[Header_Hash genesis := 0]} → tab_inv T.
Proof.
  intros E1 E2 E3. destruct pl_genesis as [HP E0]. pose proof (pl_difficulty genesis HP) as [Hd _].
  assert (∀ n h x, t_headers T !! (n, h) = Some x → n = 0 ∧ h = Header_Hash genesis ∧ x = genesis) as Hh.
  { intros n h x. rewrite E1. intros [[= <- <-] <-]%lookup_singleton_Some. done. }
  split.
  - rewrite E1, E2, E0. by rewrite !lookup_singleton_eq.
  - intros n h x (-> & -> & ->)%Hh. done.
  - intros h n. rewrite E1, E3, lookup_singleton_Some. split; [intros [<- <-]; rewrite lookup_singleton_eq; eauto|].
    by intros [x [[= <- <-] _]%lookup_singleton_Some].
  - intros n h. rewrite E1, E2. intros [x [[= <- <-] _]%lookup_singleton_Some]. rewrite lookup_singleton_eq. eauto.
  - intros x (_ & _ & ->)%Hh. by left.
  - intros x td (_ & _ & ->)%Hh. rewrite E2, E0, lookup_singleton_eq. intros [= <-]. lia.
Qed.

(** Opening the database of a committed genesis. *)
Lemma NewHeaderChain_genesis config kv zero :
  (∀ k v, kv !! k = Some v → foreign k) →
  ∃ b hc T, genesis_Commit config (Some (hd_Difficulty genesis)) genesis [] = Ret (Ok b) ∧
    NewHeaderChain (batch_Write b (nofreezedb kv)) zero = XRet (Ok hc) ∧ chain_ok hc T ∧ hc_currentHeader hc = genesis.
Proof.
  intros Hkv. destruct (genesis_batch config kv Hkv) as (b & T & Eb & HR & Ehb & E1 & E2 & E3 & E4 & E5).
  set (D := batch_Write b (nofreezedb kv)) in *. pose proof (genesis_tab T E1 E2 E3) as HT.
  destruct pl_genesis as [HP E0]. set (hg := Header_Hash genesis) in *. pose proof (Header_Hash_u256 genesis) as Hu. fold hg in Hu.
  assert (hg ≠ 0) as Hn0 by (by apply pl_hash).
  set (hc0 := mkHeaderChain D zero zero 0 lru_New lru_New lru_New).
  assert (backed hc0 T) as Hbk0.
  { split; [done|done|]. split; cbn; intros k v Hk; by destruct (lru_New_empty _ _ Hk). }
  destruct (GetHeader_spec hc0 T hg 0 Hbk0) as (r & hc1 & G1 & Hs1 & Hc1 & Hr & _); [done|done|].
  specialize (Hr genesis). rewrite E1, lookup_singleton_eq in Hr. specialize (Hr eq_refl). subst r.
  pose proof (backed_same _ _ _ Hbk0 Hs1 Hc1) as Hbk1. set (hc2 := set_head genesis 0 (SetGenesis genesis hc1)).
  assert (backed hc2 T) as Hbk2 by (destruct Hbk1 as [? ? []]; by split).
  destruct (GetBlockNumber_spec hc2 T hg Hbk2 Hu) as (hc3 & G3 & Hs3 & Hc3). rewrite E3, lookup_singleton_eq in G3.
  pose proof (backed_same _ _ _ Hbk2 Hs3 Hc3) as Hbk3.
  destruct (GetHeader_spec hc3 T hg 0 Hbk3) as (r & hc4 & G4 & Hs4 & Hc4 & Hr & _); [done|done|].
  specialize (Hr genesis). rewrite E1, lookup_singleton_eq in Hr. specialize (Hr eq_refl). subst r.
  pose proof (backed_same _ _ _ Hbk3 Hs4 Hc4) as Hbk4. exists b, (set_head genesis hg hc4), T. split; [done|]. split_and!; [| |done].
  - unfold NewHeaderChain. fold D. fold hc0. unfold GetHeaderByNumber.
    assert (ReadCanonicalHash (hc_chainDb hc0) 0 = hg) as ->
      by (cbn [hc0 hc_chainDb]; rewrite (ReadCanonicalHash_spec D T HR) by done; by rewrite E4).
    rewrite (proj2 (Z.eqb_neq hg 0) Hn0), G1. cbv zeta. fold hc2. rewrite Ehb. fold hg.
    rewrite (proj2 (Z.eqb_neq hg 0) Hn0). unfold GetHeaderByHash, sbind. rewrite G3, G4. done.
  - split; cbn.
    + by apply backed_set_head.
    + split; rewrite ?E1, ?E4, ?E5, ?E0, ?lookup_singleton_eq; try done.
      intros n h [<- <-]%lookup_singleton_Some. split; [lia|]. exists genesis. rewrite lookup_singleton_eq. done.
    + done.
    + destruct Hs4 as (_ & -> & _), Hs3 as (_ & -> & _). done.
    + intros z Hz. rewrite E1 in Hz. apply lookup_singleton_Some in Hz as [_ <-]. intros [_ ?]. lia.
Qed.

(** States of a chain opened on a committed genesis. *)
Definition reachable hc : Prop := ∃ (config : bytes) (kv : gmap bytes bytes) zero b hc0, (∀ k v, kv !! k = Some v → foreign k) ∧
  genesis_Commit config (Some (hd_Difficulty genesis)) genesis [] = Ret (Ok b) ∧
  NewHeaderChain (batch_Write b (nofreezedb kv)) zero = XRet (Ok hc0) ∧ rtc hstep hc0 hc.

Lemma reachable_ok hc : reachable hc → ∃ T, chain_ok hc T.
Proof.
  intros (config & kv & zero & b & hc0 & Hkv & Eb & E & Hs). destruct (NewHeaderChain_genesis config kv zero Hkv) as (b' & hc0' & T & Eb' & E' & Hok & _).
  assert (b' = b) as -> by congruence. assert (hc0' = hc0) as -> by congruence. apply (hsteps_ok hc0); eauto.
Qed.

Definition heaviest hc : Prop := ∀ z t tx, in_play z → known hc z → total_difficulty hc z = Some t →
  total_difficulty hc (hc_currentHeader hc) = Some tx → t ≤ tx.

Lemma heaviest_inserted hc T hc' T' hs coin :
  chain_ok hc T → chain_ok hc' T' → Forall in_play hs → hs ≠ [] →
  inserted T (hc_currentHeader hc) hs coin T' (hc_currentHeader hc') → heaviest hc → heaviest hc'.
Proof.
  intros Hok Hok' HF Hne [I1 I2 I3 (td & td' & Htd & Htd' & Ech) I5] Hh z t tx HzP Hz Ht Htx.
  pose proof (ok_backed _ _ Hok) as Hbk. pose proof (ok_backed _ _ Hok') as Hbk'. set (x := hc_currentHeader hc) in *.
  pose proof (stored_P T (bk_tab _ _ Hbk) x (ci_stored _ _ (ok_canon _ _ Hok))) as HxP.
  assert (in_play (hc_currentHeader hc')) as HxP' by exact (stored_P T' (bk_tab _ _ Hbk') _ (ci_stored _ _ (ok_canon _ _ Hok'))).
  rewrite (td_read hc' T' z Hbk' HzP) in Ht. rewrite (td_read hc' T' _ Hbk' HxP') in Htx.
  apply (known_stored hc' T' z Hbk' HzP) in Hz.
  assert (t ≤ Z.max td td') as Hmax.
  { destruct (I3 z Hz) as [Hzo|Hzn]; [|pose proof (I5 z t td' Hzn Ht Htd'); lia].
    destruct (I1 z Hzo) as [_ E]. rewrite E in Ht. assert (t ≤ td); [|lia].
    apply (Hh z); [done|by eapply stored_known|by rewrite (td_read hc T z Hbk HzP)|by rewrite (td_read hc T (hc_currentHeader hc) Hbk HxP)]. }
  destruct (I1 x (ci_stored _ _ (ok_canon _ _ Hok))) as [_ Ex].
  destruct (wants_reorg td' td _ _ coin) eqn:Er; rewrite Ech in Htx.
  - apply wants_reorg_le in Er. assert (tx = td') by congruence. lia.
  - apply wants_reorg_ge in Er. assert (tx = td) by congruence. lia.
Qed.

Lemma known_inserted hc T hc' T' hs coin x' :
  chain_ok hc T → chain_ok hc' T' → inserted T (hc_currentHeader hc) hs coin T' x' →
  ∀ z, in_play z → known hc' z ↔ known hc z ∨ z ∈ hs.
Proof.
  intros Hok Hok' [I1 I2 I3 _ _] z Hz.
  rewrite (known_stored hc' T' z (ok_backed _ _ Hok') Hz), (known_stored hc T z (ok_backed _ _ Hok) Hz). split; [apply I3|].
  intros [Hzo|Hzn]; [by apply I1|]. rewrite Forall_forall in I2. by apply I2.
Qed.

(** The [k]-th ancestor along the parent links of the stored headers. *)
Fixpoint nth_ancestor hc (k : nat) x : option Header :=
  match k with
  | O => Some x
  | S k => match ReadHeader (hc_chainDb hc) (hd_ParentHash x) (hd_Number x - 1) with
           | Some p => nth_ancestor hc k p | None => None end
  end.
Lemma nth_ancestor_anc hc T k : backed hc T → ∀ x, stored T x → Z.of_nat k ≤ hd_Number x → nth_ancestor hc k x = anc T k x.
Proof.
  intros Hbk. pose proof (bk_tab _ _ Hbk) as HT. induction k as [|k IH]; intros x Hx Hk; [done|].
  pose proof (stored_P T HT x Hx) as HxP. pose proof (pl_number x HxP).
  cbn [nth_ancestor anc]. rewrite (ReadHeader_spec _ T (bk_rep _ _ Hbk)) by (first [split; lia|by apply hw_parent, pl_wf]).
  destruct (t_headers T !! (hd_Number x - 1, hd_ParentHash x)) as [p|] eqn:E; [|done].
  destruct (stored_at T HT _ _ _ E) as (Hp & En & _). apply IH; [done|lia].
Qed.

(** ** Claims *)

(** C9: opened on a database with a committed genesis, the header chain
    keeps one canonical chain through any sequence of the steps [hstep]:
    verified insertions (whatever the fork, the batch and the tie-breaking
    coin) that are not a replay and, once they started to write, are not
    interrupted; rewinds with callbacks that write elsewhere; and cached
    lookups.  Each number up to the head has a marker, it names a stored header
    of that number whose parent is the marker below, down to the genesis; no
    marker is above the head; the head in memory, on disk and in the markers
    agree; and the total difficulty of every stored header is its parent's plus
    its own.  A replay (a segment of known headers, at least as heavy as the
    head and not the head) and an insertion interrupted inside [writeHeaders]
    do break the chain: [replayed_tie], [replayed_after_rewind],
    [aborted_insert_is_cached]. *)
Theorem header_chain_stays_canonical (config : bytes) (kv : gmap bytes bytes) zero :
  (∀ k v, kv !! k = Some v → foreign k) →
  ∃ b hc0, genesis_Commit config (Some (hd_Difficulty genesis)) genesis [] = Ret (Ok b) ∧
    NewHeaderChain (batch_Write b (nofreezedb kv)) zero = XRet (Ok hc0) ∧ hc_currentHeader hc0 = genesis ∧
    ∀ hc, rtc hstep hc0 hc → chain_good hc.
Proof.
  intros Hkv. destruct (NewHeaderChain_genesis config kv zero Hkv) as (b & hc0 & T & Eb & E & Hok & Hg). exists b, hc0.
  split_and!; try done. intros hc Hs. destruct (hsteps_ok hc0 hc Hs) as [T' Hok']; [eauto|]. by eapply chain_ok_good.
Qed.

(** C10: inserting headers that are not a replay always returns.  If a header
    is rejected the database and the head are as before.  Otherwise all of them
    are stored, nothing else is, and the head is the last of them exactly when
    its total difficulty exceeds the old head's, or ties with it at a lower
    number, or ties at the same number and the coin says so; in particular a
    head that was the heaviest stored header is replaced by one that is. *)
Theorem insertion_follows_fork_choice HashCZZ e now factors fuel intn interrupts interrupt coin first rest checkFreq hc :
  reachable hc → verifies e checkFreq intn → Forall in_play (first :: rest) → ¬ replay hc (first :: rest) → enough fuel hc first →
  let x := hc_currentHeader hc in
  let l := top x (first :: rest) in
  ∃ r hc', validate_and_insert (ethash_verify HashCZZ e now factors) fuel intn interrupts interrupt false coin (first :: rest)
      checkFreq hc = XRet (r, hc') ∧
    match snd r with
    | Some _ => hc_chainDb hc' = hc_chainDb hc ∧ hc_currentHeader hc' = x
    | None =>
        (∀ z, in_play z → known hc' z ↔ known hc z ∨ z ∈ first :: rest) ∧ (heaviest hc → heaviest hc') ∧
        ∃ td td', total_difficulty hc x = Some td ∧ total_difficulty hc' l = Some td' ∧
          hc_currentHeader hc' = if wants_reorg td' td (hd_Number l) (hd_Number x) coin then l else x
    end.
Proof.
  intros Hr Hv HF Hrep Hf x l. destruct (reachable_ok hc Hr) as [T Hok].
  destruct (insert_step HashCZZ e now factors fuel intn interrupts interrupt coin first rest checkFreq hc T Hok Hv HF Hrep Hf)
    as (r & hc' & E & Hres). exists r, hc'. split; [done|]. destruct (snd r); [by destruct Hres as ((? & _ & ? & _) & _)|].
  destruct Hres as (T' & Hok' & Hin). split; [by eapply known_inserted|]. split; [by eapply heaviest_inserted|].
  destruct Hin as [_ _ _ (td & td' & H1 & H2 & H3) _]. exists td, td'. fold x l in H1, H2, H3.
  assert (in_play l) by (by apply (Forall_top in_play)).
  assert (in_play x) by exact (stored_P T (bk_tab _ _ (ok_backed _ _ Hok)) x (ci_stored _ _ (ok_canon _ _ Hok))).
  by rewrite (td_read hc T x (ok_backed _ _ Hok)), (td_read hc' T' l (ok_backed _ _ Hok')).
Qed.


(** C12: [GetAncestor], which jumps along the canonical markers once it
    reaches them, finds the ancestor that the parent links lead to, or nothing
    when it ran into its limit of non-canonical headers; it never finds another
    block, and with a limit of at least the distance it always finds it. *)
Theorem ancestors_follow_parents hc x k maxNC :
  reachable hc → in_play x → known hc x → 0 ≤ k ≤ hd_Number x → 0 ≤ maxNC →
  ∃ y a m mx hc', nth_ancestor hc (Z.to_nat k) x = Some y ∧ hd_Number y = hd_Number x - k ∧
    GetAncestor (Header_Hash x) (hd_Number x) k maxNC hc = XRet ((a, m, mx), hc') ∧ hc_chainDb hc' = hc_chainDb hc ∧
    ((a, m) = (Header_Hash y, hd_Number y) ∨ (a, m) = (0, 0) ∧ maxNC < k).
Proof.
  intros Hr Hx Hk Hkr Hm. destruct (reachable_ok hc Hr) as [T Hok]. pose proof (ok_backed _ _ Hok) as Hbk.
  apply (known_stored hc T x Hbk Hx) in Hk.
  destruct (GetAncestor_spec hc T x k maxNC Hok Hk Hkr Hm) as (y & a & m & mx & hc' & Ha & E & (Hs & _) & _ & Hres).
  destruct (anc_total T (Z.to_nat k) (bk_tab _ _ Hbk) x Hk ltac:(lia)) as (y' & Ha' & _ & Hn). assert (y' = y) as -> by congruence.
  exists y, a, m, mx, hc'. rewrite (nth_ancestor_anc hc T _ Hbk x Hk) by lia. split_and!; try done. lia.
Qed.

End Theorems.

(** ** A concrete chain *)

(** A cache of two entries, most recent first. *)
Section ListLru.
Context {A : Type}.
Implicit Types (c : list (hash * A)).

Fixpoint ll_find (k : hash) c : option A :=
  match c with [] => None | (j, v) :: c => if decide (j = k) then Some v else ll_find k c end.
Fixpoint ll_drop (k : hash) c : list (hash * A) :=
  match c with [] => [] | (j, v) :: c => if decide (j = k) then ll_drop k c else (j, v) :: ll_drop k c end.

#[export] Instance list_lru : LruCache A := {|
  lru := list (hash * A);
  lru_New := [];
  lru_Get k c := match ll_find k c with Some v => (Some v, (k, v) :: ll_drop k c) | None => (None, c) end;
  lru_Contains k c := bool_decide (is_Some (ll_find k c));
  lru_Add k v c := take 2 ((k, v) :: ll_drop k c);
  lru_Purge _ := []
|}.

Lemma ll_has c k v : @lru_has A list_lru c k v ↔ ll_find k c = Some v.
Proof. unfold lru_has. cbn. destruct (ll_find k c); cbn; naive_solver. Qed.

Lemma ll_find_drop k k' c v : ll_find k (ll_drop k' c) = Some v → k ≠ k' ∧ ll_find k c = Some v.
Proof.
  induction c as [|[j w] c IH]; [done|]. cbn. destruct (decide (j = k')) as [->|Hj].
  - intros [Hk H]%IH. split; [done|]. by destruct (decide (k' = k)); [subst|].
  - cbn. destruct (decide (j = k)) as [->|]; [done|apply IH].
Qed.
Lemma ll_find_take n k c v : ll_find k (take n c) = Some v → ll_find k c = Some v.
Proof.
  revert n. induction c as [|[j w] c IH]; intros [|n]; try done. cbn. destruct (decide (j = k)); [done|apply IH].
Qed.

#[export] Instance list_lru_ok : LruCacheOk list_lru.
Proof.
  split.
  - intros k v H. by apply ll_has in H.
  - intros c k k' v H. apply ll_has. apply ll_has in H. cbn in H. destruct (ll_find k c) as [w|] eqn:E; cbn in H; [|done].
    destruct (decide (k = k')) as [->|]; [congruence|by apply ll_find_drop in H as [_ ?]].
  - intros c k v k' v' H. apply ll_has in H. cbn in H. apply (ll_find_take 2 k' ((k, v) :: ll_drop k c)) in H.
    cbn in H. destruct (decide (k = k')) as [->|]; [left; split; congruence|right].
    apply ll_has. by apply ll_find_drop in H as [_ ?].
  - intros c k H. cbn in H. apply bool_decide_eq_true in H as [v Hv]. exists v. by apply ll_has.
  - intros c k v H. by apply ll_has in H.
Qed.
End ListLru.

(** A genesis, two blocks on it and two competitors of the first: one as heavy,
    one heavier. *)
Definition demo_block (parent : Header) (t : Z) (extra : bytes) : Header :=
  mkHeader (Header_Hash parent) 7 0 0 0 (repeat 0 256) (calcDifficulty t parent) (hd_Number parent + 1) 8000000 0 t extra
    (EncodeNonce 5) None.
Definition demo_genesis : Header :=
  mkHeader 0 7 0 0 0 (repeat 0 256) 300000000 0 8000000 0 1000 [] (EncodeNonce 5) None.
Definition demo_a1 : Header := demo_block demo_genesis 1020 [].
Definition demo_a2 : Header := demo_block demo_a1 1040 [].
Definition demo_b1 : Header := demo_block demo_genesis 1020 [1].
Definition demo_c1 : Header := demo_block demo_genesis 1001 [2].
Definition demo_headers : list Header := [demo_genesis; demo_a1; demo_a2; demo_b1; demo_c1].

Ltac demo_all := repeat (apply List.Forall_cons; [vm_compute; repeat split; congruence|]); apply List.Forall_nil.

Lemma demo_wf_all : Forall header_wf demo_headers.
Proof. repeat (apply List.Forall_cons; [solve_header_wf|]). apply List.Forall_nil. Qed.

#[export] Instance demo_play : Play.
Proof.
  refine (mkPlay _ (λ x, x ∈ demo_headers) demo_genesis _ _ _ _ _ _).
  - intros x Hx. pose proof demo_wf_all as H. rewrite Forall_forall in H. by apply H.
  - intros x Hx. assert (Forall (λ x, 0 ≤ hd_Number x < 2 ^ 64 - 1) demo_headers) as H by demo_all.
    rewrite Forall_forall in H. by apply H.
  - intros x Hx. assert (Forall (λ x, 0 ≤ hd_Difficulty x < 2 ^ 80 ∧ (hd_Number x ≠ 0 → 0 < hd_Difficulty x)) demo_headers) as H
      by demo_all.
    rewrite Forall_forall in H. by apply H.
  - intros x Hx. assert (Forall (λ x, Header_Hash x ≠ 0) demo_headers) as H by demo_all.
    rewrite Forall_forall in H. by apply H.
  - intros x y Hx Hy E. assert (NoDup (Header_Hash <$> demo_headers)) as Hnd by (apply (bool_decide_unpack _); vm_compute; exact I).
    apply list_elem_of_lookup_1 in Hx as [i Hi]. apply list_elem_of_lookup_1 in Hy as [j Hj].
    assert (i = j) as ->; [|congruence]. apply (NoDup_lookup _ i j (Header_Hash x) Hnd); rewrite list_lookup_fmap.
    + by rewrite Hi.
    + by rewrite Hj, E.
  - split; [left|done].
Defined.

Definition demo_engine : Ethash := mkEthash ModeNormal 0 None.
Definition demo_verify : list Header → list bool → St HeaderChain (list (outcome (result header_error ()))) :=
  ethash_verify zero_pow demo_engine 2000 (λ _, None).
Definition demo_none : HeaderChain := mkHeaderChain (nofreezedb ∅) demo_genesis demo_genesis 0 lru_New lru_New lru_New.

(** The chain opened on a committed genesis. *)
Definition demo_open : HeaderChain :=
  match genesis_Commit [] (Some (hd_Difficulty demo_genesis)) demo_genesis [] with
  | Ret (Ok b) => match NewHeaderChain (batch_Write b (nofreezedb ∅)) demo_genesis with XRet (Ok hc) => hc | _ => demo_none end
  | _ => demo_none
  end.

(** One insertion, every seal checked; the state after it. *)
Definition demo_run {A} (m : St HeaderChain A) (hc : HeaderChain) : HeaderChain :=
  match m hc with XRet (_, hc') => hc' | _ => hc end.
Definition demo_insert (coin : bool) (chain : list Header) : St HeaderChain (Z * option chain_error) :=
  validate_and_insert demo_verify 10 (λ _, 0) (λ _, false) false false coin chain 1.

(** The head and the markers at the first three numbers. *)
Definition demo_view (hc : HeaderChain) : hash * list hash :=
  (hc_currentHeaderHash hc, map (λ n, ReadCanonicalHash (hc_chainDb hc) n) [0; 1; 2]).

(** Headers arrive, a fork that ties stays a side chain, a rewind goes back. *)
Example header_runs :
  let s1 := demo_run (demo_insert false [demo_a1]) demo_open in
  let s2 := demo_run (demo_insert false [demo_b1]) s1 in
  let s3 := demo_run (demo_insert false [demo_a1; demo_a2]) s2 in
  let s4 := demo_run (SetHead 10 1 None None) s3 in
  let s5 := demo_run (demo_insert false [demo_c1]) s4 in
  demo_view s1 = (Header_Hash demo_a1, [Header_Hash demo_genesis; Header_Hash demo_a1; 0]) ∧
  demo_view s2 = (Header_Hash demo_a1, [Header_Hash demo_genesis; Header_Hash demo_a1; 0]) ∧
  demo_view s3 = (Header_Hash demo_a2, [Header_Hash demo_genesis; Header_Hash demo_a1; Header_Hash demo_a2]) ∧
  demo_view s4 = (Header_Hash demo_a1, [Header_Hash demo_genesis; Header_Hash demo_a1; 0]) ∧
  demo_view s5 = (Header_Hash demo_c1, [Header_Hash demo_genesis; Header_Hash demo_c1; 0]).
Proof. vm_compute. done. Qed.

(** A known side chain that ties with the head is sent again and the coin
    falls its way: the head moves to it, the markers do not. *)
Example replayed_tie :
  let s1 := demo_run (demo_insert false [demo_b1]) (demo_run (demo_insert false [demo_a1]) demo_open) in
  demo_view (demo_run (demo_insert true [demo_b1]) s1) =
    (Header_Hash demo_b1, [Header_Hash demo_genesis; Header_Hash demo_a1; 0]).
Proof. vm_compute. done. Qed.

(** After a rewind a known side header may be heavier than the head; sent
    again, it becomes the head without any coin, and the markers stay. *)
Example replayed_after_rewind :
  let s1 := demo_run (demo_insert false [demo_c1]) (demo_run (demo_insert false [demo_a1; demo_a2]) demo_open) in
  let s2 := demo_run (SetHead 10 1 None None) s1 in
  demo_view s2 = (Header_Hash demo_a1, [Header_Hash demo_genesis; Header_Hash demo_a1; 0]) ∧
  demo_view (demo_run (demo_insert false [demo_c1]) s2) =
    (Header_Hash demo_c1, [Header_Hash demo_genesis; Header_Hash demo_a1; 0]).
Proof. vm_compute. done. Qed.

(** An insertion that is interrupted returns an error but leaves its headers
    in the caches; inserted again they count as known and never reach the
    database, although the head moves to them. *)
Example aborted_insert_is_cached :
  let s1 := demo_run (InsertHeaderChain 10 false true false [demo_a1]) demo_open in
  let s2 := demo_run (InsertHeaderChain 10 false false false [demo_a1]) s1 in
  hc_HasHeader (Header_Hash demo_a1) 1 s1 = true ∧ HasHeader (hc_chainDb s1) (Header_Hash demo_a1) 1 = false ∧
  demo_view s2 = (Header_Hash demo_a1, [Header_Hash demo_genesis; 0; 0]) ∧
  HasHeader (hc_chainDb s2) (Header_Hash demo_a1) 1 = false.
Proof. vm_compute. done. Qed.

(** [Rollback] moves the head only: the markers above it stay, and a header
    inserted on the new head does not remove them. *)
Example rollback_leaves_markers :
  let s1 := demo_run (demo_insert false [demo_a1; demo_a2]) demo_open in
  let s2 := demo_run (Rollback [Header_Hash demo_a1; Header_Hash demo_a2]) s1 in
  demo_view s2 = (Header_Hash demo_genesis, [Header_Hash demo_genesis; Header_Hash demo_a1; Header_Hash demo_a2]) ∧
  demo_view (demo_run (demo_insert false [demo_b1]) s2) =
    (Header_Hash demo_b1, [Header_Hash demo_genesis; Header_Hash demo_b1; Header_Hash demo_a2]).
Proof. vm_compute. done. Qed.

(** ** The claims on the concrete chain *)

#[local] Notation demo_call := (validate_and_insert (ethash_verify zero_pow demo_engine 2000 (λ _, None)) 10 (λ _, 0)
  (λ _, false) false false false [demo_a1; demo_a2] 1).
Definition demo_next : HeaderChain := demo_run demo_call demo_open.
Definition demo_result {A} (m : St HeaderChain A) (hc : HeaderChain) : option A :=
  match m hc with XRet (r, _) => Some r | _ => None end.
Lemma demo_ret {A} (m : St HeaderChain A) hc r hc' : m hc = XRet (r, hc') → demo_result m hc = Some r ∧ demo_run m hc = hc'.
Proof. unfold demo_result, demo_run. by intros ->. Qed.
Lemma demo_next_ret r hc' : demo_call demo_open = XRet (r, hc') → demo_result demo_call demo_open = Some r ∧ demo_next = hc'.
Proof. unfold demo_next. apply demo_ret. Qed.

Lemma demo_opened :
  ∃ b T, genesis_Commit [] (Some (hd_Difficulty genesis)) genesis [] = Ret (Ok b) ∧
    NewHeaderChain (batch_Write b (nofreezedb ∅)) demo_genesis = XRet (Ok demo_open) ∧ chain_ok demo_open T ∧
    hc_currentHeader demo_open = demo_genesis.
Proof.
  destruct (NewHeaderChain_genesis [] ∅ demo_genesis) as (b & hc & T & Eb & E & Hok & Hg); [done|].
  assert (demo_open = hc) as ->; [|by exists b, T]. unfold demo_open.
  change demo_genesis with genesis at 1 2. by rewrite Eb, E.
Qed.
Lemma demo_verifies : verifies demo_engine 1 (λ _, 0).
Proof. split; [done|split; [lia|intros _ i; lia]]. Qed.
Lemma demo_a_in_play : Forall in_play [demo_a1; demo_a2].
Proof. apply List.Forall_cons; [right; left|]. apply List.Forall_cons; [do 2 right; left|apply List.Forall_nil]. Qed.
Lemma demo_not_replay : ¬ replay demo_open [demo_a1; demo_a2].
Proof.
  intros (H & _). inversion H as [|? ? Hk _]. unfold known in Hk.
  assert (ReadHeader (hc_chainDb demo_open) (Header_Hash demo_a1) (hd_Number demo_a1) = None) by (vm_compute; reflexivity). congruence.
Qed.
Lemma demo_enough : enough 10 demo_open demo_a1.
Proof. destruct demo_opened as (_ & _ & _ & _ & _ & E). split; [rewrite E|]; vm_compute; congruence. Qed.
Lemma demo_step : hstep demo_open demo_next.
Proof.
  destruct demo_opened as (_ & T & _ & _ & Hok & _).
  destruct (insert_step zero_pow demo_engine 2000 (λ _, None) 10 (λ _, 0) (λ _, false) false false demo_a1 [demo_a2] 1
    demo_open T Hok demo_verifies demo_a_in_play demo_not_replay demo_enough) as (r & hc' & E & _).
  destruct (demo_next_ret _ _ E) as [_ ->].
  eapply (step_insert _ _ _ _ _ _ _ _ _ _ _ _ r _ _ demo_verifies demo_a_in_play demo_not_replay demo_enough). exact E.
Qed.
Lemma demo_reaches hc : rtc hstep demo_open hc → reachable hc.
Proof. intros Hs. destruct demo_opened as (b & T & Eb & E & _). by exists [], ∅, demo_genesis, b, demo_open. Qed.

Lemma demo_inserted : snd (default (0, Some errAborted) (demo_result demo_call demo_open)) = None.
Proof. vm_compute. reflexivity. Qed.
Lemma demo_next_head : hc_currentHeader demo_next = demo_a2.
Proof. vm_compute. reflexivity. Qed.

Lemma header_chain_stays_canonical_witness : chain_good demo_next ∧ hc_currentHeader demo_next = demo_a2.
Proof.
  split; [|exact demo_next_head].
  destruct (header_chain_stays_canonical [] ∅ demo_genesis) as (b & hc0 & Eb & E & _ & Hs); [intros k v H; discriminate H|].
  destruct demo_opened as (b' & _ & Eb' & E' & _). assert (b' = b) as -> by congruence. assert (demo_open = hc0) as E0 by congruence.
  apply Hs. rewrite <- E0. apply rtc_once, demo_step.
Defined.

Lemma insertion_follows_fork_choice_witness :
  ∃ r hc', demo_call demo_open = XRet (r, hc') ∧ snd r = None ∧ hc' = demo_next ∧
    ∀ z, in_play z → known demo_next z ↔ known demo_open z ∨ z ∈ [demo_a1; demo_a2].
Proof.
  destruct (insertion_follows_fork_choice zero_pow demo_engine 2000 (λ _, None) 10 (λ _, 0) (λ _, false) false false demo_a1
    [demo_a2] 1 demo_open (demo_reaches _ (rtc_refl _ _)) demo_verifies demo_a_in_play demo_not_replay demo_enough)
    as (r & hc' & E & Hres).
  destruct (demo_next_ret _ _ E) as [Hr <-].
  pose proof demo_inserted as Hi. rewrite Hr in Hi. cbn [default from_option id] in Hi. rewrite Hi in Hres.
  exists r, demo_next. destruct Hres as (H1 & _). split; [exact E|]. split; [exact Hi|]. split; [reflexivity|exact H1].
Defined.


Lemma demo_a2_known : known demo_next demo_a2 ∧ in_play demo_a2 ∧ hd_Number demo_a2 = 2.
Proof. split_and!; [unfold known; vm_compute; reflexivity|do 2 right; left|vm_compute; reflexivity]. Qed.
Lemma demo_a2_ancestor : nth_ancestor demo_next (Z.to_nat 2) demo_a2 = Some demo_genesis.
Proof. vm_compute. reflexivity. Qed.

Lemma ancestors_follow_parents_witness :
  ∃ a m mx hc', GetAncestor (Header_Hash demo_a2) (hd_Number demo_a2) 2 5 demo_next = XRet ((a, m, mx), hc') ∧
    (a, m) = (Header_Hash demo_genesis, hd_Number demo_genesis).
Proof.
  destruct demo_a2_known as (Hk & Hp & Hn).
  destruct (ancestors_follow_parents demo_next demo_a2 2 5 (demo_reaches _ (rtc_once _ _ demo_step)) Hp Hk)
    as (y & a & m & mx & hc' & Hy & _ & E & _ & Hres); [rewrite Hn; lia|lia|].
  exists a, m, mx, hc'. split; [exact E|]. pose proof demo_a2_ancestor as H. rewrite Hy in H. injection H as ->.
  destruct Hres as [Hres|[_ ?]]; [exact Hres|lia].
Defined.
