(* ===== verification/StateTransition.v ===== *)
(** * Applying a transaction (core/state_transition.go, core/gaspool.go, core/evm.go)

    Buying gas, the intrinsic gas, running the message, refunding and paying
    the miner, over the state database of this development.  The EVM's [Call]
    and [Create] are parameters with the contract the transition relies on. *)
From S2P Require Import Prelude Common RlpEncode RlpDecode Transaction AccessList StateObject Concrete StateDB.
From S2P Require Import StateRevert StateBalance Transfer StateEffect TeWaka TeWakaVm TeWakaProofs TeWakaSpec.
Import Bytes GoMath.
#[local] Existing Instance still_drift.

(** ** The gas pool *)

Definition AddGas (gp amount : Z) : outcome Z :=
  if MaxUint64 - amount <? gp then Panic else Ret (u64 (gp + amount)).

Definition SubGas (gp amount : Z) : option Z :=
  if gp <? amount then None else Some (u64 (gp - amount)).

(** ** Messages and errors *)

Record Message := mkMessage {
  msg_From : address;
  msg_To : option address;
  msg_GasPrice : Z;
  msg_GasFeeCap : option Z;
  msg_GasTipCap : option Z;
  msg_Gas : Z;
  msg_Value : Z;
  msg_Nonce : Z;
  msg_IsFake : bool;
  msg_Data : bytes;
  msg_AccessList : option (list (address * list hash))
}.

Inductive tx_error :=
| ErrNonceTooHigh | ErrNonceTooLow | ErrSenderNoEOA | ErrFeeCapVeryHigh | ErrTipVeryHigh | ErrTipAboveFeeCap
| ErrFeeCapTooLow | ErrInsufficientFunds | ErrGasLimitReached | ErrGasUintOverflow | ErrIntrinsicGas
| ErrInsufficientFundsForTransfer.

Record ExecutionResult := mkResult { er_UsedGas : Z; er_Err : option string; er_ReturnData : bytes }.

(** The block context and configuration a message runs in. *)
Record TxEnv := mkTxEnv {
  te_Coinbase : address;
  te_BaseFee : option Z;
  te_NoBaseFee : bool;
  te_isCIP1 : bool;
  te_precompiles : list address
}.

(** ** Intrinsic gas *)

Definition TxGas : Z := 21000.
Definition TxGasContractCreation : Z := 53000.
Definition TxDataZeroGas : Z := 4.
Definition TxDataNonZeroGasEIP2028 : Z := 16.
Definition TxAccessListAddressGas : Z := 2400.
Definition TxAccessListStorageKeyGas : Z := 1900.
Definition RefundQuotientEIP3529 : Z := 5.

Definition nonzero_bytes (data : bytes) : Z :=
  fold_left (λ nz b, if b =? 0 then nz else nz + 1) data 0.

Definition IntrinsicGas (data : bytes) (accessList : option (list (address * list hash)))
    (isContractCreation isCIP1 : bool) : result tx_error Z :=
  let gas := if isContractCreation then TxGasContractCreation else 0 in
  let gas := if isCIP1 then TxGas else gas in
  let with_data : result tx_error Z :=
    if 0 <? zlen data then
      let nz := nonzero_bytes data in
      if (MaxUint64 - gas) / TxDataNonZeroGasEIP2028 <? nz then Err ErrGasUintOverflow
      else
        let gas := u64 (gas + nz * TxDataNonZeroGasEIP2028) in
        let z := u64 (zlen data - nz) in
        if (MaxUint64 - gas) / TxDataZeroGas <? z then Err ErrGasUintOverflow
        else Ok (u64 (gas + z * TxDataZeroGas))
    else Ok gas in
  try! gas <- with_data;
  match accessList with
  | None => Ok gas
  | Some al =>
      let gas := u64 (gas + u64 (zlen al * TxAccessListAddressGas)) in
      Ok (u64 (gas + u64 (StorageKeys al * TxAccessListStorageKeyGas)))
  end.

(** ** The EVM behind the transition *)

Section Transition.
Context {B : Backend}.

(** A run of the EVM: returned data, gas left, error, state. *)
Definition evm_run : Type := StateDB → outcome (bytes * Z * option string * StateDB).

(** [evm.Call] and [evm.Create]: caller, callee, data, gas, value. *)
Class EvmCalls := {
  evm_Call : address → address → bytes → Z → Z → evm_run;
  evm_Create : address → bytes → Z → Z → evm_run
}.

(** A state the EVM can start from: sound, with a [uint64] refund counter. *)
Definition ready (s : StateDB) : Prop := sound s ∧ is_u64 (sd_refund s).

Definition keeps (gas : Z) (run : evm_run) : Prop :=
  ∀ s ret rest err s', ready s → run s = Ret (ret, rest, err, s') → 0 ≤ rest ≤ gas ∧ ready s'.

(** The EVM returns no more gas than it was given and keeps the state ready. *)
Class EvmCallsOk (X : EvmCalls) : Prop := {
  Call_keeps : ∀ from to data gas value,
    valid_addr from → valid_addr to → is_u64 gas → keeps gas (evm_Call from to data gas value);
  Create_keeps : ∀ from data gas value, valid_addr from → is_u64 gas → keeps gas (evm_Create from data gas value)
}.

(** [StateTransition]: the fields that change. *)
Record transition := mkTransition {
  st_gp : Z;
  st_gas : Z;
  st_initialGas : Z;
  st_state : StateDB
}.

Definition with_state (s : StateDB) (st : transition) : transition :=
  mkTransition (st_gp st) (st_gas st) (st_initialGas st) s.
Definition with_gas (g : Z) (st : transition) : transition :=
  mkTransition (st_gp st) g (st_initialGas st) (st_state st).
Definition with_gp (g : Z) (st : transition) : transition :=
  mkTransition g (st_gas st) (st_initialGas st) (st_state st).

Definition T (A : Type) : Type := transition → outcome (result tx_error A * transition).
Definition tret {A} (a : A) : T A := λ st, Ret (Ok a, st).
Definition tfail {A} (e : tx_error) : T A := λ st, Ret (Err e, st).
Definition tpanic {A} : T A := λ _, Panic.
Definition tbind {A C} (m : T A) (f : A → T C) : T C := λ st,
  match m st with
  | Ret (Ok a, st) => f a st
  | Ret (Err e, st) => Ret (Err e, st)
  | Panic => Panic
  end.
Notation "'tx!' x <- m ; k" := (tbind m (λ x, k))
  (at level 10, x pattern, m at level 200, k at level 200).
Definition tguard (b : bool) (e : tx_error) : T () := if b then tfail e else tret tt.
Definition tread {A} (f : StateDB → A * StateDB) : T A :=
  λ st, let '(a, s) := f (st_state st) in Ret (Ok a, with_state s st).
Definition tdo (f : StateDB → StateDB) : T () := λ st, Ret (Ok tt, with_state (f (st_state st)) st).

Context {X : EvmCalls}.

Definition buyGas (msg : Message) : T () :=
  let mgval := msg_Gas msg * msg_GasPrice msg in
  let balanceCheck := match msg_GasFeeCap msg with
                      | Some cap => msg_Gas msg * cap + msg_Value msg
                      | None => mgval
                      end in
  tx! have <- tread (GetBalance (msg_From msg));
  tx! _ <- tguard (big_Cmp have balanceCheck <? 0) ErrInsufficientFunds;
  tx! _ <- (λ st, match SubGas (st_gp st) (msg_Gas msg) with
                  | None => Ret (Err ErrGasLimitReached, st)
                  | Some gp => Ret (Ok tt, with_gp gp st)
                  end);
  tx! _ <- (λ st, Ret (Ok tt, mkTransition (st_gp st) (u64 (st_gas st + msg_Gas msg)) (msg_Gas msg) (st_state st)));
  tdo (SubBalance (msg_From msg) mgval).

(** A nil fee cap or tip cap is a nil dereference, as is a nil base fee. *)
Definition fee_checks (env : TxEnv) (msg : Message) : T () :=
  match msg_GasFeeCap msg, msg_GasTipCap msg with
  | Some cap, Some tip =>
      if negb (te_NoBaseFee env) || (0 <? bitlen (Z.abs cap)) || (0 <? bitlen (Z.abs tip)) then
        tx! _ <- tguard (256 <? bitlen (Z.abs cap)) ErrFeeCapVeryHigh;
        tx! _ <- tguard (256 <? bitlen (Z.abs tip)) ErrTipVeryHigh;
        tx! _ <- tguard (big_Cmp cap tip <? 0) ErrTipAboveFeeCap;
        match te_BaseFee env with
        | None => tpanic
        | Some baseFee => tguard (big_Cmp cap baseFee <? 0) ErrFeeCapTooLow
        end
      else tret tt
  | _, _ => tpanic
  end.

Definition preCheck (env : TxEnv) (msg : Message) : T () :=
  tx! _ <-
    (if msg_IsFake msg then tret tt
     else
       tx! stNonce <- tread (GetNonce (msg_From msg));
       tx! _ <- tguard (stNonce <? msg_Nonce msg) ErrNonceTooHigh;
       tx! _ <- tguard (msg_Nonce msg <? stNonce) ErrNonceTooLow;
       tx! codeHash <- tread (GetCodeHash (msg_From msg));
       tguard (negb (codeHash =? Keccak256Hash []) && negb (codeHash =? 0)) ErrSenderNoEOA);
  tx! _ <- fee_checks env msg;
  buyGas msg.

Definition gasUsed (st : transition) : Z := u64 (st_initialGas st - st_gas st).

Definition refundGas (refundQuotient : Z) (msg : Message) : T () := λ st,
  let refund := gasUsed st / refundQuotient in
  let refund := if sd_refund (st_state st) <? refund then sd_refund (st_state st) else refund in
  let st := with_gas (u64 (st_gas st + refund)) st in
  let remaining := st_gas st * msg_GasPrice msg in
  let st := with_state (AddBalance (msg_From msg) remaining (st_state st)) st in
  match AddGas (st_gp st) (st_gas st) with
  | Panic => Panic
  | Ret gp => Ret (Ok tt, with_gp gp st)
  end.

(** [evm.Call] or [evm.Create] on the transition's state. *)
Definition run_evm (run : Z → evm_run) : T (bytes * option string) := λ st,
  match run (st_gas st) (st_state st) with
  | Panic => Panic
  | Ret (ret, rest, err, s) => Ret (Ok (ret, err), with_gas rest (with_state s st))
  end.

Definition pay_miner (env : TxEnv) (msg : Message) : T () := λ st,
  match msg_GasFeeCap msg, msg_GasTipCap msg, te_BaseFee env with
  | Some cap, Some tip, Some baseFee =>
      let effectiveTip := BigMin tip (cap - baseFee) in
      Ret (Ok tt, with_state (AddBalance (te_Coinbase env) (gasUsed st * effectiveTip) (st_state st)) st)
  | _, _, _ => Panic
  end.

Definition execute (msg : Message) : T (bytes * option string) :=
  match msg_To msg with
  | None => run_evm (λ gas, evm_Create (msg_From msg) (msg_Data msg) gas (msg_Value msg))
  | Some to =>
      tx! n <- tread (GetNonce (msg_From msg));
      tx! _ <- tdo (SetNonce (msg_From msg) (u64 (n + 1)));
      run_evm (λ gas, evm_Call (msg_From msg) to (msg_Data msg) gas (msg_Value msg))
  end.

Definition TransitionDb (env : TxEnv) (msg : Message) : T ExecutionResult :=
  tx! _ <- preCheck env msg;
  tx! gas <- (λ st, Ret (IntrinsicGas (msg_Data msg) (msg_AccessList msg) (bool_decide (msg_To msg = None))
                           (te_isCIP1 env), st));
  tx! _ <- (λ st, if st_gas st <? gas then Ret (Err ErrIntrinsicGas, st)
                  else Ret (Ok tt, with_gas (u64 (st_gas st - gas)) st));
  tx! _ <- (if 0 <? msg_Value msg then
              tx! can <- tread (CanTransfer (msg_From msg) (msg_Value msg));
              tguard (negb can) ErrInsufficientFundsForTransfer
            else tret tt);
  tx! _ <- (λ st, match PrepareAccessList (msg_From msg) (msg_To msg) (te_precompiles env)
                          (default [] (msg_AccessList msg)) (st_state st) with
                  | Panic => Panic
                  | Ret s => Ret (Ok tt, with_state s st)
                  end);
  tx! (ret, vmerr) <- execute msg;
  tx! _ <- refundGas RefundQuotientEIP3529 msg;
  tx! _ <- pay_miner env msg;
  (λ st, Ret (Ok (mkResult (gasUsed st) vmerr ret), st)).

(** [NewStateTransition] starts without gas. *)
Definition ApplyMessage (env : TxEnv) (msg : Message) (gp : Z) (s : StateDB)
    : outcome (result tx_error ExecutionResult * transition) :=
  TransitionDb env msg (mkTransition gp 0 0 s).

End Transition.

(** ** Intrinsic gas *)

Lemma nonzero_bytes_range data : 0 ≤ nonzero_bytes data ≤ zlen data.
Proof.
  unfold nonzero_bytes, zlen.
  enough (∀ n, n ≤ fold_left (λ nz b, if b =? 0 then nz else nz + 1) data n ≤ n + Z.of_nat (length data)) as H
    by (specialize (H 0); lia).
  induction data as [|b data IH]; intros n; simpl; [lia|].
  destruct (b =? 0); [specialize (IH n)|specialize (IH (n + 1))]; lia.
Qed.

Lemma StorageKeys_nonneg al : 0 ≤ StorageKeys al.
Proof.
  unfold StorageKeys. enough (∀ n, 0 ≤ n → 0 ≤ fold_left (λ sum t, sum + zlen (snd t)) al n) as H by by apply H.
  induction al as [|t al IH]; intros n Hn; simpl; [done|]. apply IH. pose proof (zlen_nonneg (snd t)). lia.
Qed.

(** The exact price, before any wrap-around. *)
Definition data_gas (data : bytes) : Z :=
  nonzero_bytes data * TxDataNonZeroGasEIP2028 + (zlen data - nonzero_bytes data) * TxDataZeroGas.
Definition base_gas (creation cip1 : bool) : Z :=
  if cip1 then TxGas else if creation then TxGasContractCreation else 0.
Definition list_gas (al : option (list (address * list hash))) : Z :=
  match al with
  | None => 0
  | Some al => zlen al * TxAccessListAddressGas + StorageKeys al * TxAccessListStorageKeyGas
  end.

Lemma data_gas_nonneg data : 0 ≤ data_gas data.
Proof. pose proof (nonzero_bytes_range data). unfold data_gas, TxDataNonZeroGasEIP2028, TxDataZeroGas. lia. Qed.
Lemma list_gas_nonneg al : 0 ≤ list_gas al.
Proof.
  destruct al as [al|]; simpl; [|lia]. pose proof (zlen_nonneg al). pose proof (StorageKeys_nonneg al).
  unfold TxAccessListAddressGas, TxAccessListStorageKeyGas. lia.
Qed.

Lemma fits_div gas c n : 0 < c → 0 ≤ gas ≤ MaxUint64 → 0 ≤ n →
  ((MaxUint64 - gas) / c <? n) = (MaxUint64 <? gas + n * c).
Proof.
  intros Hc Hg Hn. destruct (Z.ltb_spec ((MaxUint64 - gas) / c) n) as [H|H].
  - symmetry. apply Z.ltb_lt. apply Z.nle_gt. intros Hle.
    assert (n ≤ (MaxUint64 - gas) / c) by (apply Z.div_le_lower_bound; lia). lia.
  - symmetry. apply Z.ltb_ge. assert (n * c ≤ MaxUint64 - gas); [|lia].
    pose proof (Z.mul_div_le (MaxUint64 - gas) c Hc). nia.
Qed.

Lemma IntrinsicGas_exact data al creation cip1 :
  zlen data < 2 ^ 64 → list_gas al ≤ MaxUint64 →
  base_gas creation cip1 + data_gas data + list_gas al ≤ MaxUint64 →
  IntrinsicGas data al creation cip1 = Ok (base_gas creation cip1 + data_gas data + list_gas al).
Proof.
  intros Hd Hl Hsum. pose proof (data_gas_nonneg data) as Hdg. pose proof (list_gas_nonneg al) as Hlg.
  assert (0 ≤ base_gas creation cip1) as Hb by (unfold base_gas; by destruct cip1, creation).
  unfold IntrinsicGas. cbv zeta.
  replace (if cip1 then TxGas else if creation then TxGasContractCreation else 0) with (base_gas creation cip1) by done.
  set (base := base_gas creation cip1) in *. pose proof (nonzero_bytes_range data) as Hnz.
  assert (∀ x, 0 ≤ x ≤ MaxUint64 → u64 x = x) as Hid.
  { intros x Hx. apply wrap_id. unfold in_w, MaxUint64 in *. lia. }
  set (gas1 := if 0 <? zlen data then _ else _).
  assert (gas1 = Ok (base + data_gas data)) as ->.
  { unfold gas1. destruct (Z.ltb_spec 0 (zlen data)) as [Hpos|Hz].
    - unfold data_gas, TxDataNonZeroGasEIP2028, TxDataZeroGas in *.
      rewrite fits_div by (lia || (unfold MaxUint64 in *; lia)).
      destruct (Z.ltb_spec MaxUint64 (base + nonzero_bytes data * 16)); [lia|].
      rewrite (Hid (base + nonzero_bytes data * 16)) by lia.
      rewrite (Hid (zlen data - nonzero_bytes data)) by (unfold MaxUint64; lia).
      rewrite fits_div by lia.
      destruct (Z.ltb_spec MaxUint64 (base + nonzero_bytes data * 16 + (zlen data - nonzero_bytes data) * 4)); [lia|].
      rewrite Hid by lia. f_equal. lia.
    - assert (data_gas data = 0) as ->; [|by rewrite Z.add_0_r].
      unfold data_gas. pose proof (zlen_nonneg data). replace (nonzero_bytes data) with 0 by lia.
      replace (zlen data) with 0 by lia. done. }
  cbn [rbind]. destruct al as [al|]; [|f_equal; simpl; lia].
  cbn [list_gas] in *. pose proof (zlen_nonneg al). pose proof (StorageKeys_nonneg al).
  unfold TxAccessListAddressGas, TxAccessListStorageKeyGas in *.
  rewrite (Hid (zlen al * 2400)), (Hid (StorageKeys al * 1900)) by lia.
  rewrite (Hid (base + data_gas data + zlen al * 2400)) by lia. rewrite Hid by lia. f_equal. lia.
Qed.

Lemma IntrinsicGas_overflow data al creation cip1 :
  zlen data < 2 ^ 64 → MaxUint64 < base_gas creation cip1 + data_gas data →
  IntrinsicGas data al creation cip1 = Err ErrGasUintOverflow.
Proof.
  intros Hd Hsum. pose proof (nonzero_bytes_range data) as Hnz.
  assert (0 ≤ base_gas creation cip1 ≤ MaxUint64) as Hb by (unfold base_gas; by destruct cip1, creation).
  unfold IntrinsicGas. cbv zeta.
  replace (if cip1 then TxGas else if creation then TxGasContractCreation else 0) with (base_gas creation cip1) by done.
  set (base := base_gas creation cip1) in *.
  unfold data_gas, TxDataNonZeroGasEIP2028, TxDataZeroGas in *.
  destruct (Z.ltb_spec 0 (zlen data)) as [Hpos|Hz]; [|lia].
  rewrite fits_div by lia. destruct (Z.ltb_spec MaxUint64 (base + nonzero_bytes data * 16)); [done|].
  assert (u64 (base + nonzero_bytes data * 16) = base + nonzero_bytes data * 16) as ->.
  { apply wrap_id. unfold in_w, MaxUint64 in *. lia. }
  assert (u64 (zlen data - nonzero_bytes data) = zlen data - nonzero_bytes data) as ->.
  { apply wrap_id. unfold in_w. lia. }
  rewrite fits_div by lia.
  destruct (Z.ltb_spec MaxUint64 (base + nonzero_bytes data * 16 + (zlen data - nonzero_bytes data) * 4)); [done|lia].
Qed.

Lemma IntrinsicGas_range data al creation cip1 g :
  IntrinsicGas data al creation cip1 = Ok g → 0 ≤ g.
Proof.
  unfold IntrinsicGas. cbv zeta. intros H. apply rbind_ok in H as (g0 & H0 & H).
  destruct al as [al|].
  - injection H as <-. unfold u64, wrap. by apply Z.mod_pos_bound.
  - injection H as <-. destruct (0 <? zlen data).
    + destruct (_ <? _) in H0; [done|]. destruct (_ <? _) in H0; [done|]. injection H0 as <-.
      unfold u64, wrap. by apply Z.mod_pos_bound.
    + injection H0 as <-. by destruct cip1, creation.
Qed.

(** ** Accounting *)

Section Accounting.
Context {B : Backend} {BOk : BackendOk B} {X : EvmCalls} {XOk : EvmCallsOk X}.

Lemma tbind_inv {A C} (m : T A) (f : A → T C) st c st' :
  tbind m f st = Ret (Ok c, st') → ∃ a st1, m st = Ret (Ok a, st1) ∧ f a st1 = Ret (Ok c, st').
Proof. unfold tbind. destruct (m st) as [[[a|e] st1]|]; try done. eauto. Qed.

Lemma tguard_inv b e st u st' : tguard b e st = Ret (Ok u, st') → b = false ∧ st' = st.
Proof. unfold tguard, tfail, tret. destruct b; [done|]. by intros [= _ <-]. Qed.

Lemma ready_inv s : ready s → inv s.
Proof. by intros [[]]. Qed.
Lemma ready_eff st s s' : ready s → eff st s s' → ready s'.
Proof. intros [Hs Hr] He. destruct (He Hs). split; auto. Qed.

(** The state was only read: caches aside, every account is the same. *)
Definition same (s t : StateDB) : Prop := ready t ∧ ∀ b, live t b = live s b.

Lemma same_trans s t u : same s t → same t u → same s u.
Proof. intros [_ H1] [H2 H3]. split; [done|]. intros b. by rewrite H3, H1. Qed.

Lemma same_bal s t b : same s t → bal t b = bal s b.
Proof. intros [_ H]. unfold bal. by rewrite H. Qed.

Lemma same_get a s : ready s → valid_addr a → same s (snd (getStateObject a s)).
Proof.
  intros Hi Ha. destruct (getStateObject_frame a s (ready_inv s Hi) Ha) as (H1 & H2 & _). split; [|done].
  eapply ready_eff; [exact Hi|by apply (eff_get False)].
Qed.

Lemma GetBalance_same a s : ready s → valid_addr a → same s (snd (GetBalance a s)).
Proof.
  intros Hi Ha. pose proof (same_get a s Hi Ha) as H. unfold GetBalance. by destruct (getStateObject a s).
Qed.
Lemma GetNonce_same a s : ready s → valid_addr a → same s (snd (GetNonce a s)).
Proof.
  intros Hi Ha. pose proof (same_get a s Hi Ha) as H. unfold GetNonce. by destruct (getStateObject a s).
Qed.
Lemma GetCodeHash_same a s : ready s → valid_addr a → same s (snd (GetCodeHash a s)).
Proof.
  intros Hi Ha. pose proof (same_get a s Hi Ha) as H. unfold GetCodeHash. by destruct (getStateObject a s).
Qed.

Lemma tread_inv {A} (f : StateDB → A * StateDB) st a st' :
  tread f st = Ret (Ok a, st') → a = fst (f (st_state st)) ∧ st' = with_state (snd (f (st_state st))) st.
Proof. unfold tread. destruct (f (st_state st)) as [x s]. by intros [= <- <-]. Qed.

Lemma AddAddress_same a s : ready s → same s (AddAddressToAccessList a s).
Proof.
  intros Hi. split; [eapply ready_eff; [exact Hi|apply (eff_AddAddress False)]|].
  intros b. unfold AddAddressToAccessList. by destruct (AddAddress _ _) as [[|] ?].
Qed.

Lemma AddSlot_same a k s : ready s → ∃ s', AddSlotToAccessList a k s = Ret s' ∧ same s s'.
Proof.
  intros Hi. destruct (AddSlotToAccessList_good a k s (ready_inv s Hi)) as (s' & E & _). exists s'. split; [done|].
  split; [eapply ready_eff; [exact Hi|by apply (eff_AddSlot False a k)]|]. intros b. unfold AddSlotToAccessList in E.
  destruct (AddSlot _ _ _) as [[[am sm] al]|]; [|done]. simpl in E. injection E as <-.
  by destruct am, sm.
Qed.

Lemma add_slots_same a keys s : ready s → ∃ s', add_slots a keys s = Ret s' ∧ same s s'.
Proof.
  revert s. induction keys as [|k keys IH]; intros s Hi; simpl; [by exists s|].
  destruct (AddSlot_same a k s Hi) as (s1 & -> & H1). destruct (IH s1 (proj1 H1)) as (s2 & E2 & H2).
  exists s2. split; [done|]. by eapply same_trans.
Qed.

Lemma add_tuples_same l s : ready s → ∃ s', add_tuples l s = Ret s' ∧ same s s'.
Proof.
  revert s. induction l as [|[a keys] l IH]; intros s Hi; simpl; [by exists s|].
  pose proof (AddAddress_same a s Hi) as H0.
  destruct (add_slots_same a keys _ (proj1 H0)) as (s1 & -> & H1). destruct (IH s1 (proj1 H1)) as (s2 & E2 & H2).
  exists s2. split; [done|]. eapply same_trans; [done|]. by eapply same_trans.
Qed.

Lemma PrepareAccessList_same sender dst pre l s :
  ready s → ∃ s', PrepareAccessList sender dst pre l s = Ret s' ∧ same s s'.
Proof.
  intros Hi. unfold PrepareAccessList. pose proof (AddAddress_same sender s Hi) as H0.
  set (s1 := AddAddressToAccessList sender s) in *.
  assert (same s (match dst with Some d => AddAddressToAccessList d s1 | None => s1 end)) as H1.
  { destruct dst as [d|]; [|done]. eapply same_trans; [done|]. apply AddAddress_same, H0. }
  set (s2 := match dst with Some _ => _ | None => _ end) in *.
  assert (same s (fold_left (λ s a, AddAddressToAccessList a s) pre s2)) as H2.
  { clearbody s2. clear s1 H0. revert s2 H1. induction pre as [|a pre IH]; intros s2 H1; simpl; [done|].
    apply IH. eapply same_trans; [done|]. apply AddAddress_same, H1. }
  destruct (add_tuples_same l _ (proj1 H2)) as (s3 & E & H3). exists s3. split; [done|]. by eapply same_trans.
Qed.

Lemma fee_checks_inv env msg st u st' :
  fee_checks env msg st = Ret (Ok u, st') →
  st' = st ∧ ∃ cap tip, msg_GasFeeCap msg = Some cap ∧ msg_GasTipCap msg = Some tip.
Proof.
  unfold fee_checks. destruct (msg_GasFeeCap msg) as [cap|]; [|done].
  destruct (msg_GasTipCap msg) as [tip|]; [|done]. intros H. split; [|eauto].
  destruct (_ || _); [|by injection H as _ <-].
  do 3 (apply tbind_inv in H as (? & ? & H1 & H); apply tguard_inv in H1 as [_ ->]).
  destruct (te_BaseFee env); [|done]. by apply tguard_inv in H as [_ ->].
Qed.

Lemma buyGas_inv msg st u st' :
  ready (st_state st) → valid_addr (msg_From msg) → is_u64 (msg_Gas msg) → is_u64 (st_gp st) → st_gas st = 0 →
  buyGas msg st = Ret (Ok u, st') →
  msg_Gas msg ≤ st_gp st ∧ st_gp st' = st_gp st - msg_Gas msg ∧
  st_gas st' = msg_Gas msg ∧ st_initialGas st' = msg_Gas msg ∧ ready (st_state st') ∧
  (∀ b, bal (st_state st') b = bal (st_state st) b - add_at (msg_From msg) (msg_Gas msg * msg_GasPrice msg) b) ∧
  (∀ cap, msg_GasFeeCap msg = Some cap →
     msg_Gas msg * cap + msg_Value msg ≤ bal (st_state st) (msg_From msg)).
Proof.
  intros Hi Ha Hg Hgp H0 H. unfold buyGas in H.
  apply tbind_inv in H as (have & st1 & H1 & H). apply tread_inv in H1 as [-> ->].
  rewrite GetBalance_bal in H by auto using ready_inv.
  pose proof (GetBalance_same _ _ Hi Ha) as Hsame. set (s1 := snd (GetBalance _ _)) in *.
  apply tbind_inv in H as (? & ? & H1 & H). apply tguard_inv in H1 as [Hfunds ->].
  apply tbind_inv in H as (? & st2 & H1 & H). cbn [st_gp with_state] in H1.
  unfold SubGas in H1. destruct (Z.ltb_spec (st_gp st) (msg_Gas msg)) as [|Hle]; [done|].
  injection H1 as _ <-. apply tbind_inv in H as (? & st3 & H1 & H). injection H1 as _ <-.
  injection H as _ <-. cbn. rewrite H0. unfold in_w in *.
  assert (u64 (st_gp st - msg_Gas msg) = st_gp st - msg_Gas msg) as -> by (apply wrap_id; unfold in_w; lia).
  assert (u64 (0 + msg_Gas msg) = msg_Gas msg) as -> by (apply wrap_id; unfold in_w; lia).
  split; [done|]. do 3 (split; [done|]). split; [eapply ready_eff; [apply Hsame|by apply (eff_SubBalance False)]|]. split.
  - intros b. rewrite SubBalance_bal by (done || apply ready_inv, Hsame). by rewrite (same_bal _ _ _ Hsame).
  - intros cap Hcap. rewrite Hcap in Hfunds. unfold big_Cmp in Hfunds.
    destruct (Z.ltb_spec (bal (st_state st) (msg_From msg)) (msg_Gas msg * cap + msg_Value msg)); [done|lia].
Qed.

Lemma preCheck_inv env msg gp s u st' :
  ready s → valid_addr (msg_From msg) → is_u64 (msg_Gas msg) → is_u64 gp →
  preCheck env msg (mkTransition gp 0 0 s) = Ret (Ok u, st') →
  ∃ cap tip, msg_GasFeeCap msg = Some cap ∧ msg_GasTipCap msg = Some tip ∧
  msg_Gas msg ≤ gp ∧ st_gp st' = gp - msg_Gas msg ∧
  st_gas st' = msg_Gas msg ∧ st_initialGas st' = msg_Gas msg ∧ ready (st_state st') ∧
  (∀ b, bal (st_state st') b = bal s b - add_at (msg_From msg) (msg_Gas msg * msg_GasPrice msg) b) ∧
  msg_Gas msg * cap + msg_Value msg ≤ bal s (msg_From msg).
Proof.
  intros Hi Ha Hg Hgp H. unfold preCheck in H. apply tbind_inv in H as (? & st1 & H1 & H).
  assert (∃ t, st1 = mkTransition gp 0 0 t ∧ same s t) as (t & -> & Hsame).
  { destruct (msg_IsFake msg); [injection H1 as _ <-; by exists s|].
    apply tbind_inv in H1 as (n & st2 & H2 & H1). apply tread_inv in H2 as [-> ->]. cbn [st_state] in *.
    do 2 (apply tbind_inv in H1 as (? & ? & H2 & H1); apply tguard_inv in H2 as [_ ->]).
    apply tbind_inv in H1 as (c & st3 & H2 & H1). apply tread_inv in H2 as [-> ->].
    apply tguard_inv in H1 as [_ ->]. eexists. split; [reflexivity|].
    pose proof (GetNonce_same _ _ Hi Ha) as Hs1. cbn. eapply same_trans; [exact Hs1|].
    apply GetCodeHash_same; [apply Hs1|done]. }
  apply tbind_inv in H as (? & st2 & H2 & H). apply fee_checks_inv in H2 as (-> & cap & tip & Hcap & Htip).
  destruct (buyGas_inv msg (mkTransition gp 0 0 t) u st') as (B1 & B2 & B3 & B4 & B5 & B6 & B7); try done.
  { apply Hsame. }
  exists cap, tip. do 7 (split; [done|]). cbn in B6, B7.
  split; [intros b; by rewrite B6, (same_bal _ _ _ Hsame)|]. specialize (B7 cap Hcap).
  by rewrite (same_bal _ _ _ Hsame) in B7.
Qed.

(** What one message did, end to end. *)
Record applied (env : TxEnv) (msg : Message) (gp : Z) (s : StateDB) (r : ExecutionResult) (st' : transition)
    (cap tip baseFee intrinsic rest refund : Z) (pre post : StateDB) : Prop := mkApplied {
  ap_cap : msg_GasFeeCap msg = Some cap;
  ap_tip : msg_GasTipCap msg = Some tip;
  ap_base : te_BaseFee env = Some baseFee;
  ap_funds : msg_Gas msg * cap + msg_Value msg ≤ bal s (msg_From msg);
  ap_intrinsic : IntrinsicGas (msg_Data msg) (msg_AccessList msg) (bool_decide (msg_To msg = None))
                   (te_isCIP1 env) = Ok intrinsic ∧ intrinsic ≤ msg_Gas msg;
  ap_pre : ready pre;
  ap_bought : ∀ b, bal pre b = bal s b - add_at (msg_From msg) (msg_Gas msg * msg_GasPrice msg) b;
  ap_run : match msg_To msg with
           | None => evm_Create (msg_From msg) (msg_Data msg) (msg_Gas msg - intrinsic) (msg_Value msg) pre
           | Some to => evm_Call (msg_From msg) to (msg_Data msg) (msg_Gas msg - intrinsic) (msg_Value msg) pre
           end = Ret (er_ReturnData r, rest, er_Err r, post);
  ap_rest : 0 ≤ rest ≤ msg_Gas msg - intrinsic;
  ap_refund : refund = Z.min ((msg_Gas msg - rest) / 5) (sd_refund post);
  ap_used : er_UsedGas r = msg_Gas msg - rest - refund;
  ap_pool : st_gp st' = gp - er_UsedGas r;
  ap_final : ∀ b, bal (st_state st') b = bal post b
               + add_at (msg_From msg) ((msg_Gas msg - er_UsedGas r) * msg_GasPrice msg) b
               + add_at (te_Coinbase env) (er_UsedGas r * Z.min tip (cap - baseFee)) b;
  ap_inv : ready (st_state st')
}.

Lemma run_evm_inv (run : Z → evm_run) st ret err st' :
  keeps (st_gas st) (run (st_gas st)) → ready (st_state st) →
  run_evm run st = Ret (Ok (ret, err), st') →
  ∃ rest post, run (st_gas st) (st_state st) = Ret (ret, rest, err, post) ∧ 0 ≤ rest ≤ st_gas st ∧ ready post ∧
    st' = mkTransition (st_gp st) rest (st_initialGas st) post.
Proof.
  intros Hk Hi H. unfold run_evm in H. destruct (run (st_gas st) (st_state st)) as [[[[rt rest] er] post]|] eqn:E; [|done].
  injection H as <- <- <-. destruct (Hk _ _ _ _ _ Hi E) as (H1 & H2). by exists rest, post.
Qed.

Lemma execute_inv msg st ret err st' :
  ready (st_state st) → valid_addr (msg_From msg) → (∀ to, msg_To msg = Some to → valid_addr to) → is_u64 (st_gas st) →
  execute msg st = Ret (Ok (ret, err), st') →
  ∃ pre rest post,
    match msg_To msg with
    | None => evm_Create (msg_From msg) (msg_Data msg) (st_gas st) (msg_Value msg) pre
    | Some to => evm_Call (msg_From msg) to (msg_Data msg) (st_gas st) (msg_Value msg) pre
    end = Ret (ret, rest, err, post) ∧
    ready pre ∧ (∀ b, bal pre b = bal (st_state st) b) ∧ 0 ≤ rest ≤ st_gas st ∧ ready post ∧
    st' = mkTransition (st_gp st) rest (st_initialGas st) post.
Proof.
  intros Hi Ha Hto Hg H. unfold execute in H. destruct (msg_To msg) as [to|].
  - apply tbind_inv in H as (n & st1 & H1 & H). apply tread_inv in H1 as [-> ->].
    pose proof (GetNonce_same _ _ Hi Ha) as Hs1. set (s1 := snd (GetNonce _ _)) in *.
    set (n := fst (GetNonce _ _)) in *. apply tbind_inv in H as (? & st2 & H1 & H). injection H1 as _ <-.
    cbn [with_state st_state st_gas st_gp st_initialGas] in H.
    set (pre := SetNonce (msg_From msg) (u64 (n + 1)) s1) in *.
    assert (ready pre) as Hpre by (eapply ready_eff; [apply Hs1|by apply (eff_SetNonce (msg_From msg))]).
    apply run_evm_inv in H as (rest & post & E & R1 & R2 & ->); [|by apply Call_keeps; auto|done].
    exists pre, rest, post. split; [exact E|]. split; [exact Hpre|]. split; [|done].
    intros b. unfold pre. rewrite SetNonce_bal by (done || apply ready_inv, Hs1). apply (same_bal _ _ _ Hs1).
  - apply run_evm_inv in H as (rest & post & E & R1 & R2 & ->); [|by apply Create_keeps|done].
    by exists (st_state st), rest, post.
Qed.

Lemma refundGas_inv msg gp gas rest post u st' :
  is_u64 gas → 0 ≤ rest ≤ gas → is_u64 gp → ready post → valid_addr (msg_From msg) →
  refundGas RefundQuotientEIP3529 msg (mkTransition gp rest gas post) = Ret (Ok u, st') →
  let refund := Z.min ((gas - rest) / 5) (sd_refund post) in
  0 ≤ refund ∧ rest + refund ≤ gas ∧ st_gas st' = rest + refund ∧ st_initialGas st' = gas ∧
  st_gp st' = gp + (rest + refund) ∧ ready (st_state st') ∧
  ∀ b, bal (st_state st') b = bal post b + add_at (msg_From msg) ((rest + refund) * msg_GasPrice msg) b.
Proof.
  intros [Hg1 Hg2] Hr [Hp1 Hp2] Hi Ha H refund. pose proof (proj2 Hi) as [Hf1 Hf2].
  assert (0 ≤ (gas - rest) / 5 ≤ gas - rest) as Hq.
  { split; [apply Z.div_pos; lia|apply Z.div_le_upper_bound; lia]. }
  unfold refundGas, gasUsed in H. cbn in H.
  assert (u64 (gas - rest) = gas - rest) as E1 by (apply wrap_id; unfold in_w; lia).
  rewrite E1 in H. unfold RefundQuotientEIP3529 in H.
  replace (if sd_refund post <? (gas - rest) / 5 then _ else _) with refund in H.
  2:{ unfold refund. destruct (Z.ltb_spec (sd_refund post) ((gas - rest) / 5)); lia. }
  assert (u64 (rest + refund) = rest + refund) as E2 by (apply wrap_id; unfold in_w, refund; lia).
  rewrite E2 in H. unfold AddGas in H.
  destruct (Z.ltb_spec (MaxUint64 - (rest + refund)) gp) as [|Hfit]; [done|].
  assert (u64 (gp + (rest + refund)) = gp + (rest + refund)) as E3.
  { apply wrap_id. unfold in_w, MaxUint64 in *. unfold refund in *. lia. }
  injection H as _ <-. cbn [st_gas st_initialGas st_gp st_state with_gp with_state with_gas].
  rewrite E3. split; [unfold refund; lia|]. split; [unfold refund; lia|]. do 3 (split; [done|]).
  split; [eapply ready_eff; [exact Hi|by apply (eff_AddBalance False)]|].
  intros b. apply AddBalance_bal; [by apply ready_inv|done].
Qed.

Lemma ApplyMessage_applied env msg gp s r st' :
  ready s → is_u64 gp → is_u64 (msg_Gas msg) → valid_addr (msg_From msg) → valid_addr (te_Coinbase env) →
  (∀ to, msg_To msg = Some to → valid_addr to) →
  ApplyMessage env msg gp s = Ret (Ok r, st') →
  ∃ cap tip baseFee intrinsic rest refund pre post,
    applied env msg gp s r st' cap tip baseFee intrinsic rest refund pre post.
Proof.
  intros Hi Hgp Hg Ha Hc Hto H. unfold ApplyMessage, TransitionDb in H.
  apply tbind_inv in H as (? & st1 & H1 & H).
  destruct (preCheck_inv env msg gp s _ _ Hi Ha Hg Hgp H1)
    as (cap & tip & Hcap & Htip & Hle & P1 & P2 & P3 & P4 & P5 & P6).
  apply tbind_inv in H as (intrinsic & st2 & H2 & H). injection H2 as HI <-.
  pose proof (IntrinsicGas_range _ _ _ _ _ HI) as HI0.
  apply tbind_inv in H as (? & st3 & H3 & H). rewrite P2 in H3.
  destruct (Z.ltb_spec (msg_Gas msg) intrinsic) as [|HIle]; [done|].
  assert (u64 (msg_Gas msg - intrinsic) = msg_Gas msg - intrinsic) as E3.
  { destruct Hg. apply wrap_id. unfold in_w. lia. }
  rewrite E3 in H3. injection H3 as _ <-.
  apply tbind_inv in H as (? & st4 & H4 & H).
  assert (∃ t, st4 = mkTransition (st_gp st1) (msg_Gas msg - intrinsic) (msg_Gas msg) t ∧ same (st_state st1) t)
    as (t & -> & Ht).
  { destruct (0 <? msg_Value msg).
    - apply tbind_inv in H4 as (can & st5 & H5 & H4). apply tread_inv in H5 as [-> ->].
      apply tguard_inv in H4 as [_ ->]. cbn [with_state with_gas st_state st_gp st_gas st_initialGas].
      eexists. split; [by rewrite <- P3|].
      pose proof (GetBalance_same _ _ P4 Ha) as Hs. unfold CanTransfer. by destruct (GetBalance _ _).
    - injection H4 as _ <-. exists (st_state st1). unfold with_gas. rewrite P3. by split. }
  apply tbind_inv in H as (? & st5 & H5 & H). cbn [st_state] in H5.
  destruct (PrepareAccessList_same (msg_From msg) (msg_To msg) (te_precompiles env)
    (default [] (msg_AccessList msg)) t (proj1 Ht)) as (t2 & E & Ht2). rewrite E in H5. injection H5 as _ <-.
  apply tbind_inv in H as ([ret vmerr] & st6 & H6 & H).
  apply execute_inv in H6 as (pre & rest & post & HR & Hpre & Hbal & Hrest & Hpost & ->);
    [|apply Ht2|done|done|cbn; destruct Hg; split; lia].
  cbn [with_state st_gas st_gp st_initialGas st_state] in *.
  apply tbind_inv in H as (? & st7 & H7 & H).
  assert (is_u64 (st_gp st1)) as Hgp1 by (destruct Hg, Hgp; split; lia).
  destruct (refundGas_inv msg (st_gp st1) (msg_Gas msg) rest post _ _ Hg ltac:(lia) Hgp1 Hpost Ha H7)
    as (R0 & R1 & R2 & R3 & R4 & R5 & R6).
  set (refund := Z.min ((msg_Gas msg - rest) / 5) (sd_refund post)) in *.
  apply tbind_inv in H as (? & st8 & H8 & H). unfold pay_miner in H8. rewrite Hcap, Htip in H8.
  destruct (te_BaseFee env) as [baseFee|] eqn:Hbf; [|done].
  assert (gasUsed st7 = msg_Gas msg - rest - refund) as Hused.
  { unfold gasUsed. rewrite R2, R3. replace (msg_Gas msg - rest - refund) with (msg_Gas msg - (rest + refund)) by lia.
    destruct Hg. apply wrap_id. unfold in_w. lia. }
  rewrite Hused in H8. injection H8 as _ <-. injection H as <- <-.
  change (gasUsed (with_state ?a ?b)) with (gasUsed b). rewrite Hused.
  exists cap, tip, baseFee, intrinsic, rest, refund, pre, post.
  split; cbn [er_UsedGas er_ReturnData er_Err with_state st_gp st_state]; try done.
  - intros b. rewrite Hbal, (same_bal _ _ _ Ht2), (same_bal _ _ _ Ht). apply P5.
  - lia.
  - intros b. rewrite AddBalance_bal by auto using ready_inv. rewrite R6, BigMin_min.
    replace (msg_Gas msg - (msg_Gas msg - rest - refund)) with (rest + refund) by lia. lia.
  - eapply ready_eff; [exact R5|by apply (eff_AddBalance False)].
Qed.

(** A message refused by the checks leaves every balance and the pool alone. *)
Lemma tbind_err {A C} (m : T A) (f : A → T C) st e st' :
  tbind m f st = Ret (Err e, st') →
  m st = Ret (Err e, st') ∨ ∃ a st1, m st = Ret (Ok a, st1) ∧ f a st1 = Ret (Err e, st').
Proof. unfold tbind. destruct (m st) as [[[a|e'] st1]|]; [|by left; simplify_eq|done]. eauto. Qed.

Lemma tguard_err b e st e' st' : tguard b e st = Ret (Err e', st') → st' = st.
Proof. unfold tguard, tfail, tret. destruct b; [|done]. by intros [= _ <-]. Qed.

Lemma tread_no_err {A} (f : StateDB → A * StateDB) st e st' : tread f st ≠ Ret (Err e, st').
Proof. unfold tread. by destruct (f (st_state st)). Qed.

Lemma fee_checks_err env msg st e st' : fee_checks env msg st = Ret (Err e, st') → st' = st.
Proof.
  unfold fee_checks. destruct (msg_GasFeeCap msg) as [cap|]; [|done].
  destruct (msg_GasTipCap msg) as [tip|]; [|done]. destruct (_ || _); [|done]. intros H.
  do 3 (apply tbind_err in H as [H|(? & ? & H1 & H)]; [by apply tguard_err in H|apply tguard_inv in H1 as [_ ->]]).
  destruct (te_BaseFee env); [by apply tguard_err in H|done].
Qed.

Lemma buyGas_err msg st e st' :
  ready (st_state st) → valid_addr (msg_From msg) → buyGas msg st = Ret (Err e, st') →
  same (st_state st) (st_state st') ∧ st_gp st' = st_gp st.
Proof.
  intros Hi Ha H. unfold buyGas in H.
  apply tbind_err in H as [H|(have & st1 & H1 & H)]; [by apply tread_no_err in H|].
  apply tread_inv in H1 as [-> ->]. pose proof (GetBalance_same _ _ Hi Ha) as Hs.
  apply tbind_err in H as [H|(? & ? & H1 & H)]; [by apply tguard_err in H as ->|].
  apply tguard_inv in H1 as [_ ->].
  apply tbind_err in H as [H|(? & st2 & H1 & H)].
  - cbn [st_gp with_state] in H. destruct (SubGas _ _); [done|]. by injection H as _ <-.
  - apply tbind_err in H as [H|(? & st3 & H2 & H)]; done.
Qed.

Lemma preCheck_err env msg st e st' :
  ready (st_state st) → valid_addr (msg_From msg) → preCheck env msg st = Ret (Err e, st') →
  same (st_state st) (st_state st') ∧ st_gp st' = st_gp st.
Proof.
  intros Hi Ha H. unfold preCheck in H.
  assert (same (st_state st) (st_state st)) as Hrefl by by split.
  apply tbind_err in H as [H|(? & st1 & H1 & H)].
  - destruct (msg_IsFake msg); [done|].
    apply tbind_err in H as [H|(n & st2 & H2 & H)]; [by apply tread_no_err in H|].
    apply tread_inv in H2 as [-> ->]. pose proof (GetNonce_same _ _ Hi Ha) as Hs.
    do 2 (apply tbind_err in H as [H|(? & ? & H2 & H)];
      [by apply tguard_err in H as ->|apply tguard_inv in H2 as [_ ->]]).
    apply tbind_err in H as [H|(c & st3 & H2 & H)]; [by apply tread_no_err in H|].
    apply tread_inv in H2 as [-> ->]. apply tguard_err in H as ->. split; [|done].
    eapply same_trans; [exact Hs|]. apply GetCodeHash_same; [apply Hs|done].
  - assert (same (st_state st) (st_state st1) ∧ st_gp st1 = st_gp st) as [Hs1 Hg1].
    { destruct (msg_IsFake msg); [by injection H1 as _ <-|].
      apply tbind_inv in H1 as (n & st2 & H2 & H1). apply tread_inv in H2 as [-> ->].
      do 2 (apply tbind_inv in H1 as (? & ? & H2 & H1); apply tguard_inv in H2 as [_ ->]).
      apply tbind_inv in H1 as (c & st3 & H2 & H1). apply tread_inv in H2 as [-> ->].
      apply tguard_inv in H1 as [_ ->]. split; [|done].
      pose proof (GetNonce_same _ _ Hi Ha) as Hs. eapply same_trans; [exact Hs|].
      apply GetCodeHash_same; [apply Hs|done]. }
    apply tbind_err in H as [H|(? & st2 & H2 & H)].
    { by apply fee_checks_err in H as ->. }
    apply fee_checks_inv in H2 as [-> _]. apply buyGas_err in H as [Hs2 Hg2]; [|apply Hs1|done].
    split; [by eapply same_trans|congruence].
Qed.

End Accounting.

(** ** A concrete EVM *)

(** Transfers the value when it can, leaves half the gas. *)
Definition demo_run_evm (from to : address) (gas value : Z) (s : StateDB)
    : outcome (bytes * Z * option string * StateDB) :=
  Ret ([], gas / 2, None, Transfer from to value s).

#[export] Instance DemoEvm : EvmCalls := {|
  evm_Call from to _ gas value := demo_run_evm from to gas value;
  evm_Create from _ gas value := demo_run_evm from 77 gas value
|}.

Lemma demo_keeps from to gas value :
  valid_addr from → valid_addr to → is_u64 gas → keeps gas (demo_run_evm from to gas value).
Proof.
  intros Hf Ht [H1 H2] s ret rest err s' Hi E. unfold demo_run_evm in E. injection E as <- <- <- <-.
  split; [split; [apply Z.div_pos; lia|apply Z.div_le_upper_bound; lia]|].
  eapply ready_eff; [exact Hi|by apply (eff_Transfer False)].
Qed.

#[export] Instance DemoEvmOk : EvmCallsOk DemoEvm.
Proof. split; intros; by apply demo_keeps. Qed.

Definition demo_env : TxEnv := mkTxEnv 9 (Some 10) false true [1; 2; 3].
Definition demo_msg : Message :=
  mkMessage 7 (Some 8) 13 (Some 20) (Some 3) 100000 55 0 false [0; 1; 2] (Some [(8, [1; 2])]).
Definition demo_tx_state : StateDB := AddBalance 7 10000000 genesis_state.

Lemma demo_tx_ready : ready demo_tx_state.
Proof.
  apply (ready_eff False genesis_state).
  - split; [exact (conj genesis_inv genesis_revs)|split; vm_compute; [discriminate|reflexivity]].
  - apply eff_AddBalance; [split; [discriminate|reflexivity]|intros []].
Qed.

(** ** Claims *)

(** C18: a message that is applied is accounted for to the last unit: the
    sender could pay gas at the fee cap plus the value; gas is bought at the
    gas price; the EVM runs with what the intrinsic gas leaves; a refund of at
    most a fifth of the consumed gas is granted; the unused gas is paid back
    at the same price; the miner gets the used gas at the effective tip; and
    the block's pool is left with exactly the used gas less. *)
Theorem message_accounting {B : Backend} {BOk : BackendOk B} {X : EvmCalls} {XOk : EvmCallsOk X}
    env msg gp s r st' :
  ready s → is_u64 gp → is_u64 (msg_Gas msg) → valid_addr (msg_From msg) → valid_addr (te_Coinbase env) →
  (∀ to, msg_To msg = Some to → valid_addr to) →
  ApplyMessage env msg gp s = Ret (Ok r, st') →
  ∃ cap tip baseFee intrinsic rest refund pre post,
    applied env msg gp s r st' cap tip baseFee intrinsic rest refund pre post.
Proof. apply ApplyMessage_applied. Qed.

Definition demo_applied := ApplyMessage demo_env demo_msg 5000000 demo_tx_state.

Lemma demo_applied_ok : ∃ r st', demo_applied = Ret (Ok r, st').
Proof.
  assert (match demo_applied with Ret (Ok _, _) => true | _ => false end = true) as H by (vm_compute; reflexivity).
  destruct demo_applied as [[[r|e] st']|]; [by exists r, st'|discriminate H|discriminate H].
Qed.

Lemma message_accounting_witness :
  ∃ r st', demo_applied = Ret (Ok r, st') ∧ st_gp st' = 5000000 - er_UsedGas r.
Proof.
  destruct demo_applied_ok as (r & st' & E). exists r, st'. split; [exact E|].
  destruct (message_accounting demo_env demo_msg 5000000 demo_tx_state r st')
    as (cap & tip & baseFee & intrinsic & rest & refund & pre & post & H).
  - exact demo_tx_ready.
  - split; lia.
  - split; simpl; lia.
  - split; simpl; lia.
  - split; simpl; lia.
  - intros to [= <-]. split; [discriminate|reflexivity].
  - exact E.
  - exact (ap_pool _ _ _ _ _ _ _ _ _ _ _ _ _ _ H).
Defined.

(** What applying a message takes from the accounts together, besides what the EVM
    does to them: the part of the price that the miner does not get. *)
Lemma applied_total {B : Backend} {X : EvmCalls} env msg gp s r st' cap tip baseFee intrinsic rest refund pre post accts :
  applied env msg gp s r st' cap tip baseFee intrinsic rest refund pre post →
  NoDup accts → msg_From msg ∈ accts → te_Coinbase env ∈ accts →
  total accts (bal (st_state st')) = total accts (bal s) + (total accts (bal post) - total accts (bal pre))
    - er_UsedGas r * (msg_GasPrice msg - Z.min tip (cap - baseFee)).
Proof.
  intros A Hnd Hin1 Hin2. rewrite (total_ext accts _ _ (ap_final _ _ _ _ _ _ _ _ _ _ _ _ _ _ A)), !total_add.
  rewrite (total_ext accts (bal pre) (λ b, bal s b + - add_at (msg_From msg) (msg_Gas msg * msg_GasPrice msg) b)).
  2:{ intros b. rewrite (ap_bought _ _ _ _ _ _ _ _ _ _ _ _ _ _ A). lia. }
  rewrite total_add, total_opp, !total_add_at by done. rewrite !decide_True by done. lia.
Qed.

(** C20: a message the checks refuse (nonce, code, fee caps, funds, gas pool)
    changes no account and takes nothing from the block's gas pool. *)
Theorem refused_message_changes_nothing {B : Backend} {BOk : BackendOk B} env msg gp s e st' b :
  ready s → valid_addr (msg_From msg) →
  preCheck env msg (mkTransition gp 0 0 s) = Ret (Err e, st') →
  st_gp st' = gp ∧ bal (st_state st') b = bal s b ∧ nonce_of (st_state st') b = nonce_of s b.
Proof.
  intros Hi Ha H. destruct (preCheck_err env msg (mkTransition gp 0 0 s) e st' Hi Ha H) as [[_ Hl] Hg].
  cbn in Hl, Hg. unfold bal, nonce_of. by rewrite Hl.
Qed.

Definition demo_bad_msg : Message :=
  mkMessage 7 (Some 8) 13 (Some 20) (Some 3) 100000 55 3 false [] None.

Lemma refused_message_changes_nothing_witness :
  ∃ e st', preCheck demo_env demo_bad_msg (mkTransition 500 0 0 demo_tx_state) = Ret (Err e, st') ∧ st_gp st' = 500.
Proof.
  assert (match preCheck demo_env demo_bad_msg (mkTransition 500 0 0 demo_tx_state) with
          | Ret (Err _, _) => true | _ => false end = true) as H by (vm_compute; reflexivity).
  destruct (preCheck demo_env demo_bad_msg (mkTransition 500 0 0 demo_tx_state)) as [[[[]|e] st']|] eqn:E;
    [discriminate H| |discriminate H].
  exists e, st'. split; [reflexivity|].
  apply (refused_message_changes_nothing demo_env demo_bad_msg 500 demo_tx_state e st' 7);
    [exact demo_tx_ready|split; simpl; lia|exact E].
Defined.

(** The intrinsic gas is the sum of the base price, 16 per non-zero and 4
    per zero byte of data, 2400 per access-list address and 1900 per storage
    key, when that fits in 64 bits; when base and data price do not fit, the
    overflow is reported. *)
Lemma intrinsic_gas_exact data al creation cip1 :
  zlen data < 2 ^ 64 →
  (base_gas creation cip1 + data_gas data + list_gas al ≤ MaxUint64 →
     IntrinsicGas data al creation cip1 = Ok (base_gas creation cip1 + data_gas data + list_gas al)) ∧
  (MaxUint64 < base_gas creation cip1 + data_gas data →
     IntrinsicGas data al creation cip1 = Err ErrGasUintOverflow).
Proof.
  intros Hd. split; [|by apply IntrinsicGas_overflow]. intros H. apply IntrinsicGas_exact; [done| |done].
  pose proof (data_gas_nonneg data). assert (0 ≤ base_gas creation cip1) by (unfold base_gas; by destruct cip1, creation).
  lia.
Qed.

