(* ===== verification/EvmLink.v ===== *)
(** * Transactions on the EVM

    The EVM of this development as the [EvmCalls] that the state transition
    relies on: its calls and creations hand back no more gas than they got and
    keep the state ready, so the accounting of a message holds for messages
    that run code.  A round of fuel per unit of gas makes the runs total. *)
From S2P Require Import Prelude Common AccessList StateObject Concrete StateDB StateRevert StateBalance Transfer StateEffect.
From S2P Require Import EvmWord EvmAnalysis EvmMachine EvmGasTable EvmMemory EvmCall EvmInstr EvmRun EvmLogic EvmGas EvmEffect.
From S2P Require Import StateTransition.
#[local] Existing Instance still_drift.

Section Link.
Context {B : Backend} {U : Uint256} {P : Precompiles} (env : EvmEnv).
(** The text of an error plays no role. *)
Context (Error : vm_error → string).

(** [NewEVM] on the state of the transition. *)
Definition NewEVM (s : StateDB) : EVM := mkEVM s 0 0 false [] [].

(** Enough fuel for the gas of the message. *)
Definition message_fuel (gas : Z) : nat := Z.to_nat (gas + 1).

Definition call_message (from to : address) (data : bytes) (gas value : Z) : evm_run := λ s,
  match Call env (Run env (message_fuel gas)) (AccountRef from) to data gas value (NewEVM s) with
  | XRet ((ret, rest, err), e) => Ret (ret, rest, Error <$> err, ev_StateDB e)
  | XPanic | XFuel => Panic
  end.

Definition create_message (from : address) (data : bytes) (gas value : Z) : evm_run := λ s,
  match Create env (Run env (message_fuel gas)) (AccountRef from) data gas value (NewEVM s) with
  | XRet ((ret, _, rest, err), e) => Ret (ret, rest, Error <$> err, ev_StateDB e)
  | XPanic | XFuel => Panic
  end.

#[export] Instance EvmMessages : EvmCalls := {| evm_Call := call_message; evm_Create := create_message |}.

Context {BOk : BackendOk B} {PG : PrecompilesGas} {PO : PrecompilesOk}.

Lemma message_run_ok gas : is_u64 gas → run_ok (gas + 1) (Run env (message_fuel gas)).
Proof.
  intros [H1 H2]. unfold message_fuel. pose proof (Run_ok env (Z.to_nat (gas + 1))) as H.
  rewrite Z2Nat.id in H by lia. apply H. lia.
Qed.

(** The fuel is enough. *)
Lemma messages_total from to data gas value s :
  is_u64 gas →
  Call env (Run env (message_fuel gas)) (AccountRef from) to data gas value (NewEVM s) ≠ XFuel ∧
  Create env (Run env (message_fuel gas)) (AccountRef from) data gas value (NewEVM s) ≠ XFuel.
Proof.
  intros Hg. pose proof (message_run_ok gas Hg) as Hrun. destruct Hg as [H1 H2]. split.
  - pose proof (Call_gas env (gas + 1) (Run env (message_fuel gas)) Hrun (AccountRef from) to data gas value (NewEVM s)
      ltac:(lia)) as H. unfold wpg in H. by destruct (Call _ _ _ _ _ _ _ _) as [[]| |].
  - pose proof (Create_gas env (gas + 1) (Run env (message_fuel gas)) Hrun (AccountRef from) data gas value (NewEVM s)
      ltac:(lia)) as H. unfold wpg in H. by destruct (Create _ _ _ _ _ _ _) as [[]| |].
Qed.

(** What a call and a creation from an account give. *)
Lemma call_message_keeps from to data gas value :
  valid_addr from → valid_addr to → is_u64 gas → keeps gas (call_message from to data gas value).
Proof.
  intros Hf Ht Hg s ret rest err s' Hr E. pose proof (message_run_ok gas Hg) as Hrun. destruct Hg as [H1 H2].
  pose proof (Call_gas env (gas + 1) (Run env (message_fuel gas)) Hrun (AccountRef from) to data gas value (NewEVM s)
    ltac:(lia)) as HG.
  pose proof (Call_eff env (Run env (message_fuel gas)) (Run_eff env _) False (AccountRef from) to data gas value
    (NewEVM s) Hf Ht ltac:(done) ltac:(done)) as HE.
  unfold call_message in E. unfold wpg in HG, HE.
  destruct (Call _ _ _ _ _ _ _ _) as [[[[ret' rest'] err'] e]| |]; [|done..]. injection E as <- <- _ <-.
  split; [exact HG|]. destruct HE as [[_ HE] _]. by apply (ready_eff False s).
Qed.

Lemma create_message_keeps from data gas value :
  valid_addr from → is_u64 gas → keeps gas (create_message from data gas value).
Proof.
  intros Hf Hg s ret rest err s' Hr E. pose proof (message_run_ok gas Hg) as Hrun. destruct Hg as [H1 H2].
  pose proof (Create_gas env (gas + 1) (Run env (message_fuel gas)) Hrun (AccountRef from) data gas value (NewEVM s)
    ltac:(lia)) as HG.
  pose proof (Create_eff env (Run env (message_fuel gas)) (Run_eff env _) (AccountRef from) data gas value
    (NewEVM s) Hf) as HE.
  unfold create_message in E. unfold wpg in HG, HE.
  destruct (Create _ _ _ _ _ _ _) as [[[[[ret' a] rest'] err'] e]| |]; [|done..]. injection E as <- <- _ <-.
  split; [exact HG|]. destruct HE as [[_ HE] _]. by apply (ready_eff False s).
Qed.

#[export] Instance EvmMessagesOk : EvmCallsOk EvmMessages.
Proof.
  split; intros; [by apply call_message_keeps|by apply create_message_keeps].
Qed.

(** A failed execution moves no balance. *)
Lemma failed_run_bal (msg : Message) gas s ret rest err s' b :
  ready s → valid_addr (msg_From msg) → (∀ to, msg_To msg = Some to → valid_addr to) → valid_addr b →
  match msg_To msg with
  | None => create_message (msg_From msg) (msg_Data msg) gas (msg_Value msg) s
  | Some to => call_message (msg_From msg) to (msg_Data msg) gas (msg_Value msg) s
  end = Ret (ret, rest, Some err, s') → bal s' b = bal s b.
Proof.
  intros Hr Hf Hto Hb E. set (run := Run env (message_fuel gas)) in *. pose proof (Run_eff env (message_fuel gas)) as Hrun.
  destruct (msg_To msg) as [to|].
  - pose proof (Call_eff env run Hrun False (AccountRef (msg_From msg)) to (msg_Data msg) gas (msg_Value msg)
      (NewEVM s) Hf (Hto to eq_refl) ltac:(done) ltac:(done)) as HE. unfold call_message in E. fold run in E. unfold wpg in HE.
    destruct (Call _ _ _ _ _ _ _ _) as [[[[ret' rest'] [er|]] e]| |]; [|done..]. injection E as _ _ _ <-.
    destruct HE as [_ HE]. apply eqv_bal; [|done]. by apply HE; [apply Hr|].
  - pose proof (Create_eff env run Hrun (AccountRef (msg_From msg)) (msg_Data msg) gas (msg_Value msg) (NewEVM s) Hf)
      as HE. unfold create_message in E. fold run in E. unfold wpg in HE.
    destruct (Create _ _ _ _ _ _ _) as [[[[[ret' a] rest'] [er|]] e]| |]; [|done..]. injection E as _ _ _ <-.
    destruct HE as [_ HE]. destruct (HE (proj1 Hr) ltac:(done)) as [V|(new & V)]; [by apply eqv_bal|].
    apply (nonce_taken_bal (msg_From msg) new); [done|apply Hr|done|done].
Qed.

End Link.

(** ** A concrete transaction *)

Definition tx_evm_env : EvmEnv := mkEvmEnv (λ _, 0) 9 10000000 1 2 3 (Some 10) 7 13 (Some 61) false false false.
Definition no_text (_ : vm_error) : string := "".
(** The code of account 8 stores a word, then reverts. *)
Definition tx_state : StateDB := SetCode 8 revert_code (AddBalance 7 10000000 genesis_state).
Definition tx_msg : Message :=
  mkMessage 7 (Some 8) 13 (Some 20) (Some 3) 100000 55 0 false [0; 1; 2] (Some [(8, [1; 2])]).

Lemma tx_state_ready : ready tx_state.
Proof.
  apply (ready_eff False (AddBalance 7 10000000 genesis_state)); [exact demo_tx_ready|].
  apply (eff_SetCode 8). split; [discriminate|reflexivity].
Qed.

Definition tx_applied := ApplyMessage (X := EvmMessages tx_evm_env no_text) demo_env tx_msg 5000000 tx_state.

Lemma tx_applied_ok : ∃ r err st', tx_applied = Ret (Ok r, st') ∧ er_Err r = Some err.
Proof.
  assert (match tx_applied with Ret (Ok r, _) => bool_decide (er_Err r = None) | _ => true end = false) as H
    by (vm_compute; reflexivity).
  destruct tx_applied as [[[r|e] st']|]; [|discriminate H..].
  destruct (er_Err r) as [err|] eqn:E; [by exists r, err, st'|discriminate H].
Qed.

(** ** Claims *)

(** C7: a transaction whose execution fails, in a call or in a creation, costs
    its gas and nothing else: no balance moves but the sender pays the used gas
    at the gas price and the miner gets it at the effective tip; the
    transferred value and everything the code did are undone. *)
Theorem failed_message_costs_only_gas {B : Backend} {BOk : BackendOk B} {U : Uint256} {P : Precompiles}
    {PG : PrecompilesGas} {PO : PrecompilesOk} evm Error env msg gp s r st' err b :
  let X := EvmMessages evm Error in
  ready s → is_u64 gp → is_u64 (msg_Gas msg) → valid_addr (msg_From msg) → valid_addr (te_Coinbase env) →
  (∀ to, msg_To msg = Some to → valid_addr to) → valid_addr b →
  ApplyMessage env msg gp s = Ret (Ok r, st') → er_Err r = Some err →
  ∃ cap tip baseFee, msg_GasFeeCap msg = Some cap ∧ msg_GasTipCap msg = Some tip ∧ te_BaseFee env = Some baseFee ∧
    bal (st_state st') b = bal s b - add_at (msg_From msg) (er_UsedGas r * msg_GasPrice msg) b
                                   + add_at (te_Coinbase env) (er_UsedGas r * Z.min tip (cap - baseFee)) b.
Proof.
  intros X Hs Hgp Hg Hf Hc Hto Hb E Herr.
  destruct (ApplyMessage_applied env msg gp s r st' Hs Hgp Hg Hf Hc Hto E)
    as (cap & tip & baseFee & intrinsic & rest & refund & pre & post & []).
  exists cap, tip, baseFee. do 3 (split; [done|]). rewrite ap_final, Herr in *.
  rewrite (failed_run_bal evm Error msg (msg_Gas msg - intrinsic) pre (er_ReturnData r) rest err post b); try done.
  rewrite ap_bought. unfold add_at. repeat destruct (decide _); lia.
Qed.

Lemma failed_message_costs_only_gas_witness :
  ∃ r st', tx_applied = Ret (Ok r, st') ∧ bal (st_state st') 8 = bal tx_state 8.
Proof.
  destruct tx_applied_ok as (r & err & st' & E & Herr). exists r, st'. split; [exact E|].
  destruct (failed_message_costs_only_gas tx_evm_env no_text demo_env tx_msg 5000000 tx_state r st' err 8)
    as (cap & tip & bf & _ & _ & _ & H).
  - exact tx_state_ready.
  - split; lia.
  - split; simpl; lia.
  - split; simpl; lia.
  - split; simpl; lia.
  - intros to [= <-]. split; [discriminate|reflexivity].
  - split; [discriminate|reflexivity].
  - exact E.
  - exact Herr.
  - rewrite H. unfold add_at. cbn [msg_From tx_msg te_Coinbase demo_env].
    rewrite !decide_False by discriminate. lia.
Defined.
