(* ===== verification/TxSigning.v ===== *)
(** * Signers of transactions (core/types/transaction_signing.go, hashing.go,
    and the caches and messages of transaction.go)

    The five signers of the Go code as constructors, each with its signature
    hash, sender recovery and signature values, composed by embedding as in the
    source: [London] handles dynamic fees and leaves the rest to [EIP2930], which
    leaves legacy transactions to the rules of EIP-155 and these the unprotected
    ones to [Homestead].  [Transaction] is the transaction data with the caches of
    its hash, size and sender.  Elliptic-curve signing is a parameter. *)
From S2P Require Import Prelude Common RlpEncode RlpDecode RlpCanon StateObject StateTransition Concrete.
From S2P Require Import Transaction.
Import Common.Bytes Common.GoMath Common.Crypto RlpEncode.Enc.

Inductive sign_error :=
| ErrInvalidSig | ErrInvalidChainId | ErrTypeNotSupported | errRecover (msg : string) | errInvalidPubkey
| errSign (msg : string).

Inductive Signer :=
| London (chainId : Z)
| EIP2930 (chainId : Z)
| EIP155 (chainId : Z)
| Homestead
| Frontier.

Definition NewEIP155Signer (chainId : option Z) : Signer := EIP155 (default 0 chainId).
Definition NewEIP2930Signer (chainId : option Z) : Signer := EIP2930 (default 0 chainId).
Definition NewLondonSigner (chainId : option Z) : Signer := London (default 0 chainId).

Definition MakeSigner (chainID : option Z) : Signer := NewLondonSigner chainID.
Definition LatestSigner (chainID : option Z) : Signer :=
  match chainID with Some _ => NewLondonSigner chainID | None => Homestead end.
Definition LatestSignerForChainID (chainID : option Z) : Signer :=
  match chainID with None => Homestead | Some _ => NewLondonSigner chainID end.

(** [None] is a nil pointer. *)
Definition signer_ChainID (s : Signer) : option Z :=
  match s with London c | EIP2930 c | EIP155 c => Some c | Homestead | Frontier => None end.

(** The type assertions compare the dynamic types first. *)
Definition signer_Equal (s s2 : Signer) : bool :=
  match s, s2 with
  | London c, London c2 | EIP2930 c, EIP2930 c2 | EIP155 c, EIP155 c2 => big_Cmp c2 c =? 0
  | Homestead, Homestead | Frontier, Frontier => true
  | _, _ => false
  end.

(** [x.Uint64()] of a [big.Int]: the low word of its magnitude. *)
Definition big_Uint64 (x : Z) : Z := u64 (Z.abs x).

(** [R], [S] and [V + 27]; it panics on a signature of the wrong length. *)
Definition decodeSignature (sig : bytes) : outcome (Z * Z * Z) :=
  if zlen sig =? 65 then
    Ret (be_decode (take 32 sig), be_decode (take 32 (drop 32 sig)), u8 (nth 64 sig 0 + 27))
  else Panic.

Section Signers.
Context {B : Backend} {R : Recover}.

(** An encoding error leaves nothing to hash. *)
Definition rlpHash (x : gval) : hash :=
  Keccak256Hash (match EncodeToBytes x with Ok b => b | Err _ => [] end).
Definition prefixedRlpHash (prefix : Z) (x : gval) : hash :=
  Keccak256Hash (prefix :: match EncodeToBytes x with Ok b => b | Err _ => [] end).

(** A nil access list is an empty one. *)
Definition access_val (al : option AccessList) : gval := al_val (default [] al).

(** ** Signature hashes *)

Definition Frontier_Hash (tx : TxData) : hash :=
  rlpHash (VList [VUint (Nonce tx); big_val (GasPrice tx); VUint (Gas tx); to_val (To tx); big_val (Value tx);
    VBytes (Data tx)]).

Definition EIP155_Hash (chainId : Z) (tx : TxData) : hash :=
  rlpHash (VList [VUint (Nonce tx); big_val (GasPrice tx); VUint (Gas tx); to_val (To tx); big_val (Value tx);
    VBytes (Data tx); big_val chainId; VUint 0; VUint 0]).

Definition EIP2930_Hash (chainId : Z) (tx : TxData) : hash :=
  if Type_ tx =? LegacyTxType then
    rlpHash (VList [VUint (Nonce tx); big_val (GasPrice tx); VUint (Gas tx); to_val (To tx); big_val (Value tx);
      VBytes (Data tx); big_val chainId; VUint 0; VUint 0])
  else if Type_ tx =? AccessListTxType then
    prefixedRlpHash (Type_ tx) (VList [big_val chainId; VUint (Nonce tx); big_val (GasPrice tx); VUint (Gas tx);
      to_val (To tx); big_val (Value tx); VBytes (Data tx); access_val (AccessList_ tx)])
  else 0.

Definition London_Hash (chainId : Z) (tx : TxData) : hash :=
  if negb (Type_ tx =? DynamicFeeTxType) then EIP2930_Hash chainId tx
  else
    prefixedRlpHash (Type_ tx) (VList [big_val chainId; VUint (Nonce tx); big_val (GasTipCap tx);
      big_val (GasFeeCap tx); VUint (Gas tx); to_val (To tx); big_val (Value tx); VBytes (Data tx);
      access_val (AccessList_ tx)]).

Definition signer_Hash (s : Signer) (tx : TxData) : hash :=
  match s with
  | London c => London_Hash c tx
  | EIP2930 c => EIP2930_Hash c tx
  | EIP155 c => EIP155_Hash c tx
  | Homestead | Frontier => Frontier_Hash tx
  end.

(** ** Recovering the sender *)

Definition recoverPlain (sighash : hash) (R1 S1 Vb : Z) (homestead : bool) : result sign_error address :=
  if 8 <? bitlen (Z.abs Vb) then Err ErrInvalidSig
  else
    let V := u8 (u64 (big_Uint64 Vb - 27)) in
    if negb (ValidateSignatureValues V R1 S1 homestead) then Err ErrInvalidSig
    else
      let sig := LeftPadBytes (be_min R1) 32 ++ LeftPadBytes (be_min S1) 32 ++ [V] in
      match Ecrecover (Hash_Bytes sighash) sig with
      | Err e => Err (errRecover e)
      | Ok pub =>
          if (zlen pub =? 0) || negb (hd 0 pub =? 4) then Err errInvalidPubkey
          else Ok (be_decode (drop 12 (Keccak256 (drop 1 pub))))
      end.

Definition Frontier_Sender (tx : TxData) : result sign_error address :=
  if negb (Type_ tx =? LegacyTxType) then Err ErrTypeNotSupported
  else let '(v, r, s) := RawSignatureValues tx in recoverPlain (Frontier_Hash tx) r s v false.

Definition Homestead_Sender (tx : TxData) : result sign_error address :=
  if negb (Type_ tx =? LegacyTxType) then Err ErrTypeNotSupported
  else let '(v, r, s) := RawSignatureValues tx in recoverPlain (Frontier_Hash tx) r s v true.

Definition EIP155_Sender (chainId : Z) (tx : TxData) : result sign_error address :=
  if negb (Type_ tx =? LegacyTxType) then Err ErrTypeNotSupported
  else if negb (Protected tx) then Homestead_Sender tx
  else if negb (big_Cmp (ChainId tx) chainId =? 0) then Err ErrInvalidChainId
  else
    let '(V, R1, S1) := RawSignatureValues tx in
    recoverPlain (EIP155_Hash chainId tx) R1 S1 (V - chainId * 2 - 8) true.

Definition EIP2930_Sender (chainId : Z) (tx : TxData) : result sign_error address :=
  let '(V, R1, S1) := RawSignatureValues tx in
  let finish V :=
    if negb (big_Cmp (ChainId tx) chainId =? 0) then Err ErrInvalidChainId
    else recoverPlain (EIP2930_Hash chainId tx) R1 S1 V true in
  if Type_ tx =? LegacyTxType then
    if negb (Protected tx) then Homestead_Sender tx else finish (V - chainId * 2 - 8)
  else if Type_ tx =? AccessListTxType then finish (V + 27)
  else Err ErrTypeNotSupported.

Definition London_Sender (chainId : Z) (tx : TxData) : result sign_error address :=
  if negb (Type_ tx =? DynamicFeeTxType) then EIP2930_Sender chainId tx
  else
    let '(V, R1, S1) := RawSignatureValues tx in
    if negb (big_Cmp (ChainId tx) chainId =? 0) then Err ErrInvalidChainId
    else recoverPlain (London_Hash chainId tx) R1 S1 (V + 27) true.

Definition signer_Sender (s : Signer) (tx : TxData) : result sign_error address :=
  match s with
  | London c => London_Sender c tx
  | EIP2930 c => EIP2930_Sender c tx
  | EIP155 c => EIP155_Sender c tx
  | Homestead => Homestead_Sender tx
  | Frontier => Frontier_Sender tx
  end.

End Signers.

(** ** Signature values: [R], [S], [V] *)

Definition Frontier_SignatureValues (tx : TxData) (sig : bytes) : outcome (result sign_error (Z * Z * Z)) :=
  if negb (Type_ tx =? LegacyTxType) then Ret (Err ErrTypeNotSupported)
  else do! rsv <- decodeSignature sig; Ret (Ok rsv).

Definition EIP155_SignatureValues (chainId : Z) (tx : TxData) (sig : bytes) :
    outcome (result sign_error (Z * Z * Z)) :=
  if negb (Type_ tx =? LegacyTxType) then Ret (Err ErrTypeNotSupported)
  else
    do! (R1, S1, V) <- decodeSignature sig;
    Ret (Ok (R1, S1, if negb (Z.sgn chainId =? 0) then u8 (nth 64 sig 0 + 35) + chainId * 2 else V)).

(** The chain id of a typed transaction may be zero: not specified. *)
Definition typed_SignatureValues (chainId txChainId : Z) (sig : bytes) : outcome (result sign_error (Z * Z * Z)) :=
  if negb (Z.sgn txChainId =? 0) && negb (big_Cmp txChainId chainId =? 0) then Ret (Err ErrInvalidChainId)
  else do! (R1, S1, _) <- decodeSignature sig; Ret (Ok (R1, S1, nth 64 sig 0)).

Definition EIP2930_SignatureValues (chainId : Z) (tx : TxData) (sig : bytes) :
    outcome (result sign_error (Z * Z * Z)) :=
  match tx with
  | Legacy _ => EIP155_SignatureValues chainId tx sig
  | AccessListT t => typed_SignatureValues chainId (a_ChainID t) sig
  | DynamicFee _ => Ret (Err ErrTypeNotSupported)
  end.

Definition London_SignatureValues (chainId : Z) (tx : TxData) (sig : bytes) :
    outcome (result sign_error (Z * Z * Z)) :=
  match tx with
  | DynamicFee t => typed_SignatureValues chainId (d_ChainID t) sig
  | _ => EIP2930_SignatureValues chainId tx sig
  end.

Definition SignatureValues (s : Signer) (tx : TxData) (sig : bytes) : outcome (result sign_error (Z * Z * Z)) :=
  match s with
  | London c => London_SignatureValues c tx sig
  | EIP2930 c => EIP2930_SignatureValues c tx sig
  | EIP155 c => EIP155_SignatureValues c tx sig
  | Homestead | Frontier => Frontier_SignatureValues tx sig
  end.

(** ** Transactions with their caches *)

Record Transaction := mkTransaction {
  tx_inner : TxData;
  tx_time : Z;
  tx_hash : option hash;
  tx_size : option Z;
  tx_from : option (Signer * address)
}.

(** [setDecoded] on a fresh transaction. *)
Definition setDecoded (now : Z) (inner : TxData) (size : Z) : Transaction :=
  mkTransaction inner now None (if 0 <? size then Some size else None) None.

Definition NewTx (now : Z) (inner : TxData_of (option Z)) : Transaction := setDecoded now (copy inner) 0.

(** What the network hands over. *)
Definition tx_UnmarshalBinary (now : Z) (b : bytes) : result tx_decode_error Transaction :=
  try! inner <- UnmarshalBinary b; Ok (setDecoded now inner (zlen b)).

(** The number of bytes that [rlp.Encode] writes for the data. *)
Definition tx_Size (tx : Transaction) : Z * Transaction :=
  match tx_size tx with
  | Some size => (size, tx)
  | None =>
      let size := match EncodeToBytes (inner_val (tx_inner tx)) with Ok b => zlen b | Err _ => 0 end in
      (size, mkTransaction (tx_inner tx) (tx_time tx) (tx_hash tx) (Some size) (tx_from tx))
  end.

(** Signing with a private key (crypto.Sign over libsecp256k1). *)
Class Ecdsa {R : Recover} := {
  PrivateKey : Type;
  FromECDSAPub : PrivateKey → bytes;
  Sign : bytes → PrivateKey → result string bytes
}.

(** A signature is [R || S || V] with valid values in the lower half and the
    recovery id 0 or 1, and recovery inverts signing. *)
Class EcdsaOk {R : Recover} (E : Ecdsa) : Prop := {
  Sign_format : ∀ h k sig, Sign h k = Ok sig →
    length sig = 65%nat ∧ wf_bytes sig ∧
    ValidateSignatureValues (nth 64 sig 0) (be_decode (take 32 sig)) (be_decode (take 32 (drop 32 sig))) true = true;
  Sign_recovers : ∀ h k sig, Sign h k = Ok sig → Ecrecover h sig = Ok (FromECDSAPub k);
  FromECDSAPub_marker : ∀ k, ∃ p, FromECDSAPub k = 4 :: p
}.

Section Transactions.
Context {B : Backend} {R : Recover} {E : Ecdsa}.

Definition tx_Hash (tx : TxData) : hash :=
  if Type_ tx =? LegacyTxType then rlpHash (inner_val tx) else prefixedRlpHash (Type_ tx) (inner_val tx).

Definition Hash (tx : Transaction) : hash * Transaction :=
  match tx_hash tx with
  | Some h => (h, tx)
  | None =>
      let h := tx_Hash (tx_inner tx) in
      (h, mkTransaction (tx_inner tx) (tx_time tx) (Some h) (tx_size tx) (tx_from tx))
  end.

Definition Sender (signer : Signer) (tx : Transaction) : result sign_error address * Transaction :=
  let derive :=
    match signer_Sender signer (tx_inner tx) with
    | Err e => (Err e, tx)
    | Ok addr =>
        (Ok addr, mkTransaction (tx_inner tx) (tx_time tx) (tx_hash tx) (tx_size tx) (Some (signer, addr)))
    end in
  match tx_from tx with
  | Some (cached, from) => if signer_Equal cached signer then (Ok from, tx) else derive
  | None => derive
  end.

(** The data is copied, so the new transaction starts with empty caches.  The
    chain id is nil only for signers of legacy transactions, which ignore it. *)
Definition WithSignature (tx : Transaction) (signer : Signer) (sig : bytes) :
    outcome (result sign_error Transaction) :=
  do! rsv <- SignatureValues signer (tx_inner tx) sig;
  match rsv with
  | Err e => Ret (Err e)
  | Ok (r, s, v) =>
      let cpy := setSignatureValues (default 0 (signer_ChainID signer)) v r s (tx_inner tx) in
      Ret (Ok (mkTransaction cpy (tx_time tx) None None None))
  end.

Definition SignTx (tx : Transaction) (s : Signer) (prv : PrivateKey) : outcome (result sign_error Transaction) :=
  match Sign (Hash_Bytes (signer_Hash s (tx_inner tx))) prv with
  | Err e => Ret (Err (errSign e))
  | Ok sig => WithSignature tx s sig
  end.

Definition SignNewTx (now : Z) (prv : PrivateKey) (s : Signer) (txdata : TxData_of (option Z)) :
    outcome (result sign_error Transaction) :=
  SignTx (NewTx now txdata) s prv.

(** [crypto.PubkeyToAddress] of the key. *)
Definition key_Address (prv : PrivateKey) : address := be_decode (drop 12 (Keccak256 (drop 1 (FromECDSAPub prv)))).

(** The message of a transaction; the sender is the zero address on an error. *)
Definition AsMessage (tx : Transaction) (s : Signer) (baseFee : option Z) :
    Message * option sign_error * Transaction :=
  let d := tx_inner tx in
  let gasPrice :=
    match baseFee with
    | None => GasPrice d
    | Some baseFee => BigMin (GasTipCap d + baseFee) (GasFeeCap d)
    end in
  let '(from, tx) := Sender s tx in
  (mkMessage (match from with Ok a => a | Err _ => 0 end) (To d) gasPrice (Some (GasFeeCap d)) (Some (GasTipCap d))
     (Gas d) (Value d) (Nonce d) false (Data d) (AccessList_ d),
   match from with Ok _ => None | Err e => Some e end, tx).

(** [TxDifference]: the transactions of [a] whose hash is not in [b], for any view
    [inner] of a transaction. *)
Definition TxDifference {A} (inner : A → TxData) (a b : list A) : list A :=
  let remove : gset hash := fold_left (λ m tx, {[ tx_Hash (inner tx) ]} ∪ m) b ∅ in
  fold_left (λ keep tx, if decide (tx_Hash (inner tx) ∈ remove) then keep else keep ++ [tx]) a [].

(** ** Recovering what was signed *)

Lemma LeftPad_decode b : length b = 32%nat → wf_bytes b → LeftPadBytes (be_min (be_decode b)) 32 = b.
Proof.
  intros Hl Hw. pose proof (be_decode_range b Hw) as Hr. rewrite Hl in Hr.
  set (x := be_decode b) in *. set (l := LeftPadBytes (be_min x) 32).
  assert (length l = 32%nat) as Hll.
  { pose proof (length_LeftPadBytes (be_min x) 32) as Hz. fold l in Hz.
    assert (zlen (be_min x) ≤ 32) by (unfold zlen, be_min; rewrite length_be_fixed;
      pose proof (nbytes_le x 32 ltac:(lia)); lia). unfold zlen in *. lia. }
  assert (wf_bytes l) as Hwl.
  { subst l. unfold LeftPadBytes. case_match; [apply wf_be_min|]. apply Forall_app. split; [|apply wf_be_min].
    apply Forall_replicate. by split. }
  rewrite <- (be_fixed_decode l Hwl), Hll. subst l. rewrite be_decode_LeftPadBytes, be_decode_min by lia.
  rewrite <- Hl. by apply be_fixed_decode.
Qed.

Lemma sig_split (sig : bytes) : length sig = 65%nat → sig = take 32 sig ++ take 32 (drop 32 sig) ++ [nth 64 sig 0].
Proof. intros H. do 66 (destruct sig as [|? sig]; [try discriminate H; reflexivity|]). discriminate H. Qed.

Context {Eok : EcdsaOk E}.

Lemma recover_signed h prv sig :
  Sign (Hash_Bytes h) prv = Ok sig →
  recoverPlain h (be_decode (take 32 sig)) (be_decode (take 32 (drop 32 sig))) (nth 64 sig 0 + 27) true =
  Ok (key_Address prv) ∧ (nth 64 sig 0 = 0 ∨ nth 64 sig 0 = 1) ∧ length sig = 65%nat.
Proof.
  intros Hs. destruct (Sign_format _ _ _ Hs) as (Hl & Hw & Hv).
  assert (nth 64 sig 0 = 0 ∨ nth 64 sig 0 = 1) as Hid.
  { revert Hv. unfold ValidateSignatureValues. repeat case_match; try done. lia. }
  split; [|done]. unfold recoverPlain.
  assert (8 <? bitlen (Z.abs (nth 64 sig 0 + 27)) = false) as -> by (by destruct Hid as [-> | ->]).
  assert (u8 (u64 (big_Uint64 (nth 64 sig 0 + 27) - 27)) = nth 64 sig 0) as -> by (by destruct Hid as [-> | ->]).
  cbv zeta. rewrite Hv. cbn [negb]. rewrite !LeftPad_decode.
  - rewrite <- (sig_split sig Hl), (Sign_recovers _ _ _ Hs).
    unfold key_Address. destruct (FromECDSAPub_marker prv) as [p Hp]. by rewrite Hp.
  - rewrite length_take, length_drop. lia.
  - by apply Forall_take, Forall_drop.
  - rewrite length_take. lia.
  - by apply Forall_take.
Qed.

Lemma decodeSignature_ok sig : length sig = 65%nat →
  decodeSignature sig = Ret (be_decode (take 32 sig), be_decode (take 32 (drop 32 sig)), u8 (nth 64 sig 0 + 27)).
Proof. intros H. unfold decodeSignature, zlen. by rewrite H. Qed.

Lemma protected_V v c : v = 0 ∨ v = 1 → 0 < c →
  isProtectedV (v + 35 + c * 2) = true ∧ deriveChainId (v + 35 + c * 2) = c.
Proof.
  intros Hv Hc. set (V := v + 35 + c * 2). assert (37 ≤ V) as HV by (subst V; lia).
  assert (∀ n, 0 < n → bitlen V ≤ n → V < 2 ^ n) as Hbit.
  { intros n Hn. unfold bitlen. destruct (Z.leb_spec V 0); [lia|]. intros H1.
    pose proof (Z.log2_spec V ltac:(lia)) as [_ H2]. eapply Z.lt_le_trans; [exact H2|].
    apply Z.pow_le_mono_r; lia. }
  split.
  - unfold isProtectedV. destruct (Z.leb_spec (bitlen V) 8) as [H|]; [|done]. apply Hbit in H; [|lia].
    unfold u64. rewrite wrap_id by (unfold in_w; lia).
    destruct (Z.eqb_spec V 27), (Z.eqb_spec V 28), (Z.eqb_spec V 1), (Z.eqb_spec V 0); (done || lia).
  - unfold deriveChainId. destruct (Z.leb_spec (bitlen V) 64) as [H|]; [apply Hbit in H; [|lia]|].
    + unfold u64. rewrite (wrap_id 64 V) by (unfold in_w; lia).
      destruct (Z.eqb_spec V 27), (Z.eqb_spec V 28); try lia. cbn [orb].
      rewrite wrap_id by (unfold in_w; lia). subst V. destruct Hv as [-> | ->]; Z.to_euclidean_division_equations; lia.
    + subst V. destruct Hv as [-> | ->]; Z.to_euclidean_division_equations; lia.
Qed.

Lemma Cmp_refl x : negb (big_Cmp x x =? 0) = false.
Proof. by rewrite Cmp_eq, Z.eqb_refl. Qed.
Lemma Cmp_neq x y : x ≠ y → negb (big_Cmp x y =? 0) = true.
Proof. intros H. rewrite Cmp_eq. by destruct (Z.eqb_spec x y). Qed.

(** The hash that is signed does not depend on the signature values. *)
Lemma London_Hash_unsigned c c' v r s tx : London_Hash c (setSignatureValues c' v r s tx) = London_Hash c tx.
Proof. by destruct tx. Qed.

(** A transaction without its signature and chain id. *)
Definition payload (tx : TxData) : TxData := setSignatureValues 0 0 0 0 tx.

(** What the signature values become, by type. *)
Lemma WithSignature_London c tx sig tx' :
  0 < c → length sig = 65%nat → (nth 64 sig 0 = 0 ∨ nth 64 sig 0 = 1) →
  WithSignature tx (London c) sig = Ret (Ok tx') →
  tx_from tx' = None ∧
  tx_inner tx' = setSignatureValues c
    (match tx_inner tx with Legacy _ => nth 64 sig 0 + 35 + c * 2 | _ => nth 64 sig 0 end)
    (be_decode (take 32 sig)) (be_decode (take 32 (drop 32 sig))) (tx_inner tx).
Proof.
  intros Hc Hl Hv. unfold WithSignature, SignatureValues, London_SignatureValues, EIP2930_SignatureValues,
    EIP155_SignatureValues, typed_SignatureValues.
  destruct (tx_inner tx) as [t|t|t]; cbn [Type_].
  - rewrite decodeSignature_ok by done. cbn [obind]. rewrite Z.sgn_pos by done. cbn.
    intros [= <-]. cbn. unfold u8. rewrite wrap_id by (unfold in_w; lia). done.
  - destruct (negb (Z.sgn _ =? 0) && _); [done|]. rewrite decodeSignature_ok by done. cbn. by intros [= <-].
  - destruct (negb (Z.sgn _ =? 0) && _); [done|]. rewrite decodeSignature_ok by done. cbn. by intros [= <-].
Qed.

Lemma signed_ChainId c v r s tx : 0 < c → v = 0 ∨ v = 1 →
  let tx' := setSignatureValues c (match tx with Legacy _ => v + 35 + c * 2 | _ => v end) r s tx in
  ChainId tx' = c ∧ Protected tx' = true.
Proof. intros Hc Hv. destruct tx as [t|t|t]; cbn; [|done|done]. by destruct (protected_V v c Hv Hc). Qed.

(** [London_Sender] on a transaction that carries the signer's form of [V]. *)
Lemma London_Sender_signed c c2 v r s tx : 0 < c → v = 0 ∨ v = 1 →
  let tx' := setSignatureValues c (match tx with Legacy _ => v + 35 + c * 2 | _ => v end) r s tx in
  London_Sender c2 tx' =
  if negb (big_Cmp c c2 =? 0) then Err ErrInvalidChainId
  else recoverPlain (London_Hash c2 tx) r s (match tx with Legacy _ => v + 27 + c * 2 - c2 * 2 | _ => v + 27 end) true.
Proof.
  intros Hc Hv tx'. destruct (signed_ChainId c v r s tx Hc Hv) as [Hid Hp]. fold tx' in Hid, Hp.
  pose proof (London_Hash_unsigned c2 c (match tx with Legacy _ => v + 35 + c * 2 | _ => v end) r s tx) as Hh.
  fold tx' in Hh. unfold London_Sender, EIP2930_Sender. rewrite Hid, Hp. rewrite <- Hh.
  subst tx'. destruct tx as [t|t|t]; cbn; try done.
  destruct (negb (big_Cmp c c2 =? 0)); [done|]. unfold London_Hash. cbn. f_equal. lia.
Qed.

(** ** The caches *)

Definition caches_right (tx : Transaction) : Prop :=
  (∀ h, tx_hash tx = Some h → h = tx_Hash (tx_inner tx)) ∧
  (∀ s a, tx_from tx = Some (s, a) → signer_Sender s (tx_inner tx) = Ok a).

Lemma signer_Equal_eq s s2 : signer_Equal s s2 = true → s = s2.
Proof.
  destruct s, s2; cbn; try done; rewrite Cmp_eq; by intros ->%Z.eqb_eq.
Qed.

Lemma Hash_right tx : caches_right tx →
  fst (Hash tx) = tx_Hash (tx_inner tx) ∧ caches_right (snd (Hash tx)) ∧ tx_inner (snd (Hash tx)) = tx_inner tx.
Proof.
  intros [Hh Hf]. unfold Hash. destruct (tx_hash tx) as [h|] eqn:Eh; cbn.
  - split; [by apply Hh|]. by split; [split; [rewrite Eh|]|].
  - split; [done|]. split; [|done]. split; [by intros h [= <-]|done].
Qed.

Lemma Sender_right s tx : caches_right tx →
  fst (Sender s tx) = signer_Sender s (tx_inner tx) ∧ caches_right (snd (Sender s tx)) ∧
  tx_inner (snd (Sender s tx)) = tx_inner tx.
Proof.
  intros [Hh Hf]. unfold Sender.
  assert (∀ p, p = (match signer_Sender s (tx_inner tx) with
    | Err e => (Err e, tx)
    | Ok addr => (Ok addr, mkTransaction (tx_inner tx) (tx_time tx) (tx_hash tx) (tx_size tx) (Some (s, addr)))
    end) → fst p = signer_Sender s (tx_inner tx) ∧ caches_right (snd p) ∧ tx_inner (snd p) = tx_inner tx) as Hd.
  { intros p ->. destruct (signer_Sender s (tx_inner tx)) as [a|e] eqn:Es; cbn; [|done].
    split; [done|]. split; [|done]. split; [done|]. by intros s' a' [= <- <-]. }
  destruct (tx_from tx) as [[s' a]|] eqn:Ef; [|by apply Hd].
  destruct (signer_Equal s' s) eqn:Eq; [|by apply Hd]. apply signer_Equal_eq in Eq as ->. cbn.
  split; [symmetry; by apply Hf|]. split; [|done]. split; [done|by rewrite Ef].
Qed.

End Transactions.

(** The size of a typed transaction depends on how the node got it: built here,
    the type byte is not counted; decoded from its binary form, it is. *)
Lemma size_depends_on_origin now tx b :
  tx_fits tx → Type_ tx ≠ LegacyTxType → MarshalBinary tx = Ok b →
  ∃ dec, tx_UnmarshalBinary now b = Ok dec ∧ tx_inner dec = tx ∧
    fst (tx_Size dec) = fst (tx_Size (setDecoded now tx 0)) + 1.
Proof.
  intros Hf Hty Hm. destruct (Unmarshal_Marshal tx Hf) as (b' & Hm' & Hu). rewrite Hm in Hm'. injection Hm' as <-.
  exists (setDecoded now tx (zlen b)). unfold tx_UnmarshalBinary. rewrite Hu. split; [done|]. split; [done|].
  revert Hm. unfold MarshalBinary, encodeTyped. destruct (Z.eqb_spec (Type_ tx) LegacyTxType); [done|].
  rewrite inner_encoded by done. cbn [rbind]. intros [= <-]. unfold tx_Size, setDecoded. cbn [tx_size tx_inner].
  rewrite inner_encoded by done. cbn [fst Z.ltb Z.compare].
  unfold zlen. cbn [length]. destruct (Z.ltb_spec 0 (Z.of_nat (S (length (enc (item_of (inner_val tx))))))); [|lia].
  cbn [fst]. lia.
Qed.

(** ** Claims *)

(** C31: signing binds a transaction to its signer and to one chain.  Whatever the
    type of the transaction, what [SignTx] returns for the chain [c] keeps every
    field but the signature and the chain id, has the chain id [c] and recovers to
    the address of the key that signed it; a signer of any other chain refuses
    it, so it cannot be replayed there. *)
Theorem signed_tx_is_bound `{B : Backend} `{R : Recover} (E : Ecdsa) `{!EcdsaOk E} c tx prv tx' :
  0 < c → SignTx tx (London c) prv = Ret (Ok tx') →
  fst (Sender (London c) tx') = Ok (key_Address prv) ∧
  ChainId (tx_inner tx') = c ∧ payload (tx_inner tx') = payload (tx_inner tx) ∧
  ∀ c2, c2 ≠ c → fst (Sender (London c2) tx') = Err ErrInvalidChainId.
Proof.
  intros Hc. unfold SignTx. destruct (Sign _ prv) as [sig|e] eqn:Es; [|done].
  destruct (recover_signed _ prv sig Es) as (Hr & Hv & Hl). intros Hw.
  destruct (WithSignature_London c tx sig tx' Hc Hl Hv Hw) as [Hf Hi].
  assert (∀ c2, London_Sender c2 (tx_inner tx') = _) as Hs
    by (intros c2; rewrite Hi; apply (London_Sender_signed c c2 _ _ _ _ Hc Hv)).
  unfold Sender. rewrite Hf. cbn [signer_Sender signer_Hash] in *. split_and!.
  - rewrite Hs, Cmp_refl. replace (match tx_inner tx with Legacy _ => _ | _ => _ end) with (nth 64 sig 0 + 27)
      by (destruct (tx_inner tx); lia). by rewrite Hr.
  - rewrite Hi. by apply signed_ChainId.
  - rewrite Hi. by destruct (tx_inner tx).
  - intros c2 Hne. rewrite Hs. by rewrite Cmp_neq by done.
Qed.

(** Signatures in the clear: the key is the [R] of the signature. *)
#[local] Instance ClearRecover : Recover := {| Ecrecover _ sig := Ok (4 :: take 32 sig) |}.
Definition clear_sig (k : Z) : bytes := be_fixed 32 k ++ be_fixed 32 7 ++ [1].
#[local] Instance ClearEcdsa : Ecdsa := {|
  PrivateKey := Z;
  FromECDSAPub k := 4 :: be_fixed 32 k;
  Sign _ k :=
    if (0 <? k) && (k <? secp256k1N) then Ok (clear_sig k) else Err "invalid key"%string |}.
#[local] Instance ClearEcdsaOk : EcdsaOk ClearEcdsa.
Proof.
  assert (∀ k, take 32 (clear_sig k) = be_fixed 32 k) as Ht.
  { intros k. apply take_app_length'. by rewrite length_be_fixed. }
  constructor; cbn [Sign ClearEcdsa Ecrecover ClearRecover FromECDSAPub]; intros h.
  - intros k sig. destruct (Z.ltb_spec 0 k), (Z.ltb_spec k secp256k1N); cbn [andb]; try done. intros [= <-]. split_and!.
    + unfold clear_sig. by rewrite !length_app, !length_be_fixed.
    + unfold clear_sig. apply Forall_app. split; [apply wf_be_fixed|].
      apply Forall_app. split; [apply wf_be_fixed|]. repeat constructor; lia.
    + rewrite Ht, be_decode_fixed, Z.mod_small.
      2: { change (256 ^ Z.of_nat 32) with (2 ^ 256). unfold secp256k1N in *. lia. }
      unfold clear_sig. rewrite drop_app_length' by (by rewrite length_be_fixed).
      rewrite take_app_length' by (by rewrite length_be_fixed).
      rewrite be_decode_fixed. change (7 mod 256 ^ Z.of_nat 32) with 7.
      rewrite app_nth2 by (rewrite length_be_fixed; lia). rewrite app_nth2 by (rewrite !length_be_fixed; lia).
      rewrite !length_be_fixed. cbn [Nat.sub nth]. unfold ValidateSignatureValues.
      destruct (Z.ltb_spec k 1); [lia|]. cbn. destruct (Z.ltb_spec k secp256k1N); [|lia]. done.
  - intros k sig. destruct (_ && _); [|done]. intros [= <-]. by rewrite Ht.
  - by eexists.
Qed.

Definition demo_signed : Transaction :=
  match SignTx (setDecoded 0 demo_tx 0) (London 61) 1234 with Ret (Ok tx) => tx | _ => setDecoded 0 demo_tx 0 end.

Lemma signed_tx_is_bound_witness :
  fst (Sender (London 61) demo_signed) = Ok (key_Address 1234) ∧
  ChainId (tx_inner demo_signed) = 61 ∧ payload (tx_inner demo_signed) = payload demo_tx ∧
  ∀ c2, c2 ≠ 61 → fst (Sender (London c2) demo_signed) = Err ErrInvalidChainId.
Proof.
  apply (signed_tx_is_bound ClearEcdsa 61 (setDecoded 0 demo_tx 0) 1234); [lia|]. vm_compute. reflexivity.
Defined.
