(* ===== verification/TxExecution.v ===== *)
(** * A transaction on the chain's EVM

    From the transaction to the balances it leaves: the message that
    [AsMessage] makes of it is applied by [ApplyMessage] over the EVM of
    [EvmLink].  What the accounts lose together is the base fee of the gas used,
    besides what the execution itself burns (a contract that destroys itself in
    its own favour). *)
From S2P Require Import Prelude Common AccessList StateObject Concrete StateDB StateRevert StateBalance Transfer StateEffect.
From S2P Require Import TeWakaSpec EvmWord EvmMachine EvmCall EvmRun EvmGas EvmEffect StateTransition EvmLink.
From S2P Require Import Transaction TxSigning.
Import Crypto.
#[local] Existing Instance still_drift.

Section Execution.
Context {B : Backend} {U : Uint256} {P : Precompiles} (evm : EvmEnv) (Error : vm_error → string).

(** What the transition runs: a call, or a creation without a recipient. *)
Definition message_run (msg : Message) (gas : Z) : evm_run :=
  match msg_To msg with
  | None => create_message evm Error (msg_From msg) (msg_Data msg) gas (msg_Value msg)
  | Some to => call_message evm Error (msg_From msg) to (msg_Data msg) gas (msg_Value msg)
  end.

Context {BOk : BackendOk B} {PG : PrecompilesGas} {PO : PrecompilesOk}.

Lemma failed_run_total msg gas s ret rest err s' accts :
  ready s → valid_addr (msg_From msg) → (∀ to, msg_To msg = Some to → valid_addr to) → Forall valid_addr accts →
  message_run msg gas s = Ret (ret, rest, Some err, s') → total accts (bal s') = total accts (bal s).
Proof.
  intros Hs Hf Hto Ha E.
  assert (∀ b, valid_addr b → bal s' b = bal s b) as Hb.
  { intros b Hb. apply (failed_run_bal evm Error msg gas s ret rest err s' b Hs Hf Hto Hb).
    unfold message_run in E. by destruct (msg_To msg). }
  induction Ha as [|a accts Hv _ IH]; [done|]. cbn [total]. by rewrite IH, Hb.
Qed.
End Execution.

(** ** Claims *)

(** C19: exactly the base fee is burnt.  The message that [AsMessage] makes of a
    transaction at the base fee of the block is applied over the EVM: the total
    balance of any set of accounts with the sender and the miner drops by the gas used
    times the base fee, besides what the run of the EVM on it, after the gas was
    bought, does to that total itself, which is nothing when the run fails.  (A run
    that succeeds may send coins out of the set, and burns those of a contract that
    destroys itself in its own favour.) *)
Theorem base_fee_is_burnt {B : Backend} {BOk : BackendOk B} {U : Uint256} {P : Precompiles} {PG : PrecompilesGas}
    {PO : PrecompilesOk} {R : Recover} evm Error env tx signer tx' msg baseFee gp s r st' accts :
  let X := EvmMessages evm Error in
  te_BaseFee env = Some baseFee → AsMessage tx signer (Some baseFee) = (msg, None, tx') →
  ready s → is_u64 gp → is_u64 (msg_Gas msg) → valid_addr (msg_From msg) → valid_addr (te_Coinbase env) →
  (∀ to, msg_To msg = Some to → valid_addr to) →
  NoDup accts → Forall valid_addr accts → msg_From msg ∈ accts → te_Coinbase env ∈ accts →
  ApplyMessage env msg gp s = Ret (Ok r, st') →
  ∃ gas pre rest post,
    (∀ b, bal pre b = bal s b - add_at (msg_From msg) (msg_Gas msg * msg_GasPrice msg) b) ∧
    message_run evm Error msg gas pre = Ret (er_ReturnData r, rest, er_Err r, post) ∧
    total accts (bal (st_state st')) =
      total accts (bal s) - er_UsedGas r * baseFee + (total accts (bal post) - total accts (bal pre)) ∧
    (er_Err r ≠ None → total accts (bal post) = total accts (bal pre)).
Proof.
  intros X Hb Hm Hs Hgp Hg Hf Hc Hto Hnd Hva Hin1 Hin2 H.
  destruct (ApplyMessage_applied env msg gp s r st' Hs Hgp Hg Hf Hc Hto H)
    as (cap & tip & bf & intrinsic & rest & refund & pre & post & A).
  pose proof (applied_total _ _ _ _ _ _ _ _ _ _ _ _ _ _ accts A Hnd Hin1 Hin2) as Ht. destruct A.
  exists (msg_Gas msg - intrinsic), pre, rest, post.
  assert (message_run evm Error msg (msg_Gas msg - intrinsic) pre = Ret (er_ReturnData r, rest, er_Err r, post)) as Hrun
    by (unfold message_run; by destruct (msg_To msg)).
  split_and!; [done|done| |].
  - assert (msg_GasPrice msg - Z.min tip (cap - bf) = baseFee) as E; [|rewrite Ht, E; lia].
    rewrite Hb in ap_base. injection ap_base as <-. unfold AsMessage in Hm. destruct (Sender signer tx) as [[a|e] tx2]; [|done].
    injection Hm as <- _. cbn in *. injection ap_cap as <-. injection ap_tip as <-. rewrite GoMath.BigMin_min. lia.
  - destruct (er_Err r) as [err|]; [|done]. intros _.
    by apply (failed_run_total evm Error msg (msg_Gas msg - intrinsic) pre (er_ReturnData r) rest err post accts).
Qed.

(** ** A transaction that burns more *)

#[local] Instance ClearRecover : Recover := {| Ecrecover _ sig := Ok (4 :: take 32 sig) |}.

(** The code of account 8 destroys it in its own favour: [ADDRESS, SELFDESTRUCT]. *)
Definition burn_code : bytes := [0x30; 0xff].
(** 55 coins to account 8, at most 20 a unit of gas, 3 of it for the miner. *)
Definition burn_tx : Transaction :=
  setDecoded 0 (DynamicFee (mkDynamicFeeTx 61 0 3 20 100000 (Some 8) 55 [] [] 1 1234 7)) 0.
Definition burn_msg : Message := (AsMessage burn_tx (London 61) (Some 10)).1.1.
Definition burn_state : StateDB := SetCode 8 burn_code (AddBalance (msg_From burn_msg) 10000000 genesis_state).
Definition burn_applied := ApplyMessage (X := EvmMessages tx_evm_env no_text) StateTransition.demo_env burn_msg 5000000 burn_state.

Lemma burn_state_ready : ready burn_state.
Proof.
  assert (valid_addr (msg_From burn_msg)) as Ha by (vm_compute; split; congruence).
  apply (ready_eff False (AddBalance (msg_From burn_msg) 10000000 genesis_state)).
  - apply (ready_eff False genesis_state); [|by apply eff_AddBalance].
    split; [exact (conj genesis_inv genesis_revs)|split; vm_compute; [discriminate|reflexivity]].
  - apply (eff_SetCode 8). split; [discriminate|reflexivity].
Qed.
Lemma burn_applied_ok : ∃ r st', burn_applied = Ret (Ok r, st') ∧ er_UsedGas r = 26002 ∧
  total [1234; 8; 9] (bal (st_state st')) = 10000000 - 26002 * 10 - 55.
Proof.
  assert (match burn_applied with
          | Ret (Ok r, st') => er_UsedGas r = 26002 ∧ total [1234; 8; 9] (bal (st_state st')) = 10000000 - 26002 * 10 - 55
          | _ => False end) as H by (vm_compute; split; reflexivity).
  destruct burn_applied as [[[r|e] st']|]; [|by destruct H..]. by exists r, st'.
Qed.
Lemma burn_tx_msg : ∃ tx', AsMessage burn_tx (London 61) (Some 10) = (burn_msg, None, tx').
Proof. eexists. vm_compute. reflexivity. Qed.
Lemma burn_addrs : Forall valid_addr [1234; 8; 9].
Proof. repeat constructor; vm_compute; congruence. Qed.

(** The base fee goes, and the 55 coins that the run burns. *)
Lemma base_fee_is_burnt_witness :
  ∃ r st' gas pre rest post, burn_applied = Ret (Ok r, st') ∧
    message_run tx_evm_env no_text burn_msg gas pre = Ret (er_ReturnData r, rest, er_Err r, post) ∧
    total [1234; 8; 9] (bal post) - total [1234; 8; 9] (bal pre) = - 55.
Proof.
  destruct burn_applied_ok as (r & st' & E & Hu & Ht), burn_tx_msg as [tx' Em].
  destruct (base_fee_is_burnt tx_evm_env no_text StateTransition.demo_env burn_tx (London 61) tx' burn_msg 10 5000000 burn_state
    r st' [1234; 8; 9] eq_refl Em burn_state_ready) as (gas & pre & rest & post & _ & Hrun & Hb & _).
  - split; vm_compute; congruence.
  - split; vm_compute; congruence.
  - split; vm_compute; congruence.
  - split; vm_compute; congruence.
  - intros to [= <-]. split; [discriminate|reflexivity].
  - apply (bool_decide_unpack _). vm_compute. exact I.
  - exact burn_addrs.
  - apply (bool_decide_unpack _). vm_compute. exact I.
  - apply (bool_decide_unpack _). vm_compute. exact I.
  - exact E.
  - exists r, st', gas, pre, rest, post. split; [exact E|]. split; [exact Hrun|].
    assert (total [1234; 8; 9] (bal burn_state) = 10000000) as E0 by (vm_compute; reflexivity).
    rewrite Ht, Hu, E0 in Hb. lia.
Defined.
