(* ===== verification/Heap.v ===== *)
(** * Binary heaps (the Go library container/heap)

    The heap functions over a slice with a comparison, index by index as the
    library has them, and what the transaction pool uses of them: they permute the
    slice, keep the heap order, and the first element is a least one.  An index
    out of range is a panic: [Pop] of an empty heap. *)
From S2P Require Import Prelude.

Section Ops.
Context {A : Type} (less : A → A → bool).

(** [h.Less(i, j)] and [h.Swap(i, j)] at indices within range. *)
Definition Less (l : list A) (i j : nat) : bool :=
  match l !! i, l !! j with Some a, Some b => less a b | _, _ => false end.
Definition Swap (l : list A) (i j : nat) : list A :=
  match l !! i, l !! j with Some a, Some b => <[i := b]> (<[j := a]> l) | _, _ => l end.

Definition parent (j : nat) : nat := (j - 1) / 2.

(** One round per level: the index at least halves. *)
Fixpoint up (fuel : nat) (l : list A) (j : nat) : list A :=
  match fuel with
  | O => l
  | S f =>
      let i := parent j in
      if (i =? j)%nat || negb (Less l j i) then l else up f (Swap l i j) i
  end.

(** The slice and the index where the element stops; the index grows. *)
Fixpoint down (fuel : nat) (l : list A) (i n : nat) : list A * nat :=
  match fuel with
  | O => (l, i)
  | S f =>
      let j1 := (2 * i + 1)%nat in
      if (n <=? j1)%nat then (l, i)
      else
        let j := if (j1 + 1 <? n)%nat && Less l (j1 + 1) j1 then (j1 + 1)%nat else j1 in
        if negb (Less l j i) then (l, i) else down f (Swap l i j) j n
  end.

(** [for i := n/2 - 1; i >= 0; i--]. *)
Fixpoint Init_loop (k : nat) (l : list A) : list A :=
  match k with
  | O => l
  | S i => Init_loop i (fst (down (length l) l i (length l)))
  end.
Definition Init (l : list A) : list A := Init_loop (length l / 2) l.

Definition Push (x : A) (l : list A) : list A :=
  let l := l ++ [x] in up (length l) l (length l - 1).

(** [h.Pop()] of the slice heaps: the last element. *)
Definition pop_last (l : list A) : option (A * list A) :=
  match l !! (length l - 1)%nat with
  | Some x => Some (x, take (length l - 1) l)
  | None => None
  end.

Definition Pop (l : list A) : outcome (A * list A) :=
  let n := (length l - 1)%nat in
  match pop_last (fst (down (length l) (Swap l 0 n) 0 n)) with
  | Some r => Ret r
  | None => Panic
  end.

Definition fix_at (l : list A) (i n : nat) : list A :=
  let '(l', i') := down (length l) l i n in
  if (i <? i')%nat then l' else up (length l) l' i.

Definition Remove (l : list A) (i : nat) : outcome (A * list A) :=
  if (i <? length l)%nat then
    let n := (length l - 1)%nat in
    let l := if (n =? i)%nat then l else fix_at (Swap l i n) i n in
    match pop_last l with Some r => Ret r | None => Panic end
  else Panic.

Definition Fix (l : list A) (i : nat) : list A := fix_at l i (length l).

End Ops.

(** ** Swapping *)

Section Swaps.
Context {A : Type} (less : A → A → bool).
Implicit Types l : list A.

Lemma length_Swap l i j : length (Swap l i j) = length l.
Proof. unfold Swap. repeat case_match; rewrite ?length_insert; done. Qed.

Lemma insert_Permutation l i x y : l !! i = Some x → x :: <[i := y]> l ≡ₚ y :: l.
Proof.
  revert i. induction l as [|z l IH]; intros [|i] H; try done; cbn in *.
  - injection H as ->. apply perm_swap.
  - etransitivity; [apply perm_swap|]. rewrite (IH i H). apply perm_swap.
Qed.

Lemma Swap_Permutation l i j : Swap l i j ≡ₚ l.
Proof.
  unfold Swap. destruct (l !! i) as [a|] eqn:Ei; [|done]. destruct (l !! j) as [b|] eqn:Ej; [|done].
  destruct (decide (i = j)) as [<-|Hne].
  { rewrite list_insert_insert_eq, list_insert_id; [done|]. congruence. }
  apply (Permutation_cons_inv (a := a)).
  rewrite (insert_Permutation (<[j := a]> l) i a b) by (by rewrite list_lookup_insert_ne).
  by apply insert_Permutation.
Qed.

Lemma Swap_lookup l i j m : (i < length l)%nat → (j < length l)%nat →
  Swap l i j !! m = if decide (m = i) then l !! j else if decide (m = j) then l !! i else l !! m.
Proof.
  intros Hi Hj. unfold Swap.
  destruct (lookup_lt_is_Some_2 l i Hi) as [a Ea], (lookup_lt_is_Some_2 l j Hj) as [b Eb]. rewrite Ea, Eb.
  destruct (decide (m = i)) as [->|]; [by rewrite list_lookup_insert_eq by (by rewrite length_insert)|].
  rewrite list_lookup_insert_ne by done. destruct (decide (m = j)) as [->|].
  - by rewrite list_lookup_insert_eq.
  - by rewrite list_lookup_insert_ne.
Qed.

Lemma down_Permutation fuel : ∀ l i n, fst (down less fuel l i n) ≡ₚ l.
Proof.
  induction fuel as [|f IH]; intros l i n; [done|]. cbn [down].
  destruct (n <=? 2 * i + 1)%nat; [done|]. destruct (negb _); [done|]. rewrite IH. apply Swap_Permutation.
Qed.

Lemma up_Permutation fuel : ∀ l j, up less fuel l j ≡ₚ l.
Proof.
  induction fuel as [|f IH]; intros l j; [done|]. cbn [up]. case_match; [done|].
  rewrite IH. apply Swap_Permutation.
Qed.

Lemma Push_Permutation x l : Push less x l ≡ₚ x :: l.
Proof. unfold Push. rewrite up_Permutation. symmetry. apply Permutation_cons_append. Qed.

Lemma Init_Permutation l : Init less l ≡ₚ l.
Proof.
  unfold Init. generalize (length l / 2)%nat as k. intros k. revert l. induction k as [|k IH]; intros l; [done|].
  cbn [Init_loop]. rewrite IH. apply down_Permutation.
Qed.

Lemma down_length fuel l i n : length (fst (down less fuel l i n)) = length l.
Proof. by rewrite down_Permutation. Qed.

Lemma up_length fuel l j : length (up less fuel l j) = length l.
Proof. by rewrite up_Permutation. Qed.

(** [up] stays at or below [j]. *)
Lemma up_above fuel : ∀ l j m, (j < m < length l)%nat → up less fuel l j !! m = l !! m.
Proof.
  induction fuel as [|f IH]; intros l j m Hm; [done|]. cbn [up].
  assert (parent j ≤ j)%nat by (unfold parent; apply Nat.Div0.div_le_upper_bound; lia).
  case_match; [done|]. rewrite IH by (rewrite length_Swap; lia). rewrite Swap_lookup by lia.
  rewrite !decide_False by lia. done.
Qed.

Lemma down_grows fuel : ∀ l i n, (i ≤ snd (down less fuel l i n))%nat.
Proof.
  induction fuel as [|f IH]; intros l i n; [done|]. cbn [down].
  destruct (n <=? 2 * i + 1)%nat; [done|]. destruct (negb _); [done|].
  etransitivity; [|apply IH]. destruct (_ && _); lia.
Qed.

(** [down] stays below [n]. *)
Lemma down_above fuel : ∀ l i n m, (n ≤ length l)%nat → (n ≤ m)%nat → (i < n)%nat →
  fst (down less fuel l i n) !! m = l !! m.
Proof.
  induction fuel as [|f IH]; intros l i n m Hn Hm Hi; [done|]. cbn [down].
  destruct (Nat.leb_spec n (2 * i + 1)); [done|].
  set (j := if _ && _ then _ else _).
  assert (i < j < n)%nat as Hj.
  { subst j. destruct (Nat.ltb_spec (2 * i + 1 + 1) n); cbn [andb]; [destruct (Less _ _ _ _)|]; lia. }
  destruct (negb (Less less l j i)); [done|]. rewrite IH; [|by rewrite length_Swap|done|lia].
  rewrite Swap_lookup by lia. destruct (decide (m = i)); [lia|]. by destruct (decide (m = j)); [lia|].
Qed.
End Swaps.

(** ** The heap order *)

(** A strict weak order, as the comparisons of the heaps are. *)
Class WeakOrder {A} (less : A → A → bool) : Prop := {
  less_asym : ∀ a b, less a b = true → less b a = false;
  less_negtrans : ∀ a b c, less b a = false → less c b = false → less c a = false
}.

Lemma parent_child c : (0 < c)%nat → c = (2 * parent c + 1)%nat ∨ c = (2 * parent c + 2)%nat.
Proof. intros H. unfold parent. pose proof (Nat.div_mod (c - 1) 2 ltac:(lia)). pose proof (Nat.mod_upper_bound (c - 1) 2). lia. Qed.
Lemma parent_lt c : (0 < c)%nat → (parent c < c)%nat.
Proof. intros H. destruct (parent_child c H); lia. Qed.
Lemma parent_of c i : c = (2 * i + 1)%nat ∨ c = (2 * i + 2)%nat → parent c = i.
Proof. intros H. destruct (parent_child c); lia. Qed.

Section Order.
Context {A : Type} (less : A → A → bool) {W : WeakOrder less}.
Implicit Types l : list A.

Definition le_at l (i j : nat) : Prop := ∀ a b, l !! i = Some a → l !! j = Some b → less b a = false.

(** The first [n] elements are in heap order. *)
Definition heap_n (n : nat) l : Prop := ∀ c, (0 < c < n)%nat → le_at l (parent c) c.
Definition is_heap l : Prop := heap_n (length l) l.

Lemma Less_true l i j : Less less l i j = true → le_at l i j.
Proof. unfold Less, le_at. intros H a b Ea Eb. rewrite Ea, Eb in H. by apply less_asym. Qed.
Lemma Less_false l i j : Less less l j i = false → le_at l i j.
Proof. unfold Less, le_at. intros H a b Ea Eb. by rewrite Ea, Eb in H. Qed.
Lemma le_at_trans l i j k : (j < length l)%nat → le_at l i j → le_at l j k → le_at l i k.
Proof.
  intros Hj H1 H2 a c Ea Ec. destruct (lookup_lt_is_Some_2 l j Hj) as [b Eb]. eapply less_negtrans; [by eapply H1|by eapply H2].
Qed.

(** In order but for the element at [i]: the links not through [i], from the
    index [k] on, and from the parent of [i] to its children. *)
Definition almost (k n : nat) l (i : nat) : Prop :=
  (∀ c, (0 < c < n)%nat → (k ≤ parent c)%nat → c ≠ i → parent c ≠ i → le_at l (parent c) c) ∧
  (∀ c, (0 < c < n)%nat → parent c = i → (0 < i)%nat → (k ≤ parent i)%nat → le_at l (parent i) c).

Lemma le_at_refl l m : le_at l m m.
Proof.
  intros a b Ea Eb. replace b with a by congruence. destruct (less a a) eqn:E; [|done].
  by rewrite (less_asym a a E) in E.
Qed.

(** The child that [down] compares with is the lesser one. *)
Lemma lesser_child n l i :
  (2 * i + 1 < n)%nat →
  let j := if (2 * i + 1 + 1 <? n)%nat && Less less l (2 * i + 1 + 1) (2 * i + 1)
           then (2 * i + 1 + 1)%nat else (2 * i + 1)%nat in
  (0 < j < n ∧ parent j = i ∧ i < j)%nat ∧ ∀ c, (0 < c < n)%nat → parent c = i → le_at l j c.
Proof.
  intros Hn j. split.
  - subst j. destruct (Nat.ltb_spec (2 * i + 1 + 1) n); cbn [andb]; [destruct (Less _ _ _ _)|];
      (split; [lia|]); (split; [apply parent_of; lia|lia]).
  - intros c Hc Hp. assert (c = (2 * i + 1)%nat ∨ c = (2 * i + 1 + 1)%nat) as Hcc by (destruct (parent_child c); lia).
    subst j. destruct (Nat.ltb_spec (2 * i + 1 + 1) n) as [H2|H2]; cbn [andb].
    + destruct (Less less l (2 * i + 1 + 1) (2 * i + 1)) eqn:E, Hcc as [-> | ->]; try apply le_at_refl;
        [by apply Less_true|by apply Less_false].
    + destruct Hcc as [-> | ->]; [apply le_at_refl|lia].
Qed.

Lemma down_spec fuel : ∀ k n l i, (n ≤ length l)%nat → (i < n)%nat → (k ≤ i)%nat → (n ≤ fuel + i)%nat →
  almost k n l i →
  let '(l', i') := down less fuel l i n in
  (∀ c, (0 < c < n)%nat → (k ≤ parent c)%nat → c ≠ i ∨ (i < i')%nat → le_at l' (parent c) c) ∧
  ((i' ≤ i)%nat → l' = l).
Proof.
  induction fuel as [|f IH]; intros k n l i Hn Hi Hk Hf [Ho Ht]; [lia|]. cbn [down].
  destruct (Nat.leb_spec n (2 * i + 1)) as [Hend|Hchild].
  { split; [|done]. intros c Hc Hkc [Hne|]; [|lia]. apply Ho; try done. intros <-.
    destruct (parent_child c); lia. }
  set (j := if _ && _ then _ else _).
  destruct (lesser_child n l i Hchild) as [(Hj & Hpj & Hij) Hmin]. fold j in Hj, Hpj, Hij, Hmin.
  destruct (Less less l j i) eqn:Elt; cbn [negb].
  2: { split; [|done]. intros c Hc Hkc [Hne|]; [|lia]. destruct (decide (parent c = i)) as [Hp|]; [|by apply Ho].
       rewrite Hp. apply (le_at_trans l i j c); [lia|by apply Less_false|by apply Hmin]. }
  assert (∀ m, Swap l i j !! m = if decide (m = i) then l !! j else if decide (m = j) then l !! i else l !! m) as Hsw
    by (intros m; apply Swap_lookup; lia).
  assert (∀ p c, (0 < c < n)%nat → (k ≤ p)%nat → p = parent c → p ≠ j → c ≠ j → le_at (Swap l i j) p c) as Hrest.
  { intros p c Hc Hkp -> Hpj' Hcj a b. rewrite !Hsw.
    destruct (decide (parent c = i)) as [Hp|Hp]; [|destruct (decide (parent c = j)); [done|]].
    - destruct (decide (c = i)); [pose proof (parent_lt c); lia|]. destruct (decide (c = j)); [done|]. by apply Hmin.
    - destruct (decide (c = i)) as [->|]; [|destruct (decide (c = j)); [done|by apply Ho]].
      apply (Ht j); try done; lia. }
  assert (le_at (Swap l i j) i j) as Hedge.
  { intros a b. rewrite !Hsw, decide_True by done. destruct (decide (j = i)); [lia|]. rewrite decide_True by done.
    by apply Less_true. }
  specialize (IH k n (Swap l i j) j). rewrite length_Swap in IH.
  pose proof (down_grows less f (Swap l i j) j n) as Hg.
  destruct (down less f (Swap l i j) j n) as [l' i']. cbn in Hg.
  destruct IH as [IH1 IH2]; [done|lia|lia|lia| |].
  { split.
    - intros c Hc Hkc Hcj Hpj'. by apply Hrest.
    - intros c Hc Hp _ _. rewrite Hpj. intros a b. rewrite !Hsw, decide_True by done.
      pose proof (parent_lt c). destruct (decide (c = i)); [lia|]. destruct (decide (c = j)); [lia|].
      intros Ea Eb. assert (le_at l (parent c) c) as Hpc by (apply Ho; lia). rewrite Hp in Hpc. by eapply Hpc. }
  split; [|lia]. intros c Hc Hkc _. destruct (decide (c = j)) as [->|]; [|apply IH1; auto].
  destruct (decide (j < i')%nat); [apply IH1; auto|]. rewrite IH2, Hpj by lia. exact Hedge.
Qed.

(** The element at [j] may be less than its parent, the rest is in order. *)
Lemma up_spec fuel : ∀ n l j, (n ≤ length l)%nat → (j < n)%nat → (j ≤ fuel)%nat →
  (∀ c, (0 < c < n)%nat → c ≠ j → le_at l (parent c) c) →
  (∀ c, (0 < c < n)%nat → parent c = j → (0 < j)%nat → le_at l (parent j) c) →
  heap_n n (up less fuel l j).
Proof.
  induction fuel as [|f IH]; intros n l j Hn Hj Hf Ho Ht; cbn [up].
  { intros c Hc. apply Ho; lia. }
  destruct (Nat.eqb_spec (parent j) j) as [E|E]; cbn [orb].
  { assert (j = 0)%nat by (destruct (decide (j = 0)%nat); [done|pose proof (parent_lt j); lia]).
    intros c Hc. apply Ho; lia. }
  assert (0 < j)%nat as Hj0 by (destruct j; [done|lia]). pose proof (parent_lt j Hj0) as Hp.
  destruct (Less less l j (parent j)) eqn:Elt; cbn [negb].
  2: { intros c Hc. destruct (decide (c = j)) as [->|]; [by apply Less_false|by apply Ho]. }
  assert (∀ m, Swap l (parent j) j !! m =
    if decide (m = parent j) then l !! j else if decide (m = j) then l !! parent j else l !! m) as Hsw
    by (intros m; apply Swap_lookup; lia).
  apply IH; [by rewrite length_Swap|lia|lia|..].
  - intros c Hc Hne a b. rewrite !Hsw. destruct (decide (parent c = parent j)) as [Ep|Ep].
    + destruct (decide (c = parent j)); [done|]. destruct (decide (c = j)) as [->|Hcj].
      * by apply Less_true.
      * apply (le_at_trans l j (parent j) c); [lia|by apply Less_true|]. rewrite <- Ep. by apply Ho.
    + destruct (decide (c = parent j)); [done|]. destruct (decide (parent c = j)) as [Ecj|].
      * pose proof (parent_lt c). destruct (decide (c = j)); [lia|]. by apply Ht.
      * destruct (decide (c = j)); [congruence|by apply Ho].
  - intros c Hc Ep H0. pose proof (parent_lt _ H0) as Hpp. pose proof (parent_lt c). intros a b. rewrite !Hsw.
    destruct (decide (parent (parent j) = parent j)); [lia|]. destruct (decide (parent (parent j) = j)); [lia|].
    assert (le_at l (parent (parent j)) (parent j)) as Hup by (apply Ho; lia).
    destruct (decide (c = parent j)); [lia|]. destruct (decide (c = j)) as [->|]; [by apply Hup|].
    apply (le_at_trans l _ (parent j) c); [lia|done|]. rewrite <- Ep. apply Ho; [done|congruence].
Qed.

(** [fix_at] restores the order after the element at [i] changed. *)
Lemma fix_at_spec n l i : (n ≤ length l)%nat → (i < n)%nat → almost 0 n l i → heap_n n (fix_at less l i n).
Proof.
  intros Hn Hi Ha. unfold fix_at. pose proof (down_spec (length l) 0 n l i Hn Hi ltac:(lia) ltac:(lia) Ha) as H.
  destruct (down less (length l) l i n) as [l' i']. destruct H as [H1 H2]. destruct (Nat.ltb_spec i i').
  - intros c Hc. apply H1; [done|lia|by right].
  - rewrite H2 in * by done. apply up_spec; [done|done|lia|..].
    + intros c Hc Hne. apply H1; [done|lia|by left].
    + intros c Hc Hp H0. destruct Ha as [_ Ht]. apply Ht; (done || lia).
Qed.

Lemma heap_n_le m n l : (m ≤ n)%nat → heap_n n l → heap_n m l.
Proof. intros H Hh c Hc. apply Hh. lia. Qed.

Lemma heap_n_prefix n l l' : (∀ m, (m < n)%nat → l' !! m = l !! m) → heap_n n l → heap_n n l'.
Proof.
  intros E H c Hc a b. pose proof (parent_lt c). rewrite !E by lia. by apply H.
Qed.

Lemma Init_heap l : is_heap (Init less l).
Proof.
  unfold Init, is_heap. assert (∀ c, (0 < c < length l)%nat → (length l / 2 ≤ parent c)%nat → le_at l (parent c) c) as H.
  { intros c Hc Hp. exfalso. pose proof (Nat.div_mod (length l) 2 ltac:(lia)).
    pose proof (Nat.mod_upper_bound (length l) 2 ltac:(lia)). destruct (parent_child c); lia. }
  assert (length l / 2 ≤ length l)%nat as Hk by (apply Nat.Div0.div_le_upper_bound; lia).
  remember (length l / 2)%nat as k eqn:Ek. clear Ek.
  assert (∀ n l, length l = n → (∀ c, (0 < c < n)%nat → (k ≤ parent c)%nat → le_at l (parent c) c) → (k ≤ n)%nat →
    heap_n n (Init_loop less k l) ∧ length (Init_loop less k l) = n) as Hmain.
  { clear l H Hk. induction k as [|i IH]; intros n l Hl H Hk; cbn [Init_loop].
    { split; [|done]. intros c Hc. apply H; lia. }
    rewrite Hl. pose proof (down_spec n i n l i ltac:(lia) ltac:(lia) ltac:(lia) ltac:(lia)) as Hd.
    pose proof (down_length less n l i n) as Hlen. destruct (down less n l i n) as [l' i']. cbn [fst] in Hlen.
    destruct Hd as [Hd _].
    { split; [intros c Hc Hkc Hne Hp; apply H; lia|]. intros c _ _ Hi Hp. pose proof (parent_lt i Hi). lia. }
    cbn [fst]. apply IH; [lia| |lia]. intros c Hc Hp. apply Hd; [done|done|]. left. intros ->.
    pose proof (parent_lt i). lia. }
  destruct (Hmain (length l) l eq_refl H Hk) as [H1 H2]. by rewrite H2.
Qed.

Lemma Push_heap x l : is_heap l → is_heap (Push less x l).
Proof.
  intros H. unfold is_heap, Push. rewrite up_length, length_app. cbn [length].
  assert (heap_n (length l) (l ++ [x])) as Hl.
  { apply (heap_n_prefix _ l); [|done]. intros m Hm. by apply lookup_app_l. }
  apply up_spec; [by rewrite length_app|lia|lia|..].
  - intros c Hc Hne. apply Hl. lia.
  - intros c Hc Hp H0. pose proof (parent_lt c). lia.
Qed.

(** The first element is a least one. *)
Lemma heap_min n l a : (n ≤ length l)%nat → heap_n n l → l !! 0%nat = Some a →
  ∀ m b, (m < n)%nat → l !! m = Some b → less b a = false.
Proof.
  intros Hn H E0 m. induction m as [m IH] using lt_wf_ind. intros b Hm Eb.
  destruct (decide (m = 0)%nat) as [->|Hne]; [exact (le_at_refl l 0 a b E0 Eb)|].
  pose proof (parent_lt m ltac:(lia)) as Hp. destruct (lookup_lt_is_Some_2 l (parent m) ltac:(lia)) as [p Ep].
  eapply less_negtrans; [apply (IH (parent m) Hp p); [lia|done]|]. by apply (H m ltac:(lia) p b).
Qed.

Lemma is_heap_min l a : is_heap l → l !! 0%nat = Some a → ∀ b, b ∈ l → less b a = false.
Proof.
  intros H E0 b [m Em]%list_elem_of_lookup. eapply (heap_min (length l)); try done. by eapply lookup_lt_Some.
Qed.

Lemma pop_last_spec l n x : length l = S n → l !! n = Some x → pop_last l = Some (x, take n l) ∧ l ≡ₚ x :: take n l.
Proof.
  intros Hl E. unfold pop_last. rewrite Hl. replace (S n - 1)%nat with n by lia. rewrite E. split; [done|].
  rewrite <- (take_drop n l) at 1. rewrite (drop_S l x n E), drop_ge by lia. symmetry. apply Permutation_cons_append.
Qed.

Lemma take_heap n l : heap_n n l → (n ≤ length l)%nat → is_heap (take n l).
Proof.
  intros H Hn. unfold is_heap. rewrite length_take, Nat.min_l by done.
  apply (heap_n_prefix _ l); [|done]. intros m Hm. by rewrite lookup_take_lt.
Qed.

(** [Pop] takes a least element out. *)
Lemma Pop_spec l x l0 : is_heap l → l = x :: l0 →
  ∃ l', Pop less l = Ret (x, l') ∧ is_heap l' ∧ l ≡ₚ x :: l' ∧ ∀ b, b ∈ l' → less b x = false.
Proof.
  intros Hh El. assert (length l = S (length l0)) as Hl by (by rewrite El). set (n := length l0) in *.
  unfold Pop. replace (length l - 1)%nat with n by lia.
  assert (∀ m, Swap l 0 n !! m = if decide (m = 0)%nat then l !! n else if decide (m = n) then l !! 0%nat else l !! m) as Hsw
    by (intros m; apply Swap_lookup; lia).
  set (l2 := fst (down less (length l) (Swap l 0 n) 0 n)).
  assert (length l2 = S n) as Hl2 by (by subst l2; rewrite down_length, length_Swap).
  assert (l2 !! n = Some x ∧ heap_n n l2) as [Hx Hh2].
  { subst l2. destruct (decide (n = 0)%nat) as [E0|Hn].
    - rewrite E0 in *. split; [|by intros c Hc; lia]. destruct l0; [|done]. rewrite El. done.
    - split.
      + rewrite down_above by (rewrite ?length_Swap; lia). rewrite Hsw.
        destruct (decide (n = 0)%nat); [done|]. rewrite decide_True by done. by rewrite El.
      + pose proof (down_spec (length l) 0 n (Swap l 0 n) 0) as Hd. rewrite length_Swap in Hd.
        specialize (Hd ltac:(lia) ltac:(lia) ltac:(lia) ltac:(lia)).
        destruct (down less (length l) (Swap l 0 n) 0 n) as [l' i']. cbn.
        destruct Hd as [Hd _]; [|intros c Hc; apply Hd; lia]. split; [|lia].
        intros c Hc _ _ Hp a b. pose proof (parent_lt c). rewrite !Hsw.
        destruct (decide (parent c = 0)%nat); [done|]. destruct (decide (parent c = n)); [lia|].
        destruct (decide (c = 0)%nat); [lia|]. destruct (decide (c = n)); [lia|]. apply Hh. lia. }
  destruct (pop_last_spec l2 n x Hl2 Hx) as [-> Hp]. exists (take n l2). split; [done|].
  split; [apply take_heap; [done|lia]|].
  assert (l ≡ₚ x :: take n l2) as Hperm.
  { rewrite <- Hp. subst l2. rewrite down_Permutation. symmetry. apply Swap_Permutation. }
  split; [done|]. intros b Hb. apply (is_heap_min l x Hh); [by rewrite El|].
  rewrite Hperm. by right.
Qed.

(** A heap with the element at [i] replaced. *)
Lemma almost_replaced n l l' i :
  (n ≤ length l)%nat → (i < n)%nat → heap_n n l → (∀ m, (m < n)%nat → m ≠ i → l' !! m = l !! m) → almost 0 n l' i.
Proof.
  intros Hn Hi Hh E. split.
  - intros c Hc _ Hne Hp a b. pose proof (parent_lt c). rewrite !E by lia. by apply Hh.
  - intros c Hc Hp H0 _ a b. pose proof (parent_lt c). pose proof (parent_lt i H0). rewrite !E by lia.
    apply (le_at_trans l (parent i) i c); [lia|apply Hh; lia|]. rewrite <- Hp. by apply Hh.
Qed.

Lemma fix_at_Permutation l i n : fix_at less l i n ≡ₚ l.
Proof.
  unfold fix_at. pose proof (down_Permutation less (length l) l i n) as H.
  destruct (down less (length l) l i n) as [l' i']. cbn in H. case_match; [done|]. by rewrite up_Permutation.
Qed.

Lemma Fix_spec l i y : is_heap l → (i < length l)%nat → is_heap (Fix less (<[i := y]> l) i) ∧ Fix less (<[i := y]> l) i ≡ₚ <[i := y]> l.
Proof.
  intros Hh Hi. split; [|apply fix_at_Permutation]. unfold is_heap, Fix.
  replace (length (fix_at less _ _ _)) with (length (<[i := y]> l)) by (by rewrite fix_at_Permutation).
  apply fix_at_spec; [done|by rewrite length_insert|]. rewrite length_insert.
  apply (almost_replaced _ l); [done|done|done|]. intros m _ Hm. by apply list_lookup_insert_ne.
Qed.

Lemma Remove_spec l i x : is_heap l → l !! i = Some x →
  ∃ l', Remove less l i = Ret (x, l') ∧ is_heap l' ∧ l ≡ₚ x :: l'.
Proof.
  intros Hh E. pose proof (lookup_lt_Some _ _ _ E) as Hi. unfold Remove.
  destruct (Nat.ltb_spec i (length l)); [|lia]. set (n := (length l - 1)%nat). assert (length l = S n) as Hl by lia.
  destruct (Nat.eqb_spec n i) as [Eq|Hne].
  - destruct (pop_last_spec l n x Hl) as [-> Hp]; [by rewrite Eq|]. exists (take n l). split; [done|].
    split; [|done]. apply take_heap; [|lia]. apply (heap_n_le _ (length l)); [lia|done].
  - assert (∀ m, Swap l i n !! m = if decide (m = i) then l !! n else if decide (m = n) then l !! i else l !! m) as Hsw
      by (intros m; apply Swap_lookup; lia).
    set (l2 := fix_at less (Swap l i n) i n).
    assert (l2 ≡ₚ l) as Hp2 by (subst l2; rewrite fix_at_Permutation; apply Swap_Permutation).
    assert (length l2 = S n) as Hl2 by (by rewrite Hp2).
    assert (heap_n n l2) as Hh2.
    { apply fix_at_spec; [rewrite length_Swap; lia|lia|]. apply (almost_replaced n l); [lia|lia| |].
      - apply (heap_n_le _ (length l)); [lia|done].
      - intros m Hm Hmi. rewrite Hsw, decide_False by done. by destruct (decide (m = n)); [lia|]. }
    assert (l2 !! n = Some x) as Hx.
    { subst l2. unfold fix_at. pose proof (down_above less (length (Swap l i n)) (Swap l i n) i n n) as Hab.
      rewrite length_Swap in *. specialize (Hab ltac:(lia) ltac:(lia) ltac:(lia)).
      rewrite Hsw, decide_False, decide_True in Hab by lia.
      destruct (down less (length l) (Swap l i n) i n) as [l' i'] eqn:Ed. cbn [fst] in Hab.
      case_match; [congruence|]. rewrite up_above; [congruence|].
      pose proof (down_length less (length l) (Swap l i n) i n) as Hlen. rewrite Ed, length_Swap in Hlen. cbn in Hlen. lia. }
    destruct (pop_last_spec l2 n x Hl2 Hx) as [-> Hp]. exists (take n l2). split; [done|].
    split; [apply take_heap; [done|lia]|]. by rewrite <- Hp2.
Qed.

Lemma Pop_nil : Pop less [] = Panic.
Proof. done. Qed.
End Order.
