(* ===== verification/TxList.v ===== *)
(** * Transaction lists of one account (core/tx_list.go, core/tx_noncer.go)

    [txSortedMap] is a hash map from nonces to transactions with a heap of the
    nonces and a cache of the sorted transactions; [txList] adds the price bump,
    the cost and gas caps and the strict mode.  The second part proves that the
    sorted map is a finite map read in nonce order.  Go iterates a map in no
    particular order: [MapOrder] stands for the order of an iteration. *)
From stdpp Require Import sorting.
From S2P Require Import Prelude Common Heap Transaction.

(** The order in which an iteration visits the entries of a map. *)
Class MapOrder := {
  iteration : ∀ {A : Type}, list A → list A;
  iteration_perm : ∀ A (l : list A), iteration l ≡ₚ l
}.

(** [heap.Interface] of [nonceHeap]. *)
Definition nonce_less (x y : Z) : bool := x <? y.

(** A transaction as the pool sees it: its data, and what [Size] and the time of
    first sight give, which stay as they are while the transaction lives.  Its hash
    and its sender are functions of the data ([TxSigning.Hash_right],
    [TxSigning.Sender_right]). *)
Record ptx := mkPtx { p_data :> TxData; p_size : Z; p_time : Z }.
Abbreviation pNonce := (λ tx : ptx, Nonce (p_data tx)).

(** A pointer to a transaction, as a lookup in a map gives it. *)
Definition txptr : Type := option ptx.

Record txSortedMap := mkSortedMap {
  items : gmap Z ptx;
  index : list Z;
  cache : option (list ptx)
}.

Definition newTxSortedMap : txSortedMap := mkSortedMap ∅ [] None.

Section SortedMap.
Context {MO : MapOrder}.

Definition Get (m : txSortedMap) (nonce : Z) : txptr := items m !! nonce.

Definition Put (tx : ptx) (m : txSortedMap) : txSortedMap :=
  let nonce := Nonce tx in
  let index := match items m !! nonce with None => Push nonce_less nonce (index m) | Some _ => index m end in
  mkSortedMap (<[nonce := tx]> (items m)) index None.

(** A round takes an element off the heap. *)
Fixpoint Forward_loop (fuel : nat) (threshold : Z) (its : gmap Z ptx) (idx : list Z) (removed : list txptr) :
    outcome (list txptr * gmap Z ptx * list Z) :=
  match idx, fuel with
  | head :: _, S f =>
      if head <? threshold then
        do! (nonce, idx') <- Pop nonce_less idx;
        Forward_loop f threshold (delete nonce its) idx' (removed ++ [its !! nonce])
      else Ret (removed, its, idx)
  | _, _ => Ret (removed, its, idx)
  end.

Definition Forward (threshold : Z) (m : txSortedMap) : outcome (list txptr * txSortedMap) :=
  do! (removed, its, idx) <- Forward_loop (length (index m)) threshold (items m) (index m) [];
  Ret (removed, mkSortedMap its idx (drop (length removed) <$> cache m)).

Definition reheap (m : txSortedMap) : txSortedMap :=
  mkSortedMap (items m) (Init nonce_less (map fst (iteration (map_to_list (items m))))) None.

(** A step of the loop of [filter]; deleting the visited entry does not disturb
    the iteration. *)
Definition visit (f : ptx → bool) (st : list ptx * gmap Z ptx) (e : Z * ptx) : list ptx * gmap Z ptx :=
  let '(removed, its) := st in let '(nonce, tx) := e in
  if f tx then (removed ++ [tx], delete nonce its) else (removed, its).

Definition filter_ (f : ptx → bool) (m : txSortedMap) : list ptx * txSortedMap :=
  let '(removed, its) := fold_left (visit f) (iteration (map_to_list (items m))) ([], items m) in
  (removed, mkSortedMap its (index m) (match removed with [] => cache m | _ => None end)).

Definition Filter (f : ptx → bool) (m : txSortedMap) : list ptx * txSortedMap :=
  let '(removed, m) := filter_ f m in
  (removed, match removed with [] => m | _ => reheap m end).

(** The loop of [Cap], for a size of [threshold + n]: the last entry of the
    sorted index goes first. *)
Fixpoint Cap_loop (n threshold : nat) (idx : list Z) (its : gmap Z ptx) (drops : list txptr) :
    outcome (list txptr * gmap Z ptx) :=
  match n with
  | O => Ret (drops, its)
  | S n' =>
      match idx !! (threshold + n')%nat with
      | None => Panic
      | Some nonce => Cap_loop n' threshold idx (delete nonce its) (drops ++ [its !! nonce])
      end
  end.

Definition Cap (threshold : nat) (m : txSortedMap) : outcome (list txptr * txSortedMap) :=
  let size := size (items m) in
  if (size <=? threshold)%nat then Ret ([], m)
  else
    let idx := merge_sort Z.le (index m) in
    do! (drops, its) <- Cap_loop (size - threshold) threshold idx (items m) [];
    Ret (drops, mkSortedMap its (Init nonce_less (take threshold idx))
                  ((λ c, take (length c - length drops) c) <$> cache m)).

(** [Remove] of the sorted map. *)
Definition sm_Remove (nonce : Z) (m : txSortedMap) : outcome (bool * txSortedMap) :=
  match items m !! nonce with
  | None => Ret (false, m)
  | Some _ =>
      do! idx <-
        match list_find (λ n, n = nonce) (index m) with
        | Some (i, _) => do! (_, idx) <- Heap.Remove nonce_less (index m) i; Ret idx
        | None => Ret (index m)
        end;
      Ret (true, mkSortedMap (delete nonce (items m)) idx None)
  end.

Fixpoint Ready_loop (fuel : nat) (next : Z) (its : gmap Z ptx) (idx : list Z) (ready : list txptr) :
    outcome (list txptr * gmap Z ptx * list Z) :=
  match idx, fuel with
  | head :: _, S f =>
      if head =? next then
        do! (_, idx') <- Pop nonce_less idx;
        Ready_loop f (u64 (next + 1)) (delete next its) idx' (ready ++ [its !! next])
      else Ret (ready, its, idx)
  | _, _ => Ret (ready, its, idx)
  end.

Definition Ready (start : Z) (m : txSortedMap) : outcome (list txptr * txSortedMap) :=
  match index m with
  | [] => Ret ([], m)
  | first :: _ =>
      if start <? first then Ret ([], m)
      else
        do! (ready, its, idx) <- Ready_loop (length (index m)) first (items m) (index m) [];
        Ret (ready, mkSortedMap its idx None)
  end.

Definition Len (m : txSortedMap) : nat := size (items m).

(** The order of [types.TxByNonce]; [sort.Sort] gives the sorted slice, which is
    unique as nonces differ. *)
Definition TxByNonce (a b : ptx) : Prop := Nonce a ≤ Nonce b.
#[export] Instance TxByNonce_dec : RelDecision TxByNonce.
Proof. intros a b. unfold TxByNonce. apply _. Defined.

Definition flatten (m : txSortedMap) : list ptx * txSortedMap :=
  match cache m with
  | Some c => (c, m)
  | None =>
      let c := merge_sort TxByNonce (map snd (iteration (map_to_list (items m)))) in
      (c, mkSortedMap (items m) (index m) (Some c))
  end.

Definition Flatten (m : txSortedMap) : list ptx * txSortedMap := flatten m.

Definition LastElement (m : txSortedMap) : outcome (ptx * txSortedMap) :=
  let '(c, m) := flatten m in
  match last c with Some tx => Ret (tx, m) | None => Panic end.

End SortedMap.

(** ** Lists with prices *)

Record txList := mkTxList {
  strict : bool;
  txs : txSortedMap;
  costcap : Z;
  gascap : Z
}.

Definition newTxList (strict : bool) : txList := mkTxList strict newTxSortedMap 0 0.

Definition set_txs (m : txSortedMap) (l : txList) : txList := mkTxList (strict l) m (costcap l) (gascap l).

Definition Overlaps (tx : ptx) (l : txList) : bool :=
  match Get (txs l) (Nonce tx) with Some _ => true | None => false end.

(** [threshold = old * (100 + priceBump) / 100]. *)
Definition bumped (old priceBump : Z) : Z := i64 (100 + i64 priceBump) * old / 100.

Definition Add (tx : ptx) (priceBump : Z) (l : txList) : bool * txptr * txList :=
  let old := Get (txs l) (Nonce tx) in
  let accept :=
    let l := set_txs (Put tx (txs l)) l in
    let cost := Cost tx in
    let costcap := if big_Cmp (costcap l) cost <? 0 then cost else costcap l in
    let gascap := if gascap l <? Gas tx then Gas tx else gascap l in
    (true, old, mkTxList (strict l) (txs l) costcap gascap) in
  match old with
  | Some o =>
      if (0 <=? GasFeeCapCmp o tx) || (0 <=? GasTipCapCmp o tx) then (false, None, l)
      else if (GasFeeCapIntCmp tx (bumped (GasFeeCap o) priceBump) <? 0) ||
              (GasTipCapIntCmp tx (bumped (GasTipCap o) priceBump) <? 0) then (false, None, l)
      else accept
  | None => accept
  end.

Section Lists.
Context {MO : MapOrder}.

Definition tl_Forward (threshold : Z) (l : txList) : outcome (list txptr * txList) :=
  do! (removed, m) <- Forward threshold (txs l); Ret (removed, set_txs m l).

(** The transactions that are too expensive, those that a strict list loses with
    them, and the list. *)
Definition tl_Filter (costLimit gasLimit : Z) (l : txList) : list ptx * list ptx * txList :=
  if (big_Cmp (costcap l) costLimit <=? 0) && (gascap l <=? gasLimit) then ([], [], l)
  else
    let '(removed, m) :=
      Filter (λ tx, (gasLimit <? Gas tx) || (0 <? big_Cmp (Cost tx) costLimit)) (txs l) in
    let l := mkTxList (strict l) m costLimit gasLimit in
    match removed with
    | [] => ([], [], l)
    | _ =>
        let '(invalids, m) :=
          if strict l then
            let lowest := fold_left (λ lowest (tx : ptx), if Nonce tx <? lowest then Nonce tx else lowest) removed (2 ^ 64 - 1) in
            filter_ (λ tx, lowest <? Nonce tx) m
          else ([], m) in
        (removed, invalids, set_txs (reheap m) l)
    end.

Definition tl_Cap (threshold : nat) (l : txList) : outcome (list txptr * txList) :=
  do! (drops, m) <- Cap threshold (txs l); Ret (drops, set_txs m l).

Definition tl_Remove (tx : ptx) (l : txList) : outcome (bool * list ptx * txList) :=
  let nonce := Nonce tx in
  do! (removed, m) <- sm_Remove nonce (txs l);
  if negb removed then Ret (false, [], set_txs m l)
  else if strict l then
    let '(invalids, m) := Filter (λ tx, nonce <? Nonce tx) m in Ret (true, invalids, set_txs m l)
  else Ret (true, [], set_txs m l).

Definition tl_Ready (start : Z) (l : txList) : outcome (list txptr * txList) :=
  do! (ready, m) <- Ready start (txs l); Ret (ready, set_txs m l).

Definition tl_Len (l : txList) : nat := Len (txs l).
Definition tl_Empty (l : txList) : bool := (tl_Len l =? 0)%nat.

Definition tl_Flatten (l : txList) : list ptx * txList :=
  let '(txs, m) := Flatten (txs l) in (txs, set_txs m l).

Definition tl_LastElement (l : txList) : outcome (ptx * txList) :=
  do! (tx, m) <- LastElement (txs l); Ret (tx, set_txs m l).

End Lists.

(** ** Virtual nonces (core/tx_noncer.go) *)

(** [fallback] is the nonce of an account in the state; the mutex makes each
    operation atomic. *)
Record txNoncer := mkNoncer { fallback : address → Z; nonces : gmap address Z }.
Definition newTxNoncer (fallback : address → Z) : txNoncer := mkNoncer fallback ∅.

(** Fill the virtual nonce of an account if it is not known. *)
Definition known (addr : address) (txn : txNoncer) : gmap address Z :=
  match nonces txn !! addr with
  | Some _ => nonces txn
  | None => <[addr := fallback txn addr]> (nonces txn)
  end.

Definition noncer_get (addr : address) (txn : txNoncer) : Z * txNoncer :=
  let m := known addr txn in (default 0 (m !! addr), mkNoncer (fallback txn) m).

Definition noncer_set (addr : address) (nonce : Z) (txn : txNoncer) : txNoncer :=
  mkNoncer (fallback txn) (<[addr := nonce]> (nonces txn)).

Definition noncer_setIfLower (addr : address) (nonce : Z) (txn : txNoncer) : txNoncer :=
  let m := known addr txn in
  if default 0 (m !! addr) <=? nonce then mkNoncer (fallback txn) m
  else mkNoncer (fallback txn) (<[addr := nonce]> m).
