(* ===== verification/TxListSpec.v ===== *)
(** * Transaction lists are sorted lists

    [rep m l] says that the sorted map [m] stands for the list [l] of transactions
    in strictly increasing nonce order: the hash map holds exactly the
    transactions of [l], the index is a heap of their nonces and a cache is [l].
    Every operation is one on [l].  For lists with prices, the caps are bounds of
    every transaction, so the short cut of [Filter] skips nothing. *)
From stdpp Require Import sorting.
From S2P Require Import Prelude Common Heap Transaction TxList.

#[export] Instance nonce_order : WeakOrder nonce_less.
Proof. constructor; unfold nonce_less; intros; lia. Qed.

Implicit Types tx x y z : ptx.

Definition nonce_lt (a b : ptx) : Prop := Nonce a < Nonce b.

(** The map holds the transactions of the list under their nonces. *)
Definition holds (its : gmap Z ptx) (l : list ptx) : Prop :=
  ∀ n tx, its !! n = Some tx ↔ tx ∈ l ∧ Nonce tx = n.

Record core (its : gmap Z ptx) (idx : list Z) (l : list ptx) : Prop := Core {
  c_sorted : StronglySorted nonce_lt l;
  c_items : holds its l;
  c_heap : is_heap nonce_less idx;
  c_index : idx ≡ₚ map pNonce l
}.

Record rep (m : txSortedMap) (l : list ptx) : Prop := Rep {
  r_core : core (items m) (index m) l;
  r_cache : ∀ c, cache m = Some c → c = l
}.

(** ** Sorted lists *)

Lemma sorted_nonces_inj l (a b : ptx) :
  StronglySorted nonce_lt l → a ∈ l → b ∈ l → Nonce a = Nonce b → a = b.
Proof.
  induction 1 as [|x l Hs IH Hx]; [by intros ?%not_elem_of_nil|]. rewrite Forall_forall in Hx.
  intros [->|Ha]%elem_of_cons [->|Hb]%elem_of_cons E; [done| | |by apply IH];
    [specialize (Hx _ Hb)|specialize (Hx _ Ha)]; unfold nonce_lt in Hx; lia.
Qed.

Lemma nonce_in tx l : tx ∈ l → Nonce tx ∈ map pNonce l.
Proof. apply (list_elem_of_fmap_2 pNonce). Qed.

Lemma sorted_NoDup l : StronglySorted nonce_lt l → NoDup (map pNonce l).
Proof.
  induction 1 as [|x l Hs IH Hx]; [constructor|]. cbn. constructor; [|done].
  intros (y & E & Hy)%list_elem_of_fmap. rewrite Forall_forall in Hx. specialize (Hx _ Hy). unfold nonce_lt in Hx. lia.
Qed.

Lemma sorted_filter (P : ptx → Prop) `{Dec : !∀ x, Decision (P x)} l :
  StronglySorted nonce_lt l → StronglySorted nonce_lt (filter P l).
Proof.
  induction 1 as [|x l Hs IH Hx]; [constructor|]. rewrite filter_cons. case_decide; [|done]. constructor; [done|].
  apply Forall_forall. intros y [_ Hy]%list_elem_of_filter. rewrite Forall_forall in Hx. by apply Hx.
Qed.
Lemma sorted_take n l : StronglySorted nonce_lt l → StronglySorted nonce_lt (take n l).
Proof. rewrite <- (take_drop n l) at 1. apply StronglySorted_app_1_l. Qed.
Lemma sorted_drop n l : StronglySorted nonce_lt l → StronglySorted nonce_lt (drop n l).
Proof. rewrite <- (take_drop n l) at 1. apply StronglySorted_app_1_r. Qed.

Lemma sorted_cons (a : ptx) l : StronglySorted nonce_lt (a :: l) → StronglySorted nonce_lt l ∧ ∀ b : ptx, b ∈ l → Nonce a < Nonce b.
Proof. intros [H Hx]%StronglySorted_inv. rewrite Forall_forall in Hx. split; [done|]. apply Hx. Qed.

(** ** The core of the representation *)

Lemma holds_lookup its l tx : holds its l → tx ∈ l → its !! Nonce tx = Some tx.
Proof. intros H Hin. by apply H. Qed.

Lemma holds_Some its l n tx : holds its l → its !! n = Some tx → tx ∈ l ∧ Nonce tx = n.
Proof. intros H. apply H. Qed.

Lemma holds_None its l n : holds its l → its !! n = None ↔ ∀ tx, tx ∈ l → Nonce tx ≠ n.
Proof.
  intros H. split.
  - intros E tx Hin <-. by rewrite (holds_lookup its l) in E.
  - intros Hn. destruct (its !! n) as [tx|] eqn:E; [|done]. apply H in E as [Hin <-]. by apply Hn in Hin.
Qed.

(** The map after deleting keys holds what is left. *)
Lemma holds_restrict its its' l (P : ptx → Prop) `{Dec : !∀ x, Decision (P x)} :
  holds its l → (∀ n tx, its' !! n = Some tx ↔ its !! n = Some tx ∧ P tx) → holds its' (filter P l).
Proof. intros H E n tx. rewrite E, (H n tx), list_elem_of_filter. tauto. Qed.

Lemma holds_delete its l n : holds its l → holds (delete n its) (filter (λ tx, Nonce tx ≠ n) l).
Proof.
  intros H. apply (holds_restrict its); [done|]. intros k tx. rewrite lookup_delete_Some, (H k tx). naive_solver.
Qed.

(** The map as the association list of its transactions. *)
Lemma holds_to_list its l : StronglySorted nonce_lt l → holds its l →
  map_to_list its ≡ₚ map (λ tx, (Nonce tx, tx)) l.
Proof.
  intros Hs H. apply NoDup_Permutation.
  - apply NoDup_map_to_list.
  - apply (NoDup_fmap_1 fst). rewrite <- list_fmap_compose. by apply sorted_NoDup.
  - intros [n tx]. rewrite elem_of_map_to_list, (H n tx), list_elem_of_fmap. naive_solver.
Qed.

Lemma holds_size its l : StronglySorted nonce_lt l → holds its l → size its = length l.
Proof. intros Hs H. by rewrite <- length_map_to_list, (holds_to_list its l Hs H), length_map. Qed.

Lemma core_nil its idx : core its idx [] → idx = [].
Proof. intros [_ _ _ H]. by apply Permutation_nil_r. Qed.

(** The head of the heap is the first transaction. *)
Lemma core_pop its idx (a : ptx) l : core its idx (a :: l) →
  its !! Nonce a = Some a ∧ (∃ idx0, idx = Nonce a :: idx0) ∧
  ∃ idx', Pop nonce_less idx = Ret (Nonce a, idx') ∧ core (delete (Nonce a) its) idx' l.
Proof.
  intros [Hs Hi Hh Hp]. destruct (sorted_cons a l Hs) as [Hsl Ha].
  split; [apply (holds_lookup its (a :: l)); [done|by left]|].
  destruct idx as [|x idx0]; [by apply Permutation_nil_l in Hp|].
  destruct (Pop_spec nonce_less _ x idx0 Hh eq_refl) as (idx' & E & Hh' & Hp' & Hmin).
  assert (x = Nonce a) as ->.
  { assert (x ∈ map pNonce (a :: l)) as Hx by (rewrite <- Hp; by left).
    assert (Nonce a ∈ x :: idx') as Hin by (rewrite <- Hp', Hp; by left).
    apply list_elem_of_fmap in Hx as (y & -> & [->|Hy]%elem_of_cons); [done|]. specialize (Ha y Hy).
    apply elem_of_cons in Hin as [E'|Hin]; [done|]. specialize (Hmin _ Hin). unfold nonce_less in Hmin. lia. }
  split; [by exists idx0|]. exists idx'. split; [done|]. constructor; try done.
  - intros n tx. rewrite lookup_delete_Some, (Hi n tx), elem_of_cons. split.
    + intros (Hne & [->|Hin] & <-); done.
    + intros [Hin <-]. specialize (Ha tx Hin). split; [lia|]. auto.
  - apply (Permutation_cons_inv (a := Nonce a)). by rewrite <- Hp'.
Qed.

Lemma filter_none (P : ptx → Prop) `{Dec : !∀ x, Decision (P x)} (l : list ptx) : (∀ x, x ∈ l → ¬ P x) → filter P l = [].
Proof.
  induction l as [|x l IH]; intros H; [done|]. rewrite filter_cons, decide_False by (apply H; by left).
  apply IH. intros y Hy. apply H. by right.
Qed.
Lemma filter_all (P : ptx → Prop) `{Dec : !∀ x, Decision (P x)} (l : list ptx) : (∀ x, x ∈ l → P x) → filter P l = l.
Proof.
  induction l as [|x l IH]; intros H; [done|]. rewrite filter_cons, decide_True by (apply H; by left).
  f_equal. apply IH. intros y Hy. apply H. by right.
Qed.

Lemma sorted_split t l : StronglySorted nonce_lt l →
  l = filter (λ tx, Nonce tx < t) l ++ filter (λ tx, ¬ Nonce tx < t) l.
Proof.
  induction 1 as [|x l Hs IH Hx]; [done|]. rewrite !filter_cons. rewrite Forall_forall in Hx.
  destruct (decide (Nonce x < t)) as [Hlt|Hge].
  - rewrite decide_False by tauto. cbn. by f_equal.
  - rewrite decide_True by done. rewrite (filter_none (λ tx, Nonce tx < t)).
    + cbn. f_equal. symmetry. apply filter_all. intros y Hy. specialize (Hx y Hy). unfold nonce_lt in Hx. lia.
    + intros y Hy. specialize (Hx y Hy). unfold nonce_lt in Hx. lia.
Qed.

Section Operations.
Context {MO : MapOrder}.

Lemma new_rep : rep newTxSortedMap [].
Proof.
  constructor; [|done]. constructor; [constructor| |by intros c Hc; cbn in Hc; lia|done].
  intros n tx. change (items newTxSortedMap) with (∅ : gmap Z ptx). rewrite lookup_empty. split; [done|]. by intros [?%not_elem_of_nil _].
Qed.

(** The list with a transaction added at its nonce. *)
Definition put (tx : ptx) (l : list ptx) : list ptx :=
  filter (λ x, Nonce x < Nonce tx) l ++ tx :: filter (λ x, Nonce tx < Nonce x) l.

Lemma put_sorted tx l : StronglySorted nonce_lt l → StronglySorted nonce_lt (put tx l).
Proof.
  intros H. unfold put. apply StronglySorted_app_2; [|by apply sorted_filter|].
  - intros a b [Ha _]%list_elem_of_filter [->|[Hb _]%list_elem_of_filter]%elem_of_cons; unfold nonce_lt; lia.
  - constructor; [by apply sorted_filter|]. apply Forall_forall. by intros y [Hy _]%list_elem_of_filter.
Qed.

Lemma elem_of_put tx l x : x ∈ put tx l ↔ x = tx ∨ (x ∈ l ∧ Nonce x ≠ Nonce tx).
Proof.
  unfold put. rewrite elem_of_app, elem_of_cons, !list_elem_of_filter. split; [|destruct (Z.lt_trichotomy (Nonce x) (Nonce tx)) as [|[|]]; naive_solver].
  intros [[H1 H2]|[->|[H1 H2]]]; [right|by left|right]; (split; [done|lia]).
Qed.

(** Replacing keeps the nonces, adding adds one. *)
Lemma put_nonces tx l : StronglySorted nonce_lt l →
  map pNonce (put tx l) ≡ₚ if decide (Nonce tx ∈ map pNonce l) then map pNonce l else Nonce tx :: map pNonce l.
Proof.
  intros Hs. apply NoDup_Permutation.
  - by apply sorted_NoDup, put_sorted.
  - case_decide; [by apply sorted_NoDup|]. constructor; [done|by apply sorted_NoDup].
  - intros n. rewrite list_elem_of_fmap.
    assert ((∃ y, n = Nonce y ∧ y ∈ put tx l) ↔ n = Nonce tx ∨ n ∈ map pNonce l) as ->.
    { rewrite list_elem_of_fmap. split.
      - intros (y & -> & [->|[Hy _]]%elem_of_put); [by left|right; eauto].
      - intros [->|(y & -> & Hy)]; [exists tx; split; [done|]; apply elem_of_put; by left|].
        destruct (decide (Nonce y = Nonce tx)) as [->|]; [exists tx|exists y]; (split; [done|]); apply elem_of_put; auto. }
    case_decide as Hin; [|by rewrite elem_of_cons]. split; [|by right]. by intros [->|].
Qed.

Lemma Put_rep tx m l : rep m l → rep (Put tx m) (put tx l).
Proof.
  intros [[Hs Hi Hh Hp] _]. constructor; [|done]. cbn. constructor; cbn.
  - by apply put_sorted.
  - intros n x. rewrite lookup_insert_Some, (Hi n x), elem_of_put. split.
    + intros [[<- <-]|(Hne & Hin & <-)]; [by split; [left|]|]. split; [right; split; [done|congruence]|done].
    + intros [[->|[Hin Hne]] <-]; [by left|right]. split; [congruence|done].
  - case_match; [done|]. by apply Push_heap; [apply nonce_order|].
  - rewrite put_nonces by done.
    assert (Nonce tx ∈ map pNonce l ↔ is_Some (items m !! Nonce tx)) as Hiff.
    { rewrite list_elem_of_fmap. split.
      - intros (y & -> & Hy). rewrite (holds_lookup _ _ y Hi Hy). by eexists.
      - intros [y Hy]. apply Hi in Hy as [Hy <-]. eauto. }
    destruct (items m !! Nonce tx) eqn:E.
    + rewrite decide_True by (apply Hiff; by eexists). done.
    + rewrite decide_False by (intros [? [=]]%Hiff). by rewrite Push_Permutation, Hp.
Qed.

Lemma Forward_loop_spec t l : ∀ fuel its idx acc, core its idx l → (length idx ≤ fuel)%nat →
  ∃ its' idx', Forward_loop fuel t its idx acc = Ret (acc ++ map Some (filter (λ tx, Nonce tx < t) l), its', idx') ∧
    core its' idx' (filter (λ tx, ¬ Nonce tx < t) l).
Proof.
  induction l as [|a l IH]; intros fuel its idx acc Hc Hf.
  - pose proof (core_nil _ _ Hc); subst idx. exists its, []. rewrite !filter_nil. cbn [map].
    rewrite app_nil_r. by destruct fuel.
  - destruct (core_pop _ _ _ _ Hc) as (Ea & (idx0 & ->) & idx' & Epop & Hc').
    destruct fuel as [|fuel]; [cbn in Hf; lia|]. cbn [Forward_loop]. rewrite !filter_cons.
    destruct (Z.ltb_spec (Nonce a) t) as [Hlt|Hge].
    + rewrite Epop. cbn [obind]. rewrite decide_True by done. rewrite decide_False by lia.
      destruct (IH fuel (delete (Nonce a) its) idx' (acc ++ [its !! Nonce a]) Hc') as (its2 & idx2 & E2 & Hc2).
      { pose proof (c_index _ _ _ Hc) as P1. pose proof (c_index _ _ _ Hc') as P2.
        apply Permutation_length in P1, P2. cbn in *. lia. }
      exists its2, idx2. rewrite E2, Ea, <- app_assoc. done.
    + rewrite decide_False by lia. rewrite decide_True by lia. pose proof (c_sorted _ _ _ Hc) as Hs.
      destruct (sorted_cons _ _ Hs) as [_ Hlt]. rewrite filter_none, filter_all.
      * exists its, (Nonce a :: idx0). cbn. by rewrite app_nil_r.
      * intros x Hx. specialize (Hlt x Hx). lia.
      * intros x Hx. specialize (Hlt x Hx). lia.
Qed.

Lemma Forward_rep t m l : rep m l → ∃ m',
  Forward t m = Ret (map Some (filter (λ tx, Nonce tx < t) l), m') ∧ rep m' (filter (λ tx, ¬ Nonce tx < t) l).
Proof.
  intros [Hc Hca]. unfold Forward.
  destruct (Forward_loop_spec t l (length (index m)) (items m) (index m) [] Hc ltac:(done)) as (its & idx & -> & Hc').
  cbn [obind app]. eexists. split; [done|]. constructor; [done|]. cbn. intros c.
  destruct (cache m) as [c0|] eqn:E; [|done]. cbn. intros [= <-]. rewrite (Hca _ eq_refl), length_map.
  rewrite (sorted_split t l (c_sorted _ _ _ Hc)) at 2. by rewrite drop_app_length.
Qed.

(** ** Filtering *)

Lemma visit_all f (L : list (Z * ptx)) : ∀ removed its,
  ∃ its', fold_left (visit f) L (removed, its) = (removed ++ map snd (filter (λ p, f p.2 = true) L), its') ∧
    ∀ n tx, its' !! n = Some tx ↔ its !! n = Some tx ∧ ∀ tx', (n, tx') ∈ L → f tx' = false.
Proof.
  induction L as [|[n0 tx0] L IH]; intros removed its.
  - exists its. rewrite filter_nil. cbn. rewrite app_nil_r. split; [done|]. intros n tx. split; [|tauto].
    intros H. split; [done|]. by intros ? ?%not_elem_of_nil.
  - cbn [fold_left visit]. rewrite filter_cons. cbn [snd]. destruct (f tx0) eqn:E.
    + destruct (IH (removed ++ [tx0]) (delete n0 its)) as (its' & -> & Hl). exists its'. rewrite decide_True by done.
      rewrite <- app_assoc. split; [done|]. intros n tx. rewrite Hl, lookup_delete_Some. split.
      * intros [[Hne H1] H2]. split; [done|]. intros tx' [[= -> ->]|Hin]%elem_of_cons; [done|by apply H2].
      * intros [H1 H2]. split; [split; [|done]|].
        -- intros ->. rewrite (H2 tx0) in E by (by left). done.
        -- intros tx' Hin. apply H2. by right.
    + destruct (IH removed its) as (its' & -> & Hl). exists its'. rewrite decide_False by done.
      split; [done|]. intros n tx. rewrite Hl. split; intros [H1 H2]; (split; [done|]).
      * intros tx' [[= -> ->]|Hin]%elem_of_cons; [done|by apply H2].
      * intros tx' Hin. apply H2. by right.
Qed.

(** What [filter_] removes and keeps. *)
Lemma filter_spec f m l : StronglySorted nonce_lt l → holds (items m) l →
  ∃ removed its, filter_ f m = (removed, mkSortedMap its (index m) (match removed with [] => cache m | _ => None end)) ∧
    removed ≡ₚ filter (λ tx, f tx = true) l ∧ holds its (filter (λ tx, f tx = false) l).
Proof.
  intros Hs Hi. unfold filter_.
  set (L := iteration (map_to_list (items m))).
  assert (L ≡ₚ map_to_list (items m)) as HL by apply iteration_perm.
  destruct (visit_all f L [] (items m)) as (its & E & Hl).
  rewrite E. exists (map snd (filter (λ p, f p.2 = true) L)), its. split; [done|]. split.
  - rewrite HL, (holds_to_list _ _ Hs Hi). clear. induction l as [|a l IH]; [done|]. cbn [map]. rewrite !filter_cons. cbn [snd].
    case_decide; [|done]. cbn. by constructor.
  - apply (holds_restrict (items m)); [done|]. intros n tx. rewrite Hl. split.
    + intros [H1 H2]. split; [done|]. apply H2. by rewrite HL, elem_of_map_to_list.
    + intros [H1 H2]. split; [done|]. intros tx'. rewrite HL, elem_of_map_to_list. intros H3. congruence.
Qed.

Lemma reheap_rep m l : StronglySorted nonce_lt l → holds (items m) l → rep (reheap m) l.
Proof.
  intros Hs Hi. constructor; [|done]. constructor; [done|done|apply Init_heap, nonce_order|].
  cbn [reheap index]. rewrite Init_Permutation, iteration_perm, (holds_to_list _ _ Hs Hi), map_map. done.
Qed.

Lemma Filter_rep f m l : rep m l → ∃ removed m', Filter f m = (removed, m') ∧
  removed ≡ₚ filter (λ tx, f tx = true) l ∧ rep m' (filter (λ tx, f tx = false) l).
Proof.
  intros [[Hs Hi Hh Hp] Hca]. unfold Filter. destruct (filter_spec f m l Hs Hi) as (removed & its & -> & Hr & Hi').
  destruct removed as [|x removed].
  - eexists [], _. split; [done|]. split; [done|].
    assert (filter (λ tx, f tx = false) l = l) as El.
    { apply filter_all. intros x Hx. destruct (f x) eqn:Ex; [|done].
      assert (x ∈ filter (λ tx, f tx = true) l) as Hin by (by apply list_elem_of_filter). rewrite <- Hr in Hin.
      by apply not_elem_of_nil in Hin. }
    rewrite El in *. constructor; [by constructor|done].
  - eexists _, _. split; [done|]. split; [done|]. apply reheap_rep; [by apply sorted_filter|done].
Qed.

(** ** Capping *)

Lemma sorted_index idx l : StronglySorted nonce_lt l → idx ≡ₚ map pNonce l → merge_sort Z.le idx = map pNonce l.
Proof.
  intros Hs Hp. apply (StronglySorted_unique Z.le).
  - apply StronglySorted_merge_sort; [intros ???; lia|intros a b; destruct (Z.le_ge_cases a b); auto].
  - clear Hp. induction Hs as [|a l Hs IH Ha]; [constructor|]. cbn. constructor; [done|].
    apply Forall_map. eapply Forall_impl; [exact Ha|]. unfold nonce_lt. intros; cbn; lia.
  - by rewrite merge_sort_Permutation.
Qed.

Lemma Cap_loop_spec threshold l : StronglySorted nonce_lt l → ∀ n its drops,
  (threshold + n ≤ length l)%nat → holds its (take (threshold + n) l) →
  ∃ its', Cap_loop n threshold (map pNonce l) its drops =
    Ret (drops ++ map Some (reverse (drop threshold (take (threshold + n) l))), its') ∧ holds its' (take threshold l).
Proof.
  intros Hs. induction n as [|n IH]; intros its drops Hn Hi.
  - exists its. rewrite Nat.add_0_r in *. rewrite drop_ge by (rewrite length_take; lia). cbn. by rewrite app_nil_r.
  - destruct (lookup_lt_is_Some_2 l (threshold + n)) as [a Ea]; [lia|]. cbn [Cap_loop].
    rewrite list_lookup_fmap, Ea. cbn [fmap option_fmap option_map].
    assert (take (threshold + S n) l = take (threshold + n) l ++ [a]) as Et
      by (rewrite Nat.add_succ_r; by apply take_S_r).
    assert (its !! Nonce a = Some a) as Hl.
    { apply (holds_lookup its (take (threshold + S n) l)); [done|]. rewrite Et, elem_of_app. right. by left. }
    destruct (IH (delete (Nonce a) its) (drops ++ [its !! Nonce a])) as (its' & -> & Hi'); [lia| |].
    { intros k tx. rewrite lookup_delete_Some, (Hi k tx), Et, elem_of_app, list_elem_of_singleton.
      pose proof (sorted_take (threshold + S n) l Hs) as Hst. rewrite Et in Hst.
      split.
      - intros (Hne & [Hin| ->] & <-); done.
      - intros [Hin <-]. split; [|auto].
        assert (nonce_lt tx a) as Hlt by (eapply StronglySorted_app_1_elem_of; [exact Hst|done|by left]).
        unfold nonce_lt in Hlt. lia. }
    exists its'. split; [|done]. rewrite Hl, Et, (drop_app_le (take (threshold + n) l)) by (rewrite length_take; lia).
    rewrite reverse_app. cbn. by rewrite <- app_assoc.
Qed.

Lemma Cap_rep threshold m l : rep m l → ∃ m',
  Cap threshold m = Ret (map Some (reverse (drop threshold l)), m') ∧ rep m' (take threshold l).
Proof.
  intros [[Hs Hi Hh Hp] Hca]. unfold Cap. rewrite (holds_size _ _ Hs Hi).
  destruct (Nat.leb_spec (length l) threshold) as [Hle|Hgt].
  { exists m. rewrite drop_ge, take_ge by lia. split; [done|]. constructor; [by constructor|done]. }
  rewrite (sorted_index _ _ Hs Hp).
  destruct (Cap_loop_spec threshold l Hs (length l - threshold) (items m) []) as (its & -> & Hi'); [lia| |].
  { rewrite take_ge by lia. done. }
  rewrite (take_ge l) by lia. cbn [obind app]. eexists. split; [done|]. constructor; cbn [items index cache].
  - constructor; [by apply sorted_take|done|apply Init_heap, nonce_order|].
    rewrite Init_Permutation. by rewrite <- fmap_take.
  - intros c. destruct (cache m) as [c0|] eqn:E; [|done]. cbn. intros [= <-]. rewrite (Hca _ eq_refl).
    rewrite length_map, length_reverse, length_drop. f_equal. lia.
Qed.

(** ** Removing one nonce *)

Lemma remove_nonces l tx : StronglySorted nonce_lt l → tx ∈ l →
  map pNonce l ≡ₚ Nonce tx :: map pNonce (filter (λ x, Nonce x ≠ Nonce tx) l).
Proof.
  intros Hs Hin. apply NoDup_Permutation.
  - by apply sorted_NoDup.
  - constructor; [|by apply sorted_NoDup, sorted_filter]. by intros (y & E & [Hy _]%list_elem_of_filter)%list_elem_of_fmap.
  - intros n. rewrite elem_of_cons, !list_elem_of_fmap. split.
    + intros (y & -> & Hy). destruct (decide (Nonce y = Nonce tx)); [by left|right]. exists y. by rewrite list_elem_of_filter.
    + intros [->|(y & -> & [_ Hy]%list_elem_of_filter)]; eauto.
Qed.

Lemma Remove_rep nonce m l : rep m l → ∃ m',
  sm_Remove nonce m = Ret (bool_decide (nonce ∈ map pNonce l), m') ∧ rep m' (filter (λ tx, Nonce tx ≠ nonce) l).
Proof.
  intros [[Hs Hi Hh Hp] Hca]. unfold sm_Remove. destruct (items m !! nonce) as [tx|] eqn:E.
  - apply Hi in E as [Hin <-].
    assert (Nonce tx ∈ index m) as [i Hx]%list_elem_of_lookup by (rewrite Hp; by apply nonce_in).
    destruct (list_find_elem_of (λ n, n = Nonce tx) (index m) (Nonce tx)) as [[j y] Ef];
      [by eapply list_elem_of_lookup_2|done|]. rewrite Ef.
    apply list_find_Some in Ef as (Hj & -> & _).
    destruct (Remove_spec nonce_less _ _ _ Hh Hj) as (idx & -> & Hh' & Hp'). cbn [obind]. eexists. split.
    { do 3 f_equal. symmetry. apply bool_decide_eq_true. by apply nonce_in. }
    constructor; [|done]. constructor; cbn [items index]; [by apply sorted_filter|by apply holds_delete|done|].
    apply (Permutation_cons_inv (a := Nonce tx)). rewrite <- Hp', Hp. by apply remove_nonces.
  - assert (∀ tx, tx ∈ l → Nonce tx ≠ nonce) as Hn by (by apply (holds_None (items m))). exists m. split.
    { do 3 f_equal. symmetry. apply bool_decide_eq_false. intros (y & -> & Hy)%list_elem_of_fmap. by apply Hn in Hy. }
    rewrite filter_all by done. constructor; [by constructor|done].
Qed.

(** ** Taking what is ready *)

(** The transactions with consecutive nonces from [next] on. *)
Fixpoint consecutive (next : Z) (l : list ptx) : list ptx :=
  match l with
  | tx :: l' => if Nonce tx =? next then tx :: consecutive (u64 (next + 1)) l' else []
  | [] => []
  end.

Definition ready (start : Z) (l : list ptx) : list ptx :=
  match l with
  | tx :: _ => if start <? Nonce tx then [] else consecutive (Nonce tx) l
  | [] => []
  end.

Lemma Ready_loop_spec l : ∀ fuel next its idx acc, core its idx l → (length idx ≤ fuel)%nat →
  ∃ its' idx', Ready_loop fuel next its idx acc = Ret (acc ++ map Some (consecutive next l), its', idx') ∧
    core its' idx' (drop (length (consecutive next l)) l).
Proof.
  induction l as [|a l IH]; intros fuel next its idx acc Hc Hf.
  - pose proof (core_nil _ _ Hc); subst idx. exists its, []. cbn [consecutive map]. rewrite app_nil_r. by destruct fuel.
  - destruct (core_pop _ _ _ _ Hc) as (Ea & (idx0 & ->) & idx' & Epop & Hc').
    destruct fuel as [|fuel]; [cbn in Hf; lia|]. cbn [Ready_loop consecutive].
    destruct (Z.eqb_spec (Nonce a) next) as [<-|].
    + rewrite Epop. cbn [obind].
      destruct (IH fuel (u64 (Nonce a + 1)) (delete (Nonce a) its) idx' (acc ++ [its !! Nonce a]) Hc') as (its2 & idx2 & E2 & Hc2).
      { pose proof (c_index _ _ _ Hc) as P1. pose proof (c_index _ _ _ Hc') as P2.
        apply Permutation_length in P1, P2. cbn in *. lia. }
      exists its2, idx2. rewrite E2, Ea, <- app_assoc. done.
    + exists its, (Nonce a :: idx0). cbn [map length drop]. by rewrite app_nil_r.
Qed.

Lemma Ready_rep start m l : rep m l → ∃ m',
  Ready start m = Ret (map Some (ready start l), m') ∧ rep m' (drop (length (ready start l)) l).
Proof.
  intros [Hc Hca]. unfold Ready. destruct l as [|a l].
  { rewrite (core_nil _ _ Hc). exists m. split; [done|]. by constructor. }
  destruct (core_pop _ _ _ _ Hc) as (_ & (idx0 & E) & _). rewrite E. cbn [ready].
  destruct (start <? Nonce a); [exists m; split; [done|]; by constructor|].
  destruct (Ready_loop_spec (a :: l) (length (index m)) (Nonce a) (items m) (index m) [] Hc ltac:(done)) as (its & idx & Er & Hc').
  rewrite E in Er. rewrite Er. cbn [obind app]. eexists. split; [done|]. by constructor.
Qed.

(** ** Reading in order *)

Lemma Flatten_rep m l : rep m l → ∃ m', Flatten m = (l, m') ∧ rep m' l.
Proof.
  intros [Hc Hca]. unfold Flatten, flatten. destruct (cache m) as [c|] eqn:E.
  { rewrite (Hca c eq_refl). exists m. split; [done|]. constructor; [done|]. by rewrite E. }
  set (c := merge_sort TxByNonce _).
  assert (c = l) as Ec; [|rewrite Ec; eexists; split; [done|]; constructor; [done|]; by intros ? [= <-]].
  destruct Hc as [Hs Hi _ _].
  assert (c ≡ₚ l) as Hp.
  { subst c. rewrite merge_sort_Permutation, iteration_perm, (holds_to_list _ _ Hs Hi), map_map. by rewrite map_id. }
  apply (StronglySorted_unique_strong TxByNonce); [| | |done].
  - intros a b Ha Hb H1 H2. unfold TxByNonce in *. apply (sorted_nonces_inj l); [done|by rewrite <- Hp|done|lia].
  - apply StronglySorted_merge_sort; unfold TxByNonce; [intros ???; lia|intros x y; destruct (Z.le_ge_cases (Nonce x) (Nonce y)); auto].
  - clear -Hs. induction Hs as [|a l Hs IH Ha]; constructor; [done|]. eapply Forall_impl; [exact Ha|].
    unfold nonce_lt, TxByNonce. intros; lia.
Qed.

Lemma LastElement_rep m l : rep m l →
  match last l with
  | Some tx => ∃ m', LastElement m = Ret (tx, m') ∧ rep m' l
  | None => LastElement m = Panic
  end.
Proof.
  intros H. destruct (Flatten_rep m l H) as (m' & E & Hm'). unfold LastElement. unfold Flatten in E. rewrite E.
  destruct (last l); [by exists m'|done].
Qed.

(** ** Runs of operations *)

Inductive list_op :=
| OpPut (tx : ptx) | OpForward (threshold : Z) | OpFilter (f : ptx → bool) | OpCap (threshold : nat)
| OpRemove (nonce : Z) | OpReady (start : Z) | OpFlatten.

(** What an operation returns: transactions, and whether something was found. *)
Definition perform (op : list_op) (m : txSortedMap) : outcome (list txptr * bool * txSortedMap) :=
  match op with
  | OpPut tx => Ret ([], false, Put tx m)
  | OpForward t => do! (r, m) <- Forward t m; Ret (r, false, m)
  | OpFilter f => let '(r, m) := Filter f m in Ret (map Some r, false, m)
  | OpCap n => do! (r, m) <- Cap n m; Ret (r, false, m)
  | OpRemove n => do! (b, m) <- sm_Remove n m; Ret ([], b, m)
  | OpReady s => do! (r, m) <- Ready s m; Ret (r, false, m)
  | OpFlatten => let '(r, m) := Flatten m in Ret (map Some r, false, m)
  end.

(** The same on a sorted list. *)
Definition spec_result (op : list_op) (l : list ptx) : list ptx * bool :=
  match op with
  | OpPut _ => ([], false)
  | OpForward t => (filter (λ tx, Nonce tx < t) l, false)
  | OpFilter f => (filter (λ tx, f tx = true) l, false)
  | OpCap n => (reverse (drop n l), false)
  | OpRemove n => ([], bool_decide (n ∈ map pNonce l))
  | OpReady s => (ready s l, false)
  | OpFlatten => (l, false)
  end.
Definition spec_after (op : list_op) (l : list ptx) : list ptx :=
  match op with
  | OpPut tx => put tx l
  | OpForward t => filter (λ tx, ¬ Nonce tx < t) l
  | OpFilter f => filter (λ tx, f tx = false) l
  | OpCap n => take n l
  | OpRemove n => filter (λ tx, Nonce tx ≠ n) l
  | OpReady s => drop (length (ready s l)) l
  | OpFlatten => l
  end.
(** The order of what [Filter] returns is that of an iteration over a map. *)
Definition same_result (op : list_op) (r : list txptr) (l : list ptx) : Prop :=
  match op with OpFilter _ => r ≡ₚ map Some l | _ => r = map Some l end.

Lemma perform_rep op m l : rep m l → ∃ r m',
  perform op m = Ret (r, snd (spec_result op l), m') ∧ same_result op r (fst (spec_result op l)) ∧ rep m' (spec_after op l).
Proof.
  intros H. destruct op as [tx|t|f|n|n|s|]; cbn [perform spec_result spec_after same_result fst snd].
  - eexists _, _. split; [done|]. split; [done|by apply Put_rep].
  - destruct (Forward_rep t m l H) as (m' & -> & Hm'). by eexists _, _.
  - destruct (Filter_rep f m l H) as (r & m' & -> & Hr & Hm'). eexists _, _. split; [done|]. split; [by rewrite Hr|done].
  - destruct (Cap_rep n m l H) as (m' & -> & Hm'). by eexists _, _.
  - destruct (Remove_rep n m l H) as (m' & -> & Hm'). by eexists _, _.
  - destruct (Ready_rep s m l H) as (m' & -> & Hm'). by eexists _, _.
  - destruct (Flatten_rep m l H) as (m' & -> & Hm'). by eexists _, _.
Qed.

Fixpoint perform_all (ops : list list_op) (m : txSortedMap) : outcome (list (list txptr * bool) * txSortedMap) :=
  match ops with
  | [] => Ret ([], m)
  | op :: ops =>
      do! (r, b, m) <- perform op m; do! (rs, m) <- perform_all ops m; Ret ((r, b) :: rs, m)
  end.

(** The results of a run of operations on a sorted list. *)
Fixpoint spec_run (ops : list list_op) (l : list ptx) (rs : list (list txptr * bool)) : Prop :=
  match ops, rs with
  | [], [] => True
  | op :: ops, (r, b) :: rs =>
      same_result op r (fst (spec_result op l)) ∧ b = snd (spec_result op l) ∧ spec_run ops (spec_after op l) rs
  | _, _ => False
  end.

Lemma perform_all_rep ops : ∀ m l, rep m l → ∃ rs m',
  perform_all ops m = Ret (rs, m') ∧ spec_run ops l rs ∧ rep m' (fold_left (λ l op, spec_after op l) ops l).
Proof.
  induction ops as [|op ops IH]; intros m l H; [by exists [], m|]. cbn [perform_all fold_left].
  destruct (perform_rep op m l H) as (r & m1 & -> & Hr & Hm1). cbn [obind].
  destruct (IH m1 _ Hm1) as (rs & m2 & -> & Hrs & Hm2). cbn [obind]. eexists _, m2. split; [done|].
  cbn [spec_run]. done.
Qed.

End Operations.

(** ** Lists with prices *)

Section Priced.
Context {MO : MapOrder}.

Definition in_range (tx : ptx) : Prop := 0 ≤ Nonce tx < 2 ^ 64.

(** The caps bound every transaction of the list. *)
Record list_rep (t : txList) (l : list ptx) : Prop := ListRep {
  lr_rep : rep (txs t) l;
  lr_caps : ∀ tx, tx ∈ l → Cost tx ≤ costcap t ∧ Gas tx ≤ gascap t;
  lr_range : ∀ tx, tx ∈ l → in_range tx
}.

Lemma new_list_rep s : list_rep (newTxList s) [].
Proof. constructor; [apply new_rep|..]; by intros tx ?%not_elem_of_nil. Qed.

(** Whether [tx] may replace [old]: a better fee and tip, by the price bump. *)
Definition replaces (priceBump : Z) (old tx : ptx) : Prop :=
  GasFeeCap old < GasFeeCap tx ∧ GasTipCap old < GasTipCap tx ∧
  bumped (GasFeeCap old) priceBump ≤ GasFeeCap tx ∧ bumped (GasTipCap old) priceBump ≤ GasTipCap tx.
#[export] Instance replaces_dec p a b : Decision (replaces p a b).
Proof. unfold replaces. apply _. Defined.

Lemma Add_rep tx bump t l : list_rep t l → in_range tx →
  let old := list_find (λ x, Nonce x = Nonce tx) l in
  match old with
  | Some (_, o) =>
      if decide (replaces bump o tx)
      then ∃ t', Add tx bump t = (true, Some o, t') ∧ list_rep t' (put tx l) ∧ strict t' = strict t
      else Add tx bump t = (false, None, t)
  | None => ∃ t', Add tx bump t = (true, None, t') ∧ list_rep t' (put tx l) ∧ strict t' = strict t
  end.
Proof.
  intros [Hr Hc Hrg] Hn old. pose proof Hr as [[Hs Hi _ _] _].
  assert (items (txs t) !! Nonce tx = snd <$> old) as Hold.
  { subst old. destruct (list_find (λ x, Nonce x = Nonce tx) l) as [[i o]|] eqn:E.
    - apply list_find_Some in E as (Ho & <- & _). apply (holds_lookup _ l); [done|]. by eapply list_elem_of_lookup_2.
    - apply list_find_None in E. apply (holds_None _ l); [done|]. by rewrite Forall_forall in E. }
  assert (∀ o : txptr, ∃ t', (true, o, mkTxList (strict t) (Put tx (txs t))
      (if costcap t <? Cost tx then Cost tx else costcap t)
      (if gascap t <? Gas tx then Gas tx else gascap t)) = (true, o, t') ∧ list_rep t' (put tx l) ∧ strict t' = strict t) as Hok.
  { intros o. eexists. split; [done|]. split; [|done]. constructor; cbn.
    - by apply Put_rep.
    - intros x [->|[Hx _]]%elem_of_put; [|destruct (Hc x Hx)];
        destruct (Z.ltb_spec (costcap t) (Cost tx)), (Z.ltb_spec (gascap t) (Gas tx)); lia.
    - intros x [->|[Hx _]]%elem_of_put; [done|by apply Hrg]. }
  unfold Add, Get. rewrite Hold. destruct old as [[i o]|]; cbn [fmap option_fmap option_map snd set_txs costcap];
    [|rewrite Cmp_lt; apply Hok].
  unfold GasFeeCapCmp, GasTipCapCmp, GasFeeCapIntCmp, GasTipCapIntCmp.
  assert (∀ x y : Z, (0 <=? big_Cmp x y) = (y <=? x)) as Hle
    by (intros x y; unfold big_Cmp; destruct (Z.ltb_spec x y), (Z.eqb_spec x y), (Z.leb_spec y x); (done || lia)).
  rewrite !Hle, !Cmp_lt. case_decide as Hrep; unfold replaces in Hrep.
  - destruct (Z.leb_spec (GasFeeCap tx) (GasFeeCap o)), (Z.leb_spec (GasTipCap tx) (GasTipCap o)),
      (Z.ltb_spec (GasFeeCap tx) (bumped (GasFeeCap o) bump)), (Z.ltb_spec (GasTipCap tx) (bumped (GasTipCap o) bump));
      try lia. cbn [orb]. apply Hok.
  - destruct (Z.leb_spec (GasFeeCap tx) (GasFeeCap o)), (Z.leb_spec (GasTipCap tx) (GasTipCap o)),
      (Z.ltb_spec (GasFeeCap tx) (bumped (GasFeeCap o) bump)), (Z.ltb_spec (GasTipCap tx) (bumped (GasTipCap o) bump));
      cbn [orb]; (done || lia).
Qed.

(** A transaction that costs or burns more than the limits. *)
Definition too_much (costLimit gasLimit : Z) (tx : ptx) : Prop := gasLimit < Gas tx ∨ costLimit < Cost tx.
#[export] Instance too_much_dec c g tx : Decision (too_much c g tx).
Proof. unfold too_much. apply _. Defined.

(** In a strict list, everything after a transaction that goes is lost. *)
Definition behind (costLimit gasLimit : Z) (l : list ptx) (tx : ptx) : Prop :=
  Exists (λ b, too_much costLimit gasLimit b ∧ Nonce b < Nonce tx) l.
#[export] Instance behind_dec c g l tx : Decision (behind c g l tx).
Proof. unfold behind. apply _. Defined.

Lemma lowest_spec (removed : list ptx) : ∀ init, Forall (λ tx, Nonce tx ≤ init) removed → removed ≠ [] →
  let lowest := fold_left (λ lowest (tx : ptx), if Nonce tx <? lowest then Nonce tx else lowest) removed init in
  (∀ tx, tx ∈ removed → lowest ≤ Nonce tx) ∧ ∃ tx, tx ∈ removed ∧ Nonce tx = lowest.
Proof.
  assert (∀ removed init,
    let lowest := fold_left (λ lowest (tx : ptx), if Nonce tx <? lowest then Nonce tx else lowest) removed init in
    lowest ≤ init ∧ (∀ tx, tx ∈ removed → lowest ≤ Nonce tx) ∧ (lowest = init ∨ ∃ tx, tx ∈ removed ∧ Nonce tx = lowest)) as H.
  { clear removed. induction removed as [|x l IH]; intros init; cbn [fold_left].
    { split; [lia|]. split; [by intros tx ?%not_elem_of_nil|by left]. }
    destruct (IH (if Nonce x <? init then Nonce x else init)) as (H1 & H2 & H3).
    destruct (Z.ltb_spec (Nonce x) init); split_and!; try lia.
    - intros tx [->|Hin]%elem_of_cons; [lia|by apply H2].
    - right. destruct H3 as [H3|(y & Hy & E)]; [exists x; split; [by left|done]|exists y; split; [by right|done]].
    - intros tx [->|Hin]%elem_of_cons; [lia|by apply H2].
    - destruct H3 as [H3|(y & Hy & E)]; [by left|right; exists y; split; [by right|done]]. }
  intros init Hi Hne. destruct (H removed init) as (H1 & H2 & [H3|H3]); [|done].
  split; [done|]. destruct removed as [|x l]; [done|]. exists x. split; [by left|].
  apply Forall_cons in Hi as [Hx _]. pose proof (H2 x ltac:(by left)). lia.
Qed.

Lemma behind_iff c g l tx : behind c g l tx ↔ ∃ b, b ∈ l ∧ too_much c g b ∧ Nonce b < Nonce tx.
Proof. unfold behind. rewrite Exists_exists. naive_solver. Qed.

(** Within the limits, nothing happens. *)
Lemma none_too_much c g (s : bool) l : (∀ tx, tx ∈ l → ¬ too_much c g tx) →
  filter (too_much c g) l = [] ∧
  (if s then filter (λ tx, ¬ too_much c g tx ∧ behind c g l tx) l else []) = [] ∧
  filter (λ tx, ¬ too_much c g tx ∧ (s = true → ¬ behind c g l tx)) l = l.
Proof.
  intros H. assert (∀ tx, ¬ behind c g l tx) as Hb by (intros tx (b & Hb & Ht & _)%behind_iff; by apply (H b)).
  split; [by apply filter_none|]. split; [destruct s; [|done]; apply filter_none; intros x _ [_ Hx]; by apply Hb in Hx|].
  apply filter_all. intros x Hx. split; [by apply H|]. intros _. apply Hb.
Qed.

(** Behind a removed transaction is behind the lowest one. *)
Lemma lowest_behind c g l rm : rm ≠ [] → rm ≡ₚ filter (too_much c g) l → (∀ tx, tx ∈ l → in_range tx) →
  let lowest := fold_left (λ lowest (tx : ptx), if Nonce tx <? lowest then Nonce tx else lowest) rm (2 ^ 64 - 1) in
  ∀ tx, behind c g l tx ↔ lowest < Nonce tx.
Proof.
  intros Hne Hrem Hrg lowest. destruct (lowest_spec rm (2 ^ 64 - 1)) as [Hlow (y & Hy & Ey)]; [|done|].
  { apply Forall_forall. intros tx Hin. rewrite Hrem in Hin. apply list_elem_of_filter in Hin as [_ Hin].
    specialize (Hrg tx Hin). unfold in_range in Hrg. lia. }
  fold lowest in Hlow, Ey. intros tx. rewrite behind_iff. split.
  - intros (b & Hb & Hbad & Hlt). assert (b ∈ rm) as Hin by (rewrite Hrem; by apply list_elem_of_filter).
    specialize (Hlow b Hin). lia.
  - intros Hlt. rewrite Hrem in Hy. apply list_elem_of_filter in Hy as [Hbad Hy]. exists y. split; [done|]. split; [done|lia].
Qed.

Lemma Filter_exact costLimit gasLimit t l : list_rep t l → ∃ removed invalids t',
  tl_Filter costLimit gasLimit t = (removed, invalids, t') ∧
  removed ≡ₚ filter (too_much costLimit gasLimit) l ∧
  invalids ≡ₚ (if strict t then filter (λ tx, ¬ too_much costLimit gasLimit tx ∧ behind costLimit gasLimit l tx) l else []) ∧
  list_rep t' (filter (λ tx, ¬ too_much costLimit gasLimit tx ∧ (strict t = true → ¬ behind costLimit gasLimit l tx)) l) ∧
  strict t' = strict t.
Proof.
  intros [Hr Hc Hrg]. set (bad := too_much costLimit gasLimit). unfold tl_Filter.
  assert (big_Cmp (costcap t) costLimit <=? 0 = (costcap t <=? costLimit)) as ->
    by (unfold big_Cmp; destruct (Z.ltb_spec (costcap t) costLimit), (Z.eqb_spec (costcap t) costLimit), (Z.leb_spec (costcap t) costLimit); (done || lia)).
  destruct ((costcap t <=? costLimit) && (gascap t <=? gasLimit)) eqn:Eshort.
  { destruct (none_too_much costLimit gasLimit (strict t) l) as (E1 & E2 & E3).
    { intros tx Hin. destruct (Hc tx Hin). unfold too_much. lia. }
    eexists [], [], t. subst bad. rewrite E1, E2, E3. do 3 (split; [done|]). split; [by constructor|done]. }
  set (f := λ tx, (gasLimit <? Gas tx) || (0 <? big_Cmp (Cost tx) costLimit)).
  assert (∀ tx, f tx = true ↔ bad tx) as Hf by (intros tx; unfold f, bad, too_much; rewrite Cmp_gt; lia).
  assert (∀ tx, f tx = false ↔ ¬ bad tx) as Hf' by (intros tx; rewrite <- Hf; by destruct (f tx)).
  destruct (Filter_rep f (txs t) l Hr) as (removed & m & -> & Hrem & Hm).
  rewrite (list_filter_iff _ bad l Hf) in Hrem. rewrite (list_filter_iff _ (λ tx, ¬ bad tx) l Hf') in Hm.
  destruct removed as [|x removed].
  { destruct (none_too_much costLimit gasLimit (strict t) l) as (E1 & E2 & E3).
    { intros tx Hin Ht. assert (tx ∈ filter bad l) as Hx by (by apply list_elem_of_filter). rewrite <- Hrem in Hx.
      by apply not_elem_of_nil in Hx. }
    eexists [], [], _. subst bad. rewrite E1, E2, E3. split; [done|]. split; [done|]. split; [done|].
    assert (∀ tx, tx ∈ l → ¬ too_much costLimit gasLimit tx) as Hno.
    { intros tx Hin. rewrite <- E3 in Hin. by apply list_elem_of_filter in Hin as [[? _] _]. }
    split; [|done]. constructor; cbn; [|intros tx Hin; specialize (Hno tx Hin); unfold too_much in Hno; lia|done].
    rewrite filter_all in Hm; done. }
  cbn [strict]. set (rm := x :: removed) in *.
  assert (∀ (s : bool) m' l', rep m' l' → (∀ tx, tx ∈ l' → tx ∈ l ∧ ¬ bad tx) →
    list_rep (set_txs m' (mkTxList s m costLimit gasLimit)) l') as Hlr.
  { intros s m' l' Hm' Hl'. constructor; [done|intros tx Hin; destruct (Hl' tx Hin) as [_ Hb]; unfold bad, too_much in Hb; cbn; lia|].
    intros tx Hin. apply Hrg. by apply Hl'. }
  destruct Hm as [[Hs Hi _ _] _].
  destruct (strict t) eqn:Est.
  - pose proof (lowest_behind costLimit gasLimit l rm ltac:(done) Hrem Hrg) as Hbeh. cbv zeta in Hbeh.
    set (lowest := fold_left _ rm _) in *.
    destruct (filter_spec (λ tx, lowest <? Nonce tx) m _ Hs Hi) as (invalids & its & -> & Hinv & Hi').
    rewrite list_filter_filter in Hinv, Hi'.
    eexists rm, invalids, _. split; [done|]. split; [done|]. split; [|split; [|done]].
    + rewrite Hinv. erewrite list_filter_iff; [done|]. intros tx. cbv beta. rewrite Hbeh, Z.ltb_lt. fold (bad tx). tauto.
    + apply Hlr.
      * erewrite list_filter_iff; [apply reheap_rep; [|exact Hi']|]; [by apply sorted_filter; destruct Hr as [[]]|].
        intros tx. cbv beta. rewrite Hbeh, Z.ltb_ge. fold (bad tx). rewrite Z.nlt_ge. tauto.
      * intros tx [[? _] ?]%list_elem_of_filter. done.
  - eexists rm, [], _. split; [done|]. split; [done|]. split; [done|]. split; [|done].
    erewrite list_filter_iff; [apply Hlr; [by apply reheap_rep|]|].
    + by intros tx [? ?]%list_elem_of_filter.
    + intros tx. cbv beta. fold (bad tx). split; [tauto|]. intros Hb. split; [done|]. done.
Qed.

(** The other operations on a list with prices. *)
Lemma list_rep_sub t m l l' : list_rep t l → rep m l' → (∀ tx, tx ∈ l' → tx ∈ l) → list_rep (set_txs m t) l'.
Proof. intros [Hr Hc Hrg] Hm Hsub. constructor; [done|intros tx Hin; by apply Hc, Hsub|intros tx Hin; by apply Hrg, Hsub]. Qed.

Lemma elem_of_filter_sub (P : ptx → Prop) `{Dec : !∀ x, Decision (P x)} (l : list ptx) tx : tx ∈ filter P l → tx ∈ l.
Proof. by intros [_ ?]%list_elem_of_filter. Qed.

Lemma tl_Forward_rep n t l : list_rep t l → ∃ t',
  tl_Forward n t = Ret (map Some (filter (λ tx, Nonce tx < n) l), t') ∧
  list_rep t' (filter (λ tx, ¬ Nonce tx < n) l) ∧ strict t' = strict t.
Proof.
  intros H. destruct (Forward_rep n _ _ (lr_rep _ _ H)) as (m & E & Hm). unfold tl_Forward. rewrite E. cbn [obind].
  eexists. split; [done|]. split; [|done]. apply (list_rep_sub t m l); [done|done|]. intros tx. apply elem_of_filter_sub.
Qed.

Lemma tl_Cap_rep n t l : list_rep t l → ∃ t',
  tl_Cap n t = Ret (map Some (reverse (drop n l)), t') ∧ list_rep t' (take n l) ∧ strict t' = strict t.
Proof.
  intros H. destruct (Cap_rep n _ _ (lr_rep _ _ H)) as (m & E & Hm). unfold tl_Cap. rewrite E. cbn [obind].
  eexists. split; [done|]. split; [|done]. apply (list_rep_sub t m l); [done|done|]. intros tx Hin.
  rewrite <- (take_drop n l). apply elem_of_app. by left.
Qed.

Lemma tl_Ready_rep n t l : list_rep t l → ∃ t',
  tl_Ready n t = Ret (map Some (ready n l), t') ∧ list_rep t' (drop (length (ready n l)) l) ∧ strict t' = strict t.
Proof.
  intros H. destruct (Ready_rep n _ _ (lr_rep _ _ H)) as (m & E & Hm). unfold tl_Ready. rewrite E. cbn [obind].
  eexists. split; [done|]. split; [|done]. apply (list_rep_sub t m l); [done|done|]. intros tx Hin.
  rewrite <- (take_drop (length (ready n l)) l). apply elem_of_app. by right.
Qed.

(** Removing from a strict list removes everything behind. *)
Lemma tl_Remove_rep tx t l : list_rep t l → ∃ invalids t',
  tl_Remove tx t = Ret (bool_decide (Nonce tx ∈ map pNonce l), invalids, t') ∧
  invalids ≡ₚ (if strict t && bool_decide (Nonce tx ∈ map pNonce l) then filter (λ x, Nonce tx < Nonce x) l else []) ∧
  list_rep t' (if bool_decide (Nonce tx ∈ map pNonce l)
               then if strict t then filter (λ x, Nonce x < Nonce tx) l else filter (λ x, Nonce x ≠ Nonce tx) l
               else l) ∧ strict t' = strict t.
Proof.
  intros H. destruct (Remove_rep (Nonce tx) _ _ (lr_rep _ _ H)) as (m & E & Hm). unfold tl_Remove. rewrite E. cbn [obind].
  destruct (bool_decide (Nonce tx ∈ map pNonce l)) eqn:Eb; cbn [negb].
  - rewrite andb_true_r. destruct (strict t) eqn:Est.
    + destruct (Filter_rep (λ x, Nonce tx <? Nonce x) _ _ Hm) as (inv & m2 & -> & Hinv & Hm2).
      rewrite list_filter_filter in Hinv, Hm2. eexists inv, _. split; [done|]. split; [|split; [|done]].
      * rewrite Hinv. erewrite list_filter_iff; [done|]. intros x. cbv beta. rewrite Z.ltb_lt. lia.
      * erewrite list_filter_iff; [apply (list_rep_sub t m2 l); [done|exact Hm2|]|]; [intros x; apply elem_of_filter_sub|].
        intros x. cbv beta. rewrite Z.ltb_ge. lia.
    + eexists [], _. split; [done|]. split; [done|]. split; [|done].
      apply (list_rep_sub t m l); [done|done|]. intros x. apply elem_of_filter_sub.
  - rewrite andb_false_r. eexists [], _. split; [done|]. split; [done|]. split; [|done].
    apply (list_rep_sub t m l); [done| |done]. rewrite filter_all in Hm; [done|]. intros x Hx Ex.
    apply bool_decide_eq_false in Eb. apply Eb. rewrite <- Ex. by apply nonce_in.
Qed.

(** ** Lists without gaps *)

Definition gapless (ns : list Z) : Prop := ∀ i a b, ns !! i = Some a → ns !! S i = Some b → b = a + 1.

Lemma gapless_take n ns : gapless ns → gapless (take n ns).
Proof. intros H i a b [Ea _]%lookup_take_Some [Eb _]%lookup_take_Some. by eapply H. Qed.
Lemma gapless_drop n ns : gapless ns → gapless (drop n ns).
Proof. intros H i a b. rewrite !lookup_drop, Nat.add_succ_r. apply H. Qed.

(** A property that holds of a prefix of a sorted list. *)
Lemma filter_prefix (P : ptx → Prop) `{Dec : !∀ x, Decision (P x)} (l : list ptx) :
  StronglySorted nonce_lt l → (∀ a b : ptx, a ∈ l → b ∈ l → Nonce a < Nonce b → P b → P a) →
  ∃ n, filter P l = take n l.
Proof.
  induction 1 as [|x l Hs IH Hx]; intros Hdown; [by exists O|]. rewrite Forall_forall in Hx.
  rewrite filter_cons. case_decide as HP.
  - destruct IH as [n E]; [|exists (S n); cbn; by rewrite E]. intros a b Ha Hb. apply Hdown; by right.
  - exists O. cbn. apply filter_none. intros y Hy HPy. apply HP. apply (Hdown x y); [by left|by right|by apply Hx|done].
Qed.

Lemma forward_suffix n (l : list ptx) : StronglySorted nonce_lt l →
  ∃ k, filter (λ tx, ¬ Nonce tx < n) l = drop k l.
Proof.
  intros Hs. exists (length (filter (λ tx, Nonce tx < n) l)).
  rewrite (sorted_split n l Hs) at 3. by rewrite drop_app_length.
Qed.

(** A transaction that continues the list or replaces one of its members. *)
Definition continues (tx : ptx) (l : list ptx) : Prop :=
  match last l with None => True | Some z => Nonce tx = Nonce z + 1 ∨ Nonce tx ∈ map pNonce l end.

Lemma last_greatest l z : StronglySorted nonce_lt l → last l = Some z → ∀ x, x ∈ l → Nonce x ≤ Nonce z.
Proof.
  intros Hs Hz. apply last_Some in Hz as [l0 ->]. intros x [Hx|Hx]%elem_of_app.
  - assert (nonce_lt x z) as H by (eapply StronglySorted_app_1_elem_of; [exact Hs|done|by left]). unfold nonce_lt in H. lia.
  - apply list_elem_of_singleton in Hx as ->. lia.
Qed.

Lemma put_gapless tx l : StronglySorted nonce_lt l → gapless (map pNonce l) → continues tx l → gapless (map pNonce (put tx l)).
Proof.
  intros Hs Hg Hc. unfold continues in Hc. destruct (last l) as [z|] eqn:Hz.
  2: { apply last_None in Hz as ->. unfold put. cbn. intros [|i] a b; [done|]. done. }
  destruct (decide (Nonce tx ∈ map pNonce l)) as [Hin|Hout].
  - pose proof (put_nonces tx l Hs) as Hp. rewrite decide_True in Hp by done.
    pose proof (sorted_index _ _ (put_sorted tx l Hs) (symmetry Hp)) as E1.
    rewrite (sorted_index _ _ Hs (reflexivity _)) in E1. by rewrite <- E1.
  - destruct Hc as [Hc|]; [|done]. pose proof (last_greatest l z Hs Hz) as Hle.
    assert (put tx l = l ++ [tx]) as ->.
    { unfold put. rewrite filter_all by (intros x Hx; specialize (Hle x Hx); lia).
      by rewrite filter_none by (intros x Hx; specialize (Hle x Hx); lia). }
    apply last_Some in Hz as [l0 ->]. rewrite !map_app in *. cbn in *. intros i a b Ea Eb.
    destruct (decide (S i < length (map pNonce l0 ++ [Nonce z]))%nat) as [Hlt|Hge].
    + rewrite lookup_app_l in Ea, Eb by lia. by eapply Hg.
    + apply lookup_lt_Some in Eb as Hi. rewrite ?length_app in Hi. rewrite ?length_app in Hge. cbn [length] in Hi, Hge.
      assert (i = length (map pNonce l0)) as -> by lia.
      rewrite <- app_assoc in Ea. rewrite lookup_app_r, Nat.sub_diag in Ea by done. injection Ea as <-.
      rewrite lookup_app_r in Eb by (rewrite length_app; cbn; lia). rewrite length_app in Eb. cbn in Eb.
      replace (S (length (map pNonce l0)) - (length (map pNonce l0) + 1))%nat with O in Eb by lia. injection Eb as <-. lia.
Qed.

Inductive strict_op :=
| SAdd (tx : ptx) (priceBump : Z) | SForward (threshold : Z) | SFilter (costLimit gasLimit : Z)
| SCap (threshold : nat) | SRemove (tx : ptx).

Definition strict_perform (op : strict_op) (t : txList) : outcome txList :=
  match op with
  | SAdd tx bump => let '(_, _, t) := Add tx bump t in Ret t
  | SForward n => do! (_, t) <- tl_Forward n t; Ret t
  | SFilter c g => let '(_, _, t) := tl_Filter c g t in Ret t
  | SCap n => do! (_, t) <- tl_Cap n t; Ret t
  | SRemove tx => do! (_, _, t) <- tl_Remove tx t; Ret t
  end.

Definition op_fits (op : strict_op) (l : list ptx) : Prop :=
  match op with SAdd tx _ => in_range tx ∧ continues tx l | _ => True end.

Lemma strict_step op t l : list_rep t l → strict t = true → gapless (map pNonce l) → op_fits op l →
  ∃ t' l', strict_perform op t = Ret t' ∧ list_rep t' l' ∧ strict t' = true ∧ gapless (map pNonce l').
Proof.
  intros H Hst Hg Hop. assert (StronglySorted nonce_lt l) as Hs by apply H.
  destruct op as [tx bump|n|c g|n|tx]; cbn [strict_perform].
  - destruct Hop as [Hrg Hc]. pose proof (Add_rep tx bump t l H Hrg) as Ha. cbv zeta in Ha.
    assert (gapless (map pNonce (put tx l))) by (by apply put_gapless).
    destruct (list_find _ l) as [[i o]|]; [case_decide; [|rewrite Ha; by exists t, l]|];
      destruct Ha as (t' & -> & Ht' & Es); exists t', (put tx l); by rewrite Es.
  - destruct (tl_Forward_rep n t l H) as (t' & -> & Ht' & Es). cbn [obind]. exists t', (filter (λ tx, ¬ Nonce tx < n) l). rewrite Es.
    split; [done|]. split; [done|]. split; [done|]. destruct (forward_suffix n l Hs) as [k ->].
    rewrite fmap_drop. by apply gapless_drop.
  - destruct (Filter_exact c g t l H) as (r & i & t' & -> & _ & _ & Ht' & Es). eexists t', _. rewrite Es. split; [done|]. split; [exact Ht'|].
    split; [done|]. destruct (filter_prefix (λ tx, ¬ too_much c g tx ∧ (strict t = true → ¬ behind c g l tx)) l Hs) as [k ->].
    + intros a b Ha Hb Hlt [Hb1 Hb2]. specialize (Hb2 Hst). rewrite behind_iff in Hb2. split; [intros Hbad; apply Hb2; eauto|].
      intros _ (x & Hx & Hbad & Hxa)%behind_iff. apply Hb2. exists x. split; [done|]. split; [done|lia].
    + rewrite fmap_take. by apply gapless_take.
  - destruct (tl_Cap_rep n t l H) as (t' & -> & Ht' & Es). cbn [obind]. exists t', (take n l). rewrite Es.
    split; [done|]. split; [done|]. split; [done|]. rewrite fmap_take. by apply gapless_take.
  - destruct (tl_Remove_rep tx t l H) as (i & t' & -> & _ & Ht' & Es). cbn [obind]. eexists t', _. rewrite Es. split; [done|].
    split; [exact Ht'|]. split; [done|]. rewrite Hst. case_bool_decide; [|done].
    destruct (filter_prefix (λ x, Nonce x < Nonce tx) l Hs) as [k ->]; [intros; lia|]. rewrite fmap_take. by apply gapless_take.
Qed.
End Priced.

(** ** Claims *)

(** The transactions of an account, kept as a hash map with a heap of nonces
    and a cache, are a list in nonce order.  From an empty one, every run of
    operations (put, forward, filter, cap, remove, ready, flatten) goes through
    without a panic and returns what the operations on a sorted list return, and
    reading the transactions afterwards gives that list. *)
Lemma sorted_map_is_sorted_list `{MO : MapOrder} (ops : list list_op) :
  ∃ rs m m', perform_all ops newTxSortedMap = Ret (rs, m) ∧ spec_run ops [] rs ∧
    Flatten m = (fold_left (λ l op, spec_after op l) ops [], m') ∧
    StronglySorted nonce_lt (fold_left (λ l op, spec_after op l) ops []).
Proof.
  destruct (perform_all_rep ops newTxSortedMap [] new_rep) as (rs & m & E & Hs & Hm).
  destruct (Flatten_rep m _ Hm) as (m' & Ef & _). exists rs, m, m'. split; [done|]. split; [done|]. split; [done|].
  apply Hm.
Qed.

(** The caps of a list never hide a transaction: [Filter], which looks only
    when the limits are below the caps, removes exactly the transactions that cost
    or burn more than the limits, and from a strict list also exactly those behind
    one of them; what is left is within the limits. *)
Lemma list_filter_is_exact `{MO : MapOrder} costLimit gasLimit t l : list_rep t l →
  ∃ removed invalids t',
  tl_Filter costLimit gasLimit t = (removed, invalids, t') ∧
  removed ≡ₚ filter (too_much costLimit gasLimit) l ∧
  invalids ≡ₚ (if strict t then filter (λ tx, ¬ too_much costLimit gasLimit tx ∧ behind costLimit gasLimit l tx) l else []) ∧
  list_rep t' (filter (λ tx, ¬ too_much costLimit gasLimit tx ∧ (strict t = true → ¬ behind costLimit gasLimit l tx)) l) ∧
  strict t' = strict t.
Proof. apply Filter_exact. Qed.

(** A strict list stays without gaps.  Adding a transaction that continues it
    or replaces a member, forwarding, filtering by cost, capping and removing keep
    its nonces consecutive, so everything in it can be executed in order. *)
Lemma strict_list_has_no_gaps `{MO : MapOrder} op t l :
  list_rep t l → strict t = true → gapless (map pNonce l) → op_fits op l →
  ∃ t' l', strict_perform op t = Ret t' ∧ list_rep t' l' ∧ strict t' = true ∧ gapless (map pNonce l').
Proof. apply strict_step. Qed.

(** ** Examples *)

#[local] Instance InOrder : MapOrder := {| iteration A l := l; iteration_perm A l := reflexivity l |}.

Definition demo (nonce price value : Z) : ptx :=
  mkPtx (Legacy (mkLegacyTx nonce price 21000 (Some 1) value [] 27 1 1)) 110 0.
Definition demo_list : txList :=
  fold_left (λ t tx, snd (Add tx 10 t)) [demo 7 2 0; demo 8 5 0; demo 9 1 0] (newTxList true).

Lemma demo_list_rep : list_rep demo_list [demo 7 2 0; demo 8 5 0; demo 9 1 0].
Proof.
  assert (∀ t l tx, list_rep t l → in_range tx → list_find (λ x, Nonce x = Nonce tx) l = None →
    list_rep (snd (Add tx 10 t)) (put tx l)) as Hadd.
  { intros t l tx H Hr E. pose proof (Add_rep tx 10 t l H Hr) as Ha. cbv zeta in Ha. rewrite E in Ha.
    destruct Ha as (t' & -> & Ht' & _). done. }
  pose proof (Hadd _ _ (demo 7 2 0) (new_list_rep true) ltac:(by split) eq_refl) as H1.
  pose proof (Hadd _ _ (demo 8 5 0) H1 ltac:(by split) eq_refl) as H2.
  exact (Hadd _ _ (demo 9 1 0) H2 ltac:(by split) eq_refl).
Qed.

(** A limit that only the transaction with nonce 8 exceeds. *)
Example demo_filter :
  let '(removed, invalids, t) := tl_Filter 60000 30000 demo_list in
  removed = [demo 8 5 0] ∧ invalids = [demo 9 1 0] ∧ fst (tl_Flatten t) = [demo 7 2 0].
Proof. vm_compute. done. Qed.

