(* ===== verification/TxOrder.v ===== *)
(** * The order in which a miner takes transactions (core/types/transaction.go)

    [TransactionsByPriceAndNonce] hands out the executable transactions of all
    accounts, best paid first but each account in nonce order.  The code keeps a
    heap with the next transaction of every account.  It is shown to follow the
    greedy choice: every transaction it yields is the next one of its account and
    pays the miner at least as much as the next one of any other account. *)
From S2P Require Import Prelude Common RlpEncode StateObject Concrete Transaction TxSigning Heap TxList.
Import Crypto.

Record TxWithMinerFee := mkWithFee { w_tx : ptx; w_minerFee : Z }.

Definition NewTxWithMinerFee (tx : ptx) (baseFee : option Z) : option TxWithMinerFee :=
  let '(minerFee, tooLow) := EffectiveGasTip tx baseFee in
  if tooLow then None else Some (mkWithFee tx minerFee).

(** [Less] of [TxByPriceAndTime]. *)
Definition price_time_less (a b : TxWithMinerFee) : bool :=
  let cmp := big_Cmp (w_minerFee a) (w_minerFee b) in
  if cmp =? 0 then p_time (w_tx a) <? p_time (w_tx b) else 0 <? cmp.

Record TransactionsByPriceAndNonce := mkByPrice {
  pn_txs : gmap address (list ptx);
  pn_heads : list TxWithMinerFee;
  pn_signer : Signer;
  pn_baseFee : option Z
}.

Section Order.
Context {B : Backend} {R : Recover} {MO : MapOrder}.

(** [acc, _ := Sender(signer, tx)]: the zero address when the sender cannot be
    recovered. *)
Definition sender_of (signer : Signer) (tx : ptx) : address :=
  match signer_Sender signer tx with Ok a => a | Err _ => 0 end.

(** A round of the constructor's loop; an empty list of an account is an index
    out of range. *)
Definition take_head (signer : Signer) (baseFee : option Z)
    (st : outcome (gmap address (list ptx) * list TxWithMinerFee)) (e : address * list ptx) :
    outcome (gmap address (list ptx) * list TxWithMinerFee) :=
  do! (txs, heads) <- st;
  let '(from, accTxs) := e in
  match accTxs with
  | [] => Panic
  | tx :: rest =>
      match NewTxWithMinerFee tx baseFee with
      | Some wrapped =>
          if sender_of signer tx =? from then Ret (<[from := rest]> txs, heads ++ [wrapped])
          else Ret (delete from txs, heads)
      | None => Ret (delete from txs, heads)
      end
  end.

Definition NewTransactionsByPriceAndNonce (signer : Signer) (txs : gmap address (list ptx)) (baseFee : option Z) :
    outcome TransactionsByPriceAndNonce :=
  do! (txs, heads) <- fold_left (take_head signer baseFee) (iteration (map_to_list txs)) (Ret (txs, []));
  Ret (mkByPrice txs (Init price_time_less heads) signer baseFee).

Definition Peek (t : TransactionsByPriceAndNonce) : txptr := w_tx <$> head (pn_heads t).

Definition set_heads (t : TransactionsByPriceAndNonce) (heads : list TxWithMinerFee) : TransactionsByPriceAndNonce :=
  mkByPrice (pn_txs t) heads (pn_signer t) (pn_baseFee t).

Definition pn_Pop (t : TransactionsByPriceAndNonce) : outcome TransactionsByPriceAndNonce :=
  do! (_, heads) <- Pop price_time_less (pn_heads t); Ret (set_heads t heads).

Definition Shift (t : TransactionsByPriceAndNonce) : outcome TransactionsByPriceAndNonce :=
  match pn_heads t with
  | [] => Panic
  | w :: _ =>
      let acc := sender_of (pn_signer t) (w_tx w) in
      match pn_txs t !! acc with
      | Some (tx :: rest) =>
          match NewTxWithMinerFee tx (pn_baseFee t) with
          | Some wrapped =>
              Ret (mkByPrice (<[acc := rest]> (pn_txs t))
                     (Fix price_time_less (<[0%nat := wrapped]> (pn_heads t)) 0) (pn_signer t) (pn_baseFee t))
          | None => pn_Pop t
          end
      | _ => pn_Pop t
      end
  end.

(** ** The greedy choice *)

(** A choice is over the accounts that still have something to offer: the next
    transaction of each and what follows it. *)
Abbreviation offer := (gmap address (ptx * list ptx)) (only parsing).

Definition tip (baseFee : option Z) (tx : ptx) : Z := EffectiveGasTipValue tx baseFee.
(** Whether a transaction can pay the base fee at all. *)
Definition pays (baseFee : option Z) (tx : ptx) : Prop :=
  match baseFee with Some f => f ≤ GasFeeCap tx | None => True end.
#[export] Instance pays_dec f tx : Decision (pays f tx).
Proof. unfold pays. destruct f; apply _. Defined.

(** [tx] is at least as good as [other]: a higher tip, or the same and seen no
    later. *)
Definition at_least (baseFee : option Z) (tx other : ptx) : Prop :=
  tip baseFee other < tip baseFee tx ∨ (tip baseFee tx = tip baseFee other ∧ p_time tx ≤ p_time other).

(** What is offered of a list: nothing when its first transaction does not pay. *)
Definition offered (baseFee : option Z) (l : list ptx) : option (ptx * list ptx) :=
  match l with tx :: rest => if decide (pays baseFee tx) then Some (tx, rest) else None | [] => None end.

(** What the miner did with the transaction it looked at: it went on with the
    account, or it gave the account up. *)
Inductive taken := Shifted (a : address) (tx : ptx) | Popped (a : address) (tx : ptx).
Definition taken_from (x : taken) : address := match x with Shifted a _ | Popped a _ => a end.
Definition taken_tx (x : taken) : ptx := match x with Shifted _ tx | Popped _ tx => tx end.

Inductive greedy (baseFee : option Z) : offer → list taken → offer → Prop :=
| greedy_nil o : greedy baseFee o [] o
| greedy_shift o a tx rest l o' :
    o !! a = Some (tx, rest) → (∀ a' tx' rest', o !! a' = Some (tx', rest') → at_least baseFee tx tx') →
    greedy baseFee (partial_alter (λ _, offered baseFee rest) a o) l o' →
    greedy baseFee o (Shifted a tx :: l) o'
| greedy_pop o a tx rest l o' :
    o !! a = Some (tx, rest) → (∀ a' tx' rest', o !! a' = Some (tx', rest') → at_least baseFee tx tx') →
    greedy baseFee (delete a o) l o' →
    greedy baseFee o (Popped a tx :: l) o'.

(** A run of the code: [true] for [Shift] and [false] for [Pop], each after a look
    with [Peek]; the run ends when nothing is left. *)
Fixpoint mine_run (moves : list bool) (t : TransactionsByPriceAndNonce) : outcome (list ptx * TransactionsByPriceAndNonce) :=
  match moves, Peek t with
  | shift :: moves, Some tx =>
      do! t <- (if shift then Shift t else pn_Pop t);
      do! (l, t) <- mine_run moves t;
      Ret (tx :: l, t)
  | _, _ => Ret ([], t)
  end.

(** The accounts at the start: the first transaction must be signed by the
    account it is filed under. *)
Definition first_offer (signer : Signer) (baseFee : option Z) (a : address) (l : list ptx) : option (ptx * list ptx) :=
  match l with
  | tx :: _ => if sender_of signer tx =? a then offered baseFee l else None
  | [] => None
  end.
Definition start (signer : Signer) (baseFee : option Z) (txs : gmap address (list ptx)) : offer :=
  map_imap (first_offer signer baseFee) txs.

(** ** The heap follows the greedy choice *)

#[local] Instance price_time_order : WeakOrder price_time_less.
Proof.
  constructor; unfold price_time_less; intros; rewrite ?Cmp_eq, ?Cmp_gt in *;
    repeat (case_match; try lia).
Qed.

Definition wrap_of (baseFee : option Z) (tx : ptx) : TxWithMinerFee := mkWithFee tx (tip baseFee tx).

Lemma NewTxWithMinerFee_pays tx f :
  NewTxWithMinerFee tx f = if decide (pays f tx) then Some (wrap_of f tx) else None.
Proof.
  unfold NewTxWithMinerFee, wrap_of, tip, EffectiveGasTipValue, EffectiveGasTip, pays. destruct f as [f|]; [|done]. cbn [fst].
  unfold big_Cmp. destruct (Z.ltb_spec (GasFeeCap tx) f), (Z.eqb_spec (GasFeeCap tx) f); cbn; case_decide; try done; lia.
Qed.

Lemma at_least_less f a b : price_time_less (wrap_of f b) (wrap_of f a) = false → at_least f a b.
Proof.
  unfold price_time_less, wrap_of, at_least. cbn. rewrite Cmp_eq, Cmp_gt. case_match; lia.
Qed.

Record pn_rep (t : TransactionsByPriceAndNonce) (o : offer) : Prop := PnRep {
  pr_heap : is_heap price_time_less (pn_heads t);
  pr_heads : pn_heads t ≡ₚ map (λ p, wrap_of (pn_baseFee t) p.2.1) (map_to_list o);
  pr_signed : ∀ a tx rest, o !! a = Some (tx, rest) →
    sender_of (pn_signer t) tx = a ∧ pn_txs t !! a = Some rest ∧ ∀ x, x ∈ rest → sender_of (pn_signer t) x = a
}.

Lemma Peek_rep t o : pn_rep t o →
  match Peek t with
  | None => o = ∅
  | Some tx => ∃ a rest l, o !! a = Some (tx, rest) ∧ pn_heads t = wrap_of (pn_baseFee t) tx :: l ∧
      ∀ a' tx' rest', o !! a' = Some (tx', rest') → at_least (pn_baseFee t) tx tx'
  end.
Proof.
  intros [Hh Hp Hs]. unfold Peek. destruct (pn_heads t) as [|w l] eqn:E; cbn.
  - apply Permutation_nil_l in Hp. symmetry in Hp. apply map_eq_nil in Hp. by apply map_to_list_empty_iff in Hp.
  - assert (w ∈ w :: l) as Hw by by left. rewrite Hp in Hw. apply list_elem_of_fmap in Hw as ([a [tx rest]] & -> & Hin).
    apply elem_of_map_to_list in Hin. exists a, rest, l. split; [done|]. split; [done|]. cbn.
    intros a' tx' rest' Ho. apply at_least_less. eapply (is_heap_min price_time_less); [exact Hh|done|].
    rewrite Hp. apply list_elem_of_fmap. exists (a', (tx', rest')). split; [done|]. by apply elem_of_map_to_list.
Qed.

(** The heads when the account [a] is left out. *)
Lemma heads_without t o a tx rest l : pn_rep t o → o !! a = Some (tx, rest) →
  pn_heads t = wrap_of (pn_baseFee t) tx :: l →
  l ≡ₚ map (λ p, wrap_of (pn_baseFee t) p.2.1) (map_to_list (delete a o)).
Proof.
  intros [_ Hp _] Ho E. apply (Permutation_cons_inv (a := wrap_of (pn_baseFee t) tx)). rewrite <- E, Hp.
  by rewrite <- (map_to_list_delete o a (tx, rest) Ho).
Qed.

Lemma Pop_rep t o a tx rest l : pn_rep t o → o !! a = Some (tx, rest) →
  pn_heads t = wrap_of (pn_baseFee t) tx :: l →
  ∃ t', pn_Pop t = Ret t' ∧ pn_rep t' (delete a o) ∧ pn_signer t' = pn_signer t ∧ pn_baseFee t' = pn_baseFee t.
Proof.
  intros H Ho E. pose proof (heads_without t o a tx rest l H Ho E) as Hl. destruct H as [Hh Hp Hs].
  destruct (Pop_spec price_time_less _ _ _ Hh E) as (l' & Ep & Hh' & Hp' & _). unfold pn_Pop. rewrite Ep. cbn [obind].
  eexists. split; [done|]. split; [|done]. constructor; cbn; [done| |].
  - rewrite <- Hl. apply (Permutation_cons_inv (a := wrap_of (pn_baseFee t) tx)). by rewrite <- Hp', E.
  - intros b x r [_ Hb]%lookup_delete_Some. by apply Hs.
Qed.

Lemma Shift_rep t o a tx rest l : pn_rep t o → o !! a = Some (tx, rest) →
  pn_heads t = wrap_of (pn_baseFee t) tx :: l →
  ∃ t', Shift t = Ret t' ∧ pn_rep t' (partial_alter (λ _, offered (pn_baseFee t) rest) a o) ∧
    pn_signer t' = pn_signer t ∧ pn_baseFee t' = pn_baseFee t.
Proof.
  intros H Ho E. destruct (pr_signed t o H a tx rest Ho) as (Ha & Ht & Hr).
  assert (offered (pn_baseFee t) rest = None → Shift t = pn_Pop t → ∃ t', Shift t = Ret t' ∧
    pn_rep t' (partial_alter (λ _, offered (pn_baseFee t) rest) a o) ∧ pn_signer t' = pn_signer t ∧ pn_baseFee t' = pn_baseFee t) as Hpop.
  { intros En ->. destruct (Pop_rep t o a tx rest l H Ho E) as (t' & -> & Ht'). exists t'. by rewrite En. }
  unfold Shift in *. rewrite E in *. cbn [w_tx wrap_of] in *. rewrite Ha, Ht in *. destruct rest as [|nx rest]; [by apply Hpop|].
  rewrite NewTxWithMinerFee_pays in *. cbn [offered] in *. destruct (decide (pays (pn_baseFee t) nx)); [|by apply Hpop].
  clear Hpop. eexists. split; [done|]. split; [|done].
  pose proof (heads_without t o a tx (nx :: rest) l H Ho E) as Hl. destruct H as [Hh Hp Hs].
  destruct (Fix_spec price_time_less (pn_heads t) 0 (wrap_of (pn_baseFee t) nx) Hh) as [Hh' Hp']; [rewrite E; cbn; lia|].
  rewrite E in Hh', Hp'. cbn [insert list_insert] in Hh', Hp'. constructor; cbn [pn_heads pn_baseFee pn_txs pn_signer insert list_insert]; [done| |].
  - rewrite Hp'. change (partial_alter _ a o) with (<[a := (nx, rest)]> o).
    rewrite <- (insert_delete_eq o a (nx, rest)).
    rewrite map_to_list_insert by apply lookup_delete_eq. cbn. by rewrite Hl.
  - intros b x r. change (partial_alter _ a o) with (<[a := (nx, rest)]> o). intros [[<- [= <- <-]]|[Hne Hb]]%lookup_insert_Some.
    + rewrite lookup_insert_eq. split; [apply Hr; by left|]. split; [done|]. intros y Hy. apply Hr. by right.
    + rewrite lookup_insert_ne by done. by apply Hs.
Qed.

Definition is_shift (x : taken) : bool := match x with Shifted _ _ => true | Popped _ _ => false end.

Lemma mine_run_rep moves : ∀ t o, pn_rep t o → ∃ l t' o',
  mine_run moves t = Ret (map taken_tx l, t') ∧ map is_shift l = take (length l) moves ∧
  greedy (pn_baseFee t) o l o' ∧ ((length l < length moves)%nat → o' = ∅).
Proof.
  induction moves as [|shift moves IH]; intros t o H.
  { exists [], t, o. cbn. split; [done|]. split; [done|]. split; [constructor|lia]. }
  pose proof (Peek_rep t o H) as Hk. cbn [mine_run]. destruct (Peek t) as [tx|]; [|].
  2: { exists [], t, o. split; [done|]. split; [done|]. split; [constructor|done]. }
  destruct Hk as (a & rest & l0 & Ho & E & Hb). destruct shift.
  - destruct (Shift_rep t o a tx rest l0 H Ho E) as (t1 & -> & H1 & _ & Ef). cbn [obind].
    destruct (IH t1 _ H1) as (l & t' & o' & -> & Em & Hg & Hend). cbn [obind]. rewrite Ef in Hg.
    exists (Shifted a tx :: l), t', o'. cbn. split; [done|]. split; [by f_equal|].
    split; [by eapply greedy_shift|]. intros. apply Hend. lia.
  - destruct (Pop_rep t o a tx rest l0 H Ho E) as (t1 & -> & H1 & _ & Ef). cbn [obind].
    destruct (IH t1 _ H1) as (l & t' & o' & -> & Em & Hg & Hend). cbn [obind]. rewrite Ef in Hg.
    exists (Popped a tx :: l), t', o'. cbn. split; [done|]. split; [by f_equal|].
    split; [by eapply greedy_pop|]. intros. apply Hend. lia.
Qed.

(** ** The start *)

Definition pick (signer : Signer) (f : option Z) (e : address * list ptx) : option (address * (ptx * list ptx)) :=
  (e.1,.) <$> first_offer signer f e.1 e.2.

Lemma take_heads s f L : ∀ m heads, NoDup L.*1 → (∀ a l, (a, l) ∈ L → l ≠ []) →
  ∃ m', fold_left (take_head s f) L (Ret (m, heads)) =
      Ret (m', heads ++ map (λ p, wrap_of f p.2.1) (omap (pick s f) L)) ∧
    (∀ a l, (a, l) ∈ L → m' !! a = snd <$> first_offer s f a l) ∧ (∀ a, a ∉ L.*1 → m' !! a = m !! a).
Proof.
  induction L as [|[b l] L IH]; intros m heads Hnd Hne.
  { exists m. cbn. rewrite app_nil_r. split; [done|]. split; [|done]. by intros a l ?%not_elem_of_nil. }
  cbn in Hnd. apply NoDup_cons in Hnd as [Hb Hnd]. destruct l as [|tx rest]; [by destruct (Hne b []); [left|]|].
  assert (∃ m1, take_head s f (Ret (m, heads)) (b, tx :: rest) =
      Ret (m1, heads ++ map (λ p, wrap_of f p.2.1) (omap (pick s f) [(b, tx :: rest)])) ∧
    m1 !! b = snd <$> first_offer s f b (tx :: rest) ∧ ∀ a, a ≠ b → m1 !! a = m !! a) as (m1 & E1 & Hm1 & Ho1).
  { unfold take_head. cbn. rewrite NewTxWithMinerFee_pays. unfold pick, first_offer, offered. cbn.
    destruct (decide (pays f tx)), (sender_of s tx =? b); cbn; rewrite ?app_nil_r; eexists; (split; [done|]);
      rewrite ?lookup_insert_eq, ?lookup_delete_eq; (split; [done|]); intros a Ha;
      rewrite ?lookup_insert_ne, ?lookup_delete_ne by done; done. }
  cbn [fold_left]. rewrite E1. destruct (IH m1 (heads ++ map (λ p, wrap_of f p.2.1) (omap (pick s f) [(b, tx :: rest)])) Hnd)
    as (m' & -> & Hin & Hout). { intros a l Hl. apply (Hne a). by right. }
  exists m'. split; [|split].
  - change ((b, tx :: rest) :: L) with ([(b, tx :: rest)] ++ L). by rewrite omap_app, map_app, app_assoc.
  - intros a l [[= -> ->]|Hl]%elem_of_cons; [|by apply Hin]. by rewrite Hout.
  - intros a [Ha HL]%not_elem_of_cons. by rewrite Hout, Ho1.
Qed.

Lemma omap_pick s f txs L : L ≡ₚ map_to_list txs → omap (pick s f) L ≡ₚ map_to_list (start s f txs).
Proof.
  intros HL. assert (NoDup L.*1) as Hnd by (rewrite HL; apply NoDup_fst_map_to_list).
  assert (∀ a x, (a, x) ∈ omap (pick s f) L ↔ ∃ l, (a, l) ∈ L ∧ first_offer s f a l = Some x) as Hel.
  { intros a x. rewrite list_elem_of_omap. unfold pick. split.
    - intros ([b l] & Hin & E). cbn in E. destruct (first_offer s f b l) eqn:Ef; [|done]. injection E as <- <-. by exists l.
    - intros (l & Hin & E). exists (a, l). cbn. by rewrite E. }
  apply NoDup_Permutation; [|apply NoDup_map_to_list|].
  - apply (NoDup_fmap_1 fst). clear HL Hel. induction L as [|[a l] L IH]; [constructor|]. cbn in *.
    apply NoDup_cons in Hnd as [Ha Hnd]. unfold pick at 1. cbn. destruct (first_offer s f a l); cbn; [|by apply IH].
    constructor; [|by apply IH]. intros ([b y] & -> & ([c l'] & Hc & E)%list_elem_of_omap)%list_elem_of_fmap. apply Ha.
    unfold pick in E. cbn in E. destruct (first_offer s f c l'); [|done]. injection E as -> _. cbn.
    apply list_elem_of_fmap. by exists (b, l').
  - intros [a x]. rewrite Hel, elem_of_map_to_list. unfold start. rewrite map_lookup_imap. setoid_rewrite HL.
    setoid_rewrite elem_of_map_to_list. destruct (txs !! a) as [l|]; cbn; [|naive_solver].
    split; [by intros (l' & [= ->] & ?)|by exists l].
Qed.

(** Every list has a first transaction, and the others are signed by the account
    they are filed under. *)
Definition filed (signer : Signer) (txs : gmap address (list ptx)) : Prop :=
  ∀ a l, txs !! a = Some l → l ≠ [] ∧ ∀ x, x ∈ tail l → sender_of signer x = a.

Lemma New_rep s txs f : filed s txs → ∃ t, NewTransactionsByPriceAndNonce s txs f = Ret t ∧
  pn_rep t (start s f txs) ∧ pn_baseFee t = f.
Proof.
  intros Hf. unfold NewTransactionsByPriceAndNonce. pose proof (iteration_perm _ (map_to_list txs)) as HL.
  destruct (take_heads s f (iteration (map_to_list txs)) txs []) as (m' & -> & Hin & Hout).
  { rewrite HL. apply NoDup_fst_map_to_list. }
  { intros a l. rewrite HL. intros Hl%elem_of_map_to_list. by destruct (Hf a l Hl). }
  cbn [obind]. eexists. split; [done|]. split; [|done]. constructor; cbn [pn_heads pn_baseFee pn_txs pn_signer].
  - apply Init_heap, _.
  - by rewrite Init_Permutation, (omap_pick s f txs).
  - intros a tx rest. unfold start. rewrite map_lookup_imap. destruct (txs !! a) as [l|] eqn:E; [|done]. cbn. intros Ho.
    rewrite (Hin a l) by (rewrite HL; by apply elem_of_map_to_list). rewrite Ho.
    destruct (Hf a l E) as [_ Ht]. destruct l as [|x l]; [done|]. unfold first_offer, offered in Ho.
    destruct (Z.eqb_spec (sender_of s x) a); [|done]. case_decide; [|done]. injection Ho as -> ->. done.
Qed.

(** ** Accounts in order *)

Definition remaining (o : offer) (a : address) : list ptx :=
  match o !! a with Some (tx, rest) => tx :: rest | None => [] end.

Lemma greedy_prefix f o l o' : greedy f o l o' → ∀ a,
  map taken_tx (filter (λ x, taken_from x = a) l) `prefix_of` remaining o a.
Proof.
  induction 1 as [o|o b tx rest l o' Ho _ _ IH|o b tx rest l o' Ho _ _ IH]; intros a; [apply prefix_nil|..];
    rewrite filter_cons; cbn [taken_from]; specialize (IH a); unfold remaining in *; case_decide; subst.
  - rewrite Ho. cbn. apply prefix_cons. rewrite lookup_partial_alter_eq in IH. unfold offered in IH.
    destruct rest as [|y rest]; [done|]. case_decide; [done|]. apply prefix_nil_inv in IH as ->. apply prefix_nil.
  - by rewrite lookup_partial_alter_ne in IH.
  - rewrite Ho. cbn. apply prefix_cons. rewrite lookup_delete_eq in IH. apply prefix_nil_inv in IH as ->. apply prefix_nil.
  - by rewrite lookup_delete_ne in IH.
Qed.

Lemma start_remaining s f txs a : remaining (start s f txs) a `prefix_of` default [] (txs !! a).
Proof.
  unfold remaining, start. rewrite map_lookup_imap. destruct (txs !! a) as [[|tx l]|]; cbn; [done| |done].
  unfold offered. destruct (_ =? a), (decide (pays f tx)); try apply prefix_nil; done.
Qed.

(** ** Claims *)

(** C37: the miner is offered the best transaction that is next in its account.
    Whatever it does with each (go on with the account, or give it up), the code
    does not panic, and every transaction it yields is the next one of its account
    and has the highest tip, or the highest and earliest seen, among the next ones
    of all accounts that still offer something; the transactions taken of an
    account are a prefix of its list, and the run only ends early when no account
    offers anything. *)
Theorem miner_takes_best (signer : Signer) (baseFee : option Z) (txs : gmap address (list ptx)) :
  filed signer txs →
  ∃ t, NewTransactionsByPriceAndNonce signer txs baseFee = Ret t ∧
  ∀ moves, ∃ l t' o',
    mine_run moves t = Ret (map taken_tx l, t') ∧ map is_shift l = take (length l) moves ∧
    greedy baseFee (start signer baseFee txs) l o' ∧ ((length l < length moves)%nat → o' = ∅) ∧
    ∀ a, map taken_tx (filter (λ x, taken_from x = a) l) `prefix_of` default [] (txs !! a).
Proof.
  intros Hf. destruct (New_rep signer txs baseFee Hf) as (t & E & Hr & Eb). exists t. split; [done|]. intros moves.
  destruct (mine_run_rep moves t _ Hr) as (l & t' & o' & Er & Em & Hg & Hend). rewrite Eb in Hg.
  exists l, t', o'. split_and!; try done. intros a.
  etransitivity; [by apply (greedy_prefix _ _ _ _ Hg)|apply start_remaining].
Qed.
End Order.

(** ** Example *)

(** Signatures in the clear, and maps visited in the order of their keys. *)
#[local] Instance ClearRecover : Recover := {| Ecrecover _ sig := Ok (4 :: take 32 sig) |}.
#[local] Instance KeyOrder : MapOrder := {| iteration A l := l; iteration_perm A l := reflexivity l |}.

Definition demo_ptx (key nonce price : Z) : ptx :=
  mkPtx (Legacy (mkLegacyTx nonce price 21000 (Some 1) 0 [] 27 key 7)) 110 nonce.
Definition demo_account (key : Z) : address := sender_of Homestead (demo_ptx key 0 0).
Definition demo_txs : gmap address (list ptx) :=
  {[ demo_account 5 := [demo_ptx 5 0 3; demo_ptx 5 1 9]; demo_account 6 := [demo_ptx 6 0 7] ]}.

Lemma demo_filed : filed Homestead demo_txs.
Proof.
  unfold demo_txs. intros a l [[<- <-]|[_ [<- <-]%lookup_singleton_Some]]%lookup_insert_Some; (split; [done|]); cbn [tail];
    intros x Hx; repeat (apply elem_of_cons in Hx as [->|Hx]; [vm_compute; reflexivity|]); by apply not_elem_of_nil in Hx.
Qed.

Lemma miner_takes_best_witness :
  ∃ t, NewTransactionsByPriceAndNonce Homestead demo_txs (Some 1) = Ret t ∧
  ∀ moves, ∃ l t' o',
    mine_run moves t = Ret (map taken_tx l, t') ∧ map is_shift l = take (length l) moves ∧
    greedy (Some 1) (start Homestead (Some 1) demo_txs) l o' ∧ ((length l < length moves)%nat → o' = ∅) ∧
    ∀ a, map taken_tx (filter (λ x, taken_from x = a) l) `prefix_of` default [] (demo_txs !! a).
Proof. exact (miner_takes_best Homestead (Some 1) demo_txs demo_filed). Defined.

(** The cheap first transaction of account 5 comes after account 6, and the dear
    one behind it last. *)
Example miner_order :
  (do! t <- NewTransactionsByPriceAndNonce Homestead demo_txs (Some 1);
   do! (l, _) <- mine_run [true; true; true; true] t; Ret (map (λ x : ptx, GasPrice x) l)) = Ret [7; 3; 9].
Proof. vm_compute. reflexivity. Qed.
