(* ===== verification/TxPriced.v ===== *)
(** * Known transactions and their prices (core/tx_pool.go, core/tx_list.go)

    [txLookup] is the set of all transactions of the pool, local and remote;
    [accountSet] a set of addresses with a signer; [txPricedList] two heaps of the
    remote transactions, by the tip in the next block and by the fee cap, from which
    the cheapest are dropped when the pool is full.  The heaps are cleaned lazily:
    they may hold transactions that left the pool, and [stales] counts them.  The
    lists of the Go code hold the lookup by a pointer; here it is an argument. *)
From S2P Require Import Prelude Common RlpEncode StateObject Transaction TxSigning Heap TxList TxOrder.
Import Crypto.

Definition txSlotSize : Z := 32 * 1024.
Definition txMaxSize : Z := 4 * txSlotSize.

(** The division is on [float64], exact for sizes below [2^53]. *)
Definition numSlots (tx : ptx) : Z := (p_size tx + txSlotSize - 1) / txSlotSize.

(** ** Sets of accounts *)

Record accountSet := mkAccountSet {
  accounts : gset address;
  as_signer : Signer;
  as_cache : option (list address)
}.
Definition as_contains (addr : address) (s : accountSet) : bool := bool_decide (addr ∈ accounts s).
Definition as_empty (s : accountSet) : bool := bool_decide (accounts s = ∅).
Definition as_add (addr : address) (s : accountSet) : accountSet :=
  mkAccountSet ({[addr]} ∪ accounts s) (as_signer s) None.
Definition newAccountSet (signer : Signer) (addrs : list address) : accountSet :=
  fold_left (λ s a, as_add a s) addrs (mkAccountSet ∅ signer None).
Definition merge (other s : accountSet) : accountSet :=
  mkAccountSet (accounts s ∪ accounts other) (as_signer s) None.

(** ** The lookup *)

Record txLookup := mkLookup { lk_slots : Z; locals : gmap hash ptx; remotes : gmap hash ptx }.
Definition newTxLookup : txLookup := mkLookup 0 ∅ ∅.

Definition lk_Get (h : hash) (t : txLookup) : txptr :=
  match locals t !! h with Some tx => Some tx | None => remotes t !! h end.
Definition GetLocal (h : hash) (t : txLookup) : txptr := locals t !! h.
Definition GetRemote (h : hash) (t : txLookup) : txptr := remotes t !! h.
Definition Count (t : txLookup) : nat := size (locals t) + size (remotes t).
Definition LocalCount (t : txLookup) : nat := size (locals t).
Definition RemoteCount (t : txLookup) : nat := size (remotes t).
Definition Slots (t : txLookup) : Z := lk_slots t.

Definition lk_Remove (h : hash) (t : txLookup) : txLookup :=
  match lk_Get h t with
  | None => t
  | Some tx => mkLookup (lk_slots t - numSlots tx) (delete h (locals t)) (delete h (remotes t))
  end.

Section Lookup.
Context {B : Backend} {R : Recover} {MO : MapOrder}.

Definition containsTx (tx : ptx) (s : accountSet) : bool :=
  match signer_Sender (as_signer s) tx with Ok addr => as_contains addr s | Err _ => false end.
Definition addTx (tx : ptx) (s : accountSet) : accountSet :=
  match signer_Sender (as_signer s) tx with Ok addr => as_add addr s | Err _ => s end.
Definition as_flatten (s : accountSet) : list address * accountSet :=
  match as_cache s with
  | Some l => (l, s)
  | None => let l := iteration (elements (accounts s)) in (l, mkAccountSet (accounts s) (as_signer s) (Some l))
  end.

Definition lk_Add (tx : ptx) (local : bool) (t : txLookup) : txLookup :=
  let slots := lk_slots t + numSlots tx in
  if local then mkLookup slots (<[tx_Hash tx := tx]> (locals t)) (remotes t)
  else mkLookup slots (locals t) (<[tx_Hash tx := tx]> (remotes t)).

(** A round of the loop of [RemoteToLocals]. *)
Definition migrate (as_ : accountSet) (st : nat * txLookup) (e : hash * ptx) : nat * txLookup :=
  let '(migrated, t) := st in let '(h, tx) := e in
  if containsTx tx as_ then
    (S migrated, mkLookup (lk_slots t) (<[h := tx]> (locals t)) (delete h (remotes t)))
  else (migrated, t).
Definition RemoteToLocals (as_ : accountSet) (t : txLookup) : nat * txLookup :=
  fold_left (migrate as_) (iteration (map_to_list (remotes t))) (0%nat, t).

(** [Range] over the remote transactions. *)
Definition remote_txs (t : txLookup) : list ptx := map snd (iteration (map_to_list (remotes t))).
Definition RemotesBelowTip (threshold : Z) (t : txLookup) : list ptx :=
  filter (λ tx : ptx, GasTipCapIntCmp tx threshold <? 0 = true) (remote_txs t).

(** ** Heaps of prices *)

Record priceHeap := mkPriceHeap { ph_baseFee : option Z; ph_list : list ptx }.

Definition ph_cmp (baseFee : option Z) (a b : ptx) : Z :=
  let c := match baseFee with Some _ => EffectiveGasTipCmp a b baseFee | None => 0 end in
  if negb (c =? 0) then c
  else
    let c := GasFeeCapCmp a b in
    if negb (c =? 0) then c else GasTipCapCmp a b.

Definition ph_less (baseFee : option Z) (a b : ptx) : bool :=
  let c := ph_cmp baseFee a b in
  if c =? -1 then true else if c =? 1 then false else Nonce b <? Nonce a.

Definition ph_Push (tx : ptx) (h : priceHeap) : priceHeap :=
  mkPriceHeap (ph_baseFee h) (Push (ph_less (ph_baseFee h)) tx (ph_list h)).
Definition ph_Pop (h : priceHeap) : outcome (ptx * priceHeap) :=
  do! (tx, l) <- Pop (ph_less (ph_baseFee h)) (ph_list h); Ret (tx, mkPriceHeap (ph_baseFee h) l).
Definition ph_Init (h : priceHeap) : priceHeap :=
  mkPriceHeap (ph_baseFee h) (Init (ph_less (ph_baseFee h)) (ph_list h)).

Record txPricedList := mkPriced { urgent : priceHeap; floating : priceHeap; stales : Z }.
Definition urgentRatio : Z := 4.
Definition floatingRatio : Z := 1.
Definition newTxPricedList : txPricedList := mkPriced (mkPriceHeap None []) (mkPriceHeap None []) 0.

Definition pl_Put (tx : ptx) (local : bool) (l : txPricedList) : txPricedList :=
  if local then l else mkPriced (ph_Push tx (urgent l)) (floating l) (stales l).

(** Move the [n] cheapest of a heap to the end of a list. *)
Fixpoint pop_n (n : nat) (h : priceHeap) (acc : list ptx) : outcome (priceHeap * list ptx) :=
  match n with
  | O => Ret (h, acc)
  | S n => do! (tx, h) <- ph_Pop h; pop_n n h (acc ++ [tx])
  end.

Definition Reheap (all : txLookup) (l : txPricedList) : outcome txPricedList :=
  let u := ph_Init (mkPriceHeap (ph_baseFee (urgent l)) (remote_txs all)) in
  let floatingCount := Z.to_nat (zlen (ph_list u) * floatingRatio / (urgentRatio + floatingRatio)) in
  do! (u, f) <- pop_n floatingCount u [];
  Ret (mkPriced u (ph_Init (mkPriceHeap (ph_baseFee (floating l)) f)) 0).

Definition Removed (all : txLookup) (count : nat) (l : txPricedList) : outcome txPricedList :=
  let l := mkPriced (urgent l) (floating l) (stales l + Z.of_nat count) in
  if stales l <=? (zlen (ph_list (urgent l)) + zlen (ph_list (floating l))) / 4 then Ret l
  else Reheap all l.

Definition SetBaseFee (all : txLookup) (baseFee : option Z) (l : txPricedList) : outcome txPricedList :=
  Reheap all (mkPriced (mkPriceHeap baseFee (ph_list (urgent l))) (floating l) (stales l)).

(** The loop of [underpricedFor]: stale transactions go from the top of the heap;
    each round takes one. *)
Fixpoint drop_stale (fuel : nat) (all : txLookup) (h : priceHeap) (stales : Z) : outcome (priceHeap * Z) :=
  match ph_list h, fuel with
  | head :: _, S fuel =>
      match GetRemote (tx_Hash head) all with
      | None => do! (_, h) <- ph_Pop h; drop_stale fuel all h (stales - 1)
      | Some _ => Ret (h, stales)
      end
  | _, _ => Ret (h, stales)
  end.

Definition underpricedFor (all : txLookup) (tx : ptx) (h : priceHeap) (stales : Z) : outcome (bool * priceHeap * Z) :=
  do! (h, stales) <- drop_stale (length (ph_list h)) all h stales;
  Ret (match ph_list h with [] => false | head :: _ => 0 <=? ph_cmp (ph_baseFee h) head tx end, h, stales).

(** The conjunction stops at its first false operand. *)
Definition Underpriced (all : txLookup) (tx : ptx) (l : txPricedList) : outcome (bool * txPricedList) :=
  do! (b, u, st) <- underpricedFor all tx (urgent l) (stales l);
  let l := mkPriced u (floating l) st in
  if negb (b || (length (ph_list u) =? 0)%nat) then Ret (false, l)
  else
    do! (b, f, st) <- underpricedFor all tx (floating l) st;
    let l := mkPriced u f st in
    if negb (b || (length (ph_list f) =? 0)%nat) then Ret (false, l)
    else Ret (negb (length (ph_list u) =? 0)%nat || negb (length (ph_list f) =? 0)%nat, l).

(** The loop of [Discard].  A round takes a transaction from the floating heap or
    moves one there, so twice the urgent heap and the floating heap bound the
    rounds. *)
Fixpoint Discard_loop (fuel : nat) (all : txLookup) (slots : Z) (l : txPricedList) (drop : list ptx) :
    outcome (Z * txPricedList * list ptx) :=
  match fuel with
  | O => Ret (slots, l, drop)
  | S fuel =>
      if slots <=? 0 then Ret (slots, l, drop)
      else if zlen (ph_list (floating l)) * urgentRatio <? zlen (ph_list (urgent l)) * floatingRatio then
        do! (tx, u) <- ph_Pop (urgent l);
        match GetRemote (tx_Hash tx) all with
        | None => Discard_loop fuel all slots (mkPriced u (floating l) (stales l - 1)) drop
        | Some _ => Discard_loop fuel all slots (mkPriced u (ph_Push tx (floating l)) (stales l)) drop
        end
      else
        match ph_list (floating l) with
        | [] => Ret (slots, l, drop)
        | _ =>
            do! (tx, f) <- ph_Pop (floating l);
            match GetRemote (tx_Hash tx) all with
            | None => Discard_loop fuel all slots (mkPriced (urgent l) f (stales l - 1)) drop
            | Some _ => Discard_loop fuel all (slots - numSlots tx) (mkPriced (urgent l) f (stales l)) (drop ++ [tx])
            end
        end
  end.
Definition discard_fuel (l : txPricedList) : nat :=
  S (2 * length (ph_list (urgent l)) + length (ph_list (floating l))).

(** The capacity of the slice that is made first must not be negative. *)
Definition Discard (all : txLookup) (slots : Z) (force : bool) (l : txPricedList) :
    outcome (list ptx * bool * txPricedList) :=
  if slots <? 0 then Panic
  else
    do! (slots, l, drop) <- Discard_loop (discard_fuel l) all slots l [];
    if (0 <? slots) && negb force then
      Ret ([], false, mkPriced (fold_left (λ u tx, ph_Push tx u) drop (urgent l)) (floating l) (stales l))
    else Ret (drop, true, l).
End Lookup.
