(* ===== verification/TxPricedSpec.v ===== *)
(** * What the prices of the pool promise

    Every remote transaction of the pool is in one of the two heaps; rebuilding
    makes them exact; a transaction is called underpriced exactly when no tracked
    one is worse; and making room drops remote transactions until enough slots are
    free or nothing is left. *)
From S2P Require Import Prelude Common RlpEncode StateObject Concrete Transaction TxSigning Heap TxList TxOrder TxPriced.
Import Crypto.

Section Priced.
Context {B : Backend} {R : Recover} {MO : MapOrder}.
Implicit Types tx x y : ptx.

(** ** The order of a heap *)

Definition ph_key (f : option Z) (tx : ptx) : Z := match f with Some _ => tip f tx | None => 0 end.

Lemma ph_cmp_cases f a b : ph_cmp f a b =
  if ph_key f a =? ph_key f b then
    if GasFeeCap a =? GasFeeCap b then big_Cmp (GasTipCap a) (GasTipCap b) else big_Cmp (GasFeeCap a) (GasFeeCap b)
  else big_Cmp (ph_key f a) (ph_key f b).
Proof.
  unfold ph_cmp, ph_key, EffectiveGasTipCmp, GasFeeCapCmp, GasTipCapCmp, tip. destruct f as [f|]; rewrite ?Cmp_eq;
    repeat (case_match; try lia); unfold big_Cmp in *; repeat (case_match; try lia).
Qed.

Lemma ph_less_iff f a b : ph_less f a b = true ↔
  ph_key f a < ph_key f b ∨ (ph_key f a = ph_key f b ∧
    (GasFeeCap a < GasFeeCap b ∨ (GasFeeCap a = GasFeeCap b ∧
      (GasTipCap a < GasTipCap b ∨ (GasTipCap a = GasTipCap b ∧ Nonce b < Nonce a))))).
Proof.
  unfold ph_less. rewrite ph_cmp_cases. unfold big_Cmp. repeat (case_match; try lia).
Qed.

#[export] Instance ph_order f : WeakOrder (ph_less f).
Proof.
  assert (∀ a b, ph_less f a b = false ↔ ¬ ph_less f a b = true) as Hf by (intros; by rewrite not_true_iff_false).
  constructor; intros *; rewrite !Hf, ?ph_less_iff; lia.
Qed.

(** ** One heap *)

Definition ph_ok (h : priceHeap) : Prop := is_heap (ph_less (ph_baseFee h)) (ph_list h).

Lemma ph_Push_ok tx h : ph_ok h →
  ph_ok (ph_Push tx h) ∧ ph_list (ph_Push tx h) ≡ₚ tx :: ph_list h ∧ ph_baseFee (ph_Push tx h) = ph_baseFee h.
Proof. intros H. split; [by apply Push_heap; [apply _|]|]. split; [apply Push_Permutation|done]. Qed.

Lemma ph_Pop_ok h tx l : ph_ok h → ph_list h = tx :: l →
  ∃ h', ph_Pop h = Ret (tx, h') ∧ ph_ok h' ∧ ph_list h ≡ₚ tx :: ph_list h' ∧ ph_baseFee h' = ph_baseFee h ∧
    ∀ x, x ∈ ph_list h' → ph_less (ph_baseFee h) x tx = false.
Proof.
  intros H E. destruct (Pop_spec (ph_less (ph_baseFee h)) _ _ _ H E) as (l' & Ep & Hh & Hp & Hm).
  unfold ph_Pop. rewrite Ep. cbn [obind]. eexists. split; [done|]. done.
Qed.

Lemma ph_Init_ok h : ph_ok (ph_Init h) ∧ ph_list (ph_Init h) ≡ₚ ph_list h ∧ ph_baseFee (ph_Init h) = ph_baseFee h.
Proof. split; [apply Init_heap, _|]. split; [apply Init_Permutation|done]. Qed.

Lemma ph_min h tx l x : ph_ok h → ph_list h = tx :: l → x ∈ ph_list h → ph_less (ph_baseFee h) x tx = false.
Proof. intros H E. eapply (is_heap_min (ph_less (ph_baseFee h))); [exact H|by rewrite E]. Qed.

(** Nothing is below the first of a heap in the comparison either. *)
Lemma ph_less_cmp f a b c : ph_less f b a = false → 0 ≤ ph_cmp f a c → 0 ≤ ph_cmp f b c.
Proof.
  rewrite <- not_true_iff_false, ph_less_iff, !ph_cmp_cases. unfold big_Cmp. repeat (case_match; try lia).
Qed.

(** ** The tracking of remote transactions *)

Definition tracked (l : txPricedList) : list ptx := ph_list (urgent l) ++ ph_list (floating l).
(** A transaction of a heap that is still remote in the pool. *)
Definition live (all : txLookup) (tx : ptx) : Prop := is_Some (GetRemote (tx_Hash tx) all).
#[export] Instance live_dec all tx : Decision (live all tx).
Proof. unfold live. apply _. Defined.

Definition keyed (all : txLookup) : Prop := ∀ h tx, remotes all !! h = Some tx → h = tx_Hash tx.

(** The heaps are in order and have every remote transaction, but for those of
    [D] that are about to be removed. *)
Record priced_ok (D : list ptx) (all : txLookup) (l : txPricedList) : Prop := PricedOk {
  po_urgent : ph_ok (urgent l);
  po_floating : ph_ok (floating l);
  po_tracks : ∀ h tx, remotes all !! h = Some tx → tx ∈ tracked l ∨ tx ∈ D
}.

Lemma priced_ok_weaken D all l : priced_ok [] all l → priced_ok D all l.
Proof. intros [Hu Hf Ht]. constructor; [done|done|]. intros h tx Hh. destruct (Ht h tx Hh) as [Hx|Hx]; [by left|by apply not_elem_of_nil in Hx]. Qed.

Lemma remote_txs_perm all : remote_txs all ≡ₚ map snd (map_to_list (remotes all)).
Proof. unfold remote_txs. by rewrite iteration_perm. Qed.

Lemma elem_of_remote_txs all tx : tx ∈ remote_txs all ↔ ∃ h, remotes all !! h = Some tx.
Proof.
  rewrite remote_txs_perm, list_elem_of_fmap. split.
  - intros ([h x] & -> & Hx%elem_of_map_to_list). by exists h.
  - intros [h Hh]. exists (h, tx). split; [done|]. by apply elem_of_map_to_list.
Qed.

Lemma length_remote_txs all : length (remote_txs all) = size (remotes all).
Proof. by rewrite remote_txs_perm, length_map, length_map_to_list. Qed.

Lemma pop_n_ok n : ∀ h acc, ph_ok h → (n ≤ length (ph_list h))%nat →
  ∃ h' low, pop_n n h acc = Ret (h', acc ++ low) ∧ ph_ok h' ∧ ph_baseFee h' = ph_baseFee h ∧ length low = n ∧
    ph_list h ≡ₚ low ++ ph_list h' ∧ ∀ x y, x ∈ ph_list h' → y ∈ low → ph_less (ph_baseFee h) x y = false.
Proof.
  induction n as [|n IH]; intros h acc Hh Hn; cbn [pop_n].
  { exists h, []. rewrite app_nil_r. split_and!; try done. by intros x y _ ?%not_elem_of_nil. }
  destruct (ph_list h) as [|tx l] eqn:E; [cbn in Hn; lia|].
  destruct (ph_Pop_ok h tx l Hh E) as (h1 & -> & Hh1 & Hp & Hf & Hm). cbn [obind]. rewrite E in Hp.
  destruct (IH h1 (acc ++ [tx]) Hh1) as (h' & low & -> & Hh' & Hf' & Hl & Hp' & Hlow).
  { apply Permutation_length in Hp. cbn in *. lia. }
  exists h', (tx :: low). rewrite <- app_assoc. split_and!; [done|done|congruence|cbn; congruence|..].
  - cbn. by rewrite Hp, Hp'.
  - intros x y Hx [->|Hy]%elem_of_cons; [|rewrite <- Hf; by apply Hlow]. apply Hm. rewrite Hp', elem_of_app. by right.
Qed.

(** Rebuilding: exactly the remote transactions, the cheaper fifth apart. *)
Lemma Reheap_ok all l : ∃ l', Reheap all l = Ret l' ∧ priced_ok [] all l' ∧
  tracked l' ≡ₚ map snd (map_to_list (remotes all)) ∧ stales l' = 0 ∧
  length (ph_list (floating l')) = (size (remotes all) / 5)%nat ∧
  ph_baseFee (urgent l') = ph_baseFee (urgent l) ∧ ph_baseFee (floating l') = ph_baseFee (floating l) ∧
  ∀ x y, x ∈ ph_list (urgent l') → y ∈ ph_list (floating l') → ph_less (ph_baseFee (urgent l)) x y = false.
Proof.
  unfold Reheap. destruct (ph_Init_ok (mkPriceHeap (ph_baseFee (urgent l)) (remote_txs all))) as (Hu & Hp & Hf).
  set (u := ph_Init _) in *. cbn [ph_list ph_baseFee] in Hp, Hf.
  assert (length (ph_list u) = size (remotes all)) as Hlen by (by rewrite Hp, length_remote_txs).
  assert (Z.to_nat (zlen (ph_list u) * floatingRatio / (urgentRatio + floatingRatio)) = (size (remotes all) / 5)%nat) as ->.
  { unfold zlen, floatingRatio, urgentRatio. rewrite Hlen, Z.mul_1_r. change (4 + 1) with (Z.of_nat 5).
    by rewrite <- Nat2Z.inj_div, Nat2Z.id. }
  destruct (pop_n_ok (size (remotes all) / 5) u [] Hu) as (u' & low & -> & Hu' & Hf' & Hll & Hpl & Hlow).
  { rewrite Hlen. apply Nat.Div0.div_le_upper_bound. lia. }
  cbn [obind app]. eexists. split; [done|].
  destruct (ph_Init_ok (mkPriceHeap (ph_baseFee (floating l)) low)) as (Hi & Hpi & Hfi). cbn [ph_list ph_baseFee] in Hpi, Hfi.
  assert (ph_list u' ++ ph_list (ph_Init (mkPriceHeap (ph_baseFee (floating l)) low)) ≡ₚ remote_txs all) as Ht
    by (by rewrite Hpi, <- Hp, Hpl, Permutation_app_comm).
  split; [constructor|]; unfold tracked; cbn [urgent floating stales].
  - done.
  - done.
  - intros h tx Hh. left. rewrite Ht. apply elem_of_remote_txs. eauto.
  - split_and!; [by rewrite Ht, remote_txs_perm|done|by rewrite Hpi|congruence|done|].
    intros x y Hx. rewrite Hpi, <- Hf. by apply Hlow.
Qed.

(** The same base fees. *)
Definition same_fees (l l' : txPricedList) : Prop :=
  ph_baseFee (urgent l') = ph_baseFee (urgent l) ∧ ph_baseFee (floating l') = ph_baseFee (floating l).

(** Counting what went may rebuild the heaps. *)
Lemma Removed_ok D all count l : priced_ok D all l →
  ∃ l', Removed all count l = Ret l' ∧ priced_ok D all l' ∧ same_fees l l'.
Proof.
  intros H. unfold Removed. cbn [stales urgent floating]. destruct (_ <=? _).
  - eexists. split; [done|]. by destruct H.
  - destruct (Reheap_ok all (mkPriced (urgent l) (floating l) (stales l + Z.of_nat count)))
      as (l' & -> & Hok & _ & _ & _ & Hu & Hf & _). exists l'. split; [done|]. split; [by apply priced_ok_weaken|done].
Qed.

Lemma SetBaseFee_ok all f l : ∃ l', SetBaseFee all f l = Ret l' ∧ priced_ok [] all l' ∧
  ph_baseFee (urgent l') = f ∧ ph_baseFee (floating l') = ph_baseFee (floating l) ∧ stales l' = 0.
Proof.
  unfold SetBaseFee. destruct (Reheap_ok all (mkPriced (mkPriceHeap f (ph_list (urgent l))) (floating l) (stales l)))
    as (l' & -> & Hok & _ & Hs & _ & Hu & Hf & _). by exists l'.
Qed.

Lemma Put_ok D all tx local l : priced_ok D all l →
  priced_ok D (lk_Add tx local all) (pl_Put tx local l) ∧ same_fees l (pl_Put tx local l).
Proof.
  intros [Hu Hf Ht]. unfold lk_Add, pl_Put. destruct local; [by split|].
  destruct (ph_Push_ok tx _ Hu) as (Hu' & Hp & Ef). split; [|done].
  constructor; cbn [urgent floating remotes stales]; [done|done|..]; unfold tracked; cbn [urgent floating].
  - intros h x [[_ <-]|[_ Hx]]%lookup_insert_Some; rewrite Hp; cbn; [by left; left|].
    destruct (Ht h x Hx); [left; by right|by right].
Qed.

(** ** Garbage *)

(** Taking out garbage keeps the tracking. *)
Lemma tracks_without all l l' gone : keyed all → priced_ok [] all l → tracked l ≡ₚ gone ++ tracked l' →
  Forall (λ x, ¬ live all x) gone →
  ph_ok (urgent l') → ph_ok (floating l') → priced_ok [] all l'.
Proof.
  intros Hk [Hu Hf Ht] Hp Hg Hu' Hf'. constructor; [done|done|].
  intros h tx Hh. left. destruct (Ht h tx Hh) as [Hx|?%not_elem_of_nil]; [|done].
  rewrite Hp in Hx. apply elem_of_app in Hx as [Hx|]; [|done]. exfalso.
    rewrite Forall_forall in Hg. apply (Hg tx Hx). rewrite (Hk h tx Hh) in Hh. by exists tx.
Qed.

Lemma sub_nil (st : Z) : st - zlen (@nil ptx) = st.
Proof. unfold zlen. cbn. lia. Qed.

Lemma drop_stale_ok all fuel : ∀ h st, ph_ok h → (length (ph_list h) ≤ fuel)%nat →
  ∃ h' gone, drop_stale fuel all h st = Ret (h', st - zlen gone) ∧ ph_ok h' ∧ ph_baseFee h' = ph_baseFee h ∧
    ph_list h ≡ₚ gone ++ ph_list h' ∧ Forall (λ x, ¬ live all x) gone ∧ ∀ x l, ph_list h' = x :: l → live all x.
Proof.
  induction fuel as [|fuel IH]; intros h st Hh Hl; cbn [drop_stale].
  { destruct (ph_list h) as [|tx l] eqn:E; [|cbn in Hl; lia]. exists h, []. rewrite E, sub_nil. split_and!; done. }
  destruct (ph_list h) as [|tx l] eqn:E.
  { exists h, []. rewrite E, sub_nil. split_and!; done. }
  destruct (GetRemote (tx_Hash tx) all) as [r|] eqn:Er.
  { exists h, []. rewrite E, sub_nil. split_and!; try done. intros x l' [= <- _]. by exists r. }
  destruct (ph_Pop_ok h tx l Hh E) as (h1 & -> & Hh1 & Hp & Hf & _). cbn [obind]. rewrite E in Hp.
  destruct (IH h1 (st - 1) Hh1) as (h' & gone & -> & Hh' & Hf' & Hp' & Hg & Hlive).
  { apply Permutation_length in Hp. cbn in *. lia. }
  exists h', (tx :: gone). split_and!; [do 2 f_equal; unfold zlen; cbn; lia|done|congruence|by rewrite Hp, Hp'|..|done].
  constructor; [|done]. unfold live. rewrite Er. by intros [? ?].
Qed.

Lemma underpricedFor_ok all tx h st : ph_ok h →
  ∃ b h' gone, underpricedFor all tx h st = Ret (b, h', st - zlen gone) ∧ ph_ok h' ∧ ph_baseFee h' = ph_baseFee h ∧
    ph_list h ≡ₚ gone ++ ph_list h' ∧ Forall (λ x, ¬ live all x) gone ∧
    (b = true → ph_list h' ≠ [] ∧ ∀ x, x ∈ ph_list h' → 0 ≤ ph_cmp (ph_baseFee h) x tx) ∧
    (b = false → ph_list h' = [] ∨ ∃ x, x ∈ ph_list h' ∧ live all x ∧ ph_cmp (ph_baseFee h) x tx < 0).
Proof.
  intros Hh. unfold underpricedFor. destruct (drop_stale_ok all _ h st Hh (le_n _)) as (h' & gone & -> & Hh' & Ef & Hp & Hg & Hl).
  cbn [obind]. eexists _, h', gone. split; [done|]. split_and!; try done.
  - destruct (ph_list h') as [|x l] eqn:E; [done|]. intros Hb. split; [done|]. intros y Hy. rewrite <- E in Hy.
    pose proof (ph_min h' x l y Hh' E Hy). rewrite <- Ef. eapply ph_less_cmp; [done|lia].
  - destruct (ph_list h') as [|x l] eqn:E; [by left|]. intros Hb. right. exists x. split; [by left|].
    split; [by eapply Hl|]. rewrite <- Ef. lia.
Qed.

(** ** Being underpriced *)

(** [x] is worse than [tx] in the heap that has it. *)
Definition worse (l : txPricedList) (x tx : ptx) : Prop :=
  (x ∈ ph_list (urgent l) ∧ ph_cmp (ph_baseFee (urgent l)) x tx < 0) ∨
  (x ∈ ph_list (floating l) ∧ ph_cmp (ph_baseFee (floating l)) x tx < 0).

Lemma Underpriced_ok all tx l : keyed all → priced_ok [] all l →
  ∃ b l', Underpriced all tx l = Ret (b, l') ∧ priced_ok [] all l' ∧ same_fees l l' ∧
  (b = true → ∀ h r, remotes all !! h = Some r →
     (r ∈ ph_list (urgent l) ∧ 0 ≤ ph_cmp (ph_baseFee (urgent l)) r tx) ∨
     (r ∈ ph_list (floating l) ∧ 0 ≤ ph_cmp (ph_baseFee (floating l)) r tx)) ∧
  (b = false → remotes all = ∅ ∨ ∃ r, live all r ∧ worse l r tx).
Proof.
  intros Hk H. unfold Underpriced.
  destruct (underpricedFor_ok all tx (urgent l) (stales l) (po_urgent _ _ _ H)) as (b1 & u & g1 & -> & Hu & Ef1 & Hp1 & Hg1 & Ht1 & Hf1).
  cbn [obind floating]. set (l1 := mkPriced u (floating l) (stales l - zlen g1)).
  assert (priced_ok [] all l1) as H1.
  { apply (tracks_without all l l1 g1); try done; [|apply H]. unfold tracked, l1. cbn. by rewrite Hp1, app_assoc. }
  assert (∀ r, r ∈ ph_list u → r ∈ ph_list (urgent l)) as Hin1 by (intros r Hr; rewrite Hp1, elem_of_app; by right).
  destruct (negb (b1 || (length (ph_list u) =? 0)%nat)) eqn:Eb1.
  { exists false, l1. split_and!; try done. intros _. right. apply negb_true_iff, orb_false_iff in Eb1 as [-> El].
    destruct (Hf1 eq_refl) as [Hnil|(x & Hx & Hl & Hc)]; [by rewrite Hnil in El|]. exists x. split; [done|]. left. auto. }
  destruct (underpricedFor_ok all tx (floating l) (stales l - zlen g1) (po_floating _ _ _ H))
    as (b2 & f & g2 & -> & Hf & Ef2 & Hp2 & Hg2 & Ht2 & Hf2).
  cbn [obind]. cbn [floating l1] in *. set (l2 := mkPriced u f (stales l - zlen g1 - zlen g2)).
  assert (priced_ok [] all l2) as H2.
  { apply (tracks_without all l1 l2 g2); try done. unfold tracked, l1, l2. cbn. rewrite Hp2. solve_Permutation. }
  assert (∀ r, r ∈ ph_list f → r ∈ ph_list (floating l)) as Hin2 by (intros r Hr; rewrite Hp2, elem_of_app; by right).
  assert (∀ h r, remotes all !! h = Some r → r ∈ ph_list u ∨ r ∈ ph_list f) as Hall.
  { intros h r Hr. apply (po_tracks _ _ _ H2) in Hr as [Hr|?%not_elem_of_nil]; [|done]. by apply elem_of_app in Hr. }
  destruct (negb (b2 || (length (ph_list f) =? 0)%nat)) eqn:Eb2.
  { exists false, l2. split_and!; try done. intros _. right. apply negb_true_iff, orb_false_iff in Eb2 as [-> El].
    destruct (Hf2 eq_refl) as [Hnil|(x & Hx & Hl & Hc)]; [by rewrite Hnil in El|]. exists x. split; [done|]. right. auto. }
  apply negb_false_iff, orb_true_iff in Eb1, Eb2. eexists _, l2. split; [done|]. split_and!; try done.
  - intros _ h r Hr. destruct (Hall h r Hr) as [Hx|Hx]; [left|right]; (split; [by auto|]).
    + destruct Eb1 as [E|E]; [by apply Ht1|]. destruct (ph_list u); [by apply not_elem_of_nil in Hx|done].
    + destruct Eb2 as [E|E]; [by apply Ht2|]. destruct (ph_list f); [by apply not_elem_of_nil in Hx|done].
  - rewrite orb_false_iff, !negb_false_iff. intros [E1 E2]. left. apply map_empty. intros h.
    destruct (remotes all !! h) as [r|] eqn:Er; [|done]. exfalso. apply Nat.eqb_eq, nil_length_inv in E1, E2.
    destruct (Hall h r Er) as [Hx|Hx]; [rewrite E1 in Hx|rewrite E2 in Hx]; by apply not_elem_of_nil in Hx.
Qed.

(** ** Making room *)

Definition slots_of (l : list ptx) : Z := foldr (λ tx n, numSlots tx + n) 0 l.

Lemma slots_of_app l k : slots_of (l ++ k) = slots_of l + slots_of k.
Proof. induction l as [|x l IH]; [done|]. cbn. unfold slots_of in *. lia. Qed.

Lemma slots_of_perm l k : l ≡ₚ k → slots_of l = slots_of k.
Proof. induction 1; cbn; unfold slots_of in *; lia. Qed.

(** What a run of the loop does: garbage goes, live transactions are collected
    until the slots are there or nothing is left. *)
Record discards (all : txLookup) (slots : Z) (l : txPricedList) (new : list ptx) (slots' : Z) (l' : txPricedList)
    (gone : list ptx) : Prop := Discards {
  d_urgent : ph_ok (urgent l');
  d_floating : ph_ok (floating l');
  d_fees : same_fees l l';
  d_slots : slots' = slots - slots_of new;
  d_live : Forall (live all) new;
  d_gone : Forall (λ x, ¬ live all x) gone;
  d_perm : tracked l ≡ₚ gone ++ new ++ tracked l';
  d_stales : stales l' = stales l - zlen gone;
  d_done : slots' ≤ 0 ∨ tracked l' = []
}.

Lemma discards_after all slots slots1 l l1 g1 n1 new slots' l' gone :
  same_fees l l1 → slots1 = slots - slots_of n1 → Forall (live all) n1 → Forall (λ x, ¬ live all x) g1 →
  tracked l ≡ₚ g1 ++ n1 ++ tracked l1 → stales l1 = stales l - zlen g1 →
  discards all slots1 l1 new slots' l' gone → discards all slots l (n1 ++ new) slots' l' (g1 ++ gone).
Proof.
  intros [F1 F2] -> Hn Hg Hp Hs [Hu Hf [F3 F4] Hsl Hl Hgo Hpe Hst Hd]. constructor; try done.
  - unfold same_fees in *. split; congruence.
  - rewrite slots_of_app. lia.
  - by apply Forall_app.
  - by apply Forall_app.
  - rewrite Hp, Hpe. solve_Permutation.
  - unfold zlen in *. rewrite length_app. lia.
Qed.

Lemma Discard_loop_ok all fuel : ∀ slots l drop, ph_ok (urgent l) → ph_ok (floating l) →
  (2 * length (ph_list (urgent l)) + length (ph_list (floating l)) < fuel)%nat →
  ∃ new slots' l' gone, Discard_loop fuel all slots l drop = Ret (slots', l', drop ++ new) ∧ discards all slots l new slots' l' gone.
Proof.
  induction fuel as [|fuel IH]; intros slots l drop Hu Hf Hfu; [lia|]. cbn [Discard_loop].
  assert (slots ≤ 0 ∨ tracked l = [] → discards all slots l [] slots l []) as Hstop.
  { intros Hd. constructor; try done; [cbn; lia|by rewrite sub_nil]. }
  destruct (Z.leb_spec slots 0) as [Hle|Hgt].
  { exists [], slots, l, []. rewrite app_nil_r. split; [done|]. apply Hstop. by left. }
  unfold urgentRatio, floatingRatio. destruct (Z.ltb_spec (zlen (ph_list (floating l)) * 4) (zlen (ph_list (urgent l)) * 1)) as [Hlt|Hge].
  - destruct (ph_list (urgent l)) as [|tx u0] eqn:Eu; [unfold zlen in Hlt; cbn in Hlt; lia|].
    destruct (ph_Pop_ok _ tx u0 Hu Eu) as (u & -> & Hu' & Hp & Ef & _). cbn [obind]. rewrite Eu in Hp.
    apply Permutation_length in Hp as Hlen. cbn [length] in Hlen, Hfu.
    destruct (GetRemote (tx_Hash tx) all) as [r|] eqn:Er.
    + destruct (ph_Push_ok tx _ Hf) as (Hf' & Hpf & Eff). apply Permutation_length in Hpf as Hlf. cbn [length] in Hlf.
      destruct (IH slots (mkPriced u (ph_Push tx (floating l)) (stales l)) drop Hu' Hf') as (new & sl & l' & gone & -> & Hd).
      { cbn [urgent floating]. lia. }
      exists new, sl, l', gone. split; [done|].
      apply (discards_after all slots slots l (mkPriced u (ph_Push tx (floating l)) (stales l)) [] [] new sl l' gone); try done.
      { cbn. lia. } { unfold tracked. cbn. rewrite Eu, Hp, Hpf. solve_Permutation. } { by rewrite sub_nil. }
    + destruct (IH slots (mkPriced u (floating l) (stales l - 1)) drop Hu' Hf) as (new & sl & l' & gone & -> & Hd).
      { cbn [urgent floating]. lia. }
      exists new, sl, l', ([tx] ++ gone). split; [done|].
      apply (discards_after all slots slots l (mkPriced u (floating l) (stales l - 1)) [tx] [] new sl l' gone); try done.
      { cbn. lia. } { repeat constructor. unfold live. rewrite Er. by intros [? ?]. }
      { unfold tracked. cbn. by rewrite Eu, Hp. }
  - destruct (ph_list (floating l)) as [|tx0 f0] eqn:Ef0.
    { exists [], slots, l, []. rewrite app_nil_r. split; [done|]. apply Hstop. right. unfold tracked, zlen in *. rewrite Ef0 in *.
      destruct (ph_list (urgent l)); [done|]. cbn in Hge. lia. }
    destruct (ph_Pop_ok _ tx0 f0 Hf Ef0) as (f & -> & Hf' & Hp & Ef & _). cbn [obind]. rewrite Ef0 in Hp.
    apply Permutation_length in Hp as Hlen. cbn [length] in Hlen, Hfu.
    destruct (GetRemote (tx_Hash tx0) all) as [r|] eqn:Er.
    + destruct (IH (slots - numSlots tx0) (mkPriced (urgent l) f (stales l)) (drop ++ [tx0]) Hu Hf') as (new & sl & l' & gone & -> & Hd).
      { cbn [urgent floating]. lia. }
      exists ([tx0] ++ new), sl, l', gone. rewrite <- app_assoc. split; [done|].
      apply (discards_after all slots (slots - numSlots tx0) l (mkPriced (urgent l) f (stales l)) [] [tx0] new sl l' gone); try done.
      { cbn. lia. } { repeat constructor. by exists r. } { unfold tracked. cbn. rewrite Ef0, Hp. solve_Permutation. } { by rewrite sub_nil. }
    + destruct (IH slots (mkPriced (urgent l) f (stales l - 1)) drop Hu Hf') as (new & sl & l' & gone & -> & Hd).
      { cbn [urgent floating]. lia. }
      exists new, sl, l', ([tx0] ++ gone). split; [done|].
      apply (discards_after all slots slots l (mkPriced (urgent l) f (stales l - 1)) [tx0] [] new sl l' gone); try done.
      { cbn. lia. } { repeat constructor. unfold live. rewrite Er. by intros [? ?]. }
      { unfold tracked. cbn. rewrite Ef0, Hp. solve_Permutation. }
Qed.

Lemma push_all_ok l : ∀ h, ph_ok h → ph_ok (fold_left (λ u tx, ph_Push tx u) l h) ∧
  ph_list (fold_left (λ u tx, ph_Push tx u) l h) ≡ₚ l ++ ph_list h ∧
  ph_baseFee (fold_left (λ u tx, ph_Push tx u) l h) = ph_baseFee h.
Proof.
  induction l as [|x l IH]; intros h Hh; [done|]. cbn [fold_left]. destruct (ph_Push_ok x h Hh) as (H1 & H2 & H3).
  destruct (IH _ H1) as (I1 & I2 & I3). split; [done|]. split; [|congruence]. rewrite I2, H2. solve_Permutation.
Qed.

(** Every remote transaction is tracked afterwards or among the dropped ones. *)
Lemma Discard_ok all slots force l : keyed all → priced_ok [] all l → 0 ≤ slots →
  ∃ drop ok l', Discard all slots force l = Ret (drop, ok, l') ∧ same_fees l l' ∧
    priced_ok drop all l' ∧ Forall (live all) drop ∧
    (ok = true → slots ≤ slots_of drop ∨ (force = true ∧ tracked l' = [])) ∧
    (ok = false → drop = [] ∧ force = false ∧ slots_of (tracked l') < slots).
Proof.
  intros Hk H Hsl. unfold Discard. destruct (Z.ltb_spec slots 0); [lia|].
  destruct (Discard_loop_ok all (discard_fuel l) slots l [] (po_urgent _ _ _ H) (po_floating _ _ _ H)) as (new & sl & l' & gone & -> & Hd).
  { unfold discard_fuel. lia. }
  cbn [obind app]. destruct Hd as [Hu Hf Hfe Esl Hl Hg Hp Est Hdone].
  assert (∀ h tx, remotes all !! h = Some tx → tx ∈ new ∨ tx ∈ tracked l') as Hall.
  { intros h tx Hh. destruct (po_tracks _ _ _ H h tx Hh) as [Hx|?%not_elem_of_nil]; [|done].
    rewrite Hp, !elem_of_app in Hx. destruct Hx as [Hx|Hx]; [|done].
    exfalso. rewrite Forall_forall in Hg. apply (Hg tx Hx). rewrite (Hk h tx Hh) in Hh. by exists tx. }
  destruct ((0 <? sl) && negb force) eqn:E.
  - apply andb_true_iff in E as [E1%Z.ltb_lt E2%negb_true_iff]. destruct Hdone as [|Ht]; [lia|].
    destruct (push_all_ok new _ Hu) as (Hu' & Hpu & Efu).
    assert (tracked (mkPriced (fold_left (λ u tx, ph_Push tx u) new (urgent l')) (floating l') (stales l')) ≡ₚ new) as Ht'.
    { unfold tracked in *. cbn. apply app_eq_nil in Ht as [E3 E4]. by rewrite Hpu, E3, E4, !app_nil_r. }
    eexists [], false, _. split; [done|]. split; [unfold same_fees in *; cbn; by rewrite Efu|]. split_and!; try done.
    + constructor; [done|done|]. intros h tx Hh. left. rewrite Ht'. destruct (Hall h tx Hh) as [|Hx]; [done|].
      rewrite Ht in Hx. by apply not_elem_of_nil in Hx.
    + intros _. split; [done|]. split; [done|]. rewrite (slots_of_perm _ _ Ht'). lia.
  - exists new, true, l'. split; [done|]. split_and!; try done; [constructor; [done|done|]; intros h tx Hh; destruct (Hall h tx Hh); auto|].
    intros _. apply andb_false_iff in E as [E%Z.ltb_ge|E%negb_false_iff]; [left; lia|]. destruct Hdone; [left; lia|by right].
Qed.
End Priced.
