(* ===== verification/TxPool.v ===== *)
(** * The transaction pool (core/tx_pool.go)

    The state of the pool and its operations: validation, the two stages (queued
    and pending) of each account, promotion, demotion, the limits on slots, and the
    reset to a new head.  The code runs under the pool's mutex, so an operation is a
    state transformer; [St TxPool] also has panics (a nil pointer, an index out of
    range) and, for loops, the end of fuel.  Metrics, logging, the journal of local
    transactions and the event feed are left out; [time.Now()] is the argument
    [now].  The clock of a heartbeat and a lifetime are in the same unit. *)
From stdpp Require Import sorting.
From S2P Require Import Prelude Common RlpEncode StateObject StateDB TeWakaVm Consensus StateTransition.
From S2P Require Import Transaction TxSigning Heap TxList TxOrder TxPriced.
Import Crypto.

Inductive pool_error :=
| ErrAlreadyKnown | ErrInvalidSender | ErrUnderpriced | ErrTxPoolOverflow | ErrReplaceUnderpriced
| ErrGasLimit | ErrNegativeValue | ErrOversizedData
| ErrCore (e : tx_error).

Record TxPoolConfig := mkPoolConfig {
  cfg_Locals : list address; NoLocals : bool; Rejournal : Z;
  PriceLimit : Z; PriceBump : Z;
  AccountSlots : Z; GlobalSlots : Z; AccountQueue : Z; GlobalQueue : Z;
  Lifetime : Z
}.

Definition DefaultTxPoolConfig : TxPoolConfig := {|
  cfg_Locals := []; NoLocals := false; Rejournal := 3600 * 10 ^ 9;
  PriceLimit := 1; PriceBump := 10;
  AccountSlots := 16; GlobalSlots := 4096 + 1024; AccountQueue := 64; GlobalQueue := 1024;
  Lifetime := 3 * 3600 * 10 ^ 9 |}.

Definition sanitize (c : TxPoolConfig) : TxPoolConfig :=
  let at_least_one (f : TxPoolConfig → Z) := if f c <? 1 then f DefaultTxPoolConfig else f c in {|
  cfg_Locals := cfg_Locals c; NoLocals := NoLocals c;
  Rejournal := if Rejournal c <? 10 ^ 9 then 10 ^ 9 else Rejournal c;
  PriceLimit := at_least_one PriceLimit; PriceBump := at_least_one PriceBump;
  AccountSlots := at_least_one AccountSlots; GlobalSlots := at_least_one GlobalSlots;
  AccountQueue := at_least_one AccountQueue; GlobalQueue := at_least_one GlobalQueue;
  Lifetime := at_least_one Lifetime |}.

(** What the pool reads of the state at the head of the chain. *)
Record headState := mkHeadState { hs_Nonce : address → Z; hs_Balance : address → Z }.

(** The forks of the chain configuration that the pool asks for. *)
Record poolChainConfig := mkPoolChain { pc_ChainID : option Z; pc_CIP_1 : option Z; pc_CIP_4 : option Z }.

Record TxPool := mkTxPool {
  tp_config : TxPoolConfig;
  tp_chainconfig : poolChainConfig;
  tp_gasPrice : Z;
  tp_signer : Signer;
  tp_cip1 : bool;
  tp_cip4 : bool;
  currentState : headState;
  pendingNonces : txNoncer;
  currentMaxGas : Z;
  tp_locals : accountSet;
  pending : gmap address txList;
  queue : gmap address txList;
  beats : gmap address Z;
  all : txLookup;
  priced : txPricedList;
  queuedEvents : list ptx
}.

Definition set_stages (p q : gmap address txList) (t : TxPool) : TxPool :=
  mkTxPool (tp_config t) (tp_chainconfig t) (tp_gasPrice t) (tp_signer t) (tp_cip1 t) (tp_cip4 t) (currentState t)
    (pendingNonces t) (currentMaxGas t) (tp_locals t) p q (beats t) (all t) (priced t) (queuedEvents t).
Definition set_pending (p : gmap address txList) (t : TxPool) : TxPool := set_stages p (queue t) t.
Definition set_queue (q : gmap address txList) (t : TxPool) : TxPool := set_stages (pending t) q t.
Definition set_beats (b : gmap address Z) (t : TxPool) : TxPool :=
  mkTxPool (tp_config t) (tp_chainconfig t) (tp_gasPrice t) (tp_signer t) (tp_cip1 t) (tp_cip4 t) (currentState t)
    (pendingNonces t) (currentMaxGas t) (tp_locals t) (pending t) (queue t) b (all t) (priced t) (queuedEvents t).
Definition set_known (a : txLookup) (l : txPricedList) (t : TxPool) : TxPool :=
  mkTxPool (tp_config t) (tp_chainconfig t) (tp_gasPrice t) (tp_signer t) (tp_cip1 t) (tp_cip4 t) (currentState t)
    (pendingNonces t) (currentMaxGas t) (tp_locals t) (pending t) (queue t) (beats t) a l (queuedEvents t).
Definition set_all (a : txLookup) (t : TxPool) : TxPool := set_known a (priced t) t.
Definition set_priced (l : txPricedList) (t : TxPool) : TxPool := set_known (all t) l t.
Definition set_nonces (n : txNoncer) (t : TxPool) : TxPool :=
  mkTxPool (tp_config t) (tp_chainconfig t) (tp_gasPrice t) (tp_signer t) (tp_cip1 t) (tp_cip4 t) (currentState t)
    n (currentMaxGas t) (tp_locals t) (pending t) (queue t) (beats t) (all t) (priced t) (queuedEvents t).
Definition set_locals (s : accountSet) (t : TxPool) : TxPool :=
  mkTxPool (tp_config t) (tp_chainconfig t) (tp_gasPrice t) (tp_signer t) (tp_cip1 t) (tp_cip4 t) (currentState t)
    (pendingNonces t) (currentMaxGas t) s (pending t) (queue t) (beats t) (all t) (priced t) (queuedEvents t).
Definition set_signer (s : Signer) (t : TxPool) : TxPool :=
  mkTxPool (tp_config t) (tp_chainconfig t) (tp_gasPrice t) s (tp_cip1 t) (tp_cip4 t) (currentState t)
    (pendingNonces t) (currentMaxGas t) (tp_locals t) (pending t) (queue t) (beats t) (all t) (priced t) (queuedEvents t).
Definition set_gasPrice (g : Z) (t : TxPool) : TxPool :=
  mkTxPool (tp_config t) (tp_chainconfig t) g (tp_signer t) (tp_cip1 t) (tp_cip4 t) (currentState t)
    (pendingNonces t) (currentMaxGas t) (tp_locals t) (pending t) (queue t) (beats t) (all t) (priced t) (queuedEvents t).
Definition set_events (e : list ptx) (t : TxPool) : TxPool :=
  mkTxPool (tp_config t) (tp_chainconfig t) (tp_gasPrice t) (tp_signer t) (tp_cip1 t) (tp_cip4 t) (currentState t)
    (pendingNonces t) (currentMaxGas t) (tp_locals t) (pending t) (queue t) (beats t) (all t) (priced t) e.
Definition set_head (s : headState) (maxGas : Z) (t : TxPool) : TxPool :=
  mkTxPool (tp_config t) (tp_chainconfig t) (tp_gasPrice t) (tp_signer t) (tp_cip1 t) (tp_cip4 t) s
    (newTxNoncer (hs_Nonce s)) maxGas (tp_locals t) (pending t) (queue t) (beats t) (all t) (priced t) (queuedEvents t).
Definition set_forks (cip1 cip4 : bool) (t : TxPool) : TxPool :=
  mkTxPool (tp_config t) (tp_chainconfig t) (tp_gasPrice t) (tp_signer t) cip1 cip4 (currentState t)
    (pendingNonces t) (currentMaxGas t) (tp_locals t) (pending t) (queue t) (beats t) (all t) (priced t) (queuedEvents t).

(** The transactions behind pointers; hashing a nil one panics. *)
Definition deref {S} (l : list txptr) : St S (list ptx) := sopt (mapM id l).

(** Run a loop body over a list. *)
Fixpoint each {S A} (f : A → St S ()) (l : list A) : St S () :=
  match l with
  | [] => sret tt
  | x :: l => run! _ <- f x; each f l
  end.

Section Pool.
Context {B : Backend} {R : Recover} {MO : MapOrder}.

(** [from, _ := types.Sender(pool.signer, tx)]. *)
Definition pool_sender (tx : ptx) (t : TxPool) : address := sender_of (tp_signer t) tx.

Definition is_local (addr : address) (t : TxPool) : bool := as_contains addr (tp_locals t).

(** [pool.priced.Removed(count)]. *)
Definition price_removed (count : nat) : St TxPool () := λ t,
  (run! l <- sout (Removed (all t) count (priced t)); smodify (set_priced l)) t.

(** [pool.all.Remove(hash)] for each of a list. *)
Definition forget_txs (l : list ptx) : St TxPool () :=
  each (λ tx : ptx, smodify (λ t, set_all (lk_Remove (tx_Hash tx) (all t)) t)) l.

(** [LatestSigner] again once the fork is active. *)
Definition refresh_signer : St TxPool () :=
  smodify (λ t, if tp_cip4 t then set_signer (LatestSigner (pc_ChainID (tp_chainconfig t))) t else t).

Definition validate (tx : ptx) (local : bool) (t : TxPool) : result pool_error () :=
  if txMaxSize <? u64 (p_size tx) then Err ErrOversizedData
  else if Value tx <? 0 then Err ErrNegativeValue
  else if currentMaxGas t <? Gas tx then Err ErrGasLimit
  else if 256 <? bitlen (Z.abs (GasFeeCap tx)) then Err (ErrCore ErrFeeCapVeryHigh)
  else if 256 <? bitlen (Z.abs (GasTipCap tx)) then Err (ErrCore ErrTipVeryHigh)
  else if GasFeeCapIntCmp tx (GasTipCap tx) <? 0 then Err (ErrCore ErrTipAboveFeeCap)
  else
    match signer_Sender (tp_signer t) tx with
    | Err _ => Err ErrInvalidSender
    | Ok from =>
        if negb local && (GasTipCapIntCmp tx (tp_gasPrice t) <? 0) then Err ErrUnderpriced
        else if Nonce tx <? hs_Nonce (currentState t) from then Err (ErrCore ErrNonceTooLow)
        else if big_Cmp (hs_Balance (currentState t) from) (Cost tx) <? 0 then Err (ErrCore ErrInsufficientFunds)
        else
          match IntrinsicGas (Data tx) (AccessList_ tx) (match To tx with None => true | Some _ => false end) (tp_cip1 t) with
          | Err e => Err (ErrCore e)
          | Ok intrGas => if Gas tx <? intrGas then Err (ErrCore ErrIntrinsicGas) else Ok tt
          end
    end.

Definition validateTx (tx : ptx) (local : bool) : St TxPool (result pool_error ()) :=
  run! _ <- refresh_signer;
  sread (validate tx local).

(** A list that grew a replacement: the old transaction goes. *)
Definition drop_replaced (old : txptr) : St TxPool () :=
  match old with
  | Some o => run! _ <- forget_txs [o]; price_removed 1
  | None => sret tt
  end.

Definition enqueueTx (now : Z) (tx : ptx) (local addAll : bool) : St TxPool (result pool_error bool) :=
  run! from <- sread (pool_sender tx);
  run! l <- sread (λ t, default (newTxList false) (queue t !! from));
  run! bump <- sread (λ t, PriceBump (tp_config t));
  let '(inserted, old, l) := Add tx bump l in
  run! _ <- smodify (λ t, set_queue (<[from := l]> (queue t)) t);
  if negb inserted then sret (Err ErrReplaceUnderpriced)
  else
    run! _ <- drop_replaced old;
    run! _ <- (if addAll then smodify (λ t, set_known (lk_Add tx local (all t)) (pl_Put tx local (priced t)) t) else sret tt);
    run! _ <- smodify (λ t, match beats t !! from with None => set_beats (<[from := now]> (beats t)) t | Some _ => t end);
    sret (Ok (match old with Some _ => true | None => false end)).

Definition promoteTx (now : Z) (addr : address) (tx : ptx) : St TxPool bool :=
  run! l <- sread (λ t, default (newTxList true) (pending t !! addr));
  run! bump <- sread (λ t, PriceBump (tp_config t));
  let '(inserted, old, l) := Add tx bump l in
  run! _ <- smodify (λ t, set_pending (<[addr := l]> (pending t)) t);
  if negb inserted then
    run! _ <- forget_txs [tx];
    run! _ <- price_removed 1;
    sret false
  else
    run! _ <- drop_replaced old;
    run! _ <- smodify (λ t, set_nonces (noncer_set addr (u64 (Nonce tx + 1)) (pendingNonces t)) t);
    run! _ <- smodify (λ t, set_beats (<[addr := now]> (beats t)) t);
    sret true.

(** [Empty] lists are not kept. *)
Definition keep_list (addr : address) (l : txList) (m : gmap address txList) : gmap address txList :=
  if tl_Empty l then delete addr m else <[addr := l]> m.

(** Put transactions back into the queue, without touching the lookup. *)
Definition requeue (now : Z) (l : list ptx) : St TxPool () :=
  each (λ x, run! _ <- enqueueTx now x false false; sret tt) l.

(** Take [tx] out of the pending list of its account; what came behind it is
    queued again. *)
Definition remove_pending (now : Z) (tx : ptx) (addr : address) : St TxPool bool :=
  run! p <- sread (λ t, pending t !! addr);
  match p with
  | None => sret false
  | Some l =>
      run! (removed, invalids, l) <- sout (tl_Remove tx l);
      if removed : bool then
        run! _ <- smodify (λ t, set_pending (keep_list addr l (pending t)) t);
        run! _ <- requeue now invalids;
        run! _ <- smodify (λ t, set_nonces (noncer_setIfLower addr (Nonce tx) (pendingNonces t)) t);
        sret true
      else
        run! _ <- smodify (λ t, set_pending (<[addr := l]> (pending t)) t);
        sret false
  end.

Definition remove_queued (tx : ptx) (addr : address) : St TxPool () :=
  run! q <- sread (λ t, queue t !! addr);
  match q with
  | None => sret tt
  | Some l =>
      run! (_, _, l) <- sout (tl_Remove tx l);
      run! _ <- smodify (λ t, set_queue (keep_list addr l (queue t)) t);
      if tl_Empty l then smodify (λ t, set_beats (delete addr (beats t)) t) else sret tt
  end.

Definition removeTx (now : Z) (h : hash) (outofbound : bool) : St TxPool () :=
  run! found <- sread (λ t, lk_Get h (all t));
  match found with
  | None => sret tt
  | Some tx =>
      run! addr <- sread (pool_sender tx);
      run! _ <- smodify (λ t, set_all (lk_Remove h (all t)) t);
      run! _ <- (if outofbound then price_removed 1 else sret tt);
      run! gone <- remove_pending now tx addr;
      if gone : bool then sret tt else remove_queued tx addr
  end.

(** ** Adding *)

(** Make room for [tx] when the pool is full.  Counts of slots and transactions
    do not reach the width of an [int]. *)
Definition make_room (now : Z) (tx : ptx) (isLocal : bool) : St TxPool (result pool_error ()) :=
  run! limit <- sread (λ t, u64 (GlobalSlots (tp_config t) + GlobalQueue (tp_config t)));
  run! slots <- sread (λ t, Slots (all t));
  if negb (limit <? slots + numSlots tx) then sret (Ok tt)
  else
    run! refused <-
      (if isLocal then sret false
       else
         run! (b, l) <- (λ t, sout (Underpriced (all t) tx (priced t)) t);
         run! _ <- smodify (set_priced l);
         sret b);
    if refused : bool then sret (Err ErrUnderpriced)
    else
      run! (drop, success, l) <- (λ t, sout (Discard (all t) (slots - i64 limit + numSlots tx) isLocal (priced t)) t);
      run! _ <- smodify (set_priced l);
      if negb isLocal && negb success then sret (Err ErrTxPoolOverflow)
      else
        run! _ <- each (λ x : ptx, removeTx now (tx_Hash x) false) drop;
        sret (Ok tt).

(** Replace a pending transaction: [Some] result when [tx] overlaps one. *)
Definition replace_pending (now : Z) (tx : ptx) (isLocal : bool) : St TxPool (option (result pool_error bool)) :=
  run! from <- sread (pool_sender tx);
  run! p <- sread (λ t, pending t !! from);
  match p with
  | Some l =>
      if Overlaps tx l then
        run! bump <- sread (λ t, PriceBump (tp_config t));
        let '(inserted, old, l) := Add tx bump l in
        if negb inserted then sret (Some (Err ErrReplaceUnderpriced))
        else
          run! _ <- smodify (λ t, set_pending (<[from := l]> (pending t)) t);
          run! _ <- drop_replaced old;
          run! _ <- smodify (λ t, set_known (lk_Add tx isLocal (all t)) (pl_Put tx isLocal (priced t)) t);
          run! _ <- smodify (λ t, set_events (queuedEvents t ++ [tx]) t);
          run! _ <- smodify (λ t, set_beats (<[from := now]> (beats t)) t);
          sret (Some (Ok (match old with Some _ => true | None => false end)))
      else sret None
  | None => sret None
  end.

(** Mark the sender of a first local transaction. *)
Definition mark_local (tx : ptx) (local : bool) : St TxPool () :=
  run! from <- sread (pool_sender tx);
  run! known <- sread (is_local from);
  if local && negb known then
    run! _ <- smodify (λ t, set_locals (as_add from (tp_locals t)) t);
    run! (migrated, a) <- sread (λ t, RemoteToLocals (tp_locals t) (all t));
    run! _ <- smodify (set_all a);
    price_removed migrated
  else sret tt.

Definition add (now : Z) (tx : ptx) (local : bool) : St TxPool (result pool_error bool) :=
  run! found <- sread (λ t, lk_Get (tx_Hash tx) (all t));
  match found with
  | Some _ => sret (Err ErrAlreadyKnown)
  | None =>
      run! isLocal <- sread (λ t, local || containsTx tx (tp_locals t));
      ok! _ <- validateTx tx isLocal;
      ok! _ <- make_room now tx isLocal;
      run! replaced <- replace_pending now tx isLocal;
      match replaced with
      | Some r => sret r
      | None =>
          ok! replaced <- enqueueTx now tx isLocal true;
          run! _ <- mark_local tx local;
          sret (Ok replaced)
      end
  end.

Fixpoint addTxs_loop (now : Z) (txs : list ptx) (local : bool) (dirty : accountSet) :
    St TxPool (list (option pool_error) * accountSet) :=
  match txs with
  | [] => sret ([], dirty)
  | tx :: txs =>
      run! r <- add now tx local;
      let dirty := match r with Ok false => addTx tx dirty | _ => dirty end in
      run! (errs, dirty) <- addTxs_loop now txs local dirty;
      sret (match r with Ok _ => None | Err e => Some e end :: errs, dirty)
  end.
Definition addTxsLocked (now : Z) (txs : list ptx) (local : bool) : St TxPool (list (option pool_error) * accountSet) :=
  run! signer <- sread tp_signer;
  addTxs_loop now txs local (newAccountSet signer []).

(** The checks of [addTxs] before the lock. *)
Fixpoint known_or_unsigned (txs : list ptx) : St TxPool (list (option pool_error) * list ptx) :=
  match txs with
  | [] => sret ([], [])
  | tx :: txs =>
      run! found <- sread (λ t, lk_Get (tx_Hash tx) (all t));
      match found with
      | Some _ => run! (errs, news) <- known_or_unsigned txs; sret (Some ErrAlreadyKnown :: errs, news)
      | None =>
          run! _ <- refresh_signer;
          run! from <- sread (λ t, signer_Sender (tp_signer t) tx);
          match from with
          | Err _ => run! (errs, news) <- known_or_unsigned txs; sret (Some ErrInvalidSender :: errs, news)
          | Ok _ => run! (errs, news) <- known_or_unsigned txs; sret (None :: errs, tx :: news)
          end
      end
  end.

(** The new errors go to the empty slots, in order. *)
Fixpoint merge_errs (errs newErrs : list (option pool_error)) : list (option pool_error) :=
  match errs, newErrs with
  | Some e :: errs, _ => Some e :: merge_errs errs newErrs
  | None :: errs, e :: newErrs => e :: merge_errs errs newErrs
  | None :: errs, [] => None :: merge_errs errs []
  | [], _ => []
  end.

(** The errors, and the accounts whose promotion is requested. *)
Definition addTxs (now : Z) (txs : list ptx) (local : bool) : St TxPool (list (option pool_error) * option accountSet) :=
  run! (errs, news) <- known_or_unsigned txs;
  match news with
  | [] => sret (errs, None)
  | _ =>
      run! (newErrs, dirty) <- addTxsLocked now news local;
      sret (merge_errs errs newErrs, Some dirty)
  end.

Definition AddLocals (now : Z) (txs : list ptx) : St TxPool (list (option pool_error) * option accountSet) :=
  run! local <- sread (λ t, negb (NoLocals (tp_config t)));
  addTxs now txs local.
Definition AddRemotes (now : Z) (txs : list ptx) : St TxPool (list (option pool_error) * option accountSet) := addTxs now txs false.

(** ** Promotion and demotion *)

(** The transactions of [readies] that became pending. *)
Fixpoint promote_all (now : Z) (addr : address) (readies : list ptx) : St TxPool (list ptx) :=
  match readies with
  | [] => sret []
  | tx :: readies =>
      run! ok <- promoteTx now addr tx;
      run! promoted <- promote_all now addr readies;
      sret (if ok : bool then tx :: promoted else promoted)
  end.

(** [list.Cap(int(limit))]: a negative limit runs out of the index. *)
Definition cap_list (limit : Z) (l : txList) : outcome (list txptr * txList) :=
  if i64 limit <? 0 then Panic else tl_Cap (Z.to_nat (i64 limit)) l.

(** Drop the transactions of a list that are too old or too costly for the state of
    the head, and forget them: their number, and what a strict list had behind
    them. *)
Definition weed (addr : address) (l : txList) : St TxPool (nat * list ptx * txList) :=
  run! st <- sread currentState;
  run! (olds, l) <- sout (tl_Forward (hs_Nonce st addr) l);
  run! olds <- deref olds;
  run! _ <- forget_txs olds;
  run! maxGas <- sread currentMaxGas;
  let '(drops, invalids, l) := tl_Filter (hs_Balance st addr) maxGas l in
  run! _ <- forget_txs drops;
  sret (length olds + length drops, invalids, l)%nat.

(** Cut the queue of an account that is not local: how many are dropped. *)
Definition cap_queue (addr : address) (l : txList) : St TxPool (nat * txList) :=
  run! local <- sread (is_local addr);
  run! limit <- sread (λ t, AccountQueue (tp_config t));
  run! (caps, l) <- (if local : bool then sret ([], l) else sout (cap_list limit l));
  run! caps <- deref caps;
  run! _ <- forget_txs caps;
  sret (length caps, l).

(** The list is written back at the end: nothing between reads it. *)
Definition promote_account (now : Z) (addr : address) : St TxPool (list ptx) :=
  run! q <- sread (λ t, queue t !! addr);
  match q with
  | None => sret []
  | Some l =>
      run! (weeded, _, l) <- weed addr l;
      run! (next, n) <- sread (λ t, noncer_get addr (pendingNonces t));
      run! _ <- smodify (set_nonces n);
      run! (readies, l) <- sout (tl_Ready next l);
      run! readies <- deref readies;
      run! promoted <- promote_all now addr readies;
      run! (capped, l) <- cap_queue addr l;
      run! _ <- price_removed (weeded + capped);
      run! _ <- smodify (λ t, set_queue (keep_list addr l (queue t)) t);
      run! _ <- (if tl_Empty l then smodify (λ t, set_beats (delete addr (beats t)) t) else sret tt);
      sret promoted
  end.

Fixpoint promoteExecutables (now : Z) (accounts : list address) : St TxPool (list ptx) :=
  match accounts with
  | [] => sret []
  | addr :: accounts =>
      run! p <- promote_account now addr;
      run! ps <- promoteExecutables now accounts;
      sret (p ++ ps)
  end.

(** With the first nonce missing, everything goes back to the queue. *)
Definition demote_gapped (now nonce : Z) (l : txList) : St TxPool txList :=
  match Get (txs l) nonce with
  | None =>
      if (0 <? tl_Len l)%nat then
        run! (gapped, l) <- sout (tl_Cap 0 l);
        run! gapped <- deref gapped;
        run! _ <- requeue now gapped;
        sret l
      else sret l
  | Some _ => sret l
  end.

Definition demote_account (now : Z) (addr : address) (l : txList) : St TxPool () :=
  run! nonce <- sread (λ t, hs_Nonce (currentState t) addr);
  run! (_, invalids, l) <- weed addr l;
  run! _ <- requeue now invalids;
  run! l <- demote_gapped now nonce l;
  smodify (λ t, set_pending (keep_list addr l (pending t)) t).

(** Only the entry that is visited changes, so the iteration is over the map at
    the start. *)
Definition demoteUnexecutables (now : Z) : St TxPool () :=
  run! entries <- sread (λ t, iteration (map_to_list (pending t)));
  each (λ e, demote_account now e.1 e.2) entries.

(** ** The limits *)

Definition count_txs (m : gmap address txList) : Z :=
  fold_left (λ n e, n + Z.of_nat (tl_Len e.2)) (iteration (map_to_list m)) 0.

(** The length of a pending list; a missing one is a nil pointer. *)
Definition pending_len (addr : address) : St TxPool Z :=
  run! p <- sread (λ t, pending t !! addr);
  run! l <- sopt p;
  sret (Z.of_nat (tl_Len l)).

(** Drop the last pending transaction of an account; [Cap(-1)] of an empty list
    panics. *)
Definition trim (addr : address) : St TxPool () :=
  run! p <- sread (λ t, pending t !! addr);
  run! l <- sopt p;
  run! (caps, l) <- (if (tl_Len l =? 0)%nat then spanic else sout (tl_Cap (tl_Len l - 1) l));
  run! _ <- smodify (λ t, set_pending (<[addr := l]> (pending t)) t);
  run! caps <- deref caps;
  run! _ <- each (λ tx : ptx,
    run! _ <- smodify (λ t, set_all (lk_Remove (tx_Hash tx) (all t)) t);
    smodify (λ t, set_nonces (noncer_setIfLower addr (Nonce tx) (pendingNonces t)) t)) caps;
  price_removed (length caps).

(** While the pool is above its limit and the list of [ref] is longer than
    [threshold], take one transaction off every list of [who]. *)
Fixpoint shrink (fuel : nat) (ref : address) (threshold : Z) (who : list address) (count : Z) : St TxPool Z :=
  run! limit <- sread (λ t, GlobalSlots (tp_config t));
  if negb (limit <? count) then sret count
  else
    run! len <- pending_len ref;
    if negb (threshold <? len) then sret count
    else
      match fuel with
      | O => λ _, XFuel
      | S fuel =>
          run! _ <- each trim who;
          shrink fuel ref threshold who (count - zlen who)
      end.

(** [prque] on priorities: the queue is a heap, highest priority first. *)
Definition prque_less (a b : address * Z) : bool := b.2 <? a.2.

(** Take the largest accounts one by one and level them with the next. *)
Fixpoint level (fuel : nat) (spammers : list (address * Z)) (offenders : list address) (count : Z) :
    St TxPool (list address * Z) :=
  run! limit <- sread (λ t, GlobalSlots (tp_config t));
  match spammers with
  | [] => sret (offenders, count)
  | _ =>
      if negb (limit <? count) then sret (offenders, count)
      else
        match fuel with
        | O => λ _, XFuel
        | S fuel =>
            run! (offender, spammers) <- sout (Pop prque_less spammers);
            run! count <-
              (match last offenders with
               | None => sret count
               | Some prev =>
                   run! threshold <- pending_len offender.1;
                   shrink (S (Z.to_nat count)) prev threshold offenders count
               end);
            level fuel spammers (offenders ++ [offender.1]) count
        end
  end.

Definition truncatePending : St TxPool () :=
  run! count <- sread (λ t, count_txs (pending t));
  run! limit <- sread (λ t, GlobalSlots (tp_config t));
  if count <=? limit then sret tt
  else
    run! spammers <- sread (λ t,
      fold_left (λ h e,
        if negb (is_local e.1 t) && (AccountSlots (tp_config t) <? Z.of_nat (tl_Len e.2))
        then Push prque_less (e.1, Z.of_nat (tl_Len e.2)) h else h)
        (iteration (map_to_list (pending t))) []);
    run! (offenders, count) <- level (length spammers) spammers [] count;
    match last offenders with
    | Some lst =>
        run! slots <- sread (λ t, AccountSlots (tp_config t));
        run! _ <- shrink (S (Z.to_nat count)) lst slots offenders count;
        sret tt
    | None => sret tt
    end.

(** [list.Flatten()] of a queued list, which fills its cache. *)
Definition queue_flatten (addr : address) : St TxPool (list ptx) :=
  run! q <- sread (λ t, queue t !! addr);
  run! l <- sopt q;
  let '(txs, l) := tl_Flatten l in
  run! _ <- smodify (λ t, set_queue (<[addr := l]> (queue t)) t);
  sret txs.

Definition queue_len (addr : address) : St TxPool Z :=
  run! q <- sread (λ t, queue t !! addr);
  run! l <- sopt q;
  sret (Z.of_nat (tl_Len l)).

Definition remove_all (now : Z) (l : list ptx) : St TxPool () :=
  each (λ tx : ptx, removeTx now (tx_Hash tx) true) l.

(** The loop of [truncateQueue], the last account of the sorted ones first. *)
Fixpoint drop_queued (now : Z) (addresses : list address) (drop_ : Z) : St TxPool () :=
  match addresses with
  | [] => sret tt
  | addr :: addresses =>
      if negb (0 <? drop_) then sret tt
      else
        run! size <- queue_len addr;
        run! txs <- queue_flatten addr;
        if size <=? drop_ then
          run! _ <- remove_all now txs;
          drop_queued now addresses (drop_ - size)
        else remove_all now (take (Z.to_nat drop_) (reverse txs))
  end.

(** [addressesByHeartbeat]; ties come in the order of the iteration. *)
Definition by_heartbeat (a b : address * Z) : Prop := a.2 ≤ b.2.
#[export] Instance by_heartbeat_dec : RelDecision by_heartbeat.
Proof. intros a b. unfold by_heartbeat. apply _. Defined.

Definition truncateQueue (now : Z) : St TxPool () :=
  run! queued <- sread (λ t, count_txs (queue t));
  run! limit <- sread (λ t, GlobalQueue (tp_config t));
  if queued <=? limit then sret tt
  else
    run! addresses <- sread (λ t,
      merge_sort by_heartbeat
        (omap (λ e, if is_local e.1 t then None else Some (e.1, default 0 (beats t !! e.1)))
           (iteration (map_to_list (queue t)))));
    drop_queued now (reverse (map fst addresses)) (queued - limit).

(** ** Prices, eviction and reading *)

Definition SetGasPrice (now price : Z) : St TxPool () :=
  run! old <- sread tp_gasPrice;
  run! _ <- smodify (set_gasPrice price);
  if 0 <? big_Cmp price old then
    run! drop_ <- sread (λ t, RemotesBelowTip price (all t));
    run! _ <- each (λ tx : ptx, removeTx now (tx_Hash tx) false) drop_;
    price_removed (length drop_)
  else sret tt.

(** The eviction tick of [loop]; an account may leave the queue only when it is
    visited. *)
Definition evict (now : Z) : St TxPool () :=
  run! addrs <- sread (λ t, map fst (iteration (map_to_list (queue t))));
  each (λ addr,
    run! skip <- sread (λ t, is_local addr t || negb (Lifetime (tp_config t) <? now - default 0 (beats t !! addr)));
    if skip : bool then sret tt
    else
      run! txs <- queue_flatten addr;
      remove_all now txs) addrs.

Definition tp_Nonce (addr : address) : St TxPool Z :=
  run! (n, ns) <- sread (λ t, noncer_get addr (pendingNonces t));
  run! _ <- smodify (set_nonces ns);
  sret n.

Definition tp_stats (t : TxPool) : Z * Z := (count_txs (pending t), count_txs (queue t)).

Inductive TxStatus := TxStatusUnknown | TxStatusQueued | TxStatusPending.
Definition Status (h : hash) (t : TxPool) : TxStatus :=
  match lk_Get h (all t) with
  | None => TxStatusUnknown
  | Some tx =>
      let from := pool_sender tx t in
      let has (m : gmap address txList) := match m !! from with Some l => Overlaps tx l | None => false end in
      if has (pending t) then TxStatusPending else if has (queue t) then TxStatusQueued else TxStatusUnknown
  end.

(** [Flatten] every list of a stage. *)
Definition flatten_all (m : gmap address txList) : gmap address (list ptx) * gmap address txList :=
  (fst ∘ tl_Flatten <$> m, snd ∘ tl_Flatten <$> m).

Definition Content : St TxPool (gmap address (list ptx) * gmap address (list ptx)) :=
  run! (p, pl) <- sread (λ t, flatten_all (pending t));
  run! (q, ql) <- sread (λ t, flatten_all (queue t));
  run! _ <- smodify (set_stages pl ql);
  sret (p, q).

(** [Flatten] one list, if it is there. *)
Definition flatten_at (addr : address) (m : gmap address txList) : list ptx * gmap address txList :=
  match m !! addr with
  | Some l => let '(txs, l) := tl_Flatten l in (txs, <[addr := l]> m)
  | None => ([], m)
  end.

Definition ContentFrom (addr : address) : St TxPool (list ptx * list ptx) :=
  run! (p, pl) <- sread (λ t, flatten_at addr (pending t));
  run! (q, ql) <- sread (λ t, flatten_at addr (queue t));
  run! _ <- smodify (set_stages pl ql);
  sret (p, q).

Definition Locals : St TxPool (list address) :=
  run! (l, s) <- sread (λ t, as_flatten (tp_locals t));
  run! _ <- smodify (set_locals s);
  sret l.

(** The transactions before the first that pays less than the minimum tip. *)
Fixpoint tip_prefix (gasPrice : Z) (baseFee : option Z) (txs : list ptx) : list ptx :=
  match txs with
  | [] => []
  | tx :: txs => if EffectiveGasTipIntCmp tx gasPrice baseFee <? 0 then [] else tx :: tip_prefix gasPrice baseFee txs
  end.

Definition Pending (enforceTips : bool) : St TxPool (gmap address (list ptx)) :=
  run! (p, pl) <- sread (λ t, flatten_all (pending t));
  run! _ <- smodify (set_pending pl);
  sread (λ t,
    map_imap (λ addr txs,
      let txs :=
        if enforceTips && negb (is_local addr t)
        then tip_prefix (tp_gasPrice t) (ph_baseFee (urgent (priced t))) txs else txs in
      match txs with [] => None | _ => Some txs end) p).

(** ** Following the chain *)

Record Block := mkBlock { b_header : Header; b_txs : list ptx }.
Definition b_number (b : Block) : Z := u64 (hd_Number (b_header b)).

(** The chain behind the pool. *)
Class BlockChain := {
  GetBlock : hash → Z → option Block;
  StateAt : hash → option headState
}.
Context {Ch : BlockChain}.

Definition block_parent (b : Block) : option Block := GetBlock (hd_ParentHash (b_header b)) (u64 (b_number b - 1)).

(** Walk from [b] down to the number [to]; [None] when a parent is missing. *)
Fixpoint walk_down (fuel : nat) (to : Z) (b : Block) (acc : list ptx) : option (Block * list ptx) :=
  if to <? b_number b then
    match fuel with
    | O => None
    | S fuel =>
        match block_parent b with
        | Some p => walk_down fuel to p (acc ++ b_txs b)
        | None => None
        end
    end
  else Some (b, acc).

(** Walk both sides down to their common ancestor. *)
Fixpoint walk_both (fuel : nat) (rem add_ : Block) (discarded included : list ptx) : option (list ptx * list ptx) :=
  if Header_Hash (b_header rem) =? Header_Hash (b_header add_) then Some (discarded, included)
  else
    match fuel with
    | O => None
    | S fuel =>
        match block_parent rem, block_parent add_ with
        | Some rem', Some add' => walk_both fuel rem' add' (discarded ++ b_txs rem) (included ++ b_txs add_)
        | _, _ => None
        end
    end.

(** The transactions of a replaced branch that the new one lacks.  [Some None]
    means that the reset is given up; [None] is the nil pointer when the new head
    is not found.  Each walk goes to a parent, so the numbers bound the rounds
    (block zero has no parent).  The depth is computed on [float64], exactly below
    [2^53]. *)
Definition reinjected (oldHead : option Header) (newHead : Header) : option (option (list ptx)) :=
  match oldHead with
  | None => Some (Some [])
  | Some oldHead =>
      if Header_Hash oldHead =? hd_ParentHash newHead then Some (Some [])
      else
        let oldNum := u64 (hd_Number oldHead) in
        let newNum := u64 (hd_Number newHead) in
        if 64 <? Z.abs (oldNum - newNum) then Some (Some [])
        else
          match GetBlock (Header_Hash oldHead) oldNum, GetBlock (Header_Hash newHead) newNum with
          | None, _ => if oldNum <=? newNum then Some None else Some (Some [])
          | Some _, None => None
          | Some rem, Some add_ =>
              let fuel := S (Z.to_nat (oldNum + newNum)) in
              Some
                match walk_down fuel (b_number add_) rem [] with
                | None => None
                | Some (rem, discarded) =>
                    match walk_down fuel (b_number rem) add_ [] with
                    | None => None
                    | Some (add_, included) =>
                        match walk_both fuel rem add_ discarded included with
                        | None => None
                        | Some (discarded, included) => Some (TxDifference p_data discarded included)
                        end
                    end
                end
          end
  end.

Definition reset (now : Z) (oldHead : option Header) (newHead : Header) : St TxPool () :=
  run! reinject <- sopt (reinjected oldHead newHead);
  match reinject with
  | None => sret tt
  | Some reinject =>
      match StateAt (hd_Root newHead) with
      | None => sret tt
      | Some st =>
          run! _ <- smodify (set_head st (hd_GasLimit newHead));
          run! _ <- addTxsLocked now reinject false;
          let next := hd_Number newHead + 1 in
          smodify (λ t, set_forks (isForked (pc_CIP_1 (tp_chainconfig t)) next) (isForked (pc_CIP_4 (tp_chainconfig t)) next) t)
      end
  end.

(** [pool.pendingNonces.set(addr, highestPending.Nonce()+1)] for every account. *)
Definition update_nonces : St TxPool () :=
  run! entries <- sread (λ t, iteration (map_to_list (pending t)));
  each (λ e,
    run! (tx, l) <- sout (tl_LastElement e.2);
    run! _ <- smodify (λ t, set_pending (<[e.1 := l]> (pending t)) t);
    smodify (λ t, set_nonces (noncer_set e.1 (u64 (Nonce tx + 1)) (pendingNonces t)) t)) entries.

(** [runReorg] without the events: the promoted transactions are the result.
    [req] is the reset request with the old and the new head. *)
Definition runReorg (now : Z) (req : option (option Header * Header)) (dirtyAccounts : option accountSet) : St TxPool (list ptx) :=
  run! promoteAddrs <-
    (match req with
     | Some (oldHead, newHead) =>
         run! _ <- reset now oldHead newHead;
         sread (λ t, map fst (iteration (map_to_list (queue t))))
     | None => sret (match dirtyAccounts with Some d => fst (as_flatten d) | None => [] end)
     end);
  run! promoted <- promoteExecutables now promoteAddrs;
  run! _ <-
    (match req with
     | Some (_, newHead) =>
         run! _ <- demoteUnexecutables now;
         run! baseFee <- sout (CalcBaseFee newHead);
         run! l <- (λ t, sout (SetBaseFee (all t) (Some baseFee) (priced t)) t);
         smodify (set_priced l)
     | None => sret tt
     end);
  run! _ <- truncatePending;
  run! _ <- truncateQueue now;
  run! _ <- update_nonces;
  sret promoted.

(** [NewTxPool] up to the start of its goroutines.  The state is a nil pointer
    until the first reset, here a state of zeros.  When [StateAt] fails for the
    first head the code only logs it and keeps the nil pointer, and the next
    call that reads the state panics; the zeros do not show that, so the
    theorems on the pool ask for the state of the first head. *)
Definition NewTxPool (now : Z) (config : TxPoolConfig) (chainconfig : poolChainConfig) (head : Header) : xres TxPool :=
  let config := sanitize config in
  let signer := LatestSigner (pc_ChainID chainconfig) in
  let empty := mkHeadState (λ _, 0) (λ _, 0) in
  let pool := mkTxPool config chainconfig (PriceLimit config) signer false false empty (newTxNoncer (hs_Nonce empty)) 0
    (newAccountSet signer (cfg_Locals config)) ∅ ∅ ∅ newTxLookup newTxPricedList [] in
  match reset now None head pool with
  | XRet (_, t) => XRet t
  | XPanic => XPanic
  | XFuel => XFuel
  end.
End Pool.
