(* ===== verification/TxPoolLogic.v ===== *)
(** * Reasoning about the transaction pool

    The representation of the pool: each stage of an account is a sorted list, the
    lookup knows a set of transactions, and the price heaps track the remote ones;
    with the effect of the basic steps on it.  [twp m Q t]: the step [m] from [t]
    neither panics nor runs out of fuel, and ends with [Q]. *)
From stdpp Require Import sorting.
From S2P Require Import Prelude Common RlpEncode StateObject StateDB TeWakaVm Consensus StateTransition.
From S2P Require Import Transaction TxSigning Heap TxList TxListSpec TxOrder TxPriced TxPricedSpec TxPool.
Import Crypto.

(** ** Total correctness of steps *)

Definition twp {S A} (m : St S A) (Q : A → S → Prop) (s : S) : Prop := ∃ a s', m s = XRet (a, s') ∧ Q a s'.

Lemma twp_mono {S A} (m : St S A) (Q Q' : A → S → Prop) s : twp m Q s → (∀ a s', Q a s' → Q' a s') → twp m Q' s.
Proof. intros (a & s' & E & H) HQ. exists a, s'. auto. Qed.
Lemma twp_ret {S A} (a : A) (Q : A → S → Prop) s : Q a s → twp (sret a) Q s.
Proof. intros H. by exists a, s. Qed.
Lemma twp_read {S A} (f : S → A) (Q : A → S → Prop) s : Q (f s) s → twp (sread f) Q s.
Proof. intros H. by exists (f s), s. Qed.
Lemma twp_modify {S} (f : S → S) (Q : () → S → Prop) s : Q tt (f s) → twp (smodify f) Q s.
Proof. intros H. by exists tt, (f s). Qed.
Lemma twp_out {S A} (o : outcome A) (a : A) (Q : A → S → Prop) s : o = Ret a → Q a s → twp (sout o) Q s.
Proof. intros -> H. by exists a, s. Qed.
Lemma twp_opt {S A} (o : option A) (a : A) (Q : A → S → Prop) s : o = Some a → Q a s → twp (sopt o) Q s.
Proof. intros -> H. by exists a, s. Qed.
Lemma twp_bind {S A C} (m : St S A) (f : A → St S C) Q s : twp m (λ a, twp (f a) Q) s → twp (sbind m f) Q s.
Proof. intros (a & s' & E & H). destruct H as (c & s'' & E' & H). exists c, s''. unfold sbind. by rewrite E. Qed.
Lemma twp_bind_read {S A C} (g : S → A) (f : A → St S C) Q s : twp (f (g s)) Q s → twp (sbind (sread g) f) Q s.
Proof. intros H. apply twp_bind. by apply twp_read. Qed.
Lemma twp_bind_modify {S C} (g : S → S) (f : () → St S C) Q s : twp (f tt) Q (g s) → twp (sbind (smodify g) f) Q s.
Proof. intros H. apply twp_bind. by apply twp_modify. Qed.
Lemma twp_bind_ret {S A C} (a : A) (f : A → St S C) Q s : twp (f a) Q s → twp (sbind (sret a) f) Q s.
Proof. done. Qed.
Lemma twp_bind_out {S A C} (o : outcome A) (a : A) (f : A → St S C) Q s :
  o = Ret a → twp (f a) Q s → twp (sbind (sout o) f) Q s.
Proof. intros -> H. done. Qed.
Lemma twp_bind_opt {S A C} (o : option A) (a : A) (f : A → St S C) Q s :
  o = Some a → twp (f a) Q s → twp (sbind (sopt o) f) Q s.
Proof. intros -> H. done. Qed.
Lemma twp_try {S E A C} (m : St S (result E A)) (f : A → St S (result E C)) Q s :
  twp m (λ r s', match r with Ok a => twp (f a) Q s' | Err e => Q (Err e) s' end) s → twp (stry m f) Q s.
Proof. intros H. apply twp_bind. eapply twp_mono; [exact H|]. intros [a|e] s' HQ; [done|]. by apply twp_ret. Qed.

(** A loop with an invariant on what is still to be done. *)
Lemma twp_each {S A} (f : A → St S ()) (I : list A → S → Prop) : ∀ l s, I l s →
  (∀ x l s, I (x :: l) s → twp (f x) (λ _, I l) s) → twp (each f l) (λ _, I []) s.
Proof.
  intros l. induction l as [|x l IH]; intros s H Hstep; cbn [each]; [by apply twp_ret|].
  apply twp_bind. eapply twp_mono; [by apply Hstep|]. intros [] s' H'. by apply IH.
Qed.

(** Steps that cannot fail. *)
Ltac tstep :=
  cbv beta iota;
  lazymatch goal with
  | |- twp (sbind (sread _) _) _ _ => apply twp_bind_read
  | |- twp (sbind (smodify _) _) _ _ => apply twp_bind_modify
  | |- twp (sbind (sret _) _) _ _ => apply twp_bind_ret
  | |- twp (sret _) _ _ => apply twp_ret
  | |- twp (sread _) _ _ => apply twp_read
  | |- twp (smodify _) _ _ => apply twp_modify
  end; cbv beta iota.

Section Rep.
Context {B : Backend} {R : Recover} {MO : MapOrder}.
(** Transactions that are about to be removed. *)
Context (D : list ptx).
Implicit Types tx x y o : ptx.
Implicit Types K : ptx → Prop.

(** ** The lookup *)

Definition known_map (a : txLookup) : gmap hash ptx := locals a ∪ remotes a.

(** The lookup knows exactly the transactions of [K], each once. *)
Record lookup_ok (K : ptx → Prop) (a : txLookup) : Prop := LookupOk {
  lo_known : ∀ h tx, lk_Get h a = Some tx ↔ h = tx_Hash tx ∧ K tx;
  lo_disj : ∀ h, locals a !! h = None ∨ remotes a !! h = None;
  lo_slots : lk_slots a = slots_of (map snd (map_to_list (known_map a)))
}.

Lemma known_map_Get a h : known_map a !! h = lk_Get h a.
Proof. unfold known_map, lk_Get. rewrite lookup_union. destruct (locals a !! h), (remotes a !! h); done. Qed.

Lemma slots_insert (m : gmap hash ptx) h tx : m !! h = None →
  slots_of (map snd (map_to_list (<[h := tx]> m))) = numSlots tx + slots_of (map snd (map_to_list m)).
Proof. intros H. by rewrite (slots_of_perm _ _ (fmap_Permutation snd _ _ (map_to_list_insert m h tx H))). Qed.

Lemma slots_delete (m : gmap hash ptx) h tx : m !! h = Some tx →
  slots_of (map snd (map_to_list (delete h m))) = slots_of (map snd (map_to_list m)) - numSlots tx.
Proof.
  intros H. pose proof (slots_insert (delete h m) h tx (lookup_delete_eq _ _)) as E.
  rewrite insert_delete_id in E by done. lia.
Qed.

Lemma lookup_ok_new : lookup_ok (λ _, False) newTxLookup.
Proof. constructor; [|by left|done]. intros h tx. unfold lk_Get. cbn. rewrite !lookup_empty. naive_solver. Qed.

Lemma lookup_ok_ext K K' a : (∀ tx, K tx ↔ K' tx) → lookup_ok K a → lookup_ok K' a.
Proof. intros H [Hk Hd Hs]. constructor; [|done|done]. intros h tx. rewrite Hk, H. done. Qed.

Lemma lookup_ok_keyed K a : lookup_ok K a → keyed a.
Proof.
  intros H h tx E. assert (lk_Get h a = Some tx) as Hg.
  { unfold lk_Get. destruct (lo_disj _ _ H h) as [->| ?]; congruence. }
  by apply (lo_known _ _ H) in Hg as [? _].
Qed.

Lemma lk_Get_None K a tx : lookup_ok K a → lk_Get (tx_Hash tx) a = None → ∀ x, K x → tx_Hash x ≠ tx_Hash tx.
Proof.
  intros H E x Hx Eh. assert (lk_Get (tx_Hash x) a = Some x) as Hg by (by apply (lo_known _ _ H)). congruence.
Qed.

(** Known transactions are told apart by their hashes. *)
Lemma known_inj K a x y : lookup_ok K a → K x → K y → tx_Hash x = tx_Hash y → x = y.
Proof.
  intros H Hx Hy E. assert (lk_Get (tx_Hash x) a = Some x) by (by apply (lo_known _ _ H)).
  assert (lk_Get (tx_Hash y) a = Some y) by (by apply (lo_known _ _ H)). congruence.
Qed.

Lemma lk_Add_ok K a tx local : lookup_ok K a → lk_Get (tx_Hash tx) a = None →
  lookup_ok (λ x, K x ∨ x = tx) (lk_Add tx local a).
Proof.
  intros H E. pose proof (lk_Get_None K a tx H E) as Hn. destruct H as [Hk Hd Hs].
  assert (locals a !! tx_Hash tx = None ∧ remotes a !! tx_Hash tx = None) as [E1 E2].
  { unfold lk_Get in E. destruct (locals a !! tx_Hash tx); [done|]. done. }
  assert (known_map (lk_Add tx local a) = <[tx_Hash tx := tx]> (known_map a)) as Em.
  { unfold known_map, lk_Add. destruct local; cbn; [by rewrite insert_union_l|by rewrite insert_union_r]. }
  constructor.
  - intros h x. rewrite <- known_map_Get, Em.
    rewrite (lookup_insert_Some (known_map a)), known_map_Get, Hk. split.
    + intros [[<- <-]|[Hne [-> Hx]]]; auto.
    + intros [-> [Hx| ->]]; [right|by left]. split; [|done]. intros Eh. by apply (Hn x).
  - intros h. unfold lk_Add. destruct local; cbn; (destruct (decide (h = tx_Hash tx)) as [->|]; [|rewrite lookup_insert_ne by done; apply Hd]).
    + by right.
    + by left.
  - rewrite Em, slots_insert by (by rewrite known_map_Get). unfold lk_Add. destruct local; cbn; lia.
Qed.

Lemma lk_Remove_ok K a tx : lookup_ok K a → lookup_ok (λ x, K x ∧ tx_Hash x ≠ tx_Hash tx) (lk_Remove (tx_Hash tx) a).
Proof.
  intros [Hk Hd Hs]. unfold lk_Remove. destruct (lk_Get (tx_Hash tx) a) as [y|] eqn:E.
  - assert (∀ c, known_map (mkLookup c (delete (tx_Hash tx) (locals a)) (delete (tx_Hash tx) (remotes a))) =
      delete (tx_Hash tx) (known_map a)) as Em by (intros c; unfold known_map; cbn; by rewrite delete_union).
    constructor.
    + intros h x. rewrite <- known_map_Get, Em, (lookup_delete_Some (known_map a)), known_map_Get, Hk. naive_solver.
    + intros h. cbn. destruct (Hd h) as [H|H]; [left|right]; rewrite lookup_delete_None; by right.
    + rewrite Em. cbn. rewrite (slots_delete _ _ y) by (by rewrite known_map_Get). lia.
  - constructor; [|done|done]. intros h x. rewrite Hk. split; [|naive_solver]. intros [-> Hx]. split; [done|]. split; [done|].
    intros Eh. assert (lk_Get (tx_Hash x) a = Some x) by (by apply Hk). congruence.
Qed.

Lemma lk_Remove_remotes a h h' tx : remotes (lk_Remove h a) !! h' = Some tx → remotes a !! h' = Some tx.
Proof. unfold lk_Remove. destruct (lk_Get h a); [|done]. cbn. by intros [_ H]%lookup_delete_Some. Qed.

(** Migration changes which of the two maps holds a transaction. *)
Lemma migrate_ok s K a h tx n : lookup_ok K a → remotes a !! h = Some tx →
  lookup_ok K (snd (migrate s (n, a) (h, tx))) ∧
  ∀ h' x, remotes (snd (migrate s (n, a) (h, tx))) !! h' = Some x → remotes a !! h' = Some x.
Proof.
  intros [Hk Hd Hs] Hr. unfold migrate. destruct (containsTx tx s); [|done]. cbn [snd].
  assert (locals a !! h = None) as Hl by (destruct (Hd h); congruence).
  set (a' := mkLookup _ _ _). assert (known_map a' = known_map a) as Em.
  { unfold known_map, a'. cbn. rewrite <- (insert_delete_id (remotes a) h tx Hr) at 2.
    rewrite <- insert_union_r by done. by rewrite insert_union_l. }
  split; [|intros h' x; cbn; by intros [_ ?]%lookup_delete_Some]. constructor.
  - intros h' x. by rewrite <- known_map_Get, Em, known_map_Get.
  - intros h'. cbn. destruct (decide (h' = h)) as [->|]; [right; apply lookup_delete_eq|].
    rewrite lookup_insert_ne, lookup_delete_ne by done. apply Hd.
  - by rewrite Em.
Qed.

Lemma RemoteToLocals_ok s K a : lookup_ok K a →
  lookup_ok K (snd (RemoteToLocals s a)) ∧ ∀ h x, remotes (snd (RemoteToLocals s a)) !! h = Some x → remotes a !! h = Some x.
Proof.
  intros H. unfold RemoteToLocals.
  assert (∀ L n b, lookup_ok K b → NoDup L.*1 → (∀ h x, (h, x) ∈ L → remotes b !! h = Some x) →
    (∀ h x, remotes b !! h = Some x → remotes a !! h = Some x) →
    let r := fold_left (migrate s) L (n, b) in
    lookup_ok K (snd r) ∧ ∀ h x, remotes (snd r) !! h = Some x → remotes a !! h = Some x) as Hloop.
  { induction L as [|[h tx] L IH]; intros n b Hb Hnd Hin Hsub; [done|]. cbn [fold_left]. apply NoDup_cons in Hnd as [Hh Hnd].
    destruct (migrate_ok s K b h tx n Hb) as [Hok Hsub']; [apply Hin; by left|].
    destruct (migrate s (n, b) (h, tx)) as [n' b'] eqn:Em. cbn [snd] in *. apply IH; [done|done| |by auto].
    intros h' x Hx. assert (h' ≠ h) as Hne by (intros ->; apply Hh, list_elem_of_fmap; by exists (h, x)).
    assert (remotes b !! h' = Some x) by (apply Hin; by right). unfold migrate in Em. destruct (containsTx tx s); injection Em as _ <-; [|done].
    cbn. by rewrite lookup_delete_ne. }
  apply Hloop; [done|rewrite iteration_perm; apply NoDup_fst_map_to_list| |done].
  intros h x. rewrite iteration_perm. apply elem_of_map_to_list.
Qed.

Lemma priced_ok_sub a a' l : priced_ok D a l → (∀ h x, remotes a' !! h = Some x → remotes a !! h = Some x) → priced_ok D a' l.
Proof. intros [Hu Hf Ht] Hs. constructor; [done|done|]. intros h x Hx. by eapply Ht, Hs. Qed.

(** ** The stages and the virtual nonces *)

Definition upd {A} (a : address) (v : A) (f : address → A) : address → A := λ b, if decide (b = a) then v else f b.
Lemma upd_eq {A} a (v : A) f : upd a v f a = v.
Proof. unfold upd. by rewrite decide_True. Qed.
Lemma upd_ne {A} a b (v : A) f : b ≠ a → upd a v f b = f b.
Proof. intros H. unfold upd. by rewrite decide_False. Qed.

(** The lists of a stage hold [f]. *)
Definition stage_rep (s : bool) (m : gmap address txList) (f : address → list ptx) : Prop :=
  ∀ a, match m !! a with Some t => list_rep t (f a) ∧ strict t = s | None => f a = [] end.

Lemma stage_get s m f a : stage_rep s m f →
  list_rep (default (newTxList s) (m !! a)) (f a) ∧ strict (default (newTxList s) (m !! a)) = s.
Proof.
  intros H. specialize (H a). destruct (m !! a) as [t|]; cbn; [done|]. rewrite H. split; [apply new_list_rep|done].
Qed.

Lemma stage_insert s m f a t l : stage_rep s m f → list_rep t l → strict t = s → stage_rep s (<[a := t]> m) (upd a l f).
Proof.
  intros H Hl Hs b. destruct (decide (b = a)) as [->|Hne].
  - by rewrite lookup_insert_eq, upd_eq.
  - rewrite lookup_insert_ne, upd_ne by done. apply H.
Qed.

Lemma list_rep_Len t l : list_rep t l → tl_Len t = length l.
Proof. intros [[[Hs Hi _ _] _] _ _]. unfold tl_Len, Len. by apply holds_size. Qed.
Lemma list_rep_Empty t l : list_rep t l → tl_Empty t = bool_decide (l = []).
Proof.
  intros H. unfold tl_Empty. rewrite (list_rep_Len t l H). destruct l; [by rewrite bool_decide_true|]. by rewrite bool_decide_false.
Qed.
Lemma list_rep_sorted t l : list_rep t l → StronglySorted nonce_lt l.
Proof. intros H. apply H. Qed.

Lemma stage_keep s m f a t l : stage_rep s m f → list_rep t l → strict t = s → stage_rep s (keep_list a t m) (upd a l f).
Proof.
  intros H Hl Hs. unfold keep_list. rewrite (list_rep_Empty t l Hl). case_bool_decide as El; [|by apply stage_insert].
  subst l. intros b. destruct (decide (b = a)) as [->|Hne].
  - by rewrite lookup_delete_eq, upd_eq.
  - rewrite lookup_delete_ne, upd_ne by done. apply H.
Qed.

(** No empty list is kept. *)
Definition no_empty (m : gmap address txList) (f : address → list ptx) : Prop := ∀ a t, m !! a = Some t → f a ≠ [].

Lemma no_empty_insert m f a t l : no_empty m f → l ≠ [] → no_empty (<[a := t]> m) (upd a l f).
Proof.
  intros H Hl b t'. destruct (decide (b = a)) as [->|Hne]; [by rewrite upd_eq|].
  rewrite lookup_insert_ne, upd_ne by done. apply H.
Qed.
Lemma no_empty_keep m f a t l : no_empty m f → list_rep t l → no_empty (keep_list a t m) (upd a l f).
Proof.
  intros H Hl. unfold keep_list. rewrite (list_rep_Empty t l Hl). case_bool_decide as El; [|by apply no_empty_insert].
  intros b t'. destruct (decide (b = a)) as [->|Hne]; [by rewrite lookup_delete_eq|]. rewrite lookup_delete_ne, upd_ne by done. apply H.
Qed.

Definition noncer_val (a : address) (n : txNoncer) : Z := default (fallback n a) (nonces n !! a).

Lemma known_val a b n : default (fallback n b) (known a n !! b) = noncer_val b n.
Proof.
  unfold known, noncer_val. destruct (nonces n !! a) eqn:E; [done|]. destruct (decide (b = a)) as [->|Hne].
  - by rewrite lookup_insert_eq, E.
  - by rewrite lookup_insert_ne by done.
Qed.
Lemma known_self a n : known a n !! a = Some (noncer_val a n).
Proof. unfold known, noncer_val. destruct (nonces n !! a) eqn:E; [by rewrite E|]. by rewrite lookup_insert_eq. Qed.

Lemma noncer_get_val a n : fst (noncer_get a n) = noncer_val a n ∧ ∀ b, noncer_val b (snd (noncer_get a n)) = noncer_val b n.
Proof. unfold noncer_get. cbn [fst snd]. rewrite known_self. split; [done|]. intros b. exact (known_val a b n). Qed.
Lemma noncer_set_val a v n b : noncer_val b (noncer_set a v n) = upd a v (λ c, noncer_val c n) b.
Proof.
  unfold noncer_set, noncer_val, upd. cbn. case_decide as E; [subst; by rewrite lookup_insert_eq|]. by rewrite lookup_insert_ne by done.
Qed.
Lemma noncer_setIfLower_val a v n b :
  noncer_val b (noncer_setIfLower a v n) = upd a (Z.min (noncer_val a n) v) (λ c, noncer_val c n) b.
Proof.
  unfold noncer_setIfLower. rewrite known_self. cbn [default from_option id]. unfold upd. destruct (Z.leb_spec (noncer_val a n) v).
  - transitivity (noncer_val b n); [exact (known_val a b n)|]. case_decide; [subst; lia|done].
  - unfold noncer_val at 1. cbn. case_decide as E; [subst; rewrite lookup_insert_eq; cbn; lia|].
    rewrite lookup_insert_ne by done. apply known_val.
Qed.

(** ** The pool *)

(** What an operation of the pool leaves alone. *)
Definition fixed (t : TxPool) : TxPoolConfig * poolChainConfig * Signer * bool * bool * headState * Z :=
  (tp_config t, tp_chainconfig t, tp_signer t, tp_cip1 t, tp_cip4 t, currentState t, currentMaxGas t).

(** The pending and queued transactions of every account, the virtual nonces, and
    what the lookup knows. *)
Record pool_rep (P Q : address → list ptx) (V : address → Z) (K : ptx → Prop) (t : TxPool) : Prop := PoolRep {
  pp_pending : stage_rep true (pending t) P;
  pp_no_empty : no_empty (pending t) P;
  pp_queue : stage_rep false (queue t) Q;
  pp_queue_ne : no_empty (queue t) Q;
  pp_nonces : ∀ a, noncer_val a (pendingNonces t) = V a;
  pp_known : lookup_ok K (all t);
  pp_priced : priced_ok D (all t) (priced t)
}.

Lemma price_removed_ok n t : priced_ok D (all t) (priced t) → ∀ Q : () → TxPool → Prop,
  (∀ l, priced_ok D (all t) l → Q tt (set_priced l t)) → twp (price_removed n) Q t.
Proof.
  intros H Q HQ. unfold price_removed. destruct (Removed_ok D (all t) n (priced t) H) as (l & E & Hl & _).
  exists tt, (set_priced l t). split; [|by apply HQ]. unfold sbind. by rewrite E.
Qed.

(** Forgetting known transactions, one by one. *)
Lemma forget_txs_ok K (L : list ptx) t : lookup_ok K (all t) → priced_ok D (all t) (priced t) → ∀ Q : () → TxPool → Prop,
  (∀ a, lookup_ok (λ x, K x ∧ ∀ y, y ∈ L → tx_Hash x ≠ tx_Hash y) a → priced_ok D a (priced t) → Q tt (set_all a t)) →
  twp (forget_txs L) Q t.
Proof.
  revert K t. induction L as [|y L IH]; intros K t Hk Hp Q HQ; unfold forget_txs; cbn [each].
  - apply twp_ret. assert (t = set_all (all t) t) as Et by (by destruct t). rewrite Et. apply HQ; [|done].
    eapply lookup_ok_ext; [|exact Hk]. intros x. split; [|naive_solver]. intros Hx. split; [done|]. by intros y ?%not_elem_of_nil.
  - apply twp_bind_modify. apply (IH (λ x, K x ∧ tx_Hash x ≠ tx_Hash y)).
    + by apply lk_Remove_ok.
    + cbn. eapply priced_ok_sub; [exact Hp|]. intros h x. apply lk_Remove_remotes.
    + intros a Ha Hpa. apply (HQ a); [|done]. eapply lookup_ok_ext; [|exact Ha]. intros x. cbn.
      setoid_rewrite elem_of_cons. split; [intros [[H1 H2] H3]; split; [done|intros z [->|Hz]; auto]|].
      intros [H1 H2]. split; [split; [done|apply H2; by left]|]. intros z Hz. apply H2. by right.
Qed.

(** For known transactions, having another hash is being another one. *)
Lemma forgotten K a (L : list ptx) : lookup_ok K a → (∀ y, y ∈ L → K y) → ∀ x,
  (K x ∧ ∀ y, y ∈ L → tx_Hash x ≠ tx_Hash y) ↔ (K x ∧ x ∉ L).
Proof.
  intros H HL x. split; intros [Hx Hn]; (split; [done|]).
  - intros Hin. by apply (Hn x).
  - intros y Hy E. apply Hn. by rewrite (known_inj K a x y H Hx (HL y Hy) E).
Qed.

Lemma drop_replaced_ok K (o : txptr) t : lookup_ok K (all t) → priced_ok D (all t) (priced t) →
  (∀ y, o = Some y → K y) → ∀ Q : () → TxPool → Prop,
  (∀ a l, lookup_ok (λ x, K x ∧ o ≠ Some x) a → priced_ok D a l → Q tt (set_known a l t)) → twp (drop_replaced o) Q t.
Proof.
  intros Hk Hp Ho Q HQ. destruct o as [y|]; cbn [drop_replaced].
  - apply twp_bind. apply (forget_txs_ok K); [done|done|]. intros a Ha Hpa. apply price_removed_ok; [done|].
    intros l Hl. apply (HQ a l); [|done]. eapply lookup_ok_ext; [|exact Ha]. intros x. rewrite (forgotten K (all t) [y] Hk).
    + rewrite list_elem_of_singleton. naive_solver.
    + intros z ->%list_elem_of_singleton. by apply Ho.
  - apply twp_ret. assert (t = set_known (all t) (priced t) t) as Et by (by destruct t). rewrite Et. apply HQ; [|done].
    eapply lookup_ok_ext; [|exact Hk]. intros x. naive_solver.
Qed.

Lemma deref_ok {S} (l : list ptx) (Q : list ptx → S → Prop) s : Q l s → twp (deref (map Some l)) Q s.
Proof.
  intros H. eapply twp_opt; [|exact H]. clear H. apply mapM_Some. induction l; constructor; done.
Qed.

Lemma stage_rep_ext s m f g : (∀ a, f a = g a) → stage_rep s m f → stage_rep s m g.
Proof. intros E H a. rewrite <- E. apply H. Qed.

Lemma upd_id {A} a (f : address → A) b : upd a (f a) f b = f b.
Proof. unfold upd. case_decide; [by subst|done]. Qed.

Lemma pool_rep_ext P P' Q Q' V V' K K' t : (∀ a, P a = P' a) → (∀ a, Q a = Q' a) → (∀ a, V a = V' a) →
  (∀ x, K x ↔ K' x) → pool_rep P Q V K t → pool_rep P' Q' V' K' t.
Proof.
  intros EP EQ EV EK [Hp Hn Hq Hqn Hv Hk Hpr]. constructor; try done.
  - by eapply stage_rep_ext.
  - intros a l Hl. rewrite <- EP. by eapply Hn.
  - by eapply stage_rep_ext.
  - intros a l Hl. rewrite <- EQ. by eapply Hqn.
  - intros a. by rewrite <- EV.
  - by eapply lookup_ok_ext.
Qed.

(** ** Adding to a list *)

Lemma Add_cases tx bump t l : list_rep t l → in_range tx →
  (Add tx bump t = (false, None, t) ∧ ∃ o, o ∈ l ∧ Nonce o = Nonce tx) ∨
  ∃ old t', Add tx bump t = (true, old, t') ∧ list_rep t' (put tx l) ∧ strict t' = strict t ∧
    ∀ x, old = Some x ↔ x ∈ l ∧ Nonce x = Nonce tx.
Proof.
  intros H Hr. pose proof (Add_rep tx bump t l H Hr) as Ha. cbv zeta in Ha. pose proof (list_rep_sorted t l H) as Hs.
  destruct (list_find (λ x, Nonce x = Nonce tx) l) as [[i o]|] eqn:E.
  - apply list_find_Some in E as (Ho & En & _). assert (o ∈ l) as Hin by (by eapply list_elem_of_lookup_2).
    destruct (decide (replaces bump o tx)); [|left; eauto]. right. destruct Ha as (t' & Ea & Ht & Es). exists (Some o), t'.
    split_and!; try done. intros x. split; [by intros [= <-]|]. intros [Hx Ex]. f_equal.
    apply (sorted_nonces_inj l); [done|done|done|congruence].
  - right. destruct Ha as (t' & Ea & Ht & Es). exists None, t'. split_and!; try done. intros x. split; [done|]. intros [Hx Ex].
    apply list_find_None in E. rewrite Forall_forall in E. by destruct (E x Hx).
Qed.

Lemma put_ne tx l : put tx l ≠ [].
Proof. intros E. assert (tx ∈ put tx l) as H by (apply elem_of_put; by left). rewrite E in H. by apply not_elem_of_nil in H. Qed.

(** ** Queueing *)

(** The transaction of [l] with the nonce of [tx]. *)
Definition same_slot (l : list ptx) tx x : Prop := x ∈ l ∧ Nonce x = Nonce tx.

Lemma enqueueTx_ok P Q V K t now tx local addAll : let a := pool_sender tx t in
  pool_rep P Q V K t → in_range tx → (∀ x, x ∈ Q a → K x) →
  (addAll = true → lk_Get (tx_Hash tx) (all t) = None) →
  twp (enqueueTx now tx local addAll) (λ r t', fixed t' = fixed t ∧ tp_locals t' = tp_locals t ∧
    ((r = Err ErrReplaceUnderpriced ∧ pool_rep P Q V K t' ∧ ∃ o, same_slot (Q a) tx o) ∨
     (∃ b, r = Ok b ∧
       pool_rep P (upd a (put tx (Q a)) Q) V (λ x, (K x ∧ ¬ same_slot (Q a) tx x) ∨ (addAll = true ∧ x = tx)) t'))) t.
Proof.
  intros a [Hp Hn Hq Hqn Hv Hk Hpr] Hr HQ Hnew. unfold enqueueTx. do 3 tstep. fold a.
  destruct (stage_get false (queue t) Q a Hq) as [Hl Hst].
  destruct (Add_cases tx (PriceBump (tp_config t)) _ _ Hl Hr) as [(-> & o & Ho & En)|(old & l' & -> & Hl' & Hst' & Hold)]; tstep; cbn [negb].
  - tstep. split; [done|]. split; [done|]. left. split; [done|]. split; [|by exists o].
    constructor; try done; cbn.
    + eapply stage_rep_ext; [apply (upd_id a)|]. by apply stage_insert.
    + intros b l2. destruct (decide (b = a)) as [->|]; [intros _ E; rewrite E in Ho; by apply not_elem_of_nil in Ho|].
      rewrite lookup_insert_ne by done. apply Hqn.
  - apply twp_bind. apply (drop_replaced_ok K); [done|done|intros y Hy; by apply HQ, Hold|]. intros al l1 Ha1 Hp1.
    set (t1 := set_known al l1 _). assert (stage_rep false (queue t1) (upd a (put tx (Q a)) Q)) as Hq1.
    { apply stage_insert; [done|done|]. by rewrite Hst'. }
    assert (no_empty (queue t1) (upd a (put tx (Q a)) Q)) as Hqn1 by (apply no_empty_insert; [done|apply put_ne]).
    assert (lookup_ok (λ x, K x ∧ ¬ same_slot (Q a) tx x) al) as Ha2.
    { eapply lookup_ok_ext; [|exact Ha1]. intros x. unfold same_slot. by rewrite Hold. }
    assert (addAll = true → lk_Get (tx_Hash tx) al = None) as Hnew1.
    { intros Ha. destruct (lk_Get (tx_Hash tx) al) as [y|] eqn:Ey; [|done]. apply (lo_known _ _ Ha2) in Ey as [Eh [Hy _]].
      specialize (Hnew Ha). assert (lk_Get (tx_Hash y) (all t) = Some y) by (by apply (lo_known _ _ Hk)). congruence. }
    assert (∀ al2 l2, lookup_ok (λ x, (K x ∧ ¬ same_slot (Q a) tx x) ∨ (addAll = true ∧ x = tx)) al2 → priced_ok D al2 l2 →
      twp (run! _ <- smodify (λ t0, match beats t0 !! a with None => set_beats (<[a := now]> (beats t0)) t0 | Some _ => t0 end);
           sret (Ok (match old with Some _ => true | None => false end)))
        (λ r t', fixed t' = fixed t ∧ tp_locals t' = tp_locals t ∧
          ((r = Err ErrReplaceUnderpriced ∧ pool_rep P Q V K t' ∧ ∃ o, same_slot (Q a) tx o) ∨
           (∃ b, r = Ok b ∧ pool_rep P (upd a (put tx (Q a)) Q) V (λ x, (K x ∧ ¬ same_slot (Q a) tx x) ∨ (addAll = true ∧ x = tx)) t')))
        (set_known al2 l2 t1)) as Hend.
    { intros al2 l2 Ha Hp2. do 2 tstep. destruct (beats (set_known al2 l2 t1) !! a); (split; [done|]; split; [done|]; right; eexists;
        split; [done|]; constructor; done). }
    destruct addAll.
    + tstep. change (set_known _ _ t1) with (set_known (lk_Add tx local al) (pl_Put tx local l1) t1). apply Hend.
      * eapply lookup_ok_ext; [|apply lk_Add_ok; [exact Ha2|by apply Hnew1]]. naive_solver.
      * by apply (Put_ok D).
    + tstep. change t1 with (set_known al l1 t1). apply Hend; [|done]. eapply lookup_ok_ext; [|exact Ha2]. naive_solver.
Qed.

(** Transactions of an account whose nonces are free go to its queue. *)
Lemma requeue_ok P V K now a (l : list ptx) : ∀ Q t, pool_rep P Q V K t →
  (∀ x, x ∈ l → pool_sender x t = a ∧ in_range x ∧ K x) → NoDup (map pNonce l) →
  (∀ x y, x ∈ l → y ∈ Q a → Nonce x ≠ Nonce y) → (∀ x, x ∈ Q a → K x) →
  twp (requeue now l) (λ _ t', fixed t' = fixed t ∧ tp_locals t' = tp_locals t ∧
    ∃ q, pool_rep P (upd a q Q) V K t' ∧ ∀ x, x ∈ q ↔ x ∈ Q a ∨ x ∈ l) t.
Proof.
  induction l as [|x l IH]; intros Q t H Hl Hnd Hfree HQ; unfold requeue; cbn [each].
  - apply twp_ret. split; [done|]. split; [done|]. exists (Q a). split.
    + eapply pool_rep_ext; [..|exact H]; [done| |done|done]. intros b. symmetry. apply upd_id.
    + intros x. rewrite elem_of_nil. tauto.
  - destruct (Hl x) as (Ha & Hr & HK); [by left|]. apply NoDup_cons in Hnd as [Hx Hnd]. apply twp_bind, twp_bind.
    eapply twp_mono; [apply (enqueueTx_ok P Q V K t now x false false); [done|done|by rewrite Ha|done]|]. rewrite Ha.
    intros r t1 (F1 & L1 & [(_ & _ & o & Ho & En)|(b & _ & H1)]); [destruct (Hfree x o); [by left|done|done]|].
    apply twp_ret. eapply twp_mono; [apply (IH (upd a (put x (Q a)) Q) t1)|].
    + eapply pool_rep_ext; [..|exact H1]; [done|done|done|]. intros y. split; [by intros [[? _]|[? _]]|]. intros Hy. left. split; [done|].
      intros [Hy1 Hy2]. by destruct (Hfree x y); [left|..].
    + intros y Hy. destruct (Hl y) as (Hya & ? & ?); [by right|]. unfold pool_sender in *.
      assert (tp_signer t1 = tp_signer t) as -> by (unfold fixed in F1; congruence). done.
    + done.
    + intros y z Hy. rewrite upd_eq, elem_of_put. intros [->|[Hz _]]; [|apply Hfree; [by right|done]].
      intros E. apply Hx. rewrite <- E. by apply nonce_in.
    + intros y. rewrite upd_eq, elem_of_put. intros [->|[Hy _]]; auto.
    + intros _ t' (F2 & L2 & q & H2 & Hq). split; [congruence|]. split; [congruence|]. exists q. split.
      * eapply pool_rep_ext; [..|exact H2]; [done| |done|done]. intros c. unfold upd. by case_decide.
      * intros y. rewrite Hq, upd_eq, elem_of_put, elem_of_cons. split; [tauto|].
        intros [Hy|[->|Hy]]; [|by left; left|by right]. left. right. split; [done|]. intros E. symmetry in E. revert E. apply Hfree; [by left|done].
Qed.

(** ** Removing *)

Definition content (P Q : address → list ptx) (x : ptx) : Prop := ∃ a, x ∈ P a ∨ x ∈ Q a.

(** Everything is filed under its sender, and no nonce is both pending and
    queued. *)
Record filed_ok (P Q : address → list ptx) (t : TxPool) : Prop := FiledOk {
  fo_owner : ∀ a x, x ∈ P a ∨ x ∈ Q a → pool_sender x t = a;
  fo_apart : ∀ a x y, x ∈ P a → y ∈ Q a → Nonce x ≠ Nonce y
}.

Lemma stage_elem s m f a x : stage_rep s m f → x ∈ f a → ∃ l, m !! a = Some l ∧ list_rep l (f a) ∧ strict l = s.
Proof.
  intros H Hx. specialize (H a). destruct (m !! a) as [l|]; [by exists l|]. rewrite H in Hx. by apply not_elem_of_nil in Hx.
Qed.

Lemma stage_sorted s m f a : stage_rep s m f → StronglySorted nonce_lt (f a).
Proof. intros H. destruct (stage_get s m f a H) as [Hl _]. by eapply list_rep_sorted. Qed.
Lemma stage_range s m f a x : stage_rep s m f → x ∈ f a → in_range x.
Proof. intros H Hx. destruct (stage_get s m f a H) as [Hl _]. by eapply lr_range. Qed.

(** What leaves with [tx] of the account [a]. *)
Definition without (a : address) (tx : ptx) (P Q : address → list ptx) (V : address → Z)
    (P' Q' : address → list ptx) (V' : address → Z) : Prop :=
  (tx ∈ P a ∧ (∀ b, P' b = upd a (filter (λ x, Nonce x < Nonce tx) (P a)) P b) ∧
     (∃ q, (∀ b, Q' b = upd a q Q b) ∧ ∀ x, x ∈ q ↔ x ∈ Q a ∨ (x ∈ P a ∧ Nonce tx < Nonce x)) ∧
     ∀ b, V' b = upd a (Z.min (V a) (Nonce tx)) V b) ∨
  (tx ∈ Q a ∧ (∀ b, P' b = P b) ∧ (∀ b, Q' b = upd a (filter (λ x, Nonce x ≠ Nonce tx) (Q a)) Q b) ∧ ∀ b, V' b = V b).

Lemma without_content a tx P Q V P' Q' V' t : without a tx P Q V P' Q' V' → filed_ok P Q t →
  StronglySorted nonce_lt (P a) → StronglySorted nonce_lt (Q a) →
  ∀ x, content P' Q' x ↔ content P Q x ∧ x ≠ tx.
Proof.
  intros H [Ho Ha] HsP HsQ x. unfold content.
  assert (tx ∈ P a ∨ tx ∈ Q a → (x ∈ P a ∨ x ∈ Q a → x ≠ tx → Nonce x ≠ Nonce tx)) as Hne.
  { intros Ht Hx Hn E. destruct Ht as [Ht|Ht], Hx as [Hx|Hx].
    - by apply Hn, (sorted_nonces_inj (P a)).
    - symmetry in E. by apply (Ha a tx x).
    - by apply (Ha a x tx).
    - by apply Hn, (sorted_nonces_inj (Q a)). }
  assert (∀ b, b ≠ a → tx ∈ P a ∨ tx ∈ Q a → (x ∈ P b ∨ x ∈ Q b) → x ≠ tx) as Hother.
  { intros b Hb Ht Hx ->. apply Hb. rewrite <- (Ho b tx Hx). by apply Ho. }
  destruct H as [(Ht & EP & (q & EQ & Hq) & _)|(Ht & EP & EQ & _)]; setoid_rewrite EP; setoid_rewrite EQ; unfold upd; split.
  - intros [b Hx]. case_decide as Eb; [subst b|split; [by exists b|by apply (Hother b); auto]].
    rewrite list_elem_of_filter, Hq in Hx. split; [exists a; tauto|]. intros ->. destruct Hx as [[? _]|[?|[_ ?]]]; [lia| |lia].
    by apply (Ha a tx tx).
  - intros [[b Hx] Hn]. exists b. case_decide as Eb; [subst b|done]. rewrite list_elem_of_filter, Hq.
    pose proof (Hne (or_introl Ht) Hx Hn). destruct Hx as [Hx|Hx]; [|by right; left].
    destruct (Z.lt_trichotomy (Nonce x) (Nonce tx)) as [?|[?|?]]; [by left|done|right; by right].
  - intros [b Hx]. case_decide as Eb; [subst b|split; [by exists b|by apply (Hother b); auto]].
    rewrite list_elem_of_filter in Hx. split; [exists a; tauto|]. intros ->. destruct Hx as [Hx|[? _]]; [|done]. by apply (Ha a tx tx).
  - intros [[b Hx] Hn]. exists b. case_decide as Eb; [subst b|done]. rewrite list_elem_of_filter.
    pose proof (Hne (or_intror Ht) Hx Hn). tauto.
Qed.

Lemma remove_pending_in P Q V K t now tx a : pool_rep P Q V K t → filed_ok P Q t → tx ∈ P a →
  (∀ x, x ∈ Q a → K x) → (∀ x, x ∈ P a → x ≠ tx → K x) →
  twp (remove_pending now tx a) (λ b t', b = true ∧ fixed t' = fixed t ∧ tp_locals t' = tp_locals t ∧
    ∃ P' Q' V', without a tx P Q V P' Q' V' ∧ pool_rep P' Q' V' K t') t.
Proof.
  intros [Hp Hn Hq Hqn Hv Hk Hpr] [Ho Ha] Hin HQ HP. unfold remove_pending. tstep.
  destruct (stage_elem _ _ _ _ _ Hp Hin) as (l & El & Hl & Hst). rewrite El.
  pose proof (list_rep_sorted l _ Hl) as Hs.
  destruct (tl_Remove_rep tx l (P a) Hl) as (inv & l' & E & Hinv & Hl' & Hst').
  rewrite (bool_decide_eq_true_2 _ (nonce_in tx (P a) Hin)), Hst in *. cbn [andb] in Hinv.
  eapply twp_bind_out; [exact E|]. tstep. apply twp_bind.
  eapply twp_mono; [apply (requeue_ok (upd a (filter (λ x, Nonce x < Nonce tx) (P a)) P) V K now a inv Q)|].
  - constructor; cbn; [by apply stage_keep|by apply no_empty_keep|done..].
  - intros x. rewrite Hinv, list_elem_of_filter. intros [Hlt Hx]. split; [apply Ho; by left|].
    split; [by apply (stage_range true (pending t) P a)|]. apply HP; [done|]. intros ->. lia.
  - rewrite Hinv. apply sorted_NoDup. by apply sorted_filter.
  - intros x y. rewrite Hinv, list_elem_of_filter. intros [_ Hx] Hy. by apply (Ha a).
  - done.
  - intros _ t1 (F1 & L1 & q & H1 & Eq). do 2 tstep. split; [done|]. split; [done|]. split; [done|].
    exists (upd a (filter (λ x, Nonce x < Nonce tx) (P a)) P), (upd a q Q), (upd a (Z.min (V a) (Nonce tx)) V). split.
    + left. split; [done|]. split; [done|]. split; [|done]. exists q. split; [done|]. intros x. rewrite Eq, Hinv, list_elem_of_filter. tauto.
    + destruct H1 as [Hp1 Hn1 Hq1 Hqn1 Hv1 Hk1 Hpr1]. constructor; cbn; try done. intros b. rewrite noncer_setIfLower_val. unfold upd.
      by rewrite !Hv1.
Qed.

Lemma remove_pending_out P Q V K t now tx a : pool_rep P Q V K t → Nonce tx ∉ map pNonce (P a) →
  twp (remove_pending now tx a) (λ b t', b = false ∧ fixed t' = fixed t ∧ tp_locals t' = tp_locals t ∧
    pool_rep P Q V K t') t.
Proof.
  intros [Hp Hn Hq Hqn Hv Hk Hpr] Hout. unfold remove_pending. tstep. destruct (pending t !! a) as [l|] eqn:El; [|by tstep].
  pose proof (Hp a) as Hl. rewrite El in Hl. destruct Hl as [Hl Hst].
  destruct (tl_Remove_rep tx l (P a) Hl) as (inv & l' & E & _ & Hl' & Hst').
  rewrite (bool_decide_eq_false_2 _ Hout) in *. eapply twp_bind_out; [exact E|]. do 2 tstep.
  split; [done|]. split; [done|]. split; [done|]. constructor; cbn; try done.
  - eapply stage_rep_ext; [apply (upd_id a)|]. apply stage_insert; [done|done|congruence].
  - intros b l2. destruct (decide (b = a)) as [->|]; [by intros _; eapply Hn|]. rewrite lookup_insert_ne by done. apply Hn.
Qed.

Lemma remove_queued_in P Q V K t tx a : pool_rep P Q V K t → tx ∈ Q a →
  twp (remove_queued tx a) (λ _ t', fixed t' = fixed t ∧ tp_locals t' = tp_locals t ∧
    pool_rep P (upd a (filter (λ x, Nonce x ≠ Nonce tx) (Q a)) Q) V K t') t.
Proof.
  intros [Hp Hn Hq Hqn Hv Hk Hpr] Hin. unfold remove_queued. tstep.
  destruct (stage_elem _ _ _ _ _ Hq Hin) as (l & El & Hl & Hst). rewrite El.
  destruct (tl_Remove_rep tx l (Q a) Hl) as (inv & l' & E & _ & Hl' & Hst').
  rewrite (bool_decide_eq_true_2 _ (nonce_in tx (Q a) Hin)), Hst in *. eapply twp_bind_out; [exact E|]. tstep.
  assert (∀ b, pool_rep P (upd a (filter (λ x, Nonce x ≠ Nonce tx) (Q a)) Q) V K
    (set_beats b (set_queue (keep_list a l' (queue t)) t))) as H.
  { intros b. constructor; try done; [by apply stage_keep|by apply no_empty_keep]. }
  destruct (tl_Empty l'); tstep; (split; [done|]; split; [done|]); [apply H|].
  exact (H (beats t)).
Qed.

Lemma removeTx_ok P Q V t now h oob tx :
  pool_rep P Q V (content P Q) t → filed_ok P Q t → lk_Get h (all t) = Some tx →
  twp (removeTx now h oob) (λ _ t', fixed t' = fixed t ∧ tp_locals t' = tp_locals t ∧
    ∃ P' Q' V', without (pool_sender tx t) tx P Q V P' Q' V' ∧ pool_rep P' Q' V' (content P' Q') t') t.
Proof.
  intros H Hf Hg. pose proof Hf as [Ho Ha]. pose proof H as [Hp Hn Hq Hqn Hv Hk Hpr]. unfold removeTx. tstep. rewrite Hg. do 2 tstep.
  apply (lo_known _ _ Hk) in Hg as [-> [a Hin]]. pose proof (Ho a tx Hin) as Es. rewrite Es.
  assert (lookup_ok (λ x, content P Q x ∧ x ≠ tx) (lk_Remove (tx_Hash tx) (all t))) as Hk1.
  { eapply lookup_ok_ext; [|by apply lk_Remove_ok]. intros x. cbn. pose proof (forgotten _ _ [tx] Hk) as Hfo.
    setoid_rewrite list_elem_of_singleton in Hfo. specialize (Hfo ltac:(by intros y ->; exists a) x). naive_solver. }
  assert (priced_ok D (lk_Remove (tx_Hash tx) (all t)) (priced t)) as Hp1
    by (eapply priced_ok_sub; [exact Hpr|intros h x; apply lk_Remove_remotes]).
  apply twp_bind. apply (twp_mono _ (λ _ t1, ∃ l, t1 = set_known (lk_Remove (tx_Hash tx) (all t)) l t ∧
    priced_ok D (lk_Remove (tx_Hash tx) (all t)) l)).
  { destruct oob; [apply price_removed_ok; [done|]; eauto|]. tstep. eauto. }
  intros _ t1 (l1 & Et1 & Hl1).
  assert (pool_rep P Q V (λ x, content P Q x ∧ x ≠ tx) t1) as H1 by (subst t1; constructor; done).
  assert (filed_ok P Q t1) as Hf1 by (subst t1; constructor; done).
  assert (fixed t1 = fixed t ∧ tp_locals t1 = tp_locals t) as [Ft Lt] by (by subst t1).
  apply twp_bind. destruct Hin as [Hin|Hin].
  - eapply twp_mono; [apply (remove_pending_in P Q V _ t1 now tx a H1 Hf1 Hin)|].
    + intros x Hx. split; [exists a; by right|]. intros ->. by apply (Ha a tx tx).
    + intros x Hx Hne. split; [exists a; by left|done].
    + intros b t' (-> & F & L & P' & Q' & V' & Hw & Hr). tstep. split; [congruence|]. split; [congruence|]. exists P', Q', V'. split; [done|].
      eapply pool_rep_ext; [..|exact Hr]; [done..|]. intros x. symmetry.
      apply (without_content a tx P Q V P' Q' V' t Hw Hf); by eapply stage_sorted.
  - eapply twp_mono; [apply (remove_pending_out P Q V _ t1 now tx a H1)|].
    + intros (y & E & Hy)%list_elem_of_fmap. by apply (Ha a y tx).
    + intros b t2 (-> & F2 & L2 & H2). eapply twp_mono; [by apply (remove_queued_in P Q V _ t2 tx a H2)|].
      intros _ t' (F & L & Hr). split; [congruence|]. split; [congruence|].
      eexists P, (upd a _ Q), V. assert (without a tx P Q V P (upd a (filter (λ x, Nonce x ≠ Nonce tx) (Q a)) Q) V) as Hw by (right; done).
      split; [exact Hw|]. eapply pool_rep_ext; [..|exact Hr]; [done..|]. intros x. symmetry.
      apply (without_content _ _ _ _ _ _ _ _ t Hw Hf); by eapply stage_sorted.
Qed.
End Rep.
