(* ===== verification/TxPoolSpec.v ===== *)
(** * What the transaction pool promises

    [pool_ok]: every transaction the lookup knows is in exactly one stage of its
    sender's account, the lookup counts its slots, and the price heaps track the
    remote ones.  [aligned]: the pending transactions of an account are those with
    the nonces from the nonce of the account in the state up to its virtual nonce,
    so that they can be executed in order, and nothing that is queued comes before
    (the nonce [2^64 - 1] has no successor and is left out).
    Every operation keeps the first, and those between two resets the second. *)
From stdpp Require Import sorting.
From S2P Require Import Prelude Common RlpEncode StateObject StateDB TeWakaVm Consensus StateTransition.
From S2P Require Import Transaction TxSigning Heap TxList TxListSpec TxOrder TxPriced TxPricedSpec TxPool TxPoolLogic.
Import Crypto.

Section Spec.
Context {B : Backend} {R : Recover} {MO : MapOrder}.
Implicit Types tx x y o : ptx.

(** ** Alignment *)

(** [p] pending, [q] queued, [v] the virtual nonce, [N] the nonce in the state. *)
Record aligned (N : Z) (p q : list ptx) (v : Z) : Prop := Aligned {
  al_pending : map pNonce p = seqZ N (zlen p);
  al_virtual : v = N + zlen p;
  al_queued : ∀ x, x ∈ q → v ≤ Nonce x;
  al_small : ∀ x, x ∈ p ∨ x ∈ q → Nonce x < 2 ^ 64 - 1
}.

Lemma seqZ_nonces N p i x : map pNonce p = seqZ N (zlen p) → p !! i = Some x → Nonce x = N + Z.of_nat i.
Proof.
  intros E Hi. assert (map pNonce p !! i = Some (Nonce x)) as H by (rewrite list_lookup_fmap, Hi; done).
  rewrite E in H. apply lookup_seqZ in H. lia.
Qed.

Lemma seqZ_range N p x : map pNonce p = seqZ N (zlen p) → x ∈ p → N ≤ Nonce x < N + zlen p.
Proof.
  intros E [i Hi]%list_elem_of_lookup. pose proof (lookup_lt_Some _ _ _ Hi). rewrite (seqZ_nonces N p i x E Hi). unfold zlen. lia.
Qed.

Lemma seqZ_take N p k : map pNonce p = seqZ N (zlen p) → map pNonce (take k p) = seqZ N (zlen (take k p)).
Proof.
  intros E. unfold zlen. rewrite length_take.
  assert (map pNonce (take k p) = take k (map pNonce p)) as -> by apply fmap_take. rewrite E. apply list_eq. intros i.
  apply option_eq. intros m. rewrite lookup_take_Some, !lookup_seqZ. unfold zlen. lia.
Qed.

(** Cutting a consecutive list at a nonce. *)
Lemma seqZ_filter N p m : map pNonce p = seqZ N (zlen p) → N ≤ m ≤ N + zlen p →
  filter (λ x, Nonce x < m) p = take (Z.to_nat (m - N)) p.
Proof.
  intros E Hm. rewrite <- (take_drop (Z.to_nat (m - N)) p) at 1. rewrite filter_app, filter_all, filter_none, app_nil_r; [done|..].
  - intros x [i Hi]%list_elem_of_lookup. rewrite lookup_drop in Hi. pose proof (seqZ_nonces N p _ x E Hi). lia.
  - intros x (i & Hi & Hlt)%elem_of_take. pose proof (seqZ_nonces N p _ x E Hi). lia.
Qed.

(** An account that loses a pending transaction and all behind it. *)
Lemma aligned_cut N p q v m q' : aligned N p q v → N ≤ m < N + zlen p →
  (∀ x, x ∈ q' → x ∈ q ∨ (x ∈ p ∧ m < Nonce x)) →
  aligned N (filter (λ x, Nonce x < m) p) q' (Z.min v m).
Proof.
  intros [Hp Hv Hq Hsm] Hm Hsub. rewrite (seqZ_filter N p m Hp) by lia. pose proof (seqZ_take N p (Z.to_nat (m - N)) Hp) as Ht.
  assert (zlen (take (Z.to_nat (m - N)) p) = m - N) as El by (unfold zlen in *; rewrite length_take; lia).
  constructor; [done|lia|..].
  - intros x [Hx|[_ Hx]]%Hsub; [|lia]. specialize (Hq x Hx). lia.
  - intros x [(i & Hi & _)%elem_of_take|[Hx|[Hx _]]%Hsub]; apply Hsm; [left; by eapply list_elem_of_lookup_2|by right|by left].
Qed.

(** ** The invariant and the steps that keep it *)

(** Sizes that fit an [int], and at least one slot for an account; [sanitize]
    takes care of the latter. *)
Record config_ok (c : TxPoolConfig) : Prop := ConfigOk {
  co_slots : 0 ≤ GlobalSlots c;
  co_queue : 0 ≤ GlobalQueue c;
  co_limit : GlobalSlots c + GlobalQueue c < 2 ^ 63;
  co_account : 1 ≤ AccountSlots c;
  co_account_queue : 0 ≤ AccountQueue c < 2 ^ 63
}.

(** [D] is empty but for the moment when transactions that the prices dropped are
    removed from the rest of the pool. *)
Record pool_ok (D : list ptx) (P Q : address → list ptx) (V : address → Z) (t : TxPool) : Prop := PoolOk {
  ok_rep : pool_rep D P Q V (content P Q) t;
  ok_filed : filed_ok P Q t;
  ok_signer : tp_signer t = LatestSigner (pc_ChainID (tp_chainconfig t));
  ok_config : config_ok (tp_config t)
}.

Definition head_nonce (t : TxPool) (a : address) : Z := hs_Nonce (currentState t) a.

Definition keeps (t : TxPool) (P Q : address → list ptx) (V : address → Z) (P' Q' : address → list ptx) (V' : address → Z) : Prop :=
  ∀ a, aligned (head_nonce t a) (P a) (Q a) (V a) → aligned (head_nonce t a) (P' a) (Q' a) (V' a).

Lemma keeps_self t P Q V : keeps t P Q V P Q V.
Proof. by intros a H. Qed.
#[local] Hint Resolve keeps_self : core.
Lemma keeps_step t t1 P Q V P1 Q1 V1 P2 Q2 V2 : (∀ a, head_nonce t1 a = head_nonce t a) →
  keeps t P Q V P1 Q1 V1 → keeps t1 P1 Q1 V1 P2 Q2 V2 → keeps t P Q V P2 Q2 V2.
Proof. intros E K1 K2 a H. specialize (K1 a H). rewrite <- E in *. by apply K2. Qed.

(** A step that goes through and keeps the invariant; with [al], alignment too. *)
Definition good (al : bool) {A} (m : St TxPool A) : Prop := ∀ P Q V t, pool_ok [] P Q V t →
  twp m (λ _ t', ∃ P' Q' V', pool_ok [] P' Q' V' t' ∧ fixed t' = fixed t ∧ (al = true → keeps t P Q V P' Q' V')) t.

Lemma fixed_signer t t' : fixed t' = fixed t → tp_signer t' = tp_signer t.
Proof. unfold fixed. congruence. Qed.
Lemma fixed_head t t' a : fixed t' = fixed t → head_nonce t' a = head_nonce t a.
Proof. unfold fixed, head_nonce. congruence. Qed.

Lemma pool_ok_fixed D P Q V D' P' Q' V' t t' : pool_ok D P Q V t → fixed t' = fixed t →
  pool_rep D' P' Q' V' (content P' Q') t' → filed_ok P' Q' t' → pool_ok D' P' Q' V' t'.
Proof.
  intros [_ _ Hs Hc] F Hr Hf. constructor; [done|done|..]; unfold fixed in F; congruence.
Qed.

Lemma good_still al {A} (m : St TxPool A) P Q V t : pool_ok [] P Q V t →
  (∃ r t', m t = XRet (r, t') ∧ pool_ok [] P Q V t' ∧ fixed t' = fixed t) →
  twp m (λ _ t', ∃ P' Q' V', pool_ok [] P' Q' V' t' ∧ fixed t' = fixed t ∧ (al = true → keeps t P Q V P' Q' V')) t.
Proof. intros H (r & t' & E & H' & F). exists r, t'. split; [done|]. exists P, Q, V. split; [done|]. split; [done|]. intros _. apply keeps_self. Qed.

Lemma good_ret al {A} (a : A) : good al (sret a).
Proof. intros P Q V t H. apply good_still; [done|]. by exists a, t. Qed.
Lemma good_sread al {A} (f : TxPool → A) : good al (sread f).
Proof. intros P Q V t H. apply good_still; [done|]. by exists (f t), t. Qed.
Lemma good_bind al {A C} (m : St TxPool A) (f : A → St TxPool C) : good al m → (∀ a, good al (f a)) → good al (sbind m f).
Proof.
  intros Hm Hf P Q V t H. apply twp_bind. eapply twp_mono; [by apply Hm|]. intros a t1 (P1 & Q1 & V1 & H1 & F1 & K1).
  eapply twp_mono; [by apply Hf|]. intros c t2 (P2 & Q2 & V2 & H2 & F2 & K2). exists P2, Q2, V2. split; [done|].
  split; [congruence|]. intros Ha b Hb. specialize (K1 Ha b Hb). rewrite <- (fixed_head t t1 b F1) in *. by apply K2.
Qed.
Lemma good_each al {A} (f : A → St TxPool ()) l : (∀ x : A, good al (f x)) → good al (each f l).
Proof. intros Hf. induction l as [|x l IH]; cbn [each]; [apply good_ret|]. apply good_bind; auto. Qed.
Lemma good_if al {A} (b : bool) (m m' : St TxPool A) : good al m → good al m' → good al (if b then m else m').
Proof. by destruct b. Qed.

(** ** Removing a transaction *)

Lemma filed_without a tx P Q V P' Q' V' t t' : filed_ok P Q t → tp_signer t' = tp_signer t →
  without a tx P Q V P' Q' V' → StronglySorted nonce_lt (P a) → filed_ok P' Q' t'.
Proof.
  intros [Ho Ha] Es Hw Hs.
  assert (∀ b x, x ∈ P' b ∨ x ∈ Q' b → x ∈ P b ∨ x ∈ Q b) as Hsub.
  { intros b x. destruct Hw as [(Ht & EP & (q & EQ & Hq) & _)|(Ht & EP & EQ & _)]; rewrite EP, EQ; unfold upd;
      (case_decide as E; [subst b|done]); rewrite list_elem_of_filter, ?Hq; tauto. }
  constructor.
  - intros b x Hx. unfold pool_sender. rewrite Es. by apply Ho, Hsub.
  - intros b x y. destruct Hw as [(Ht & EP & (q & EQ & Hq) & _)|(Ht & EP & EQ & _)]; rewrite EP, EQ; unfold upd;
      (case_decide as E; [subst b|by apply Ha]); rewrite list_elem_of_filter.
    + rewrite Hq. intros [Hlt Hx] [Hy|[Hy Hgt]]; [by apply (Ha a)|lia].
    + intros Hx [_ Hy]. by apply (Ha a).
Qed.

Lemma keeps_without a tx P Q V P' Q' V' t : without a tx P Q V P' Q' V' → keeps t P Q V P' Q' V'.
Proof.
  intros Hw b Hb. destruct Hw as [(Ht & EP & (q & EQ & Hq) & EV)|(Ht & EP & EQ & EV)]; rewrite EP, EQ, EV; unfold upd;
    (case_decide as E; [subst b|done]).
  - pose proof (seqZ_range _ _ tx (al_pending _ _ _ _ Hb) Ht). apply (aligned_cut _ _ (Q a)); [done|lia|]. intros x. by rewrite Hq.
  - destruct Hb as [Hp Hv Hqq Hsm]. constructor; [done|done|..].
    + intros x [_ Hx]%list_elem_of_filter. by apply Hqq.
    + intros x [Hx|[_ Hx]%list_elem_of_filter]; auto.
Qed.

(** What a removal leaves: only the account of the transaction changes. *)
Lemma removeTx_step D P Q V t now h oob : pool_ok D P Q V t →
  twp (removeTx now h oob) (λ _ t', ∃ P' Q' V', pool_ok D P' Q' V' t' ∧ fixed t' = fixed t ∧ tp_locals t' = tp_locals t ∧
    keeps t P Q V P' Q' V' ∧ (∀ x, content P' Q' x → content P Q x ∧ tx_Hash x ≠ h) ∧
    ∀ b, (∀ x, content P Q x → tx_Hash x = h → pool_sender x t ≠ b) → P' b = P b ∧ Q' b = Q b ∧ V' b = V b) t.
Proof.
  intros H. pose proof H as [Hr Hf _ _]. pose proof (pp_known _ _ _ _ _ _ Hr) as Hk. destruct (lk_Get h (all t)) as [tx|] eqn:Eg.
  - eapply twp_mono; [by apply (removeTx_ok D P Q V t now h oob tx Hr Hf Eg)|].
    intros _ t' (F & L & P' & Q' & V' & Hw & Hr'). apply (lo_known _ _ Hk) in Eg as [-> Hc].
    assert (StronglySorted nonce_lt (P (pool_sender tx t))) as HsP by (eapply stage_sorted, Hr).
    assert (StronglySorted nonce_lt (Q (pool_sender tx t))) as HsQ by (eapply stage_sorted, Hr).
    pose proof (without_content _ _ _ _ _ _ _ _ t Hw Hf HsP HsQ) as Hcon.
    exists P', Q', V'. split_and!; try done.
    + apply (pool_ok_fixed D P Q V D P' Q' V' t t' H F Hr').
      exact (filed_without (pool_sender tx t) tx P Q V P' Q' V' t t' Hf (fixed_signer _ _ F) Hw HsP).
    + by eapply keeps_without.
    + intros x Hx%Hcon. split; [tauto|]. intros E. destruct Hx as [Hx Hn]. by apply Hn, (known_inj _ _ _ _ Hk).
    + intros b Hb. specialize (Hb tx Hc eq_refl). destruct Hw as [(_ & EP & (q & EQ & _) & EV)|(_ & EP & EQ & EV)];
        rewrite EP, EQ, EV; unfold upd; by rewrite ?decide_False by congruence.
  - unfold removeTx. tstep. rewrite Eg. tstep. exists P, Q, V.
    split_and!; try done. intros x Hx. split; [done|]. intros <-.
    assert (lk_Get (tx_Hash x) (all t) = Some x) by (by apply (lo_known _ _ Hk)). congruence.
Qed.

Lemma good_removeTx al now h oob : good al (removeTx now h oob).
Proof.
  intros P Q V t H. eapply twp_mono; [by apply (removeTx_step [] P Q V t now h oob H)|].
  intros _ t' (P' & Q' & V' & H' & F & _ & K & _). exists P', Q', V'. auto.
Qed.

(** Removals of a list of hashes. *)
Lemma remove_list_step D now oob (L : list ptx) : ∀ P Q V t, pool_ok D P Q V t →
  twp (each (λ x : ptx, removeTx now (tx_Hash x) oob) L) (λ _ t', ∃ P' Q' V', pool_ok D P' Q' V' t' ∧
    fixed t' = fixed t ∧ tp_locals t' = tp_locals t ∧ keeps t P Q V P' Q' V' ∧
    (∀ x, content P' Q' x → content P Q x ∧ ∀ y, y ∈ L → tx_Hash x ≠ tx_Hash y) ∧
    ∀ b, (∀ x y, content P Q x → y ∈ L → tx_Hash x = tx_Hash y → pool_sender x t ≠ b) → P' b = P b ∧ Q' b = Q b ∧ V' b = V b) t.
Proof.
  induction L as [|y L IH]; intros P Q V t H; cbn [each].
  { apply twp_ret. exists P, Q, V. split_and!; try done. intros x Hx. split; [done|]. by intros y ?%not_elem_of_nil. }
  apply twp_bind. eapply twp_mono; [by apply (removeTx_step D P Q V t now (tx_Hash y) oob H)|].
  intros _ t1 (P1 & Q1 & V1 & H1 & F1 & L1 & K1 & C1 & O1).
  eapply twp_mono; [by apply (IH P1 Q1 V1 t1 H1)|].
  intros _ t' (P' & Q' & V' & H' & F' & L' & K' & C' & O'). exists P', Q', V'. split_and!; [done|congruence|congruence|..].
  - eapply keeps_step; [|done|done]. intros a. by apply fixed_head.
  - intros x [Hx Hn]%C'. apply C1 in Hx as [Hx Hne]. split; [done|]. intros z [->|Hz]%elem_of_cons; auto.
  - intros b Hb. destruct (O1 b) as (E1 & E2 & E3). { intros x Hx E. apply (Hb x y); [done|by left|done]. }
    destruct (O' b) as (E1' & E2' & E3'); [|split_and!; congruence].
    intros x z [Hx _]%C1 Hz E. unfold pool_sender. rewrite (fixed_signer _ _ F1). apply (Hb x z); [done|by right|done].
Qed.

(** ** Adding a transaction *)

Lemma put_same tx l : StronglySorted nonce_lt l → Nonce tx ∈ map pNonce l → map pNonce (put tx l) = map pNonce l.
Proof.
  intros Hs Hin. assert (∀ k, StronglySorted nonce_lt k → StronglySorted Z.le (map pNonce k)) as Hmap.
  { induction 1 as [|x k Hk IH Hx]; cbn; constructor; [done|]. rewrite Forall_map. eapply Forall_impl; [exact Hx|]. unfold nonce_lt. cbn. lia. }
  apply (StronglySorted_unique Z.le); [by apply Hmap, put_sorted|by apply Hmap|].
  rewrite (put_nonces tx l Hs). by rewrite decide_True.
Qed.

Lemma content_put_pending P Q a tx t : filed_ok P Q t → ∀ x,
  content (upd a (put tx (P a)) P) Q x ↔ (content P Q x ∧ ¬ same_slot (P a) tx x) ∨ x = tx.
Proof.
  intros [Ho Ha] x. unfold content, same_slot. split.
  - intros [b Hx]. destruct (decide (b = a)) as [->|Hne].
    + rewrite upd_eq, elem_of_put in Hx. destruct Hx as [[->|[Hx Hn]]|Hx]; [by right|left|left].
      * split; [exists a; by left|]. tauto.
      * split; [exists a; by right|]. intros [Hx' _]. by apply (Ha a x x).
    + rewrite upd_ne in Hx by done. left. split; [by exists b|]. intros [Hx' _]. apply Hne.
      rewrite <- (Ho b x Hx). apply Ho. by left.
  - intros [[[b Hx] Hn]| ->]; [|exists a; left; rewrite upd_eq, elem_of_put; by left]. exists b.
    destruct (decide (b = a)) as [->|Hne]; [|by rewrite upd_ne]. rewrite upd_eq, elem_of_put.
    destruct Hx as [Hx|Hx]; [left; right; tauto|by right].
Qed.

Lemma content_put_queued P Q a tx t : filed_ok P Q t → ∀ x,
  content P (upd a (put tx (Q a)) Q) x ↔ (content P Q x ∧ ¬ same_slot (Q a) tx x) ∨ x = tx.
Proof.
  intros [Ho Ha] x. unfold content, same_slot. split.
  - intros [b Hx]. destruct (decide (b = a)) as [->|Hne].
    + rewrite upd_eq, elem_of_put in Hx. destruct Hx as [Hx|[->|[Hx Hn]]]; [left|by right|left].
      * split; [exists a; by left|]. intros [Hx' _]. by apply (Ha a x x).
      * split; [exists a; by right|]. tauto.
    + rewrite upd_ne in Hx by done. left. split; [by exists b|]. intros [Hx' _]. apply Hne.
      rewrite <- (Ho b x Hx). apply Ho. by right.
  - intros [[[b Hx] Hn]| ->]; [|exists a; right; rewrite upd_eq, elem_of_put; by left]. exists b.
    destruct (decide (b = a)) as [->|Hne]; [|by rewrite upd_ne]. rewrite upd_eq, elem_of_put.
    destruct Hx as [Hx|Hx]; [by left|right; right; tauto].
Qed.

(** Steps on the prices alone. *)
Lemma pool_ok_priced D D' P Q V t l : pool_ok D P Q V t → priced_ok D' (all t) l → pool_ok D' P Q V (set_priced l t).
Proof. intros [[] [] Hs Hc] Hl. constructor; [constructor; done|constructor; done|done|done]. Qed.

(** When the dropped transactions are gone, the rest is tracked. *)
Lemma pool_ok_dropped D P Q V t : pool_ok D P Q V t → (∀ x, content P Q x → x ∉ D) → pool_ok [] P Q V t.
Proof.
  intros [[Hp Hn Hq Hqn Hv Hk [Hu Hf Ht]] Hfi Hs Hc] Hd. constructor; [|done|done|done]. constructor; try done.
  constructor; [done|done|]. intros h x Hx. left. destruct (Ht h x Hx) as [|Hin]; [done|]. exfalso. apply (Hd x); [|done].
  assert (lk_Get h (all t) = Some x) as Hg by (unfold lk_Get; destruct (lo_disj _ _ Hk h) as [->|?]; congruence).
  by apply (lo_known _ _ Hk) in Hg as [_ ?].
Qed.

(** The outcome of a step that may drop transactions: the invariant again, with
    nothing new. *)
Definition shrunk (P Q : address → list ptx) (V : address → Z) (t t' : TxPool) : Prop :=
  ∃ P' Q' V', pool_ok [] P' Q' V' t' ∧ fixed t' = fixed t ∧ tp_locals t' = tp_locals t ∧
    keeps t P Q V P' Q' V' ∧ ∀ x, content P' Q' x → content P Q x.

Lemma shrunk_priced P Q V t l : pool_ok [] P Q V t → priced_ok [] (all t) l → shrunk P Q V t (set_priced l t).
Proof. intros H Hl. exists P, Q, V. split_and!; try done. by eapply pool_ok_priced. Qed.

Lemma make_room_ok P Q V t now tx isLocal : pool_ok [] P Q V t →
  twp (make_room now tx isLocal) (λ _, shrunk P Q V t) t.
Proof.
  intros H. pose proof H as [Hr _ _ Hc]. pose proof (lookup_ok_keyed _ _ (pp_known _ _ _ _ _ _ Hr)) as Hkey.
  pose proof (pp_priced _ _ _ _ _ _ Hr) as Hp. unfold make_room. do 2 tstep. set (limit := u64 _).
  destruct (Z.ltb_spec limit (Slots (all t) + numSlots tx)) as [Hlt|]; cbn [negb].
  2: { tstep. exists P, Q, V. split_and!; try done. }
  assert (i64 limit = limit) as Ei.
  { subst limit. destruct Hc. go_lia. }
  apply twp_bind. apply (twp_mono _ (λ _ t1, ∃ l, t1 = set_priced l t ∧ priced_ok [] (all t) l)).
  { destruct isLocal; [tstep; exists (priced t); by destruct t|].
    destruct (Underpriced_ok (all t) tx (priced t) Hkey Hp) as (b & l & E & Hl & _).
    apply twp_bind. exists (b, l), t. split; [by rewrite E|]. do 2 tstep. by exists l. }
  intros refused t1 (l1 & -> & Hl1). destruct refused.
  { tstep. by apply shrunk_priced. }
  apply twp_bind. rewrite Ei.
  destruct (Discard_ok (all t) (Slots (all t) - limit + numSlots tx) isLocal l1 Hkey Hl1) as (drop & ok & l2 & E & _ & Htr & _ & _ & Hno); [lia|].
  exists (drop, ok, l2), (set_priced l1 t). split. { cbn [all set_priced set_known priced]. by rewrite E. }
  tstep. destruct (negb isLocal && negb ok) eqn:Eok.
  { tstep. apply andb_true_iff in Eok as [_ Eok%negb_true_iff]. destruct (Hno Eok) as [-> _].
    change (set_priced l2 (set_priced l1 t)) with (set_priced l2 t). by apply shrunk_priced. }
  apply twp_bind. change (set_priced l2 (set_priced l1 t)) with (set_priced l2 t).
  eapply twp_mono; [apply (remove_list_step drop now false drop P Q V); by eapply pool_ok_priced|].
  intros _ t' (P' & Q' & V' & H' & F & L & K & C & _). tstep. exists P', Q', V'. split_and!; try done.
  - apply (pool_ok_dropped drop); [done|]. intros x [_ Hx]%C Hin. by apply (Hx x).
  - intros x Hx. by apply C.
Qed.

(** A transaction that passed the checks. *)
Lemma validate_ok tx local t : validate tx local t = Ok tt →
  signer_Sender (tp_signer t) tx = Ok (pool_sender tx t) ∧ head_nonce t (pool_sender tx t) ≤ Nonce tx.
Proof.
  unfold validate, pool_sender, sender_of, head_nonce. repeat (case_match; try done); intros _; (split; [done|lia]).
Qed.

Lemma refresh_ok P Q V t : pool_ok [] P Q V t → twp refresh_signer (λ _ t', t' = t) t.
Proof.
  intros [_ _ Hs _]. unfold refresh_signer. tstep. destruct (tp_cip4 t); [|done]. rewrite <- Hs. by destruct t.
Qed.

Lemma aligned_add N p q v tx : aligned N p q v → N ≤ Nonce tx < 2 ^ 64 - 1 → Nonce tx ∉ map pNonce p →
  aligned N p (put tx q) v.
Proof.
  intros [Hp Hv Hq Hsm] HN Hout. constructor; [done|done|..].
  2: { intros x [Hx|[->|[Hx _]]%elem_of_put]; [apply Hsm; by left|lia|apply Hsm; by right]. }
  intros x [->|[Hx _]]%elem_of_put; [|by apply Hq]. destruct (Z.le_gt_cases v (Nonce tx)); [done|]. exfalso. apply Hout. rewrite Hp. apply elem_of_seqZ. lia.
Qed.

Lemma keeps_upd_queue t P Q V a q :
  (aligned (head_nonce t a) (P a) (Q a) (V a) → aligned (head_nonce t a) (P a) q (V a)) → keeps t P Q V P (upd a q Q) V.
Proof. intros H b Hb. unfold upd. case_decide as E; [subst b|done]. by apply H. Qed.

Lemma filed_put_queued P Q a tx t t' : filed_ok P Q t → tp_signer t' = tp_signer t → pool_sender tx t = a →
  Nonce tx ∉ map pNonce (P a) → filed_ok P (upd a (put tx (Q a)) Q) t'.
Proof.
  intros [Ho Ha] Es Ea Hout. constructor.
  - intros b x. unfold pool_sender. rewrite Es. destruct (decide (b = a)) as [->|]; [|rewrite upd_ne by done; apply Ho].
    rewrite upd_eq, elem_of_put. intros [Hx|[->|[Hx _]]]; [apply Ho; by left|done|apply Ho; by right].
  - intros b x y. destruct (decide (b = a)) as [->|]; [|rewrite upd_ne by done; apply Ha].
    rewrite upd_eq, elem_of_put. intros Hx [->|[Hy _]]; [|by apply (Ha a)]. intros E. apply Hout. rewrite <- E. by apply nonce_in.
Qed.

Lemma filed_put_pending P Q a tx t t' : filed_ok P Q t → tp_signer t' = tp_signer t → pool_sender tx t = a →
  (∀ y, y ∈ Q a → Nonce y ≠ Nonce tx) → filed_ok (upd a (put tx (P a)) P) Q t'.
Proof.
  intros [Ho Ha] Es Ea Hout. constructor.
  - intros b x. unfold pool_sender. rewrite Es. destruct (decide (b = a)) as [->|]; [|rewrite upd_ne by done; apply Ho].
    rewrite upd_eq, elem_of_put. intros [[->|[Hx _]]|Hx]; [done|apply Ho; by left|apply Ho; by right].
  - intros b x y. destruct (decide (b = a)) as [->|]; [|rewrite upd_ne by done; apply Ha].
    rewrite upd_eq, elem_of_put. intros [->|[Hx _]] Hy; [|by apply (Ha a)]. intros E. by apply (Hout y Hy).
Qed.

Lemma aligned_replace N p q v tx : StronglySorted nonce_lt p → Nonce tx ∈ map pNonce p →
  aligned N p q v → aligned N (put tx p) q v.
Proof.
  intros Hs Hin [Hp Hv Hq Hsm]. pose proof (put_same tx p Hs Hin) as E.
  assert (zlen (put tx p) = zlen p) as El by (unfold zlen; rewrite <- (length_map pNonce p), <- E, length_map; done).
  constructor; [by rewrite E, El|by rewrite El|done|]. intros x [[->|[Hx _]]%elem_of_put|Hx]; [|by auto|by auto].
  apply list_elem_of_fmap in Hin as (z & -> & Hz). apply Hsm. by left.
Qed.

Lemma Overlaps_rep tx l k : list_rep l k → Overlaps tx l = bool_decide (Nonce tx ∈ map pNonce k).
Proof.
  intros [[[Hs Hi _ _] _] _ _]. unfold Overlaps, Get. destruct (items (txs l) !! Nonce tx) as [y|] eqn:E.
  - apply Hi in E as [Hy <-]. symmetry. apply bool_decide_eq_true. by apply nonce_in.
  - symmetry. apply bool_decide_eq_false. intros (y & E' & Hy)%list_elem_of_fmap.
    by apply (proj1 (holds_None _ _ _ Hi) E y Hy).
Qed.

(** Either no pending transaction has the nonce, or it is replaced (or not) in
    place. *)
Lemma replace_pending_ok P Q V t now tx isLocal : let a := pool_sender tx t in
  pool_ok [] P Q V t → in_range tx → lk_Get (tx_Hash tx) (all t) = None →
  twp (replace_pending now tx isLocal) (λ r t',
    (r = None ∧ t' = t ∧ Nonce tx ∉ map pNonce (P a)) ∨
    (r ≠ None ∧ ∃ P', pool_ok [] P' Q V t' ∧ fixed t' = fixed t ∧ keeps t P Q V P' Q V)) t.
Proof.
  intros a H Hr Hnew. pose proof H as [[Hp Hn Hq Hqn Hv Hk Hpr] Hf Hs Hc]. unfold replace_pending. do 2 tstep. fold a.
  destruct (pending t !! a) as [l|] eqn:El.
  2: { tstep. left. split_and!; try done. specialize (Hp a). rewrite El in Hp. rewrite Hp. apply not_elem_of_nil. }
  pose proof (Hp a) as Hl. rewrite El in Hl. destruct Hl as [Hl Hst]. rewrite (Overlaps_rep tx l (P a) Hl).
  case_bool_decide as Hin; [|tstep; left; done]. tstep.
  destruct (Add_cases tx (PriceBump (tp_config t)) l (P a) Hl Hr) as [(-> & _)|(old & l' & -> & Hl' & Hst' & Hold)]; cbn [negb].
  { tstep. right. split; [done|]. exists P. split_and!; try done. }
  tstep. apply twp_bind. apply (drop_replaced_ok [] (content P Q)); [done|done|intros y Hy; exists a; left; by apply Hold|].
  intros al l1 Ha1 Hp1. do 4 tstep. right. split; [done|]. exists (upd a (put tx (P a)) P). split_and!; [|done|].
  - eapply pool_ok_fixed; [exact H|done| |].
    + constructor; cbn.
      * apply stage_insert; [done|done|congruence].
      * apply no_empty_insert; [done|apply put_ne].
      * done.
      * done.
      * done.
      * eapply lookup_ok_ext; [|apply lk_Add_ok; [exact Ha1|]].
        { intros x. rewrite (content_put_pending P Q a tx t Hf). unfold same_slot. by rewrite <- Hold. }
        destruct (lk_Get (tx_Hash tx) al) as [y|] eqn:Ey; [|done]. apply (lo_known _ _ Ha1) in Ey as [Eh [Hy _]].
        assert (lk_Get (tx_Hash y) (all t) = Some y) by (by apply (lo_known _ _ Hk)). congruence.
      * by apply (Put_ok []).
    + eapply filed_put_pending; [exact Hf|done|done|]. intros y Hy E. apply list_elem_of_fmap in Hin as (z & Ez & Hz).
      apply (fo_apart _ _ _ Hf a z y Hz Hy). congruence.
  - intros b Hb. unfold upd. case_decide as E; [subst b|done]. apply aligned_replace; [by eapply stage_sorted|done|done].
Qed.

Lemma mark_local_ok tx local P Q V t : pool_ok [] P Q V t →
  twp (mark_local tx local) (λ _ t', pool_ok [] P Q V t' ∧ fixed t' = fixed t) t.
Proof.
  intros H. pose proof H as [[Hp Hn Hq Hqn Hv Hk Hpr] Hf Hs Hc]. unfold mark_local. do 2 tstep.
  destruct (local && _); [|by tstep]. do 2 tstep.
  destruct (RemoteToLocals_ok (as_add (pool_sender tx t) (tp_locals t)) (content P Q) (all t) Hk) as [Hk' Hsub].
  cbn [tp_locals set_locals all]. destruct (RemoteToLocals _ _) as [n al]. cbn [snd] in *. tstep.
  apply (price_removed_ok []). { by eapply priced_ok_sub. }
  intros l Hl. split; [|done]. destruct Hf. constructor; [constructor; done|constructor; done|done|done].
Qed.

Lemma good_add al now tx local : in_range tx → (al = true → Nonce tx < 2 ^ 64 - 1) → good al (add now tx local).
Proof.
  intros Hr Hal P Q V t H. unfold add. tstep. destruct (lk_Get (tx_Hash tx) (all t)) eqn:Enew.
  { tstep. exists P, Q, V. split_and!; try done. }
  tstep. apply twp_try. unfold validateTx. apply twp_bind. eapply twp_mono; [by apply (refresh_ok P Q V)|]. intros _ ? ->. tstep.
  destruct (validate tx _ t) as [[]|e] eqn:Ev; [|exists P, Q, V; split_and!; done].
  apply validate_ok in Ev as [_ HN]. apply twp_try. eapply twp_mono; [by apply (make_room_ok P Q V)|].
  intros [[]|e] t1 (P1 & Q1 & V1 & H1 & F1 & L1 & K1 & C1); [|exists P1, Q1, V1; split_and!; done].
  assert (lk_Get (tx_Hash tx) (all t1) = None) as Hnew1.
  { destruct (lk_Get (tx_Hash tx) (all t1)) as [y|] eqn:Ey; [|done]. apply (lo_known _ _ (pp_known _ _ _ _ _ _ (ok_rep _ _ _ _ _ H1))) in Ey as [Eh Hy].
    apply C1 in Hy. assert (lk_Get (tx_Hash y) (all t) = Some y) by (by apply (lo_known _ _ (pp_known _ _ _ _ _ _ (ok_rep _ _ _ _ _ H)))). congruence. }
  assert (pool_sender tx t1 = pool_sender tx t) as Esd by (unfold pool_sender; by rewrite (fixed_signer _ _ F1)).
  set (a := pool_sender tx t) in *.
  apply twp_bind. eapply twp_mono; [by apply (replace_pending_ok P1 Q1 V1 t1 now tx)|]. rewrite Esd.
  intros r t2 [(-> & -> & Hout)|(Hn & P2 & H2 & F2 & K2)].
  2: { destruct r as [r|]; [|done]. tstep. exists P2, Q1, V1. split_and!; [done|congruence|]. intros _.
       eapply keeps_step; [|exact K1|exact K2]. intros b. by apply fixed_head. }
  apply twp_try. pose proof H1 as [Hr1 Hf1 _ _].
  eapply twp_mono; [apply (enqueueTx_ok [] P1 Q1 V1 (content P1 Q1) t1 now tx); [done|done| |done]|]; rewrite ?Esd.
  { intros x Hx. exists a. by right. }
  intros r t2 (F2 & L2 & [(-> & Hr2 & _)|(b & -> & Hr2)]).
  { exists P1, Q1, V1. split_and!; [|congruence|done]. eapply pool_ok_fixed; [exact H1|done|exact Hr2|].
    destruct Hf1 as [Ho Ha]. constructor; [|done]. intros c x Hx. unfold pool_sender. rewrite (fixed_signer _ _ F2). by apply Ho. }
  assert (pool_ok [] P1 (upd a (put tx (Q1 a)) Q1) V1 t2) as H2.
  { eapply pool_ok_fixed; [exact H1|done| |].
    - eapply pool_rep_ext; [..|exact Hr2]; [done..|]. intros x. rewrite (content_put_queued P1 Q1 a tx t1 Hf1). naive_solver.
    - eapply filed_put_queued; [exact Hf1|by apply fixed_signer|done|done]. }
  apply twp_bind. eapply twp_mono; [by apply (mark_local_ok tx local _ _ _ _ H2)|]. intros _ t3 [H3 F3]. tstep.
  exists P1, (upd a (put tx (Q1 a)) Q1), V1. split_and!; [done|congruence|]. intros Eal.
  eapply keeps_step; [|exact K1|]; [intros b'; by apply (fixed_head t t1)|]. apply keeps_upd_queue. intros Hali.
  apply aligned_add; [done| |done]. rewrite (fixed_head _ _ _ F1). split; [done|by apply Hal].
Qed.

(** Transactions that may be handed to the pool. *)
Definition fit (al : bool) (tx : ptx) : Prop := in_range tx ∧ (al = true → Nonce tx < 2 ^ 64 - 1).

Lemma good_addTxs_loop al now local (l : list ptx) : Forall (fit al) l → ∀ d, good al (addTxs_loop now l local d).
Proof.
  induction 1 as [|x l [Hx Hal] Hl IH]; intros d; cbn [addTxs_loop]; [apply good_ret|].
  apply good_bind; [by apply good_add|]. intros r. apply good_bind; [apply IH|]. intros [errs d']. apply good_ret.
Qed.

Lemma good_addTxsLocked al now local (l : list ptx) : Forall (fit al) l → good al (addTxsLocked now l local).
Proof. intros H. apply good_bind; [apply good_sread|]. intros s. by apply good_addTxs_loop. Qed.

Lemma known_or_unsigned_ok P Q V t (l : list ptx) : pool_ok [] P Q V t →
  twp (known_or_unsigned l) (λ r t', t' = t ∧ ∀ x, x ∈ snd r → x ∈ l) t.
Proof.
  intros H. induction l as [|x l IH]; cbn [known_or_unsigned]; [by tstep|]. tstep.
  assert (∀ e (news : list ptx → list ptx), (∀ k y, y ∈ news k → y = x ∨ y ∈ k) →
    twp (run! (errs, ns) <- known_or_unsigned l; sret (e :: errs, news ns)) (λ r t', t' = t ∧ ∀ y, y ∈ snd r → y ∈ x :: l) t) as Hgo.
  { intros e news Hn. apply twp_bind. eapply twp_mono; [exact IH|]. intros [errs ns] ? [-> Hns]. tstep. split; [done|].
    intros y [->|Hy]%Hn; [by left|right; by apply Hns]. }
  destruct (lk_Get (tx_Hash x) (all t)); [apply (Hgo _ (λ k, k)); auto|].
  apply twp_bind. eapply twp_mono; [by apply (refresh_ok P Q V)|]. intros _ ? ->. tstep.
  destruct (signer_Sender (tp_signer t) x); [|apply (Hgo _ (λ k, k)); auto].
  apply (Hgo _ (λ k, x :: k)). intros k y. apply elem_of_cons.
Qed.

Lemma good_addTxs al now local (l : list ptx) : Forall (fit al) l → good al (addTxs now l local).
Proof.
  intros Hl P Q V t H. unfold addTxs. apply twp_bind. eapply twp_mono; [by apply (known_or_unsigned_ok P Q V)|].
  intros [errs news] ? [-> Hn]. cbn [snd] in Hn. destruct news as [|y news]; [tstep; exists P, Q, V; by split_and!|].
  revert P Q V t H. change (good al (run! (newErrs, dirty) <- addTxsLocked now (y :: news) local; sret (merge_errs errs newErrs, Some dirty))).
  apply good_bind; [|by intros [? ?]; apply good_ret]. apply good_addTxsLocked. rewrite Forall_forall in *. auto.
Qed.

(** ** Prices and eviction *)

Lemma good_price_removed al n : good al (price_removed n).
Proof.
  intros P Q V t H. pose proof H as [Hr _ _ _]. apply (price_removed_ok []); [by apply Hr|].
  intros l Hl. exists P, Q, V. split_and!; try done. by eapply pool_ok_priced.
Qed.

Lemma good_SetGasPrice al now price : good al (SetGasPrice now price).
Proof.
  apply good_bind; [apply good_sread|]. intros old. apply good_bind.
  { intros P Q V t H. tstep. exists P, Q, V. split_and!; try done. destruct H as [[] [] Hs Hc].
    constructor; [constructor; done|constructor; done|done|done]. }
  intros _. apply good_if; [|apply good_ret]. apply good_bind; [apply good_sread|]. intros drop_.
  apply good_bind; [|intros _; apply good_price_removed]. apply good_each. intros x. apply good_removeTx.
Qed.

Lemma tl_Flatten_rep l k : list_rep l k → ∃ l', tl_Flatten l = (k, l') ∧ list_rep l' k ∧ strict l' = strict l.
Proof.
  intros H. unfold tl_Flatten. destruct (Flatten_rep (txs l) k (lr_rep _ _ H)) as (m & -> & Hm). eexists. split; [done|].
  split; [|done]. by apply (list_rep_sub l m k).
Qed.

Lemma queue_flatten_ok P Q V t a : pool_ok [] P Q V t → Q a ≠ [] →
  twp (queue_flatten a) (λ txs t', txs = Q a ∧ pool_ok [] P Q V t' ∧ fixed t' = fixed t ∧ tp_locals t' = tp_locals t) t.
Proof.
  intros H Hne. pose proof H as [[Hp Hn Hq Hqn Hv Hk Hpr] Hf Hs Hc]. unfold queue_flatten. tstep.
  pose proof (Hq a) as Hl. destruct (queue t !! a) as [l|] eqn:El; [|done]. destruct Hl as [Hl Hst].
  eapply twp_bind_opt; [done|]. destruct (tl_Flatten_rep l (Q a) Hl) as (l' & -> & Hl' & Hst'). do 2 tstep.
  split_and!; try done. destruct Hf. constructor; [constructor; try done|constructor; done|done|done]; cbn.
  - eapply stage_rep_ext; [apply (upd_id a)|]. apply stage_insert; [done|done|congruence].
  - intros b l2. destruct (decide (b = a)) as [->|]; [done|]. rewrite lookup_insert_ne by done. apply Hqn.
Qed.

(** Fewer queued transactions, the rest as it was. *)
Definition dequeued (P Q : address → list ptx) (V : address → Z) (t0 t : TxPool) (Q' : address → list ptx) : Prop :=
  pool_ok [] P Q' V t ∧ fixed t = fixed t0 ∧ tp_locals t = tp_locals t0 ∧ ∀ a x, x ∈ Q' a → x ∈ Q a.

Lemma dequeued_refl P Q V t : pool_ok [] P Q V t → dequeued P Q V t t Q.
Proof. intros H. by split_and!. Qed.
Lemma dequeued_trans P Q V t0 t1 t2 Q1 Q2 : dequeued P Q V t0 t1 Q1 → dequeued P Q1 V t1 t2 Q2 → dequeued P Q V t0 t2 Q2.
Proof. intros (_ & F1 & L1 & S1) (H2 & F2 & L2 & S2). split_and!; [done|congruence|congruence|]. auto. Qed.

Lemma aligned_sub N p q q' v : aligned N p q v → (∀ x, x ∈ q' → x ∈ q) → aligned N p q' v.
Proof. intros [Hp Hv Hq Hsm] Hsub. constructor; [done|done|by auto|]. intros x [Hx|Hx]; auto. Qed.

Lemma dequeued_keeps P Q V t0 t Q' : dequeued P Q V t0 t Q' → keeps t0 P Q V P Q' V.
Proof. intros (_ & _ & _ & Hs) a Ha. eapply aligned_sub; [exact Ha|]. apply Hs. Qed.

(** Removing queued transactions of an account touches no other account. *)
Lemma remove_queue_ok P V now a (L : list ptx) : ∀ Q t, pool_ok [] P Q V t → (∀ x, x ∈ L → x ∈ Q a) → NoDup L →
  twp (remove_all now L) (λ _ t', ∃ Q', dequeued P Q V t t' Q' ∧ ∀ b, b ≠ a → Q' b = Q b) t.
Proof.
  induction L as [|x L IH]; intros Q t H HL Hnd; unfold remove_all; cbn [each].
  { tstep. exists Q. split; [by apply dequeued_refl|done]. }
  pose proof H as [Hr Hf _ _]. apply NoDup_cons in Hnd as [Hx Hnd]. assert (x ∈ Q a) as Hxa by (apply HL; by left).
  assert (lk_Get (tx_Hash x) (all t) = Some x) as Eg.
  { apply (lo_known _ _ (pp_known _ _ _ _ _ _ Hr)). split; [done|]. exists a. by right. }
  assert (pool_sender x t = a) as Es by (apply (fo_owner _ _ _ Hf); by right).
  assert (StronglySorted nonce_lt (Q a)) as HsQ by (eapply stage_sorted, Hr).
  apply twp_bind. eapply twp_mono; [by apply (removeTx_ok [] P Q V t now (tx_Hash x) true x Hr Hf Eg)|]. rewrite Es.
  intros _ t1 (F1 & L1 & P1 & Q1 & V1 & Hw & Hr1). pose proof Hw as [(Hin & _)|(_ & EP & EQ & EV)].
  { by destruct (fo_apart _ _ _ Hf a x x). }
  assert (filed_ok P1 Q1 t1) as Hf1.
  { apply (filed_without a x P Q V P1 Q1 V1 t t1 Hf); [by apply fixed_signer|done|by eapply stage_sorted, Hr]. }
  assert (dequeued P Q V t t1 Q1) as H1.
  { split_and!; [|done|done|].
    - eapply pool_ok_fixed; [exact H|done| |].
      + eapply pool_rep_ext; [..|exact Hr1]; [done..|]. intros y. unfold content. by setoid_rewrite EP.
      + destruct Hf1 as [Ho Ha]. constructor; [intros b y; rewrite <- EP; apply Ho|intros b y z; rewrite <- EP; apply Ha].
    - intros b y. rewrite EQ. unfold upd. case_decide as E; [subst b|done]. by intros [_ ?]%list_elem_of_filter. }
  eapply twp_mono; [apply (IH Q1 t1); [apply H1| |done]|].
  - intros y Hy. rewrite EQ, upd_eq, list_elem_of_filter. assert (y ∈ Q a) by (apply HL; by right). split; [|done].
    intros E. apply Hx. by rewrite <- (sorted_nonces_inj (Q a) y x).
  - intros _ t2 (Q2 & H2 & O2). exists Q2. split; [by eapply dequeued_trans|]. intros b Hb. rewrite O2, EQ by done. by apply upd_ne.
Qed.

(** Loops that visit accounts with queued transactions, each once. *)
Definition visiting t0 P Q V (l : list address) (t : TxPool) : Prop :=
  NoDup l ∧ ∃ Q', dequeued P Q V t0 t Q' ∧ ∀ a, a ∈ l → Q' a ≠ [].

Lemma visiting_skip t0 P Q V a l t : visiting t0 P Q V (a :: l) t → visiting t0 P Q V l t.
Proof. intros ([_ Hnd]%NoDup_cons & Q' & H & Hne). split; [done|]. exists Q'. split; [done|]. intros b Hb. apply Hne. by right. Qed.

Lemma visiting_stop t0 P Q V l t : visiting t0 P Q V l t → ∃ Q', dequeued P Q V t0 t Q'.
Proof. intros (_ & Q' & H & _). by exists Q'. Qed.

Lemma visiting_drop now t0 P Q V a l t (f : list ptx → list ptx) : (∀ k x, x ∈ f k → x ∈ k) → (∀ k, NoDup k → NoDup (f k)) →
  visiting t0 P Q V (a :: l) t →
  twp (run! txs <- queue_flatten a; remove_all now (f txs)) (λ _, visiting t0 P Q V l) t.
Proof.
  intros Hf Hn ([Ha Hnd]%NoDup_cons & Q' & H & Hne). pose proof H as (H1 & F & Lo & Hsub). apply twp_bind.
  eapply twp_mono; [apply (queue_flatten_ok P Q' V t a H1); apply Hne; by left|]. intros txs t1 (-> & H2 & F1 & L1).
  eapply twp_mono; [apply (remove_queue_ok P V now a (f (Q' a)) Q' t1 H2); [apply Hf|]|].
  { apply Hn, (NoDup_fmap_1 pNonce). change (NoDup (map pNonce (Q' a))). apply sorted_NoDup. eapply stage_sorted, H2. }
  intros _ t2 (Q2 & (H3 & F3 & L3 & S3) & O2). split; [done|]. exists Q2. split.
  - split_and!; [done|congruence|congruence|]. auto.
  - intros b Hb. rewrite O2; [apply Hne; by right|]. by intros ->.
Qed.

Lemma visiting_queue P Q V t l : pool_ok [] P Q V t → NoDup l → (∀ a, a ∈ l → ∃ q, queue t !! a = Some q) → visiting t P Q V l t.
Proof.
  intros H Hnd Hl. split; [done|]. exists Q. split; [by apply dequeued_refl|]. intros a [q Hq]%Hl.
  by eapply (pp_queue_ne _ _ _ _ _ _ (ok_rep _ _ _ _ _ H)).
Qed.

Lemma in_iteration (m : gmap address txList) e : e ∈ iteration (map_to_list m) ↔ m !! e.1 = Some e.2.
Proof. destruct e as [a l]. rewrite iteration_perm. apply elem_of_map_to_list. Qed.
Lemma iteration_NoDup (m : gmap address txList) : NoDup (iteration (map_to_list m)).*1.
Proof. rewrite iteration_perm. apply NoDup_fst_map_to_list. Qed.

Lemma evict_ok now P Q V t : pool_ok [] P Q V t → twp (evict now) (λ _ t', ∃ Q', dequeued P Q V t t' Q') t.
Proof.
  intros H. unfold evict. tstep.
  eapply twp_mono; [apply (twp_each _ (visiting t P Q V))|intros ? t' Hv; exact (visiting_stop _ _ _ _ _ _ Hv)].
  - apply visiting_queue; [done|apply iteration_NoDup|]. intros a (e & -> & Hq)%list_elem_of_fmap. exists e.2. by apply in_iteration.
  - intros a l s Hs. tstep. destruct (_ || _); [tstep; by eapply visiting_skip|]. by apply (visiting_drop _ _ _ _ _ _ _ _ id).
Qed.

Lemma queue_len_ok t0 P Q V a l t : visiting t0 P Q V (a :: l) t → twp (queue_len a) (λ _ t', t' = t) t.
Proof.
  intros (_ & Q' & ([Hr _ _ _] & _) & Hne). unfold queue_len. tstep.
  pose proof (pp_queue _ _ _ _ _ _ Hr a) as Hl. destruct (queue t !! a) as [q|]; [|by destruct (Hne a); [left|]].
  eapply twp_bind_opt; [done|]. by tstep.
Qed.

Lemma drop_queued_ok now t0 P Q V (l : list address) : ∀ n t, visiting t0 P Q V l t →
  twp (drop_queued now l n) (λ _ t', ∃ Q', dequeued P Q V t0 t' Q') t.
Proof.
  induction l as [|a l IH]; intros n t H; cbn [drop_queued]; [tstep; by eapply visiting_stop|].
  destruct (negb _); [tstep; by eapply visiting_stop|]. apply twp_bind. eapply twp_mono; [by eapply queue_len_ok|].
  intros size t' ->. apply twp_bind. destruct (size <=? n).
  - pose proof (visiting_drop now t0 P Q V a l t id ltac:(done) ltac:(done) H) as (r & t2 & E & H2).
    unfold sbind in E. destruct (queue_flatten a t) as [[txs t1]| |] eqn:E1; [|done..]. exists txs, t1. split; [done|].
    apply twp_bind. exists r, t2. split; [done|]. by apply IH.
  - destruct (visiting_drop now t0 P Q V a l t (λ k, take (Z.to_nat n) (reverse k))) as (r & t2 & E & H2); [..|done|].
    + intros k x Hx%elem_of_take. destruct Hx as (i & Hi%list_elem_of_lookup_2 & _). by rewrite elem_of_reverse in Hi.
    + intros k Hk. eapply sublist_NoDup; [|apply sublist_take]. by rewrite reverse_Permutation.
    + unfold sbind in E. destruct (queue_flatten a t) as [[txs t1]| |] eqn:E1; [|done..]. exists txs, t1. split; [done|].
      exists r, t2. split; [done|]. by eapply visiting_stop.
Qed.

Lemma truncateQueue_ok now P Q V t : pool_ok [] P Q V t → twp (truncateQueue now) (λ _ t', ∃ Q', dequeued P Q V t t' Q') t.
Proof.
  intros H. unfold truncateQueue. do 2 tstep. destruct (_ <=? _); [tstep; exists Q; by apply dequeued_refl|]. tstep.
  apply drop_queued_ok, visiting_queue; [done|..].
  - rewrite reverse_Permutation. set (f := λ e : address * txList, _). assert (∀ k, (omap f k).*1 `sublist_of` k.*1) as Hsub.
    { induction k as [|e k IH]; cbn; [constructor|]. unfold f at 1. destruct (is_local e.1 t); cbn; by constructor. }
    change (NoDup (merge_sort by_heartbeat (omap f (iteration (map_to_list (queue t))))).*1). rewrite merge_sort_Permutation.
    eapply sublist_NoDup; [apply iteration_NoDup|apply Hsub].
  - intros a. rewrite elem_of_reverse. intros (b & -> & Hb)%list_elem_of_fmap. rewrite merge_sort_Permutation in Hb.
    apply list_elem_of_omap in Hb as (e & He & E). destruct (is_local _ _); [done|]. injection E as <-. exists e.2. by apply in_iteration.
Qed.

Lemma good_dequeued al {A} (m : St TxPool A) :
  (∀ P Q V t, pool_ok [] P Q V t → twp m (λ _ t', ∃ Q', dequeued P Q V t t' Q') t) → good al m.
Proof.
  intros Hm P Q V t H. eapply twp_mono; [by apply Hm|]. intros _ t' (Q' & Hd). exists P, Q', V.
  pose proof (dequeued_keeps _ _ _ _ _ _ Hd). destruct Hd as (? & ? & _). auto.
Qed.
Lemma good_evict al now : good al (evict now).
Proof. apply good_dequeued. intros. by apply evict_ok. Qed.
Lemma good_truncateQueue al now : good al (truncateQueue now).
Proof. apply good_dequeued. intros. by apply truncateQueue_ok. Qed.
End Spec.
