(* ===== verification/TxPoolMove.v ===== *)
(** * Promotion and demotion in the transaction pool

    What [promoteExecutables] moves from the queue to the pending list of an account
    and [demoteUnexecutables] back, as operations on sorted lists; that both keep the
    pool consistent; that promotion keeps alignment, and the two together restore it
    for the nonces of a new head. *)
From stdpp Require Import sorting.
From S2P Require Import Prelude Common RlpEncode StateObject StateDB TeWakaVm Consensus StateTransition.
From S2P Require Import Transaction TxSigning Heap TxList TxListSpec TxOrder TxPriced TxPricedSpec TxPool TxPoolLogic TxPoolSpec.
Import Crypto.

Section Move.
Context {B : Backend} {R : Recover} {MO : MapOrder}.
Implicit Types tx x y z w o : ptx.
Implicit Types p q r l : list ptx.

(** ** Moving within an account *)

(** The lists of the account [a] become [p'] and [q'], and [F] leaves. *)
Lemma rearrange P Q a p' q' (F : list ptx) t t' : filed_ok P Q t → tp_signer t' = tp_signer t →
  (∀ x, x ∈ F → x ∈ P a ∨ x ∈ Q a) →
  (∀ x, x ∈ p' ∨ x ∈ q' ↔ (x ∈ P a ∨ x ∈ Q a) ∧ x ∉ F) →
  (∀ x y, x ∈ p' → y ∈ q' → Nonce x ≠ Nonce y) →
  (∀ x, content (upd a p' P) (upd a q' Q) x ↔ content P Q x ∧ x ∉ F) ∧ filed_ok (upd a p' P) (upd a q' Q) t'.
Proof.
  intros [Ho Ha] Es HF Hin Hap. split.
  - intros x. unfold content. split.
    + intros [b Hx]. destruct (decide (b = a)) as [->|Hb].
      * rewrite !upd_eq in Hx. apply Hin in Hx as [Hx Hn]. split; [by exists a|done].
      * rewrite !upd_ne in Hx by done. split; [by exists b|]. intros HxF%HF. apply Hb. rewrite <- (Ho b x Hx). by apply Ho.
    + intros [[b Hx] Hn]. exists b. destruct (decide (b = a)) as [->|Hb]; [rewrite !upd_eq; by apply Hin|by rewrite !upd_ne].
  - constructor.
    + intros b x. unfold pool_sender. rewrite Es. destruct (decide (b = a)) as [->|Hb]; [|rewrite !upd_ne by done; apply Ho].
      rewrite !upd_eq, Hin. intros [Hx _]. by apply Ho.
    + intros b x y. destruct (decide (b = a)) as [->|Hb]; [rewrite !upd_eq; apply Hap|rewrite !upd_ne by done; apply Ha].
Qed.

(** ** Promotion *)

(** Adding transactions one by one. *)
Definition put_all p r : list ptx := fold_left (λ l x, put x l) r p.

Lemma elem_of_put_all r : ∀ p x, (∀ y z, y ∈ p → z ∈ r → Nonce y ≠ Nonce z) → NoDup (map pNonce r) →
  x ∈ put_all p r ↔ x ∈ p ∨ x ∈ r.
Proof.
  induction r as [|z r IH]; intros p x Hap Hnd; cbn [put_all fold_left]; [rewrite elem_of_nil; tauto|].
  apply NoDup_cons in Hnd as [Hz Hnd]. change (x ∈ put_all (put z p) r ↔ x ∈ p ∨ x ∈ z :: r). rewrite IH; [|..|done].
  - rewrite elem_of_put, elem_of_cons. split; [tauto|]. intros [Hx|[->|Hx]]; [left|by left; left|by right].
    right. split; [done|]. apply Hap; [done|by left].
  - intros y w. rewrite elem_of_put. intros [->|[Hy _]] Hw; [|apply Hap; [done|by right]].
    intros E. apply Hz. rewrite E. by apply nonce_in.
Qed.

(** Transactions behind all others go to the end. *)
Lemma put_last x p : (∀ y, y ∈ p → Nonce y < Nonce x) → put x p = p ++ [x].
Proof. intros H. unfold put. rewrite filter_all, filter_none; [done| |done]. intros y Hy. specialize (H y Hy). lia. Qed.
Lemma put_all_app r : ∀ p, StronglySorted nonce_lt r → (∀ y z, y ∈ p → z ∈ r → Nonce y < Nonce z) → put_all p r = p ++ r.
Proof.
  induction r as [|z r IH]; intros p Hs Hlt; [by rewrite app_nil_r|]. apply sorted_cons in Hs as [Hs Hz]. unfold put_all. cbn [fold_left].
  rewrite put_last by (intros y Hy; apply Hlt; [done|by left]). etrans; [apply IH|by rewrite <- app_assoc]; [done|].
  intros y w [Hy|[->|[]%not_elem_of_nil]%elem_of_cons]%elem_of_app Hw; [apply Hlt; [done|by right]|by apply Hz].
Qed.

Definition next_nonce (v : Z) r : Z := match last r with None => v | Some z => u64 (Nonce z + 1) end.

Lemma promoteTx_ok P Q V K t now a tx : pool_rep [] P Q V K t → in_range tx → Nonce tx ∉ map pNonce (P a) →
  twp (promoteTx now a tx) (λ b t', b = true ∧ fixed t' = fixed t ∧ tp_locals t' = tp_locals t ∧
    pool_rep [] (upd a (put tx (P a)) P) Q (upd a (u64 (Nonce tx + 1)) V) K t') t.
Proof.
  intros [Hp Hn Hq Hqn Hv Hk Hpr] Hr Hout. unfold promoteTx. do 2 tstep.
  destruct (stage_get true (pending t) P a Hp) as [Hl Hst].
  destruct (Add_cases tx (PriceBump (tp_config t)) _ _ Hl Hr) as [(_ & o & Ho & En)|(old & l' & -> & Hl' & Hst' & Hold)].
  { exfalso. apply Hout. rewrite <- En. by apply nonce_in. }
  tstep. cbn [negb]. assert (old = None) as ->.
  { destruct old as [o|]; [|done]. exfalso. apply Hout. destruct (proj1 (Hold o) eq_refl) as [Ho <-]. by apply nonce_in. }
  cbn [drop_replaced]. do 4 tstep. split_and!; try done. constructor; cbn; try done.
  - apply stage_insert; [done|done|congruence].
  - apply no_empty_insert; [done|apply put_ne].
  - intros b. rewrite noncer_set_val. unfold upd. by rewrite Hv.
Qed.

Lemma next_nonce_cons v z r : next_nonce v (z :: r) = next_nonce (u64 (Nonce z + 1)) r.
Proof. unfold next_nonce. rewrite last_cons. by destruct (last r). Qed.

Lemma promote_all_ok Q K now a r : ∀ P V t, pool_rep [] P Q V K t → (∀ x, x ∈ r → in_range x) → NoDup (map pNonce r) →
  (∀ x y, x ∈ P a → y ∈ r → Nonce x ≠ Nonce y) →
  twp (promote_all now a r) (λ l t', l = r ∧ fixed t' = fixed t ∧ tp_locals t' = tp_locals t ∧
    pool_rep [] (upd a (put_all (P a) r) P) Q (upd a (next_nonce (V a) r) V) K t') t.
Proof.
  induction r as [|z r IH]; intros P V t H Hr Hnd Hap; cbn [promote_all].
  { tstep. split_and!; try done. eapply pool_rep_ext; [..|exact H]; try done; intros b; symmetry; [apply (upd_id a P)|apply (upd_id a V)]. }
  apply NoDup_cons in Hnd as [Hz Hnd]. apply twp_bind. eapply twp_mono; [apply (promoteTx_ok P Q V K t now a z H)|].
  - apply Hr. by left.
  - intros (y & E & Hy)%list_elem_of_fmap. by destruct (Hap y z); [|left|].
  - intros b t1 (-> & F1 & L1 & H1). apply twp_bind. eapply twp_mono; [apply (IH _ _ t1 H1)|].
    + intros x Hx. apply Hr. by right.
    + done.
    + intros x y. rewrite upd_eq, elem_of_put. intros [->|[Hx _]] Hy; [|apply Hap; [done|by right]].
      intros E. apply Hz. rewrite E. by apply nonce_in.
    + intros l t2 (-> & F2 & L2 & H2). tstep. split_and!; [done|congruence|congruence|].
      eapply pool_rep_ext; [..|exact H2]; try done.
      * intros b. unfold upd. case_decide; [|done]. by rewrite decide_True.
      * intros b. unfold upd. rewrite next_nonce_cons. case_decide; [|done]. by rewrite decide_True.
Qed.

(** Forgetting more of what the lookup knows. *)
Lemma forget_rep P Q V K (F L : list ptx) t : pool_rep [] P Q V (λ x, K x ∧ x ∉ F) t → (∀ y, y ∈ L → K y ∧ y ∉ F) →
  twp (forget_txs L) (λ _ t', fixed t' = fixed t ∧ tp_locals t' = tp_locals t ∧
    pool_rep [] P Q V (λ x, K x ∧ x ∉ F ++ L) t') t.
Proof.
  intros [Hp Hn Hq Hqn Hv Hk Hpr] HL. apply (forget_txs_ok [] (λ x, K x ∧ x ∉ F)); [done|done|]. intros a Ha Hpa. split; [done|].
  split; [done|]. constructor; try done. eapply lookup_ok_ext; [|exact Ha]. intros x.
  rewrite (forgotten _ _ _ Hk HL). rewrite not_elem_of_app. tauto.
Qed.

Lemma price_rep P Q V K n t : pool_rep [] P Q V K t →
  twp (price_removed n) (λ _ t', fixed t' = fixed t ∧ tp_locals t' = tp_locals t ∧ pool_rep [] P Q V K t') t.
Proof.
  intros [Hp Hn Hq Hqn Hv Hk Hpr]. apply (price_removed_ok []); [done|]. intros l Hl. split; [done|]. split; [done|]. constructor; done.
Qed.

(** What is too old or costs too much for the account. *)
Definition weedy (t : TxPool) (a : address) x : Prop :=
  Nonce x < head_nonce t a ∨ too_much (hs_Balance (currentState t) a) (currentMaxGas t) x.

Lemma weedy_dec t a x : weedy t a x ∨ ¬ weedy t a x.
Proof. unfold weedy. destruct (decide (Nonce x < head_nonce t a)); [tauto|]. destruct (decide (too_much (hs_Balance (currentState t) a) (currentMaxGas t) x)); tauto. Qed.

(** What is left of a list, and of a strict one what came behind. *)
Lemma weed_ok P Q V K t a (l : txList) (k : list ptx) : pool_rep [] P Q V K t → list_rep l k → (∀ x, x ∈ k → K x) →
  let c := hs_Balance (currentState t) a in
  let g := currentMaxGas t in
  let k1 := filter (λ tx, ¬ Nonce tx < head_nonce t a) k in
  twp (weed a l) (λ wil t', fixed t' = fixed t ∧ tp_locals t' = tp_locals t ∧
    (∃ F : list ptx, pool_rep [] P Q V (λ x, K x ∧ x ∉ F) t' ∧ ∀ x, x ∈ F ↔ x ∈ k ∧ weedy t a x) ∧
    wil.1.2 ≡ₚ (if strict l then filter (λ tx, ¬ too_much c g tx ∧ behind c g k1 tx) k1 else []) ∧
    list_rep wil.2 (filter (λ tx, ¬ too_much c g tx ∧ (strict l = true → ¬ behind c g k1 tx)) k1) ∧ strict wil.2 = strict l) t.
Proof.
  intros H Hl HK c g k1. unfold weed. tstep. change (hs_Nonce (currentState t) a) with (head_nonce t a). fold c.
  destruct (tl_Forward_rep (head_nonce t a) l k Hl) as (l1 & E1 & Hl1 & Hst1).
  eapply twp_bind_out; [exact E1|]. cbv beta iota. apply twp_bind, deref_ok. fold k1 in Hl1.
  set (olds := filter (λ tx, Nonce tx < head_nonce t a) k).
  assert (pool_rep [] P Q V (λ x, K x ∧ x ∉ []) t) as H0.
  { eapply pool_rep_ext; [..|exact H]; try done. intros x. rewrite elem_of_nil. tauto. }
  apply twp_bind. eapply twp_mono; [apply (forget_rep _ _ _ _ _ olds t H0)|].
  { intros y [_ Hy]%list_elem_of_filter. split; [by apply HK|apply not_elem_of_nil]. }
  intros _ t1 (F1 & Lo1 & H1). tstep. assert (currentMaxGas t1 = g) as -> by (unfold g, fixed in *; congruence).
  destruct (Filter_exact c g l1 k1 Hl1) as (drops & inv & l2 & -> & Hdr & Hinv & Hl2 & Hst2). rewrite Hst1 in *.
  apply twp_bind. eapply twp_mono; [apply (forget_rep _ _ _ _ _ drops t1 H1)|].
  { intros y. rewrite Hdr. unfold k1. rewrite !list_elem_of_filter. intros (_ & Hge & Hy). split; [by apply HK|].
    cbn. unfold olds. rewrite list_elem_of_filter. tauto. }
  intros _ t2 (F2 & Lo2 & H2). tstep. split; [congruence|]. split; [congruence|]. split; [|done]. eexists. split; [exact H2|].
  intros x. rewrite !elem_of_app, Hdr. unfold olds, k1, weedy. rewrite !list_elem_of_filter, elem_of_nil. fold c g.
  destruct (decide (Nonce x < head_nonce t a)); tauto.
Qed.

(** The lists of an account before and after a promotion of [r]: what is too old
    or costs too much leaves, what is ready becomes pending, and the queue may be
    cut. *)
Definition promotes (N c g : Z) p q v r p' q' v' : Prop := ∃ q2 k,
  StronglySorted nonce_lt q2 ∧ (∀ x, x ∈ q2 ↔ x ∈ q ∧ N ≤ Nonce x ∧ ¬ too_much c g x) ∧
  r = ready v q2 ∧ p' = put_all p r ∧ q' = take k (drop (length r) q2) ∧ v' = next_nonce v r.

Lemma ready_prefix n l : l = ready n l ++ drop (length (ready n l)) l.
Proof.
  assert (∀ l m, l = consecutive m l ++ drop (length (consecutive m l)) l) as Hc.
  { clear. induction l as [|x l IH]; intros m; [done|]. cbn [consecutive]. destruct (Nonce x =? m); [|done]. cbn. by rewrite <- IH. }
  destruct l as [|x l]; [done|]. unfold ready. destruct (n <? Nonce x); [done|]. apply Hc.
Qed.

(** What is filtered, taken, kept and cut off are the parts of the queue. *)
Lemma promotion_parts q2 k r : StronglySorted nonce_lt q2 → q2 = r ++ drop (length r) q2 →
  (∀ x, x ∈ q2 ↔ x ∈ r ∨ x ∈ take k (drop (length r) q2) ∨ x ∈ drop k (drop (length r) q2)) ∧
  (∀ x y, x ∈ r → y ∈ take k (drop (length r) q2) ∨ y ∈ drop k (drop (length r) q2) → Nonce x < Nonce y) ∧
  (∀ x y, x ∈ take k (drop (length r) q2) → y ∈ drop k (drop (length r) q2) → Nonce x < Nonce y).
Proof.
  intros Hs E. set (q3 := drop (length r) q2) in *. split_and!.
  - intros x. rewrite E at 1. rewrite elem_of_app. rewrite <- (take_drop k q3) at 1. by rewrite elem_of_app.
  - intros x y Hx Hy. rewrite E in Hs. change (nonce_lt x y). eapply StronglySorted_app_1_elem_of; [exact Hs|done|].
    rewrite <- (take_drop k q3). by apply elem_of_app.
  - intros x y Hx Hy. assert (StronglySorted nonce_lt q3) as H3 by (by apply sorted_drop). rewrite <- (take_drop k q3) in H3.
    change (nonce_lt x y). by eapply StronglySorted_app_1_elem_of.
Qed.

Lemma promotion_split t a q q2 (F : list ptx) k r : StronglySorted nonce_lt q2 → (∀ x, x ∈ q2 ↔ x ∈ q ∧ ¬ weedy t a x) →
  (∀ x, x ∈ F ↔ x ∈ q ∧ weedy t a x) → q2 = r ++ drop (length r) q2 →
  let q4 := take k (drop (length r) q2) in
  let F' := F ++ reverse (drop k (drop (length r) q2)) in
  (∀ x, x ∈ F' → x ∈ q ∧ x ∉ r ∧ x ∉ q4) ∧ (∀ x, x ∈ q → x ∈ F' ∨ x ∈ r ∨ x ∈ q4).
Proof.
  intros Hs Hq2 HF Er q4 F'. destruct (promotion_parts q2 k r Hs Er) as (Hparts & Hlt1 & Hlt2). fold q4 in Hparts, Hlt1, Hlt2.
  set (cut := drop k _) in *. unfold F'. fold cut. split; intros x; rewrite !elem_of_app, elem_of_reverse, HF.
  - intros [[Hx Hw]|Hx].
    + split; [done|]. split; intros Hin; (assert (x ∈ q2) as [_ ?]%Hq2 by (apply Hparts; tauto); done).
    + split; [apply Hq2, Hparts; tauto|]. split; intros Hx'.
      * specialize (Hlt1 x x Hx' (or_intror Hx)). lia.
      * specialize (Hlt2 x x Hx' Hx). lia.
  - intros Hx. destruct (weedy_dec t a x) as [|Hw]; [tauto|].
    assert (x ∈ q2) as Hx2 by (by apply Hq2). apply Hparts in Hx2. tauto.
Qed.

(** The queue of an account that is not local is cut to its limit. *)
Lemma cap_queue_ok P Q V K (F : list ptx) t a (l : txList) (k : list ptx) : pool_rep [] P Q V (λ x, K x ∧ x ∉ F) t →
  list_rep l k → strict l = false → 0 ≤ AccountQueue (tp_config t) < 2 ^ 63 → (∀ x, x ∈ k → K x ∧ x ∉ F) →
  twp (cap_queue a l) (λ cl t', fixed t' = fixed t ∧ tp_locals t' = tp_locals t ∧ ∃ n,
    list_rep cl.2 (take n k) ∧ strict cl.2 = false ∧ pool_rep [] P Q V (λ x, K x ∧ x ∉ F ++ reverse (drop n k)) t') t.
Proof.
  intros H Hl Hst Hc HK. unfold cap_queue. do 2 tstep. apply twp_bind.
  apply (twp_mono _ (λ cl t', t' = t ∧ ∃ n, cl.1 = map Some (reverse (drop n k)) ∧ list_rep cl.2 (take n k) ∧ strict cl.2 = false)).
  { destruct (is_local a t).
    - tstep. split; [done|]. exists (length k). cbn [fst snd]. rewrite drop_all, firstn_all. by split_and!.
    - unfold cap_list. assert (i64 (AccountQueue (tp_config t)) = AccountQueue (tp_config t)) as -> by go_lia.
      destruct (Z.ltb_spec (AccountQueue (tp_config t)) 0); [lia|].
      destruct (tl_Cap_rep (Z.to_nat (AccountQueue (tp_config t))) l _ Hl) as (l4 & E4 & Hl4 & Hst4).
      eapply twp_out; [exact E4|]. split; [done|]. eexists. cbn [fst snd]. split_and!; [done|done|congruence]. }
  intros [cp l4] ? (-> & n & Ecp & Hl4 & Hst4). cbn [fst snd] in *. subst cp. cbv beta iota. apply twp_bind, deref_ok, twp_bind.
  eapply twp_mono; [apply (forget_rep _ _ _ _ _ (reverse (drop n k)) t H)|].
  { intros y. rewrite elem_of_reverse. intros Hy. apply HK. rewrite <- (take_drop n k). apply elem_of_app. by right. }
  intros _ t4 (F4 & Lo4 & H4). tstep. split; [done|]. split; [done|]. exists n. cbn [snd]. done.
Qed.

Lemma pool_ok_same P Q V t a : pool_ok [] P Q V t → pool_ok [] (upd a (P a) P) (upd a (Q a) Q) (upd a (V a) V) t.
Proof.
  intros [Hr [Ho Ha] Hs Hc]. constructor; try done.
  - eapply pool_rep_ext; [..|exact Hr]; try (intros b; symmetry; apply upd_id). intros x. unfold content. by setoid_rewrite upd_id.
  - constructor; intros b; rewrite !upd_id; [apply Ho|apply Ha].
Qed.

(** The lists after a promotion of [r]. *)
Lemma promotion_rearranged P Q t t' a q2 (F : list ptx) k r : filed_ok P Q t → tp_signer t' = tp_signer t → StronglySorted nonce_lt q2 →
  (∀ x, x ∈ q2 ↔ x ∈ Q a ∧ ¬ weedy t a x) → (∀ x, x ∈ F ↔ x ∈ Q a ∧ weedy t a x) → q2 = r ++ drop (length r) q2 →
  let P' := upd a (put_all (P a) r) P in
  let Q' := upd a (take k (drop (length r) q2)) Q in
  (∀ x, content P' Q' x ↔ content P Q x ∧ x ∉ F ++ reverse (drop k (drop (length r) q2))) ∧ filed_ok P' Q' t'.
Proof.
  intros Hf Es Hs Hq2 HF Er P' Q'. destruct (promotion_split t a (Q a) q2 F k r Hs Hq2 HF Er) as [HFq HFin].
  destruct (promotion_parts q2 k r Hs Er) as (Hparts & Hlt & _). set (q4 := take k _) in *.
  assert (∀ x, x ∈ r ∨ x ∈ q4 → x ∈ Q a) as HQ by (intros x Hx; apply Hq2, Hparts; tauto).
  assert (∀ x, x ∈ put_all (P a) r ↔ x ∈ P a ∨ x ∈ r) as Hpa.
  { intros x. apply elem_of_put_all; [intros y z Hy Hz; apply (fo_apart _ _ _ Hf a y z); auto|].
    pose proof (sorted_NoDup q2 Hs) as Hnd. rewrite Er, map_app in Hnd. by apply NoDup_app in Hnd as [? _]. }
  apply (rearrange P Q a _ _ _ t t' Hf Es).
  - intros x [? _]%HFq. by right.
  - intros x. rewrite Hpa. split.
    + intros [[Hx|Hx]|Hx]; (split; [auto|]); intros (Hx' & Hn1 & Hn2)%HFq; [|done..]. by destruct (fo_apart _ _ _ Hf a x x).
    + intros [[Hx|Hx] Hn]; [tauto|]. destruct (HFin x Hx) as [?|[?|?]]; tauto.
  - intros x y. rewrite Hpa. intros [Hx|Hx] Hy; [apply (fo_apart _ _ _ Hf a); auto|]. specialize (Hlt x y Hx (or_introl Hy)). lia.
Qed.

(** Nothing happens to an account that is not queued. *)
Lemma promote_account_ok P Q V t now a : pool_ok [] P Q V t →
  twp (promote_account now a) (λ r t', fixed t' = fixed t ∧ tp_locals t' = tp_locals t ∧
    ∃ p' q' v', pool_ok [] (upd a p' P) (upd a q' Q) (upd a v' V) t' ∧
      promotes (head_nonce t a) (hs_Balance (currentState t) a) (currentMaxGas t) (P a) (Q a) (V a) r p' q' v') t.
Proof.
  intros H. pose proof H as [Hr Hf Hs Hc]. unfold promote_account. tstep. pose proof (pp_queue _ _ _ _ _ _ Hr a) as Hl.
  destruct (queue t !! a) as [l|].
  2: { tstep. split; [done|]. split; [done|]. exists (P a), (Q a), (V a). split; [by apply pool_ok_same|].
       rewrite Hl. exists [], 0%nat. split; [constructor|]. split; [|by rewrite drop_nil, take_nil]. intros x. rewrite elem_of_nil. tauto. }
  destruct Hl as [Hl Hst]. assert (∀ x, x ∈ Q a → content P Q x) as HQ by (intros x Hx; exists a; by right).
  apply twp_bind. eapply twp_mono; [apply (weed_ok P Q V _ t a l (Q a) Hr Hl HQ)|].
  intros [[n inv] l2] t1 (F1 & L1 & (F & Hr1 & HF) & _ & Hl2 & Hst2). cbn [fst snd] in *. rewrite Hst in *. set (q2 := filter _ _) in Hl2.
  assert (∀ x, x ∈ q2 ↔ x ∈ Q a ∧ ¬ weedy t a x) as Hq2.
  { intros x. unfold q2, weedy. rewrite !list_elem_of_filter. naive_solver. }
  tstep. destruct (noncer_get_val a (pendingNonces t1)) as [Hgv Hgs]. destruct (noncer_get a (pendingNonces t1)) as [next ns]. cbn [fst snd] in *.
  rewrite (pp_nonces _ _ _ _ _ _ Hr1) in Hgv. subst next. tstep.
  assert (pool_rep [] P Q V (λ x, content P Q x ∧ x ∉ F) (set_nonces ns t1)) as Hr2.
  { destruct Hr1 as [Hp Hn Hq Hqn Hv Hk Hpr]. constructor; try done. intros b. cbn. by rewrite Hgs. }
  destruct (tl_Ready_rep (V a) l2 q2 Hl2) as (l3 & E3 & Hl3 & Hst3).
  eapply twp_bind_out; [exact E3|]. cbv beta iota. apply twp_bind, deref_ok.
  pose proof (ready_prefix (V a) q2) as Er. set (r := ready (V a) q2) in *.
  assert (StronglySorted nonce_lt q2) as Hs2 by (by eapply list_rep_sorted).
  destruct (promotion_parts q2 0 r Hs2 Er) as (Hparts & _).
  apply twp_bind. eapply twp_mono; [apply (promote_all_ok _ _ now a r _ _ _ Hr2)|].
  { intros x Hx. eapply (stage_range false (queue t) Q a x); [apply Hr|]. apply Hq2, Hparts. tauto. }
  { pose proof (sorted_NoDup q2 Hs2) as Hnd. rewrite Er, map_app in Hnd. by apply NoDup_app in Hnd as [? _]. }
  { intros x y Hx Hy. apply (fo_apart _ _ _ Hf a x y); [done|]. apply Hq2, Hparts. tauto. }
  intros r' t2 (-> & F2 & L2 & Hr3). assert (fixed t2 = fixed t) as F2' by (rewrite F2; exact F1).
  apply twp_bind. eapply twp_mono; [apply (cap_queue_ok _ _ _ _ F t2 a l3 _ Hr3 Hl3); [congruence|..]|].
  { replace (tp_config t2) with (tp_config t) by (unfold fixed in F2'; congruence). apply Hc. }
  { intros x Hx. assert (x ∈ q2) as [Hx1 Hx2]%Hq2 by (rewrite Er; apply elem_of_app; by right). split; [by apply HQ|]. rewrite HF. tauto. }
  intros [m l4] t3 (F3 & L3 & k & Hl4 & Hst4 & Hr4). cbn [snd] in *. apply twp_bind. eapply twp_mono; [by apply price_rep|].
  intros _ t4 (F4 & L4 & Hr5). assert (fixed t4 = fixed t) as F4' by congruence. tstep.
  destruct (promotion_rearranged P Q t t4 a q2 F k r Hf (fixed_signer _ _ F4') Hs2 Hq2 HF Er) as [Hcon [Ho Ha]]. set (q4 := take k _) in *.
  assert (∀ b, pool_ok [] (upd a (put_all (P a) r) P) (upd a q4 Q) (upd a (next_nonce (V a) r) V)
    (set_beats b (set_queue (keep_list a l4 (queue t4)) t4))) as Hend.
  { intros b. destruct Hr5 as [Hp Hn Hq Hqn Hv Hk Hpr]. eapply pool_ok_fixed; [exact H|exact F4'| |constructor; done].
    constructor; cbn; try done; [by apply stage_keep|by apply no_empty_keep|]. eapply lookup_ok_ext; [|exact Hk]. intros x. by rewrite Hcon. }
  apply twp_bind. apply (twp_mono _ (λ _ t', ∃ b, t' = set_beats b (set_queue (keep_list a l4 (queue t4)) t4))).
  { destruct (tl_Empty l4); tstep; [by eexists|]. by exists (beats t4). }
  intros _ t6 [b ->]. tstep. split; [exact F4'|]. split; [cbn in *; congruence|].
  eexists _, q4, _. split; [apply Hend|]. exists q2, k. split_and!; try done. intros x. rewrite Hq2. unfold weedy. rewrite <- Z.nlt_ge. tauto.
Qed.

(** Promotion keeps alignment. *)
Lemma consecutive_nonces l : ∀ m, (∀ x, x ∈ l → 0 ≤ Nonce x < 2 ^ 64 - 1) →
  map pNonce (consecutive m l) = seqZ m (zlen (consecutive m l)).
Proof.
  induction l as [|x l IH]; intros m Hl; [done|]. cbn [consecutive]. destruct (Z.eqb_spec (Nonce x) m) as [<-|]; [|done].
  assert (0 ≤ Nonce x < 2 ^ 64 - 1) by (apply Hl; by left). assert (u64 (Nonce x + 1) = Nonce x + 1) as -> by go_lia.
  cbn [map]. rewrite IH by (intros y Hy; apply Hl; by right). rewrite (seqZ_cons (Nonce x)) by (unfold zlen; cbn; lia). f_equal.
  unfold zlen. cbn [length]. f_equal; lia.
Qed.

Lemma ready_nonces v l : StronglySorted nonce_lt l → (∀ x, x ∈ l → v ≤ Nonce x) → (∀ x, x ∈ l → 0 ≤ Nonce x < 2 ^ 64 - 1) →
  map pNonce (ready v l) = seqZ v (zlen (ready v l)).
Proof.
  intros Hs Hv Hl. destruct l as [|x l]; [done|]. unfold ready. destruct (Z.ltb_spec v (Nonce x)); [done|].
  assert (v = Nonce x) as -> by (specialize (Hv x ltac:(by left)); lia). by apply consecutive_nonces.
Qed.

Lemma seqZ_snoc N p r : map pNonce p = seqZ N (zlen p) → map pNonce r = seqZ (N + zlen p) (zlen r) →
  map pNonce (p ++ r) = seqZ N (zlen (p ++ r)).
Proof. intros Hp Hr. rewrite map_app, Hp, Hr, zlen_app. rewrite seqZ_app by (apply zlen_nonneg). done. Qed.

Lemma next_nonce_seq v r : map pNonce r = seqZ v (zlen r) → (∀ x, x ∈ r → 0 ≤ Nonce x < 2 ^ 64 - 1) → next_nonce v r = v + zlen r.
Proof.
  intros Hr Hsm. unfold next_nonce. destruct (last r) as [z|] eqn:El.
  - pose proof El as Hz%last_Some_elem_of. pose proof (Hsm z Hz). rewrite last_lookup in El. pose proof (seqZ_nonces v r _ z Hr El) as En.
    assert (r ≠ []) by (intros ->; done). destruct r; [done|]. unfold zlen in *. cbn [length] in *. go_lia.
  - apply last_None in El as ->. unfold zlen. cbn. lia.
Qed.

(** What stays queued comes behind what was ready. *)
Lemma ready_rest v q2 k : StronglySorted nonce_lt q2 → (∀ x, x ∈ q2 → v ≤ Nonce x) →
  map pNonce (ready v q2) = seqZ v (zlen (ready v q2)) →
  ∀ x, x ∈ take k (drop (length (ready v q2)) q2) → v + zlen (ready v q2) ≤ Nonce x.
Proof.
  intros Hs Hv Hr x Hx. destruct (promotion_parts q2 k (ready v q2) Hs (ready_prefix v q2)) as (Hparts & Hlt & _).
  assert (v ≤ Nonce x) by (apply Hv, Hparts; tauto). revert Hr Hx Hlt Hparts. generalize (ready v q2). intros r Hr Hx Hlt Hparts.
  destruct (last r) as [z|] eqn:El; [|apply last_None in El as ->; cbn; unfold zlen; cbn; lia]. pose proof El as Hz%last_Some_elem_of.
  specialize (Hlt z x Hz (or_introl Hx)). rewrite last_lookup in El. pose proof (seqZ_nonces v r _ z Hr El).
  destruct r; [done|]. unfold zlen. cbn [length] in *. lia.
Qed.

Lemma promotes_aligned N c g p q v r p' q' v' : (∀ x, x ∈ q → 0 ≤ Nonce x) →
  promotes N c g p q v r p' q' v' → aligned N p q v → aligned N p' q' v'.
Proof.
  intros Hnn (q2 & k & Hs & Hq2 & -> & -> & -> & ->) [Hp Hv Hq Hsm]. pose proof (ready_prefix v q2) as Er. set (r := ready v q2) in *.
  assert (∀ x, x ∈ q2 → x ∈ q) as Hsub by (intros x Hx; by apply Hq2).
  destruct (promotion_parts q2 k r Hs Er) as (Hparts & Hlt & _).
  assert (map pNonce r = seqZ v (zlen r)) as Hr.
  { apply ready_nonces; [done|auto|]. intros x Hx%Hsub. split; [by apply Hnn|]. apply Hsm. by right. }
  assert (∀ x, x ∈ r → x ∈ q) as Hrq by (intros x Hx; apply Hsub, Hparts; tauto).
  assert (put_all p r = p ++ r) as ->.
  { apply put_all_app.
    - rewrite Er in Hs. by apply StronglySorted_app_1_l in Hs.
    - intros y z Hy%(seqZ_range N p y Hp) Hz%(seqZ_range v r z Hr). lia. }
  assert (next_nonce v r = v + zlen r) as ->.
  { apply next_nonce_seq; [done|]. intros x Hx%Hrq. split; [by apply Hnn|]. apply Hsm. by right. }
  constructor.
  - apply seqZ_snoc; [done|]. by rewrite <- Hv.
  - rewrite zlen_app. lia.
  - intros x Hx. apply (ready_rest v q2 k); auto.
  - intros x [[Hx|Hx]%elem_of_app|Hx]; apply Hsm; [by left|right; auto|]. right. apply Hsub, Hparts. tauto.
Qed.

Lemma stage_nonneg P Q V t a x : pool_ok [] P Q V t → x ∈ Q a → 0 ≤ Nonce x.
Proof. intros H Hx. assert (in_range x) as [? _]; [|done]. eapply (stage_range false (queue t)); [apply H|exact Hx]. Qed.

Lemma good_promote_account al now a : good al (promote_account now a).
Proof.
  intros P Q V t H. eapply twp_mono; [by apply (promote_account_ok P Q V t now a H)|].
  intros r t' (F & _ & p' & q' & v' & H' & Hpr). exists (upd a p' P), (upd a q' Q), (upd a v' V). split_and!; [done|done|].
  intros _ b Hb. unfold upd. case_decide as E; [subst b|done]. eapply promotes_aligned; [|exact Hpr|done].
  intros x. by apply (stage_nonneg P Q V t).
Qed.

Lemma good_promoteExecutables al now (l : list address) : good al (promoteExecutables now l).
Proof.
  induction l as [|a l IH]; cbn [promoteExecutables]; [apply good_ret|]. apply good_bind; [apply good_promote_account|].
  intros r. apply good_bind; [done|]. intros rs. apply good_ret.
Qed.

(** What promotion does to each account. *)
Lemma promoteExecutables_ok now (l : list address) : ∀ P Q V t, pool_ok [] P Q V t → NoDup l →
  twp (promoteExecutables now l) (λ _ t', fixed t' = fixed t ∧ tp_locals t' = tp_locals t ∧ ∃ P' Q' V', pool_ok [] P' Q' V' t' ∧
    (∀ a, a ∈ l → ∃ r, promotes (head_nonce t a) (hs_Balance (currentState t) a) (currentMaxGas t) (P a) (Q a) (V a) r (P' a) (Q' a) (V' a)) ∧
    ∀ a, a ∉ l → P' a = P a ∧ Q' a = Q a ∧ V' a = V a) t.
Proof.
  induction l as [|a l IH]; intros P Q V t H Hnd; cbn [promoteExecutables].
  { tstep. split; [done|]. split; [done|]. exists P, Q, V. split_and!; try done. by intros a ?%not_elem_of_nil. }
  apply NoDup_cons in Hnd as [Ha Hnd]. apply twp_bind. eapply twp_mono; [by apply (promote_account_ok P Q V t now a H)|].
  intros r t1 (F1 & L1 & p' & q' & v' & H1 & Hpr). apply twp_bind. eapply twp_mono; [by apply (IH _ _ _ t1 H1 Hnd)|].
  intros rs t2 (F2 & L2 & P2 & Q2 & V2 & H2 & Hin & Hout). tstep. split_and!; [congruence|congruence|]. exists P2, Q2, V2. split_and!; [done|..].
  - assert (head_nonce t1 = head_nonce t ∧ currentState t1 = currentState t ∧ currentMaxGas t1 = currentMaxGas t) as (E1 & E2 & E3).
    { assert (currentState t1 = currentState t) as E2 by (unfold fixed in F1; congruence). unfold head_nonce. rewrite E2.
      split_and!; [done|done|]. unfold fixed in F1. congruence. }
    rewrite E1, E2, E3 in Hin. intros b [->|Hb]%elem_of_cons.
    + exists r. destruct (Hout a Ha) as (-> & -> & ->). by rewrite !upd_eq.
    + destruct (Hin b Hb) as [rb Hrb]. assert (b ≠ a) by (by intros ->). rewrite !upd_ne in Hrb by done. by exists rb.
  - intros b [Hne Hb]%not_elem_of_cons. destruct (Hout b Hb) as (-> & -> & ->). by rewrite !upd_ne.
Qed.

(** ** Demotion *)

(** What is too old or costs too much leaves; what comes behind a transaction that
    left is queued, and everything is when the first nonce is missing. *)
Definition demotes (N c g : Z) p q p' q' : Prop :=
  let p1 := filter (λ tx, ¬ Nonce tx < N) p in
  let p2 := filter (λ tx, ¬ too_much c g tx ∧ ¬ behind c g p1 tx) p1 in
  ((p' = p2 ∧ (p2 = [] ∨ N ∈ map pNonce p2)) ∨ (p' = [] ∧ N ∉ map pNonce p2)) ∧
  ∀ x, x ∈ q' ↔ x ∈ q ∨ (x ∈ p1 ∧ ¬ too_much c g x ∧ x ∉ p').

Lemma Get_rep n (l : txList) (k : list ptx) : list_rep l k → Get (txs l) n = None ↔ n ∉ map pNonce k.
Proof.
  intros [[[Hs Hi _ _] _] _ _]. unfold Get. rewrite (holds_None _ _ _ Hi). split.
  - intros H (y & E & Hy)%list_elem_of_fmap. by apply (H y Hy).
  - intros H x Hx E. apply H. rewrite <- E. by apply nonce_in.
Qed.

Lemma demotes_parts N c g P Q a p' q' (F : list ptx) t : filed_ok P Q t → StronglySorted nonce_lt (P a) →
  demotes N c g (P a) (Q a) p' q' → (∀ x, x ∈ F ↔ x ∈ P a ∧ (Nonce x < N ∨ too_much c g x)) →
  (∀ x, x ∈ p' ∨ x ∈ q' ↔ (x ∈ P a ∨ x ∈ Q a) ∧ x ∉ F) ∧ (∀ x y, x ∈ p' → y ∈ q' → Nonce x ≠ Nonce y).
Proof.
  intros [_ Ha] Hs [Hp' Hq'] HF. set (p1 := filter (λ tx, ¬ Nonce tx < N) (P a)) in *.
  set (p2 := filter (λ tx, ¬ too_much c g tx ∧ ¬ behind c g p1 tx) p1) in *.
  assert (∀ x, x ∈ p1 ↔ x ∈ P a ∧ ¬ Nonce x < N) as H1 by (intros x; unfold p1; rewrite list_elem_of_filter; tauto).
  assert (∀ x, x ∈ p' → x ∈ p1 ∧ ¬ too_much c g x) as Hsub.
  { intros x. destruct Hp' as [[-> _]|[-> _]]; [|by intros ?%not_elem_of_nil]. unfold p2. rewrite list_elem_of_filter. tauto. }
  assert (∀ x, x ∈ p1 → ¬ too_much c g x → x ∈ p' ∨ x ∉ p') as Hdec.
  { intros x Hx Ht. destruct Hp' as [[-> _]|[-> _]]; [|right; apply not_elem_of_nil]. unfold p2. rewrite list_elem_of_filter.
    destruct (decide (behind c g p1 x)); tauto. }
  split.
  - intros x. rewrite Hq', HF. split.
    + intros [[Hx Ht]%Hsub|[Hx|(Hx & Ht & _)]].
      * apply H1 in Hx. tauto.
      * split; [by right|]. intros [Hx' _]. by apply (Ha a x x).
      * apply H1 in Hx. tauto.
    + intros [[Hx|Hx] Hn]; [|tauto]. assert (x ∈ p1) as Hx1 by (apply H1; tauto). assert (¬ too_much c g x) as Ht by tauto.
      destruct (Hdec x Hx1 Ht); tauto.
  - intros x y Hx. rewrite Hq'. pose proof (Hsub x Hx) as [[Hx1 _]%H1 _]. intros [Hy|([Hy _]%H1 & _ & Hny)]; [by apply (Ha a)|].
    intros E. apply Hny. by rewrite <- (sorted_nonces_inj (P a) x y).
Qed.

Lemma fixed_sender t t' : fixed t' = fixed t → ∀ x, pool_sender x t' = pool_sender x t.
Proof. intros F x. unfold pool_sender. by rewrite (fixed_signer _ _ F). Qed.

(** The first of the gapped transactions is missing: all are queued. *)
Lemma demote_gapped_ok P Q V K t now a (l : txList) (k : list ptx) N : pool_rep [] P Q V K t → list_rep l k → strict l = true →
  (∀ x, x ∈ k → pool_sender x t = a ∧ in_range x ∧ K x) → (∀ x y, x ∈ k → y ∈ Q a → Nonce x ≠ Nonce y) →
  (∀ x, x ∈ Q a → K x) →
  twp (demote_gapped now N l) (λ (l' : txList) t', fixed t' = fixed t ∧ tp_locals t' = tp_locals t ∧ strict l' = true ∧ ∃ k' q,
    list_rep l' k' ∧ ((k' = k ∧ (k = [] ∨ N ∈ map pNonce k)) ∨ (k' = [] ∧ N ∉ map pNonce k)) ∧
    pool_rep [] P (upd a q Q) V K t' ∧ ∀ x, x ∈ q ↔ x ∈ Q a ∨ (x ∈ k ∧ x ∉ k')) t.
Proof.
  intros H Hl Hst Hk Hap HQ. unfold demote_gapped.
  assert (∀ k' : list ptx, (∀ x, x ∈ k → x ∈ k') → pool_rep [] P (upd a (Q a) Q) V K t ∧ ∀ x, x ∈ Q a ↔ x ∈ Q a ∨ (x ∈ k ∧ x ∉ k')) as Hsame.
  { intros k' Hsub. split; [|naive_solver]. eapply pool_rep_ext; [..|exact H]; try done. intros b. symmetry. apply upd_id. }
  destruct (Get (txs l) N) as [z|] eqn:Eg.
  - tstep. split_and!; try done. exists k, (Q a). split; [done|]. split; [|by apply Hsame]. left. split; [done|]. right.
    destruct (decide (N ∈ map pNonce k)) as [|Hn]; [done|]. apply (Get_rep N l k Hl) in Hn. congruence.
  - apply (Get_rep N l k Hl) in Eg. destruct (Nat.ltb_spec 0 (tl_Len l)) as [Hlen|Hlen].
    + destruct (tl_Cap_rep 0 l k Hl) as (l' & E & Hl' & Hst'). eapply twp_bind_out; [exact E|]. cbv beta iota. apply twp_bind, deref_ok.
      rewrite drop_0. apply twp_bind. eapply twp_mono; [apply (requeue_ok [] P V K now a (reverse k) Q t H)|].
      * intros x. rewrite elem_of_reverse. apply Hk.
      * change (NoDup (pNonce <$> reverse k)). rewrite reverse_Permutation. apply sorted_NoDup. by eapply list_rep_sorted.
      * intros x y. rewrite elem_of_reverse. apply Hap.
      * done.
      * intros _ t' (F & L & q & Hq & Hin). tstep. split_and!; [done|done|congruence|]. exists [], q. split; [done|]. split; [by right|].
        split; [done|]. intros x. rewrite Hin, elem_of_reverse, elem_of_nil. tauto.
    + tstep. split_and!; try done. exists k, (Q a). split; [done|]. split; [|by apply Hsame]. left. split; [done|]. left.
      rewrite (list_rep_Len l k Hl) in Hlen. destruct k; [done|]. cbn in Hlen. lia.
Qed.

(** The list of the account is written back. *)
Lemma demoted_ok P Q V t t' a (l l' : txList) p' q' q5 (F : list ptx) N c g : pool_ok [] P Q V t → list_rep l (P a) → fixed t' = fixed t →
  pool_rep [] P (upd a q' (upd a q5 Q)) V (λ x, content P Q x ∧ x ∉ F) t' → demotes N c g (P a) (Q a) p' q' →
  (∀ x, x ∈ F ↔ x ∈ P a ∧ (Nonce x < N ∨ too_much c g x)) → list_rep l' p' ∧ strict l' = true →
  pool_ok [] (upd a p' P) (upd a q' Q) V (set_pending (keep_list a l' (pending t')) t').
Proof.
  intros H Hl Ft [Hp Hn Hq Hqn Hv Hk Hpr] Hdem HF [Hl' Hst]. pose proof (ok_filed _ _ _ _ _ H) as Hf.
  destruct (demotes_parts N c g P Q a p' q' F t Hf (list_rep_sorted l _ Hl) Hdem HF) as [Hin Hap].
  destruct (rearrange P Q a p' q' F t t' Hf (fixed_signer t t' Ft)) as [Hcon [Ho Ha]]; [by intros x [? _]%HF; left|done|done|].
  eapply pool_ok_fixed; [exact H|exact Ft| |constructor; done]. constructor; cbn; try done.
  - by apply stage_keep.
  - by apply no_empty_keep.
  - eapply stage_rep_ext; [|exact Hq]. intros b. unfold upd. by case_decide.
  - intros b l2 Hb. pose proof (Hqn b l2 Hb) as Hne. unfold upd in *. by case_decide.
  - eapply lookup_ok_ext; [|exact Hk]. intros x. by rewrite Hcon.
Qed.

Lemma demote_account_ok P Q V t now a (l : txList) : pool_ok [] P Q V t → list_rep l (P a) → strict l = true →
  twp (demote_account now a l) (λ _ t', fixed t' = fixed t ∧ tp_locals t' = tp_locals t ∧
    ∃ p' q', pool_ok [] (upd a p' P) (upd a q' Q) V t' ∧
      demotes (head_nonce t a) (hs_Balance (currentState t) a) (currentMaxGas t) (P a) (Q a) p' q') t.
Proof.
  intros H Hl Hst. pose proof H as [Hr Hf Hs Hc]. unfold demote_account. tstep.
  assert (∀ x, x ∈ P a → content P Q x) as HP by (intros x Hx; exists a; by left).
  change (hs_Nonce (currentState t) a) with (head_nonce t a). set (N := head_nonce t a).
  apply twp_bind. eapply twp_mono; [apply (weed_ok P Q V _ t a l (P a) Hr Hl HP)|].
  set (c := hs_Balance (currentState t) a). set (g := currentMaxGas t). fold N. set (p1 := filter (λ tx, ¬ Nonce tx < N) (P a)).
  intros [[n inv] l2] t2 (F2 & Lo2 & (F & Hr2 & HF) & Hinv & Hl2 & Hst2). cbn [fst snd] in *. rewrite Hst in *.
  assert (∀ x, x ∈ F ↔ x ∈ P a ∧ (Nonce x < N ∨ too_much c g x)) as HF' by exact HF.
  assert (list_rep l2 (filter (λ tx, ¬ too_much c g tx ∧ ¬ behind c g p1 tx) p1)) as Hl2'.
  { erewrite list_filter_iff; [exact Hl2|]. intros x. naive_solver. }
  clear Hl2. set (p2 := filter (λ tx, ¬ too_much c g tx ∧ ¬ behind c g p1 tx) p1) in *.
  assert (∀ x, x ∈ p1 → ¬ too_much c g x → pool_sender x t = a ∧ in_range x ∧ content P Q x ∧ x ∉ F) as Hgood.
  { intros x. unfold p1. rewrite list_elem_of_filter, HF'. intros [Hge Hx] Ht.
    split; [apply (fo_owner _ _ _ Hf); by left|]. split; [eapply (stage_range true (pending t)); [apply Hr|exact Hx]|]. split; [by apply HP|tauto]. }
  assert (∀ x y, x ∈ p1 → y ∈ Q a → Nonce x ≠ Nonce y) as Hap1.
  { intros x y [_ Hx]%list_elem_of_filter Hy. by apply (fo_apart _ _ _ Hf a). }
  assert (∀ x, x ∈ Q a → content P Q x ∧ x ∉ F) as HQ.
  { intros x Hx. split; [exists a; by right|]. rewrite HF. intros [Hx' _]. by apply (fo_apart _ _ _ Hf a x x). }
  assert (∀ x, x ∈ inv ↔ x ∈ p1 ∧ ¬ too_much c g x ∧ behind c g p1 x) as Hin_inv.
  { intros x. rewrite Hinv, list_elem_of_filter. tauto. }
  apply twp_bind. eapply twp_mono; [apply (requeue_ok [] P V _ now a inv Q t2 Hr2)|].
  { intros x (Hx & Ht & _)%Hin_inv. destruct (Hgood x Hx Ht) as (Es & ? & ?). rewrite (fixed_sender t t2) by congruence. done. }
  { change (NoDup (pNonce <$> inv)). rewrite Hinv. apply sorted_NoDup, sorted_filter, sorted_filter. by eapply list_rep_sorted. }
  { intros x y (Hx & _)%Hin_inv. by apply Hap1. }
  { done. }
  intros _ t3 (F3 & Lo3 & q5 & Hr3 & Hq5).
  assert (∀ x, x ∈ p2 ↔ x ∈ p1 ∧ ¬ too_much c g x ∧ ¬ behind c g p1 x) as Hp2 by (intros x; unfold p2; rewrite list_elem_of_filter; tauto).
  apply twp_bind. eapply twp_mono; [apply (demote_gapped_ok _ _ _ _ t3 now a l2 p2 N Hr3 Hl2'); [congruence|..]|].
  { intros x (Hx & Ht & _)%Hp2. destruct (Hgood x Hx Ht) as (Es & ? & ?). rewrite (fixed_sender t t3) by congruence. done. }
  { intros x y (Hx & _ & Hb)%Hp2. rewrite upd_eq, Hq5. intros [Hy|(Hy & _ & Hb')%Hin_inv]; [by apply Hap1|]. intros E. apply Hb.
    rewrite (sorted_nonces_inj p1 x y); [done|by eapply sorted_filter, list_rep_sorted|done|done|done]. }
  { intros x. rewrite upd_eq, Hq5. intros [Hx|(Hx & Ht & _)%Hin_inv]; [by apply HQ|by apply Hgood]. }
  intros l3 t4 (F4 & Lo4 & Hst3 & p' & q' & Hl3 & Hp' & Hr4 & Hq'). rewrite upd_eq in Hq'.
  assert (demotes N c g (P a) (Q a) p' q') as Hdem.
  { split; [exact Hp'|]. fold p1. intros x. rewrite Hq', Hq5, Hin_inv, Hp2. split; [|destruct (decide (behind c g p1 x)); tauto].
    intros [[?|(Hx & Ht & Hb)]|((Hx & Ht & _) & Hn)]; [by left|right|right; tauto]. split_and!; [done|done|].
    destruct Hp' as [[-> _]|[-> _]]; [rewrite Hp2; tauto|apply not_elem_of_nil]. }
  assert (fixed t4 = fixed t) as F4' by congruence. tstep. split; [exact F4'|]. split; [cbn; congruence|]. exists p', q'. split; [|done].
  eapply demoted_ok; [exact H|done|exact F4'|exact Hr4|exact Hdem|exact HF'|done].
Qed.

Lemma demotes_nil N c g q : demotes N c g [] q [] q.
Proof. split; [left; split; [done|by left]|]. intros x. split; [by left|]. intros [?|(Hx & _)]; [done|]. by apply not_elem_of_nil in Hx. Qed.

(** What demotion does to each account. *)
Lemma demoteUnexecutables_ok now P Q V t : pool_ok [] P Q V t →
  twp (demoteUnexecutables now) (λ _ t', fixed t' = fixed t ∧ tp_locals t' = tp_locals t ∧ ∃ P' Q', pool_ok [] P' Q' V t' ∧
    ∀ a, demotes (head_nonce t a) (hs_Balance (currentState t) a) (currentMaxGas t) (P a) (Q a) (P' a) (Q' a)) t.
Proof.
  intros H. unfold demoteUnexecutables. tstep.
  set (I := λ (es : list (address * txList)) t', NoDup es.*1 ∧ fixed t' = fixed t ∧ tp_locals t' = tp_locals t ∧
    (∀ e, e ∈ es → list_rep e.2 (P e.1) ∧ strict e.2 = true) ∧ ∃ P' Q', pool_ok [] P' Q' V t' ∧
    (∀ a, a ∉ es.*1 → demotes (head_nonce t a) (hs_Balance (currentState t) a) (currentMaxGas t) (P a) (Q a) (P' a) (Q' a)) ∧
    ∀ a, a ∈ es.*1 → P' a = P a ∧ Q' a = Q a).
  eapply twp_mono; [apply (twp_each _ I)|].
  - split_and!; [apply iteration_NoDup|done|done|..].
    + intros e He%in_iteration. pose proof (pp_pending _ _ _ _ _ _ (ok_rep _ _ _ _ _ H) e.1) as Hl. by rewrite He in Hl.
    + exists P, Q. split_and!; [done| |done]. intros a Ha. pose proof (pp_pending _ _ _ _ _ _ (ok_rep _ _ _ _ _ H) a) as Hl.
      destruct (pending t !! a) as [l|] eqn:E; [|rewrite Hl; apply demotes_nil]. exfalso. apply Ha, list_elem_of_fmap.
      exists (a, l). split; [done|]. by apply in_iteration.
  - intros [a l] es s ([Ha Hnd]%NoDup_cons & F & L & He & P' & Q' & H' & Hdone & Hleft). cbn [fst snd] in *.
    destruct (He (a, l)) as [Hl Hst]; [by left|]. destruct (Hleft a) as [EP EQ]; [by left|]. cbn [fst snd] in *. rewrite <- EP in Hl.
    eapply twp_mono; [by apply (demote_account_ok P' Q' V s now a l)|]. intros _ s' (F' & L' & p' & q' & H2 & Hdem).
    assert (currentState s = currentState t ∧ currentMaxGas s = currentMaxGas t) as [E1 E2] by (unfold fixed in F; split; congruence).
    unfold head_nonce in Hdem. rewrite E1, E2, EP, EQ in Hdem. split_and!; [done|congruence|congruence|by intros e ?; apply He; right|].
    exists (upd a p' P'), (upd a q' Q'). split_and!; [done|..].
    + intros b Hb. destruct (decide (b = a)) as [->|Hne]; [by rewrite !upd_eq|]. rewrite !upd_ne by done.
      apply Hdone. by apply not_elem_of_cons.
    + intros b Hb. assert (b ≠ a) by (by intros ->). rewrite !upd_ne by done. apply Hleft. by right.
  - intros u t' (_ & F & L & _ & P' & Q' & H' & Hdone & _). split_and!; [done|done|]. exists P', Q'. split; [done|]. intros a. apply Hdone.
    apply not_elem_of_nil.
Qed.

(** ** The virtual nonces *)

Definition renonced P (V : address → Z) (a : address) : Z := next_nonce (V a) (P a).

Lemma tl_LastElement_rep (l : txList) k z : list_rep l k → last k = Some z →
  ∃ l' : txList, tl_LastElement l = Ret (z, l') ∧ list_rep l' k ∧ strict l' = strict l.
Proof.
  intros H E. pose proof (LastElement_rep (txs l) k (lr_rep _ _ H)) as Hl. rewrite E in Hl. destruct Hl as (m & Em & Hm).
  unfold tl_LastElement. rewrite Em. eexists. split; [done|]. split; [|done]. by apply (list_rep_sub l m k).
Qed.

Lemma update_nonces_ok P Q V t : pool_ok [] P Q V t →
  twp update_nonces (λ _ t', fixed t' = fixed t ∧ tp_locals t' = tp_locals t ∧ pool_ok [] P Q (renonced P V) t') t.
Proof.
  intros H. unfold update_nonces. tstep.
  set (I := λ (es : list (address * txList)) t', NoDup es.*1 ∧ fixed t' = fixed t ∧ tp_locals t' = tp_locals t ∧
    (∀ e, e ∈ es → list_rep e.2 (P e.1) ∧ strict e.2 = true ∧ P e.1 ≠ []) ∧ ∃ V', pool_ok [] P Q V' t' ∧
    (∀ a, a ∉ es.*1 → V' a = renonced P V a) ∧ ∀ a, a ∈ es.*1 → V' a = V a).
  eapply twp_mono; [apply (twp_each _ I)|].
  - split_and!; [apply iteration_NoDup|done|done|..].
    + intros e He%in_iteration. pose proof (pp_pending _ _ _ _ _ _ (ok_rep _ _ _ _ _ H) e.1) as Hl. rewrite He in Hl.
      destruct Hl. split_and!; try done. by eapply (pp_no_empty _ _ _ _ _ _ (ok_rep _ _ _ _ _ H)).
    + exists V. split_and!; [done| |done]. intros a Ha. pose proof (pp_pending _ _ _ _ _ _ (ok_rep _ _ _ _ _ H) a) as Hl.
      destruct (pending t !! a) as [l|] eqn:E; [|unfold renonced; by rewrite Hl]. exfalso. apply Ha, list_elem_of_fmap.
      exists (a, l). split; [done|]. by apply in_iteration.
  - intros [a l] es s ([Ha Hnd]%NoDup_cons & F & L & He & V' & H' & Hdone & Hleft). cbn [fst snd] in *.
    destruct (He (a, l)) as (Hl & Hst & Hne); [by left|]. cbn [fst snd] in *.
    destruct (last (P a)) as [z|] eqn:Elast; [|by apply last_None in Elast].
    destruct (tl_LastElement_rep l (P a) z Hl Elast) as (l' & E & Hl' & Hst'). eapply twp_bind_out; [exact E|]. tstep. tstep.
    split_and!; [done|done|done|by intros e ?; apply He; right|]. exists (upd a (u64 (Nonce z + 1)) V').
    destruct H' as [[Hp Hn Hq Hqn Hv Hk Hpr] [Ho Hap] Hs Hc]. split_and!.
    + constructor; [constructor; cbn; try done|constructor; done|done|done].
      * eapply stage_rep_ext; [apply (upd_id a)|]. apply stage_insert; [done|done|congruence].
      * intros b l2. destruct (decide (b = a)) as [->|]; [done|]. rewrite lookup_insert_ne by done. apply Hn.
      * intros b. rewrite noncer_set_val. unfold upd. by rewrite Hv.
    + intros b Hb. destruct (decide (b = a)) as [->|Hb']; [rewrite upd_eq; unfold renonced, next_nonce; by rewrite Elast|].
      rewrite upd_ne by done. apply Hdone. by apply not_elem_of_cons.
    + intros b Hb. rewrite upd_ne by (by intros ->). apply Hleft. by right.
  - intros u t' (_ & F & L & _ & V' & [Hr Hf Hs Hc] & Hdone & _). split_and!; [done|done|]. constructor; [|done|done|done].
    eapply pool_rep_ext; [..|exact Hr]; try done. intros a. apply Hdone, not_elem_of_nil.
Qed.
End Move.
