(* ===== verification/TxPoolLimits.v ===== *)
(** * The limit on pending transactions

    [truncatePending] cuts the pending lists of the accounts that are not local to a
    common length: the greatest one, above the guaranteed slots of an account, at
    which the pool is within its limit. *)
From stdpp Require Import sorting.
From S2P Require Import Prelude Common RlpEncode StateObject StateDB TeWakaVm Consensus StateTransition.
From S2P Require Import Transaction TxSigning Heap TxList TxListSpec TxOrder TxPriced TxPricedSpec TxPool TxPoolLogic TxPoolSpec TxPoolMove.
Import Crypto.

#[export] Instance prque_order : WeakOrder prque_less.
Proof. constructor; unfold prque_less; intros; lia. Qed.

Section Limits.
Context {B : Backend} {R : Recover} {MO : MapOrder}.
Implicit Types tx x y z w o : ptx.
Implicit Types p q r : list ptx.

Lemma pool_ok_ext P Q V P' Q' V' t : (∀ a, P a = P' a) → (∀ a, Q a = Q' a) → (∀ a, V a = V' a) →
  pool_ok [] P Q V t → pool_ok [] P' Q' V' t.
Proof.
  intros EP EQ EV [Hr [Ho Ha] Hs Hc]. constructor; try done.
  - eapply pool_rep_ext; [..|exact Hr]; try done. intros x. unfold content. by setoid_rewrite EP; setoid_rewrite EQ.
  - constructor; intros a; rewrite <- EP, <- EQ; [apply Ho|apply Ha].
Qed.

(** ** One round *)

(** The virtual nonce when a list is cut after [k]. *)
Definition cut_nonce (k : nat) p (v : Z) : Z := match (p !! k : option ptx) with None => v | Some x => Z.min v (Nonce x) end.

Lemma trim_ok P Q V t a : pool_ok [] P Q V t → (2 ≤ length (P a))%nat → let k := (length (P a) - 1)%nat in
  twp (trim a) (λ _ t', fixed t' = fixed t ∧ tp_locals t' = tp_locals t ∧
    pool_ok [] (upd a (take k (P a)) P) Q (upd a (cut_nonce k (P a) (V a)) V) t') t.
Proof.
  intros H Hlen k. pose proof H as [Hr Hf _ _]. pose proof Hr as [Hp Hn Hq Hqn Hv Hk Hpr]. unfold trim. tstep.
  pose proof (Hp a) as Hl. destruct (pending t !! a) as [l|]; [|rewrite Hl in Hlen; cbn in Hlen; lia]. destruct Hl as [Hl Hst].
  eapply twp_bind_opt; [done|]. rewrite (list_rep_Len l (P a) Hl). destruct (Nat.eqb_spec (length (P a)) 0); [lia|]. fold k.
  destruct (tl_Cap_rep k l (P a) Hl) as (l' & E & Hl' & Hst'). eapply twp_bind_out; [exact E|]. tstep.
  apply twp_bind, deref_ok.
  destruct (lookup_lt_is_Some_2 (P a) k ltac:(lia)) as [z Ez].
  assert (drop k (P a) = [z]) as -> by (rewrite (drop_S _ z k Ez), drop_ge by lia; done).
  assert (z ∈ P a) as Hz by (by eapply list_elem_of_lookup_2).
  cbn [reverse each rev_append]. change (reverse [z]) with [z]. cbn [each length]. apply twp_bind, twp_bind. do 3 tstep.
  set (t1 := set_nonces _ _).
  assert (∀ x, x ∈ take k (P a) ↔ x ∈ P a ∧ x ≠ z) as Htk.
  { intros x. assert (P a = take k (P a) ++ [z]) as Ep.
    { rewrite <- (take_drop k (P a)) at 1. by rewrite (drop_S _ z k Ez), drop_ge by lia. }
    pose proof (stage_sorted _ _ _ a Hp) as Hs. rewrite Ep in Hs. rewrite Ep at 2. rewrite elem_of_app, list_elem_of_singleton.
    split; [|tauto]. intros Hx. split; [by left|]. intros ->.
    assert (nonce_lt z z) as Hzz by (eapply StronglySorted_app_1_elem_of; [exact Hs|done|by left]). unfold nonce_lt in Hzz. lia. }
  destruct (rearrange P Q a (take k (P a)) (Q a) [z] t t1 Hf eq_refl) as [Hcon [Ho Ha]].
  { intros x ->%list_elem_of_singleton. by left. }
  { intros x. rewrite Htk, list_elem_of_singleton. split; [|tauto]. intros [?|Hx]; [tauto|]. split; [tauto|]. intros ->.
    by apply (fo_apart _ _ _ Hf a z z). }
  { intros x y [Hx _]%Htk. by apply (fo_apart _ _ _ Hf a). }
  assert (pool_rep [] (upd a (take k (P a)) P) Q (upd a (cut_nonce k (P a) (V a)) V) (content (upd a (take k (P a)) P) Q) t1) as Hr1.
  { constructor; try done.
    - apply stage_insert; [done|done|congruence].
    - apply no_empty_insert; [done|]. intros En. apply (f_equal length) in En. rewrite length_take in En. cbn in En. lia.
    - intros b. unfold t1. cbn. rewrite noncer_setIfLower_val. unfold upd, cut_nonce. rewrite Ez, !Hv. done.
    - eapply lookup_ok_ext; [|apply lk_Remove_ok, Hk]. intros x. cbn.
      assert (content (upd a (take k (P a)) P) Q x ↔ content (upd a (take k (P a)) P) (upd a (Q a) Q) x) as -> by (unfold content; by setoid_rewrite (upd_id a Q)).
      rewrite Hcon. pose proof (forgotten _ _ [z] Hk) as Hfo. setoid_rewrite list_elem_of_singleton in Hfo.
      specialize (Hfo ltac:(by intros y ->; exists a; left) x). rewrite list_elem_of_singleton. naive_solver.
    - eapply priced_ok_sub; [exact Hpr|]. intros h x. apply lk_Remove_remotes. }
  eapply twp_mono; [by apply price_rep|]. intros _ t2 (F2 & L2 & Hr2). split_and!; [by rewrite F2|by rewrite L2|].
  eapply pool_ok_fixed; [exact H|by rewrite F2|done|]. constructor.
  - intros b x Hx. rewrite (fixed_sender t1 t2 F2). apply Ho. by rewrite upd_id.
  - intros b x y Hx Hy. apply (Ha b); [done|]. by rewrite upd_id.
Qed.

Lemma trim_each Q (who : list address) : ∀ P V t, pool_ok [] P Q V t → NoDup who → (∀ a, a ∈ who → (2 ≤ length (P a))%nat) →
  twp (each trim who) (λ _ t', fixed t' = fixed t ∧ tp_locals t' = tp_locals t ∧
    pool_ok [] (λ a, if decide (a ∈ who) then take (length (P a) - 1) (P a) else P a) Q
      (λ a, if decide (a ∈ who) then cut_nonce (length (P a) - 1) (P a) (V a) else V a) t') t.
Proof.
  induction who as [|a who IH]; intros P V t H Hnd Hlen; cbn [each].
  { tstep. split; [done|]. split; [done|]. eapply pool_ok_ext; [..|exact H]; try done; intros a; by rewrite decide_False by apply not_elem_of_nil. }
  apply NoDup_cons in Hnd as [Ha Hnd]. apply twp_bind. eapply twp_mono; [apply (trim_ok P Q V t a H); apply Hlen; by left|].
  intros _ t1 (F1 & L1 & H1). eapply twp_mono; [apply (IH _ _ t1 H1 Hnd)|].
  { intros b Hb. rewrite upd_ne by (by intros ->). apply Hlen. by right. }
  intros _ t2 (F2 & L2 & H2). split; [congruence|]. split; [congruence|]. eapply pool_ok_ext; [..|exact H2]; [|done|]; intros b; cbn.
  all: destruct (decide (b = a)) as [->|Hne]; [rewrite (decide_False (P := a ∈ who)), (decide_True (P := a ∈ a :: who)), upd_eq by (done || by left); done|].
  all: rewrite !upd_ne by done; destruct (decide (b ∈ who)); [rewrite decide_True by (by right); done|].
  all: rewrite decide_False; [done|]; by apply not_elem_of_cons.
Qed.

(** ** A common length *)

(** The lists of accounts that are not local cut to [m], and the virtual nonces. *)
Definition cut_to (loc : address → bool) (m : nat) P (a : address) : list ptx := if loc a then P a else take m (P a).
Definition cut_nonces (loc : address → bool) (m : nat) P V (a : address) : Z := if loc a then V a else cut_nonce m (P a) (V a).

Definition total (addrs : list address) P : Z := foldr (λ a n, zlen (P a : list ptx) + n) 0 addrs.

Lemma total_same addrs P P' : (∀ a, a ∈ addrs → zlen (P a) = zlen (P' a)) → total addrs P = total addrs P'.
Proof.
  induction addrs as [|a l IH]; intros H; [done|]. change (zlen (P a) + total l P = zlen (P' a) + total l P').
  rewrite (H a) by (by left). rewrite IH; [done|]. intros b Hb. apply H. by right.
Qed.

(** A round takes one transaction off each of [who]. *)
Lemma total_round addrs (who : list address) P P' : NoDup addrs → NoDup who → (∀ a, a ∈ who → a ∈ addrs) →
  (∀ a, zlen (P a) = zlen (P' a) + (if decide (a ∈ who) then 1 else 0)) → total addrs P = total addrs P' + zlen who.
Proof.
  intros Hnd Hw Hsub HP.
  assert (∀ l, total l P = total l P' + zlen (filter (λ a, a ∈ who) l)) as Hl.
  { induction l as [|a l IH]; [done|]. change (total (a :: l) P) with (zlen (P a) + total l P).
    change (total (a :: l) P') with (zlen (P' a) + total l P'). rewrite IH, filter_cons, (HP a). case_decide; unfold zlen; cbn [length]; lia. }
  rewrite Hl. f_equal. unfold zlen. f_equal. apply Permutation_length, NoDup_Permutation; [by apply NoDup_filter|done|].
  intros a. rewrite list_elem_of_filter. naive_solver.
Qed.

Lemma cut_to_length loc m P a : loc a = false → length (cut_to loc m P a) = (m `min` length (P a))%nat.
Proof. intros H. unfold cut_to. rewrite H. apply length_take. Qed.

Section Cut.
Context (P0 Q0 : address → list ptx) (V0 : address → Z) (loc : address → bool) (addrs : list address) (t0 : TxPool).
Context (Haddrs : NoDup addrs) (Hsorted : ∀ a, StronglySorted nonce_lt (P0 a)).

(** The pool when the lists are cut to [m]; [count] is what the code counts. *)
Record at_level (m : nat) (count : Z) (t : TxPool) : Prop := AtLevel {
  lv_ok : pool_ok [] (cut_to loc m P0) Q0 (cut_nonces loc m P0 V0) t;
  lv_fixed : fixed t = fixed t0;
  lv_locals : tp_locals t = tp_locals t0;
  lv_count : count = total addrs (cut_to loc m P0)
}.

(** [who] are the accounts with more than [thr] transactions. *)
Record offending (who : list address) (m thr : nat) : Prop := Offending {
  of_nodup : NoDup who;
  of_sub : ∀ a, a ∈ who → a ∈ addrs;
  of_long : ∀ a, a ∈ who → loc a = false ∧ (m ≤ length (P0 a))%nat;
  of_rest : ∀ a, loc a = false → a ∉ who → (length (P0 a) ≤ thr)%nat
}.

Lemma cut_nonce_step k p v : StronglySorted nonce_lt p → (k < length p)%nat → cut_nonce k (take (S k) p) (cut_nonce (S k) p v) = cut_nonce k p v.
Proof.
  intros Hs Hk. unfold cut_nonce. rewrite lookup_take_lt by lia. destruct (lookup_lt_is_Some_2 p k Hk) as [x Ex]. rewrite Ex.
  destruct (p !! S k) as [y|] eqn:Ey; [|done]. assert (nonce_lt x y) as Hxy.
  { rewrite <- (take_drop (S k) p) in Hs. eapply StronglySorted_app_1_elem_of; [exact Hs|..].
    - apply elem_of_take. exists k. split; [done|lia].
    - eapply (list_elem_of_lookup_2 _ 0). by rewrite lookup_drop, Nat.add_0_r. }
  unfold nonce_lt in Hxy. lia.
Qed.

Lemma round_ok who k thr count t : at_level (S k) count t → offending who (S k) thr → (1 ≤ thr ≤ k)%nat →
  twp (each trim who) (λ _, at_level k (count - zlen who)) t.
Proof.
  intros [Hok F L Hc] [Hnd Hsub Hlong Hrest] Hthr.
  assert (∀ a, a ∈ who → loc a = false ∧ length (cut_to loc (S k) P0 a) = S k) as Hlen.
  { intros a Ha. destruct (Hlong a Ha) as [El Hle]. split; [done|]. rewrite cut_to_length by done. lia. }
  assert (∀ a, a ∉ who → loc a = false → (length (P0 a) ≤ k)%nat) as Hshort by (intros a Ha El; specialize (Hrest a El Ha); lia).
  eapply twp_mono; [apply (trim_each Q0 who _ _ t Hok Hnd)|].
  { intros a Ha. destruct (Hlen a Ha) as [_ ->]. lia. }
  intros _ t' (F' & L' & H'). constructor; [|congruence|congruence|].
  - eapply pool_ok_ext; [..|exact H']; [|done|]; intros a; cbn; destruct (decide (a ∈ who)) as [Ha|Ha].
    + destruct (Hlen a Ha) as [El ->]. unfold cut_to. rewrite El, take_take. f_equal. lia.
    + unfold cut_to. destruct (loc a) eqn:El; [done|]. rewrite !take_ge; [done|..]; specialize (Hshort a Ha El); lia.
    + destruct (Hlen a Ha) as [El ->]. destruct (Hlong a Ha) as [_ Hle]. unfold cut_nonces, cut_to. rewrite El.
      replace (S k - 1)%nat with k by lia. apply cut_nonce_step; [done|lia].
    + unfold cut_nonces. destruct (loc a) eqn:El; [done|]. unfold cut_nonce.
      rewrite !lookup_ge_None_2; [done|..]; specialize (Hshort a Ha El); lia.
  - rewrite (total_round addrs who (cut_to loc (S k) P0) (cut_to loc k P0)) in Hc; [lia|done|done|done|].
    intros a. unfold zlen. destruct (decide (a ∈ who)) as [Ha|Ha].
    + destruct (Hlong a Ha) as [El Hle]. rewrite !cut_to_length by done. lia.
    + destruct (loc a) eqn:El; [unfold cut_to; rewrite El; lia|]. specialize (Hshort a Ha El). rewrite !cut_to_length by done. lia.
Qed.

Lemma pending_len_ok m count t a : at_level m count t → cut_to loc m P0 a ≠ [] →
  twp (pending_len a) (λ n t', t' = t ∧ n = zlen (cut_to loc m P0 a)) t.
Proof.
  intros [[Hr _ _ _] _ _ _] Hne. unfold pending_len. tstep. pose proof (pp_pending _ _ _ _ _ _ Hr a) as Hl.
  destruct (pending t !! a) as [l|]; [|done]. eapply twp_bind_opt; [done|]. tstep. destruct Hl as [Hl _]. by rewrite (list_rep_Len l _ Hl).
Qed.

Definition limit : Z := GlobalSlots (tp_config t0).

(** The lists are cut no further than the limit requires. *)
Lemma shrink_ok ref who thr : ref ∈ who → (1 ≤ thr)%nat → ∀ fuel m count t,
  at_level m count t → offending who m thr → (thr ≤ m)%nat → (m - thr ≤ fuel)%nat →
  twp (shrink fuel ref (Z.of_nat thr) who count) (λ count' t', ∃ m', at_level m' count' t' ∧ (thr ≤ m' ≤ m)%nat ∧
    (count' ≤ limit ∨ m' = thr) ∧ (m' = m ∨ limit < total addrs (cut_to loc (S m') P0))) t.
Proof.
  intros Href Hthr fuel. induction fuel as [|fuel IH]; intros m count t H Hof Hm Hfuel; cbn [shrink]; tstep.
  all: assert (GlobalSlots (tp_config t) = limit) as -> by (pose proof (lv_fixed _ _ _ H) as F; unfold limit, fixed in *; congruence).
  all: destruct (Z.ltb_spec limit count) as [Hlt|Hge]; cbn [negb]; [|tstep; exists m; split; [done|]; split; [lia|]; split; [by left|by left]].
  all: destruct (of_long _ _ _ Hof ref Href) as [El Hlong]; pose proof (cut_to_length loc m P0 ref El) as Hlen.
  all: rewrite Nat.min_l in Hlen by lia; apply twp_bind; eapply twp_mono;
    [apply (pending_len_ok m count t ref H); intros En; rewrite En in Hlen; cbn in Hlen; lia|].
  all: intros len ? [-> ->]; unfold zlen; rewrite Hlen; destruct (Z.ltb_spec (Z.of_nat thr) (Z.of_nat m)); cbn [negb];
    [|tstep; exists m; split; [done|]; split; [lia|]; split; [right; lia|by left]].
  { lia. }
  destruct m as [|k]; [lia|]. apply twp_bind. eapply twp_mono; [apply (round_ok who k thr count t H Hof); lia|]. intros ? t1 H1.
  eapply twp_mono; [apply (IH k _ t1 H1); [|lia|lia]|].
  { destruct Hof as [Hnd Hsub Hl Hr]. constructor; try done. intros b Hb. destruct (Hl b Hb). split; [done|lia]. }
  intros count' t' (m' & H' & Hm' & Hend & Hfar). exists m'. split_and!; [done|lia|lia|done|]. right.
  destruct Hfar as [->|]; [|done]. by rewrite <- (lv_count _ _ _ H).
Qed.

(** ** Levelling the largest accounts *)

Context (slots : nat) (Hslots : (1 ≤ slots)%nat).

Lemma total_elem P a : a ∈ addrs → zlen (P a) ≤ total addrs P.
Proof.
  clear. induction addrs as [|b l IH]; [by intros ?%not_elem_of_nil|]. change (total (b :: l) P) with (zlen (P b) + total l P).
  pose proof (zlen_nonneg (P b)). assert (0 ≤ total l P).
  { clear. induction l as [|c l IH]; [done|]. change (total (c :: l) P) with (zlen (P c) + total l P). pose proof (zlen_nonneg (P c)). lia. }
  intros [->|Ha]%elem_of_cons; [lia|]. specialize (IH Ha). lia.
Qed.

Lemma at_level_same m m' count t : (∀ a, loc a = false → (length (P0 a) ≤ m)%nat ∧ (length (P0 a) ≤ m')%nat) →
  at_level m count t → at_level m' count t.
Proof.
  intros Hle [H F L Hc]. assert (∀ a, cut_to loc m P0 a = cut_to loc m' P0 a) as E.
  { intros a. unfold cut_to. destruct (loc a) eqn:El; [done|]. destruct (Hle a El). by rewrite !take_ge. }
  constructor; [|done|done|].
  - eapply pool_ok_ext; [exact E|done| |exact H]. intros a. unfold cut_nonces, cut_nonce. destruct (loc a) eqn:El; [done|].
    destruct (Hle a El). by rewrite !lookup_ge_None_2.
  - rewrite Hc. apply total_same. intros a _. by rewrite E.
Qed.

(** No list is cut, or one more transaction of each would be too much. *)
Definition tight (m : nat) : Prop := (∀ a, cut_to loc m P0 a = P0 a) ∨ limit < total addrs (cut_to loc (S m) P0).

Lemma tight_same m' : (∀ a, loc a = false → (length (P0 a) ≤ m')%nat) → tight m'.
Proof. intros Hle. left. intros a. unfold cut_to. destruct (loc a) eqn:El; [done|]. apply take_ge. by apply Hle. Qed.

Record levelling (spammers : list (address * Z)) (offenders : list address) (m : nat) : Prop := Levelling {
  le_heap : is_heap prque_less spammers;
  le_nodup : NoDup (offenders ++ spammers.*1);
  le_sub : ∀ a, a ∈ offenders ++ spammers.*1 → a ∈ addrs;
  le_spam : ∀ e, e ∈ spammers → loc e.1 = false ∧ e.2 = zlen (P0 e.1) ∧ (slots < length (P0 e.1) ≤ m)%nat;
  le_off : ∀ a, a ∈ offenders → loc a = false ∧ (slots < m ≤ length (P0 a))%nat;
  le_rest : ∀ a, loc a = false → a ∉ offenders ++ spammers.*1 → (length (P0 a) ≤ slots)%nat;
  le_tight : tight m
}.

(** Taking the next offender [x]: those before it have more transactions. *)
Lemma levelling_pop spammers (x : address * Z) rest offenders m : levelling spammers offenders m →
  spammers ≡ₚ x :: rest → (∀ b, b ∈ rest → prque_less b x = false) →
  (offenders ≠ [] → offending offenders m (length (P0 x.1))) ∧
  (∀ b, b ∈ rest → (length (P0 b.1) ≤ length (P0 x.1))%nat) ∧ (slots < length (P0 x.1) ≤ m)%nat.
Proof.
  intros [_ Hnd Hsub Hspam Hoff Hrest _] Hp Hmin.
  assert (∀ b, b ∈ rest → (length (P0 b.1) ≤ length (P0 x.1))%nat) as Hle.
  { intros b Hb. specialize (Hmin b Hb). unfold prque_less in Hmin. apply Z.ltb_ge in Hmin.
    destruct (Hspam x) as (_ & E1 & _); [rewrite Hp; by left|]. destruct (Hspam b) as (_ & E2 & _); [rewrite Hp; by right|].
    unfold zlen in *. lia. }
  destruct (Hspam x) as (_ & _ & Hx); [rewrite Hp; by left|]. split; [|split; [exact Hle|exact Hx]].
  intros Hne. constructor.
  - by apply NoDup_app in Hnd as [? _].
  - intros a Ha. apply Hsub, elem_of_app. by left.
  - intros a Ha. destruct (Hoff a Ha) as [El [_ ?]]. done.
  - intros a El Ha. destruct (decide (a ∈ spammers.*1)) as [Hin|Hout].
    + apply list_elem_of_fmap in Hin as (e & -> & He). rewrite Hp in He. apply elem_of_cons in He as [->|He]; [done|by apply Hle].
    + assert (length (P0 a) ≤ slots)%nat; [|lia]. apply Hrest; [done|]. rewrite elem_of_app. tauto.
Qed.

(** With [x] among the offenders, at its length. *)
Lemma levelling_next spammers (x : address * Z) rest offenders m : levelling spammers offenders m →
  spammers ≡ₚ x :: rest → is_heap prque_less rest → (∀ b, b ∈ rest → prque_less b x = false) →
  (∀ a, a ∈ offenders → (length (P0 x.1) ≤ length (P0 a))%nat) → tight (length (P0 x.1)) →
  levelling rest (offenders ++ [x.1]) (length (P0 x.1)).
Proof.
  intros H Hp Hheap Hmin Ho Ht. destruct (levelling_pop _ _ _ _ _ H Hp Hmin) as (_ & Hle & Hx). destruct H as [_ Hnd Hsub Hspam Hoff Hrest _].
  assert (offenders ++ spammers.*1 ≡ₚ (offenders ++ [x.1]) ++ rest.*1) as Hperm by (rewrite Hp, <- app_assoc; done).
  constructor; try done.
  - by rewrite <- Hperm.
  - intros a. rewrite <- Hperm. apply Hsub.
  - intros e He. destruct (Hspam e) as (? & ? & ?); [rewrite Hp; by right|]. specialize (Hle e He). split_and!; (done || lia).
  - intros a [Ha| ->%list_elem_of_singleton]%elem_of_app.
    + destruct (Hoff a Ha) as [El _]. specialize (Ho a Ha). split; [done|lia].
    + destruct (Hspam x) as (El & _); [rewrite Hp; by left|]. split; [done|lia].
  - intros a El Ha. apply Hrest; [done|]. by rewrite Hperm.
Qed.

Lemma level_ok fuel : ∀ spammers offenders m count t, at_level m count t → levelling spammers offenders m → (slots ≤ m)%nat →
  (length spammers ≤ fuel)%nat →
  twp (level fuel spammers offenders count) (λ oc t', ∃ m', at_level m' oc.2 t' ∧ (slots ≤ m')%nat ∧ tight m' ∧
    (oc.2 ≤ limit ∨ offending oc.1 m' slots)) t.
Proof.
  induction fuel as [|fuel IH]; intros spammers offenders m count t H Hl Hm Hfuel.
  all: assert (levelling [] offenders m → offending offenders m slots) as Hempty
    by (intros [_ Hnd Hsub _ Hoff Hrest _]; rewrite app_nil_r in *; constructor; [done|done|intros a Ha; destruct (Hoff a Ha) as [? [? ?]]; done|done]).
  { destruct spammers; [|cbn in Hfuel; lia]. cbn [level]. do 2 tstep. exists m. split_and!; [done|done|apply Hl|]. right. by apply Hempty. }
  cbn [level]. tstep.
  assert (GlobalSlots (tp_config t) = limit) as -> by (pose proof (lv_fixed _ _ _ H) as F; unfold limit, fixed in *; congruence).
  destruct spammers as [|x0 sp0] eqn:Esp. { tstep. exists m. split_and!; [done|done|apply Hl|]. right. by apply Hempty. }
  destruct (Z.ltb_spec limit count) as [Hlt|Hge]; cbn [negb]; [|tstep; exists m; split_and!; [done|done|apply Hl|by left]].
  destruct (Pop_spec prque_less (x0 :: sp0) x0 sp0 (le_heap _ _ _ Hl) eq_refl) as (rest & Epop & Hheap & Hperm & Hmin).
  eapply twp_bind_out; [exact Epop|]. cbv beta iota.
  destruct (levelling_pop _ _ _ _ _ Hl Hperm Hmin) as (Hof & Hle & Hx). set (n := length (P0 x0.1)) in *.
  assert (length rest ≤ fuel)%nat as Hf'. { apply Permutation_length in Hperm. cbn in Hperm, Hfuel. lia. }
  apply twp_bind. apply (twp_mono _ (λ count' t', ∃ m', at_level m' count' t' ∧ (n ≤ m')%nat ∧ tight m' ∧
    (count' ≤ limit ∨ (m' = n ∧ ∀ a, a ∈ offenders → (n ≤ length (P0 a))%nat)))).
  - destruct (last offenders) as [prev|] eqn:Elast.
    + assert (prev ∈ offenders) as Hprev by (by apply last_Some_elem_of). specialize (Hof ltac:(by intros ->)).
      assert (loc x0.1 = false) as Elx by (apply (le_spam _ _ _ Hl); by left).
      pose proof (cut_to_length loc m P0 x0.1 Elx) as Hlx. fold n in Hlx. rewrite Nat.min_r in Hlx by lia.
      apply twp_bind. eapply twp_mono; [apply (pending_len_ok m count t x0.1 H); intros En; rewrite En in Hlx; cbn in Hlx; lia|].
      intros thr ? [-> ->]. unfold zlen. rewrite Hlx. eapply twp_mono; [apply (shrink_ok prev offenders n Hprev ltac:(lia) _ m count t H Hof)|].
      * lia.
      * destruct (of_long _ _ _ Hof prev Hprev) as [Elp Hlp]. pose proof (cut_to_length loc m P0 prev Elp) as Hcl. rewrite Nat.min_l in Hcl by lia.
        pose proof (total_elem (cut_to loc m P0) prev (of_sub _ _ _ Hof prev Hprev)) as Htot. unfold zlen in Htot.
        rewrite (lv_count _ _ _ H). lia.
      * intros count' t' (m' & H' & Hm' & Hend & Hfar). exists m'. split_and!; [done|lia|..].
        -- destruct Hfar as [ ->|Hfar]; [apply Hl|by right].
        -- destruct Hend as [|Em]; [by left|]. right. split; [done|]. intros a Ha. destruct (of_long _ _ _ Hof a Ha). lia.
    + apply last_None in Elast as ->. assert (∀ a, loc a = false → (length (P0 a) ≤ n)%nat) as Hall.
      { intros a El. destruct (decide (a ∈ (x0 :: sp0).*1)) as [(e & -> & He)%list_elem_of_fmap|Hout].
        - rewrite Hperm in He. apply elem_of_cons in He as [->|He]; [done|by apply Hle].
        - pose proof (le_rest _ _ _ Hl a El Hout). lia. }
      tstep. exists n. split_and!.
      * apply (at_level_same m n); [|done]. intros a El. specialize (Hall a El). split; [lia|done].
      * done.
      * by apply tight_same.
      * right. split; [done|]. by intros a ?%not_elem_of_nil.
  - intros count' t' (m' & H' & Hm' & Ht & [Hend|[-> Hofn]]).
    + destruct fuel as [|fuel']; cbn [level]; tstep;
      (assert (GlobalSlots (tp_config t') = limit) as -> by (pose proof (lv_fixed _ _ _ H') as F; unfold limit, fixed in *; congruence));
      (destruct (Z.ltb_spec limit count'); [lia|]); cbn [negb]; destruct rest; tstep; exists m'; split_and!; (done || lia || by left).
    + apply IH with n; [done| |lia|done]. apply (levelling_next _ x0 rest offenders m Hl Hperm Hheap Hmin); [exact Hofn|exact Ht].
Qed.
End Cut.

(** ** The count *)

Lemma total_Permutation (l l' : list address) P : l ≡ₚ l' → total l P = total l' P.
Proof.
  induction 1 as [|a l l' _ IH|a b l|l1 l2 l3 _ IH1 _ IH2]; [done|..|congruence].
  - change (zlen (P a) + total l P = zlen (P a) + total l' P). by rewrite IH.
  - change (zlen (P b) + (zlen (P a) + total l P) = zlen (P a) + (zlen (P b) + total l P)). lia.
Qed.

Lemma total_nonempty (l : list address) P : total l P = total (filter (λ a, (0 < length (P a))%nat) l) P.
Proof.
  induction l as [|a l IH]; [done|]. rewrite filter_cons. change (total (a :: l) P) with (zlen (P a) + total l P). rewrite IH.
  case_decide; [done|]. unfold zlen. destruct (length (P a)); lia.
Qed.

Lemma count_txs_total P Q V K t addrs : pool_rep [] P Q V K t → NoDup addrs → (∀ a, P a ≠ [] → a ∈ addrs) →
  count_txs (pending t) = total addrs P.
Proof.
  intros [Hp Hn _ _ _ _ _] Hnd Hin. assert (count_txs (pending t) = total (iteration (map_to_list (pending t))).*1 P) as ->.
  { unfold count_txs. assert (∀ es n, (∀ e, e ∈ es → pending t !! e.1 = Some e.2) →
      fold_left (λ n (e : address * txList), n + Z.of_nat (tl_Len e.2)) es n = n + total es.*1 P) as Hfold.
    { induction es as [|e es IH]; intros n He; cbn [fold_left fmap list_fmap]; [unfold total; cbn; lia|].
      change (total (e.1 :: es.*1) P) with (zlen (P e.1) + total es.*1 P). rewrite IH by (intros e' ?; apply He; by right).
      pose proof (Hp e.1) as Hl. rewrite (He e) in Hl by (by left). destruct Hl as [Hl _]. rewrite (list_rep_Len _ _ Hl). unfold zlen. lia. }
    rewrite Hfold; [lia|]. intros e. apply in_iteration. }
  rewrite (total_nonempty addrs), (total_nonempty (iteration _).*1). apply total_Permutation, NoDup_Permutation.
  - apply NoDup_filter, iteration_NoDup.
  - by apply NoDup_filter.
  - intros a. rewrite !list_elem_of_filter. split; intros [Hlen _]; (split; [done|]).
    + apply Hin. intros E. rewrite E in Hlen. cbn in Hlen. lia.
    + pose proof (Hp a) as Hl. destruct (pending t !! a) as [l|] eqn:E; [|rewrite Hl in Hlen; cbn in Hlen; lia].
      apply list_elem_of_fmap. exists (a, l). split; [done|]. by apply in_iteration.
Qed.

(** ** The heap of the largest accounts *)

Lemma push_all (f : address * txList → bool) (g : address * txList → address * Z) es : ∀ h, is_heap prque_less h →
  let h' := fold_left (λ h e, if f e then Push prque_less (g e) h else h) es h in
  is_heap prque_less h' ∧ h' ≡ₚ map g (filter (λ e, f e = true) es) ++ h.
Proof.
  induction es as [|e es IH]; intros h Hh; [done|]. cbn [fold_left]. destruct (f e) eqn:Ef.
  - destruct (IH (Push prque_less (g e) h)) as [H1 H2]; [apply Push_heap; [apply _|done]|]. split; [done|].
    rewrite H2, filter_cons_True by done. cbn [map app]. rewrite Push_Permutation. symmetry. apply Permutation_middle.
  - destruct (IH h Hh) as [H1 H2]. split; [done|]. rewrite H2, filter_cons_False by congruence. done.
Qed.

Lemma total_bound P (l : list address) a : a ∈ l → (length (P a : list ptx) ≤ Z.to_nat (total l P))%nat.
Proof. intros Ha. pose proof (total_elem l P a Ha) as H. unfold zlen in H. lia. Qed.

(** The facts at the start of [truncatePending]. *)
Section Start.
Context (P Q : address → list ptx) (V : address → Z) (t : TxPool) (H : pool_ok [] P Q V t).
Let loc : address → bool := λ a, is_local a t.
Let addrs : list address := (map_to_list (pending t)).*1.
Let slots : nat := Z.to_nat (AccountSlots (tp_config t)).
(** No list is longer. *)
Let top : nat := (slots + Z.to_nat (total addrs P))%nat.

Lemma start_pending : stage_rep true (pending t) P.
Proof. apply H. Qed.
Lemma start_slots : (1 ≤ slots)%nat ∧ Z.of_nat slots = AccountSlots (tp_config t).
Proof. unfold slots. destruct H as [_ _ _ []]. lia. Qed.
Lemma start_nodup : NoDup addrs.
Proof. apply NoDup_fst_map_to_list. Qed.
Lemma start_outside a : a ∉ addrs → P a = [].
Proof.
  intros Ha. pose proof (start_pending a) as Hp. destruct (pending t !! a) as [l|] eqn:E; [|done]. exfalso. apply Ha, list_elem_of_fmap.
  exists (a, l). split; [done|]. by apply elem_of_map_to_list.
Qed.
Lemma start_count : count_txs (pending t) = total addrs P.
Proof.
  eapply count_txs_total; [apply H|apply start_nodup|]. intros a Hne. destruct (decide (a ∈ addrs)); [done|]. by rewrite start_outside in Hne.
Qed.
Lemma start_top a : (length (P a) ≤ top)%nat.
Proof.
  destruct (decide (a ∈ addrs)) as [Ha|Ha]; [|rewrite start_outside by done; cbn; lia]. pose proof (total_bound P addrs a Ha). unfold top. lia.
Qed.

Lemma start_level m : (∀ a, loc a = false → (length (P a) ≤ m)%nat) → at_level P Q V loc addrs t m (total addrs P) t.
Proof.
  intros Hm. assert (∀ a, cut_to loc m P a = P a) as Ecut.
  { intros a. unfold cut_to. destruct (loc a) eqn:El; [done|]. apply take_ge. by apply Hm. }
  constructor; [|done|done|apply total_same; intros a _; by rewrite Ecut].
  eapply pool_ok_ext; [..|exact H]; [done|done|]. intros a. unfold cut_nonces, cut_nonce. destruct (loc a) eqn:El; [done|].
  by rewrite lookup_ge_None_2 by (by apply Hm).
Qed.

(** The accounts that the code puts into the heap. *)
Lemma start_levelling :
  levelling P loc addrs t slots (fold_left (λ h e,
    if negb (is_local e.1 t) && (AccountSlots (tp_config t) <? Z.of_nat (tl_Len e.2))
    then Push prque_less (e.1, Z.of_nat (tl_Len e.2)) h else h) (iteration (map_to_list (pending t))) []) [] top.
Proof.
  destruct start_slots as [_ Eslots]. set (es := iteration (map_to_list (pending t))).
  set (f := λ e : address * txList, negb (is_local e.1 t) && (AccountSlots (tp_config t) <? Z.of_nat (tl_Len e.2))).
  set (g := λ e : address * txList, (e.1, Z.of_nat (tl_Len e.2))).
  destruct (push_all f g es []) as [Hheap Hperm]; [intros c Hc; cbn in Hc; lia|]. cbv zeta in *. rewrite app_nil_r in Hperm.
  set (spam := fold_left _ es []) in *.
  assert (∀ e, e ∈ es → list_rep e.2 (P e.1)) as Hes.
  { intros e He%in_iteration. pose proof (start_pending e.1) as Hp. rewrite He in Hp. by destruct Hp. }
  assert (es.*1 ≡ₚ addrs) as Hesa by (unfold es; by rewrite iteration_perm).
  assert (∀ e, e ∈ spam ↔ ∃ e', e' ∈ es ∧ f e' = true ∧ e = g e') as Hspam.
  { intros e. rewrite Hperm. split; [intros (e' & -> & [? ?]%list_elem_of_filter)%list_elem_of_fmap; eauto|].
    intros (e' & ? & ? & ->). apply list_elem_of_fmap. exists e'. split; [done|]. by apply list_elem_of_filter. }
  constructor; cbn [app].
  - done.
  - rewrite Hperm. change (map g ?l).*1 with (fst <$> (g <$> l)). rewrite <- list_fmap_compose.
    eapply sublist_NoDup; [apply iteration_NoDup|]. apply (fmap_sublist fst), sublist_filter.
  - intros a (e & -> & (e' & He' & _ & ->)%Hspam)%list_elem_of_fmap. rewrite <- Hesa. apply list_elem_of_fmap. by exists e'.
  - intros e (e' & He' & [Hf1 Hf2]%andb_true_iff & ->)%Hspam. unfold loc. cbn [g fst snd]. rewrite (list_rep_Len _ _ (Hes e' He')) in *.
    pose proof (start_top e'.1). split_and!; [by apply negb_true_iff|done|lia|done].
  - by intros a ?%not_elem_of_nil.
  - intros a El Ha. destruct (decide (a ∈ addrs)) as [Hin|Hn]; [|rewrite start_outside by done; cbn; lia].
    rewrite <- Hesa in Hin. apply list_elem_of_fmap in Hin as (e & -> & He).
    destruct (Nat.le_gt_cases (length (P e.1)) slots); [done|]. exfalso. apply Ha, list_elem_of_fmap. exists (g e). split; [done|].
    apply Hspam. exists e. split_and!; [done| |done]. unfold f. unfold loc in El. rewrite El, (list_rep_Len _ _ (Hes e He)). cbn. lia.
  - apply tight_same. intros a _. apply start_top.
Qed.

(** What [truncatePending] leaves. *)
Definition truncated (t' : TxPool) : Prop := fixed t' = fixed t ∧ tp_locals t' = tp_locals t ∧ ∃ m, AccountSlots (tp_config t) ≤ Z.of_nat m ∧
  pool_ok [] (cut_to loc m P) Q (cut_nonces loc m P V) t' ∧
  (total addrs (cut_to loc m P) ≤ GlobalSlots (tp_config t) ∨ Z.of_nat m = AccountSlots (tp_config t)) ∧
  ((∀ a, cut_to loc m P a = P a) ∨ GlobalSlots (tp_config t) < total addrs (cut_to loc (S m) P)).

Lemma level_truncated m count t' : at_level P Q V loc addrs t m count t' → (slots ≤ m)%nat → tight P loc addrs t m →
  count ≤ GlobalSlots (tp_config t) ∨ m = slots → truncated t'.
Proof.
  intros [Ho F L Hc] Hm Ht He. destruct start_slots as [_ Es]. split; [done|]. split; [done|]. exists m. split; [lia|]. split; [done|].
  split; [|exact Ht]. destruct He as [He| ->]; [left|right; lia]. by rewrite Hc in He.
Qed.

(** The last round, down to the guaranteed slots. *)
Lemma finish_ok offenders lst m count t1 : at_level P Q V loc addrs t m count t1 → (slots ≤ m)%nat → tight P loc addrs t m →
  lst ∈ offenders → count ≤ limit t ∨ offending P loc addrs offenders m slots →
  twp (shrink (S (Z.to_nat count)) lst (Z.of_nat slots) offenders count) (λ _, truncated) t1.
Proof.
  intros H1 Hm Ht Hlst Hor. pose proof (lv_fixed _ _ _ _ _ _ _ _ _ H1) as F1. destruct Hor as [Hle|Hof].
  - exists count, t1. split; [|by apply (level_truncated m count); [..|left]]. cbn [shrink]. unfold sbind, sread. cbn.
    assert (GlobalSlots (tp_config t1) = GlobalSlots (tp_config t)) as -> by (unfold fixed in F1; congruence).
    unfold limit in Hle. by rewrite (proj2 (Z.ltb_ge _ _) Hle).
  - destruct start_slots as [Hslots _].
    eapply twp_mono; [apply (shrink_ok P Q V loc addrs t start_nodup (λ a, stage_sorted _ _ _ a start_pending) lst offenders slots Hlst Hslots _ m count t1 H1 Hof Hm)|].
    + destruct (of_long _ _ _ _ _ _ Hof lst Hlst) as [Elp Hlp]. pose proof (cut_to_length loc m P lst Elp) as Hcl. rewrite Nat.min_l in Hcl by lia.
      pose proof (total_elem addrs (cut_to loc m P) lst (of_sub _ _ _ _ _ _ Hof lst Hlst)) as Htot. unfold zlen in Htot.
      rewrite (lv_count _ _ _ _ _ _ _ _ _ H1). lia.
    + intros count2 t2 (m2 & H2 & Hm2 & Hend2 & Hfar). apply (level_truncated m2 count2); [done|lia| |done].
      destruct Hfar as [ ->|Hfar]; [done|by right].
Qed.

Lemma truncatePending_truncated : twp truncatePending (λ _, truncated) t.
Proof.
  destruct start_slots as [Hslots Eslots]. unfold truncatePending. do 2 tstep. rewrite start_count.
  destruct (Z.leb_spec (total addrs P) (GlobalSlots (tp_config t))) as [Hle|Hgt].
  { tstep. apply (level_truncated top (total addrs P)); [apply start_level; intros a _; apply start_top|unfold top; lia| |by left].
    apply tight_same. intros a _. apply start_top. }
  tstep. pose proof start_levelling as Hl. set (spam := fold_left _ _ []) in *. apply twp_bind.
  eapply twp_mono; [apply (level_ok P Q V loc addrs t start_nodup (λ a, stage_sorted _ _ _ a start_pending) slots Hslots (length spam) spam [] top);
    [apply start_level; intros a _; apply start_top|exact Hl|unfold top; lia|done]|].
  intros [offenders count] t1 (m & H1 & Hm & Ht & Hor). cbn [fst snd] in *. cbv beta iota. destruct (last offenders) as [lst|] eqn:Elast.
  - tstep. assert (AccountSlots (tp_config t1) = Z.of_nat slots) as ->.
    { pose proof (lv_fixed _ _ _ _ _ _ _ _ _ H1) as F. unfold fixed in F. congruence. }
    apply twp_bind. eapply twp_mono; [apply (finish_ok offenders lst m count t1 H1 Hm Ht); [by apply last_Some_elem_of|done]|].
    intros ? t2 Ht2. by tstep.
  - tstep. apply last_None in Elast as ->. destruct Hor as [Hle|Hof]; [by apply (level_truncated m count); [..|left]|].
    assert (∀ a, loc a = false → (length (P a) ≤ slots)%nat) as Hall by (intros a El; apply (of_rest _ _ _ _ _ _ Hof a El), not_elem_of_nil).
    apply (level_truncated slots count); [|done|by apply tight_same|by right].
    apply (at_level_same P Q V loc addrs t m slots); [|done]. intros a El. specialize (Hall a El). split; [lia|done].
Qed.
End Start.

Lemma truncatePending_ok P Q V t : pool_ok [] P Q V t →
  let loc := λ a, is_local a t in
  let size := λ m, total (map_to_list (pending t)).*1 (cut_to loc m P) in
  twp truncatePending (λ _ t', fixed t' = fixed t ∧ tp_locals t' = tp_locals t ∧ ∃ m, AccountSlots (tp_config t) ≤ Z.of_nat m ∧
    pool_ok [] (cut_to loc m P) Q (cut_nonces loc m P V) t' ∧
    (size m ≤ GlobalSlots (tp_config t) ∨ Z.of_nat m = AccountSlots (tp_config t)) ∧
    ((∀ a, cut_to loc m P a = P a) ∨ GlobalSlots (tp_config t) < size (S m))) t.
Proof. apply truncatePending_truncated. Qed.
End Limits.
