(* ===== verification/TxPoolRun.v ===== *)
(** * Runs of the transaction pool

    The reset to a new head, the background reorganisation, and sequences of
    operations from a new pool: no operation panics or runs out of fuel, the pool
    stays consistent, and while no transaction of a replaced branch is put back the
    pending transactions of every account can be executed in order from the head. *)
From stdpp Require Import sorting.
From S2P Require Import Prelude Common RlpEncode StateObject StateDB TeWakaVm Consensus StateTransition.
From S2P Require Import Transaction TxSigning Heap TxList TxListSpec TxOrder TxPriced TxPricedSpec TxPool TxPoolLogic TxPoolSpec TxPoolMove TxPoolLimits.
Import Crypto.

(** ** Alignment with a new head *)

Section Realign.
Context {MO : MapOrder}.
Implicit Types tx x y z w o : ptx.
Implicit Types p q r : list ptx.

(** Pending transactions without gaps, queued ones behind them. *)
Definition loose p q : Prop := ∃ M, map pNonce p = seqZ M (zlen p) ∧ ∀ x, x ∈ q → M + zlen p ≤ Nonce x.
Definition small p q : Prop := ∀ x, x ∈ p ∨ x ∈ q → 0 ≤ Nonce x < 2 ^ 64 - 1.

(** After the promotion with the nonces of the new head: either nothing was
    ready, or what was makes up the list from the nonce [N] on. *)
Definition moved (N c g : Z) p q v : Prop := small p q ∧ (∀ x, x ∈ q → N ≤ Nonce x) ∧
  ((loose p q ∧ v = N) ∨
   ∃ p0 r, p = p0 ++ r ∧ r ≠ [] ∧ (∀ x, x ∈ p0 → Nonce x < N) ∧ map pNonce r = seqZ N (zlen r) ∧ v = N + zlen r ∧
     (∀ x, x ∈ q → v ≤ Nonce x) ∧ ∀ x, x ∈ r → ¬ too_much c g x).

(** Alignment but for the virtual nonce of an account with pending transactions. *)
Record almost (N : Z) p q v : Prop := Almost {
  am_pending : map pNonce p = seqZ N (zlen p);
  am_virtual : N ≤ v;
  am_none : p = [] → v = N;
  am_queued : ∀ x, x ∈ q → N + zlen p ≤ Nonce x;
  am_small : small p q
}.

Lemma promotes_moved N c g p q r p' q' v' : small p q → loose p q →
  promotes N c g p q N r p' q' v' → moved N c g p' q' v'.
Proof.
  intros Hsm (M & Hp & Hq) (q2 & k & Hs & Hq2 & -> & -> & -> & ->). pose proof (ready_prefix N q2) as Er.
  destruct (promotion_parts q2 k (ready N q2) Hs Er) as (Hparts & Hlt & _).
  assert (∀ x, x ∈ q2 → x ∈ q ∧ N ≤ Nonce x ∧ 0 ≤ Nonce x < 2 ^ 64 - 1 ∧ ¬ too_much c g x) as Hsub.
  { intros x (Hx & ? & ?)%Hq2. specialize (Hsm x (or_intror Hx)). split_and!; (done || lia). }
  assert (map pNonce (ready N q2) = seqZ N (zlen (ready N q2))) as Hr by (apply ready_nonces; [done|intros x Hx%Hsub; tauto..]).
  pose proof (ready_rest N q2 k Hs ltac:(intros x Hx%Hsub; tauto) Hr) as Hrest. set (q4 := take k _) in *. set (r := ready N q2) in *.
  assert (∀ x, x ∈ q4 → x ∈ q2) as H4 by (intros x Hx; apply Hparts; tauto).
  assert (∀ x, x ∈ r → x ∈ q2) as Hr2 by (intros x Hx; apply Hparts; tauto).
  destruct r as [|z r'] eqn:Ezr.
  { split; [intros x [Hx|Hx]; [apply Hsm; by left|apply H4, Hsub in Hx; tauto]|]. split; [intros x Hx%H4%Hsub; tauto|]. left. split; [|done].
    exists M. split; [done|]. intros x Hx%H4%Hsub. apply Hq. tauto. }
  assert (Nonce z = N) as Ez by (rewrite (seqZ_nonces N (z :: r') 0 z Hr eq_refl); lia).
  assert (M + zlen p ≤ N) as HMN by (rewrite <- Ez; apply Hq, Hsub, Hr2; by left).
  assert (∀ x, x ∈ p → Nonce x < N) as Hpn by (intros x Hx%(seqZ_range M p x Hp); lia).
  rewrite put_all_app.
  2: { rewrite Er in Hs. by apply StronglySorted_app_1_l in Hs. }
  2: { intros y w Hy%Hpn Hw%(seqZ_range N _ w Hr). lia. }
  split; [intros x [[Hx|Hx]%elem_of_app|Hx]; [apply Hsm; by left|apply Hr2, Hsub in Hx; tauto|apply H4, Hsub in Hx; tauto]|].
  split; [intros x Hx%H4%Hsub; tauto|]. right. exists p, (z :: r').
  assert (next_nonce N (z :: r') = N + zlen (z :: r')) as -> by (apply next_nonce_seq; [done|intros x Hx%Hr2%Hsub; tauto]).
  split_and!; try done. intros x Hx%Hr2%Hsub. tauto.
Qed.

(** An account without queued transactions is not visited. *)
Lemma unqueued_moved N c g p : small p [] → loose p [] → moved N c g p [] N.
Proof. intros Hsm Hl. split; [done|]. split; [by intros x ?%not_elem_of_nil|]. by left. Qed.

(** A consecutive list from [M] seen from [N]. *)
Lemma seqZ_forward M N p : map pNonce p = seqZ M (zlen p) → M ≤ N ≤ M + zlen p →
  filter (λ x, ¬ Nonce x < N) p = drop (Z.to_nat (N - M)) p ∧ map pNonce (drop (Z.to_nat (N - M)) p) = seqZ N (zlen (drop (Z.to_nat (N - M)) p)).
Proof.
  intros E HN. split.
  - rewrite <- (take_drop (Z.to_nat (N - M)) p) at 1. rewrite filter_app, filter_none, filter_all; [done|..].
    + intros x [i Hi]%list_elem_of_lookup. rewrite lookup_drop in Hi. pose proof (seqZ_nonces M p _ x E Hi). lia.
    + intros x (i & Hi & Hlt)%elem_of_take. pose proof (seqZ_nonces M p _ x E Hi). lia.
  - assert (map pNonce (drop (Z.to_nat (N - M)) p) = drop (Z.to_nat (N - M)) (map pNonce p)) as -> by apply fmap_drop.
    rewrite E. apply list_eq. intros i. apply option_eq. intros m. rewrite lookup_drop, !lookup_seqZ. unfold zlen in *. rewrite length_drop. lia.
Qed.

(** What is affordable and not behind something that is not, is a prefix. *)
Lemma affordable_prefix c g l : StronglySorted nonce_lt l →
  ∃ n, filter (λ tx, ¬ too_much c g tx ∧ ¬ behind c g l tx) l = take n l.
Proof.
  intros Hs. apply filter_prefix; [done|]. intros a b Ha Hb Hlt [Ht Hbe]. rewrite behind_iff in *. split.
  - intros Hta. apply Hbe. by exists a.
  - intros (d & Hd & Htd & Hlt'). apply Hbe. exists d. split_and!; [done|done|lia].
Qed.

Lemma almost_empty N q : (∀ x, x ∈ q → N ≤ Nonce x) → small [] q → almost N [] q N.
Proof. intros Hq Hsm. constructor; try done. intros x Hx. unfold zlen. cbn. specialize (Hq x Hx). lia. Qed.

Lemma demotes_almost N c g p q v p' q' : StronglySorted nonce_lt p → moved N c g p q v → demotes N c g p q p' q' → almost N p' q' v.
Proof.
  intros Hs (Hsm & HqN & Hcase) [Hp' Hq']. set (p1 := filter (λ tx, ¬ Nonce tx < N) p) in *.
  set (p2 := filter (λ tx, ¬ too_much c g tx ∧ ¬ behind c g p1 tx) p1) in *.
  assert (∀ x, x ∈ p1 → x ∈ p ∧ N ≤ Nonce x) as Hp1 by (intros x; unfold p1; rewrite list_elem_of_filter; intros [? ?]; split; [done|lia]).
  assert (∀ x, x ∈ p' → x ∈ p1) as Hsub.
  { intros x. destruct Hp' as [[-> _]|[-> _]]; [by intros [_ ?]%list_elem_of_filter|by intros ?%not_elem_of_nil]. }
  assert (small p' q') as Hsm'.
  { intros x [Hx%Hsub%Hp1|[Hx|(Hx%Hp1 & _)]%Hq']; apply Hsm; tauto. }
  assert (∀ x, x ∈ q' → N ≤ Nonce x) as HqN' by (intros x [Hx|(Hx%Hp1 & _)]%Hq'; [by apply HqN|tauto]).
  destruct Hcase as [[(M & Hp & Hq) ->]|(p0 & r & -> & Hne & Hlt & Hr & -> & Hqv & Hrt)].
  - destruct p' as [|z p3] eqn:Ep'; [by apply almost_empty|]. destruct Hp' as [[E2 [E0|HN]]|[E0 _]]; [congruence| |done].
    rewrite <- Ep' in *. rewrite E2 in *.
    assert (M ≤ N < M + zlen p) as HM.
    { apply list_elem_of_fmap in HN as (w & -> & Hw). apply Hsub, Hp1 in Hw as [Hw _]. by apply (seqZ_range M p w Hp). }
    destruct (seqZ_forward M N p Hp ltac:(lia)) as [E1 H1]. fold p1 in E1. rewrite <- E1 in H1.
    assert (zlen p1 = M + zlen p - N) as Hlen by (rewrite E1; unfold zlen in *; rewrite length_drop; lia).
    destruct (affordable_prefix c g p1) as [n En]; [by apply sorted_filter|]. fold p2 in En.
    assert (map pNonce p2 = seqZ N (zlen p2)) as H2 by (rewrite En; by apply seqZ_take).
    assert (zlen p2 ≤ zlen p1) as Hle by (rewrite En; unfold zlen; rewrite length_take; lia).
    constructor; [done|lia|done| |done]. intros x [Hx|(Hx & _ & Hnx)]%Hq'; [specialize (Hq x Hx); lia|].
    rewrite <- (take_drop n p1), <- En in Hx. apply elem_of_app in Hx as [Hx|Hx]; [done|].
    apply list_elem_of_lookup in Hx as [i Hi]. rewrite lookup_drop in Hi. pose proof (seqZ_nonces N p1 _ x H1 Hi).
    rewrite En. unfold zlen. rewrite length_take. lia.
  - assert (p1 = r) as E1.
    { unfold p1. rewrite filter_app, filter_none, filter_all; [done|..].
      - intros x Hx%(seqZ_range N r x Hr). lia.
      - intros x Hx%Hlt. lia. }
    assert (p2 = r) as E2.
    { unfold p2. rewrite E1. apply filter_all. intros x Hx. split; [by apply Hrt|]. rewrite behind_iff. intros (d & Hd & Htd & _). by apply (Hrt d). }
    rewrite E2 in Hp'. destruct r as [|z r]; [done|]. assert (Nonce z = N) as Ez by (rewrite (seqZ_nonces N (z :: r) 0 z Hr eq_refl); lia).
    destruct Hp' as [[-> _]|[_ HN]]; [|destruct HN; rewrite <- Ez; by left]. constructor; [done|pose proof (zlen_nonneg (z :: r)); lia|done| |done].
    intros x [Hx|(Hx & _ & Hn)]%Hq'; [by apply Hqv|]. rewrite E1 in Hx. done.
Qed.

Lemma almost_cut N p q v m : almost N p q v → almost N (take m p) q (cut_nonce m p v).
Proof.
  intros [Hp Hv Hn Hq Hsm]. assert (zlen (take m p) ≤ zlen p) as Hle by (unfold zlen; rewrite length_take; lia).
  assert (∀ x, p !! m = Some x → Nonce x = N + Z.of_nat m) as Hx by (intros x; by apply seqZ_nonces).
  unfold cut_nonce. constructor.
  - by apply seqZ_take.
  - destruct (p !! m) as [x|]; [specialize (Hx x eq_refl)|]; lia.
  - intros E. destruct (p !! m) as [x|] eqn:Em.
    + specialize (Hx x eq_refl). assert (m = 0%nat) as ->; [|lia]. destruct m; [done|]. destruct p; done.
    + apply Hn. destruct p; [done|]. by destruct m.
  - intros x Hx'. specialize (Hq x Hx'). lia.
  - intros x [(i & Hi & _)%elem_of_take|Hx']; apply Hsm; [left; by eapply list_elem_of_lookup_2|by right].
Qed.

Lemma almost_sub N p q q' v : almost N p q v → (∀ x, x ∈ q' → x ∈ q) → almost N p q' v.
Proof. intros [Hp Hv Hn Hq Hsm] Hsub. constructor; try done; [by auto|]. intros x [Hx|Hx]; apply Hsm; auto. Qed.

Lemma almost_aligned N p q v : almost N p q v → aligned N p q (next_nonce v p).
Proof.
  intros [Hp Hv Hn Hq Hsm]. assert (next_nonce v p = N + zlen p) as ->.
  { destruct p as [|z p0] eqn:E; [unfold next_nonce, zlen; cbn; rewrite Hn by done; lia|]. rewrite <- E in *.
    assert (next_nonce v p = next_nonce N p) as -> by (unfold next_nonce; destruct (last p) eqn:El; [done|]; apply last_None in El; congruence).
    apply next_nonce_seq; [done|]. intros x Hx. apply Hsm. by left. }
  constructor; [done|done|done|]. intros x Hx. by apply Hsm.
Qed.

Lemma aligned_almost N p q v : (∀ x, x ∈ p ∨ x ∈ q → 0 ≤ Nonce x) → aligned N p q v → almost N p q v.
Proof.
  intros Hnn [Hp Hv Hq Hsm]. pose proof (zlen_nonneg p). constructor; [done|lia|..].
  - intros ->. unfold zlen in Hv. cbn in Hv. lia.
  - intros x Hx. specialize (Hq x Hx). lia.
  - intros x Hx. split; [by apply Hnn|by apply Hsm].
Qed.
Lemma aligned_loose N p q v : aligned N p q v → loose p q.
Proof. intros [Hp Hv Hq _]. exists N. split; [done|]. intros x Hx. specialize (Hq x Hx). lia. Qed.
End Realign.

Section Runs.
Context {B : Backend} {R : Recover} {MO : MapOrder} {Ch : BlockChain}.
Implicit Types tx x y z w o : ptx.

(** ** The reset *)

Lemma set_head_ok P Q V t st g : pool_ok [] P Q V t → pool_ok [] P Q (hs_Nonce st) (set_head st g t).
Proof. intros [[] [] Hs Hc]. constructor; [constructor; done|constructor; done|done|done]. Qed.
Lemma set_forks_ok P Q V t b1 b2 : pool_ok [] P Q V t → pool_ok [] P Q V (set_forks b1 b2 t).
Proof. intros [[] [] Hs Hc]. constructor; [constructor; done|constructor; done|done|done]. Qed.

Lemma reset_ok P Q V t now old new : pool_ok [] P Q V t → reinjected old new ≠ None →
  (∀ l, reinjected old new = Some (Some l) → Forall (fit false) l) →
  twp (reset now old new) (λ _ t', ∃ P' Q' V', pool_ok [] P' Q' V' t') t.
Proof.
  intros H Hne Hl. unfold reset. destruct (reinjected old new) as [o|] eqn:E; [|done]. eapply twp_bind_opt; [done|].
  destruct o as [l|]; [|tstep; eauto]. destruct (StateAt (hd_Root new)) as [st|]; [|tstep; eauto]. tstep.
  apply twp_bind. eapply twp_mono; [apply (good_addTxsLocked false now false l (Hl l eq_refl)); by eapply set_head_ok|].
  intros _ t1 (P1 & Q1 & V1 & H1 & _). tstep. exists P1, Q1, V1. by apply set_forks_ok.
Qed.

(** Nothing is put back: only the head changes. *)
Lemma reset_plain P Q V t now old new st : pool_ok [] P Q V t → reinjected old new = Some (Some []) → StateAt (hd_Root new) = Some st →
  twp (reset now old new) (λ _ t', currentState t' = st ∧ pool_ok [] P Q (hs_Nonce st) t') t.
Proof.
  intros H E Es. unfold reset. rewrite E. eapply twp_bind_opt; [done|]. rewrite Es. tstep. unfold addTxsLocked. cbn [addTxs_loop].
  apply twp_bind, twp_bind_read. do 2 tstep. split; [done|]. apply set_forks_ok. by eapply set_head_ok.
Qed.

(** ** The reorganisation *)

Lemma ok_nonneg P Q V t a x : pool_ok [] P Q V t → x ∈ P a ∨ x ∈ Q a → 0 ≤ Nonce x.
Proof.
  intros H [Hx|Hx]; [|by eapply stage_nonneg]. assert (in_range x) as [? _]; [|done]. eapply (stage_range true (pending t)); [apply H|exact Hx].
Qed.

(** The limits and the virtual nonces. *)
Lemma tail_ok {A} P Q V t now (r : A) : pool_ok [] P Q V t →
  twp (run! _ <- truncatePending; run! _ <- truncateQueue now; run! _ <- update_nonces; sret r) (λ _ t', fixed t' = fixed t ∧
    ∃ P' Q' V', pool_ok [] P' Q' V' t' ∧
      ∀ a, almost (head_nonce t a) (P a) (Q a) (V a) → aligned (head_nonce t a) (P' a) (Q' a) (V' a)) t.
Proof.
  intros H. apply twp_bind. eapply twp_mono; [by apply (truncatePending_ok P Q V)|]. intros _ t1 (F1 & _ & m & _ & H1 & _).
  apply twp_bind. eapply twp_mono; [by apply (truncateQueue_ok now _ _ _ t1 H1)|]. intros _ t2 (Q2 & H2 & F2 & _ & Hsub).
  apply twp_bind. eapply twp_mono; [by apply (update_nonces_ok _ _ _ t2 H2)|]. intros _ t3 (F3 & _ & H3). tstep. split; [congruence|].
  eexists _, _, _. split; [exact H3|]. intros a Ha. unfold renonced. apply almost_aligned. eapply almost_sub; [|apply Hsub].
  unfold cut_to, cut_nonces. destruct (is_local a t); [done|]. by apply almost_cut.
Qed.

Definition all_aligned (t : TxPool) P Q V : Prop := ∀ a, aligned (head_nonce t a) (P a) (Q a) (V a).

Lemma aligned_small P Q V t a : pool_ok [] P Q V t → aligned (head_nonce t a) (P a) (Q a) (V a) → small (P a) (Q a).
Proof. intros H Ha x Hx. split; [by eapply ok_nonneg|by apply Ha]. Qed.

Lemma runReorg_promote P Q V t now dirty : pool_ok [] P Q V t →
  twp (runReorg now None dirty) (λ _ t', ∃ P' Q' V', pool_ok [] P' Q' V' t' ∧ (all_aligned t P Q V → all_aligned t' P' Q' V')) t.
Proof.
  intros H. unfold runReorg. tstep. apply twp_bind. eapply twp_mono; [by apply (good_promoteExecutables true now _ P Q V t H)|].
  intros r t1 (P1 & Q1 & V1 & H1 & F1 & K1). tstep. eapply twp_mono; [by apply (tail_ok P1 Q1 V1)|].
  intros _ t2 (F2 & P2 & Q2 & V2 & H2 & K2). exists P2, Q2, V2. split; [done|]. intros Ha a. rewrite (fixed_head t1 t2 a F2). apply K2.
  apply aligned_almost; [intros x; by eapply ok_nonneg|]. rewrite (fixed_head t t1 a F1). by apply K1.
Qed.

(** After the reset: promotion from the queue, demotion, prices, limits. *)
Definition after_reset (now : Z) (newHead : Header) : St TxPool (list ptx) :=
  run! promoteAddrs <- sread (λ t, map fst (iteration (map_to_list (queue t))));
  run! promoted <- promoteExecutables now promoteAddrs;
  run! _ <- (run! _ <- demoteUnexecutables now;
             run! baseFee <- sout (CalcBaseFee newHead);
             run! l <- (λ t, sout (SetBaseFee (all t) (Some baseFee) (priced t)) t);
             smodify (set_priced l));
  run! _ <- truncatePending;
  run! _ <- truncateQueue now;
  run! _ <- update_nonces;
  sret promoted.

Lemma runReorg_reset now old new dirty t : runReorg now (Some (old, new)) dirty t = (run! _ <- reset now old new; after_reset now new) t.
Proof. unfold runReorg, after_reset, sbind. by destruct (reset now old new t) as [[[] t1]| |]. Qed.

Lemma price_base_fee_ok P Q V t new f : pool_ok [] P Q V t → CalcBaseFee new = Ret f →
  twp (run! baseFee <- sout (CalcBaseFee new);
       run! l <- (λ t, sout (SetBaseFee (all t) (Some baseFee) (priced t)) t);
       smodify (set_priced l)) (λ _ t', fixed t' = fixed t ∧ pool_ok [] P Q V t') t.
Proof.
  intros H Ef. eapply twp_bind_out; [exact Ef|]. destruct (SetBaseFee_ok (all t) (Some f) (priced t)) as (l & E & Hl & _).
  apply twp_bind. exists l, t. split; [by rewrite E|]. tstep. split; [done|]. by eapply pool_ok_priced.
Qed.

Lemma after_reset_ok P Q V t now new f : pool_ok [] P Q V t → CalcBaseFee new = Ret f →
  twp (after_reset now new) (λ _ t', fixed t' = fixed t ∧ ∃ P' Q' V', pool_ok [] P' Q' V' t' ∧
    ((∀ a, V a = head_nonce t a ∧ small (P a) (Q a) ∧ loose (P a) (Q a)) → all_aligned t' P' Q' V')) t.
Proof.
  intros H Ef. unfold after_reset. tstep. apply twp_bind.
  eapply twp_mono; [apply (promoteExecutables_ok now _ P Q V t H); apply iteration_NoDup|].
  intros r t1 (F1 & _ & P1 & Q1 & V1 & H1 & Hin & Hout). apply twp_bind, twp_bind.
  eapply twp_mono; [by apply (demoteUnexecutables_ok now P1 Q1 V1 t1 H1)|]. intros _ t2 (F2 & _ & P2 & Q2 & H2 & Hdem).
  eapply twp_mono; [by apply (price_base_fee_ok P2 Q2 V1 t2 new f)|]. intros _ t3 [F3 H3].
  eapply twp_mono; [by apply (tail_ok P2 Q2 V1)|]. intros _ t4 (F4 & P4 & Q4 & V4 & H4 & K4). split; [congruence|].
  exists P4, Q4, V4. split; [done|]. intros Hstart a. rewrite (fixed_head t3 t4 a F4). apply K4.
  assert (currentState t1 = currentState t ∧ currentMaxGas t1 = currentMaxGas t) as [Es Eg] by (unfold fixed in F1; split; congruence).
  specialize (Hdem a). unfold head_nonce in Hdem. rewrite Es, Eg in Hdem.
  replace (head_nonce t3 a) with (head_nonce t a) by (symmetry; apply fixed_head; congruence).
  eapply demotes_almost; [by eapply stage_sorted, H1| |exact Hdem]. destruct (Hstart a) as (EV & Hsm & Hl). change (hs_Nonce (currentState t) a) with (head_nonce t a).
  destruct (decide (a ∈ map fst (iteration (map_to_list (queue t))))) as [Ha|Ha].
  - destruct (Hin a Ha) as [ra Hpr]. rewrite EV in Hpr. by eapply promotes_moved.
  - destruct (Hout a Ha) as (-> & -> & ->). assert (Q a = []) as EQ.
    { pose proof (pp_queue _ _ _ _ _ _ (ok_rep _ _ _ _ _ H) a) as Hq. destruct (queue t !! a) as [l|] eqn:E; [|done]. exfalso.
      apply Ha, list_elem_of_fmap. exists (a, l). split; [done|]. by apply in_iteration. }
    rewrite EV. rewrite EQ in *. by apply unqueued_moved.
Qed.

(** ** Sequences of operations *)

Inductive pool_op :=
| OpAddLocals (txs : list ptx)
| OpAddRemotes (txs : list ptx)
| OpSetGasPrice (price : Z)
| OpEvict
| OpReorg (req : option (option Header * Header)) (dirty : option accountSet)
| OpNonce (a : address)
| OpContent
| OpContentFrom (a : address)
| OpLocals
| OpPending (enforceTips : bool).

Definition run_op (now : Z) (op : pool_op) : St TxPool () :=
  match op with
  | OpAddLocals txs => run! _ <- AddLocals now txs; sret tt
  | OpAddRemotes txs => run! _ <- AddRemotes now txs; sret tt
  | OpSetGasPrice price => SetGasPrice now price
  | OpEvict => evict now
  | OpReorg req dirty => run! _ <- runReorg now req dirty; sret tt
  | OpNonce a => run! _ <- tp_Nonce a; sret tt
  | OpContent => run! _ <- Content; sret tt
  | OpContentFrom a => run! _ <- ContentFrom a; sret tt
  | OpLocals => run! _ <- Locals; sret tt
  | OpPending tips => run! _ <- Pending tips; sret tt
  end.
Definition run_ops (ops : list (Z * pool_op)) : St TxPool () := each (λ op, run_op op.1 op.2) ops.

(** Nonces are 64-bit; a new head is known to the chain and has a base fee.  With
    [al], nothing is put back by a reset, its state is there, and the last nonce is
    not used. *)
Definition op_fits (al : bool) (op : pool_op) : Prop :=
  match op with
  | OpAddLocals txs | OpAddRemotes txs => Forall (fit al) txs
  | OpReorg (Some (old, new)) _ =>
      (∃ f, CalcBaseFee new = Ret f) ∧
      match reinjected old new with
      | None => False
      | Some None => al = false
      | Some (Some l) => Forall (fit false) l ∧ (al = true → l = [] ∧ is_Some (StateAt (hd_Root new)))
      end
  | _ => True
  end.

Lemma flatten_stage s m f : stage_rep s m f → stage_rep s (snd (flatten_all m)) f.
Proof.
  intros H a. specialize (H a). cbn. rewrite lookup_fmap. destruct (m !! a) as [l|]; cbn; [|done]. destruct H as [H Hst].
  destruct (tl_Flatten_rep l (f a) H) as (l' & E & Hl' & Hst'). unfold compose. rewrite E. cbn [snd]. split; [done|congruence].
Qed.
Lemma flatten_no_empty m f : no_empty m f → no_empty (snd (flatten_all m)) f.
Proof. intros H a l. cbn. rewrite lookup_fmap. intros (l' & E & _)%fmap_Some_1. by eapply H. Qed.

Lemma good_tp_Nonce al a : good al (tp_Nonce a).
Proof.
  intros P Q V t H. unfold tp_Nonce. tstep. destruct (noncer_get_val a (pendingNonces t)) as [_ Hg].
  destruct (noncer_get a (pendingNonces t)) as [n ns]. cbn [snd] in Hg. do 2 tstep. exists P, Q, V. split_and!; [|done|intros _; apply keeps_self].
  destruct H as [[] [] Hs Hc]. constructor; [constructor; try done|constructor; done|done|done]. intros b. cbn. by rewrite Hg.
Qed.

Lemma flatten_ok P Q V t b : pool_ok [] P Q V t →
  pool_ok [] P Q V (set_stages (snd (flatten_all (pending t))) (if b : bool then snd (flatten_all (queue t)) else queue t) t).
Proof.
  intros [[] [] Hs Hc]. constructor; [|constructor; done|done|done].
  constructor; try done; cbn; try destruct b; try done; (by apply flatten_stage) || (by apply flatten_no_empty).
Qed.

Lemma good_Content al : good al Content.
Proof.
  intros P Q V t H. unfold Content. tstep. destruct (flatten_all (pending t)) as [p pl] eqn:Ep. tstep.
  destruct (flatten_all (queue t)) as [q ql] eqn:Eq. do 2 tstep. exists P, Q, V. split_and!; [|done|intros _; apply keeps_self].
  pose proof (flatten_ok P Q V t true H) as Hf. by rewrite Ep, Eq in Hf.
Qed.
Lemma flatten_at_ok P Q V t a : pool_ok [] P Q V t →
  pool_ok [] P Q V (set_stages (snd (flatten_at a (pending t))) (snd (flatten_at a (queue t))) t).
Proof.
  intros H.
  assert (∀ s m f, stage_rep s m f → no_empty m f → stage_rep s (snd (flatten_at a m)) f ∧ no_empty (snd (flatten_at a m)) f) as Hat.
  { intros s m f Hm Hn. unfold flatten_at. pose proof (Hm a) as Hl. destruct (m !! a) as [l|] eqn:E; [|done]. destruct Hl as [Hl Hst].
    destruct (tl_Flatten_rep l (f a) Hl) as (l' & -> & Hl' & Hst'). cbn [snd]. split.
    - eapply stage_rep_ext; [apply (upd_id a)|]. apply stage_insert; [done|done|congruence].
    - intros b l2. destruct (decide (b = a)) as [->|]; [by intros _; eapply Hn|]. rewrite lookup_insert_ne by done. apply Hn. }
  destruct H as [[Hp Hn Hq Hqn Hv Hk Hpr] [] Hs Hc]. destruct (Hat _ _ _ Hp Hn), (Hat _ _ _ Hq Hqn).
  constructor; [constructor; done|constructor; done|done|done].
Qed.
Lemma good_ContentFrom al a : good al (ContentFrom a).
Proof.
  intros P Q V t H. unfold ContentFrom. pose proof (flatten_at_ok P Q V t a H) as Hf. tstep. destruct (flatten_at a (pending t)) as [p pl]. tstep.
  destruct (flatten_at a (queue t)) as [q ql]. do 2 tstep. exists P, Q, V. split_and!; [done|done|intros _; apply keeps_self].
Qed.
Lemma good_Locals al : good al Locals.
Proof.
  intros P Q V t H. unfold Locals. tstep. destruct (as_flatten (tp_locals t)) as [l s]. do 2 tstep. exists P, Q, V.
  split_and!; [|done|intros _; apply keeps_self]. destruct H as [[] [] Hs Hc]. constructor; [constructor; done|constructor; done|done|done].
Qed.
Lemma good_AddLocals al now (l : list ptx) : Forall (fit al) l → good al (AddLocals now l).
Proof. intros H. apply good_bind; [apply good_sread|]. intros local. by apply good_addTxs. Qed.

Lemma good_Pending al tips : good al (Pending tips).
Proof.
  intros P Q V t H. unfold Pending. tstep. destruct (flatten_all (pending t)) as [p pl] eqn:Ep. do 2 tstep.
  exists P, Q, V. split_and!; [|done|intros _; apply keeps_self]. pose proof (flatten_ok P Q V t false H) as Hf. by rewrite Ep in Hf.
Qed.

(** What an operation keeps. *)
Definition keeping (al : bool) (m : St TxPool ()) : Prop := ∀ P Q V t, pool_ok [] P Q V t →
  twp m (λ _ t', ∃ P' Q' V', pool_ok [] P' Q' V' t' ∧ (al = true → all_aligned t P Q V → all_aligned t' P' Q' V')) t.

Lemma good_keeping al {A} (m : St TxPool A) : good al m → keeping al (run! _ <- m; sret tt).
Proof.
  intros Hm P Q V t H. apply twp_bind. eapply twp_mono; [by apply Hm|]. intros _ t' (P' & Q' & V' & H' & F & K). tstep.
  exists P', Q', V'. split; [done|]. intros Hal Ha a. rewrite (fixed_head t t' a F). by apply K.
Qed.

Lemma reorg_keeping al now old new dirty : op_fits al (OpReorg (Some (old, new)) dirty) →
  keeping al (run! _ <- runReorg now (Some (old, new)) dirty; sret tt).
Proof.
  intros [[f Ef] Hre] P Q V t H. apply twp_bind.
  assert (twp (run! _ <- reset now old new; after_reset now new) (λ _ t', ∃ P' Q' V', pool_ok [] P' Q' V' t' ∧
    (al = true → all_aligned t P Q V → all_aligned t' P' Q' V')) t) as (r & t' & E & HQ).
  2: { exists r, t'. split; [by rewrite runReorg_reset|]. by tstep. }
  apply twp_bind. destruct (reinjected old new) as [o|] eqn:Er; [|done]. destruct al.
  - destruct o as [l|]; [|done]. destruct Hre as [_ Hre]. destruct (Hre eq_refl) as [-> [st Est]].
    eapply twp_mono; [by apply (reset_plain P Q V t now old new st)|]. intros _ t1 [Es H1].
    eapply twp_mono; [by apply (after_reset_ok P Q (hs_Nonce st) t1 now new f)|]. intros _ t2 (_ & P2 & Q2 & V2 & H2 & K2). exists P2, Q2, V2.
    split; [done|]. intros _ Ha. apply K2. intros a. unfold head_nonce. rewrite Es. split; [done|].
    split; [exact (aligned_small P Q V t a H (Ha a))|exact (aligned_loose _ _ _ _ (Ha a))].
  - eapply twp_mono; [apply (reset_ok P Q V t now old new H)|].
    + by rewrite Er.
    + rewrite Er. intros l [= ->]. by destruct Hre.
    + intros _ t1 (P1 & Q1 & V1 & H1). eapply twp_mono; [by apply (after_reset_ok P1 Q1 V1 t1 now new f)|].
      intros _ t2 (_ & P2 & Q2 & V2 & H2 & _). by exists P2, Q2, V2.
Qed.

Lemma op_keeping al now op : op_fits al op → keeping al (run_op now op).
Proof.
  assert (∀ m : St TxPool (), good al m → keeping al m) as Hgood.
  { intros m Hm P Q V t H. destruct (good_keeping al m Hm P Q V t H) as (r & t' & E & HQ). unfold sbind in E.
    destruct (m t) as [[[] t1]| |] eqn:Em; [|done..]. injection E as <- <-. by exists (), t1. }
  destruct op as [txs|txs|price| |[[old new]|] dirty|a| |a| |tips]; cbn [run_op]; intros Hop.
  - by apply good_keeping, good_AddLocals.
  - by apply good_keeping, good_addTxs.
  - apply Hgood, good_SetGasPrice.
  - apply Hgood, good_evict.
  - by apply reorg_keeping.
  - intros P Q V t H. apply twp_bind. eapply twp_mono; [by apply (runReorg_promote P Q V t now dirty)|].
    intros _ t' (P' & Q' & V' & H' & K). tstep. by exists P', Q', V'.
  - apply good_keeping, good_tp_Nonce.
  - apply good_keeping, good_Content.
  - apply good_keeping, good_ContentFrom.
  - apply good_keeping, good_Locals.
  - apply good_keeping, good_Pending.
Qed.

Lemma run_keeping al ops : Forall (op_fits al) ops.*2 → keeping al (run_ops ops).
Proof.
  induction ops as [|[now op] ops IH]; intros Hf P Q V t H; unfold run_ops; cbn [each].
  { tstep. by exists P, Q, V. }
  inversion_clear Hf as [|? ? Hop Hops]. apply twp_bind. eapply twp_mono; [by apply (op_keeping al now op Hop P Q V)|].
  intros _ t1 (P1 & Q1 & V1 & H1 & K1). eapply twp_mono; [by apply (IH Hops P1 Q1 V1)|].
  intros _ t2 (P2 & Q2 & V2 & H2 & K2). exists P2, Q2, V2. split; [done|]. auto.
Qed.

(** ** From a new pool *)

(** The sizes of the configuration fit their types. *)
Record fits_int (c : TxPoolConfig) : Prop := FitsInt {
  fi_total : GlobalSlots (sanitize c) + GlobalQueue (sanitize c) < 2 ^ 63;
  fi_queue : AccountQueue (sanitize c) < 2 ^ 63
}.

Lemma sanitize_ok c : GlobalSlots (sanitize c) + GlobalQueue (sanitize c) < 2 ^ 63 → AccountQueue (sanitize c) < 2 ^ 63 → config_ok (sanitize c).
Proof.
  intros H1 H2. constructor; try done; [..|split; [|done]]; cbn; (case_match; [done|lia]).
Qed.

Lemma new_pool_ok now config chainconfig head st : fits_int config → StateAt (hd_Root head) = Some st →
  ∃ t, NewTxPool now config chainconfig head = XRet t ∧ currentState t = st ∧
    pool_ok [] (λ _, []) (λ _, []) (hs_Nonce st) t ∧ all_aligned t (λ _, []) (λ _, []) (hs_Nonce st).
Proof.
  intros [Ht Hq] Est. unfold NewTxPool. set (t0 := mkTxPool _ _ _ _ _ _ _ _ _ _ _ _ _ _ _ _).
  assert (pool_ok [] (λ _, []) (λ _, []) (λ _, 0) t0) as H0.
  { constructor.
    - assert (∀ x, ¬ content (λ _, []) (λ _, []) x) as Hno by (by intros x [a [?%not_elem_of_nil|?%not_elem_of_nil]]).
      constructor; try done.
      eapply lookup_ok_ext; [|apply lookup_ok_new]. intros x. split; [done|]. apply Hno.
    - constructor; [by intros a x [?%not_elem_of_nil|?%not_elem_of_nil]|by intros a x y ?%not_elem_of_nil].
    - done.
    - apply sanitize_ok; [done|done]. }
  destruct (reset_plain _ _ _ t0 now None head st H0 eq_refl Est) as (u & t & E & Es & H). rewrite E. exists t. split_and!; try done.
  intros a. unfold head_nonce. rewrite Es. constructor; [done|unfold zlen; cbn; lia|by intros x ?%not_elem_of_nil|by intros x [?%not_elem_of_nil|?%not_elem_of_nil]].
Qed.

(** ** Where the pool panics *)

(** Transactions fit their Go types. *)
Definition op_typed (op : pool_op) : Prop :=
  match op with
  | OpAddLocals txs | OpAddRemotes txs => Forall (fit false) txs
  | OpReorg (Some (old, new)) _ => ∀ l, reinjected old new = Some (Some l) → Forall (fit false) l
  | _ => True
  end.
(** A reset dereferences the block of the new head, or its base fee, which is
    nil. *)
Definition op_crashes (op : pool_op) : Prop :=
  match op with
  | OpReorg (Some (old, new)) _ => reinjected old new = None ∨ CalcBaseFee new = Panic
  | _ => False
  end.

Lemma op_crashes_or_fits op : op_typed op → op_crashes op ∨ ¬ op_crashes op ∧ op_fits false op.
Proof.
  destruct op as [txs|txs|price| |[[old new]|] dirty|a| |a| |tips]; cbn; intros Ht; try (by right; split; [intros []|]).
  destruct (reinjected old new) as [o|] eqn:E; [|by left; left]. destruct (CalcBaseFee new) as [f|] eqn:Ef; [|by left; right].
  right. split; [by intros [|]|]. split; [by exists f|]. destruct o as [l|]; [|done]. split; [by apply Ht|done].
Qed.

Lemma after_reset_panics P Q V t now new : pool_ok [] P Q V t → CalcBaseFee new = Panic → after_reset now new t = XPanic.
Proof.
  intros H Ef. unfold after_reset, sbind, sread.
  destruct (promoteExecutables_ok now (map fst (iteration (map_to_list (queue t)))) P Q V t H) as (r & t1 & -> & _ & _ & P1 & Q1 & V1 & H1 & _);
    [apply iteration_NoDup|].
  destruct (demoteUnexecutables_ok now P1 Q1 V1 t1 H1) as (r2 & t2 & -> & _). by rewrite Ef.
Qed.

Lemma op_panics op now P Q V t : op_typed op → op_crashes op → pool_ok [] P Q V t → run_op now op t = XPanic.
Proof.
  destruct op as [txs|txs|price| |[[old new]|] dirty|a| |a| |tips]; cbn; intros Ht Hc H; try done. unfold sbind at 1.
  rewrite runReorg_reset. unfold sbind. destruct (reinjected old new) as [o|] eqn:E; [|unfold reset, sbind; by rewrite E].
  destruct Hc as [?|Hc]; [done|]. destruct (reset_ok P Q V t now old new H) as (u & t1 & -> & P1 & Q1 & V1 & H1).
  { by rewrite E. } { by rewrite E. }
  by rewrite (after_reset_panics P1 Q1 V1 t1 now new).
Qed.

Lemma run_ops_total (ops : list (Z * pool_op)) : Forall op_typed ops.*2 → ∀ P Q V t, pool_ok [] P Q V t →
  (Exists op_crashes ops.*2 ∧ run_ops ops t = XPanic) ∨
  (¬ Exists op_crashes ops.*2 ∧ ∃ u t' P' Q' V', run_ops ops t = XRet (u, t') ∧ pool_ok [] P' Q' V' t').
Proof.
  induction ops as [|[now op] ops IH]; intros Ht P Q V t H; unfold run_ops; cbn [each].
  { right. split; [by intros ?%Exists_nil|]. by exists (), t, P, Q, V. }
  inversion_clear Ht as [|? ? Hop Hops]. cbn [fmap list_fmap snd]. rewrite Exists_cons. unfold sbind.
  destruct (op_crashes_or_fits op Hop) as [Hc|[Hc Hf]].
  { left. split; [by left|]. cbn [fst snd]. by rewrite (op_panics op now P Q V t Hop Hc H). }
  destruct (op_keeping false now op Hf P Q V t H) as (u & t1 & E & P1 & Q1 & V1 & H1 & _). cbn [fst snd]. rewrite E.
  destruct (IH Hops P1 Q1 V1 t1 H1) as [[? Hr]|[? Hr]]; unfold run_ops in Hr; [left; by split; [right|]|right].
  by split; [intros [|]|].
Qed.

Definition run_pool now config chainconfig head (ops : list (Z * pool_op)) : xres TxPool :=
  match NewTxPool now config chainconfig head with
  | XRet t => match run_ops ops t with XRet (_, t) => XRet t | XPanic => XPanic | XFuel => XFuel end
  | XPanic => XPanic
  | XFuel => XFuel
  end.

Lemma run_pool_keeps al now config chainconfig head st ops : fits_int config → StateAt (hd_Root head) = Some st →
  Forall (op_fits al) ops.*2 → ∃ t P Q V, run_pool now config chainconfig head ops = XRet t ∧ pool_ok [] P Q V t ∧
    (al = true → all_aligned t P Q V).
Proof.
  intros Hc Es Hops. destruct (new_pool_ok now config chainconfig head st Hc Es) as (t0 & E0 & _ & H0 & A0).
  destruct (run_keeping al ops Hops _ _ _ t0 H0) as (u & t & E & P & Q & V & H & K). exists t, P, Q, V.
  unfold run_pool. rewrite E0, E. split_and!; try done. auto.
Qed.

Lemma run_pool_total now config chainconfig head st ops : fits_int config → StateAt (hd_Root head) = Some st → Forall op_typed ops.*2 →
  (Exists op_crashes ops.*2 ∧ run_pool now config chainconfig head ops = XPanic) ∨
  (¬ Exists op_crashes ops.*2 ∧ ∃ t P Q V, run_pool now config chainconfig head ops = XRet t ∧ pool_ok [] P Q V t).
Proof.
  intros Hc Es Hops. destruct (new_pool_ok now config chainconfig head st Hc Es) as (t0 & E0 & _ & H0 & _). unfold run_pool. rewrite E0.
  destruct (run_ops_total ops Hops _ _ _ t0 H0) as [[? ->]|[? (u & t & P & Q & V & -> & H)]]; [by left|right]. split; [done|].
  by exists t, P, Q, V.
Qed.
End Runs.
