(* ===== verification/TxPoolTheorems.v ===== *)
(** * Theorems on the transaction pool

    The properties of [TxPoolRun], [TxPoolLimits] and [TxPricedSpec] that clients of
    the pool rely on, a pool that is run, and two runs that show the limits of what
    the pool guarantees. *)
From stdpp Require Import sorting.
From S2P Require Import Prelude Common RlpEncode StateObject Concrete StateDB TeWakaVm Consensus StateTransition.
From S2P Require Import Transaction TxSigning Heap TxList TxListSpec TxOrder TxPriced TxPricedSpec TxPool TxPoolLogic TxPoolSpec TxPoolMove TxPoolLimits TxPoolRun.
Import Crypto.

Section Theorems.
Context {B : Backend} {R : Recover} {MO : MapOrder}.
Implicit Types tx x y z : ptx.



(** C34: as long as every reset finds its head with block, base fee and state and puts no
    transactions of a replaced branch back (and the last nonce is not used), the pending
    transactions of every account have the nonces from the one in the state of the
    head on, without a gap, so that they can be executed in order; the nonce the pool
    reports is the next one, and what is queued does not come before it. *)
Theorem pending_is_executable {Ch : BlockChain} now config chainconfig head st (ops : list (Z * pool_op)) :
  fits_int config → StateAt (hd_Root head) = Some st → Forall (op_fits true) ops.*2 →
  ∃ t P Q V, run_pool now config chainconfig head ops = XRet t ∧ pool_ok [] P Q V t ∧ ∀ a,
    let next := head_nonce t a + zlen (P a) in
    map pNonce (P a) = seqZ (head_nonce t a) (zlen (P a)) ∧ fst (noncer_get a (pendingNonces t)) = next ∧
    ∀ x, x ∈ Q a → next ≤ Nonce x.
Proof.
  intros Hc Hs Hops. destruct (run_pool_keeps true now config chainconfig head st ops Hc Hs Hops) as (t & P & Q & V & E & H & Ha).
  exists t, P, Q, V. split_and!; try done. intros a next. destruct (Ha eq_refl a) as [Hp Hv Hq _]. split; [done|].
  assert (V a = next) as Ev by done. split; [|intros x Hx; rewrite <- Ev; by apply Hq].
  rewrite (proj1 (noncer_get_val a _)), (pp_nonces _ _ _ _ _ _ (ok_rep _ _ _ _ _ H)). done.
Qed.

(** C35: [truncatePending] ends, and cuts the pending lists of all accounts that are
    not local to a common length [m] that is at least the guaranteed number of slots:
    the pool is then within its limit unless [m] is that number, and it would not be
    with one more transaction for each account, unless nothing was cut. *)
Theorem pending_is_levelled P Q V t : pool_ok [] P Q V t →
  let loc := λ a, is_local a t in
  let size := λ m, total (map_to_list (pending t)).*1 (cut_to loc m P) in
  twp truncatePending (λ _ t', fixed t' = fixed t ∧ tp_locals t' = tp_locals t ∧ ∃ m, AccountSlots (tp_config t) ≤ Z.of_nat m ∧
    pool_ok [] (cut_to loc m P) Q (cut_nonces loc m P V) t' ∧
    (size m ≤ GlobalSlots (tp_config t) ∨ Z.of_nat m = AccountSlots (tp_config t)) ∧
    ((∀ a, cut_to loc m P a = P a) ∨ GlobalSlots (tp_config t) < size (S m))) t.
Proof. apply truncatePending_ok. Qed.
End Theorems.

(** ** A pool that is run *)

(** Signatures in the clear, maps visited in the order of their keys, and a chain of
    three blocks: block 2 has a sibling without transactions. *)
#[local] Instance ClearRecover : Recover := {| Ecrecover _ sig := Ok (4 :: take 32 sig) |}.
#[local] Instance KeyOrder : MapOrder := {| iteration A l := l; iteration_perm A l := reflexivity l |}.

Definition demo_tx (key nonce price : Z) : ptx :=
  mkPtx (Legacy (mkLegacyTx nonce price 21000 (Some 1) 0 [] 27 key 7)) 110 nonce.
Definition demo_sender (key : Z) : address := sender_of Homestead (demo_tx key 0 0).
Definition demo_header (parent root number : Z) : Header :=
  mkHeader parent 0 root 0 0 [] 1 number 30000000 15000000 number [] [] (Some 1).
Definition demo_head1 : Header := demo_header 0 1 1.
Definition demo_head2 : Header := demo_header (Header_Hash demo_head1) 2 2.
Definition demo_side2 : Header := demo_header (Header_Hash demo_head1) 1 2.
(** The first state has the account at nonce 0, that of block 2 at nonce 2. *)
Definition demo_state (nonce : Z) : headState := mkHeadState (λ a, if a =? demo_sender 5 then nonce else 0) (λ _, 10 ^ 18).
#[local] Instance demo_chain : BlockChain := {|
  GetBlock h n :=
    if h =? Header_Hash demo_head1 then Some (mkBlock demo_head1 [])
    else if h =? Header_Hash demo_head2 then Some (mkBlock demo_head2 [demo_tx 5 0 9; demo_tx 5 1 2])
    else if h =? Header_Hash demo_side2 then Some (mkBlock demo_side2 []) else None;
  StateAt r := if r =? 1 then Some (demo_state 0) else if r =? 2 then Some (demo_state 2) else None
|}.
Definition demo_pool (ops : list (Z * pool_op)) : xres TxPool :=
  run_pool 0 DefaultTxPoolConfig (mkPoolChain None None None) demo_head1 ops.
(** The nonces and tips of the pending transactions. *)
Definition demo_pending (r : xres TxPool) : option (list (list Z)) :=
  match r with XRet t => Some (map (λ e : address * txList, map (λ x : ptx, Nonce x) (fst (tl_Flatten e.2))) (map_to_list (pending t))) | _ => None end.

Definition demo_dirty : option accountSet := Some (mkAccountSet {[demo_sender 5; demo_sender 6]} Homestead None).
(** Two accounts become pending, block 2 includes both transactions of the first
    account, which then sends another. *)
Definition demo_ops : list (Z * pool_op) :=
  [ (1, OpAddRemotes [demo_tx 5 0 9; demo_tx 5 1 2; demo_tx 6 0 3]); (2, OpReorg None demo_dirty);
    (3, OpReorg (Some (Some demo_head1, demo_head2)) None);
    (4, OpAddRemotes [demo_tx 5 2 9]); (5, OpReorg None demo_dirty) ].
(** The price limit is raised, and the sibling of block 2 becomes the head. *)
Definition demo_reorg : list (Z * pool_op) :=
  demo_ops ++ [ (6, OpSetGasPrice 3); (7, OpReorg (Some (Some demo_head2, demo_side2)) None) ].

Example pool_runs : demo_pending (demo_pool demo_ops) = Some [[2]; [0]].
Proof. vm_compute. reflexivity. Qed.

(** Only the first of the two transactions of the replaced block is taken back: the
    other is below the new price limit, and the pending list has a gap. *)
Example gap_after_reorg : demo_pending (demo_pool demo_reorg) = Some [[0; 2]; [0]].
Proof. vm_compute. reflexivity. Qed.

(** A new head that the chain does not have, while it has the old one. *)
Example reset_without_head :
  match demo_pool [] with XRet t => reset 8 (Some demo_head2) (demo_header 7 1 2) t | _ => XFuel end = XPanic.
Proof. vm_compute. reflexivity. Qed.

(** A transaction that was removed and sent again is in the heap twice, and is
    counted twice when room is made: one slot is freed for the two asked for. *)
Example discard_counts_twice :
  let tx := demo_tx 5 0 9 in
  let all := lk_Add tx false (lk_Remove (tx_Hash tx) (lk_Add tx false newTxLookup)) in
  match Discard all 2 false (pl_Put tx false (pl_Put tx false newTxPricedList)) with
  | Ret (drop, ok, _) => Some (drop, ok, Slots all)
  | Panic => None
  end = Some ([demo_tx 5 0 9; demo_tx 5 0 9], true, 1).
Proof. vm_compute. reflexivity. Qed.

Lemma demo_fits_int : fits_int DefaultTxPoolConfig.
Proof. constructor; vm_compute; reflexivity. Qed.

Lemma demo_in_range key nonce price : 0 ≤ nonce < 2 ^ 64 - 1 → ∀ al, fit al (demo_tx key nonce price).
Proof. intros H al. split; [unfold in_range; cbn; lia|cbn; lia]. Qed.

Lemma demo_ops_fit al : Forall (op_fits al) demo_ops.*2.
Proof.
  unfold demo_ops. cbn [fmap list_fmap snd]. rewrite !Forall_cons. split; [|split; [exact I|split; [|split; [|split; [exact I|apply Forall_nil_2]]]]].
  - cbn [op_fits]. repeat apply Forall_cons_2; try apply Forall_nil_2; apply demo_in_range; lia.
  - cbn [op_fits]. split; [by eexists; vm_compute|]. assert (reinjected (Some demo_head1) demo_head2 = Some (Some [])) as -> by (vm_compute; reflexivity).
    split; [apply Forall_nil_2|]. intros _. split; [done|]. by eexists.
  - cbn [op_fits]. repeat apply Forall_cons_2; try apply Forall_nil_2; apply demo_in_range; lia.
Qed.

Lemma demo_reorg_fit : Forall (op_fits false) demo_reorg.*2.
Proof.
  unfold demo_reorg. rewrite fmap_app. apply Forall_app_2; [apply demo_ops_fit|].
  cbn [fmap list_fmap snd]. rewrite !Forall_cons. split; [exact I|]. split; [|apply Forall_nil_2]. cbn [op_fits].
  split; [by eexists; vm_compute|].
  assert (reinjected (Some demo_head2) demo_side2 = Some (Some [demo_tx 5 0 9; demo_tx 5 1 2])) as -> by (vm_compute; reflexivity).
  split; [|done]. repeat apply Forall_cons_2; try apply Forall_nil_2; apply demo_in_range; lia.
Qed.



Lemma pending_is_executable_witness :
  ∃ t P Q V, run_pool 0 DefaultTxPoolConfig (mkPoolChain None None None) demo_head1 demo_ops = XRet t ∧ pool_ok [] P Q V t ∧ ∀ a,
    let next := head_nonce t a + zlen (P a) in
    map pNonce (P a) = seqZ (head_nonce t a) (zlen (P a)) ∧ fst (noncer_get a (pendingNonces t)) = next ∧
    ∀ x : ptx, x ∈ Q a → next ≤ Nonce x.
Proof. apply (pending_is_executable 0 _ _ demo_head1 (demo_state 0)); [exact demo_fits_int|reflexivity|exact (demo_ops_fit true)]. Defined.

Lemma pending_is_levelled_witness : ∃ t P Q V,
  run_pool 0 DefaultTxPoolConfig (mkPoolChain None None None) demo_head1 demo_reorg = XRet t ∧
  let loc := λ a, is_local a t in
  let size := λ m, total (map_to_list (pending t)).*1 (cut_to loc m P) in
  twp truncatePending (λ _ t', fixed t' = fixed t ∧ tp_locals t' = tp_locals t ∧ ∃ m, AccountSlots (tp_config t) ≤ Z.of_nat m ∧
    pool_ok [] (cut_to loc m P) Q (cut_nonces loc m P V) t' ∧
    (size m ≤ GlobalSlots (tp_config t) ∨ Z.of_nat m = AccountSlots (tp_config t)) ∧
    ((∀ a, cut_to loc m P a = P a) ∨ GlobalSlots (tp_config t) < size (S m))) t.
Proof.
  destruct (run_pool_keeps (Ch := demo_chain) false 0 DefaultTxPoolConfig (mkPoolChain None None None) demo_head1 (demo_state 0) demo_reorg demo_fits_int
    eq_refl demo_reorg_fit) as (t & P & Q & V & E & H & _).
  exists t, P, Q, V. split; [exact E|]. exact (pending_is_levelled P Q V t H).
Defined.
