(* ===== verification/TxSchedule.v ===== *)
(** * Scheduling of the pool's reorganisations

    [scheduleReorgLoop]: requests for resets and promotions are merged while a run of
    [runReorg] is active, and a new run is launched when it is done.  The loop is the
    only one that touches its variables; what arrives on its channels, and when a run
    is done, is an arbitrary sequence of events.  A channel is the number of its
    creation by the loop. *)
From S2P Require Import Prelude Common StateObject Concrete Consensus Transaction TxSigning TxList TxOrder TxPriced TxPool.
Import Crypto.

Section Schedule.
Context {B : Backend} {R : Recover} {MO : MapOrder}.
Implicit Types tx : ptx.








(** ** What is served *)












(** ** Waiting requests are launched *)







(** ** One run at a time *)





(** ** The heads of the resets *)












End Schedule.

(** ** Example *)

#[local] Instance ClearRecover : Recover := {| Ecrecover _ sig := Ok (4 :: take 32 sig) |}.
#[local] Instance KeyOrder : MapOrder := {| iteration A l := l; iteration_perm A l := reflexivity l |}.



