(* ===== verification/TrieEncoding.v ===== *)
(** * Key encodings of the trie (trie/encoding.go)

    Key bytes, hex nibbles with an optional terminator, and the compact form of
    the nodes on disk; the in-place variant of the compact encoder.  The last
    part shows the round trips and that the two encoders agree. *)
From S2P Require Import Prelude Common.

Definition terminator : Z := 16.

(** [hasTerm] *)
Definition hasTerm (s : bytes) : bool :=
  match last s with Some b => b =? 16 | None => false end.

(** [decodeNibbles]: pairs of nibbles to bytes; an odd rest is out of range. *)
Fixpoint decodeNibbles (nibbles : bytes) : outcome bytes :=
  match nibbles with
  | [] => Ret []
  | h :: l :: rest => do! bs <- decodeNibbles rest; Ret (Z.lor (u8 (Z.shiftl h 4)) l :: bs)
  | [_] => Panic
  end.

Definition hexToCompact (hex : bytes) : outcome bytes :=
  let '(term, hex) := if hasTerm hex then (1, take (length hex - 1) hex) else (0, hex) in
  let buf0 := u8 (Z.shiftl term 5) in
  match hex with
  | x :: hex' =>
      if Z.land (zlen hex) 1 =? 1 then
        do! bs <- decodeNibbles hex'; Ret (Z.lor (Z.lor buf0 (Z.shiftl 1 4)) x :: bs)
      else do! bs <- decodeNibbles hex; Ret (buf0 :: bs)
  | [] => Ret [buf0]
  end.

Definition keybytesToHex (str : bytes) : bytes :=
  flat_map (λ b, [b / 16; b mod 16]) str ++ [16].

Definition compactToHex (compact : bytes) : bytes :=
  match compact with
  | [] => []
  | _ =>
      let base := keybytesToHex compact in
      let b0 := default 0 (base !! 0%nat) in
      let base := if b0 <? 2 then take (length base - 1) base else base in
      drop (Z.to_nat (2 - Z.land b0 1)) base
  end.

Definition hexToKeybytes (hex : bytes) : outcome bytes :=
  let hex := if hasTerm hex then take (length hex - 1) hex else hex in
  if negb (Z.land (zlen hex) 1 =? 0) then Panic else decodeNibbles hex.

(** The loop of [hexToCompactInPlace]: [hex[bi] = hex[ni]<<4 | hex[ni+1]]. *)
Fixpoint compact_loop (fuel : nat) (hexLen bi ni : nat) (hex : bytes) : outcome bytes :=
  match fuel with
  | O => Ret hex
  | S fuel =>
      if (ni <? hexLen)%nat then
        match hex !! ni, hex !! S ni with
        | Some h, Some l => compact_loop fuel hexLen (S bi) (S (S ni)) (<[bi := Z.lor (u8 (Z.shiftl h 4)) l]> hex)
        | _, _ => Panic
        end
      else Ret hex
  end.

(** The buffer afterwards and the length of the compact key in it. *)
Definition hexToCompactInPlace (hex : bytes) : outcome (bytes * Z) :=
  let '(firstByte, hexLen) := if hasTerm hex then (Z.shiftl 1 5, (length hex - 1)%nat) else (0, length hex) in
  let binLen := Z.of_nat hexLen / 2 + 1 in
  do! (firstByte, ni) <-
    (if Z.land (Z.of_nat hexLen) 1 =? 1 then
       match hex !! 0%nat with
       | Some x => Ret (Z.lor (Z.lor firstByte (Z.shiftl 1 4)) x, 1%nat)
       | None => Panic
       end
     else Ret (firstByte, 0%nat));
  do! hex <- compact_loop hexLen hexLen 1 ni hex;
  match hex with
  | [] => Panic
  | _ :: rest => Ret (firstByte :: rest, binLen)
  end.

(** [prefixLen] *)
Fixpoint prefixLen (a b : bytes) : nat :=
  match a, b with
  | x :: a, y :: b => if x =? y then S (prefixLen a b) else 0
  | _, _ => 0
  end.

(** ** Nibbles and terminated keys *)

Definition nibble (b : Z) : Prop := 0 ≤ b < 16.
Definition nibbles (k : bytes) : Prop := Forall nibble k.
(** Nibbles and the terminator. *)
Definition term (k : bytes) : Prop := ∃ q, k = q ++ [16] ∧ nibbles q.

#[export] Instance nibbles_dec k : Decision (nibbles k).
Proof. unfold nibbles, nibble. apply _. Defined.

Lemma hasTerm_term k : term k → hasTerm k = true.
Proof. intros (q & -> & _). unfold hasTerm. by rewrite last_snoc. Qed.
Lemma hasTerm_nibbles k : nibbles k → hasTerm k = false.
Proof.
  intros Hk. unfold hasTerm. destruct (last k) as [b|] eqn:E; [|done].
  apply last_Some_elem_of in E. unfold nibbles in Hk. rewrite Forall_forall in Hk. apply Hk in E. unfold nibble in E.
  apply Z.eqb_neq. lia.
Qed.

Lemma term_cons x k : term (x :: k) → (x = 16 ∧ k = []) ∨ (nibble x ∧ term k).
Proof.
  intros (q & E & Hq). destruct q as [|y q]; cbn in E; injection E as -> ->; [by left|].
  apply Forall_cons in Hq as [H1 H2]. right. split; [done|]. by exists q.
Qed.
Lemma term_cons_2 x k : nibble x → term k → term (x :: k).
Proof. intros Hx (q & -> & Hq). exists (x :: q). split; [done|by constructor]. Qed.
Lemma term_app k1 k2 : nibbles k1 → term k2 → term (k1 ++ k2).
Proof. intros H1 (q & -> & Hq). exists (k1 ++ q). split; [by rewrite app_assoc|by apply Forall_app]. Qed.
Lemma term_not_nil k : term k → k ≠ [].
Proof. intros (q & -> & _). by destruct q. Qed.
Lemma term_16 : term [16].
Proof. exists []. split; [done|constructor]. Qed.
Lemma term_not_nibbles k : term k → nibbles k → False.
Proof. intros Ht Hn. apply hasTerm_term in Ht. apply hasTerm_nibbles in Hn. congruence. Qed.

(** ** Packing nibbles *)

Lemma pair_ind (Q : bytes → Prop) :
  Q [] → (∀ x, Q [x]) → (∀ x y l, Q l → Q (x :: y :: l)) → ∀ l, Q l.
Proof.
  intros H0 H1 H2. fix IH 1. intros [|x [|y l]]; [exact H0|apply H1|]. apply H2, IH.
Qed.

Definition even_length (l : bytes) : bool := Z.land (zlen l) 1 =? 0.

Lemma zlen_land1 (l : bytes) : Z.land (zlen l) 1 = zlen l mod 2.
Proof. apply (Z.land_ones (zlen l) 1). lia. Qed.
Lemma even_length_cons2 x y l : even_length (x :: y :: l) = even_length l.
Proof.
  unfold even_length. rewrite !zlen_land1. unfold zlen. cbn [length].
  replace (Z.of_nat (S (S (length l)))) with (Z.of_nat (length l) + 1 * 2) by lia. by rewrite Z_mod_plus_full.
Qed.
Lemma even_length_cons x l : even_length (x :: l) = negb (even_length l).
Proof.
  unfold even_length. rewrite !zlen_land1. unfold zlen. cbn [length]. rewrite Nat2Z.inj_succ.
  pose proof (Z.mod_pos_bound (Z.of_nat (length l)) 2 ltac:(lia)).
  destruct (Z.eqb_spec (Z.of_nat (length l) mod 2) 0) as [E|E];
    destruct (Z.eqb_spec (Z.succ (Z.of_nat (length l)) mod 2) 0) as [E'|E']; try done;
    Z.to_euclidean_division_equations; lia.
Qed.
Lemma odd_check l : (Z.land (zlen l) 1 =? 1) = negb (even_length l).
Proof.
  unfold even_length. rewrite zlen_land1. pose proof (Z.mod_pos_bound (zlen l) 2 ltac:(lia)).
  destruct (Z.eqb_spec (zlen l mod 2) 1), (Z.eqb_spec (zlen l mod 2) 0); try done; lia.
Qed.

Definition split_byte (b : Z) : bytes := [b / 16; b mod 16].

Lemma join_nibbles h l : nibble h → nibble l → Z.lor (u8 (Z.shiftl h 4)) l = 16 * h + l.
Proof.
  intros [H1 H2] [H3 H4]. unfold u8. rewrite wrap_id.
  - rewrite lor_shiftl_add by lia. lia.
  - unfold in_w. rewrite Z.shiftl_mul_pow2 by lia. lia.
Qed.

Lemma decodeNibbles_even q :
  nibbles q → even_length q = true →
  ∃ bs, decodeNibbles q = Ret bs ∧ flat_map split_byte bs = q ∧ wf_bytes bs ∧ (2 * length bs = length q)%nat.
Proof.
  induction q as [|x|x y l IH] using pair_ind; intros Hn He.
  - exists []. do 2 (split; [done|]). split; [constructor|done].
  - by rewrite even_length_cons in He.
  - apply Forall_cons in Hn as [Hx Hn]. apply Forall_cons in Hn as [Hy Hn]. rewrite even_length_cons2 in He.
    destruct (IH Hn He) as (bs & E & F & W & L). exists ((16 * x + y) :: bs). cbn [decodeNibbles].
    rewrite E. cbn [obind]. rewrite join_nibbles by done. unfold nibble in *. split; [done|].
    split; [|split; [constructor; [unfold is_byte; lia|done]|cbn [length]; lia]].
    cbn [flat_map]. rewrite F. unfold split_byte. cbn [app]. f_equal; [|f_equal]; Z.to_euclidean_division_equations; lia.
Qed.

Lemma flat_map_split bs : wf_bytes bs → nibbles (flat_map split_byte bs).
Proof.
  induction 1 as [|b bs Hb _ IH]; [constructor|]. cbn. unfold is_byte in Hb.
  constructor; [|constructor; [|exact IH]]; unfold nibble; Z.to_euclidean_division_equations; lia.
Qed.
Lemma even_flat_map bs : even_length (flat_map split_byte bs) = true.
Proof. induction bs as [|b bs IH]; [done|]. cbn [flat_map split_byte app]. by rewrite even_length_cons2. Qed.

Lemma keybytesToHex_eq str : keybytesToHex str = flat_map split_byte str ++ [16].
Proof. done. Qed.
Lemma keybytesToHex_term str : wf_bytes str → term (keybytesToHex str).
Proof. intros Hw. eexists. split; [done|by apply flat_map_split]. Qed.

Lemma split_inj bs1 bs2 : flat_map split_byte bs1 = flat_map split_byte bs2 → bs1 = bs2.
Proof.
  revert bs2. induction bs1 as [|b1 bs1 IH]; intros [|b2 bs2] E; try done. cbn in E. injection E as E1 E2 E3.
  f_equal; [|by apply IH]. rewrite (Z.div_mod b1 16), (Z.div_mod b2 16) by lia. congruence.
Qed.
Lemma keybytesToHex_inj s1 s2 : keybytesToHex s1 = keybytesToHex s2 → s1 = s2.
Proof. rewrite !keybytesToHex_eq. intros E. apply app_inj_tail in E as [E _]. by apply split_inj. Qed.

Lemma take_snoc {A} (l : list A) x : take (length (l ++ [x]) - 1) (l ++ [x]) = l.
Proof. rewrite length_app. cbn [length]. replace (length l + 1 - 1)%nat with (length l) by lia. by rewrite take_app_length. Qed.

Lemma hexToKeybytes_keybytesToHex str : wf_bytes str → hexToKeybytes (keybytesToHex str) = Ret str.
Proof.
  intros Hw. unfold hexToKeybytes. rewrite hasTerm_term by by apply keybytesToHex_term.
  rewrite keybytesToHex_eq, take_snoc. pose proof (even_flat_map str) as He. unfold even_length in He. rewrite He. cbn [negb].
  destruct (decodeNibbles_even (flat_map split_byte str)) as (bs & -> & F & _); [by apply flat_map_split|done|].
  f_equal. by apply split_inj.
Qed.

(** ** The compact form *)

(** The first byte holds the flags and, for an odd number, a nibble. *)
Definition compact_of (t : Z) (q : bytes) : outcome bytes :=
  match q with
  | x :: q' => if even_length q then do! bs <- decodeNibbles q; Ret (32 * t :: bs)
               else do! bs <- decodeNibbles q'; Ret (32 * t + 16 + x :: bs)
  | [] => Ret [32 * t]
  end.

Lemma flag_byte t x : (t = 0 ∨ t = 1) → nibble x → Z.lor (Z.lor (u8 (Z.shiftl t 5)) (Z.shiftl 1 4)) x = 32 * t + 16 + x.
Proof.
  intros Ht Hx. assert (Z.lor (u8 (Z.shiftl t 5)) (Z.shiftl 1 4) = Z.shiftl (2 * t + 1) 4) as E by (by destruct Ht as [->| ->]).
  rewrite E. unfold nibble in Hx. rewrite lor_shiftl_add by lia. lia.
Qed.

Lemma hexToCompact_of (t : bool) q :
  nibbles q → hexToCompact (if t then q ++ [16] else q) = compact_of (if t then 1 else 0) q.
Proof.
  intros Hq. unfold hexToCompact.
  assert ((if hasTerm (if t then q ++ [16] else q) then (1, take (length (if t then q ++ [16] else q) - 1)
      (if t then q ++ [16] else q)) else (0, if t then q ++ [16] else q)) = (if t then 1 else 0, q)) as ->.
  { destruct t; [rewrite hasTerm_term by (by exists q); by rewrite take_snoc|by rewrite hasTerm_nibbles]. }
  unfold compact_of. destruct q as [|x q']; [by destruct t|]. rewrite odd_check. apply Forall_cons in Hq as [Hx _].
  destruct (even_length (x :: q')); cbn [negb]; [by destruct t|].
  assert (Z.lor (Z.lor (u8 (Z.shiftl (if t then 1 else 0) 5)) (Z.shiftl 1 4)) x = 32 * (if t then 1 else 0) + 16 + x) as ->
    by (apply flag_byte; [destruct t; auto|done]). done.
Qed.

Lemma compactToHex_of (t : bool) q :
  nibbles q → ∃ c, compact_of (if t then 1 else 0) q = Ret c ∧ c ≠ [] ∧ wf_bytes c ∧
    compactToHex c = if t then q ++ [16] else q.
Proof.
  intros Hq. set (tz := if t then 1 else 0). assert (tz = 0 ∨ tz = 1) as Htz by (subst tz; destruct t; auto).
  assert (∀ b bs r, is_byte b → wf_bytes bs → b / 16 = 2 * tz + (if even_length (r ++ flat_map split_byte bs) then 0 else 1) →
    (r = [] ∨ (r = [b mod 16] )) →
    compactToHex (b :: bs) = if t then (r ++ flat_map split_byte bs) ++ [16] else r ++ flat_map split_byte bs) as Hgo.
  { intros b bs r Hb Hbs Hdiv Hr. unfold compactToHex. rewrite keybytesToHex_eq. cbn [flat_map split_byte app].
    set (body := flat_map split_byte bs) in *. cbn [lookup list_lookup default from_option id].
    rewrite Hdiv. assert (even_length body = true) as Hev by apply even_flat_map.
    assert ((2 * tz + (if even_length (r ++ body) then 0 else 1) <? 2) = negb t) as ->.
    { subst tz. destruct t, (even_length (r ++ body)); done. }
    assert (Z.to_nat (2 - Z.land (2 * tz + (if even_length (r ++ body) then 0 else 1)) 1) = (2 - length r)%nat) as ->.
    { destruct Hr as [->| ->]; cbn [app]; rewrite ?even_length_cons, Hev; cbn [negb]; by destruct Htz as [->| ->]. }
    assert (take (length ((b / 16) :: (b mod 16) :: body ++ [16]) - 1) ((b / 16) :: (b mod 16) :: body ++ [16])
      = (b / 16) :: (b mod 16) :: body) as Htk.
    { change ((b / 16) :: (b mod 16) :: body ++ [16]) with (((b / 16) :: (b mod 16) :: body) ++ [16]). apply take_snoc. }
    rewrite Hdiv in Htk.
    destruct t; cbn [negb]; [|rewrite Htk]; destruct Hr as [->| ->]; cbn [length Nat.sub drop app]; try done. }
  destruct q as [|x q'] eqn:Eq.
  - exists [32 * tz]. split; [done|]. split; [done|]. split; [constructor; [|constructor]; unfold is_byte; lia|].
    rewrite (Hgo (32 * tz) [] []); [done|unfold is_byte; lia|constructor| |by left].
    change (even_length ([] ++ flat_map split_byte [])) with true. cbn [andb]. Z.to_euclidean_division_equations; lia.
  - cbn [compact_of]. destruct (even_length (x :: q')) eqn:Ee.
    + destruct (decodeNibbles_even (x :: q') Hq Ee) as (bs & -> & F & W & _). cbn [obind]. eexists. split; [done|].
      split; [done|]. split; [constructor; [unfold is_byte; lia|done]|].
      rewrite (Hgo (32 * tz) bs []); [by rewrite F|unfold is_byte; lia|done| |by left].
      cbn [app]. rewrite F, Ee. Z.to_euclidean_division_equations; lia.
    + apply Forall_cons in Hq as [Hx Hq']. rewrite even_length_cons in Ee. apply negb_false_iff in Ee.
      destruct (decodeNibbles_even q' Hq' Ee) as (bs & -> & F & W & _). cbn [obind]. eexists. split; [done|].
      unfold nibble in Hx. split; [done|]. split; [constructor; [unfold is_byte; lia|done]|].
      assert ((32 * tz + 16 + x) mod 16 = x) as Hm by (Z.to_euclidean_division_equations; lia).
      rewrite (Hgo (32 * tz + 16 + x) bs [x]); [by rewrite F|unfold is_byte; lia|done| |right; by rewrite Hm].
      rewrite F. cbn [app]. rewrite even_length_cons, Ee. cbn [negb]. Z.to_euclidean_division_equations; lia.
Qed.

(** ** The encoder that works in place *)

Lemma compact_loop_spec hexLen rest : ∀ fuel bi ni hex tl bs,
  drop ni hex = rest ++ tl → (ni + length rest = hexLen)%nat → (bi ≤ S ni)%nat → (length rest ≤ fuel)%nat →
  decodeNibbles rest = Ret bs →
  compact_loop fuel hexLen bi ni hex = Ret (take bi hex ++ bs ++ drop (bi + length bs) hex).
Proof.
  induction rest as [|x|x y rest IH] using pair_ind; intros fuel bi ni hex tl bs Hd Hlen Hbi Hf Hdec; [|done|].
  - injection Hdec as <-. cbn [length app]. rewrite Nat.add_0_r, take_drop. cbn [length] in Hlen.
    destruct fuel; [done|]. cbn [compact_loop]. by destruct (Nat.ltb_spec ni hexLen); [lia|].
  - cbn [decodeNibbles] in Hdec. destruct (decodeNibbles rest) as [bs'|] eqn:Eb; [|done]. injection Hdec as <-.
    cbn [length] in *. destruct fuel as [|fuel]; [lia|]. cbn [compact_loop].
    destruct (Nat.ltb_spec ni hexLen); [|lia].
    assert (hex !! ni = Some x ∧ hex !! S ni = Some y) as [-> ->].
    { pose proof (lookup_drop hex ni 0) as L0. pose proof (lookup_drop hex ni 1) as L1. rewrite Hd in L0, L1. cbn in L0, L1.
      rewrite Nat.add_0_r in L0. rewrite Nat.add_1_r in L1. by rewrite <- L0, <- L1. }
    set (b := Z.lor (u8 (Z.shiftl x 4)) y).
    assert (bi < length hex)%nat as Hbl.
    { pose proof (length_drop hex ni) as L. rewrite Hd in L. cbn [length app] in L. lia. }
    rewrite (IH fuel (S bi) (S (S ni)) (<[bi := b]> hex) tl bs'); [|
      rewrite drop_insert_lt by lia; replace (S (S ni)) with (ni + 2)%nat by lia; by rewrite <- drop_drop, Hd
      |lia|lia|lia|done].
    f_equal. rewrite (take_S_r _ _ b) by by apply list_lookup_insert_eq. rewrite take_insert_ge by lia.
    rewrite drop_insert_lt by lia. rewrite <- app_assoc. cbn [app]. by replace (S bi + length bs')%nat with (bi + S (length bs'))%nat by lia.
Qed.

Lemma inplace_of (t : bool) q :
  nibbles q → q ≠ [] ∨ t = true →
  ∃ buf c, hexToCompactInPlace (if t then q ++ [16] else q) = Ret (buf, zlen c) ∧
    compact_of (if t then 1 else 0) q = Ret c ∧ take (length c) buf = c.
Proof.
  intros Hq Hne. unfold hexToCompactInPlace. set (hex := if t then q ++ [16] else q).
  assert ((if hasTerm hex then (Z.shiftl 1 5, (length hex - 1)%nat) else (0, length hex)) = (32 * (if t then 1 else 0), length q)) as ->.
  { subst hex. destruct t; [rewrite hasTerm_term by (by exists q); rewrite length_app; cbn [length]; f_equal; lia|
      by rewrite hasTerm_nibbles]. }
  set (tz := if t then 1 else 0). cbv zeta. change (Z.of_nat (length q)) with (zlen q). rewrite odd_check.
  assert (∃ tl, hex = q ++ tl ∧ hex ≠ []) as (tl & Ehex & Hhex).
  { subst hex. destruct t; [exists [16]; split; [done|by destruct q]|exists []; split; [by rewrite app_nil_r|]].
    by destruct Hne. }
  clearbody hex. destruct (even_length q) eqn:Ee; cbn [negb obind].
  - destruct (decodeNibbles_even q Hq Ee) as (bs & Eb & _ & _ & Hl).
    rewrite (compact_loop_spec (length q) q (length q) 1 0 hex tl bs); [|by rewrite drop_0|lia|lia|lia|done].
    destruct hex as [|h0 hex']; [done|]. cbn [obind take app].
    exists (32 * tz :: bs ++ drop (length bs) hex'), (32 * tz :: bs). split.
    + do 2 f_equal. unfold zlen. cbn [length]. rewrite Nat2Z.inj_succ. rewrite <- Hl, Nat2Z.inj_mul.
      rewrite Z.mul_comm, Z.div_mul by lia. lia.
    + split; [|cbn [length take]; by rewrite take_app_length]. unfold compact_of. destruct q as [|x q'].
      * by injection Eb as <-.
      * rewrite Ee, Eb. done.
  - destruct q as [|x q']; [done|]. cbn [compact_of]. rewrite Ee. assert (hex !! 0%nat = Some x) as -> by by rewrite Ehex.
    cbn [obind].
    rewrite even_length_cons in Ee. apply negb_false_iff in Ee. apply Forall_cons in Hq as [Hx Hq].
    destruct (decodeNibbles_even q' Hq Ee) as (bs & Eb & _ & _ & Hl). rewrite Eb. cbn [obind].
    rewrite (compact_loop_spec (length (x :: q')) q' (length (x :: q')) 1 1 hex tl bs);
      [|by rewrite Ehex|cbn [length]; lia|lia|cbn [length]; lia|done].
    rewrite Ehex. cbn [obind take app drop].
    assert (Z.lor (Z.lor (32 * tz) (Z.shiftl 1 4)) x = 32 * tz + 16 + x) as ->.
    { pose proof (flag_byte tz x ltac:(subst tz; destruct t; auto) Hx) as F.
      by replace (u8 (Z.shiftl tz 5)) with (32 * tz) in F by (subst tz; by destruct t). }
    eexists _, (32 * tz + 16 + x :: bs). split.
    + do 2 f_equal. unfold zlen. cbn [length]. rewrite !Nat2Z.inj_succ, <- Hl. Z.to_euclidean_division_equations; lia.
    + split; [done|]. cbn [length]. rewrite take_0. cbn [take app]. by rewrite take_app_length.
Qed.

(** ** Claims *)

(** The compact form of a key, with or without terminator, decodes to the
    key; the encoder that overwrites its argument leaves the same bytes at the
    front of the buffer; and the bytes of a key survive the way through
    nibbles. *)
Lemma compact_roundtrip k str :
  term k ∨ (nibbles k ∧ k ≠ []) → wf_bytes str →
  (∃ c buf, hexToCompact k = Ret c ∧ compactToHex c = k ∧
     hexToCompactInPlace k = Ret (buf, zlen c) ∧ take (length c) buf = c) ∧
  hexToKeybytes (keybytesToHex str) = Ret str.
Proof.
  intros Hk Hs. split; [|by apply hexToKeybytes_keybytesToHex].
  assert (∃ (t : bool) q, k = (if t then q ++ [16] else q) ∧ nibbles q ∧ (q ≠ [] ∨ t = true)) as (t & q & -> & Hq & Hne).
  { destruct Hk as [(q & -> & Hq)|[Hk Hn]]; [exists true, q|exists false, k]; auto. }
  destruct (compactToHex_of t q Hq) as (c & E & _ & _ & F). destruct (inplace_of t q Hq Hne) as (buf & c' & E1 & E2 & E3).
  rewrite E in E2. injection E2 as <-. exists c, buf. rewrite (hexToCompact_of t q Hq). done.
Qed.

