(* ===== verification/Trie.v ===== *)
(** * The Merkle Patricia trie (trie/trie.go, trie/node.go)

    Nodes with their cache flags, [tryGet], [insert], [delete] and the trie
    around them over a node database that is a parameter ([Database.node],
    decoded nodes by hash).  A read or a write that reaches a node the database
    does not have fails with [MissingNodeError]. *)
From S2P Require Import Prelude Common TrieEncoding.

(** ** Nodes *)

Record nodeFlag := mkFlag { nf_hash : option bytes; nf_dirty : bool }.

Inductive node :=
| nilNode
| valueNode (v : bytes)
| shortNode (Key : bytes) (Val : node) (flags : nodeFlag)
| fullNode (Children : list node) (flags : nodeFlag)
| hashNode (h : bytes).

(** [newFlag] *)
Definition newFlag : nodeFlag := mkFlag None true.

Inductive trie_error := MissingNodeError (NodeHash : hash) (Path : bytes).

(** What an operation on nodes gives; [TFuel] bounds the recursion. *)
Inductive tres (A : Type) : Type :=
| TOk (a : A)
| TErr (e : trie_error)
| TPanic
| TFuel.
Arguments TOk {A}. Arguments TErr {A}. Arguments TPanic {A}. Arguments TFuel {A}.

Definition tr_bind {A C} (x : tres A) (f : A → tres C) : tres C :=
  match x with TOk a => f a | TErr e => TErr e | TPanic => TPanic | TFuel => TFuel end.
Notation "'trie!' x <- m ; k" := (tr_bind m (λ x, k))
  (at level 10, x pattern, m at level 200, k at level 200).

Definition nodes_db : Type := hash → option node.

Section Operations.
Context (db : nodes_db).

Definition resolveHash (h prefix : bytes) : tres node :=
  let hash := Bytes.BytesToHash h in
  match db hash with Some n => TOk n | None => TErr (MissingNodeError hash prefix) end.

Definition resolve (n : node) (prefix : bytes) : tres node :=
  match n with hashNode h => resolveHash h prefix | _ => TOk n end.

(** Indexing the children array. *)
Definition child (cs : list node) (i : Z) : tres node :=
  match cs !! Z.to_nat i with Some c => TOk c | None => TPanic end.
Definition set_child (i : Z) (c : node) (cs : list node) : list node := <[Z.to_nat i := c]> cs.

(** ** Reading *)

Definition get_result : Type := option bytes * node * bool.

(** [pos] counts the nibbles of [key] already used. *)
Fixpoint tryGet (fuel : nat) (origNode : node) (key : bytes) (pos : nat) : tres get_result :=
  match fuel with
  | O => TFuel
  | S fuel =>
      match origNode with
      | nilNode => TOk (None, nilNode, false)
      | valueNode v => TOk (Some v, origNode, false)
      | shortNode k val fl =>
          if (Z.of_nat (length key) - Z.of_nat pos <? zlen k)
             || negb (bool_decide (k = take (length k) (drop pos key))) then TOk (None, origNode, false)
          else
            trie! (value, newnode, didResolve) <- tryGet fuel val key (pos + length k);
            TOk (value, if didResolve then shortNode k newnode fl else origNode, didResolve)
      | fullNode cs fl =>
          match key !! pos with
          | None => TPanic
          | Some i =>
              trie! c <- child cs i;
              trie! (value, newnode, didResolve) <- tryGet fuel c key (S pos);
              TOk (value, if didResolve then fullNode (set_child i newnode cs) fl else origNode, didResolve)
          end
      | hashNode h =>
          trie! c <- resolveHash h (take pos key);
          trie! (value, newnode, _) <- tryGet fuel c key pos;
          TOk (value, newnode, true)
      end
  end.

(** ** Writing *)

Fixpoint insert (fuel : nat) (n : node) (prefix key : bytes) (value : node) : tres (bool * node) :=
  match fuel with
  | O => TFuel
  | S fuel =>
      match key with
      | [] =>
          match n with
          | valueNode v =>
              match value with
              | valueNode w => TOk (negb (bool_decide (v = w)), value)
              | _ => TPanic
              end
          | _ => TOk (true, value)
          end
      | k0 :: krest =>
          match n with
          | shortNode k val fl =>
              let matchlen := prefixLen key k in
              if (matchlen =? length k)%nat then
                trie! (dirty, nn) <- insert fuel val (prefix ++ take matchlen key) (drop matchlen key) value;
                if negb dirty then TOk (false, n) else TOk (true, shortNode k nn newFlag)
              else
                match k !! matchlen, key !! matchlen with
                | Some b1, Some b2 =>
                    trie! (_, c1) <- insert fuel nilNode (prefix ++ take (S matchlen) k) (drop (S matchlen) k) val;
                    trie! (_, c2) <- insert fuel nilNode (prefix ++ take (S matchlen) key) (drop (S matchlen) key) value;
                    let branch := fullNode (set_child b2 c2 (set_child b1 c1 (replicate 17 nilNode))) newFlag in
                    if (17 <=? b1) || (17 <=? b2) then TPanic
                    else if (matchlen =? 0)%nat then TOk (true, branch)
                    else TOk (true, shortNode (take matchlen key) branch newFlag)
                | _, _ => TPanic
                end
          | fullNode cs fl =>
              trie! c <- child cs k0;
              trie! (dirty, nn) <- insert fuel c (prefix ++ [k0]) krest value;
              if negb dirty then TOk (false, n) else TOk (true, fullNode (set_child k0 nn cs) newFlag)
          | nilNode => TOk (true, shortNode key value newFlag)
          | hashNode h =>
              trie! rn <- resolveHash h prefix;
              trie! (dirty, nn) <- insert fuel rn prefix key value;
              if negb dirty then TOk (false, rn) else TOk (true, nn)
          | valueNode _ => TPanic
          end
      end
  end.

Definition is_nil (n : node) : bool := match n with nilNode => true | _ => false end.

(** The loop over the children: the index of the only one left, -1 for none,
    -2 for several. *)
Fixpoint single_child (i pos : Z) (cs : list node) : Z :=
  match cs with
  | [] => pos
  | c :: cs =>
      if is_nil c then single_child (i + 1) pos cs
      else if pos =? -1 then single_child (i + 1) i cs else -2
  end.

Fixpoint delete_ (fuel : nat) (n : node) (prefix key : bytes) : tres (bool * node) :=
  match fuel with
  | O => TFuel
  | S fuel =>
      match n with
      | shortNode k val fl =>
          let matchlen := prefixLen key k in
          if (matchlen <? length k)%nat then TOk (false, n)
          else if (matchlen =? length key)%nat then TOk (true, nilNode)
          else
            trie! (dirty, c) <- delete_ fuel val (prefix ++ take (length k) key) (drop (length k) key);
            if negb dirty then TOk (false, n)
            else
              match c with
              | shortNode k2 val2 _ => TOk (true, shortNode (k ++ k2) val2 newFlag)
              | _ => TOk (true, shortNode k c newFlag)
              end
      | fullNode cs fl =>
          match key with
          | [] => TPanic
          | k0 :: krest =>
              trie! c <- child cs k0;
              trie! (dirty, nn) <- delete_ fuel c (prefix ++ [k0]) krest;
              if negb dirty then TOk (false, n)
              else
                let cs := set_child k0 nn cs in
                let n := fullNode cs newFlag in
                if negb (is_nil nn) then TOk (true, n)
                else
                  let pos := single_child 0 (-1) cs in
                  if 0 <=? pos then
                    trie! c <- child cs pos;
                    if negb (pos =? 16) then
                      trie! cnode <- resolve c prefix;
                      match cnode with
                      | shortNode k2 val2 _ => TOk (true, shortNode (pos :: k2) val2 newFlag)
                      | _ => TOk (true, shortNode [pos] c newFlag)
                      end
                    else TOk (true, shortNode [pos] c newFlag)
                  else TOk (true, n)
          end
      | valueNode _ => TOk (true, nilNode)
      | nilNode => TOk (false, nilNode)
      | hashNode h =>
          trie! rn <- resolveHash h prefix;
          trie! (dirty, nn) <- delete_ fuel rn prefix key;
          if negb dirty then TOk (false, rn) else TOk (true, nn)
      end
  end.

(** ** The trie *)

Record Trie := mkTrie { tr_root : node; tr_unhashed : Z }.

(** Enough steps for a key of this length. *)
Definition key_fuel (key : bytes) : nat := 2 * length key + 2.

(** [New]: a trie over the node database; the zero hash and [emptyRoot] need no
    node. *)
Definition emptyRoot : hash := 0x56e81f171bcc55a6ff8345e692c0f86e5b48e01b996cadc001622fb5e363b421.

Definition New (root : hash) : tres Trie :=
  if negb (root =? 0) && negb (root =? emptyRoot) then
    trie! rootnode <- resolveHash (be_fixed 32 root) [];
    TOk (mkTrie rootnode 0)
  else TOk (mkTrie nilNode 0).

(** Each operation gives its result (a value and an error) and the trie
    afterwards: an error leaves the root as it was. *)
Definition TryGet (key : bytes) (t : Trie) : tres (option bytes) * Trie :=
  let k := keybytesToHex key in
  match tryGet (key_fuel k) (tr_root t) k 0 with
  | TOk (value, newroot, didResolve) =>
      (TOk value, if didResolve then mkTrie newroot (tr_unhashed t) else t)
  | TErr e => (TErr e, t)
  | TPanic => (TPanic, t)
  | TFuel => (TFuel, t)
  end.

(** [t.root = n], or the error. *)
Definition set_root (r : tres (bool * node)) (t : Trie) : tres unit * Trie :=
  match r with
  | TOk (_, n) => (TOk tt, mkTrie n (tr_unhashed t))
  | TErr e => (TErr e, t)
  | TPanic => (TPanic, t)
  | TFuel => (TFuel, t)
  end.
Definition count_change (t : Trie) : Trie := mkTrie (tr_root t) (tr_unhashed t + 1).

Definition TryUpdate (key value : bytes) (t : Trie) : tres unit * Trie :=
  let t := count_change t in
  let k := keybytesToHex key in
  set_root (if negb (zlen value =? 0) then insert (key_fuel k) (tr_root t) [] k (valueNode value)
            else delete_ (key_fuel k) (tr_root t) [] k) t.

Definition TryDelete (key : bytes) (t : Trie) : tres unit * Trie :=
  let t := count_change t in
  let k := keybytesToHex key in
  set_root (delete_ (key_fuel k) (tr_root t) [] k) t.

(** [Get], [Update], [Delete]: an error is only logged. *)
Definition log_error {A} (d : A) (r : tres A * Trie) : tres A * Trie :=
  match r with (TErr _, t) => (TOk d, t) | _ => r end.
Definition Get (key : bytes) (t : Trie) : tres (option bytes) * Trie := log_error None (TryGet key t).
Definition Update (key value : bytes) (t : Trie) : tres unit * Trie := log_error tt (TryUpdate key value t).
Definition Delete (key : bytes) (t : Trie) : tres unit * Trie := log_error tt (TryDelete key t).

(** [Reset] *)
Definition Reset (t : Trie) : Trie := mkTrie nilNode 0.

End Operations.
