(* ===== verification/TrieMap.v ===== *)
(** * The trie is a map (proofs about trie/trie.go)

    [sees]: the values a node holds, by the nibbles that lead to them, through
    the node database.  [wf]: the canonical form (a leaf has a terminated key, an
    extension leads to a branch, a branch has two children or more).  Every
    operation keeps the form and changes exactly one key; it needs no more steps
    than [key_fuel], does not panic, and fails only for a node that is not in the
    database. *)
From S2P Require Import Prelude Common TrieEncoding Trie.

#[export] Instance nil_dec (n : node) : Decision (n = nilNode).
Proof. destruct n; (by left) || (by right). Defined.
Lemma is_nil_spec n : is_nil n = bool_decide (n = nilNode).
Proof. by destruct n. Qed.

Section Content.
Context (db : nodes_db).
(** Whether the database is known to have every node that is referred to. *)
Context (complete : Prop).

Definition at_hash (h : bytes) : option node := db (Bytes.BytesToHash h).

(** ** What a node holds *)

Inductive sees : node → bytes → bytes → Prop :=
| sees_value v : sees (valueNode v) [] v
| sees_short k c fl p v : sees c p v → sees (shortNode k c fl) (k ++ p) v
| sees_full cs fl i c p v :
    0 ≤ i → cs !! Z.to_nat i = Some c → sees c p v → sees (fullNode cs fl) (i :: p) v
| sees_hash h m p v : at_hash h = Some m → sees m p v → sees (hashNode h) p v.

Lemma sees_nil p v : ¬ sees nilNode p v.
Proof. inversion 1. Qed.
Lemma sees_value_inv w p v : sees (valueNode w) p v ↔ p = [] ∧ v = w.
Proof. split; [by inversion 1|]. intros [-> ->]. constructor. Qed.
Lemma sees_short_inv k c fl p v : sees (shortNode k c fl) p v ↔ ∃ q, p = k ++ q ∧ sees c q v.
Proof. split; [inversion 1; subst; eauto|]. intros (q & -> & H). by constructor. Qed.
Lemma sees_full_inv cs fl p v :
  sees (fullNode cs fl) p v ↔ ∃ i q c, p = i :: q ∧ 0 ≤ i ∧ cs !! Z.to_nat i = Some c ∧ sees c q v.
Proof. split; [inversion 1; subst; naive_solver|]. intros (i & q & c & -> & Hi & Hc & H). by econstructor. Qed.
Lemma sees_full_cons cs fl i p v :
  sees (fullNode cs fl) (i :: p) v ↔ 0 ≤ i ∧ ∃ c, cs !! Z.to_nat i = Some c ∧ sees c p v.
Proof. rewrite sees_full_inv. naive_solver. Qed.
Lemma sees_hash_inv h p v : sees (hashNode h) p v ↔ ∃ m, at_hash h = Some m ∧ sees m p v.
Proof. split; [inversion 1; subst; eauto|]. intros (m & E & H). by econstructor. Qed.

(** ** The canonical form *)

Definition inner (n : node) : bool :=
  match n with shortNode _ _ _ | fullNode _ _ => true | _ => false end.
Definition is_full (n : node) : bool := match n with fullNode _ _ => true | _ => false end.

(** A branch, or the hash of one. *)
Definition branchy (n : node) : Prop :=
  match n with
  | fullNode _ _ => True
  | hashNode h => ∀ m, at_hash h = Some m → is_full m = true
  | _ => False
  end.

(** The value slot of a branch. *)
Definition value_slot (n : node) : Prop := n = nilNode ∨ ∃ v, n = valueNode v ∧ v ≠ [].

Definition two_children (cs : list node) : Prop :=
  ∃ i j c d, i ≠ j ∧ cs !! i = Some c ∧ cs !! j = Some d ∧ c ≠ nilNode ∧ d ≠ nilNode.

Inductive wf : node → Prop :=
| wf_leaf k v fl : term k → v ≠ [] → wf (shortNode k (valueNode v) fl)
| wf_ext k c fl : nibbles k → k ≠ [] → branchy c → wf c → wf (shortNode k c fl)
| wf_full cs fl :
    length cs = 17%nat →
    (∀ i c, (i < 16)%nat → cs !! i = Some c → c ≠ nilNode → wf c) →
    (∀ c, cs !! 16%nat = Some c → value_slot c) →
    two_children cs → wf (fullNode cs fl)
| wf_hash h :
    (∀ m, at_hash h = Some m → inner m = true) → (∀ m, at_hash h = Some m → wf m) →
    (complete → at_hash h ≠ None) → wf (hashNode h).

(** A node in the place that the rest [k] of a key leads to. *)
Definition fits (n : node) (k : bytes) : Prop :=
  (term k ∧ (n = nilNode ∨ wf n)) ∨ (k = [] ∧ value_slot n).

Lemma fits_nil k : term k ∨ k = [] → fits nilNode k.
Proof. intros [H| ->]; [left|right]; split; auto. by left. Qed.
Lemma fits_term n k : term k → fits n k → n = nilNode ∨ wf n.
Proof. intros Ht [[_ H]|[-> _]]; [done|]. by apply term_not_nil in Ht. Qed.
Lemma fits_slot n : fits n [] → value_slot n.
Proof. intros [[Ht _]|[_ H]]; [by apply term_not_nil in Ht|done]. Qed.
Lemma fits_wf n k : wf n → fits n k → term k.
Proof. intros Hw [[Ht _]|[_ [->|(v & -> & _)]]]; [done|inversion Hw|inversion Hw]. Qed.

Lemma term_app_inv p b r : term (p ++ b :: r) → nibbles p ∧ ((b = 16 ∧ r = []) ∨ (nibble b ∧ term r)).
Proof.
  induction p as [|x p IH]; cbn [app]; intros H.
  - split; [constructor|by apply term_cons].
  - apply term_cons in H as [[_ E]|[Hx H]]; [by destruct p|]. destruct (IH H). split; [by constructor|done].
Qed.
Lemma term_drop p q : nibbles p → term (p ++ q) → term q.
Proof.
  induction p as [|x p IH]; intros Hn H; [done|]. apply Forall_cons in Hn as [Hx Hn]. cbn in H.
  apply term_cons in H as [[-> _]|[_ H]]; [unfold nibble in Hx; lia|by apply IH].
Qed.
Lemma term_prefix k q : term k → term (k ++ q) → q = [].
Proof.
  intros (k' & -> & Hk) H. rewrite <- app_assoc in H. apply term_drop in H; [|done]. cbn in H.
  apply term_cons in H as [[_ E]|[E _]]; [done|unfold nibble in E; lia].
Qed.

Lemma wf_short_key k c fl : wf (shortNode k c fl) → k ≠ [].
Proof. inversion 1; subst; [by apply term_not_nil|done]. Qed.

Lemma fits_short k c fl q : fits (shortNode k c fl) (k ++ q) → fits c q.
Proof.
  intros H. assert (wf (shortNode k c fl)) as Hw.
  { destruct H as [[_ [H|H]]|[_ [H|(v & H & _)]]]; done. }
  pose proof (fits_wf _ _ Hw H) as Ht. inversion Hw; subst.
  - right. split; [by eapply term_prefix|]. right. eauto.
  - left. split; [by eapply term_drop|by right].
Qed.

Lemma fits_full cs fl i q :
  fits (fullNode cs fl) (i :: q) → 0 ≤ i ≤ 16 ∧ ∃ c, cs !! Z.to_nat i = Some c ∧ fits c q.
Proof.
  intros H. assert (wf (fullNode cs fl)) as Hw.
  { destruct H as [[_ [H|H]]|[_ [H|(v & H & _)]]]; done. }
  pose proof (fits_wf _ _ Hw H) as Ht. inversion Hw as [| |? ? Hl Hc Hv _|]; subst.
  apply term_cons in Ht as Hi. split; [destruct Hi as [[-> _]|[Hi _]]; [|unfold nibble in Hi]; lia|].
  destruct (lookup_lt_is_Some_2 cs (Z.to_nat i)) as [c Ec].
  { destruct Hi as [[-> _]|[Hi _]]; [|unfold nibble in Hi]; lia. }
  exists c. split; [done|]. destruct Hi as [[-> ->]|[Hi Hq]].
  - right. split; [done|by apply Hv].
  - left. split; [done|]. destruct (decide (c = nilNode)) as [->|Hne]; [by left|right].
    unfold nibble in Hi. eapply Hc; [|done|done]. lia.
Qed.

Lemma fits_hash h k m : fits (hashNode h) k → at_hash h = Some m → fits m k ∧ inner m = true.
Proof.
  intros H E. destruct H as [[Ht [H|H]]|[_ [H|(v & H & _)]]]; try done. inversion H; subst.
  split; [left; split; [done|right]; eauto|eauto].
Qed.

(** ** Replacing a child *)

Lemma child_at cs i c : cs !! Z.to_nat i = Some c → child cs i = TOk c.
Proof. intros E. unfold child. by rewrite E. Qed.
Lemma set_child_eq cs i c : (Z.to_nat i < length cs)%nat → set_child i c cs !! Z.to_nat i = Some c.
Proof. apply list_lookup_insert_eq. Qed.
Lemma set_child_ne cs i j c : j ≠ Z.to_nat i → set_child i c cs !! j = cs !! j.
Proof. intros. by apply list_lookup_insert_ne. Qed.
Lemma length_set_child cs i c : length (set_child i c cs) = length cs.
Proof. apply length_insert. Qed.

Lemma sees_set_child cs fl fl' i c' p v :
  0 ≤ i → (Z.to_nat i < length cs)%nat →
  sees (fullNode (set_child i c' cs) fl') p v ↔
  (∃ q, p = i :: q ∧ sees c' q v) ∨ (sees (fullNode cs fl) p v ∧ ∀ q, p ≠ i :: q).
Proof.
  intros Hi Hl. rewrite !sees_full_inv. split.
  - intros (j & q & c & -> & Hj & Hc & Hs). destruct (decide (j = i)) as [->|Hne].
    + rewrite set_child_eq in Hc by done. injection Hc as <-. left. eauto.
    + rewrite set_child_ne in Hc by lia. right. split; [naive_solver|congruence].
  - intros [(q & -> & Hs)|[(j & q & c & -> & Hj & Hc & Hs) Hne]].
    + exists i, q, c'. rewrite set_child_eq by done. auto.
    + exists j, q, c. rewrite set_child_ne; [auto|]. intros E. apply (Hne q). f_equal. lia.
Qed.

(** A branch stays canonical when one child is replaced by one that fits. *)
Lemma wf_set_child cs fl fl' i q c' :
  wf (fullNode cs fl) → term (i :: q) → fits c' q → two_children (set_child i c' cs) →
  wf (fullNode (set_child i c' cs) fl').
Proof.
  intros Hw Ht Hf H2. inversion Hw as [| |? ? Hl Hc Hv _|]; subst.
  assert (0 ≤ i ≤ 16) as Hi16 by (apply term_cons in Ht as [[-> _]|[Hi _]]; [|unfold nibble in Hi]; lia).
  apply term_cons in Ht. constructor; [by rewrite length_set_child| | |done].
  - intros j c Hj E Hne. destruct (decide (j = Z.to_nat i)) as [->|Hji].
    + rewrite set_child_eq in E by lia. injection E as <-. destruct Ht as [[-> _]|[_ Hq]]; [lia|].
      destruct (fits_term _ _ Hq Hf); done.
    + rewrite set_child_ne in E by done. by eapply Hc.
  - intros c E. destruct (decide (16%nat = Z.to_nat i)) as [Hji|Hji].
    + rewrite Hji, set_child_eq in E by lia. injection E as <-.
      destruct Ht as [[-> ->]|[Hi _]]; [by apply fits_slot|unfold nibble in Hi; lia].
    + rewrite set_child_ne in E by done. by apply Hv.
Qed.

(** Replacing a child by one that is not nil leaves two children. *)
Lemma two_set_child cs i c' :
  (Z.to_nat i < length cs)%nat → two_children cs → c' ≠ nilNode → two_children (set_child i c' cs).
Proof.
  intros Hl (j1 & j2 & c & d & Hne & E1 & E2 & H1 & H2) Hc.
  assert (∃ j e, j ≠ Z.to_nat i ∧ cs !! j = Some e ∧ e ≠ nilNode) as (j & e & Hj & E & He).
  { destruct (decide (j1 = Z.to_nat i)); [exists j2, d|exists j1, c]; split_and!; congruence. }
  exists (Z.to_nat i), j, c', e. rewrite set_child_eq, set_child_ne by done. split_and!; done.
Qed.

Lemma wf_two cs fl : wf (fullNode cs fl) → length cs = 17%nat ∧ two_children cs.
Proof. by inversion 1. Qed.

(** The node on the path is as the children need it. *)
Lemma fits_wf_full cs fl k : fits (fullNode cs fl) k → wf (fullNode cs fl) ∧ term k.
Proof. intros [[? [H|H]]|[_ [H|(v & H & _)]]]; done. Qed.
Lemma fits_wf_short k0 c fl k : fits (shortNode k0 c fl) k → wf (shortNode k0 c fl) ∧ term k.
Proof. intros [[? [H|H]]|[_ [H|(v & H & _)]]]; done. Qed.
Lemma fits_wf_hash h k : fits (hashNode h) k → wf (hashNode h) ∧ term k.
Proof. intros [[? [H|H]]|[_ [H|(v & H & _)]]]; done. Qed.

(** A short node stays canonical when its child is replaced by one of its kind. *)
Lemma wf_short_child k c c' fl fl' q :
  wf (shortNode k c fl) → term (k ++ q) → fits c' q → c' ≠ nilNode → (branchy c → branchy c') →
  wf (shortNode k c' fl').
Proof.
  intros Hw Ht Hf Hne Hb. inversion Hw as [? ? ? Hk Hv|? ? ? Hk Hk0 Hbr Hc| |]; subst.
  - apply term_prefix in Ht as ->; [|done]. destruct (fits_slot _ Hf) as [->|(w & -> & Hw')]; [done|].
    by constructor.
  - apply term_drop in Ht; [|done]. constructor; auto. by destruct (fits_term _ _ Ht Hf).
Qed.

(** ** Steps *)

Definition cost (n : node) (k : bytes) : nat :=
  2 * length k + match n with hashNode _ => 2 | _ => 1 end.

Lemma cost_inner m (k : bytes) f : inner m = true → (2 * length k + 2 ≤ S f → cost m k ≤ f)%nat.
Proof. intros Hi ?. unfold cost. destruct m; try done; lia. Qed.
Lemma cost_rest c (k q : bytes) f : (length q < length k → 2 * length k + 1 ≤ S f → cost c q ≤ f)%nat.
Proof. intros. unfold cost. destruct c; lia. Qed.

Lemma prefix_check (pre k0 q : bytes) :
  (Z.of_nat (length (pre ++ q)) - Z.of_nat (length pre) <? zlen k0)
    || negb (bool_decide (k0 = take (length k0) (drop (length pre) (pre ++ q))))
  = negb (bool_decide (k0 `prefix_of` q)).
Proof.
  rewrite drop_app_length, length_app. unfold zlen. destruct (decide (k0 `prefix_of` q)) as [[r ->]|Hn].
  - rewrite take_app_length, !bool_decide_true by (done || by eexists). cbn [negb]. rewrite length_app, orb_false_r.
    apply Z.ltb_ge. lia.
  - rewrite (bool_decide_false (k0 `prefix_of` q)) by done. rewrite (bool_decide_false (k0 = _)), orb_true_r; [done|].
    intros E. apply Hn. exists (drop (length k0) q). rewrite E at 1. by rewrite take_drop.
Qed.

(** ** Reading *)

(** The error of a node that is not there. *)
Definition missing (e : trie_error) : Prop := (let 'MissingNodeError h _ := e in db h = None) ∧ ¬ complete.

Lemma resolveHash_spec h pre :
  wf (hashNode h) →
  match at_hash h with
  | Some m => resolveHash db h pre = TOk m
  | None => ∃ e, resolveHash db h pre = TErr e ∧ missing e
  end.
Proof.
  intros Hw. inversion Hw as [| | |? _ _ Hcm]; subst. unfold resolveHash, at_hash in *.
  destruct (db (Bytes.BytesToHash h)) eqn:E; [done|]. eexists. split; [done|]. split; [exact E|]. intros ?%Hcm. done.
Qed.

(** The same content. *)
Definition same (n n' : node) : Prop := ∀ p v, sees n' p v ↔ sees n p v.

#[local] Instance same_equiv : Equivalence same.
Proof. split; [done|by intros ? ? H p v|]. intros ? ? ? H1 H2 p v. by rewrite (H2 p v). Qed.
Lemma same_short k c c' fl fl' : same c c' → same (shortNode k c fl) (shortNode k c' fl').
Proof. intros H p v. rewrite !sees_short_inv. unfold same in H. by setoid_rewrite H. Qed.
Lemma same_set_child cs fl fl' i c c' :
  0 ≤ i → cs !! Z.to_nat i = Some c → same c c' → same (fullNode cs fl) (fullNode (set_child i c' cs) fl').
Proof.
  intros Hi Ec H p v. apply lookup_lt_Some in Ec as Hl. rewrite (sees_set_child cs fl) by lia. split.
  - intros [(q' & -> & H')|[H' _]]; [|done]. apply H in H'. apply sees_full_cons. naive_solver lia.
  - intros H'. apply sees_full_inv in H' as Hi'. destruct Hi' as (j & q' & c0 & -> & Hj & Ec' & Hs).
    destruct (decide (j = i)) as [->|Hne]; [|right; split; [done|congruence]].
    left. exists q'. split; [done|]. apply H. congruence.
Qed.
Lemma same_hash h m : at_hash h = Some m → same (hashNode h) m.
Proof. intros E p v. rewrite sees_hash_inv. naive_solver. Qed.
Lemma branchy_at h m : branchy (hashNode h) → at_hash h = Some m → branchy m.
Proof. intros Hb E. specialize (Hb m E). by destruct m. Qed.

(** What a read promises of the node that stands in for the one it visited. *)
Definition read_ok (n : node) (k : bytes) (r : tres get_result) : Prop :=
  match r with
  | TOk (v, n', _) =>
      (∀ w, v = Some w ↔ sees n k w) ∧ fits n' k ∧ (n' = nilNode ↔ n = nilNode) ∧
      (branchy n → branchy n') ∧ same n n'
  | TErr e => missing e
  | TPanic | TFuel => False
  end.

Lemma read_here n k v d :
  (∀ w, v = Some w ↔ sees n k w) → fits n k → read_ok n k (TOk (v, n, d)).
Proof. intros. split_and!; try done. Qed.

Lemma read_short k0 c fl q r :
  fits (shortNode k0 c fl) (k0 ++ q) → read_ok c q r →
  read_ok (shortNode k0 c fl) (k0 ++ q)
    (trie! (v, n', d) <- r; TOk (v, if d : bool then shortNode k0 n' fl else shortNode k0 c fl, d)).
Proof.
  intros Hf H. destruct (fits_wf_short _ _ _ _ Hf) as [Hw Ht]. destruct r as [[[v n'] d]|e| |]; try done.
  destruct H as (Hv & Hf' & Hn & Hb & Hs). cbn [tr_bind].
  assert (c ≠ nilNode) as Hcn by (intros ->; inversion Hw; subst; done).
  assert (∀ w, v = Some w ↔ sees (shortNode k0 c fl) (k0 ++ q) w) as Hv'.
  { intros w. rewrite Hv, sees_short_inv. split; [eauto|]. intros (q' & E & H). by apply app_inv_head in E as <-. }
  destruct d; [|by apply read_here]. split; [done|].
  assert (wf (shortNode k0 n' fl)) as Hw' by (eapply wf_short_child; eauto; naive_solver).
  split_and!; [left; auto|done|done|by apply same_short].
Qed.

Lemma read_full cs fl i q c r :
  fits (fullNode cs fl) (i :: q) → cs !! Z.to_nat i = Some c → read_ok c q r →
  read_ok (fullNode cs fl) (i :: q)
    (trie! (v, n', d) <- r; TOk (v, if d : bool then fullNode (set_child i n' cs) fl else fullNode cs fl, d)).
Proof.
  intros Hf Ec H. destruct (fits_wf_full _ _ _ Hf) as [Hw Ht]. destruct (fits_full _ _ _ _ Hf) as (Hi & _).
  destruct (wf_two _ _ Hw) as [Hl H2]. destruct r as [[[v n'] d]|e| |]; try done.
  destruct H as (Hv & Hf' & Hn & Hb & Hs). cbn [tr_bind].
  assert (∀ w, v = Some w ↔ sees (fullNode cs fl) (i :: q) w) as Hv'.
  { intros w. rewrite Hv, sees_full_cons. naive_solver lia. }
  destruct d; [|by apply read_here]. split; [done|].
  assert (two_children (set_child i n' cs)) as H2'.
  { destruct (decide (c = nilNode)) as [->|Hcn]; [|apply two_set_child; [lia|done|naive_solver]].
    rewrite (proj2 Hn eq_refl). unfold set_child. by rewrite list_insert_id. }
  split_and!; [left; split; [done|right; by eapply wf_set_child]|done|done|].
  eapply same_set_child; [lia|done|done].
Qed.

Lemma read_hash h m k r :
  at_hash h = Some m → inner m = true → read_ok m k r →
  read_ok (hashNode h) k (trie! (v, n', _) <- r; TOk (v, n', true)).
Proof.
  intros Em Him H. destruct r as [[[v n'] d]|e| |]; try done. destruct H as (Hv & Hf' & Hn & Hb & Hs). cbn [tr_bind].
  pose proof (same_hash h m Em) as Hsm.
  split_and!; [intros w; rewrite Hv; apply Hsm|done|split; [intros E%Hn; by subst|done]| |by etrans].
  intros Hbh. by eapply Hb, branchy_at.
Qed.

Lemma cost_short k0 c fl c' fl' q f :
  wf (shortNode k0 c fl) → (cost (shortNode k0 c' fl') (k0 ++ q) ≤ S f → cost c q ≤ f)%nat.
Proof.
  intros Hw%wf_short_key Hc. eapply cost_rest; [|exact Hc]. rewrite length_app. destruct k0; [done|cbn [length]; lia].
Qed.
Lemma cost_full c cs fl i q f : (cost (fullNode cs fl) (i :: q) ≤ S f → cost c q ≤ f)%nat.
Proof. intros Hc. eapply cost_rest; [|exact Hc]. cbn [length]. lia. Qed.

Lemma tryGet_spec fuel : ∀ n pre k,
  fits n k → (cost n k ≤ fuel)%nat → read_ok n k (tryGet db fuel n (pre ++ k) (length pre)).
Proof.
  induction fuel as [|fuel IH]; intros n pre k Hf Hc; [unfold cost in Hc; destruct n; lia|].
  destruct n as [|v|k0 c fl|cs fl|h]; cbn [tryGet].
  - apply read_here; [|done]. intros w. split; [done|by intros ?%sees_nil].
  - apply read_here; [|done]. intros w. rewrite sees_value_inv.
    destruct Hf as [[Ht [H|H]]|[-> _]]; [done|inversion H|]. naive_solver.
  - rewrite prefix_check. case_bool_decide as Hp; cbn [negb].
    + destruct Hp as [q ->]. rewrite app_assoc, <- (length_app pre k0). apply read_short; [done|].
      destruct (fits_wf_short _ _ _ _ Hf) as [Hw _]. apply IH; [by eapply fits_short|by eapply cost_short].
    + apply read_here; [|done]. intros w. split; [done|]. rewrite sees_short_inv. intros (q & -> & _).
      destruct Hp. by eexists.
  - destruct (fits_wf_full _ _ _ Hf) as [_ Ht]. destruct k as [|i q]; [by apply term_not_nil in Ht|].
    rewrite list_lookup_middle by done. destruct (fits_full _ _ _ _ Hf) as (Hi & c & Ec & Hfc).
    rewrite (child_at _ _ _ Ec). cbn [tr_bind]. rewrite cons_middle, app_assoc.
    replace (S (length pre)) with (length (pre ++ [i])) by (rewrite length_app; cbn [length]; lia).
    eapply read_full; [done..|]. apply IH; [done|by eapply cost_full].
  - pose proof (resolveHash_spec h (take (length pre) (pre ++ k)) (proj1 (fits_wf_hash _ _ Hf))) as Hr. destruct (at_hash h) as [m|] eqn:Em.
    + rewrite Hr. cbn [tr_bind]. destruct (fits_hash _ _ _ Hf Em) as [Hfm Him].
      eapply read_hash; [done..|]. apply IH; [done|by apply cost_inner].
    + destruct Hr as (e & -> & He). exact He.
Qed.

(** ** Writing *)

(** The content after the value under [k] became [o]. *)
Definition upd (n n' : node) (k : bytes) (o : option bytes) : Prop :=
  ∀ p v, sees n' p v ↔ if decide (p = k) then o = Some v else sees n p v.

Lemma upd_same n n' m k o : upd n n' k o → same n' m → upd n m k o.
Proof. intros H Hs p v. rewrite (Hs p v). apply H. Qed.
Lemma upd_same_l n n' m k o : upd n n' k o → same m n → upd m n' k o.
Proof. intros H Hs p v. rewrite (H p v). destruct (decide (p = k)); [done|apply Hs]. Qed.

Lemma upd_short k0 c c' fl fl' q o :
  upd c c' q o → upd (shortNode k0 c fl) (shortNode k0 c' fl') (k0 ++ q) o.
Proof.
  intros H p v. destruct (decide (p = k0 ++ q)) as [->|Hne]; rewrite !sees_short_inv.
  - split.
    + intros (q' & E & Hs). apply app_inv_head in E as <-. apply H in Hs. by rewrite decide_True in Hs.
    + intros ->. exists q. split; [done|]. apply H. by rewrite decide_True.
  - split; intros (q' & -> & Hs); exists q'; (split; [done|]); [apply H in Hs|apply H];
      rewrite decide_False in *; congruence.
Qed.

Lemma upd_set_child cs fl fl' i c c' q o :
  0 ≤ i → cs !! Z.to_nat i = Some c → upd c c' q o →
  upd (fullNode cs fl) (fullNode (set_child i c' cs) fl') (i :: q) o.
Proof.
  intros Hi Ec H p v. apply lookup_lt_Some in Ec as Hl. rewrite (sees_set_child cs fl) by lia.
  destruct (decide (p = i :: q)) as [->|Hne].
  - split; [|intros ->; left; exists q; split; [done|]; apply H; by rewrite decide_True].
    intros [(q' & [= <-] & Hs)|[_ Hn]]; [|by destruct (Hn q)]. apply H in Hs. by rewrite decide_True in Hs.
  - split.
    + intros [(q' & -> & Hs)|[Hs _]]; [|done]. apply H in Hs. rewrite decide_False in Hs by congruence.
      apply sees_full_cons. eauto.
    + intros Hs. apply sees_full_inv in Hs as Hs'. destruct Hs' as (j & q' & c0 & -> & Hj & Ec' & Hs').
      destruct (decide (j = i)) as [->|Hji]; [|right; split; [done|congruence]].
      left. exists q'. split; [done|]. apply H. rewrite decide_False; congruence.
Qed.

(** What a write promises. *)
Definition insert_ok (n : node) (k w : bytes) (r : tres (bool * node)) : Prop :=
  match r with
  | TOk (d, n') =>
      fits n' k ∧ n' ≠ nilNode ∧ (branchy n → branchy n') ∧ upd n n' k (Some w) ∧ (d = false → same n n')
  | TErr e => missing e
  | TPanic | TFuel => False
  end.

Lemma insert_short k0 c fl q w r :
  fits (shortNode k0 c fl) (k0 ++ q) → insert_ok c q w r →
  insert_ok (shortNode k0 c fl) (k0 ++ q) w
    (trie! (d, nn) <- r; if negb d then TOk (false, shortNode k0 c fl) else TOk (true, shortNode k0 nn newFlag)).
Proof.
  intros Hf H. destruct (fits_wf_short _ _ _ _ Hf) as [Hw Ht]. destruct r as [[d n']|e| |]; try done.
  destruct H as (Hf' & Hn & Hb & Hu & Hs). cbn [tr_bind]. destruct d; cbn [negb].
  - assert (wf (shortNode k0 n' newFlag)) as Hw' by (eapply wf_short_child; eauto).
    split_and!; [left; auto|done|done|by apply upd_short|done].
  - split_and!; try done. apply upd_short. eapply upd_same; [done|]. symmetry. by apply Hs.
Qed.

Lemma insert_full cs fl i q c w r :
  fits (fullNode cs fl) (i :: q) → cs !! Z.to_nat i = Some c → insert_ok c q w r →
  insert_ok (fullNode cs fl) (i :: q) w
    (trie! (d, nn) <- r;
     if negb d then TOk (false, fullNode cs fl) else TOk (true, fullNode (set_child i nn cs) newFlag)).
Proof.
  intros Hf Ec H. destruct (fits_wf_full _ _ _ Hf) as [Hw Ht]. destruct (fits_full _ _ _ _ Hf) as (Hi & _).
  destruct (wf_two _ _ Hw) as [Hl H2]. destruct r as [[d n']|e| |]; try done.
  destruct H as (Hf' & Hn & Hb & Hu & Hs). cbn [tr_bind]. destruct d; cbn [negb].
  - assert (two_children (set_child i n' cs)) as H2' by (apply two_set_child; [lia|done..]).
    split_and!; [left; split; [done|right; by eapply wf_set_child]|done|done| |done].
    eapply upd_set_child; [lia|done..].
  - split_and!; try done. eapply upd_same.
    + eapply (upd_set_child cs fl fl); [lia|done|]. exact Hu.
    + symmetry. eapply same_set_child; [lia|done|]. by apply Hs.
Qed.

Lemma insert_hash h m k w r :
  at_hash h = Some m → fits m k → inner m = true → insert_ok m k w r →
  insert_ok (hashNode h) k w (trie! (d, nn) <- r; if negb d then TOk (false, m) else TOk (true, nn)).
Proof.
  intros Em Hf Him H. destruct r as [[d n']|e| |]; try done. destruct H as (Hf' & Hn & Hb & Hu & Hs). cbn [tr_bind].
  pose proof (same_hash h m Em) as Hsm. pose proof (branchy_at h m) as Hbm. destruct d; cbn [negb].
  - split_and!; [done..|auto|by eapply upd_same_l|done].
  - split_and!; [done|by destruct m|auto| |done]. eapply upd_same_l; [|done]. eapply upd_same; [done|].
    symmetry. by apply Hs.
Qed.

(** *** Branching out *)

Lemma prefixLen_app k q : prefixLen (k ++ q) k = length k.
Proof. induction k as [|x k IH]; [by destruct q|]. cbn. by rewrite Z.eqb_refl, IH. Qed.
Lemma prefixLen_prefix key k : prefixLen key k = length k → ∃ q, key = k ++ q.
Proof.
  revert key. induction k as [|y k IH]; intros key H; [by exists key|]. destruct key as [|x key]; [done|]. cbn in H.
  destruct (Z.eqb_spec x y) as [->|]; [|done]. injection H as H. destruct (IH _ H) as [q ->]. by exists q.
Qed.
Lemma prefixLen_split key k :
  term key → term k ∨ nibbles k → prefixLen key k ≠ length k →
  ∃ p b1 r1 b2 r2, key = p ++ b2 :: r2 ∧ k = p ++ b1 :: r1 ∧ b1 ≠ b2 ∧ prefixLen key k = length p.
Proof.
  revert k. induction key as [|x key IH]; intros k Ht Hk Hne; [by apply term_not_nil in Ht|].
  destruct k as [|y k]; [done|]. cbn in *. destruct (Z.eqb_spec x y) as [->|Hxy].
  - assert (y = 16 → k = []) as H16.
    { intros ->. destruct Hk as [Hk|Hk]; [apply term_cons in Hk as [[_ ?]|[Hk _]]; [done|]|apply Forall_cons in Hk as [Hk _]];
        unfold nibble in Hk; lia. }
    apply term_cons in Ht as [[-> ->]|[Hy Ht]]; [rewrite H16 in Hne by done; done|].
    assert (term k ∨ nibbles k) as Hk'.
    { destruct Hk as [Hk|Hk]; [|by apply Forall_cons in Hk as [_ Hk]; right].
      apply term_cons in Hk as [[-> _]|[_ Hk]]; [unfold nibble in Hy; lia|by left]. }
    destruct (IH k Ht Hk') as (p & b1 & r1 & b2 & r2 & -> & -> & Hb & E); [congruence|].
    exists (y :: p), b1, r1, b2, r2. rewrite E. done.
  - exists [], y, k, x, key. done.
Qed.

(** A node under the rest of its key. *)
Definition graft (r : bytes) (c : node) : node :=
  match r with [] => c | _ => shortNode r c newFlag end.

Lemma insert_nil f pre r c : insert db (S f) nilNode pre r c = TOk (true, graft r c).
Proof. by destruct r. Qed.
Lemma sees_graft r c p v : sees (graft r c) p v ↔ ∃ q, p = r ++ q ∧ sees c q v.
Proof. destruct r as [|x r]; cbn [graft]; [cbn; naive_solver|apply sees_short_inv]. Qed.
Lemma graft_not_nil r c : c ≠ nilNode → graft r c ≠ nilNode.
Proof. by destruct r. Qed.

(** A child that may stand at [b] in a new branch. *)
Definition good_child (b : Z) (c : node) : Prop :=
  c ≠ nilNode ∧ ((nibble b ∧ wf c) ∨ (b = 16 ∧ value_slot c)).

Lemma good_value b r v : term (b :: r) → v ≠ [] → good_child b (graft r (valueNode v)).
Proof.
  intros Ht Hv. split; [by apply graft_not_nil|]. apply term_cons in Ht as [[-> ->]|[Hb Hr]]; [right|left]; (split; [done|]).
  - right. by exists v.
  - apply term_not_nil in Hr as Hne. destruct r; [done|]. by constructor.
Qed.
Lemma good_short p b r c fl : wf (shortNode (p ++ b :: r) c fl) → good_child b (graft r c).
Proof.
  inversion 1 as [? ? ? Hk Hv|? ? ? Hk Hk0 Hbr Hc| |]; subst.
  - apply term_app_inv in Hk as [_ Hk]. apply good_value; [|done].
    destruct Hk as [[-> ->]|[Hb Hr]]; [apply term_16|by apply term_cons_2].
  - apply Forall_app in Hk as [_ Hk]. apply Forall_cons in Hk as [Hb Hr].
    split; [apply graft_not_nil; by intros ->|left; split; [done|]]. destruct r; [done|]. by constructor.
Qed.

Definition branch (b1 : Z) (c1 : node) (b2 : Z) (c2 : node) : node :=
  fullNode (set_child b2 c2 (set_child b1 c1 (replicate 17 nilNode))) newFlag.

Lemma sees_branch b1 c1 b2 c2 p v :
  0 ≤ b1 ≤ 16 → 0 ≤ b2 ≤ 16 → b1 ≠ b2 →
  sees (branch b1 c1 b2 c2) p v ↔ (∃ q, p = b1 :: q ∧ sees c1 q v) ∨ (∃ q, p = b2 :: q ∧ sees c2 q v).
Proof.
  intros H1 H2 Hne. unfold branch. rewrite (sees_set_child _ newFlag) by (rewrite ?length_set_child; cbn; lia).
  rewrite (sees_set_child _ newFlag) by (cbn; lia). split.
  - intros [H|[[H|[H _]] _]]; [by right|by left|]. apply sees_full_inv in H as (i & q & c & _ & _ & Hc & H).
    apply lookup_replicate in Hc as [-> _]. by apply sees_nil in H.
  - intros [(q & -> & H)|H]; [right; split; [left; eauto|congruence]|by left].
Qed.

Lemma good_range b c : good_child b c → 0 ≤ b ≤ 16.
Proof. intros [_ [[H _]|[-> _]]]; [unfold nibble in H|]; lia. Qed.

Lemma wf_branch b1 c1 b2 c2 : good_child b1 c1 → good_child b2 c2 → b1 ≠ b2 → wf (branch b1 c1 b2 c2).
Proof.
  intros H1 H2 Hne. pose proof (good_range _ _ H1). pose proof (good_range _ _ H2).
  destruct H1 as [N1 H1], H2 as [N2 H2]. assert (Z.to_nat b1 ≠ Z.to_nat b2) by lia.
  set (cs := set_child b2 c2 (set_child b1 c1 (replicate 17 nilNode))).
  assert (∀ j c, cs !! j = Some c → (j = Z.to_nat b2 ∧ c = c2) ∨ (j = Z.to_nat b1 ∧ c = c1) ∨ c = nilNode) as Hcs.
  { intros j c. subst cs. destruct (decide (j = Z.to_nat b2)) as [->|Hj2].
    - rewrite set_child_eq by (rewrite length_set_child; cbn; lia). intros [= <-]. by left.
    - rewrite set_child_ne by done. destruct (decide (j = Z.to_nat b1)) as [->|Hj1].
      + rewrite set_child_eq by (cbn; lia). intros [= <-]. right. by left.
      + rewrite set_child_ne by done. intros [-> _]%lookup_replicate. by right; right. }
  constructor; fold cs; [by subst cs; rewrite !length_set_child| | |].
  - intros i c Hi [[-> ->]|[[-> ->]|Hc]]%Hcs Hn; [destruct H2 as [[_ ?]|[-> _]]|destruct H1 as [[_ ?]|[-> _]]|]; try done; lia.
  - intros c [[E ->]|[[E ->]|Hc]]%Hcs; [destruct H2 as [[Hb _]|[_ ?]]|destruct H1 as [[Hb _]|[_ ?]]|by left];
      try done; unfold nibble in Hb; lia.
  - exists (Z.to_nat b1), (Z.to_nat b2), c1, c2. subst cs.
    rewrite set_child_ne, !set_child_eq by (rewrite ?length_set_child; cbn; lia). done.
Qed.

Lemma wf_graft p c : nibbles p → branchy c → wf c → wf (graft p c).
Proof. intros. destruct p; [done|]. by constructor. Qed.

Lemma insert_split p b1 r1 b2 r2 c fl w :
  wf (shortNode (p ++ b1 :: r1) c fl) → term (p ++ b2 :: r2) → b1 ≠ b2 → w ≠ [] →
  insert_ok (shortNode (p ++ b1 :: r1) c fl) (p ++ b2 :: r2) w
    (TOk (true, graft p (branch b1 (graft r1 c) b2 (graft r2 (valueNode w))))).
Proof.
  intros Hw Ht Hb Hwn. pose proof (good_short _ _ _ _ _ Hw) as G1.
  destruct (term_app_inv _ _ _ Ht) as [Hp _]. assert (term (b2 :: r2)) as Ht2 by by eapply term_drop.
  pose proof (good_value _ _ w Ht2 Hwn) as G2. pose proof (good_range _ _ G1). pose proof (good_range _ _ G2).
  split_and!; [|by apply graft_not_nil|done| |done].
  - left. split; [done|right]. apply wf_graft; [done..|by apply wf_branch].
  - intros q v. rewrite sees_graft. setoid_rewrite sees_branch; [|done..]. setoid_rewrite sees_graft.
    setoid_rewrite sees_value_inv. destruct (decide (q = p ++ b2 :: r2)) as [->|Hne].
    + split; [|intros [= ->]; exists (b2 :: r2); split; [done|right; exists r2; split; [done|]]; exists []; by rewrite app_nil_r].
      intros (q & E & [(q' & -> & _)|(q' & -> & q2 & -> & -> & ->)]); [|done]. apply app_inv_head in E. congruence.
    + rewrite sees_short_inv. split.
      * intros (q' & -> & [(q2 & -> & q3 & -> & Hs)|(q2 & -> & q3 & -> & -> & ->)]).
        -- exists q3. split; [by rewrite <- app_assoc|done].
        -- by rewrite app_nil_r in Hne.
      * intros (q' & -> & Hs). exists (b1 :: r1 ++ q'). split; [by rewrite <- app_assoc|]. left. eauto.
Qed.

(** *** The whole insertion *)

Lemma insert_value n w : fits n [] → w ≠ [] → ∀ f pre, insert_ok n [] w (insert db (S f) n pre [] (valueNode w)).
Proof.
  intros Hf Hw f pre. assert (upd n (valueNode w) [] (Some w)) as Hu.
  { intros p v. rewrite sees_value_inv. destruct (decide (p = [])); [naive_solver|]. split; [naive_solver|].
    destruct (fits_slot _ Hf) as [->|(x & -> & _)]; [by intros ?%sees_nil|]. rewrite sees_value_inv. naive_solver. }
  assert (fits (valueNode w) []) as Hfw by (right; split; [done|right; by exists w]).
  destruct (fits_slot _ Hf) as [->|(x & -> & _)]; cbn [insert]; split_and!; try done.
  intros Hd. apply negb_false_iff, bool_decide_eq_true in Hd as ->. done.
Qed.

Lemma insert_leaf k w : term k → w ≠ [] → ∀ f pre, insert_ok nilNode k w (insert db (S f) nilNode pre k (valueNode w)).
Proof.
  intros Hk Hw f pre. rewrite insert_nil. split_and!; [|by apply graft_not_nil|done| |done].
  - left. split; [done|right]. apply term_not_nil in Hk as Hne. destruct k; [done|]. by constructor.
  - intros p v. rewrite sees_graft. setoid_rewrite sees_value_inv. destruct (decide (p = k)) as [->|Hne].
    + split; [naive_solver|]. intros [= ->]. exists []. by rewrite app_nil_r.
    + split; [|by intros ?%sees_nil]. intros (q & -> & -> & _). by rewrite app_nil_r in Hne.
Qed.

Lemma insert_spec fuel w : w ≠ [] → ∀ n pre k,
  fits n k → (cost n k ≤ fuel)%nat → insert_ok n k w (insert db fuel n pre k (valueNode w)).
Proof.
  intros Hwn. induction fuel as [|fuel IH]; intros n pre k Hf Hc; [unfold cost in Hc; destruct n; lia|].
  destruct k as [|k0 krest]; [by apply insert_value|]. destruct n as [|v|kn c fl|cs fl|h].
  - apply insert_leaf; [|done]. by destruct Hf as [[? _]|[? _]].
  - by destruct Hf as [[_ [?|Hw]]|[? _]]; [|inversion Hw|].
  - cbn [insert]. destruct (fits_wf_short _ _ _ _ Hf) as [Hw Ht]. remember (k0 :: krest) as key eqn:Ek.
    destruct (Nat.eqb_spec (prefixLen key kn) (length kn)) as [E|E].
    + rewrite E. destruct (prefixLen_prefix _ _ E) as [q ->]. rewrite drop_app_length. apply insert_short; [done|].
      apply IH; [by eapply fits_short|by eapply cost_short].
    + destruct (prefixLen_split key kn) as (p & b1 & r1 & b2 & r2 & -> & -> & Hb & ->);
        [done|inversion Hw; auto|done|].
      rewrite !list_lookup_middle by done. rewrite !cons_middle, !app_assoc.
      replace (S (length p)) with (length (p ++ [b1])) by (rewrite length_app; cbn [length]; lia).
      rewrite drop_app_length.
      replace (length (p ++ [b1])) with (length (p ++ [b2])) by (rewrite !length_app; done).
      rewrite drop_app_length. destruct fuel as [|fuel]; [unfold cost in Hc; rewrite length_app in Hc; cbn in Hc; lia|].
      rewrite !insert_nil. cbn [tr_bind]. rewrite <- !app_assoc. cbn [app].
      pose proof (insert_split p b1 r1 b2 r2 c fl w Hw Ht Hb Hwn) as H.
      pose proof (good_range _ _ (good_short _ _ _ _ _ Hw)).
      assert (term (b2 :: r2)) as Ht2 by (destruct (term_app_inv _ _ _ Ht) as [Hp _]; by eapply term_drop).
      pose proof (good_range _ _ (good_value _ _ w Ht2 Hwn)).
      destruct (Z.leb_spec 17 b1); [lia|]. destruct (Z.leb_spec 17 b2); [lia|]. cbn [orb].
      rewrite take_app_length. by destruct p.
  - cbn [insert]. destruct (fits_full _ _ _ _ Hf) as (Hi & c & Ec & Hfc).
    rewrite (child_at _ _ _ Ec). cbn [tr_bind]. eapply insert_full; [done..|]. apply IH; [done|by eapply cost_full].
  - cbn [insert]. pose proof (resolveHash_spec h pre (proj1 (fits_wf_hash _ _ Hf))) as Hr. destruct (at_hash h) as [m|] eqn:Em.
    + rewrite Hr. cbn [tr_bind]. destruct (fits_hash _ _ _ Hf Em) as [Hfm Him].
      apply insert_hash; [done..|]. apply IH; [done|by apply cost_inner].
    + destruct Hr as (e & -> & He). exact He.
Qed.

(** ** Deleting *)

(** What is left of a node: a short node may take the place of a branch. *)
Definition shrunk (n : node) : Prop := branchy n ∨ ∃ k c fl, n = shortNode k c fl.

Definition delete_ok (n : node) (k : bytes) (r : tres (bool * node)) : Prop :=
  match r with
  | TOk (d, n') => fits n' k ∧ (branchy n → shrunk n') ∧ upd n n' k None ∧ (d = false → same n n')
  | TErr e => missing e
  | TPanic | TFuel => False
  end.

Lemma upd_none_same n k : (∀ v, ¬ sees n k v) → upd n n k None.
Proof. intros H p v. destruct (decide (p = k)) as [->|]; [|done]. split; [|done]. intros Hs. by destruct (H v). Qed.

Lemma delete_none n k : fits n k → (∀ v, ¬ sees n k v) → delete_ok n k (TOk (false, n)).
Proof. intros Hf Hs. split_and!; [done|by left|by apply upd_none_same|done]. Qed.

Lemma delete_hash h m k r :
  at_hash h = Some m → fits m k → delete_ok m k r →
  delete_ok (hashNode h) k (trie! (d, nn) <- r; if negb d then TOk (false, m) else TOk (true, nn)).
Proof.
  intros Em Hf H. destruct r as [[d n']|e| |]; try done. destruct H as (Hf' & Hb & Hu & Hs). cbn [tr_bind].
  pose proof (same_hash h m Em) as Hsm. pose proof (branchy_at h m) as Hbm. destruct d; cbn [negb].
  - split_and!; [done|auto|by eapply upd_same_l|done].
  - split_and!; [done|by left; auto| |done]. eapply upd_same_l; [|done]. eapply upd_same; [done|].
    symmetry. by apply Hs.
Qed.

(** Two short nodes in a row become one. *)
Lemma sees_merge k k2 c fl fl2 fl' :
  same (shortNode k (shortNode k2 c fl2) fl) (shortNode (k ++ k2) c fl').
Proof.
  intros p v. rewrite !sees_short_inv. split.
  - intros (q & -> & H). exists (k2 ++ q). rewrite <- app_assoc. split; [done|by constructor].
  - intros (q & -> & H). apply sees_short_inv in H as (q2 & -> & H). exists q2. by rewrite <- app_assoc.
Qed.
Lemma wf_merge k k2 c fl2 fl' : nibbles k → wf (shortNode k2 c fl2) → wf (shortNode (k ++ k2) c fl').
Proof.
  intros Hk. inversion 1; subst; constructor; try done.
  - by apply term_app.
  - by apply Forall_app.
  - by destruct k.
Qed.

Lemma delete_short k0 c fl q r :
  fits (shortNode k0 c fl) (k0 ++ q) → q ≠ [] → delete_ok c q r →
  delete_ok (shortNode k0 c fl) (k0 ++ q)
    (trie! (d, c') <- r;
     if negb d then TOk (false, shortNode k0 c fl)
     else match c' with
          | shortNode k2 val2 _ => TOk (true, shortNode (k0 ++ k2) val2 newFlag)
          | _ => TOk (true, shortNode k0 c' newFlag)
          end).
Proof.
  intros Hf Hq H. destruct (fits_wf_short _ _ _ _ Hf) as [Hw Ht]. destruct r as [[d c']|e| |]; try done.
  inversion Hw as [? ? ? Hk Hv|? ? ? Hk Hk0 Hbr Hc| |]; subst; [by apply term_prefix in Ht|].
  destruct H as (Hf' & Hb & Hu & Hs). cbn [tr_bind]. apply term_drop in Ht as Htq; [|done].
  destruct d; cbn [negb].
  2:{ split_and!; [done|by left| |done]. apply upd_short. eapply upd_same; [done|]. symmetry. by apply Hs. }
  specialize (Hb Hbr). pose proof (fits_term _ _ Htq Hf') as Hc'.
  assert (∀ c0 fl0, c' = c0 → branchy c0 → wf c0 → delete_ok (shortNode k0 c fl) (k0 ++ q) (TOk (true, shortNode k0 c0 fl0)))
    as Hgo.
  { intros c0 fl0 -> Hb0 Hw0. split_and!; [left; split; [done|right; by constructor]|done|by apply upd_short|done]. }
  destruct Hb as [Hb|(k2 & c2 & fl2 & ->)].
  - destruct c' as [| | | |]; try done; destruct Hc' as [?|Hc']; try done; by apply Hgo.
  - destruct Hc' as [?|Hc']; [done|]. split_and!; [left; split; [done|right; by eapply wf_merge]|done| |done].
    eapply upd_same; [exact (upd_short k0 c _ fl newFlag q None Hu)|]. apply sees_merge.
Qed.

(** *** The loop over the children *)

Lemma single_child_more cs : ∀ i p, 0 ≤ p →
  (single_child i p cs = p ∧ ∀ j c, cs !! j = Some c → c = nilNode) ∨
  (single_child i p cs = -2 ∧ ∃ j c, cs !! j = Some c ∧ c ≠ nilNode).
Proof.
  induction cs as [|c cs IH]; intros i p Hp; [left; by split|]. cbn [single_child]. rewrite is_nil_spec.
  case_bool_decide as Hc.
  - subst c. destruct (IH (i + 1) p Hp) as [[-> H]|[-> (j & d & E & Hd)]].
    + left. split; [done|]. intros [|j] d E; [by injection E|by eapply H].
    + right. split; [done|]. by exists (S j), d.
  - destruct (Z.eqb_spec p (-1)); [lia|]. right. split; [done|]. by exists 0%nat, c.
Qed.

Lemma single_child_spec cs : ∀ i, 0 ≤ i →
  (single_child i (-1) cs = -1 ∧ ∀ j c, cs !! j = Some c → c = nilNode) ∨
  (∃ j c, single_child i (-1) cs = i + Z.of_nat j ∧ cs !! j = Some c ∧ c ≠ nilNode ∧
     ∀ j' c', j' ≠ j → cs !! j' = Some c' → c' = nilNode) ∨
  (single_child i (-1) cs = -2 ∧ two_children cs).
Proof.
  induction cs as [|c cs IH]; intros i Hi; [left; by split|]. cbn [single_child]. rewrite is_nil_spec.
  case_bool_decide as Hc.
  - subst c. destruct (IH (i + 1) ltac:(lia)) as [[-> H]|[(j & d & -> & E & Hd & H)|[-> (j1 & j2 & c & d & ? & ? & ? & ? & ?)]]].
    + left. split; [done|]. intros [|j] d E; [by injection E|by eapply H].
    + right; left. exists (S j), d. split; [lia|]. split_and!; [done..|]. intros [|j'] c' Hj E'; [by injection E'|].
      eapply H; [|done]. congruence.
    + right; right. split; [done|]. exists (S j1), (S j2), c, d. split_and!; try done. congruence.
  - change (-1 =? -1) with true. destruct (single_child_more cs (i + 1) i Hi) as [[-> H]|[-> (j & d & E & Hd)]].
    + right; left. exists 0%nat, c. split; [lia|]. split_and!; [done..|]. intros [|j'] c' Hj E'; [done|by eapply H].
    + right; right. split; [done|]. exists 0%nat, (S j), c, d. split_and!; done.
Qed.

(** One child left: it takes the place of the branch. *)
Lemma same_only_child cs fl j c :
  cs !! j = Some c → (∀ j' c', j' ≠ j → cs !! j' = Some c' → c' = nilNode) →
  same (fullNode cs fl) (shortNode [Z.of_nat j] c newFlag).
Proof.
  intros E H p v. rewrite sees_short_inv, sees_full_inv. split.
  - intros (q & -> & Hs). exists (Z.of_nat j), q, c. rewrite Nat2Z.id. split_and!; [done|lia|done|done].
  - intros (i & q & c' & -> & Hi & Ec & Hs). destruct (decide (Z.to_nat i = j)) as [<-|Hne].
    + exists q. rewrite Z2Nat.id by done. split; [done|congruence].
    + apply (H _ _ Hne) in Ec as ->. by apply sees_nil in Hs.
Qed.

Lemma same_resolve h m k fl : at_hash h = Some m → same (shortNode k (hashNode h) fl) (shortNode k m fl).
Proof. intros E. by apply same_short, same_hash. Qed.

(** The end of the deletion in a branch, when the child became nil. *)
Definition reduce (pre : bytes) (cs : list node) : tres (bool * node) :=
  let n := fullNode cs newFlag in
  let pos := single_child 0 (-1) cs in
  if 0 <=? pos then
    trie! c <- child cs pos;
    if negb (pos =? 16) then
      trie! cnode <- resolve db c pre;
      match cnode with
      | shortNode k2 val2 _ => TOk (true, shortNode (pos :: k2) val2 newFlag)
      | _ => TOk (true, shortNode [pos] c newFlag)
      end
    else TOk (true, shortNode [pos] c newFlag)
  else TOk (true, n).

Definition reduce_ok (cs : list node) (r : tres (bool * node)) : Prop :=
  match r with
  | TOk (d, n') => d = true ∧ wf n' ∧ shrunk n' ∧ same (fullNode cs newFlag) n'
  | TErr e => missing e
  | TPanic | TFuel => False
  end.

Lemma reduce_spec pre cs :
  length cs = 17%nat →
  (∀ i c, (i < 16)%nat → cs !! i = Some c → c ≠ nilNode → wf c) →
  (∀ c, cs !! 16%nat = Some c → value_slot c) →
  (∃ j c, cs !! j = Some c ∧ c ≠ nilNode) →
  reduce_ok cs (reduce pre cs).
Proof.
  intros Hl Hc Hv (j0 & c0 & E0 & H0). unfold reduce.
  destruct (single_child_spec cs 0 ltac:(lia)) as [[_ H]|[(j & c & -> & E & Hne & H)|[-> H2]]].
  - by apply H in E0.
  - rewrite Z.add_0_l. destruct (Z.leb_spec 0 (Z.of_nat j)); [|lia]. rewrite (child_at cs _ c) by by rewrite Nat2Z.id.
    cbn [tr_bind]. pose proof (same_only_child cs newFlag j c E H) as Hs. apply lookup_lt_Some in E as Hj.
    destruct (Z.eqb_spec (Z.of_nat j) 16) as [Ej|Ej]; cbn [negb].
    + assert (j = 16%nat) as -> by lia. destruct (Hv c E) as [->|(v & -> & Hvn)]; [done|].
      split_and!; [done|by constructor; [apply term_16|]|right; eauto|done].
    + assert (nibble (Z.of_nat j)) as Hnj by (unfold nibble; lia). assert (wf c) as Hwc by (eapply Hc; [|done..]; lia).
      assert (branchy c → reduce_ok cs (TOk (true, shortNode [Z.of_nat j] c newFlag))) as Hgo.
      { intros Hb. split_and!; [done|apply wf_ext; [by apply Forall_singleton|done..]|right; eauto|done]. }
      assert (∀ k2 c2 fl2, wf (shortNode k2 c2 fl2) → same c (shortNode k2 c2 fl2) →
        reduce_ok cs (TOk (true, shortNode (Z.of_nat j :: k2) c2 newFlag))) as Hm.
      { intros k2 c2 fl2 Hw2 Hs2. split_and!; [done| |right; eauto|].
        - eapply (wf_merge [_]); [by apply Forall_singleton|done].
        - etrans; [exact Hs|]. etrans; [exact (same_short _ _ _ newFlag newFlag Hs2)|]. exact (sees_merge [_] k2 c2 newFlag fl2 newFlag). }
      destruct c as [|v|k2 c2 fl2|cs2 fl2|h]; cbn [resolve tr_bind]; try done; [inversion Hwc|by eapply Hm|by apply Hgo|].
      inversion Hwc as [| | |? Hin Hwm _]; subst. pose proof (resolveHash_spec h pre Hwc) as Hr.
      destruct (at_hash h) as [m|] eqn:Em; [|by destruct Hr as (e & -> & He)]. rewrite Hr. cbn [tr_bind].
      pose proof (Hwm m eq_refl) as Hwfm. pose proof (Hin m eq_refl) as Hinm. destruct m as [| |k2 c2 fl2|cs2 fl2|]; try done.
      * eapply Hm; [done|by apply same_hash].
      * apply Hgo. cbn [branchy]. intros m Em'. by simplify_eq.
  - cbn [Z.leb Z.compare]. split_and!; [done|by constructor|by left|done].
Qed.

Lemma delete_full cs fl i q c pre r :
  fits (fullNode cs fl) (i :: q) → cs !! Z.to_nat i = Some c → delete_ok c q r →
  delete_ok (fullNode cs fl) (i :: q)
    (trie! (d, nn) <- r;
     if negb d then TOk (false, fullNode cs fl)
     else if negb (is_nil nn) then TOk (true, fullNode (set_child i nn cs) newFlag)
     else reduce pre (set_child i nn cs)).
Proof.
  intros Hf Ec H. destruct (fits_wf_full _ _ _ Hf) as [Hw Ht]. destruct (fits_full _ _ _ _ Hf) as (Hi & _).
  destruct (wf_two _ _ Hw) as [Hl H2]. destruct r as [[d nn]|e| |]; try done.
  destruct H as (Hf' & Hb & Hu & Hs). cbn [tr_bind]. destruct d; cbn [negb].
  2:{ split_and!; [done|by left| |done]. eapply upd_same.
      - eapply (upd_set_child cs fl fl); [lia|done|exact Hu].
      - symmetry. eapply same_set_child; [lia|done|by apply Hs]. }
  assert (upd (fullNode cs fl) (fullNode (set_child i nn cs) newFlag) (i :: q) None) as Hu'
    by (eapply upd_set_child; [lia|done..]).
  rewrite is_nil_spec. case_bool_decide as Hn; cbn [negb].
  - subst nn. assert (∃ j d, j ≠ Z.to_nat i ∧ cs !! j = Some d ∧ d ≠ nilNode) as (j & d & Hj & Ed & Hd).
    { destruct H2 as (j1 & j2 & d1 & d2 & Hne & E1 & E2 & N1 & N2).
      destruct (decide (j1 = Z.to_nat i)); [exists j2, d2|exists j1, d1]; split_and!; congruence. }
    inversion Hw as [| |? ? _ Hc Hv _|]; subst.
    assert (reduce_ok (set_child i nilNode cs) (reduce pre (set_child i nilNode cs))) as Hr.
    { apply reduce_spec; [by rewrite length_set_child| | |exists j, d; by rewrite set_child_ne].
      - intros j' c' Hj' E' Hne'. destruct (decide (j' = Z.to_nat i)) as [->|Hji];
          [rewrite set_child_eq in E' by lia; by injection E' as <-|rewrite set_child_ne in E' by done; by eapply Hc].
      - intros c' E'. destruct (decide (16%nat = Z.to_nat i)) as [Hji|Hji];
          [rewrite Hji, set_child_eq in E' by lia; injection E' as <-; by left|rewrite set_child_ne in E' by done; by apply Hv]. }
    destruct (reduce pre _) as [[d' n']|e| |]; try done. destruct Hr as (-> & Hw' & Hsh & Hsame).
    split_and!; [left; auto|done|by eapply upd_same|done].
  - assert (two_children (set_child i nn cs)) as H2' by (apply two_set_child; [lia|done..]).
    split_and!; [left; split; [done|right; by eapply wf_set_child]|by left|done|done].
Qed.

(** *** The whole deletion *)

Lemma delete_spec fuel : ∀ n pre k,
  fits n k → (cost n k ≤ fuel)%nat → delete_ok n k (delete_ db fuel n pre k).
Proof.
  induction fuel as [|fuel IH]; intros n pre k Hf Hc; [unfold cost in Hc; destruct n; lia|].
  destruct n as [|v|k0 c fl|cs fl|h]; cbn [delete_].
  - apply delete_none; [done|by intros ? ?%sees_nil].
  - destruct Hf as [[_ [?|Hw]]|[-> _]]; [done|inversion Hw|].
    split_and!; [apply fits_nil; by right|done| |done]. intros p v'. destruct (decide (p = [])).
    + split; [by intros ?%sees_nil|done].
    + rewrite sees_value_inv. split; [by intros ?%sees_nil|naive_solver].
  - destruct (fits_wf_short _ _ _ _ Hf) as [Hw Ht]. destruct (decide (prefixLen k k0 = length k0)) as [E|E].
    + rewrite E. destruct (prefixLen_prefix _ _ E) as [q ->]. destruct (Nat.ltb_spec (length k0) (length k0)); [lia|].
      rewrite drop_app_length, length_app. destruct q as [|x q].
      * cbn [length]. rewrite Nat.add_0_r, Nat.eqb_refl. rewrite app_nil_r in Hf, Ht |- *. inversion Hw as [| ? ? ? Hn| |]; subst; [|by destruct (term_not_nibbles _ Ht Hn)].
        split_and!; [apply fits_nil; by left|done| |done]. intros p v'.
        destruct (decide (p = k0)) as [->|Hne]; [split; [by intros ?%sees_nil|done]|]. split; [by intros ?%sees_nil|].
        rewrite sees_short_inv. intros (q & -> & [-> _]%sees_value_inv). by rewrite app_nil_r in Hne.
      * destruct (Nat.eqb_spec (length k0) (length k0 + length (x :: q))) as [Hl|_]; [cbn [length] in Hl; lia|].
        apply delete_short; [done..|]. apply IH; [by eapply fits_short|by eapply cost_short].
    + assert (prefixLen k k0 < length k0)%nat as Hlt.
      { destruct (prefixLen_split k k0) as (p & b1 & r1 & b2 & r2 & -> & -> & _ & ->); [done|inversion Hw; auto|done|].
        rewrite length_app. cbn [length]. lia. }
      destruct (Nat.ltb_spec (prefixLen k k0) (length k0)); [|lia]. apply delete_none; [done|].
      intros v (q & -> & _)%sees_short_inv. by rewrite prefixLen_app in E.
  - destruct (fits_wf_full _ _ _ Hf) as [Hw Ht]. destruct k as [|i q]; [by apply term_not_nil in Ht|].
    destruct (fits_full _ _ _ _ Hf) as (Hi & c & Ec & Hfc). rewrite (child_at _ _ _ Ec). cbn [tr_bind].
    eapply (delete_full cs fl i q c pre); [done..|]. apply IH; [done|by eapply cost_full].
  - pose proof (resolveHash_spec h pre (proj1 (fits_wf_hash _ _ Hf))) as Hr. destruct (at_hash h) as [m|] eqn:Em.
    + rewrite Hr. cbn [tr_bind]. destruct (fits_hash _ _ _ Hf Em) as [Hfm Him].
      apply delete_hash; [done..|]. apply IH; [done|by apply cost_inner].
    + destruct Hr as (e & -> & He). exact He.
Qed.

End Content.
