(* ===== verification/TrieSpec.v ===== *)
(** * What the trie promises (trie/trie.go)

    A trie over its node database refines a finite map from byte strings to
    non-empty byte strings; and the form of a trie is a function of its content:
    two tries with the same content are the same tree, whatever the operations
    that built them and whatever is already loaded from their databases. *)
From S2P Require Import Prelude Common TrieEncoding Trie TrieMap.

(** ** The map *)

(** The trie holds the map.  [complete] says that the database has every node
    the trie refers to. *)
Record represents (db : nodes_db) (complete : Prop) (t : Trie) (m : gmap bytes bytes) : Prop := {
  rep_form : tr_root t = nilNode ∨ wf db complete (tr_root t);
  rep_keys : ∀ key v, m !! key = Some v → wf_bytes key;
  rep_sees : ∀ p v, sees db (tr_root t) p v ↔ ∃ key, p = keybytesToHex key ∧ m !! key = Some v }.

Lemma rep_lookup db complete t m key v :
  represents db complete t m → m !! key = Some v ↔ sees db (tr_root t) (keybytesToHex key) v.
Proof.
  intros [_ _ Hs]. rewrite Hs. split; [eauto|]. intros (key' & E%keybytesToHex_inj & H). congruence.
Qed.

Lemma rep_fits db complete t m key :
  represents db complete t m → wf_bytes key → fits db complete (tr_root t) (keybytesToHex key).
Proof. intros [Hf _ _] Hk. left. split; [by apply keybytesToHex_term|done]. Qed.

Lemma key_fuel_enough n k : (cost n k ≤ key_fuel k)%nat.
Proof. unfold cost, key_fuel. destruct n; lia. Qed.

Lemma rep_same db complete t m n u :
  represents db complete t m → n = nilNode ∨ wf db complete n → same db (tr_root t) n →
  represents db complete (mkTrie n u) m.
Proof. intros [_ Hk Hs] Hf Hn. split; cbn [tr_root]; [done..|]. intros p v. by rewrite (Hn p v). Qed.

Lemma rep_upd db complete t m n u key o :
  represents db complete t m → wf_bytes key → n = nilNode ∨ wf db complete n →
  upd db (tr_root t) n (keybytesToHex key) o →
  represents db complete (mkTrie n u) (partial_alter (λ _, o) key m).
Proof.
  intros [_ Hk Hs] Hkey Hf Hu. split; cbn [tr_root]; [done| |].
  - intros key' v. destruct (decide (key = key')) as [<-|Hne]; [done|]. rewrite lookup_partial_alter_ne by done. apply Hk.
  - intros p v. rewrite (Hu p v). destruct (decide (p = keybytesToHex key)) as [->|Hne].
    + split; [intros ->; exists key; by rewrite lookup_partial_alter_eq|].
      intros (key' & <-%keybytesToHex_inj & H). by rewrite lookup_partial_alter_eq in H.
    + rewrite Hs. split; intros (key' & -> & H); exists key'; (split; [done|]);
        rewrite lookup_partial_alter_ne in *; congruence.
Qed.

(** What an operation that returns [r] and the trie [t'] promises: the result
    [a] and a trie that holds [m'], or the error of a missing node and a trie
    that holds what it held. *)
Definition refines {A : Type} (db : nodes_db) (complete : Prop) (m : gmap bytes bytes) (out : tres A * Trie) (a : A)
    (m' : gmap bytes bytes) : Prop :=
  (out.1 = TOk a ∧ represents db complete out.2 m') ∨
  (∃ e, out.1 = TErr e ∧ missing db complete e ∧ represents db complete out.2 m).

Lemma TryGet_refines db complete t m key :
  represents db complete t m → wf_bytes key → refines db complete m (TryGet db key t) (m !! key) m.
Proof.
  intros Hr Hk. pose proof (tryGet_spec db complete (key_fuel (keybytesToHex key)) (tr_root t) [] (keybytesToHex key)
    (rep_fits _ _ _ _ _ Hr Hk) (key_fuel_enough _ _)) as H. cbn [app length] in H. unfold TryGet.
  destruct (tryGet _ _ _ _ _) as [[[v n'] d]|e| |]; try done; [left|right; by exists e].
  destruct H as (Hv & Hf & _ & _ & Hs). cbn [fst snd]. split.
  - f_equal. destruct (m !! key) as [w|] eqn:E.
    + by apply Hv, (rep_lookup _ _ _ _ _ _ Hr).
    + destruct v as [w|]; [|done]. destruct (Hv w) as [Hw _]. specialize (Hw eq_refl).
      apply (rep_lookup _ _ _ _ _ _ Hr) in Hw. congruence.
  - destruct d; [|done]. eapply rep_same; [done| |done]. eapply fits_term; [|done]. by apply keybytesToHex_term.
Qed.

Lemma set_root_refines db complete t m key o r :
  represents db complete t m → wf_bytes key →
  match r with
  | TOk (_, n') => fits db complete n' (keybytesToHex key) ∧ upd db (tr_root t) n' (keybytesToHex key) o
  | TErr e => missing db complete e
  | _ => False
  end →
  refines db complete m (set_root r (count_change t)) tt (partial_alter (λ _, o) key m).
Proof.
  intros Hr Hk H. assert (represents db complete (count_change t) m) as Hr'.
  { eapply rep_same; [done|apply Hr|done]. }
  destruct r as [[d n']|e| |]; try done; [left|right; by exists e]. destruct H as [Hf Hu]. split; [done|].
  eapply rep_upd; [done..| |done]. eapply fits_term; [|done]. by apply keybytesToHex_term.
Qed.

Lemma insert_refines db complete t m key value :
  represents db complete t m → wf_bytes key → value ≠ [] →
  refines db complete m
    (set_root (insert db (key_fuel (keybytesToHex key)) (tr_root t) [] (keybytesToHex key) (valueNode value)) (count_change t))
    tt (<[key := value]> m).
Proof.
  intros Hr Hk Hv. eapply (set_root_refines _ _ _ _ _ (Some value)); [done..|].
  pose proof (insert_spec db complete (key_fuel (keybytesToHex key)) value Hv (tr_root t) [] (keybytesToHex key)
    (rep_fits _ _ _ _ _ Hr Hk) (key_fuel_enough _ _)) as H.
  destruct (insert _ _ _ _ _ _) as [[d n']|e| |]; try done. by destruct H as (? & _ & _ & ? & _).
Qed.

Lemma delete_refines db complete t m key :
  represents db complete t m → wf_bytes key →
  refines db complete m
    (set_root (delete_ db (key_fuel (keybytesToHex key)) (tr_root t) [] (keybytesToHex key)) (count_change t))
    tt (delete key m).
Proof.
  intros Hr Hk. eapply (set_root_refines _ _ _ _ _ None); [done..|].
  pose proof (delete_spec db complete (key_fuel (keybytesToHex key)) (tr_root t) [] (keybytesToHex key)
    (rep_fits _ _ _ _ _ Hr Hk) (key_fuel_enough _ _)) as H.
  destruct (delete_ _ _ _ _ _) as [[d n']|e| |]; try done. by destruct H as (? & _ & ? & _).
Qed.

Lemma TryUpdate_refines db complete t m key value :
  represents db complete t m → wf_bytes key →
  refines db complete m (TryUpdate db key value t) tt
    (match value with [] => delete key m | _ => <[key := value]> m end).
Proof.
  intros Hr Hk. unfold TryUpdate. destruct value as [|x value]; [exact (delete_refines _ _ _ _ _ Hr Hk)|].
  by apply (insert_refines _ _ _ _ _ (x :: value) Hr Hk).
Qed.

(** ** The tree is a function of the content *)

(** The same tree, up to flags and to what is loaded from the databases. *)
Inductive alike (db1 db2 : nodes_db) : node → node → Prop :=
| alike_nil : alike db1 db2 nilNode nilNode
| alike_value v : alike db1 db2 (valueNode v) (valueNode v)
| alike_short k c1 c2 fl1 fl2 : alike db1 db2 c1 c2 → alike db1 db2 (shortNode k c1 fl1) (shortNode k c2 fl2)
| alike_full cs1 cs2 fl1 fl2 :
    length cs1 = length cs2 →
    (∀ i c1 c2, cs1 !! i = Some c1 → cs2 !! i = Some c2 → alike db1 db2 c1 c2) →
    alike db1 db2 (fullNode cs1 fl1) (fullNode cs2 fl2)
| alike_left h m n : at_hash db1 h = Some m → alike db1 db2 m n → alike db1 db2 (hashNode h) n
| alike_right h m n : at_hash db2 h = Some m → alike db1 db2 n m → alike db1 db2 n (hashNode h).

(** Two values under keys that start differently. *)
Definition spread (db : nodes_db) (n : node) : Prop :=
  ∃ i j p q v w, i ≠ j ∧ sees db n (i :: p) v ∧ sees db n (j :: q) w.

Section Canonical.
Context (db : nodes_db).

Lemma sees_slot c : value_slot c → c ≠ nilNode → ∃ p v, sees db c p v.
Proof. intros [->|(v & -> & _)] ?; [done|]. exists [], v. constructor. Qed.

Lemma wf_child cs fl i c :
  wf db True (fullNode cs fl) → cs !! i = Some c → c ≠ nilNode → ((i < 16)%nat ∧ wf db True c) ∨ (i = 16%nat ∧ value_slot c).
Proof.
  inversion 1 as [| |? ? Hl Hc Hv _|]; subst. intros E Hn. apply lookup_lt_Some in E as Hi.
  destruct (decide (i = 16%nat)) as [->|Hne]; [right; auto|left]. split; [lia|]. eapply (Hc i); [lia|done..].
Qed.

Lemma wf_sees n : wf db True n → ∃ p v, sees db n p v.
Proof.
  induction 1 as [k v fl Hk Hv|k c fl Hk Hk0 Hb Hw (p & v & IH)|cs fl Hl Hc IH Hv (i & j & c & d & _ & Ei & _ & Hci & _)|h Hin Hw IH Hcm].
  - exists (k ++ []), v. repeat constructor.
  - exists (k ++ p), v. by constructor.
  - assert (∃ p v, sees db c p v) as (p & v & Hs).
    { apply lookup_lt_Some in Ei as Hi. destruct (decide (i = 16%nat)) as [->|Hne].
      - apply sees_slot; [by apply Hv|done].
      - eapply (IH i); [lia|done..]. }
    exists (Z.of_nat i :: p), v. econstructor; [lia|by rewrite Nat2Z.id|done].
  - destruct (at_hash db h) as [m|] eqn:E; [|by destruct (Hcm I)].
    destruct (IH m eq_refl) as (p & v & Hs). exists p, v. by econstructor.
Qed.

Lemma child_sees cs fl i c :
  wf db True (fullNode cs fl) → cs !! i = Some c → c ≠ nilNode → ∃ p v, sees db (fullNode cs fl) (Z.of_nat i :: p) v.
Proof.
  intros Hw E Hn. assert (∃ p v, sees db c p v) as (p & v & Hs).
  { destruct (wf_child _ _ _ _ Hw E Hn) as [[_ H]|[_ H]]; [by apply wf_sees|by apply sees_slot]. }
  exists p, v. econstructor; [lia|by rewrite Nat2Z.id|done].
Qed.

Lemma full_spread cs fl : wf db True (fullNode cs fl) → spread db (fullNode cs fl).
Proof.
  intros Hw. destruct (wf_two _ _ _ _ Hw) as [_ (i & j & c & d & Hne & Ei & Ej & Hc & Hd)].
  destruct (child_sees _ _ _ _ Hw Ei Hc) as (p & v & H1). destruct (child_sees _ _ _ _ Hw Ej Hd) as (q & w & H2).
  exists (Z.of_nat i), (Z.of_nat j), p, q, v, w. split_and!; [lia|done..].
Qed.

Lemma branchy_spread c : branchy db c → wf db True c → spread db c.
Proof.
  intros Hb Hw. destruct c as [| | |cs fl|h]; try done; [by eapply full_spread|].
  inversion Hw as [| | |? _ Hwm Hcm]; subst. destruct (at_hash db h) as [m|] eqn:E; [|by destruct (Hcm I)].
  specialize (Hb m E). destruct m as [| | |cs fl|]; try done. destruct (full_spread cs fl) as (i & j & p & q & v & w & Hne & H1 & H2); [auto|].
  exists i, j, p, q, v, w. split_and!; [done|by econstructor..].
Qed.

(** The keys below an extension have its key in common and no more. *)
Lemma spread_prefix k c fl k' :
  spread db c → (∀ p v, sees db (shortNode k c fl) p v → k' `prefix_of` p) → k' `prefix_of` k.
Proof.
  intros (i & j & p & q & v & w & Hne & H1 & H2) H.
  pose proof (H _ _ (sees_short db k c fl _ _ H1)) as P1. pose proof (H _ _ (sees_short db k c fl _ _ H2)) as P2. clear H H1 H2.
  revert k' P1 P2. induction k as [|x k IH]; intros [|y k'] P1 P2; try apply prefix_nil; cbn [app] in *.
  - apply prefix_cons_inv_1 in P1. apply prefix_cons_inv_1 in P2. congruence.
  - apply prefix_cons_inv_1 in P1 as E. subst y. apply prefix_cons, IH; by eapply prefix_cons_inv_2.
Qed.

Lemma short_not_spread k c fl : k ≠ [] → ¬ spread db (shortNode k c fl).
Proof.
  intros Hk (i & j & p & q & v & w & Hne & (p' & E1 & _)%sees_short_inv & (q' & E2 & _)%sees_short_inv).
  destruct k; [done|]. cbn in E1, E2. congruence.
Qed.
End Canonical.

Lemma spread_agree db1 db2 n1 n2 :
  (∀ p v, sees db1 n1 p v ↔ sees db2 n2 p v) → spread db1 n1 → spread db2 n2.
Proof.
  intros H (i & j & p & q & v & w & Hne & H1 & H2). exists i, j, p, q, v, w. by rewrite <- !H.
Qed.

(** The content of a leaf is not that of an extension. *)
Lemma leaf_ext_differ db1 db2 k v fl k' c' fl' :
  spread db2 c' → (∀ p w, sees db1 (shortNode k (valueNode v) fl) p w ↔ sees db2 (shortNode k' c' fl') p w) → False.
Proof.
  intros Hsp H. assert (∀ q w, sees db2 c' q w → k' ++ q = k) as Hk.
  { intros q w Hs. assert (sees db1 (shortNode k (valueNode v) fl) (k' ++ q) w) as Hs' by (apply H; by constructor).
    apply sees_short_inv in Hs' as (q0 & -> & [-> _]%sees_value_inv). by rewrite app_nil_r. }
  destruct Hsp as (i & j & p & q & v1 & v2 & Hne & H1 & H2). apply Hk in H1, H2. subst k. apply app_inv_head in H2. congruence.
Qed.

Lemma ext_key db1 db2 k c fl k' c' fl' :
  spread db1 c → (∀ p w, sees db1 (shortNode k c fl) p w → sees db2 (shortNode k' c' fl') p w) → k' `prefix_of` k.
Proof.
  intros Hsp H. eapply (spread_prefix db1 k c fl); [done|]. intros p v Hs%H.
  apply sees_short_inv in Hs as (q & -> & _). by eexists.
Qed.

Section Agree.
Context (db1 db2 : nodes_db).
Definition agree (n1 n2 : node) : Prop := ∀ p v, sees db1 n1 p v ↔ sees db2 n2 p v.

Lemma agree_short_child k c fl c' fl' : agree (shortNode k c fl) (shortNode k c' fl') → agree c c'.
Proof.
  intros H p v. specialize (H (k ++ p) v). rewrite !sees_short_inv in H.
  split; intros Hs; [destruct (proj1 H) as (q & <-%app_inv_head & ?)|destruct (proj2 H) as (q & <-%app_inv_head & ?)]; eauto.
Qed.
Lemma agree_full_child cs fl cs' fl' i c c' :
  agree (fullNode cs fl) (fullNode cs' fl') → cs !! i = Some c → cs' !! i = Some c' → agree c c'.
Proof.
  intros H E E' p v. specialize (H (Z.of_nat i :: p) v). rewrite !sees_full_cons, !Nat2Z.id in H.
  split; intros Hs; [destruct (proj1 H) as (_ & ? & ? & ?)|destruct (proj2 H) as (_ & ? & ? & ?)]; split_and?; try lia;
    simplify_eq; eauto.
Qed.

(** Values slots with the same content are equal. *)
Lemma slot_alike c c' : value_slot c → value_slot c' → agree c c' → alike db1 db2 c c'.
Proof.
  intros [->|(v & -> & _)] [->|(w & -> & _)] H.
  - constructor.
  - specialize (H [] w). rewrite (sees_value_inv db2) in H. by destruct (sees_nil db1 _ _ (proj2 H (conj eq_refl eq_refl))).
  - specialize (H [] v). rewrite (sees_value_inv db1) in H. by destruct (sees_nil db2 _ _ (proj1 H (conj eq_refl eq_refl))).
  - specialize (H [] v). rewrite !sees_value_inv in H. destruct (proj1 H) as [_ ->]; [done|]. constructor.
Qed.

(** One step of the comparison: no hash on the left. *)
Definition alike_to (n1 : node) : Prop := ∀ n2, wf db2 True n2 → agree n1 n2 → alike db1 db2 n1 n2.

Lemma alike_to_inner n1 :
  (∀ n2, inner n2 = true → wf db2 True n2 → agree n1 n2 → alike db1 db2 n1 n2) → alike_to n1.
Proof.
  intros H n2 Hw. induction Hw as [| | |h Hin Hw IH Hcm]; intros Ha; try (apply H; [done|by constructor|done]).
  destruct (at_hash db2 h) as [m|] eqn:E; [|by destruct (Hcm I)]. eapply alike_right; [exact E|]. apply IH; [done|].
  intros p v. rewrite (Ha p v). symmetry. by apply same_hash.
Qed.

Lemma leaf_alike k v fl : term k → v ≠ [] → alike_to (shortNode k (valueNode v) fl).
Proof.
  intros Hk Hv. apply alike_to_inner. intros n2 Hin Hw Ha. inversion Hw as [k' v' fl' Hk' Hv'|k' c fl' Hk' Hk0 Hb Hc|cs fl' Hl _ _ _|]; subst; try done.
  - assert (sees db2 (shortNode k' (valueNode v') fl') (k ++ []) v) as Hs by (apply Ha; repeat constructor).
    apply sees_short_inv in Hs as (q & E & [-> ->]%sees_value_inv). rewrite !app_nil_r in E. subst k'. repeat constructor.
  - destruct (leaf_ext_differ db1 db2 k v fl k' c fl'); [by apply branchy_spread|done].
  - destruct (short_not_spread db1 k (valueNode v) fl); [by apply term_not_nil|]. eapply spread_agree; [|by eapply (full_spread db2)].
    intros p w. symmetry. apply Ha.
Qed.

Lemma ext_alike k c fl :
  nibbles k → k ≠ [] → branchy db1 c → wf db1 True c → alike_to c → alike_to (shortNode k c fl).
Proof.
  intros Hk Hk0 Hb Hc IH. apply alike_to_inner. intros n2 Hin Hw Ha.
  inversion Hw as [k' v' fl' Hk' Hv'|k' c' fl' Hk' Hk0' Hb' Hc'|cs fl' Hl _ _ _|]; subst; try done.
  - destruct (leaf_ext_differ db2 db1 k' v' fl' k c fl); [by apply branchy_spread|]. intros p w. symmetry. apply Ha.
  - assert (k = k') as <-.
    { apply (anti_symm prefix); [eapply (ext_key db2 db1 k' c' fl' k c fl)|eapply (ext_key db1 db2 k c fl k' c' fl')];
        try (by apply branchy_spread); intros; by apply Ha. }
    constructor. apply IH; [done|]. by eapply agree_short_child.
  - destruct (short_not_spread db1 k c fl); [done|]. eapply spread_agree; [|by eapply (full_spread db2)].
    intros p w. symmetry. apply Ha.
Qed.

Lemma full_alike cs fl :
  wf db1 True (fullNode cs fl) → (∀ i c, (i < 16)%nat → cs !! i = Some c → c ≠ nilNode → alike_to c) →
  alike_to (fullNode cs fl).
Proof.
  intros Hw1 IH. apply alike_to_inner. intros n2 Hin Hw Ha.
  assert (spread db2 n2) as Hsp by (eapply spread_agree; [exact Ha|by eapply full_spread]).
  destruct n2 as [| |k' c' fl'|cs' fl'|]; try done; [by destruct (short_not_spread db2 k' c' fl'); [by eapply wf_short_key|]|].
  destruct (wf_two _ _ _ _ Hw1) as [Hl1 _]. destruct (wf_two _ _ _ _ Hw) as [Hl2 _].
  constructor; [congruence|]. intros i c1 c2 E1 E2. pose proof (agree_full_child _ _ _ _ _ _ _ Ha E1 E2) as Hc.
  inversion Hw as [| |? ? _ W2 V2 _|]; inversion Hw1 as [| |? ? _ W1 V1 _|]; subst.
  apply lookup_lt_Some in E1 as Hi. destruct (decide (i = 16%nat)) as [->|Hne]; [apply slot_alike; auto|].
  assert (i < 16)%nat as Hi16 by lia.
  destruct (decide (c1 = nilNode)) as [->|N1], (decide (c2 = nilNode)) as [->|N2].
  - constructor.
  - destruct (wf_sees db2 c2) as (p & v & Hs); [by eapply W2|]. apply Hc in Hs. by apply sees_nil in Hs.
  - destruct (wf_sees db1 c1) as (p & v & Hs); [by eapply W1|]. apply Hc in Hs. by apply sees_nil in Hs.
  - eapply IH; [done..| |done]. by eapply W2.
Qed.

Lemma wf_alike n1 : wf db1 True n1 → alike_to n1.
Proof.
  induction 1 as [k v fl Hk Hv|k c fl Hk Hk0 Hb Hw IH|cs fl Hl Hc IH Hv H2|h Hin Hw IH Hcm].
  - by apply leaf_alike.
  - by apply ext_alike.
  - apply full_alike; [by constructor|done].
  - intros n2 Hw2 Ha. destruct (at_hash db1 h) as [m|] eqn:E; [|by destruct (Hcm I)]. eapply alike_left; [exact E|].
    apply IH; [done..|]. intros p v. rewrite <- (Ha p v). by apply same_hash.
Qed.
End Agree.

(** Tries that hold the same map are the same tree. *)
Lemma represents_alike db1 db2 t1 t2 m :
  represents db1 True t1 m → represents db2 True t2 m → alike db1 db2 (tr_root t1) (tr_root t2).
Proof.
  intros [F1 K1 S1] [F2 K2 S2]. assert (agree db1 db2 (tr_root t1) (tr_root t2)) as Ha by (intros p v; by rewrite S1, S2).
  destruct F1 as [F1|F1], F2 as [F2|F2].
  - rewrite F1, F2. constructor.
  - destruct (wf_sees _ _ F2) as (p & v & Hs). apply Ha in Hs. rewrite F1 in Hs. by apply sees_nil in Hs.
  - destruct (wf_sees _ _ F1) as (p & v & Hs). apply Ha in Hs. rewrite F2 in Hs. by apply sees_nil in Hs.
  - by apply wf_alike.
Qed.

(** C3: the trie refines the map: reading a key gives the value of the map and
    leaves the content, writing it sets the value (deletes it for an empty
    value), deleting it removes it, for every key and every trie in canonical
    form.  None of them panics; the only error is that of a node that the
    database does not have, it leaves the content as it was and does not occur
    when the database is complete. *)
Theorem trie_is_a_map db complete t m key value :
  represents db complete t m → wf_bytes key →
  refines db complete m (TryGet db key t) (m !! key) m ∧
  refines db complete m (TryUpdate db key value t) tt
    (match value with [] => delete key m | _ => <[key := value]> m end) ∧
  refines db complete m (TryDelete db key t) tt (delete key m).
Proof.
  intros Hr Hk. split; [by apply TryGet_refines|]. split; [by apply TryUpdate_refines|].
  exact (delete_refines _ _ _ _ _ Hr Hk).
Qed.

(** A trie whose root is still in the database. *)
Definition one_leaf : nodes_db := λ h,
  if h =? 5 then Some (shortNode (keybytesToHex [0x12]) (valueNode [1]) (mkFlag (Some [5]) false)) else None.

Lemma one_leaf_represents : represents one_leaf True (mkTrie (hashNode [5]) 0) {[ [0x12] := [1] ]}.
Proof.
  split; cbn [tr_root].
  - right. constructor; [by intros m [= <-]| |done]. intros m [= <-]. constructor; [|done].
    apply keybytesToHex_term. apply (bool_decide_unpack _). vm_compute. exact I.
  - intros key v [<- <-]%lookup_singleton_Some. apply (bool_decide_unpack _). vm_compute. exact I.
  - intros p v. rewrite sees_hash_inv. setoid_rewrite lookup_singleton_Some. split.
    + intros (m & [= <-] & (q & -> & [-> ->]%sees_value_inv)%sees_short_inv). exists [0x12]. by rewrite app_nil_r.
    + intros (key & -> & <- & <-). eexists. split; [done|]. apply sees_short_inv. exists []. rewrite app_nil_r. split; [done|constructor].
Qed.

Lemma trie_is_a_map_witness :
  refines one_leaf True {[ [0x12] := [1] ]} (TryUpdate one_leaf [0x12; 7] [4] (mkTrie (hashNode [5]) 0)) tt
    (<[ [0x12; 7] := [4] ]> {[ [0x12] := [1] ]}).
Proof.
  apply (trie_is_a_map one_leaf True (mkTrie (hashNode [5]) 0) {[ [0x12] := [1] ]} [0x12; 7] [4]).
  - apply one_leaf_represents.
  - apply (bool_decide_unpack _). vm_compute. exact I.
Defined.
