(* ===== verification/TrieHash.v ===== *)
(** * Hashing a trie (trie/hasher.go, trie/node.go, Trie.Hash)

    [hash] collapses a node: children first, a node whose encoding has less than
    32 bytes stays inside its parent, any other is replaced by its Keccak hash;
    hashes are kept in the flags of the nodes.  The second part shows that the
    cached hashes stay right under every operation, and so the root hash is a
    function of the content alone. *)
From S2P Require Import Prelude Common RlpEncode TrieEncoding Trie TrieMap TrieSpec.
Import Enc.

(** ** The hasher *)

(** [cache]: a method call on a nil interface panics. *)
Definition cache (n : node) : outcome (option bytes * bool) :=
  match n with
  | nilNode => Panic
  | valueNode _ | hashNode _ => Ret (None, true)
  | shortNode _ _ fl | fullNode _ fl => Ret (nf_hash fl, nf_dirty fl)
  end.

(** The value that the RLP writer sees: a full node replaces its nil children by
    [nilValueNode] ([fullNode.EncodeRLP]), a nil interface is an empty list. *)
Definition nilValueNode : node := valueNode [].

Fixpoint node_val (n : node) : gval :=
  match n with
  | nilNode => VList []
  | valueNode v => VBytes v
  | hashNode h => VBytes h
  | shortNode k c _ => VList [VBytes k; node_val c]
  | fullNode cs _ => VList (map (λ c, match c with nilNode => VBytes [] | _ => node_val c end) cs)
  end.

Section Hasher.
Context (Keccak256 : bytes → bytes).

(** [shortnodeToHash] and [fullnodeToHash]. *)
Definition toHash (n : node) (force : bool) : outcome node :=
  match EncodeToBytes (node_val n) with
  | Err _ => Panic
  | Ok tmp => Ret (if (zlen tmp <? 32) && negb force then n else hashNode (Keccak256 tmp))
  end.

Definition hashShortNodeChildren (hash : node → bool → outcome (node * node)) (k : bytes) (c : node) (fl : nodeFlag) :
    outcome (node * node) :=
  do! ck <- hexToCompact k;
  do! (cv, nv) <- match c with
                  | fullNode _ _ | shortNode _ _ _ => hash c false
                  | _ => Ret (c, c)
                  end;
  Ret (shortNode ck cv fl, shortNode k nv fl).

(** The loop over the first sixteen children. *)
Definition hash_children (hash : node → bool → outcome (node * node)) : nat → list node → outcome (list (node * node)) :=
  fix loop (i : nat) (cs : list node) :=
    match cs with
    | [] => Ret []
    | c :: cs =>
        do! x <- (if (i <? 16)%nat then
                    match c with nilNode => Ret (nilValueNode, nilNode) | _ => hash c false end
                  else Ret (c, c));
        do! xs <- loop (S i) cs;
        Ret (x :: xs)
    end.

Definition hashFullNodeChildren (hash : node → bool → outcome (node * node)) (cs : list node) (fl : nodeFlag) :
    outcome (node * node) :=
  do! xs <- hash_children hash 0 cs;
  Ret (fullNode (map fst xs) fl, fullNode (map snd xs) fl).

(** [cached.flags.hash = hn], or nil when the node was not hashed. *)
Definition set_hash (hashed cached : node) : node :=
  let h := match hashed with hashNode hn => Some hn | _ => None end in
  match cached with
  | shortNode k c fl => shortNode k c (mkFlag h (nf_dirty fl))
  | fullNode cs fl => fullNode cs (mkFlag h (nf_dirty fl))
  | n => n
  end.

Definition finish (force : bool) (x : node * node) : outcome (node * node) :=
  let '(collapsed, cached) := x in
  do! hashed <- toHash collapsed force;
  Ret (hashed, set_hash hashed cached).

Fixpoint hash (n : node) (force : bool) : outcome (node * node) :=
  do! (h, _) <- cache n;
  match h with
  | Some h => Ret (hashNode h, n)
  | None =>
      match n with
      | shortNode k c fl => do! x <- hashShortNodeChildren hash k c fl; finish force x
      | fullNode cs fl => do! x <- hashFullNodeChildren hash cs fl; finish force x
      | _ => Ret (n, n)
      end
  end.

(** [proofHash]: the collapsed node and the reference to it. *)
Definition proofHash (original : node) : outcome (node * node) :=
  match original with
  | shortNode k c fl => do! (sn, _) <- hashShortNodeChildren hash k c fl; do! h <- toHash sn false; Ret (sn, h)
  | fullNode cs fl => do! (fn, _) <- hashFullNodeChildren hash cs fl; do! h <- toHash fn false; Ret (fn, h)
  | n => Ret (n, n)
  end.

(** [hashRoot] *)
Definition hashRoot (t : Trie) : outcome (node * node * Trie) :=
  match tr_root t with
  | nilNode => Ret (hashNode (Bytes.Hash_Bytes emptyRoot), nilNode, t)
  | _ =>
      do! (hashed, cached) <- hash (tr_root t) true;
      Ret (hashed, cached, mkTrie (tr_root t) 0)
  end.

(** [Hash]: [hash.(hashNode)] panics for any other node. *)
Definition Hash (t : Trie) : outcome (Z * Trie) :=
  do! (hash, cached, t) <- hashRoot t;
  match hash with
  | hashNode h => Ret (Bytes.BytesToHash h, mkTrie cached (tr_unhashed t))
  | _ => Panic
  end.

End Hasher.

(** ** Encodings always exist *)

Lemma write_ok v : nonneg v = true → ∀ w, ∃ w', write v w = Ok w'.
Proof.
  induction v as [| |p| | |l IH|k|k v IH] using gval_ind'; intros Hn w; try by eexists.
  - destruct p as [i|]; [|by eexists]. cbn in Hn |- *. unfold writeBigInt. destruct (Z.ltb_spec i 0); [lia|].
    repeat case_match; by eexists.
  - rewrite write_VList. destruct (list_ w) as [lh w1]. cbn [nonneg] in Hn.
    assert (∃ w2, write_elems l w1 = Ok w2) as [w2 ->]; [|by eexists]. clear w. revert w1.
    induction IH as [|x l Hx _ IHl]; intros w1; [by eexists|]. cbn in Hn |- *. apply andb_true_iff in Hn as [H1 H2].
    destruct (Hx H1 w1) as [w' ->]. by apply IHl.
  - destruct k; by eexists.
  - by apply IH.
Qed.

Definition encoding (g : gval) : bytes := match EncodeToBytes g with Ok e => e | Err _ => [] end.
Lemma encoding_ok g : nonneg g = true → EncodeToBytes g = Ok (encoding g).
Proof. intros H. unfold encoding, EncodeToBytes. by destruct (write_ok g H encbuf_reset) as [w ->]. Qed.

Lemma node_ind' (P : node → Prop) :
  P nilNode → (∀ v, P (valueNode v)) → (∀ k c fl, P c → P (shortNode k c fl)) →
  (∀ cs fl, (∀ i c, cs !! i = Some c → P c) → P (fullNode cs fl)) → (∀ h, P (hashNode h)) → ∀ n, P n.
Proof.
  intros H1 H2 H3 H4 H5. fix IH 1. intros [|v|k c fl|cs fl|h]; [apply H1|apply H2|apply H3, IH| |apply H5].
  apply H4. induction cs as [|c cs IHcs]; intros [|i] c' E; [discriminate E|discriminate E| |].
  - injection E as <-. apply IH.
  - exact (IHcs i c' E).
Qed.

Lemma node_val_nonneg n : nonneg (node_val n) = true.
Proof.
  induction n as [| |k c fl IH|cs fl IH|] using node_ind'; try done; cbn; [by rewrite IH|].
  apply Is_true_eq_true, forallb_True, Forall_map, Forall_lookup. intros i c E. apply Is_true_eq_left. apply IH in E. by destruct c.
Qed.

(** ** The reference of a node *)

Section Reference.
Context (Keccak256 : bytes → bytes) (db : nodes_db).

(** What stands for an inner node in its parent. *)
Definition shrink (g : gval) : gval :=
  if zlen (encoding g) <? 32 then g else VBytes (Keccak256 (encoding g)).

(** [ref true]: what stands for the node in its parent; [ref false]: the list
    that is hashed for an inner node.  A hash stands for a node of the database
    that has it. *)
Inductive ref : bool → node → gval → Prop :=
| ref_nil : ref true nilNode (VBytes [])
| ref_value v : ref true (valueNode v) (VBytes v)
| ref_inner n g : ref false n g → ref true n (shrink g)
| ref_short k c fl ck r :
    hexToCompact k = Ret ck → ref true c r → ref false (shortNode k c fl) (VList [VBytes ck; r])
| ref_full cs fl rs :
    length cs = length rs → (∀ i c r, cs !! i = Some c → rs !! i = Some r → ref true c r) →
    ref false (fullNode cs fl) (VList rs)
| ref_hash h m g :
    at_hash db h = Some m → ref false m g → 32 ≤ zlen (encoding g) → Keccak256 (encoding g) = h →
    ref true (hashNode h) (VBytes h).

(** The hash of a root: forced, however short the encoding. *)
Inductive top : node → bytes → Prop :=
| top_inner n g : ref false n g → top n (Keccak256 (encoding g))
| top_hash h m g : at_hash db h = Some m → ref false m g → Keccak256 (encoding g) = h → top (hashNode h) h.

Lemma ref_false_list n g : ref false n g → ∃ l, g = VList l.
Proof. inversion 1; subst; eauto. Qed.
Lemma ref_false_inner n g : ref false n g → inner n = true.
Proof. by inversion 1. Qed.

Lemma shrink_bytes n g h : ref false n g → shrink g = VBytes h → 32 ≤ zlen (encoding g) ∧ Keccak256 (encoding g) = h.
Proof.
  intros (l & ->)%ref_false_list. unfold shrink. destruct (Z.ltb_spec (zlen (encoding (VList l))) 32); [done|].
  intros [= <-]. done.
Qed.
Lemma shrink_big g h : 32 ≤ zlen (encoding g) → Keccak256 (encoding g) = h → shrink g = VBytes h.
Proof. intros H <-. unfold shrink. by destruct (Z.ltb_spec (zlen (encoding g)) 32); [lia|]. Qed.

(** A node of the database stands for its hash. *)
Lemma ref_resolve h m r : at_hash db h = Some m → ref true (hashNode h) r → ref true m r.
Proof.
  intros E H. inversion H as [| |? ? H'| | |? m' g E' Hm Hz Hk]; subst; [by inversion H'|].
  rewrite E in E'. injection E' as ->. rewrite <- (shrink_big _ _ Hz eq_refl). by constructor.
Qed.

(** ** Right caches *)

(** A cached hash is that of the node: of its reference for a child, of the
    forced hash for a root. *)
Definition flag_ok (strict : bool) (n : node) (fl : nodeFlag) : Prop :=
  ∀ h, nf_hash fl = Some h → if strict then ref true n (VBytes h) else top n h.

Inductive hashes_ok : bool → node → Prop :=
| ho_nil s : hashes_ok s nilNode
| ho_value s v : hashes_ok s (valueNode v)
| ho_short s k c fl :
    hashes_ok true c → flag_ok s (shortNode k c fl) fl → hashes_ok s (shortNode k c fl)
| ho_full s cs fl :
    (∀ i c, cs !! i = Some c → hashes_ok true c) → flag_ok s (fullNode cs fl) fl → hashes_ok s (fullNode cs fl)
| ho_hash (s : bool) h :
    (if s then ref true (hashNode h) (VBytes h) else top (hashNode h) h) →
    (∀ m, at_hash db h = Some m → hashes_ok s m) → hashes_ok s (hashNode h).

Lemma ref_true_inner n r : inner n = true → ref true n r → ∃ g, ref false n g ∧ r = shrink g.
Proof. intros Hi H. inversion H; subst; try done. eauto. Qed.

Lemma top_of_ref n h : inner n = true → ref true n (VBytes h) → top n h.
Proof.
  intros Hi (g & H & E)%ref_true_inner; [|done]. symmetry in E.
  destruct (shrink_bytes _ _ _ H E) as [_ <-]. by constructor.
Qed.

Lemma new_flag_ok s n : flag_ok s n newFlag.
Proof. by intros h. Qed.

(** *** Replacing a child by one with the same reference *)

Definition keeps (n n' : node) : Prop := (∀ r, ref true n r → ref true n' r) ∧ (∀ h, top n h → top n' h).

Lemma keeps_refl n : keeps n n.
Proof. by split. Qed.

Lemma keeps_body n n' : inner n = true → (∀ g, ref false n g → ref false n' g) → keeps n n'.
Proof.
  intros Hi H. split.
  - intros r Hr. inversion Hr; subst; try done. constructor. by apply H.
  - intros h Hh. inversion Hh; subst; [|done]. constructor. by apply H.
Qed.

Lemma keeps_short k c c' fl fl' : keeps c c' → keeps (shortNode k c fl) (shortNode k c' fl').
Proof. intros [H _]. apply keeps_body; [done|]. intros g Hg. inversion Hg; subst. constructor; [done|]. by apply H. Qed.

Lemma keeps_full cs fl fl' i c c' :
  cs !! Z.to_nat i = Some c → keeps c c' → keeps (fullNode cs fl) (fullNode (set_child i c' cs) fl').
Proof.
  intros E [H _]. apply keeps_body; [done|]. intros g Hg. inversion Hg as [| | | |? ? rs Hl Hc|]; subst.
  constructor; [by rewrite length_set_child|]. intros j d r Ed Er. destruct (decide (j = Z.to_nat i)) as [->|Hne].
  - rewrite set_child_eq in Ed by by eapply lookup_lt_Some. injection Ed as <-. by eapply H, Hc.
  - rewrite set_child_ne in Ed by done. by eapply Hc.
Qed.

Lemma keeps_hash h m : at_hash db h = Some m → keeps (hashNode h) m.
Proof.
  intros E. split; [intros r; by apply ref_resolve|]. intros h' Hh. inversion Hh as [? ? H|? m' g E' Hm]; subst; [by inversion H|].
  rewrite E in E'. injection E' as <-. by constructor.
Qed.
Lemma keeps_trans n1 n2 n3 : keeps n1 n2 → keeps n2 n3 → keeps n1 n3.
Proof. intros [A1 B1] [A2 B2]. split; auto. Qed.

(** A flag stays right on the node with the replaced child. *)
Lemma flag_keeps s n n' fl : keeps n n' → flag_ok s n fl → flag_ok s n' fl.
Proof. intros [H1 H2] H h Hh. specialize (H h Hh). destruct s; auto. Qed.

Lemma hashes_child s cs fl i c : hashes_ok s (fullNode cs fl) → cs !! i = Some c → hashes_ok true c.
Proof. inversion 1; subst; eauto. Qed.
Lemma hashes_set_child cs i c' :
  (∀ j c, cs !! j = Some c → hashes_ok true c) → hashes_ok true c' →
  ∀ j c, set_child i c' cs !! j = Some c → hashes_ok true c.
Proof.
  intros H H' j c E. destruct (decide (j = Z.to_nat i)) as [->|Hne].
  - apply lookup_lt_Some in E as Hl. rewrite length_set_child in Hl. rewrite set_child_eq in E by done. by injection E as <-.
  - rewrite set_child_ne in E by done. by eapply H.
Qed.

Lemma child_inv cs i c : child cs i = TOk c → cs !! Z.to_nat i = Some c.
Proof. unfold child. by destruct (cs !! Z.to_nat i) eqn:E; [intros [= <-]|]. Qed.
Lemma resolveHash_inv h pre m : resolveHash db h pre = TOk m → at_hash db h = Some m.
Proof. unfold resolveHash, at_hash. by destruct (db _) eqn:E; [intros [= <-]|]. Qed.
Lemma tr_bind_ok {A C : Type} (x : tres A) (f : A → tres C) c : tr_bind x f = TOk c → ∃ a, x = TOk a ∧ f a = TOk c.
Proof. destruct x; try done. eauto. Qed.

(** *** Reading keeps the caches right *)

Lemma tryGet_hashes fuel : ∀ s n key pos v n' d,
  hashes_ok s n → tryGet db fuel n key pos = TOk (v, n', d) → hashes_ok s n' ∧ keeps n n'.
Proof.
  induction fuel as [|fuel IH]; intros s n key pos v n' d Hn H; [done|].
  destruct n as [|w|k c fl|cs fl|h]; cbn [tryGet] in H.
  - injection H as <- <- <-. split; [done|apply keeps_refl].
  - injection H as <- <- <-. split; [done|apply keeps_refl].
  - destruct (_ || _) in H; [injection H as <- <- <-; split; [done|apply keeps_refl]|].
    apply tr_bind_ok in H as ([[v0 n0] d0] & E & H). injection H as <- <- <-. inversion Hn; subst.
    eapply IH in E as [Hn0 Hk]; [|done]. destruct d0; [|split; [done|apply keeps_refl]].
    pose proof (keeps_short k c n0 fl fl Hk) as Hk'. split; [|done]. constructor; [done|]. by eapply flag_keeps.
  - destruct (key !! pos) as [i|]; [|done]. apply tr_bind_ok in H as (c & Ec%child_inv & H).
    apply tr_bind_ok in H as ([[v0 n0] d0] & E & H). injection H as <- <- <-. inversion Hn; subst.
    eapply IH in E as [Hn0 Hk]; [|by eapply hashes_child]. destruct d0; [|split; [done|apply keeps_refl]].
    pose proof (keeps_full cs fl fl i c n0 Ec Hk) as Hk'. split; [|done]. constructor; [|by eapply flag_keeps].
    by apply hashes_set_child.
  - apply tr_bind_ok in H as (c & Ec%resolveHash_inv & H). apply tr_bind_ok in H as ([[v0 n0] d0] & E & H).
    injection H as <- <- <-. inversion Hn; subst. eapply IH in E as [Hn0 Hk]; [|eauto]. split; [done|].
    eapply keeps_trans; [by apply keeps_hash|done].
Qed.

(** *** Writing keeps the caches right *)

Lemma hashes_weaken n : hashes_ok true n → hashes_ok false n.
Proof.
  remember true as s eqn:Es. induction 1 as [| |s k c fl Hc IH Hf|s cs fl Hc IH Hf|s h Hr Hm IH]; subst s; constructor; try done.
  - intros h Hh. apply top_of_ref; [done|]. by apply Hf.
  - intros h Hh. apply top_of_ref; [done|]. by apply Hf.
  - inversion Hr as [| |? ? H| | |? m g E Hg Hz Hk]; subst; [by inversion H|]. by eapply top_hash.
  - intros m E. by apply IH.
Qed.

Lemma hashes_any s n : hashes_ok true n → hashes_ok s n.
Proof. destruct s; [done|apply hashes_weaken]. Qed.

Lemma hashes_new_short s k c : hashes_ok true c → hashes_ok s (shortNode k c newFlag).
Proof. intros H. constructor; [done|apply new_flag_ok]. Qed.
Lemma hashes_new_full s cs i c :
  (∀ j c, cs !! j = Some c → hashes_ok true c) → hashes_ok true c → hashes_ok s (fullNode (set_child i c cs) newFlag).
Proof. intros H Hc. constructor; [|apply new_flag_ok]. by apply hashes_set_child. Qed.

Lemma insert_hashes fuel : ∀ s n pre k v d n',
  hashes_ok s n → hashes_ok true v → insert db fuel n pre k v = TOk (d, n') → hashes_ok s n'.
Proof.
  induction fuel as [|fuel IH]; intros s n pre k v d n' Hn Hv H; [done|]. cbn [insert] in H.
  destruct k as [|k0 krest]; [apply hashes_any; destruct n, v; try done; by injection H as <- <-|].
  destruct n as [|w|kn c fl|cs fl|h]; try done.
  - injection H as <- <-. by apply hashes_new_short.
  - inversion Hn; subst. destruct (_ =? _)%nat in H.
    + apply tr_bind_ok in H as ([d0 n0] & E & H). eapply IH in E; [|done..]. destruct d0; injection H as <- <-; [|done].
      by apply hashes_new_short.
    + destruct (kn !! _) as [b1|]; [|done]. destruct ((k0 :: krest) !! _) as [b2|]; [|done].
      apply tr_bind_ok in H as ([d1 c1] & E1 & H). apply tr_bind_ok in H as ([d2 c2] & E2 & H).
      eapply (IH true) in E1; [|constructor|done]. eapply (IH true) in E2; [|constructor|done].
      assert (∀ s, hashes_ok s (fullNode (set_child b2 c2 (set_child b1 c1 (replicate 17 nilNode))) newFlag)) as Hb.
      { intros s'. apply hashes_new_full; [|done]. apply hashes_set_child; [|done].
        intros j c' [-> _]%lookup_replicate. constructor. }
      destruct (_ || _) in H; [done|]. destruct (_ =? _)%nat in H; injection H as <- <-; [apply Hb|].
      apply hashes_new_short, Hb.
  - apply tr_bind_ok in H as (c & Ec%child_inv & H). apply tr_bind_ok in H as ([d0 n0] & E & H). inversion Hn; subst.
    eapply IH in E; [|by eapply hashes_child|done]. destruct d0; injection H as <- <-; [|done]. by apply hashes_new_full.
  - apply tr_bind_ok in H as (c & Ec%resolveHash_inv & H). apply tr_bind_ok in H as ([d0 n0] & E & H). inversion Hn; subst.
    eapply IH in E; [|by eauto|done]. destruct d0; injection H as <- <-; [done|]. eauto.
Qed.

(** A resolved child keeps right caches. *)
Lemma resolve_hashes n pre m : hashes_ok true n → resolve db n pre = TOk m → hashes_ok true m.
Proof.
  intros Hn H. destruct n; cbn in H; try by injection H as <-. apply resolveHash_inv in H. inversion Hn; subst. eauto.
Qed.
Lemma short_hashes s k c fl : hashes_ok s (shortNode k c fl) → hashes_ok true c.
Proof. by inversion 1. Qed.

Lemma delete_hashes fuel : ∀ s n pre k d n',
  hashes_ok s n → delete_ db fuel n pre k = TOk (d, n') → hashes_ok s n'.
Proof.
  induction fuel as [|fuel IH]; intros s n pre k d n' Hn H; [done|]. cbn [delete_] in H.
  destruct n as [|w|kn c fl|cs fl|h].
  - by injection H as <- <-.
  - injection H as <- <-. constructor.
  - inversion Hn; subst. destruct (_ <? _)%nat in H; [by injection H as <- <-|].
    destruct (_ =? _)%nat in H; [injection H as <- <-; constructor|]. apply tr_bind_ok in H as ([d0 n0] & E & H).
    eapply IH in E; [|done]. destruct d0; [|by injection H as <- <-].
    destruct n0; injection H as <- <-; apply hashes_new_short; try done. by eapply short_hashes.
  - destruct k as [|k0 krest]; [done|]. apply tr_bind_ok in H as (c & Ec%child_inv & H).
    apply tr_bind_ok in H as ([d0 n0] & E & H). inversion Hn; subst. eapply IH in E; [|by eapply hashes_child].
    destruct d0; [|by injection H as <- <-]. cbn [negb] in H.
    assert (∀ j c, set_child k0 n0 cs !! j = Some c → hashes_ok true c) as Hcs by by apply hashes_set_child.
    assert (hashes_ok s (fullNode (set_child k0 n0 cs) newFlag)) as Hfull by by apply hashes_new_full.
    destruct (is_nil n0); cbn [negb] in H; [|by injection H as <- <-].
    destruct (0 <=? _); [|by injection H as <- <-]. apply tr_bind_ok in H as (c' & Ec'%child_inv & H).
    assert (hashes_ok s (shortNode [single_child 0 (-1) (set_child k0 n0 cs)] c' newFlag)) as Hone
      by (apply hashes_new_short; by eapply Hcs).
    destruct (_ =? 16); cbn [negb] in H; [by injection H as <- <-|]. apply tr_bind_ok in H as (m & Em & H).
    eapply resolve_hashes in Em; [|by eapply Hcs]. destruct m; injection H as <- <-; try exact Hone.
    apply hashes_new_short. by eapply short_hashes.
  - apply tr_bind_ok in H as (c & Ec%resolveHash_inv & H). apply tr_bind_ok in H as ([d0 n0] & E & H). inversion Hn; subst.
    eapply IH in E; [|by eauto]. destruct d0; injection H as <- <-; [done|]. eauto.
Qed.

(** ** What hashing gives *)

(** The same node up to flags. *)
Inductive reflag : node → node → Prop :=
| rf_refl n : reflag n n
| rf_short k c c' fl fl' : reflag c c' → reflag (shortNode k c fl) (shortNode k c' fl')
| rf_full cs cs' fl fl' :
    length cs = length cs' → (∀ i c c', cs !! i = Some c → cs' !! i = Some c' → reflag c c') →
    reflag (fullNode cs fl) (fullNode cs' fl').

(** The node [n] was hashed to [x] and is [n'] from now on. *)
Definition hashed_to (force : bool) (n x n' : node) : Prop :=
  (if force then ∃ h, x = hashNode h ∧ top n h else ref true n (node_val x) ∧ x ≠ nilNode) ∧
  hashes_ok (negb force) n' ∧ keeps n n' ∧ reflag n n'.

Definition with_flag (fl : nodeFlag) (n : node) : node :=
  match n with
  | shortNode k c _ => shortNode k c fl
  | fullNode cs _ => fullNode cs fl
  | n => n
  end.

(** The node with hashed children. *)
Definition kids_done (n collapsed cached : node) : Prop :=
  inner collapsed = true ∧ inner cached = true ∧ ref false n (node_val collapsed) ∧
  (∀ fl, keeps n (with_flag fl cached) ∧ reflag n (with_flag fl cached)) ∧
  (∀ s fl, flag_ok s (with_flag fl cached) fl → hashes_ok s (with_flag fl cached)).

Lemma set_hash_flag hashed cached :
  inner cached = true →
  ∃ fl, set_hash hashed cached = with_flag fl cached ∧ ∀ h, nf_hash fl = Some h → hashed = hashNode h.
Proof.
  intros Hi. destruct cached; try done; (eexists; split; [done|]); cbn; intros h; destruct hashed; try done; by intros [= ->].
Qed.

Lemma finish_spec force n collapsed cached :
  kids_done n collapsed cached →
  ∃ x n', finish Keccak256 force (collapsed, cached) = Ret (x, n') ∧ hashed_to force n x n'.
Proof.
  intros (Hic & Hia & Hr & Hk & Hf). unfold finish, toHash. rewrite (encoding_ok _ (node_val_nonneg collapsed)). cbn [obind].
  set (g := node_val collapsed) in *. assert (top n (Keccak256 (encoding g))) as Ht by by constructor.
  assert (ref true n (shrink g)) as Hs by by constructor. unfold shrink in Hs.
  assert (∀ hashed, (∀ h, hashed = hashNode h → if negb force then ref true n (VBytes h) else top n h) →
    hashes_ok (negb force) (set_hash hashed cached) ∧ keeps n (set_hash hashed cached) ∧ reflag n (set_hash hashed cached)) as Hset.
  { intros hashed Hh. destruct (set_hash_flag hashed cached Hia) as (fl & -> & Hfl). split; [|apply Hk].
    apply Hf. eapply flag_keeps; [apply Hk|]. intros h E. by apply Hh, Hfl. }
  eexists _, _. split; [done|]. destruct force; cbn [negb andb] in *.
  - rewrite andb_false_r. split; [by eexists|]. apply Hset. by intros h [= <-].
  - rewrite andb_true_r. destruct (Z.ltb_spec (zlen (encoding g)) 32).
    + split; [split; [done|by intros ->]|]. apply Hset. by intros h ->.
    + split; [done|]. apply Hset. by intros h [= <-].
Qed.

(** *** The children *)

Definition child_val (c : node) : gval := match c with nilNode => VBytes [] | _ => node_val c end.

Definition child_hashed (c x c' : node) : Prop :=
  ref true c (child_val x) ∧ hashes_ok true c' ∧ keeps c c' ∧ reflag c c'.

Lemma child_done c x c' : hashed_to false c x c' → child_hashed c x c'.
Proof. intros [[Hr Hx] H]. split; [|done]. by destruct x. Qed.
Lemma child_slot c : value_slot c → child_hashed c c c.
Proof.
  intros [->|(v & -> & _)]; (split; [constructor|]); (split; [constructor|]); (split; [apply keeps_refl|constructor]).
Qed.

Lemma hash_children_spec (h : node → bool → outcome (node * node)) cs : ∀ i,
  (∀ j c, cs !! j = Some c → (i + j < 16)%nat → c ≠ nilNode → ∃ x c', h c false = Ret (x, c') ∧ hashed_to false c x c') →
  (∀ j c, cs !! j = Some c → (16 ≤ i + j)%nat → value_slot c) →
  ∃ xs, hash_children h i cs = Ret xs ∧ Forall2 (λ c x, child_hashed c x.1 x.2) cs xs.
Proof.
  induction cs as [|c cs IH]; intros i H1 H2; [exists []; split; [done|constructor]|]. cbn [hash_children].
  destruct (IH (S i)) as (xs & E & Hxs).
  { intros j d Ej Hj. apply (H1 (S j) d Ej). lia. }
  { intros j d Ej Hj. apply (H2 (S j) d Ej). lia. }
  assert (∃ x, (if (i <? 16)%nat then match c with nilNode => Ret (nilValueNode, nilNode) | _ => h c false end
    else Ret (c, c)) = Ret x ∧ child_hashed c x.1 x.2) as (x & -> & Hx).
  { destruct (Nat.ltb_spec i 16).
    - destruct (decide (c = nilNode)) as [->|Hne].
      + eexists. split; [done|]. split; [constructor|]. split; [constructor|]. split; [apply keeps_refl|constructor].
      + destruct (H1 0%nat c eq_refl) as (x & c' & Ex & Hx); [lia|done|]. exists (x, c'). split; [by destruct c|].
        by apply child_done.
    - eexists. split; [done|]. apply child_slot. eapply (H2 0%nat); [done|lia]. }
  cbn [obind]. rewrite E. exists (x :: xs). split; [done|by constructor].
Qed.

Lemma kids_done_full h cs fl :
  length cs = 17%nat →
  (∀ j c, cs !! j = Some c → (j < 16)%nat → c ≠ nilNode → ∃ x c', h c false = Ret (x, c') ∧ hashed_to false c x c') →
  (∀ c, cs !! 16%nat = Some c → value_slot c) →
  ∃ x, hashFullNodeChildren h cs fl = Ret x ∧ kids_done (fullNode cs fl) x.1 x.2.
Proof.
  intros Hl H1 H2. destruct (hash_children_spec h cs 0) as (xs & E & Hxs); [done| |].
  { intros j c Ec Hj. apply lookup_lt_Some in Ec as Hlt. assert (j = 16%nat) as -> by lia. by apply H2. }
  unfold hashFullNodeChildren. rewrite E. cbn [obind]. eexists. split; [done|]. cbn [fst snd].
  assert (length cs = length xs) as Hlx by by eapply Forall2_length.
  assert (∀ i c x, cs !! i = Some c → map snd xs !! i = Some x → hashes_ok true x ∧ keeps c x ∧ reflag c x) as Hsnd.
  { intros i c x Ec Ex. rewrite list_lookup_fmap in Ex. destruct (xs !! i) as [[y z]|] eqn:Exs; [|done]. injection Ex as <-.
    by destruct (Forall2_lookup_lr _ _ _ _ _ _ Hxs Ec Exs) as [_ ?]. }
  split_and!; [done|done| | |].
  - cbn [node_val]. constructor; [by rewrite !length_map|]. intros i c r Ec Er. rewrite !list_lookup_fmap in Er.
    destruct (xs !! i) as [[y z]|] eqn:Exs; [|done]. injection Er as <-.
    by destruct (Forall2_lookup_lr _ _ _ _ _ _ Hxs Ec Exs) as [? _].
  - intros fl'. cbn [with_flag]. split.
    + apply keeps_body; [done|]. intros g Hg. inversion Hg as [| | | |? ? rs Hlr Hc|]; subst.
      constructor; [rewrite length_map; congruence|]. intros i c r Ec Er.
      destruct (lookup_lt_is_Some_2 cs i) as [c0 Ec0]; [rewrite Hlr; by eapply lookup_lt_Some|].
      destruct (Hsnd i c0 c Ec0 Ec) as (_ & [Hk _] & _). by eapply Hk, Hc.
    + constructor; [by rewrite length_map|]. intros i c c' Ec Ec'. by destruct (Hsnd i c c' Ec Ec') as (_ & _ & ?).
  - intros s' fl' Hfl. constructor; [|done]. intros i c Ec.
    destruct (lookup_lt_is_Some_2 cs i) as [c0 Ec0]; [rewrite Hlx, <- (length_map snd); by eapply lookup_lt_Some|].
    by destruct (Hsnd i c0 c Ec0 Ec) as (? & _).
Qed.

(** A terminated key and a key of nibbles have a compact form. *)
Lemma hexToCompact_ok k : term k ∨ nibbles k → ∃ ck, hexToCompact k = Ret ck.
Proof.
  assert (∀ (t : bool) q, nibbles q → ∃ ck, hexToCompact (if t then q ++ [16] else q) = Ret ck) as H.
  { intros t q Hq. destruct (compactToHex_of t q Hq) as (c & E & _). exists c. by rewrite hexToCompact_of. }
  intros [(q & -> & Hq)|Hk]; [apply (H true q Hq)|apply (H false k Hk)].
Qed.

Lemma kids_done_short h k c fl :
  term k ∨ nibbles k →
  (∃ x c', match c with fullNode _ _ | shortNode _ _ _ => h c false | _ => Ret (c, c) end = Ret (x, c') ∧
     hashed_to false c x c') →
  ∃ x, hashShortNodeChildren h k c fl = Ret x ∧ kids_done (shortNode k c fl) x.1 x.2.
Proof.
  intros Hk (x & c' & E & Hx). destruct (hexToCompact_ok k Hk) as [ck Eck]. unfold hashShortNodeChildren.
  rewrite Eck. cbn [obind]. rewrite E. cbn [obind]. eexists. split; [done|]. cbn [fst snd].
  destruct Hx as [[Hr Hne] (Hh & Hkp & Hrf)]. split_and!; [done|done| | |].
  - cbn [node_val]. by constructor.
  - intros fl'. split; [by apply keeps_short|by constructor].
  - intros s' fl' Hfl. by constructor.
Qed.

(** *** The whole node *)

Lemma hash_cached force n h fl :
  (n = nilNode → False) → hashes_ok (negb force) n → cache n = Ret (Some h, fl) → hashed_to force n (hashNode h) n.
Proof.
  intros Hne Hn E. split; [|split; [done|split; [apply keeps_refl|constructor]]].
  destruct n as [| |k c [fh fd]|cs [fh fd]|]; try done; inversion Hn as [| |? ? ? ? Hc Hf|? ? ? Hc Hf|]; subst; injection E as -> ->;
    specialize (Hf h eq_refl); destruct force; cbn [negb] in Hf; eauto.
Qed.

Lemma hash_here force h : hashes_ok (negb force) (hashNode h) → hashed_to force (hashNode h) (hashNode h) (hashNode h).
Proof.
  intros Hn. split; [|split; [done|split; [apply keeps_refl|constructor]]]. inversion Hn; subst. destruct force; cbn [negb] in *; eauto.
Qed.

Lemma hash_spec n : ∀ force, wf db True n → hashes_ok (negb force) n →
  ∃ x n', hash Keccak256 n force = Ret (x, n') ∧ hashed_to force n x n'.
Proof.
  induction n as [|v|k c fl IH|cs fl IH|h] using node_ind'; intros force Hw Hn; try by inversion Hw.
  - destruct (nf_hash fl) as [h|] eqn:Eh.
    { eexists _, _. cbn [hash cache obind]. rewrite Eh. split; [done|]. eapply hash_cached; [done..|]. cbn. by rewrite Eh. }
    destruct (kids_done_short (hash Keccak256) k c fl) as ([x n'] & E & Hd).
    + inversion Hw; auto.
    + inversion Hn as [| |? ? ? ? Hc _| |]; subst. inversion Hw as [| ? ? ? _ _ Hb Hwc| |]; subst.
      * eexists _, _. split; [done|]. split; [split; [constructor|done]|]. split; [done|]. split; [apply keeps_refl|constructor].
      * destruct c as [| | | |h]; try done; [by apply IH|]. eexists _, _. split; [done|]. by apply hash_here.
    + destruct (finish_spec force _ _ _ Hd) as (y & n'' & F & Hy). exists y, n''. split; [|done].
      cbn [hash cache obind]. rewrite Eh. change (obind (hashShortNodeChildren (hash Keccak256) k c fl) (finish Keccak256 force) = Ret (y, n'')).
      by rewrite E.
  - destruct (nf_hash fl) as [h|] eqn:Eh.
    { eexists _, _. cbn [hash cache obind]. rewrite Eh. split; [done|]. eapply hash_cached; [done..|]. cbn. by rewrite Eh. }
    inversion Hw as [| |? ? Hl Hc Hv _|]; subst. inversion Hn as [| | |? ? ? Hcn _|]; subst.
    destruct (kids_done_full (hash Keccak256) cs fl) as ([x n'] & E & Hd); [done| |done|].
    { intros j c Ec Hj Hne. eapply IH; [done|by eapply Hc|by eapply Hcn]. }
    destruct (finish_spec force _ _ _ Hd) as (y & n'' & F & Hy). exists y, n''. split; [|done].
    cbn [hash cache obind]. rewrite Eh. change (obind (hashFullNodeChildren (hash Keccak256) cs fl) (finish Keccak256 force) = Ret (y, n'')).
    by rewrite E.
  - eexists _, _. split; [done|]. by apply hash_here.
Qed.

End Reference.

(** ** Hashing leaves the content *)

Lemma reflag_sym n n' : reflag n n' → reflag n' n.
Proof. induction 1; constructor; eauto. Qed.
Lemma reflag_nil n n' : reflag n n' → n = nilNode ↔ n' = nilNode.
Proof. by inversion 1. Qed.
Lemma reflag_value v n' : reflag (valueNode v) n' → n' = valueNode v.
Proof. by inversion 1. Qed.
Lemma reflag_hash h n' : reflag (hashNode h) n' → n' = hashNode h.
Proof. by inversion 1. Qed.

Lemma reflag_sees db n p v : sees db n p v → ∀ n', reflag n n' → sees db n' p v.
Proof.
  induction 1 as [v|k c fl p v Hs IH|cs fl i c p v Hi Ec Hs IH|h m p v E Hs IH]; intros n' Hr.
  - apply reflag_value in Hr as ->. constructor.
  - inversion Hr; subst; constructor; [done|auto].
  - inversion Hr as [| |? cs' ? ? Hl Hc]; subst; [by econstructor|].
    destruct (lookup_lt_is_Some_2 cs' (Z.to_nat i)) as [c' Ec']; [rewrite <- Hl; by eapply lookup_lt_Some|].
    econstructor; [done..|]. by eapply IH, Hc.
  - apply reflag_hash in Hr as ->. by econstructor.
Qed.
Lemma reflag_same db n n' : reflag n n' → same db n n'.
Proof. intros H p v. split; intros Hs; eapply reflag_sees; eauto using reflag_sym. Qed.

Lemma reflag_branchy db n n' : reflag n n' → branchy db n → branchy db n'.
Proof. by inversion 1. Qed.

Lemma reflag_wf db complete n : wf db complete n → ∀ n', reflag n n' → wf db complete n'.
Proof.
  induction 1 as [k v fl Hk Hv|k c fl Hk Hk0 Hb Hw IH|cs fl Hl Hc IH Hv H2|h Hin Hw IH Hcm]; intros n' Hr.
  - inversion Hr as [|? ? c' ? ? Hc|]; subst; [by constructor|]. apply reflag_value in Hc as ->. by constructor.
  - inversion Hr as [|? ? c' ? ? Hc|]; subst; [by constructor|]. constructor; eauto using reflag_branchy.
  - inversion Hr as [| |? cs' ? ? Hl' Hc']; subst; [by constructor|].
    assert (∀ i c', cs' !! i = Some c' → ∃ c, cs !! i = Some c ∧ reflag c c') as Hback.
    { intros i c' Ec'. destruct (lookup_lt_is_Some_2 cs i) as [c Ec]; [rewrite Hl'; by eapply lookup_lt_Some|]. eauto. }
    constructor; [congruence| | |].
    + intros i c' Hi Ec' Hne. destruct (Hback i c' Ec') as (c & Ec & Hcc). eapply IH; [done..| |done].
      intros ->. by apply Hne, (reflag_nil _ _ Hcc).
    + intros c' Ec'. destruct (Hback _ c' Ec') as (c & Ec & Hcc). destruct (Hv c Ec) as [->|(v & -> & Hvn)].
      * left. by apply (reflag_nil _ _ Hcc).
      * right. exists v. split; [by apply reflag_value|done].
    + destruct H2 as (i & j & c & d & Hne & Ei & Ej & Hcn & Hdn).
      destruct (lookup_lt_is_Some_2 cs' i) as [c' Ei']; [rewrite <- Hl'; by eapply lookup_lt_Some|].
      destruct (lookup_lt_is_Some_2 cs' j) as [d' Ej']; [rewrite <- Hl'; by eapply lookup_lt_Some|].
      exists i, j, c', d'. split_and!; [done..| |]; intros E; [apply Hcn|apply Hdn]; by eapply reflag_nil; [eapply Hc'|].
  - apply reflag_hash in Hr as ->. by constructor.
Qed.

(** ** The root hash is a function of the tree *)

Section Function.
Context (Keccak256 : bytes → bytes) (db1 db2 : nodes_db).

Lemma alike_ref n1 n2 : alike db1 db2 n1 n2 → ∀ b g1 g2,
  ref Keccak256 db1 b n1 g1 → ref Keccak256 db2 b n2 g2 → g1 = g2.
Proof.
  assert (∀ n1 n2, inner n1 = true → inner n2 = true →
    (∀ g1 g2, ref Keccak256 db1 false n1 g1 → ref Keccak256 db2 false n2 g2 → g1 = g2) →
    ∀ b g1 g2, ref Keccak256 db1 b n1 g1 → ref Keccak256 db2 b n2 g2 → g1 = g2) as Hin.
  { intros m1 m2 I1 I2 H b g1 g2 R1 R2. destruct b; [|by apply H].
    apply ref_true_inner in R1 as (h1 & R1 & ->); [|done]. apply ref_true_inner in R2 as (h2 & R2 & ->); [|done].
    by rewrite (H _ _ R1 R2). }
  induction 1 as [|v|k c1 c2 fl1 fl2 H IH|cs1 cs2 fl1 fl2 Hl Hc IH|h m n E H IH|h m n E H IH].
  - intros b g1 g2 R1 R2. inversion R1 as [| |? ? R| | |]; subst; [|by inversion R]. inversion R2 as [| |? ? R| | |]; subst; [|by inversion R]. done.
  - intros b g1 g2 R1 R2. inversion R1 as [| |? ? R| | |]; subst; [|by inversion R]. inversion R2 as [| |? ? R| | |]; subst; [|by inversion R]. done.
  - apply Hin; [done..|]. intros g1 g2 R1 R2. inversion R1 as [| | |? ? ? ck1 r1 K1 C1| |]; subst.
    inversion R2 as [| | |? ? ? ck2 r2 K2 C2| |]; subst. rewrite K1 in K2. injection K2 as <-. by rewrite (IH _ _ _ C1 C2).
  - apply Hin; [done..|]. intros g1 g2 R1 R2. inversion R1 as [| | | |? ? rs1 L1 C1|]; subst.
    inversion R2 as [| | | |? ? rs2 L2 C2|]; subst. f_equal. apply list_eq_same_length with (length cs1); [congruence..|].
    intros i x y _ Ex Ey.
    destruct (lookup_lt_is_Some_2 cs1 i) as [c Ec]; [rewrite L1; by eapply lookup_lt_Some|].
    destruct (lookup_lt_is_Some_2 cs2 i) as [d Ed]; [rewrite L2; by eapply lookup_lt_Some|].
    eapply (IH i c d Ec Ed true); eauto.
  - intros b g1 g2 R1 R2. destruct b; [|by inversion R1]. eapply IH; [|done]. by eapply ref_resolve.
  - intros b g1 g2 R1 R2. destruct b; [|by inversion R2]. eapply IH; [done|]. by eapply ref_resolve.
Qed.

Lemma alike_top n1 n2 : alike db1 db2 n1 n2 → ∀ h1 h2, top Keccak256 db1 n1 h1 → top Keccak256 db2 n2 h2 → h1 = h2.
Proof.
  intros Ha. assert (∀ m1 m2 g1 g2, alike db1 db2 m1 m2 → ref Keccak256 db1 false m1 g1 → ref Keccak256 db2 false m2 g2 →
    Keccak256 (encoding g1) = Keccak256 (encoding g2)) as H.
  { intros m1 m2 g1 g2 A R1 R2. by rewrite (alike_ref _ _ A _ _ _ R1 R2). }
  induction Ha as [|v|k c1 c2 fl1 fl2 Hc IH|cs1 cs2 fl1 fl2 Hl Hc IH|h m n E Ha IH|h m n E Ha IH]; intros h1 h2 T1 T2.
  - inversion T1 as [? ? R|]; subst. inversion R.
  - inversion T1 as [? ? R|]; subst. inversion R.
  - inversion T1; subst. inversion T2; subst. eapply H; [|done..]. by constructor.
  - inversion T1; subst. inversion T2; subst. eapply H; [|done..]. by constructor.
  - eapply IH; [|done]. by apply (keeps_hash Keccak256 db1 h m E).
  - eapply IH; [done|]. by apply (keeps_hash Keccak256 db2 h m E).
Qed.
End Function.

(** ** The trie *)

(** The cached hashes of a trie are right. *)
Definition trie_hashes (Keccak256 : bytes → bytes) (db : nodes_db) (t : Trie) : Prop :=
  hashes_ok Keccak256 db false (tr_root t).

(** The hash that a trie has: [emptyRoot], or the forced hash of its root. *)
Definition has_hash (Keccak256 : bytes → bytes) (db : nodes_db) (t : Trie) (h : Z) : Prop :=
  (tr_root t = nilNode ∧ h = Bytes.BytesToHash (Bytes.Hash_Bytes emptyRoot)) ∨
  (∃ b, top Keccak256 db (tr_root t) b ∧ h = Bytes.BytesToHash b).

Section TrieHash.
Context (Keccak256 : bytes → bytes) (db : nodes_db).

Lemma TryGet_hashes key t : trie_hashes Keccak256 db t → trie_hashes Keccak256 db (TryGet db key t).2.
Proof.
  intros H. unfold TryGet. destruct (tryGet _ _ _ _ _) as [[[v n] d]|e| |] eqn:E; try done. cbn [snd].
  destruct d; [|done]. by eapply tryGet_hashes in E as [? _].
Qed.
Lemma set_root_hashes r t :
  trie_hashes Keccak256 db t → (∀ d n, r = TOk (d, n) → hashes_ok Keccak256 db false n) →
  trie_hashes Keccak256 db (set_root r t).2.
Proof. intros H Hr. destruct r as [[d n]|e| |]; try done. by eapply Hr. Qed.
Lemma TryUpdate_hashes key value t :
  trie_hashes Keccak256 db t → trie_hashes Keccak256 db (TryUpdate db key value t).2.
Proof.
  intros H. apply set_root_hashes; [done|]. intros d n E. destruct (negb _) in E.
  - eapply insert_hashes; [exact H|constructor|exact E].
  - eapply delete_hashes; [exact H|exact E].
Qed.
Lemma TryDelete_hashes key t : trie_hashes Keccak256 db t → trie_hashes Keccak256 db (TryDelete db key t).2.
Proof. intros H. apply set_root_hashes; [done|]. intros d n E. eapply delete_hashes; [exact H|exact E]. Qed.

Lemma Hash_spec t m :
  represents db True t m → trie_hashes Keccak256 db t →
  ∃ h t', Hash Keccak256 t = Ret (h, t') ∧ has_hash Keccak256 db t h ∧ represents db True t' m ∧ trie_hashes Keccak256 db t'.
Proof.
  intros Hr Hh. unfold Hash, hashRoot. destruct (decide (tr_root t = nilNode)) as [E|E].
  - rewrite E. cbn [obind]. eexists _, _. split; [done|]. split; [by left|].
    split; [|constructor]. eapply rep_same; [done|by left|]. by rewrite E.
  - destruct (rep_form _ _ _ _ Hr) as [?|Hw]; [done|].
    destruct (hash_spec Keccak256 db (tr_root t) true Hw Hh) as (x & n' & F & (h & -> & Ht) & Hn & _ & Hrf).
    assert (match tr_root t with
      | nilNode => Ret (hashNode (Bytes.Hash_Bytes emptyRoot), nilNode, t)
      | _ => obind (hash Keccak256 (tr_root t) true) (λ '(hashed, cached), Ret (hashed, cached, mkTrie (tr_root t) 0)) end
      = Ret (hashNode h, n', mkTrie (tr_root t) 0)) as -> by (rewrite F; by destruct (tr_root t)).
    cbn [obind]. eexists _, _. split; [done|]. split; [right; eauto|]. split; [|done].
    eapply rep_same; [done|right; by eapply reflag_wf|by apply reflag_same].
Qed.
End TrieHash.

Lemma has_hash_unique Keccak256 db1 db2 t1 t2 m h1 h2 :
  represents db1 True t1 m → represents db2 True t2 m →
  has_hash Keccak256 db1 t1 h1 → has_hash Keccak256 db2 t2 h2 → h1 = h2.
Proof.
  intros R1 R2 H1 H2. pose proof (represents_alike _ _ _ _ _ R1 R2) as Ha.
  assert (∀ db b, ¬ top Keccak256 db nilNode b) as Hnil by (intros db b T; inversion T as [? ? R|]; subst; inversion R).
  assert (tr_root t1 = nilNode ↔ tr_root t2 = nilNode) as Hiff.
  { destruct (rep_form _ _ _ _ R1) as [F1|F1], (rep_form _ _ _ _ R2) as [F2|F2]; [done| | |].
    - destruct (wf_sees _ _ F2) as (p & v & Hs). apply (rep_sees _ _ _ _ R2), (rep_sees _ _ _ _ R1) in Hs.
      rewrite F1 in Hs. by apply sees_nil in Hs.
    - destruct (wf_sees _ _ F1) as (p & v & Hs). apply (rep_sees _ _ _ _ R1), (rep_sees _ _ _ _ R2) in Hs.
      rewrite F2 in Hs. by apply sees_nil in Hs.
    - split; intros E; [rewrite E in F1; inversion F1|rewrite E in F2; inversion F2]. }
  destruct H1 as [[E1 ->]|(b1 & T1 & ->)], H2 as [[E2 ->]|(b2 & T2 & ->)]; [done| | |].
  - apply Hiff in E1. rewrite E1 in T2. by apply Hnil in T2.
  - apply Hiff in E2. rewrite E2 in T1. by apply Hnil in T1.
  - f_equal. by eapply alike_top.
Qed.

(** ** Histories *)

Inductive trie_op := OpGet (key : bytes) | OpUpdate (key value : bytes) | OpDelete (key : bytes) | OpHash.

Definition op_key (o : trie_op) : bytes :=
  match o with OpGet k | OpUpdate k _ | OpDelete k => k | OpHash => [] end.

(** The trie after an operation, and the map after it. *)
Definition trie_step (Keccak256 : bytes → bytes) (db : nodes_db) (t : Trie) (o : trie_op) : Trie :=
  match o with
  | OpGet k => (TryGet db k t).2
  | OpUpdate k v => (TryUpdate db k v t).2
  | OpDelete k => (TryDelete db k t).2
  | OpHash => match Hash Keccak256 t with Ret (_, t') => t' | Panic => t end
  end.
Definition map_step (m : gmap bytes bytes) (o : trie_op) : gmap bytes bytes :=
  match o with
  | OpGet _ | OpHash => m
  | OpUpdate k v => match v with [] => delete k m | _ => <[k := v]> m end
  | OpDelete k => delete k m
  end.

Lemma refines_complete {A : Type} db m (out : tres A * Trie) a m' :
  refines db True m out a m' → represents db True out.2 m'.
Proof. intros [[_ H]|(e & _ & [_ H] & _)]; [done|by destruct (H I)]. Qed.

Lemma trie_step_ok Keccak256 db t m o :
  represents db True t m → trie_hashes Keccak256 db t → wf_bytes (op_key o) →
  represents db True (trie_step Keccak256 db t o) (map_step m o) ∧ trie_hashes Keccak256 db (trie_step Keccak256 db t o).
Proof.
  intros Hr Hh Hk. destruct o as [k|k v|k|]; cbn [trie_step map_step op_key] in *.
  - split; [eapply refines_complete; by apply TryGet_refines|by apply TryGet_hashes].
  - split; [eapply refines_complete; by apply TryUpdate_refines|by apply TryUpdate_hashes].
  - split; [|by apply TryDelete_hashes]. eapply refines_complete. exact (delete_refines _ _ _ _ _ Hr Hk).
  - by destruct (Hash_spec Keccak256 db t m Hr Hh) as (h & t' & -> & _ & ? & ?).
Qed.

Lemma history_ok Keccak256 db ops : ∀ t m,
  represents db True t m → trie_hashes Keccak256 db t → Forall (λ o, wf_bytes (op_key o)) ops →
  represents db True (fold_left (trie_step Keccak256 db) ops t) (fold_left map_step ops m) ∧
  trie_hashes Keccak256 db (fold_left (trie_step Keccak256 db) ops t).
Proof.
  induction ops as [|o ops IH]; intros t m Hr Hh Hk; [done|]. apply Forall_cons in Hk as [Ho Hk]. cbn [fold_left].
  destruct (trie_step_ok Keccak256 db t m o Hr Hh Ho). by apply IH.
Qed.

(** C4: the root hash is a function of the content: two tries over complete
    databases with right caches, taken through any two sequences of reads,
    writes, deletions and hashings that end in the same map, have the same root
    hash; computing it does not panic and changes neither content nor the
    rightness of the cached hashes. *)
Theorem root_hash_of_content Keccak256 db1 db2 t1 t2 m1 m2 ops1 ops2 :
  represents db1 True t1 m1 → trie_hashes Keccak256 db1 t1 → Forall (λ o, wf_bytes (op_key o)) ops1 →
  represents db2 True t2 m2 → trie_hashes Keccak256 db2 t2 → Forall (λ o, wf_bytes (op_key o)) ops2 →
  fold_left map_step ops1 m1 = fold_left map_step ops2 m2 →
  ∃ h t1' t2',
    Hash Keccak256 (fold_left (trie_step Keccak256 db1) ops1 t1) = Ret (h, t1') ∧
    Hash Keccak256 (fold_left (trie_step Keccak256 db2) ops2 t2) = Ret (h, t2') ∧
    represents db1 True t1' (fold_left map_step ops1 m1) ∧ trie_hashes Keccak256 db1 t1'.
Proof.
  intros R1 H1 K1 R2 H2 K2 E. destruct (history_ok Keccak256 db1 ops1 t1 m1 R1 H1 K1) as [R1' H1'].
  destruct (history_ok Keccak256 db2 ops2 t2 m2 R2 H2 K2) as [R2' H2']. rewrite <- E in R2'.
  destruct (Hash_spec _ _ _ _ R1' H1') as (h & t1' & F1 & T1 & ? & ?).
  destruct (Hash_spec _ _ _ _ R2' H2') as (h2 & t2' & F2 & T2 & ? & ?).
  pose proof (has_hash_unique _ _ _ _ _ _ _ _ R1' R2' T1 T2) as <-. eauto 10.
Qed.

Definition no_nodes : nodes_db := λ _, None.

Lemma empty_represents : represents no_nodes True (mkTrie nilNode 0) ∅.
Proof.
  split; [by left|done|]. intros p v. split; [by intros ?%sees_nil|]. intros (key & _ & H). by rewrite lookup_empty in H.
Qed.
(** A stand-in for Keccak-256: the last bytes of the message, padded. *)
Definition toy_keccak (b : bytes) : bytes := take 32 (rev b ++ replicate 32 (zlen b)).

Lemma root_hash_of_content_witness :
  let ops1 := [OpUpdate [0x12; 0x34] [1]; OpUpdate [0x12; 0x56] [2]; OpHash; OpUpdate [0x12; 0x34] [3]; OpGet [7]] in
  let ops2 := [OpUpdate [0x77] [9]; OpUpdate [0x12; 0x56] [2]; OpUpdate [0x12; 0x34] [3]; OpHash; OpDelete [0x77]] in
  ∃ h t1' t2',
    Hash toy_keccak (fold_left (trie_step toy_keccak no_nodes) ops1 (mkTrie nilNode 0)) = Ret (h, t1') ∧
    Hash toy_keccak (fold_left (trie_step toy_keccak no_nodes) ops2 (mkTrie nilNode 0)) = Ret (h, t2') ∧
    represents no_nodes True t1' (fold_left map_step ops1 ∅) ∧ trie_hashes toy_keccak no_nodes t1'.
Proof.
  intros ops1 ops2. apply (root_hash_of_content toy_keccak no_nodes no_nodes (mkTrie nilNode 0) (mkTrie nilNode 0) ∅ ∅ ops1 ops2).
  - apply empty_represents.
  - constructor.
  - apply (bool_decide_unpack _). vm_compute. exact I.
  - apply empty_represents.
  - constructor.
  - apply (bool_decide_unpack _). vm_compute. exact I.
  - apply (bool_decide_unpack _). vm_compute. exact I.
Defined.
