(* ===== verification/TrieNode.v ===== *)
(** * Trie nodes at rest (trie/node.go, trie/database.go)

    The two forms of a node outside a live trie: the RLP blob of the disk, read
    by [decodeNode], and the raw node of the memory database, made by
    [simplifyNode] and read by [expandNode].  The last part shows that both give
    the same node. *)
From S2P Require Import Prelude Common RlpEncode TrieEncoding Trie TrieMap TrieSpec TrieHash.
Import Enc Raw.

(** ** Reading a blob *)

Inductive node_problem :=
| NRlp (e : rlp_error)
| NDecode (e : rlp_error)
| NElements (c : Z)
| NValue (e : rlp_error)
| NOversized (size : Z)
| NRefSize (size : Z).

(** The place of a problem: [wrapError] adds one on the way up. *)
Inductive node_place := AtShort | AtFull | AtVal | AtChild (i : nat).
Inductive node_error :=
| plain (what : node_problem)
| decodeError_ (what : node_problem) (stack : list node_place).

Definition wrapError {A} (r : result node_error A) (ctx : node_place) : result node_error A :=
  match r with
  | Ok a => Ok a
  | Err (plain what) => Err (decodeError_ what [ctx])
  | Err (decodeError_ what stack) => Err (decodeError_ what (stack ++ [ctx]))
  end.

Definition lift_rlp {A} (f : rlp_error → node_problem) (r : result rlp_error A) : result node_error A :=
  match r with Ok a => Ok a | Err e => Err (plain (f e)) end.

Section Decode.
(** The recursive call of [decodeRef]. *)
Context (decodeNode : option bytes → bytes → result node_error node).

Definition decodeRef (buf : bytes) : result node_error (node * bytes) :=
  try! (kind, val, rest) <- lift_rlp NRlp (Split buf);
  match kind with
  | List_ =>
      let size := zlen buf - zlen rest in
      if 32 <? size then Err (plain (NOversized size))
      else try! n <- decodeNode None buf; Ok (n, rest)
  | String_ =>
      if zlen val =? 0 then Ok (nilNode, rest)
      else if zlen val =? 32 then Ok (hashNode val, rest)
      else Err (plain (NRefSize (zlen val)))
  | Byte => Err (plain (NRefSize (zlen val)))
  end.

Definition decodeShort (hash : option bytes) (elems : bytes) : result node_error node :=
  try! (kbuf, rest) <- lift_rlp NRlp (SplitString elems);
  let flag := mkFlag hash false in
  let key := compactToHex kbuf in
  if hasTerm key then
    try! (val, _) <- lift_rlp NValue (SplitString rest);
    Ok (shortNode key (valueNode val) flag)
  else
    try! (r, _) <- wrapError (decodeRef rest) AtVal;
    Ok (shortNode key r flag).

(** The loop over the sixteen children. *)
Fixpoint decode_children (n i : nat) (elems : bytes) : result node_error (list node * bytes) :=
  match n with
  | O => Ok ([], elems)
  | S n =>
      try! (cld, rest) <- wrapError (decodeRef elems) (AtChild i);
      try! (cs, rest) <- decode_children n (S i) rest;
      Ok (cld :: cs, rest)
  end.

Definition decodeFull (hash : option bytes) (elems : bytes) : result node_error node :=
  try! (cs, elems) <- decode_children 16 0 elems;
  try! (val, _) <- lift_rlp NRlp (SplitString elems);
  Ok (fullNode (cs ++ [if 0 <? zlen val then valueNode val else nilNode]) (mkFlag hash false)).

End Decode.

(** A node inside a node is shorter, so the length of the blob bounds the
    recursion; an empty blob is an error anyway. *)
Fixpoint decodeNode_loop (fuel : nat) (hash : option bytes) (buf : bytes) : result node_error node :=
  match fuel, buf with
  | O, _ | _, [] => Err (plain (NRlp ErrUnexpectedEOF))
  | S fuel, _ =>
      try! (elems, _) <- lift_rlp NDecode (SplitList buf);
      let c := match CountValues elems with Ok c => c | Err _ => 0 end in
      if c =? 2 then wrapError (decodeShort (decodeNode_loop fuel) hash elems) AtShort
      else if c =? 17 then wrapError (decodeFull (decodeNode_loop fuel) hash elems) AtFull
      else Err (plain (NElements c))
  end.
Definition decodeNode (hash : option bytes) (buf : bytes) : result node_error node :=
  decodeNode_loop (length buf) hash buf.

Definition mustDecodeNode (hash : option bytes) (buf : bytes) : outcome node :=
  match decodeNode hash buf with Ok n => Ret n | Err _ => Panic end.

(** ** Raw nodes *)

(** [rawShortNode] and [rawFullNode] with the value and hash nodes they share
    with live tries. *)
Inductive raw :=
| rawNil
| rawValue (v : bytes)
| rawHash (h : bytes)
| rawShortNode (Key : bytes) (Val : raw)
| rawFullNode (Children : list raw).

(** A loop that may panic, over every element. *)
Definition omapM {A B : Type} (f : A → outcome B) : list A → outcome (list B) :=
  fix loop (l : list A) : outcome (list B) :=
    match l with
    | [] => Ret []
    | x :: l => do! y <- f x; do! ys <- loop l; Ret (y :: ys)
    end.

(** [n == nil] keeps a child of a full node as it is; a nil node is unknown
    elsewhere. *)
Fixpoint simplifyNode (n : node) : outcome raw :=
  match n with
  | shortNode k c _ => do! v <- simplifyNode c; Ret (rawShortNode k v)
  | fullNode cs _ =>
      do! rs <- omapM (λ c, match c with nilNode => Ret rawNil | _ => simplifyNode c end) cs;
      Ret (rawFullNode rs)
  | valueNode v => Ret (rawValue v)
  | hashNode h => Ret (rawHash h)
  | nilNode => Panic
  end.

Fixpoint expandNode (hash : option bytes) (n : raw) : outcome node :=
  match n with
  | rawShortNode k c => do! v <- expandNode None c; Ret (shortNode (compactToHex k) v (mkFlag hash false))
  | rawFullNode cs =>
      do! ns <- omapM (λ c, match c with rawNil => Ret nilNode | _ => expandNode None c end) cs;
      Ret (fullNode ns (mkFlag hash false))
  | rawValue v => Ret (valueNode v)
  | rawHash h => Ret (hashNode h)
  | rawNil => Panic
  end.

(** The value the RLP writer sees. *)
Fixpoint raw_val (n : raw) : gval :=
  match n with
  | rawNil => VList []
  | rawValue v => VBytes v
  | rawHash h => VBytes h
  | rawShortNode k c => VList [VBytes k; raw_val c]
  | rawFullNode cs => VList (map (λ c, match c with rawNil => VBytes [] | _ => raw_val c end) cs)
  end.

(** [forGatherChildren]: the hashes below a raw node, in order; of a full node
    the first sixteen children. *)
Fixpoint forGatherChildren (n : raw) : list Z :=
  match n with
  | rawShortNode _ c => forGatherChildren c
  | rawFullNode cs =>
      (fix kids (i : nat) (cs : list raw) : list Z :=
         match i, cs with
         | S i, c :: cs => forGatherChildren c ++ kids i cs
         | _, _ => []
         end) 16%nat cs
  | rawHash h => [Bytes.BytesToHash h]
  | rawValue _ | rawNil => []
  end.

(** ** Both forms read alike *)

Definition raw_inner (n : raw) : bool :=
  match n with rawShortNode _ _ | rawFullNode _ => true | _ => false end.

Definition blob (n : raw) : bytes := enc (item_of (raw_val n)).

(** What may stand for a child: nothing, a hash, or a small inner node. *)
Definition raw_ref (n : raw) : Prop :=
  match n with
  | rawNil => True
  | rawHash h => length h = 32%nat ∧ wf_bytes h
  | rawValue _ => False
  | _ => zlen (blob n) ≤ 32
  end.
Definition raw_slot (n : raw) : Prop :=
  match n with rawNil => True | rawValue v => v ≠ [] ∧ wf_bytes v | _ => False end.

(** The compact form of a key. *)
Definition compact (k ck : bytes) : Prop := hexToCompact k = Ret ck.

(** Raw nodes of canonical tries. *)
Inductive raw_ok : raw → Prop :=
| raw_ok_leaf k ck v : term k → compact k ck → wf_bytes v → raw_ok (rawShortNode ck (rawValue v))
| raw_ok_ext k ck c :
    nibbles k → compact k ck → raw_ref c → c ≠ rawNil → (raw_inner c = true → raw_ok c) →
    raw_ok (rawShortNode ck c)
| raw_ok_full cs :
    length cs = 17%nat →
    (∀ i c, (i < 16)%nat → cs !! i = Some c → raw_ref c) →
    (∀ i c, (i < 16)%nat → cs !! i = Some c → raw_inner c = true → raw_ok c) →
    (∀ c, cs !! 16%nat = Some c → raw_slot c) →
    raw_ok (rawFullNode cs).

Lemma compact_key k ck :
  term k ∨ nibbles k → compact k ck → compactToHex ck = k ∧ wf_bytes ck.
Proof.
  unfold compact. intros Hk E. assert (∃ (t : bool) q, k = (if t then q ++ [16] else q) ∧ nibbles q) as (t & q & -> & Hq).
  { destruct Hk as [(q & -> & Hq)|Hk]; [exists true, q|exists false, k]; auto. }
  rewrite hexToCompact_of in E by done. destruct (compactToHex_of t q Hq) as (c & E' & _ & Hw & F).
  rewrite E in E'. by injection E' as <-.
Qed.

(** The items of the children of a full node. *)
Definition kid_item (c : raw) : item := match c with rawNil => Str [] | _ => item_of (raw_val c) end.
Lemma blob_full cs : blob (rawFullNode cs) = enc (Lst (map kid_item cs)).
Proof.
  unfold blob. cbn [raw_val item_of]. rewrite map_map. do 2 f_equal. apply map_ext. by intros [].
Qed.
Lemma blob_short k c : blob (rawShortNode k c) = enc (Lst [Str k; item_of (raw_val c)]).
Proof. done. Qed.

Definition item_wf (i : item) : Prop := match i with Str b => wf_bytes b | _ => True end.
Lemma raw_ref_wf c : raw_ref c ∨ raw_slot c → item_wf (kid_item c).
Proof. destruct c; cbn; try done; try naive_solver. all: intros _; constructor. Qed.

Section Read.
Context (dec : option bytes → bytes → result node_error node).

(** A child is read back from its reference. *)
Definition reads_back (c : raw) : Prop :=
  ∀ rest n, raw_inner c = true → expandNode None c = Ret n →
    zlen (blob c) + zlen rest + 9 < 2 ^ 64 → dec None (blob c ++ rest) = Ok n.

Definition child_node (c : raw) : outcome node := match c with rawNil => Ret nilNode | _ => expandNode None c end.

Lemma kid_item_inner c : raw_inner c = true → enc (kid_item c) = blob c ∧ item_kind (kid_item c) = List_.
Proof. by destruct c. Qed.

Lemma decodeRef_enc c rest n :
  raw_ref c → reads_back c → child_node c = Ret n → zlen (enc (kid_item c)) + zlen rest + 9 < 2 ^ 64 →
  decodeRef dec (enc (kid_item c) ++ rest) = Ok (n, rest).
Proof.
  intros Hr Hb Hn Hz. unfold decodeRef. rewrite Split_enc by (try done; by apply raw_ref_wf; left). cbn [lift_rlp rbind].
  destruct (raw_inner c) eqn:Ei.
  - destruct (kid_item_inner c Ei) as [E ->]. rewrite E in *. cbv iota. rewrite zlen_app.
    replace (zlen (blob c) + zlen rest - zlen rest) with (zlen (blob c)) by lia.
    assert (zlen (blob c) ≤ 32) as Hs by by destruct c.
    destruct (Z.ltb_spec 32 (zlen (blob c))); [lia|]. rewrite (Hb rest n); [done|done| |done]. by destruct c.
  - destruct c as [|v|h| |]; cbn [raw_ref] in Hr; try done; [by injection Hn as <-|].
    destruct Hr as [Hl Hw]. cbn [kid_item item_of raw_val item_kind item_content].
    destruct h as [|x [|y h]]; try done. injection Hn as <-. unfold zlen. rewrite Hl. done.
Qed.

Lemma decode_children_enc cs : ∀ i ns rest,
  Forall raw_ref cs → Forall reads_back cs → omapM child_node cs = Ret ns →
  zlen (concat (map enc (map kid_item cs))) + zlen rest + 9 < 2 ^ 64 →
  decode_children dec (length cs) i (concat (map enc (map kid_item cs)) ++ rest) = Ok (ns, rest).
Proof.
  induction cs as [|c cs IH]; intros i ns rest Hr Hb Hn Hz; [by injection Hn as <-|].
  apply Forall_cons in Hr as [Hrc Hr]. apply Forall_cons in Hb as [Hbc Hb]. cbn [omapM] in Hn.
  apply obind_ret in Hn as (n & En & Hn). apply obind_ret in Hn as (ns' & Ens & [= <-]).
  cbn [map] in *. rewrite concat_cons in *. rewrite zlen_app in Hz. rewrite <- app_assoc. cbn [length decode_children].
  pose proof (zlen_nonneg (enc (kid_item c))).
  rewrite (decodeRef_enc c _ n); [|done..|rewrite zlen_app; lia]. cbn [wrapError rbind].
  rewrite (IH (S i) ns' rest); [done..|lia].
Qed.

Lemma SplitString_enc b rest :
  wf_bytes b → zlen (enc (Str b)) + zlen rest + 9 < 2 ^ 64 → SplitString (enc (Str b) ++ rest) = Ok (b, rest).
Proof.
  intros Hw Hz. unfold SplitString. rewrite Split_enc by done. cbn [rbind]. destruct b as [|x [|y b]]; try done. cbn [item_kind].
  by destruct (x <=? 127).
Qed.

Lemma decodeFull_enc hash cs ns last n :
  length cs = 16%nat → Forall raw_ref cs → Forall reads_back cs → omapM child_node cs = Ret ns →
  raw_slot last → child_node last = Ret n →
  zlen (concat (map enc (map kid_item (cs ++ [last])))) + 9 < 2 ^ 64 →
  decodeFull dec hash (concat (map enc (map kid_item (cs ++ [last])))) = Ok (fullNode (ns ++ [n]) (mkFlag hash false)).
Proof.
  intros Hl Hr Hb Hns Hs Hn Hz. rewrite !map_app, concat_app in *. cbn [map concat] in *. rewrite app_nil_r in *.
  rewrite zlen_app in Hz. unfold decodeFull. rewrite <- Hl. rewrite (decode_children_enc cs 0 ns); [|done..|lia].
  cbn [rbind]. pose proof (zlen_nonneg (concat (map enc (map kid_item cs)))) as Hz0.
  destruct last as [|v| | |]; try done; cbn [kid_item raw_val item_of] in *.
  - rewrite <- (app_nil_r (enc (Str []))). rewrite (SplitString_enc [] []); [|constructor|change (zlen []) with 0; lia]. by injection Hn as <-.
  - destruct Hs as [Hv Hw]. rewrite <- (app_nil_r (enc (Str v))). rewrite (SplitString_enc v []); [|done|change (zlen []) with 0; lia].
    injection Hn as <-. cbn [lift_rlp rbind]. destruct v as [|x v]; [done|]. destruct (Z.ltb_spec 0 (zlen (x :: v))) as [H|H]; [done|].
    unfold zlen in H. cbn [length] in H. lia.
Qed.

Lemma decodeShort_leaf hash k ck v :
  term k → compact k ck → wf_bytes v → zlen (enc (Str ck) ++ enc (Str v)) + 9 < 2 ^ 64 →
  decodeShort dec hash (enc (Str ck) ++ enc (Str v)) = Ok (shortNode k (valueNode v) (mkFlag hash false)).
Proof.
  intros Hk Hc Hv Hz. destruct (compact_key k ck (or_introl Hk) Hc) as [Eck Hw]. rewrite zlen_app in Hz.
  pose proof (zlen_nonneg (enc (Str ck))). unfold decodeShort. rewrite SplitString_enc by (done || lia). cbn [lift_rlp rbind].
  rewrite Eck, (hasTerm_term _ Hk). rewrite <- (app_nil_r (enc (Str v))).
  rewrite (SplitString_enc v []); [done|done|change (zlen []) with 0; lia].
Qed.

Lemma decodeShort_ext hash k ck c n :
  nibbles k → compact k ck → raw_ref c → c ≠ rawNil → reads_back c → expandNode None c = Ret n →
  zlen (enc (Str ck) ++ enc (item_of (raw_val c))) + 9 < 2 ^ 64 →
  decodeShort dec hash (enc (Str ck) ++ enc (item_of (raw_val c))) = Ok (shortNode k n (mkFlag hash false)).
Proof.
  intros Hk Hc Hr Hne Hb Hn Hz. destruct (compact_key k ck (or_intror Hk) Hc) as [Eck Hw]. rewrite zlen_app in Hz.
  pose proof (zlen_nonneg (enc (Str ck))). unfold decodeShort. rewrite SplitString_enc by (done || lia). cbn [lift_rlp rbind].
  rewrite Eck, (hasTerm_nibbles _ Hk). assert (item_of (raw_val c) = kid_item c) as E by by destruct c. rewrite E in *.
  rewrite <- (app_nil_r (enc (kid_item c))).
  rewrite (decodeRef_enc c [] n); [done|done|done|by destruct c|change (zlen []) with 0; lia].
Qed.
End Read.

(** *** The whole node *)

Lemma SplitList_enc l rest :
  zlen (enc (Lst l)) + zlen rest + 9 < 2 ^ 64 → SplitList (enc (Lst l) ++ rest) = Ok (concat (map enc l), rest).
Proof. intros Hz. unfold SplitList. by rewrite Split_enc. Qed.

Lemma enc_list_length l : (length (concat (map enc l)) < length (enc (Lst l)))%nat.
Proof.
  cbn [enc]. rewrite length_app. pose proof (zlen_puthead_le 0xC0 0xF7 (zlen (concat (map enc l)))) as H. unfold zlen in H at 1. lia.
Qed.
Lemma CountValues_enc l :
  Forall item_wf l → zlen (concat (map enc l)) + 9 < 2 ^ 64 → CountValues (concat (map enc l)) = Ok (zlen l).
Proof. intros Hw Hz. unfold CountValues. by rewrite CountValues_loop_enc by (done || lia). Qed.

(** A list of two or seventeen elements is handed to the decoder of its kind. *)
Lemma decodeNode_list fuel hash l rest :
  Forall item_wf l → zlen (enc (Lst l)) + zlen rest + 9 < 2 ^ 64 → (length (enc (Lst l)) ≤ fuel)%nat →
  ∃ fuel', fuel = S fuel' ∧ (length (concat (map enc l)) ≤ fuel')%nat ∧ zlen (concat (map enc l)) + 9 < 2 ^ 64 ∧
  decodeNode_loop fuel hash (enc (Lst l) ++ rest) =
    (if zlen l =? 2 then wrapError (decodeShort (decodeNode_loop fuel') hash (concat (map enc l))) AtShort
     else if zlen l =? 17 then wrapError (decodeFull (decodeNode_loop fuel') hash (concat (map enc l))) AtFull
     else Err (plain (NElements (zlen l)))).
Proof.
  intros Hw Hz Hf. pose proof (enc_list_length l) as Hl. pose proof (zlen_nonneg rest). unfold zlen in Hz at 1.
  destruct fuel as [|fuel]; [lia|]. exists fuel. split; [done|]. split; [lia|]. split; [unfold zlen; lia|].
  destruct (enc (Lst l) ++ rest) as [|x b] eqn:E.
  { apply app_eq_nil in E as [E _]. rewrite E in Hl. cbn in Hl. lia. }
  cbn [decodeNode_loop]. rewrite <- E, SplitList_enc by (unfold zlen in *; lia). cbn [lift_rlp rbind].
  rewrite CountValues_enc by (done || unfold zlen; lia). done.
Qed.

(** Reading the blob of a raw node and expanding the raw node give the same. *)
Definition reads_alike (n : raw) : Prop :=
  ∀ fuel hash rest, (length (blob n) ≤ fuel)%nat → zlen (blob n) + zlen rest + 9 < 2 ^ 64 →
  ∃ m, expandNode hash n = Ret m ∧ decodeNode_loop fuel hash (blob n ++ rest) = Ok m.

Lemma reads_alike_back c fuel : reads_alike c → (length (blob c) ≤ fuel)%nat → reads_back (decodeNode_loop fuel) c.
Proof.
  intros H Hf rest n Hi E Hz. destruct (H fuel None rest Hf Hz) as (m & E' & D). congruence.
Qed.
(** Anything that is not an inner node is not read that way. *)
Lemma outer_back dec c : raw_inner c = false → reads_back dec c.
Proof. intros H rest n Hi. congruence. Qed.

Lemma child_back c fuel :
  (raw_inner c = true → reads_alike c) → (length (enc (kid_item c)) ≤ fuel)%nat → reads_back (decodeNode_loop fuel) c.
Proof.
  intros H Hf. destruct (raw_inner c) eqn:Ei; [|by apply outer_back]. apply reads_alike_back; [auto|].
  by destruct (kid_item_inner c Ei) as [<- _].
Qed.
Lemma child_expands c :
  raw_ref c → (raw_inner c = true → reads_alike c) → zlen (enc (kid_item c)) + 9 < 2 ^ 64 → ∃ n, child_node c = Ret n.
Proof.
  intros Hr H Hz. destruct (raw_inner c) eqn:Ei; [|destruct c; try done; by eexists].
  destruct (kid_item_inner c Ei) as [E _]. destruct (H eq_refl (length (blob c)) None []) as (m & F & _).
  { done. } { rewrite <- E. change (zlen []) with 0. lia. }
  exists m. by destruct c.
Qed.

Lemma kids_expand cs :
  Forall raw_ref cs → Forall (λ c, raw_inner c = true → reads_alike c) cs →
  zlen (concat (map enc (map kid_item cs))) + 9 < 2 ^ 64 → ∃ ns, omapM child_node cs = Ret ns.
Proof.
  intros Hr Ha Hz. induction cs as [|c cs IH]; [by eexists|]. apply Forall_cons in Hr as [Hc Hr]. apply Forall_cons in Ha as [Hac Ha].
  cbn [map] in Hz. rewrite concat_cons, zlen_app in Hz. pose proof (zlen_nonneg (enc (kid_item c))).
  pose proof (zlen_nonneg (concat (map enc (map kid_item cs)))).
  destruct (child_expands c Hc Hac) as [n En]; [lia|]. destruct IH as [ns Ens]; [done..|lia|]. cbn [omapM]. rewrite En, Ens. by eexists.
Qed.

Lemma omapM_app {A B : Type} (f : A → outcome B) l1 l2 r1 r2 :
  omapM f l1 = Ret r1 → omapM f l2 = Ret r2 → omapM f (l1 ++ l2) = Ret (r1 ++ r2).
Proof.
  revert r1. induction l1 as [|x l1 IH]; intros r1 H1 H2; [by injection H1 as <-|]. cbn [omapM app] in *.
  apply obind_ret in H1 as (y & -> & H1). apply obind_ret in H1 as (ys & E & [= <-]). cbn [obind]. by rewrite (IH ys E H2).
Qed.

Lemma expandNode_full hash cs ns : omapM child_node cs = Ret ns → expandNode hash (rawFullNode cs) = Ret (fullNode ns (mkFlag hash false)).
Proof.
  intros E. cbn [expandNode].
  change (omapM (λ c, match c with rawNil => Ret nilNode | _ => expandNode None c end) cs) with (omapM child_node cs).
  by rewrite E.
Qed.

Lemma alike_leaf k ck v : term k → compact k ck → wf_bytes v → reads_alike (rawShortNode ck (rawValue v)).
Proof.
  intros Hk Hc Hv fuel hash rest Hf Hz. destruct (compact_key k ck (or_introl Hk) Hc) as [Eck Hw].
  rewrite blob_short in *. change (item_of (raw_val (rawValue v))) with (Str v) in *.
  destruct (decodeNode_list fuel hash [Str ck; Str v] rest) as (f' & -> & _ & Hz' & ->); [by repeat constructor|done..|].
  eexists. split; [cbn [expandNode obind]; by rewrite Eck|]. change (zlen [Str ck; Str v] =? 2) with true. cbv iota.
  cbn [map concat] in *. rewrite app_nil_r in *. by rewrite (decodeShort_leaf _ hash k).
Qed.

Lemma alike_ext k ck c :
  nibbles k → compact k ck → raw_ref c → c ≠ rawNil → (raw_inner c = true → reads_alike c) →
  reads_alike (rawShortNode ck c).
Proof.
  intros Hk Hc Hr Hne Ha fuel hash rest Hf Hz. destruct (compact_key k ck (or_intror Hk) Hc) as [Eck Hw].
  rewrite blob_short in *. set (ci := item_of (raw_val c)) in *. assert (ci = kid_item c) as Eci by by destruct c.
  destruct (decodeNode_list fuel hash [Str ck; ci] rest) as (f' & -> & Hf' & Hz' & ->).
  { repeat constructor; [done|]. rewrite Eci. apply raw_ref_wf. by left. }
  { done. } { done. }
  change (zlen [Str ck; ci] =? 2) with true. cbv iota. cbn [map concat] in *. rewrite app_nil_r in *.
  assert (zlen (enc ci) + 9 < 2 ^ 64) as Hzc by (rewrite zlen_app in Hz'; pose proof (zlen_nonneg (enc (Str ck))); lia).
  destruct (child_expands c Hr Ha) as [n En]; [by rewrite <- Eci|]. assert (expandNode None c = Ret n) as En' by by destruct c.
  eexists. split; [cbn [expandNode]; rewrite En'; cbn [obind]; by rewrite Eck|].
  rewrite (decodeShort_ext _ hash k ck c n); try done. apply child_back; [done|]. rewrite <- Eci. rewrite length_app in Hf'. lia.
Qed.

Lemma alike_full_node cs :
  length cs = 17%nat → (∀ i c, (i < 16)%nat → cs !! i = Some c → raw_ref c) →
  (∀ i c, (i < 16)%nat → cs !! i = Some c → raw_inner c = true → reads_alike c) →
  (∀ c, cs !! 16%nat = Some c → raw_slot c) → reads_alike (rawFullNode cs).
Proof.
  intros Hl Hr Ha Hs fuel hash rest Hf Hz. rewrite blob_full in *.
  assert (∃ cs0 last, cs = cs0 ++ [last] ∧ length cs0 = 16%nat) as (cs0 & last & -> & Hl0).
  { destruct (exists_last (l := cs)) as (cs0 & last & ->); [by intros ->|]. exists cs0, last. rewrite length_app in Hl. cbn in Hl. split; [done|lia]. }
  assert (raw_slot last) as Hlast by (apply Hs; by rewrite lookup_app_r, Hl0, Nat.sub_diag by lia).
  assert (Forall raw_ref cs0) as Hr0.
  { apply Forall_lookup. intros i c E. apply lookup_lt_Some in E as Hi. eapply (Hr i); [lia|]. by rewrite lookup_app_l. }
  assert (Forall (λ c, raw_inner c = true → reads_alike c) cs0) as Ha0.
  { apply Forall_lookup. intros i c E. apply lookup_lt_Some in E as Hi. eapply (Ha i); [lia|]. by rewrite lookup_app_l. }
  destruct (decodeNode_list fuel hash (map kid_item (cs0 ++ [last])) rest) as (f' & -> & Hf' & Hz' & ->).
  { apply Forall_map, Forall_app. split; [|constructor; [apply raw_ref_wf; by right|constructor]].
    eapply Forall_impl; [exact Hr0|]. intros c Hc. apply raw_ref_wf. by left. }
  { done. } { done. }
  unfold zlen at 1 2 3. rewrite length_map, Hl. change (Z.of_nat 17 =? 2) with false. change (Z.of_nat 17 =? 17) with true. cbv iota.
  assert (zlen (concat (map enc (map kid_item cs0))) + 9 < 2 ^ 64) as Hz0.
  { rewrite !map_app, concat_app, zlen_app in Hz'. pose proof (zlen_nonneg (concat (map enc (map kid_item [last])))). lia. }
  destruct (kids_expand cs0 Hr0 Ha0 Hz0) as [ns Ens]. assert (∃ n, child_node last = Ret n) as [n En] by (destruct last; try done; by eexists).
  eexists. split; [apply expandNode_full; apply (omapM_app _ _ _ _ [n] Ens); cbn [omapM]; by rewrite En|].
  rewrite (decodeFull_enc _ hash cs0 ns last n); [done|done|done| |done..].
  apply Forall_forall. intros c Hc. apply child_back; [by eapply Forall_forall in Ha0|].
  enough (length (enc (kid_item c)) ≤ length (concat (map enc (map kid_item (cs0 ++ [last])))))%nat by lia.
  clear -Hc. induction cs0 as [|d cs0 IH]; [by apply not_elem_of_nil in Hc|]. cbn [app map]. rewrite concat_cons, length_app.
  apply elem_of_cons in Hc as [->|Hc]; [lia|]. specialize (IH Hc). lia.
Qed.

Lemma raw_ok_alike n : raw_ok n → reads_alike n.
Proof.
  induction 1; [by eapply alike_leaf|by eapply alike_ext|by apply alike_full_node].
Qed.
