(* ===== verification/TrieDB.v ===== *)
(** * The memory database of the trie (trie/database.go)

    Dirty nodes with their reference counts and the flush-list through them, the
    clean cache and the disk below.  [Commit] moves a trie to the disk, [Cap] the
    oldest nodes, [Dereference] drops what is no longer referenced.  The clean
    cache (a third-party package) and the key-value store are interfaces. *)
From S2P Require Import Prelude Common RlpEncode TrieEncoding Trie TrieMap TrieSpec TrieHash TrieNode.
Import Enc Raw.

(** The clean cache: fastcache may drop entries but does not invent them. *)
Class CleanCache := {
  cleans_t : Type;
  cleans_Get : cleans_t → bytes → option bytes;
  cleans_Set : bytes → bytes → cleans_t → cleans_t
}.
Class CleanCacheOk (C : CleanCache) : Prop := {
  cleans_Get_Set : ∀ c k v k' v', cleans_Get (cleans_Set k v c) k' = Some v' →
    (k' = k ∧ v' = v) ∨ (k' ≠ k ∧ cleans_Get c k' = Some v')
}.

(** The disk: a missing key is an error of [Get]; a batch is written as a whole
    or not at all. *)
Class KeyValueStore := {
  kv : Type;
  kv_Get : kv → bytes → option bytes;
  kv_Write : list (bytes * bytes) → kv → result string kv
}.
Definition batch_get (b : list (bytes * bytes)) (k : bytes) : option bytes :=
  snd <$> last (filter (λ x, x.1 = k) b).
Class KeyValueStoreOk (K : KeyValueStore) : Prop := {
  kv_Get_Write : ∀ b s s' k, kv_Write b s = Ok s' →
    kv_Get s' k = match batch_get b k with Some v => Some v | None => kv_Get s k end
}.

(** ** State *)

Record cachedNode := mkCached {
  cn_node : raw;
  cn_size : Z;
  cn_parents : Z;
  cn_children : option (gmap Z Z);
  cn_flushPrev : Z;
  cn_flushNext : Z
}.

Definition u32 (x : Z) : Z := wrap 32 x.

Definition set_parents (p : Z) (n : cachedNode) : cachedNode :=
  mkCached (cn_node n) (cn_size n) p (cn_children n) (cn_flushPrev n) (cn_flushNext n).
Definition set_children (c : option (gmap Z Z)) (n : cachedNode) : cachedNode :=
  mkCached (cn_node n) (cn_size n) (cn_parents n) c (cn_flushPrev n) (cn_flushNext n).
Definition set_prev (h : Z) (n : cachedNode) : cachedNode :=
  mkCached (cn_node n) (cn_size n) (cn_parents n) (cn_children n) h (cn_flushNext n).
Definition set_next (h : Z) (n : cachedNode) : cachedNode :=
  mkCached (cn_node n) (cn_size n) (cn_parents n) (cn_children n) (cn_flushPrev n) h.

(** [cachedNode.rlp], [cachedNode.obj] and [forChilds]; external children come
    in the order of the map, Go's order is not fixed. *)
Definition cn_rlp (n : cachedNode) : outcome bytes :=
  match EncodeToBytes (raw_val (cn_node n)) with Ok b => Ret b | Err _ => Panic end.
Definition cn_obj (hash : Z) (n : cachedNode) : outcome node := expandNode (Some (Bytes.Hash_Bytes hash)) (cn_node n).
Definition forChilds (n : cachedNode) : list Z :=
  match cn_children n with Some m => (map_to_list m).*1 | None => [] end ++ forGatherChildren (cn_node n).

(** Writes to the disk, in order. *)
Abbreviation batch := (list (list Z * list Z)) (only parsing).

Section Database.
Context `{C : CleanCache} `{K : KeyValueStore}.

Record Database := mkDb {
  diskdb : kv;
  cleans : option cleans_t;
  dirties : gmap Z cachedNode;
  oldest : Z;
  newest : Z;
  preimages : option (gmap Z bytes);
  dirtiesSize : Z;
  childrenSize : Z;
  preimagesSize : Z
}.

Definition set_disk (d : kv) (db : Database) : Database :=
  mkDb d (cleans db) (dirties db) (oldest db) (newest db) (preimages db) (dirtiesSize db) (childrenSize db) (preimagesSize db).
Definition set_cleans (c : option cleans_t) (db : Database) : Database :=
  mkDb (diskdb db) c (dirties db) (oldest db) (newest db) (preimages db) (dirtiesSize db) (childrenSize db) (preimagesSize db).
Definition set_dirties (m : gmap Z cachedNode) (db : Database) : Database :=
  mkDb (diskdb db) (cleans db) m (oldest db) (newest db) (preimages db) (dirtiesSize db) (childrenSize db) (preimagesSize db).
Definition set_oldest (h : Z) (db : Database) : Database :=
  mkDb (diskdb db) (cleans db) (dirties db) h (newest db) (preimages db) (dirtiesSize db) (childrenSize db) (preimagesSize db).
Definition set_newest (h : Z) (db : Database) : Database :=
  mkDb (diskdb db) (cleans db) (dirties db) (oldest db) h (preimages db) (dirtiesSize db) (childrenSize db) (preimagesSize db).
Definition set_preimages (p : option (gmap Z bytes)) (size : Z) (db : Database) : Database :=
  mkDb (diskdb db) (cleans db) (dirties db) (oldest db) (newest db) p (dirtiesSize db) (childrenSize db) size.
Definition add_sizes (d c : Z) (db : Database) : Database :=
  mkDb (diskdb db) (cleans db) (dirties db) (oldest db) (newest db) (preimages db) (dirtiesSize db + d) (childrenSize db + c) (preimagesSize db).

(** [db.dirties[h].f = v]: a nil entry is dereferenced. *)
Definition update_dirty (h : Z) (f : cachedNode → cachedNode) (db : Database) : outcome Database :=
  match dirties db !! h with
  | Some n => Ret (set_dirties (<[h := f n]> (dirties db)) db)
  | None => Panic
  end.

(** [NewDatabaseWithConfig]: the zero hash is the root of the references. *)
Definition NewDatabase (disk : kv) (cl : option cleans_t) (withPreimages : bool) : Database :=
  mkDb disk cl {[ 0 := mkCached rawNil 0 0 (Some ∅) 0 0 ]} 0 0 (if withPreimages then Some ∅ else None) 0 0 0.

(** ** Inserting and reading *)

(** [c.parents++] for a child that is here. *)
Definition count_parent (h : Z) (m : gmap Z cachedNode) : gmap Z cachedNode :=
  alter (λ c, set_parents (u32 (cn_parents c + 1)) c) h m.

Definition insert_node (hash size : Z) (n : node) (db : Database) : outcome Database :=
  match dirties db !! hash with
  | Some _ => Ret db
  | None =>
      do! r <- simplifyNode n;
      let entry := mkCached r (u16 size) 0 None (newest db) 0 in
      let db := set_dirties (<[hash := entry]> (foldl (λ m h, count_parent h m) (dirties db) (forChilds entry))) db in
      do! db <- (if oldest db =? 0 then Ret (set_newest hash (set_oldest hash db))
                 else do! db <- update_dirty (newest db) (set_next hash) db; Ret (set_newest hash db));
      Ret (add_sizes (u16 (32 + cn_size entry)) 0 db)
  end.

Definition insertPreimage (hash : Z) (preimage : bytes) (db : Database) : Database :=
  match preimages db with
  | None => db
  | Some m =>
      match m !! hash with
      | Some _ => db
      | None => set_preimages (Some (<[hash := preimage]> m)) (preimagesSize db + (32 + zlen preimage)) db
      end
  end.

(** [cleans.Set] when there is a clean cache. *)
Definition remember (hash : Z) (blob : bytes) (db : Database) : Database :=
  match cleans db with
  | Some c => set_cleans (Some (cleans_Set (Bytes.Hash_Bytes hash) blob c)) db
  | None => db
  end.
Definition from_cleans (hash : Z) (db : Database) : option bytes :=
  match cleans db with Some c => cleans_Get c (Bytes.Hash_Bytes hash) | None => None end.

(** [Database.node] *)
Definition db_node (hash : Z) (db : Database) : outcome (option node * Database) :=
  match from_cleans hash db with
  | Some enc => do! n <- mustDecodeNode (Some (Bytes.Hash_Bytes hash)) enc; Ret (Some n, db)
  | None =>
      match dirties db !! hash with
      | Some dirty => do! n <- cn_obj hash dirty; Ret (Some n, db)
      | None =>
          match kv_Get (diskdb db) (Bytes.Hash_Bytes hash) with
          | None => Ret (None, db)
          | Some enc =>
              let db := remember hash enc db in
              do! n <- mustDecodeNode (Some (Bytes.Hash_Bytes hash)) enc; Ret (Some n, db)
          end
      end
  end.

(** [Database.Node]: the blob, and whether it was found. *)
Definition db_Node (hash : Z) (db : Database) : outcome (option bytes * Database) :=
  if hash =? 0 then Ret (None, db)
  else
    match from_cleans hash db with
    | Some enc => Ret (Some enc, db)
    | None =>
        match dirties db !! hash with
        | Some dirty => do! b <- cn_rlp dirty; Ret (Some b, db)
        | None =>
            match kv_Get (diskdb db) (Bytes.Hash_Bytes hash) with
            | Some enc => if zlen enc =? 0 then Ret (None, db) else Ret (Some enc, remember hash enc db)
            | None => Ret (None, db)
            end
        end
    end.

(** ** References *)

Definition reference (child parent : Z) (db : Database) : outcome Database :=
  match dirties db !! child with
  | None => Ret db
  | Some node =>
      match dirties db !! parent with
      | None => Panic
      | Some p =>
          let fresh := match cn_children p with None => true | Some _ => false end in
          let m := default ∅ (cn_children p) in
          if negb fresh && bool_decide (is_Some (m !! child)) && negb (parent =? 0) then Ret db
          else
            let count := u16 (default 0 (m !! child) + 1) in
            let db := add_sizes 0 ((if fresh then 48 else 0) + (if count =? 1 then 32 + 2 else 0)) db in
            do! db <- update_dirty child (λ c, set_parents (u32 (cn_parents c + 1)) c) db;
            update_dirty parent (set_children (Some (<[child := count]> m))) db
      end
  end.

(** Taking a node out of the flush-list. *)
Definition unlink (hash : Z) (node : cachedNode) (db : Database) : outcome Database :=
  if hash =? oldest db then
    update_dirty (cn_flushNext node) (set_prev 0) (set_oldest (cn_flushNext node) db)
  else if hash =? newest db then
    update_dirty (cn_flushPrev node) (set_next 0) (set_newest (cn_flushPrev node) db)
  else
    do! db <- update_dirty (cn_flushPrev node) (set_next (cn_flushNext node)) db;
    update_dirty (cn_flushNext node) (set_prev (cn_flushPrev node)) db.

(** What is left of a node that lost a reference. *)
Definition drop_reference (child parent : Z) (db : Database) : outcome Database :=
  match dirties db !! parent with
  | None => Panic
  | Some p =>
      match cn_children p with
      | Some m =>
          let n := default 0 (m !! child) in
          if 0 <? n then
            if n =? 1 then
              update_dirty parent (set_children (Some (delete child m))) (add_sizes 0 (- (32 + 2)) db)
            else update_dirty parent (set_children (Some (<[child := n - 1]> m))) db
          else Ret db
      | None => Ret db
      end
  end.

Definition of_outcome {A : Type} (o : outcome A) : tres A := match o with Ret a => TOk a | Panic => TPanic end.

Fixpoint dereference (fuel : nat) (child parent : Z) (db : Database) : tres Database :=
  match fuel with
  | O => TFuel
  | S fuel =>
      trie! db <- of_outcome (drop_reference child parent db);
      match dirties db !! child with
      | None => TOk db
      | Some node =>
          let parents := if 0 <? cn_parents node then cn_parents node - 1 else cn_parents node in
          trie! db <- of_outcome (update_dirty child (set_parents parents) db);
          if parents =? 0 then
            trie! db <- of_outcome (unlink child node db);
            trie! db <- foldl (λ r h, trie! db <- r; dereference fuel h child db) (TOk db) (forChilds node);
            let children := match dirties db !! child with Some n => cn_children n | None => None end in
            TOk (add_sizes (- (32 + cn_size node)) (match children with Some _ => -48 | None => 0 end)
                   (set_dirties (delete child (dirties db)) db))
          else TOk db
      end
  end.

(** [Dereference]: the root of the references is kept. *)
Definition Dereference (fuel : nat) (root : Z) (db : Database) : tres Database :=
  if root =? 0 then TOk db else dereference fuel root 0 db.

(** ** Moving nodes to the disk *)

Definition ValueSize (b : batch) : Z := foldr (λ x s, zlen x.2 + s) 0 b.
Definition IdealBatchSize : Z := 100 * 1024.

Definition preimagePrefix : bytes := [115; 101; 99; 117; 114; 101; 45; 107; 101; 121; 45].
Definition preimageKey (hash : Z) : bytes := preimagePrefix ++ Bytes.Hash_Bytes hash.
Definition WritePreimages (m : gmap Z bytes) (b : batch) : batch :=
  b ++ map (λ x, (preimageKey x.1, x.2)) (map_to_list m).
Definition preimage (hash : Z) (db : Database) : option bytes :=
  match preimages db with
  | None => None
  | Some m => match m !! hash with Some p => Some p | None => kv_Get (diskdb db) (preimageKey hash) end
  end.

(** [cleaner.Put]: what was written leaves the dirty nodes. *)
Definition cleaner_Put (key blob : bytes) (db : Database) : outcome Database :=
  let hash := Bytes.BytesToHash key in
  match dirties db !! hash with
  | None => Ret db
  | Some node =>
      do! db <- unlink hash node db;
      let db := set_dirties (delete hash (dirties db)) db in
      let db := add_sizes (- (32 + cn_size node)
        - match cn_children node with Some m => 48 + Z.of_nat (size m) * (32 + 2) | None => 0 end) 0 db in
      Ret (remember hash blob db)
  end.
Definition Replay (b : batch) (db : Database) : outcome Database :=
  foldl (λ r x, do! db <- r; cleaner_Put x.1 x.2 db) (Ret db) b.

(** The result of a commit: the database may have changed before an error. *)
Inductive cres :=
| COk (db : Database) (b : batch)
| CErr (e : string) (db : Database)
| CPanic
| CFuel.

(** The batch is written when it is large enough. *)
Definition flush_full (db : Database) (b : batch) : cres :=
  if IdealBatchSize <=? ValueSize b then
    match kv_Write b (diskdb db) with
    | Err e => CErr e db
    | Ok d => match Replay b (set_disk d db) with Ret db => COk db [] | Panic => CPanic end
    end
  else COk db b.

Fixpoint commit (fuel : nat) (hash : Z) (db : Database) (b : batch) : cres :=
  match fuel with
  | O => CFuel
  | S fuel =>
      match dirties db !! hash with
      | None => COk db b
      | Some node =>
          match foldl (λ r h, match r with COk db b => commit fuel h db b | r => r end) (COk db b) (forChilds node) with
          | COk db b =>
              match cn_rlp node with
              | Ret blob => flush_full db (b ++ [(Bytes.Hash_Bytes hash, blob)])
              | Panic => CPanic
              end
          | r => r
          end
      end
  end.

Definition Commit (fuel : nat) (node : Z) (db : Database) : cres :=
  match (match preimages db with
         | Some m => match kv_Write (WritePreimages m []) (diskdb db) with
                     | Err e => CErr e db
                     | Ok d => COk (set_disk d db) []
                     end
         | None => COk db []
         end) with
  | COk db b =>
      match commit fuel node db b with
      | COk db b =>
          match kv_Write b (diskdb db) with
          | Err e => CErr e db
          | Ok d =>
              match Replay b (set_disk d db) with
              | Ret db =>
                  COk (match preimages db with Some _ => set_preimages (Some ∅) 0 db | None => db end) []
              | Panic => CPanic
              end
          end
      | r => r
      end
  | r => r
  end.

(** The size of a [cachedNode] on a 64-bit machine. *)
Definition cachedNodeSize : Z := 96.

Definition children_size (n : cachedNode) : Z :=
  match cn_children n with Some m => 48 + Z.of_nat (size m) * (32 + 2) | None => 0 end.

(** The first loop of [Cap]: from the oldest node on, into the batch. *)
Fixpoint cap_write (fuel : nat) (limit sz at_ : Z) (db : Database) (b : batch) : cres * Z :=
  if (limit <? sz) && negb (at_ =? 0) then
    match fuel with
    | O => (CFuel, at_)
    | S fuel =>
        match dirties db !! at_ with
        | None => (CPanic, at_)
        | Some node =>
            match cn_rlp node with
            | Panic => (CPanic, at_)
            | Ret blob =>
                let b := b ++ [(Bytes.Hash_Bytes at_, blob)] in
                let sz := sz - (32 + cn_size node + cachedNodeSize) - children_size node in
                if IdealBatchSize <=? ValueSize b then
                  match kv_Write b (diskdb db) with
                  | Err e => (CErr e db, at_)
                  | Ok d => cap_write fuel limit sz (cn_flushNext node) (set_disk d db) []
                  end
                else cap_write fuel limit sz (cn_flushNext node) db b
            end
        end
    end
  else (COk db b, at_).

(** The second loop of [Cap]: the written nodes leave memory. *)
Fixpoint cap_drop (fuel : nat) (until : Z) (db : Database) : tres Database :=
  if oldest db =? until then TOk db
  else
    match fuel with
    | O => TFuel
    | S fuel =>
        match dirties db !! oldest db with
        | None => TPanic
        | Some node =>
            cap_drop fuel until
              (add_sizes (- (32 + cn_size node)) (- children_size node)
                 (set_oldest (cn_flushNext node) (set_dirties (delete (oldest db) (dirties db)) db)))
        end
    end.

(** From the first loop of [Cap] to its end. *)
Definition cap_flush (limit sz : Z) (flushPreimages : bool) (db : Database) (b : batch) : cres :=
  match cap_write (size (dirties db)) limit sz (oldest db) db b with
  | (COk db b, until) =>
      match kv_Write b (diskdb db) with
      | Err e => CErr e db
      | Ok d =>
          let db := set_disk d db in
          let db := match preimages db with
                    | Some _ => if flushPreimages then set_preimages (Some ∅) 0 db else db
                    | None => db
                    end in
          match cap_drop (size (dirties db)) until db with
          | TOk db =>
              if oldest db =? 0 then COk db []
              else match update_dirty (oldest db) (set_prev 0) db with Ret db => COk db [] | Panic => CPanic end
          | TFuel => CFuel
          | _ => CPanic
          end
      end
  | (r, _) => r
  end.

Definition Cap (limit : Z) (db : Database) : cres :=
  match dirties db !! 0 with
  | None => CPanic
  | Some meta =>
      let refs := match cn_children meta with Some m => Z.of_nat (size m) | None => 0 end in
      let sz := dirtiesSize db + (Z.of_nat (size (dirties db)) - 1) * cachedNodeSize
                + (childrenSize db - refs * (32 + 2)) in
      let flushPreimages := 4 * 1024 * 1024 <? preimagesSize db in
      match (match preimages db with
             | Some m =>
                 if flushPreimages then
                   let b := WritePreimages m [] in
                   if IdealBatchSize <? ValueSize b then
                     match kv_Write b (diskdb db) with
                     | Err e => CErr e db
                     | Ok d => COk (set_disk d db) []
                     end
                   else COk db b
                 else COk db []
             | None => COk db []
             end) with
      | COk db b =>
          cap_flush limit sz flushPreimages db b
      | r => r
      end
  end.

(** ** The flush-list *)

(** The dirty nodes but the root of the references, from the oldest to the
    newest.  (The oldest one's [flushPrev] is not used.) *)
Record linked (db : Database) (L : list Z) : Prop := {
  lk_nodup : NoDup L;
  lk_zero : 0 ∉ L;
  lk_dom : ∀ h, is_Some (dirties db !! h) ↔ h = 0 ∨ h ∈ L;
  lk_oldest : oldest db = default 0 (L !! 0%nat);
  lk_newest : L ≠ [] → L !! (length L - 1)%nat = Some (newest db);
  lk_next : ∀ i h n, L !! i = Some h → dirties db !! h = Some n → cn_flushNext n = default 0 (L !! S i);
  lk_prev : ∀ i h n, L !! S i = Some h → dirties db !! h = Some n → L !! i = Some (cn_flushPrev n) }.

(** A node without its links and counts. *)
Definition essence (c : cachedNode) : raw * option (gmap Z Z) := (cn_node c, cn_children c).

(** What unlinking leaves alone. *)
Definition unlinked (db db' : Database) : Prop :=
  diskdb db' = diskdb db ∧ cleans db' = cleans db ∧ preimages db' = preimages db ∧
  ∀ k, essence <$> dirties db' !! k = essence <$> dirties db !! k.

Lemma update_dirty_spec h f db n :
  dirties db !! h = Some n → update_dirty h f db = Ret (set_dirties (<[h := f n]> (dirties db)) db).
Proof. intros E. unfold update_dirty. by rewrite E. Qed.

Lemma same_nodes (m : gmap Z cachedNode) h n f :
  m !! h = Some n → essence (f n) = essence n → ∀ k, essence <$> <[h := f n]> m !! k = essence <$> m !! k.
Proof.
  intros E Hf k. destruct (decide (h = k)) as [<-|Hne]; [rewrite lookup_insert_eq, E; cbn; by rewrite Hf|by rewrite lookup_insert_ne].
Qed.

(** The entry after [f] was applied to the entry of [h]. *)
Lemma lookup_updated (m : gmap Z cachedNode) h n f k x :
  m !! h = Some n → <[h := f n]> m !! k = Some x →
  (k = h ∧ x = f n) ∨ (k ≠ h ∧ m !! k = Some x).
Proof.
  intros E Hx. destruct (decide (h = k)) as [<-|Hne]; [rewrite lookup_insert_eq in Hx; left; split; congruence|].
  rewrite lookup_insert_ne in Hx by done. right. split; [congruence|done].
Qed.

Lemma linked_at db L i h : linked db L → L !! i = Some h → h ≠ 0 ∧ ∃ n, dirties db !! h = Some n.
Proof.
  intros HL E. pose proof (list_elem_of_lookup_2 _ _ _ E) as Hin. split; [intros ->; by apply (lk_zero _ _ HL)|].
  apply (lk_dom _ _ HL). by right.
Qed.
Lemma linked_inj db L i j h : linked db L → L !! i = Some h → L !! j = Some h → i = j.
Proof. intros HL. apply NoDup_lookup, (lk_nodup _ _ HL). Qed.

(** Taking the node at [i] out, given the entries after the unlinking. *)
Lemma linked_delete db L i h m o nw :
  linked db L → L !! i = Some h →
  (∀ k, is_Some (m !! k) ↔ is_Some (dirties db !! k)) →
  o = default 0 (delete i L !! 0%nat) →
  (delete i L ≠ [] → delete i L !! (length (delete i L) - 1)%nat = Some nw) →
  (∀ j k n', k ≠ h → L !! j = Some k → m !! k = Some n' →
     (S j ≠ i → ∃ n, dirties db !! k = Some n ∧ cn_flushNext n' = cn_flushNext n) ∧
     (S j = i → cn_flushNext n' = default 0 (L !! S i)) ∧
     (j ≠ S i → ∃ n, dirties db !! k = Some n ∧ cn_flushPrev n' = cn_flushPrev n) ∧
     (j = S i → (0 < i)%nat → L !! (i - 1)%nat = Some (cn_flushPrev n'))) →
  linked (mkDb (diskdb db) (cleans db) (delete h m) o nw (preimages db) (dirtiesSize db) (childrenSize db) (preimagesSize db)) (delete i L).
Proof.
  intros HL Ei Hm Ho Hnw Hk. pose proof (lk_nodup _ _ HL) as Hnd.
  assert (∀ j k, delete i L !! j = Some k → k ≠ h ∧ L !! (if decide (j < i)%nat then j else S j) = Some k) as Hdel.
  { intros j k E. rewrite list_lookup_delete in E. split; [|by destruct (decide (j < i)%nat)].
    intros ->. destruct (decide (j < i)%nat); pose proof (linked_inj _ _ _ _ _ HL Ei E); lia. }
  assert (∀ k, k ∈ delete i L ↔ k ∈ L ∧ k ≠ h) as Hin.
  { intros k. split.
    - intros (j & E)%list_elem_of_lookup. apply Hdel in E as [Hne E]. split; [by eapply list_elem_of_lookup_2|done].
    - intros [(j & E)%list_elem_of_lookup Hne]. assert (j ≠ i) as Hji by congruence. apply list_elem_of_lookup.
      destruct (decide (j < i)%nat); [exists j; by rewrite list_lookup_delete_lt|].
      exists (j - 1)%nat. rewrite list_lookup_delete_ge by lia. by replace (S (j - 1)) with j by lia. }
  split; cbn.
  - eapply sublist_NoDup; [exact Hnd|apply sublist_delete].
  - intros Hz. apply Hin in Hz as [Hz _]. by apply (lk_zero _ _ HL).
  - intros k. rewrite Hin. destruct (decide (k = h)) as [->|Hne].
    + rewrite lookup_delete_eq. split; [by intros [? ?]|]. intros [->|[_ ?]]; [|done]. by destruct (linked_at _ _ _ _ HL Ei).
    + rewrite lookup_delete_ne by done. rewrite Hm, (lk_dom _ _ HL). naive_solver.
  - done.
  - done.
  - intros j k n E En. apply Hdel in E as [Hne E]. rewrite lookup_delete_ne in En by done.
    destruct (Hk _ _ _ Hne E En) as (H1 & H2 & _). rewrite list_lookup_delete.
    destruct (decide (j < i)%nat), (decide (S j < i)%nat); try lia.
    + destruct (H1 ltac:(lia)) as (z0 & E0 & ->). by eapply (lk_next _ _ HL).
    + rewrite H2 by lia. do 2 f_equal. lia.
    + destruct (H1 ltac:(lia)) as (z0 & E0 & ->). by eapply (lk_next _ _ HL).
  - intros j k n E En. apply Hdel in E as [Hne E]. rewrite lookup_delete_ne in En by done.
    destruct (Hk _ _ _ Hne E En) as (_ & _ & H3 & H4). rewrite list_lookup_delete.
    destruct (decide (j < i)%nat), (decide (S j < i)%nat); try lia.
    + destruct (H3 ltac:(lia)) as (z0 & E0 & ->). by eapply (lk_prev _ _ HL).
    + rewrite <- H4 by lia. f_equal. lia.
    + destruct (H3 ltac:(lia)) as (z0 & E0 & ->). by eapply (lk_prev _ _ HL).
Qed.

Lemma insert_same_dom (m : gmap Z cachedNode) h n n' k : m !! h = Some n → is_Some (<[h := n']> m !! k) ↔ is_Some (m !! k).
Proof.
  intros E. destruct (decide (h = k)) as [<-|Hne]; [rewrite lookup_insert_eq, E; split; by eexists|by rewrite lookup_insert_ne].
Qed.

(** The next node of the list, or the root of the references. *)
Lemma linked_next db L i h n :
  linked db L → L !! i = Some h → dirties db !! h = Some n → ∃ x, dirties db !! cn_flushNext n = Some x.
Proof.
  intros HL Ei En. rewrite (lk_next _ _ HL _ _ _ Ei En). destruct (L !! S i) as [k|] eqn:E; cbn.
  - by destruct (linked_at _ _ _ _ HL E) as [_ ?].
  - apply (lk_dom _ _ HL). by left.
Qed.

Lemma unlink_oldest db L h n :
  linked db L → L !! 0%nat = Some h → dirties db !! h = Some n →
  ∃ db1, unlink h n db = Ret db1 ∧ unlinked db db1 ∧ linked (set_dirties (delete h (dirties db1)) db1) (delete 0%nat L).
Proof.
  intros HL E0 En. destruct (linked_next _ _ _ _ _ HL E0 En) as [x Ex]. unfold unlink.
  rewrite (lk_oldest _ _ HL), E0. cbn [default from_option id]. rewrite Z.eqb_refl.
  rewrite (update_dirty_spec _ _ _ x) by exact Ex. eexists. split; [done|].
  split; [split_and!; try done; by apply same_nodes|].
  apply (linked_delete db L 0 h); [done..|intros k; by eapply insert_same_dom| | |].
  - rewrite list_lookup_delete_ge by lia. by eapply (lk_next _ _ HL).
  - intros Hne. assert (length (delete 0%nat L) = (length L - 1)%nat) as Hl by (by rewrite length_delete by by eexists).
    assert (length (delete 0%nat L) ≠ 0)%nat by (by destruct (delete 0%nat L)). rewrite list_lookup_delete_ge by lia.
    replace (S (length (delete 0%nat L) - 1)) with (length L - 1)%nat by lia. apply (lk_newest _ _ HL). by intros ->.
  - intros j k n' Hne Ej En'. destruct (lookup_updated _ _ _ _ _ _ Ex En') as [[-> ->]|[Hkx Hk]].
    + split_and!; [eauto|lia| |lia]. intros Hj. rewrite (lk_next _ _ HL _ _ _ E0 En) in Ej.
      destruct (L !! 1%nat) as [y|] eqn:E1; cbn in Ej.
      * pose proof (linked_inj _ _ _ _ _ HL Ej E1). lia.
      * by destruct (linked_at _ _ _ _ HL Ej).
    + split_and!; [eauto|lia|eauto|lia].
Qed.

Lemma newest_last db L i h : linked db L → L !! i = Some h → h = newest db ↔ i = (length L - 1)%nat.
Proof.
  intros HL Ei. assert (L ≠ []) as Hne by by intros ->. pose proof (lk_newest _ _ HL Hne) as Hl. split.
  - intros ->. by eapply linked_inj.
  - intros ->. congruence.
Qed.

Lemma unlink_newest db L i h n :
  linked db L → L !! S i = Some h → h = newest db → dirties db !! h = Some n →
  ∃ db1, unlink h n db = Ret db1 ∧ unlinked db db1 ∧ linked (set_dirties (delete h (dirties db1)) db1) (delete (S i) L).
Proof.
  intros HL Ei Enw En. pose proof (lk_prev _ _ HL _ _ _ Ei En) as Ep. destruct (linked_at _ _ _ _ HL Ep) as [_ [p Hp]].
  apply lookup_lt_Some in Ei as Hlt. pose proof (proj1 (newest_last _ _ _ _ HL Ei) Enw) as Hi.
  assert (h ≠ oldest db) as Hold.
  { intros ->. rewrite (lk_oldest _ _ HL) in Ei. destruct (L !! 0%nat) as [y|] eqn:E0; cbn in Ei.
    - pose proof (linked_inj _ _ _ _ _ HL E0 Ei). lia.
    - by destruct (linked_at _ _ _ _ HL Ei). }
  unfold unlink. destruct (Z.eqb_spec h (oldest db)); [done|]. destruct (Z.eqb_spec h (newest db)); [|done].
  rewrite (update_dirty_spec _ _ _ p) by exact Hp. eexists. split; [done|].
  split; [split_and!; try done; by apply same_nodes|].
  apply (linked_delete db L (S i) h); [done..|intros k; by eapply insert_same_dom| | |].
  - rewrite list_lookup_delete_lt by lia. apply (lk_oldest _ _ HL).
  - intros _. rewrite length_delete by by eexists. rewrite list_lookup_delete_lt by lia.
    by replace (length L - 1 - 1)%nat with i by lia.
  - intros j k n' Hne Ej En'. assert (L !! S (S i) = None) as Hnone by (apply lookup_ge_None_2; lia).
    destruct (lookup_updated _ _ _ _ _ _ Hp En') as [[-> ->]|[Hkp Hk]].
    + pose proof (linked_inj _ _ _ _ _ HL Ej Ep) as ->. split_and!; [lia|by rewrite Hnone|eauto|lia].
    + split_and!; [eauto| |eauto|intros ->; congruence]. intros [= ->]. congruence.
Qed.

Lemma unlink_middle db L i h n :
  linked db L → L !! S i = Some h → h ≠ newest db → dirties db !! h = Some n →
  ∃ db1, unlink h n db = Ret db1 ∧ unlinked db db1 ∧ linked (set_dirties (delete h (dirties db1)) db1) (delete (S i) L).
Proof.
  intros HL Ei Enw En. pose proof (lk_prev _ _ HL _ _ _ Ei En) as Ep. destruct (linked_at _ _ _ _ HL Ep) as [_ [p Hp]].
  apply lookup_lt_Some in Ei as Hlt. assert (S i ≠ length L - 1)%nat as Hi by (by intros E; apply Enw, (newest_last _ _ _ _ HL Ei)).
  destruct (lookup_lt_is_Some_2 L (S (S i))) as [y Ey]; [lia|]. pose proof (lk_next _ _ HL _ _ _ Ei En) as Ex. rewrite Ey in Ex. cbn in Ex.
  rewrite <- Ex in Ey. clear y Ex. destruct (linked_at _ _ _ _ HL Ey) as [_ [x Hx]].
  assert (cn_flushPrev n ≠ cn_flushNext n) as Hpx by (intros E; rewrite E in Ep; pose proof (linked_inj _ _ _ _ _ HL Ep Ey); lia).
  assert (h ≠ oldest db) as Hold.
  { intros ->. rewrite (lk_oldest _ _ HL) in Ei. destruct (L !! 0%nat) as [z|] eqn:E0; cbn in Ei.
    - pose proof (linked_inj _ _ _ _ _ HL E0 Ei). lia.
    - by destruct (linked_at _ _ _ _ HL Ei). }
  unfold unlink. destruct (Z.eqb_spec h (oldest db)); [done|]. destruct (Z.eqb_spec h (newest db)); [done|].
  rewrite (update_dirty_spec _ _ _ p) by exact Hp. cbn [obind].
  set (m1 := <[cn_flushPrev n := set_next (cn_flushNext n) p]> (dirties db)).
  assert (m1 !! cn_flushNext n = Some x) as Hx1 by (subst m1; by rewrite lookup_insert_ne).
  rewrite (update_dirty_spec _ _ _ x) by exact Hx1. eexists. split; [done|].
  split.
  { split_and!; try done. intros k. cbn. rewrite (same_nodes m1 _ x (set_prev (cn_flushPrev n))) by done. by apply same_nodes. }
  apply (linked_delete db L (S i) h); [done..|intros k; cbn; rewrite (insert_same_dom m1 _ x) by done; by eapply insert_same_dom| | |].
  - rewrite list_lookup_delete_lt by lia. apply (lk_oldest _ _ HL).
  - intros _. rewrite length_delete by by eexists. rewrite list_lookup_delete_ge by lia.
    replace (S (length L - 1 - 1)) with (length L - 1)%nat by lia. apply (lk_newest _ _ HL). by intros ->.
  - intros j k n' Hne Ej En'. cbn in En'. destruct (lookup_updated m1 _ x _ _ _ Hx1 En') as [[-> ->]|[Hkx Hk]].
    + pose proof (linked_inj _ _ _ _ _ HL Ej Ey) as ->. split_and!; [eauto|lia|lia|]. intros _ _. by rewrite Nat.sub_succ, Nat.sub_0_r.
    + destruct (lookup_updated _ _ _ _ _ _ Hp Hk) as [[-> ->]|[Hkp Hk']].
      * pose proof (linked_inj _ _ _ _ _ HL Ej Ep) as ->. split_and!; [lia|by rewrite Ey|eauto|lia].
      * split_and!; [eauto|intros [= ->]; congruence|eauto|intros ->; congruence].
Qed.

Lemma unlink_spec db L h n :
  linked db L → h ≠ 0 → dirties db !! h = Some n →
  ∃ db1 L', unlink h n db = Ret db1 ∧ unlinked db db1 ∧ linked (set_dirties (delete h (dirties db1)) db1) L'.
Proof.
  intros HL Hh En. assert (h ∈ L) as (i & Ei)%list_elem_of_lookup.
  { destruct (proj1 (lk_dom _ _ HL h)) as [?|?]; [by eexists|done|done]. }
  destruct i as [|i]; [destruct (unlink_oldest _ _ _ _ HL Ei En) as (db1 & H); eauto|].
  destruct (decide (h = newest db)) as [Hn|Hn].
  - destruct (unlink_newest _ _ _ _ _ HL Ei Hn En) as (db1 & H). eauto.
  - destruct (unlink_middle _ _ _ _ _ HL Ei Hn En) as (db1 & H). eauto.
Qed.

End Database.
