(* ===== verification/TrieFlush.v ===== *)
(** * Moving nodes to the disk changes no read (trie/database.go)

    What the database has for a hash is the same before and after nodes are
    moved from memory to the disk and the clean cache: the blob that is written
    decodes to what the raw node expands to. *)
From S2P Require Import Prelude Common RlpEncode TrieEncoding Trie TrieMap TrieSpec TrieHash TrieNode TrieDB.
Import Enc Raw.

(** ** Blobs *)

Lemma raw_ok_val n : raw_ok n → val_ok (raw_val n) = true ∧ nonneg (raw_val n) = true.
Proof.
  assert (∀ c, raw_ref c → (raw_inner c = true → val_ok (raw_val c) = true ∧ nonneg (raw_val c) = true) → c ≠ rawNil →
    val_ok (raw_val c) = true ∧ nonneg (raw_val c) = true) as Href.
  { intros c Hr Hi Hn. destruct c as [|v|h| |]; try done; [|by apply Hi|by apply Hi]. destruct Hr as [_ Hw]. cbn. by rewrite bool_decide_true. }
  assert (∀ k ck, term k ∨ nibbles k → compact k ck → bool_decide (wf_bytes ck) = true) as Hck.
  { intros k ck Hk Hc. apply bool_decide_eq_true. by destruct (compact_key k ck Hk Hc). }
  induction 1 as [k ck v Hk Hc Hv|k ck c Hk Hc Hr Hne Hi IH|cs Hl Hr Hi IH Hs].
  - cbn. rewrite (Hck k ck) by auto. by rewrite bool_decide_true.
  - destruct (Href c Hr IH Hne) as [H1 H2]. cbn. rewrite (Hck k ck), H1, H2 by auto. done.
  - cbn [raw_val val_ok nonneg].
    assert (Forall (λ c, val_ok (match c with rawNil => VBytes [] | _ => raw_val c end) = true ∧
      nonneg (match c with rawNil => VBytes [] | _ => raw_val c end) = true) cs) as HF.
    { apply Forall_lookup. intros i c E. apply lookup_lt_Some in E as Hlt. destruct (decide (i = 16%nat)) as [->|Hi16].
      - specialize (Hs c E). destruct c as [|v| | |]; try done. destruct Hs as [_ Hw]. cbn. by rewrite bool_decide_true.
      - assert (i < 16)%nat as Hlt16 by lia. pose proof (Href c (Hr i c Hlt16 E) (IH i c Hlt16 E)) as H.
        destruct c; try done; by apply H. }
    split; apply forallb_forall; intros x (c & <- & Hin)%in_map_iff; apply list_elem_of_In in Hin;
      eapply Forall_forall in HF as [H1 H2]; done.
Qed.

(** A raw node that can be written. *)
Definition entry_ok (n : raw) : Prop := raw_ok n ∧ zlen (blob n) + 9 < 2 ^ 64.

Lemma rlp_blob c : entry_ok (cn_node c) → cn_rlp c = Ret (blob (cn_node c)).
Proof.
  intros [Hr Hz]. destruct (raw_ok_val _ Hr) as [H1 H2]. unfold cn_rlp. rewrite EncodeToBytes_enc; [done|done|done|]. unfold blob in Hz. lia.
Qed.
Lemma obj_decodes h c :
  entry_ok (cn_node c) → cn_obj h c = mustDecodeNode (Some (Bytes.Hash_Bytes h)) (blob (cn_node c)).
Proof.
  intros [Hr Hz]. destruct (raw_ok_alike _ Hr (length (blob (cn_node c))) (Some (Bytes.Hash_Bytes h)) []) as (m & E & D).
  { done. } { change (zlen []) with 0. lia. }
  rewrite app_nil_r in D. unfold cn_obj, mustDecodeNode, decodeNode. by rewrite E, D.
Qed.

#[local] Opaque Bytes.Hash_Bytes.

Section Flush.
Context `{C : CleanCache} `{K : KeyValueStore} {CO : CleanCacheOk C} {KO : KeyValueStoreOk K}.

(** ** What the database has *)

Definition valid (h : Z) : Prop := 0 < h < 2 ^ 256.

(** The blob for a hash. *)
Definition content (h : Z) (db : Database) : option bytes :=
  match dirties db !! h with
  | Some c => Some (blob (cn_node c))
  | None => kv_Get (diskdb db) (Bytes.Hash_Bytes h)
  end.
(** What [node] gives for it. *)
Definition reads (h : Z) (db : Database) : outcome (option node) :=
  do! (n, _) <- db_node h db; Ret n.

Record db_ok (db : Database) : Prop := {
  ok_list : ∃ L, linked db L;
  ok_entries : ∀ h c, dirties db !! h = Some c → h ≠ 0 → valid h ∧ entry_ok (cn_node c) ∧ 0 ∉ forChilds c;
  ok_cleans : ∀ h enc, valid h → from_cleans h db = Some enc → content h db = Some enc }.

Lemma reads_content db h :
  db_ok db → valid h →
  reads h db = match content h db with
               | None => Ret None
               | Some b => do! n <- mustDecodeNode (Some (Bytes.Hash_Bytes h)) b; Ret (Some n)
               end.
Proof.
  intros Ho Hh. unfold reads, db_node. destruct (from_cleans h db) as [enc|] eqn:Ec.
  - rewrite (ok_cleans _ Ho h enc Hh Ec). by destruct (mustDecodeNode _ _).
  - unfold content. destruct (dirties db !! h) as [c|] eqn:Ed.
    + rewrite obj_decodes; [by destruct (mustDecodeNode _ _)|]. eapply (ok_entries _ Ho); [done|]. unfold valid in Hh. lia.
    + destruct (kv_Get _ _) as [enc|]; [|done]. by destruct (mustDecodeNode _ _).
Qed.

(** Same content, and no node that was not there. *)
Record step (db db' : Database) : Prop := {
  st_ok : db_ok db';
  st_content : ∀ h, valid h → content h db' = content h db;
  st_preimages : preimages db' = preimages db;
  st_dirties : ∀ h c, dirties db' !! h = Some c → ∃ c0, dirties db !! h = Some c0 ∧ essence c = essence c0;
  st_disk : ∀ h b, valid h → kv_Get (diskdb db) (Bytes.Hash_Bytes h) = Some b → content h db = Some b →
    kv_Get (diskdb db') (Bytes.Hash_Bytes h) = Some b }.

Lemma step_refl db : db_ok db → step db db.
Proof. intros H. split; try done. eauto. Qed.
Lemma step_trans db1 db2 db3 : step db1 db2 → step db2 db3 → step db1 db3.
Proof.
  intros [O1 C1 P1 D1 K1] [O2 C2 P2 D2 K2]. split; [done| |congruence| |].
  - intros h Hh. by rewrite C2, C1.
  - intros h c E. apply D2 in E as (c1 & E & Q1). apply D1 in E as (c0 & E & Q0). exists c0. split; [done|congruence].
  - intros h b Hh Ed Ec. apply K2; [done|by apply K1|by rewrite C1].
Qed.

(** ** Batches *)

Definition batch_ok (db : Database) (b : batch) : Prop :=
  ∀ k v, (k, v) ∈ b → ∃ h, k = Bytes.Hash_Bytes h ∧ valid h ∧ content h db = Some v.

Lemma valid_hash_inj h1 h2 : valid h1 → valid h2 → Bytes.Hash_Bytes h1 = Bytes.Hash_Bytes h2 → h1 = h2.
Proof. intros H1 H2. apply Bytes.Hash_Bytes_inj; unfold valid in *; lia. Qed.

Lemma batch_get_in (b : batch) k v : batch_get b k = Some v → (k, v) ∈ b.
Proof.
  unfold batch_get. intros ([k' v'] & H & ->)%fmap_Some. apply last_Some_elem_of in H.
  apply list_elem_of_filter in H as [E H]. cbn in E. by subst k'.
Qed.
Lemma batch_get_some (b : batch) k v : (k, v) ∈ b → ∃ v', batch_get b k = Some v'.
Proof.
  intros H. unfold batch_get. destruct (last _) as [[k' v']|] eqn:E; [by eexists|]. apply last_None in E.
  assert ((k, v) ∈ @nil (list Z * list Z)) as Hin by (rewrite <- E; by apply list_elem_of_filter).
  by apply not_elem_of_nil in Hin.
Qed.
Lemma batch_ok_step db db' b : step db db' → batch_ok db b → batch_ok db' b.
Proof. intros S H k v Hin. destruct (H k v Hin) as (h & -> & Hh & Ec). exists h. by rewrite (st_content _ _ S). Qed.

(** A batch may hold preimages too; their keys are longer. *)
Definition batch_fine (db : Database) (b : batch) : Prop :=
  ∀ k v, (k, v) ∈ b → (∃ h, k = Bytes.Hash_Bytes h ∧ valid h ∧ content h db = Some v) ∨ length k ≠ 32%nat.

Lemma batch_fine_at db b h v :
  batch_fine db b → valid h → (Bytes.Hash_Bytes h, v) ∈ b → content h db = Some v.
Proof.
  intros Hb Hh Hin. destruct (Hb _ _ Hin) as [(h' & E & Hh' & Ec)|Hl].
  - by apply valid_hash_inj in E as <-.
  - by rewrite Bytes.length_Hash_Bytes in Hl.
Qed.
Lemma batch_ok_fine db b : batch_ok db b → batch_fine db b.
Proof. intros H k v Hin. left. by apply H. Qed.
Lemma batch_fine_step db db' b : step db db' → batch_fine db b → batch_fine db' b.
Proof.
  intros S H k v Hin. destruct (H k v Hin) as [(h & -> & Hh & Ec)|Hl]; [left|by right]. exists h. by rewrite (st_content _ _ S).
Qed.

(** Writing a batch: the disk has its nodes, and nothing else changes. *)
Lemma write_fine db b d :
  db_ok db → batch_fine db b → kv_Write b (diskdb db) = Ok d →
  step db (set_disk d db) ∧ ∀ h v, valid h → (Bytes.Hash_Bytes h, v) ∈ b → kv_Get d (Bytes.Hash_Bytes h) = Some v.
Proof.
  intros Ho Hb Hw. assert (∀ h, valid h → content h (set_disk d db) = content h db) as Hc.
  { intros h Hh. unfold content, set_disk. cbn [diskdb dirties]. destruct (dirties db !! h) as [c|] eqn:Ed; [done|].
    rewrite (kv_Get_Write _ _ _ (Bytes.Hash_Bytes h) Hw). destruct (batch_get b _) as [v|] eqn:Eb; [|done].
    apply batch_get_in in Eb. apply (batch_fine_at db) in Eb; [|done..]. unfold content in Eb. by rewrite Ed in Eb. }
  split.
  - split; [|done|done|by eauto|].
    + destruct Ho as [[L HL] He Hcl]. split; [by exists L; destruct HL|done|].
      intros h enc Hh Ef. rewrite Hc by done. by apply Hcl.
    + intros h v Hh Ed Ec. unfold set_disk. cbn [diskdb]. rewrite (kv_Get_Write _ _ _ _ Hw).
      destruct (batch_get b _) as [v'|] eqn:Eb; [|done]. apply batch_get_in in Eb. apply (batch_fine_at db) in Eb; [|done..]. congruence.
  - intros h v Hh Hin. rewrite (kv_Get_Write _ _ _ _ Hw). destruct (batch_get_some b _ v Hin) as [v' Ev]. rewrite Ev.
    apply batch_get_in in Ev. apply (batch_fine_at db) in Ev, Hin; [|done..]. congruence.
Qed.

Lemma write_step db b d :
  db_ok db → batch_ok db b → kv_Write b (diskdb db) = Ok d →
  step db (set_disk d db) ∧ ∀ k v, (k, v) ∈ b → kv_Get d k = Some v.
Proof.
  intros Ho Hb Hw. destruct (write_fine db b d Ho (batch_ok_fine _ _ Hb) Hw) as [S H]. split; [done|].
  intros k v Hin. destruct (Hb k v Hin) as (h & -> & Hh & _). by apply H.
Qed.

(** The fields that the list and the content do not depend on. *)
Lemma linked_sizes d c db L : linked db L → linked (add_sizes d c db) L.
Proof. by intros []; split. Qed.
Lemma linked_remember h v db L : linked db L → linked (remember h v db) L.
Proof. intros H. unfold remember. destruct (cleans db); [|done]. by destruct H; split. Qed.

(** One written node leaves memory. *)
Lemma Put_step db h v :
  db_ok db → valid h → content h db = Some v → kv_Get (diskdb db) (Bytes.Hash_Bytes h) = Some v →
  ∃ db', cleaner_Put (Bytes.Hash_Bytes h) v db = Ret db' ∧ step db db' ∧ diskdb db' = diskdb db ∧
    ∀ k, dirties db' !! k = None ↔ dirties db !! k = None ∨ k = h.
Proof.
  intros Ho Hh Ec Ed. unfold cleaner_Put. rewrite Bytes.BytesToHash_Bytes by (unfold valid in Hh; lia).
  destruct (dirties db !! h) as [c|] eqn:En; [|exists db; split_and!; [done|by apply step_refl|done|naive_solver]].
  destruct Ho as [[L HL] He Hcl] eqn:Eho. destruct (unlink_spec db L h c HL) as (db1 & L' & -> & (U1 & U2 & U3 & U4) & HL').
  { unfold valid in Hh. lia. } { done. }
  cbn [obind]. set (db2 := set_dirties (delete h (dirties db1)) db1) in *.
  set (sz := - (32 + cn_size c) - match cn_children c with Some m => 48 + Z.of_nat (size m) * (32 + 2) | None => 0 end).
  assert (diskdb (remember h v (add_sizes sz 0 db2)) = diskdb db) as Hdisk by (unfold remember; cbn; by destruct (cleans db1)).
  assert (dirties (remember h v (add_sizes sz 0 db2)) = delete h (dirties db1)) as Hdir by (unfold remember; cbn; by destruct (cleans db1)).
  assert (preimages (remember h v (add_sizes sz 0 db2)) = preimages db) as Hpre by (unfold remember; cbn; by destruct (cleans db1)).
  assert (∀ k c', delete h (dirties db1) !! k = Some c' → k ≠ h ∧ ∃ c0, dirties db !! k = Some c0 ∧ essence c' = essence c0) as Hsub.
  { intros k c' (Hne & E)%lookup_delete_Some. split; [done|]. specialize (U4 k). rewrite E in U4. cbn in U4.
    destruct (dirties db !! k) as [c0|]; [|done]. injection U4 as U4 U5. exists c0. split; [done|]. unfold essence. congruence. }
  assert (∀ k, valid k → content k (remember h v (add_sizes sz 0 db2)) = content k db) as Hcont.
  { intros k Hk. unfold content. rewrite Hdir, Hdisk. destruct (decide (k = h)) as [->|Hne].
    - rewrite lookup_delete_eq, Ed. unfold content in Ec. by rewrite En in Ec |- *.
    - rewrite lookup_delete_ne by done. specialize (U4 k). destruct (dirties db1 !! k), (dirties db !! k); try done.
      injection U4 as U4 _. by rewrite U4. }
  exists (remember h v (add_sizes sz 0 db2)). split_and!; [done| |done|].
  2:{ intros k. rewrite Hdir, lookup_delete_None. specialize (U4 k). destruct (dirties db1 !! k), (dirties db !! k); naive_solver. }
  split; [|done|done| |by intros; rewrite Hdisk].
  - split; [exists L'; by apply linked_remember, linked_sizes| |].
    + intros k c' E Hk0. rewrite Hdir in E. apply Hsub in E as (Hne & c0 & E0 & Q). injection Q as Q1 Q2.
      destruct (He k c0 E0 Hk0) as (? & ? & Hf). unfold forChilds in *. by rewrite Q1, Q2.
    + intros k enc Hk Ef. rewrite Hcont by done. unfold from_cleans, remember in Ef. cbn in Ef.
      destruct (cleans db1) as [cl|] eqn:Ecl; cbn in Ef; [|by rewrite Ecl in Ef].
      apply cleans_Get_Set in Ef as [[E ->]|[_ Ef]].
      * apply valid_hash_inj in E as ->; done.
      * apply Hcl; [done|]. unfold from_cleans. by rewrite <- U2.
  - intros k c' E. rewrite Hdir in E. by apply Hsub in E as [_ ?].
Qed.

(** What left memory does not come back. *)
Lemma step_none db db' k : step db db' → dirties db !! k = None → dirties db' !! k = None.
Proof.
  intros S E. destruct (dirties db' !! k) as [c|] eqn:E'; [|done]. destruct (st_dirties _ _ S k c E') as (c0 & E0 & _). congruence.
Qed.

Lemma Replay_step b : ∀ db,
  db_ok db → batch_ok db b → (∀ k v, (k, v) ∈ b → kv_Get (diskdb db) k = Some v) →
  ∃ db', Replay b db = Ret db' ∧ step db db' ∧ diskdb db' = diskdb db ∧
    ∀ h, valid h → dirties db' !! h = None ↔ dirties db !! h = None ∨ ∃ v, (Bytes.Hash_Bytes h, v) ∈ b.
Proof.
  unfold Replay. induction b as [|[k v] b IH]; intros db Ho Hb Hd.
  { exists db. split_and!; [done|by apply step_refl|done|]. intros h _. split; [by left|].
    intros [?|[v ?%not_elem_of_nil]]; done. }
  destruct (Hb k v) as (h & -> & Hh & Ec); [by left|]. destruct (Put_step db h v) as (db1 & E & S1 & D1 & N1); [done..|apply Hd; by left|].
  cbn [foldl obind fst snd]. rewrite E. destruct (IH db1) as (db2 & F & S2 & D2 & N2).
  - apply S1.
  - eapply batch_ok_step; [done|]. intros k' v' Hin. apply Hb. by right.
  - intros k' v' Hin. rewrite D1. apply Hd. by right.
  - exists db2. split_and!; [done|by eapply step_trans|congruence|]. intros h' Hh'. rewrite N2, N1 by done.
    setoid_rewrite elem_of_cons. split; [naive_solver|]. intros [?|[v' [E'|?]]]; [by left; left| |right; eauto].
    apply pair_equal_spec in E' as [E' ->]. apply valid_hash_inj in E' as ->; [|done..]. left. by right.
Qed.

(** ** Committing a trie *)

(** A node on its way out: written, or waiting in the batch. *)
Definition processed (db : Database) (b : batch) (k : Z) : Prop :=
  dirties db !! k = None ∨ ∃ v, (Bytes.Hash_Bytes k, v) ∈ b.

Lemma write_replay db b d :
  db_ok db → batch_ok db b → kv_Write b (diskdb db) = Ok d →
  ∃ db', Replay b (set_disk d db) = Ret db' ∧ step db db' ∧ ∀ k, valid k → processed db' [] k ↔ processed db b k.
Proof.
  intros Ho Hb Hw. destruct (write_step db b d Ho Hb Hw) as [S1 Hd].
  destruct (Replay_step b (set_disk d db)) as (db' & E & S2 & _ & Hn); [apply S1|by eapply batch_ok_step|done|].
  exists db'. split; [done|]. split; [by eapply step_trans|]. intros k Hk. unfold processed. rewrite Hn by done. cbn [dirties set_disk].
  split; [|by left]. intros [?|[v ?%not_elem_of_nil]]; done.
Qed.

Lemma flush_full_spec db b :
  db_ok db → batch_ok db b →
  match flush_full db b with
  | COk db' b' => step db db' ∧ batch_ok db' b' ∧ ∀ k, valid k → processed db' b' k ↔ processed db b k
  | CErr _ db' => step db db'
  | CPanic | CFuel => False
  end.
Proof.
  intros Ho Hb. unfold flush_full. destruct (IdealBatchSize <=? ValueSize b); [|split_and!; [by apply step_refl|done|done]].
  destruct (kv_Write b (diskdb db)) as [d|e] eqn:Ew; [|by apply step_refl].
  destruct (write_replay db b d Ho Hb Ew) as (db' & -> & S & Hp). split_and!; [done|by intros k v ?%not_elem_of_nil|done].
Qed.

Section Commit.
(** The database before the commit, and the height of its nodes. *)
Context (db0 : Database) (rank : Z → nat).

Definition closed (db : Database) (b : batch) : Prop :=
  ∀ k c x, valid k → dirties db0 !! k = Some c → processed db b k → x ∈ forChilds c → is_Some (dirties db0 !! x) →
  processed db b x.
Definition ranked : Prop :=
  ∀ h c x, dirties db0 !! h = Some c → x ∈ forChilds c → is_Some (dirties db0 !! x) → (rank x < rank h)%nat.

Definition commit_ok (h : Z) (db : Database) (b : batch) (r : cres) : Prop :=
  match r with
  | COk db' b' =>
      step db db' ∧ batch_ok db' b' ∧ closed db' b' ∧ (∀ k, valid k → processed db b k → processed db' b' k) ∧
      (valid h → processed db' b' h)
  | CErr _ db' => step db db'
  | CPanic | CFuel => False
  end.

(** One after the other. *)
Lemma commit_children fuel l : ∀ db b,
  (∀ h db b, step db0 db → batch_ok db b → closed db b → h ∈ l → commit_ok h db b (commit fuel h db b)) →
  step db0 db → batch_ok db b → closed db b →
  match foldl (λ r h, match r with COk db b => commit fuel h db b | r => r end) (COk db b) l with
  | COk db' b' =>
      step db db' ∧ batch_ok db' b' ∧ closed db' b' ∧ (∀ k, valid k → processed db b k → processed db' b' k) ∧
      ∀ h, valid h → h ∈ l → processed db' b' h
  | CErr _ db' => step db db'
  | CPanic | CFuel => False
  end.
Proof.
  assert (∀ l r, (∀ db b, r ≠ COk db b) → foldl (λ r h, match r with COk db b => commit fuel h db b | r => r end) r l = r) as Hstop.
  { intros l0. induction l0 as [|h l0 IH]; intros r Hr; [done|]. cbn [foldl]. destruct r as [db b| | |]; [by destruct (Hr db b)|by apply IH..]. }
  induction l as [|h l IH]; intros db b H S Hb Hc; cbn [foldl].
  { split_and!; [apply step_refl, S|done|done|done|by intros h _ ?%not_elem_of_nil]. }
  pose proof (H h db b S Hb Hc (list_elem_of_here _ _)) as Hh. destruct (commit fuel h db b) as [db1 b1|e db1| |].
  - destruct Hh as (S1 & B1 & C1 & P1 & Q1). specialize (IH db1 b1).
    destruct (foldl _ (COk db1 b1) l) as [db2 b2|e db2| |]; try done.
    + destruct IH as (S2 & B2 & C2 & P2 & Q2); [intros; apply H; try done; by right|by eapply step_trans|done|done|].
      split_and!; [by eapply step_trans|done|done|auto|]. intros k Hk [->|Hin]%elem_of_cons; [apply P2; [done|by apply Q1]|by apply Q2].
    + eapply step_trans; [exact S1|]. apply IH; [intros; apply H; try done; by right|by eapply step_trans|done|done].
    + apply IH; [intros; apply H; try done; by right|by eapply step_trans|done|done].
    + apply IH; [intros; apply H; try done; by right|by eapply step_trans|done|done].
  - rewrite Hstop by done. done.
  - done.
  - done.
Qed.

Lemma essence_childs c c0 : essence c = essence c0 → forChilds c = forChilds c0 ∧ cn_node c = cn_node c0.
Proof. intros [= H1 H2]. unfold forChilds. by rewrite H1, H2. Qed.

Lemma commit_spec (Hrank : ranked) (H0 : db_ok db0) fuel : ∀ h db b,
  step db0 db → batch_ok db b → closed db b → h ≠ 0 → (is_Some (dirties db0 !! h) → rank h + 1 < fuel)%nat → (0 < fuel)%nat →
  commit_ok h db b (commit fuel h db b).
Proof.
  induction fuel as [|fuel IH]; intros h db b S Hb Hc Hh Hf Hpos; [lia|]. cbn [commit].
  destruct (dirties db !! h) as [c|] eqn:Ec.
  2:{ split_and!; [apply step_refl, S|done|done|done|]. intros _. by left. }
  destruct (st_dirties _ _ S h c Ec) as (c0 & Ec0 & Eq). destruct (essence_childs _ _ Eq) as [Ech Enode].
  destruct (ok_entries _ H0 h c0 Ec0 Hh) as (Hv & He & Hnz). rewrite <- Ech in Hnz. rewrite <- Enode in He.
  pose proof (Hf (ex_intro _ c0 Ec0)) as Hfh.
  assert (∀ x db' b', step db0 db' → batch_ok db' b' → closed db' b' → x ∈ forChilds c → commit_ok x db' b' (commit fuel x db' b')) as Hx.
  { intros x db' b' S' B' C' Hx. apply IH; [done..|by intros ->| |lia]. intros Hsome. rewrite Ech in Hx.
    pose proof (Hrank h c0 x Ec0 Hx Hsome). lia. }
  pose proof (commit_children fuel (forChilds c) db b Hx S Hb Hc) as Hkids.
  destruct (foldl _ (COk db b) (forChilds c)) as [db1 b1|e db1| |]; try done.
  destruct Hkids as (S1 & B1 & C1 & P1 & Q1). rewrite (rlp_blob c He).
  assert (content h db1 = Some (blob (cn_node c))) as Hcont.
  { rewrite (st_content _ _ S1 h Hv). unfold content. by rewrite Ec. }
  set (b2 := b1 ++ [(Bytes.Hash_Bytes h, blob (cn_node c))]).
  assert (batch_ok db1 b2) as B2.
  { intros k v [Hin|Hin]%elem_of_app; [by apply B1|]. apply list_elem_of_singleton in Hin.
    pose proof (f_equal fst Hin) as E1. pose proof (f_equal snd Hin) as E2. cbn [fst snd] in E1, E2. subst. eauto. }
  assert (∀ k, processed db1 b1 k → processed db1 b2 k) as Pm.
  { intros k [Hp|[v Hp]]; [by left|right]. exists v. apply elem_of_app. by left. }
  assert (processed db1 b2 h) as Ph by (right; eexists; apply elem_of_app; right; by apply list_elem_of_singleton).
  assert (∀ x, x ∈ forChilds c → is_Some (dirties db0 !! x) → processed db1 b1 x) as Hkid.
  { intros x Hin [cx Hsome]. apply Q1; [|done]. eapply (ok_entries _ H0 x cx); [done|]. by intros ->. }
  pose proof (flush_full_spec db1 b2 (st_ok _ _ S1) B2) as Hfl. destruct (flush_full db1 b2) as [db3 b3|e db3| |]; try done.
  2:{ by eapply step_trans. }
  destruct Hfl as (S3 & B3 & P3).
  split_and!; [by eapply step_trans|done| |intros k Hk Hp; by apply P3, Pm, P1|intros _; by apply P3].
  intros k ck x Hk Eck Hp Hin Hsome.
  assert (valid x) as Hvx.
  { destruct Hsome as [cx Ex]. eapply (ok_entries _ H0 x cx Ex). intros ->.
    eapply (ok_entries _ H0 k ck Eck); [unfold valid in Hk; lia|done]. }
  apply P3; [done|]. apply Pm. apply P3 in Hp; [|done]. destruct (decide (k = h)) as [->|Hne].
  - apply Hkid; [|done]. rewrite Ech. congruence.
  - eapply C1; [exact Hk|exact Eck| |done|done]. destruct Hp as [Hp|[v [Hp|Hp]%elem_of_app]]; [by left|right; eauto|].
    apply list_elem_of_singleton in Hp. apply pair_equal_spec in Hp as [Hp _]. apply valid_hash_inj in Hp; done.
Qed.
End Commit.

(** Preimages are kept apart from nodes. *)
Lemma preimages_fine db m : batch_fine db (WritePreimages m []).
Proof.
  intros k v Hin. right. unfold WritePreimages in Hin. cbn [app] in Hin. apply list_elem_of_In, in_map_iff in Hin as ([h p] & E & _).
  apply pair_equal_spec in E as [<- _]. unfold preimageKey. rewrite length_app, Bytes.length_Hash_Bytes. done.
Qed.
Lemma preimages_step db m d :
  db_ok db → kv_Write (WritePreimages m []) (diskdb db) = Ok d → step db (set_disk d db).
Proof.
  intros Ho Hw. by apply (write_fine _ _ _ Ho (preimages_fine db m) Hw).
Qed.

Lemma set_preimages_step db p n : db_ok db → db_ok (set_preimages p n db) ∧ ∀ h, content h (set_preimages p n db) = content h db.
Proof. intros [[L HL] He Hcl]. split; [|done]. split; [by exists L; destruct HL|done|done]. Qed.

(** Nodes below a node, in memory. *)
Inductive reach (db : Database) : Z → Z → Prop :=
| reach_here h c : dirties db !! h = Some c → reach db h h
| reach_below h c x k : dirties db !! h = Some c → x ∈ forChilds c → reach db x k → reach db h k.

Lemma reach_valid db h k : db_ok db → valid h → reach db h k → valid k.
Proof.
  intros Ho Hh Hr. induction Hr as [h c E|h c x k E Hx Hr IH]; [done|]. apply IH.
  assert (∃ cx, dirties db !! x = Some cx) as [cx Ex] by (inversion Hr; eauto). eapply (ok_entries _ Ho x cx Ex).
  intros ->. eapply (ok_entries _ Ho h c E); [unfold valid in Hh; lia|done].
Qed.

Lemma closed_reach db0 db h k :
  db_ok db0 → closed db0 db [] → valid h → processed db [] h → reach db0 h k → processed db [] k.
Proof.
  intros Ho Hc Hh Hp Hr. induction Hr as [h c E|h c x k E Hx Hr IH]; [done|].
  assert (∃ cx, dirties db0 !! x = Some cx) as [cx Ex] by (inversion Hr; eauto).
  assert (valid x) as Hvx by (eapply (ok_entries _ Ho x cx Ex); intros ->; eapply (ok_entries _ Ho h c E); [unfold valid in Hh; lia|done]).
  apply IH; [done|]. eapply Hc; [exact Hh|exact E|done|done|by eexists].
Qed.

(** What a flush promises. *)
Definition same_reads (db db' : Database) : Prop := db_ok db' ∧ ∀ h, valid h → reads h db' = reads h db.

Lemma step_reads db db' : db_ok db → step db db' → same_reads db db'.
Proof.
  intros Ho S. split; [apply S|]. intros h Hh. rewrite !reads_content by (done || apply S). by rewrite (st_content _ _ S).
Qed.
Lemma step_reads_preimages db db' p n : db_ok db → step db db' → same_reads db (set_preimages p n db').
Proof.
  intros Ho S. destruct (set_preimages_step db' p n (st_ok _ _ S)) as [O' C']. split; [done|].
  intros h Hh. rewrite !reads_content by done. by rewrite C', (st_content _ _ S).
Qed.

Lemma Commit_body fuel node db db1 rank :
  db_ok db → ranked db rank → valid node → (rank node + 1 < fuel)%nat → step db db1 →
  dirties db1 = dirties db →
  match commit fuel node db1 [] with
  | COk db2 b =>
      match kv_Write b (diskdb db2) with
      | Err _ => step db db2
      | Ok d => ∃ db3, Replay b (set_disk d db2) = Ret db3 ∧ step db db3 ∧ ∀ k, reach db node k → dirties db3 !! k = None
      end
  | CErr _ db2 => step db db2
  | CPanic | CFuel => False
  end.
Proof.
  intros Ho Hr Hv Hf S1 Hd. assert (batch_ok db1 []) as B1 by by intros k v ?%not_elem_of_nil.
  assert (closed db1 db1 []) as C1.
  { intros k c x Hk E [Hn|[v ?%not_elem_of_nil]]; [congruence|done]. }
  assert (ranked db1 rank) as Hr1 by (unfold ranked; by rewrite Hd).
  pose proof (commit_spec db1 rank Hr1 (st_ok _ _ S1) fuel node db1 [] (step_refl _ (st_ok _ _ S1)) B1 C1) as H.
  destruct (commit fuel node db1 []) as [db2 b|e db2| |].
  - destruct H as (S2 & B2 & C2 & _ & P2); [unfold valid in Hv; lia|done|lia|].
    destruct (kv_Write b (diskdb db2)) as [d|e] eqn:Ew; [|by eapply step_trans].
    destruct (write_replay db2 b d (st_ok _ _ S2) B2 Ew) as (db3 & E & S3 & P3). exists db3. split; [done|].
    assert (step db db3) as S13 by (eapply step_trans; [exact S1|by eapply step_trans]). split; [done|].
    intros k Hk. assert (processed db3 [] k) as [?|[v ?%not_elem_of_nil]]; [|done|done].
    assert (∀ h, reach db h k → reach db1 h k) as Hre by (clear -Hd; induction 1; [|]; econstructor; rewrite ?Hd; eauto).
    eapply (closed_reach db1 db3 node k (st_ok _ _ S1)); [|done| |by apply Hre].
    + intros y c x Hy Ec Hp Hx Hs. assert (valid x) as Hvx.
      { destruct Hs as [cx Ex]. eapply (ok_entries _ (st_ok _ _ S1) x cx Ex). intros ->.
        eapply (ok_entries _ (st_ok _ _ S1) y c Ec); [unfold valid in Hy; lia|done]. }
      apply P3; [done|]. eapply C2; [exact Hy|exact Ec|by apply P3|done|done].
    + apply P3; [done|]. by apply P2.
  - eapply step_trans; [exact S1|]. apply H; [unfold valid in Hv; lia|done|lia].
  - apply H; [unfold valid in Hv; lia|done|lia].
  - apply H; [unfold valid in Hv; lia|done|lia].
Qed.

(** What a commit does: a failed write leaves every read as it was; a successful
    commit too, and the whole trie has left memory for the disk. *)
Definition commit_result (db : Database) (node : Z) (r : cres) : Prop :=
  match r with
  | COk db' _ => same_reads db db' ∧
      ∀ h, reach db node h → dirties db' !! h = None ∧ kv_Get (diskdb db') (Bytes.Hash_Bytes h) = content h db
  | CErr _ db' => same_reads db db'
  | CPanic | CFuel => False
  end.

Lemma Commit_spec fuel node db rank :
  db_ok db → ranked db rank → valid node → (rank node + 1 < fuel)%nat → commit_result db node (Commit fuel node db).
Proof.
  intros Ho Hr Hv Hf. unfold Commit.
  assert (∀ db1, step db db1 → dirties db1 = dirties db → commit_result db node
    match commit fuel node db1 [] with
    | COk db2 b =>
        match kv_Write b (diskdb db2) with
        | Err e => CErr e db2
        | Ok d => match Replay b (set_disk d db2) with
                  | Ret db3 => COk (match preimages db3 with Some _ => set_preimages (Some ∅) 0 db3 | None => db3 end) []
                  | Panic => CPanic end
        end
    | r => r
    end) as Hgo.
  { intros db1 S1 Hd. pose proof (Commit_body fuel node db db1 rank Ho Hr Hv Hf S1 Hd) as H.
    destruct (commit fuel node db1 []) as [db2 b|e db2| |]; try done; [|by apply step_reads].
    destruct (kv_Write b (diskdb db2)) as [d|e]; [|by apply step_reads]. destruct H as (db3 & -> & S3 & Hgone).
    assert (∀ h, reach db node h → kv_Get (diskdb db3) (Bytes.Hash_Bytes h) = content h db) as Hdisk.
    { intros h Hh. rewrite <- (st_content _ _ S3 h) by by eapply reach_valid. unfold content. by rewrite (Hgone h Hh). }
    destruct (preimages db3) as [p|]; cbn [commit_result]; split; [by apply step_reads_preimages|by auto|by apply step_reads|by auto]. }
  destruct (preimages db) as [m|]; [|apply Hgo; [by apply step_refl|done]].
  destruct (kv_Write (WritePreimages m []) (diskdb db)) as [d|e] eqn:Ew; [|apply step_reads; [done|by apply step_refl]].
  apply Hgo; [by eapply preimages_step|done].
Qed.

(** ** Capping the memory *)

(** A node that is in the batch or on the disk. *)
Definition saved (db : Database) (b : batch) (h : Z) : Prop :=
  ∃ v, content h db = Some v ∧ ((Bytes.Hash_Bytes h, v) ∈ b ∨ kv_Get (diskdb db) (Bytes.Hash_Bytes h) = Some v).

Lemma write_saved db b d h :
  db_ok db → batch_fine db b → kv_Write b (diskdb db) = Ok d → valid h → saved db b h → saved (set_disk d db) [] h.
Proof.
  intros Ho Hb Hw Hh (v & Ec & Hs). destruct (write_fine db b d Ho Hb Hw) as [S Hd]. exists v.
  rewrite (st_content _ _ S h Hh). split; [done|right]. destruct Hs as [Hin|Hdisk]; [by apply Hd|]. by apply (st_disk _ _ S).
Qed.

Lemma linked_valid db L i h : db_ok db → linked db L → L !! i = Some h → valid h ∧ ∃ c, dirties db !! h = Some c ∧ entry_ok (cn_node c).
Proof.
  intros Ho HL Ei. destruct (linked_at _ _ _ _ HL Ei) as [Hh [c Ec]]. destruct (ok_entries _ Ho h c Ec Hh) as (Hv & He & _). eauto.
Qed.
Lemma linked_disk d db L : linked db L → linked (set_disk d db) L.
Proof. by intros []; split. Qed.

Definition written (db : Database) (L : list Z) (r : cres * Z) : Prop :=
  match r with
  | (COk db' b', until) =>
      step db db' ∧ batch_fine db' b' ∧ dirties db' = dirties db ∧ linked db' L ∧ preimages db' = preimages db ∧
      ∃ j, (j ≤ length L)%nat ∧ until = default 0 (L !! j) ∧ ∀ i h, (i < j)%nat → L !! i = Some h → saved db' b' h
  | (CErr _ db', _) => step db db'
  | _ => False
  end.

Lemma cap_write_spec L limit : ∀ fuel i sz db b,
  db_ok db → linked db L → batch_fine db b → (i ≤ length L)%nat → (length L - i ≤ fuel)%nat →
  (∀ i' h, (i' < i)%nat → L !! i' = Some h → saved db b h) →
  written db L (cap_write fuel limit sz (default 0 (L !! i)) db b).
Proof.
  intros fuel. induction fuel as [|fuel IH]; intros i sz db b Ho HL Hb Hi Hf Hs.
  - assert (L !! i = None) as E by (apply lookup_ge_None_2; lia). rewrite E. cbn [default from_option cap_write id].
    rewrite andb_false_r. split_and!; [by apply step_refl|done..|]. exists i. rewrite E. done.
  - cbn [cap_write]. destruct (limit <? sz); cbn [andb];
      [|split_and!; [by apply step_refl|done..|]; by exists i].
    destruct (L !! i) as [h|] eqn:Ei; cbn [default from_option id];
      [|split_and!; [by apply step_refl|done..|]; exists i; by rewrite Ei].
    destruct (linked_valid _ _ _ _ Ho HL Ei) as (Hv & c & Ec & He). destruct (linked_at _ _ _ _ HL Ei) as [Hh _].
    destruct (Z.eqb_spec h 0); [done|]. cbn [negb]. rewrite Ec, (rlp_blob c He). set (b' := b ++ _).
    assert (content h db = Some (blob (cn_node c))) as Hcont by (unfold content; by rewrite Ec).
    assert (batch_fine db b') as Hb'.
    { intros k v [Hin|Hin]%elem_of_app; [by apply Hb|]. apply list_elem_of_singleton, pair_equal_spec in Hin as [-> ->]. left. eauto. }
    assert (∀ i' h', (i' < S i)%nat → L !! i' = Some h' → saved db b' h') as Hs'.
    { intros i' h' Hlt E'. destruct (decide (i' = i)) as [->|Hne].
      - rewrite Ei in E'. injection E' as <-. eexists. split; [done|left]. apply elem_of_app. right. by apply list_elem_of_singleton.
      - destruct (Hs i' h') as (v & Hv' & [Hin|Hd]); [lia|done| |]; exists v; (split; [done|]); [left; apply elem_of_app; by left|by right]. }
    apply lookup_lt_Some in Ei as Hlt. rewrite (lk_next _ _ HL _ _ _ Ei Ec). destruct (IdealBatchSize <=? ValueSize b').
    + destruct (kv_Write b' (diskdb db)) as [d|e] eqn:Ew; [|by apply step_refl].
      destruct (write_fine db b' d Ho Hb' Ew) as [S _].
      match goal with |- written db L (cap_write fuel limit ?s _ _ _) => pose proof (IH (Datatypes.S i) s (set_disk d db) []) as H end.
      destruct (cap_write _ _ _ _ _ _) as [[db2 b2|e db2| |] until]; try (apply H; [apply S|by apply linked_disk|by intros k v ?%not_elem_of_nil|lia|lia|];
        intros i' h' Hlt' E'; eapply write_saved; [done..| |by eapply Hs']; by eapply linked_valid).
      * destruct H as (S2 & B2 & D2 & L2 & P2 & H); [apply S|by apply linked_disk|by intros k v ?%not_elem_of_nil|lia|lia| |].
        { intros i' h' Hlt' E'. eapply write_saved; [done..| |by eapply Hs']. by eapply linked_valid. }
        split_and!; [by eapply step_trans|done..].
      * eapply step_trans; [exact S|]. apply H; [apply S|by apply linked_disk|by intros k v ?%not_elem_of_nil|lia|lia|].
        intros i' h' Hlt' E'. eapply write_saved; [done..| |by eapply Hs']. by eapply linked_valid.
    + apply IH; [done..|lia|lia|done].
Qed.

(** The oldest node leaves memory; it is on the disk. *)
Lemma drop_oldest db L h c d e :
  db_ok db → linked db (h :: L) → dirties db !! h = Some c → saved db [] h →
  let db' := add_sizes d e (set_oldest (cn_flushNext c) (set_dirties (delete h (dirties db)) db)) in
  step db db' ∧ linked db' L.
Proof.
  intros Ho HL Ec (v & Hcont & Hs) db'. destruct Hs as [?%not_elem_of_nil|Hdisk]; [done|].
  destruct (linked_valid _ _ 0 _ Ho HL eq_refl) as (Hv & _).
  assert (linked db' L) as HL'.
  { apply (linked_sizes d e). apply (linked_delete db (h :: L) 0 h (dirties db)); try done.
    - by apply (lk_next _ _ HL 0 h c).
    - intros Hne. change (delete 0%nat (h :: L)) with L in *. pose proof (lk_newest _ _ HL) as Hn. destruct L as [|x L]; [done|].
      cbn [length] in *. specialize (Hn ltac:(done)). by rewrite Nat.sub_succ, Nat.sub_0_r in Hn |- *.
    - intros j k n' Hne Ej En'. split_and!; try done; eauto. intros _ Hlt. lia. }
  assert (∀ k, valid k → content k db' = content k db) as Hc.
  { intros k Hk. unfold content, db'. cbn [dirties diskdb add_sizes set_oldest set_dirties]. destruct (decide (k = h)) as [->|Hne].
    - rewrite lookup_delete_eq. etrans; [exact Hdisk|]. symmetry. exact Hcont.
    - by rewrite lookup_delete_ne. }
  split; [|done]. split; [|done|done| |by intros].
  - destruct Ho as [_ He Hcl]. split; [by exists L| |intros k enc Hk Ef; rewrite Hc by done; by apply Hcl].
    intros k c' E. apply He. cbn [dirties db' add_sizes set_oldest set_dirties] in E. by apply lookup_delete_Some in E as [_ E].
  - intros k c' E. cbn [dirties db' add_sizes set_oldest set_dirties] in E. apply lookup_delete_Some in E as [_ E]. eauto.
Qed.

Lemma saved_step db db' h : step db db' → valid h → saved db [] h → saved db' [] h.
Proof.
  intros S Hh (v & Ec & [?%not_elem_of_nil|Hd]); [done|]. exists v. rewrite (st_content _ _ S h Hh). split; [done|right]. by apply (st_disk _ _ S).
Qed.

Lemma cap_drop_spec : ∀ j fuel L db,
  db_ok db → linked db L → (j ≤ length L)%nat → (j ≤ fuel)%nat →
  (∀ i h, (i < j)%nat → L !! i = Some h → saved db [] h) →
  ∃ db', cap_drop fuel (default 0 (L !! j)) db = TOk db' ∧ step db db' ∧ linked db' (drop j L).
Proof.
  induction j as [|j IH]; intros fuel L db Ho HL Hj Hf Hs.
  - exists db. split; [|split; [by apply step_refl|done]]. destruct fuel; cbn [cap_drop]; by rewrite (lk_oldest _ _ HL), Z.eqb_refl.
  - destruct L as [|h L]; [cbn in Hj; lia|]. destruct fuel as [|fuel]; [lia|]. cbn [cap_drop].
    rewrite (lk_oldest _ _ HL). cbn [lookup list_lookup default from_option id].
    destruct (linked_at _ _ 0 _ HL eq_refl) as [Hh [c Ec]].
    destruct (Z.eqb_spec h (default 0 (L !! j))) as [E|E].
    { exfalso. destruct (L !! j) as [k|] eqn:Ek; cbn in E; [|done]. subst k.
      by pose proof (linked_inj _ _ 0 (S j) h HL eq_refl Ek). }
    rewrite Ec. destruct (drop_oldest db L h c (- (32 + cn_size c)) (- children_size c) Ho HL Ec) as [S1 L1]; [by apply (Hs 0%nat); [lia|]|].
    cbn [length] in Hj.
    destruct (IH fuel L _ (st_ok _ _ S1) L1) as (db' & F & S2 & L2); [lia|lia| |].
    { intros i k Hi Ek. eapply saved_step; [exact S1| |by apply (Hs (S i)); [lia|]]. eapply (linked_valid db (h :: L) (S i)); done. }
    exists db'. split; [|split; [by eapply step_trans|done]].
    destruct (_ =? _) eqn:E2; [by apply Z.eqb_eq in E2|exact F].
Qed.

Lemma set_prev_step db L h :
  db_ok db → linked db L → oldest db ≠ 0 → h = oldest db → ∃ db', update_dirty h (set_prev 0) db = Ret db' ∧ step db db'.
Proof.
  intros Ho HL Hne ->. rewrite (lk_oldest _ _ HL) in *. destruct L as [|h L]; [done|]. cbn [lookup list_lookup default from_option id] in *.
  destruct (linked_at _ _ 0 _ HL eq_refl) as [Hh [c Ec]]. rewrite (update_dirty_spec _ _ _ c Ec). eexists. split; [done|].
  set (m := <[h := set_prev 0 c]> (dirties db)). assert (∀ k, essence <$> m !! k = essence <$> dirties db !! k) as Hm by by apply same_nodes.
  assert (∀ k c', m !! k = Some c' → ∃ c0, dirties db !! k = Some c0 ∧ essence c' = essence c0) as Hsub.
  { intros k c' E. specialize (Hm k). rewrite E in Hm. cbn [fmap option_fmap option_map] in Hm.
    destruct (dirties db !! k) as [c0|]; [|done]. exists c0. split; [done|]. by apply (inj Some) in Hm. }
  assert (∀ k, valid k → content k (set_dirties m db) = content k db) as Hc.
  { intros k _. unfold content, set_dirties. cbn [dirties diskdb]. specialize (Hm k). destruct (m !! k), (dirties db !! k); try done.
    injection Hm as Hm _. by rewrite Hm. }
  split; [|done|done|done|done]. destruct Ho as [_ He Hcl]. split.
  - exists (h :: L). destruct HL as [N Z0 D O W X P]. split; try done.
    + intros k. unfold set_dirties. cbn [dirties]. rewrite <- (D k). by eapply insert_same_dom.
    + intros i k n Ei En. destruct (lookup_updated _ _ _ _ _ _ Ec En) as [[-> ->]|[_ E]]; [exact (X i h c Ei Ec)|by eapply X].
    + intros i k n Ei En. destruct (lookup_updated _ _ _ _ _ _ Ec En) as [[-> ->]|[_ E]]; [|by eapply P].
      by pose proof (NoDup_lookup _ 0 (S i) h N eq_refl Ei).
  - intros k c' E Hk. apply Hsub in E as (c0 & E & Q). destruct (essence_childs _ _ Q) as [-> ->]. by apply He.
  - intros k enc Hk Ef. rewrite Hc by done. by apply Hcl.
Qed.

Lemma linked_size db L : linked db L → (length L ≤ size (dirties db))%nat.
Proof.
  intros HL. rewrite <- length_map_to_list, <- (length_map fst). apply submseteq_length, NoDup_submseteq; [apply HL|].
  intros h Hin. apply list_elem_of_In, in_map_iff. destruct (proj2 (lk_dom _ _ HL h)) as [c Ec]; [by right|].
  exists (h, c). split; [done|]. by apply list_elem_of_In, elem_of_map_to_list.
Qed.

Lemma step_preimages_rest db p n : db_ok db → db_ok (set_preimages p n db) ∧
  (∀ L, linked db L → linked (set_preimages p n db) L) ∧ (∀ h b, saved db b h → saved (set_preimages p n db) b h).
Proof.
  intros Ho. split; [by apply set_preimages_step|]. split; [by intros L []; split|done].
Qed.

(** The second half of [Cap]. *)
Lemma cap_finish db L j :
  db_ok db → linked db L → (j ≤ length L)%nat → (∀ i h, (i < j)%nat → L !! i = Some h → saved db [] h) →
  ∃ db', match cap_drop (size (dirties db)) (default 0 (L !! j)) db with
         | TOk db => if oldest db =? 0 then COk db []
                     else match update_dirty (oldest db) (set_prev 0) db with Ret db => COk db [] | Panic => CPanic end
         | TFuel => CFuel
         | _ => CPanic
         end = COk db' [] ∧ step db db'.
Proof.
  intros Ho HL Hj Hs. pose proof (linked_size _ _ HL). destruct (cap_drop_spec j (size (dirties db)) L db) as (db1 & -> & S1 & L1); [done..|lia|done|].
  destruct (Z.eqb_spec (oldest db1) 0) as [E|E]; [by eauto|].
  destruct (set_prev_step db1 (drop j L) (oldest db1) (st_ok _ _ S1) L1 E eq_refl) as (db2 & -> & S2).
  exists db2. split; [done|by eapply step_trans].
Qed.

Definition flush_result (db : Database) (r : cres) : Prop :=
  match r with COk db' _ | CErr _ db' => same_reads db db' | CPanic | CFuel => False end.

Lemma same_reads_trans db1 db2 db3 : same_reads db1 db2 → same_reads db2 db3 → same_reads db1 db3.
Proof. intros [_ H1] [O2 H2]. split; [done|]. intros h Hh. by rewrite H2, H1. Qed.

Lemma cap_body db limit sz flush b0 :
  db_ok db → batch_fine db b0 → flush_result db (cap_flush limit sz flush db b0).
Proof.
  intros Ho Hb. unfold cap_flush. destruct (ok_list _ Ho) as [L HL]. pose proof (linked_size _ _ HL).
  pose proof (cap_write_spec L limit (size (dirties db)) 0 sz db b0 Ho HL Hb ltac:(lia) ltac:(lia)) as H1.
  rewrite <- (lk_oldest _ _ HL) in H1. specialize (H1 ltac:(lia)).
  destruct (cap_write _ _ _ _ _ _) as [[db1 b1|e db1| |] until]; try done; [|by apply step_reads].
  destruct H1 as (S1 & B1 & D1 & L1 & P1 & j & Hj & -> & Hs).
  destruct (kv_Write b1 (diskdb db1)) as [d|e] eqn:Ew; [|by apply step_reads].
  destruct (write_fine db1 b1 d (st_ok _ _ S1) B1 Ew) as [S2 _]. set (db2 := set_disk d db1) in *.
  assert (linked db2 L) as L2 by by apply linked_disk.
  assert (∀ i h, (i < j)%nat → L !! i = Some h → saved db2 [] h) as Hs2.
  { intros i h Hi Ei. eapply (write_saved db1 b1); [apply S1|done|done| |by eapply Hs]. eapply (linked_valid db L i); done. }
  assert (step db db2) as S12 by by eapply step_trans. cbv zeta.
  assert (∀ db3, db_ok db3 → linked db3 L → (∀ i h, (i < j)%nat → L !! i = Some h → saved db3 [] h) → same_reads db db3 →
    flush_result db match cap_drop (size (dirties db3)) (default 0 (L !! j)) db3 with
      | TOk db => if oldest db =? 0 then COk db []
                  else match update_dirty (oldest db) (set_prev 0) db with Ret db => COk db [] | Panic => CPanic end
      | TFuel => CFuel | _ => CPanic end) as Hgo.
  { intros db3 O3 L3 Hs3 R3. destruct (cap_finish db3 L j O3 L3 Hj Hs3) as (db4 & -> & S4). cbn [flush_result].
    eapply same_reads_trans; [exact R3|by apply step_reads]. }
  destruct (preimages db2) as [p|]; [destruct flush|]; try (apply Hgo; [apply S2|done|done|by apply step_reads]).
  destruct (step_preimages_rest db2 (Some ∅) 0 (st_ok _ _ S2)) as (O3 & L3 & V3).
  apply Hgo; [done|by apply L3|intros; by apply V3, Hs2 with i|by apply step_reads_preimages].
Qed.

Lemma Cap_spec limit db : db_ok db → flush_result db (Cap limit db).
Proof.
  intros Ho. unfold Cap. destruct (ok_list _ Ho) as [L HL]. destruct (proj2 (lk_dom _ _ HL 0)) as [meta ->]; [by left|].
  assert (batch_fine db []) as Hnil by by intros k v ?%not_elem_of_nil.
  destruct (preimages db) as [m|] eqn:Ep; [|by apply cap_body].
  destruct (4 * 1024 * 1024 <? preimagesSize db); [|by apply cap_body].
  destruct (IdealBatchSize <? ValueSize (WritePreimages m [])); [|apply cap_body; [done|apply preimages_fine]].
  destruct (kv_Write (WritePreimages m []) (diskdb db)) as [d|e] eqn:Ew; [|apply step_reads; [done|by apply step_refl]].
  pose proof (preimages_step db m d Ho Ew) as S. apply (step_reads _ _ Ho) in S as R.
  match goal with |- flush_result db (cap_flush ?l ?z ?f ?d' ?b) => pose proof (cap_body d' l z f b (st_ok _ _ S)) as H;
    destruct (cap_flush l z f d' b) as [db'|e db'| |] end;
    (eapply same_reads_trans; [exact R|]) || idtac; apply H; by intros k v ?%not_elem_of_nil.
Qed.

(** ** Inserting a node *)

(** An entry without its count of parents. *)
Definition outline (c : cachedNode) := (essence c, cn_flushPrev c, cn_flushNext c).

Lemma count_parents_outline l : ∀ (m : gmap Z cachedNode) k,
  outline <$> foldl (λ m h, count_parent h m) m l !! k = outline <$> m !! k.
Proof.
  induction l as [|h l IH]; intros m k; [done|]. cbn [foldl]. rewrite IH. unfold count_parent.
  destruct (decide (h = k)) as [<-|Hne]; [rewrite lookup_alter_eq; by destruct (m !! h)|by rewrite lookup_alter_ne].
Qed.

(** Entries with the same outline make the same list. *)
Lemma linked_outline db m L :
  linked db L → (∀ k, outline <$> m !! k = outline <$> dirties db !! k) → linked (set_dirties m db) L.
Proof.
  intros [N Z0 D O W X P] Hm. assert (∀ k c, m !! k = Some c → ∃ c0, dirties db !! k = Some c0 ∧ outline c = outline c0) as Hs.
  { intros k c E. specialize (Hm k). rewrite E in Hm. cbn [fmap option_fmap option_map] in Hm.
    destruct (dirties db !! k) as [c0|]; [|done]. exists c0. split; [done|]. by apply (inj Some) in Hm. }
  split; try done; unfold set_dirties; cbn [dirties].
  - intros k. rewrite <- (D k). specialize (Hm k). destruct (m !! k), (dirties db !! k); try done; split; by eexists.
  - intros i k c E Ec. apply Hs in Ec as (c0 & E0 & Q). injection Q as _ _ _ Q. rewrite Q. by eapply X.
  - intros i k c E Ec. apply Hs in Ec as (c0 & E0 & Q). injection Q as _ _ Q _. rewrite Q. by eapply P.
Qed.

Lemma linked_snoc db L h r sz :
  linked db L → dirties db !! h = None → h ≠ 0 →
  let entry := mkCached r sz 0 None (newest db) 0 in
  ∃ db', (if oldest (set_dirties (<[h := entry]> (dirties db)) db) =? 0
          then Ret (set_newest h (set_oldest h (set_dirties (<[h := entry]> (dirties db)) db)))
          else do! db <- update_dirty (newest db) (set_next h) (set_dirties (<[h := entry]> (dirties db)) db); Ret (set_newest h db)) = Ret db' ∧
    linked db' (L ++ [h]) ∧ diskdb db' = diskdb db ∧ cleans db' = cleans db ∧ preimages db' = preimages db ∧
    ∀ k, essence <$> dirties db' !! k = essence <$> <[h := entry]> (dirties db) !! k.
Proof.
  intros HL Hn Hh entry. assert (h ∉ L) as HhL.
  { intros Hin. destruct (proj2 (lk_dom _ _ HL h)) as [c Ec]; [by right|congruence]. }
  assert (NoDup (L ++ [h])) as Hnd.
  { apply NoDup_app. split; [apply HL|]. split; [|apply NoDup_singleton]. intros x Hx ->%list_elem_of_singleton. done. }
  assert (0 ∉ L ++ [h]) as Hz by (intros [Hin|E%list_elem_of_singleton]%elem_of_app; [by apply (lk_zero _ _ HL)|done]).
  assert (∀ m : gmap Z cachedNode, (∀ k, is_Some (m !! k) ↔ is_Some (<[h := entry]> (dirties db) !! k)) →
    ∀ k, is_Some (m !! k) ↔ k = 0 ∨ k ∈ L ++ [h]) as Hdom.
  { intros m Hm k. rewrite Hm, elem_of_app, list_elem_of_singleton. destruct (decide (k = h)) as [->|Hne].
    - rewrite lookup_insert_eq. split; [auto|by eexists].
    - rewrite lookup_insert_ne by done. rewrite (lk_dom _ _ HL). naive_solver. }
  change (oldest (set_dirties (<[h := entry]> (dirties db)) db)) with (oldest db).
  destruct L as [|h0 L0].
  - rewrite (lk_oldest _ _ HL). cbn [lookup list_lookup default from_option id]. change (0 =? 0) with true. cbv iota.
    eexists. split; [done|]. split; [|done]. split; try done; cbn [set_newest set_oldest set_dirties dirties oldest newest app].
    + by apply Hdom.
    + intros [|i] k n E En; [|by destruct i]. injection E as <-. rewrite lookup_insert_eq in En. by injection En as <-.
  - set (L := h0 :: L0) in *. assert (L ≠ []) as HLn by done. assert (oldest db = h0) as Eo by by rewrite (lk_oldest _ _ HL).
    assert (h0 ≠ 0) as Hh0 by (by destruct (linked_at db L 0 h0 HL eq_refl)). rewrite Eo. destruct (Z.eqb_spec h0 0) as [?|_]; [done|].
    pose proof (lk_newest _ _ HL HLn) as Enw. set (nw := newest db) in *. destruct (linked_at _ _ _ _ HL Enw) as [Hnw [c Ec]].
    assert (nw ≠ h) as Hne by (intros ->; congruence).
    assert (<[h := entry]> (dirties db) !! nw = Some c) as Ec' by by rewrite lookup_insert_ne.
    rewrite (update_dirty_spec _ _ _ c) by exact Ec'. cbn [obind]. eexists. split; [done|].
    split; [|split_and!; [done..|]; intros k; by apply same_nodes].
    set (m := <[nw := set_next h c]> (<[h := entry]> (dirties db))).
    assert (length L ≠ 0)%nat as Hlen by (subst L; cbn; lia).
    split; try done; cbn [set_newest set_dirties dirties oldest newest]; fold m.
    + apply Hdom. intros k. by eapply insert_same_dom.
    + rewrite length_app, lookup_app_r by (cbn [length]; lia). cbn [length].
      by replace (length L + 1 - 1 - length L)%nat with 0%nat by lia.
    + intros i k n E En. subst m. destruct (lookup_updated _ _ _ _ _ _ Ec' En) as [[-> ->]|[Hk En']].
      * destruct (decide (i < length L)%nat) as [Hi|Hi].
        -- rewrite lookup_app_l in E by done. pose proof (linked_inj _ _ _ _ _ HL E Enw) as ->.
           rewrite lookup_app_r by lia. by replace (S (length L - 1) - length L)%nat with 0%nat by lia.
        -- rewrite lookup_app_r in E by lia. destruct (i - length L)%nat as [|x]; [|by destruct x]. injection E as ->. done.
      * destruct (decide (i < length L)%nat) as [Hi|Hi].
        -- rewrite lookup_app_l in E by done. destruct (decide (S i < length L)%nat) as [Hi'|Hi'].
           ++ rewrite lookup_app_l by done. rewrite lookup_insert_ne in En'; [by eapply (lk_next _ _ HL)|].
              intros ->. apply HhL. by eapply list_elem_of_lookup_2.
           ++ assert (i = length L - 1)%nat as -> by lia. congruence.
        -- rewrite lookup_app_r in E by lia. destruct (i - length L)%nat as [|x] eqn:Ex; [|by destruct x]. injection E as <-.
           rewrite lookup_insert_eq in En'. injection En' as <-. rewrite lookup_app_r by lia.
           by replace (S i - length L)%nat with 1%nat by lia.
    + intros i k n E En. subst m. destruct (decide (S i < length L)%nat) as [Hi|Hi].
      * rewrite lookup_app_l in E by done. rewrite lookup_app_l by lia.
        assert (k ≠ h) as Hkh by (intros ->; apply HhL; by eapply list_elem_of_lookup_2).
        destruct (lookup_updated _ _ _ _ _ _ Ec' En) as [[-> ->]|[Hk En']]; [by apply (lk_prev _ _ HL i nw c)|].
        rewrite lookup_insert_ne in En' by done. by eapply (lk_prev _ _ HL).
      * rewrite lookup_app_r in E by lia. destruct (S i - length L)%nat as [|x] eqn:Ex; [|by destruct x]. injection E as <-.
        destruct (lookup_updated _ _ _ _ _ _ Ec' En) as [[? _]|[_ En']]; [congruence|]. rewrite lookup_insert_eq in En'.
        injection En' as <-. cbn [cn_flushPrev entry]. rewrite lookup_app_l by lia. fold nw. rewrite <- Enw. f_equal. lia.
Qed.

(** The node is there afterwards and nothing else changed, if what was there for
    the hash is the same blob. *)
Lemma insert_node_spec db h sz n r :
  db_ok db → valid h → simplifyNode n = Ret r → entry_ok r → 0 ∉ forGatherChildren r →
  (content h db = None ∨ content h db = Some (blob r)) →
  ∃ db', insert_node h sz n db = Ret db' ∧ db_ok db' ∧ preimages db' = preimages db ∧
    ∀ k, valid k → content k db' = if decide (k = h) then Some (blob r) else content k db.
Proof.
  intros Ho Hh En He Hz Hc. unfold insert_node. assert (h ≠ 0) as Hh0 by (unfold valid in Hh; lia).
  destruct (dirties db !! h) as [c|] eqn:Ec.
  { exists db. split_and!; [done..|]. intros k Hk. destruct (decide (k = h)) as [->|]; [|done]. destruct Hc as [Hc|Hc]; [|done].
    unfold content in Hc. by rewrite Ec in Hc. }
  rewrite En. cbn [obind]. destruct Ho as [[L HL] Hent Hcl].
  set (entry := mkCached r (u16 sz) 0 None (newest db) 0). set (m0 := foldl (λ m h, count_parent h m) (dirties db) (forChilds entry)).
  assert (∀ k, outline <$> m0 !! k = outline <$> dirties db !! k) as Hm0 by apply count_parents_outline.
  pose proof (linked_outline db m0 L HL Hm0) as HL0. set (db0 := set_dirties m0 db) in *.
  assert (dirties db0 !! h = None) as Hn0 by (specialize (Hm0 h); rewrite Ec in Hm0; by destruct (m0 !! h) eqn:E; cbn in *; rewrite E in *).
  destruct (linked_snoc db0 L h r (u16 sz) HL0 Hn0 Hh0) as (db1 & E1 & L1 & D1 & C1 & P1 & M1).
  change (newest db0) with (newest db) in E1. fold entry in E1, M1. change (dirties db0) with m0 in E1, M1.
  assert ((if oldest (set_dirties (<[h := entry]> m0) db) =? 0
           then Ret (set_newest h (set_oldest h (set_dirties (<[h := entry]> m0) db)))
           else do! db <- update_dirty (newest (set_dirties (<[h := entry]> m0) db)) (set_next h) (set_dirties (<[h := entry]> m0) db); Ret (set_newest h db)) = Ret db1) as -> by exact E1.
  cbn [obind]. eexists. split; [done|].
  assert (∀ k, valid k → content k (add_sizes (u16 (32 + cn_size entry)) 0 db1) = if decide (k = h) then Some (blob r) else content k db) as Hcont.
  { intros k Hk. unfold content, add_sizes. cbn [dirties diskdb]. specialize (M1 k). specialize (Hm0 k). rewrite D1. change (diskdb db0) with (diskdb db).
    destruct (decide (k = h)) as [->|Hne].
    - rewrite lookup_insert_eq in M1. destruct (dirties db1 !! h) as [c1|]; [|done]. apply (inj Some) in M1. injection M1 as -> _. done.
    - rewrite lookup_insert_ne in M1 by done. destruct (dirties db1 !! k), (m0 !! k), (dirties db !! k); try done.
      apply (inj Some) in M1, Hm0. injection M1 as M1 _. injection Hm0 as Hm0 _ _ _. by rewrite M1, Hm0. }
  split_and!; [|done|done]. split; [exists (L ++ [h]); by apply linked_sizes| |].
  - intros k ck Ek Hk. unfold add_sizes in Ek. cbn [dirties] in Ek. specialize (M1 k). specialize (Hm0 k). rewrite Ek in M1.
    destruct (decide (k = h)) as [->|Hne].
    + rewrite lookup_insert_eq in M1. apply (inj Some) in M1. injection M1 as M1 M2. unfold forChilds. by rewrite M1, M2.
    + rewrite lookup_insert_ne in M1 by done. destruct (m0 !! k) as [c0|]; [|done]. destruct (dirties db !! k) as [c|] eqn:Ekd; [|done].
      apply (inj Some) in M1, Hm0. destruct (essence_childs _ _ M1) as [-> ->]. injection Hm0 as Q1 Q2 _ _.
      destruct (Hent k c Ekd Hk) as (? & ? & ?). unfold forChilds. by rewrite Q1, Q2.
  - intros k enc Hk Ef. rewrite Hcont by done. assert (from_cleans k db = Some enc) as Ef'.
    { unfold from_cleans, add_sizes in *. cbn [cleans] in Ef. by rewrite C1 in Ef. }
    apply Hcl in Ef'; [|done]. destruct (decide (k = h)) as [->|]; [|done]. destruct Hc as [Hc|Hc]; congruence.
Qed.

End Flush.

(** ** Claims *)

(** C5: moving nodes from memory to the disk changes no read, whether it succeeds
    or a write fails half-way: after [Commit] and after [Cap] every hash reads as
    before, through clean cache, memory or disk, and the flush-list and the caches
    are in order again.  Neither panics; a successful [Commit] has moved every
    node below the root out of memory, and the disk has its blob. *)
Theorem flush_keeps_reads `{C : CleanCache} `{K : KeyValueStore} `{!CleanCacheOk C} `{!KeyValueStoreOk K}
    (db : Database) (rank : Z → nat) root fuel limit :
  db_ok db → ranked db rank → valid root → (rank root + 1 < fuel)%nat →
  commit_result db root (Commit fuel root db) ∧ flush_result db (Cap limit db).
Proof. intros Ho Hr Hv Hf. split; [by eapply Commit_spec|by apply Cap_spec]. Qed.

(** A clean cache that keeps everything, and a disk that is a map. *)
#[local] Instance map_cleans : CleanCache := {|
  cleans_t := gmap (list Z) (list Z);
  cleans_Get c k := c !! k;
  cleans_Set k v c := <[k := v]> c
|}.
#[local] Instance map_cleans_ok : CleanCacheOk map_cleans.
Proof.
  split. cbn. intros c k v k' v' H. destruct (decide (k = k')) as [<-|Hne].
  - rewrite lookup_insert_eq in H. left. split; congruence.
  - rewrite lookup_insert_ne in H by done. right. split; [congruence|done].
Qed.
#[local] Instance map_disk : KeyValueStore := {|
  kv := gmap (list Z) (list Z);
  kv_Get s k := s !! k;
  kv_Write b s := Ok (foldl (λ s x, <[x.1 := x.2]> s) s b)
|}.
#[local] Instance map_disk_ok : KeyValueStoreOk map_disk.
Proof.
  split. cbn. intros b s s' k [= <-]. unfold batch_get. revert s.
  induction b as [|[k0 v0] b IH] using rev_ind; intros s; [done|]. rewrite foldl_app, filter_app. cbn [foldl fst snd].
  destruct (decide (k0 = k)) as [->|Hne].
  - rewrite lookup_insert_eq, filter_cons_True, filter_nil by done. by rewrite last_snoc.
  - rewrite lookup_insert_ne, filter_cons_False, filter_nil, app_nil_r by done. apply IH.
Qed.

Lemma new_db_ok `{C : CleanCache} `{K : KeyValueStore} disk pre : db_ok (NewDatabase disk None pre).
Proof.
  split; [exists []; split; try done|..].
  - constructor.
  - by intros ?%not_elem_of_nil.
  - intros h. unfold NewDatabase. cbn [dirties]. destruct (decide (h = 0)) as [->|Hne].
    + rewrite lookup_singleton_eq. split; [by left|by eexists].
    + rewrite lookup_singleton_ne by done. split; [by intros [? ?]|]. intros [?|?%not_elem_of_nil]; done.
  - intros h c E Hh. unfold NewDatabase in E. cbn [dirties] in E. by apply lookup_singleton_Some in E as [<- _].
  - done.
Qed.

Definition sample_leaf : node := shortNode [0x20; 0x12] (valueNode [7]) newFlag.
Definition sample_raw : raw := rawShortNode [0x20; 0x12] (rawValue [7]).

Lemma sample_ok : entry_ok sample_raw.
Proof.
  split; [|vm_compute; reflexivity]. apply (raw_ok_leaf [1; 2; 16]); [|vm_compute; reflexivity|].
  - exists [1; 2]. split; [done|]. apply (bool_decide_unpack _). vm_compute. exact I.
  - apply (bool_decide_unpack _). vm_compute. exact I.
Qed.

Lemma flush_keeps_reads_witness :
  ∃ db : Database, insert_node 9 5 sample_leaf (NewDatabase ∅ (Some ∅) true) = Ret db ∧
    commit_result db 9 (Commit 3 9 db) ∧ flush_result db (Cap 0 db).
Proof.
  assert (db_ok (NewDatabase (K := map_disk) (C := map_cleans) ∅ (Some ∅) true)) as H0.
  { destruct (new_db_ok (K := map_disk) (C := map_cleans) ∅ true) as [[L HL] He _]. split; [exists L; by destruct HL|exact He|].
    intros h enc _ Ef. unfold from_cleans in Ef. cbn in Ef. by rewrite lookup_empty in Ef. }
  assert (valid 9) as H9 by (split; [reflexivity|reflexivity]).
  assert (0 ∉ forGatherChildren sample_raw) as Hz by (cbn; apply not_elem_of_nil).
  destruct (insert_node_spec (NewDatabase (K := map_disk) (C := map_cleans) ∅ (Some ∅) true) 9 5 sample_leaf sample_raw H0 H9 eq_refl sample_ok Hz)
    as (db & E & Ho & _ & _).
  { left. vm_compute. reflexivity. }
  assert (map_Forall (λ _ c, forChilds c = [])
    (match insert_node 9 5 sample_leaf (NewDatabase (K := map_disk) (C := map_cleans) ∅ (Some ∅) true) with
     | Ret db => dirties db | Panic => ∅ end)) as HF by (apply (bool_decide_unpack _); vm_compute; exact I).
  rewrite E in HF. exists db. split; [exact E|].
  apply (flush_keeps_reads db (λ _, 0%nat) 9 3 0); [exact Ho| |exact H9|lia].
  intros h c x Ec Hx _. rewrite (HF h c Ec) in Hx. by apply not_elem_of_nil in Hx.
Defined.
