(* ===== verification/Clique.v ===== *)
(** * The voting snapshot of the proof-of-authority engine
    (consensus/clique/snapshot.go, and [ecrecover] of clique.go)

    Authorised signers, the recent signers, the votes cast and their tally; a
    snapshot moves forward over headers by [apply].  Addresses are recovered
    from seals through a cache that the snapshots share; the cache (a
    third-party package) and the elliptic curve are interfaces. *)
From stdpp Require Import sorting.
From S2P Require Import Prelude Common RlpEncode StateObject TeWaka Consensus.
Import Enc Bytes Common.Crypto.

(** ** Interfaces *)

(** An adaptive replacement cache: looking up may reorder, adding may evict;
    neither invents entries. *)
Class Arc (A : Type) := {
  arc : Type;
  arc_Get : hash → arc → option A * arc;
  arc_Add : hash → A → arc → arc
}.
Arguments arc A {_}.
Definition arc_has `{Arc A} (c : arc A) (k : hash) (v : A) : Prop := fst (arc_Get k c) = Some v.
Class ArcOk {A} (R : Arc A) : Prop := {
  arc_Get_keeps : ∀ c k k' v, arc_has (snd (arc_Get k c)) k' v → arc_has c k' v;
  arc_Add_keeps : ∀ c k v k' v', arc_has (arc_Add k v c) k' v' → (k' = k ∧ v' = v) ∨ arc_has c k' v'
}.

(** ** Data *)

Record Vote := mkVote {
  v_Signer : address;
  v_Block : Z;
  v_Address : address;
  v_Authorize : bool
}.

Record Tally := mkTally { t_Authorize : bool; t_Votes : Z }.

(** The configuration and the signature cache of the Go struct are passed to
    the operations. *)
Record Snapshot := mkSnapshot {
  sn_Number : Z;
  sn_Hash : hash;
  sn_Signers : gset address;
  sn_Recents : gmap Z address;
  sn_Votes : list Vote;
  sn_Tally : gmap address Tally
}.

Definition set_Signers (x : gset address) (s : Snapshot) : Snapshot :=
  mkSnapshot (sn_Number s) (sn_Hash s) x (sn_Recents s) (sn_Votes s) (sn_Tally s).
Definition set_Recents (x : gmap Z address) (s : Snapshot) : Snapshot :=
  mkSnapshot (sn_Number s) (sn_Hash s) (sn_Signers s) x (sn_Votes s) (sn_Tally s).
Definition set_Votes (x : list Vote) (s : Snapshot) : Snapshot :=
  mkSnapshot (sn_Number s) (sn_Hash s) (sn_Signers s) (sn_Recents s) x (sn_Tally s).
Definition set_Tally (x : gmap address Tally) (s : Snapshot) : Snapshot :=
  mkSnapshot (sn_Number s) (sn_Hash s) (sn_Signers s) (sn_Recents s) (sn_Votes s) x.

#[export] Instance Vote_eq_dec : EqDecision Vote.
Proof. solve_decision. Defined.
#[export] Instance Tally_eq_dec : EqDecision Tally.
Proof. solve_decision. Defined.

Record CliqueConfig := mkCliqueConfig { Period : Z; Epoch : Z }.

Inductive clique_error :=
| errUnknownBlock | errInvalidCheckpointBeneficiary | errInvalidVote | errInvalidCheckpointVote
| errMissingVanity | errMissingSignature | errExtraSigners | errInvalidCheckpointSigners
| errMismatchingCheckpointSigners | errInvalidDifficulty | errWrongDifficulty | errInvalidTimestamp
| errInvalidVotingChain | errUnauthorizedSigner | errRecentlySigned
| errFutureBlock | errUnknownAncestor | errGasLimitCap | errGasUsed
| errEip1559 (msg : string) | errEcrecover (msg : string) | errDatabase (msg : string).

Definition extraVanity : Z := 32.
Definition extraSeal : Z := 65.
Definition nonceAuthVote : bytes := repeat 0xff 8.
Definition nonceDropVote : bytes := repeat 0 8.

(** ** Operations on the votes *)

Definition newSnapshot (number : Z) (hash : hash) (signers : list address) : Snapshot :=
  mkSnapshot number hash (list_to_set signers) ∅ [] ∅.

Definition validVote (a : address) (authorize : bool) (s : Snapshot) : bool :=
  let signer := bool_decide (a ∈ sn_Signers s) in
  (signer && negb authorize) || (negb signer && authorize).

(** Counts of votes stay below the number of signers; they are not wrapped. *)
Definition cast (a : address) (authorize : bool) (s : Snapshot) : bool * Snapshot :=
  if negb (validVote a authorize s) then (false, s)
  else
    match sn_Tally s !! a with
    | Some old => (true, set_Tally (<[a := mkTally (t_Authorize old) (t_Votes old + 1)]> (sn_Tally s)) s)
    | None => (true, set_Tally (<[a := mkTally authorize 1]> (sn_Tally s)) s)
    end.

Definition uncast (a : address) (authorize : bool) (s : Snapshot) : bool * Snapshot :=
  match sn_Tally s !! a with
  | None => (false, s)
  | Some tally =>
      if negb (eqb (t_Authorize tally) authorize) then (false, s)
      else if 1 <? t_Votes tally then
        (true, set_Tally (<[a := mkTally (t_Authorize tally) (t_Votes tally - 1)]> (sn_Tally s)) s)
      else (true, set_Tally (delete a (sn_Tally s)) s)
  end.

(** [len(snap.Signers)/2 + 1]. *)
Definition signer_limit (s : Snapshot) : Z := Z.of_nat (size (sn_Signers s)) / 2 + 1.

(** [if number >= limit { delete(snap.Recents, number-limit) }]. *)
Definition release_recent (number : Z) (s : Snapshot) : Snapshot :=
  let limit := signer_limit s in
  if limit <=? number then set_Recents (delete (number - limit) (sn_Recents s)) s else s.

(** The signer's previous vote on the same account is taken back. *)
Definition discard_previous (signer coinbase : address) (s : Snapshot) : Snapshot :=
  match list_find (λ v, v_Signer v = signer ∧ v_Address v = coinbase) (sn_Votes s) with
  | Some (i, vote) =>
      let s := snd (uncast (v_Address vote) (v_Authorize vote) s) in
      set_Votes (take i (sn_Votes s) ++ drop (S i) (sn_Votes s)) s
  | None => s
  end.

(** The loop over the votes of a signer that was voted out. *)
Fixpoint discard_signer (c : address) (kept todo : list Vote) (s : Snapshot) : Snapshot :=
  match todo with
  | [] => set_Votes kept s
  | v :: todo =>
      if decide (v_Signer v = c) then
        discard_signer c kept todo (snd (uncast (v_Address v) (v_Authorize v) s))
      else discard_signer c (kept ++ [v]) todo s
  end.

(** The loop over the votes on the changed account: no tally to keep. *)
Definition discard_account (c : address) (s : Snapshot) : Snapshot :=
  set_Votes (filter (λ v, v_Address v ≠ c) (sn_Votes s)) s.

(** [If the vote passed, update the list of signers]; a missing tally reads as
    zero. *)
Definition vote_passed (number : Z) (c : address) (s : Snapshot) : Snapshot :=
  let tally := default (mkTally false 0) (sn_Tally s !! c) in
  if Z.of_nat (size (sn_Signers s)) / 2 <? t_Votes tally then
    let s :=
      if t_Authorize tally then set_Signers ({[c]} ∪ sn_Signers s) s
      else
        let s := set_Signers (sn_Signers s ∖ {[c]}) s in
        let s := release_recent number s in
        discard_signer c [] (sn_Votes s) s in
    let s := discard_account c s in
    set_Tally (delete c (sn_Tally s)) s
  else s.

Definition vote_of_nonce (nonce : bytes) : option bool :=
  if decide (nonce = nonceAuthVote) then Some true
  else if decide (nonce = nonceDropVote) then Some false
  else None.

(** The body of the loop of [apply] after the signer is known. *)
Definition apply_signed (snap : Snapshot) (header : Header) (signer : address) : result clique_error Snapshot :=
  let number := u64 (hd_Number header) in
  if decide (signer ∉ sn_Signers snap) then Err errUnauthorizedSigner
  else if decide (signer ∈ (map_to_list (sn_Recents snap)).*2) then Err errRecentlySigned
  else
    let snap := set_Recents (<[number := signer]> (sn_Recents snap)) snap in
    let snap := discard_previous signer (hd_Coinbase header) snap in
    match vote_of_nonce (hd_Nonce header) with
    | None => Err errInvalidVote
    | Some authorize =>
        let '(counted, snap) := cast (hd_Coinbase header) authorize snap in
        let snap :=
          if counted then set_Votes (sn_Votes snap ++ [mkVote signer number (hd_Coinbase header) authorize]) snap
          else snap in
        Ok (vote_passed number (hd_Coinbase header) snap)
    end.

(** The part before: checkpoints drop all votes, the oldest recent signer is
    released. *)
Definition apply_prologue (config : CliqueConfig) (number : Z) (snap : Snapshot) : Snapshot :=
  release_recent number (if number mod Epoch config =? 0 then set_Tally ∅ (set_Votes [] snap) else snap).

(** [apply]'s check that the headers continue the snapshot. *)
Fixpoint contiguous (number : Z) (headers : list Header) : bool :=
  match headers with
  | [] => true
  | h :: headers => (u64 (hd_Number h) =? u64 (number + 1)) && contiguous (u64 (hd_Number h)) headers
  end.

(** [signers]: in ascending order of the bytes, that is of the numbers. *)
Definition signers (s : Snapshot) : list address := merge_sort Z.le (elements (sn_Signers s)).

(** The position of the signer, or the number of signers. *)
Definition signer_offset (signer : address) (l : list address) : Z :=
  match list_find (λ a, a = signer) l with
  | Some (i, _) => Z.of_nat i
  | None => zlen l
  end.

(** The modulus panics for an empty list. *)
Definition inturn (number : Z) (signer : address) (s : Snapshot) : outcome bool :=
  let l := signers s in
  if zlen l =? 0 then Panic else Ret (number mod zlen l =? signer_offset signer l).

(** ** Recovering the signer *)

Section Signers.
Context {B : Backend} {R : Recover} {SC : Arc address}.

(** The header without its seal; too short an extra field panics. *)
Definition encodeSigHeader (h : Header) : outcome bytes :=
  if zlen (hd_Extra h) <? extraSeal then Panic
  else
    let extra := slice (hd_Extra h) 0 (zlen (hd_Extra h) - extraSeal) in
    match EncodeToBytes (VList ([hash_val (hd_ParentHash h); addr_val (hd_Coinbase h); hash_val (hd_Root h);
            hash_val (hd_TxHash h); hash_val (hd_ReceiptHash h); VArray (hd_Bloom h);
            VBig (Some (hd_Difficulty h)); VBig (Some (hd_Number h)); VUint (hd_GasLimit h);
            VUint (hd_GasUsed h); VUint (hd_Time h); VBytes extra; VArray (hd_Nonce h)]
           ++ match hd_BaseFee h with Some b => [VBig (Some b)] | None => [] end)) with
    | Ok b => Ret b
    | Err _ => Panic
    end.

Definition clique_SealHash (h : Header) : outcome hash :=
  do! b <- encodeSigHeader h; Ret (Keccak256Hash b).

(** [ecrecover] behind its cache. *)
Definition recover (header : Header) : outcome (result clique_error address) :=
  if zlen (hd_Extra header) <? extraSeal then Ret (Err errMissingSignature)
  else
    let signature := slice (hd_Extra header) (zlen (hd_Extra header) - extraSeal) (zlen (hd_Extra header)) in
    do! sealhash <- clique_SealHash header;
    match Ecrecover (Hash_Bytes sealhash) signature with
    | Err e => Ret (Err (errEcrecover e))
    | Ok pubkey => Ret (Ok (be_decode (drop 12 (Keccak256 (drop 1 pubkey)))))
    end.

Definition ecrecover (header : Header) : St (arc address) (result clique_error address) := λ sigcache,
  let hash := Header_Hash header in
  let '(known, sigcache) := arc_Get hash sigcache in
  match known with
  | Some a => XRet (Ok a, sigcache)
  | None =>
      match recover header with
      | Panic => XPanic
      | Ret (Err e) => XRet (Err e, sigcache)
      | Ret (Ok signer) => XRet (Ok signer, arc_Add hash signer sigcache)
      end
  end.

(** ** Moving forward *)

(** An epoch of zero is a division by zero. *)
Definition apply_header (config : CliqueConfig) (snap : Snapshot) (header : Header)
    : St (arc address) (result clique_error Snapshot) :=
  if Epoch config =? 0 then spanic
  else
    let snap := apply_prologue config (u64 (hd_Number header)) snap in
    ok! signer <- ecrecover header;
    sret (apply_signed snap header signer).

Fixpoint apply_headers (config : CliqueConfig) (snap : Snapshot) (headers : list Header)
    : St (arc address) (result clique_error Snapshot) :=
  match headers with
  | [] => sret (Ok snap)
  | h :: headers => ok! snap <- apply_header config snap h; apply_headers config snap headers
  end.

(** [copy] gives fresh maps and a fresh slice of the same votes: the same
    value. *)
Definition apply (config : CliqueConfig) (s : Snapshot) (headers : list Header)
    : St (arc address) (result clique_error Snapshot) :=
  match last headers with
  | None => sret (Ok s)
  | Some lasth =>
      if negb (contiguous (sn_Number s) headers) then sret (Err errInvalidVotingChain)
      else
        ok! snap <- apply_headers config s headers;
        sret (Ok (mkSnapshot (u64 (sn_Number snap + zlen headers)) (Header_Hash lasth)
                    (sn_Signers snap) (sn_Recents snap) (sn_Votes snap) (sn_Tally snap)))
  end.

End Signers.
