(* ===== verification/CliqueVotes.v ===== *)
(** * What a voting snapshot keeps true (consensus/clique/snapshot.go)

    The tally counts the recorded votes; votes come from authorised signers,
    one per signer and account, since the last checkpoint; the recent signers
    are distinct and lie in the window of the last blocks.  The invariant is
    preserved by every accepted header; from it follow the majority rule, the
    spacing of signers and that half of the signers may always sign next. *)
From S2P Require Import Prelude Common RlpEncode StateObject Concrete TeWaka Consensus Clique.
Import Common.Crypto.

(** ** The tally *)

Definition votes_on (a : address) (l : list Vote) : nat := length (filter (λ v, v_Address v = a) l).

(** The tally a list of votes should have. *)
Definition tally_of (S : gset address) (l : list Vote) (a : address) : option Tally :=
  match votes_on a l with
  | O => None
  | n => Some (mkTally (bool_decide (a ∉ S)) (Z.of_nat n))
  end.

Definition counts (S : gset address) (l : list Vote) (T : gmap address Tally) : Prop :=
  ∀ a, T !! a = tally_of S l a.

(** A vote says what would change the account's membership. *)
Definition meaningful (S : gset address) (v : Vote) : Prop := v_Authorize v = bool_decide (v_Address v ∉ S).

#[export] Instance counts_proper S : Proper ((≡ₚ) ==> (=) ==> iff) (counts S).
Proof.
  intros l1 l2 Hl T ? <-. unfold counts, tally_of, votes_on.
  split; intros H a; rewrite H; by rewrite Hl.
Qed.

Lemma votes_on_cons a v l :
  votes_on a (v :: l) = (if decide (v_Address v = a) then S (votes_on a l) else votes_on a l).
Proof. unfold votes_on. rewrite filter_cons. by destruct (decide _). Qed.

Lemma votes_on_app a l1 l2 : votes_on a (l1 ++ l2) = (votes_on a l1 + votes_on a l2)%nat.
Proof. unfold votes_on. by rewrite filter_app, length_app. Qed.

Lemma validVote_iff a b s : validVote a b s = true ↔ b = bool_decide (a ∉ sn_Signers s).
Proof. unfold validVote. case_bool_decide; destruct b; case_bool_decide; set_solver. Qed.

Lemma uncast_only_tally a b s :
  sn_Signers (snd (uncast a b s)) = sn_Signers s ∧ sn_Votes (snd (uncast a b s)) = sn_Votes s ∧
  sn_Recents (snd (uncast a b s)) = sn_Recents s.
Proof.
  unfold uncast. destruct (sn_Tally s !! a); [|done]. by repeat case_match; simplify_eq/=.
Qed.

(** [uncast] takes one counted vote back. *)
Lemma counts_uncast S v l s :
  counts S (v :: l) (sn_Tally s) → meaningful S v →
  counts S l (sn_Tally (snd (uncast (v_Address v) (v_Authorize v) s))).
Proof.
  intros Hc Hm. pose proof (Hc (v_Address v)) as Hv. unfold tally_of in Hv.
  rewrite votes_on_cons, decide_True in Hv by done. unfold uncast. rewrite Hv. cbn [t_Authorize t_Votes].
  unfold meaningful in Hm. rewrite <- Hm, eqb_reflx. cbn [negb].
  assert (∀ a, a ≠ v_Address v → tally_of S (v :: l) a = tally_of S l a) as Hne.
  { intros a Ha. unfold tally_of. by rewrite votes_on_cons, decide_False by congruence. }
  intros a. destruct (Z.ltb_spec 1 (Z.of_nat (Datatypes.S (votes_on (v_Address v) l)))); cbn [snd sn_Tally set_Tally];
    (destruct (decide (a = v_Address v)) as [->|Ha];
      [rewrite ?lookup_insert, ?lookup_delete|rewrite ?lookup_insert_ne, ?lookup_delete_ne by congruence; by rewrite Hc, Hne]);
    unfold tally_of; destruct (votes_on (v_Address v) l) eqn:E; try lia; rewrite ?decide_True by done; [|done].
  f_equal. f_equal; [by rewrite Hm|lia].
Qed.

(** [cast] counts a vote that makes sense. *)
Lemma counts_cast a b l s :
  counts (sn_Signers s) l (sn_Tally s) →
  let r := cast a b s in
  fst r = bool_decide (b = bool_decide (a ∉ sn_Signers s)) ∧
  sn_Signers (snd r) = sn_Signers s ∧ sn_Votes (snd r) = sn_Votes s ∧ sn_Recents (snd r) = sn_Recents s ∧
  ∀ signer number, counts (sn_Signers s)
    (if fst r then l ++ [mkVote signer number a b] else l) (sn_Tally (snd r)).
Proof.
  intros Hc r. subst r. unfold cast. destruct (validVote a b s) eqn:V; cbn [negb].
  - apply validVote_iff in V. rewrite bool_decide_true by done.
    pose proof (Hc a) as Ha. unfold tally_of in Ha.
    assert (∀ signer number a', a' ≠ a →
      tally_of (sn_Signers s) (l ++ [mkVote signer number a b]) a' = sn_Tally s !! a') as Hne.
    { intros signer number a' Ha'. rewrite Hc. unfold tally_of. rewrite votes_on_app. unfold votes_on at 2.
      rewrite filter_cons_False by (cbn; congruence). cbn. by rewrite Nat.add_0_r. }
    assert (∀ signer number, votes_on a (l ++ [mkVote signer number a b]) = S (votes_on a l)) as Heq.
    { intros signer number. rewrite votes_on_app. unfold votes_on at 2. rewrite filter_cons_True by done. cbn. lia. }
    destruct (sn_Tally s !! a) as [old|] eqn:T; cbn [fst snd sn_Signers sn_Votes sn_Recents sn_Tally set_Tally];
      repeat (split; [done|]); intros signer number a';
      (destruct (decide (a' = a)) as [->|Ha']; [|by rewrite lookup_insert_ne, Hne by congruence]);
      rewrite lookup_insert, decide_True by done; unfold tally_of; rewrite Heq;
      destruct (votes_on a l) as [|k] eqn:E; simplify_eq/=; do 2 f_equal; (done || lia).
  - cbn [fst snd]. rewrite bool_decide_false; [done|]. intros E%validVote_iff. congruence.
Qed.

(** The loop over the votes of one signer keeps the other votes and their
    tally. *)
Lemma discard_signer_spec S c todo : ∀ kept s,
  counts S (kept ++ todo) (sn_Tally s) → Forall (meaningful S) todo →
  let s' := discard_signer c kept todo s in
  let l := kept ++ filter (λ v, v_Signer v ≠ c) todo in
  sn_Votes s' = l ∧ counts S l (sn_Tally s') ∧ sn_Signers s' = sn_Signers s ∧ sn_Recents s' = sn_Recents s.
Proof.
  induction todo as [|v todo IH]; intros kept s Hc Hm; cbn [discard_signer].
  { rewrite filter_nil. by rewrite app_nil_r in *. }
  apply Forall_cons in Hm as [Hv Hm]. destruct (decide (v_Signer v = c)) as [E|E].
  - rewrite filter_cons_False by (by intros []).
    destruct (uncast_only_tally (v_Address v) (v_Authorize v) s) as (<- & _ & <-).
    apply IH; [|done]. apply counts_uncast; [|done]. by rewrite Permutation_middle.
  - rewrite filter_cons_True by done.
    destruct (IH (kept ++ [v]) s) as (H1 & H2 & H3 & H4); [by rewrite <- app_assoc|done|].
    rewrite H1, H3, H4. by rewrite <- !app_assoc in *.
Qed.

(** Dropping all votes on an account with its tally, while its membership may
    change. *)
Lemma counts_drop S S' c l T :
  counts S l T → (∀ a, a ≠ c → a ∈ S ↔ a ∈ S') →
  counts S' (filter (λ v, v_Address v ≠ c) l) (delete c T).
Proof.
  intros Hc HS a. unfold tally_of. destruct (decide (a = c)) as [->|Ha].
  - rewrite lookup_delete, decide_True by done. replace (votes_on c _) with 0%nat; [done|].
    unfold votes_on. rewrite list_filter_filter. clear Hc. induction l as [|v l IH]; [done|].
    by rewrite filter_cons_False by naive_solver.
  - rewrite lookup_delete_ne by congruence. rewrite Hc. unfold tally_of.
    assert (votes_on a (filter (λ v, v_Address v ≠ c) l) = votes_on a l) as ->.
    { unfold votes_on. rewrite list_filter_filter. f_equal. apply list_filter_iff. naive_solver. }
    replace (bool_decide (a ∉ S)) with (bool_decide (a ∉ S')); [done|].
    apply bool_decide_ext. by rewrite HS.
Qed.

(** ** The invariant *)

Definition vote_key (v : Vote) : address * address := (v_Signer v, v_Address v).

(** [n] is the number of the last block applied. *)
Record votes_ok (epoch n : Z) (s : Snapshot) : Prop := {
  vo_counts : counts (sn_Signers s) (sn_Votes s) (sn_Tally s);
  vo_meaning : Forall (meaningful (sn_Signers s)) (sn_Votes s);
  vo_voters : Forall (λ v, v_Signer v ∈ sn_Signers s) (sn_Votes s);
  vo_once : NoDup (vote_key <$> sn_Votes s);
  vo_since : Forall (λ v, n - n mod epoch ≤ v_Block v ≤ n) (sn_Votes s)
}.

(** Recent signers: since block [n - w], all different. *)
Record recents_in (n w : Z) (s : Snapshot) : Prop := {
  ri_window : ∀ k a, sn_Recents s !! k = Some a → 1 ≤ k ≤ n ∧ n < k + w;
  ri_distinct : ∀ k k' a, sn_Recents s !! k = Some a → sn_Recents s !! k' = Some a → k = k'
}.

Definition good (epoch n : Z) (s : Snapshot) : Prop :=
  votes_ok epoch n s ∧ recents_in n (signer_limit s) s.

Lemma epoch_step n epoch : 0 < epoch → 0 ≤ n → (n + 1) mod epoch ≠ 0 → n + 1 - (n + 1) mod epoch = n - n mod epoch.
Proof.
  intros He Hn H. pose proof (Z.div_mod n epoch) as D1. pose proof (Z.div_mod (n + 1) epoch) as D2.
  pose proof (Z.mod_pos_bound n epoch He). pose proof (Z.mod_pos_bound (n + 1) epoch He).
  assert ((n + 1) / epoch = n / epoch); [|lia]. apply Z.le_antisymm; [nia|]. apply Z.div_le_mono; lia.
Qed.

Lemma prologue_fields config number s :
  let s' := apply_prologue config number s in
  sn_Signers s' = sn_Signers s ∧
  sn_Votes s' = (if number mod Epoch config =? 0 then [] else sn_Votes s) ∧
  sn_Tally s' = (if number mod Epoch config =? 0 then ∅ else sn_Tally s) ∧
  sn_Recents s' = (if signer_limit s <=? number then delete (number - signer_limit s) (sn_Recents s) else sn_Recents s).
Proof.
  unfold apply_prologue, release_recent. destruct (number mod Epoch config =? 0);
    cbn [signer_limit sn_Signers set_Tally set_Votes];
    change (signer_limit (set_Tally ∅ (set_Votes [] s))) with (signer_limit s);
    by destruct (signer_limit s <=? number).
Qed.

Lemma counts_nil S : counts S [] ∅.
Proof. intros a. by rewrite lookup_empty. Qed.

Lemma prologue_votes config n s :
  0 < Epoch config → 0 ≤ n → votes_ok (Epoch config) n s →
  votes_ok (Epoch config) (n + 1) (apply_prologue config (n + 1) s).
Proof.
  intros He Hn [H1 H2 H3 H4 H5]. destruct (prologue_fields config (n + 1) s) as (ES & EV & ET & _).
  destruct (Z.eqb_spec ((n + 1) mod Epoch config) 0) as [E|E]; split; rewrite ?ES, ?EV, ?ET; try done.
  - apply NoDup_nil_2.
  - rewrite epoch_step by done. eapply Forall_impl; [exact H5|]. cbn. lia.
Qed.

(** After the release only the last [limit - 1] blocks are left. *)
Lemma release_window n s :
  recents_in n (signer_limit s) s → recents_in n (signer_limit s - 1) (release_recent (n + 1) s).
Proof.
  intros [Hw Hd]. unfold release_recent. destruct (Z.leb_spec (signer_limit s) (n + 1)); split.
  - intros k a. cbn [sn_Recents set_Recents]. rewrite lookup_delete_Some. intros [Hk Ha].
    apply Hw in Ha. lia.
  - intros k k' a. cbn [sn_Recents set_Recents]. rewrite !lookup_delete_Some. intros [_ Ha] [_ Ha']. by eapply Hd.
  - intros k a Ha. apply Hw in Ha. lia.
  - done.
Qed.

Lemma prologue_recents config n s :
  recents_in n (signer_limit s) s → recents_in n (signer_limit s - 1) (apply_prologue config (n + 1) s).
Proof.
  intros H. unfold apply_prologue. destruct (_ =? 0); [|by apply release_window].
  apply (release_window n (set_Tally ∅ (set_Votes [] s))). destruct H as [Hw Hd]. by split.
Qed.

(** ** One header *)

Lemma discard_previous_spec epoch n signer c s :
  votes_ok epoch n s →
  let s' := discard_previous signer c s in
  votes_ok epoch n s' ∧ sn_Signers s' = sn_Signers s ∧ sn_Recents s' = sn_Recents s ∧
  sn_Votes s' ⊆+ sn_Votes s ∧ (signer, c) ∉ vote_key <$> sn_Votes s' ∧
  (∀ v, v ∈ sn_Votes s → vote_key v ≠ (signer, c) → v ∈ sn_Votes s').
Proof.
  intros [H1 H2 H3 H4 H5]. unfold discard_previous.
  destruct (list_find _ (sn_Votes s)) as [[i v]|] eqn:F.
  - apply list_find_Some in F as (Hi & [Hs Ha] & _).
    destruct (uncast_only_tally (v_Address v) (v_Authorize v) s) as (ES & EV & ER).
    pose proof (take_drop_middle _ _ _ Hi) as Hl. set (l' := take i (sn_Votes s) ++ drop (S i) (sn_Votes s)) in *.
    assert (sn_Votes s ≡ₚ v :: l') as HP by (rewrite <- Hl at 1; symmetry; apply Permutation_middle).
    rewrite HP in H1, H2, H3, H5. rewrite (fmap_Permutation vote_key _ _ HP) in H4.
    rewrite fmap_cons in H4. apply Forall_cons in H2 as [Hv H2], H3 as [_ H3], H5 as [_ H5].
    apply NoDup_cons in H4 as [Hn H4].
    assert (vote_key v = (signer, c)) as Hk by (unfold vote_key; congruence).
    cbn [sn_Signers sn_Votes sn_Recents set_Votes]. rewrite ES, EV, ER.
    split_and!; [|done|done| | |].
    + split; cbn [sn_Signers sn_Votes sn_Tally set_Votes]; rewrite ?ES, ?EV; try done.
      by apply counts_uncast.
    + fold l'. rewrite HP. by apply submseteq_cons.
    + by rewrite <- Hk.
    + intros v' Hin Hne. rewrite HP in Hin. apply elem_of_cons in Hin as [->|?]; [congruence|done].
  - apply list_find_None in F. rewrite Forall_forall in F. split_and!; try done.
    rewrite list_elem_of_fmap. intros (v & Hk & Hin). apply (F v Hin). unfold vote_key in Hk. by simplify_eq.
Qed.

Lemma vote_of_nonce_some b nonce :
  vote_of_nonce nonce = Some b → nonce = if b then nonceAuthVote else nonceDropVote.
Proof. unfold vote_of_nonce. repeat case_decide; naive_solver. Qed.

(** The new vote, counted if it makes sense. *)
Lemma record_vote epoch n signer c b s :
  votes_ok epoch n s → signer ∈ sn_Signers s → (signer, c) ∉ vote_key <$> sn_Votes s → 0 < epoch → 0 ≤ n →
  let r := cast c b s in
  let s' := if fst r then set_Votes (sn_Votes (snd r) ++ [mkVote signer n c b]) (snd r) else snd r in
  votes_ok epoch n s' ∧ sn_Signers s' = sn_Signers s ∧ sn_Recents s' = sn_Recents s ∧
  sn_Votes s' = if bool_decide (b = bool_decide (c ∉ sn_Signers s)) then sn_Votes s ++ [mkVote signer n c b]
                else sn_Votes s.
Proof.
  intros [H1 H2 H3 H4 H5] Hs Hk He Hn r s'.
  destruct (counts_cast c b (sn_Votes s) s H1) as (F & ES & EV & ER & HC). fold r in F, ES, EV, ER, HC.
  assert (sn_Signers s' = sn_Signers s ∧ sn_Recents s' = sn_Recents s) as [ES' ER'] by (unfold s'; by destruct (fst r)).
  assert (sn_Tally s' = sn_Tally (snd r)) as ET by (unfold s'; by destruct (fst r)).
  assert (sn_Votes s' = if fst r then sn_Votes s ++ [mkVote signer n c b] else sn_Votes s) as EV'
    by (unfold s'; rewrite <- EV; by destruct (fst r)).
  rewrite <- F. split_and!; [|done..]. split; rewrite ?ES', ?ET, ?EV'; [apply HC|..]; destruct (fst r); try done.
  - apply Forall_app. split; [done|]. apply Forall_singleton. unfold meaningful. cbn.
    symmetry in F. by apply bool_decide_eq_true in F.
  - apply Forall_app. split; [done|]. by apply Forall_singleton.
  - rewrite fmap_app. apply NoDup_app. split_and!; [done| |apply NoDup_singleton].
    intros x Hx. cbn. rewrite list_elem_of_singleton. unfold vote_key at 1; cbn. by intros ->.
  - apply Forall_app. split; [done|]. apply Forall_singleton. cbn.
    pose proof (Z.mod_pos_bound n epoch He). lia.
Qed.

Lemma release_fields number s :
  sn_Signers (release_recent number s) = sn_Signers s ∧ sn_Votes (release_recent number s) = sn_Votes s ∧
  sn_Tally (release_recent number s) = sn_Tally s.
Proof. unfold release_recent. by destruct (_ <=? _). Qed.

(** Removing one signer shortens the window by at most one block. *)
Lemma limit_remove S c :
  Z.of_nat (size S) / 2 ≤ Z.of_nat (size (S ∖ {[c]} : gset address)) / 2 + 1.
Proof.
  assert (size S ≤ size (S ∖ {[c]}) + 1)%nat.
  { rewrite <- (size_singleton (C := gset address) c), <- size_union by set_solver. apply subseteq_size.
    intros a. destruct (decide (a = c)); set_solver. }
  go_lia.
Qed.

Lemma release_shrunk n w s :
  recents_in n w s → w ≤ signer_limit s + 1 → recents_in n (signer_limit s) (release_recent n s).
Proof.
  intros [Hw Hd] Hl. unfold release_recent. destruct (Z.leb_spec (signer_limit s) n); split.
  - intros k a. cbn [sn_Recents set_Recents]. rewrite lookup_delete_Some. intros [Hk Ha]. apply Hw in Ha. lia.
  - intros k k' a. cbn [sn_Recents set_Recents]. rewrite !lookup_delete_Some. intros [_ Ha] [_ Ha']. by eapply Hd.
  - intros k a Ha. apply Hw in Ha. lia.
  - done.
Qed.

(** A block releases at most the signer that leaves the window. *)
Definition recents_kept (n : Z) (s s' : Snapshot) : Prop :=
  sn_Recents s' = sn_Recents s ∨ sn_Recents s' = delete (n - signer_limit s') (sn_Recents s).

(** The loop of a removed signer keeps a part of the votes, in order. *)
Lemma Forall_kept (P : Vote → Prop) (Q1 Q2 : Vote → Prop) `{∀ v, Decision (Q1 v), ∀ v, Decision (Q2 v)} l :
  Forall P l → Forall P (filter Q1 (filter Q2 l)).
Proof. rewrite !Forall_forall. intros H' v. rewrite !list_elem_of_filter. naive_solver. Qed.

Lemma NoDup_kept (Q : Vote → Prop) `{∀ v, Decision (Q v)} l :
  NoDup (vote_key <$> l) → NoDup (vote_key <$> filter Q l).
Proof.
  intros HN. eapply sublist_NoDup; [exact HN|]. apply fmap_sublist. apply sublist_filter.
Qed.

Lemma tally_passed S l T c :
  counts S l T →
  let tally := default (mkTally false 0) (T !! c) in
  t_Votes tally = Z.of_nat (votes_on c l) ∧ (0 < votes_on c l → t_Authorize tally = bool_decide (c ∉ S))%nat.
Proof.
  intros Hc. cbn. rewrite Hc. unfold tally_of. destruct (votes_on c l) eqn:E; cbn; [|done]. split; [done|lia].
Qed.

(** The accepted change: exactly the account voted on. *)
Definition flip_member (c : address) (S : gset address) : gset address :=
  if decide (c ∈ S) then S ∖ {[c]} else {[c]} ∪ S.

Definition kept_votes (c : address) (S : gset address) (l : list Vote) : list Vote :=
  filter (λ v, v_Address v ≠ c) (if decide (c ∈ S) then filter (λ v, v_Signer v ≠ c) l else l).

(** Votes after a change on [c]: none about [c], none by a removed signer, the
    rest still makes sense. *)
Lemma votes_after_change epoch n s s' c :
  votes_ok epoch n s → sn_Signers s' = flip_member c (sn_Signers s) →
  sn_Votes s' = kept_votes c (sn_Signers s) (sn_Votes s) →
  counts (sn_Signers s') (sn_Votes s') (sn_Tally s') → votes_ok epoch n s'.
Proof.
  intros [H1 H2 H3 H4 H5] ES EV HC. unfold flip_member in ES. unfold kept_votes in EV.
  assert (sn_Votes s' `sublist_of` sn_Votes s) as Hsub.
  { rewrite EV. destruct (decide _); [|apply sublist_filter]. etrans; apply sublist_filter. }
  assert (∀ v, v ∈ sn_Votes s' → v ∈ sn_Votes s ∧ v_Address v ≠ c ∧ (c ∈ sn_Signers s → v_Signer v ≠ c)) as Hin.
  { intros v. rewrite EV, list_elem_of_filter. destruct (decide _); rewrite ?list_elem_of_filter; naive_solver. }
  rewrite !Forall_forall in *. split; rewrite ?Forall_forall; try done.
  - intros v (Hv & Ha & _)%Hin. pose proof (H2 v Hv) as M. unfold meaningful in *. rewrite M.
    apply bool_decide_ext. rewrite ES. destruct (decide _); set_solver.
  - intros v (Hv & _ & Hs)%Hin. pose proof (H3 v Hv). rewrite ES. destruct (decide _); set_solver.
  - eapply sublist_NoDup; [exact H4|]. by apply fmap_sublist.
  - intros v (Hv & _)%Hin. by apply H5.
Qed.

Lemma vote_passed_removed epoch n c s :
  votes_ok epoch n s → recents_in n (signer_limit s) s → c ∈ sn_Signers s →
  let s1 := release_recent n (set_Signers (sn_Signers s ∖ {[c]}) s) in
  let s2 := discard_account c (discard_signer c [] (sn_Votes s1) s1) in
  let s' := set_Tally (delete c (sn_Tally s2)) s2 in
  good epoch n s' ∧ sn_Signers s' = flip_member c (sn_Signers s) ∧ recents_kept n s s' ∧
  sn_Votes s' = kept_votes c (sn_Signers s) (sn_Votes s).
Proof.
  intros Hok Hr Hc s1 s2 s'. pose proof Hok as [H1 H2 _ _ _].
  destruct (release_fields n (set_Signers (sn_Signers s ∖ {[c]}) s)) as (ES & EV & ET).
  fold s1 in ES, EV, ET. cbn [sn_Signers sn_Votes sn_Tally set_Signers] in ES, EV, ET.
  destruct (discard_signer_spec (sn_Signers s) c (sn_Votes s1) [] s1) as (DV & DT & DS & DR);
    [cbn [app]; by rewrite EV, ET|by rewrite EV|]. cbn [app] in DV, DT.
  assert (sn_Signers s' = flip_member c (sn_Signers s)) as HS.
  { unfold flip_member. rewrite decide_True by done. subst s' s2. cbn. by rewrite DS, ES. }
  assert (sn_Votes s' = kept_votes c (sn_Signers s) (sn_Votes s)) as HV.
  { unfold kept_votes. rewrite decide_True by done. subst s' s2. cbn. by rewrite DV, EV. }
  assert (recents_kept n s s') as HR.
  { unfold recents_kept, signer_limit. rewrite HS. unfold flip_member. rewrite decide_True by done.
    subst s' s2. cbn. rewrite DR. subst s1. unfold release_recent. destruct (_ <=? _); [by right|by left]. }
  split; [|done]. split.
  - apply (votes_after_change epoch n s s' c Hok HS HV).
    rewrite HS. subst s' s2. cbn. rewrite DV. eapply counts_drop; [exact DT|].
    intros a Ha. unfold flip_member. rewrite decide_True by done. set_solver.
  - assert (recents_in n (signer_limit s1) s1) as Hr1.
    { replace (signer_limit s1) with (signer_limit (set_Signers (sn_Signers s ∖ {[c]}) s))
        by (unfold signer_limit; by rewrite ES).
      eapply release_shrunk with (w := signer_limit s).
      - destruct Hr as [Hw Hd]. by split.
      - unfold signer_limit. cbn [sn_Signers set_Signers]. pose proof (limit_remove (sn_Signers s) c). lia. }
    replace (signer_limit s') with (signer_limit s1) by (unfold signer_limit; subst s' s2; cbn; by rewrite DS).
    destruct Hr1 as [Hw Hd]. split; subst s' s2; cbn; by rewrite DR.
Qed.

Lemma vote_passed_added epoch n c s :
  votes_ok epoch n s → recents_in n (signer_limit s) s → c ∉ sn_Signers s →
  let s2 := discard_account c (set_Signers ({[c]} ∪ sn_Signers s) s) in
  let s' := set_Tally (delete c (sn_Tally s2)) s2 in
  good epoch n s' ∧ sn_Signers s' = flip_member c (sn_Signers s) ∧ recents_kept n s s' ∧
  sn_Votes s' = kept_votes c (sn_Signers s) (sn_Votes s).
Proof.
  intros Hok [Hw Hd] Hc s2 s'. pose proof Hok as [H1 _ _ _ _].
  assert (sn_Signers s' = flip_member c (sn_Signers s)) as HS by (unfold flip_member; by rewrite decide_False by done).
  assert (sn_Votes s' = kept_votes c (sn_Signers s) (sn_Votes s)) as HV.
  { unfold kept_votes. by rewrite decide_False by done. }
  split; [|by split_and!; [|left|]]. split.
  - apply (votes_after_change epoch n s s' c Hok HS HV).
    eapply counts_drop; [exact H1|]. intros a Ha. subst s' s2. cbn. set_solver.
  - split; [|exact Hd]. intros k a Ha. apply Hw in Ha. split; [lia|].
    assert (signer_limit s ≤ signer_limit s'); [|lia]. unfold signer_limit.
    assert (size (sn_Signers s) ≤ size (sn_Signers s'))%nat; [|go_lia].
    apply subseteq_size. subst s' s2. cbn. set_solver.
Qed.

Lemma vote_passed_spec epoch n c s :
  votes_ok epoch n s → recents_in n (signer_limit s) s →
  let s' := vote_passed n c s in
  let passed := Z.of_nat (size (sn_Signers s)) / 2 <? Z.of_nat (votes_on c (sn_Votes s)) in
  good epoch n s' ∧ recents_kept n s s' ∧
  sn_Signers s' = (if passed then flip_member c (sn_Signers s) else sn_Signers s) ∧
  sn_Votes s' = (if passed then kept_votes c (sn_Signers s) (sn_Votes s) else sn_Votes s).
Proof.
  intros Hok Hr s' passed. pose proof Hok as [H1 _ _ _ _].
  destruct (tally_passed _ _ _ c H1) as [HV HA]. subst s' passed. unfold vote_passed. rewrite HV.
  destruct (Z.ltb_spec (Z.of_nat (size (sn_Signers s)) / 2) (Z.of_nat (votes_on c (sn_Votes s)))) as [Hp|Hp];
    [|by split_and!; [split|left| |]].
  rewrite HA by go_lia. case_bool_decide.
  - destruct (vote_passed_added epoch n c s) as (G & ES & ER & EV); done.
  - destruct (vote_passed_removed epoch n c s) as (G & ES & ER & EV); [done|done|set_solver|done].
Qed.

(** ** The protocol in the abstract

    Members, and for every account the members that voted to change its
    membership. *)

Record ballot := mkBallot { b_members : gset address; b_for : address → gset address }.

Definition voters_of (l : list Vote) (a : address) : gset address :=
  list_to_set (v_Signer <$> filter (λ v, v_Address v = a) l).
Definition ballot_of (s : Snapshot) : ballot := mkBallot (sn_Signers s) (voters_of (sn_Votes s)).

#[export] Instance ballot_equiv : Equiv ballot := λ x y,
  b_members x = b_members y ∧ ∀ a, b_for x a = b_for y a.
#[export] Instance ballot_equivalence : Equivalence (≡@{ballot}).
Proof.
  split; [done|intros x y [? ?]; by split|].
  intros x y z [E1 F1] [E2 F2]. split; [congruence|]. intros a. by rewrite F1.
Qed.

(** A member renews its vote on an account; more than half of the members
    change the membership, which ends the votes on the account and the votes
    of whoever is no longer a member. *)
Definition vote (signer c : address) (b : bool) (x : ballot) : ballot :=
  let others := b_for x c ∖ {[signer]} in
  let for_c := if bool_decide (b = bool_decide (c ∉ b_members x)) then {[signer]} ∪ others else others in
  if decide (size (b_members x) < 2 * size for_c)%nat then
    let members := flip_member c (b_members x) in
    mkBallot members (λ a, if decide (a = c) then ∅ else b_for x a ∩ members)
  else mkBallot (b_members x) (λ a, if decide (a = c) then for_c else b_for x a).

Definition reset (x : ballot) : ballot := mkBallot (b_members x) (λ _, ∅).

#[export] Instance vote_proper signer c b : Proper ((≡) ==> (≡)) (vote signer c b).
Proof.
  intros x y [E F]. unfold vote. rewrite E, F. destruct (decide _); split; cbn; [done| |done|];
    intros a; by destruct (decide (a = c)); rewrite ?F.
Qed.

Lemma elem_of_voters x l a : x ∈ voters_of l a ↔ ∃ v, v ∈ l ∧ v_Signer v = x ∧ v_Address v = a.
Proof.
  unfold voters_of. rewrite elem_of_list_to_set, list_elem_of_fmap. split.
  - intros (v & -> & [? ?]%list_elem_of_filter). eauto.
  - intros (v & Hv & <- & Ha). exists v. by rewrite list_elem_of_filter.
Qed.

Lemma size_voters l a : NoDup (vote_key <$> l) → size (voters_of l a) = votes_on a l.
Proof.
  intros HN. unfold voters_of, votes_on. rewrite size_list_to_set; [by rewrite length_fmap|].
  induction l as [|v l IH]; [apply NoDup_nil_2|]. rewrite fmap_cons, NoDup_cons in HN. destruct HN as [Hv HN].
  rewrite filter_cons. destruct (decide _) as [E|E]; [|by apply IH]. rewrite fmap_cons. apply NoDup_cons.
  split; [|by apply IH]. rewrite list_elem_of_fmap. intros (w & Ew & [Ea Hw]%list_elem_of_filter).
  apply Hv. rewrite list_elem_of_fmap. exists w. unfold vote_key. split; congruence.
Qed.

(** The votes after [discard_previous] and [cast]. *)
Lemma voters_recorded n signer c b s s' :
  (signer, c) ∉ vote_key <$> sn_Votes s' → sn_Votes s' ⊆+ sn_Votes s →
  (∀ v, v ∈ sn_Votes s → vote_key v ≠ (signer, c) → v ∈ sn_Votes s') →
  ∀ counted : bool,
  let l := if counted then sn_Votes s' ++ [mkVote signer n c b] else sn_Votes s' in
  let others := voters_of (sn_Votes s) c ∖ {[signer]} in
  voters_of l c = (if counted then {[signer]} ∪ others else others) ∧
  ∀ a, a ≠ c → voters_of l a = voters_of (sn_Votes s) a.
Proof.
  intros Hk Hsub Hkeep counted l others.
  assert (∀ v, v ∈ sn_Votes s' ↔ v ∈ sn_Votes s ∧ vote_key v ≠ (signer, c)) as Hin.
  { intros v. split; [|naive_solver]. intros Hv. split; [by eapply elem_of_submseteq|].
    intros E. apply Hk. rewrite list_elem_of_fmap. by exists v. }
  assert (∀ x a, x ∈ voters_of (sn_Votes s') a ↔ x ∈ voters_of (sn_Votes s) a ∧ ¬ (x = signer ∧ a = c)) as Hv.
  { intros x a. rewrite !elem_of_voters. split.
    - intros (v & Hv & Hs & Ha). apply Hin in Hv as [Hv E]. split; [eauto|]. intros [-> ->]. apply E. unfold vote_key. congruence.
    - intros [(v & Hv & Hs & Ha) E]. exists v. rewrite Hin. split_and!; [done| |done|done].
      intros K. apply E. unfold vote_key in K. by simplify_eq. }
  assert (∀ x a, x ∈ voters_of l a ↔ x ∈ voters_of (sn_Votes s') a ∨ counted = true ∧ x = signer ∧ a = c) as Hl.
  { intros x a. subst l. destruct counted; [|naive_solver]. rewrite !elem_of_voters. setoid_rewrite elem_of_app.
    setoid_rewrite list_elem_of_singleton. split; [naive_solver|].
    intros [(v & ? & ? & ?)|(_ & -> & ->)]; [naive_solver|]. eexists. split; [by right|done]. }
  split; [|intros a Ha]; apply set_eq; intros x; rewrite Hl, Hv; [|naive_solver].
  subst others. destruct counted; set_solver.
Qed.

Lemma voters_kept c S l a :
  Forall (λ v, v_Signer v ∈ S) l →
  voters_of (kept_votes c S l) a = if decide (a = c) then ∅ else voters_of l a ∩ flip_member c S.
Proof.
  intros HS. rewrite Forall_forall in HS.
  assert (∀ v, v ∈ kept_votes c S l ↔ v ∈ l ∧ v_Address v ≠ c ∧ v_Signer v ∈ flip_member c S) as Hin.
  { intros v. unfold kept_votes, flip_member. rewrite list_elem_of_filter.
    destruct (decide (c ∈ S)); rewrite ?list_elem_of_filter; set_solver. }
  apply set_eq. intros x. rewrite elem_of_voters. setoid_rewrite Hin. destruct (decide (a = c)) as [->|Ha].
  - set_solver.
  - rewrite elem_of_intersection, elem_of_voters. naive_solver.
Qed.

Lemma recents_insert n signer s :
  0 ≤ n → recents_in n (signer_limit s - 1) s → (∀ k, sn_Recents s !! k ≠ Some signer) →
  recents_in (n + 1) (signer_limit s) (set_Recents (<[n + 1 := signer]> (sn_Recents s)) s).
Proof.
  intros Hn [Hw Hd] Hnew. split.
  - intros k a. cbn. rewrite lookup_insert_Some. intros [[<- _]|[_ Ha]]; [unfold signer_limit; go_lia|].
    apply Hw in Ha. lia.
  - intros k k' a. cbn. rewrite !lookup_insert_Some.
    intros [[? Ea]|[? Ha]] [[? Ea']|[? Ha']]; [congruence| | |by eapply Hd]; exfalso.
    + apply (Hnew k'). congruence.
    + apply (Hnew k). congruence.
Qed.

(** The passed vote on the recorded votes is the abstract one. *)
Lemma ballot_change signer c b s s3 s' :
  let counted := bool_decide (b = bool_decide (c ∉ sn_Signers s)) in
  let others := voters_of (sn_Votes s) c ∖ {[signer]} in
  let passed := Z.of_nat (size (sn_Signers s3)) / 2 <? Z.of_nat (votes_on c (sn_Votes s3)) in
  sn_Signers s3 = sn_Signers s → NoDup (vote_key <$> sn_Votes s3) →
  Forall (λ v, v_Signer v ∈ sn_Signers s3) (sn_Votes s3) →
  voters_of (sn_Votes s3) c = (if counted then {[signer]} ∪ others else others) →
  (∀ a, a ≠ c → voters_of (sn_Votes s3) a = voters_of (sn_Votes s) a) →
  sn_Signers s' = (if passed then flip_member c (sn_Signers s3) else sn_Signers s3) →
  sn_Votes s' = (if passed then kept_votes c (sn_Signers s3) (sn_Votes s3) else sn_Votes s3) →
  ballot_of s' ≡ vote signer c b (ballot_of s).
Proof.
  intros counted others passed ES HN HF Hc Ho HS HV. unfold vote. cbn [ballot_of b_members b_for].
  fold others counted. rewrite <- Hc, size_voters by done.
  assert (passed = bool_decide (size (sn_Signers s) < 2 * votes_on c (sn_Votes s3))%nat) as Hp.
  { subst passed. rewrite ES. case_bool_decide; [apply Z.ltb_lt|apply Z.ltb_ge]; go_lia. }
  rewrite Hp in HS, HV. destruct (decide _) as [E|E];
    [rewrite bool_decide_true in HS, HV by done|rewrite bool_decide_false in HS, HV by done];
    (split; [cbn; by rewrite HS, ES|]); intros a; cbn; rewrite HV.
  - rewrite voters_kept, ES by done. destruct (decide (a = c)); [done|]. by rewrite Ho.
  - destruct (decide (a = c)) as [->|]; [done|]. by apply Ho.
Qed.

(** What an accepted header does, and why one is refused. *)
Lemma apply_signed_spec epoch n s h signer :
  0 < epoch → 0 ≤ n → votes_ok epoch (n + 1) s → recents_in n (signer_limit s - 1) s →
  u64 (hd_Number h) = n + 1 →
  match apply_signed s h signer with
  | Err e =>
      (e = errUnauthorizedSigner ∧ signer ∉ sn_Signers s) ∨
      (e = errRecentlySigned ∧ ∃ k, sn_Recents s !! k = Some signer) ∨
      (e = errInvalidVote ∧ vote_of_nonce (hd_Nonce h) = None)
  | Ok s' =>
      signer ∈ sn_Signers s ∧ (∀ k, sn_Recents s !! k ≠ Some signer) ∧
      ∃ b, vote_of_nonce (hd_Nonce h) = Some b ∧ good epoch (n + 1) s' ∧
        recents_kept (n + 1) (set_Recents (<[n + 1 := signer]> (sn_Recents s)) s) s' ∧
        ballot_of s' ≡ vote signer (hd_Coinbase h) b (ballot_of s)
  end.
Proof.
  intros He Hn Hok Hr Hnum. unfold apply_signed. rewrite Hnum.
  destruct (decide (signer ∉ sn_Signers s)) as [|Hs]; [by left|]. apply dec_stable in Hs.
  assert (∀ k, sn_Recents s !! k = Some signer → signer ∈ (map_to_list (sn_Recents s)).*2) as Hrec.
  { intros k Hk. rewrite list_elem_of_fmap. exists (k, signer). by rewrite elem_of_map_to_list. }
  destruct (decide (signer ∈ (map_to_list (sn_Recents s)).*2)) as [Hin|Hin].
  { right. left. split; [done|]. rewrite list_elem_of_fmap in Hin. destruct Hin as ([k a] & -> & Hk).
    exists k. by rewrite elem_of_map_to_list in Hk. }
  set (s1 := set_Recents (<[n + 1 := signer]> (sn_Recents s)) s).
  assert (votes_ok epoch (n + 1) s1) as Hok1 by (destruct Hok; by split).
  assert (recents_in (n + 1) (signer_limit s) s1) as Hr1 by (apply recents_insert; [done|done|by intros k ?%Hrec]).
  destruct (discard_previous_spec epoch (n + 1) signer (hd_Coinbase h) s1 Hok1) as (Hok2 & ES2 & ER2 & Hsub & Hk & Hkeep).
  set (s2 := discard_previous signer (hd_Coinbase h) s1) in *.
  destruct (vote_of_nonce (hd_Nonce h)) as [b|]; [|by right; right].
  destruct (record_vote epoch (n + 1) signer (hd_Coinbase h) b s2) as (Hok3 & ES3 & ER3 & EV3);
    [done|by rewrite ES2|done|done|lia|].
  destruct (cast (hd_Coinbase h) b s2) as [counted s3'] eqn:EC. cbn [fst snd] in *.
  set (s3 := if counted then _ else _) in *.
  assert (sn_Signers s3 = sn_Signers s) as ES by (by rewrite ES3, ES2).
  assert (sn_Recents s3 = sn_Recents s1) as ER by (by rewrite ER3, ER2).
  destruct (vote_passed_spec epoch (n + 1) (hd_Coinbase h) s3 Hok3) as (Hg & HR & HS & HV).
  { unfold signer_limit. rewrite ES. destruct Hr1 as [Hw Hd]. split; by rewrite ER. }
  split; [done|]. split; [by intros k ?%Hrec|]. exists b. split; [done|]. split; [done|].
  split; [unfold recents_kept in *; by rewrite ER in HR|].
  assert (counted = bool_decide (b = bool_decide (hd_Coinbase h ∉ sn_Signers s))) as Hb.
  { destruct (counts_cast (hd_Coinbase h) b (sn_Votes s2) s2) as [F _]; [by destruct Hok2|].
    rewrite EC, ES2 in F. exact F. }
  rewrite ES2 in EV3. change (sn_Signers s1) with (sn_Signers s) in EV3. rewrite <- Hb in EV3.
  destruct (voters_recorded (n + 1) signer (hd_Coinbase h) b s s2 Hk Hsub Hkeep counted) as [Hc Ho].
  rewrite <- EV3 in Hc, Ho.
  rewrite Hb in Hc. by apply (ballot_change signer (hd_Coinbase h) b s s3); try destruct Hok3.
Qed.
