(* ===== verification/CliqueChain.v ===== *)
(** * Voting snapshots along a chain (consensus/clique/snapshot.go)

    [apply] over a list of headers with the shared signature cache: it is the
    replay of the headers with the signers their seals recover to, keeps the
    invariant of the snapshot, refines the abstract ballot, spaces the blocks
    of a signer and leaves half of the signers free to sign next. *)
From S2P Require Import Prelude Common RlpEncode StateObject Concrete TeWaka Consensus Clique CliqueVotes.
Import Common.Crypto.

(** The abstract protocol along headers: every signer is a member and renews
    its vote; checkpoints end all votes. *)
Inductive ballot_steps (epoch : Z) : ballot → list Header → list address → ballot → Prop :=
| ballot_done x y : x ≡ y → ballot_steps epoch x [] [] y
| ballot_next x x1 h hs a l b y :
    x1 ≡ (if u64 (hd_Number h) mod epoch =? 0 then reset x else x) →
    a ∈ b_members x1 → vote_of_nonce (hd_Nonce h) = Some b →
    ballot_steps epoch (vote a (hd_Coinbase h) b x1) hs l y →
    ballot_steps epoch x (h :: hs) (a :: l) y.

#[export] Instance reset_proper : Proper ((≡) ==> (≡)) reset.
Proof. intros x y [E F]. by split. Qed.

Lemma ballot_steps_start epoch x x' hs l y : x' ≡ x → ballot_steps epoch x hs l y → ballot_steps epoch x' hs l y.
Proof.
  intros E H. destruct H as [x y E'|x x1 h hs a l b y H1 H2 H3 H4].
  - apply ballot_done. by rewrite E.
  - apply (ballot_next epoch x' x1 h hs a l b y); [|done..]. rewrite H1. destruct (_ =? 0); by rewrite E.
Qed.

Section Chain.
Context {B : Backend} {R : Recover} {SC : Arc address} {SCOk : ArcOk SC}.
Context (config : CliqueConfig).

(** ** The signature cache *)

(** The cache answers what the seals say, for the headers in [P]. *)
Definition sigs_ok (P : Header → Prop) (c : arc address) : Prop :=
  ∀ h a, P h → arc_has c (Header_Hash h) a → recover h = Ret (Ok a).

(** No two headers in [P] with the same hash and different seals. *)
Definition seals_distinct (P : Header → Prop) : Prop :=
  ∀ h h', P h → P h' → Header_Hash h = Header_Hash h' → recover h = recover h'.

Lemma ecrecover_spec P c h :
  seals_distinct P → sigs_ok P c → P h →
  match recover h with
  | Panic => ecrecover h c = XPanic
  | Ret r => ∃ c', ecrecover h c = XRet (r, c') ∧ sigs_ok P c'
  end.
Proof.
  intros Hd Hc Hh. unfold ecrecover. destruct (arc_Get (Header_Hash h) c) as [known c1] eqn:G.
  assert (sigs_ok P c1) as Hc1.
  { intros h' a Hh' Ha. apply Hc; [done|]. apply arc_Get_keeps with (k := Header_Hash h). by rewrite G. }
  destruct known as [a|].
  - rewrite (Hc h a Hh) by (unfold arc_has; by rewrite G). by exists c1.
  - destruct (recover h) as [[a|e]|] eqn:E; [|by exists c1|done]. eexists. split; [done|].
    intros h' a' Hh' [[Hk ->]|?]%arc_Add_keeps; [|by apply Hc1]. rewrite <- E. by apply Hd.
Qed.

(** ** Replaying headers *)

Inductive replay : Snapshot → list Header → list address → Snapshot → Prop :=
| replay_nil s : replay s [] [] s
| replay_cons s h hs a l s1 s' :
    apply_signed (apply_prologue config (u64 (hd_Number h)) s) h a = Ok s1 →
    replay s1 hs l s' → replay s (h :: hs) (a :: l) s'.

Abbreviation seals := (Forall2 (λ h a, recover h = Ret (Ok a))).

Lemma apply_headers_run P hs : ∀ s c,
  0 < Epoch config → seals_distinct P → sigs_ok P c → Forall P hs →
  match apply_headers config s hs c with
  | XRet (r, c') => sigs_ok P c' ∧ ∀ s', r = Ok s' → ∃ l, replay s hs l s' ∧ seals hs l
  | XPanic => ∃ h, h ∈ hs ∧ recover h = Panic
  | XFuel => False
  end.
Proof.
  induction hs as [|h hs IH]; intros s c He Hd Hc HP; cbn [apply_headers].
  { cbv [sret]. split; [done|]. intros s' [= <-]. exists []. split; constructor. }
  apply Forall_cons in HP as [Hh HP]. unfold apply_header. rewrite (proj2 (Z.eqb_neq (Epoch config) 0)) by lia.
  pose proof (ecrecover_spec P c h Hd Hc Hh) as Hec. cbv [stry sbind].
  destruct (recover h) as [[a|e]|] eqn:Er.
  - destruct Hec as (c1 & Ec & Hc1). rewrite Ec. cbv [sret].
    destruct (apply_signed _ h a) as [s1|e] eqn:Es; [|by split]. specialize (IH s1 c1 He Hd Hc1 HP).
    destruct (apply_headers config s1 hs c1) as [[r c']| |]; [|destruct IH as (x & ? & ?); exists x; set_solver|done].
    destruct IH as [Hc' IH]. split; [done|]. intros s' Hs'. destruct (IH s' Hs') as (l & Hr & Hs).
    exists (a :: l). split; [by econstructor|by constructor].
  - destruct Hec as (c1 & Ec & Hc1). rewrite Ec. cbv [sret]. by split.
  - rewrite Hec. exists h. split; [by left|done].
Qed.

Lemma apply_headers_replay P hs : ∀ s l c s',
  0 < Epoch config → seals_distinct P → sigs_ok P c → Forall P hs → replay s hs l s' → seals hs l →
  ∃ c', apply_headers config s hs c = XRet (Ok s', c') ∧ sigs_ok P c'.
Proof.
  intros s l c s' He Hd Hc HP Hr. revert c Hc HP.
  induction Hr as [s|s h hs a l s1 s' Ha Hr IH]; intros c Hc HP Hs; [by exists c|].
  apply Forall_cons in HP as [Hh HP]. apply Forall2_cons in Hs as [Hx Hs].
  pose proof (ecrecover_spec P c h Hd Hc Hh) as Hec. rewrite Hx in Hec. destruct Hec as (c1 & Ec & Hc1).
  destruct (IH c1 Hc1 HP Hs) as (c' & Eh & Hc'). exists c'. split; [|done].
  cbn [apply_headers]. unfold apply_header. rewrite (proj2 (Z.eqb_neq _ _)) by lia.
  cbv [stry sbind sret]. rewrite Ec, Ha. exact Eh.
Qed.

Lemma replay_app s hs1 l1 s1 hs2 l2 s2 :
  replay s hs1 l1 s1 → replay s1 hs2 l2 s2 → replay s (hs1 ++ hs2) (l1 ++ l2) s2.
Proof. induction 1; cbn; [done|]. intros. econstructor; eauto. Qed.

Lemma replay_length s hs l s' : replay s hs l s' → length l = length hs.
Proof. induction 1; cbn; congruence. Qed.

Lemma contiguous_cons n h hs :
  0 ≤ n → n + zlen (h :: hs) < 2 ^ 64 → contiguous n (h :: hs) = true →
  u64 (hd_Number h) = n + 1 ∧ contiguous (n + 1) hs = true ∧ n + 1 + zlen hs < 2 ^ 64.
Proof.
  unfold zlen. cbn [length contiguous]. intros Hn Hl [E%Z.eqb_eq H]%andb_prop.
  unfold u64 in E at 2. rewrite wrap_id in E by (unfold in_w; lia). rewrite E in *. split_and!; [done|done|lia].
Qed.

(** ** The invariant and the ballot along a replay *)

Lemma prologue_ballot n s :
  ballot_of (apply_prologue config n s) ≡ if n mod Epoch config =? 0 then reset (ballot_of s) else ballot_of s.
Proof.
  destruct (prologue_fields config n s) as (ES & EV & _). unfold ballot_of, reset. rewrite ES, EV.
  by destruct (_ =? 0).
Qed.

Lemma prologue_limit n s : signer_limit (apply_prologue config n s) = signer_limit s.
Proof. unfold signer_limit. by destruct (prologue_fields config n s) as (-> & _). Qed.

(** One header, from the invariant. *)
Lemma header_step n s h a s1 :
  0 < Epoch config → 0 ≤ n → good (Epoch config) n s → u64 (hd_Number h) = n + 1 →
  let s0 := apply_prologue config (n + 1) s in
  apply_signed s0 h a = Ok s1 →
  a ∈ sn_Signers s ∧ (∀ k, sn_Recents s0 !! k ≠ Some a) ∧
  ∃ b, vote_of_nonce (hd_Nonce h) = Some b ∧ good (Epoch config) (n + 1) s1 ∧
    recents_kept (n + 1) (set_Recents (<[n + 1 := a]> (sn_Recents s0)) s0) s1 ∧
    ballot_of s1 ≡ vote a (hd_Coinbase h) b (ballot_of s0).
Proof.
  intros He Hn [Hv Hr] Hnum s0 Ha.
  pose proof (apply_signed_spec (Epoch config) n s0 h a He Hn (prologue_votes config n s He Hn Hv)) as H.
  rewrite Ha in H. destruct (prologue_fields config (n + 1) s) as (ES & _). fold s0 in ES.
  rewrite <- ES. apply H; [|done].
  unfold s0. rewrite prologue_limit. by apply prologue_recents.
Qed.

Lemma replay_good s hs l s' : replay s hs l s' → ∀ n,
  0 < Epoch config → 0 ≤ n → good (Epoch config) n s → contiguous n hs = true → n + zlen hs < 2 ^ 64 →
  good (Epoch config) (n + zlen hs) s' ∧ ballot_steps (Epoch config) (ballot_of s) hs l (ballot_of s').
Proof.
  induction 1 as [s|s h hs a l s1 s' Ha Hr IH]; intros n He Hn Hg Hc Hl.
  { change (zlen []) with 0. rewrite Z.add_0_r. split; [done|by constructor]. }
  destruct (contiguous_cons n h hs Hn Hl Hc) as (Hnum & Hc' & Hl'). rewrite Hnum in Ha.
  destruct (header_step n s h a s1 He Hn Hg Hnum Ha) as (Hm & _ & b & Hb & Hg1 & _ & Hbal).
  destruct (IH (n + 1) He ltac:(lia) Hg1 Hc' Hl') as [Hg' Hst].
  split; [replace (n + zlen (h :: hs)) with (n + 1 + zlen hs); [done|unfold zlen; cbn [length]; lia]|].
  eapply (ballot_next _ _ (ballot_of (apply_prologue config (n + 1) s))); [|  |exact Hb|].
  - rewrite Hnum. apply prologue_ballot.
  - cbn [ballot_of b_members]. by destruct (prologue_fields config (n + 1) s) as (-> & _).
  - eapply ballot_steps_start; [|exact Hst]. by rewrite Hbal.
Qed.

(** ** Spacing *)

(** The snapshots on the way never have fewer than [w] blocks in their window. *)
Fixpoint wide (w : Z) (s : Snapshot) (hs : list Header) (l : list address) : Prop :=
  match hs, l with
  | h :: hs, a :: l =>
      w ≤ signer_limit s ∧
      match apply_signed (apply_prologue config (u64 (hd_Number h)) s) h a with
      | Ok s1 => wide w s1 hs l
      | Err _ => True
      end
  | _, _ => w ≤ signer_limit s
  end.

#[export] Instance wide_dec w hs : ∀ s l, Decision (wide w s hs l).
Proof.
  induction hs as [|h hs IH]; intros s [|a l]; cbn [wide]; [apply _..|]. apply and_dec; [apply _|].
  destruct (apply_signed _ h a); [apply IH|apply _].
Defined.

(** The recent signers cover the last [w] blocks of a history. *)
Definition covers (w n : Z) (past : gmap Z address) (s : Snapshot) : Prop :=
  ∀ k a, past !! k = Some a → n - w < k ≤ n → sn_Recents s !! k = Some a.

Lemma wide_limit w s hs l s' : replay s hs l s' → wide w s hs l → w ≤ signer_limit s.
Proof. destruct 1; cbn; naive_solver. Qed.

Lemma covers_step w n past s h a s1 :
  0 < Epoch config → 0 ≤ n → good (Epoch config) n s → u64 (hd_Number h) = n + 1 →
  covers w n past s → w ≤ signer_limit s → w ≤ signer_limit s1 → 0 < w →
  apply_signed (apply_prologue config (n + 1) s) h a = Ok s1 →
  covers w (n + 1) (<[n + 1 := a]> past) s1 ∧ (∀ k, past !! k = Some a → n - w + 1 < k ≤ n → False).
Proof.
  intros He Hn Hg Hnum Hc Hw Hw1 Hw0 Ha.
  destruct (header_step n s h a s1 He Hn Hg Hnum Ha) as (_ & Hnew & b & _ & _ & Hk & _).
  destruct (prologue_fields config (n + 1) s) as (_ & _ & _ & ER). cbn in Hk.
  assert (∀ k x, past !! k = Some x → n + 1 - w < k ≤ n → sn_Recents (apply_prologue config (n + 1) s) !! k = Some x) as Hp.
  { intros k x Hx Hkr. rewrite ER. destruct (_ <=? _); [rewrite lookup_delete_ne by lia|]; apply Hc; (done || lia). }
  split.
  - intros k x. rewrite lookup_insert_Some. intros Hx Hkr.
    assert (<[n + 1 := a]> (sn_Recents (apply_prologue config (n + 1) s)) !! k = Some x) as Hi.
    { destruct Hx as [[<- <-]|[Hne Hx]]; [apply lookup_insert_Some; by left|].
      rewrite lookup_insert_ne by done. apply Hp; [done|lia]. }
    destruct Hk as [->| ->]; [done|]. cbn. rewrite lookup_delete_ne by lia. exact Hi.
  - intros k Hx Hkr. apply (Hnew k). apply Hp; [done|lia].
Qed.

Lemma replay_spaced w s hs l s' : replay s hs l s' → ∀ n past,
  0 < Epoch config → 0 ≤ n → good (Epoch config) n s → contiguous n hs = true → n + zlen hs < 2 ^ 64 →
  0 < w → wide w s hs l → covers w n past s →
  (∀ k i a, past !! k = Some a → l !! i = Some a → k ≤ n → k + w ≤ n + 1 + Z.of_nat i) ∧
  (∀ i j a, (i < j)%nat → l !! i = Some a → l !! j = Some a → w ≤ Z.of_nat j - Z.of_nat i).
Proof.
  induction 1 as [s|s h hs a l s1 s' Ha Hr IH]; intros n past He Hn Hg Hc Hl Hw Hwide Hcov; [done|].
  destruct (contiguous_cons n h hs Hn Hl Hc) as (Hnum & Hc' & Hl'). cbn [wide] in Hwide. rewrite Ha in Hwide.
  destruct Hwide as [Hw0 Hwide]. rewrite Hnum in Ha.
  destruct (header_step n s h a s1 He Hn Hg Hnum Ha) as (_ & _ & b & _ & Hg1 & _).
  destruct (covers_step w n past s h a s1) as [Hcov1 Hfar]; try done; [by eapply wide_limit|].
  destruct (IH (n + 1) (<[n + 1 := a]> past)) as [IH1 IH2]; try done; [lia|]. split.
  - intros k i x Hk Hi Hkn. destruct i as [|i]; cbn in Hi.
    + simplify_eq. destruct (decide (n - w + 1 < k)); [exfalso; by apply (Hfar k)|lia].
    + assert (k + w ≤ n + 1 + 1 + Z.of_nat i); [|lia].
      apply (IH1 k i x); [rewrite lookup_insert_ne by lia; done|done|lia].
  - intros i j x Hij Hi Hj. destruct j as [|j]; [lia|]. destruct i as [|i]; cbn in Hi, Hj.
    + simplify_eq. assert (n + 1 + w ≤ n + 1 + 1 + Z.of_nat j); [|lia].
      apply (IH1 (n + 1) j x); [apply lookup_insert_Some; by left|done|lia].
    + pose proof (IH2 i j x ltac:(lia) Hi Hj). lia.
Qed.

(** ** Who may sign next *)

(** The signers the next block may not come from. *)
Definition blocked (n : Z) (s : Snapshot) : gset address :=
  list_to_set ((map_to_list (sn_Recents (release_recent (n + 1) s))).*2).

Lemma blocked_few n s :
  0 ≤ n → recents_in n (signer_limit s) s → (size (blocked n s) ≤ size (sn_Signers s) / 2)%nat.
Proof.
  intros Hn Hr. destruct (release_window n s Hr) as [Hw _]. set (M := sn_Recents (release_recent (n + 1) s)) in *.
  assert (size (blocked n s) ≤ size M)%nat.
  { unfold blocked. fold M. rewrite <- (length_map_to_list M), <- (length_fmap snd (map_to_list M)).
    generalize ((map_to_list M).*2). intros l. induction l as [|x l IHl]; [done|].
    rewrite list_to_set_cons. cbn [length]. pose proof (size_union_alt (C := gset address) {[x]} (list_to_set l)) as E.
    rewrite E, size_singleton.
    assert (size (list_to_set l ∖ {[x]} : gset address) ≤ size (list_to_set l : gset address))%nat
      by (apply subseteq_size; set_solver). lia. }
  assert (dom M ⊆ list_to_set (seqZ (n + 2 - signer_limit s) (signer_limit s - 1))) as Hd.
  { intros k [a Ha]%elem_of_dom. apply elem_of_list_to_set, elem_of_seqZ. apply Hw in Ha. lia. }
  apply subseteq_size in Hd. rewrite size_dom, size_list_to_set, length_seqZ in Hd by apply NoDup_seqZ.
  unfold signer_limit in Hd. pose proof (Nat2Z.inj_div (size (sn_Signers s)) 2). lia.
Qed.

(** A valid vote by a signer that is not blocked is accepted, one by any other
    account is refused. *)
Lemma next_signer n s h a :
  0 < Epoch config → 0 ≤ n → good (Epoch config) n s → u64 (hd_Number h) = n + 1 →
  vote_of_nonce (hd_Nonce h) ≠ None →
  match apply_signed (apply_prologue config (n + 1) s) h a with
  | Ok _ => a ∈ sn_Signers s ∧ a ∉ blocked n s
  | Err e => e = errUnauthorizedSigner ∧ a ∉ sn_Signers s ∨ e = errRecentlySigned ∧ a ∈ blocked n s
  end.
Proof.
  intros He Hn [Hv Hr] Hnum Hb. set (s0 := apply_prologue config (n + 1) s).
  assert (∀ x, x ∈ blocked n s ↔ ∃ k, sn_Recents s0 !! k = Some x) as Hx.
  { assert (sn_Recents (release_recent (n + 1) s) = sn_Recents s0) as E.
    { subst s0. unfold apply_prologue. destruct (_ =? 0); [|done]. unfold release_recent.
      change (signer_limit (set_Tally ∅ (set_Votes [] s))) with (signer_limit s). by destruct (_ <=? _). }
    intros x. unfold blocked. rewrite E, elem_of_list_to_set, list_elem_of_fmap. split.
    - intros ([k y] & -> & Hk). exists k. by apply elem_of_map_to_list.
    - intros [k Hk]. exists (k, x). by rewrite elem_of_map_to_list. }
  pose proof (apply_signed_spec (Epoch config) n s0 h a He Hn (prologue_votes config n s He Hn Hv)) as H.
  destruct (prologue_fields config (n + 1) s) as (ES & _). fold s0 in ES.
  pose proof (prologue_recents config n s Hr) as Hr0. rewrite <- (prologue_limit (n + 1) s) in Hr0.
  specialize (H Hr0 Hnum). destruct (apply_signed s0 h a); rewrite Hx, <- ES; [|naive_solver].
  destruct H as (? & Hk & _). split; [done|]. intros [k ?]. by apply (Hk k).
Qed.

(** Headers do not touch the number of the snapshot they start from. *)
Lemma discard_signer_number c todo : ∀ kept s, sn_Number (discard_signer c kept todo s) = sn_Number s.
Proof.
  induction todo as [|v todo IH]; intros kept s; cbn; [done|]. destruct (decide _); rewrite IH; [|done].
  unfold uncast. by repeat case_match.
Qed.

Lemma apply_signed_number s h a s1 : apply_signed s h a = Ok s1 → sn_Number s1 = sn_Number s.
Proof.
  assert (∀ x b s, sn_Number (snd (uncast x b s)) = sn_Number s) as Hu
    by (intros; unfold uncast; by repeat case_match).
  assert (∀ n s, sn_Number (release_recent n s) = sn_Number s) as Hrel by (intros; unfold release_recent; by case_match).
  unfold apply_signed. destruct (decide _); [done|]. destruct (decide _); [done|].
  set (s2 := discard_previous _ _ _). assert (sn_Number s2 = sn_Number s) as <-.
  { subst s2. unfold discard_previous. destruct (list_find _ _) as [[i v]|]; [|done]. cbn. by rewrite Hu. }
  destruct (vote_of_nonce _) as [b|]; [|done]. destruct (cast _ b s2) as [counted s3] eqn:EC. intros [= <-].
  assert (sn_Number s3 = sn_Number s2) as <- by (unfold cast in EC; by repeat case_match; simplify_eq).
  unfold vote_passed. repeat case_match; cbn; rewrite ?discard_signer_number, ?Hrel; done.
Qed.

Lemma replay_number s hs l s' : replay s hs l s' → sn_Number s' = sn_Number s.
Proof.
  induction 1 as [|s h hs a l s1 s' Ha Hr IH]; [done|]. rewrite IH. apply apply_signed_number in Ha as ->.
  unfold apply_prologue, release_recent. by repeat case_match.
Qed.

(** [apply] in terms of a replay. *)
Lemma apply_run P s hs c :
  0 < Epoch config → seals_distinct P → sigs_ok P c → Forall P hs →
  match apply config s hs c with
  | XRet (r, c') => sigs_ok P c' ∧ ∀ s', r = Ok s' →
      contiguous (sn_Number s) hs = true ∧ ∃ l s1, replay s hs l s1 ∧ seals hs l ∧
        s' = match last hs with
             | None => s1
             | Some x => mkSnapshot (u64 (sn_Number s + zlen hs)) (Header_Hash x)
                           (sn_Signers s1) (sn_Recents s1) (sn_Votes s1) (sn_Tally s1)
             end
  | XPanic => ∃ h, h ∈ hs ∧ recover h = Panic
  | XFuel => False
  end.
Proof.
  intros He Hd Hc HP. unfold apply. destruct (last hs) as [lasth|] eqn:El.
  - destruct (contiguous _ hs) eqn:Ec; cbn [negb]; [|cbv [sret]; by split]. cbv [stry sbind sret].
    pose proof (apply_headers_run P hs s c He Hd Hc HP) as H.
    destruct (apply_headers config s hs c) as [[[s1|e] c1]| |]; [| |done..]; destruct H as [Hc1 H]; (split; [done|]);
      [|done]. intros s' [= <-]. split; [done|]. destruct (H s1 eq_refl) as (l & Hr & Hs). exists l, s1.
    by rewrite (replay_number _ _ _ _ Hr).
  - apply last_None in El. subst hs. cbv [sret]. split; [done|]. intros s' [= <-]. split; [done|].
    exists [], s. split_and!; [constructor|constructor|done].
Qed.

Lemma apply_inv P s hs c s' c' :
  0 < Epoch config → seals_distinct P → sigs_ok P c → Forall P hs → is_u64 (sn_Number s) →
  apply config s hs c = XRet (Ok s', c') →
  ∃ l s1, replay s hs l s1 ∧ seals hs l ∧ sigs_ok P c' ∧ contiguous (sn_Number s) hs = true ∧
    ballot_of s' = ballot_of s1 ∧ (∀ n, good (Epoch config) n s1 ↔ good (Epoch config) n s') ∧
    sn_Number s' = u64 (sn_Number s + zlen hs).
Proof.
  intros He Hd Hc HP Hu E. pose proof (apply_run P s hs c He Hd Hc HP) as H. rewrite E in H.
  destruct H as [Hc' H]. destruct (H s' eq_refl) as (Hcon & l & s1 & Hr & Hs & Es). exists l, s1.
  destruct (last hs) eqn:El; subst s'.
  - split_and!; try done. intros n. split; intros [[] []]; by split.
  - apply last_None in El. subst hs. split_and!; try done. rewrite (replay_number _ _ _ _ Hr).
    change (zlen []) with 0. rewrite Z.add_0_r. symmetry. by apply wrap_id.
Qed.

(** [apply] on the next header. *)
Lemma apply_one P s h a c :
  0 < Epoch config → is_u64 (sn_Number s) → sn_Number s + 1 < 2 ^ 64 → seals_distinct P → sigs_ok P c → P h →
  recover h = Ret (Ok a) → u64 (hd_Number h) = sn_Number s + 1 →
  ∃ c', sigs_ok P c' ∧ apply config s [h] c =
    XRet (match apply_signed (apply_prologue config (sn_Number s + 1) s) h a with
          | Ok s1 => Ok (mkSnapshot (u64 (sn_Number s1 + 1)) (Header_Hash h)
                           (sn_Signers s1) (sn_Recents s1) (sn_Votes s1) (sn_Tally s1))
          | Err e => Err e
          end, c').
Proof.
  intros He Hu Hn Hd Hc HP Hrec Hnum. pose proof (ecrecover_spec P c h Hd Hc HP) as Hec.
  rewrite Hrec in Hec. destruct Hec as (c1 & Ec & Hc1). exists c1. split; [done|].
  unfold apply. cbn [last contiguous apply_headers]. unfold apply_header.
  rewrite (proj2 (Z.eqb_neq (Epoch config) 0)) by lia.
  unfold u64 at 2. rewrite wrap_id, Hnum, Z.eqb_refl by (split; [destruct Hu|]; lia). cbn [andb negb].
  cbv [stry sbind sret]. rewrite Ec. by destruct (apply_signed _ h a).
Qed.

Lemma good_new number h l : good (Epoch config) number (newSnapshot number h l).
Proof.
  split; split; cbn; try done; try apply NoDup_nil_2; intros *; by rewrite ?lookup_empty.
Qed.

End Chain.

(** ** Theorems *)

(** C25: voting refines the abstract ballot: applying headers to a snapshot that
    keeps the invariant succeeds only along a run of the abstract protocol
    (every seal by a member, one renewed vote per member and account, a change
    by more than half of the members, an end to all votes at checkpoints), and
    the cached tallies, votes and recent signers keep the invariant.  The
    signers are the ones the seals recover to, whatever the cache holds. *)
Theorem voting_refines_ballot {B : Backend} {R : Recover} {SC : Arc address} {SCOk : ArcOk SC}
    config P s headers c s' c' :
  0 < Epoch config → is_u64 (sn_Number s) → sn_Number s + zlen headers < 2 ^ 64 →
  good (Epoch config) (sn_Number s) s →
  seals_distinct P → sigs_ok P c → Forall P headers →
  apply config s headers c = XRet (Ok s', c') →
  ∃ l, Forall2 (λ h a, recover h = Ret (Ok a)) headers l ∧
    ballot_steps (Epoch config) (ballot_of s) headers l (ballot_of s') ∧
    sn_Number s' = sn_Number s + zlen headers ∧ good (Epoch config) (sn_Number s') s' ∧ sigs_ok P c'.
Proof.
  intros He Hu Hl Hg Hd Hc HP H. destruct (apply_inv config P s headers c s' c' He Hd Hc HP Hu H)
    as (l & s1 & Hr & Hs & Hc' & Hcon & Hb & Hg1 & Hn). exists l.
  destruct Hu as [Hu0 Hu1]. pose proof (zlen_nonneg headers).
  destruct (replay_good config s headers l s1 Hr (sn_Number s) He Hu0 Hg Hcon Hl) as [Hg' Hst].
  unfold u64 in Hn. rewrite wrap_id in Hn by (unfold in_w; lia).
  rewrite Hb, Hn. split_and!; try done. by apply Hg1.
Qed.

(** C30: blocks of one signer are spaced: while the signer set stays large enough
    for a window of [w] blocks, a signer whose block was applied signs none of
    the next [w - 1] blocks. *)
Theorem signers_are_spaced {B : Backend} {R : Recover} {SC : Arc address} {SCOk : ArcOk SC}
    config P s headers c s' c' w :
  0 < Epoch config → is_u64 (sn_Number s) → sn_Number s + zlen headers < 2 ^ 64 →
  good (Epoch config) (sn_Number s) s →
  seals_distinct P → sigs_ok P c → Forall P headers → 0 < w →
  apply config s headers c = XRet (Ok s', c') →
  ∃ l, Forall2 (λ h a, recover h = Ret (Ok a)) headers l ∧
    (wide config w s headers l → ∀ i j a, (i < j)%nat → l !! i = Some a → l !! j = Some a →
       w ≤ Z.of_nat j - Z.of_nat i).
Proof.
  intros He Hu Hl Hg Hd Hc HP Hw H. destruct (apply_inv config P s headers c s' c' He Hd Hc HP Hu H)
    as (l & s1 & Hr & Hs & _ & Hcon & _). exists l. split; [done|]. intros Hwide.
  destruct (replay_spaced config w s headers l s1 Hr (sn_Number s) ∅ He (proj1 Hu) Hg Hcon Hl Hw Hwide) as [_ Hsp];
    [intros k a; by rewrite lookup_empty|exact Hsp].
Qed.

(** C28: the chain can always go on: at most half of the signers are barred from
    the next block, and a header with a valid vote and the next number is
    accepted exactly when its seal is by one of the others. *)
Theorem half_may_sign {B : Backend} {R : Recover} {SC : Arc address} {SCOk : ArcOk SC} config P s :
  0 < Epoch config → is_u64 (sn_Number s) → sn_Number s + 1 < 2 ^ 64 →
  good (Epoch config) (sn_Number s) s → seals_distinct P →
  (size (sn_Signers s) ≤ 2 * size (sn_Signers s ∖ blocked (sn_Number s) s))%nat ∧
  ∀ h a c, P h → sigs_ok P c → recover h = Ret (Ok a) → u64 (hd_Number h) = sn_Number s + 1 →
    vote_of_nonce (hd_Nonce h) ≠ None →
    ∃ r c', apply config s [h] c = XRet (r, c') ∧
      if decide (a ∈ sn_Signers s ∖ blocked (sn_Number s) s) then ∃ s', r = Ok s'
      else r = Err errUnauthorizedSigner ∨ r = Err errRecentlySigned.
Proof.
  intros He Hu Hn Hg Hd. pose proof Hg as [_ Hr]. split.
  - pose proof (blocked_few (sn_Number s) s (proj1 Hu) Hr) as Hb.
    assert (size (sn_Signers s) ≤ size (sn_Signers s ∖ blocked (sn_Number s) s) + size (blocked (sn_Number s) s))%nat.
    { rewrite <- size_union by set_solver. apply subseteq_size.
      intros x. destruct (decide (x ∈ blocked (sn_Number s) s)); set_solver. }
    pose proof (Nat.Div0.mul_div_le (size (sn_Signers s)) 2). lia.
  - intros h a c HP Hc Hrec Hnum Hb. pose proof (next_signer config _ s h a He (proj1 Hu) Hg Hnum Hb) as Hx.
    destruct (apply_one config P s h a c He Hu Hn Hd Hc HP Hrec Hnum) as (c' & _ & E). eexists _, c'.
    split; [exact E|]. destruct (apply_signed _ h a) as [s'|e].
    + rewrite decide_True by set_solver. eauto.
    + rewrite decide_False by set_solver. naive_solver.
Qed.

(** ** Instances and examples *)

(** A cache that never evicts, and seals that hold the address in clear. *)
#[export] Instance MapArc A : Arc A := {|
  arc := gmap hash A;
  arc_Get k c := (c !! k, c);
  arc_Add k v c := <[k := v]> c
|}.
#[export] Instance MapArcOk A : ArcOk (MapArc A).
Proof.
  split; [done|]. intros c k v k' v'. unfold arc_has. cbn. rewrite lookup_insert_Some. naive_solver.
Qed.
#[export] Instance ClearRecover : Recover := {| Ecrecover _ signature := Ok (4 :: signature) |}.

Definition sealed (number coinbase signer : Z) (nonce : bytes) : Header :=
  mkHeader 0 coinbase 0 0 0 [] 1 number 30000000 0 number (repeat 0 96 ++ [signer]) nonce (Some 0).
Definition demo_config : CliqueConfig := mkCliqueConfig 0 30000.
Definition demo_signers : Snapshot := newSnapshot 0 7 [1; 2; 3].
Definition demo_chain : list Header := [sealed 1 9 1 nonceAuthVote; sealed 2 9 2 nonceAuthVote; sealed 3 0 3 nonceDropVote].

Lemma demo_distinct : seals_distinct (λ h, h ∈ demo_chain).
Proof.
  intros h h' Hh Hh' E. unfold demo_chain in Hh, Hh'. rewrite !elem_of_cons, elem_of_nil in Hh, Hh'.
  destruct Hh as [->|[->|[->|[]]]], Hh' as [->|[->|[->|[]]]]; 
    first [vm_compute in E; discriminate E|reflexivity].
Qed.

Lemma demo_sigs P : sigs_ok P (∅ : gmap hash address).
Proof. intros h a _. unfold arc_has. cbn. by rewrite lookup_empty. Qed.

Definition demo_voted : xres (result clique_error Snapshot * gmap hash address) :=
  apply demo_config demo_signers demo_chain (∅ : gmap hash address).

(** Two of three signers vote a fourth in. *)
Lemma demo_voted_in :
  match demo_voted with XRet (Ok s, _) => bool_decide (sn_Signers s = {[9; 1; 2; 3]}) | _ => false end = true.
Proof. vm_compute. reflexivity. Qed.

Lemma demo_seals l : Forall2 (λ h a, recover h = Ret (Ok a)) demo_chain l → l = [1; 2; 3].
Proof.
  intros Hs. unfold demo_chain in Hs.
  apply Forall2_cons_inv_l in Hs as (a & l1 & H1 & Hs & ->). apply Forall2_cons_inv_l in Hs as (b & l2 & H2 & Hs & ->).
  apply Forall2_cons_inv_l in Hs as (d & l3 & H3 & Hs & ->). apply Forall2_nil_inv_l in Hs as ->.
  vm_compute in H1, H2, H3. congruence.
Qed.

Lemma voting_refines_ballot_witness :
  ∃ s' c', demo_voted = XRet (Ok s', c') ∧ sn_Signers s' = {[9; 1; 2; 3]} ∧
    good 30000 (sn_Number s') s' ∧
    ballot_steps 30000 (ballot_of demo_signers) demo_chain [1; 2; 3] (ballot_of s').
Proof.
  pose proof demo_voted_in as Hv. destruct demo_voted as [[[s'|e] c']| |] eqn:E; [|discriminate Hv..].
  exists s', c'. split; [reflexivity|]. apply bool_decide_eq_true_1 in Hv. split; [exact Hv|].
  destruct (voting_refines_ballot (SC := MapArc address) demo_config (λ h, h ∈ demo_chain) demo_signers demo_chain ∅ s' c')
    as (l & Hs & Hb & _ & Hg & _);
    [reflexivity|split; reflexivity || lia|reflexivity|apply (good_new demo_config)|apply demo_distinct|apply demo_sigs
    |by apply Forall_forall|exact E|].
  split; [exact Hg|]. by rewrite (demo_seals l Hs) in Hb.
Defined.

Lemma signers_are_spaced_witness :
  ∃ l : list address, l = [1; 2; 3] ∧ ∀ i j a, (i < j)%nat → l !! i = Some a → l !! j = Some a → 2 ≤ Z.of_nat j - Z.of_nat i.
Proof.
  pose proof demo_voted_in as Hv. destruct demo_voted as [[[s'|e] c']| |] eqn:E; [|discriminate Hv..].
  destruct (signers_are_spaced (SC := MapArc address) demo_config (λ h, h ∈ demo_chain) demo_signers demo_chain ∅ s' c' 2) as (l & Hs & Hsp);
    [reflexivity|split; reflexivity || lia|reflexivity|apply (good_new demo_config)|apply demo_distinct|apply demo_sigs
    |by apply Forall_forall|reflexivity|exact E|].
  exists l. rewrite (demo_seals l Hs) in *. split; [reflexivity|]. apply Hsp.
  apply (bool_decide_eq_true_1 _). vm_compute. reflexivity.
Defined.

(** The first block after the genesis. *)
Lemma half_may_sign_witness :
  ∃ r c', apply (SC := MapArc address) demo_config demo_signers [sealed 1 9 1 nonceAuthVote] ∅ = XRet (r, c') ∧ ∃ s', r = Ok s'.
Proof.
  destruct (half_may_sign (SC := MapArc address) demo_config (λ h, h ∈ demo_chain) demo_signers) as [_ H];
    [reflexivity|split; reflexivity || lia|reflexivity|apply (good_new demo_config)|apply demo_distinct|].
  destruct (H (sealed 1 9 1 nonceAuthVote) 1 ∅) as (r & c' & E & Hr);
    [by left|apply demo_sigs|vm_compute; reflexivity|reflexivity|discriminate|].
  exists r, c'. split; [exact E|]. rewrite decide_True in Hr; [exact Hr|].
  apply (bool_decide_eq_true_1 _). vm_compute. reflexivity.
Defined.
