(* ===== verification/CliqueEngine.v ===== *)
(** * The proof-of-authority engine (consensus/clique/clique.go, api.go)

    Finding the voting snapshot of a block through the memory cache, the
    database and the chain; verification of headers and seals; preparation and
    sealing of new blocks; the proposals of the node.  The chain reader, the
    key-value store, JSON, the caches, the clock and the choice among proposals
    are parameters; the goroutine that waits before it hands over a sealed
    block is its delay. *)
From S2P Require Import Prelude Common RlpEncode StateObject TeWaka Consensus Clique.
Import Enc Bytes Common.Crypto.

(** The key-value store and the JSON form of a snapshot. *)
Class SnapStore := {
  db_t : Type;
  json : Type;
  db_Get : db_t → bytes → result string json;
  db_Put : bytes → json → db_t → result string db_t;
  json_Marshal : Snapshot → result string json;
  json_Unmarshal : json → result string Snapshot
}.
Class SnapStoreOk (D : SnapStore) : Prop := {
  db_Get_Put : ∀ k v d d' k', db_Put k v d = Ok d' →
    db_Get d' k' = if decide (k' = k) then Ok v else db_Get d k';
  json_roundtrip : ∀ s b, json_Marshal s = Ok b → json_Unmarshal b = Ok s
}.

(** [consensus.ChainHeaderReader]. *)
Class ChainReader := {
  GetHeader : hash → Z → option Header;
  GetHeaderByNumber : Z → option Header;
  GetHeaderByHash : hash → option Header;
  CurrentHeader : option Header
}.

Definition checkpointInterval : Z := 1024.
Definition epochLength : Z := 30000.
Definition FullImmutabilityThreshold : Z := 90000.
Definition diffInTurn : Z := 2.
Definition diffNoTurn : Z := 1.
Definition wiggleTime : Z := 500 * 1000000.
Definition AddressLength : Z := 20.

Section Engine.
Context {B : Backend} {R : Recover} {SC : Arc address} {RC : Arc Snapshot} {D : SnapStore} {Ch : ChainReader}.

(** The engine; the signing function is an argument of [Seal]. *)
Record Clique := mkClique {
  cl_db : db_t;
  cl_recents : arc Snapshot;
  cl_signatures : arc address;
  cl_proposals : gmap address bool;
  cl_signer : address;
  cl_fakeDiff : bool
}.

Definition set_cl_db (x : db_t) (c : Clique) : Clique :=
  mkClique x (cl_recents c) (cl_signatures c) (cl_proposals c) (cl_signer c) (cl_fakeDiff c).
Definition set_cl_recents (x : arc Snapshot) (c : Clique) : Clique :=
  mkClique (cl_db c) x (cl_signatures c) (cl_proposals c) (cl_signer c) (cl_fakeDiff c).
Definition set_cl_signatures (x : arc address) (c : Clique) : Clique :=
  mkClique (cl_db c) (cl_recents c) x (cl_proposals c) (cl_signer c) (cl_fakeDiff c).
Definition set_cl_proposals (x : gmap address bool) (c : Clique) : Clique :=
  mkClique (cl_db c) (cl_recents c) (cl_signatures c) x (cl_signer c) (cl_fakeDiff c).
Definition set_cl_signer (x : address) (c : Clique) : Clique :=
  mkClique (cl_db c) (cl_recents c) (cl_signatures c) (cl_proposals c) x (cl_fakeDiff c).

Definition New (config : CliqueConfig) (db : db_t) (recents : arc Snapshot) (signatures : arc address)
    : CliqueConfig * Clique :=
  (if Epoch config =? 0 then mkCliqueConfig (Period config) epochLength else config,
   mkClique db recents signatures ∅ 0 false).

Definition Authorize (signer : address) (c : Clique) : Clique := set_cl_signer signer c.

(** Code that only uses the signature cache. *)
Definition on_sigs {A} (m : St (arc address) A) : St Clique A := λ c,
  match m (cl_signatures c) with
  | XRet (a, sc) => XRet (a, set_cl_signatures sc c)
  | XPanic => XPanic
  | XFuel => XFuel
  end.

Definition Author (header : Header) : St Clique (result clique_error address) := on_sigs (ecrecover header).

(** ** Snapshots in memory and in the database *)

Definition snap_key (h : hash) : bytes := [99; 108; 105; 113; 117; 101; 45] ++ Hash_Bytes h.

Definition loadSnapshot (h : hash) (db : db_t) : result string Snapshot :=
  try! blob <- db_Get db (snap_key h); json_Unmarshal blob.

Definition store (s : Snapshot) : St Clique (result clique_error ()) := λ c,
  match json_Marshal s with
  | Err e => XRet (Err (errDatabase e), c)
  | Ok blob =>
      match db_Put (snap_key (sn_Hash s)) blob (cl_db c) with
      | Err e => XRet (Err (errDatabase e), c)
      | Ok d => XRet (Ok tt, set_cl_db d c)
      end
  end.

Definition recents_Get (h : hash) : St Clique (option Snapshot) := λ c,
  let '(s, r) := arc_Get h (cl_recents c) in XRet (s, set_cl_recents r c).
Definition recents_Add (s : Snapshot) : St Clique () := smodify (λ c,
  set_cl_recents (arc_Add (sn_Hash s) s (cl_recents c)) c).

(** The signers of a checkpoint header: a negative length panics. *)
Definition extra_signers (h : Header) : outcome (list address) :=
  let n := Z.quot (zlen (hd_Extra h) - extraVanity - extraSeal) AddressLength in
  if n <? 0 then Panic
  else Ret ((λ i, be_decode (slice (hd_Extra h) (extraVanity + Z.of_nat i * AddressLength)
                                   (extraVanity + Z.of_nat (S i) * AddressLength))) <$> seq 0 (Z.to_nat n)).

(** Whether the walk back may stop at a checkpoint it trusts, and that header;
    a zero epoch is a division by zero. *)
Definition trusted (config : CliqueConfig) (number : Z) (headers : list Header) : outcome (option Header) :=
  if number =? 0 then Ret (GetHeaderByNumber number)
  else if Epoch config =? 0 then Panic
  else Ret (if (number mod Epoch config =? 0) &&
               ((FullImmutabilityThreshold <? zlen headers) ||
                match GetHeaderByNumber (u64 (number - 1)) with None => true | Some _ => false end)
            then GetHeaderByNumber number else None).

(** The header the walk goes on with, and the parents left. *)
Definition step_back (number : Z) (h : hash) (parents : list Header) : result clique_error (Header * list Header) :=
  match last parents with
  | Some header =>
      if negb (Header_Hash header =? h) || negb (u64 (hd_Number header) =? number) then Err errUnknownAncestor
      else Ok (header, removelast parents)
  | None =>
      match GetHeader h number with
      | None => Err errUnknownAncestor
      | Some header => Ok (header, [])
      end
  end.

(** The loop: the snapshot found and the headers to apply, newest first.  Fuel
    is one round per block. *)
Fixpoint find_snapshot (config : CliqueConfig) (fuel : nat) (number : Z) (h : hash) (parents headers : list Header)
    : St Clique (result clique_error (Snapshot * list Header)) :=
  match fuel with
  | O => λ _, XFuel
  | S fuel =>
      run! cached <- recents_Get h;
      match cached with
      | Some s => sret (Ok (s, headers))
      | None =>
          run! loaded <- (if number mod checkpointInterval =? 0 then sread (λ c, loadSnapshot h (cl_db c))
                          else sret (Err EmptyString));
          match loaded with
          | Ok s => sret (Ok (s, headers))
          | Err _ =>
              run! checkpoint <- sout (trusted config number headers);
              match checkpoint with
              | Some checkpoint =>
                  run! l <- sout (extra_signers checkpoint);
                  let snap := newSnapshot number (Header_Hash checkpoint) l in
                  ok! _ <- store snap;
                  sret (Ok (snap, headers))
              | None =>
                  match step_back number h parents with
                  | Err e => sret (Err e)
                  | Ok (header, parents) =>
                      find_snapshot config fuel (u64 (number - 1)) (hd_ParentHash header) parents (headers ++ [header])
                  end
              end
          end
      end
  end.

Definition snapshot (config : CliqueConfig) (fuel : nat) (number : Z) (h : hash) (parents : list Header)
    : St Clique (result clique_error Snapshot) :=
  ok! (snap, headers) <- find_snapshot config fuel number h parents [];
  ok! snap <- on_sigs (apply config snap (reverse headers));
  run! _ <- recents_Add snap;
  if (sn_Number snap mod checkpointInterval =? 0) && (0 <? zlen headers) then
    ok! _ <- store snap; sret (Ok snap)
  else sret (Ok snap).

(** ** Verification *)

(** [range snap.Recents]: the signer sealed a block the current one does not
    shift out; the subtraction is at 64 bits. *)
Definition signed_recently (number : Z) (signer : address) (s : Snapshot) : bool :=
  existsb (λ '(seen, recent), (recent =? signer) && (u64 (number - signer_limit s) <? seen)) (map_to_list (sn_Recents s)).

Definition verifySeal (config : CliqueConfig) (fuel : nat) (header : Header) (parents : list Header)
    : St Clique (result clique_error ()) :=
  let number := u64 (hd_Number header) in
  if number =? 0 then sret (Err errUnknownBlock)
  else
    ok! snap <- snapshot config fuel (u64 (number - 1)) (hd_ParentHash header) parents;
    ok! signer <- on_sigs (ecrecover header);
    if decide (signer ∉ sn_Signers snap) then sret (Err errUnauthorizedSigner)
    else if signed_recently number signer snap then sret (Err errRecentlySigned)
    else
      run! fake <- sread cl_fakeDiff;
      if (fake : bool) then sret (Ok tt)
      else
        run! turn <- sout (inturn number signer snap);
        if (turn : bool) && negb (hd_Difficulty header =? diffInTurn) then sret (Err errWrongDifficulty)
        else if negb turn && negb (hd_Difficulty header =? diffNoTurn) then sret (Err errWrongDifficulty)
        else sret (Ok tt).

(** The bytes of the signer list a checkpoint carries. *)
Definition signer_bytes (s : Snapshot) : bytes := concat (Address_Bytes <$> signers s).

Definition parent_of (header : Header) (parents : list Header) : option Header :=
  match last parents with
  | Some p => Some p
  | None => GetHeader (hd_ParentHash header) (u64 (u64 (hd_Number header) - 1))
  end.

Definition verifyCascadingFields (config : CliqueConfig) (fuel : nat) (header : Header) (parents : list Header)
    : St Clique (result clique_error ()) :=
  let number := u64 (hd_Number header) in
  if number =? 0 then sret (Ok tt)
  else
    match parent_of header parents with
    | None => sret (Err errUnknownAncestor)
    | Some parent =>
        if negb (u64 (hd_Number parent) =? u64 (number - 1)) || negb (Header_Hash parent =? hd_ParentHash header)
        then sret (Err errUnknownAncestor)
        else if hd_Time header <? u64 (hd_Time parent + Period config) then sret (Err errInvalidTimestamp)
        else if hd_GasLimit header <? hd_GasUsed header then sret (Err errGasUsed)
        else
          run! fee <- sout (VerifyEip1559Header parent header);
          match fee with
          | Err e => sret (Err (errEip1559 e))
          | Ok _ =>
              ok! snap <- snapshot config fuel (u64 (number - 1)) (hd_ParentHash header) parents;
              if Epoch config =? 0 then spanic
              else if (number mod Epoch config =? 0) &&
                      negb (bool_decide (slice (hd_Extra header) extraVanity (zlen (hd_Extra header) - extraSeal)
                                         = signer_bytes snap))
              then sret (Err errMismatchingCheckpointSigners)
              else verifySeal config fuel header parents
          end
    end.

(** The standalone checks; a header decoded from the wire has a number and a
    difficulty. *)
Definition standalone (config : CliqueConfig) (unixNow : Z) (header : Header) : result clique_error () :=
  let number := u64 (hd_Number header) in
  let checkpoint := number mod Epoch config =? 0 in
  let signersBytes := zlen (hd_Extra header) - extraVanity - extraSeal in
  if u64 unixNow <? hd_Time header then Err errFutureBlock
  else if checkpoint && negb (hd_Coinbase header =? 0) then Err errInvalidCheckpointBeneficiary
  else if bool_decide (hd_Nonce header ≠ nonceAuthVote) && bool_decide (hd_Nonce header ≠ nonceDropVote)
  then Err errInvalidVote
  else if checkpoint && bool_decide (hd_Nonce header ≠ nonceDropVote) then Err errInvalidCheckpointVote
  else if zlen (hd_Extra header) <? extraVanity then Err errMissingVanity
  else if zlen (hd_Extra header) <? extraVanity + extraSeal then Err errMissingSignature
  else if negb checkpoint && negb (signersBytes =? 0) then Err errExtraSigners
  else if checkpoint && negb (Z.rem signersBytes AddressLength =? 0) then Err errInvalidCheckpointSigners
  else if (0 <? number) && negb (hd_Difficulty header =? diffInTurn) && negb (hd_Difficulty header =? diffNoTurn)
  then Err errInvalidDifficulty
  else if 0x7fffffffffffffff <? hd_GasLimit header then Err errGasLimitCap
  else Ok tt.

(** The time is read before the epoch is divided by, so a block from the
    future is refused first. *)
Definition verifyHeader (config : CliqueConfig) (fuel : nat) (unixNow : Z) (header : Header) (parents : list Header)
    : St Clique (result clique_error ()) :=
  if negb (u64 unixNow <? hd_Time header) && (Epoch config =? 0) then spanic
  else
    match standalone config unixNow header with
    | Err e => sret (Err e)
    | Ok _ => verifyCascadingFields config fuel header parents
    end.

(** [VerifyHeaders] without its abort channel: each header with the ones
    before it as parents. *)
Fixpoint VerifyHeaders (config : CliqueConfig) (fuel : nat) (unixNow : Z) (before headers : list Header)
    : St Clique (list (result clique_error ())) :=
  match headers with
  | [] => sret []
  | h :: headers =>
      run! r <- verifyHeader config fuel unixNow h before;
      run! rs <- VerifyHeaders config fuel unixNow (before ++ [h]) headers;
      sret (r :: rs)
  end.

(** ** Making blocks *)

Definition set_vote (coinbase : address) (nonce : bytes) (h : Header) : Header :=
  mkHeader (hd_ParentHash h) coinbase (hd_Root h) (hd_TxHash h) (hd_ReceiptHash h) (hd_Bloom h)
    (hd_Difficulty h) (hd_Number h) (hd_GasLimit h) (hd_GasUsed h) (hd_Time h) (hd_Extra h) nonce (hd_BaseFee h).
Definition set_Extra (extra : bytes) (h : Header) : Header :=
  mkHeader (hd_ParentHash h) (hd_Coinbase h) (hd_Root h) (hd_TxHash h) (hd_ReceiptHash h) (hd_Bloom h)
    (hd_Difficulty h) (hd_Number h) (hd_GasLimit h) (hd_GasUsed h) (hd_Time h) extra (hd_Nonce h) (hd_BaseFee h).
Definition set_Time (time : Z) (h : Header) : Header :=
  mkHeader (hd_ParentHash h) (hd_Coinbase h) (hd_Root h) (hd_TxHash h) (hd_ReceiptHash h) (hd_Bloom h)
    (hd_Difficulty h) (hd_Number h) (hd_GasLimit h) (hd_GasUsed h) time (hd_Extra h) (hd_Nonce h) (hd_BaseFee h).

Definition clique_calcDifficulty (snap : Snapshot) (signer : address) : outcome Z :=
  do! turn <- inturn (u64 (sn_Number snap + 1)) signer snap;
  Ret (if (turn : bool) then diffInTurn else diffNoTurn).

(** The proposals that make sense, in the order of the map (Go's order is not
    fixed), and the vote of the one picked. *)
Definition sensible (proposals : gmap address bool) (snap : Snapshot) : list (address * bool) :=
  filter (λ '(a, authorize), validVote a authorize snap = true) (map_to_list proposals).

Definition pick_vote (pick : nat) (proposals : gmap address bool) (snap : Snapshot) (h : Header) : Header :=
  match sensible proposals snap !! (pick mod length (sensible proposals snap))%nat with
  | Some (a, authorize) => set_vote a (if (authorize : bool) then nonceAuthVote else nonceDropVote) h
  | None => h
  end.

(** The extra field: vanity, signers at a checkpoint, room for the seal. *)
Definition prepared_extra (config : CliqueConfig) (number : Z) (snap : Snapshot) (extra : bytes) : bytes :=
  let extra := if zlen extra <? extraVanity then extra ++ repeat 0 (Z.to_nat (extraVanity - zlen extra)) else extra in
  let extra := slice extra 0 extraVanity in
  let extra := if number mod Epoch config =? 0 then extra ++ signer_bytes snap else extra in
  extra ++ repeat 0 (Z.to_nat extraSeal).

Definition Prepare (config : CliqueConfig) (fuel pick : nat) (unixNow : Z) (header : Header)
    : St Clique (result clique_error Header) :=
  let header := set_vote 0 nonceDropVote header in
  let number := u64 (hd_Number header) in
  ok! snap <- snapshot config fuel (u64 (number - 1)) (hd_ParentHash header) [];
  run! c <- sread id;
  if Epoch config =? 0 then spanic
  else
    let header := if number mod Epoch config =? 0 then header else pick_vote pick (cl_proposals c) snap header in
    run! difficulty <- sout (clique_calcDifficulty snap (cl_signer c));
    let header := set_Difficulty difficulty header in
    let header := set_Extra (prepared_extra config number snap (hd_Extra header)) header in
    match GetHeader (hd_ParentHash header) (u64 (number - 1)) with
    | None => sret (Err errUnknownAncestor)
    | Some parent =>
        let time := u64 (hd_Time parent + Period config) in
        sret (Ok (set_Time (if time <? u64 unixNow then u64 unixNow else time) header))
    end.

(** [Seal]'s check of the recent signers guards the subtraction. *)
Definition must_wait (number : Z) (signer : address) (s : Snapshot) : bool :=
  existsb (λ '(seen, recent), (recent =? signer) &&
             ((number <? signer_limit s) || (u64 (number - signer_limit s) <? seen))) (map_to_list (sn_Recents s)).

(** [copy(header.Extra[len-extraSeal:], sighash)]: too short an extra field
    panics. *)
Definition put_seal (sighash : bytes) (h : Header) : outcome Header :=
  let n := zlen (hd_Extra h) - extraSeal in
  if n <? 0 then Panic
  else
    let old := slice (hd_Extra h) n (zlen (hd_Extra h)) in
    Ret (set_Extra (slice (hd_Extra h) 0 n ++ take (length old) sighash ++ drop (length sighash) old) h).

(** [None]: sealing is paused; otherwise the sealed header and the delay, in
    nanoseconds, after which it is handed over.  [random] stands for
    [rand.Int63n]. *)
Definition Seal (config : CliqueConfig) (fuel : nat) (signFn : address → bytes → result string bytes)
    (random : Z → Z) (nowNanos : Z) (transactions : nat) (header : Header)
    : St Clique (result clique_error (option (Header * Z))) :=
  let number := u64 (hd_Number header) in
  if number =? 0 then sret (Err errUnknownBlock)
  else if (Period config =? 0) && (transactions =? 0)%nat then sret (Ok None)
  else
    run! signer <- sread cl_signer;
    ok! snap <- snapshot config fuel (u64 (number - 1)) (hd_ParentHash header) [];
    if decide (signer ∉ sn_Signers snap) then sret (Err errUnauthorizedSigner)
    else if must_wait number signer snap then sret (Ok None)
    else
      let delay := i64 (hd_Time header) * 1000000000 - nowNanos in
      let delay := if hd_Difficulty header =? diffNoTurn then delay + random (signer_limit snap * wiggleTime) else delay in
      run! message <- sout (encodeSigHeader header);
      match signFn signer message with
      | Err e => sret (Err (errEcrecover e))
      | Ok sighash => run! h <- sout (put_seal sighash header); sret (Ok (Some (h, delay)))
      end.

Definition CalcDifficulty (config : CliqueConfig) (fuel : nat) (parent : Header) : St Clique (option Z) :=
  run! r <- snapshot config fuel (u64 (hd_Number parent)) (Header_Hash parent) [];
  match r with
  | Err _ => sret None
  | Ok snap =>
      run! signer <- sread cl_signer;
      run! d <- sout (clique_calcDifficulty snap signer);
      sret (Some d)
  end.

(** ** The programming interface (api.go) *)

(** No number, or the latest block, is the current header. *)
Definition api_header (number : option Z) : option Header :=
  match number with None => CurrentHeader | Some n => GetHeaderByNumber (u64 n) end.

Definition snapshot_of (config : CliqueConfig) (fuel : nat) (header : option Header) : St Clique (result clique_error Snapshot) :=
  match header with
  | None => sret (Err errUnknownBlock)
  | Some h => snapshot config fuel (u64 (hd_Number h)) (Header_Hash h) []
  end.

Definition GetSnapshot (config : CliqueConfig) (fuel : nat) (number : option Z) := snapshot_of config fuel (api_header number).
Definition GetSnapshotAtHash (config : CliqueConfig) (fuel : nat) (h : hash) := snapshot_of config fuel (GetHeaderByHash h).
Definition GetSigners (config : CliqueConfig) (fuel : nat) (number : option Z) : St Clique (result clique_error (list address)) :=
  ok! snap <- GetSnapshot config fuel number; sret (Ok (signers snap)).
Definition GetSignersAtHash (config : CliqueConfig) (fuel : nat) (h : hash) : St Clique (result clique_error (list address)) :=
  ok! snap <- GetSnapshotAtHash config fuel h; sret (Ok (signers snap)).

Definition Proposals (c : Clique) : gmap address bool := cl_proposals c.
Definition Propose (a : address) (auth : bool) (c : Clique) : Clique := set_cl_proposals (<[a := auth]> (cl_proposals c)) c.
Definition Discard (a : address) (c : Clique) : Clique := set_cl_proposals (delete a (cl_proposals c)) c.

End Engine.
