(* ===== verification/CliqueSpec.v ===== *)
(** * What the proof-of-authority engine guarantees
    (consensus/clique/clique.go)

    Every snapshot the engine finds, whatever its caches hold, is the replay of
    linked headers from a checkpoint of the chain; the seal check agrees with
    what a later replay accepts; a prepared and sealed header verifies. *)
From S2P Require Import Prelude Common RlpEncode StateObject Concrete TeWaka Consensus Clique CliqueVotes CliqueChain CliqueEngine.
Import Enc Bytes Common.Crypto.

(** ** Number and hash of a snapshot are labels *)

Definition with_head (n : Z) (h : hash) (s : Snapshot) : Snapshot :=
  mkSnapshot n h (sn_Signers s) (sn_Recents s) (sn_Votes s) (sn_Tally s).

Section Head.
Context (n : Z) (h : hash).
Abbreviation wh := (with_head n h).

Lemma uncast_head a b s : snd (uncast a b (wh s)) = wh (snd (uncast a b s)).
Proof. unfold uncast. cbn. by repeat case_match. Qed.

Lemma cast_head a b s : cast a b (wh s) = (fst (cast a b s), wh (snd (cast a b s))).
Proof.
  unfold cast. change (validVote a b (wh s)) with (validVote a b s).
  change (sn_Tally (wh s)) with (sn_Tally s). destruct (validVote a b s); [|done]. cbn [negb].
  by destruct (sn_Tally s !! a).
Qed.

Lemma release_head k s : release_recent k (wh s) = wh (release_recent k s).
Proof. unfold release_recent. change (signer_limit (wh s)) with (signer_limit s). by case_match. Qed.

Lemma discard_signer_head c todo : ∀ kept s, discard_signer c kept todo (wh s) = wh (discard_signer c kept todo s).
Proof.
  induction todo as [|v todo IH]; intros kept s; cbn [discard_signer]; [done|].
  destruct (decide _); [rewrite uncast_head|]; apply IH.
Qed.

Lemma discard_previous_head a c s : discard_previous a c (wh s) = wh (discard_previous a c s).
Proof.
  unfold discard_previous. change (sn_Votes (wh s)) with (sn_Votes s).
  destruct (list_find _ _) as [[i v]|]; [|done]. by rewrite uncast_head.
Qed.

Lemma vote_passed_head k c s : vote_passed k c (wh s) = wh (vote_passed k c s).
Proof.
  unfold vote_passed. change (sn_Tally (wh s)) with (sn_Tally s). change (sn_Signers (wh s)) with (sn_Signers s).
  destruct (_ <? _); [|done]. destruct (t_Authorize _); [done|].
  change (set_Signers (sn_Signers s ∖ {[c]}) (wh s)) with (wh (set_Signers (sn_Signers s ∖ {[c]}) s)).
  rewrite release_head, discard_signer_head. done.
Qed.

Lemma apply_signed_head s hd a :
  apply_signed (wh s) hd a = match apply_signed s hd a with Ok s1 => Ok (wh s1) | Err e => Err e end.
Proof.
  unfold apply_signed. change (sn_Signers (wh s)) with (sn_Signers s). change (sn_Recents (wh s)) with (sn_Recents s).
  destruct (decide _); [done|]. destruct (decide _); [done|].
  change (set_Recents ?r (wh s)) with (wh (set_Recents r s)). rewrite discard_previous_head.
  destruct (vote_of_nonce _) as [b|]; [|done]. rewrite cast_head.
  destruct (cast _ b _) as [[|] s2]; cbn [fst snd]; [|by rewrite vote_passed_head].
  change (set_Votes ?l (wh s2)) with (wh (set_Votes l s2)). by rewrite vote_passed_head.
Qed.

Lemma prologue_head config k s : apply_prologue config k (wh s) = wh (apply_prologue config k s).
Proof.
  unfold apply_prologue. rewrite <- release_head. by destruct (_ =? 0).
Qed.

Lemma replay_head config s hs l s' : replay config (wh s) hs l s' → ∃ s1, replay config s hs l s1 ∧ s' = wh s1.
Proof.
  remember (wh s) as t eqn:Et. intros H. revert s Et.
  induction H as [t|t hd hs a l t1 s' Ha Hr IH]; intros s ->; [exists s; split; [constructor|done]|].
  rewrite prologue_head, apply_signed_head in Ha.
  destruct (apply_signed (apply_prologue config (u64 (hd_Number hd)) s) hd a) as [s1|] eqn:E; [|done].
  simplify_eq. destruct (IH s1 eq_refl) as (s2 & H2 & ->). exists s2. split; [by econstructor|done].
Qed.

End Head.

(** ** Chains of headers *)

Section Linked.
Context {B : Backend}.

Fixpoint linked (hs : list Header) : Prop :=
  match hs with
  | x :: ((y :: _) as t) => Header_Hash x = hd_ParentHash y ∧ linked t
  | _ => True
  end.

Lemma linked_app hs1 hs2 :
  linked hs1 → linked hs2 →
  (∀ x y, last hs1 = Some x → head hs2 = Some y → Header_Hash x = hd_ParentHash y) → linked (hs1 ++ hs2).
Proof.
  induction hs1 as [|x hs1 IH]; intros H1 H2 H; [done|]. destruct hs1 as [|y hs1].
  - destruct hs2 as [|z hs2]; [done|]. split; [by apply H|done].
  - destruct H1 as [E H1]. split; [done|]. apply IH; [done|done|]. intros a b Ha Hb. apply H; [|done]. by rewrite last_cons_cons.
Qed.

(** A walk back from the block with hash [h] and number [n], newest first. *)
Fixpoint descends (P : Header → Prop) (h : hash) (n : Z) (hs : list Header) : Prop :=
  match hs with
  | [] => True
  | x :: hs => P x ∧ Header_Hash x = h ∧ u64 (hd_Number x) = n ∧ 0 < n ∧ descends P (hd_ParentHash x) (n - 1) hs
  end.

Lemma descends_facts P hs : ∀ h n, descends P h n hs →
  linked (reverse hs) ∧ Forall P hs ∧ (∀ x, head hs = Some x → Header_Hash x = h ∧ u64 (hd_Number x) = n) ∧
  (∀ x, last hs = Some x → u64 (hd_Number x) = n - zlen hs + 1) ∧ (hs ≠ [] → zlen hs ≤ n).
Proof.
  induction hs as [|x hs IH]; intros h n H; [done|]. destruct H as (HP & Hh & Hn & H0 & H).
  destruct (IH _ _ H) as (Hl & HF & Hhd & Hla & Hz).
  assert (zlen (x :: hs) = zlen hs + 1) as Ez by (unfold zlen; cbn [length]; lia). split_and!.
  - rewrite reverse_cons. apply linked_app; [done|done|]. intros y z Hy. rewrite last_reverse in Hy. intros [= <-].
    by apply Hhd in Hy as [-> _].
  - by constructor.
  - by intros y [= <-].
  - intros y Hy. destruct hs as [|z hs]; [injection Hy as <-; change (zlen [x]) with 1; lia|].
    rewrite last_cons_cons in Hy. rewrite (Hla y Hy), Ez. lia.
  - intros _. destruct hs as [|z hs]; [change (zlen [x]) with 1; lia|]. specialize (Hz ltac:(done)). lia.
Qed.

End Linked.

(** ** The seal check *)

Lemma elem_of_blocked n a s : a ∈ blocked n s ↔ ∃ k, sn_Recents (release_recent (n + 1) s) !! k = Some a.
Proof.
  unfold blocked. rewrite elem_of_list_to_set, list_elem_of_fmap. split.
  - intros ([k x] & -> & Hk). exists k. by apply elem_of_map_to_list.
  - intros [k Hk]. exists (k, a). by rewrite elem_of_map_to_list.
Qed.

Lemma signed_recently_spec n a s :
  signed_recently n a s = true ↔ ∃ k, sn_Recents s !! k = Some a ∧ u64 (n - signer_limit s) < k.
Proof.
  unfold signed_recently. rewrite existsb_exists. split.
  - intros ([k x] & Hin & [E%Z.eqb_eq Hk%Z.ltb_lt]%andb_prop). subst x. exists k. split; [|done].
    by apply elem_of_map_to_list, list_elem_of_In.
  - intros (k & Hk & Hlt). exists (k, a). split; [by apply list_elem_of_In, elem_of_map_to_list|].
    by rewrite Z.eqb_refl, (proj2 (Z.ltb_lt _ _)).
Qed.

(** Once the window has filled, the seal check bars exactly the signers a replay
    bars. *)
Lemma seal_check_exact n a s :
  0 ≤ n → n + 1 < 2 ^ 64 → recents_in n (signer_limit s) s → signer_limit s ≤ n + 1 →
  signed_recently (n + 1) a s = true ↔ a ∈ blocked n s.
Proof.
  intros Hn Hn' [Hw _] Hl. rewrite signed_recently_spec, elem_of_blocked.
  assert (0 < signer_limit s) by (unfold signer_limit; go_lia).
  unfold u64. rewrite wrap_id by (split; lia).
  unfold release_recent. rewrite (proj2 (Z.leb_le _ _)) by done. cbn [sn_Recents set_Recents].
  split; intros [k Hk]; exists k.
  - rewrite lookup_delete_ne by lia. apply Hk.
  - rewrite lookup_delete_Some in Hk. destruct Hk as [Hne Hk]. pose proof (Hw k a Hk). split; [done|lia].
Qed.

(** Before that the subtraction wraps around and the check bars nobody. *)
Lemma seal_check_open n a s :
  0 ≤ n → recents_in n (signer_limit s) s → n + 1 < signer_limit s → signer_limit s < 2 ^ 63 →
  signed_recently (n + 1) a s = false.
Proof.
  intros Hn [Hw _] Hl Hb. apply not_true_is_false. rewrite signed_recently_spec. intros (k & Hk & Hlt).
  apply Hw in Hk. assert (n < u64 (n + 1 - signer_limit s)); [|lia]. go_lia.
Qed.

Section Making.
Context {B : Backend} {R : Recover} {SC : Arc address} {RC : Arc Snapshot} {D : SnapStore} {Ch : ChainReader}.
Context (config : CliqueConfig).

(** ** Prepared headers *)

Lemma length_concat_addresses (l : list address) : length (concat (Address_Bytes <$> l)) = (20 * length l)%nat.
Proof.
  induction l as [|a l IH]; [done|]. rewrite fmap_cons. cbn [concat length]. rewrite length_app, IH.
  unfold Address_Bytes. rewrite length_be_fixed. lia.
Qed.

Definition checkpoint_list (number : Z) (s : Snapshot) : bytes :=
  if number mod Epoch config =? 0 then signer_bytes s else [].

Lemma prepared_extra_shape number s extra :
  ∃ v, zlen v = 32 ∧ prepared_extra config number s extra = v ++ checkpoint_list number s ++ repeat 0 65.
Proof.
  unfold prepared_extra, checkpoint_list. set (e := if zlen extra <? extraVanity then _ else _).
  assert (32 ≤ zlen e) as He.
  { subst e. unfold extraVanity. destruct (Z.ltb_spec (zlen extra) 32); [|done].
    rewrite zlen_app. unfold zlen at 2. rewrite repeat_length. lia. }
  exists (slice e 0 extraVanity). split; [rewrite length_slice; unfold extraVanity; lia|].
  change (Z.to_nat extraSeal) with 65%nat. destruct (_ =? 0); by rewrite <- ?app_assoc.
Qed.

Lemma put_seal_shape sg h h' p q :
  put_seal sg h = Ret h' → hd_Extra h = p ++ q → zlen q = 65 →
  ∃ q', h' = set_Extra (p ++ q') h ∧ zlen q' = 65.
Proof.
  intros H E Hq. unfold put_seal in H. rewrite E, zlen_app, Hq in H. change extraSeal with 65 in H.
  rewrite Z.add_simpl_r in H. destruct (Z.ltb_spec (zlen p) 0); [pose proof (zlen_nonneg p); lia|].
  rewrite (slice_app_l p q) in H by done. rewrite (slice_app_r p q) in H by lia. injection H as <-.
  eexists. split; [reflexivity|]. unfold zlen in *. rewrite length_app, length_take, length_drop. lia.
Qed.

(** A header made for [s]: a vote that the checks accept, the right difficulty,
    room for the seal. *)
Record made_for (s : Snapshot) (signer : address) (parent h : Header) : Prop := {
  mf_parent : GetHeader (hd_ParentHash h) (u64 (u64 (hd_Number h) - 1)) = Some parent;
  mf_vote : hd_Nonce h = nonceAuthVote ∨ hd_Nonce h = nonceDropVote;
  mf_checkpoint : u64 (hd_Number h) mod Epoch config = 0 → hd_Coinbase h = 0 ∧ hd_Nonce h = nonceDropVote;
  mf_difficulty : clique_calcDifficulty s signer = Ret (hd_Difficulty h);
  mf_time : u64 (hd_Time parent + Period config) ≤ hd_Time h;
  mf_extra : ∃ v q, zlen v = 32 ∧ zlen q = 65 ∧ hd_Extra h = v ++ checkpoint_list (u64 (hd_Number h)) s ++ q
}.

Lemma pick_vote_fields pick proposals s h :
  let h' := pick_vote pick proposals s h in
  (hd_Nonce h = nonceDropVote → hd_Nonce h' = nonceAuthVote ∨ hd_Nonce h' = nonceDropVote) ∧
  hd_ParentHash h' = hd_ParentHash h ∧ hd_Number h' = hd_Number h ∧ hd_Extra h' = hd_Extra h.
Proof.
  unfold pick_vote. destruct (_ !! _) as [[a [|]]|]; cbn; split_and!; try done; naive_solver.
Qed.

Lemma Prepare_inv fuel pick now h0 c h c' :
  Prepare config fuel pick now h0 c = XRet (Ok h, c') →
  ∃ s parent, snapshot config fuel (u64 (u64 (hd_Number h0) - 1)) (hd_ParentHash h0) [] c = XRet (Ok s, c') ∧
    made_for s (cl_signer c') parent h ∧ hd_ParentHash h = hd_ParentHash h0 ∧ hd_Number h = hd_Number h0.
Proof.
  unfold Prepare. cbn [hd_Number hd_ParentHash set_vote]. intros H. unfold stry, sbind at 1 in H.
  destruct (snapshot _ _ _ _ _ c) as [[[s|e] c1]| |] eqn:Es; [|done..]. cbv [sbind sread sret id sout] in H.
  destruct (Epoch config =? 0); [done|].
  set (hv := if u64 (hd_Number h0) mod Epoch config =? 0 then _ else _) in *.
  assert (hd_ParentHash hv = hd_ParentHash h0 ∧ hd_Number hv = hd_Number h0 ∧
          (hd_Nonce hv = nonceAuthVote ∨ hd_Nonce hv = nonceDropVote) ∧
          (u64 (hd_Number h0) mod Epoch config = 0 → hd_Coinbase hv = 0 ∧ hd_Nonce hv = nonceDropVote)) as (E1 & E2 & E3 & E4).
  { subst hv. destruct (Z.eqb_spec (u64 (hd_Number h0) mod Epoch config) 0); [cbn; by split_and!; [..|right|]|].
    destruct (pick_vote_fields pick (cl_proposals c1) s (set_vote 0 nonceDropVote h0)) as (F1 & F2 & F3 & _).
    split_and!; [done|done|by apply F1|done]. }
  destruct (clique_calcDifficulty s (cl_signer c1)) as [d|] eqn:Ed; [|done]. cbn [hd_ParentHash hd_Number hd_Extra set_Extra set_Difficulty] in H.
  destruct (GetHeader (hd_ParentHash hv) _) as [parent|] eqn:Ep; [|done]. injection H as <- <-.
  exists s, parent. split; [done|]. split; [|done]. rewrite E1 in Ep.
  destruct (prepared_extra_shape (u64 (hd_Number h0)) s (hd_Extra hv)) as (v & Hv & Hx).
  split; cbn; rewrite ?E1, ?E2; try done.
  - destruct (Z.ltb_spec (u64 (hd_Time parent + Period config)) (u64 now)); lia.
  - exists v, (repeat 0 65). by rewrite Hx.
Qed.

Lemma made_sealed s a parent sg h h' : made_for s a parent h → put_seal sg h = Ret h' → made_for s a parent h'.
Proof.
  intros [H1 H2 H3 H4 H5 (v & q & Hv & Hq & E)] Hp. rewrite app_assoc in E.
  destruct (put_seal_shape sg h h' _ q Hp E Hq) as (q' & -> & Hq'). split; cbn; try done.
  exists v, q'. by rewrite <- app_assoc.
Qed.

Lemma difficulty_values s a d : clique_calcDifficulty s a = Ret d → d = diffInTurn ∨ d = diffNoTurn.
Proof. unfold clique_calcDifficulty. destruct (inturn _ _ _) as [[|]|]; cbn; intros [= <-]; auto. Qed.

Lemma made_standalone s a parent h now :
  0 < Epoch config → made_for s a parent h → hd_Time h ≤ u64 now → hd_GasLimit h ≤ 0x7fffffffffffffff →
  standalone config now h = Ok tt.
Proof.
  intros He [H1 H2 H3 H4 H5 (v & q & Hv & Hq & E)] Ht Hg. unfold standalone.
  rewrite E, !zlen_app, Hv, Hq. change extraVanity with 32. change extraSeal with 65. change AddressLength with 20.
  set (ck := checkpoint_list _ _). pose proof (zlen_nonneg ck).
  rewrite (proj2 (Z.ltb_ge _ _)) by done.
  assert ((u64 (hd_Number h) mod Epoch config =? 0) && negb (hd_Coinbase h =? 0) = false) as ->.
  { destruct (Z.eqb_spec (u64 (hd_Number h) mod Epoch config) 0) as [Ec|]; [|done]. by destruct (H3 Ec) as [-> _]. }
  assert (bool_decide (hd_Nonce h ≠ nonceAuthVote) && bool_decide (hd_Nonce h ≠ nonceDropVote) = false) as ->.
  { destruct H2 as [->| ->]; [by rewrite bool_decide_false by naive_solver|].
    by rewrite (bool_decide_false (nonceDropVote ≠ nonceDropVote)), andb_false_r by naive_solver. }
  assert ((u64 (hd_Number h) mod Epoch config =? 0) && bool_decide (hd_Nonce h ≠ nonceDropVote) = false) as ->.
  { destruct (Z.eqb_spec (u64 (hd_Number h) mod Epoch config) 0) as [Ec|]; [|done]. destruct (H3 Ec) as [_ ->].
    by rewrite bool_decide_false by naive_solver. }
  rewrite !(proj2 (Z.ltb_ge _ _)) by lia. replace (32 + (zlen ck + 65) - 32 - 65) with (zlen ck) by lia.
  assert (negb (u64 (hd_Number h) mod Epoch config =? 0) && negb (zlen ck =? 0) = false) as ->.
  { subst ck. unfold checkpoint_list. by destruct (u64 (hd_Number h) mod Epoch config =? 0). }
  assert ((u64 (hd_Number h) mod Epoch config =? 0) && negb (Z.rem (zlen ck) 20 =? 0) = false) as ->.
  { subst ck. unfold checkpoint_list. destruct (u64 (hd_Number h) mod Epoch config =? 0); [|done]. unfold signer_bytes, zlen. rewrite length_concat_addresses.
    rewrite Nat2Z.inj_mul, Z.mul_comm, Z.rem_mul by done. done. }
  rewrite (proj2 (Z.ltb_ge 0x7fffffffffffffff (hd_GasLimit h))) by done.
  destruct (difficulty_values _ _ _ H4) as [-> | ->]; rewrite ?Z.eqb_refl; cbn [negb]; by rewrite ?andb_false_r.
Qed.

(** Filling in the body of a block leaves the consensus fields alone. *)
Definition filled (h hf : Header) : Prop :=
  hd_ParentHash hf = hd_ParentHash h ∧ hd_Number hf = hd_Number h ∧ hd_Coinbase hf = hd_Coinbase h ∧
  hd_Difficulty hf = hd_Difficulty h ∧ hd_Time hf = hd_Time h ∧ hd_Extra hf = hd_Extra h ∧ hd_Nonce hf = hd_Nonce h.

Lemma filled_refl h : filled h h.
Proof. by split_and!. Qed.

Lemma made_filled s a parent h hf : made_for s a parent h → filled h hf → made_for s a parent hf.
Proof. intros [] (E1 & E2 & E3 & E4 & E5 & E6 & E7). split; by rewrite ?E1, ?E2, ?E3, ?E4, ?E5, ?E6, ?E7. Qed.

Lemma Seal_inv fuel signFn random now txs h c h' delay c' :
  Seal config fuel signFn random now txs h c = XRet (Ok (Some (h', delay)), c') →
  ∃ s sg, u64 (hd_Number h) ≠ 0 ∧
    snapshot config fuel (u64 (u64 (hd_Number h) - 1)) (hd_ParentHash h) [] c = XRet (Ok s, c') ∧
    cl_signer c ∈ sn_Signers s ∧ must_wait (u64 (hd_Number h)) (cl_signer c) s = false ∧ put_seal sg h = Ret h'.
Proof.
  intros H. unfold Seal in H. destruct (Z.eqb_spec (u64 (hd_Number h)) 0); [done|]. destruct (_ && _); [done|].
  unfold sbind at 1, sread, stry, sbind at 1 in H.
  destruct (snapshot _ _ _ _ _ c) as [[[s|e] c1]| |] eqn:Es; [|done..].
  destruct (decide _) as [|Hm%dec_stable]; [done|]. destruct (must_wait _ _ _) eqn:Ew; [done|].
  cbv [sbind sout sret] in H. destruct (encodeSigHeader h); [|done]. destruct (signFn _ _) as [sg|]; [|done].
  destruct (put_seal sg h) as [h1|] eqn:Ep; [|done]. simplify_eq. by exists s, sg.
Qed.

Lemma no_wait number a s : must_wait number a s = false → signed_recently number a s = false.
Proof.
  intros H. apply not_true_is_false. rewrite signed_recently_spec. intros (k & Hk & Hlt).
  apply not_true_iff_false in H. apply H. unfold must_wait. apply existsb_exists. exists (k, a).
  split; [by apply list_elem_of_In, elem_of_map_to_list|]. 
  by rewrite Z.eqb_refl, (proj2 (Z.ltb_lt (u64 (number - signer_limit s)) k)), orb_true_r.
Qed.

End Making.

(** ** Snapshots as replays *)

Section Spec.
Context {B : Backend} {BOk : BackendOk B} {R : Recover} {SC : Arc address} {SCOk : ArcOk SC} {RC : Arc Snapshot} {RCOk : ArcOk RC}.
Context {D : SnapStore} {DOk : SnapStoreOk D} {Ch : ChainReader}.
Context (config : CliqueConfig) (P : Header → Prop).
(** The blocks a walk back from at most [top] may trust: all checkpoints; or
    only the genesis block, while [top] is below the first checkpoint with
    [FullImmutabilityThreshold] blocks after it ([co_base] asks of every list
    of headers a walk could have collected). *)
Context (Base : Z → Prop) (top : Z).

(** The headers considered: what the chain reader gives, found under the hash
    and number asked for, with a genesis block. *)
Record chain_ok : Prop := {
  co_GetHeader : ∀ h n x, GetHeader h n = Some x → P x ∧ Header_Hash x = h ∧ u64 (hd_Number x) = n;
  co_ByNumber : ∀ n x, GetHeaderByNumber n = Some x → P x ∧ u64 (hd_Number x) = n;
  co_genesis : ∃ g, GetHeaderByNumber 0 = Some g;
  co_hash : ∀ x y, P x → P y → Header_Hash x = Header_Hash y → x = y;
  co_range : ∀ x, P x → is_u256 (hd_ParentHash x);
  co_base : ∀ n headers cp, n + zlen headers ≤ top → trusted config n headers = Ret (Some cp) → Base n
}.

Lemma chain_seals : chain_ok → seals_distinct P.
Proof. intros [_ _ _ H _ _] x y Hx Hy E. by rewrite (H x y). Qed.

(** A checkpoint the walk may start from. *)
Definition base_of (nb : Z) (cp : Header) (l0 : list address) : Prop :=
  is_u64 nb ∧ GetHeaderByNumber nb = Some cp ∧ Base nb ∧ extra_signers cp = Ret l0.

(** The snapshot [s] is the replay of linked headers [hs] on the checkpoint at
    [nb]. *)
Definition replays (nb : Z) (hs : list Header) (s : Snapshot) : Prop :=
  ∃ cp l0 l s1, base_of nb cp l0 ∧ Forall P hs ∧ linked hs ∧ contiguous nb hs = true ∧ nb + zlen hs < 2 ^ 64 ∧
    replay config (newSnapshot nb (Header_Hash cp) l0) hs l s1 ∧
    Forall2 (λ h a, recover h = Ret (Ok a)) hs l ∧
    s = with_head (nb + zlen hs) (match last hs with Some x => Header_Hash x | None => Header_Hash cp end) s1.
Definition rooted (s : Snapshot) : Prop := ∃ nb hs, replays nb hs s.

Lemma replays_number nb hs s : replays nb hs s → sn_Number s = nb + zlen hs ∧ is_u64 (sn_Number s).
Proof.
  intros (cp & l0 & l & s1 & [Hu _] & _ & _ & _ & Hl & _ & _ & ->). cbn. destruct Hu. pose proof (zlen_nonneg hs).
  split; [done|]. split; lia.
Qed.

Lemma replays_good nb hs s : 0 < Epoch config → replays nb hs s → good (Epoch config) (sn_Number s) s.
Proof.
  intros He (cp & l0 & l & s1 & [Hu _] & _ & _ & Hc & Hl & Hr & _ & ->).
  destruct (replay_good config _ hs l s1 Hr nb He (proj1 Hu) (good_new config nb _ l0) Hc Hl) as [[[] []] _].
  by split; split.
Qed.

Lemma contiguous_app hs1 : ∀ n hs2,
  0 ≤ n → n + zlen hs1 < 2 ^ 64 → contiguous n hs1 = true → contiguous (n + zlen hs1) hs2 = true →
  contiguous n (hs1 ++ hs2) = true.
Proof.
  induction hs1 as [|x hs1 IH]; intros n hs2 Hn Hl H1 H2.
  { change (zlen []) with 0 in H2. by rewrite Z.add_0_r in H2. }
  destruct (contiguous_cons n x hs1 Hn Hl H1) as (Ex & H1' & Hl'). cbn [contiguous app].
  rewrite Ex. unfold u64. rewrite wrap_id by (unfold zlen in *; cbn [length] in *; split; lia).
  rewrite Z.eqb_refl. cbn [andb]. apply IH; [lia|done|done|].
  replace (n + 1 + zlen hs1) with (n + zlen (x :: hs1)); [done|]. unfold zlen; cbn [length]; lia.
Qed.

(** Going on from a snapshot: the first header follows it, or it is a
    checkpoint itself. *)
Lemma replays_extend nb hs s hs2 l2 s2 x :
  replays nb hs s → Forall P hs2 → linked hs2 → contiguous (sn_Number s) hs2 = true →
  sn_Number s + zlen hs2 < 2 ^ 64 → last hs2 = Some x →
  (∀ y, head hs2 = Some y → hs = [] ∨ sn_Hash s = hd_ParentHash y) →
  replay config s hs2 l2 s2 → Forall2 (λ h a, recover h = Ret (Ok a)) hs2 l2 →
  replays nb (hs ++ hs2) (with_head (sn_Number s + zlen hs2) (Header_Hash x) s2).
Proof.
  intros (cp & l0 & l & s1 & Hb & HP & Hli & Hc & Hl & Hr & Hs & ->) HP2 Hli2 Hc2 Hl2 Hx Hlink Hr2 Hs2.
  cbn [sn_Number sn_Hash with_head] in *. destruct (replay_head _ _ _ _ _ _ _ Hr2) as (s3 & Hr3 & ->).
  exists cp, l0, (l ++ l2), s3. pose proof Hb as [Hu _]. rewrite zlen_app. split_and!; try done.
  - by apply Forall_app.
  - apply linked_app; [done|done|]. intros y z Hy Hz. destruct (Hlink z Hz) as [->|E]; [done|]. by rewrite Hy in E.
  - apply contiguous_app; [apply Hu|done..].
  - lia.
  - by eapply replay_app.
  - by apply Forall2_app.
  - unfold with_head. cbn. rewrite last_app, Hx. f_equal. lia.
Qed.

(** ** The caches *)

Record caches_ok (c : Clique) : Prop := {
  ca_recents : ∀ k s, arc_has (cl_recents c) k s → rooted s ∧ sn_Hash s = k;
  ca_db : ∀ k s, is_u256 k → loadSnapshot k (cl_db c) = Ok s → rooted s ∧ sn_Hash s = k;
  ca_sigs : sigs_ok P (cl_signatures c)
}.

Lemma Keccak_range b : is_u256 (Keccak256Hash b).
Proof.
  unfold Keccak256Hash, Bytes.BytesToHash. destruct (Keccak256_len b) as [Hl Hw].
  rewrite (proj2 (Z.ltb_ge 32 (zlen (Keccak256 b)))) by (unfold zlen; lia).
  pose proof (be_decode_range _ Hw) as H. rewrite Hl in H. exact H.
Qed.

Lemma Header_Hash_range x : is_u256 (Header_Hash x).
Proof. unfold Header_Hash, RlpHash. destruct (EncodeToBytes _); apply Keccak_range. Qed.

Lemma rooted_range s : rooted s → is_u256 (sn_Hash s).
Proof.
  intros (nb & hs & cp & l0 & l & s1 & _ & _ & _ & _ & _ & _ & _ & ->). cbn.
  destruct (last hs); apply Header_Hash_range.
Qed.

Lemma snap_key_inj h h' : is_u256 h → is_u256 h' → snap_key h = snap_key h' → h = h'.
Proof.
  unfold snap_key, Bytes.Hash_Bytes. intros H H' E. apply app_inv_head in E. apply (f_equal be_decode) in E.
  rewrite !be_decode_fixed in E. rewrite !Z.mod_small in E; done.
Qed.

Lemma recents_Get_spec h c :
  caches_ok c → ∃ r c', recents_Get h c = XRet (r, c') ∧ caches_ok c' ∧ cl_db c' = cl_db c ∧
    ∀ s, r = Some s → rooted s ∧ sn_Hash s = h.
Proof.
  intros [H1 H2 H3]. unfold recents_Get. destruct (arc_Get h (cl_recents c)) as [r rc] eqn:G.
  eexists _, _. split; [reflexivity|]. split_and!; [|done|].
  - split; cbn; [|done|done]. intros k s Hs. apply H1. apply arc_Get_keeps with (k := h). by rewrite G.
  - intros s ->. apply H1. unfold arc_has. by rewrite G.
Qed.

Lemma store_spec s c :
  caches_ok c → rooted s → ∃ r c', store s c = XRet (r, c') ∧ caches_ok c'.
Proof.
  intros Hok Hr. unfold store. destruct (json_Marshal s) as [blob|e] eqn:J; [|by eexists _, _].
  destruct (db_Put _ blob (cl_db c)) as [d|e] eqn:Ed; [|by eexists _, _]. eexists _, _. split; [reflexivity|].
  destruct Hok as [H1 H2 H3]. split; cbn; [done| |done]. intros k s' Hk. unfold loadSnapshot.
  rewrite (db_Get_Put _ _ _ _ _ Ed). destruct (decide (snap_key k = snap_key (sn_Hash s))) as [E|E].
  - cbn. rewrite (json_roundtrip s blob J). intros [= <-]. split; [done|].
    symmetry. apply snap_key_inj; [done|by apply rooted_range|done].
  - by apply H2.
Qed.

Lemma recents_Add_ok s c : caches_ok c → rooted s → ∃ c', recents_Add s c = XRet (tt, c') ∧ caches_ok c'.
Proof.
  intros [H1 H2 H3] Hr. eexists. split; [reflexivity|]. split; cbn; [|done|done].
  intros k s' [[-> ->]|?]%arc_Add_keeps; [done|by apply H1].
Qed.

(** ** The walk back *)

Lemma base_rooted nb cp l0 : base_of nb cp l0 → replays nb [] (newSnapshot nb (Header_Hash cp) l0).
Proof.
  intros Hb. exists cp, l0, [], (newSnapshot nb (Header_Hash cp) l0). change (zlen []) with 0.
  rewrite Z.add_0_r. pose proof Hb as [[? ?] _]. split_and!; try done; constructor.
Qed.

Lemma trusted_spec number headers :
  0 < Epoch config → is_u64 number → chain_ok → number + zlen headers ≤ top →
  ∃ r, trusted config number headers = Ret r ∧
    match r with
    | Some cp => GetHeaderByNumber number = Some cp ∧ Base number
    | None => 0 < number
    end.
Proof.
  intros He [Hn _] Hch Htop. pose proof (co_base Hch number headers) as Hb. unfold trusted in *.
  destruct (Z.eqb_spec number 0) as [->|].
  - destruct (co_genesis Hch) as [g Hg]. rewrite Hg in *. eexists. split; [done|]. split; [done|]. by apply (Hb g).
  - rewrite (proj2 (Z.eqb_neq (Epoch config) 0)) in * by lia. eexists. split; [done|].
    destruct (_ && _); [|lia]. destruct (GetHeaderByNumber number) as [cp|]; [|lia]. split; [done|]. by apply (Hb cp).
Qed.

Lemma step_back_spec number h parents :
  chain_ok → Forall P parents →
  match step_back number h parents with
  | Ok (x, ps) => P x ∧ Header_Hash x = h ∧ u64 (hd_Number x) = number ∧ Forall P ps
  | Err e => e = errUnknownAncestor
  end.
Proof.
  intros Hch HP. unfold step_back. destruct (last parents) as [x|] eqn:El.
  - apply last_Some in El as (ps & ->). apply Forall_app in HP as [HP [Hx _]%Forall_cons].
    rewrite removelast_last. destruct (Z.eqb_spec (Header_Hash x) h), (Z.eqb_spec (u64 (hd_Number x)) number);
      cbn [negb orb]; done.
  - destruct (GetHeader h number) as [x|] eqn:E; [|done]. apply (co_GetHeader Hch) in E. naive_solver.
Qed.

Definition found (h : hash) (number : Z) (headers : list Header) (s : Snapshot) (hs : list Header) : Prop :=
  ∃ new nb old, hs = headers ++ new ∧ descends P h number new ∧ replays nb old s ∧
    (old = [] ∧ sn_Number s = number - zlen new ∨
     sn_Hash s = match last new with Some x => hd_ParentHash x | None => h end).

Lemma found_here h number headers s nb old :
  replays nb old s → (old = [] ∧ sn_Number s = number ∨ sn_Hash s = h) → found h number headers s headers.
Proof. intros Hr Ho. exists [], nb, old. change (zlen []) with 0. by rewrite app_nil_r, Z.sub_0_r. Qed.

Lemma found_step h number headers x s hs :
  P x → Header_Hash x = h → u64 (hd_Number x) = number → 0 < number →
  found (hd_ParentHash x) (number - 1) (headers ++ [x]) s hs → found h number headers s hs.
Proof.
  intros HP Hh Hn H0 (new & nb & old & -> & Hd & Hr & Ho). exists (x :: new), nb, old.
  split_and!; [by rewrite <- app_assoc|done|done|]. destruct Ho as [[-> E]|E].
  { left. split; [done|]. rewrite E. unfold zlen; cbn [length]; lia. }
  right. rewrite E, last_cons. by destruct (last new).
Qed.

Lemma load_spec number h c :
  caches_ok c → is_u256 h →
  ∃ r, (if number mod checkpointInterval =? 0 then sread (λ c, loadSnapshot h (cl_db c)) else sret (Err EmptyString)) c
         = XRet (r, c) ∧ ∀ s, r = Ok s → rooted s ∧ sn_Hash s = h.
Proof.
  intros [_ H _] Hh. destruct (_ =? 0); (eexists; split; [reflexivity|]); [|done]. intros s. by apply H.
Qed.

Lemma find_spec fuel : ∀ number h parents headers c,
  0 < Epoch config → chain_ok → caches_ok c → Forall P parents → is_u64 number → is_u256 h →
  number + zlen headers ≤ top → (Z.to_nat number < fuel)%nat →
  match find_snapshot config fuel number h parents headers c with
  | XRet (r, c') => caches_ok c' ∧ ∀ s hs, r = Ok (s, hs) → found h number headers s hs
  | XPanic => ∃ x, P x ∧ extra_signers x = Panic
  | XFuel => False
  end.
Proof.
  induction fuel as [|fuel IH]; intros number h parents headers c He Hch Hca HP Hn Hh Htop Hf; [lia|].
  cbn [find_snapshot]. unfold sbind at 1.
  destruct (recents_Get_spec h c Hca) as (r & c1 & -> & Hca1 & _ & Hr). destruct r as [s|].
  { split; [done|]. intros s' hs [= <- <-]. destruct (Hr s eq_refl) as [(nb & old & Hro) Hs].
    eapply found_here; [done|by right]. }
  unfold sbind at 1. destruct (load_spec number h c1 Hca1 Hh) as (r & -> & Hl). destruct r as [s|e].
  { split; [done|]. intros s' hs [= <- <-]. destruct (Hl s eq_refl) as [(nb & old & Hro) Hs].
    eapply found_here; [done|by right]. }
  destruct (trusted_spec number headers He Hn Hch Htop) as (r & -> & Ht). unfold sbind at 1. cbn [sout sret].
  destruct r as [cp|].
  - destruct Ht as [Hcp Hb]. pose proof (proj1 (co_ByNumber Hch _ _ Hcp)) as HPcp. unfold sbind at 1.
    destruct (extra_signers cp) as [l0|] eqn:Ex; cbn [sout sret spanic]; [|by exists cp].
    pose proof (base_rooted number cp l0 (conj Hn (conj Hcp (conj Hb Ex)))) as Hro.
    destruct (store_spec (newSnapshot number (Header_Hash cp) l0) c1 Hca1) as (r & c2 & Es & Hca2); [by eexists _, _|].
    unfold stry, sbind. rewrite Es. destruct r; cbn; (split; [done|]); [|done].
    intros s hs [= <- <-]. eapply found_here; [exact Hro|by left].
  - pose proof (step_back_spec number h parents Hch HP) as Hsb. destruct (step_back number h parents) as [[x ps]|err];
      [|by split]. destruct Hsb as (HPx & Hhx & Hnx & HPs). destruct Hn as [Hn0 Hn1].
    unfold u64. rewrite wrap_id by (split; lia).
    specialize (IH (number - 1) (hd_ParentHash x) ps (headers ++ [x]) c1 He Hch Hca1 HPs ltac:(split; lia)
      (co_range Hch x HPx) ltac:(rewrite zlen_app; change (zlen [x]) with 1; lia) ltac:(lia)).
    destruct (find_snapshot _ _ _ _ _ _ c1) as [[r c2]| |]; [|done..]. destruct IH as [Hca2 IH]. split; [done|].
    intros s hs Hs. by apply (found_step h number headers x s hs), IH.
Qed.

(** The number a cached snapshot has under the hash of a block. *)
Lemma replays_under_hash nb hs s x :
  chain_ok → replays nb hs s → P x → sn_Hash s = Header_Hash x → sn_Number s = u64 (hd_Number x).
Proof.
  intros Hch (cp & l0 & l & s1 & (Hu & Hcp & _) & HP & _ & Hc & Hl & _ & _ & ->) Hx E. cbn in *.
  destruct (co_ByNumber Hch _ _ Hcp) as [HPcp Hncp].
  destruct (last hs) as [y|] eqn:El.
  - apply last_Some in El as (hs' & ->). apply Forall_app in HP as [_ [Hy _]%Forall_cons].
    apply (co_hash Hch y x Hy Hx) in E as ->. clear -Hc Hl Hu. revert nb Hu Hc Hl.
    induction hs' as [|z hs' IH]; intros nb Hu Hc Hl.
    + destruct (contiguous_cons nb x [] (proj1 Hu) Hl Hc) as (-> & _). by change (zlen ([] ++ [x])) with 1.
    + destruct (contiguous_cons nb z (hs' ++ [x]) (proj1 Hu) Hl Hc) as (_ & Hc' & Hl').
      rewrite <- (IH (nb + 1)); [unfold zlen; cbn [length app]; lia| |done|done].
      pose proof (zlen_nonneg (hs' ++ [x])). destruct Hu. split; lia.
  - apply last_None in El. subst hs. change (zlen []) with 0. rewrite Z.add_0_r.
    apply (co_hash Hch cp x HPcp Hx) in E as ->. done.
Qed.

(** Where the headers of the walk start. *)
Lemma found_number number new s nb old h :
  descends P h number new → new ≠ [] → replays nb old s → is_u64 number →
  contiguous (sn_Number s) (reverse new) = true → sn_Number s + zlen new = number.
Proof.
  intros Hd Hne Hr Hn Hc. destruct (descends_facts P new h number Hd) as (_ & _ & _ & Hla & Hz).
  destruct (replays_number nb old s Hr) as [_ [Hs0 Hs1]]. specialize (Hz Hne). destruct Hn.
  destruct (last new) as [y|] eqn:El; [|by apply last_None in El]. specialize (Hla y eq_refl).
  apply last_Some in El as (new' & ->). rewrite reverse_app in Hc. cbn [reverse app rev_append contiguous] in Hc.
  apply andb_prop in Hc as [E%Z.eqb_eq _]. rewrite Hla in E.
  destruct (decide (sn_Number s + 1 = 2 ^ 64)) as [E'|].
  - rewrite E' in E. unfold u64, wrap in E. rewrite Z_mod_same_full in E. lia.
  - unfold u64 in E. rewrite wrap_id in E by (split; lia). lia.
Qed.

(** From the snapshot found to the one asked for. *)
Lemma found_apply number h s new c :
  0 < Epoch config → chain_ok → sigs_ok P c → is_u64 number → found h number [] s new →
  (∃ x, P x ∧ Header_Hash x = h ∧ u64 (hd_Number x) = number) →
  match apply config s (reverse new) c with
  | XRet (r, c') => sigs_ok P c' ∧ ∀ s', r = Ok s' →
      ∃ nb hs, replays nb hs s' ∧ sn_Number s' = number ∧ (hs = [] ∨ sn_Hash s' = h)
  | XPanic => ∃ x, P x ∧ recover x = Panic
  | XFuel => False
  end.
Proof.
  intros He Hch Hc Hn (new' & nb & old & -> & Hd & Hr & Ho) (x & HPx & Hhx & Hnx). cbn [app].
  destruct (descends_facts P new' h number Hd) as (Hli & HP & Hhd & Hla & Hz).
  assert (Forall P (reverse new')) as HP' by (by rewrite Forall_reverse).
  pose proof (apply_run config P s (reverse new') c He (chain_seals Hch) Hc HP') as H.
  destruct (apply config s (reverse new') c) as [[r c']| |]; [| |done].
  2: { destruct H as (y & Hy & Hrec). exists y. split; [|done]. by eapply Forall_forall in HP'. }
  destruct H as [Hc' H]. split; [done|]. intros s' Hs'. destruct (H s' Hs') as (Hcon & l & s1 & Hre & Hse & Es).
  rewrite last_reverse in Es. destruct new' as [|y new'].
  - cbn in Es, Hre. inversion Hre; subst. exists nb, old. split; [done|].
    change (zlen []) with 0 in Ho. rewrite Z.sub_0_r in Ho. destruct Ho as [[-> E]|E]; [split; [done|by left]|].
    cbn in E. split; [|by right]. by rewrite (replays_under_hash nb old _ x).
  - destruct (Hhd y eq_refl) as [Ey Ny].
    pose proof (found_number number _ s nb old h Hd ltac:(done) Hr Hn Hcon) as En.
    assert (zlen (reverse (y :: new')) = zlen (y :: new')) as Ez by (unfold zlen; by rewrite length_reverse).
    cbn [head] in Es. subst s'. exists nb, (old ++ reverse (y :: new')).
    rewrite Ez, En. unfold u64. rewrite wrap_id by done. split; [|split; [done|by right]]. rewrite <- En, <- Ez.
    apply (replays_extend nb old s (reverse (y :: new')) l s1 y Hr HP' Hli Hcon); [rewrite Ez, En; apply Hn| | |done|done].
    + by rewrite last_reverse.
    + intros z Hz'. destruct Ho as [[-> _]|E]; [by left|right]. rewrite E. by rewrite head_reverse in Hz'; rewrite Hz'.
Qed.

Lemma snapshot_spec fuel number h parents c :
  0 < Epoch config → chain_ok → caches_ok c → Forall P parents → is_u64 number →
  (∃ x, P x ∧ Header_Hash x = h ∧ u64 (hd_Number x) = number) → number ≤ top → (Z.to_nat number < fuel)%nat →
  match snapshot config fuel number h parents c with
  | XRet (r, c') => caches_ok c' ∧ ∀ s, r = Ok s →
      ∃ nb hs, replays nb hs s ∧ sn_Number s = number ∧ (hs = [] ∨ sn_Hash s = h)
  | XPanic => ∃ x, P x ∧ (extra_signers x = Panic ∨ recover x = Panic)
  | XFuel => False
  end.
Proof.
  intros He Hch Hca HP Hn Hx Htop Hf. assert (is_u256 h) as Hh by (destruct Hx as (x & _ & <- & _); apply Header_Hash_range).
  pose proof (find_spec fuel number h parents [] c He Hch Hca HP Hn Hh
    ltac:(change (zlen []) with 0; lia) Hf) as Hfi.
  unfold snapshot, stry at 1, sbind at 1.
  destruct (find_snapshot config fuel number h parents [] c) as [[[[s new]|e] c1]| |]; [| | |done].
  2: by destruct Hfi. 2: naive_solver.
  destruct Hfi as [Hca1 Hfi]. specialize (Hfi s new eq_refl). pose proof Hca1 as [Hr1 Hd1 Hs1].
  pose proof (found_apply number h s new (cl_signatures c1) He Hch Hs1 Hn Hfi Hx) as Ha.
  unfold stry at 1, sbind at 1, on_sigs.
  destruct (apply config s (reverse new) (cl_signatures c1)) as [[r c2]| |]; [|naive_solver|done].
  destruct Ha as [Hs2 Ha]. assert (caches_ok (set_cl_signatures c2 c1)) as Hca2 by (by split).
  destruct r as [s'|e]; [|by split]. destruct (Ha s' eq_refl) as (nb & hs & Hro & Hend).
  assert (rooted s') as Hro' by (by exists nb, hs).
  destruct (recents_Add_ok s' _ Hca2 Hro') as (c3 & Eadd & Hca3). unfold sbind at 1. rewrite Eadd.
  destruct (_ && _).
  - destruct (store_spec s' c3 Hca3 Hro') as (r & c4 & Est & Hca4). unfold stry, sbind. rewrite Est.
    destruct r; cbn; (split; [done|]); [|done]. intros ? [= <-]. by exists nb, hs.
  - cbn. split; [done|]. intros ? [= <-]. by exists nb, hs.
Qed.

(** ** One snapshot per block and checkpoint *)

Lemma linked_unique hs : ∀ hs',
  (∀ x y, P x → P y → Header_Hash x = Header_Hash y → x = y) → Forall P hs → Forall P hs' →
  length hs = length hs' → linked hs → linked hs' →
  Header_Hash <$> last hs = Header_Hash <$> last hs' → hs = hs'.
Proof.
  induction hs as [|x hs IH] using rev_ind; intros hs' Hinj HP HP' Hlen Hl Hl' Hla.
  { by destruct hs'. }
  destruct hs' as [|y hs' _] using rev_ind; [by rewrite length_app in Hlen; cbn in Hlen; lia|].
  rewrite !last_snoc in Hla. apply Forall_app in HP as [HP [Hx _]%Forall_cons].
  apply Forall_app in HP' as [HP' [Hy _]%Forall_cons]. cbn in Hla.
  assert (x = y) as -> by (apply Hinj; congruence). f_equal. rewrite !length_app in Hlen. cbn in Hlen.
  assert (∀ l z, linked (l ++ [z]) → linked l ∧ (∀ w, last l = Some w → Header_Hash w = hd_ParentHash z)) as Hsn.
  { intros l z. induction l as [|u l IHl]; [done|]. destruct l as [|v l]; cbn [app linked last].
    - intros [E _]. split; [done|]. by intros w [= <-].
    - intros [E Ht]. destruct (IHl Ht) as [? ?]. by split. }
  apply Hsn in Hl as [Hl Hxl], Hl' as [Hl' Hyl]. apply IH; [done..|lia|done|done|].
  destruct (last hs) as [w|] eqn:E1, (last hs') as [w'|] eqn:E2; cbn.
  - by rewrite (Hxl w), (Hyl w').
  - apply last_None in E2. subst. destruct hs; [done|cbn in Hlen; lia].
  - apply last_None in E1. subst. destruct hs'; [done|cbn in Hlen; lia].
  - done.
Qed.

Lemma replay_det s hs l s1 s2 : replay config s hs l s1 → replay config s hs l s2 → s1 = s2.
Proof.
  intros H. revert s2. induction H as [s|s h hs a l s1 s' Ha Hr IH]; intros s2 H2; inversion H2; subst; [done|].
  apply IH. congruence.
Qed.

Lemma seals_unique hs : ∀ l l' : list address,
  Forall2 (λ h a, recover h = Ret (Ok a)) hs l → Forall2 (λ h a, recover h = Ret (Ok a)) hs l' → l' = l.
Proof.
  induction hs as [|h hs IH]; intros l l' H H'; inversion H; inversion H'; subst; [done|].
  f_equal; [congruence|by apply IH].
Qed.

Lemma replays_unique nb hs hs' s s' :
  chain_ok → replays nb hs s → replays nb hs' s' → sn_Number s = sn_Number s' →
  (hs = [] ∨ sn_Hash s = sn_Hash s') → s = s'.
Proof.
  intros Hch (cp & l0 & l & s1 & (Hu & Hcp & _ & Hex) & HP & Hli & _ & _ & Hr & Hs & ->)
    (cp' & l0' & l' & s1' & (_ & Hcp' & _ & Hex') & HP' & Hli' & _ & _ & Hr' & Hs' & ->) Hn Hh.
  cbn in Hn, Hh. assert (cp' = cp) as -> by congruence. assert (l0' = l0) as -> by congruence.
  assert (length hs = length hs') as Hlen by (unfold zlen in Hn; lia).
  assert (hs = hs') as <-.
  { destruct Hh as [->|Hh]; [by destruct hs'|].
    apply linked_unique; [apply (co_hash Hch)|done..|].
    destruct (last hs) as [x|] eqn:E1, (last hs') as [x'|] eqn:E2; cbn; [by f_equal| | |done].
    - apply last_None in E2. subst. destruct hs; [done|cbn in Hlen; lia].
    - apply last_None in E1. subst. destruct hs'; [done|cbn in Hlen; lia]. }
  assert (l' = l) as ->.
  { by eapply seals_unique. }
  by rewrite (replay_det _ _ _ _ _ Hr Hr').
Qed.

(** ** What a lookup leaves alone *)

Definition same_node (c c' : Clique) : Prop :=
  cl_proposals c' = cl_proposals c ∧ cl_signer c' = cl_signer c ∧ cl_fakeDiff c' = cl_fakeDiff c.
Definition keeps_node {A} (m : St Clique A) : Prop := ∀ c a c', m c = XRet (a, c') → same_node c c'.

Lemma keeps_ret {A} (a : A) : keeps_node (sret a).
Proof. intros c x c' [= <- <-]. done. Qed.
Lemma keeps_bind {A C} (m : St Clique A) (f : A → St Clique C) :
  keeps_node m → (∀ a, keeps_node (f a)) → keeps_node (sbind m f).
Proof.
  intros Hm Hf c x c' H. unfold sbind in H. destruct (m c) as [[a c1]| |] eqn:E; [|done..].
  destruct (Hm _ _ _ E) as (? & ? & ?), (Hf a _ _ _ H) as (? & ? & ?). split_and!; congruence.
Qed.
Lemma keeps_try {E A C} (m : St Clique (result E A)) (f : A → St Clique (result E C)) :
  keeps_node m → (∀ a, keeps_node (f a)) → keeps_node (stry m f).
Proof. intros Hm Hf. apply keeps_bind; [done|]. intros [a|e]; [done|apply keeps_ret]. Qed.
Lemma keeps_out {A} (o : outcome A) : keeps_node (sout o).
Proof. destruct o; [apply keeps_ret|]. by intros c x c'. Qed.
Lemma keeps_read {A} (f : Clique → A) : keeps_node (sread f).
Proof. by intros c x c' [= <- <-]. Qed.
Lemma keeps_sigs {A} (m : St (arc address) A) : keeps_node (on_sigs m).
Proof. intros c x c' H. unfold on_sigs in H. by destruct (m (cl_signatures c)) as [[a sc]| |]; simplify_eq. Qed.
Lemma keeps_store s : keeps_node (store s).
Proof. intros c x c' H. unfold store in H. by repeat case_match; simplify_eq. Qed.
Lemma keeps_Get h : keeps_node (recents_Get h).
Proof. intros c x c' H. unfold recents_Get in H. by destruct (arc_Get h (cl_recents c)); simplify_eq. Qed.
Lemma keeps_Add s : keeps_node (recents_Add s).
Proof. by intros c x c' [= <- <-]. Qed.
Hint Resolve keeps_ret keeps_out keeps_read keeps_sigs keeps_store keeps_Get keeps_Add : core.

Lemma find_node fuel : ∀ number h parents headers, keeps_node (find_snapshot config fuel number h parents headers).
Proof.
  induction fuel as [|fuel IH]; intros number h parents headers; [by intros c a c'|].
  cbn [find_snapshot]. apply keeps_bind; [done|]. intros [s|]; [done|]. apply keeps_bind; [by destruct (_ =? 0)|].
  intros [s|e]; [done|]. apply keeps_bind; [done|]. intros [cp|].
  - apply keeps_bind; [done|]. intros l. by apply keeps_try.
  - destruct (step_back number h parents) as [[x ps]|]; [apply IH|done].
Qed.

Lemma snapshot_node fuel number h parents : keeps_node (snapshot config fuel number h parents).
Proof.
  unfold snapshot. apply keeps_try; [apply find_node|]. intros [s hs]. apply keeps_try; [done|]. intros s'.
  apply keeps_bind; [done|]. intros _. destruct (_ && _); [by apply keeps_try|done].
Qed.

(** ** Verified seals *)

(** The parent of a header is a known block. *)
Definition parent_known (header : Header) : Prop :=
  0 < u64 (hd_Number header) ∧
  ∃ x, P x ∧ Header_Hash x = hd_ParentHash header ∧ u64 (hd_Number x) = u64 (hd_Number header) - 1.

(** The snapshot of the parent, in a successful lookup. *)
Definition parent_snapshot (header : Header) (s : Snapshot) : Prop :=
  ∃ nb hs, replays nb hs s ∧ sn_Number s = u64 (hd_Number header) - 1 ∧ (hs = [] ∨ sn_Hash s = hd_ParentHash header).

Lemma u64_pred header : 0 < u64 (hd_Number header) → u64 (u64 (hd_Number header) - 1) = u64 (hd_Number header) - 1.
Proof. intros H. assert (is_u64 (u64 (hd_Number header))) as [] by (by apply wrap_range). unfold u64 at 1. apply wrap_id. split; lia. Qed.

Lemma parent_lookup fuel header parents c s c' :
  0 < Epoch config → chain_ok → caches_ok c → Forall P parents → parent_known header →
  u64 (hd_Number header) ≤ top → (Z.to_nat (u64 (hd_Number header)) ≤ fuel)%nat →
  snapshot config fuel (u64 (u64 (hd_Number header) - 1)) (hd_ParentHash header) parents c = XRet (Ok s, c') →
  parent_snapshot header s ∧ caches_ok c' ∧ same_node c c'.
Proof.
  intros He Hch Hca HP [H0 Hx] Htop Hf H. rewrite u64_pred in H by done.
  assert (is_u64 (u64 (hd_Number header))) as [] by (by apply wrap_range).
  pose proof (snapshot_spec fuel (u64 (hd_Number header) - 1) (hd_ParentHash header) parents c He Hch Hca HP
    ltac:(split; lia) Hx ltac:(lia) ltac:(lia)) as Hs.
  rewrite H in Hs. destruct Hs as [Hca' Hs]. destruct (Hs s eq_refl) as (nb & hs & Hr & Hn & Hh).
  split_and!; [by exists nb, hs|done|]. by eapply snapshot_node.
Qed.

(** What a verified seal says. *)
Definition sealed_by (fake : bool) (header : Header) (s : Snapshot) (a : address) : Prop :=
  recover header = Ret (Ok a) ∧ a ∈ sn_Signers s ∧ signed_recently (u64 (hd_Number header)) a s = false ∧
  (fake = false → ∃ turn, inturn (u64 (hd_Number header)) a s = Ret turn ∧
     hd_Difficulty header = if turn : bool then diffInTurn else diffNoTurn).

Lemma verifySeal_inv fuel header parents c c' :
  0 < Epoch config → chain_ok → caches_ok c → Forall P parents → P header → parent_known header →
  u64 (hd_Number header) ≤ top → (Z.to_nat (u64 (hd_Number header)) ≤ fuel)%nat →
  verifySeal config fuel header parents c = XRet (Ok tt, c') →
  ∃ s a, parent_snapshot header s ∧ sealed_by (cl_fakeDiff c) header s a ∧ caches_ok c'.
Proof.
  intros He Hch Hca HPs HP Hpk Htop Hf H. unfold verifySeal in H.
  destruct (_ =? 0); [done|]. unfold stry at 1, sbind at 1 in H.
  destruct (snapshot _ _ _ _ _ c) as [[[s|e] c1]| |] eqn:Es; [|done..].
  destruct (parent_lookup fuel header parents c s c1 He Hch Hca HPs Hpk Htop Hf Es) as (Hps & Hca1 & _ & _ & Hfk).
  pose proof Hca1 as [Hr1 Hd1 Hs1]. pose proof (ecrecover_spec P _ header (chain_seals Hch) Hs1 HP) as Hec.
  unfold stry at 1, sbind at 1, on_sigs in H. destruct (recover header) as [[a|e]|] eqn:Er; [| |by rewrite Hec in H];
    destruct Hec as (sc & Ec & Hsc); rewrite Ec in H; [|done].
  destruct (decide _) as [|Hm%dec_stable]; [done|]. destruct (signed_recently _ _ _) eqn:Esr; [done|].
  exists s, a. split; [done|]. cbv [sbind sread sret sout] in H. cbn [cl_fakeDiff set_cl_signatures] in H.
  assert (caches_ok (set_cl_signatures sc c1)) as Hca2 by (by split). rewrite Hfk in H.
  destruct (cl_fakeDiff c) eqn:Ef.
  - simplify_eq. split; [|done]. split_and!; done.
  - destruct (inturn _ a s) as [turn|] eqn:Et; [|done].
    assert (hd_Difficulty header = (if turn then diffInTurn else diffNoTurn) ∧ c' = set_cl_signatures sc c1) as [Hdiff ->].
    { destruct turn; cbn [negb andb] in H; destruct (hd_Difficulty header =? _) eqn:E in H; cbn [negb andb] in H;
        simplify_eq; by apply Z.eqb_eq in E. }
    split; [|done]. split_and!; [done..|]. intros _. by exists turn.
Qed.

(** Where the genesis block is the only base, lookups agree. *)
Lemma parent_snapshot_unique header s s' :
  chain_ok → (∀ n, Base n → n = 0) → parent_snapshot header s → parent_snapshot header s' → s = s'.
Proof.
  intros Hch Hb (nb & hs & Hr & Hn & Hh) (nb' & hs' & Hr' & Hn' & Hh').
  assert (nb = 0) as -> by (destruct Hr as (? & ? & ? & ? & (_ & _ & Hx & _) & _); by apply Hb).
  assert (nb' = 0) as -> by (destruct Hr' as (? & ? & ? & ? & (_ & _ & Hx & _) & _); by apply Hb).
  apply (replays_unique 0 hs hs'); [done..|congruence|].
  destruct (replays_number _ _ _ Hr) as [E _], (replays_number _ _ _ Hr') as [E' _].
  destruct Hh as [->|Hh]; [by left|]. destruct Hh' as [->|Hh']; [|right; congruence].
  left. destruct hs; [done|]. unfold zlen in *. cbn in *. lia.
Qed.

Lemma made_verifies fuel now s a parent h c c1 c2 :
  0 < Epoch config → chain_ok → made_for config s a parent h → hd_Time h ≤ u64 now → hd_GasLimit h ≤ 0x7fffffffffffffff →
  hd_GasUsed h ≤ hd_GasLimit h → VerifyEip1559Header parent h = Ret (Ok tt) →
  0 < u64 (hd_Number h) → P h → recover h = Ret (Ok a) → a ∈ sn_Signers s →
  signed_recently (u64 (hd_Number h)) a s = false → sn_Number s = u64 (hd_Number h) - 1 →
  snapshot config fuel (u64 (u64 (hd_Number h) - 1)) (hd_ParentHash h) [] c = XRet (Ok s, c1) →
  snapshot config fuel (u64 (u64 (hd_Number h) - 1)) (hd_ParentHash h) [] c1 = XRet (Ok s, c2) →
  sigs_ok P (cl_signatures c2) →
  ∃ c3, verifyHeader config fuel now h [] c = XRet (Ok tt, c3).
Proof.
  intros He Hch Hm Ht Hg Hgu Hfee Hn HP Hrec Ha Hsr Hsn E1 E2 Hsig.
  unfold verifyHeader. rewrite (proj2 (Z.eqb_neq (Epoch config) 0)), andb_false_r by lia.
  rewrite (made_standalone config s a parent h now He Hm Ht Hg). destruct Hm as [H1 _ _ H4 H5 (v & q & Hv & Hq & E)].
  unfold verifyCascadingFields, parent_of. rewrite (proj2 (Z.eqb_neq (u64 (hd_Number h)) 0)) by lia. cbn [last].
  rewrite H1. destruct (co_GetHeader Hch _ _ _ H1) as (_ & Hph & Hpn). rewrite Hph, Hpn, !Z.eqb_refl. cbn [negb orb].
  rewrite !(proj2 (Z.ltb_ge _ _)) by lia. rewrite Hfee. cbv [sbind sout sret]. unfold stry, sbind. rewrite E1.
  rewrite (proj2 (Z.eqb_neq (Epoch config) 0)) by lia.
  assert ((u64 (hd_Number h) mod Epoch config =? 0) && negb (bool_decide
    (slice (hd_Extra h) extraVanity (zlen (hd_Extra h) - extraSeal) = signer_bytes s)) = false) as ->.
  { unfold checkpoint_list in E. destruct (_ =? 0); [|done]. cbn [andb]. rewrite bool_decide_true; [done|].
    rewrite E, !zlen_app, Hv, Hq. change extraVanity with 32. change extraSeal with 65. apply slice_app_mid; lia. }
  unfold verifySeal. rewrite (proj2 (Z.eqb_neq (u64 (hd_Number h)) 0)) by lia. unfold stry, sbind. rewrite E2.
  unfold on_sigs. pose proof (ecrecover_spec P (cl_signatures c2) h (chain_seals Hch) Hsig HP) as Hec.
  rewrite Hrec in Hec. destruct Hec as (sc & Ec & _). rewrite Ec. rewrite decide_False by (by intros []). rewrite Hsr.
  cbv [sread sret sout]. destruct (cl_fakeDiff _); [by eexists|].
  unfold clique_calcDifficulty in H4. rewrite Hsn, Z.sub_add in H4.
  unfold u64 at 1 in H4. rewrite wrap_id in H4 by (by apply wrap_range).
  destruct (inturn _ a s) as [[|]|]; [| |done]; cbn in H4; injection H4 as <-; cbn; by eexists.
Qed.

End Spec.

(** ** Theorems *)

Section Theorems.
Context {B : Backend} {BOk : BackendOk B} {R : Recover} {SC : Arc address} {SCOk : ArcOk SC} {RC : Arc Snapshot} {RCOk : ArcOk RC}.
Context {D : SnapStore} {DOk : SnapStoreOk D} {Ch : ChainReader}.

(** C26: a snapshot lookup is a replay: whatever the memory cache, the database
    and the signature cache hold, as long as it was put there by lookups, the
    snapshot of a block is the replay of the linked headers from a trusted
    checkpoint to it, has its number, keeps the voting invariant, and any other
    replay from the same checkpoint to the same block gives the same snapshot;
    the caches stay good after failures too; the walk back ends within one
    round per block, and only a malformed checkpoint or header makes it
    panic. *)
Theorem snapshot_is_replay config P Base top fuel number h parents c :
  0 < Epoch config → chain_ok config P Base top → caches_ok config P Base c → Forall P parents → is_u64 number →
  (∃ x, P x ∧ Header_Hash x = h ∧ u64 (hd_Number x) = number) → number ≤ top → (Z.to_nat number < fuel)%nat →
  match snapshot config fuel number h parents c with
  | XRet (r, c') => caches_ok config P Base c' ∧ ∀ s, r = Ok s →
      sn_Number s = number ∧ good (Epoch config) number s ∧
      ∃ nb hs, replays config P Base nb hs s ∧ (hs = [] ∨ sn_Hash s = h) ∧
        ∀ hs' s', replays config P Base nb hs' s' → sn_Number s' = number → sn_Hash s' = sn_Hash s → s' = s
  | XPanic => ∃ x, P x ∧ (extra_signers x = Panic ∨ recover x = Panic)
  | XFuel => False
  end.
Proof.
  intros He Hch Hca HP Hn Hx Htop Hf.
  pose proof (snapshot_spec config P Base top fuel number h parents c He Hch Hca HP Hn Hx Htop Hf) as H.
  destruct (snapshot _ _ _ _ _ c) as [[r c']| |]; [|done..]. destruct H as [Hca' H]. split; [done|]. intros s Hs.
  destruct (H s Hs) as (nb & hs & Hr & Hnum & Hh). split; [done|].
  split; [rewrite <- Hnum; by eapply replays_good|]. exists nb, hs. split_and!; [done..|].
  intros hs' s' Hr' Hn' Hh'. apply (replays_unique config P Base top nb hs' hs); [done..|congruence|by right].
Qed.

(** C27: what the seal check accepts a later replay accepts: the header is sealed
    by a member of the parent's snapshot, its difficulty tells whether it is
    the member's turn, and once as many blocks as the window holds are there,
    applying the header to the snapshot succeeds. *)
Theorem verified_seal_applies config P Base top fuel header parents c c' :
  0 < Epoch config → chain_ok config P Base top → caches_ok config P Base c → Forall P parents → P header →
  parent_known P header → u64 (hd_Number header) ≤ top → (Z.to_nat (u64 (hd_Number header)) ≤ fuel)%nat →
  vote_of_nonce (hd_Nonce header) ≠ None →
  verifySeal config fuel header parents c = XRet (Ok tt, c') →
  ∃ s a, parent_snapshot config P Base header s ∧ recover header = Ret (Ok a) ∧ a ∈ sn_Signers s ∧
    (cl_fakeDiff c = false → ∃ turn, inturn (u64 (hd_Number header)) a s = Ret turn ∧
       hd_Difficulty header = if turn : bool then diffInTurn else diffNoTurn) ∧
    (signer_limit s ≤ u64 (hd_Number header) → ∀ sigs, sigs_ok P sigs →
       ∃ s' sigs', apply config s [header] sigs = XRet (Ok s', sigs')).
Proof.
  intros He Hch Hca HPs HP Hpk Htop Hf Hv H.
  destruct (verifySeal_inv config P Base top fuel header parents c c' He Hch Hca HPs HP Hpk Htop Hf H)
    as (s & a & Hps & (Hrec & Ha & Hsr & Hd) & _).
  exists s, a. split_and!; [done..|]. intros Hl sigs Hs. destruct Hps as (nb & hs & Hr & Hn & _).
  destruct (replays_number _ _ _ _ _ _ Hr) as [_ Hu]. pose proof (replays_good _ _ _ _ _ _ He Hr) as Hg.
  assert (is_u64 (u64 (hd_Number header))) as [_ Hm] by (by apply wrap_range).
  assert (u64 (hd_Number header) = sn_Number s + 1) as Hn1 by lia.
  destruct (apply_one config P s header a sigs He Hu ltac:(lia) (chain_seals _ _ _ _ Hch) Hs HP Hrec Hn1) as (c1 & _ & E).
  pose proof (next_signer config (sn_Number s) s header a He (proj1 Hu) Hg Hn1 Hv) as Hx.
  rewrite E. destruct (apply_signed _ header a) as [s1|e]; [by eexists _, _|]. exfalso.
  destruct Hx as [[_ ?]|[_ Hb]]; [done|]. rewrite Hn1 in Hsr, Hl, Hm.
  apply (seal_check_exact (sn_Number s) a s) in Hb; [congruence|apply Hu|done|apply Hg|done].
Qed.

(** C29: a node accepts its own blocks: a header that [Prepare] makes, filled in
    with a body and sealed by [Seal] with a signature of the node's key, passes
    [verifyHeader], whatever the caches did in between, provided its time has
    come, its gas fields and base fee fit the parent, the two lookups of the
    parent's snapshot that [verifyHeader] makes succeed, and all replays from
    trusted checkpoints agree on that snapshot. *)
Theorem own_block_verifies config P Base top fuel pick now0 h0 c0 h c1 hf signFn random nowN txs h' delay c2 parent now
    s3 c3 s4 c4 :
  0 < Epoch config → chain_ok config P Base top → caches_ok config P Base c0 →
  (∀ s s', parent_snapshot config P Base h0 s → parent_snapshot config P Base h0 s' → s = s') →
  Prepare config fuel pick now0 h0 c0 = XRet (Ok h, c1) → filled h hf →
  Seal config fuel signFn random nowN txs hf c1 = XRet (Ok (Some (h', delay)), c2) →
  P h' → recover h' = Ret (Ok (cl_signer c0)) →
  u64 (hd_Number h0) ≤ top → (Z.to_nat (u64 (hd_Number h0)) ≤ fuel)%nat →
  GetHeader (hd_ParentHash h') (u64 (u64 (hd_Number h') - 1)) = Some parent →
  VerifyEip1559Header parent h' = Ret (Ok tt) → hd_GasUsed h' ≤ hd_GasLimit h' ≤ 0x7fffffffffffffff →
  hd_Time h' ≤ u64 now →
  snapshot config fuel (u64 (u64 (hd_Number h') - 1)) (hd_ParentHash h') [] c2 = XRet (Ok s3, c3) →
  snapshot config fuel (u64 (u64 (hd_Number h') - 1)) (hd_ParentHash h') [] c3 = XRet (Ok s4, c4) →
  ∃ c5, verifyHeader config fuel now h' [] c2 = XRet (Ok tt, c5).
Proof.
  intros He Hch Hca Hb HP Hfil HS HPh Hrec Htop Hf Hpar Hfee Hgas Ht E3 E4.
  apply Prepare_inv in HP as (s1 & parent' & E1 & Hm & Hph & Hnum).
  pose proof Hfil as (F1 & F2 & _). apply Seal_inv in HS as (s2 & sg & Hn0 & E2 & Ha & Hw & Hps).
  assert (made_for config s1 (cl_signer c1) parent' h') as Hm' by (by eapply made_sealed; [eapply made_filled|]).
  assert (hd_ParentHash h' = hd_ParentHash h0 ∧ hd_Number h' = hd_Number h0) as [G1 G2].
  { unfold put_seal in Hps. destruct (_ <? 0); [done|]. injection Hps as <-. cbn. split; congruence. }
  rewrite F1, F2, Hph, Hnum in E2. rewrite F2, Hnum in Hn0, Hw. rewrite G1, G2 in Hpar, E3, E4.
  assert (parent_known P h0) as Hpk.
  { assert (is_u64 (u64 (hd_Number h0))) as [] by (by apply wrap_range). split; [lia|]. exists parent.
    destruct (co_GetHeader _ _ _ _ Hch _ _ _ Hpar) as (? & ? & Hx). rewrite Hx, u64_pred by lia. done. }
  destruct (parent_lookup _ _ _ _ _ _ _ _ _ _ He Hch Hca (List.Forall_nil _) Hpk Htop Hf E1) as (P1 & Hca1 & _ & Hs1 & _).
  destruct (parent_lookup _ _ _ _ _ _ _ _ _ _ He Hch Hca1 (List.Forall_nil _) Hpk Htop Hf E2) as (P2 & Hca2 & _).
  destruct (parent_lookup _ _ _ _ _ _ _ _ _ _ He Hch Hca2 (List.Forall_nil _) Hpk Htop Hf E3) as (P3 & Hca3 & _).
  destruct (parent_lookup _ _ _ _ _ _ _ _ _ _ He Hch Hca3 (List.Forall_nil _) Hpk Htop Hf E4) as (P4 & Hca4 & _).
  rewrite (Hb s2 s1 P2 P1) in *. rewrite (Hb s3 s1 P3 P1) in *. rewrite (Hb s4 s1 P4 P1) in *. rewrite Hs1 in Hm', Ha, Hw.
  assert (parent' = parent) as -> by (pose proof (mf_parent _ _ _ _ _ Hm') as Hx; rewrite G1, G2, Hpar in Hx; congruence).
  destruct P1 as (nb & hs & _ & Hsn & _).
  eapply (made_verifies config P Base top fuel now s1 (cl_signer c0) parent h' c2 c3 c4); try done;
    rewrite ?G1, ?G2; try done; [lia|lia|apply Hpk|by apply no_wait|by destruct Hca4].
Qed.

End Theorems.

(** ** Instances and examples *)

#[export] Instance MapStore : SnapStore := {|
  db_t := gmap bytes Snapshot;
  json := Snapshot;
  db_Get d k := match d !! k with Some s => Ok s | None => Err "not found"%string end;
  db_Put k v d := Ok (<[k := v]> d);
  json_Marshal s := Ok s;
  json_Unmarshal s := Ok s
|}.
#[export] Instance MapStoreOk : SnapStoreOk MapStore.
Proof.
  split.
  - intros k v d d' k' [= <-]. cbn. destruct (decide (k' = k)) as [->|];
      [rewrite lookup_insert_eq|rewrite lookup_insert_ne by done]; done.
  - by intros s b [= <-].
Qed.

(** A genesis block with five signers, and blocks on it. *)
Definition demo_genesis : Header :=
  mkHeader 0 0 0 0 0 [] 1 0 30000000 15000000 100
    (repeat 0 32 ++ concat (Address_Bytes <$> [1; 2; 3; 4; 5]) ++ repeat 0 65) nonceDropVote (Some 1000000000).
Definition child (parent : Header) (signer difficulty : Z) : Header :=
  mkHeader (Header_Hash parent) 0 0 0 0 [] difficulty (hd_Number parent + 1) 30000000 15000000 (hd_Time parent + 15)
    (repeat 0 96 ++ [signer]) nonceDropVote (Some 1000000000).
Definition block1 : Header := child demo_genesis 1 1.
Definition block2 : Header := child block1 1 1.
Definition other2 : Header := child block1 2 1.
Definition other3 : Header := child other2 3 1.

#[export] Instance DemoReader : ChainReader := {|
  GetHeader h n := if (h =? Header_Hash demo_genesis) && (n =? 0) then Some demo_genesis else None;
  GetHeaderByNumber n := if n =? 0 then Some demo_genesis else None;
  GetHeaderByHash h := if h =? Header_Hash demo_genesis then Some demo_genesis else None;
  CurrentHeader := Some demo_genesis
|}.

Definition clique0 : Clique (SC := MapArc address) (RC := MapArc Snapshot) := mkClique ∅ ∅ ∅ ∅ 3 false.

(** The block the third signer makes on the genesis block. *)
Definition demo_sign (a : address) (_ : bytes) : result string bytes := Ok (repeat 0 64 ++ [a]).
Definition ran {S A} (a : A) (s : S) (r : xres (result clique_error A * S)) : A * S :=
  match r with XRet (Ok a, s) => (a, s) | _ => (a, s) end.
Definition succeeded {S A} (r : xres (result clique_error A * S)) : bool :=
  match r with XRet (Ok _, _) => true | _ => false end.
Lemma ran_ok {S A} (a : A) (s : S) r : succeeded r = true → r = XRet (Ok (ran a s r).1, (ran a s r).2).
Proof. by destruct r as [[[x|e] s1]| |]. Qed.

Definition draft : Header := mkHeader (Header_Hash demo_genesis) 0 0 0 0 [] 0 1 30000000 15000000 0 [] [] (Some 1000000000).
Definition prep_run := Prepare demo_config 2 0 120 draft clique0.
Definition prepared := ran draft clique0 prep_run.
Definition seal_run := Seal demo_config 2 demo_sign (λ _, 0) 120 1 prepared.1 prepared.2.
Definition sealed_own := ran None clique0 seal_run.
Definition own_block : Header := match sealed_own.1 with Some (h, _) => h | None => draft end.

Definition demo_headers : list Header := [demo_genesis; block1; block2; other2; other3; own_block].
Definition in_demo (x : Header) : Prop := x ∈ demo_headers.

Lemma demo_hashes :
  NoDup (Header_Hash <$> demo_headers) ∧ Forall (λ x, is_u256 (hd_ParentHash x)) demo_headers.
Proof. split; apply (bool_decide_eq_true_1 _); vm_compute; reflexivity. Qed.

Lemma demo_chain_ok : chain_ok demo_config in_demo (λ n, n = 0) 100.
Proof.
  destruct demo_hashes as [HN HR]. split.
  - intros h n x. cbn [GetHeader DemoReader]. destruct (Z.eqb_spec h (Header_Hash demo_genesis)) as [->|]; [|discriminate].
    destruct (Z.eqb_spec n 0) as [->|]; [|discriminate]. intros [= <-]. split_and!; [by left|reflexivity|reflexivity].
  - intros n x. cbn [GetHeaderByNumber DemoReader]. destruct (Z.eqb_spec n 0) as [->|]; [|discriminate].
    intros [= <-]. split; [by left|reflexivity].
  - by exists demo_genesis.
  - intros x y Hx Hy E. unfold in_demo in *. apply list_elem_of_lookup in Hx as [i Hi], Hy as [j Hj].
    assert (i = j) as ->; [|congruence]. eapply NoDup_lookup; [exact HN| |].
    + rewrite list_lookup_fmap, Hi. reflexivity.
    + rewrite list_lookup_fmap, Hj. cbn. by rewrite E.
  - intros x Hx. by eapply Forall_forall in HR.
  - intros n headers cp _. unfold trusted. cbn [GetHeaderByNumber DemoReader]. destruct (Z.eqb_spec n 0); [done|].
    destruct (Epoch demo_config =? 0); [discriminate|]. by destruct (_ && _).
Qed.

Lemma demo_in i x : demo_headers !! i = Some x → in_demo x.
Proof. apply list_elem_of_lookup_2. Qed.

Lemma clique0_ok : caches_ok demo_config in_demo (λ n, n = 0) clique0.
Proof.
  split.
  - intros k s. unfold arc_has. cbn. by rewrite lookup_empty.
  - intros k s _. unfold loadSnapshot. cbn. by rewrite lookup_empty.
  - apply demo_sigs.
Qed.

Lemma snapshot_is_replay_witness :
  ∃ s c', snapshot demo_config 2 1 (Header_Hash block1) [block1] clique0 = XRet (Ok s, c') ∧ sn_Number s = 1 ∧
    good 30000 1 s.
Proof.
  pose proof (snapshot_is_replay demo_config in_demo (λ n, n = 0) 100 2 1 (Header_Hash block1) [block1] clique0) as H.
  assert (succeeded (snapshot demo_config 2 1 (Header_Hash block1) [block1] clique0) = true) as Ho
    by (vm_compute; reflexivity).
  destruct (snapshot demo_config 2 1 (Header_Hash block1) [block1] clique0) as [[[s|e] c']| |]; [|discriminate Ho..].
  exists s, c'. split; [reflexivity|].
  destruct H as [_ H]; [reflexivity|apply demo_chain_ok|apply clique0_ok|apply Forall_cons; split; [by right; left|constructor]
    |split; reflexivity || lia|exists block1; split_and!; [by right; left|reflexivity|reflexivity]|lia|cbn; lia|].
  destruct (H s eq_refl) as (Hn & Hg & _). by split.
Defined.

Lemma other3_known : parent_known in_demo other3.
Proof.
  split; [vm_compute; reflexivity|]. exists other2. split; [by apply (demo_in 3)|]. unfold other3, child. cbn [hd_ParentHash].
  split; [reflexivity|vm_compute; reflexivity].
Qed.

Lemma verified_seal_applies_witness :
  ∃ s a, recover other3 = Ret (Ok a) ∧ a ∈ sn_Signers s ∧
    (signer_limit s ≤ 3 → ∃ s' sigs', apply (SC := MapArc address) demo_config s [other3] ∅ = XRet (Ok s', sigs')).
Proof.
  assert (succeeded (verifySeal demo_config 3 other3 [block1; other2] clique0) = true) as Ho by (vm_compute; reflexivity).
  destruct (verifySeal demo_config 3 other3 [block1; other2] clique0) as [[[[]|e] c']| |] eqn:E; [|discriminate Ho..].
  destruct (verified_seal_applies demo_config in_demo (λ n, n = 0) 100 3 other3 [block1; other2] clique0 c')
    as (s & a & _ & Hr & Ha & _ & H);
    [reflexivity|apply demo_chain_ok|apply clique0_ok|constructor; [by apply (demo_in 1)|constructor; [by apply (demo_in 3)|constructor]]
    |by apply (demo_in 4)
    |apply other3_known
    |vm_compute; discriminate|vm_compute; lia|discriminate|exact E|].
  exists s, a. split; [exact Hr|]. split; [exact Ha|]. intros Hl. apply H; [exact Hl|apply demo_sigs].
Defined.

(** Two blocks in a row by one of five signers: the seal of the second is
    accepted, and the chain cannot be replayed past it. *)
Lemma repeated_signer_verifies :
  succeeded (verifySeal demo_config 2 block2 [block1] clique0) = true ∧
  match snapshot demo_config 3 2 (Header_Hash block2) [block1; block2] clique0 with
  | XRet (Err errRecentlySigned, _) => true
  | _ => false
  end = true.
Proof. vm_compute. split; reflexivity. Qed.

Definition look (c : Clique (SC := MapArc address) (RC := MapArc Snapshot)) :=
  snapshot demo_config 2 0 (Header_Hash demo_genesis) [] c.
Definition look1 := ran demo_signers clique0 (look sealed_own.2).
Definition look2 := ran demo_signers clique0 (look look1.2).

Lemma own_runs :
  succeeded prep_run = true ∧ succeeded seal_run = true ∧ succeeded (look sealed_own.2) = true ∧
  succeeded (look look1.2) = true.
Proof. vm_compute. done. Qed.

Lemma own_fields :
  sealed_own.1 = Some (own_block, 119999999880) ∧ hd_ParentHash own_block = Header_Hash demo_genesis ∧
  hd_Number own_block = 1.
Proof. vm_compute. done. Qed.

Lemma own_block_verifies_witness :
  ∃ c5, verifyHeader demo_config 2 120 own_block [] sealed_own.2 = XRet (Ok tt, c5).
Proof.
  destruct own_runs as (R1 & R2 & R3 & R4), own_fields as (E & Hp & Hn).
  pose proof (ran_ok draft clique0 prep_run R1) as E1. pose proof (ran_ok None clique0 seal_run R2) as E2.
  pose proof (ran_ok demo_signers clique0 _ R3) as E3. pose proof (ran_ok demo_signers clique0 _ R4) as E4.
  change (ran None clique0 seal_run) with sealed_own in E2. rewrite E in E2.
  eapply (own_block_verifies demo_config in_demo (λ n, n = 0) 100 2 0 120 draft clique0 prepared.1 prepared.2 prepared.1
    demo_sign (λ _, 0) 120 1 own_block 119999999880 sealed_own.2 demo_genesis 120 look1.1 look1.2 look2.1 look2.2);
    [reflexivity|apply demo_chain_ok|apply clique0_ok|
     intros x y; apply (parent_snapshot_unique demo_config in_demo (λ n, n = 0) 100); [apply demo_chain_ok|by intros n]|exact E1|apply filled_refl|exact E2|by apply (demo_in 5)
    |vm_compute; reflexivity|vm_compute; discriminate|vm_compute; lia|rewrite Hp, Hn; reflexivity|vm_compute; reflexivity
    |split; vm_compute; discriminate|vm_compute; discriminate|rewrite Hp, Hn; exact E3|rewrite Hp, Hn; exact E4].
Defined.
